(* ===== verification/_CoqProject ===== *)
-Q . S2P
Prelude.v
BngDigit.v
Bng.v
BngSpec.v
BngProof.v
BngBasic.v
BngDivRem.v
BngTable.v
Mlvalues.v
NatStubs.v
Int64Emul.v
Int64.v
ParseInt.v
Int64Format.v
Ints.v
ExternOutput.v
InternInput.v
Custom.v
InterpState.v
Interp.v
InterpCalls.v
InterpArith.v
InterpObjects.v
MarshalHeap.v
Extern.v
Intern.v
MarshalBytes.v
MarshalTrail.v
MarshalRestore.v
MarshalDump.v
MarshalDecode.v
MarshalRead.v
MarshalRefine.v
MarshalIso.v
MarshalRoundtrip.v
Marshal.v
Md5.v
Md5Proof.v
Io.v
IoOut.v
IoIn.v
IoClients.v
IoClosed.v
Compare.v
CompareProof.v
CompareOrder.v
Hash.v
StrMatch.v
StrProof.v
StrSearch.v
StrSafe.v
StrReplace.v
Gc.v
GcGraph.v
GcInv.v
GcMark.v
GcWeak.v
GcTurn.v
GcCycle.v
GcLive.v
GcTheorems.v
Freelist.v
FlTile.v
FlFree.v
FlBlock.v
FlSweep.v
FlAlloc.v
GcEnd.v
GcCollect.v
FlTheorems.v
PageTable.v
PageTableProof.v
AllocShr.v
Minor.v
MinorInv.v
MinorCopy.v
MinorAlloc.v
AllocGrow.v
MinorTheorems.v
Lexing.v
