(* ===== verification/Prelude.v ===== *)
(** A verification of the C code of the OCaml runtime system and libraries of
    src/inline-more.

    * The program

    The repository is an OCaml 3.12 distribution.  Its C code is the bytecode
    runtime (byterun), the arbitrary-precision arithmetic of the library num
    (otherlibs/num), other libraries that are bindings, and ocamlyacc (yacc).
    The development follows the runtime from the bottom up: machine words and
    values, integer arithmetic of all widths, the bytecode machine, then
    marshalling, digests and buffered channels, which are composed; the generic
    comparison and hashing of values; the regular expressions of the library
    Str; the automata of lexers; and the memory: the two collectors, the free
    list, the growth of the heap and the page table.

    * Files and what they model

    - Prelude: machine integers ([wrap], [swrap]), the configuration of a
      machine (class [Arch]: word size and endianness), results of fallible
      code ([res], with OCaml exceptions [exn]), lists indexed by [Z],
      tactics and hints.
    - Mlvalues: mlvalues.h and gc.h, tagged integers, headers, colours.
    - BngDigit, Bng: bng_digit.c and bng.c over a word-addressed memory
      [mem], where operands may overlap; the table [bng_operations] is a
      record, its laws are the class [BngOk] of BngSpec.  BngProof, BngBasic
      and BngDivRem prove the laws of the generic entries, BngTable
      the properties of the table.  NatStubs: nat_stubs.c, proved against
      [BngOk] so that the theorems hold for every table.
    - Int64Emul, Int64: int64_emul.h and int64_native.h; the class [Int64Ok]
      is what their clients rely on, and both satisfy it.  ParseInt and Ints:
      ints.c.  Int64Format: int64_format.h.
    - InterpState, Interp: interp.c with the parts of fail.c, stacks.c and
      obj.c it uses; the state of the machine is a record, [step] executes
      one instruction and [caml_interprete] iterates it.  InterpCalls,
      InterpArith and InterpObjects hold the theorems.
    - ExternOutput, InternInput: the output chain and the byte primitives of
      extern.c and intern.c.  Custom: the marshalling functions of boxed
      integers and of big naturals.
    - MarshalHeap, Extern, Intern: the traversal of extern.c, which overwrites
      the objects it has seen and records how to undo it, and intern.c, which
      rebuilds the graph in an area of raw words.  MarshalTrail and
      MarshalRestore show that the heap is restored.  MarshalDump is an
      abstract traversal of the graph into tokens; MarshalRefine shows that
      [extern_rec] implements it; MarshalBytes, MarshalDecode,
      MarshalRead, MarshalIso and MarshalRoundtrip that it terminates and that
      [intern_rec] rebuilds the graph from the tokens; Marshal composes them.
    - Md5, Md5Proof: md5.c, with MD5 as a function of the whole message.
    - Io: io.c in a monad of state and exceptions over a channel and the
      system, which is the class [System] of calls with the laws
      [SystemLaws] of IoOut.  IoOut and IoIn: channels implement a file and a
      position; IoClosed: closed channels; IoClients: marshalling and digests
      on channels.
    - Compare: compare.c, with the trees that values denote; CompareProof
      relates the two, CompareOrder has the theorems on the primitives.
      Hash: hash.c.
    - StrMatch: strstubs.c; StrProof relates the matcher to one that copies
      its variables, StrSearch is about searches, StrSafe about accesses,
      StrReplace about replacement.
    - Lexing: lexing.c, its two engines, the automaton that a table denotes,
      the theorems, and checkers of tables.
    - Gc: the marking half of major_gc.c with the parts of memory.c, roots.c,
      finalise.c and weak.c it calls.  The heap is raw words, the state of the
      collector a record, and a mutator is a sequence of stores and changes of
      roots between slices.  GcGraph: well-formed heaps and reachability;
      GcInv: the tri-colour invariant; GcMark, GcWeak, GcTurn: it is kept by
      each operation; GcCycle, GcLive: whole cycles, the measure that
      decreases, what is blackened; GcTheorems: the theorems and an example.
    - Freelist: freelist.c and the sweeping half of major_gc.c.  FlTile: the
      heap as a sequence of blocks and fragments; FlFree, FlBlock: freeing and
      its merges; FlSweep: sweeping; FlAlloc: next-fit allocation.  GcEnd
      and GcCollect follow a cycle from marking to sweeping;
      FlTheorems has the theorems.
    - PageTable: the page table of memory.c and memory.h; the class [Pages] is
      what its clients see, with the laws [Pages_ok].  PageTableProof proves
      them for both implementations.
    - AllocShr: [caml_alloc_shr] of memory.c, with the growth of the heap,
      over Freelist and the class [Pages].
    - Minor: minor_gc.c with its roots (roots.c, finalise.c), over an
      allocator, the class [Shared_heap].  MinorInv: the promise of the
      allocator [Shared_heap_ok], the images of values, the invariant;
      MinorCopy: copying, the to-do list, roots and weak references;
      MinorAlloc: AllocShr keeps the promise; AllocGrow: the growth of the heap;
      MinorTheorems: the theorems, on collections, allocation and the write
      barrier, and examples.

    * What the theorems show

    - Arithmetic: every operation of the table of bng.c computes what its
      comment says on the numbers denoted, on the whole memory, for 32 and 64
      bits; the software 64-bit integers agree with the native ones;
      literals are accepted exactly when they fit; formatting and parsing are
      inverse; divisions are total or raise.
    - Bytecode machine: calling conventions, exception handlers, closures,
      tagged arithmetic and method dispatch with its cache.
    - Marshalling: a value written by one machine is read by another, of
      another word size and other byte orders, as an isomorphic graph,
      sharing and cycles included, for graphs without abstract or custom blocks
      whose integers and blocks fit the machine that reads; the traversal
      terminates on cycles; the heap is restored on success and on the
      exceptions of extern.c, but not when the serializer of a custom block
      raises; the output chain and the user buffer are not overrun.
    - Digests and channels: the incremental MD5 is the MD5 function;
      channels lose, repeat and reorder nothing, over any sequence of
      partial, interrupted and failing system calls.
    - Comparison and hashing: the primitives of comparison are the
      lexicographic comparison of trees, a total preorder for compare; equal
      values have equal hashes.  The trees are no deeper than the limit of
      the explicit stack.
    - Str: the matcher implements a backtracking matcher without side effects,
      it accesses nothing out of bounds; its answer does not depend on the
      groups of earlier matches when a program only tests groups of its own;
      searches return the first match; the two passes of replacement agree,
      except on groups that end before they start, which partial matches
      can leave.
    - Lexers: an engine returns the longest match of the automaton; a refill
      of the buffer changes nothing; the engine with memory cells finds the
      same matches and keeps inside its tables and cells.
    - Collector: marking keeps the tri-colour invariant between any stores of
      the program, never loses a reachable block, ends, and blackens exactly
      the reachable blocks when the program does nothing; a whole cycle keeps
      what is reachable, frees what neither the program nor finalised values
      reach, and erases the weak pointers to unreachable blocks; sweeping merges
      adjacent free blocks; freeing and next-fit allocation keep the free list
      well formed; the table of the first-fit policy is updated as it should
      unless its array on the stack is overrun.
    - Allocation: [caml_alloc_shr], next-fit, gives a fresh block of the right
      colour, growing the heap by a chunk when it must; chunks are ordered,
      registered in the page table and counted.
    - Minor collector: a collection copies blocks once each, with the images
      of their fields, and leaves no pointer to the minor heap if the
      locations of such pointers were recorded, which [caml_modify] does.
      Forwarding blocks to [Atom(0)] are excluded: one makes the collector
      read outside of every block.
    - Page table: a map from pages to kinds, for any sequence of updates.

    * Bounds and fuel

    Loops on counters are structural.  A [while] loop whose number of turns
    depends on the data takes a fuel argument, and [Stuck] (or [None]) is the
    result when it is exhausted, when memory is accessed out of bounds or
    when the C code would have no defined behaviour; the theorems state that
    the result is not [Stuck] with an explicit amount of fuel: one turn per
    byte of the buffer for flushes, two per byte for [caml_really_putblock]
    (a call on a full buffer stores nothing but makes room), the size of the
    file for digests, three nested calls of [extern_rec] for each block, for
    the block itself, an infix pointer and a forwarding block in front of
    it; for a cycle of the collector, a measure on the colours of the heap;
    the size of the table for a search in the page table; one turn per
    character of the buffer and one more for a lexer; for a minor
    collection of n blocks, n turns of the to-do list and 3 n + 3 jumps of
    [caml_oldify_one].

    * Not modelled

    Floating-point conversions and their formatting; the engine of parsers
    (parsing.c); compaction, allocation
    in the minor heap and the pacing of the two collectors; collections during the bytecode
    machine's and the marshaller's work, which as modelled never allocate
    while they hold raw addresses; running out of memory, except in the page
    table, in channels, in the gray stack, in [caml_alloc_shr] and for strings that are too
    long; signals inside blocking sections, locks and threads; the
    bindings to operating systems and graphics; assembly variants of the
    digit primitives, which the class [BngOk] specifies. *)
From Stdlib Require Import ZArith Lia Bool Ascii String List.
Import ListNotations.
Local Open Scope Z_scope.

(** * Notation scope *)

Declare Scope c_scope.
Delimit Scope c_scope with c.

Notation "'let*' p ':=' e 'in' k" :=
  (match e with Some p => k | None => None end)
  (at level 10, p pattern, e at level 100, k at level 200,
   format "'let*'  p  ':='  e  'in' '//' k") : c_scope.

(** * Results of primitives

    A primitive returns a value, raises an OCaml exception, or is [Stuck]: the
    C code has no defined result there (undefined behaviour, or a loop that
    does not terminate). *)

Inductive exn :=
  | Failure (msg : string)
  | Invalid_argument (msg : string)
  | Division_by_zero
  | Not_found
  | End_of_file
  | Out_of_memory
  | Stack_overflow
  | Sys_error
  | Sys_blocked_io.

Inductive res (T : Type) := Ok (x : T) | Raise (e : exn) | Stuck.
Arguments Ok {T} x.
Arguments Raise {T} e.
Arguments Stuck {T}.

Notation "'let!' p ':=' e 'in' k" :=
  (match e with Ok p => k | Raise e' => Raise e' | Stuck => Stuck end)
  (at level 10, p pattern, e at level 100, k at level 200,
   format "'let!'  p  ':='  e  'in' '//' k") : c_scope.

(** The result of a loop that may not terminate. *)
Definition of_option {T} (o : option T) : res T :=
  match o with Some x => Ok x | None => Stuck end.

(** Strings are lists of bytes, a byte being a number in 0..255. *)
Definition chr (c : ascii) : Z := Z.of_N (N_of_ascii c).
Arguments chr c%_char_scope.
Definition bytes_of (s : string) : list Z := map chr (list_ascii_of_string s).
Arguments bytes_of s%_string_scope.

(** * Configuration of the target

    [ARCH_SIXTYFOUR] and [ARCH_BIG_ENDIAN] of config/m.h are the configuration
    switches the modelled code depends on; every theorem below holds for all
    four combinations unless it names an instance. *)

Class Arch := { ARCH_SIXTYFOUR : bool; ARCH_BIG_ENDIAN : bool }.

(** Number of bits of [intnat], [uintnat] and [value]. *)
Definition WORD {A : Arch} : Z := if ARCH_SIXTYFOUR then 64 else 32.

(** Machines used in the examples. *)
Definition arch64 : Arch := {| ARCH_SIXTYFOUR := true; ARCH_BIG_ENDIAN := false |}.
Definition arch32 : Arch := {| ARCH_SIXTYFOUR := false; ARCH_BIG_ENDIAN := false |}.
Definition big32 : Arch := {| ARCH_SIXTYFOUR := false; ARCH_BIG_ENDIAN := true |}.

Lemma WORD_cases {A : Arch} : WORD = 32 \/ WORD = 64.
Proof. unfold WORD. destruct ARCH_SIXTYFOUR; auto. Qed.

Lemma WORD_pos {A : Arch} : 32 <= WORD <= 64.
Proof. destruct WORD_cases as [-> | ->]; lia. Qed.

(** * Machine integers

    An unsigned [w]-bit integer is a [Z] in [0 .. 2^w - 1]; [wrap] is the
    conversion every C assignment to such a type performs.  A signed one is a
    [Z] in [-2^(w-1) .. 2^(w-1) - 1]; [swrap] is the two's complement
    conversion. *)

Definition wrap (w x : Z) : Z := x mod 2 ^ w.

Definition swrap (w x : Z) : Z :=
  let y := wrap w x in if y <? 2 ^ (w - 1) then y else y - 2 ^ w.

Definition uint (w x : Z) : Prop := 0 <= x < 2 ^ w.
Definition sint (w x : Z) : Prop := - 2 ^ (w - 1) <= x < 2 ^ (w - 1).

(** The value of a C comparison used as an integer. *)
Definition b2z (b : bool) : Z := if b then 1 else 0.

(** * Word-addressed memory

    A memory maps word addresses to word contents; [upd] is a store.  Pointers
    are addresses, so that two pointers into the same block alias exactly as in
    the C code. *)

Definition mem := Z -> Z.

Definition upd (m : mem) (a v : Z) : mem := fun x => if x =? a then v else m x.

Notation "m .[ a <- v ]" := (upd m a v)
  (at level 1, left associativity, a at level 200, v at level 200,
   format "m .[ a  <-  v ]") : c_scope.

Open Scope c_scope.

(** Contents equal outside the half-open interval [lo, hi). *)
Definition same_outside (lo hi : Z) (m m' : mem) : Prop :=
  forall x, x < lo \/ hi <= x -> m' x = m x.

(** * Loops

    [while cond body k s] runs the C loop [while (cond) body] for at most [2^k]
    iterations; [None] means that the bound was reached with [cond] still
    true.  Unfolding is lazy in the number of iterations really made, so the
    definition computes for [k] as large as the word size. *)

Section While.
Context {S : Type} (cond : S -> bool) (body : S -> S).

Inductive outcome := Done (s : S) | More (s : S).

Fixpoint while_aux (k : nat) (s : S) : outcome :=
  match k with
  | O => if cond s then More (body s) else Done s
  | Datatypes.S k =>
      match while_aux k s with
      | Done s' => Done s'
      | More s' => while_aux k s'
      end
  end.

Definition while (k : nat) (s : S) : option S :=
  match while_aux k s with
  | Done s' => Some s'
  | More s' => if cond s' then None else Some s'
  end.

(** The loop rule: an invariant and a measure below [2^k]. *)
Variable I : S -> Prop.
Variable mu : S -> Z.
Hypothesis step :
  forall s, I s -> cond s = true -> I (body s) /\ 0 <= mu (body s) < mu s.

Lemma while_aux_rule k : forall s, I s -> 0 <= mu s ->
  match while_aux k s with
  | Done s' => I s' /\ cond s' = false
  | More s' => I s' /\ 0 <= mu s' /\ mu s' + 2 ^ Z.of_nat k <= mu s
  end.
Proof.
  induction k as [|k IH]; intros s Hs Hm; cbn [while_aux].
  - destruct (cond s) eqn:E; [|auto].
    destruct (step s Hs E) as [H1 H2]. cbn. repeat split; auto; lia.
  - pose proof (IH s Hs Hm) as H1.
    destruct (while_aux k s) as [s1|s1]; auto.
    destruct H1 as (H1 & H2 & H3).
    pose proof (IH s1 H1 H2) as H4.
    destruct (while_aux k s1) as [s2|s2]; auto.
    destruct H4 as (H4 & H5 & H6). repeat split; auto.
    rewrite Nat2Z.inj_succ, Z.pow_succ_r by lia. lia.
Qed.

Lemma while_rule k s : I s -> 0 <= mu s < 2 ^ Z.of_nat k ->
  exists s', while k s = Some s' /\ I s' /\ cond s' = false.
Proof.
  intros Hs Hm. unfold while.
  pose proof (while_aux_rule k s Hs (proj1 Hm)) as H.
  destruct (while_aux k s) as [s'|s'].
  - exists s'; intuition.
  - lia.
Qed.
End While.

(** * Tactics *)

(** Case analysis on every boolean integer comparison of the goal. *)
Ltac zbool :=
  repeat match goal with
  | |- context [?a <? ?b] => destruct (Z.ltb_spec a b)
  | |- context [?a <=? ?b] => destruct (Z.leb_spec a b)
  | |- context [?a =? ?b] => destruct (Z.eqb_spec a b)
  end.

(** Split conjunctions only, without unfolding definitions. *)
Ltac conj := repeat match goal with |- _ /\ _ => split end.

(** For concrete examples: evaluation, and the cases of the membership in a list, or of
    an index in a range, that evaluate. *)
Ltac by_vm := vm_compute; reflexivity.
Ltac each H := vm_compute in H; repeat (destruct H as [<-|H]); [..|contradiction H].
Lemma small_index i n : 0 <= i < n -> In i (map Z.of_nat (seq 0 (Z.to_nat n))).
Proof. intros H. apply in_map_iff. exists (Z.to_nat i). split; [lia|]. apply in_seq. lia. Qed.
Ltac each_index H := apply small_index in H; each H.

(** * Lemmas on machine integers *)

Lemma pow2_pos w : 0 <= w -> 0 < 2 ^ w.
Proof. intros. apply Z.pow_pos_nonneg; lia. Qed.

Lemma wrap_range w x : 0 <= w -> 0 <= wrap w x < 2 ^ w.
Proof. intros. apply Z.mod_pos_bound, pow2_pos; auto. Qed.

Lemma wrap_small w x : 0 <= x < 2 ^ w -> wrap w x = x.
Proof. apply Z.mod_small. Qed.

(** A quotient is within one of zero for the sums and differences of words. *)
Lemma wrap_cases w x : 0 <= w -> - 2 ^ w <= x < 2 * 2 ^ w ->
  (x < 0 /\ wrap w x = x + 2 ^ w) \/
  (0 <= x < 2 ^ w /\ wrap w x = x) \/
  (2 ^ w <= x /\ wrap w x = x - 2 ^ w).
Proof.
  intros Hw Hx. unfold wrap. pose proof (pow2_pos w Hw).
  destruct (Z_lt_ge_dec x 0); [left | right; destruct (Z_lt_ge_dec x (2 ^ w))].
  - split; [lia|]. symmetry. apply Z.mod_unique with (q := -1); lia.
  - left. split; [lia|]. apply Z.mod_small; lia.
  - right. split; [lia|]. symmetry. apply Z.mod_unique with (q := 1); lia.
Qed.

Lemma wrap_eqm w x : 0 <= w -> exists q, x = q * 2 ^ w + wrap w x.
Proof.
  intros Hw. exists (x / 2 ^ w). unfold wrap. pose proof (pow2_pos w Hw).
  rewrite Z.mul_comm. apply Z.div_mod. lia.
Qed.

Lemma wrap_idemp w x : 0 <= w -> wrap w (wrap w x) = wrap w x.
Proof. intros. apply wrap_small, wrap_range; auto. Qed.

Lemma wrap_wrap_add_l w x y : wrap w (wrap w x + y) = wrap w (x + y).
Proof. unfold wrap. now rewrite Zplus_mod_idemp_l. Qed.

Lemma wrap_wrap_add_r w x y : wrap w (x + wrap w y) = wrap w (x + y).
Proof. unfold wrap. now rewrite Zplus_mod_idemp_r. Qed.

Lemma wrap_add_mul w x q : wrap w (x + q * 2 ^ w) = wrap w x.
Proof. unfold wrap. apply Z_mod_plus_full. Qed.

Lemma swrap_range w x : 0 < w -> - 2 ^ (w - 1) <= swrap w x < 2 ^ (w - 1).
Proof.
  intros Hw. unfold swrap. pose proof (wrap_range w x ltac:(lia)).
  assert (2 ^ w = 2 * 2 ^ (w - 1)) by (rewrite <- Z.pow_succ_r by lia; f_equal; lia).
  destruct (Z.ltb_spec (wrap w x) (2 ^ (w - 1))); lia.
Qed.

Lemma swrap_small w x : 0 < w -> - 2 ^ (w - 1) <= x < 2 ^ (w - 1) -> swrap w x = x.
Proof.
  intros Hw Hx. unfold swrap.
  assert (E : 2 ^ w = 2 * 2 ^ (w - 1)) by (rewrite <- Z.pow_succ_r by lia; f_equal; lia).
  destruct (wrap_cases w x ltac:(lia) ltac:(lia)) as [[? ->]|[[? ->]|[? ->]]]; zbool; lia.
Qed.

Lemma swrap_eqm w x : 0 < w -> exists q, swrap w x = x + q * 2 ^ w.
Proof.
  intros Hw. unfold swrap. destruct (wrap_eqm w x ltac:(lia)) as [q Hq].
  destruct (_ <? _); [exists (- q) | exists (- q - 1)]; lia.
Qed.

Lemma swrap_congr w x y q : x = y + q * 2 ^ w -> swrap w x = swrap w y.
Proof. intros ->. unfold swrap. now rewrite wrap_add_mul. Qed.

Lemma wrap_congr w x y q : x = y + q * 2 ^ w -> wrap w x = wrap w y.
Proof. intros ->. apply wrap_add_mul. Qed.

Lemma wrap_swrap w x : 0 < w -> wrap w (swrap w x) = wrap w x.
Proof. intros Hw. destruct (swrap_eqm w x Hw) as [q ->]. apply wrap_add_mul. Qed.

Lemma swrap_wrap w x : 0 <= w -> swrap w (wrap w x) = swrap w x.
Proof. intros Hw. unfold swrap. now rewrite wrap_idemp. Qed.

Lemma swrap_idemp w x : 0 < w -> swrap w (swrap w x) = swrap w x.
Proof. intros Hw. apply swrap_small, swrap_range; auto. Qed.

(** The bits of a signed word: those of the number, the sign extended. *)
Lemma swrap_testbit w x i : 0 < w -> 0 <= i ->
  Z.testbit (swrap w x) i = if i <? w then Z.testbit x i else Z.testbit x (w - 1).
Proof.
  intros Hw Hi. destruct (Z.ltb_spec i w) as [L | L].
  - rewrite <- (Z.mod_pow2_bits_low (swrap w x) w i) by lia.
    change (swrap w x mod 2 ^ w) with (wrap w (swrap w x)). rewrite wrap_swrap by lia.
    apply Z.mod_pow2_bits_low. lia.
  - pose proof (wrap_range w x ltac:(lia)) as R.
    assert (P : 2 ^ w = 2 * 2 ^ (w - 1)) by (rewrite <- Z.pow_succ_r by lia; f_equal; lia).
    assert (T : Z.testbit x (w - 1) = negb (wrap w x <? 2 ^ (w - 1))).
    { rewrite <- (Z.mod_pow2_bits_low x w (w - 1)) by lia. fold (wrap w x).
      rewrite Z.testbit_eqb by lia. destruct (Z.ltb_spec (wrap w x) (2 ^ (w - 1))).
      - now rewrite Z.div_small by lia.
      - replace (wrap w x / 2 ^ (w - 1)) with 1; auto.
        apply Z.div_unique with (wrap w x - 2 ^ (w - 1)); lia. }
    rewrite T. unfold swrap. destruct (Z.ltb_spec (wrap w x) (2 ^ (w - 1))); cbn [negb].
    + unfold wrap. apply Z.mod_pow2_bits_high. lia.
    + replace (wrap w x - 2 ^ w) with (Z.lnot (2 ^ w - 1 - wrap w x)) by (unfold Z.lnot; lia).
      rewrite Z.lnot_spec by lia. rewrite <- (Z.mod_small (2 ^ w - 1 - wrap w x) (2 ^ w)) by lia.
      now rewrite Z.mod_pow2_bits_high by lia.
Qed.

(** Bitwise operations commute with the conversion to a signed word. *)
Lemma swrap_bitop w op f x y : 0 < w ->
  (forall a b i, Z.testbit (op a b) i = f (Z.testbit a i) (Z.testbit b i)) ->
  op (swrap w x) (swrap w y) = swrap w (op x y).
Proof.
  intros Hw Hop. apply Z.bits_inj'. intros i Hi.
  rewrite Hop, !swrap_testbit by auto. now destruct (i <? w); rewrite Hop.
Qed.

Lemma b2z_range b : 0 <= b2z b <= 1.
Proof. destruct b; cbn; lia. Qed.

(** [lor] of two numbers with no common bit is their sum. *)
Lemma lor_shiftl_add x y k : 0 <= k -> 0 <= y < 2 ^ k ->
  Z.lor (x * 2 ^ k) y = x * 2 ^ k + y.
Proof.
  intros Hk Hy. rewrite <- Z.lxor_lor, <- Z.add_nocarry_lxor; auto.
  all: apply Z.bits_inj'; intros i Hi; rewrite Z.land_spec, Z.bits_0.
  all: destruct (Z_lt_ge_dec i k);
    [ rewrite Z.mul_pow2_bits_low by lia; reflexivity
    | rewrite <- (Z.mod_small y (2 ^ k)) by lia;
      rewrite Z.mod_pow2_bits_high by lia; apply andb_false_r ].
Qed.

Lemma lor_shiftl_add_r x y k : 0 <= k -> 0 <= y < 2 ^ k ->
  Z.lor y (x * 2 ^ k) = x * 2 ^ k + y.
Proof. intros. rewrite Z.lor_comm. now apply lor_shiftl_add. Qed.

(** * Memory lemmas *)

Lemma upd_same m a v : m.[a <- v] a = v.
Proof. unfold upd. now rewrite Z.eqb_refl. Qed.

Lemma upd_other m a v x : x <> a -> m.[a <- v] x = m x.
Proof. unfold upd. intros H. now rewrite (proj2 (Z.eqb_neq x a) H). Qed.

Lemma same_outside_refl lo hi m : same_outside lo hi m m.
Proof. now intros x _. Qed.

Lemma same_outside_trans lo hi m1 m2 m3 :
  same_outside lo hi m1 m2 -> same_outside lo hi m2 m3 -> same_outside lo hi m1 m3.
Proof. intros H1 H2 x Hx. rewrite H2, H1; auto. Qed.

Lemma same_outside_weaken lo hi lo' hi' m m' :
  lo' <= lo -> hi <= hi' -> same_outside lo hi m m' -> same_outside lo' hi' m m'.
Proof. intros H1 H2 H x Hx. apply H. lia. Qed.

Lemma same_outside_upd lo hi m a v : lo <= a < hi -> same_outside lo hi m m.[a <- v].
Proof. intros H x Hx. apply upd_other. lia. Qed.

(** [words m]: every cell holds a machine word. *)
Definition words {A : Arch} (m : mem) : Prop := forall x, uint WORD (m x).

Lemma words_upd {A : Arch} m a v : words m -> uint WORD v -> words m.[a <- v].
Proof.
  intros Hm Hv x. unfold upd. destruct (x =? a); auto.
Qed.

Create HintDb mem discriminated.
Create Rewrite HintDb mem.
#[export] Hint Resolve same_outside_refl same_outside_upd words_upd : mem.
#[export] Hint Rewrite upd_same : mem.

(** * Concrete memories, for examples *)

Definition mem_of (l : list Z) : mem := fun x => nth (Z.to_nat x) l 0.

Definition words_b {A : Arch} (l : list Z) : bool :=
  forallb (fun v => (0 <=? v) && (v <? 2 ^ WORD)) l.

Lemma words_mem_of {A : Arch} l : words_b l = true -> words (mem_of l).
Proof.
  intros H x. unfold mem_of, uint. unfold words_b in H. rewrite forallb_forall in H.
  destruct (nth_in_or_default (Z.to_nat x) l 0) as [Hi | ->].
  - apply H in Hi. apply andb_true_iff in Hi as [H1 H2].
    apply Z.leb_le in H1. apply Z.ltb_lt in H2. lia.
  - pose proof WORD_pos. pose proof (pow2_pos WORD). lia.
Qed.
