(* ===== verification/BngDigit.v ===== *)
(** BngDigit: the digit primitives of the big-number library, src/inline-more/
    otherlibs/num/bng_digit.c and bng.h, on digits of one machine word: addition
    and subtraction with carries, full multiplication by halves and division of
    two digits by one.  Each is proved equal to its arithmetic meaning. *)
From Stdlib Require Import ZArith Lia List Bool.
From S2P Require Import Prelude.
Local Open Scope Z_scope.

Section BngDigit.
Context {A : Arch}.

(** ** Digits (bng.h, bng_digit.c) *)

Definition BNG_BITS_PER_DIGIT : Z := WORD.
Definition BNG_BITS_PER_HALF_DIGIT : Z := WORD / 2.

(** Assignment to a variable of type [bngdigit]. *)
Definition bngdigit (x : Z) : Z := wrap BNG_BITS_PER_DIGIT x.

(** Assignment to a variable of type [bngcarry], an [unsigned int]. *)
Definition bngcarry (x : Z) : Z := wrap 32 x.

(** The digit macros return the pair (res, carryout). *)

Definition BngAdd2 (arg1 arg2 : Z) : Z * Z :=
  let tmp1 := arg1 in
  let tmp2 := bngdigit (tmp1 + arg2) in
  (tmp2, b2z (tmp2 <? tmp1)).

Definition BngAdd2Carry (arg1 arg2 carryin : Z) : Z * Z :=
  let tmp1 := arg1 in
  let tmp2 := bngdigit (tmp1 + arg2) in
  let tmp3 := bngdigit (tmp2 + carryin) in
  (tmp3, b2z (tmp2 <? tmp1) + b2z (tmp3 <? tmp2)).

(** [BngAdd3] and [BngSub3] return (res, carryaccu); the accumulator is a
    digit at every use. *)
Definition BngAdd3 (carryaccu arg1 arg2 arg3 : Z) : Z * Z :=
  let tmp1 := arg1 in
  let tmp2 := bngdigit (tmp1 + arg2) in
  let carryaccu := bngdigit (carryaccu + b2z (tmp2 <? tmp1)) in
  let tmp3 := bngdigit (tmp2 + arg3) in
  let carryaccu := bngdigit (carryaccu + b2z (tmp3 <? tmp2)) in
  (tmp3, carryaccu).

Definition BngSub2 (arg1 arg2 : Z) : Z * Z :=
  let tmp1 := arg1 in
  let tmp2 := arg2 in
  (bngdigit (tmp1 - tmp2), b2z (tmp1 <? tmp2)).

Definition BngSub2Carry (arg1 arg2 carryin : Z) : Z * Z :=
  let tmp1 := arg1 in
  let tmp2 := arg2 in
  let tmp3 := bngdigit (tmp1 - tmp2) in
  (bngdigit (tmp3 - carryin), b2z (tmp1 <? tmp2) + b2z (tmp3 <? carryin)).

Definition BngSub3 (carryaccu arg1 arg2 arg3 : Z) : Z * Z :=
  let tmp1 := arg1 in
  let tmp2 := arg2 in
  let tmp3 := arg3 in
  let tmp4 := bngdigit (tmp1 - tmp2) in
  let res := bngdigit (tmp4 - tmp3) in
  (res, bngdigit (carryaccu + (b2z (tmp1 <? tmp2) + b2z (tmp4 <? tmp3)))).

Definition BngLowHalf (d : Z) : Z :=
  Z.land d (bngdigit (Z.shiftl 1 BNG_BITS_PER_HALF_DIGIT) - 1).
Definition BngHighHalf (d : Z) : Z := Z.shiftr d BNG_BITS_PER_HALF_DIGIT.

(** Returns (resh, resl). *)
Definition BngMult (arg1 arg2 : Z) : Z * Z :=
  let p11 := bngdigit (BngLowHalf arg1 * BngLowHalf arg2) in
  let p12 := bngdigit (BngLowHalf arg1 * BngHighHalf arg2) in
  let p21 := bngdigit (BngHighHalf arg1 * BngLowHalf arg2) in
  let p22 := bngdigit (BngHighHalf arg1 * BngHighHalf arg2) in
  let resh := bngdigit (p22 + Z.shiftr p12 BNG_BITS_PER_HALF_DIGIT
                            + Z.shiftr p21 BNG_BITS_PER_HALF_DIGIT) in
  let '(resl, resh) :=
    BngAdd3 resh p11 (bngdigit (Z.shiftl p12 BNG_BITS_PER_HALF_DIGIT))
                     (bngdigit (Z.shiftl p21 BNG_BITS_PER_HALF_DIGIT)) in
  (resh, resl).

(** The two adjustment loops of [bng_div_aux], on the state (nh, nl, q). *)
Definition bng_div_adjust (d nh nl q : Z) : option (Z * Z * Z) :=
  while
    (fun '(nh, nl, q) => negb (nh =? 0) || (d <=? nl))
    (fun '(nh, nl, q) =>
       (bngdigit (nh - b2z (nl <? d)), bngdigit (nl - d), bngdigit (q + 1)))
    (Z.to_nat WORD) (nh, nl, q).

(** Returns (quo, rem). *)
Definition bng_div_aux (nh nl d : Z) : option (Z * Z) :=
  let half := BNG_BITS_PER_HALF_DIGIT in
  let dl := BngLowHalf d in
  let dh := BngHighHalf d in
  let qh := nh / (dh + 1) in
  let nsaved := BngLowHalf nl in
  let ph := bngdigit (qh * dh) in
  let pl := bngdigit (qh * dl) in
  let nh := bngdigit (nh - ph) in
  let nl := Z.lor (Z.shiftr nl half) (bngdigit (Z.shiftl nh half)) in
  let nh := Z.shiftr nh half in
  let nh := bngdigit (nh - b2z (nl <? pl)) in
  let nl := bngdigit (nl - pl) in
  let* (nh, nl, qh) := bng_div_adjust d nh nl qh in
  let ql := nl / (dh + 1) in
  let ph := bngdigit (ql * dh) in
  let pl := bngdigit (ql * dl) in
  let nl := bngdigit (nl - ph) in
  let nh := Z.shiftr nl half in
  let nl := Z.lor (bngdigit (Z.shiftl nl half)) nsaved in
  let nh := bngdigit (nh - b2z (nl <? pl)) in
  let nl := bngdigit (nl - pl) in
  let* (nh, nl, ql) := bng_div_adjust d nh nl ql in
  Some (Z.lor (bngdigit (Z.shiftl qh half)) ql, nl).

Definition BngDiv (nh nl d : Z) : option (Z * Z) := bng_div_aux nh nl d.

(** ** Correctness of the digit operations *)

Definition BASE : Z := 2 ^ WORD.
Definition HALF : Z := 2 ^ (WORD / 2).

Lemma HALF_sq : HALF * HALF = BASE.
Proof. unfold HALF, BASE. destruct WORD_cases as [-> | ->]; reflexivity. Qed.

Lemma HALF_pos : 2 <= HALF.
Proof. unfold HALF. destruct WORD_cases as [-> | ->]; cbn; lia. Qed.

Lemma BASE_pos : 4 <= BASE.
Proof. rewrite <- HALF_sq. pose proof HALF_pos. nia. Qed.

Lemma bngdigit_range x : 0 <= bngdigit x < BASE.
Proof. apply wrap_range. pose proof WORD_pos. unfold BNG_BITS_PER_DIGIT. lia. Qed.

Lemma bngdigit_small x : 0 <= x < BASE -> bngdigit x = x.
Proof. apply wrap_small. Qed.

Lemma bngdigit_cases x : - BASE <= x < 2 * BASE ->
  (x < 0 /\ bngdigit x = x + BASE) \/
  (0 <= x < BASE /\ bngdigit x = x) \/
  (BASE <= x /\ bngdigit x = x - BASE).
Proof. apply wrap_cases. pose proof WORD_pos. unfold BNG_BITS_PER_DIGIT. lia. Qed.

(** Replace each innermost [bngdigit e] by its value, by cases on [e]. *)
Ltac digit_cases :=
  pose proof BASE_pos;
  repeat match goal with
  | |- context [bngdigit ?e] =>
      lazymatch e with
      | context [bngdigit _] => fail
      | _ =>
        let E := fresh "E" in
        destruct (bngdigit_cases e ltac:(pose proof BASE_pos; lia))
          as [[? E]|[[? E]|[? E]]]; rewrite E in *; try lia
      end
  | |- context [?a <? ?b] => destruct (Z.ltb_spec a b); try lia
  end.

Lemma BngAdd2_spec x y r c :
  0 <= x < BASE -> 0 <= y < BASE -> BngAdd2 x y = (r, c) ->
  r + BASE * c = x + y /\ 0 <= r < BASE /\ 0 <= c <= 1.
Proof.
  intros Hx Hy [= <- <-]. cbn zeta. digit_cases; cbn [b2z]; lia.
Qed.

Lemma BngAdd2Carry_spec x y ci r c :
  0 <= x < BASE -> 0 <= y < BASE -> 0 <= ci <= 1 -> BngAdd2Carry x y ci = (r, c) ->
  r + BASE * c = x + y + ci /\ 0 <= r < BASE /\ 0 <= c <= 1.
Proof.
  intros Hx Hy Hc [= <- <-]. cbn zeta. digit_cases; cbn [b2z]; lia.
Qed.

Lemma BngAdd3_spec k x y z r k' :
  0 <= x < BASE -> 0 <= y < BASE -> 0 <= z < BASE -> 0 <= k ->
  x + y + z + BASE * k < BASE * BASE ->
  BngAdd3 k x y z = (r, k') ->
  r + BASE * k' = x + y + z + BASE * k /\ 0 <= r < BASE /\ 0 <= k' < BASE.
Proof.
  intros Hx Hy Hz Hk Hb. unfold BngAdd3.
  destruct (BngAdd2 x y) as [t c1] eqn:E1. pose proof E1 as [= Et Ec1]. cbn zeta.
  rewrite Et in Ec1. rewrite Et, Ec1. destruct (BngAdd2_spec _ _ _ _ Hx Hy E1) as (H1 & H2 & H3).
  destruct (BngAdd2 t z) as [u c2] eqn:E2. pose proof E2 as [= Eu Ec2].
  rewrite Eu in Ec2. rewrite Eu, Ec2. destruct (BngAdd2_spec _ _ _ _ H2 Hz E2) as (H4 & H5 & H6).
  rewrite (bngdigit_small (k + c1)) by nia. rewrite bngdigit_small by nia.
  intros [= <- <-]. nia.
Qed.

Lemma BngSub2_spec x y r c :
  0 <= x < BASE -> 0 <= y < BASE -> BngSub2 x y = (r, c) ->
  r - BASE * c = x - y /\ 0 <= r < BASE /\ 0 <= c <= 1.
Proof.
  intros Hx Hy [= <- <-]. cbn zeta. digit_cases; cbn [b2z]; lia.
Qed.

Lemma BngSub2Carry_spec x y ci r c :
  0 <= x < BASE -> 0 <= y < BASE -> 0 <= ci <= 1 -> BngSub2Carry x y ci = (r, c) ->
  r - BASE * c = x - y - ci /\ 0 <= r < BASE /\ 0 <= c <= 1.
Proof.
  intros Hx Hy Hc [= <- <-]. cbn zeta. digit_cases; cbn [b2z]; lia.
Qed.

Lemma BngSub3_spec k x y z r k' :
  0 <= x < BASE -> 0 <= y < BASE -> 0 <= z < BASE -> 0 <= k ->
  y + z + BASE * k <= BASE * (BASE - 1) ->
  BngSub3 k x y z = (r, k') ->
  r - BASE * k' = x - y - z - BASE * k /\ 0 <= r < BASE /\ 0 <= k' < BASE.
Proof.
  intros Hx Hy Hz Hk Hb. unfold BngSub3.
  destruct (BngSub2 x y) as [t c1] eqn:E1. pose proof E1 as [= Et Ec1]. cbn zeta.
  rewrite Et, Ec1. destruct (BngSub2_spec _ _ _ _ Hx Hy E1) as (H1 & H2 & H3).
  destruct (BngSub2 t z) as [u c2] eqn:E2. pose proof E2 as [= Eu Ec2].
  rewrite Eu, Ec2. destruct (BngSub2_spec _ _ _ _ H2 Hz E2) as (H4 & H5 & H6).
  intros [= <- <-]. rewrite (bngdigit_small (k + _)) by nia. nia.
Qed.

(** Halves of a digit. *)

Lemma BngLowHalf_mod d : BngLowHalf d = d mod HALF.
Proof.
  unfold BngLowHalf, HALF, BNG_BITS_PER_HALF_DIGIT, bngdigit, BNG_BITS_PER_DIGIT.
  replace (wrap WORD (Z.shiftl 1 (WORD / 2)) - 1) with (Z.ones (WORD / 2))
    by (destruct WORD_cases as [-> | ->]; reflexivity).
  apply Z.land_ones. destruct WORD_cases as [-> | ->]; cbn; lia.
Qed.

Lemma BngHighHalf_div d : BngHighHalf d = d / HALF.
Proof.
  unfold BngHighHalf, HALF, BNG_BITS_PER_HALF_DIGIT.
  apply Z.shiftr_div_pow2. destruct WORD_cases as [-> | ->]; cbn; lia.
Qed.

Lemma shiftr_half x : Z.shiftr x BNG_BITS_PER_HALF_DIGIT = x / HALF.
Proof. apply BngHighHalf_div. Qed.

Lemma shiftl_half x : Z.shiftl x BNG_BITS_PER_HALF_DIGIT = x * HALF.
Proof.
  unfold HALF, BNG_BITS_PER_HALF_DIGIT.
  apply Z.shiftl_mul_pow2. destruct WORD_cases as [-> | ->]; cbn; lia.
Qed.

(** Shifting a digit left by half its width drops its high half. *)
Lemma bngdigit_shiftl_half x :
  bngdigit (Z.shiftl x BNG_BITS_PER_HALF_DIGIT) = x mod HALF * HALF.
Proof.
  rewrite shiftl_half. unfold bngdigit, wrap, BNG_BITS_PER_DIGIT.
  change (2 ^ WORD) with BASE. rewrite <- HALF_sq. pose proof HALF_pos.
  now rewrite Zmult_mod_distr_r.
Qed.

Lemma halves d : 0 <= d < BASE ->
  d = d / HALF * HALF + d mod HALF /\ 0 <= d / HALF < HALF /\ 0 <= d mod HALF < HALF.
Proof.
  intros Hd. pose proof HALF_pos. pose proof HALF_sq.
  pose proof (Z.div_mod d HALF ltac:(lia)).
  pose proof (Z.mod_pos_bound d HALF ltac:(lia)).
  repeat split; try lia.
  - apply Z.div_pos; lia.
  - apply Z.div_lt_upper_bound; nia.
Qed.

Lemma BngMult_spec x y h l :
  0 <= x < BASE -> 0 <= y < BASE -> BngMult x y = (h, l) ->
  BASE * h + l = x * y /\ 0 <= l < BASE /\ 0 <= h < BASE.
Proof.
  intros Hx Hy. unfold BngMult.
  rewrite !BngLowHalf_mod, !BngHighHalf_div, !shiftr_half, !bngdigit_shiftl_half.
  destruct (halves x Hx) as (Ex & Hxh & Hxl). destruct (halves y Hy) as (Ey & Hyh & Hyl).
  set (xh := x / HALF) in *. set (xl := x mod HALF) in *.
  set (yh := y / HALF) in *. set (yl := y mod HALF) in *.
  pose proof HALF_pos as HH. pose proof HALF_sq as HS.
  rewrite !(bngdigit_small (_ * _)) by nia.
  set (h0 := bngdigit _).
  assert (P12 : 0 <= xl * yh <= (HALF - 1) * (HALF - 1)) by nia.
  assert (P21 : 0 <= xh * yl <= (HALF - 1) * (HALF - 1)) by nia.
  assert (P11 : 0 <= xl * yl <= (HALF - 1) * (HALF - 1)) by nia.
  assert (P22 : 0 <= xh * yh <= (HALF - 1) * (HALF - 1)) by nia.
  destruct (halves (xl * yh) ltac:(nia)) as (E12 & A12 & B12).
  destruct (halves (xh * yl) ltac:(nia)) as (E21 & A21 & B21).
  assert (Hh0 : h0 = xh * yh + xl * yh / HALF + xh * yl / HALF)
    by (unfold h0; apply bngdigit_small; nia).
  clearbody h0. subst h0.
  set (q12 := xl * yh / HALF) in *. set (r12 := (xl * yh) mod HALF) in *.
  set (q21 := xh * yl / HALF) in *. set (r21 := (xh * yl) mod HALF) in *.
  assert (Etot : xl * yl + r12 * HALF + r21 * HALF
                 + BASE * (xh * yh + q12 + q21) = x * y).
  { rewrite Ex, Ey, <- HS. nia. }
  destruct (BngAdd3 _ _ _ _) as [l' h'] eqn:E. intros [= <- <-].
  apply BngAdd3_spec in E; try nia.
Qed.

(** ** Division of a double digit *)

(** One pass of the adjustment loop keeps [q * d + (nh : nl)] and ends with
    the remainder below [d]. *)
Lemma bng_div_adjust_spec d nh nl q :
  0 < d < BASE -> 0 <= nh < BASE -> 0 <= nl < BASE -> 0 <= q ->
  q + (nh * BASE + nl) / d < BASE ->
  bng_div_adjust d nh nl q =
    Some (0, (nh * BASE + nl) mod d, q + (nh * BASE + nl) / d).
Proof.
  intros Hd Hnh Hnl Hq Hb. unfold bng_div_adjust.
  set (N := nh * BASE + nl) in *.
  assert (HN : 0 <= N / d) by (apply Z.div_pos; unfold N; nia).
  set (T := q * d + N).
  edestruct (while_rule
    (fun '(nh, nl, q) => negb (nh =? 0) || (d <=? nl))
    (fun '(nh, nl, q) =>
       (bngdigit (nh - b2z (nl <? d)), bngdigit (nl - d), bngdigit (q + 1)))
    (fun '(nh, nl, q') => 0 <= nh < BASE /\ 0 <= nl < BASE /\ q <= q' /\
        q' * d + (nh * BASE + nl) = T /\ q' < BASE)
    (fun '(nh, nl, q') => q + N / d - q')) as ([[nh' nl'] q'] & E & HI & HC);
    [| | | rewrite E].
  - intros [[nh1 nl1] q1] (I1 & I2 & I3 & I4 & I5) C.
    assert (Hge : d <= nh1 * BASE + nl1)
      by (apply orb_true_iff in C; destruct C as [C|C];
          [apply negb_true_iff, Z.eqb_neq in C; nia | apply Z.leb_le in C; nia]).
    assert (Hq1 : q1 + 1 <= q + N / d).
    { assert (T / d = q + N / d) by (unfold T; rewrite Z.add_comm, Z.div_add; lia).
      assert (q1 + 1 <= T / d) by (apply Z.div_le_lower_bound; nia). lia. }
    rewrite (bngdigit_small (q1 + 1)) by lia.
    destruct (Z.ltb_spec nl1 d); cbn [b2z].
    + rewrite (bngdigit_small (nh1 - 1)) by nia.
      destruct (bngdigit_cases (nl1 - d)) as [[? E]|[[? E]|[? E]]]; try lia; rewrite E; nia.
    + rewrite (bngdigit_small (nh1 - 0)), (bngdigit_small (nl1 - d)) by lia. nia.
  - cbn. unfold T, N. lia.
  - rewrite Z2Nat.id by (pose proof WORD_pos; lia). fold BASE. lia.
  - destruct HI as (I1 & I2 & I3 & I4 & I5).
    apply orb_false_iff in HC. destruct HC as [C1 C2].
    apply negb_false_iff, Z.eqb_eq in C1. apply Z.leb_gt in C2. subst nh'.
    assert (nl' = N mod d) by
      (apply Z.mod_unique with (q := q' - q); unfold T in I4; nia).
    assert (q' - q = N / d) by
      (apply Z.div_unique with (r := nl'); unfold T in I4; nia).
    f_equal. f_equal; [f_equal|]; lia.
Qed.

(** A half digit of the quotient: [t] is the current remainder, [s] the next
    half digit of the numerator. *)
Lemma bng_div_half d t s :
  0 < d < BASE -> 0 <= t < d -> 0 <= s < HALF ->
  let q0 := t / (d / HALF + 1) in
  let t1 := bngdigit (t - bngdigit (q0 * (d / HALF))) in
  let nl := t1 mod HALF * HALF + s in
  let pl := bngdigit (q0 * (d mod HALF)) in
  bng_div_adjust d (bngdigit (t1 / HALF - b2z (nl <? pl))) (bngdigit (nl - pl)) q0 =
    Some (0, (t * HALF + s) mod d, (t * HALF + s) / d) /\
  0 <= (t * HALF + s) / d < HALF.
Proof.
  intros Hd Ht Hs q0. pose proof HALF_pos as HH. pose proof HALF_sq as HS.
  destruct (halves d ltac:(lia)) as (Ed & Hdh & Hdl).
  set (dh := d / HALF) in *. set (dl := d mod HALF) in *.
  assert (Hq0 : 0 <= q0 /\ q0 * (dh + 1) <= t).
  { unfold q0. split; [apply Z.div_pos; lia|].
    rewrite Z.mul_comm. apply Z.mul_div_le. lia. }
  destruct Hq0 as [Hq0 Hq1].
  assert (Hq2 : q0 < HALF) by nia.
  assert (Hrange : 0 <= (t * HALF + s) / d < HALF).
  { split; [apply Z.div_pos; nia | apply Z.div_lt_upper_bound; nia]. }
  assert (Hle : q0 * d <= t * HALF) by nia.
  cbn zeta. split; [|exact Hrange].
  rewrite (bngdigit_small (q0 * dh)), (bngdigit_small (q0 * dl)) by nia.
  rewrite (bngdigit_small (t - q0 * dh)) by nia.
  set (t1 := t - q0 * dh).
  destruct (halves t1 ltac:(unfold t1; nia)) as (Et1 & Ht1h & Ht1l).
  set (nl := t1 mod HALF * HALF + s).
  assert (Enl : t1 / HALF * BASE + nl - q0 * dl = t * HALF + s - q0 * d)
    by (unfold nl; rewrite <- HS; unfold t1 in *; nia).
  assert (Hnl : 0 <= nl < BASE) by (unfold nl; nia).
  assert (Hpl : 0 <= q0 * dl < BASE) by nia.
  assert (Hdiv : (t * HALF + s - q0 * d) / d = (t * HALF + s) / d - q0)
    by (replace (t * HALF + s - q0 * d) with (t * HALF + s + (- q0) * d) by ring;
        rewrite Z.div_add by lia; ring).
  assert (Hmod : (t * HALF + s - q0 * d) mod d = (t * HALF + s) mod d)
    by (replace (t * HALF + s - q0 * d) with (t * HALF + s + (- q0) * d) by ring;
        apply Z_mod_plus_full).
  assert (exists nh' nl', bngdigit (t1 / HALF - b2z (nl <? q0 * dl)) = nh' /\
     bngdigit (nl - q0 * dl) = nl' /\ 0 <= nh' < BASE /\ 0 <= nl' < BASE /\
     nh' * BASE + nl' = t * HALF + s - q0 * d) as (nh' & nl' & -> & -> & R1 & R2 & R3).
  { do 2 eexists. split; [reflexivity|]. split; [reflexivity|].
    destruct (Z.ltb_spec nl (q0 * dl)); cbn [b2z].
    - rewrite (bngdigit_small (t1 / HALF - 1)) by nia.
      destruct (bngdigit_cases (nl - q0 * dl)) as [[? E]|[[? E]|[? E]]]; try lia.
      rewrite E; nia.
    - rewrite !bngdigit_small by nia. nia. }
  assert (HALF < BASE) by nia.
  rewrite bng_div_adjust_spec; rewrite ?R3, ?Hdiv; try lia.
  rewrite Hmod. do 2 f_equal. lia.
Qed.

Lemma bng_div_aux_spec nh nl d :
  0 < d < BASE -> 0 <= nh < d -> 0 <= nl < BASE ->
  bng_div_aux nh nl d = Some ((nh * BASE + nl) / d, (nh * BASE + nl) mod d).
Proof.
  intros Hd Hnh Hnl. unfold bng_div_aux.
  rewrite !BngLowHalf_mod, !BngHighHalf_div, !shiftr_half, !bngdigit_shiftl_half.
  pose proof HALF_pos as HH. pose proof HALF_sq as HS.
  destruct (halves nl Hnl) as (Enl & Hnlh & Hnll).
  assert (Hlor : forall x y, 0 <= y < HALF ->
            Z.lor y (x mod HALF * HALF) = x mod HALF * HALF + y /\
            Z.lor (x mod HALF * HALF) y = x mod HALF * HALF + y)
    by (intros; split; [apply lor_shiftl_add_r | apply lor_shiftl_add]; auto;
        destruct WORD_cases as [-> | ->]; cbn; lia).
  rewrite (proj1 (Hlor _ _ Hnlh)).
  destruct (bng_div_half d nh (nl / HALF) Hd Hnh Hnlh) as [E1 Hqh].
  rewrite E1. clear E1.
  set (N1 := nh * HALF + nl / HALF) in *.
  pose proof (Z.mod_pos_bound N1 d ltac:(lia)) as Hr1.
  rewrite shiftr_half, bngdigit_shiftl_half, (proj2 (Hlor _ _ Hnll)).
  destruct (bng_div_half d (N1 mod d) (nl mod HALF) Hd Hr1 Hnll) as [E2 Hql].
  rewrite E2. clear E2.
  set (N2 := N1 mod d * HALF + nl mod HALF) in *.
  rewrite bngdigit_shiftl_half, (proj2 (Hlor _ _ Hql)), (Z.mod_small (N1 / d)) by lia.
  pose proof (Z.div_mod N1 d ltac:(lia)) as D1. pose proof (Z.div_mod N2 d ltac:(lia)) as D2.
  pose proof (Z.mod_pos_bound N2 d ltac:(lia)) as Hr2.
  assert (EN : nh * BASE + nl = d * (N1 / d * HALF + N2 / d) + N2 mod d).
  { assert (nh * BASE + nl = N1 * HALF + nl mod HALF) by (unfold N1; rewrite <- HS; lia).
    assert (N1 * HALF = d * (N1 / d) * HALF + N1 mod d * HALF)
      by (rewrite D1 at 1; ring).
    unfold N2 in D2 at 1. lia. }
  f_equal. f_equal.
  - apply Z.div_unique with (r := N2 mod d); lia.
  - apply Z.mod_unique with (q := N1 / d * HALF + N2 / d); lia.
Qed.

End BngDigit.

