(* ===== verification/Bng.v ===== *)
(** Bng: the operations on arrays of digits of src/inline-more/otherlibs/num/
    bng.c.  Memory is a function from word addresses to digits and the pointer
    arguments are addresses, so that operands may be the same or overlap. *)
From Stdlib Require Import ZArith Lia List Bool.
From S2P Require Import Prelude BngDigit.
Local Open Scope Z_scope.

Section Bng.
Context {A : Arch}.

(** ** Operations that cannot be overridden *)

Definition bng_leading_zero_bits (d : Z) : Z :=
  let n := BNG_BITS_PER_DIGIT in
  let '(n, d) := if ARCH_SIXTYFOUR
                 then if negb (Z.land d 0xFFFFFFFF00000000 =? 0)
                      then (n - 32, Z.shiftr d 32) else (n, d)
                 else (n, d) in
  let '(n, d) := if negb (Z.land d 0xFFFF0000 =? 0) then (n - 16, Z.shiftr d 16) else (n, d) in
  let '(n, d) := if negb (Z.land d 0xFF00 =? 0) then (n - 8, Z.shiftr d 8) else (n, d) in
  let '(n, d) := if negb (Z.land d 0xF0 =? 0) then (n - 4, Z.shiftr d 4) else (n, d) in
  let '(n, d) := if negb (Z.land d 0xC =? 0) then (n - 2, Z.shiftr d 2) else (n, d) in
  let '(n, d) := if negb (Z.land d 2 =? 0) then (n - 1, Z.shiftr d 1) else (n, d) in
  n - d.

Fixpoint bng_complement (m : mem) (a : Z) (alen : nat) : mem :=
  match alen with
  | O => m
  | S alen => bng_complement m.[a <- bngdigit (Z.lnot (m a))] (a + 1) alen
  end.

Fixpoint bng_num_digits (m : mem) (a : Z) (alen : nat) : nat :=
  match alen with
  | O => 1%nat
  | S k => if negb (m (a + Z.of_nat k) =? 0) then alen else bng_num_digits m a k
  end.

(** The macro [bng_is_zero] of bng.h. *)
Definition bng_is_zero (m : mem) (a : Z) (alen : nat) : bool :=
  (bng_num_digits m a alen =? 0)%nat.

(** [while (alen > 0 && a[alen-1] == 0) alen--;] *)
Fixpoint bng_strip (m : mem) (a : Z) (alen : nat) : nat :=
  match alen with
  | O => O
  | S k => if m (a + Z.of_nat k) =? 0 then bng_strip m a k else alen
  end.

(** The digit-by-digit loop at the end of [bng_compare]. *)
Fixpoint bng_compare_digits (m : mem) (a b : Z) (alen : nat) : Z :=
  match alen with
  | O => 0
  | S k =>
      let da := m (a + Z.of_nat k) in
      let db := m (b + Z.of_nat k) in
      if db <? da then 1 else if da <? db then -1 else bng_compare_digits m a b k
  end.

Definition bng_compare (m : mem) (a : Z) (alen : nat) (b : Z) (blen : nat) : Z :=
  let alen := bng_strip m a alen in
  let blen := bng_strip m b blen in
  if (blen <? alen)%nat then 1
  else if (alen <? blen)%nat then -1
  else bng_compare_digits m a b alen.

(** ** Generic definitions of the overridable operations *)

(** [do { if (++( *a) != 0) return 0; a++; } while (--alen); return 1;]
    Every caller has tested [alen != 0]. *)
Fixpoint bng_incr_loop (m : mem) (a : Z) (alen : nat) : mem * Z :=
  match alen with
  | O => (m, 1)
  | S alen =>
      let m := m.[a <- bngdigit (m a + 1)] in
      if negb (m a =? 0) then (m, 0) else bng_incr_loop m (a + 1) alen
  end.

(** [do { if (( *a)-- != 0) return 0; a++; } while (--alen); return 1;] *)
Fixpoint bng_decr_loop (m : mem) (a : Z) (alen : nat) : mem * Z :=
  match alen with
  | O => (m, 1)
  | S alen =>
      let old := m a in
      let m := m.[a <- bngdigit (m a - 1)] in
      if negb (old =? 0) then (m, 0) else bng_decr_loop m (a + 1) alen
  end.

Definition bng_generic_add_carry (m : mem) (a : Z) (alen : nat) (carry : Z) : mem * Z :=
  if (carry =? 0) || (alen =? 0)%nat then (m, carry) else bng_incr_loop m a alen.

Fixpoint bng_add_loop (m : mem) (a b : Z) (blen : nat) (carry : Z) : mem * Z :=
  match blen with
  | O => (m, carry)
  | S blen =>
      let '(res, carry) := BngAdd2Carry (m a) (m b) carry in
      bng_add_loop m.[a <- res] (a + 1) (b + 1) blen carry
  end.

Definition bng_generic_add (m : mem) (a : Z) (alen : nat) (b : Z) (blen : nat) (carry : Z)
    : mem * Z :=
  let alen := (alen - blen)%nat in
  let '(m, carry) := bng_add_loop m a b blen carry in
  let a := a + Z.of_nat blen in
  if (carry =? 0) || (alen =? 0)%nat then (m, carry) else bng_incr_loop m a alen.

Definition bng_generic_sub_carry (m : mem) (a : Z) (alen : nat) (carry : Z) : mem * Z :=
  if (carry =? 0) || (alen =? 0)%nat then (m, carry) else bng_decr_loop m a alen.

Fixpoint bng_sub_loop (m : mem) (a b : Z) (blen : nat) (carry : Z) : mem * Z :=
  match blen with
  | O => (m, carry)
  | S blen =>
      let '(res, carry) := BngSub2Carry (m a) (m b) carry in
      bng_sub_loop m.[a <- res] (a + 1) (b + 1) blen carry
  end.

Definition bng_generic_sub (m : mem) (a : Z) (alen : nat) (b : Z) (blen : nat) (carry : Z)
    : mem * Z :=
  let alen := (alen - blen)%nat in
  let '(m, carry) := bng_sub_loop m a b blen carry in
  let a := a + Z.of_nat blen in
  if (carry =? 0) || (alen =? 0)%nat then (m, carry) else bng_decr_loop m a alen.

Fixpoint bng_shift_left_loop (m : mem) (a : Z) (alen : nat) (shift shift2 carry : Z) : mem * Z :=
  match alen with
  | O => (m, carry)
  | S alen =>
      let d := m a in
      let m := m.[a <- Z.lor (bngdigit (Z.shiftl d shift)) carry] in
      bng_shift_left_loop m (a + 1) alen shift shift2 (Z.shiftr d shift2)
  end.

Definition bng_generic_shift_left (m : mem) (a : Z) (alen : nat) (shift : Z) : mem * Z :=
  let shift2 := BNG_BITS_PER_DIGIT - shift in
  let carry := 0 in
  if 0 <? shift then bng_shift_left_loop m a alen shift shift2 carry else (m, carry).

(** [a] points to the last digit and moves down. *)
Fixpoint bng_shift_right_loop (m : mem) (a : Z) (alen : nat) (shift shift2 carry : Z) : mem * Z :=
  match alen with
  | O => (m, carry)
  | S alen =>
      let d := m a in
      let m := m.[a <- Z.lor (Z.shiftr d shift) carry] in
      bng_shift_right_loop m (a - 1) alen shift shift2 (bngdigit (Z.shiftl d shift2))
  end.

Definition bng_generic_shift_right (m : mem) (a : Z) (alen : nat) (shift : Z) : mem * Z :=
  let shift2 := BNG_BITS_PER_DIGIT - shift in
  let carry := 0 in
  if 0 <? shift
  then bng_shift_right_loop m (a + Z.of_nat alen - 1) alen shift shift2 carry
  else (m, carry).

Fixpoint bng_mult_add_digit_loop (m : mem) (a b : Z) (blen : nat) (d out : Z) : mem * Z :=
  match blen with
  | O => (m, out)
  | S blen =>
      let bd := m b in
      let '(ph, pl) := BngMult bd d in
      let '(res, ph) := BngAdd3 ph (m a) pl out in
      bng_mult_add_digit_loop m.[a <- res] (a + 1) (b + 1) blen d ph
  end.

Definition bng_generic_mult_add_digit (m : mem) (a : Z) (alen : nat) (b : Z) (blen : nat) (d : Z)
    : mem * Z :=
  let alen := (alen - blen)%nat in
  let '(m, out) := bng_mult_add_digit_loop m a b blen d 0 in
  let a := a + Z.of_nat blen in
  if (alen =? 0)%nat then (m, out) else
  let '(res, carry) := BngAdd2 (m a) out in
  let m := m.[a <- res] in
  let a := a + 1 in
  let alen := (alen - 1)%nat in
  if (carry =? 0) || (alen =? 0)%nat then (m, carry) else bng_incr_loop m a alen.

Fixpoint bng_mult_sub_digit_loop (m : mem) (a b : Z) (blen : nat) (d out : Z) : mem * Z :=
  match blen with
  | O => (m, out)
  | S blen =>
      let bd := m b in
      let '(ph, pl) := BngMult bd d in
      let '(res, ph) := BngSub3 ph (m a) pl out in
      bng_mult_sub_digit_loop m.[a <- res] (a + 1) (b + 1) blen d ph
  end.

Definition bng_generic_mult_sub_digit (m : mem) (a : Z) (alen : nat) (b : Z) (blen : nat) (d : Z)
    : mem * Z :=
  let alen := (alen - blen)%nat in
  let '(m, out) := bng_mult_sub_digit_loop m a b blen d 0 in
  let a := a + Z.of_nat blen in
  if (alen =? 0)%nat then (m, out) else
  let '(res, carry) := BngSub2 (m a) out in
  let m := m.[a <- res] in
  let a := a + 1 in
  let alen := (alen - 1)%nat in
  if (carry =? 0) || (alen =? 0)%nat then (m, carry) else bng_decr_loop m a alen.

(** ** Operations that call others through the table

    [bng_mult_add_digit] and the like are macros for the fields of [bng_ops],
    which [bng_init] may overwrite with processor-specific code; the operations
    below take the fields they call as parameters. *)

Section Table.
Variable bng_shift_left : mem -> Z -> nat -> Z -> mem * Z.
Variable bng_shift_right : mem -> Z -> nat -> Z -> mem * Z.
Variable bng_sub : mem -> Z -> nat -> Z -> nat -> Z -> mem * Z.
Variable bng_mult_add_digit : mem -> Z -> nat -> Z -> nat -> Z -> mem * Z.
Variable bng_mult_sub_digit : mem -> Z -> nat -> Z -> nat -> Z -> mem * Z.
Variable bng_div_rem_norm_digit : mem -> Z -> Z -> nat -> Z -> option (mem * Z).

Fixpoint bng_mult_add_loop (m : mem) (a : Z) (alen : nat) (b : Z) (blen : nat)
    (c : Z) (clen : nat) (carry : Z) : mem * Z :=
  match clen with
  | O => (m, carry)
  | S clen =>
      let '(m, out) := bng_mult_add_digit m a alen b blen (m c) in
      bng_mult_add_loop m (a + 1) (alen - 1) b blen (c + 1) clen (bngcarry (carry + out))
  end.

Definition bng_generic_mult_add (m : mem) (a : Z) (alen : nat) (b : Z) (blen : nat)
    (c : Z) (clen : nat) : mem * Z :=
  bng_mult_add_loop m a alen b blen c clen 0.

(** [for (carry1 = 0, i = 1; i < blen; i++)]; [n] is the number of iterations
    left. *)
Fixpoint bng_square_cross_loop (m : mem) (a : Z) (alen : nat) (b : Z) (blen : nat)
    (i n : nat) (carry1 : Z) : mem * Z :=
  match n with
  | O => (m, carry1)
  | S n =>
      let aofs := (2 * i - 1)%nat in
      let '(m, out) :=
        bng_mult_add_digit m (a + Z.of_nat aofs) (alen - aofs)
                           (b + Z.of_nat i) (blen - i) (m (b + Z.of_nat (i - 1))) in
      bng_square_cross_loop m a alen b blen (i + 1) n (bngcarry (carry1 + out))
  end.

(** [for (i = 0; i < blen; i++)]: add the squares of the digits. *)
Fixpoint bng_square_diag_loop (m : mem) (a b : Z) (blen : nat) (carry2 : Z) : mem * Z :=
  match blen with
  | O => (m, carry2)
  | S blen =>
      let d := m b in
      let '(ph, pl) := BngMult d d in
      let '(res, carry2) := BngAdd2Carry (m a) pl carry2 in
      let m := m.[a <- res] in
      let a := a + 1 in
      let '(res, carry2) := BngAdd2Carry (m a) ph carry2 in
      let m := m.[a <- res] in
      let a := a + 1 in
      bng_square_diag_loop m a (b + 1) blen carry2
  end.

Definition bng_generic_square_add (m : mem) (a : Z) (alen : nat) (b : Z) (blen : nat)
    : mem * Z :=
  let '(m, carry1) := bng_square_cross_loop m a alen b blen 1 (blen - 1) 0 in
  let '(m, out) := bng_shift_left m a alen 1 in
  let carry1 := bngcarry (Z.lor (bngcarry (Z.shiftl carry1 1)) out) in
  let '(m, carry2) := bng_square_diag_loop m a b blen 0 in
  let a := a + 2 * Z.of_nat blen in
  let alen := (alen - 2 * blen)%nat in
  let '(m, carry2) :=
    if (0 <? alen)%nat && negb (carry2 =? 0) then bng_incr_loop m a alen else (m, carry2) in
  (m, bngcarry (carry1 + carry2)).

(** [for (i = len - 2; i >= 0; i--)]; [n] is [i + 1]. *)
Fixpoint bng_div_rem_norm_digit_loop (m : mem) (a b : Z) (n : nat) (d topdigit : Z)
    : option (mem * Z) :=
  match n with
  | O => Some (m, topdigit)
  | S i =>
      let* (quo, rem) := BngDiv topdigit (m (b + Z.of_nat i)) d in
      let m := m.[a + Z.of_nat i <- quo] in
      bng_div_rem_norm_digit_loop m a b i d rem
  end.

Definition bng_generic_div_rem_norm_digit (m : mem) (a b : Z) (len : nat) (d : Z)
    : option (mem * Z) :=
  let topdigit := m (b + Z.of_nat len - 1) in
  bng_div_rem_norm_digit_loop m a b (len - 1) d topdigit.

Definition bng_generic_div_rem_digit (m : mem) (a b : Z) (len : nat) (d : Z)
    : option (mem * Z) :=
  let shift := bng_leading_zero_bits d in
  let d := bngdigit (Z.shiftl d shift) in
  let '(m, _) := bng_shift_left m b len shift in
  let* (m, rem) := bng_div_rem_norm_digit m a b len d in
  let '(m, _) := bng_shift_right m b len shift in
  Some (m, Z.shiftr rem shift).

(** [while (n[j] != 0 || bng_compare(n + i, dlen, d, dlen) >= 0)] on the state
    (memory, quo). *)
Definition bng_div_rem_adjust (n j i d : Z) (dlen : nat) (m : mem) (quo : Z)
    : option (mem * Z) :=
  while
    (fun '(m, quo) => negb (m (n + j) =? 0) || (0 <=? bng_compare m (n + i) dlen d dlen))
    (fun '(m, quo) =>
       let quo := bngdigit (quo + 1) in
       let '(m', out) := bng_sub m (n + i) dlen d dlen 0 in
       (m'.[n + j <- bngdigit (m' (n + j) - out)], quo))
    (Z.to_nat WORD) (m, quo).

(** The body of the long division loop: one digit of the quotient, stored in
    [n[j]], where [j] is [i + dlen]. *)
Definition bng_div_rem_step (m : mem) (n : Z) (d : Z) (dlen : nat) (topden i : Z)
    : option mem :=
  let j := i + Z.of_nat dlen in
  let* (quo, _) :=
    if bngdigit (topden + 1) =? 0 then Some (m (n + j), 0)
    else BngDiv (m (n + j)) (m (n + j - 1)) (bngdigit (topden + 1)) in
  let '(m', out) := bng_mult_sub_digit m (n + i) dlen d dlen quo in
  let m := m'.[n + j <- bngdigit (m' (n + j) - out)] in
  let* (m, quo) := bng_div_rem_adjust n j i d dlen m quo in
  Some m.[n + j <- quo].

(** [for (j = nlen - 1; j >= dlen; j--)]; [k] is [j - dlen + 1], so that
    [i] is [k - 1]. *)
Fixpoint bng_div_rem_loop (m : mem) (n : Z) (d : Z) (dlen : nat) (topden : Z) (k : nat)
    : option mem :=
  match k with
  | O => Some m
  | S i =>
      let* m := bng_div_rem_step m n d dlen topden (Z.of_nat i) in
      bng_div_rem_loop m n d dlen topden i
  end.

Definition bng_generic_div_rem (m : mem) (n : Z) (nlen : nat) (d : Z) (dlen : nat)
    : option mem :=
  let shift := bng_leading_zero_bits (m (d + Z.of_nat dlen - 1)) in
  let '(m, _) := bng_shift_left m n nlen shift in
  let '(m, _) := bng_shift_left m d dlen shift in
  let* m :=
    if (dlen =? 1)%nat then
      let* (m, r) := bng_div_rem_norm_digit m (n + 1) n nlen (m d) in
      Some m.[n <- r]
    else
      let topden := m (d + Z.of_nat dlen - 1) in
      bng_div_rem_loop m n d dlen topden (nlen - dlen) in
  let '(m, _) := bng_shift_right m n dlen shift in
  let '(m, _) := bng_shift_right m d dlen shift in
  Some m.

End Table.

(** ** The table of operations *)

Record bng_operations := {
  add_carry : mem -> Z -> nat -> Z -> mem * Z;
  add : mem -> Z -> nat -> Z -> nat -> Z -> mem * Z;
  sub_carry : mem -> Z -> nat -> Z -> mem * Z;
  sub : mem -> Z -> nat -> Z -> nat -> Z -> mem * Z;
  shift_left : mem -> Z -> nat -> Z -> mem * Z;
  shift_right : mem -> Z -> nat -> Z -> mem * Z;
  mult_add_digit : mem -> Z -> nat -> Z -> nat -> Z -> mem * Z;
  mult_sub_digit : mem -> Z -> nat -> Z -> nat -> Z -> mem * Z;
  mult_add : mem -> Z -> nat -> Z -> nat -> Z -> nat -> mem * Z;
  square_add : mem -> Z -> nat -> Z -> nat -> mem * Z;
  div_rem_norm_digit : mem -> Z -> Z -> nat -> Z -> option (mem * Z);
  div_rem_digit : mem -> Z -> Z -> nat -> Z -> option (mem * Z);
  div_rem : mem -> Z -> nat -> Z -> nat -> option mem
}.

Definition bng_ops : bng_operations := {|
  add_carry := bng_generic_add_carry;
  add := bng_generic_add;
  sub_carry := bng_generic_sub_carry;
  sub := bng_generic_sub;
  shift_left := bng_generic_shift_left;
  shift_right := bng_generic_shift_right;
  mult_add_digit := bng_generic_mult_add_digit;
  mult_sub_digit := bng_generic_mult_sub_digit;
  mult_add := bng_generic_mult_add bng_generic_mult_add_digit;
  square_add := bng_generic_square_add bng_generic_shift_left bng_generic_mult_add_digit;
  div_rem_norm_digit := bng_generic_div_rem_norm_digit;
  div_rem_digit :=
    bng_generic_div_rem_digit bng_generic_shift_left bng_generic_shift_right
      bng_generic_div_rem_norm_digit;
  div_rem :=
    bng_generic_div_rem bng_generic_shift_left bng_generic_shift_right bng_generic_sub
      bng_generic_mult_sub_digit bng_generic_div_rem_norm_digit
|}.

End Bng.
