(* ===== verification/BngSpec.v ===== *)
(** BngSpec: what the operations of bng.c promise: the number an array of digits
    denotes, the law of each entry of the operation table, and the class [BngOk]
    of the tables that satisfy them. *)
From Stdlib Require Import ZArith Lia List Bool.
From S2P Require Import Prelude BngDigit Bng.
Local Open Scope Z_scope.

Section BngSpec.
Context {A : Arch}.

(** ** The number a digit array denotes *)

(** [{a, n}] in the notation of the comments of bng.h: the value of the [n]
    digits at [a], least significant first. *)
Fixpoint val (m : mem) (a : Z) (n : nat) : Z :=
  match n with
  | O => 0
  | S n => m a + BASE * val m (a + 1) n
  end.

(** [BASE] to the power [n]. *)
Definition PB (n : nat) : Z := BASE ^ Z.of_nat n.

(** Reading [b] upwards while writing [a] upwards is safe: no cell of [b] is
    written before it is read.  Covers [a == b] and disjoint blocks. *)
Definition fwd_ok (a b : Z) (blen : nat) : Prop := a <= b \/ b + Z.of_nat blen <= a.

Definition disjoint (a : Z) (alen : nat) (b : Z) (blen : nat) : Prop :=
  a + Z.of_nat alen <= b \/ b + Z.of_nat blen <= a.

(** ** Laws of the operation table (the comments of struct bng_operations) *)

Definition add_carry_law (f : mem -> Z -> nat -> Z -> mem * Z) : Prop :=
  forall m a alen c m' c', words m -> 0 <= c <= 1 -> f m a alen c = (m', c') ->
  words m' /\ same_outside a (a + Z.of_nat alen) m m' /\ 0 <= c' <= 1 /\
  val m' a alen + PB alen * c' = val m a alen + c.

Definition sub_carry_law (f : mem -> Z -> nat -> Z -> mem * Z) : Prop :=
  forall m a alen c m' c', words m -> 0 <= c <= 1 -> f m a alen c = (m', c') ->
  words m' /\ same_outside a (a + Z.of_nat alen) m m' /\ 0 <= c' <= 1 /\
  val m' a alen - PB alen * c' = val m a alen - c.

Definition add_law (f : mem -> Z -> nat -> Z -> nat -> Z -> mem * Z) : Prop :=
  forall m a alen b blen c m' c', words m -> (blen <= alen)%nat -> 0 <= c <= 1 ->
  fwd_ok a b blen -> f m a alen b blen c = (m', c') ->
  words m' /\ same_outside a (a + Z.of_nat alen) m m' /\ 0 <= c' <= 1 /\
  val m' a alen + PB alen * c' = val m a alen + val m b blen + c.

Definition sub_law (f : mem -> Z -> nat -> Z -> nat -> Z -> mem * Z) : Prop :=
  forall m a alen b blen c m' c', words m -> (blen <= alen)%nat -> 0 <= c <= 1 ->
  fwd_ok a b blen -> f m a alen b blen c = (m', c') ->
  words m' /\ same_outside a (a + Z.of_nat alen) m m' /\ 0 <= c' <= 1 /\
  val m' a alen - PB alen * c' = val m a alen - val m b blen - c.

Definition shift_left_law (f : mem -> Z -> nat -> Z -> mem * Z) : Prop :=
  forall m a alen s m' c', words m -> 0 <= s < WORD -> f m a alen s = (m', c') ->
  words m' /\ same_outside a (a + Z.of_nat alen) m m' /\ 0 <= c' < 2 ^ s /\
  val m' a alen + PB alen * c' = val m a alen * 2 ^ s.

(** The bits shifted out are returned at the top of the carry digit. *)
Definition shift_right_law (f : mem -> Z -> nat -> Z -> mem * Z) : Prop :=
  forall m a alen s m' c', words m -> 0 <= s < WORD -> f m a alen s = (m', c') ->
  words m' /\ same_outside a (a + Z.of_nat alen) m m' /\ 0 <= c' < BASE /\
  val m' a alen = val m a alen / 2 ^ s /\ c' * 2 ^ s = val m a alen mod 2 ^ s * BASE.

Definition mult_add_digit_law (f : mem -> Z -> nat -> Z -> nat -> Z -> mem * Z) : Prop :=
  forall m a alen b blen d m' c', words m -> (blen <= alen)%nat -> 0 <= d < BASE ->
  fwd_ok a b blen -> f m a alen b blen d = (m', c') ->
  words m' /\ same_outside a (a + Z.of_nat alen) m m' /\ 0 <= c' < BASE /\
  ((blen < alen)%nat -> c' <= 1) /\
  val m' a alen + PB alen * c' = val m a alen + d * val m b blen.

Definition mult_sub_digit_law (f : mem -> Z -> nat -> Z -> nat -> Z -> mem * Z) : Prop :=
  forall m a alen b blen d m' c', words m -> (blen <= alen)%nat -> 0 <= d < BASE ->
  fwd_ok a b blen -> f m a alen b blen d = (m', c') ->
  words m' /\ same_outside a (a + Z.of_nat alen) m m' /\ 0 <= c' < BASE /\
  ((blen < alen)%nat -> c' <= 1) /\
  val m' a alen - PB alen * c' = val m a alen - d * val m b blen.

Definition mult_add_law (f : mem -> Z -> nat -> Z -> nat -> Z -> nat -> mem * Z) : Prop :=
  forall m a alen b blen c clen m' c', words m -> (blen + clen <= alen)%nat ->
  disjoint a alen b blen -> disjoint a alen c clen -> f m a alen b blen c clen = (m', c') ->
  words m' /\ same_outside a (a + Z.of_nat alen) m m' /\ 0 <= c' <= 1 /\
  val m' a alen + PB alen * c' = val m a alen + val m b blen * val m c clen.

Definition square_add_law (f : mem -> Z -> nat -> Z -> nat -> mem * Z) : Prop :=
  forall m a alen b blen m' c', words m -> (2 * blen <= alen)%nat ->
  disjoint a alen b blen -> f m a alen b blen = (m', c') ->
  words m' /\ same_outside a (a + Z.of_nat alen) m m' /\ 0 <= c' <= 2 /\
  val m' a alen + PB alen * c' = 2 * val m a alen + val m b blen * val m b blen.

(** [b] may be one of: below or at [a] with any overlap, or above the quotient. *)
Definition div_rem_norm_digit_law (f : mem -> Z -> Z -> nat -> Z -> option (mem * Z)) : Prop :=
  forall m a b len d, words m -> (0 < len)%nat -> 0 < d < BASE ->
  m (b + Z.of_nat len - 1) < d -> b <= a \/ a + Z.of_nat len - 1 <= b ->
  exists m', f m a b len d = Some (m', val m b len mod d) /\
  words m' /\ same_outside a (a + Z.of_nat len - 1) m m' /\
  val m' a (len - 1) = val m b len / d.

Definition div_rem_digit_law (f : mem -> Z -> Z -> nat -> Z -> option (mem * Z)) : Prop :=
  forall m a b len d, words m -> (0 < len)%nat -> 0 < d < BASE ->
  m (b + Z.of_nat len - 1) < d -> disjoint a (len - 1) b len ->
  exists m', f m a b len d = Some (m', val m b len mod d) /\
  words m' /\ same_outside a (a + Z.of_nat len - 1) m m' /\
  val m' a (len - 1) = val m b len / d.

(** Quotient above, remainder below; the divisor is restored. *)
Definition div_rem_law (f : mem -> Z -> nat -> Z -> nat -> option mem) : Prop :=
  forall m n nlen d dlen, words m -> (0 < dlen < nlen)%nat ->
  m (n + Z.of_nat nlen - 1) < m (d + Z.of_nat dlen - 1) -> disjoint n nlen d dlen ->
  exists m', f m n nlen d dlen = Some m' /\
  words m' /\ same_outside n (n + Z.of_nat nlen) m m' /\
  val m' (n + Z.of_nat dlen) (nlen - dlen) = val m n nlen / val m d dlen /\
  val m' n dlen = val m n nlen mod val m d dlen.

(** What a table of operations promises to its clients. *)
Class BngOk (ops : bng_operations) : Prop := {
  ok_add_carry : add_carry_law (add_carry ops);
  ok_add : add_law (add ops);
  ok_sub_carry : sub_carry_law (sub_carry ops);
  ok_sub : sub_law (sub ops);
  ok_shift_left : shift_left_law (shift_left ops);
  ok_shift_right : shift_right_law (shift_right ops);
  ok_mult_add_digit : mult_add_digit_law (mult_add_digit ops);
  ok_mult_sub_digit : mult_sub_digit_law (mult_sub_digit ops);
  ok_mult_add : mult_add_law (mult_add ops);
  ok_square_add : square_add_law (square_add ops);
  ok_div_rem_norm_digit : div_rem_norm_digit_law (div_rem_norm_digit ops);
  ok_div_rem_digit : div_rem_digit_law (div_rem_digit ops);
  ok_div_rem : div_rem_law (div_rem ops)
}.

(** ** Lemmas on [val] *)

Lemma val_S m a n : val m a (S n) = m a + BASE * val m (a + 1) n.
Proof. reflexivity. Qed.

Lemma PB_0 : PB 0 = 1.
Proof. reflexivity. Qed.

Lemma PB_S n : PB (S n) = BASE * PB n.
Proof. unfold PB. rewrite Nat2Z.inj_succ, Z.pow_succ_r by lia. reflexivity. Qed.

Lemma PB_add n k : PB (n + k) = PB n * PB k.
Proof. unfold PB. rewrite Nat2Z.inj_add, Z.pow_add_r by lia. reflexivity. Qed.

Lemma PB_pos n : 0 < PB n.
Proof. unfold PB. apply Z.pow_pos_nonneg; pose proof BASE_pos; lia. Qed.

Lemma word_range m x : words m -> 0 <= m x < BASE.
Proof. intros H. apply H. Qed.

Lemma val_ext m m' a n :
  (forall x, a <= x < a + Z.of_nat n -> m' x = m x) -> val m' a n = val m a n.
Proof.
  revert a. induction n as [|n IH]; intros a H; [reflexivity|].
  rewrite !val_S, H, IH; [reflexivity | intros; apply H; lia | lia].
Qed.

Lemma val_frame lo hi m m' a n : same_outside lo hi m m' ->
  a + Z.of_nat n <= lo \/ hi <= a -> val m' a n = val m a n.
Proof. intros H Hd. apply val_ext. intros x Hx. apply H. lia. Qed.

Lemma val_upd_out m x v a n :
  x < a \/ a + Z.of_nat n <= x -> val m.[x <- v] a n = val m a n.
Proof. intros H. apply val_ext. intros y Hy. apply upd_other. lia. Qed.

Lemma val_app m a n k :
  val m a (n + k) = val m a n + PB n * val m (a + Z.of_nat n) k.
Proof.
  revert a. induction n as [|n IH]; intros a.
  - cbn [Nat.add val]. rewrite PB_0. replace (a + Z.of_nat 0) with a by lia. lia.
  - cbn [Nat.add]. rewrite !val_S, IH, PB_S.
    replace (a + 1 + Z.of_nat n) with (a + Z.of_nat (S n)) by lia. lia.
Qed.

Lemma val_snoc m a n : val m a (S n) = val m a n + PB n * m (a + Z.of_nat n).
Proof.
  replace (S n) with (n + 1)%nat by lia. rewrite val_app. cbn [val]. lia.
Qed.

Lemma val_split m a n k : (k <= n)%nat ->
  val m a n = val m a k + PB k * val m (a + Z.of_nat k) (n - k).
Proof. intros H. rewrite <- val_app. f_equal. lia. Qed.

Lemma val_range m a n : words m -> 0 <= val m a n < PB n.
Proof.
  intros Hm. revert a. induction n as [|n IH]; intros a.
  - cbn [val]. rewrite PB_0. lia.
  - rewrite val_S, PB_S. pose proof (word_range m a Hm). specialize (IH (a + 1)). nia.
Qed.

End BngSpec.

#[export] Hint Resolve word_range : mem.
