(* ===== verification/BngProof.v ===== *)
(** BngProof: the laws of addition, subtraction, shifts and multiplication by a
    digit, for the generic code of bng.c. *)
From Stdlib Require Import ZArith Lia List Bool.
From S2P Require Import Prelude BngDigit Bng BngSpec.
Local Open Scope Z_scope.

Section BngProof.
Context {A : Arch}.

(** Multiply an equation by [BASE], to chain it one digit up. *)
Ltac times_base H := apply (f_equal (Z.mul BASE)) in H.

(** Frame of a loop that writes the digit at [a] and goes on at [a + 1]. *)
Lemma step_frame m m' a v n :
  same_outside (a + 1) (a + 1 + Z.of_nat n) m.[a <- v] m' ->
  same_outside a (a + Z.of_nat (S n)) m m' /\ m' a = v.
Proof.
  intros H. split.
  - intros x Hx. rewrite H by lia. apply upd_other. lia.
  - rewrite H by lia. apply upd_same.
Qed.

Lemma words_upd_range m a v : words m -> 0 <= v < BASE -> words m.[a <- v].
Proof. intros. apply words_upd; auto. Qed.

Lemma BASE_val_0 n m a : n = O -> val m a n = 0.
Proof. now intros ->. Qed.

(** *** Carry propagation *)

Lemma bng_incr_loop_spec : forall alen m a m' c', words m ->
  bng_incr_loop m a alen = (m', c') ->
  words m' /\ same_outside a (a + Z.of_nat alen) m m' /\ 0 <= c' <= 1 /\
  val m' a alen + PB alen * c' = val m a alen + 1.
Proof.
  induction alen as [|n IH]; intros m a m' c' Hm; cbn [bng_incr_loop].
  - intros [= <- <-]. change (PB 0) with 1. cbn [val]. auto with mem zarith.
  - rewrite upd_same. pose proof (word_range m a Hm) as Ha.
    pose proof (bngdigit_range (m a + 1)) as Hr.
    assert (Hm1 : words m.[a <- bngdigit (m a + 1)]) by now apply words_upd_range.
    destruct (bngdigit_cases (m a + 1)) as [[? E]|[[? E]|[? E]]]; try lia; rewrite E in *.
    + rewrite (proj2 (Z.eqb_neq _ 0)) by lia. intros [= <- <-].
      rewrite !val_S, upd_same, val_upd_out by lia.
      conj; auto; try lia. apply same_outside_upd. lia.
    + rewrite (proj2 (Z.eqb_eq _ 0)) by lia. cbn [negb]. intros HR.
      apply IH in HR; auto. destruct HR as (H1 & H2 & H3 & H4).
      apply step_frame in H2. destruct H2 as [H2 E2].
      rewrite val_upd_out in H4 by lia. times_base H4.
      rewrite !val_S, E2, PB_S. conj; auto; lia.
Qed.

Lemma bng_decr_loop_spec : forall alen m a m' c', words m ->
  bng_decr_loop m a alen = (m', c') ->
  words m' /\ same_outside a (a + Z.of_nat alen) m m' /\ 0 <= c' <= 1 /\
  val m' a alen - PB alen * c' = val m a alen - 1.
Proof.
  induction alen as [|n IH]; intros m a m' c' Hm; cbn [bng_decr_loop].
  - intros [= <- <-]. change (PB 0) with 1. cbn [val]. auto with mem zarith.
  - pose proof (word_range m a Hm) as Ha.
    pose proof (bngdigit_range (m a - 1)) as Hr.
    assert (Hm1 : words m.[a <- bngdigit (m a - 1)]) by now apply words_upd_range.
    destruct (Z.eqb_spec (m a) 0) as [E0|E0]; cbn [negb]; intros HR.
    + destruct (bngdigit_cases (m a - 1)) as [[? E]|[[? E]|[? E]]]; try lia; rewrite E in *.
      apply IH in HR; auto. destruct HR as (H1 & H2 & H3 & H4).
      apply step_frame in H2. destruct H2 as [H2 E2].
      rewrite val_upd_out in H4 by lia. times_base H4.
      rewrite !val_S, E2, PB_S. conj; auto; lia.
    + injection HR as <- <-. rewrite bngdigit_small in * by lia.
      rewrite !val_S, upd_same, val_upd_out by lia.
      conj; auto; try lia. apply same_outside_upd. lia.
Qed.

(** The test [if (carry == 0 || alen == 0) return carry;] before the loops. *)
Lemma bng_carry_tail m a alen c m' c' : words m -> 0 <= c <= 1 ->
  (if (c =? 0) || (alen =? 0)%nat then (m, c) else bng_incr_loop m a alen) = (m', c') ->
  words m' /\ same_outside a (a + Z.of_nat alen) m m' /\ 0 <= c' <= 1 /\
  val m' a alen + PB alen * c' = val m a alen + c.
Proof.
  intros Hm Hc. destruct (Z.eqb_spec c 0) as [->|]; cbn [orb].
  { intros [= <- <-]. conj; auto with mem; lia. }
  destruct (Nat.eqb_spec alen 0) as [->|].
  { intros [= <- <-]. change (PB 0) with 1. cbn [val]. conj; auto with mem; lia. }
  replace c with 1 by lia. now apply bng_incr_loop_spec.
Qed.

Lemma bng_borrow_tail m a alen c m' c' : words m -> 0 <= c <= 1 ->
  (if (c =? 0) || (alen =? 0)%nat then (m, c) else bng_decr_loop m a alen) = (m', c') ->
  words m' /\ same_outside a (a + Z.of_nat alen) m m' /\ 0 <= c' <= 1 /\
  val m' a alen - PB alen * c' = val m a alen - c.
Proof.
  intros Hm Hc. destruct (Z.eqb_spec c 0) as [->|]; cbn [orb].
  { intros [= <- <-]. conj; auto with mem; lia. }
  destruct (Nat.eqb_spec alen 0) as [->|].
  { intros [= <- <-]. change (PB 0) with 1. cbn [val]. conj; auto with mem; lia. }
  replace c with 1 by lia. now apply bng_decr_loop_spec.
Qed.

Lemma bng_generic_add_carry_ok : add_carry_law bng_generic_add_carry.
Proof. intros m a alen c m' c' Hm Hc. now apply bng_carry_tail. Qed.

Lemma bng_generic_sub_carry_ok : sub_carry_law bng_generic_sub_carry.
Proof. intros m a alen c m' c' Hm Hc. now apply bng_borrow_tail. Qed.

(** *** Addition and subtraction *)

Lemma bng_add_loop_spec : forall blen m a b c m' c', words m -> 0 <= c <= 1 ->
  fwd_ok a b blen -> bng_add_loop m a b blen c = (m', c') ->
  words m' /\ same_outside a (a + Z.of_nat blen) m m' /\ 0 <= c' <= 1 /\
  val m' a blen + PB blen * c' = val m a blen + val m b blen + c.
Proof.
  induction blen as [|n IH]; intros m a b c m' c' Hm Hc Hab; cbn [bng_add_loop].
  - intros [= <- <-]. change (PB 0) with 1. cbn [val]. auto with mem zarith.
  - destruct (BngAdd2Carry _ _ _) as [r c1] eqn:E.
    apply BngAdd2Carry_spec in E; auto with mem. destruct E as (E & Hr & Hc1).
    unfold fwd_ok in Hab. intros HR. apply IH in HR; auto using words_upd_range.
    2: unfold fwd_ok; lia.
    destruct HR as (H1 & H2 & H3 & H4). apply step_frame in H2. destruct H2 as [H2 E2].
    rewrite !val_upd_out in H4 by lia. times_base H4.
    rewrite !val_S, E2, PB_S. conj; auto; lia.
Qed.

Lemma bng_sub_loop_spec : forall blen m a b c m' c', words m -> 0 <= c <= 1 ->
  fwd_ok a b blen -> bng_sub_loop m a b blen c = (m', c') ->
  words m' /\ same_outside a (a + Z.of_nat blen) m m' /\ 0 <= c' <= 1 /\
  val m' a blen - PB blen * c' = val m a blen - val m b blen - c.
Proof.
  induction blen as [|n IH]; intros m a b c m' c' Hm Hc Hab; cbn [bng_sub_loop].
  - intros [= <- <-]. change (PB 0) with 1. cbn [val]. auto with mem zarith.
  - destruct (BngSub2Carry _ _ _) as [r c1] eqn:E.
    apply BngSub2Carry_spec in E; auto with mem. destruct E as (E & Hr & Hc1).
    unfold fwd_ok in Hab. intros HR. apply IH in HR; auto using words_upd_range.
    2: unfold fwd_ok; lia.
    destruct HR as (H1 & H2 & H3 & H4). apply step_frame in H2. destruct H2 as [H2 E2].
    rewrite !val_upd_out in H4 by lia. times_base H4.
    rewrite !val_S, E2, PB_S. conj; auto; lia.
Qed.

(** Glue: a loop on the low [k] digits followed by one on the others. *)
Lemma frame_glue m m1 m' a k n : (k <= n)%nat ->
  same_outside a (a + Z.of_nat k) m m1 ->
  same_outside (a + Z.of_nat k) (a + Z.of_nat k + Z.of_nat (n - k)) m1 m' ->
  same_outside a (a + Z.of_nat n) m m' /\
  val m' a n = val m1 a k + PB k * val m' (a + Z.of_nat k) (n - k) /\
  val m a n = val m a k + PB k * val m1 (a + Z.of_nat k) (n - k).
Proof.
  intros Hk H1 H2. split; [|split].
  - intros x Hx. rewrite H2, H1; auto; lia.
  - rewrite (val_split m' a n k Hk). f_equal.
    eapply val_frame; eauto. lia.
  - rewrite (val_split m a n k Hk). do 2 f_equal. symmetry.
    eapply val_frame; eauto. lia.
Qed.

Lemma bng_generic_add_ok : add_law bng_generic_add.
Proof.
  intros m a alen b blen c m' c' Hm Hlen Hc Hab. unfold bng_generic_add.
  destruct (bng_add_loop _ _ _ _ _) as [m1 c1] eqn:E1. intros E2.
  apply bng_add_loop_spec in E1; auto. destruct E1 as (W1 & F1 & C1 & V1).
  apply bng_carry_tail in E2; auto. destruct E2 as (W2 & F2 & C2 & V2).
  destruct (frame_glue _ _ _ _ _ _ Hlen F1 F2) as (F & E1 & E2).
  split; [auto|]. split; [auto|]. split; [auto|].
  replace alen with (blen + (alen - blen))%nat at 2 by lia.
  rewrite PB_add, E1, E2. apply (f_equal (Z.mul (PB blen))) in V2. lia.
Qed.

Lemma bng_generic_sub_ok : sub_law bng_generic_sub.
Proof.
  intros m a alen b blen c m' c' Hm Hlen Hc Hab. unfold bng_generic_sub.
  destruct (bng_sub_loop _ _ _ _ _) as [m1 c1] eqn:E1. intros E2.
  apply bng_sub_loop_spec in E1; auto. destruct E1 as (W1 & F1 & C1 & V1).
  apply bng_borrow_tail in E2; auto. destruct E2 as (W2 & F2 & C2 & V2).
  destruct (frame_glue _ _ _ _ _ _ Hlen F1 F2) as (F & E1 & E2).
  split; [auto|]. split; [auto|]. split; [auto|].
  replace alen with (blen + (alen - blen))%nat at 2 by lia.
  rewrite PB_add, E1, E2. apply (f_equal (Z.mul (PB blen))) in V2. lia.
Qed.

(** *** Shifts *)

Lemma pow_split s : 0 <= s <= WORD -> BASE = 2 ^ s * 2 ^ (WORD - s).
Proof. intros. unfold BASE. rewrite <- Z.pow_add_r by lia. f_equal. lia. Qed.

Lemma bngdigit_shiftl d s : 0 <= s <= WORD ->
  bngdigit (Z.shiftl d s) = d mod 2 ^ (WORD - s) * 2 ^ s.
Proof.
  intros Hs. rewrite Z.shiftl_mul_pow2 by lia. unfold bngdigit, wrap, BNG_BITS_PER_DIGIT.
  change (2 ^ WORD) with BASE. rewrite (pow_split s Hs), (Z.mul_comm (2 ^ s)).
  apply Zmult_mod_distr_r.
Qed.

Lemma div_mod_pow2 x k : 0 <= k ->
  x = x / 2 ^ k * 2 ^ k + x mod 2 ^ k /\ 0 <= x mod 2 ^ k < 2 ^ k.
Proof.
  intros Hk. pose proof (pow2_pos k Hk).
  pose proof (Z.div_mod x (2 ^ k) ltac:(lia)). pose proof (Z.mod_pos_bound x (2 ^ k)). lia.
Qed.

Lemma div_pow2_range x s : 0 <= s <= WORD -> 0 <= x < BASE ->
  0 <= x / 2 ^ (WORD - s) < 2 ^ s.
Proof.
  intros Hs Hx. assert (0 < 2 ^ (WORD - s)) by (apply pow2_pos; lia).
  split; [apply Z.div_pos; lia|].
  apply Z.div_lt_upper_bound; [lia|]. rewrite (pow_split s Hs) in Hx. lia.
Qed.

Lemma bng_shift_left_loop_spec s : 0 < s < WORD -> forall alen m a c m' c', words m ->
  0 <= c < 2 ^ s ->
  bng_shift_left_loop m a alen s (BNG_BITS_PER_DIGIT - s) c = (m', c') ->
  words m' /\ same_outside a (a + Z.of_nat alen) m m' /\ 0 <= c' < 2 ^ s /\
  val m' a alen + PB alen * c' = val m a alen * 2 ^ s + c.
Proof.
  intros Hs. unfold BNG_BITS_PER_DIGIT.
  induction alen as [|n IH]; intros m a c m' c' Hm Hc; cbn [bng_shift_left_loop].
  - intros [= <- <-]. change (PB 0) with 1. cbn [val]. conj; auto with mem; lia.
  - rewrite bngdigit_shiftl, lor_shiftl_add, Z.shiftr_div_pow2 by lia. intros HR.
    pose proof (word_range m a Hm) as Ha.
    destruct (div_mod_pow2 (m a) (WORD - s)) as [Ed Hmod]; [lia|].
    pose proof (div_pow2_range (m a) s ltac:(lia) Ha) as Hq.
    pose proof (pow_split s ltac:(lia)) as EB.
    apply IH in HR; [|apply words_upd_range; auto; rewrite EB; nia | auto].
    destruct HR as (H1 & H2 & H3 & H4). apply step_frame in H2. destruct H2 as [H2 E2].
    rewrite val_upd_out in H4 by lia. times_base H4.
    rewrite !val_S, E2, PB_S. conj; auto; lia.
Qed.

Lemma bng_generic_shift_left_ok : shift_left_law bng_generic_shift_left.
Proof.
  intros m a alen s m' c' Hm Hs. unfold bng_generic_shift_left.
  destruct (Z.ltb_spec 0 s).
  - intros E. apply bng_shift_left_loop_spec in E; auto; try lia.
    destruct E as (? & ? & ? & ?). conj; auto; lia.
  - replace s with 0 by lia. intros [= <- <-]. conj; auto with mem; lia.
Qed.

(** [r] holds the bits shifted out of the digits above. *)
Lemma bng_shift_right_loop_spec s : 0 < s < WORD -> forall alen m a r m' c', words m ->
  0 <= r < 2 ^ s ->
  bng_shift_right_loop m (a + Z.of_nat alen - 1) alen s (BNG_BITS_PER_DIGIT - s)
    (r * 2 ^ (WORD - s)) = (m', c') ->
  words m' /\ same_outside a (a + Z.of_nat alen) m m' /\
  exists r', 0 <= r' < 2 ^ s /\ c' = r' * 2 ^ (WORD - s) /\
  val m' a alen * 2 ^ s + r' = r * PB alen + val m a alen.
Proof.
  intros Hs. unfold BNG_BITS_PER_DIGIT. pose proof (pow_split s ltac:(lia)) as EB.
  induction alen as [|n IH]; intros m a r m' c' Hm Hr; cbn [bng_shift_right_loop].
  - intros [= <- <-]. change (PB 0) with 1. cbn [val]. conj; auto with mem.
    exists r. conj; auto; lia.
  - replace (a + Z.of_nat (S n) - 1) with (a + Z.of_nat n) by lia.
    set (x := a + Z.of_nat n). pose proof (word_range m x Hm) as Hx.
    rewrite bngdigit_shiftl, Z.shiftr_div_pow2 by lia.
    replace (WORD - (WORD - s)) with s by lia.
    destruct (div_mod_pow2 (m x) s ltac:(lia)) as [Ed Hmod].
    assert (Hq : 0 <= m x / 2 ^ s < 2 ^ (WORD - s)).
    { assert (Hws : 0 <= WORD - s <= WORD) by lia.
      pose proof (div_pow2_range (m x) (WORD - s) Hws Hx) as Hq.
      now replace (WORD - (WORD - s)) with s in Hq by lia. }
    rewrite lor_shiftl_add_r by lia. set (v := r * 2 ^ (WORD - s) + m x / 2 ^ s).
    intros HR. replace (x - 1) with (a + Z.of_nat n - 1) in HR by lia.
    apply IH in HR; [|apply words_upd_range; auto; unfold v; rewrite EB; nia | auto].
    destruct HR as (H1 & H2 & r' & H3 & H4 & H5). conj; auto.
    { intros y Hy. rewrite H2 by lia. apply upd_other. lia. }
    exists r'. conj; auto; try lia.
    assert (Ex : m' x = v) by (rewrite H2 by lia; apply upd_same).
    rewrite val_upd_out in H5 by lia. rewrite !val_snoc. fold x. rewrite Ex, PB_S.
    set (q := m x / 2 ^ s) in *. set (k := m x mod 2 ^ s) in *.
    replace (m x) with (q * 2 ^ s + k) by lia. rewrite EB. unfold v.
    transitivity (PB n * (r * 2 ^ (WORD - s) + q) * 2 ^ s + (k * PB n + val m a n));
      [|ring]. rewrite <- H5. ring.
Qed.

Lemma bng_generic_shift_right_ok : shift_right_law bng_generic_shift_right.
Proof.
  intros m a alen s m' c' Hm Hs. unfold bng_generic_shift_right.
  destruct (Z.ltb_spec 0 s).
  - pose proof (pow2_pos s ltac:(lia)) as Hp. pose proof (pow_split s ltac:(lia)) as EB.
    replace 0 with (0 * 2 ^ (WORD - s)) at 1 by lia. intros E.
    apply bng_shift_right_loop_spec in E; auto; try lia.
    destruct E as (W & F & r & Hr & -> & E). assert (0 < 2 ^ (WORD - s)) by (apply pow2_pos; lia).
    rewrite Z.mul_0_l, Z.add_0_l in E. conj; auto; try nia.
    + apply Z.div_unique with (r := r); lia.
    + replace (val m a alen mod 2 ^ s) with r
        by (apply Z.mod_unique with (q := val m' a alen); lia).
      rewrite EB. ring.
  - replace s with 0 by lia. intros [= <- <-]. pose proof BASE_pos.
    rewrite Z.pow_0_r, Z.div_1_r, Z.mod_1_r. conj; auto with mem; lia.
Qed.

(** *** Multiplication by a digit *)

Lemma bng_mult_add_digit_loop_spec d : 0 <= d < BASE -> forall blen m a b out m' out',
  words m -> 0 <= out < BASE -> fwd_ok a b blen ->
  bng_mult_add_digit_loop m a b blen d out = (m', out') ->
  words m' /\ same_outside a (a + Z.of_nat blen) m m' /\ 0 <= out' < BASE /\
  val m' a blen + PB blen * out' = val m a blen + d * val m b blen + out.
Proof.
  intros Hd. induction blen as [|n IH]; intros m a b out m' out' Hm Ho Hab;
    cbn [bng_mult_add_digit_loop].
  - intros [= <- <-]. change (PB 0) with 1. cbn [val]. conj; auto with mem; lia.
  - destruct (BngMult _ _) as [ph pl] eqn:E1.
    pose proof (word_range m a Hm) as Ha. pose proof (word_range m b Hm) as Hb.
    apply BngMult_spec in E1; auto. destruct E1 as (E1 & Hl & Hh).
    destruct (BngAdd3 _ _ _ _) as [res ph'] eqn:E2. apply BngAdd3_spec in E2; auto; [|lia|nia].
    destruct E2 as (E2 & Hres & Hph).
    unfold fwd_ok in Hab. intros HR. apply IH in HR; auto using words_upd_range.
    2: unfold fwd_ok; lia.
    destruct HR as (H1 & H2 & H3 & H4). apply step_frame in H2. destruct H2 as [H2 E3].
    rewrite !val_upd_out in H4 by lia. times_base H4.
    rewrite !val_S, E3, PB_S. conj; auto; lia.
Qed.

Lemma bng_mult_sub_digit_loop_spec d : 0 <= d < BASE -> forall blen m a b out m' out',
  words m -> 0 <= out < BASE -> fwd_ok a b blen ->
  bng_mult_sub_digit_loop m a b blen d out = (m', out') ->
  words m' /\ same_outside a (a + Z.of_nat blen) m m' /\ 0 <= out' < BASE /\
  val m' a blen - PB blen * out' = val m a blen - d * val m b blen - out.
Proof.
  intros Hd. induction blen as [|n IH]; intros m a b out m' out' Hm Ho Hab;
    cbn [bng_mult_sub_digit_loop].
  - intros [= <- <-]. change (PB 0) with 1. cbn [val]. conj; auto with mem; lia.
  - destruct (BngMult _ _) as [ph pl] eqn:E1.
    pose proof (word_range m a Hm) as Ha. pose proof (word_range m b Hm) as Hb.
    apply BngMult_spec in E1; auto. destruct E1 as (E1 & Hl & Hh).
    destruct (BngSub3 _ _ _ _) as [res ph'] eqn:E2. apply BngSub3_spec in E2; auto; [|lia|nia].
    destruct E2 as (E2 & Hres & Hph).
    unfold fwd_ok in Hab. intros HR. apply IH in HR; auto using words_upd_range.
    2: unfold fwd_ok; lia.
    destruct HR as (H1 & H2 & H3 & H4). apply step_frame in H2. destruct H2 as [H2 E3].
    rewrite !val_upd_out in H4 by lia. times_base H4.
    rewrite !val_S, E3, PB_S. conj; auto; lia.
Qed.

(** Adding or subtracting the last carry digit, then propagating. *)
Lemma bng_add_digit_tail m a n out res c m' c' : words m -> 0 <= out < BASE ->
  BngAdd2 (m a) out = (res, c) ->
  (if (c =? 0) || (n =? 0)%nat then (m.[a <- res], c)
   else bng_incr_loop m.[a <- res] (a + 1) n) = (m', c') ->
  words m' /\ same_outside a (a + Z.of_nat (S n)) m m' /\ 0 <= c' <= 1 /\
  val m' a (S n) + PB (S n) * c' = val m a (S n) + out.
Proof.
  intros Hm Ho E HR. apply BngAdd2_spec in E; auto with mem. destruct E as (E & Hr & Hc).
  apply bng_carry_tail in HR; auto using words_upd_range.
  destruct HR as (H1 & H2 & H3 & H4). apply step_frame in H2. destruct H2 as [H2 E2].
  rewrite val_upd_out in H4 by lia. times_base H4.
  rewrite !val_S, E2, PB_S. conj; auto; lia.
Qed.

Lemma bng_sub_digit_tail m a n out res c m' c' : words m -> 0 <= out < BASE ->
  BngSub2 (m a) out = (res, c) ->
  (if (c =? 0) || (n =? 0)%nat then (m.[a <- res], c)
   else bng_decr_loop m.[a <- res] (a + 1) n) = (m', c') ->
  words m' /\ same_outside a (a + Z.of_nat (S n)) m m' /\ 0 <= c' <= 1 /\
  val m' a (S n) - PB (S n) * c' = val m a (S n) - out.
Proof.
  intros Hm Ho E HR. apply BngSub2_spec in E; auto with mem. destruct E as (E & Hr & Hc).
  apply bng_borrow_tail in HR; auto using words_upd_range.
  destruct HR as (H1 & H2 & H3 & H4). apply step_frame in H2. destruct H2 as [H2 E2].
  rewrite val_upd_out in H4 by lia. times_base H4.
  rewrite !val_S, E2, PB_S. conj; auto; lia.
Qed.

Lemma bng_generic_mult_add_digit_ok : mult_add_digit_law bng_generic_mult_add_digit.
Proof.
  intros m a alen b blen d m' c' Hm Hlen Hd Hab. unfold bng_generic_mult_add_digit.
  pose proof BASE_pos as HB.
  destruct (bng_mult_add_digit_loop _ _ _ _ _ _) as [m1 out] eqn:E1.
  apply bng_mult_add_digit_loop_spec in E1; auto; try lia.
  destruct E1 as (W1 & F1 & C1 & V1).
  destruct (Nat.eqb_spec (alen - blen) 0).
  - replace alen with blen by lia. intros [= <- <-]. conj; auto; lia.
  - destruct (BngAdd2 _ _) as [res c] eqn:E2. intros E3.
    eapply bng_add_digit_tail in E3; eauto. destruct E3 as (W2 & F2 & C2 & V2).
    replace (S (alen - blen - 1)) with (alen - blen)%nat in * by lia.
    destruct (frame_glue _ _ _ _ _ _ Hlen F1 F2) as (F & G1 & G2).
    conj; auto; try lia.
    replace alen with (blen + (alen - blen))%nat at 2 by lia.
    rewrite PB_add, G1, G2. apply (f_equal (Z.mul (PB blen))) in V2. lia.
Qed.

Lemma bng_generic_mult_sub_digit_ok : mult_sub_digit_law bng_generic_mult_sub_digit.
Proof.
  intros m a alen b blen d m' c' Hm Hlen Hd Hab. unfold bng_generic_mult_sub_digit.
  pose proof BASE_pos as HB.
  destruct (bng_mult_sub_digit_loop _ _ _ _ _ _) as [m1 out] eqn:E1.
  apply bng_mult_sub_digit_loop_spec in E1; auto; try lia.
  destruct E1 as (W1 & F1 & C1 & V1).
  destruct (Nat.eqb_spec (alen - blen) 0).
  - replace alen with blen by lia. intros [= <- <-]. conj; auto; lia.
  - destruct (BngSub2 _ _) as [res c] eqn:E2. intros E3.
    eapply bng_sub_digit_tail in E3; eauto. destruct E3 as (W2 & F2 & C2 & V2).
    replace (S (alen - blen - 1)) with (alen - blen)%nat in * by lia.
    destruct (frame_glue _ _ _ _ _ _ Hlen F1 F2) as (F & G1 & G2).
    conj; auto; try lia.
    replace alen with (blen + (alen - blen))%nat at 2 by lia.
    rewrite PB_add, G1, G2. apply (f_equal (Z.mul (PB blen))) in V2. lia.
Qed.

End BngProof.
