(* ===== verification/BngBasic.v ===== *)
(** BngBasic: the laws of the operations that are not in the table: leading zeros,
    number of digits, complement and comparison; then those of multiplication and
    squaring, from the laws of the table entries they call. *)
From Stdlib Require Import ZArith Lia List Bool.
From S2P Require Import Prelude BngDigit Bng BngSpec BngProof.
Local Open Scope Z_scope.

Section BngBasic.
Context {A : Arch}.

(** *** Leading zeros *)

Lemma land_high_mask d k : 0 <= k -> 0 <= d < 2 ^ (2 * k) ->
  (Z.land d (Z.shiftl (Z.ones k) k) =? 0) = (d <? 2 ^ k).
Proof.
  intros Hk Hd. pose proof (pow2_pos k Hk) as Hp.
  assert (E : Z.land d (Z.shiftl (Z.ones k) k) = d / 2 ^ k * 2 ^ k).
  { assert (Hq : 0 <= d / 2 ^ k < 2 ^ k).
    { split; [apply Z.div_pos; lia|]. apply Z.div_lt_upper_bound; [lia|].
      rewrite <- Z.pow_add_r by lia. replace (k + k) with (2 * k) by lia. lia. }
    rewrite <- (Z.mod_small (d / 2 ^ k) (2 ^ k)) by lia.
    rewrite <- Z.land_ones, <- Z.shiftr_div_pow2, <- Z.shiftl_mul_pow2 by lia.
    apply Z.bits_inj'. intros i Hi. rewrite Z.land_spec, !Z.shiftl_spec by lia.
    destruct (Z_lt_ge_dec i k).
    - rewrite !(Z.testbit_neg_r _ (i - k)) by lia. apply andb_false_r.
    - rewrite Z.land_spec, Z.shiftr_spec by lia. now replace (i - k + k) with i by lia. }
  rewrite E. destruct (Z.ltb_spec d (2 ^ k)).
  - rewrite Z.div_small by lia. reflexivity.
  - apply Z.eqb_neq. assert (1 <= d / 2 ^ k) by (apply Z.div_le_lower_bound; lia). nia.
Qed.

(** One test of [bng_leading_zero_bits]: [d] is [D] shifted right by the
    [WORD - n] positions already accounted for. *)
Lemma lzb_stage D k mask n d n' d' : 0 <= k -> mask = Z.shiftl (Z.ones k) k ->
  0 < d < 2 ^ (2 * k) -> n <= WORD -> d = D / 2 ^ (WORD - n) ->
  (if negb (Z.land d mask =? 0) then (n - k, Z.shiftr d k) else (n, d)) = (n', d') ->
  0 < d' < 2 ^ k /\ n' <= WORD /\ d' = D / 2 ^ (WORD - n').
Proof.
  intros Hk -> Hd Hn Ed. rewrite land_high_mask by lia. pose proof (pow2_pos k Hk).
  destruct (Z.ltb_spec d (2 ^ k)); cbn [negb]; intros [= <- <-].
  - conj; auto; lia.
  - rewrite Z.shiftr_div_pow2 by lia. conj; try lia.
    + assert (1 <= d / 2 ^ k) by (apply Z.div_le_lower_bound; lia). lia.
    + apply Z.div_lt_upper_bound; [lia|]. rewrite <- Z.pow_add_r by lia.
      now replace (k + k) with (2 * k) by lia.
    + rewrite Ed, Z.div_div by (try apply Z.pow_pos_nonneg; try apply Z.pow_nonzero; lia).
      rewrite <- Z.pow_add_r by lia. do 2 f_equal. lia.
Qed.

Lemma bng_leading_zero_bits_spec d : 0 < d < BASE ->
  0 <= bng_leading_zero_bits d < WORD /\
  BASE <= 2 * (d * 2 ^ bng_leading_zero_bits d) /\
  d * 2 ^ bng_leading_zero_bits d < BASE.
Proof.
  intros Hd. unfold bng_leading_zero_bits, BNG_BITS_PER_DIGIT.
  assert (E0 : d = d / 2 ^ (WORD - WORD)) by (rewrite Z.sub_diag, Z.pow_0_r, Z.div_1_r; auto).
  assert (H0 : exists n0 d0, (if ARCH_SIXTYFOUR
     then if negb (Z.land d 0xFFFFFFFF00000000 =? 0)
          then (WORD - 32, Z.shiftr d 32) else (WORD, d)
     else (WORD, d)) = (n0, d0) /\
     0 < d0 < 2 ^ (2 * 16) /\ n0 <= WORD /\ d0 = d / 2 ^ (WORD - n0)).
  { unfold BASE in Hd. destruct ARCH_SIXTYFOUR eqn:Earch.
    - destruct (if negb _ then _ else _) as [n0 d0] eqn:E. exists n0, d0. split; auto.
      eapply (lzb_stage d 32) in E; eauto; try lia.
      unfold WORD in Hd. rewrite Earch in Hd. exact Hd.
    - exists WORD, d. unfold WORD in *. rewrite Earch in *. conj; auto; lia. }
  destruct H0 as (n0 & d0 & -> & H0).
  destruct H0 as (R0 & N0 & E1).
  destruct (if negb (Z.land d0 _ =? 0) then _ else _) as [n1 d1] eqn:S1.
  eapply (lzb_stage d 16) in S1; eauto; try lia. destruct S1 as (R1 & N1 & E2).
  destruct (if negb (Z.land d1 _ =? 0) then _ else _) as [n2 d2] eqn:S2.
  eapply (lzb_stage d 8) in S2; eauto; try lia. destruct S2 as (R2 & N2 & E3).
  destruct (if negb (Z.land d2 _ =? 0) then _ else _) as [n3 d3] eqn:S3.
  eapply (lzb_stage d 4) in S3; eauto; try lia. destruct S3 as (R3 & N3 & E4).
  destruct (if negb (Z.land d3 _ =? 0) then _ else _) as [n4 d4] eqn:S4.
  eapply (lzb_stage d 2) in S4; eauto; try lia. destruct S4 as (R4 & N4 & E5).
  destruct (if negb (Z.land d4 _ =? 0) then _ else _) as [n5 d5] eqn:S5.
  eapply (lzb_stage d 1) in S5; eauto; try lia. destruct S5 as (R5 & N5 & E6).
  assert (Hd5 : d5 = 1) by lia. rewrite Hd5 in *. clear Hd5.
  assert (Hp : 0 < 2 ^ (WORD - n5)) by (apply pow2_pos; lia).
  assert (Hlo : 2 ^ (WORD - n5) <= d < 2 * 2 ^ (WORD - n5)).
  { pose proof (Z.div_mod d (2 ^ (WORD - n5))). pose proof (Z.mod_pos_bound d (2 ^ (WORD - n5))). lia. }
  assert (Hn5 : 1 <= n5).
  { destruct (Z_lt_ge_dec n5 1); [|lia]. exfalso. unfold BASE in Hd.
    assert (2 ^ WORD <= 2 ^ (WORD - n5)) by (apply Z.pow_le_mono_r; lia). lia. }
  assert (EB : BASE = 2 * (2 ^ (WORD - n5) * 2 ^ (n5 - 1))).
  { unfold BASE. rewrite <- Z.pow_add_r by lia. rewrite <- Z.pow_succ_r by lia. f_equal. lia. }
  assert (0 < 2 ^ (n5 - 1)) by (apply pow2_pos; lia).
  assert (2 ^ (WORD - n5) * 2 ^ (n5 - 1) <= d * 2 ^ (n5 - 1))
    by (apply Z.mul_le_mono_nonneg_r; lia).
  assert (d * 2 ^ (n5 - 1) < 2 * 2 ^ (WORD - n5) * 2 ^ (n5 - 1))
    by (apply Z.mul_lt_mono_pos_r; lia).
  conj; lia.
Qed.

(** *** Comparison *)

Lemma bng_strip_spec m a n :
  val m a (bng_strip m a n) = val m a n /\ (bng_strip m a n <= n)%nat /\
  (bng_strip m a n <> O -> m (a + Z.of_nat (bng_strip m a n) - 1) <> 0).
Proof.
  induction n as [|n (IH1 & IH2 & IH3)]; cbn [bng_strip].
  - conj; auto; lia.
  - destruct (Z.eqb_spec (m (a + Z.of_nat n)) 0) as [E|E].
    + conj; [|lia|auto]. rewrite IH1, val_snoc, E. lia.
    + conj; auto; try lia. intros _. now replace (a + Z.of_nat (S n) - 1) with (a + Z.of_nat n) by lia.
Qed.

(** A number without leading zero digit is at least the weight of its top digit. *)
Lemma val_lower m a n : words m -> n <> O -> m (a + Z.of_nat n - 1) <> 0 -> PB (n - 1) <= val m a n.
Proof.
  intros Hm Hn Ht. destruct n as [|n]; [easy|]. rewrite val_snoc.
  replace (a + Z.of_nat (S n) - 1) with (a + Z.of_nat n) in Ht by lia.
  replace (S n - 1)%nat with n by lia.
  pose proof (word_range m (a + Z.of_nat n) Hm). pose proof (val_range m a n Hm).
  pose proof (PB_pos n). nia.
Qed.

Lemma PB_mono n k : (n <= k)%nat -> PB n <= PB k.
Proof. intros. unfold PB. apply Z.pow_le_mono_r; pose proof BASE_pos; lia. Qed.

Definition sign_of (c : comparison) : Z :=
  match c with Lt => -1 | Eq => 0 | Gt => 1 end.

Lemma bng_compare_digits_spec m a b n : words m ->
  bng_compare_digits m a b n = sign_of (val m a n ?= val m b n).
Proof.
  intros Hm. induction n as [|n IH]; [reflexivity|]. cbn [bng_compare_digits].
  rewrite !val_snoc, IH. pose proof (PB_pos n).
  pose proof (val_range m a n Hm). pose proof (val_range m b n Hm).
  destruct (Z.ltb_spec (m (b + Z.of_nat n)) (m (a + Z.of_nat n))).
  { rewrite (proj2 (Z.compare_gt_iff _ _)); [reflexivity | nia]. }
  destruct (Z.ltb_spec (m (a + Z.of_nat n)) (m (b + Z.of_nat n))).
  { rewrite (proj2 (Z.compare_lt_iff _ _)); [reflexivity | nia]. }
  replace (m (a + Z.of_nat n)) with (m (b + Z.of_nat n)) by lia.
  f_equal. destruct (Z.compare_spec (val m a n) (val m b n)); symmetry;
    [apply Z.compare_eq_iff | apply Z.compare_lt_iff | apply Z.compare_gt_iff]; lia.
Qed.

Lemma bng_compare_spec m a alen b blen : words m ->
  bng_compare m a alen b blen = sign_of (val m a alen ?= val m b blen).
Proof.
  intros Hm. unfold bng_compare.
  destruct (bng_strip_spec m a alen) as (Ea & La & Ta).
  destruct (bng_strip_spec m b blen) as (Eb & Lb & Tb).
  set (na := bng_strip m a alen) in *. set (nb := bng_strip m b blen) in *.
  rewrite <- Ea, <- Eb.
  destruct (Nat.ltb_spec nb na).
  { pose proof (val_lower m a na Hm ltac:(lia) (Ta ltac:(lia))).
    pose proof (val_range m b nb Hm). pose proof (PB_mono nb (na - 1) ltac:(lia)).
    rewrite (proj2 (Z.compare_gt_iff _ _)); [reflexivity | lia]. }
  destruct (Nat.ltb_spec na nb).
  { pose proof (val_lower m b nb Hm ltac:(lia) (Tb ltac:(lia))).
    pose proof (val_range m a na Hm). pose proof (PB_mono na (nb - 1) ltac:(lia)).
    rewrite (proj2 (Z.compare_lt_iff _ _)); [reflexivity | lia]. }
  replace nb with na by lia. now apply bng_compare_digits_spec.
Qed.

(** *** Number of significant digits and complement *)

Lemma bng_num_digits_spec m a n : words m ->
  let k := bng_num_digits m a n in
  (1 <= k)%nat /\ (k <= Nat.max 1 n)%nat /\
  (val m a n = 0 -> k = 1%nat) /\
  (val m a n <> 0 -> (k <= n)%nat /\ PB (k - 1) <= val m a n < PB k /\ val m a k = val m a n).
Proof.
  intros Hm k. unfold k; clear k.
  induction n as [|n (IH1 & IH2 & IH3 & IH4)]; cbn [bng_num_digits].
  - cbn [val]. conj; auto; lia.
  - destruct (Z.eqb_spec (m (a + Z.of_nat n)) 0) as [E|E]; cbn [negb].
    + rewrite val_snoc, E, Z.mul_0_r, Z.add_0_r. conj; auto; try lia.
    + assert (L : PB n <= val m a (S n)).
      { pose proof (val_lower m a (S n) Hm ltac:(lia)) as L. replace (S n - 1)%nat with n in L by lia.
        apply L. now replace (a + Z.of_nat (S n) - 1) with (a + Z.of_nat n) by lia. }
      pose proof (PB_pos n). conj; try lia. intros _.
      replace (S n - 1)%nat with n by lia. conj; auto; try lia. now apply val_range.
Qed.

Lemma bng_complement_spec : forall n m a, words m ->
  words (bng_complement m a n) /\
  same_outside a (a + Z.of_nat n) m (bng_complement m a n) /\
  val (bng_complement m a n) a n = PB n - 1 - val m a n.
Proof.
  induction n as [|n IH]; intros m a Hm; cbn [bng_complement].
  - conj; auto with mem.
  - assert (E : bngdigit (Z.lnot (m a)) = BASE - 1 - m a).
    { pose proof (word_range m a Hm). unfold Z.lnot.
      destruct (bngdigit_cases (Z.pred (- m a))) as [[? E]|[[? E]|[? E]]]; lia. }
    rewrite E. pose proof (word_range m a Hm).
    destruct (IH m.[a <- BASE - 1 - m a] (a + 1)) as (H1 & H2 & H3).
    { apply words_upd_range; auto; lia. }
    apply step_frame in H2. destruct H2 as [H2 E2].
    rewrite val_upd_out in H3 by lia. conj; auto.
    rewrite !val_S, E2, H3, PB_S. lia.
Qed.

End BngBasic.

Section BngMult.
Context {A : Arch}.
Variable bng_shift_left : mem -> Z -> nat -> Z -> mem * Z.
Variable bng_mult_add_digit : mem -> Z -> nat -> Z -> nat -> Z -> mem * Z.
Hypothesis shift_left_ok : shift_left_law bng_shift_left.
Hypothesis mult_add_digit_ok : mult_add_digit_law bng_mult_add_digit.

Lemma words_val_lt m a n : words m -> val m a n < PB n.
Proof. intros. now apply val_range. Qed.

Lemma disjoint_fwd a alen b blen :
  disjoint a alen b blen -> forall x y n, a <= x -> b <= y ->
  x <= a + Z.of_nat alen -> y + Z.of_nat n <= b + Z.of_nat blen -> fwd_ok x y n.
Proof. unfold disjoint, fwd_ok. lia. Qed.

(** *** Schoolbook multiplication *)

(** [k] carries already returned; the third hypothesis bounds their number. *)
Lemma bng_mult_add_loop_spec : forall clen m a alen b blen c k m' k', words m ->
  (blen + clen <= alen)%nat -> disjoint a alen b blen -> disjoint a alen c clen ->
  0 <= k -> k * PB alen + val m a alen + val m b blen * val m c clen < 2 ^ 32 * PB alen ->
  bng_mult_add_loop bng_mult_add_digit m a alen b blen c clen k = (m', k') ->
  words m' /\ same_outside a (a + Z.of_nat alen) m m' /\ 0 <= k' /\
  val m' a alen + PB alen * k' = val m a alen + val m b blen * val m c clen + PB alen * k.
Proof.
  induction clen as [|n IH]; intros m a alen b blen c k m' k' Hm Hlen Hb Hc Hk Hbound;
    cbn [bng_mult_add_loop].
  - intros [= <- <-]. cbn [val]. conj; auto with mem; lia.
  - destruct (bng_mult_add_digit _ _ _ _ _ _) as [m1 out] eqn:E1. intros HR.
    apply mult_add_digit_ok in E1; auto; try lia;
      [| apply word_range; auto | apply (disjoint_fwd _ _ _ _ Hb); lia].
    destruct E1 as (W1 & F1 & C1 & C1' & V1). specialize (C1' ltac:(lia)).
    destruct alen as [|al]; [lia|]. replace (S al - 1)%nat with al in HR by lia.
    assert (Eb : val m1 b blen = val m b blen) by (eapply val_frame; eauto; unfold disjoint in Hb; lia).
    assert (Ec : val m1 (c + 1) n = val m (c + 1) n)
      by (eapply val_frame; eauto; unfold disjoint in Hc; lia).
    pose proof (PB_pos al). pose proof BASE_pos.
    assert (Hov : (k + out) * PB al + val m1 (a + 1) al + val m1 b blen * val m1 (c + 1) n
                  < 2 ^ 32 * PB al).
    { rewrite Eb, Ec. apply Z.mul_lt_mono_pos_l with BASE; [lia|].
      rewrite PB_S, (val_S m1) in V1. rewrite PB_S, (val_S m c) in Hbound.
      pose proof (word_range m1 a W1). lia. }
    assert (Hko : 0 <= k + out < 2 ^ 32).
    { pose proof (val_range m1 (a + 1) al W1). pose proof (val_range m1 b blen W1).
      pose proof (val_range m1 (c + 1) n W1).
      assert (0 <= val m1 b blen * val m1 (c + 1) n) by (apply Z.mul_nonneg_nonneg; lia).
      nia. }
    replace (bngcarry (k + out)) with (k + out) in HR by (symmetry; apply wrap_small; lia).
    apply IH in HR; auto; try lia; try (unfold disjoint in *; lia).
    destruct HR as (W2 & F2 & C2 & V2).
    assert (Ea : m' a = m1 a) by (apply F2; lia).
    conj; auto.
    { intros x Hx. rewrite F2, F1; auto; lia. }
    rewrite Eb, Ec in V2. rewrite (val_S m' a), (val_S m c), Ea.
    rewrite (val_S m1 a), !PB_S in V1. rewrite PB_S.
    apply (f_equal (Z.mul BASE)) in V2. lia.
Qed.

Lemma bng_generic_mult_add_ok : mult_add_law (bng_generic_mult_add bng_mult_add_digit).
Proof.
  intros m a alen b blen c clen m' c' Hm Hlen Hb Hc E.
  pose proof (val_range m a alen Hm) as Ra. pose proof (val_range m b blen Hm) as Rb.
  pose proof (val_range m c clen Hm) as Rc.
  assert (HP : PB blen * PB clen <= PB alen).
  { rewrite <- PB_add. unfold PB. apply Z.pow_le_mono_r; pose proof BASE_pos; lia. }
  assert (Hprod : 0 <= val m b blen * val m c clen < PB alen) by nia.
  apply bng_mult_add_loop_spec in E; auto; try lia.
  destruct E as (W & F & C & V). pose proof (val_range m' a alen W).
  conj; auto; try lia. nia.
Qed.

(** *** Squaring *)

(** Sum of the products of distinct digits, and of the squares of digits. *)
Fixpoint cross (m : mem) (b : Z) (n : nat) : Z :=
  match n with
  | O => 0
  | S n => BASE * m b * val m (b + 1) n + BASE * BASE * cross m (b + 1) n
  end.

Fixpoint diag (m : mem) (b : Z) (n : nat) : Z :=
  match n with
  | O => 0
  | S n => m b * m b + BASE * BASE * diag m (b + 1) n
  end.

Lemma square_decomp m b n : val m b n * val m b n = 2 * cross m b n + diag m b n.
Proof.
  revert b. induction n as [|n IH]; intros b; [reflexivity|].
  rewrite val_S. cbn [cross diag]. specialize (IH (b + 1)).
  apply (f_equal (Z.mul (BASE * BASE))) in IH. lia.
Qed.

Lemma cross_ext m m' b n :
  (forall x, b <= x < b + Z.of_nat n -> m' x = m x) -> cross m' b n = cross m b n.
Proof.
  revert b. induction n as [|n IH]; intros b H; [reflexivity|]. cbn [cross].
  rewrite H, IH, (val_ext m m' (b + 1) n); try lia; intros; apply H; lia.
Qed.

Lemma diag_ext m m' b n :
  (forall x, b <= x < b + Z.of_nat n -> m' x = m x) -> diag m' b n = diag m b n.
Proof.
  revert b. induction n as [|n IH]; intros b H; [reflexivity|]. cbn [diag].
  rewrite H, IH; try lia; intros; apply H; lia.
Qed.

Lemma cross_nonneg m b n : words m -> 0 <= cross m b n.
Proof.
  intros Hm. revert b. induction n as [|n IH]; intros b; cbn [cross]; [lia|].
  pose proof (word_range m b Hm). pose proof (val_range m (b + 1) n Hm).
  pose proof BASE_pos. specialize (IH (b + 1)). nia.
Qed.

Lemma diag_nonneg m b n : words m -> 0 <= diag m b n.
Proof.
  intros Hm. revert b. induction n as [|n IH]; intros b; cbn [diag]; [lia|].
  pose proof (word_range m b Hm). pose proof BASE_pos. specialize (IH (b + 1)). nia.
Qed.

(** [n] iterations left; the products from digit [i - 1] on are still to be
    added. *)
Lemma bng_square_cross_loop_spec a alen b blen : (2 * blen <= alen)%nat ->
  disjoint a alen b blen -> forall n i m k m' k', words m -> (1 <= i)%nat ->
  (i + n = blen)%nat -> 0 <= k ->
  k * PB alen + val m a alen + PB (2 * (i - 1)) * cross m (b + Z.of_nat (i - 1)) (S n)
    < 2 ^ 32 * PB alen ->
  bng_square_cross_loop bng_mult_add_digit m a alen b blen i n k = (m', k') ->
  words m' /\ same_outside a (a + Z.of_nat alen) m m' /\ 0 <= k' /\
  val m' a alen + PB alen * k' =
    val m a alen + PB alen * k + PB (2 * (i - 1)) * cross m (b + Z.of_nat (i - 1)) (S n).
Proof.
  intros Hlen Hdis. induction n as [|n IH]; intros i m k m' k' Hm Hi Hn Hk Hbound;
    cbn [bng_square_cross_loop].
  - intros [= <- <-]. cbn [cross val]. conj; auto with mem; lia.
  - remember (2 * i - 1)%nat as aofs eqn:Haofs.
    destruct (bng_mult_add_digit _ _ _ _ _ _) as [m1 out] eqn:E1. intros HR.
    apply mult_add_digit_ok in E1; auto; try lia;
      [| apply word_range; auto | apply (disjoint_fwd _ _ _ _ Hdis); lia].
    destruct E1 as (W1 & F1 & C1 & _ & V1).
    replace (blen - i)%nat with (S n) in V1 by lia.
    assert (F1' : same_outside a (a + Z.of_nat alen) m m1)
      by (eapply same_outside_weaken; [| |exact F1]; lia).
    assert (Hsplit : forall m0, val m0 a alen =
      val m0 a aofs + PB aofs * val m0 (a + Z.of_nat aofs) (alen - aofs))
      by (intros; apply val_split; lia).
    assert (Elow : val m1 a aofs = val m a aofs) by (apply (val_frame _ _ _ _ _ _ F1); lia).
    assert (EP : PB alen = PB aofs * PB (alen - aofs))
      by (rewrite <- (PB_add aofs); f_equal; lia).
    assert (EP2 : PB aofs = PB (2 * (i - 1)) * BASE).
    { rewrite Haofs. replace (2 * i - 1)%nat with (2 * (i - 1) + 1)%nat by lia.
      rewrite PB_add. unfold PB at 2. change (Z.of_nat 1) with 1. now rewrite Z.pow_1_r. }
    assert (EP3 : PB (2 * (i + 1 - 1)) = PB (2 * (i - 1)) * (BASE * BASE)).
    { replace (2 * (i + 1 - 1))%nat with (2 * (i - 1) + 2)%nat by lia. rewrite PB_add. f_equal.
      unfold PB. change (Z.of_nat 2) with 2. now rewrite Z.pow_2_r. }
    set (c1 := cross m (b + Z.of_nat i) (S n)) in *.
    assert (Ec : cross m (b + Z.of_nat (i - 1)) (S (S n)) =
       BASE * m (b + Z.of_nat (i - 1)) * val m (b + Z.of_nat i) (S n) + BASE * BASE * c1).
    { unfold c1. change (cross m (b + Z.of_nat (i - 1)) (S (S n))) with
        (BASE * m (b + Z.of_nat (i - 1)) * val m (b + Z.of_nat (i - 1) + 1) (S n)
         + BASE * BASE * cross m (b + Z.of_nat (i - 1) + 1) (S n)).
      now replace (b + Z.of_nat (i - 1) + 1) with (b + Z.of_nat i) by lia. }
    assert (Ec1 : cross m1 (b + Z.of_nat (i + 1 - 1)) (S n) = c1).
    { unfold c1. replace (i + 1 - 1)%nat with i by lia. apply cross_ext.
      intros x Hx. apply F1. unfold disjoint in Hdis. lia. }
    rewrite Ec in *. apply (f_equal (Z.mul (PB aofs))) in V1.
    assert (Va : val m1 a alen + PB alen * out = val m a alen +
       PB (2 * (i - 1)) * (BASE * m (b + Z.of_nat (i - 1)) * val m (b + Z.of_nat i) (S n))).
    { rewrite (Hsplit m1), (Hsplit m), Elow, EP. rewrite EP2 in *. lia. }
    assert (Hc1 : 0 <= c1) by (apply cross_nonneg; auto).
    assert (Hov : 0 <= k + out < 2 ^ 32).
    { pose proof (val_range m1 a alen W1). pose proof (PB_pos alen).
      pose proof (PB_pos (2 * (i - 1))). pose proof BASE_pos.
      assert (0 <= PB (2 * (i - 1)) * (BASE * BASE * c1)) by (repeat apply Z.mul_nonneg_nonneg; lia).
      nia. }
    replace (bngcarry (k + out)) with (k + out) in HR by (symmetry; apply wrap_small; lia).
    apply IH in HR; auto; try lia; rewrite ?Ec1, ?EP3 in *; try lia.
    destruct HR as (W2 & F2 & C2 & V2). conj; auto.
    { eapply same_outside_trans; eauto. }
    rewrite V2. lia.
Qed.

Lemma bng_square_diag_loop_spec : forall blen m a b c m' c', words m -> 0 <= c <= 1 ->
  disjoint a (2 * blen) b blen -> bng_square_diag_loop m a b blen c = (m', c') ->
  words m' /\ same_outside a (a + Z.of_nat (2 * blen)) m m' /\ 0 <= c' <= 1 /\
  val m' a (2 * blen) + PB (2 * blen) * c' = val m a (2 * blen) + diag m b blen + c.
Proof.
  induction blen as [|n IH]; intros m a b c m' c' Hm Hc Hdis; cbn [bng_square_diag_loop].
  - intros [= <- <-]. change (2 * 0)%nat with O. change (PB 0) with 1. cbn [val diag]. conj; auto with mem; lia.
  - pose proof (word_range m b Hm) as Hb. pose proof (word_range m a Hm) as Ha.
    destruct (BngMult _ _) as [ph pl] eqn:E1. apply BngMult_spec in E1; auto.
    destruct E1 as (E1 & Hl & Hh).
    destruct (BngAdd2Carry (m a) pl c) as [r1 k1] eqn:E2. apply BngAdd2Carry_spec in E2; auto.
    destruct E2 as (E2 & Hr1 & Hk1).
    rewrite upd_other by lia. pose proof (word_range m (a + 1) Hm) as Ha1.
    destruct (BngAdd2Carry (m (a + 1)) ph k1) as [r2 k2] eqn:E3. apply BngAdd2Carry_spec in E3; auto.
    destruct E3 as (E3 & Hr2 & Hk2). intros HR.
    set (m1 := m.[a <- r1]) in *. set (m2 := m1.[a + 1 <- r2]) in *.
    assert (W2 : words m2) by (repeat apply words_upd_range; auto).
    unfold disjoint in Hdis. apply IH in HR; auto; [|unfold disjoint; lia].
    destruct HR as (H1 & H2 & H3 & H4).
    assert (Hout : forall x, x <> a -> x <> a + 1 -> m2 x = m x)
      by (intros; unfold m2, m1; now rewrite !upd_other by auto).
    assert (Ea : m' a = r1).
    { rewrite H2 by lia. unfold m2, m1. rewrite upd_other by lia. apply upd_same. }
    assert (Ea1 : m' (a + 1) = r2) by (rewrite H2 by lia; apply upd_same).
    assert (Ev : val m2 (a + 1 + 1) (2 * n) = val m (a + 1 + 1) (2 * n))
      by (apply val_ext; intros; apply Hout; lia).
    assert (Ed : diag m2 (b + 1) n = diag m (b + 1) n)
      by (apply diag_ext; intros; apply Hout; lia).
    rewrite Ev, Ed in H4. conj; auto; try lia.
    { intros x Hx. rewrite H2 by lia. apply Hout; lia. }
    replace (2 * S n)%nat with (S (S (2 * n))) by lia.
    rewrite !val_S, Ea, Ea1, !PB_S. cbn [diag].
    apply (f_equal (Z.mul (BASE * BASE))) in H4.
    apply (f_equal (Z.mul BASE)) in E3. lia.
Qed.

Lemma bng_square_tail m a n c m' c' : words m -> 0 <= c <= 1 ->
  (if (0 <? n)%nat && negb (c =? 0) then bng_incr_loop m a n else (m, c)) = (m', c') ->
  words m' /\ same_outside a (a + Z.of_nat n) m m' /\ 0 <= c' <= 1 /\
  val m' a n + PB n * c' = val m a n + c.
Proof.
  intros Hm Hc E. apply bng_carry_tail; auto. rewrite <- E.
  destruct n; [cbn; now rewrite orb_true_r|]. cbn [Nat.ltb Nat.leb Nat.eqb andb].
  rewrite orb_false_r. now destruct (c =? 0).
Qed.

Lemma bng_generic_square_add_ok :
  square_add_law (bng_generic_square_add bng_shift_left bng_mult_add_digit).
Proof.
  intros m a alen b blen m' c' Hm Hlen Hdis. unfold bng_generic_square_add.
  pose proof (val_range m a alen Hm) as Ra. pose proof (val_range m b blen Hm) as Rb.
  pose proof (square_decomp m b blen) as Esq. pose proof (PB_pos alen) as HPa.
  pose proof (cross_nonneg m b blen Hm) as Hcr. pose proof (diag_nonneg m b blen Hm) as Hdg.
  assert (HP : PB blen * PB blen <= PB alen).
  { rewrite <- (PB_add blen). unfold PB. apply Z.pow_le_mono_r; pose proof BASE_pos; lia. }
  assert (Hsq : 0 <= val m b blen * val m b blen < PB alen) by nia.
  destruct (bng_square_cross_loop _ _ _ _ _ _ _ _ _) as [m1 k1] eqn:E1.
  assert (S1 : words m1 /\ same_outside a (a + Z.of_nat alen) m m1 /\ 0 <= k1 /\
               val m1 a alen + PB alen * k1 = val m a alen + cross m b blen).
  { destruct blen as [|bl]; [injection E1 as <- <-; cbn [cross]; conj; auto with mem; lia|].
    apply bng_square_cross_loop_spec in E1; auto; try lia;
      replace (S (S bl - 1)) with (S bl) in * by lia; change (2 * (1 - 1))%nat with O in *;
      change (PB 0) with 1 in *; replace (b + Z.of_nat (1 - 1)) with b in * by lia;
      [|lia]. destruct E1 as (? & ? & ? & ?). conj; auto; lia. }
  destruct S1 as (W1 & F1 & C1 & V1). pose proof (val_range m1 a alen W1) as R1.
  assert (Hk1 : k1 <= 1) by nia.
  destruct (bng_shift_left _ _ _ _) as [m2 o] eqn:E2.
  apply shift_left_ok in E2; auto; [|pose proof WORD_pos; lia].
  destruct E2 as (W2 & F2 & C2 & V2). rewrite Z.pow_1_r in *.
  assert (Ecar : bngcarry (Z.lor (bngcarry (Z.shiftl k1 1)) o) = 2 * k1 + o).
  { assert (Hc : (k1 = 0 \/ k1 = 1) /\ (o = 0 \/ o = 1)) by lia.
    destruct Hc as [[-> | ->] [-> | ->]]; reflexivity. }
  rewrite Ecar. clear Ecar.
  destruct (bng_square_diag_loop _ _ _ _ _) as [m3 k3] eqn:E3.
  apply bng_square_diag_loop_spec in E3; auto; try lia; [|unfold disjoint in *; lia].
  destruct E3 as (W3 & F3 & C3 & V3).
  destruct (if _ && _ then _ else _) as [m4 k4] eqn:E4.
  apply bng_square_tail in E4; auto. destruct E4 as (W4 & F4 & C4 & V4).
  replace (a + 2 * Z.of_nat blen) with (a + Z.of_nat (2 * blen)) in * by lia.
  destruct (frame_glue _ _ _ _ _ _ Hlen F3 F4) as (F & G1 & G2).
  assert (Ed : diag m2 b blen = diag m b blen).
  { apply diag_ext. intros x Hx. unfold disjoint in Hdis. rewrite F2, F1; auto; lia. }
  assert (EP : PB alen = PB (2 * blen) * PB (alen - 2 * blen))
    by (rewrite <- (PB_add (2 * blen)); f_equal; lia).
  assert (Vf : val m4 a alen + PB alen * (2 * k1 + o + k4) =
               2 * val m a alen + val m b blen * val m b blen).
  { apply (f_equal (Z.mul (PB (2 * blen)))) in V4.
    assert (val m4 a alen + PB alen * k4 = val m2 a alen + diag m b blen)
      by (rewrite G1, G2, EP; lia). lia. }
  pose proof (val_range m4 a alen W4) as R4.
  assert (Hle : 0 <= 2 * k1 + o + k4 <= 2) by nia.
  replace (bngcarry (2 * k1 + o + k4)) with (2 * k1 + o + k4)
    by (symmetry; apply wrap_small; lia).
  intros E. apply pair_equal_spec in E as [<- <-].
  split; [auto|split; [intros x Hx; now rewrite F, F2, F1|auto]].
Qed.

End BngMult.
