(* ===== verification/BngDivRem.v ===== *)
(** BngDivRem: the laws of division by a digit and of long division. *)
From Stdlib Require Import ZArith Lia List Bool.
From S2P Require Import Prelude BngDigit Bng BngSpec BngProof BngBasic.
Local Open Scope Z_scope.

Section BngDivRem.
Context {A : Arch}.

(** *** Positional lemmas *)

(** The digits are determined by the value. *)
Lemma val_inj m m' a n : words m -> words m' -> val m a n = val m' a n ->
  forall x, a <= x < a + Z.of_nat n -> m x = m' x.
Proof.
  intros Hm Hm'. revert a. induction n as [|n IH]; intros a E x Hx; [lia|].
  rewrite !val_S in E. pose proof (word_range m a Hm). pose proof (word_range m' a Hm').
  pose proof BASE_pos.
  assert (Ea : m a = m' a /\ val m (a + 1) n = val m' (a + 1) n).
  { assert (val m (a + 1) n = val m' (a + 1) n) by nia. lia. }
  destruct Ea as [Ea Er]. destruct (Z.eq_dec x a) as [->|]; [auto|].
  apply (IH (a + 1)); auto; lia.
Qed.

(** The upper digits of a number below [PB k * X] are below [X]. *)
Lemma val_top_lt m a k n X : words m -> val m a (k + n) < PB k * X ->
  val m (a + Z.of_nat k) n < X.
Proof.
  intros Hm. rewrite val_app. pose proof (val_range m a k Hm). pose proof (PB_pos k). nia.
Qed.

(** Conversely, a bound on the upper digits bounds the number. *)
Lemma val_lt_top m a k n X : words m -> val m (a + Z.of_nat k) n < X ->
  val m a (k + n) < PB k * X.
Proof.
  intros Hm. rewrite val_app. pose proof (val_range m a k Hm). pose proof (PB_pos k). nia.
Qed.

Lemma val_top_le m a n : words m -> (0 < n)%nat ->
  PB (n - 1) * m (a + Z.of_nat n - 1) <= val m a n.
Proof.
  intros Hm Hn. destruct n as [|k]; [lia|]. rewrite val_snoc.
  replace (S k - 1)%nat with k by lia.
  replace (a + Z.of_nat (S k) - 1) with (a + Z.of_nat k) by lia.
  pose proof (val_range m a k Hm). lia.
Qed.

Lemma val_1 m a : val m a 1 = m a.
Proof. cbn [val]. lia. Qed.

(** *** Division by one digit *)

Lemma bng_div_rem_norm_digit_loop_spec d : 0 < d < BASE -> forall n m a b t, words m ->
  0 <= t < d -> b <= a \/ a + Z.of_nat n <= b ->
  exists m' r, bng_div_rem_norm_digit_loop m a b n d t = Some (m', r) /\
  words m' /\ same_outside a (a + Z.of_nat n) m m' /\ 0 <= r < d /\
  t * PB n + val m b n = d * val m' a n + r.
Proof.
  intros Hd. induction n as [|i IH]; intros m a b t Hm Ht Hab; cbn [bng_div_rem_norm_digit_loop].
  - exists m, t. change (PB 0) with 1. cbn [val]. conj; auto with mem; lia.
  - pose proof (word_range m (b + Z.of_nat i) Hm) as Hx.
    unfold BngDiv. rewrite bng_div_aux_spec by auto.
    set (N := t * BASE + m (b + Z.of_nat i)). pose proof (Z.div_mod N d ltac:(lia)) as EN.
    pose proof (Z.mod_pos_bound N d ltac:(lia)) as Hr.
    assert (Hq : 0 <= N / d < BASE)
      by (split; [apply Z.div_pos; unfold N; nia | apply Z.div_lt_upper_bound; unfold N; nia]).
    set (q := N / d) in *. set (r1 := N mod d) in *.
    destruct (IH m.[a + Z.of_nat i <- q] a b r1) as (m' & r & E & W & F & Hr' & V);
      [apply words_upd_range; auto | auto | lia |].
    exists m', r. split; [exact E|]. split; [auto|].
    assert (Eq : m' (a + Z.of_nat i) = q) by (rewrite F by lia; apply upd_same).
    rewrite val_upd_out in V by lia. conj; auto; try lia.
    + intros x Hx'. rewrite F by lia. apply upd_other. lia.
    + rewrite !val_snoc, Eq, PB_S. unfold N in EN.
      apply (f_equal (Z.mul (PB i))) in EN. lia.
Qed.

Lemma bng_generic_div_rem_norm_digit_ok :
  div_rem_norm_digit_law bng_generic_div_rem_norm_digit.
Proof.
  intros m a b len d Hm Hlen Hd Htop Hab. unfold bng_generic_div_rem_norm_digit.
  destruct len as [|n]; [lia|]. replace (S n - 1)%nat with n by lia.
  replace (b + Z.of_nat (S n) - 1) with (b + Z.of_nat n) in * by lia.
  pose proof (word_range m (b + Z.of_nat n) Hm) as Ht.
  destruct (bng_div_rem_norm_digit_loop_spec d Hd n m a b (m (b + Z.of_nat n)))
    as (m' & r & E & W & F & Hr & V); auto; [lia|lia|].
  rewrite E. exists m'. rewrite val_snoc.
  replace (val m b n + PB n * m (b + Z.of_nat n)) with (d * val m' a n + r) by lia.
  assert (Eq : (d * val m' a n + r) / d = val m' a n)
    by (symmetry; apply Z.div_unique with r; lia).
  assert (Er : (d * val m' a n + r) mod d = r)
    by (symmetry; apply Z.mod_unique with (val m' a n); lia).
  rewrite Eq, Er. conj; auto.
  eapply same_outside_weaken; [| |exact F]; lia.
Qed.

(** *** Scaling by the normalisation shift *)

Lemma div_scale V D p : 0 < p -> 0 < D -> V * p / (D * p) = V / D.
Proof. intros. apply Z.div_mul_cancel_r; lia. Qed.

Lemma mod_scale V D p : 0 < p -> 0 < D -> (V * p) mod (D * p) = V mod D * p.
Proof. intros. apply Zmult_mod_distr_r. Qed.

(** Normalisation loses no bit: the top digit of [n] is below that of [d]. *)
Lemma bng_norm_bounds m n nlen d dlen s : words m -> (0 < dlen < nlen)%nat ->
  let nt := m (n + Z.of_nat nlen - 1) in
  let dt := m (d + Z.of_nat dlen - 1) in
  nt < dt -> 0 <= s < WORD -> dt * 2 ^ s < BASE ->
  let D := val m d dlen in
  let V := val m n nlen in
  0 < D /\ D * 2 ^ s < PB dlen /\ V * 2 ^ s < PB nlen /\
  V * 2 ^ s < PB (nlen - dlen) * (D * 2 ^ s).
Proof.
  intros Hm Hlen nt dt Ht Hs Hhi D V.
  destruct dlen as [|dl]; [lia|]. destruct nlen as [|nl]; [lia|].
  pose proof (word_range m (n + Z.of_nat (S nl) - 1) Hm) as Rn. fold nt in Rn.
  assert (Hp : 0 < 2 ^ s) by (apply pow2_pos; lia).
  assert (ED : D = val m d dl + PB dl * dt).
  { unfold D, dt. rewrite val_snoc. do 3 f_equal. lia. }
  assert (EV : V = val m n nl + PB nl * nt).
  { unfold V, nt. rewrite val_snoc. do 3 f_equal. lia. }
  pose proof (val_range m d dl Hm) as Rd'. pose proof (val_range m n nl Hm) as Rn'.
  pose proof (PB_pos dl). pose proof (PB_pos nl). rewrite !PB_S.
  assert (EP : PB nl = PB (S nl - S dl) * PB dl) by (rewrite <- (PB_add (S nl - S dl)); f_equal; lia).
  assert (HV : V < PB nl * dt) by nia.
  assert (Hmul : dt * 2 ^ s + 2 ^ s <= BASE).
  { assert (Hs' : 0 <= s <= WORD) by lia. pose proof (pow_split s Hs') as EB.
    assert (dt < 2 ^ (WORD - s)) by (apply Z.mul_lt_mono_pos_r with (2 ^ s); lia).
    assert ((dt + 1) * 2 ^ s <= 2 ^ (WORD - s) * 2 ^ s) by (apply Z.mul_le_mono_nonneg_r; lia).
    lia. }
  pose proof (PB_pos (S nl - S dl)).
  assert (HV2 : V * 2 ^ s < PB nl * dt * 2 ^ s) by (apply Z.mul_lt_mono_pos_r; lia).
  assert (HD2 : D * 2 ^ s < PB dl * (dt + 1) * 2 ^ s) by (apply Z.mul_lt_mono_pos_r; nia).
  assert (HD3 : PB dl * dt * 2 ^ s <= D * 2 ^ s) by (apply Z.mul_le_mono_nonneg_r; lia).
  assert (PB nl * (dt * 2 ^ s) < PB nl * BASE) by (apply Z.mul_lt_mono_pos_l; lia).
  assert (PB dl * (dt * 2 ^ s + 2 ^ s) <= PB dl * BASE) by (apply Z.mul_le_mono_nonneg_l; lia).
  assert (PB (S nl - S dl) * (PB dl * dt * 2 ^ s) <= PB (S nl - S dl) * (D * 2 ^ s))
    by (apply Z.mul_le_mono_nonneg_l; lia).
  conj; [nia | lia | lia | rewrite EP in HV2; lia].
Qed.

(** The top digit of the normalised divisor is not zero. *)
Lemma bng_norm_top m d dlen D s dt : words m -> (0 < dlen)%nat -> 0 < dt -> 0 <= s ->
  PB (dlen - 1) * dt <= D -> val m d dlen = D * 2 ^ s -> 0 < m (d + Z.of_nat dlen - 1).
Proof.
  intros Hm Hdl Hdt Hs HD E. destruct dlen as [|dl]; [lia|].
  replace (S dl - 1)%nat with dl in HD by lia.
  replace (d + Z.of_nat (S dl) - 1) with (d + Z.of_nat dl) by lia.
  rewrite val_snoc in E. pose proof (val_range m d dl Hm). pose proof (PB_pos dl).
  pose proof (word_range m (d + Z.of_nat dl) Hm). pose proof (pow2_pos s Hs). nia.
Qed.

Section Table.
Variable bng_shift_left : mem -> Z -> nat -> Z -> mem * Z.
Variable bng_shift_right : mem -> Z -> nat -> Z -> mem * Z.
Variable bng_sub : mem -> Z -> nat -> Z -> nat -> Z -> mem * Z.
Variable bng_mult_sub_digit : mem -> Z -> nat -> Z -> nat -> Z -> mem * Z.
Variable bng_div_rem_norm_digit : mem -> Z -> Z -> nat -> Z -> option (mem * Z).
Hypothesis shift_left_ok : shift_left_law bng_shift_left.
Hypothesis shift_right_ok : shift_right_law bng_shift_right.
Hypothesis sub_ok : sub_law bng_sub.
Hypothesis mult_sub_digit_ok : mult_sub_digit_law bng_mult_sub_digit.
Hypothesis div_rem_norm_digit_ok : div_rem_norm_digit_law bng_div_rem_norm_digit.

(** A left shift that loses no bit. *)
Lemma shift_left_exact m a n s m' c : words m -> 0 <= s < WORD ->
  val m a n * 2 ^ s < PB n -> bng_shift_left m a n s = (m', c) ->
  words m' /\ same_outside a (a + Z.of_nat n) m m' /\ val m' a n = val m a n * 2 ^ s.
Proof.
  intros Hm Hs Hb E. apply shift_left_ok in E; auto. destruct E as (W & F & C & V).
  conj; auto. pose proof (val_range m' a n W). pose proof (PB_pos n).
  set (X := val m a n * 2 ^ s) in *. assert (c = 0) by nia. subst c. lia.
Qed.

(** A right shift that undoes it. *)
Lemma shift_right_exact m a n s X m' c : words m -> 0 <= s < WORD ->
  val m a n = X * 2 ^ s -> bng_shift_right m a n s = (m', c) ->
  words m' /\ same_outside a (a + Z.of_nat n) m m' /\ val m' a n = X.
Proof.
  intros Hm Hs HX E. apply shift_right_ok in E; auto. destruct E as (W & F & _ & V & _).
  conj; auto. rewrite V, HX. apply Z.div_mul. apply Z.pow_nonzero; lia.
Qed.

Lemma bng_generic_div_rem_digit_ok :
  div_rem_digit_law
    (bng_generic_div_rem_digit bng_shift_left bng_shift_right bng_div_rem_norm_digit).
Proof.
  intros m a b len d Hm Hlen Hd Htop Hdis. unfold bng_generic_div_rem_digit.
  destruct (bng_leading_zero_bits_spec d Hd) as (Hs & Hlo & Hhi).
  set (s := bng_leading_zero_bits d) in *. clearbody s.
  assert (Hp : 0 < 2 ^ s) by (apply pow2_pos; lia).
  rewrite Z.shiftl_mul_pow2, (bngdigit_small (d * 2 ^ s)) by lia.
  destruct len as [|k]; [lia|]. replace (S k) with (k + 1)%nat in * by lia.
  replace (b + Z.of_nat (k + 1) - 1) with (b + Z.of_nat k) in * by lia.
  assert (HV : val m b (k + 1) < PB k * d) by (apply val_lt_top; auto; now rewrite val_1).
  assert (EP : PB (k + 1) = PB k * BASE)
    by (rewrite PB_add; f_equal; unfold PB; cbn; apply Z.pow_1_r).
  pose proof (PB_pos k) as HPk.
  destruct (bng_shift_left m b (k + 1) s) as [m1 c1] eqn:E1.
  apply shift_left_exact in E1; auto; [|rewrite EP; nia]. destruct E1 as (W1 & F1 & V1).
  assert (Htop1 : m1 (b + Z.of_nat k) < d * 2 ^ s).
  { rewrite <- (val_1 m1). apply val_top_lt; auto. rewrite V1. nia. }
  unfold disjoint in Hdis.
  destruct (div_rem_norm_digit_ok m1 a b (k + 1)%nat (d * 2 ^ s)) as (m2 & E2 & W2 & F2 & V2);
    auto; try lia.
  { now replace (b + Z.of_nat (k + 1) - 1) with (b + Z.of_nat k) by lia. }
  rewrite E2. clear E2.
  assert (Eb : val m2 b (k + 1) = val m b (k + 1) * 2 ^ s)
    by (rewrite <- V1; eapply val_frame; eauto; lia).
  destruct (bng_shift_right m2 b (k + 1) s) as [m3 c3] eqn:E3.
  eapply shift_right_exact in E3; eauto. destruct E3 as (W3 & F3 & V3).
  rewrite V1, div_scale in V2 by lia. rewrite V1, mod_scale by lia.
  rewrite Z.shiftr_div_pow2, Z.div_mul by lia.
  exists m3. conj; auto.
  - intros x Hx. destruct (Z_lt_ge_dec x b); [|destruct (Z_lt_ge_dec x (b + Z.of_nat (k + 1)))].
    + rewrite F3, F2, F1; auto; lia.
    + apply (val_inj m3 m b (k + 1)); auto; lia.
    + rewrite F3, F2, F1; auto; lia.
  - rewrite <- V2. eapply val_frame; eauto; lia.
Qed.

(** *** Long division *)

(** The adjustment loop reduces the window [n[i..j]] modulo the divisor and
    adds the quotient to [quo]. *)
Lemma bng_div_rem_adjust_spec n i d dlen m quo : words m ->
  disjoint (n + i) (S dlen) d dlen ->
  let D := val m d dlen in
  let Wd := val m (n + i) (S dlen) in
  0 < D -> 0 <= quo -> quo + Wd / D < BASE ->
  exists m', bng_div_rem_adjust bng_sub n (i + Z.of_nat dlen) i d dlen m quo =
    Some (m', quo + Wd / D) /\
  words m' /\ same_outside (n + i) (n + i + Z.of_nat (S dlen)) m m' /\
  val m' (n + i) dlen = Wd mod D.
Proof.
  intros Hm Hdis D Wd HD Hq Hb. unfold bng_div_rem_adjust.
  assert (HW : 0 <= Wd) by (apply val_range; auto).
  assert (HWD : 0 <= Wd / D) by (apply Z.div_pos; lia).
  edestruct (while_rule
    (fun '(m, quo) => negb (m (n + (i + Z.of_nat dlen)) =? 0)
                      || (0 <=? bng_compare m (n + i) dlen d dlen))
    (fun '(m, quo) =>
       let quo := bngdigit (quo + 1) in
       let '(m', out) := bng_sub m (n + i) dlen d dlen 0 in
       (m'.[n + (i + Z.of_nat dlen) <- bngdigit (m' (n + (i + Z.of_nat dlen)) - out)], quo))
    (fun '(m1, q1) => words m1 /\
       same_outside (n + i) (n + i + Z.of_nat (S dlen)) m m1 /\
       quo <= q1 <= quo + Wd / D /\
       val m1 (n + i) (S dlen) = Wd - (q1 - quo) * D)
    (fun '(m1, q1) => quo + Wd / D - q1))
    as ([m' q'] & E & HI & HC); [| | |rewrite E].
  - intros [m1 q1] (W1 & F1 & B1 & V1) C.
    assert (Ed : val m1 d dlen = D)
      by (unfold D; eapply val_frame; eauto; unfold disjoint in Hdis; lia).
    set (j := n + (i + Z.of_nat dlen)) in *.
    assert (EJ : val m1 (n + i) (S dlen) = val m1 (n + i) dlen + PB dlen * m1 j)
      by (rewrite val_snoc; do 3 f_equal; unfold j; lia).
    pose proof (word_range m1 j W1) as Rj. pose proof (PB_pos dlen) as HP.
    pose proof (val_range m1 (n + i) dlen W1) as Rw.
    assert (HDP : D < PB dlen) by (unfold D; apply val_range; auto).
    assert (Hge : D <= val m1 (n + i) (S dlen)).
    { rewrite EJ. apply orb_true_iff in C. destruct C as [C|C].
      - apply negb_true_iff, Z.eqb_neq in C. nia.
      - rewrite bng_compare_spec, Ed in C by auto. apply Z.leb_le in C.
        destruct (Z.compare_spec (val m1 (n + i) dlen) D); cbn in C; nia. }
    assert (Hq1 : q1 + 1 <= quo + Wd / D).
    { assert (q1 - quo + 1 <= Wd / D) by (apply Z.div_le_lower_bound; lia). lia. }
    rewrite (bngdigit_small (q1 + 1)) by lia.
    destruct (bng_sub m1 (n + i) dlen d dlen 0) as [m2 out] eqn:E2.
    apply sub_ok in E2; auto; try lia; [|unfold fwd_ok, disjoint in *; lia].
    destruct E2 as (W2 & F2 & C2 & V2). rewrite Ed in V2.
    assert (Ej : m2 j = m1 j) by (apply F2; unfold j; lia).
    rewrite Ej. pose proof (val_range m2 (n + i) dlen W2) as Rw2.
    assert (Hnj : 0 <= m1 j - out) by nia.
    rewrite bngdigit_small by lia. cbn zeta. conj; try lia.
    + apply words_upd_range; auto; lia.
    + intros x Hx. rewrite upd_other by (unfold j; lia). rewrite F2 by lia. now apply F1.
    + rewrite val_snoc. replace (n + i + Z.of_nat dlen) with j by (unfold j; lia).
      rewrite upd_same, val_upd_out by (unfold j; lia). lia.
  - cbv beta iota. conj; auto with mem; lia.
  - rewrite Z2Nat.id by (pose proof WORD_pos; lia). fold BASE. lia.
  - destruct HI as (W1 & F1 & B1 & V1). apply orb_false_iff in HC. destruct HC as [C1 C2].
    apply negb_false_iff, Z.eqb_eq in C1.
    assert (Ed : val m' d dlen = D)
      by (unfold D; eapply val_frame; eauto; unfold disjoint in Hdis; lia).
    rewrite val_snoc in V1.
    replace (n + i + Z.of_nat dlen) with (n + (i + Z.of_nat dlen)) in V1 by lia.
    rewrite C1, Z.mul_0_r, Z.add_0_r in V1.
    assert (Hlt : val m' (n + i) dlen < D).
    { apply Z.leb_gt in C2. rewrite bng_compare_spec, Ed in C2 by auto.
      destruct (Z.compare_spec (val m' (n + i) dlen) D); cbn in C2; lia. }
    pose proof (val_range m' (n + i) dlen W1) as Rw.
    assert (Eq : q' - quo = Wd / D)
      by (apply Z.div_unique with (r := val m' (n + i) dlen); lia).
    exists m'. replace q' with (quo + Wd / D) by lia. conj; auto.
    apply Z.mod_unique with (q := q' - quo); lia.
Qed.

(** The estimate of a quotient digit never exceeds the true digit. *)
Lemma bng_quo_estimate m w dlen topden D : words m -> (0 < dlen)%nat ->
  0 < topden < BASE -> topden * PB (dlen - 1) <= D < (topden + 1) * PB (dlen - 1) ->
  val m (w + 1) dlen < D ->
  let nj := m (w + Z.of_nat dlen) in
  let nj1 := m (w + Z.of_nat dlen - 1) in
  exists q0 r, (if bngdigit (topden + 1) =? 0 then Some (nj, 0)
                else BngDiv nj nj1 (bngdigit (topden + 1))) = Some (q0, r) /\
    0 <= q0 /\ q0 * D <= val m w (S dlen).
Proof.
  intros Hm Hdl Htop HD Hw nj nj1. destruct dlen as [|n]; [lia|].
  replace (S n - 1)%nat with n in * by lia.
  unfold nj, nj1. replace (w + Z.of_nat (S n) - 1) with (w + Z.of_nat n) by lia.
  replace (w + Z.of_nat (S n)) with (w + 1 + Z.of_nat n) in * by lia.
  set (x := m (w + 1 + Z.of_nat n)). set (y := m (w + Z.of_nat n)).
  pose proof (word_range m (w + 1 + Z.of_nat n) Hm) as Rx. fold x in Rx.
  pose proof (word_range m (w + Z.of_nat n) Hm) as Ry. fold y in Ry.
  pose proof (PB_pos n) as HP. pose proof (val_range m w n Hm) as R0.
  pose proof (val_range m (w + 1) n Hm) as R1.
  assert (Hx : x <= topden) by (rewrite val_snoc in Hw; fold x in Hw; nia).
  assert (Hval : val m w (S (S n)) = val m w n + PB n * (y + BASE * x)).
  { rewrite !val_snoc, PB_S. replace (w + Z.of_nat (S n)) with (w + 1 + Z.of_nat n) by lia.
    fold x y. lia. }
  destruct (bngdigit_cases (topden + 1)) as [[? E]|[[? E]|[? E]]]; try lia; rewrite E.
  - rewrite (proj2 (Z.eqb_neq _ 0)) by lia. unfold BngDiv. rewrite bng_div_aux_spec by lia.
    do 2 eexists. split; [reflexivity|].
    set (N := x * BASE + y).
    assert (Hq : 0 <= N / (topden + 1)) by (apply Z.div_pos; unfold N; nia).
    pose proof (Z.mul_div_le N (topden + 1) ltac:(lia)) as Hle.
    split; [auto|]. rewrite Hval. set (q := N / (topden + 1)) in *. unfold N in Hle.
    assert (q * D <= q * ((topden + 1) * PB n)) by (apply Z.mul_le_mono_nonneg_l; lia).
    nia.
  - rewrite (proj2 (Z.eqb_eq _ 0)) by lia. do 2 eexists. split; [reflexivity|].
    split; [lia|]. rewrite Hval.
    assert (x * D <= x * (BASE * PB n)) by (apply Z.mul_le_mono_nonneg_l; nia). nia.
Qed.

(** Subtracting [q0 * D] from the window, top digit included. *)
Lemma bng_window_sub m w d dlen q0 m1 out : words m -> disjoint w (S dlen) d dlen ->
  0 <= q0 < BASE -> q0 * val m d dlen <= val m w (S dlen) ->
  bng_mult_sub_digit m w dlen d dlen q0 = (m1, out) ->
  let m2 := m1.[w + Z.of_nat dlen <- bngdigit (m1 (w + Z.of_nat dlen) - out)] in
  words m2 /\ same_outside w (w + Z.of_nat (S dlen)) m m2 /\
  val m2 w (S dlen) = val m w (S dlen) - q0 * val m d dlen.
Proof.
  intros Hm Hdis Hq Hle E. unfold disjoint in Hdis. set (x := w + Z.of_nat dlen).
  apply mult_sub_digit_ok in E; auto; [|unfold fwd_ok; lia].
  destruct E as (W1 & F1 & C1 & _ & V1).
  assert (Ex : m1 x = m x) by (apply F1; unfold x; lia). rewrite Ex.
  pose proof (word_range m x Hm) as Rx. pose proof (val_range m1 w dlen W1) as Rw.
  pose proof (PB_pos dlen). rewrite val_snoc in Hle. fold x in Hle.
  rewrite bngdigit_small by nia. cbn zeta. conj.
  - apply words_upd_range; auto. nia.
  - intros y Hy. rewrite upd_other by (unfold x; lia). apply F1. lia.
  - rewrite !val_snoc. fold x. rewrite upd_same, val_upd_out by (unfold x; lia). lia.
Qed.

(** One digit of the quotient: the window is divided by [D], its remainder
    left in the low digits and the quotient in the top one. *)
Lemma bng_div_rem_step_spec m n d dlen topden i : (0 < dlen)%nat -> words m ->
  disjoint (n + i) (S dlen) d dlen -> topden = m (d + Z.of_nat dlen - 1) -> 0 < topden ->
  let D := val m d dlen in
  let Wd := val m (n + i) (S dlen) in
  val m (n + i + 1) dlen < D ->
  exists m', bng_div_rem_step bng_sub bng_mult_sub_digit m n d dlen topden i = Some m' /\
  words m' /\ same_outside (n + i) (n + i + Z.of_nat (S dlen)) m m' /\
  val m' (n + i) dlen = Wd mod D /\ m' (n + i + Z.of_nat dlen) = Wd / D /\ 0 < D.
Proof.
  intros Hdl Hm Hdis Htop Htop0 D Wd Hw. unfold bng_div_rem_step.
  assert (HDr : topden * PB (dlen - 1) <= D < (topden + 1) * PB (dlen - 1)).
  { unfold D. destruct dlen as [|dl]; [lia|]. rewrite val_snoc.
    replace (d + Z.of_nat (S dl) - 1) with (d + Z.of_nat dl) in Htop by lia.
    replace (S dl - 1)%nat with dl by lia. rewrite <- Htop.
    pose proof (val_range m d dl Hm). lia. }
  assert (HD0 : 0 < D) by (pose proof (PB_pos (dlen - 1)); nia).
  pose proof (word_range m (d + Z.of_nat dlen - 1) Hm) as Rtop. rewrite <- Htop in Rtop.
  destruct (bng_quo_estimate m (n + i) dlen topden D) as (q0 & r0 & Eq & Hq0 & Hq1); auto; try lia.
  replace (n + (i + Z.of_nat dlen)) with (n + i + Z.of_nat dlen) by lia.
  rewrite Eq. clear Eq. fold Wd in Hq1.
  assert (HWd : 0 <= Wd < BASE * D).
  { split; [apply val_range; auto|]. unfold Wd. rewrite val_S.
    pose proof (word_range m (n + i) Hm). nia. }
  assert (HWq : Wd / D < BASE) by (apply Z.div_lt_upper_bound; lia).
  assert (Hq2 : q0 <= Wd / D) by (apply Z.div_le_lower_bound; lia).
  destruct (bng_mult_sub_digit m (n + i) dlen d dlen q0) as [m1 out] eqn:E1.
  apply bng_window_sub in E1; auto; [|lia]. cbn zeta in E1.
  set (m2 := m1.[_ <- _]) in *. destruct E1 as (W2 & F2 & V2). fold D Wd in V2.
  assert (ED2 : val m2 d dlen = D)
    by (unfold D; eapply val_frame; eauto; unfold disjoint in Hdis; lia).
  assert (Hdm : (Wd - q0 * D) / D = Wd / D - q0 /\ (Wd - q0 * D) mod D = Wd mod D).
  { replace (Wd - q0 * D) with (Wd + (- q0) * D) by ring.
    split; [rewrite Z.div_add by lia; lia | apply Z_mod_plus_full]. }
  destruct Hdm as [Hdiv Hmod].
  destruct (bng_div_rem_adjust_spec n i d dlen m2 q0) as (m3 & E3 & W3 & F3 & V3);
    rewrite ?ED2, ?V2, ?Hdiv; auto; try lia.
  rewrite ED2, V2, ?Hdiv, ?Hmod in *. replace (q0 + (Wd / D - q0)) with (Wd / D) in E3 by lia.
  rewrite E3. clear E3. eexists. split; [reflexivity|]. conj; auto.
  - apply words_upd_range; auto. lia.
  - intros x Hx. rewrite upd_other by lia. rewrite F3, F2; auto.
  - rewrite val_upd_out by lia. auto.
  - apply upd_same.
Qed.

Lemma bng_div_rem_loop_spec n d dlen topden : (0 < dlen)%nat -> forall k m, words m ->
  disjoint n (k + dlen) d dlen -> topden = m (d + Z.of_nat dlen - 1) -> 0 < topden ->
  let D := val m d dlen in
  val m (n + Z.of_nat k) dlen < D ->
  exists m', bng_div_rem_loop bng_sub bng_mult_sub_digit m n d dlen topden k = Some m' /\
  words m' /\ same_outside n (n + Z.of_nat (k + dlen)) m m' /\
  val m n (k + dlen) = D * val m' (n + Z.of_nat dlen) k + val m' n dlen /\
  val m' n dlen < D.
Proof.
  intros Hdl. induction k as [|k IH]; intros m Hm Hdis Htop Htop0 D Hw; cbn [bng_div_rem_loop].
  - exists m. replace (n + Z.of_nat 0) with n in Hw by lia. cbn [val Nat.add].
    conj; auto with mem; lia.
  - unfold disjoint in Hdis.
    replace (n + Z.of_nat (S k)) with (n + Z.of_nat k + 1) in Hw by lia.
    destruct (bng_div_rem_step_spec m n d dlen topden (Z.of_nat k))
      as (m4 & E4 & W4 & F4 & V4 & Q4 & HD0); auto; [unfold disjoint; lia|].
    rewrite E4. fold D in V4, Q4, HD0. set (Wd := val m (n + Z.of_nat k) (S dlen)) in *.
    assert (ED4 : val m4 d dlen = D) by (unfold D; eapply val_frame; eauto; lia).
    pose proof (Z.mod_pos_bound Wd D HD0) as Rr.
    destruct (IH m4) as (m' & E5 & W5 & F5 & V5 & L5); rewrite ?ED4, ?V4; auto; try lia.
    { unfold disjoint. lia. }
    { rewrite Htop. symmetry. apply F4. lia. }
    rewrite ED4 in *. exists m'. split; [exact E5|]. split; [auto|]. split; [|split; [|auto]].
    + intros x Hx. rewrite F5, F4; auto; lia.
    + assert (Eq' : m' (n + Z.of_nat dlen + Z.of_nat k) = Wd / D).
      { rewrite F5, <- Q4 by lia. f_equal. lia. }
      rewrite (val_snoc m' (n + Z.of_nat dlen)), Eq'.
      replace (S k + dlen)%nat with (k + S dlen)%nat by lia.
      rewrite val_app. fold Wd. rewrite (val_app m4 n k dlen), V4 in V5.
      rewrite (val_frame _ _ _ _ n k F4) in V5 by lia.
      pose proof (Z.div_mod Wd D ltac:(lia)) as EWd.
      apply (f_equal (Z.mul (PB k))) in EWd. lia.
Qed.

(** The part of [bng_generic_div_rem] between the two normalisations. *)
Lemma bng_div_rem_core m n nlen d dlen : words m -> (0 < dlen < nlen)%nat ->
  disjoint n nlen d dlen -> 0 < m (d + Z.of_nat dlen - 1) ->
  let D := val m d dlen in
  val m (n + Z.of_nat (nlen - dlen)) dlen < D ->
  exists m',
  (if (dlen =? 1)%nat then
     let* (m, r) := bng_div_rem_norm_digit m (n + 1) n nlen (m d) in Some m.[n <- r]
   else bng_div_rem_loop bng_sub bng_mult_sub_digit m n d dlen
          (m (d + Z.of_nat dlen - 1)) (nlen - dlen)) = Some m' /\
  words m' /\ same_outside n (n + Z.of_nat nlen) m m' /\
  val m' (n + Z.of_nat dlen) (nlen - dlen) = val m n nlen / D /\
  val m' n dlen = val m n nlen mod D.
Proof.
  intros Hm Hlen Hdis Htop D Hw. destruct (Nat.eqb_spec dlen 1) as [->|Hne].
  - unfold D in *. rewrite !val_1 in *. pose proof (word_range m d Hm).
    replace (d + Z.of_nat 1 - 1) with d in Htop by lia.
    destruct (div_rem_norm_digit_ok m (n + 1) n nlen (m d)) as (m' & E & W & F & V); auto; try lia.
    { now replace (n + Z.of_nat nlen - 1) with (n + Z.of_nat (nlen - 1)) by lia. }
    rewrite E. eexists. split; [reflexivity|].
    pose proof (Z.mod_pos_bound (val m n nlen) (m d) ltac:(lia)).
    rewrite val_1, upd_same, val_upd_out by lia. conj; auto.
    + apply words_upd_range; auto. lia.
    + intros x Hx. rewrite upd_other by lia. apply F. lia.
  - destruct (bng_div_rem_loop_spec n d dlen (m (d + Z.of_nat dlen - 1)) ltac:(lia) (nlen - dlen) m)
      as (m' & E & W & F & V & L); auto.
    { now replace (nlen - dlen + dlen)%nat with nlen by lia. }
    replace (nlen - dlen + dlen)%nat with nlen in * by lia. fold D in V, L.
    pose proof (val_range m' n dlen W). exists m'. conj; auto.
    + apply Z.div_unique with (r := val m' n dlen); lia.
    + apply Z.mod_unique with (q := val m' (n + Z.of_nat dlen) (nlen - dlen)); lia.
Qed.

Lemma bng_generic_div_rem_ok :
  div_rem_law
    (bng_generic_div_rem bng_shift_left bng_shift_right bng_sub bng_mult_sub_digit
       bng_div_rem_norm_digit).
Proof.
  intros m n nlen d dlen Hm Hlen Htop Hdis. unfold bng_generic_div_rem.
  pose proof (word_range m (n + Z.of_nat nlen - 1) Hm) as Rn.
  pose proof (word_range m (d + Z.of_nat dlen - 1) Hm) as Rd.
  set (dt := m (d + Z.of_nat dlen - 1)) in *.
  assert (Hdt : 0 < dt < BASE) by lia.
  destruct (bng_leading_zero_bits_spec dt Hdt) as (Hs & Hlo & Hhi).
  set (s := bng_leading_zero_bits dt) in *. clearbody s.
  assert (Hp : 0 < 2 ^ s) by (apply pow2_pos; lia).
  set (D := val m d dlen). set (V := val m n nlen).
  pose proof (bng_norm_bounds m n nlen d dlen s Hm Hlen Htop Hs Hhi) as (HD0 & HDs & HVs & HVD).
  fold D V dt in HD0, HDs, HVs, HVD. unfold disjoint in Hdis.
  destruct (bng_shift_left m n nlen s) as [m1 c1] eqn:E1.
  apply shift_left_exact in E1; auto. destruct E1 as (W1 & F1 & V1). fold V in V1.
  assert (D1 : val m1 d dlen = D) by (unfold D; eapply val_frame; eauto; lia).
  destruct (bng_shift_left m1 d dlen s) as [m2 c2] eqn:E2.
  apply shift_left_exact in E2; rewrite ?D1; auto. destruct E2 as (W2 & F2 & V2). rewrite D1 in V2.
  assert (N2 : val m2 n nlen = V * 2 ^ s) by (rewrite <- V1; eapply val_frame; eauto; lia).
  destruct (bng_div_rem_core m2 n nlen d dlen) as (m3 & E3 & W3 & F3 & Q3 & R3); auto.
  { apply (bng_norm_top m2 d dlen D s dt); auto; try lia. apply val_top_le; auto; lia. }
  { rewrite V2. apply val_top_lt; auto. replace (nlen - dlen + dlen)%nat with nlen by lia.
    rewrite N2. lia. }
  rewrite E3. clear E3. rewrite N2, V2, div_scale in Q3 by lia. rewrite N2, V2, mod_scale in R3 by lia.
  destruct (bng_shift_right m3 n dlen s) as [m4 c4] eqn:E4.
  eapply shift_right_exact in E4; eauto. destruct E4 as (W4 & F4 & V4).
  assert (D4 : val m4 d dlen = D * 2 ^ s).
  { rewrite <- V2. apply val_ext. intros x Hx. rewrite F4, F3; auto; lia. }
  destruct (bng_shift_right m4 d dlen s) as [m5 c5] eqn:E5.
  eapply shift_right_exact in E5; eauto. destruct E5 as (W5 & F5 & V5).
  exists m5. conj; auto.
  - intros x Hx. destruct (Z_lt_ge_dec x d); [|destruct (Z_lt_ge_dec x (d + Z.of_nat dlen))].
    + rewrite F5, F4, F3, F2, F1; auto; lia.
    + apply (val_inj m5 m d dlen); auto; lia.
    + rewrite F5, F4, F3, F2, F1; auto; lia.
  - rewrite <- Q3. apply val_ext. intros x Hx. rewrite F5, F4; auto; lia.
  - rewrite <- V4. apply val_ext. intros x Hx. rewrite F5; auto; lia.
Qed.

End Table.
End BngDivRem.
