(* ===== verification/BngTable.v ===== *)
(** BngTable: the table of operations as its clients see it, src/inline-more/
    otherlibs/num/bng.c.  The table satisfies the laws of [BngSpec.BngOk], also
    when processor-specific code replaces its elementary entries; the
    properties of the library follow. *)
From Stdlib Require Import ZArith Lia List Bool.
From S2P Require Import Prelude BngDigit Bng BngSpec BngProof BngBasic BngDivRem.
Import ListNotations.
Local Open Scope Z_scope.

(** The entries of the table that call other entries reach them through
    [bng_ops], so replacing an elementary entry (as [bng_init] may) changes
    what they call. *)
Definition bng_relink {A : Arch} (ops : bng_operations) : bng_operations := {|
  add_carry := add_carry ops;
  add := add ops;
  sub_carry := sub_carry ops;
  sub := sub ops;
  shift_left := shift_left ops;
  shift_right := shift_right ops;
  mult_add_digit := mult_add_digit ops;
  mult_sub_digit := mult_sub_digit ops;
  mult_add := bng_generic_mult_add (mult_add_digit ops);
  square_add := bng_generic_square_add (shift_left ops) (mult_add_digit ops);
  div_rem_norm_digit := div_rem_norm_digit ops;
  div_rem_digit :=
    bng_generic_div_rem_digit (shift_left ops) (shift_right ops) (div_rem_norm_digit ops);
  div_rem :=
    bng_generic_div_rem (shift_left ops) (shift_right ops) (sub ops)
      (mult_sub_digit ops) (div_rem_norm_digit ops)
|}.

(** What is required of the elementary entries. *)
Class BngPrimOk {A : Arch} (ops : bng_operations) : Prop := {
  prim_add_carry : add_carry_law (add_carry ops);
  prim_add : add_law (add ops);
  prim_sub_carry : sub_carry_law (sub_carry ops);
  prim_sub : sub_law (sub ops);
  prim_shift_left : shift_left_law (shift_left ops);
  prim_shift_right : shift_right_law (shift_right ops);
  prim_mult_add_digit : mult_add_digit_law (mult_add_digit ops);
  prim_mult_sub_digit : mult_sub_digit_law (mult_sub_digit ops);
  prim_div_rem_norm_digit : div_rem_norm_digit_law (div_rem_norm_digit ops)
}.

Section Table.
Context {A : Arch}.

#[export] Instance bng_ops_prim_ok : BngPrimOk bng_ops.
Proof.
  constructor; cbn.
  - apply bng_generic_add_carry_ok.
  - apply bng_generic_add_ok.
  - apply bng_generic_sub_carry_ok.
  - apply bng_generic_sub_ok.
  - apply bng_generic_shift_left_ok.
  - apply bng_generic_shift_right_ok.
  - apply bng_generic_mult_add_digit_ok.
  - apply bng_generic_mult_sub_digit_ok.
  - apply bng_generic_div_rem_norm_digit_ok.
Qed.

Lemma bng_relink_laws ops : BngPrimOk ops -> BngOk (bng_relink ops).
Proof.
  intros [H1 H2 H3 H4 H5 H6 H7 H8 H9]. constructor; cbn; auto.
  - now apply bng_generic_mult_add_ok.
  - now apply bng_generic_square_add_ok.
  - now apply bng_generic_div_rem_digit_ok.
  - now apply bng_generic_div_rem_ok.
Qed.

#[export] Instance bng_ops_ok : BngOk bng_ops.
Proof. apply (bng_relink_laws bng_ops). typeclasses eauto. Qed.

(** ** Properties *)

(** C2. Long division: for a numerator [{n,nlen}] and a disjoint divisor
    [{d,dlen}] with [0 < dlen < nlen] and the top digit of [n] below that of
    [d], [bng_div_rem] returns (its loops terminate), leaves the quotient in
    the upper [nlen - dlen] digits of [n] and the remainder in the lower
    [dlen], and changes no cell outside [n]: the divisor, shifted in place
    meanwhile, is restored. *)
Theorem bng_div_rem_correct m n nlen d dlen :
  words m -> (0 < dlen < nlen)%nat ->
  m (n + Z.of_nat nlen - 1) < m (d + Z.of_nat dlen - 1) -> disjoint n nlen d dlen ->
  exists m', div_rem bng_ops m n nlen d dlen = Some m' /\
    same_outside n (n + Z.of_nat nlen) m m' /\
    val m' (n + Z.of_nat dlen) (nlen - dlen) = val m n nlen / val m d dlen /\
    val m' n dlen = val m n nlen mod val m d dlen.
Proof.
  intros Hm Hlen Htop Hdis.
  destruct (ok_div_rem m n nlen d dlen) as (m' & H1 & H2 & H3 & H4 & H5); eauto.
Qed.

(** Digit division: [bng_div_rem_digit] divides [{b,len}] by a digit above
    its top digit, normalised or not, into a disjoint quotient [{a,len-1}],
    returns the remainder, and restores [b]. *)
Theorem bng_div_rem_digit_correct m a b len d :
  words m -> (0 < len)%nat -> 0 < d < BASE -> m (b + Z.of_nat len - 1) < d ->
  disjoint a (len - 1) b len ->
  exists m', div_rem_digit bng_ops m a b len d = Some (m', val m b len mod d) /\
    same_outside a (a + Z.of_nat len - 1) m m' /\ val m' a (len - 1) = val m b len / d.
Proof.
  intros Hm Hlen Hd Htop Hdis.
  destruct (ok_div_rem_digit m a b len d) as (m' & H1 & H2 & H3 & H4); eauto.
Qed.

(** Squaring: [bng_square_add] computes [2 * {a,alen} + {b,blen}^2] exactly,
    the returned carry included, for [alen >= 2 * blen]. *)
Theorem bng_square_add_correct m a alen b blen m' c' :
  words m -> (2 * blen <= alen)%nat -> disjoint a alen b blen ->
  square_add bng_ops m a alen b blen = (m', c') ->
  same_outside a (a + Z.of_nat alen) m m' /\
  val m' a alen + PB alen * c' = 2 * val m a alen + val m b blen * val m b blen.
Proof.
  intros Hm Hlen Hdis E. apply ok_square_add in E; auto. tauto.
Qed.

(** C33. Multiplication: [bng_mult_add] computes [{a,alen} + {b,blen} * {c,clen}]
    exactly; its carry out is 0 or 1. *)
Theorem bng_mult_add_correct m a alen b blen c clen m' c' :
  words m -> (blen + clen <= alen)%nat -> disjoint a alen b blen -> disjoint a alen c clen ->
  mult_add bng_ops m a alen b blen c clen = (m', c') ->
  same_outside a (a + Z.of_nat alen) m m' /\ 0 <= c' <= 1 /\
  val m' a alen + PB alen * c' = val m a alen + val m b blen * val m c clen.
Proof.
  intros Hm Hlen Hb Hc E. apply ok_mult_add in E; auto. tauto.
Qed.

(** [bng_sub] undoes [bng_add]: subtracting [b] and the carry in again gives
    back every cell of memory and the same carry. *)
Theorem bng_add_sub_roundtrip m a alen b blen c m1 c1 m2 c2 :
  words m -> (blen <= alen)%nat -> 0 <= c <= 1 -> disjoint a alen b blen ->
  add bng_ops m a alen b blen c = (m1, c1) -> sub bng_ops m1 a alen b blen c = (m2, c2) ->
  c2 = c1 /\ forall x, m2 x = m x.
Proof.
  intros Hm Hlen Hc Hdis E1 E2. unfold disjoint in Hdis.
  apply ok_add in E1; auto; [|unfold fwd_ok; lia]. destruct E1 as (W1 & F1 & C1 & V1).
  apply ok_sub in E2; auto; [|unfold fwd_ok; lia]. destruct E2 as (W2 & F2 & C2 & V2).
  assert (Eb : val m1 b blen = val m b blen) by (eapply val_frame; eauto; lia).
  pose proof (val_range m2 a alen W2). pose proof (val_range m a alen Hm). pose proof (PB_pos alen).
  assert (Ec : c2 = c1) by nia. subst c2. split; [auto|]. intros x.
  destruct (Z_lt_ge_dec x a); [now rewrite F2, F1 by lia|].
  destruct (Z_lt_ge_dec x (a + Z.of_nat alen)); [|now rewrite F2, F1 by lia].
  apply (val_inj m2 m a alen); auto; lia.
Qed.

(** A right shift restores a number shifted left without overflow: if
    [bng_shift_left] returns 0, shifting right by as much gives back every cell
    of memory and shifts no bit out. *)
Theorem bng_shift_roundtrip m a alen s m1 m2 c2 :
  words m -> 0 <= s < WORD -> shift_left bng_ops m a alen s = (m1, 0) ->
  shift_right bng_ops m1 a alen s = (m2, c2) -> c2 = 0 /\ forall x, m2 x = m x.
Proof.
  intros Hm Hs E1 E2. assert (Hp : 0 < 2 ^ s) by (apply pow2_pos; lia).
  apply ok_shift_left in E1; auto. destruct E1 as (W1 & F1 & _ & V1).
  apply ok_shift_right in E2; auto. destruct E2 as (W2 & F2 & _ & V2 & C2).
  replace (val m1 a alen) with (val m a alen * 2 ^ s) in * by lia.
  rewrite Z.div_mul in V2 by lia. rewrite Z.mod_mul in C2 by lia.
  split; [nia|]. intros x.
  destruct (Z_lt_ge_dec x a); [now rewrite F2, F1 by lia|].
  destruct (Z_lt_ge_dec x (a + Z.of_nat alen)); [|now rewrite F2, F1 by lia].
  apply (val_inj m2 m a alen); auto; lia.
Qed.

(** [bng_compare] is the comparison of the numbers, whatever leading zero
    digits the two arrays have. *)
Theorem bng_compare_correct m a alen b blen : words m ->
  bng_compare m a alen b blen =
    match val m a alen ?= val m b blen with Lt => -1 | Eq => 0 | Gt => 1 end.
Proof. intros Hm. now rewrite bng_compare_spec. Qed.

(** [bng_num_digits] never returns 0, so that the macro [bng_is_zero], which
    tests whether it does, is false on every number, zero included. *)
Theorem bng_is_zero_never m a alen : bng_is_zero m a alen = false.
Proof.
  unfold bng_is_zero. induction alen as [|n IH]; cbn [bng_num_digits]; [reflexivity|].
  now destruct (negb _).
Qed.

(** Replacing the elementary entries of the table (carry propagation,
    addition, subtraction, shifts, multiplication and division by a digit) by
    any code that satisfies their laws keeps every law of the table: the
    entries that call others rely on nothing else. *)
Theorem bng_relink_refines ops : BngPrimOk ops -> BngOk (bng_relink ops).
Proof. apply bng_relink_laws. Qed.

End Table.

(** ** Witnesses *)

Section Witnesses.
#[local] Existing Instance arch64.

(** Numerator 7 + 5 B + 3 B^2 at 0, divisor 9 + 8 B at 3. *)
Definition div_example : mem := mem_of [7; 5; 3; 9; 8].

Lemma div_example_words : words div_example.
Proof. now apply words_mem_of. Qed.

Lemma bng_div_rem_witness :
  exists m', div_rem bng_ops div_example 0 3 3 2 = Some m' /\
    val m' 2 1 = (7 + 5 * 2 ^ 64 + 3 * 2 ^ 128) / (9 + 8 * 2 ^ 64).
Proof.
  destruct (bng_div_rem_correct div_example 0 3 3 2) as (m' & E & _ & Q & _).
  - exact div_example_words.
  - lia.
  - reflexivity.
  - left. cbn. lia.
  - exists m'. split; [exact E|]. exact Q.
Defined.

Lemma bng_div_rem_digit_witness :
  exists m', div_rem_digit bng_ops div_example 5 0 3 10 =
    Some (m', (7 + 5 * 2 ^ 64 + 3 * 2 ^ 128) mod 10).
Proof.
  destruct (bng_div_rem_digit_correct div_example 5 0 3 10) as (m' & E & _).
  - exact div_example_words.
  - lia.
  - now split.
  - reflexivity.
  - right. cbn. lia.
  - exists m'. exact E.
Defined.

Lemma bng_square_add_witness :
  let '(m', c') := square_add bng_ops (mem_of [1; 0; 0; 0; 2 ^ 64 - 1; 3]) 0 4 4 2 in
  val m' 0 4 + PB 4 * c' = 2 * 1 + (2 ^ 64 - 1 + 3 * 2 ^ 64) * (2 ^ 64 - 1 + 3 * 2 ^ 64).
Proof.
  destruct (square_add _ _ _ _ _ _) as [m' c'] eqn:E.
  apply bng_square_add_correct in E;
    [exact (proj2 E) | now apply words_mem_of | lia | left; cbn; lia].
Defined.

Lemma bng_mult_add_witness :
  let '(m', c') := mult_add bng_ops (mem_of [1; 0; 2 ^ 64 - 1; 3]) 0 2 2 1 3 1 in
  val m' 0 2 + PB 2 * c' = 1 + (2 ^ 64 - 1) * 3.
Proof.
  destruct (mult_add _ _ _ _ _ _ _ _) as [m' c'] eqn:E.
  apply bng_mult_add_correct in E;
    [exact (proj2 (proj2 E)) | now apply words_mem_of | lia | left; cbn; lia | left; cbn; lia].
Defined.

Lemma bng_add_sub_roundtrip_witness :
  let m := mem_of [2 ^ 64 - 1; 2 ^ 64 - 1; 5] in
  let '(m1, c1) := add bng_ops m 0 2 2 1 0 in
  let '(m2, c2) := sub bng_ops m1 0 2 2 1 0 in
  c1 = 1 /\ c2 = c1 /\ m2 0 = 2 ^ 64 - 1.
Proof.
  cbv zeta. destruct (add _ _ _ _ _ _ _) as [m1 c1] eqn:E1.
  destruct (sub _ _ _ _ _ _ _) as [m2 c2] eqn:E2. split.
  - vm_compute in E1. now injection E1.
  - assert (Hw : words (mem_of [2 ^ 64 - 1; 2 ^ 64 - 1; 5])) by now apply words_mem_of.
    destruct (bng_add_sub_roundtrip _ 0 2 2 1 0 m1 c1 m2 c2 Hw) as [H1 H2];
      [lia | lia | left; cbn; lia | exact E1 | exact E2 |].
    split; [exact H1 | rewrite H2; reflexivity].
Defined.

Lemma bng_shift_roundtrip_witness :
  let m := mem_of [2 ^ 63 + 1; 5] in
  let '(m1, c1) := shift_left bng_ops m 0 2 3 in
  let '(m2, c2) := shift_right bng_ops m1 0 2 3 in
  c1 = 0 /\ c2 = 0 /\ m2 0 = 2 ^ 63 + 1.
Proof.
  cbv zeta. destruct (shift_left _ _ _ _ _) as [m1 c1] eqn:E1.
  destruct (shift_right _ _ _ _ _) as [m2 c2] eqn:E2.
  assert (Hc : c1 = 0) by (vm_compute in E1; now injection E1).
  rewrite Hc in E1. split; [exact Hc|].
  assert (Hw : words (mem_of [2 ^ 63 + 1; 5])) by now apply words_mem_of.
  destruct (bng_shift_roundtrip _ 0 2 3 m1 m2 c2 Hw) as [H1 H2];
    [cbn; lia | exact E1 | exact E2 |].
  split; [exact H1 | rewrite H2; reflexivity].
Defined.

Lemma bng_compare_witness : bng_compare (mem_of [5; 0; 0; 4; 1]) 0 3 3 2 = -1.
Proof.
  rewrite (bng_compare_correct (mem_of [5; 0; 0; 4; 1]) 0 3 3 2) by now apply words_mem_of.
  reflexivity.
Defined.

Lemma bng_relink_witness : BngOk (bng_relink bng_ops).
Proof. apply (bng_relink_refines bng_ops). exact bng_ops_prim_ok. Defined.

End Witnesses.
