(* ===== verification/Mlvalues.v ===== *)
(** Mlvalues: the representation of OCaml values, src/inline-more/byterun/
    mlvalues.h and gc.h: tagged integers, block headers and their colours. *)
From Stdlib Require Import ZArith Lia List Bool.
From S2P Require Import Prelude.
Local Open Scope Z_scope.

(** config.h: pages. *)
Definition Page_log : Z := 12.
Definition Page_size : Z := Z.shiftl 1 Page_log.

Section Mlvalues.
Context {A : Arch}.

(** ** Longs *)

Definition Is_long (x : Z) : bool := negb (Z.land x 1 =? 0).
Definition Is_block (x : Z) : bool := Z.land x 1 =? 0.

(** A [value] is a signed word; the conversion to [intnat] and the shift wrap. *)
Definition Val_long (x : Z) : Z := swrap WORD (Z.shiftl (swrap WORD x) 1 + 1).
Definition Long_val (x : Z) : Z := Z.shiftr x 1.
Definition Max_long : Z := Z.shiftl 1 (WORD - 2) - 1.
Definition Min_long : Z := - Z.shiftl 1 (WORD - 2).
Definition Val_int (x : Z) : Z := Val_long x.
Definition Int_val (x : Z) : Z := swrap 32 (Long_val x).
Definition Unsigned_long_val (x : Z) : Z := Z.shiftr (wrap WORD x) 1.
Definition Unsigned_int_val (x : Z) : Z := swrap 32 (Unsigned_long_val x).

Definition Val_bool (b : bool) : Z := Val_int (b2z b).
Definition Bool_val (x : Z) : Z := Int_val x.
Definition Val_false : Z := Val_int 0.
Definition Val_true : Z := Val_int 1.
Definition Val_not (x : Z) : Z := swrap WORD (Val_false + Val_true - x).
Definition Val_unit : Z := Val_int 0.
Definition Val_emptylist : Z := Val_int 0.

(** ** Headers *)

Definition Tag_hd (hd : Z) : Z := Z.land hd 0xFF.
Definition Wosize_hd (hd : Z) : Z := Z.shiftr hd 10.
Definition Max_wosize : Z := if ARCH_SIXTYFOUR then Z.shiftl 1 54 - 1 else Z.shiftl 1 22 - 1.
Definition Num_tags : Z := Z.shiftl 1 8.
Definition No_scan_tag : Z := 251.
Definition Forward_tag : Z := 250.
Definition Infix_tag : Z := 249.
Definition Object_tag : Z := 248.
Definition Closure_tag : Z := 247.
Definition Lazy_tag : Z := 246.
Definition Abstract_tag : Z := 251.
Definition String_tag : Z := 252.
Definition Double_tag : Z := 253.
Definition Double_array_tag : Z := 254.
Definition Custom_tag : Z := 255.

Definition Whsize_wosize (sz : Z) : Z := sz + 1.
Definition Wosize_whsize (sz : Z) : Z := sz - 1.
Definition sizeof_value : Z := WORD / 8.
Definition Bsize_wsize (sz : Z) : Z := sz * sizeof_value.
Definition Wsize_bsize (sz : Z) : Z := sz / sizeof_value.
Definition Wosize_bhsize (sz : Z) : Z := sz / sizeof_value - 1.
Definition Bhsize_wosize (sz : Z) : Z := Bsize_wsize (Whsize_wosize sz).
Definition Whsize_hd (hd : Z) : Z := Whsize_wosize (Wosize_hd hd).
Definition Bosize_hd (hd : Z) : Z := Bsize_wsize (Wosize_hd hd).
Definition Infix_offset_hd (hd : Z) : Z := Bosize_hd hd.
Definition Bhsize_hd (hd : Z) : Z := Bsize_wsize (Whsize_hd hd).

(** gc.h *)
Definition Caml_white : Z := Z.shiftl 0 8.
Definition Caml_gray : Z := Z.shiftl 1 8.
Definition Caml_blue : Z := Z.shiftl 2 8.
Definition Caml_black : Z := Z.shiftl 3 8.

Definition Color_hd (hd : Z) : Z := Z.land hd Caml_black.
Definition Is_white_hd (hd : Z) : bool := Color_hd hd =? Caml_white.
Definition Is_gray_hd (hd : Z) : bool := Color_hd hd =? Caml_gray.
Definition Is_blue_hd (hd : Z) : bool := Color_hd hd =? Caml_blue.
Definition Is_black_hd (hd : Z) : bool := Color_hd hd =? Caml_black.

Definition Whitehd_hd (hd : Z) : Z := Z.land hd (wrap WORD (Z.lnot Caml_black)).
Definition Grayhd_hd (hd : Z) : Z := Z.lor (Z.land hd (wrap WORD (Z.lnot Caml_black))) Caml_gray.
Definition Blackhd_hd (hd : Z) : Z := Z.lor hd Caml_black.
Definition Bluehd_hd (hd : Z) : Z := Z.lor (Z.land hd (wrap WORD (Z.lnot Caml_black))) Caml_blue.

Definition Make_header (wosize tag color : Z) : Z :=
  wrap WORD (wrap WORD (Z.shiftl (wrap WORD wosize) 10) + color + wrap 32 tag).

(** ** Blocks in memory

    A block is designated by the word address [v] of its first field; its
    header is the word before. *)
Definition Hd_val (m : mem) (v : Z) : Z := m (v - 1).
Definition Field (m : mem) (v i : Z) : Z := m (v + i).
Definition Wosize_val (m : mem) (v : Z) : Z := Wosize_hd (Hd_val m v).
Definition Tag_val (m : mem) (v : Z) : Z := Tag_hd (Hd_val m v).
(** Word address of the data of a custom block. *)
Definition Data_custom_val (v : Z) : Z := v + 1.

(** ** Lemmas *)

Lemma Is_long_odd w : Is_long w = true -> w = 2 * Long_val w + 1.
Proof.
  unfold Is_long, Long_val. rewrite Z.shiftr_div_pow2 by lia. change (2 ^ 1) with 2.
  change 1 with (Z.ones 1) at 1. rewrite Z.land_ones by lia. change (2 ^ 1) with 2.
  pose proof (Z.div_mod w 2 ltac:(lia)). pose proof (Z.mod_pos_bound w 2 ltac:(lia)).
  destruct (Z.eqb_spec (w mod 2) 0); cbn [negb]; [discriminate | lia].
Qed.

Lemma WORD_half : 2 ^ (WORD - 1) = 2 * 2 ^ (WORD - 2).
Proof.
  pose proof WORD_pos. rewrite <- Z.pow_succ_r by lia. f_equal. lia.
Qed.

Lemma Max_long_eq : Max_long = 2 ^ (WORD - 2) - 1.
Proof. unfold Max_long. pose proof WORD_pos. rewrite Z.shiftl_mul_pow2; lia. Qed.

Lemma Min_long_eq : Min_long = - 2 ^ (WORD - 2).
Proof. unfold Min_long. pose proof WORD_pos. rewrite Z.shiftl_mul_pow2; lia. Qed.

(** On the range of tagged integers no wrap-around takes place. *)
Lemma Val_long_small x : Min_long <= x <= Max_long -> Val_long x = 2 * x + 1.
Proof.
  rewrite Max_long_eq, Min_long_eq. intros Hx. pose proof WORD_pos. pose proof WORD_half.
  assert (0 < 2 ^ (WORD - 2)) by (apply pow2_pos; lia).
  unfold Val_long. rewrite (swrap_small WORD x) by lia.
  rewrite Z.shiftl_mul_pow2, swrap_small by lia. lia.
Qed.

Lemma Long_val_odd x : Long_val (2 * x + 1) = x.
Proof.
  unfold Long_val. rewrite Z.shiftr_div_pow2 by lia. change (2 ^ 1) with 2.
  rewrite Z.add_comm, Z.mul_comm, Z.div_add by lia. reflexivity.
Qed.

Lemma Long_val_Val_long x : Min_long <= x <= Max_long -> Long_val (Val_long x) = x.
Proof. intros Hx. rewrite Val_long_small by auto. apply Long_val_odd. Qed.

Lemma small_long x : 0 <= x < 2 ^ 30 -> Min_long <= x <= Max_long.
Proof.
  rewrite Max_long_eq, Min_long_eq. intros Hx.
  assert (2 ^ 30 <= 2 ^ (WORD - 2)) by (apply Z.pow_le_mono_r; pose proof WORD_pos; lia). lia.
Qed.

(** Headers as arithmetic. *)

Lemma Make_header_eq wosize tag color :
  0 <= wosize <= Max_wosize -> 0 <= tag < 256 -> 0 <= color < 4 ->
  Make_header wosize tag (color * 256) = wosize * 1024 + color * 256 + tag.
Proof.
  intros Hw Ht Hc. unfold Make_header. rewrite (wrap_small 32 tag) by lia.
  assert (Hb : 2 ^ WORD = (Max_wosize + 1) * 1024).
  { unfold WORD, Max_wosize. destruct ARCH_SIXTYFOUR; reflexivity. }
  rewrite (wrap_small WORD wosize) by lia. rewrite Z.shiftl_mul_pow2 by lia.
  change (2 ^ 10) with 1024. rewrite (wrap_small WORD (wosize * 1024)) by lia.
  rewrite wrap_small; lia.
Qed.

Lemma Tag_hd_mod hd : Tag_hd hd = hd mod 256.
Proof. unfold Tag_hd. change 0xFF with (Z.ones 8). now rewrite Z.land_ones. Qed.

Lemma Wosize_hd_div hd : Wosize_hd hd = hd / 1024.
Proof. unfold Wosize_hd. now rewrite Z.shiftr_div_pow2. Qed.

Lemma Color_hd_eq hd : Color_hd hd = hd / 256 mod 4 * 256.
Proof.
  unfold Color_hd, Caml_black. change (Z.shiftl 3 8) with (Z.shiftl (Z.ones 2) 8).
  change 4 with (2 ^ 2). rewrite <- Z.land_ones by lia. change 256 with (2 ^ 8).
  rewrite <- Z.shiftr_div_pow2, <- Z.shiftl_mul_pow2 by lia.
  apply Z.bits_inj'. intros i Hi. rewrite Z.land_spec, !Z.shiftl_spec by lia.
  destruct (Z_lt_ge_dec i 8).
  - rewrite !(Z.testbit_neg_r _ (i - 8)) by lia. apply andb_false_r.
  - rewrite Z.land_spec, Z.shiftr_spec by lia. now replace (i - 8 + 8) with i by lia.
Qed.

(** [Tag_hd], [Wosize_hd] and [Color_hd] recover the three fields
    [Make_header] packs, for every size up to [Max_wosize]. *)
Theorem Make_header_fields wosize tag color :
  0 <= wosize <= Max_wosize -> 0 <= tag < Num_tags ->
  color = Caml_white \/ color = Caml_gray \/ color = Caml_blue \/ color = Caml_black ->
  let hd := Make_header wosize tag color in
  Wosize_hd hd = wosize /\ Tag_hd hd = tag /\ Color_hd hd = color /\
  Wosize_hd (Blackhd_hd hd) = wosize /\ Is_black_hd (Blackhd_hd hd) = true.
Proof.
  intros Hw Ht Hc. change Num_tags with 256 in Ht.
  assert (exists c, 0 <= c < 4 /\ color = c * 256) as (c & Hc4 & ->).
  { destruct Hc as [-> | [-> | [-> | ->]]]; [exists 0 | exists 1 | exists 2 | exists 3];
      split; try lia; reflexivity. }
  cbn zeta. rewrite Make_header_eq by lia. set (hd := wosize * 1024 + c * 256 + tag).
  assert (D1 : hd / 1024 = wosize) by (symmetry; apply Z.div_unique with (c * 256 + tag); unfold hd; lia).
  assert (D2 : hd / 256 = wosize * 4 + c) by (symmetry; apply Z.div_unique with tag; unfold hd; lia).
  assert (D3 : hd mod 256 = tag) by (symmetry; apply Z.mod_unique with (wosize * 4 + c); unfold hd; lia).
  rewrite Tag_hd_mod, Color_hd_eq, Wosize_hd_div, D1, D2, D3.
  replace ((wosize * 4 + c) mod 4) with c by (apply Z.mod_unique with wosize; lia).
  conj; auto.
  - unfold Wosize_hd, Blackhd_hd. rewrite Z.shiftr_lor, !Z.shiftr_div_pow2 by lia.
    change (2 ^ 10) with 1024. rewrite D1. change (Caml_black / 1024) with 0. apply Z.lor_0_r.
  - unfold Is_black_hd, Color_hd, Blackhd_hd. apply Z.eqb_eq.
    rewrite Z.land_lor_distr_l, Z.land_diag. apply Z.bits_inj'. intros i Hi.
    rewrite Z.lor_spec, Z.land_spec. now destruct (Z.testbit hd i), (Z.testbit Caml_black i).
Qed.

End Mlvalues.

Lemma Make_header_witness :
  Wosize_hd (@Make_header arch64 1000 Closure_tag Caml_gray) = 1000 /\
  Color_hd (@Make_header arch64 1000 Closure_tag Caml_gray) = Caml_gray.
Proof.
  destruct (@Make_header_fields arch64 1000 Closure_tag Caml_gray) as (H1 & _ & H3 & _).
  - vm_compute. split; congruence.
  - vm_compute. split; congruence.
  - right. left. reflexivity.
  - split; [exact H1 | exact H3].
Defined.
