(* ===== verification/NatStubs.v ===== *)
(** NatStubs: the primitives of module Nat, src/inline-more/otherlibs/num/
    nat_stubs.c and nat.h.  Each stub decodes its tagged arguments, calls the
    operation table of [Bng] on digit addresses and encodes the result.  The
    theorems are proved against the interface [BngSpec.BngOk], not against the
    generic implementation. *)
From Stdlib Require Import ZArith Lia List Bool.
From S2P Require Import Prelude Mlvalues BngDigit Bng BngSpec BngProof BngBasic BngDivRem BngTable.
Import ListNotations.
Local Open Scope Z_scope.

Section NatStubs.
Context {A : Arch}.

(** nat.h: address of the digit [pos] of the custom block [nat]. *)
Definition Digit_addr (nat pos : Z) : Z := Data_custom_val nat + pos.
Definition Digit_val (m : mem) (nat pos : Z) : Z := m (Digit_addr nat pos).

(** [Long_val(len)] passed as a [bngsize]; lengths are never negative. *)
Definition size_of_value (len : Z) : nat := Z.to_nat (Long_val len).

(** [bng_zero] and [bng_assign] of bng.h ([memset] and [memmove]). *)
Fixpoint bng_zero (m : mem) (a : Z) (alen : nat) : mem :=
  match alen with O => m | S n => bng_zero m.[a <- 0] (a + 1) n end.

Definition bng_assign (m : mem) (a b : Z) (len : nat) : mem :=
  fun x => if (a <=? x) && (x <? a + Z.of_nat len) then m (b + (x - a)) else m x.

Definition length_nat (m : mem) (nat : Z) : Z := Val_long (Wosize_val m nat - 1).

Definition set_to_zero_nat (m : mem) (nat ofs len : Z) : mem * Z :=
  (bng_zero m (Digit_addr nat (Long_val ofs)) (size_of_value len), Val_unit).

Definition blit_nat (m : mem) (nat1 ofs1 nat2 ofs2 len : Z) : mem * Z :=
  (bng_assign m (Digit_addr nat1 (Long_val ofs1)) (Digit_addr nat2 (Long_val ofs2))
     (size_of_value len), Val_unit).

Definition set_digit_nat (m : mem) (nat ofs digit : Z) : mem * Z :=
  (m.[Digit_addr nat (Long_val ofs) <- bngdigit (Long_val digit)], Val_unit).

Definition nth_digit_nat (m : mem) (nat ofs : Z) : Z :=
  Val_long (Digit_val m nat (Long_val ofs)).

Definition num_digits_nat (m : mem) (nat ofs len : Z) : Z :=
  Val_long (Z.of_nat (bng_num_digits m (Digit_addr nat (Long_val ofs)) (size_of_value len))).

Definition num_leading_zero_bits_in_digit (m : mem) (nat ofs : Z) : Z :=
  Val_long (bng_leading_zero_bits (Digit_val m nat (Long_val ofs))).

Definition is_digit_int (m : mem) (nat ofs : Z) : Z :=
  Val_bool (Digit_val m nat (Long_val ofs) <=? Max_long).

Definition is_digit_zero (m : mem) (nat ofs : Z) : Z :=
  Val_bool (Digit_val m nat (Long_val ofs) =? 0).

Definition is_digit_normalized (m : mem) (nat ofs : Z) : Z :=
  Val_bool (negb (Z.land (Digit_val m nat (Long_val ofs))
                         (bngdigit (Z.shiftl 1 (BNG_BITS_PER_DIGIT - 1))) =? 0)).

Definition is_digit_odd (m : mem) (nat ofs : Z) : Z :=
  Val_bool (negb (Z.land (Digit_val m nat (Long_val ofs)) 1 =? 0)).

Definition complement_nat (m : mem) (nat ofs len : Z) : mem * Z :=
  (bng_complement m (Digit_addr nat (Long_val ofs)) (size_of_value len), Val_unit).

Definition compare_digits_nat (m : mem) (nat1 ofs1 nat2 ofs2 : Z) : Z :=
  let d1 := Digit_val m nat1 (Long_val ofs1) in
  let d2 := Digit_val m nat2 (Long_val ofs2) in
  if d2 <? d1 then Val_int 1 else if d1 <? d2 then Val_int (-1) else Val_int 0.

Definition compare_nat_native (m : mem) (nat1 ofs1 len1 nat2 ofs2 len2 : Z) : Z :=
  Val_int (bng_compare m (Digit_addr nat1 (Long_val ofs1)) (size_of_value len1)
                         (Digit_addr nat2 (Long_val ofs2)) (size_of_value len2)).

Definition land_digit_nat (m : mem) (nat1 ofs1 nat2 ofs2 : Z) : mem * Z :=
  (m.[Digit_addr nat1 (Long_val ofs1) <-
      Z.land (Digit_val m nat1 (Long_val ofs1)) (Digit_val m nat2 (Long_val ofs2))], Val_unit).

Definition lor_digit_nat (m : mem) (nat1 ofs1 nat2 ofs2 : Z) : mem * Z :=
  (m.[Digit_addr nat1 (Long_val ofs1) <-
      Z.lor (Digit_val m nat1 (Long_val ofs1)) (Digit_val m nat2 (Long_val ofs2))], Val_unit).

Definition lxor_digit_nat (m : mem) (nat1 ofs1 nat2 ofs2 : Z) : mem * Z :=
  (m.[Digit_addr nat1 (Long_val ofs1) <-
      Z.lxor (Digit_val m nat1 (Long_val ofs1)) (Digit_val m nat2 (Long_val ofs2))], Val_unit).

(** ** Stubs that call the operation table *)

Section Ops.
Context (bng_ops : bng_operations).

Definition incr_nat (m : mem) (nat ofs len carry_in : Z) : mem * Z :=
  let '(m, c) := add_carry bng_ops m (Digit_addr nat (Long_val ofs)) (size_of_value len)
                   (bngcarry (Long_val carry_in)) in
  (m, Val_long c).

Definition add_nat_native (m : mem) (nat1 ofs1 len1 nat2 ofs2 len2 carry_in : Z) : mem * Z :=
  let '(m, c) := add bng_ops m (Digit_addr nat1 (Long_val ofs1)) (size_of_value len1)
                   (Digit_addr nat2 (Long_val ofs2)) (size_of_value len2)
                   (bngcarry (Long_val carry_in)) in
  (m, Val_long c).

Definition decr_nat (m : mem) (nat ofs len carry_in : Z) : mem * Z :=
  let '(m, c) := sub_carry bng_ops m (Digit_addr nat (Long_val ofs)) (size_of_value len)
                   (bngcarry (Z.lxor 1 (Long_val carry_in))) in
  (m, Val_long (Z.lxor 1 c)).

Definition sub_nat_native (m : mem) (nat1 ofs1 len1 nat2 ofs2 len2 carry_in : Z) : mem * Z :=
  let '(m, c) := sub bng_ops m (Digit_addr nat1 (Long_val ofs1)) (size_of_value len1)
                   (Digit_addr nat2 (Long_val ofs2)) (size_of_value len2)
                   (bngcarry (Z.lxor 1 (Long_val carry_in))) in
  (m, Val_long (Z.lxor 1 c)).

Definition mult_digit_nat_native (m : mem) (nat1 ofs1 len1 nat2 ofs2 len2 nat3 ofs3 : Z) : mem * Z :=
  let '(m, c) := mult_add_digit bng_ops m (Digit_addr nat1 (Long_val ofs1)) (size_of_value len1)
                   (Digit_addr nat2 (Long_val ofs2)) (size_of_value len2)
                   (Digit_val m nat3 (Long_val ofs3)) in
  (m, Val_long c).

Definition mult_nat_native (m : mem) (nat1 ofs1 len1 nat2 ofs2 len2 nat3 ofs3 len3 : Z) : mem * Z :=
  let '(m, c) := mult_add bng_ops m (Digit_addr nat1 (Long_val ofs1)) (size_of_value len1)
                   (Digit_addr nat2 (Long_val ofs2)) (size_of_value len2)
                   (Digit_addr nat3 (Long_val ofs3)) (size_of_value len3) in
  (m, Val_long c).

Definition square_nat_native (m : mem) (nat1 ofs1 len1 nat2 ofs2 len2 : Z) : mem * Z :=
  let '(m, c) := square_add bng_ops m (Digit_addr nat1 (Long_val ofs1)) (size_of_value len1)
                   (Digit_addr nat2 (Long_val ofs2)) (size_of_value len2) in
  (m, Val_long c).

Definition shift_left_nat_native (m : mem) (nat1 ofs1 len1 nat2 ofs2 nbits : Z) : mem * Z :=
  let '(m, c) := shift_left bng_ops m (Digit_addr nat1 (Long_val ofs1)) (size_of_value len1)
                   (swrap 32 (Long_val nbits)) in
  (m.[Digit_addr nat2 (Long_val ofs2) <- c], Val_unit).

Definition shift_right_nat_native (m : mem) (nat1 ofs1 len1 nat2 ofs2 nbits : Z) : mem * Z :=
  let '(m, c) := shift_right bng_ops m (Digit_addr nat1 (Long_val ofs1)) (size_of_value len1)
                   (swrap 32 (Long_val nbits)) in
  (m.[Digit_addr nat2 (Long_val ofs2) <- c], Val_unit).

Definition div_digit_nat_native (m : mem) (natq ofsq natr ofsr nat1 ofs1 len1 nat2 ofs2 : Z)
    : option (mem * Z) :=
  let* (m, r) := div_rem_digit bng_ops m (Digit_addr natq (Long_val ofsq))
                   (Digit_addr nat1 (Long_val ofs1)) (size_of_value len1)
                   (Digit_val m nat2 (Long_val ofs2)) in
  Some (m.[Digit_addr natr (Long_val ofsr) <- r], Val_unit).

Definition div_nat_native (m : mem) (nat1 ofs1 len1 nat2 ofs2 len2 : Z) : option (mem * Z) :=
  let* m := div_rem bng_ops m (Digit_addr nat1 (Long_val ofs1)) (size_of_value len1)
              (Digit_addr nat2 (Long_val ofs2)) (size_of_value len2) in
  Some (m, Val_unit).

(** The bytecode entry points take their arguments in an array. *)
Definition arg (argv : list Z) (i : nat) : Z := nth i argv 0.

Definition add_nat (m : mem) (v : list Z) : mem * Z :=
  add_nat_native m (arg v 0) (arg v 1) (arg v 2) (arg v 3) (arg v 4) (arg v 5) (arg v 6).
Definition sub_nat (m : mem) (v : list Z) : mem * Z :=
  sub_nat_native m (arg v 0) (arg v 1) (arg v 2) (arg v 3) (arg v 4) (arg v 5) (arg v 6).
Definition mult_digit_nat (m : mem) (v : list Z) : mem * Z :=
  mult_digit_nat_native m (arg v 0) (arg v 1) (arg v 2) (arg v 3) (arg v 4) (arg v 5)
    (arg v 6) (arg v 7).
Definition mult_nat (m : mem) (v : list Z) : mem * Z :=
  mult_nat_native m (arg v 0) (arg v 1) (arg v 2) (arg v 3) (arg v 4) (arg v 5)
    (arg v 6) (arg v 7) (arg v 8).
Definition square_nat (m : mem) (v : list Z) : mem * Z :=
  square_nat_native m (arg v 0) (arg v 1) (arg v 2) (arg v 3) (arg v 4) (arg v 5).
Definition shift_left_nat (m : mem) (v : list Z) : mem * Z :=
  shift_left_nat_native m (arg v 0) (arg v 1) (arg v 2) (arg v 3) (arg v 4) (arg v 5).
Definition div_digit_nat (m : mem) (v : list Z) : option (mem * Z) :=
  div_digit_nat_native m (arg v 0) (arg v 1) (arg v 2) (arg v 3) (arg v 4) (arg v 5)
    (arg v 6) (arg v 7) (arg v 8).
Definition div_nat (m : mem) (v : list Z) : option (mem * Z) :=
  div_nat_native m (arg v 0) (arg v 1) (arg v 2) (arg v 3) (arg v 4) (arg v 5).
Definition shift_right_nat (m : mem) (v : list Z) : mem * Z :=
  shift_right_nat_native m (arg v 0) (arg v 1) (arg v 2) (arg v 3) (arg v 4) (arg v 5).

End Ops.

Definition compare_nat (m : mem) (v : list Z) : Z :=
  compare_nat_native m (arg v 0) (arg v 1) (arg v 2) (arg v 3) (arg v 4) (arg v 5).

(** ** Lemmas *)

(** An offset or length that fits a tagged integer. *)
Definition longb (x : Z) : Prop := Min_long <= x <= Max_long.

Lemma size_of_value_long n : longb (Z.of_nat n) -> size_of_value (Val_long (Z.of_nat n)) = n.
Proof. intros H. unfold size_of_value. rewrite Long_val_Val_long by auto. apply Nat2Z.id. Qed.

Lemma bngcarry_bit c : 0 <= c <= 1 -> bngcarry c = c /\ bngcarry (Z.lxor 1 c) = 1 - c /\ Z.lxor 1 c = 1 - c.
Proof. intros H. assert (c = 0 \/ c = 1) as [-> | ->] by lia; auto. Qed.

Lemma carry_long c : 0 <= c <= 1 -> Long_val (Val_long c) = c.
Proof. intros H. apply Long_val_Val_long. apply small_long. lia. Qed.

Lemma bit_long c : 0 <= c <= 1 -> longb c.
Proof. intros H. apply small_long. lia. Qed.

(** [sub_nat] with the carry convention of module Nat (1 means no borrow):
    on numbers [{a,l1}] and [{b,l2}] with [l2 <= l1], it stores
    [a - b - (1 - carry_in)] modulo the weight of [a], and the carry returned
    is 1 exactly when that difference is not negative. *)
Theorem sub_nat_correct ops m nat1 o1 l1 nat2 o2 l2 cin m' r :
  BngOk ops -> words m -> (l2 <= l1)%nat -> 0 <= cin <= 1 ->
  longb o1 -> longb o2 -> longb (Z.of_nat l1) -> longb (Z.of_nat l2) ->
  let a := Digit_addr nat1 o1 in
  let b := Digit_addr nat2 o2 in
  fwd_ok a b l2 ->
  sub_nat ops m [nat1; Val_long o1; Val_long (Z.of_nat l1); nat2; Val_long o2;
                 Val_long (Z.of_nat l2); Val_long cin] = (m', r) ->
  let d := val m a l1 - val m b l2 - (1 - cin) in
  same_outside a (a + Z.of_nat l1) m m' /\ val m' a l1 = d mod PB l1 /\
  Long_val r = (if 0 <=? d then 1 else 0).
Proof.
  intros Hops Hm Hlen Hc Ho1 Ho2 Hl1 Hl2 a b Hab.
  unfold sub_nat, sub_nat_native. cbn [arg nth].
  rewrite (Long_val_Val_long cin) by now apply bit_long.
  rewrite !size_of_value_long, !Long_val_Val_long by auto.
  destruct (bngcarry_bit cin Hc) as (_ & -> & _). fold a b.
  destruct (sub ops m a l1 b l2 (1 - cin)) as [m1 c] eqn:E.
  intros E2. apply pair_equal_spec in E2 as [<- <-].
  apply ok_sub in E; auto; [|lia]. destruct E as (W & F & C & V).
  set (d := val m a l1 - val m b l2 - (1 - cin)).
  pose proof (val_range m1 a l1 W) as R. pose proof (PB_pos l1) as HP.
  assert (Hd : - PB l1 <= d < PB l1).
  { pose proof (val_range m a l1 Hm). pose proof (val_range m b l2 Hm).
    assert (PB l2 <= PB l1) by now apply PB_mono. unfold d. lia. }
  destruct (bngcarry_bit c C) as (_ & _ & ->). rewrite carry_long by lia.
  assert (EV : val m1 a l1 = d + PB l1 * c) by (unfold d; lia).
  split; [auto|]. split.
  - apply Z.mod_unique with (q := - c); lia.
  - destruct (Z.leb_spec 0 d); nia.
Qed.

(** [div_nat] divides in place through any table that satisfies the laws:
    it returns, the quotient is above the remainder, the divisor is intact. *)
Theorem div_nat_correct ops m nat1 o1 l1 nat2 o2 l2 :
  BngOk ops -> words m -> (0 < l2 < l1)%nat ->
  longb o1 -> longb o2 -> longb (Z.of_nat l1) -> longb (Z.of_nat l2) ->
  let a := Digit_addr nat1 o1 in
  let b := Digit_addr nat2 o2 in
  m (a + Z.of_nat l1 - 1) < m (b + Z.of_nat l2 - 1) -> disjoint a l1 b l2 ->
  exists m', div_nat ops m [nat1; Val_long o1; Val_long (Z.of_nat l1);
                            nat2; Val_long o2; Val_long (Z.of_nat l2)] = Some (m', Val_unit) /\
    same_outside a (a + Z.of_nat l1) m m' /\
    val m' (a + Z.of_nat l2) (l1 - l2) = val m a l1 / val m b l2 /\
    val m' a l2 = val m a l1 mod val m b l2.
Proof.
  intros Hops Hm Hlen Ho1 Ho2 Hl1 Hl2 a b Htop Hdis.
  unfold div_nat, div_nat_native. cbn [arg nth].
  rewrite !size_of_value_long, !Long_val_Val_long by auto. fold a b.
  destruct (ok_div_rem m a l1 b l2) as (m' & E & W & F & Q & R); auto.
  rewrite E. eauto.
Qed.

(** [nth_digit_nat] reads back what [set_digit_nat] stored, for every tagged
    integer, negative ones included, and the other digits are unchanged. *)
Theorem set_nth_digit_roundtrip m nat o d :
  longb o -> longb d ->
  let '(m', _) := set_digit_nat m nat (Val_long o) (Val_long d) in
  nth_digit_nat m' nat (Val_long o) = Val_long d /\
  (forall p, longb p -> p <> o -> nth_digit_nat m' nat (Val_long p) = nth_digit_nat m nat (Val_long p)).
Proof.
  intros Ho Hd. unfold set_digit_nat, nth_digit_nat, Digit_val.
  rewrite !Long_val_Val_long by auto. split.
  - rewrite upd_same. unfold Val_long. do 3 f_equal.
    unfold bngdigit, BNG_BITS_PER_DIGIT. unfold swrap. rewrite wrap_idemp; auto.
    pose proof WORD_pos. lia.
  - intros p Hp Hne. rewrite !Long_val_Val_long, upd_other by (auto; unfold Digit_addr; lia).
    reflexivity.
Qed.

End NatStubs.

Section Witnesses.
#[local] Existing Instance arch64.

(** Block 2 has digits 7 5 3 (words 3 to 5), block 7 has digits 9 8. *)
Definition nat_example : mem := mem_of [0; 0; 0; 7; 5; 3; 0; 0; 9; 8].

Lemma longb_dec x : (Min_long <=? x) && (x <=? Max_long) = true -> longb x.
Proof. intros H. apply andb_true_iff in H. unfold longb. lia. Qed.

Lemma sub_nat_witness :
  let '(m', r) := sub_nat bng_ops nat_example
    [2; Val_long 0; Val_long 3; 7; Val_long 0; Val_long 2; Val_long 1] in
  Long_val r = 1 /\ val m' 3 3 = 7 + 5 * 2 ^ 64 + 3 * 2 ^ 128 - (9 + 8 * 2 ^ 64).
Proof.
  destruct (sub_nat _ _ _) as [m' r] eqn:E.
  apply (sub_nat_correct bng_ops nat_example 2 0 3 7 0 2 1 m' r) in E.
  - destruct E as (_ & E1 & E2). split; [exact E2 | exact E1].
  - exact bng_ops_ok.
  - now apply words_mem_of.
  - lia.
  - lia.
  - now apply longb_dec.
  - now apply longb_dec.
  - now apply longb_dec.
  - now apply longb_dec.
  - left. cbn. lia.
Defined.

Lemma div_nat_witness :
  exists m', div_nat bng_ops nat_example
    [2; Val_long 0; Val_long 3; 7; Val_long 0; Val_long 2] = Some (m', Val_unit) /\
  val m' 5 1 = (7 + 5 * 2 ^ 64 + 3 * 2 ^ 128) / (9 + 8 * 2 ^ 64).
Proof.
  destruct (div_nat_correct bng_ops nat_example 2 0 3 7 0 2) as (m' & E & _ & Q & _).
  - exact bng_ops_ok.
  - now apply words_mem_of.
  - lia.
  - now apply longb_dec.
  - now apply longb_dec.
  - now apply longb_dec.
  - now apply longb_dec.
  - reflexivity.
  - left. cbn. lia.
  - exists m'. split; [exact E | exact Q].
Defined.

Lemma set_nth_digit_witness :
  nth_digit_nat (fst (set_digit_nat nat_example 2 (Val_long 1) (Val_long (-5)))) 2 (Val_long 1)
  = Val_long (-5).
Proof.
  exact (proj1 (set_nth_digit_roundtrip nat_example 2 1 (-5)
           (longb_dec 1 eq_refl) (longb_dec (-5) eq_refl))).
Defined.

End Witnesses.
