(* ===== verification/Int64Emul.v ===== *)
(** Int64Emul: software 64-bit integers, src/inline-more/byterun/int64_emul.h,
    for C compilers without a 64-bit type.  An [int64] is a pair of 32-bit
    halves; the operations are proved equal to arithmetic modulo 2^64. *)
From Stdlib Require Import ZArith Lia List Bool.
From S2P Require Import Prelude Mlvalues.
Import ListNotations.
Local Open Scope Z_scope.

(** ** Data and operations *)

(** [typedef struct { uint32 l, h; } uint64, int64;] *)
Record int64 := I64 { h : Z; l : Z }.

Definition u32 (x : Z) : Z := wrap 32 x.
Definition s32 (x : Z) : Z := swrap 32 x.

Definition I64_literal (hi lo : Z) : int64 := I64 hi lo.

Definition I64_ucompare (x y : int64) : Z :=
  if h y <? h x then 1
  else if h x <? h y then -1
  else if l y <? l x then 1
  else if l x <? l y then -1
  else 0.

Definition I64_ult (x y : int64) : bool := I64_ucompare x y <? 0.

Definition I64_compare (x y : int64) : Z :=
  if s32 (h y) <? s32 (h x) then 1
  else if s32 (h x) <? s32 (h y) then -1
  else if l y <? l x then 1
  else if l x <? l y then -1
  else 0.

Definition I64_neg (x : int64) : int64 :=
  let rl := u32 (- l x) in
  let rh := u32 (Z.lnot (h x)) in
  if rl =? 0 then I64 (u32 (rh + 1)) rl else I64 rh rl.

Definition I64_add (x y : int64) : int64 :=
  let rl := u32 (l x + l y) in
  let rh := u32 (h x + h y) in
  if rl <? l x then I64 (u32 (rh + 1)) rl else I64 rh rl.

Definition I64_sub (x y : int64) : int64 :=
  let rl := u32 (l x - l y) in
  let rh := u32 (h x - h y) in
  if l x <? l y then I64 (u32 (rh - 1)) rl else I64 rh rl.

Definition I64_mul (x y : int64) : int64 :=
  let prod00 := u32 (Z.land (l x) 0xFFFF * Z.land (l y) 0xFFFF) in
  let prod10 := u32 (Z.shiftr (l x) 16 * Z.land (l y) 0xFFFF) in
  let prod01 := u32 (Z.land (l x) 0xFFFF * Z.shiftr (l y) 16) in
  let prod11 := u32 (Z.shiftr (l x) 16 * Z.shiftr (l y) 16) in
  let rl := prod00 in
  let rh := u32 (prod11 + Z.shiftr prod01 16 + Z.shiftr prod10 16) in
  let prod01 := u32 (Z.shiftl prod01 16) in
  let rl := u32 (rl + prod01) in
  let rh := if rl <? prod01 then u32 (rh + 1) else rh in
  let prod10 := u32 (Z.shiftl prod10 16) in
  let rl := u32 (rl + prod10) in
  let rh := if rl <? prod10 then u32 (rh + 1) else rh in
  let rh := u32 (rh + (l x * h y + h x * l y)) in
  I64 rh rl.

Definition I64_is_zero (x : int64) : bool := Z.lor (l x) (h x) =? 0.
Definition I64_is_negative (x : int64) : bool := s32 (h x) <? 0.
Definition I64_is_min_int (x : int64) : bool := (l x =? 0) && (h x =? 0x80000000).
Definition I64_is_minus_one (x : int64) : bool := Z.land (l x) (h x) =? 0xFFFFFFFF.

Definition I64_and (x y : int64) : int64 := I64 (Z.land (h x) (h y)) (Z.land (l x) (l y)).
Definition I64_or (x y : int64) : int64 := I64 (Z.lor (h x) (h y)) (Z.lor (l x) (l y)).
Definition I64_xor (x y : int64) : int64 := I64 (Z.lxor (h x) (h y)) (Z.lxor (l x) (l y)).

Definition I64_lsl (x : int64) (s : Z) : int64 :=
  let s := Z.land s 63 in
  if s =? 0 then x
  else if s <? 32 then
    I64 (Z.lor (u32 (Z.shiftl (h x) s)) (Z.shiftr (l x) (32 - s))) (u32 (Z.shiftl (l x) s))
  else I64 (u32 (Z.shiftl (l x) (s - 32))) 0.

Definition I64_lsr (x : int64) (s : Z) : int64 :=
  let s := Z.land s 63 in
  if s =? 0 then x
  else if s <? 32 then
    I64 (Z.shiftr (h x) s) (Z.lor (Z.shiftr (l x) s) (u32 (Z.shiftl (h x) (32 - s))))
  else I64 0 (Z.shiftr (h x) (s - 32)).

Definition I64_asr (x : int64) (s : Z) : int64 :=
  let s := Z.land s 63 in
  if s =? 0 then x
  else if s <? 32 then
    I64 (u32 (Z.shiftr (s32 (h x)) s))
        (Z.lor (Z.shiftr (l x) s) (u32 (Z.shiftl (h x) (32 - s))))
  else I64 (u32 (Z.shiftr (s32 (h x)) 31)) (u32 (Z.shiftr (s32 (h x)) (s - 32))).

Definition I64_SHL1 (x : int64) : int64 :=
  I64 (Z.lor (u32 (Z.shiftl (h x) 1)) (Z.shiftr (l x) 31)) (u32 (Z.shiftl (l x) 1)).
Definition I64_SHR1 (x : int64) : int64 :=
  I64 (Z.shiftr (h x) 1) (Z.lor (Z.shiftr (l x) 1) (u32 (Z.shiftl (h x) 31))).

(** The two loops of [I64_udivmod]; the first is left by its [break] or when
    the top bit of the divisor is set.  State: (divisor, mask, broken). *)
Definition I64_udivmod_scale (modulus divisor : int64) : option (int64 * int64 * bool) :=
  while
    (fun '(divisor, mask, broken) => negb broken && (0 <=? s32 (h divisor)))
    (fun '(divisor, mask, broken) =>
       let cmp := I64_ucompare divisor modulus in
       (I64_SHL1 divisor, I64_SHL1 mask, 0 <=? cmp))
    6 (divisor, I64 0 1, false).

(** State: (quotient, modulus, mask, divisor). *)
Definition I64_udivmod_reduce (modulus mask divisor : int64)
    : option (int64 * int64 * int64 * int64) :=
  while
    (fun '(quotient, modulus, mask, divisor) => negb (Z.lor (l mask) (h mask) =? 0))
    (fun '(quotient, modulus, mask, divisor) =>
       let '(quotient, modulus) :=
         if 0 <=? I64_ucompare modulus divisor
         then (I64 (Z.lor (h quotient) (h mask)) (Z.lor (l quotient) (l mask)),
               I64_sub modulus divisor)
         else (quotient, modulus) in
       (quotient, modulus, I64_SHR1 mask, I64_SHR1 divisor))
    7 (I64 0 0, modulus, mask, divisor).

(** Returns (quo, mod). *)
Definition I64_udivmod (modulus divisor : int64) : option (int64 * int64) :=
  let* (divisor, mask, _) := I64_udivmod_scale modulus divisor in
  let* (quotient, modulus, _, _) := I64_udivmod_reduce modulus mask divisor in
  Some (quotient, modulus).

Definition I64_div (x y : int64) : option int64 :=
  let sign := s32 (Z.lxor (h x) (h y)) in
  let x := if s32 (h x) <? 0 then I64_neg x else x in
  let y := if s32 (h y) <? 0 then I64_neg y else y in
  let* (q, r) := I64_udivmod x y in
  Some (if sign <? 0 then I64_neg q else q).

Definition I64_mod (x y : int64) : option int64 :=
  let sign := s32 (h x) in
  let x := if s32 (h x) <? 0 then I64_neg x else x in
  let y := if s32 (h y) <? 0 then I64_neg y else y in
  let* (q, r) := I64_udivmod x y in
  Some (if sign <? 0 then I64_neg r else r).

Definition I64_of_int32 (x : Z) : int64 := I64 (u32 (Z.shiftr x 31)) (u32 x).
Definition I64_to_int32 (x : int64) : Z := s32 (l x).

(** ** Specification: the integers modulo 2^64 *)

Definition ok64 (x : int64) : Prop := uint 32 (h x) /\ uint 32 (l x).
Definition uval (x : int64) : Z := h x * 2 ^ 32 + l x.
Definition sval (x : int64) : Z := swrap 64 (uval x).

(** ** Additive operations *)

Definition M32 : Z := 2 ^ 32.
Definition M64 : Z := 2 ^ 64.

Lemma u32_eq x : exists q, x = q * M32 + u32 x /\ 0 <= u32 x < M32.
Proof.
  destruct (wrap_eqm 32 x ltac:(lia)) as [q Hq]. exists q. split; auto.
  apply wrap_range; lia.
Qed.

Lemma ok_u32 x : uint 32 (u32 x).
Proof. apply wrap_range; lia. Qed.

Lemma uval_range x : ok64 x -> 0 <= uval x < M64.
Proof. unfold ok64, uint, uval, M64. lia. Qed.

(** A well-formed number congruent to [z] is [z] reduced modulo 2^64. *)
Lemma uval_unique x z q : ok64 x -> uval x = z + q * M64 -> uval x = wrap 64 z.
Proof.
  intros Hx E. pose proof (uval_range x Hx).
  assert (wrap 64 z = wrap 64 (uval x)) as ->.
  { rewrite E. symmetry. apply (wrap_add_mul 64). }
  symmetry. apply wrap_small. auto.
Qed.

Lemma uval_inj x y : ok64 x -> ok64 y -> uval x = uval y -> x = y.
Proof.
  destruct x as [xh xl], y as [yh yl]. unfold ok64, uint, uval. cbn [h l].
  intros. f_equal; lia.
Qed.

Ltac i64 := unfold ok64, uint, uval, M64, M32 in *; cbn [h l] in *.

Lemma I64_add_spec x y : ok64 x -> ok64 y ->
  ok64 (I64_add x y) /\ uval (I64_add x y) = wrap 64 (uval x + uval y).
Proof.
  intros Hx Hy. unfold I64_add. cbv zeta.
  assert (ok : ok64 (if u32 (l x + l y) <? l x
    then I64 (u32 (u32 (h x + h y) + 1)) (u32 (l x + l y))
    else I64 (u32 (h x + h y)) (u32 (l x + l y)))) by (destruct (_ <? _); split; apply ok_u32).
  split; [exact ok|].
  destruct (u32_eq (l x + l y)) as (q1 & E1 & R1).
  destruct (u32_eq (h x + h y)) as (q2 & E2 & R2).
  destruct (u32_eq (u32 (h x + h y) + 1)) as (q3 & E3 & R3).
  revert ok. destruct (Z.ltb_spec (u32 (l x + l y)) (l x)); intros ok.
  - apply (uval_unique _ _ (- q2 - q3) ok). i64. lia.
  - apply (uval_unique _ _ (- q2) ok). i64. lia.
Qed.

Lemma I64_sub_spec x y : ok64 x -> ok64 y ->
  ok64 (I64_sub x y) /\ uval (I64_sub x y) = wrap 64 (uval x - uval y).
Proof.
  intros Hx Hy. unfold I64_sub. cbv zeta.
  assert (ok : ok64 (if l x <? l y
    then I64 (u32 (u32 (h x - h y) - 1)) (u32 (l x - l y))
    else I64 (u32 (h x - h y)) (u32 (l x - l y)))) by (destruct (_ <? _); split; apply ok_u32).
  split; [exact ok|].
  destruct (u32_eq (l x - l y)) as (q1 & E1 & R1).
  destruct (u32_eq (h x - h y)) as (q2 & E2 & R2).
  destruct (u32_eq (u32 (h x - h y) - 1)) as (q3 & E3 & R3).
  revert ok. destruct (Z.ltb_spec (l x) (l y)); intros ok.
  - apply (uval_unique _ _ (- q2 - q3) ok). i64. lia.
  - apply (uval_unique _ _ (- q2) ok). i64. lia.
Qed.

Lemma I64_neg_spec x : ok64 x ->
  ok64 (I64_neg x) /\ uval (I64_neg x) = wrap 64 (- uval x).
Proof.
  intros Hx. unfold I64_neg. cbv zeta.
  assert (ok : ok64 (if u32 (- l x) =? 0
    then I64 (u32 (u32 (Z.lnot (h x)) + 1)) (u32 (- l x))
    else I64 (u32 (Z.lnot (h x))) (u32 (- l x)))) by (destruct (_ =? _); split; apply ok_u32).
  split; [exact ok|].
  destruct (u32_eq (- l x)) as (q1 & E1 & R1).
  destruct (u32_eq (Z.lnot (h x))) as (q2 & E2 & R2).
  destruct (u32_eq (u32 (Z.lnot (h x)) + 1)) as (q3 & E3 & R3).
  assert (EL : Z.lnot (h x) = - h x - 1) by (unfold Z.lnot; lia).
  revert ok. destruct (Z.eqb_spec (u32 (- l x)) 0); intros ok.
  - apply (uval_unique _ _ (- q2 - q3) ok). i64. lia.
  - apply (uval_unique _ _ (- q2) ok). i64. lia.
Qed.

(** ** Multiplication *)

Lemma land_FFFF x : Z.land x 0xFFFF = x mod 65536.
Proof. change 0xFFFF with (Z.ones 16). now rewrite Z.land_ones. Qed.

Lemma shr16 x : Z.shiftr x 16 = x / 65536.
Proof. now rewrite Z.shiftr_div_pow2. Qed.

Lemma shl16 x : Z.shiftl x 16 = x * 65536.
Proof. now rewrite Z.shiftl_mul_pow2. Qed.

(** Adding the low half of a partial product, with its carry. *)
Lemma mul_accumulate rh rl p :
  0 <= rl < M32 -> 0 <= p < M32 ->
  let lo := u32 (rl + u32 (p * 65536)) in
  exists q,
    (if lo <? u32 (p * 65536) then u32 (rh + 1) else rh) * M32 + lo + p / 65536 * M32
    = rh * M32 + rl + p * 65536 + q * M64 /\ 0 <= lo < M32.
Proof.
  intros Hl Hp. cbn zeta.
  destruct (u32_eq (p * 65536)) as (q1 & E1 & R1).
  destruct (u32_eq (rl + u32 (p * 65536))) as (q2 & E2 & R2).
  destruct (u32_eq (rh + 1)) as (q3 & E3 & R3).
  assert (q1 = p / 65536).
  { unfold M32 in *. pose proof (Z.div_mod p 65536). pose proof (Z.mod_pos_bound p 65536). lia. }
  subst q1. destruct (Z.ltb_spec (u32 (rl + u32 (p * 65536))) (u32 (p * 65536))).
  - exists (- q3). unfold M64, M32 in *. split; lia.
  - exists 0. unfold M64, M32 in *. split; lia.
Qed.

Lemma half_prod a b : 0 <= a < 65536 -> 0 <= b < 65536 -> 0 <= a * b < M32.
Proof.
  intros Ha Hb. assert (a * b <= 65535 * 65535) by (apply Z.mul_le_mono_nonneg; lia).
  unfold M32. lia.
Qed.

Lemma I64_mul_spec x y : ok64 x -> ok64 y ->
  ok64 (I64_mul x y) /\ uval (I64_mul x y) = wrap 64 (uval x * uval y).
Proof.
  intros Hx Hy. unfold I64_mul. cbv zeta. rewrite !land_FFFF, !shr16, !shl16.
  destruct Hx as [Hxh Hxl], Hy as [Hyh Hyl]. unfold uint in *.
  set (x0 := l x mod 65536). set (x1 := l x / 65536).
  set (y0 := l y mod 65536). set (y1 := l y / 65536).
  assert (Ex : l x = x1 * 65536 + x0 /\ 0 <= x0 < 65536 /\ 0 <= x1 < 65536).
  { unfold x0, x1. pose proof (Z.div_mod (l x) 65536). pose proof (Z.mod_pos_bound (l x) 65536). lia. }
  assert (Ey : l y = y1 * 65536 + y0 /\ 0 <= y0 < 65536 /\ 0 <= y1 < 65536).
  { unfold y0, y1. pose proof (Z.div_mod (l y) 65536). pose proof (Z.mod_pos_bound (l y) 65536). lia. }
  clearbody x0 x1 y0 y1. destruct Ex as (Ex & ? & ?), Ey as (Ey & ? & ?).
  assert (P : forall a b, 0 <= a < 65536 -> 0 <= b < 65536 -> u32 (a * b) = a * b)
    by (intros; apply wrap_small, half_prod; auto).
  rewrite (P x0 y0), (P x1 y0), (P x0 y1), (P x1 y1) by auto.
  pose proof (half_prod x0 y0 ltac:(auto) ltac:(auto)).
  pose proof (half_prod x0 y1 ltac:(auto) ltac:(auto)).
  pose proof (half_prod x1 y0 ltac:(auto) ltac:(auto)).
  set (rh0 := u32 (x1 * y1 + x0 * y1 / 65536 + x1 * y0 / 65536)).
  destruct (u32_eq (x1 * y1 + x0 * y1 / 65536 + x1 * y0 / 65536)) as (q0 & E0 & _).
  fold rh0 in E0.
  destruct (mul_accumulate rh0 (x0 * y0) (x0 * y1)) as (q1 & E1 & R1); auto.
  set (l1 := u32 (x0 * y0 + _)) in *. set (h1 := if l1 <? _ then _ else _) in *.
  destruct (mul_accumulate h1 l1 (x1 * y0)) as (q2 & E2 & R2); auto.
  set (l2 := u32 (l1 + _)) in *. set (h2 := if l2 <? _ then _ else _) in *.
  destruct (u32_eq (h2 + (l x * h y + h x * l y))) as (q3 & E3 & R3).
  assert (ok : ok64 (I64 (u32 (h2 + (l x * h y + h x * l y))) l2)) by (split; auto).
  split; [exact ok|].
  apply (uval_unique _ _ (q1 + q2 - q0 - q3 - h x * h y) ok). unfold uval; cbn [h l].
  clearbody l1 h1 l2 h2 rh0. clear P.
  set (e := u32 _) in *. clearbody e. unfold M64, M32 in *.
  transitivity (h2 * 2 ^ 32 + l2 + (l x * h y + h x * l y) * 2 ^ 32 - q3 * 2 ^ 64); [lia|].
  rewrite Ex, Ey. rewrite Ex, Ey in E3. nia.
Qed.

(** ** Signed values and comparisons *)

Lemma s32_cases x : uint 32 x ->
  (x < 2 ^ 31 /\ s32 x = x) \/ (2 ^ 31 <= x /\ s32 x = x - M32).
Proof.
  intros Hx. unfold s32, swrap. rewrite wrap_small by exact Hx.
  change (32 - 1) with 31. zbool; [left | right]; auto.
Qed.

Lemma sval_eq x : ok64 x -> sval x = s32 (h x) * M32 + l x.
Proof.
  intros Hx. pose proof (uval_range x Hx). destruct Hx as [Hh Hl].
  unfold sval, swrap. rewrite wrap_small by auto. change (64 - 1) with 63.
  destruct (s32_cases (h x) Hh) as [[? ->] | [? ->]]; i64; zbool; lia.
Qed.

Lemma sval_cases x : ok64 x ->
  (s32 (h x) < 0 /\ uval x = sval x + M64 /\ - 2 ^ 63 <= sval x < 0) \/
  (0 <= s32 (h x) /\ uval x = sval x /\ 0 <= sval x < 2 ^ 63).
Proof.
  intros Hx. rewrite sval_eq by auto. destruct Hx as [Hh Hl].
  destruct (s32_cases (h x) Hh) as [[? ->] | [? ->]]; i64; lia.
Qed.

Lemma sval_range x : ok64 x -> - 2 ^ 63 <= sval x < 2 ^ 63.
Proof. intros Hx. destruct (sval_cases x Hx) as [H | H]; lia. Qed.

(** The value of [z] as an unsigned 64-bit number determines it as a signed one. *)
Lemma sval_of_wrap x z : uval x = wrap 64 z -> - 2 ^ 63 <= z < 2 ^ 63 -> sval x = z.
Proof.
  intros E Hz. unfold sval, swrap. rewrite E, wrap_idemp by lia. change (64 - 1) with 63.
  destruct (wrap_cases 64 z ltac:(lia) ltac:(lia)) as [[? ->] | [[? ->] | [? ->]]]; zbool; lia.
Qed.

Definition sign_of (c : comparison) : Z :=
  match c with Lt => -1 | Eq => 0 | Gt => 1 end.

Lemma I64_ucompare_spec x y : ok64 x -> ok64 y ->
  I64_ucompare x y = sign_of (uval x ?= uval y).
Proof.
  intros Hx Hy. unfold I64_ucompare. i64.
  destruct (Z.compare_spec (h x * 2 ^ 32 + l x) (h y * 2 ^ 32 + l y)); cbn [sign_of];
    zbool; lia.
Qed.

Lemma I64_compare_spec x y : ok64 x -> ok64 y ->
  I64_compare x y = sign_of (sval x ?= sval y).
Proof.
  intros Hx Hy. rewrite !sval_eq by auto. unfold I64_compare.
  destruct Hx as [_ Hx], Hy as [_ Hy]. unfold uint, M32 in *.
  destruct (Z.compare_spec (s32 (h x) * 2 ^ 32 + l x) (s32 (h y) * 2 ^ 32 + l y));
    cbn [sign_of]; zbool; lia.
Qed.

Lemma I64_ult_spec x y : ok64 x -> ok64 y -> I64_ult x y = (uval x <? uval y).
Proof.
  intros Hx Hy. unfold I64_ult. rewrite I64_ucompare_spec by auto. unfold Z.ltb.
  now destruct (uval x ?= uval y).
Qed.

Lemma I64_ucompare_ge x y : ok64 x -> ok64 y ->
  (0 <=? I64_ucompare x y) = (uval y <=? uval x).
Proof.
  intros Hx Hy. rewrite I64_ucompare_spec by auto.
  destruct (Z.compare_spec (uval x) (uval y)); cbn [sign_of];
    destruct (Z.leb_spec (uval y) (uval x)); try lia; reflexivity.
Qed.

(** ** Bitwise operations *)

Lemma uint_bits w x : 0 <= w -> (forall i, w <= i -> Z.testbit x i = false) -> 0 <= x -> uint w x.
Proof.
  intros Hw H Hx. split; auto. destruct (Z.eq_dec x 0) as [->|]; [now apply pow2_pos|].
  apply Z.log2_lt_pow2; [lia|]. destruct (Z_lt_ge_dec (Z.log2 x) w); auto.
  specialize (H (Z.log2 x) ltac:(lia)). rewrite Z.bit_log2 in H; [discriminate | lia].
Qed.

Lemma uint_testbit w x i : uint w x -> w <= i -> Z.testbit x i = false.
Proof.
  intros [H0 H1] Hi. destruct (Z_lt_ge_dec w 0).
  - rewrite Z.pow_neg_r in H1; lia.
  - rewrite <- (Z.mod_small x (2 ^ w)) by lia. apply Z.mod_pow2_bits_high. lia.
Qed.

Section Bitwise.
Variable op : Z -> Z -> Z.
Variable f : bool -> bool -> bool.
Hypothesis op_spec : forall a b i, Z.testbit (op a b) i = f (Z.testbit a i) (Z.testbit b i).
Hypothesis op_nonneg : forall a b, 0 <= a -> 0 <= b -> 0 <= op a b.
Hypothesis f_false : f false false = false.

Lemma uint_bitop w a b : 0 <= w -> uint w a -> uint w b -> uint w (op a b).
Proof.
  intros Hw Ha Hb. apply uint_bits; auto.
  - intros i Hi. rewrite op_spec, (uint_testbit w a), (uint_testbit w b); auto.
  - apply op_nonneg; [apply Ha | apply Hb].
Qed.

(** Working on the halves is working on the whole number. *)
Lemma bitop_halves x y : ok64 x -> ok64 y ->
  ok64 (I64 (op (h x) (h y)) (op (l x) (l y))) /\
  uval (I64 (op (h x) (h y)) (op (l x) (l y))) = op (uval x) (uval y).
Proof.
  intros [Hxh Hxl] [Hyh Hyl].
  split; [split; apply uint_bitop; auto; lia|]. unfold uval; cbn [h l].
  assert (L : uint 32 (op (l x) (l y))) by (apply uint_bitop; auto; lia).
  rewrite <- !lor_shiftl_add by (auto; lia).
  apply Z.bits_inj'. intros i Hi. rewrite op_spec, !Z.lor_spec, op_spec.
  destruct (Z_lt_ge_dec i 32).
  - now rewrite !Z.mul_pow2_bits_low by lia.
  - rewrite !Z.mul_pow2_bits by lia. rewrite op_spec.
    rewrite !(uint_testbit 32 (l _)) by (auto; lia).
    now rewrite f_false, !orb_false_r.
Qed.
End Bitwise.

Lemma I64_or_spec x y : ok64 x -> ok64 y ->
  ok64 (I64_or x y) /\ uval (I64_or x y) = Z.lor (uval x) (uval y).
Proof.
  apply (bitop_halves Z.lor orb Z.lor_spec); auto.
  intros a b Ha Hb. now apply Z.lor_nonneg.
Qed.

Lemma I64_and_spec x y : ok64 x -> ok64 y ->
  ok64 (I64_and x y) /\ uval (I64_and x y) = Z.land (uval x) (uval y).
Proof.
  apply (bitop_halves Z.land andb Z.land_spec); auto.
  intros a b Ha Hb. apply Z.land_nonneg. auto.
Qed.

Lemma I64_xor_spec x y : ok64 x -> ok64 y ->
  ok64 (I64_xor x y) /\ uval (I64_xor x y) = Z.lxor (uval x) (uval y).
Proof.
  apply (bitop_halves Z.lxor xorb Z.lxor_spec); auto.
  intros a b Ha Hb. apply Z.lxor_nonneg. tauto.
Qed.

Lemma I64_is_zero_spec x : ok64 x -> I64_is_zero x = (uval x =? 0).
Proof.
  intros [Hh Hl]. unfold I64_is_zero. i64.
  destruct (Z.eqb_spec (Z.lor (l x) (h x)) 0) as [E | E].
  - apply Z.lor_eq_0_iff in E. symmetry. apply Z.eqb_eq. lia.
  - symmetry. apply Z.eqb_neq. intros H. apply E. apply Z.lor_eq_0_iff. lia.
Qed.

Lemma I64_is_negative_spec x : ok64 x -> I64_is_negative x = (sval x <? 0).
Proof. intros Hx. unfold I64_is_negative. destruct (sval_cases x Hx); zbool; lia. Qed.

Lemma I64_is_min_int_spec x : ok64 x -> I64_is_min_int x = (sval x =? - 2 ^ 63).
Proof.
  intros Hx. rewrite sval_eq by auto. unfold I64_is_min_int. destruct Hx as [Hh Hl].
  destruct (s32_cases (h x) Hh) as [[? ->] | [? ->]]; i64;
    destruct (Z.eqb_spec (l x) 0), (Z.eqb_spec (h x) 2147483648); cbn [andb];
    symmetry; first [apply Z.eqb_eq; lia | apply Z.eqb_neq; lia].
Qed.

Lemma I64_is_minus_one_spec x : ok64 x -> I64_is_minus_one x = (sval x =? -1).
Proof.
  intros Hx. rewrite sval_eq by auto. unfold I64_is_minus_one. destruct Hx as [Hh Hl].
  change 4294967295 with (Z.ones 32).
  assert (Z.land (l x) (h x) = Z.ones 32 <-> l x = Z.ones 32 /\ h x = Z.ones 32) as L.
  { split; [|intros [-> ->]; apply Z.land_diag].
    intros E. assert (B : forall i, 0 <= i < 32 -> Z.testbit (l x) i = true /\ Z.testbit (h x) i = true).
    { intros i Hi. apply andb_prop. rewrite <- Z.land_spec, E. now apply Z.ones_spec_low. }
    split; apply Z.bits_inj'; intros i Hi; destruct (Z_lt_ge_dec i 32).
    all: try (rewrite Z.ones_spec_low by lia; now apply B).
    all: rewrite Z.ones_spec_high by lia; apply (uint_testbit 32); [assumption | lia]. }
  destruct (s32_cases (h x) Hh) as [[? ->] | [? ->]]; i64;
    change (Z.ones 32) with 4294967295 in *;
    destruct (Z.eqb_spec (Z.land (l x) (h x)) 4294967295) as [E | E]; symmetry;
    first [apply Z.eqb_eq; lia | apply Z.eqb_neq; lia].
Qed.

(** ** Shifts *)

(** A word cut in two by a left shift. *)
Lemma shl_parts a s : uint 32 a -> 0 <= s <= 32 ->
  let P := 2 ^ s in let Q := 2 ^ (32 - s) in
  P * Q = M32 /\ 0 < P /\ 0 < Q /\
  u32 (Z.shiftl a s) = a mod Q * P /\ Z.shiftr a (32 - s) = a / Q /\
  a = a / Q * Q + a mod Q /\ 0 <= a mod Q < Q /\ 0 <= a / Q < P.
Proof.
  intros Ha Hs P Q.
  assert (EPQ : P * Q = M32) by (unfold P, Q, M32; rewrite <- Z.pow_add_r by lia; f_equal; lia).
  assert (0 < P) by (apply pow2_pos; lia). assert (0 < Q) by (apply pow2_pos; lia).
  conj; auto.
  - rewrite Z.shiftl_mul_pow2 by lia. fold P. unfold u32, wrap. change (2 ^ 32) with M32.
    rewrite <- EPQ, (Z.mul_comm P Q). apply Z.mul_mod_distr_r; lia.
  - apply Z.shiftr_div_pow2. lia.
  - rewrite Z.mul_comm. apply Z.div_mod. lia.
  - apply Z.mod_pos_bound; lia.
  - apply Z.mod_pos_bound; lia.
  - apply Z.div_pos; [apply Ha | lia].
  - apply Z.div_lt_upper_bound; [lia|]. rewrite Z.mul_comm, EPQ. apply Ha.
Qed.

Lemma land63 s : Z.land s 63 = s mod 64.
Proof. change 63 with (Z.ones 6). now rewrite Z.land_ones. Qed.

Lemma I64_lsl_spec x s : ok64 x ->
  ok64 (I64_lsl x s) /\ uval (I64_lsl x s) = wrap 64 (uval x * 2 ^ (s mod 64)).
Proof.
  intros Hx. unfold I64_lsl. rewrite land63. cbv zeta.
  pose proof (Z.mod_pos_bound s 64 ltac:(lia)) as Hs. set (k := s mod 64) in *. clearbody k.
  destruct (Z.eqb_spec k 0) as [-> | Hk].
  { split; auto. rewrite Z.mul_1_r. symmetry. apply wrap_small, (uval_range x Hx). }
  destruct Hx as [Hh Hl]. destruct (Z.ltb_spec k 32).
  - destruct (shl_parts (h x) k Hh ltac:(lia)) as (EPQ & HP & HQ & Eh & _ & Dh & Bh & Ch).
    destruct (shl_parts (l x) k Hl ltac:(lia)) as (_ & _ & _ & El & Er & Dl & Bl & Cl).
    rewrite Eh, El, Er, lor_shiftl_add by lia.
    set (P := 2 ^ k) in *. set (Q := 2 ^ (32 - k)) in *.
    assert (ok : ok64 (I64 (h x mod Q * P + l x / Q) (l x mod Q * P))).
    { split; unfold uint; cbn [h l]; fold M32; nia. }
    split; [exact ok|]. apply (uval_unique _ _ (- (h x / Q)) ok).
    unfold uval; cbn [h l]. fold M32. replace M64 with (M32 * M32) by reflexivity. nia.
  - assert (ok : ok64 (I64 (u32 (Z.shiftl (l x) (k - 32))) 0)) by (split; [apply ok_u32 | unfold uint; cbn; lia]).
    split; [exact ok|]. rewrite Z.shiftl_mul_pow2 in * by lia.
    destruct (u32_eq (l x * 2 ^ (k - 32))) as (q & E & _).
    apply (uval_unique _ _ (- q - h x * 2 ^ (k - 32)) ok). unfold uval; cbn [h l].
    replace (2 ^ k) with (2 ^ (k - 32) * M32) by (unfold M32; rewrite <- Z.pow_add_r by lia; f_equal; lia).
    fold M32. replace M64 with (M32 * M32) by reflexivity. nia.
Qed.

(** The two halves of a right shift by less than a word: [hi] is the upper
    half, seen as a signed or an unsigned number. *)
Lemma shr_low hi a b k : 0 < k < 32 -> uint 32 a -> uint 32 b -> (exists q, a = hi + q * M32) ->
  let r := Z.lor (Z.shiftr b k) (u32 (Z.shiftl a (32 - k))) in
  uint 32 r /\ (hi * M32 + b) / 2 ^ k = hi / 2 ^ k * M32 + r.
Proof.
  intros Hk Ha Hb [q Eq]. cbn zeta.
  destruct (shl_parts a (32 - k) Ha ltac:(lia)) as (EPQ & HP & HQ & Ea & _ & Da & Ba & Ca).
  destruct (shl_parts b (32 - k) Hb ltac:(lia)) as (_ & _ & _ & _ & Eb & Db & Bb & Cb).
  replace (32 - (32 - k)) with k in * by lia.
  rewrite Ea, Eb, lor_shiftl_add_r by lia.
  set (P := 2 ^ (32 - k)) in *. set (Q := 2 ^ k) in *.
  assert (Em : a mod Q = hi mod Q).
  { rewrite Eq, <- EPQ. rewrite Z.mul_assoc. apply Z_mod_plus_full. }
  assert (Dhi : hi = Q * (hi / Q) + hi mod Q) by (apply Z.div_mod; lia).
  split; [split; fold M32; nia|].
  symmetry. apply Z.div_unique with (b mod Q); [left; auto|]. rewrite Em. nia.
Qed.

Lemma I64_lsr_spec x s : ok64 x ->
  ok64 (I64_lsr x s) /\ uval (I64_lsr x s) = uval x / 2 ^ (s mod 64).
Proof.
  intros Hx. unfold I64_lsr. rewrite land63. cbv zeta.
  pose proof (Z.mod_pos_bound s 64 ltac:(lia)) as Hs. set (k := s mod 64) in *. clearbody k.
  destruct (Z.eqb_spec k 0) as [-> | Hk].
  { split; auto. now rewrite Z.div_1_r. }
  destruct Hx as [Hh Hl]. pose proof (pow2_pos k ltac:(lia)).
  assert (D : forall j, 0 <= j -> uint 32 (Z.shiftr (h x) j)).
  { intros j Hj. rewrite Z.shiftr_div_pow2 by lia. pose proof (pow2_pos j Hj). destruct Hh.
    split; [apply Z.div_pos; lia|]. apply Z.le_lt_trans with (h x); auto.
    apply Z.div_le_upper_bound; nia. }
  destruct (Z.ltb_spec k 32).
  - destruct (shr_low (h x) (h x) (l x) k) as [R E]; auto; [lia | exists 0; lia |].
    split; [split; [apply D; lia | exact R]|]. unfold uval at 1; cbn [h l].
    rewrite (Z.shiftr_div_pow2 (h x)) by lia. symmetry. exact E.
  - split; [split; [unfold uint; cbn; lia | apply D; lia]|]. unfold uval; cbn [h l].
    rewrite Z.shiftr_div_pow2 by lia.
    replace (2 ^ k) with (M32 * 2 ^ (k - 32)) by (unfold M32; rewrite <- Z.pow_add_r by lia; f_equal; lia).
    fold M32. rewrite <- Z.div_div by (try apply pow2_pos; unfold M32; lia).
    rewrite Z.div_add_l by (unfold M32; lia). rewrite (Z.div_small (l x)) by exact Hl.
    now rewrite Z.add_0_r.
Qed.

Lemma u32_of_signed a : - 2 ^ 31 <= a < 2 ^ 31 ->
  u32 (Z.shiftr a 31) = if a <? 0 then M32 - 1 else 0.
Proof.
  intros Ha. rewrite Z.shiftr_div_pow2 by lia. destruct (Z.ltb_spec a 0).
  - replace (a / 2 ^ 31) with (-1); [reflexivity|].
    apply Z.div_unique with (a + 2 ^ 31); lia.
  - now rewrite Z.div_small.
Qed.

Lemma I64_asr_spec x s : ok64 x ->
  ok64 (I64_asr x s) /\ uval (I64_asr x s) = wrap 64 (sval x / 2 ^ (s mod 64)).
Proof.
  intros Hx. unfold I64_asr. rewrite land63. cbv zeta.
  pose proof (Z.mod_pos_bound s 64 ltac:(lia)) as Hs. set (k := s mod 64) in *. clearbody k.
  destruct (Z.eqb_spec k 0) as [-> | Hk].
  { split; auto. rewrite Z.div_1_r. unfold sval.
    destruct (swrap_eqm 64 (uval x) ltac:(lia)) as [q ->]. rewrite wrap_add_mul.
    symmetry. apply wrap_small, (uval_range x Hx). }
  rewrite sval_eq by auto. destruct Hx as [Hh Hl].
  pose proof (swrap_range 32 (h x) ltac:(lia)) as Sh. fold (s32 (h x)) in Sh.
  destruct (swrap_eqm 32 (h x) ltac:(lia)) as [q Eq]. fold (s32 (h x)) in Eq.
  destruct (Z.ltb_spec k 32).
  - destruct (shr_low (s32 (h x)) (h x) (l x) k) as [R E]; auto; [lia | exists (- q); fold M32 in Eq; lia |].
    rewrite E, Z.shiftr_div_pow2 by lia.
    match goal with |- ok64 ?r /\ _ => assert (ok : ok64 r) by (split; [apply ok_u32 | exact R]) end.
    split; [exact ok|]. destruct (u32_eq (s32 (h x) / 2 ^ k)) as (q1 & E1 & _).
    apply (uval_unique _ _ (- q1) ok). unfold uval; cbn [h l]. fold M32.
    replace M64 with (M32 * M32) by reflexivity. rewrite E1 at 2. ring.
  - replace (2 ^ k) with (M32 * 2 ^ (k - 32)) by (unfold M32; rewrite <- Z.pow_add_r by lia; f_equal; lia).
    rewrite <- Z.div_div by (try apply pow2_pos; unfold M32; lia).
    rewrite Z.div_add_l by (unfold M32; lia). rewrite (Z.div_small (l x)) by exact Hl.
    rewrite Z.add_0_r. rewrite u32_of_signed by exact Sh. rewrite Z.shiftr_div_pow2 by lia.
    pose proof (pow2_pos (k - 32) ltac:(lia)) as HP. set (P := 2 ^ (k - 32)) in *.
    assert (B : (s32 (h x) < 0 -> - 2 ^ 31 <= s32 (h x) / P < 0) /\
                (0 <= s32 (h x) -> 0 <= s32 (h x) / P < 2 ^ 31)).
    { pose proof (Z.div_mod (s32 (h x)) P ltac:(lia)). pose proof (Z.mod_pos_bound (s32 (h x)) P HP).
      split; intros; nia. }
    set (a := s32 (h x)) in *. clearbody a. set (d := a / P) in *. clearbody d.
    destruct (u32_eq d) as (q1 & E1 & R1).
    match goal with |- ok64 ?r /\ _ =>
      assert (ok : ok64 r) by (split; [unfold uint; cbn [h]; destruct (a <? 0); unfold M32; lia | apply ok_u32]) end.
    split; [exact ok|]. destruct (Z.ltb_spec a 0).
    + apply (uval_unique _ _ 1 ok). unfold uval; cbn [h l]. unfold M32, M64 in *. lia.
    + apply (uval_unique _ _ 0 ok). unfold uval; cbn [h l]. unfold M32, M64 in *. lia.
Qed.

(** ** Division *)

Lemma I64_SHL1_spec x : ok64 x -> uval x < 2 ^ 63 ->
  ok64 (I64_SHL1 x) /\ uval (I64_SHL1 x) = 2 * uval x.
Proof.
  intros Hx Hb. change (I64_SHL1 x) with (I64_lsl x 1).
  destruct (I64_lsl_spec x 1 Hx) as [H1 ->]. split; auto.
  pose proof (uval_range x Hx). rewrite wrap_small; change (1 mod 64) with 1; lia.
Qed.

Lemma I64_SHR1_spec x : ok64 x -> ok64 (I64_SHR1 x) /\ uval (I64_SHR1 x) = uval x / 2.
Proof. intros Hx. change (I64_SHR1 x) with (I64_lsr x 1). apply (I64_lsr_spec x 1 Hx). Qed.

Lemma pow2_half j : 0 < j -> 2 ^ j = 2 * 2 ^ (j - 1).
Proof. intros. rewrite <- Z.pow_succ_r by lia. f_equal. lia. Qed.

Lemma I64_udivmod_scale_spec x y : ok64 x -> ok64 y -> 0 < uval y ->
  exists d m b i, I64_udivmod_scale x y = Some (d, m, b) /\ ok64 d /\ ok64 m /\
    0 <= i < 64 /\ uval d = uval y * 2 ^ i /\ uval m = 2 ^ i /\ uval x < 2 * uval d.
Proof.
  intros Hx Hy Hpos. unfold I64_udivmod_scale.
  set (I := fun '(d, m, b) => exists i, ok64 d /\ ok64 m /\
    0 <= i < 64 /\ uval d = uval y * 2 ^ i /\ uval m = 2 ^ i /\
    (b = true -> uval x < 2 * uval d)).
  match goal with |- context [while ?c ?bd 6 ?st] =>
    destruct (while_rule c bd I (fun '(d, m, _) => 63 - Z.log2 (uval m))) with (k := 6%nat) (s := st)
      as ([[d m] b0] & E & (i & Hd & Hm & Hi & Ed & Em & Hb) & Hc) end.
  - intros [[d m] b] (i & Hd & Hm & Hi & Ed & Em & Hb) Hc.
    apply andb_true_iff in Hc as [_ Hc]. apply Z.leb_le in Hc.
    destruct (sval_cases d Hd) as [?|(_ & Ev & Hr)]; [lia|].
    assert (i < 63).
    { destruct (Z_lt_ge_dec i 63); auto. replace i with 63 in * by lia. nia. }
    assert (P : 2 ^ (i + 1) = 2 * 2 ^ i) by (rewrite Z.pow_add_r; lia).
    assert (2 ^ i <= 2 ^ 62) by (apply Z.pow_le_mono_r; lia).
    destruct (I64_SHL1_spec d Hd ltac:(lia)) as [Hd' Ed'].
    destruct (I64_SHL1_spec m Hm ltac:(lia)) as [Hm' Em'].
    split.
    + exists (i + 1). conj; auto; try lia.
      intros Hge. rewrite I64_ucompare_ge in Hge by auto. apply Z.leb_le in Hge. lia.
    + rewrite Em', Em, <- P, !Z.log2_pow2 by lia. lia.
  - exists 0. conj; auto; try discriminate; try apply Hy; try (cbn; lia); try (split; unfold uint; cbn; lia).
  - cbn. lia.
  - exists d, m, b0, i. conj; auto; try lia.
    apply andb_false_iff in Hc as [Hc | Hc].
    + apply negb_false_iff in Hc. auto.
    + apply Z.leb_gt in Hc. pose proof (uval_range x Hx). unfold M64 in *.
      destruct (sval_cases d Hd) as [(_ & Ev & Hr) |?]; [unfold M64 in *; lia | lia].
Qed.

(** Setting the bit of [mask] in a quotient that is a multiple of a larger
    power of two adds it. *)
Lemma or_mask q m k j : ok64 q -> ok64 m -> 0 < j -> uval q = k * 2 ^ j -> uval m = 2 ^ (j - 1) ->
  let r := I64 (Z.lor (h q) (h m)) (Z.lor (l q) (l m)) in
  ok64 r /\ uval r = (2 * k + 1) * 2 ^ (j - 1).
Proof.
  intros Hq Hm Hj Eq Em. change (I64 _ _) with (I64_or q m). cbn zeta.
  destruct (I64_or_spec q m Hq Hm) as [H1 ->]. split; auto.
  pose proof (pow2_half j Hj). pose proof (pow2_pos (j - 1) ltac:(lia)).
  rewrite Eq, Em, lor_shiftl_add; lia.
Qed.

Lemma I64_udivmod_reduce_spec x y m d i : ok64 x -> ok64 m -> ok64 d ->
  0 < y -> 0 <= i < 64 -> uval d = y * 2 ^ i -> uval m = 2 ^ i -> uval x < 2 * uval d ->
  exists q r m' d', I64_udivmod_reduce x m d = Some (q, r, m', d') /\ ok64 q /\ ok64 r /\
    uval q = uval x / y /\ uval r = uval x mod y.
Proof.
  intros Hx Hm Hd Hy Hi Ed Em Hlt. unfold I64_udivmod_reduce.
  set (I := fun '(q, r, m, d) => exists j k, ok64 q /\ ok64 r /\ ok64 m /\ ok64 d /\
    0 <= j <= 64 /\ uval m = 2 ^ j / 2 /\ uval d = y * 2 ^ j / 2 /\
    uval q = k * 2 ^ j /\ uval r < y * 2 ^ j /\ uval x = uval q * y + uval r).
  match goal with |- context [while ?c ?bd 7 ?st] =>
    destruct (while_rule c bd I
      (fun '(q, r, m, d) => if uval m =? 0 then 0 else Z.log2 (uval m) + 1)) with (k := 7%nat) (s := st)
      as ([[[q r] m'] d'] & E & (j & k & Hq & Hr & Hm' & Hd' & Hj & Em' & Ed' & Eq & Er & Ex) & Hc) end.
  - intros [[[q r] m1] d1] (j & k & Hq & Hr & Hm1 & Hd1 & Hj & Em1 & Ed1 & Eq & Er & Ex) Hc.
    change (Z.lor (l m1) (h m1) =? 0) with (I64_is_zero m1) in Hc.
    rewrite I64_is_zero_spec in Hc by auto. apply negb_true_iff, Z.eqb_neq in Hc.
    assert (0 < j).
    { destruct (Z.eq_dec j 0) as [->|]; [|lia]. rewrite Em1 in Hc. now cbn in Hc. }
    pose proof (pow2_half j ltac:(lia)) as Pj. pose proof (pow2_pos (j - 1) ltac:(lia)).
    assert (Em2 : uval m1 = 2 ^ (j - 1)) by (rewrite Em1, Pj, Z.mul_comm; apply Z.div_mul; lia).
    assert (Ed2 : uval d1 = y * 2 ^ (j - 1)).
    { rewrite Ed1, Pj. replace (y * (2 * 2 ^ (j - 1))) with (y * 2 ^ (j - 1) * 2) by ring.
      apply Z.div_mul; lia. }
    destruct (I64_SHR1_spec m1 Hm1) as [Hm3 Em3]. destruct (I64_SHR1_spec d1 Hd1) as [Hd3 Ed3].
    rewrite Em2 in Em3. rewrite Ed2 in Ed3.
    assert (MU : 0 <= (if uval (I64_SHR1 m1) =? 0 then 0 else Z.log2 (uval (I64_SHR1 m1)) + 1)
                 < (if uval m1 =? 0 then 0 else Z.log2 (uval m1) + 1)).
    { rewrite (proj2 (Z.eqb_neq (uval m1) 0)) by lia. rewrite Em2, Z.log2_pow2 by lia.
      destruct (Z.eqb_spec (uval (I64_SHR1 m1)) 0); [lia|]. rewrite Em3.
      destruct (Z.eq_dec j 1) as [->|]; [now rewrite Em3 in n|].
      rewrite (pow2_half (j - 1)) by lia. rewrite Z.mul_comm, Z.div_mul, Z.log2_pow2; lia. }
    rewrite I64_ucompare_ge by auto. rewrite Ed2.
    pose proof (uval_range r Hr). pose proof (uval_range d1 Hd1).
    destruct (Z.leb_spec (y * 2 ^ (j - 1)) (uval r)).
    + split; [|exact MU]. exists (j - 1), (2 * k + 1).
      destruct (or_mask q m1 k j) as [Hq' Eq']; auto.
      destruct (I64_sub_spec r d1 Hr Hd1) as [Hs Es].
      rewrite wrap_small in Es by (fold M64; lia).
      conj; auto; lia.
    + split; [|exact MU]. exists (j - 1), (2 * k). conj; auto; try lia.
  - pose proof (pow2_half (i + 1) ltac:(lia)) as Pj. replace (i + 1 - 1) with i in Pj by lia.
    exists (i + 1), 0. conj; auto; try (cbn; lia); try (split; unfold uint; cbn; lia).
    + rewrite Em, Pj, Z.mul_comm, Z.div_mul; lia.
    + rewrite Ed, Pj. replace (y * (2 * 2 ^ i)) with (y * 2 ^ i * 2) by ring. rewrite Z.div_mul; lia.
  - rewrite Em. pose proof (pow2_pos i ltac:(lia)). rewrite (proj2 (Z.eqb_neq (2 ^ i) 0)) by lia.
    rewrite Z.log2_pow2 by lia. cbn. lia.
  - exists q, r, m', d'. rewrite E. conj; auto.
    all: change (Z.lor (l m') (h m') =? 0) with (I64_is_zero m') in Hc;
      rewrite I64_is_zero_spec in Hc by auto; apply negb_false_iff, Z.eqb_eq in Hc.
    all: assert (j = 0) as -> by
      (destruct (Z_lt_ge_dec 0 j) as [Hp |]; [|lia]; pose proof (pow2_half j Hp);
       pose proof (pow2_pos (j - 1) ltac:(lia)); rewrite Em' in Hc;
       assert (1 <= 2 ^ j / 2) by (apply Z.div_le_lower_bound; lia); lia).
    all: pose proof (uval_range r Hr); rewrite Z.mul_1_r in Er.
    + apply Z.div_unique with (uval r); lia.
    + apply Z.mod_unique with (uval q); lia.
Qed.

Lemma I64_udivmod_spec x y : ok64 x -> ok64 y -> 0 < uval y ->
  exists q r, I64_udivmod x y = Some (q, r) /\ ok64 q /\ ok64 r /\
    uval q = uval x / uval y /\ uval r = uval x mod uval y.
Proof.
  intros Hx Hy Hpos. unfold I64_udivmod.
  destruct (I64_udivmod_scale_spec x y Hx Hy Hpos) as (d & m & b & i & -> & Hd & Hm & Hi & Ed & Em & Hlt).
  destruct (I64_udivmod_reduce_spec x (uval y) m d i) as (q & r & m' & d' & -> & H); auto.
  exists q, r. auto.
Qed.

(** The absolute value [I64_div] and [I64_mod] pass to [I64_udivmod]. *)
Lemma I64_abs_spec x : ok64 x ->
  let a := if s32 (h x) <? 0 then I64_neg x else x in
  ok64 a /\ uval a = Z.abs (sval x).
Proof.
  intros Hx. cbn zeta. destruct (I64_neg_spec x Hx) as [Hn En].
  destruct (sval_cases x Hx) as [(Hs & Ev & Hr) | (Hs & Ev & Hr)].
  - rewrite (proj2 (Z.ltb_lt _ _) Hs). split; auto.
    rewrite En. unfold M64 in Ev.
    destruct (wrap_cases 64 (- uval x)) as [[? ->] | [[? ->] | [? ->]]]; lia.
  - rewrite (proj2 (Z.ltb_ge _ _) Hs). split; auto. lia.
Qed.

Lemma s32_xor_sign x y : ok64 x -> ok64 y ->
  (s32 (Z.lxor (h x) (h y)) <? 0) = xorb (sval x <? 0) (sval y <? 0).
Proof.
  intros Hx Hy.
  assert (B : forall z, uint 32 z -> (s32 z <? 0) = Z.testbit z 31).
  { intros z Hz. rewrite Z.testbit_eqb by lia. destruct (s32_cases z Hz) as [[? ->] | [? ->]].
    - rewrite Z.div_small by (unfold uint in Hz; lia). apply Z.ltb_ge. apply Hz.
    - replace (z / 2 ^ 31) with 1 by (apply Z.div_unique with (z - 2 ^ 31); unfold uint in Hz; lia).
      apply Z.ltb_lt. unfold uint, M32 in *. lia. }
  assert (U : uint 32 (Z.lxor (h x) (h y))).
  { apply (uint_bitop Z.lxor xorb Z.lxor_spec); auto; try apply Hx; try apply Hy; [|lia].
    intros a b Ha Hb. apply Z.lxor_nonneg. tauto. }
  rewrite B, Z.lxor_spec, <- !B by (auto; apply Hx || apply Hy).
  pose proof (I64_is_negative_spec x Hx). pose proof (I64_is_negative_spec y Hy).
  unfold I64_is_negative in *. congruence.
Qed.

Lemma I64_div_spec x y : ok64 x -> ok64 y -> sval y <> 0 ->
  exists q, I64_div x y = Some q /\ ok64 q /\ uval q = wrap 64 (Z.quot (sval x) (sval y)).
Proof.
  intros Hx Hy Hnz. unfold I64_div. cbv zeta. rewrite s32_xor_sign by auto.
  destruct (I64_abs_spec x Hx) as [Hax Eax]. destruct (I64_abs_spec y Hy) as [Hay Eay].
  destruct (I64_udivmod_spec _ _ Hax Hay ltac:(lia)) as (q & r & -> & Hq & _ & Eq & _).
  rewrite Eax, Eay in Eq. eexists; split; [reflexivity|].
  destruct (I64_neg_spec q Hq) as [Hn En]. pose proof (uval_range q Hq).
  rewrite Z.quot_div by auto.
  assert (E0 : sval x = 0 -> uval q = 0) by (intros E; rewrite Eq, E; apply Z.div_0_l; lia).
  rewrite Eq in En, E0.
  destruct (Z.ltb_spec (sval x) 0), (Z.ltb_spec (sval y) 0); cbn [xorb]; split; auto.
  - rewrite !Z.sgn_neg, Eq by lia. rewrite Z.mul_1_l, <- Eq, wrap_small; auto.
  - rewrite Z.sgn_neg, Z.sgn_pos, En by lia. f_equal; lia.
  - rewrite (Z.sgn_neg (sval y)), En by lia. f_equal.
    destruct (Z.eq_dec (sval x) 0); [rewrite E0 by auto; lia | rewrite Z.sgn_pos by lia; lia].
  - rewrite (Z.sgn_pos (sval y)) by lia. rewrite <- (wrap_small 64 (uval q)) by auto. f_equal.
    rewrite Eq. destruct (Z.eq_dec (sval x) 0); [rewrite E0 by auto; lia | rewrite Z.sgn_pos by lia; lia].
Qed.

Lemma I64_mod_spec x y : ok64 x -> ok64 y -> sval y <> 0 ->
  exists r, I64_mod x y = Some r /\ ok64 r /\ uval r = wrap 64 (Z.rem (sval x) (sval y)).
Proof.
  intros Hx Hy Hnz. unfold I64_mod. cbv zeta.
  change (s32 (h x) <? 0) with (I64_is_negative x) at 2. rewrite I64_is_negative_spec by auto.
  destruct (I64_abs_spec x Hx) as [Hax Eax]. destruct (I64_abs_spec y Hy) as [Hay Eay].
  destruct (I64_udivmod_spec _ _ Hax Hay ltac:(lia)) as (q & r & -> & _ & Hr & _ & Er).
  rewrite Eax, Eay in Er. eexists; split; [reflexivity|].
  destruct (I64_neg_spec r Hr) as [Hn En]. pose proof (uval_range r Hr).
  rewrite Z.rem_mod by auto.
  destruct (Z.ltb_spec (sval x) 0); split; auto.
  - rewrite Z.sgn_neg, En, Er by lia. f_equal; lia.
  - rewrite <- (wrap_small 64 (uval r)) by auto. f_equal. rewrite Er.
    destruct (Z.eq_dec (sval x) 0) as [-> |]; [now rewrite Zmod_0_l | rewrite Z.sgn_pos by lia; lia].
Qed.
