(* ===== verification/Int64.v ===== *)
(** Int64: the interface of the two 64-bit integer implementations ints.c is
    compiled against, src/inline-more/byterun/int64_native.h and
    int64_emul.h.  [Int64Ops] lists the macros both headers define, [Int64Ok]
    states what ints.c and int64_format.h rely on; both headers satisfy it. *)
From Stdlib Require Import ZArith Lia List Bool.
From S2P Require Import Prelude Mlvalues Int64Emul.
Import ListNotations.
Local Open Scope Z_scope.

(** ** int64_native.h

    An [int64] is a [Z] of 64 bits in two's complement; a [uint64] variable is
    represented by the [int64] with the same bits. *)
Module Native.
Section Native.
Context {A : Arch}.

Definition u64 (x : Z) : Z := wrap 64 x.
Definition s64 (x : Z) : Z := swrap 64 x.
Definition min_int64 : Z := - 2 ^ 63.

Definition I64_literal (hi lo : Z) : Z := s64 (Z.lor (Z.shiftl hi 32) lo).
Definition I64_compare (x y : Z) : Z := b2z (y <? x) - b2z (x <? y).
Definition I64_ult (x y : Z) : bool := u64 x <? u64 y.
Definition I64_neg (x : Z) : Z := s64 (- x).
Definition I64_add (x y : Z) : Z := s64 (x + y).
Definition I64_sub (x y : Z) : Z := s64 (x - y).
Definition I64_mul (x y : Z) : Z := s64 (x * y).
Definition I64_is_zero (x : Z) : bool := x =? 0.
Definition I64_is_negative (x : Z) : bool := x <? 0.
Definition I64_is_min_int (x : Z) : bool := x =? s64 (Z.shiftl 1 63).
Definition I64_is_minus_one (x : Z) : bool := x =? -1.

(** C division: undefined for a zero divisor and when the quotient overflows. *)
Definition I64_div (x y : Z) : res Z :=
  if y =? 0 then Stuck
  else if (x =? min_int64) && (y =? -1) then Stuck else Ok (Z.quot x y).
Definition I64_mod (x y : Z) : res Z :=
  if y =? 0 then Stuck
  else if (x =? min_int64) && (y =? -1) then Stuck else Ok (Z.rem x y).
(** Returns (quo, rem). *)
Definition I64_udivmod (x y : Z) : res (Z * Z) :=
  if u64 y =? 0 then Stuck else Ok (s64 (u64 x / u64 y), s64 (u64 x mod u64 y)).

Definition I64_and (x y : Z) : Z := Z.land x y.
Definition I64_or (x y : Z) : Z := Z.lor x y.
Definition I64_xor (x y : Z) : Z := Z.lxor x y.

(** A shift by a negative amount or by 64 bits and more is undefined. *)
Definition shift_ok (w y : Z) : bool := (0 <=? y) && (y <? w).
Definition I64_lsl (x y : Z) : res Z := if shift_ok 64 y then Ok (s64 (Z.shiftl x y)) else Stuck.
Definition I64_asr (x y : Z) : res Z := if shift_ok 64 y then Ok (Z.shiftr x y) else Stuck.
Definition I64_lsr (x y : Z) : res Z := if shift_ok 64 y then Ok (s64 (Z.shiftr (u64 x) y)) else Stuck.

Definition I64_to_intnat (x : Z) : Z := swrap WORD x.
Definition I64_of_intnat (x : Z) : Z := x.
Definition I64_to_int32 (x : Z) : Z := swrap 32 x.
Definition I64_of_int32 (x : Z) : Z := x.
End Native.
End Native.

(** ** The interface *)

Class Int64Ops := {
  int64_t : Type;
  i64_literal : Z -> Z -> int64_t;
  i64_compare : int64_t -> int64_t -> Z;
  i64_ult : int64_t -> int64_t -> bool;
  i64_neg : int64_t -> int64_t;
  i64_add : int64_t -> int64_t -> int64_t;
  i64_sub : int64_t -> int64_t -> int64_t;
  i64_mul : int64_t -> int64_t -> int64_t;
  i64_is_zero : int64_t -> bool;
  i64_is_negative : int64_t -> bool;
  i64_is_min_int : int64_t -> bool;
  i64_is_minus_one : int64_t -> bool;
  i64_div : int64_t -> int64_t -> res int64_t;
  i64_mod : int64_t -> int64_t -> res int64_t;
  i64_udivmod : int64_t -> int64_t -> res (int64_t * int64_t);
  i64_and : int64_t -> int64_t -> int64_t;
  i64_or : int64_t -> int64_t -> int64_t;
  i64_xor : int64_t -> int64_t -> int64_t;
  i64_lsl : int64_t -> Z -> res int64_t;
  i64_asr : int64_t -> Z -> res int64_t;
  i64_lsr : int64_t -> Z -> res int64_t;
  i64_to_intnat : int64_t -> Z;
  i64_of_intnat : Z -> int64_t;
  i64_to_int32 : int64_t -> Z;
  i64_of_int32 : Z -> int64_t }.

Definition int64_native {A : Arch} : Int64Ops := {|
  int64_t := Z; i64_literal := Native.I64_literal; i64_compare := Native.I64_compare;
  i64_ult := Native.I64_ult; i64_neg := Native.I64_neg; i64_add := Native.I64_add;
  i64_sub := Native.I64_sub; i64_mul := Native.I64_mul; i64_is_zero := Native.I64_is_zero;
  i64_is_negative := Native.I64_is_negative; i64_is_min_int := Native.I64_is_min_int;
  i64_is_minus_one := Native.I64_is_minus_one; i64_div := Native.I64_div;
  i64_mod := Native.I64_mod; i64_udivmod := Native.I64_udivmod; i64_and := Native.I64_and;
  i64_or := Native.I64_or; i64_xor := Native.I64_xor; i64_lsl := Native.I64_lsl;
  i64_asr := Native.I64_asr; i64_lsr := Native.I64_lsr; i64_to_intnat := Native.I64_to_intnat;
  i64_of_intnat := Native.I64_of_intnat; i64_to_int32 := Native.I64_to_int32;
  i64_of_int32 := Native.I64_of_int32 |}.

Definition int64_emul : Int64Ops := {|
  int64_t := int64; i64_literal := I64_literal; i64_compare := I64_compare;
  i64_ult := I64_ult; i64_neg := I64_neg; i64_add := I64_add; i64_sub := I64_sub;
  i64_mul := I64_mul; i64_is_zero := I64_is_zero; i64_is_negative := I64_is_negative;
  i64_is_min_int := I64_is_min_int; i64_is_minus_one := I64_is_minus_one;
  i64_div := fun x y => of_option (I64_div x y); i64_mod := fun x y => of_option (I64_mod x y);
  i64_udivmod := fun x y => of_option (I64_udivmod x y); i64_and := I64_and;
  i64_or := I64_or; i64_xor := I64_xor; i64_lsl := fun x s => Ok (I64_lsl x s);
  i64_asr := fun x s => Ok (I64_asr x s); i64_lsr := fun x s => Ok (I64_lsr x s);
  i64_to_intnat := I64_to_int32; i64_of_intnat := I64_of_int32;
  i64_to_int32 := I64_to_int32; i64_of_int32 := I64_of_int32 |}.

(** What an implementation promises: [sv] is the signed value of a number.
    [sv_only] says that numbers are determined by their value. *)
Class Int64Ok {A : Arch} (O : Int64Ops) := {
  valid : int64_t -> Prop;
  sv : int64_t -> Z;
  sv_range : forall x, valid x -> sint 64 (sv x);
  sv_only : forall x y, valid x -> valid y -> sv x = sv y -> x = y;
  literal_ok : forall hi lo, uint 32 hi -> uint 32 lo ->
    valid (i64_literal hi lo) /\ sv (i64_literal hi lo) = swrap 64 (hi * 2 ^ 32 + lo);
  compare_ok : forall x y, valid x -> valid y -> i64_compare x y = sign_of (sv x ?= sv y);
  ult_ok : forall x y, valid x -> valid y -> i64_ult x y = (wrap 64 (sv x) <? wrap 64 (sv y));
  neg_ok : forall x, valid x -> valid (i64_neg x) /\ sv (i64_neg x) = swrap 64 (- sv x);
  add_ok : forall x y, valid x -> valid y ->
    valid (i64_add x y) /\ sv (i64_add x y) = swrap 64 (sv x + sv y);
  sub_ok : forall x y, valid x -> valid y ->
    valid (i64_sub x y) /\ sv (i64_sub x y) = swrap 64 (sv x - sv y);
  mul_ok : forall x y, valid x -> valid y ->
    valid (i64_mul x y) /\ sv (i64_mul x y) = swrap 64 (sv x * sv y);
  is_zero_ok : forall x, valid x -> i64_is_zero x = (sv x =? 0);
  is_negative_ok : forall x, valid x -> i64_is_negative x = (sv x <? 0);
  is_min_int_ok : forall x, valid x -> i64_is_min_int x = (sv x =? - 2 ^ 63);
  is_minus_one_ok : forall x, valid x -> i64_is_minus_one x = (sv x =? -1);
  div_ok : forall x y, valid x -> valid y -> sv y <> 0 -> (sv x <> - 2 ^ 63 \/ sv y <> -1) ->
    exists q, i64_div x y = Ok q /\ valid q /\ sv q = Z.quot (sv x) (sv y);
  mod_ok : forall x y, valid x -> valid y -> sv y <> 0 -> (sv x <> - 2 ^ 63 \/ sv y <> -1) ->
    exists r, i64_mod x y = Ok r /\ valid r /\ sv r = Z.rem (sv x) (sv y);
  udivmod_ok : forall x y, valid x -> valid y -> sv y <> 0 ->
    exists q r, i64_udivmod x y = Ok (q, r) /\ valid q /\ valid r /\
      sv q = swrap 64 (wrap 64 (sv x) / wrap 64 (sv y)) /\
      sv r = swrap 64 (wrap 64 (sv x) mod wrap 64 (sv y));
  and_ok : forall x y, valid x -> valid y ->
    valid (i64_and x y) /\ sv (i64_and x y) = Z.land (sv x) (sv y);
  or_ok : forall x y, valid x -> valid y ->
    valid (i64_or x y) /\ sv (i64_or x y) = Z.lor (sv x) (sv y);
  xor_ok : forall x y, valid x -> valid y ->
    valid (i64_xor x y) /\ sv (i64_xor x y) = Z.lxor (sv x) (sv y);
  lsl_ok : forall x s, valid x -> 0 <= s < 64 ->
    exists r, i64_lsl x s = Ok r /\ valid r /\ sv r = swrap 64 (sv x * 2 ^ s);
  asr_ok : forall x s, valid x -> 0 <= s < 64 ->
    exists r, i64_asr x s = Ok r /\ valid r /\ sv r = sv x / 2 ^ s;
  lsr_ok : forall x s, valid x -> 0 <= s < 64 ->
    exists r, i64_lsr x s = Ok r /\ valid r /\ sv r = swrap 64 (wrap 64 (sv x) / 2 ^ s);
  to_int32_ok : forall x, valid x -> i64_to_int32 x = swrap 32 (sv x);
  of_int32_ok : forall z, sint 32 z -> valid (i64_of_int32 z) /\ sv (i64_of_int32 z) = z;
  to_intnat_ok : forall x, valid x -> i64_to_intnat x = swrap WORD (sv x);
  of_intnat_ok : forall z, sint WORD z -> valid (i64_of_intnat z) /\ sv (i64_of_intnat z) = z }.

(** ** int64_emul.h satisfies the interface *)

Lemma sval_swrap x z : uval x = wrap 64 z -> sval x = swrap 64 z.
Proof. intros E. unfold sval. rewrite E. apply swrap_wrap. lia. Qed.

Lemma uval_sval x : exists q, uval x = sval x + q * 2 ^ 64.
Proof.
  destruct (swrap_eqm 64 (uval x) ltac:(lia)) as [q E]. exists (- q). unfold sval. lia.
Qed.

Lemma uval_wrap x : ok64 x -> uval x = wrap 64 (sval x).
Proof.
  intros Hx. unfold sval. rewrite wrap_swrap by lia. symmetry.
  apply wrap_small, (uval_range x Hx).
Qed.

Lemma sval_inj x y : ok64 x -> ok64 y -> sval x = sval y -> x = y.
Proof. intros Hx Hy E. apply uval_inj; auto. rewrite !uval_wrap by auto. now rewrite E. Qed.

(** A result specified on the unsigned values, read on the signed ones. *)
Lemma sval_op1 x z f : uval z = wrap 64 (f (uval x)) ->
  (forall a q, exists r, f (a + q * 2 ^ 64) = f a + r * 2 ^ 64) -> sval z = swrap 64 (f (sval x)).
Proof.
  intros E Hf. rewrite (sval_swrap _ _ E). destruct (uval_sval x) as [q ->].
  destruct (Hf (sval x) q) as [r ->]. now apply swrap_congr with r.
Qed.

Lemma sval_op2 x y z f : uval z = wrap 64 (f (uval x) (uval y)) ->
  (forall a q b p, exists r, f (a + q * 2 ^ 64) (b + p * 2 ^ 64) = f a b + r * 2 ^ 64) ->
  sval z = swrap 64 (f (sval x) (sval y)).
Proof.
  intros E Hf. rewrite (sval_swrap _ _ E). destruct (uval_sval x) as [q ->], (uval_sval y) as [p ->].
  destruct (Hf (sval x) q (sval y) p) as [r ->]. now apply swrap_congr with r.
Qed.

Lemma sval_bitop x y z op f :
  (forall a b i, Z.testbit (op a b) i = f (Z.testbit a i) (Z.testbit b i)) ->
  uval z = op (uval x) (uval y) -> sval z = op (sval x) (sval y).
Proof.
  intros Hop E. unfold sval. rewrite E. symmetry. apply (swrap_bitop 64 op f); auto. lia.
Qed.

Lemma quot_bound a b : sint 64 a -> sint 64 b -> b <> 0 -> (a <> - 2 ^ 63 \/ b <> -1) ->
  sint 64 (Z.quot a b).
Proof.
  intros Ha Hb Hnz Hov. unfold sint in *. change (64 - 1) with 63 in *. rewrite Z.quot_div by auto.
  pose proof (Z.div_pos (Z.abs a) (Z.abs b) ltac:(lia) ltac:(lia)).
  assert (Z.abs a / Z.abs b <= Z.abs a) by (apply Z.div_le_upper_bound; nia).
  assert (Z.abs b >= 2 -> Z.abs a / Z.abs b <= 2 ^ 62).
  { intros. apply Z.div_le_upper_bound; nia. }
  destruct (Z.eq_dec (Z.abs b) 1) as [E | E].
  - rewrite E, Z.div_1_r in *. lia.
  - specialize (H1 ltac:(lia)). nia.
Qed.

Lemma rem_bound a b : sint 64 a -> b <> 0 -> sint 64 (Z.rem a b).
Proof.
  intros Ha Hb. unfold sint in *. rewrite Z.rem_mod by auto.
  pose proof (Z.mod_pos_bound (Z.abs a) (Z.abs b) ltac:(lia)).
  pose proof (Z.mod_le (Z.abs a) (Z.abs b) ltac:(lia) ltac:(lia)). nia.
Qed.

Lemma swrap_small64 z : sint 64 z -> swrap 64 z = z.
Proof. intros H. apply swrap_small; [lia | exact H]. Qed.

Lemma sint_div_pow2 w z s : 0 < w -> 0 <= s -> sint w z -> sint w (z / 2 ^ s).
Proof.
  intros Hw Hs [H1 H2]. pose proof (pow2_pos s Hs). pose proof (pow2_pos (w - 1) ltac:(lia)).
  split; [apply Z.div_le_lower_bound; nia | apply Z.div_lt_upper_bound; nia].
Qed.

Section Emul.
Context {A : Arch} (Harch : ARCH_SIXTYFOUR = false).

Lemma emul_literal hi lo : uint 32 hi -> uint 32 lo ->
  ok64 (I64_literal hi lo) /\ sval (I64_literal hi lo) = swrap 64 (hi * 2 ^ 32 + lo).
Proof. intros H1 H2. split; [split; auto | reflexivity]. Qed.

Lemma emul_div x y : ok64 x -> ok64 y -> sval y <> 0 -> (sval x <> - 2 ^ 63 \/ sval y <> -1) ->
  exists q, of_option (I64_div x y) = Ok q /\ ok64 q /\ sval q = Z.quot (sval x) (sval y).
Proof.
  intros Hx Hy Hnz Hov. destruct (I64_div_spec x y Hx Hy Hnz) as (q & -> & Hq & Eq).
  exists q. conj; auto. rewrite (sval_swrap _ _ Eq). apply swrap_small64, quot_bound; auto.
  all: now apply sval_range.
Qed.

Lemma emul_mod x y : ok64 x -> ok64 y -> sval y <> 0 -> (sval x <> - 2 ^ 63 \/ sval y <> -1) ->
  exists r, of_option (I64_mod x y) = Ok r /\ ok64 r /\ sval r = Z.rem (sval x) (sval y).
Proof.
  intros Hx Hy Hnz _. destruct (I64_mod_spec x y Hx Hy Hnz) as (r & -> & Hr & Er).
  exists r. conj; auto. rewrite (sval_swrap _ _ Er). apply swrap_small64, rem_bound; auto.
  now apply sval_range.
Qed.

Lemma emul_udivmod x y : ok64 x -> ok64 y -> sval y <> 0 ->
  exists q r, of_option (I64_udivmod x y) = Ok (q, r) /\ ok64 q /\ ok64 r /\
    sval q = swrap 64 (wrap 64 (sval x) / wrap 64 (sval y)) /\
    sval r = swrap 64 (wrap 64 (sval x) mod wrap 64 (sval y)).
Proof.
  intros Hx Hy Hnz. pose proof (uval_range y Hy).
  assert (0 < uval y).
  { destruct (Z.eq_dec (uval y) 0) as [E|]; [|lia]. exfalso. apply Hnz. unfold sval. now rewrite E. }
  destruct (I64_udivmod_spec x y Hx Hy) as (q & r & -> & Hq & Hr & Eq & Er); auto.
  exists q, r. rewrite <- !uval_wrap by auto. conj; auto; unfold sval; congruence.
Qed.

Lemma emul_shift (op : int64 -> Z -> int64) (g : int64 -> Z -> Z) x s : 0 <= s < 64 -> ok64 (op x s) /\ uval (op x s) = wrap 64 (g x (s mod 64)) ->
  exists r, Ok (op x s) = Ok r /\ ok64 r /\ sval r = swrap 64 (g x s).
Proof.
  intros Hs [H1 H2]. rewrite Z.mod_small in H2 by lia. exists (op x s). conj; auto.
  now apply sval_swrap.
Qed.

Lemma emul_lsl x s : ok64 x -> 0 <= s < 64 ->
  exists r, Ok (I64_lsl x s) = Ok r /\ ok64 r /\ sval r = swrap 64 (sval x * 2 ^ s).
Proof.
  intros Hx Hs. destruct (emul_shift I64_lsl (fun x k => uval x * 2 ^ k) x s Hs (I64_lsl_spec x s Hx)) as (r & E & Hr & Er).
  exists r. conj; auto. rewrite Er. destruct (uval_sval x) as [q ->].
  apply swrap_congr with (q * 2 ^ s). ring.
Qed.

Lemma emul_asr x s : ok64 x -> 0 <= s < 64 ->
  exists r, Ok (I64_asr x s) = Ok r /\ ok64 r /\ sval r = sval x / 2 ^ s.
Proof.
  intros Hx Hs. destruct (emul_shift I64_asr (fun x k => sval x / 2 ^ k) x s Hs (I64_asr_spec x s Hx)) as (r & E & Hr & Er).
  exists r. conj; auto. rewrite Er. apply swrap_small64, sint_div_pow2; try lia.
  now apply sval_range.
Qed.

Lemma emul_lsr x s : ok64 x -> 0 <= s < 64 ->
  exists r, Ok (I64_lsr x s) = Ok r /\ ok64 r /\ sval r = swrap 64 (wrap 64 (sval x) / 2 ^ s).
Proof.
  intros Hx Hs. destruct (I64_lsr_spec x s Hx) as [H1 H2]. rewrite Z.mod_small in H2 by lia.
  exists (I64_lsr x s). rewrite <- uval_wrap by auto. conj; auto. unfold sval. now rewrite H2.
Qed.

Lemma emul_of_int32 z : sint 32 z -> ok64 (I64_of_int32 z) /\ sval (I64_of_int32 z) = z.
Proof.
  intros Hz. unfold I64_of_int32. rewrite u32_of_signed by exact Hz.
  assert (ok : ok64 (I64 (if z <? 0 then M32 - 1 else 0) (u32 z))).
  { split; [|apply ok_u32]. destruct (z <? 0); split; cbn; lia. }
  split; [exact ok|]. apply sval_of_wrap; [|unfold sint in Hz; lia].
  destruct (u32_eq z) as (q & E & R). unfold sint in Hz. destruct (Z.ltb_spec z 0).
  - apply (uval_unique _ _ 1 ok). i64. lia.
  - apply (uval_unique _ _ 0 ok). i64. lia.
Qed.

Lemma emul_to_int32 x : ok64 x -> I64_to_int32 x = swrap 32 (sval x).
Proof.
  intros Hx. rewrite sval_eq by auto. unfold I64_to_int32, s32. symmetry.
  apply swrap_congr with (s32 (h x)). unfold M32, s32. lia.
Qed.

Lemma WORD_32 : WORD = 32.
Proof. unfold WORD. now rewrite Harch. Qed.

Definition int64_emul_ok : Int64Ok int64_emul.
Proof.
  refine {| valid := ok64 : @int64_t int64_emul -> Prop; sv := sval : @int64_t int64_emul -> Z |};
    cbn [int64_emul int64_t i64_literal i64_compare i64_ult i64_neg i64_add i64_sub i64_mul
         i64_is_zero i64_is_negative i64_is_min_int i64_is_minus_one i64_div i64_mod i64_udivmod
         i64_and i64_or i64_xor i64_lsl i64_asr i64_lsr i64_to_intnat i64_of_intnat
         i64_to_int32 i64_of_int32].
  - exact sval_range.
  - exact sval_inj.
  - exact emul_literal.
  - exact I64_compare_spec.
  - intros x y Hx Hy. rewrite I64_ult_spec, <- !uval_wrap; auto.
  - intros x Hx. destruct (I64_neg_spec x Hx) as [H1 H2]. split; auto.
    apply (sval_op1 _ _ Z.opp H2). intros a q. exists (- q). ring.
  - intros x y Hx Hy. destruct (I64_add_spec x y Hx Hy) as [H1 H2]. split; auto.
    apply (sval_op2 _ _ _ Z.add H2). intros a q b p. exists (q + p). ring.
  - intros x y Hx Hy. destruct (I64_sub_spec x y Hx Hy) as [H1 H2]. split; auto.
    apply (sval_op2 _ _ _ Z.sub H2). intros a q b p. exists (q - p). ring.
  - intros x y Hx Hy. destruct (I64_mul_spec x y Hx Hy) as [H1 H2]. split; auto.
    apply (sval_op2 _ _ _ Z.mul H2). intros a q b p. exists (q * b + a * p + q * p * 2 ^ 64). ring.
  - intros x Hx. rewrite I64_is_zero_spec, (uval_wrap x) by auto.
    destruct (sval_cases x Hx) as [(_ & E & R) | (_ & E & R)];
      rewrite <- uval_wrap, E by auto; unfold M64; zbool; lia.
  - exact I64_is_negative_spec.
  - exact I64_is_min_int_spec.
  - exact I64_is_minus_one_spec.
  - exact emul_div.
  - exact emul_mod.
  - exact emul_udivmod.
  - intros x y Hx Hy. destruct (I64_and_spec x y Hx Hy) as [H1 H2].
    split; auto. exact (sval_bitop _ _ _ _ _ Z.land_spec H2).
  - intros x y Hx Hy. destruct (I64_or_spec x y Hx Hy) as [H1 H2].
    split; auto. exact (sval_bitop _ _ _ _ _ Z.lor_spec H2).
  - intros x y Hx Hy. destruct (I64_xor_spec x y Hx Hy) as [H1 H2].
    split; auto. exact (sval_bitop _ _ _ _ _ Z.lxor_spec H2).
  - exact emul_lsl.
  - exact emul_asr.
  - exact emul_lsr.
  - exact emul_to_int32.
  - exact emul_of_int32.
  - rewrite WORD_32. exact emul_to_int32.
  - rewrite WORD_32. exact emul_of_int32.
Defined.
End Emul.

(** ** int64_native.h satisfies the interface *)

Lemma sint_bitop w op f x y : 0 < w ->
  (forall a b i, Z.testbit (op a b) i = f (Z.testbit a i) (Z.testbit b i)) ->
  sint w x -> sint w y -> sint w (op x y).
Proof.
  intros Hw Hop Hx Hy. rewrite <- (swrap_small w x), <- (swrap_small w y) by auto.
  rewrite (swrap_bitop w op f) by auto. now apply swrap_range.
Qed.

Section NativeOk.
Context {A : Arch}.

Lemma native_s64 z : sint 64 (Native.s64 z).
Proof. apply swrap_range. lia. Qed.

Lemma native_div_guard x y : y <> 0 -> (x <> - 2 ^ 63 \/ y <> -1) ->
  (y =? 0) = false /\ (x =? Native.min_int64) && (y =? -1) = false.
Proof.
  intros Hy Hov. split; [now apply Z.eqb_neq|]. unfold Native.min_int64.
  destruct (Z.eqb_spec x (- 2 ^ 63)), (Z.eqb_spec y (-1)); auto. lia.
Qed.

Lemma u64_zero z : sint 64 z -> (Native.u64 z =? 0) = (z =? 0).
Proof.
  intros Hz. unfold sint in Hz. unfold Native.u64.
  destruct (wrap_cases 64 z ltac:(lia) ltac:(lia)) as [[? ->] | [[? ->] | [? ->]]]; zbool; lia.
Qed.

Lemma shift_ok_true w s : 0 <= s < w -> Native.shift_ok w s = true.
Proof. intros. unfold Native.shift_ok. zbool; auto; lia. Qed.

Definition int64_native_ok : Int64Ok int64_native.
Proof.
  refine {| valid := sint 64 : @int64_t int64_native -> Prop;
            sv := (fun x => x) : @int64_t int64_native -> Z |};
    cbn [int64_native int64_t i64_literal i64_compare i64_ult i64_neg i64_add i64_sub i64_mul
         i64_is_zero i64_is_negative i64_is_min_int i64_is_minus_one i64_div i64_mod i64_udivmod
         i64_and i64_or i64_xor i64_lsl i64_asr i64_lsr i64_to_intnat i64_of_intnat
         i64_to_int32 i64_of_int32].
  - auto.
  - auto.
  - intros hi lo Hh Hl. split; [apply native_s64|]. unfold Native.I64_literal, Native.s64.
    now rewrite Z.shiftl_mul_pow2, lor_shiftl_add by (auto; lia).
  - intros x y _ _. unfold Native.I64_compare.
    destruct (Z.compare_spec x y); zbool; cbn; lia.
  - reflexivity.
  - intros x _. split; [apply native_s64 | reflexivity].
  - intros x y _ _. split; [apply native_s64 | reflexivity].
  - intros x y _ _. split; [apply native_s64 | reflexivity].
  - intros x y _ _. split; [apply native_s64 | reflexivity].
  - reflexivity.
  - reflexivity.
  - reflexivity.
  - reflexivity.
  - intros x y Hx Hy Hnz Hov. unfold Native.I64_div.
    destruct (native_div_guard x y Hnz Hov) as [-> ->]. eexists; conj; eauto using quot_bound.
  - intros x y Hx Hy Hnz Hov. unfold Native.I64_mod.
    destruct (native_div_guard x y Hnz Hov) as [-> ->]. eexists; conj; eauto using rem_bound.
  - intros x y Hx Hy Hnz. unfold Native.I64_udivmod. rewrite u64_zero by auto.
    rewrite (proj2 (Z.eqb_neq y 0) Hnz). do 2 eexists. conj; eauto using native_s64.
  - intros x y Hx Hy. split; auto. apply (sint_bitop 64 _ _ _ _ ltac:(lia) Z.land_spec); auto.
  - intros x y Hx Hy. split; auto. apply (sint_bitop 64 _ _ _ _ ltac:(lia) Z.lor_spec); auto.
  - intros x y Hx Hy. split; auto. apply (sint_bitop 64 _ _ _ _ ltac:(lia) Z.lxor_spec); auto.
  - intros x s Hx Hs. unfold Native.I64_lsl. rewrite shift_ok_true by auto.
    rewrite Z.shiftl_mul_pow2 by lia. eexists; conj; eauto using native_s64.
  - intros x s Hx Hs. unfold Native.I64_asr. rewrite shift_ok_true by auto.
    rewrite Z.shiftr_div_pow2 by lia. eexists; conj; eauto.
    apply sint_div_pow2; auto; lia.
  - intros x s Hx Hs. unfold Native.I64_lsr. rewrite shift_ok_true by auto.
    rewrite Z.shiftr_div_pow2 by lia. eexists; conj; eauto using native_s64.
  - reflexivity.
  - intros z Hz. split; auto. unfold Native.I64_of_int32, sint in *. lia.
  - reflexivity.
  - intros z Hz. split; auto. unfold Native.I64_of_intnat, sint in *.
    pose proof (Z.pow_le_mono_r 2 (WORD - 1) (64 - 1) ltac:(lia)).
    pose proof WORD_pos. lia.
Defined.
End NativeOk.

(** ** Any two implementations agree

    [agree] relates the representations of one number in two implementations;
    [agree_res] two results that are both defined and related. *)
Section Bisim.
Context {A : Arch} {O1 O2 : Int64Ops} (K1 : Int64Ok O1) (K2 : Int64Ok O2).

Definition agree (x1 : @int64_t O1) (x2 : @int64_t O2) : Prop :=
  valid x1 /\ valid x2 /\ sv x1 = sv x2.

Definition agree_res (r1 : res (@int64_t O1)) (r2 : res (@int64_t O2)) : Prop :=
  exists z1 z2, r1 = Ok z1 /\ r2 = Ok z2 /\ agree z1 z2.

(** Two operations specified by the same function of the values. *)
Lemma agree_fun (z1 : @int64_t O1) (z2 : @int64_t O2) v :
  valid z1 /\ sv z1 = v -> valid z2 /\ sv z2 = v -> agree z1 z2.
Proof. intros [V1 E1] [V2 E2]. unfold agree. conj; auto. congruence. Qed.

Lemma agree_res_fun r1 r2 v :
  (exists z, r1 = Ok z /\ valid z /\ sv z = v) -> (exists z, r2 = Ok z /\ valid z /\ sv z = v) ->
  agree_res r1 r2.
Proof.
  intros (z1 & -> & H1) (z2 & -> & H2). exists z1, z2. conj; auto. now apply agree_fun with v.
Qed.

Lemma agree_arith x1 x2 y1 y2 : agree x1 x2 -> agree y1 y2 ->
  agree (i64_neg x1) (i64_neg x2) /\ agree (i64_add x1 y1) (i64_add x2 y2) /\
  agree (i64_sub x1 y1) (i64_sub x2 y2) /\ agree (i64_mul x1 y1) (i64_mul x2 y2) /\
  agree (i64_and x1 y1) (i64_and x2 y2) /\ agree (i64_or x1 y1) (i64_or x2 y2) /\
  agree (i64_xor x1 y1) (i64_xor x2 y2).
Proof.
  intros (V1 & V2 & E) (W1 & W2 & F).
  conj; eapply agree_fun;
    eauto using neg_ok, add_ok, sub_ok, mul_ok, and_ok, or_ok, xor_ok.
  all: rewrite E, ?F; eauto using neg_ok, add_ok, sub_ok, mul_ok, and_ok, or_ok, xor_ok.
Qed.

Lemma agree_compare x1 x2 y1 y2 : agree x1 x2 -> agree y1 y2 ->
  i64_compare x1 y1 = i64_compare x2 y2 /\ i64_ult x1 y1 = i64_ult x2 y2.
Proof.
  intros (V1 & V2 & E) (W1 & W2 & F). rewrite !compare_ok, !ult_ok, E, F by auto. auto.
Qed.

Lemma agree_div x1 x2 y1 y2 : agree x1 x2 -> agree y1 y2 ->
  sv y1 <> 0 -> (sv x1 <> - 2 ^ 63 \/ sv y1 <> -1) ->
  agree_res (i64_div x1 y1) (i64_div x2 y2) /\ agree_res (i64_mod x1 y1) (i64_mod x2 y2).
Proof.
  intros (V1 & V2 & E) (W1 & W2 & F) Hnz Hov. split.
  - apply agree_res_fun with (Z.quot (sv x1) (sv y1)); [now apply div_ok|].
    rewrite E, F. apply div_ok; auto; congruence.
  - apply agree_res_fun with (Z.rem (sv x1) (sv y1)); [now apply mod_ok|].
    rewrite E, F. apply mod_ok; auto; congruence.
Qed.

Lemma agree_shift x1 x2 s : agree x1 x2 -> 0 <= s < 64 ->
  agree_res (i64_lsl x1 s) (i64_lsl x2 s) /\ agree_res (i64_asr x1 s) (i64_asr x2 s) /\
  agree_res (i64_lsr x1 s) (i64_lsr x2 s).
Proof.
  intros (V1 & V2 & E) Hs. conj.
  - apply agree_res_fun with (swrap 64 (sv x1 * 2 ^ s)); [|rewrite E]; now apply lsl_ok.
  - apply agree_res_fun with (sv x1 / 2 ^ s); [|rewrite E]; now apply asr_ok.
  - apply agree_res_fun with (swrap 64 (wrap 64 (sv x1) / 2 ^ s)); [|rewrite E]; now apply lsr_ok.
Qed.

Lemma agree_udivmod x1 x2 y1 y2 : agree x1 x2 -> agree y1 y2 -> sv y1 <> 0 ->
  exists q1 r1 q2 r2, i64_udivmod x1 y1 = Ok (q1, r1) /\ i64_udivmod x2 y2 = Ok (q2, r2) /\ agree q1 q2 /\ agree r1 r2.
Proof.
  intros (V1 & V2 & E) (W1 & W2 & F) Hnz. destruct (udivmod_ok x1 y1 V1 W1 Hnz) as (q1 & r1 & E1 & Q1 & R1 & S1 & T1).
  destruct (udivmod_ok x2 y2 V2 W2 ltac:(congruence)) as (q2 & r2 & E2 & Q2 & R2 & S2 & T2).
  exists q1, r1, q2, r2. unfold agree. rewrite S1, T1, S2, T2, E, F. conj; auto.
Qed.

Lemma agree_tests x1 x2 : agree x1 x2 ->
  i64_is_zero x1 = i64_is_zero x2 /\ i64_is_negative x1 = i64_is_negative x2 /\
  i64_is_min_int x1 = i64_is_min_int x2 /\ i64_is_minus_one x1 = i64_is_minus_one x2 /\
  i64_to_int32 x1 = i64_to_int32 x2 /\ i64_to_intnat x1 = i64_to_intnat x2.
Proof.
  intros (V1 & V2 & E).
  rewrite !is_zero_ok, !is_negative_ok, !is_min_int_ok, !is_minus_one_ok, !to_int32_ok, !to_intnat_ok, E by auto. conj; reflexivity.
Qed.

End Bisim.

(** C31. The software 64-bit integers of int64_emul.h compute what the native
    ones of int64_native.h do: applied to representations of the same numbers,
    negation, addition, subtraction, multiplication, the bitwise operations,
    division, remainder (where C defines them), unsigned division with remainder
    and the three shifts by 0..63 give representations of the same number, and
    so do literals and the conversions from int32 and intnat; the comparisons,
    the four tests and the conversions to int32 and intnat agree.  The
    conversions from and to double are not modelled. *)
Theorem int64_emul_refines_native {A : Arch} (H32 : ARCH_SIXTYFOUR = false)
    (x y : int64) (nx ny s hi lo z n : Z) :
  let E := int64_emul_ok H32 in
  agree E int64_native_ok x nx -> agree E int64_native_ok y ny -> 0 <= s < 64 ->
  agree E int64_native_ok (I64_neg x) (Native.I64_neg nx) /\
  agree E int64_native_ok (I64_add x y) (Native.I64_add nx ny) /\
  agree E int64_native_ok (I64_sub x y) (Native.I64_sub nx ny) /\
  agree E int64_native_ok (I64_mul x y) (Native.I64_mul nx ny) /\
  agree E int64_native_ok (I64_and x y) (Native.I64_and nx ny) /\
  agree E int64_native_ok (I64_or x y) (Native.I64_or nx ny) /\
  agree E int64_native_ok (I64_xor x y) (Native.I64_xor nx ny) /\
  I64_compare x y = Native.I64_compare nx ny /\ I64_ult x y = Native.I64_ult nx ny /\
  (ny <> 0 -> nx <> - 2 ^ 63 \/ ny <> -1 ->
   agree_res E int64_native_ok (of_option (I64_div x y)) (Native.I64_div nx ny) /\
   agree_res E int64_native_ok (of_option (I64_mod x y)) (Native.I64_mod nx ny)) /\
  agree_res E int64_native_ok (Ok (I64_lsl x s)) (Native.I64_lsl nx s) /\
  agree_res E int64_native_ok (Ok (I64_asr x s)) (Native.I64_asr nx s) /\
  agree_res E int64_native_ok (Ok (I64_lsr x s)) (Native.I64_lsr nx s) /\
  (ny <> 0 -> exists q r nq nr, I64_udivmod x y = Some (q, r) /\ Native.I64_udivmod nx ny = Ok (nq, nr) /\
     agree E int64_native_ok q nq /\ agree E int64_native_ok r nr) /\
  I64_is_zero x = Native.I64_is_zero nx /\ I64_is_negative x = Native.I64_is_negative nx /\
  I64_is_min_int x = Native.I64_is_min_int nx /\ I64_is_minus_one x = Native.I64_is_minus_one nx /\
  I64_to_int32 x = Native.I64_to_int32 nx /\ I64_to_int32 x = Native.I64_to_intnat nx /\
  (uint 32 hi -> uint 32 lo -> agree E int64_native_ok (I64_literal hi lo) (Native.I64_literal hi lo)) /\
  (sint 32 z -> agree E int64_native_ok (I64_of_int32 z) (Native.I64_of_int32 z)) /\
  (sint WORD n -> agree E int64_native_ok (I64_of_int32 n) (Native.I64_of_intnat n)).
Proof.
  intros E Hx Hy Hs.
  destruct (agree_arith _ _ _ _ _ _ Hx Hy) as (? & ? & ? & ? & ? & ? & ?).
  destruct (agree_compare _ _ _ _ _ _ Hx Hy).
  destruct (agree_shift _ _ _ _ _ Hx Hs) as (? & ? & ?).
  destruct (agree_tests _ _ _ _ Hx) as (? & ? & ? & ? & ? & ?).
  pose proof Hx as (_ & _ & Ex). pose proof Hy as (_ & _ & Ey). cbn [sv int64_native_ok] in Ex, Ey.
  conj; try assumption.
  - intros Hnz Hov. apply (agree_div _ _ _ _ _ _ Hx Hy); congruence.
  - intros Hnz. destruct (agree_udivmod _ _ _ _ _ _ Hx Hy) as (q & r & nq & nr & E1 & E2 & E3); [congruence|].
    exists q, r, nq, nr. cbn [i64_udivmod int64_emul] in E1. destruct (I64_udivmod x y); [|discriminate]. injection E1 as ->. auto.
  - intros Hh Hl. eapply agree_fun; [apply (emul_literal hi lo Hh Hl) | now apply (@literal_ok _ _ int64_native_ok)].
  - intros Hz. eapply agree_fun; [apply (emul_of_int32 z Hz) | now apply (@of_int32_ok _ _ int64_native_ok)].
  - intros Hn. eapply agree_fun; [|now apply (@of_intnat_ok _ _ int64_native_ok)].
    apply emul_of_int32. unfold WORD in Hn. now rewrite H32 in Hn.
Qed.

Lemma int64_emul_refines_native_witness :
  let E := @int64_emul_ok arch32 eq_refl in
  agree E int64_native_ok (I64_mul (I64 0 7) (I64 0xFFFFFFFF 0xFFFFFFFE)) (-14) /\
  agree_res E int64_native_ok (Ok (I64_asr (I64 0xFFFFFFFF 0xFFFFFFFE) 1)) (Ok (-1)).
Proof.
  intros E.
  assert (H7 : agree E int64_native_ok (I64 0 7) 7) by (repeat split; cbn; lia).
  assert (H2 : agree E int64_native_ok (I64 0xFFFFFFFF 0xFFFFFFFE) (-2)) by (repeat split; cbn; lia).
  split.
  - apply (@int64_emul_refines_native arch32 eq_refl _ _ _ _ 1 0 0 0 0 H7 H2 ltac:(lia)).
  - apply (@int64_emul_refines_native arch32 eq_refl _ _ _ _ 1 0 0 0 0 H2 H7 ltac:(lia)).
Defined.
