(* ===== verification/ParseInt.v ===== *)
(** ParseInt: integer literals, src/inline-more/byterun/ints.c lines 26-130 and
    542-576: [parse_intnat], [caml_int_of_string], [caml_int32_of_string],
    [caml_nativeint_of_string] and [caml_int64_of_string].  Each is proved to
    accept exactly the literals whose unbounded value fits, and to return it. *)
From Stdlib Require Import ZArith Lia Bool Ascii String List.
From S2P Require Import Prelude Mlvalues Int64Emul Int64.
Import ListNotations.
Local Open Scope Z_scope.

(** ** The code

    A [char *] into an OCaml string is the list of the bytes from there to the
    end of the string; the byte after the last one is 0 (alloc.c fills the last
    word of a string so). *)

Definition parse_sign_and_base (p : list Z) : list Z * Z * Z :=
  let '(sign, p) := if hd 0 p =? chr "-" then (-1, tl p) else (1, p) in
  if hd 0 p =? chr "0" then
    let c := nth 1 p 0 in
    if (c =? chr "x") || (c =? chr "X") then (skipn 2 p, 16, sign)
    else if (c =? chr "o") || (c =? chr "O") then (skipn 2 p, 8, sign)
    else if (c =? chr "b") || (c =? chr "B") then (skipn 2 p, 2, sign)
    else (p, 10, sign)
  else (p, 10, sign).

Definition parse_digit (c : Z) : Z :=
  if (chr "0" <=? c) && (c <=? chr "9") then c - chr "0"
  else if (chr "A" <=? c) && (c <=? chr "F") then c - chr "A" + 10
  else if (chr "a" <=? c) && (c <=? chr "f") then c - chr "a" + 10
  else -1.

Definition int_of_string_failure {T} : res T := Raise (Failure "int_of_string").

(** The digit loop on a [w]-bit accumulator; returns the pointer at the break
    and the accumulator. *)
Fixpoint digits_loop (w base threshold : Z) (p : list Z) (r : Z) : res (list Z * Z) :=
  match p with
  | [] => Ok (p, r)
  | c :: p' =>
      if c =? chr "_" then digits_loop w base threshold p' r
      else
        let d := parse_digit c in
        if (d <? 0) || (base <=? d) then Ok (p, r)
        else if threshold <? r then int_of_string_failure
        else
          let r := wrap w (base * r + d) in
          if r <? wrap w d then int_of_string_failure
          else digits_loop w base threshold p' r
  end.

Section ParseIntnat.
Context {A : Arch}.

Definition parse_intnat (s : list Z) (nbits : Z) : res Z :=
  let '(p, base, sign) := parse_sign_and_base s in
  let threshold := wrap WORD (-1) / base in
  let d := parse_digit (hd 0 p) in
  if (d <? 0) || (base <=? d) then int_of_string_failure
  else
    let! (p, r) := digits_loop WORD base threshold (tl p) d in
    if negb (match p with [] => true | _ => false end) then int_of_string_failure
    else if (if base =? 10 then
               if 0 <=? sign then Z.shiftl 1 (nbits - 1) <=? r
               else Z.shiftl 1 (nbits - 1) <? r
             else (nbits <? WORD) && (Z.shiftl 1 nbits <=? r))
    then int_of_string_failure
    else Ok (if sign <? 0 then swrap WORD (- swrap WORD r) else swrap WORD r).

Definition caml_int_of_string (s : list Z) : res Z :=
  let! n := parse_intnat s (WORD - 1) in Ok (Val_long n).
Definition caml_int32_of_string (s : list Z) : res Z :=
  let! n := parse_intnat s 32 in Ok (swrap 32 n).
Definition caml_nativeint_of_string (s : list Z) : res Z :=
  parse_intnat s WORD.
End ParseIntnat.

Section ParseInt64.
Context `{O : Int64Ops}.

Fixpoint int64_digits_loop (base : Z) (threshold : int64_t) (p : list Z) (r : int64_t)
    : res (list Z * int64_t) :=
  match p with
  | [] => Ok (p, r)
  | c :: p' =>
      if c =? chr "_" then int64_digits_loop base threshold p' r
      else
        let d := parse_digit c in
        if (d <? 0) || (base <=? d) then Ok (p, r)
        else if i64_ult threshold r then int_of_string_failure
        else
          let r := i64_add (i64_mul (i64_of_int32 base) r) (i64_of_int32 d) in
          if i64_ult r (i64_of_int32 d) then int_of_string_failure
          else int64_digits_loop base threshold p' r
  end.

Definition caml_int64_of_string (s : list Z) : res int64_t :=
  let max_uint64 := i64_literal 0xFFFFFFFF 0xFFFFFFFF in
  let max_int64_pos := i64_literal 0x7FFFFFFF 0xFFFFFFFF in
  let max_int64_neg := i64_literal 0x80000000 0x00000000 in
  let '(p, base, sign) := parse_sign_and_base s in
  let! (threshold, _) := i64_udivmod max_uint64 (i64_of_int32 base) in
  let d := parse_digit (hd 0 p) in
  if (d <? 0) || (base <=? d) then int_of_string_failure
  else
    let! (p, r) := int64_digits_loop base threshold (tl p) (i64_of_int32 d) in
    if negb (match p with [] => true | _ => false end) then int_of_string_failure
    else if (base =? 10) && i64_ult (if 0 <=? sign then max_int64_pos else max_int64_neg) r
    then int_of_string_failure
    else Ok (if sign <? 0 then i64_neg r else r).
End ParseInt64.

(** ** Specification: the unbounded value of a literal *)

Fixpoint lit_value (base : Z) (p : list Z) (acc : Z) : option Z :=
  match p with
  | [] => Some acc
  | c :: p' =>
      if c =? chr "_" then lit_value base p' acc
      else let d := parse_digit c in
           if (d <? 0) || (base <=? d) then None else lit_value base p' (base * acc + d)
  end.

(** Sign, base and magnitude of a literal: sign and base prefix, a digit, then
    digits and underscores. *)
Definition literal (s : list Z) : option (Z * Z * Z) :=
  let '(p, base, sign) := parse_sign_and_base s in
  let d := parse_digit (hd 0 p) in
  if (d <? 0) || (base <=? d) then None
  else match lit_value base (tl p) d with Some v => Some (sign, base, v) | None => None end.

(** Decimal literals denote signed numbers, the others also their unsigned
    reading. *)
Definition fits (nbits sign base v : Z) : bool :=
  if base =? 10 then (if 0 <=? sign then v <? 2 ^ (nbits - 1) else v <=? 2 ^ (nbits - 1))
  else v <? 2 ^ nbits.

Definition int_of_string_spec (w nbits : Z) (s : list Z) : res Z :=
  match literal s with
  | Some (sign, base, v) =>
      if fits nbits sign base v then Ok (swrap w (sign * v)) else int_of_string_failure
  | None => int_of_string_failure
  end.

(** ** Proofs *)

Lemma parse_sign_and_base_base s p base sign :
  parse_sign_and_base s = (p, base, sign) ->
  (base = 2 \/ base = 8 \/ base = 10 \/ base = 16) /\ (sign = 1 \/ sign = -1).
Proof.
  unfold parse_sign_and_base.
  destruct (hd 0 s =? chr "-"); cbn zeta;
    repeat match goal with |- context [if ?b then _ else _] => destruct b end;
    intros [= _ <- <-]; auto 6.
Qed.

Lemma parse_digit_range c : -1 <= parse_digit c <= 15.
Proof.
  unfold parse_digit.
  change (chr "0") with 48; change (chr "9") with 57; change (chr "A") with 65;
    change (chr "F") with 70; change (chr "a") with 97; change (chr "f") with 102.
  zbool; cbn [andb]; lia.
Qed.

Lemma lit_value_ge base p : forall acc v, 2 <= base -> 0 <= acc ->
  lit_value base p acc = Some v -> acc <= v.
Proof.
  induction p as [|c p IH]; intros acc v Hb Ha; cbn [lit_value].
  - intros [= ->]. lia.
  - destruct (c =? chr "_"); [apply IH; auto|]. cbn zeta.
    destruct (Z.ltb_spec (parse_digit c) 0); cbn [orb]; [discriminate|].
    destruct (Z.leb_spec base (parse_digit c)); [discriminate|].
    intros H1. apply IH in H1; nia.
Qed.

(** The digit loop against the unbounded value: it fails exactly when the value
    does not fit the accumulator. *)
Lemma digits_loop_spec w base p : 8 <= w -> 2 <= base <= 16 -> forall r, uint w r ->
  match lit_value base p r with
  | Some v => digits_loop w base ((2 ^ w - 1) / base) p r =
              if v <? 2 ^ w then Ok ([], v) else int_of_string_failure
  | None => digits_loop w base ((2 ^ w - 1) / base) p r = int_of_string_failure \/
            exists c p' v, digits_loop w base ((2 ^ w - 1) / base) p r = Ok (c :: p', v)
  end.
Proof.
  intros Hw Hb. assert (W16 : 2 ^ 8 <= 2 ^ w) by (apply Z.pow_le_mono_r; lia).
  induction p as [|c p IH]; intros r Hr; cbn [lit_value digits_loop].
  - destruct Hr. now rewrite (proj2 (Z.ltb_lt r (2 ^ w))).
  - destruct (c =? chr "_"); [now apply IH|]. cbn zeta.
    pose proof (parse_digit_range c) as Hd. set (d := parse_digit c) in *. clearbody d.
    destruct (Z.ltb_spec d 0); cbn [orb]; [eauto|].
    destruct (Z.leb_spec base d); [eauto|].
    rewrite (wrap_small w d) by lia. destruct Hr as [Hr0 Hr1].
    set (t := (2 ^ w - 1) / base) in *.
    assert (Ht : base * t <= 2 ^ w - 1 < base * t + base).
    { unfold t. pose proof (Z.div_mod (2 ^ w - 1) base). pose proof (Z.mod_pos_bound (2 ^ w - 1) base). lia. }
    (* the step overflows exactly when one of the two tests fails *)
    assert (Step : (2 ^ w <= base * r + d /\
        (t < r \/ r <= t /\ wrap w (base * r + d) < d)) \/
      (base * r + d < 2 ^ w /\ r <= t /\ wrap w (base * r + d) = base * r + d)).
    { destruct (Z_le_gt_dec r t) as [L|G].
      - destruct (Z_lt_ge_dec (base * r + d) (2 ^ w)).
        + right. conj; auto. apply wrap_small. nia.
        + left. split; [lia|]. right. split; auto.
          destruct (wrap_cases w (base * r + d)) as [[? ->]|[[? ->]|[? ->]]]; nia.
      - left. split; [nia | left; lia]. }
    destruct Step as [[Ov Tests] | (Fit & Le & E)].
    + assert (F : (if t <? r then int_of_string_failure
        else if wrap w (base * r + d) <? d then int_of_string_failure
        else digits_loop w base t p (wrap w (base * r + d))) = int_of_string_failure).
      { destruct (Z.ltb_spec t r); auto. destruct (Z.ltb_spec (wrap w (base * r + d)) d); auto. lia. }
      rewrite F. destruct (lit_value base p (base * r + d)) as [v|] eqn:Ev; auto.
      apply lit_value_ge in Ev; [|lia|lia]. now rewrite (proj2 (Z.ltb_ge v (2 ^ w))) by lia.
    + rewrite (proj2 (Z.ltb_ge t r) Le), E, (proj2 (Z.ltb_ge (base * r + d) d)) by nia.
      apply IH. split; nia.
Qed.

Lemma shiftl_1 n : 0 <= n -> Z.shiftl 1 n = 2 ^ n.
Proof. intros. rewrite Z.shiftl_mul_pow2; lia. Qed.

(** The final range test and the conversion of [parse_intnat]. *)
Lemma parse_intnat_final {A : Arch} nbits sign base v : 1 <= nbits <= WORD -> 0 <= v ->
  (sign = 1 \/ sign = -1) ->
  (if v <? 2 ^ WORD
   then if (if base =? 10
            then if 0 <=? sign then Z.shiftl 1 (nbits - 1) <=? v else Z.shiftl 1 (nbits - 1) <? v
            else (nbits <? WORD) && (Z.shiftl 1 nbits <=? v))
        then int_of_string_failure
        else Ok (if sign <? 0 then swrap WORD (- swrap WORD v) else swrap WORD v)
   else int_of_string_failure) =
  if fits nbits sign base v then Ok (swrap WORD (sign * v)) else int_of_string_failure.
Proof.
  intros Hn Hv Hs. rewrite !shiftl_1 by lia. unfold fits.
  assert (P1 : 2 ^ (nbits - 1) < 2 ^ WORD) by (apply Z.pow_lt_mono_r; lia).
  assert (P2 : 2 ^ nbits <= 2 ^ WORD) by (apply Z.pow_le_mono_r; lia).
  assert (P3 : nbits < WORD \/ 2 ^ nbits = 2 ^ WORD) by (destruct (Z.eq_dec nbits WORD) as [->|]; lia).
  assert (E : (if sign <? 0 then swrap WORD (- swrap WORD v) else swrap WORD v) = swrap WORD (sign * v)).
  { pose proof WORD_pos. destruct Hs as [-> | ->]; cbn [Z.ltb Z.compare].
    - now rewrite Z.mul_1_l.
    - destruct (swrap_eqm WORD v) as [q ->]; [lia|]. apply swrap_congr with (- q). ring. }
  rewrite E. clear E. zbool; cbn [andb]; auto; lia.
Qed.

Lemma parse_intnat_spec {A : Arch} s nbits : 1 <= nbits <= WORD ->
  parse_intnat s nbits = int_of_string_spec WORD nbits s.
Proof.
  intros Hn. unfold parse_intnat, int_of_string_spec, literal.
  destruct (parse_sign_and_base s) as [[p base] sign] eqn:E.
  destruct (parse_sign_and_base_base _ _ _ _ E) as [Hb Hs].
  pose proof (parse_digit_range (hd 0 p)) as Hd. set (d := parse_digit (hd 0 p)) in *. clearbody d.
  destruct (Z.ltb_spec d 0); cbn [orb]; auto. destruct (Z.leb_spec base d); auto.
  pose proof WORD_pos as HW.
  replace (wrap WORD (-1)) with (2 ^ WORD - 1)
    by (pose proof (pow2_pos WORD); destruct (wrap_cases WORD (-1)) as [[? ->]|[[? ->]|[? ->]]]; lia).
  assert (2 ^ 32 <= 2 ^ WORD) by (apply Z.pow_le_mono_r; lia).
  assert (H8 : 8 <= WORD) by lia. assert (Ud : uint WORD d) by (unfold uint; lia).
  pose proof (digits_loop_spec WORD base (tl p) H8 ltac:(lia) d Ud) as L.
  destruct (lit_value base (tl p) d) as [v|] eqn:Ev.
  - apply lit_value_ge in Ev; try lia. rewrite L, <- parse_intnat_final by (auto; lia).
    now destruct (v <? 2 ^ WORD).
  - destruct L as [-> | (c & p' & v & ->)]; reflexivity.
Qed.

Section Int64Proof.
Context {A : Arch} {O : Int64Ops} {K : Int64Ok O}.

Definition uv (x : int64_t) : Z := wrap 64 (sv x).

Lemma uv_of_swrap x z : sv x = swrap 64 z -> uint 64 z -> uv x = z.
Proof. intros E Hz. unfold uv. rewrite E, wrap_swrap by lia. now apply wrap_small. Qed.

Lemma of_int32_uv z : 0 <= z < 2 ^ 31 -> valid (i64_of_int32 z) /\ uv (i64_of_int32 z) = z.
Proof.
  intros Hz. destruct (of_int32_ok z) as [V E]; [unfold sint; lia|]. split; auto.
  unfold uv. rewrite E. apply wrap_small. lia.
Qed.

(** One step of the accumulator, on unsigned values. *)
Lemma accumulate_uv base d r : 0 <= base < 2 ^ 31 -> 0 <= d < 2 ^ 31 -> valid r ->
  let r' := i64_add (i64_mul (i64_of_int32 base) r) (i64_of_int32 d) in
  valid r' /\ uv r' = wrap 64 (base * uv r + d).
Proof.
  intros Hb Hd Hr. cbn zeta.
  destruct (of_int32_ok base) as [Vb Eb]; [unfold sint; lia|].
  destruct (of_int32_ok d) as [Vd Ed]; [unfold sint; lia|].
  destruct (mul_ok _ _ Vb Hr) as [Vm Em]. destruct (add_ok _ _ Vm Vd) as [Va Ea].
  split; auto. unfold uv. rewrite Ea, wrap_swrap, Em, Eb, Ed by lia.
  destruct (swrap_eqm 64 (base * sv r) ltac:(lia)) as [q ->].
  destruct (wrap_eqm 64 (sv r) ltac:(lia)) as [q' E]. rewrite E at 1.
  apply wrap_congr with (q + base * q'). ring.
Qed.

Lemma int64_digits_loop_spec base threshold p : 2 <= base <= 16 -> valid threshold ->
  forall r, valid r ->
  match digits_loop 64 base (uv threshold) p (uv r) with
  | Ok (p', v) => exists r', int64_digits_loop base threshold p r = Ok (p', r') /\ valid r' /\ uv r' = v
  | o => int64_digits_loop base threshold p r =
         match o with Raise e => Raise e | _ => Stuck end
  end.
Proof.
  intros Hb Ht. induction p as [|c p IH]; intros r Hr; cbn [digits_loop int64_digits_loop].
  - eauto.
  - destruct (c =? chr "_"); [now apply IH|]. cbn zeta.
    pose proof (parse_digit_range c) as Hd. set (d := parse_digit c) in *. clearbody d.
    destruct (Z.ltb_spec d 0); cbn [orb]; [eauto|]. destruct (Z.leb_spec base d); [eauto|].
    destruct (of_int32_uv d ltac:(lia)) as [Vd Ed].
    destruct (accumulate_uv base d r ltac:(lia) ltac:(lia) Hr) as [Va Ea]. cbn zeta in Va, Ea.
    rewrite !ult_ok by auto. fold (uv threshold) (uv r) (uv (i64_of_int32 d)). rewrite Ed.
    match goal with |- context [wrap 64 (sv ?x) <? _] => fold (uv x) end.
    rewrite Ea, (wrap_small 64 d) by lia.
    destruct (uv threshold <? uv r); [reflexivity|].
    destruct (wrap 64 (base * uv r + d) <? d); [reflexivity|].
    rewrite <- Ea. now apply IH.
Qed.

Lemma int64_final sign base v r : (sign = 1 \/ sign = -1) -> valid r -> uv r = v ->
  let pos := i64_literal 0x7FFFFFFF 0xFFFFFFFF in
  let neg := i64_literal 0x80000000 0x00000000 in
  if fits 64 sign base v
  then (base =? 10) && i64_ult (if 0 <=? sign then pos else neg) r = false /\
       valid (if sign <? 0 then i64_neg r else r) /\
       sv (if sign <? 0 then i64_neg r else r) = swrap 64 (sign * v)
  else (base =? 10) && i64_ult (if 0 <=? sign then pos else neg) r = true.
Proof.
  intros Hs Hr Ev. cbn zeta.
  destruct (literal_ok 0x7FFFFFFF 0xFFFFFFFF) as [Vp Ep]; [unfold uint; lia | unfold uint; lia |].
  destruct (literal_ok 0x80000000 0) as [Vn En]; [unfold uint; lia | unfold uint; lia |].
  apply uv_of_swrap in Ep; [|unfold uint; lia]. apply uv_of_swrap in En; [|unfold uint; lia].
  pose proof (wrap_range 64 (sv r) ltac:(lia)) as Rv. fold (uv r) in Rv.
  assert (S : valid (if sign <? 0 then i64_neg r else r) /\
              sv (if sign <? 0 then i64_neg r else r) = swrap 64 (sign * v)).
  { rewrite <- Ev. unfold uv. destruct (wrap_eqm 64 (sv r) ltac:(lia)) as [q E].
    destruct Hs as [-> | ->]; cbn [Z.ltb Z.compare]; split; auto.
    - rewrite <- (swrap_small64 (sv r)) at 1 by (apply sv_range; auto).
      apply swrap_congr with q. lia.
    - now apply neg_ok.
    - rewrite (proj2 (neg_ok r Hr)). apply swrap_congr with (- q). lia. }
  destruct S as [S1 S2].
  assert (U : i64_ult (if 0 <=? sign then i64_literal 0x7FFFFFFF 0xFFFFFFFF
                       else i64_literal 0x80000000 0) r =
              ((if 0 <=? sign then 2 ^ 63 - 1 else 2 ^ 63) <? v)).
  { destruct Hs as [-> | ->]; cbn [Z.leb Z.compare]; rewrite ult_ok by auto; fold (uv r); rewrite Ev;
      fold (uv (i64_literal 0x7FFFFFFF 0xFFFFFFFF)) (uv (i64_literal 0x80000000 0));
      rewrite ?Ep, ?En; reflexivity. }
  rewrite U. unfold fits. change (64 - 1) with 63.
  destruct Hs as [-> | ->]; cbn [Z.leb Z.compare] in *; destruct (base =? 10); zbool; cbn [andb];
    auto; lia.
Qed.

Lemma caml_int64_of_string_spec s :
  match int_of_string_spec 64 64 s with
  | Ok v => exists x, caml_int64_of_string s = Ok x /\ valid x /\ sv x = v
  | o => caml_int64_of_string s = match o with Raise e => Raise e | _ => Stuck end
  end.
Proof.
  unfold caml_int64_of_string, int_of_string_spec, literal. cbv zeta.
  destruct (parse_sign_and_base s) as [[p base] sign] eqn:E.
  destruct (parse_sign_and_base_base _ _ _ _ E) as [Hb Hs].
  destruct (literal_ok 0xFFFFFFFF 0xFFFFFFFF) as [Vm Em]; [unfold uint; lia | unfold uint; lia |].
  destruct (of_int32_uv base ltac:(lia)) as [Vb Eb].
  destruct (udivmod_ok _ _ Vm Vb) as (thr & rem & -> & Vt & _ & Et & _).
  { intros E0. unfold uv in Eb. rewrite E0 in Eb. change (wrap 64 0) with 0 in Eb. lia. }
  apply uv_of_swrap in Em; [|unfold uint; lia]. fold (uv (i64_of_int32 base)) in Et.
  fold (uv (i64_literal 4294967295 4294967295)) in Et. rewrite Em, Eb in Et.
  apply uv_of_swrap in Et.
  2:{ split; [apply Z.div_pos; lia|]. apply Z.div_lt_upper_bound; lia. }
  change (4294967295 * 2 ^ 32 + 4294967295) with (2 ^ 64 - 1) in Et.
  pose proof (parse_digit_range (hd 0 p)) as Hd. set (d := parse_digit (hd 0 p)) in *. clearbody d.
  destruct (Z.ltb_spec d 0); cbn [orb]; [reflexivity|].
  destruct (Z.leb_spec base d); [reflexivity|].
  destruct (of_int32_uv d ltac:(lia)) as [Vd Ed].
  pose proof (int64_digits_loop_spec base thr (tl p) ltac:(lia) Vt _ Vd) as L1.
  rewrite Ed, Et in L1.
  pose proof (digits_loop_spec 64 base (tl p) ltac:(lia) ltac:(lia) d ltac:(unfold uint; lia)) as L2.
  destruct (lit_value base (tl p) d) as [v|] eqn:Ev.
  - apply lit_value_ge in Ev; try lia. rewrite L2 in L1.
    destruct (Z.ltb_spec v (2 ^ 64)).
    + destruct L1 as (r & -> & Vr & Er). cbn [negb].
      pose proof (int64_final sign base v r Hs Vr Er) as F. cbn zeta in F.
      destruct (fits 64 sign base v); [destruct F as (-> & V & S); eauto | now rewrite F].
    + rewrite L1. replace (fits 64 sign base v) with false; [reflexivity|].
      unfold fits. change (64 - 1) with 63. symmetry.
      destruct (base =? 10), (0 <=? sign); first [apply Z.ltb_ge | apply Z.leb_gt]; lia.
  - destruct L2 as [E2 | (c & p' & v & E2)]; rewrite E2 in L1.
    + now rewrite L1.
    + now destruct L1 as (r' & -> & _).
Qed.
End Int64Proof.

(** [caml_int_of_string], [caml_int32_of_string] and
    [caml_nativeint_of_string] accept exactly the strings made of an optional
    sign, a base prefix, a digit and then digits and underscores, whose
    unbounded value fits the type (31/63, 32 or 32/64 bits; non-decimal
    literals up to 2^n - 1), and return that value; every other string raises
    [Failure int_of_string].  The overflow tests in the loop are exact. *)
Theorem int_of_string_exact {A : Arch} (s : list Z) :
  caml_int_of_string s = (let! n := int_of_string_spec WORD (WORD - 1) s in Ok (Val_long n)) /\
  caml_int32_of_string s = (let! n := int_of_string_spec WORD 32 s in Ok (swrap 32 n)) /\
  caml_nativeint_of_string s = int_of_string_spec WORD WORD s.
Proof.
  pose proof WORD_pos. unfold caml_int_of_string, caml_int32_of_string, caml_nativeint_of_string.
  rewrite !parse_intnat_spec by lia. auto.
Qed.

(** C32. [caml_int64_of_string], compiled against the native or the emulated
    64-bit integers, accepts exactly the literals that fit 64 bits and returns
    their value; every other string raises [Failure int_of_string]. *)
Theorem int64_of_string_exact {A : Arch} (H32 : ARCH_SIXTYFOUR = false) (s : list Z) :
  @caml_int64_of_string int64_native s = int_of_string_spec 64 64 s /\
  match int_of_string_spec 64 64 s with
  | Ok v => exists x, @caml_int64_of_string int64_emul s = Ok x /\ ok64 x /\ sval x = v
  | o => @caml_int64_of_string int64_emul s = match o with Raise e => Raise e | _ => Stuck end
  end.
Proof.
  split.
  - pose proof (caml_int64_of_string_spec (K := int64_native_ok) s) as N.
    destruct (int_of_string_spec 64 64 s); auto.
    destruct N as (v & -> & _ & <-). reflexivity.
  - exact (caml_int64_of_string_spec (K := int64_emul_ok H32) s).
Qed.

Lemma int64_of_string_exact_witness :
  let s := bytes_of "-9_223_372_036_854_775_808" in
  @caml_int64_of_string (@int64_native arch32) s = int_of_string_spec 64 64 s /\
  int_of_string_spec 64 64 s = Ok (- 2 ^ 63) /\
  exists x, @caml_int64_of_string int64_emul (bytes_of "0xFFFFFFFFFFFFFFFF") = Ok x /\ sval x = -1.
Proof.
  intros s. destruct (@int64_of_string_exact arch32 eq_refl s) as [E0 _]. split; [apply E0|]. clear E0.
  split; [vm_compute; reflexivity|].
  destruct (proj2 (@int64_of_string_exact arch32 eq_refl (bytes_of "0xFFFFFFFFFFFFFFFF"))) as (x & E & _ & S).
  exists x. split; [exact E | exact S].
Defined.
