(* ===== verification/Int64Format.v ===== *)
(** Int64Format: [I64_format] of src/inline-more/byterun/int64_format.h, the
    printf replacement for compilers without a 64-bit format, over any
    implementation of the 64-bit integers. *)
From Stdlib Require Import ZArith Lia Bool Ascii String List.
From S2P Require Import Prelude Mlvalues Int64Emul Int64 ParseInt.
Import ListNotations.
Local Open Scope Z_scope.

(** ** Parsing of the format *)

Record format := Format {
  justify : Z; signstyle : Z; filler : Z; alternate : bool;
  base : Z; signedconv : bool; width : Z; cvtbl : list Z }.

Definition conv_lower : list Z := bytes_of "0123456789abcdef".
Definition conv_upper : list Z := bytes_of "0123456789ABCDEF".

Definition format_init : format :=
  Format (chr "+") (chr "-") (chr " ") false 0 false 0 conv_lower.

Definition is_dec (c : Z) : bool := (chr "0" <=? c) && (c <=? chr "9").

(** The loop that steps over the digits of the width. *)
Fixpoint skip_digits (p : list Z) : list Z :=
  match p with c :: p' => if is_dec c then skip_digits p' else p | [] => [] end.

(** [atoi] on a pointer to a digit: undefined when the value is no [int]. *)
Fixpoint atoi_loop (p : list Z) (acc : Z) : Z :=
  match p with
  | c :: p' => if is_dec c then atoi_loop p' (10 * acc + (c - chr "0")) else acc
  | [] => acc
  end.
Definition atoi (p : list Z) : res Z :=
  let n := atoi_loop p 0 in if n <? 2 ^ 31 then Ok n else Stuck.

(** The [switch] on the conversion letters and flags other than the width. *)
Definition format_flag (c : Z) (f : format) : format :=
  let '(Format j s fl a b sc w cv) := f in
  if c =? chr "-" then Format (chr "-") s fl a b sc w cv
  else if (c =? chr "+") || (c =? chr " ") then Format j c fl a b sc w cv
  else if c =? chr "0" then Format j s (chr "0") a b sc w cv
  else if c =? chr "#" then Format j s fl true b sc w cv
  else if (c =? chr "d") || (c =? chr "i") then Format j s fl a 10 true w cv
  else if c =? chr "u" then Format j s fl a 10 sc w cv
  else if c =? chr "x" then Format j s fl a 16 sc w cv
  else if c =? chr "X" then Format j s fl a 16 sc w conv_upper
  else if c =? chr "o" then Format j s fl a 8 sc w cv
  else f.

(** The loop over the format: after a width, [p] points to the first
    non-digit and the [p++] of the loop steps over it; from the terminating 0
    that leads out of the string. *)
Fixpoint parse_fmt (fuel : nat) (p : list Z) (f : format) : res format :=
  match fuel, p with
  | O, _ => Stuck
  | _, [] => Ok f
  | S fuel, c :: p' =>
      if c =? 0 then Ok f
      else if (chr "1" <=? c) && (c <=? chr "9") then
        let! w := atoi p in
        let f := Format (justify f) (signstyle f) (filler f) (alternate f)
                        (base f) (signedconv f) w (cvtbl f) in
        match skip_digits p with
        | [] => Stuck
        | _ :: p'' => parse_fmt fuel p'' f
        end
      else parse_fmt fuel p' (format_flag c f)
  end.

(** ** Conversion and formatting *)

Section Format.
Context {Op : Int64Ops}.

(** The do-while loop; [room] is the free space of [rawbuffer] below [r], and
    [raw] the characters from [r] on. *)
Fixpoint raw_digits (room : nat) (tbl : list Z) (wbase x : int64_t) (raw : list Z) : res (list Z) :=
  match room with
  | O => Stuck
  | S room =>
      let! (x, digit) := i64_udivmod x wbase in
      let raw := nth (Z.to_nat (i64_to_int32 digit)) tbl 0 :: raw in
      if negb (i64_is_zero x) then raw_digits room tbl wbase x raw else Ok raw
  end.

(** The padding loops. *)
Definition pad (rawlen width c : Z) : list Z := repeat c (Z.to_nat (width - rawlen)).

Definition sizeof_rawbuffer : nat := 24.

Definition I64_format (fmt : list Z) (x : int64_t) : res (list Z) :=
  let! f := parse_fmt (S (List.length fmt)) fmt format_init in
  if base f =? 0 then Ok []
  else
    let '(sign, x) :=
      if signedconv f && i64_is_negative x then (-1, i64_neg x) else (1, x) in
    let! raw := raw_digits sizeof_rawbuffer (cvtbl f) (i64_of_int32 (base f)) x [] in
    let rawlen := Z.of_nat (List.length raw) in
    let rawlen :=
      if signedconv f && ((sign <? 0) || negb (signstyle f =? chr "-")) then rawlen + 1 else rawlen in
    let rawlen :=
      if alternate f then
        let rawlen := if base f =? 8 then rawlen + 1 else rawlen in
        if base f =? 16 then rawlen + 2 else rawlen
      else rawlen in
    Ok ((if (justify f =? chr "+") && (filler f =? chr " ") then pad rawlen (width f) (chr " ") else [])
        ++ (if signedconv f then
              if sign <? 0 then [chr "-"]
              else if negb (signstyle f =? chr "-") then [signstyle f] else []
            else [])
        ++ (if alternate f && (base f =? 8) then [chr "0"] else [])
        ++ (if alternate f && (base f =? 16) then [chr "0"; chr "x"] else [])
        ++ (if (justify f =? chr "+") && (filler f =? chr "0") then pad rawlen (width f) (chr "0") else [])
        ++ raw
        ++ (if justify f =? chr "-" then pad rawlen (width f) (chr " ") else [])).
End Format.

(** ** Digits *)

Lemma lit_value_app b p q : forall acc,
  lit_value b (p ++ q) acc =
  match lit_value b p acc with Some a => lit_value b q a | None => None end.
Proof.
  induction p as [|c p IH]; intros acc; cbn [lit_value app]; auto.
  destruct (c =? chr "_"); auto. cbn zeta. destruct (_ || _); auto.
Qed.

Lemma conv_lower_digit d : 0 <= d < 16 ->
  parse_digit (nth (Z.to_nat d) conv_lower 0) = d /\ nth (Z.to_nat d) conv_lower 0 <> chr "_".
Proof.
  intros Hd. rewrite <- (Z2Nat.id d) at 2 by lia.
  assert (H : (Z.to_nat d < 16)%nat) by lia. revert H. generalize (Z.to_nat d). clear.
  intros n Hn. do 16 (destruct n as [|n]; [split; [reflexivity | discriminate]|]). lia.
Qed.

(** Characters that are digits in base [b]. *)
Definition dig (b c : Z) : Prop := 0 <= parse_digit c < b /\ c <> chr "_".

Lemma lit_value_digit b c acc : dig b c -> lit_value b [c] acc = Some (b * acc + parse_digit c).
Proof.
  intros [[H0 H1] H2]. cbn [lit_value]. rewrite (proj2 (Z.eqb_neq _ _) H2).
  cbn zeta. rewrite (proj2 (Z.ltb_ge _ _) H0), (proj2 (Z.leb_gt _ _) H1). reflexivity.
Qed.

Section Raw.
Context {A : Arch} {O : Int64Ops} {K : Int64Ok O}.

(** The conversion loop writes digits that denote the number, most significant
    first, and stays within its buffer. *)
Lemma raw_digits_spec b : 2 <= b <= 16 -> forall room x raw, valid x -> uv x < b ^ Z.of_nat room ->
  (0 < room)%nat \/ 0 < uv x ->
  exists ds, raw_digits room conv_lower (i64_of_int32 b) x raw = Ok (ds ++ raw) /\
    ds <> [] /\ (List.length ds <= room)%nat /\ Forall (dig b) ds /\
    lit_value b ds 0 = Some (uv x).
Proof.
  intros Hb. destruct (of_int32_uv b ltac:(lia)) as [Vb Eb].
  assert (Eb' : sv (i64_of_int32 b) = b) by (apply of_int32_ok; unfold sint; lia).
  induction room as [|room IH]; intros x raw Hx Hlt Hroom.
  { change (b ^ Z.of_nat 0) with 1 in Hlt. lia. }
  cbn [raw_digits].
  destruct (udivmod_ok x (i64_of_int32 b) Hx Vb ltac:(lia)) as (q & r & -> & Vq & Vr & Eq & Er).
  fold (uv x) (uv (i64_of_int32 b)) in Eq, Er. rewrite Eb in Eq, Er.
  pose proof (wrap_range 64 (sv x) ltac:(lia)) as Rx. fold (uv x) in Rx.
  pose proof (Z.mod_pos_bound (uv x) b ltac:(lia)) as Rm.
  pose proof (Z.div_mod (uv x) b ltac:(lia)) as DM.
  assert (Rd : 0 <= uv x / b <= uv x) by (split; [apply Z.div_pos; lia | apply Z.div_le_upper_bound; nia]).
  assert (Uq : uv q = uv x / b) by (apply uv_of_swrap; [auto | unfold uint; lia]).
  rewrite to_int32_ok by auto. rewrite Er, (swrap_small 64) by lia.
  rewrite (swrap_small 32) by lia.
  destruct (conv_lower_digit (uv x mod b)) as [Pd Nd]; [lia|].
  set (c := nth (Z.to_nat (uv x mod b)) conv_lower 0) in *.
  assert (Dc : dig b c) by (split; auto; lia).
  rewrite is_zero_ok by auto.
  destruct (Z.eqb_spec (sv q) 0) as [E0 | N0]; cbn [negb].
  - exists [c]. conj; auto; try discriminate; try (cbn; lia).
    rewrite lit_value_digit by auto. f_equal. unfold uv in Uq. rewrite E0 in Uq.
    change (wrap 64 0) with 0 in Uq. fold (uv x) in Uq. lia.
  - destruct (IH q (c :: raw) Vq) as (ds & -> & Ne & Len & Fd & Lv).
    { rewrite Uq. apply Z.div_lt_upper_bound; [lia|].
      rewrite <- Z.pow_succ_r by lia. now rewrite <- Nat2Z.inj_succ. }
    { right. pose proof (wrap_range 64 (sv q) ltac:(lia)) as Rq. fold (uv q) in Rq.
      destruct (Z.eq_dec (uv q) 0) as [U0|]; [|lia]. exfalso. apply N0. rewrite Eq, <- Uq, U0. reflexivity. }
    exists (ds ++ [c]). conj.
    + now rewrite <- app_assoc.
    + destruct ds; discriminate.
    + rewrite length_app. cbn. lia.
    + apply Forall_app; auto.
    + rewrite lit_value_app, Lv, lit_value_digit by auto. f_equal. rewrite Uq, Pd. lia.
Qed.

Lemma raw_digits_24 b x : 8 <= b <= 16 -> valid x ->
  exists ds, raw_digits sizeof_rawbuffer conv_lower (i64_of_int32 b) x [] = Ok ds /\
    ds <> [] /\ Forall (dig b) ds /\ lit_value b ds 0 = Some (uv x).
Proof.
  intros Hb Hx. destruct (raw_digits_spec b ltac:(lia) sizeof_rawbuffer x [] Hx) as (ds & E & H1 & _ & H2 & H3).
  - pose proof (wrap_range 64 (sv x) ltac:(lia)) as Rx. fold (uv x) in Rx.
    assert (8 ^ Z.of_nat sizeof_rawbuffer <= b ^ Z.of_nat sizeof_rawbuffer) by (apply Z.pow_le_mono_l; lia).
    change (8 ^ Z.of_nat sizeof_rawbuffer) with (2 ^ 72) in H. lia.
  - left. unfold sizeof_rawbuffer. lia.
  - rewrite app_nil_r in E. eauto.
Qed.
End Raw.

(** ** Reading the digits back *)

Lemma literal_digits s b sign ds p :
  parse_sign_and_base s = (ds, b, sign) -> ds <> [] -> Forall (dig b) ds ->
  lit_value b ds 0 = Some p -> literal s = Some (sign, b, p).
Proof.
  intros E Ne Fd Lv. unfold literal. rewrite E.
  destruct ds as [|c ds]; [congruence|]. inversion Fd as [|? ? Hc Fd']; subst.
  cbn [hd tl] in *. change (c :: ds) with ([c] ++ ds) in Lv.
  rewrite lit_value_app, lit_value_digit in Lv by auto. destruct Hc as [[H0 H1] H2].
  rewrite (proj2 (Z.ltb_ge _ _) H0), (proj2 (Z.leb_gt _ _) H1). cbn [orb].
  replace (b * 0 + parse_digit c) with (parse_digit c) in Lv by ring. now rewrite Lv.
Qed.

(** A decimal number has no base prefix. *)
Lemma parse_base_decimal ds : ds <> [] -> Forall (dig 10) ds ->
  parse_sign_and_base ds = (ds, 10, 1) /\ parse_sign_and_base (chr "-" :: ds) = (ds, 10, -1).
Proof.
  intros Ne Fd.
  assert (N : forall c, parse_digit c < 0 \/ 10 <= parse_digit c -> nth 1 ds 0 <> c \/ nth 1 ds 0 = 0).
  { intros c Hc. destruct (nth_in_or_default 1 ds 0) as [Hi | ->]; auto. left. intros <-.
    rewrite Forall_forall in Fd. destruct (Fd _ Hi) as [? _]. lia. }
  assert (N' : forall c, parse_digit c < 0 \/ 10 <= parse_digit c -> c <> 0 -> (nth 1 ds 0 =? c) = false).
  { intros c H1 H2. apply Z.eqb_neq. destruct (N c H1) as [|E]; congruence. }
  assert (B : forall sign : Z, (if hd 0 ds =? chr "0" then
       if (nth 1 ds 0 =? chr "x") || (nth 1 ds 0 =? chr "X") then (skipn 2 ds, 16, sign)
       else if (nth 1 ds 0 =? chr "o") || (nth 1 ds 0 =? chr "O") then (skipn 2 ds, 8, sign)
       else if (nth 1 ds 0 =? chr "b") || (nth 1 ds 0 =? chr "B") then (skipn 2 ds, 2, sign)
       else (ds, 10, sign) else (ds, 10, sign)) = (ds, 10, sign)).
  { intros sign. 
    rewrite (N' (chr "x")), (N' (chr "X")), (N' (chr "o")), (N' (chr "O")), (N' (chr "b")), (N' (chr "B"))
      by first [discriminate | cbn; lia].
    cbn [orb]. now destruct (_ =? _). }
  unfold parse_sign_and_base. cbv zeta. split.
  - replace (hd 0 ds =? chr "-") with false; [apply B|].
    destruct ds as [|c ds]; [congruence|]. inversion Fd as [|? ? [Hc _] _]; subst. cbn [hd].
    symmetry. apply Z.eqb_neq. intros ->. now cbn in Hc.
  - cbn [hd tl]. rewrite Z.eqb_refl. apply B.
Qed.

Lemma parse_base_hex ds : parse_sign_and_base (chr "0" :: chr "x" :: ds) = (ds, 16, 1).
Proof. reflexivity. Qed.

(** ** Round trips *)

Section RoundTrip.
Context {A : Arch} {O : Int64Ops} {K : Int64Ok O}.

Lemma of_string_literal s sign b p x : valid x -> literal s = Some (sign, b, p) ->
  fits 64 sign b p = true -> swrap 64 (sign * p) = sv x -> caml_int64_of_string s = Ok x.
Proof.
  intros Hx El Ef Es. pose proof (caml_int64_of_string_spec s) as H.
  unfold int_of_string_spec in H. rewrite El, Ef in H. destruct H as (y & -> & Vy & Sy).
  f_equal. apply sv_only; auto. congruence.
Qed.

Lemma parse_fmt_d : parse_fmt 3 (bytes_of "%d") format_init =
  Ok (Format (chr "+") (chr "-") (chr " ") false 10 true 0 conv_lower).
Proof. reflexivity. Qed.

Lemma parse_fmt_x : parse_fmt 4 (bytes_of "%#x") format_init =
  Ok (Format (chr "+") (chr "-") (chr " ") true 16 false 0 conv_lower).
Proof. reflexivity. Qed.

Lemma pad_0 n c : 0 <= n -> pad n 0 c = [].
Proof. intros. unfold pad. now replace (Z.to_nat (0 - n)) with 0%nat by lia. Qed.

(** Printing a 64-bit integer with [I64_format] and the format [%d] and
    reading the result with [caml_int64_of_string] gives it back, for every
    implementation of the 64-bit integers; the conversion never leaves its
    24-byte buffer. *)
Theorem I64_format_d_roundtrip (x : int64_t) : valid x ->
  exists s, I64_format (bytes_of "%d") x = Ok s /\ caml_int64_of_string s = Ok x.
Proof.
  intros Hx. unfold I64_format. change (S (List.length (bytes_of "%d"))) with 3%nat.
  rewrite parse_fmt_d.
  cbn [base signedconv alternate justify filler signstyle width cvtbl andb negb Z.eqb].
  change (10 =? 0) with false. rewrite is_negative_ok by auto.
  pose proof (sv_range x Hx) as Rx. unfold sint in Rx. destruct (neg_ok x Hx) as [Vn En].
  destruct (Z.ltb_spec (sv x) 0).
  - destruct (raw_digits_24 10 (i64_neg x) ltac:(lia) Vn) as (ds & -> & Ne & Fd & Lv).
    rewrite !pad_0 by (cbn; lia). eexists. split; [reflexivity|]. cbn [app]. rewrite app_nil_r.
    assert (U : uv (i64_neg x) = - sv x).
    { apply uv_of_swrap; auto. unfold uint. lia. }
    apply (of_string_literal _ (-1) 10 (- sv x)); auto.
    + apply (literal_digits _ _ _ ds); auto; [apply (parse_base_decimal ds Ne Fd) | congruence].
    + unfold fits. cbn [Z.eqb Z.leb Z.compare]. change (10 =? 10) with true. cbn iota. apply Z.leb_le. lia.
    + replace (-1 * - sv x) with (sv x) by ring. apply swrap_small; lia.
  - destruct (raw_digits_24 10 x ltac:(lia) Hx) as (ds & -> & Ne & Fd & Lv).
    rewrite !pad_0 by (cbn; lia). eexists. split; [reflexivity|]. cbn [app]. rewrite app_nil_r.
    assert (U : uv x = sv x) by (apply wrap_small; lia).
    apply (of_string_literal _ 1 10 (sv x)); auto.
    + apply (literal_digits _ _ _ ds); auto; [apply (parse_base_decimal ds Ne Fd) | congruence].
    + unfold fits. change (10 =? 10) with true. cbn [Z.leb Z.compare]. apply Z.ltb_lt. lia.
    + rewrite Z.mul_1_l. apply swrap_small; lia.
Qed.

(** Printing with the alternate hexadecimal format [%#x], which shows
    negative numbers by their unsigned value, and reading back is the identity
    on all 64-bit integers. *)
Theorem I64_format_x_roundtrip (x : int64_t) : valid x ->
  exists s, I64_format (bytes_of "%#x") x = Ok s /\ caml_int64_of_string s = Ok x.
Proof.
  intros Hx. unfold I64_format. change (S (List.length (bytes_of "%#x"))) with 4%nat.
  rewrite parse_fmt_x.
  cbn [base signedconv alternate justify filler signstyle width cvtbl andb negb].
  change (16 =? 0) with false. cbn iota.
  destruct (raw_digits_24 16 x ltac:(lia) Hx) as (ds & -> & Ne & Fd & Lv).
  rewrite !pad_0 by (cbn; lia). eexists. split; [reflexivity|]. cbn [app].
  pose proof (sv_range x Hx) as Rx. unfold sint in Rx.
  pose proof (wrap_range 64 (sv x) ltac:(lia)) as Ru. fold (uv x) in Ru.
  apply (of_string_literal _ 1 16 (uv x)); auto.
  - apply (literal_digits _ _ _ ds); auto. rewrite app_nil_r. reflexivity.
  - unfold fits. change (16 =? 10) with false. cbn iota. apply Z.ltb_lt. lia.
  - rewrite Z.mul_1_l. unfold uv. rewrite swrap_wrap by lia. apply swrap_small; lia.
Qed.

(** A field width makes [I64_format] print nothing: the loop that skips the
    digits of the width leaves [p] on the conversion letter, which the [p++] of
    the enclosing loop then skips.  Shown for the format [%20d]. *)
Theorem I64_format_width_empty (x : int64_t) :
  I64_format (bytes_of "%20d") x = Ok [].
Proof. reflexivity. Qed.
End RoundTrip.

Lemma I64_format_d_witness :
  (exists s, @I64_format int64_emul (bytes_of "%d") (I64 0x80000000 0) = Ok s /\
             @caml_int64_of_string int64_emul s = Ok (I64 0x80000000 0)).
Proof.
  apply (@I64_format_d_roundtrip arch32 int64_emul (@int64_emul_ok arch32 eq_refl) (I64 0x80000000 0)).
  repeat split; cbn; lia.
Defined.

Lemma I64_format_x_witness :
  (exists s, @I64_format int64_emul (bytes_of "%#x") (I64 0xFFFFFFFF 0xFFFFFFFF) = Ok s /\
             @caml_int64_of_string int64_emul s = Ok (I64 0xFFFFFFFF 0xFFFFFFFF)).
Proof.
  apply (@I64_format_x_roundtrip arch32 int64_emul (@int64_emul_ok arch32 eq_refl) (I64 0xFFFFFFFF 0xFFFFFFFF)).
  repeat split; cbn; lia.
Defined.
