(* ===== verification/Ints.v ===== *)
(** Ints: the primitives on boxed integers, src/inline-more/byterun/ints.c:
    Int32, Nativeint and Int64 arithmetic with their error branches and the
    portable division of NONSTANDARD_DIV_MOD configurations.

    A boxed integer is represented by its contents, so [caml_copy_int32] is the
    conversion to 32 bits; signed arithmetic wraps, as the compilers the
    runtime supports make it. *)
From Stdlib Require Import ZArith Lia List Bool.
From S2P Require Import Prelude Mlvalues Int64Emul Int64.
Import ListNotations.
Local Open Scope Z_scope.

(** ** C operators on signed [w]-bit operands *)

Definition C_quot (w x y : Z) : res Z :=
  if y =? 0 then Stuck
  else if (x =? - 2 ^ (w - 1)) && (y =? -1) then Stuck else Ok (Z.quot x y).
Definition C_rem (w x y : Z) : res Z :=
  if y =? 0 then Stuck
  else if (x =? - 2 ^ (w - 1)) && (y =? -1) then Stuck else Ok (Z.rem x y).
Definition C_shift (w : Z) (f : Z -> Z -> Z) (x n : Z) : res Z :=
  if Native.shift_ok w n then Ok (f x n) else Stuck.

Section Ints.
Context {A : Arch}.
(** NONSTANDARD_DIV_MOD of config/s.h *)
Variable NONSTANDARD_DIV_MOD : bool.

Definition u_ (x : Z) : Z := wrap WORD x.
Definition i_ (x : Z) : Z := swrap WORD x.

Definition caml_safe_div (p q : Z) : res Z :=
  let ap := u_ (if 0 <=? p then p else i_ (- p)) in
  let aq := u_ (if 0 <=? q then q else i_ (- q)) in
  if aq =? 0 then Stuck
  else
    let ar := ap / aq in
    Ok (i_ (if 0 <=? Z.lxor p q then ar else u_ (- ar))).

Definition caml_safe_mod (p q : Z) : res Z :=
  let ap := u_ (if 0 <=? p then p else i_ (- p)) in
  let aq := u_ (if 0 <=? q then q else i_ (- q)) in
  if aq =? 0 then Stuck
  else
    let ar := ap mod aq in
    Ok (i_ (if 0 <=? p then ar else u_ (- ar))).

(** ** Tagged integers *)

Definition caml_int_compare (v1 v2 : Z) : Z :=
  Val_int (b2z (v2 <? v1) - b2z (v1 <? v2)).

(** ** Int32 *)

Definition caml_copy_int32 (i : Z) : Z := swrap 32 i.
Definition int32_cmp (v1 v2 : Z) : Z := b2z (v2 <? v1) - b2z (v1 <? v2).
Definition int32_hash (v : Z) : Z := v.
Definition caml_int32_neg (v : Z) : Z := caml_copy_int32 (- v).
Definition caml_int32_add (v1 v2 : Z) : Z := caml_copy_int32 (v1 + v2).
Definition caml_int32_sub (v1 v2 : Z) : Z := caml_copy_int32 (v1 - v2).
Definition caml_int32_mul (v1 v2 : Z) : Z := caml_copy_int32 (v1 * v2).

Definition caml_int32_div (v1 v2 : Z) : res Z :=
  let dividend := v1 in
  let divisor := v2 in
  if divisor =? 0 then Raise Division_by_zero
  else if (dividend =? swrap 32 (Z.shiftl 1 31)) && (divisor =? -1) then Ok v1
  else if NONSTANDARD_DIV_MOD
  then let! q := caml_safe_div dividend divisor in Ok (caml_copy_int32 q)
  else let! q := C_quot 32 dividend divisor in Ok (caml_copy_int32 q).

Definition caml_int32_mod (v1 v2 : Z) : res Z :=
  let dividend := v1 in
  let divisor := v2 in
  if divisor =? 0 then Raise Division_by_zero
  else if (dividend =? swrap 32 (Z.shiftl 1 31)) && (divisor =? -1) then Ok (caml_copy_int32 0)
  else if NONSTANDARD_DIV_MOD
  then let! r := caml_safe_mod dividend divisor in Ok (caml_copy_int32 r)
  else let! r := C_rem 32 dividend divisor in Ok (caml_copy_int32 r).

Definition caml_int32_and (v1 v2 : Z) : Z := caml_copy_int32 (Z.land v1 v2).
Definition caml_int32_or (v1 v2 : Z) : Z := caml_copy_int32 (Z.lor v1 v2).
Definition caml_int32_xor (v1 v2 : Z) : Z := caml_copy_int32 (Z.lxor v1 v2).
Definition caml_int32_shift_left (v1 v2 : Z) : res Z :=
  let! r := C_shift 32 Z.shiftl v1 (Int_val v2) in Ok (caml_copy_int32 r).
Definition caml_int32_shift_right (v1 v2 : Z) : res Z :=
  let! r := C_shift 32 Z.shiftr v1 (Int_val v2) in Ok (caml_copy_int32 r).
Definition caml_int32_shift_right_unsigned (v1 v2 : Z) : res Z :=
  let! r := C_shift 32 Z.shiftr (wrap 32 v1) (Int_val v2) in Ok (caml_copy_int32 r).
Definition caml_int32_of_int (v : Z) : Z := caml_copy_int32 (Long_val v).
Definition caml_int32_to_int (v : Z) : Z := Val_long v.
Definition caml_int32_compare (v1 v2 : Z) : Z :=
  Val_int (b2z (v2 <? v1) - b2z (v1 <? v2)).

(** ** Nativeint *)

Definition caml_copy_nativeint (i : Z) : Z := swrap WORD i.
Definition nativeint_cmp (v1 v2 : Z) : Z := b2z (v2 <? v1) - b2z (v1 <? v2).
Definition nativeint_hash (v : Z) : Z := v.
Definition caml_nativeint_neg (v : Z) : Z := caml_copy_nativeint (- v).
Definition caml_nativeint_add (v1 v2 : Z) : Z := caml_copy_nativeint (v1 + v2).
Definition caml_nativeint_sub (v1 v2 : Z) : Z := caml_copy_nativeint (v1 - v2).
Definition caml_nativeint_mul (v1 v2 : Z) : Z := caml_copy_nativeint (v1 * v2).
Definition Nativeint_min_int : Z := swrap WORD (Z.shiftl 1 (WORD - 1)).

Definition caml_nativeint_div (v1 v2 : Z) : res Z :=
  let dividend := v1 in
  let divisor := v2 in
  if divisor =? 0 then Raise Division_by_zero
  else if (dividend =? Nativeint_min_int) && (divisor =? -1) then Ok v1
  else if NONSTANDARD_DIV_MOD
  then let! q := caml_safe_div dividend divisor in Ok (caml_copy_nativeint q)
  else let! q := C_quot WORD dividend divisor in Ok (caml_copy_nativeint q).

Definition caml_nativeint_mod (v1 v2 : Z) : res Z :=
  let dividend := v1 in
  let divisor := v2 in
  if divisor =? 0 then Raise Division_by_zero
  else if (dividend =? Nativeint_min_int) && (divisor =? -1) then Ok (caml_copy_nativeint 0)
  else if NONSTANDARD_DIV_MOD
  then let! r := caml_safe_mod dividend divisor in Ok (caml_copy_nativeint r)
  else let! r := C_rem WORD dividend divisor in Ok (caml_copy_nativeint r).

Definition caml_nativeint_and (v1 v2 : Z) : Z := caml_copy_nativeint (Z.land v1 v2).
Definition caml_nativeint_or (v1 v2 : Z) : Z := caml_copy_nativeint (Z.lor v1 v2).
Definition caml_nativeint_xor (v1 v2 : Z) : Z := caml_copy_nativeint (Z.lxor v1 v2).
Definition caml_nativeint_shift_left (v1 v2 : Z) : res Z :=
  let! r := C_shift WORD Z.shiftl v1 (Int_val v2) in Ok (caml_copy_nativeint r).
Definition caml_nativeint_shift_right (v1 v2 : Z) : res Z :=
  let! r := C_shift WORD Z.shiftr v1 (Int_val v2) in Ok (caml_copy_nativeint r).
Definition caml_nativeint_shift_right_unsigned (v1 v2 : Z) : res Z :=
  let! r := C_shift WORD Z.shiftr (u_ v1) (Int_val v2) in Ok (caml_copy_nativeint r).
Definition caml_nativeint_of_int (v : Z) : Z := caml_copy_nativeint (Long_val v).
Definition caml_nativeint_to_int (v : Z) : Z := Val_long v.
Definition caml_nativeint_of_int32 (v : Z) : Z := caml_copy_nativeint v.
Definition caml_nativeint_to_int32 (v : Z) : Z := caml_copy_int32 v.
Definition caml_nativeint_compare (v1 v2 : Z) : Z :=
  Val_int (b2z (v2 <? v1) - b2z (v1 <? v2)).

(** ** Int64, over either implementation *)

Section Int64Prims.
Context {Op : Int64Ops}.

Definition caml_copy_int64 (i : int64_t) : int64_t := i.
Definition int64_cmp (v1 v2 : int64_t) : Z := i64_compare v1 v2.
Definition int64_hash (v : int64_t) : Z := i64_to_intnat v.
Definition caml_int64_neg (v : int64_t) : int64_t := caml_copy_int64 (i64_neg v).
Definition caml_int64_add (v1 v2 : int64_t) : int64_t := caml_copy_int64 (i64_add v1 v2).
Definition caml_int64_sub (v1 v2 : int64_t) : int64_t := caml_copy_int64 (i64_sub v1 v2).
Definition caml_int64_mul (v1 v2 : int64_t) : int64_t := caml_copy_int64 (i64_mul v1 v2).

Definition caml_int64_div (v1 v2 : int64_t) : res int64_t :=
  let dividend := v1 in
  let divisor := v2 in
  if i64_is_zero divisor then Raise Division_by_zero
  else if i64_is_min_int dividend && i64_is_minus_one divisor then Ok v1
  else let! q := i64_div v1 divisor in Ok (caml_copy_int64 q).

Definition caml_int64_mod (v1 v2 : int64_t) : res int64_t :=
  let dividend := v1 in
  let divisor := v2 in
  if i64_is_zero divisor then Raise Division_by_zero
  else if i64_is_min_int dividend && i64_is_minus_one divisor
  then Ok (caml_copy_int64 (i64_literal 0 0))
  else let! r := i64_mod v1 divisor in Ok (caml_copy_int64 r).

Definition caml_int64_and (v1 v2 : int64_t) : int64_t := caml_copy_int64 (i64_and v1 v2).
Definition caml_int64_or (v1 v2 : int64_t) : int64_t := caml_copy_int64 (i64_or v1 v2).
Definition caml_int64_xor (v1 v2 : int64_t) : int64_t := caml_copy_int64 (i64_xor v1 v2).
Definition caml_int64_shift_left (v1 : int64_t) (v2 : Z) : res int64_t :=
  let! r := i64_lsl v1 (Int_val v2) in Ok (caml_copy_int64 r).
Definition caml_int64_shift_right (v1 : int64_t) (v2 : Z) : res int64_t :=
  let! r := i64_asr v1 (Int_val v2) in Ok (caml_copy_int64 r).
Definition caml_int64_shift_right_unsigned (v1 : int64_t) (v2 : Z) : res int64_t :=
  let! r := i64_lsr v1 (Int_val v2) in Ok (caml_copy_int64 r).
Definition caml_int64_of_int (v : Z) : int64_t := caml_copy_int64 (i64_of_intnat (Long_val v)).
Definition caml_int64_to_int (v : int64_t) : Z := Val_long (i64_to_intnat v).
Definition caml_int64_of_int32 (v : Z) : int64_t := caml_copy_int64 (i64_of_int32 v).
Definition caml_int64_to_int32 (v : int64_t) : Z := caml_copy_int32 (i64_to_int32 v).
Definition caml_int64_of_nativeint (v : Z) : int64_t := caml_copy_int64 (i64_of_intnat v).
Definition caml_int64_to_nativeint (v : int64_t) : Z := caml_copy_nativeint (i64_to_intnat v).
Definition caml_int64_compare (v1 v2 : int64_t) : Z := Val_int (i64_compare v1 v2).
End Int64Prims.
End Ints.

(** ** Division: proofs *)

Lemma lxor_sign p q : (0 <=? Z.lxor p q) = Bool.eqb (0 <=? p) (0 <=? q).
Proof.
  destruct (Z.leb_spec 0 (Z.lxor p q)) as [H | H].
  - apply Z.lxor_nonneg in H. destruct (Z.leb_spec 0 p), (Z.leb_spec 0 q); auto; lia.
  - assert (~ (0 <= p <-> 0 <= q)) by (rewrite <- Z.lxor_nonneg; lia).
    destruct (Z.leb_spec 0 p), (Z.leb_spec 0 q); auto; lia.
Qed.

Section SafeDiv.
Context {A : Arch}.

Lemma WORD_pow : 2 ^ WORD = 2 * 2 ^ (WORD - 1) /\ 0 < 2 ^ (WORD - 1).
Proof.
  pose proof WORD_pos. split; [|apply pow2_pos; lia].
  rewrite <- Z.pow_succ_r by lia. f_equal. lia.
Qed.

(** The absolute value computed by the conditional, also for the least integer. *)
Lemma safe_abs p : sint WORD p -> u_ (if 0 <=? p then p else i_ (- p)) = Z.abs p.
Proof.
  intros Hp. pose proof WORD_pow. pose proof WORD_pos. unfold sint in Hp. unfold u_, i_.
  destruct (Z.leb_spec 0 p).
  - rewrite wrap_small; lia.
  - rewrite wrap_swrap, wrap_small; lia.
Qed.

Lemma caml_safe_div_spec p q : sint WORD p -> sint WORD q -> q <> 0 ->
  caml_safe_div p q = Ok (swrap WORD (Z.quot p q)).
Proof.
  intros Hp Hq Hnz. unfold caml_safe_div. cbv zeta. rewrite !safe_abs, lxor_sign by auto.
  rewrite (proj2 (Z.eqb_neq (Z.abs q) 0)) by lia. f_equal. unfold i_, u_.
  rewrite Z.quot_div by auto. pose proof WORD_pos.
  destruct (Z.eq_dec p 0) as [->|].
  { rewrite Z.div_0_l by lia. now destruct (Bool.eqb _ _); rewrite ?swrap_wrap by lia. }
  destruct (Z.leb_spec 0 p), (Z.leb_spec 0 q); cbn [Bool.eqb];
    rewrite ?swrap_wrap by lia; f_equal;
    rewrite ?(Z.sgn_pos p), ?(Z.sgn_neg p), ?(Z.sgn_pos q), ?(Z.sgn_neg q) by lia; lia.
Qed.

Lemma caml_safe_mod_spec p q : sint WORD p -> sint WORD q -> q <> 0 ->
  caml_safe_mod p q = Ok (swrap WORD (Z.rem p q)).
Proof.
  intros Hp Hq Hnz. unfold caml_safe_mod. cbv zeta. rewrite !safe_abs by auto.
  rewrite (proj2 (Z.eqb_neq (Z.abs q) 0)) by lia. f_equal. unfold i_, u_.
  rewrite Z.rem_mod by auto. pose proof WORD_pos.
  destruct (Z.eq_dec p 0) as [->|]; [rewrite Z.mod_0_l by lia; reflexivity|].
  destruct (Z.leb_spec 0 p); rewrite ?swrap_wrap by lia; f_equal;
    rewrite ?(Z.sgn_pos p), ?(Z.sgn_neg p) by lia; lia.
Qed.

(** The guards of the primitives leave only quotients that do not overflow. *)
Lemma guard_cases w x y : (x =? swrap w (Z.shiftl 1 (w - 1))) && (y =? -1) = false -> 0 < w ->
  (x =? - 2 ^ (w - 1)) && (y =? -1) = false.
Proof.
  intros H Hw. rewrite Z.shiftl_mul_pow2, Z.mul_1_l in H by lia.
  replace (swrap w (2 ^ (w - 1))) with (- 2 ^ (w - 1)) in H; auto.
  assert (E : 2 ^ w = 2 * 2 ^ (w - 1)) by (rewrite <- Z.pow_succ_r by lia; f_equal; lia).
  pose proof (pow2_pos (w - 1) ltac:(lia)).
  unfold swrap. rewrite wrap_small by lia. zbool; lia.
Qed.

Lemma min_div_minus_one w : 0 < w -> swrap w (Z.shiftl 1 (w - 1)) = swrap w (Z.quot (swrap w (Z.shiftl 1 (w - 1))) (-1)).
Proof.
  intros Hw. rewrite Z.shiftl_mul_pow2, Z.mul_1_l by lia.
  assert (E : 2 ^ w = 2 * 2 ^ (w - 1)) by (rewrite <- Z.pow_succ_r by lia; f_equal; lia).
  pose proof (pow2_pos (w - 1) ltac:(lia)).
  assert (S : swrap w (2 ^ (w - 1)) = - 2 ^ (w - 1)) by (unfold swrap; rewrite wrap_small by lia; zbool; lia).
  change (-1) with (- (1)). rewrite Z.quot_opp_r, Z.quot_1_r by lia.
  rewrite S, Z.opp_involutive. congruence.
Qed.

Lemma sint_le w x : 0 < w <= WORD -> sint w x -> sint WORD x.
Proof.
  intros Hw Hx. unfold sint in *.
  pose proof (Z.pow_le_mono_r 2 (w - 1) (WORD - 1) ltac:(lia)). lia.
Qed.

(** The common body of the Int32 and Nativeint divisions. *)
Lemma boxed_div w ns v1 v2 : 0 < w <= WORD -> sint w v1 -> sint w v2 -> v2 <> 0 ->
  (if (v1 =? swrap w (Z.shiftl 1 (w - 1))) && (v2 =? -1) then Ok v1
   else if ns : bool then let! q := caml_safe_div v1 v2 in Ok (swrap w q)
   else let! q := C_quot w v1 v2 in Ok (swrap w q)) = Ok (swrap w (Z.quot v1 v2)).
Proof.
  intros Hw H1 H2 Hnz.
  destruct ((v1 =? swrap w (Z.shiftl 1 (w - 1))) && (v2 =? -1)) eqn:G.
  - apply andb_true_iff in G as [G1 G2]. apply Z.eqb_eq in G1, G2. subst v1 v2. f_equal.
    apply min_div_minus_one. lia.
  - apply guard_cases in G; [|lia]. unfold C_quot. rewrite G, (proj2 (Z.eqb_neq v2 0) Hnz).
    destruct ns; auto. rewrite caml_safe_div_spec by eauto using sint_le. f_equal.
    destruct (swrap_eqm WORD (Z.quot v1 v2)) as [q ->]; [lia|].
    apply swrap_congr with (q * 2 ^ (WORD - w)).
    rewrite <- Z.mul_assoc, <- Z.pow_add_r by lia. now replace (WORD - w + w) with WORD by lia.
Qed.

Lemma boxed_mod w ns v1 v2 : 0 < w <= WORD -> sint w v1 -> sint w v2 -> v2 <> 0 ->
  (if (v1 =? swrap w (Z.shiftl 1 (w - 1))) && (v2 =? -1) then Ok (swrap w 0)
   else if ns : bool then let! q := caml_safe_mod v1 v2 in Ok (swrap w q)
   else let! q := C_rem w v1 v2 in Ok (swrap w q)) = Ok (swrap w (Z.rem v1 v2)).
Proof.
  intros Hw H1 H2 Hnz.
  destruct ((v1 =? swrap w (Z.shiftl 1 (w - 1))) && (v2 =? -1)) eqn:G.
  - apply andb_true_iff in G as [_ G2]. apply Z.eqb_eq in G2. subst v2. f_equal. f_equal.
    change (-1) with (- (1)). now rewrite Z.rem_opp_r, Z.rem_1_r by lia.
  - apply guard_cases in G; [|lia]. unfold C_rem. rewrite G, (proj2 (Z.eqb_neq v2 0) Hnz).
    destruct ns; auto. rewrite caml_safe_mod_spec by eauto using sint_le. f_equal.
    destruct (swrap_eqm WORD (Z.rem v1 v2)) as [q ->]; [lia|].
    apply swrap_congr with (q * 2 ^ (WORD - w)).
    rewrite <- Z.mul_assoc, <- Z.pow_add_r by lia. now replace (WORD - w + w) with WORD by lia.
Qed.

(** Division and remainder on Int32 and Nativeint, in both the standard and
    the NONSTANDARD_DIV_MOD configuration: a zero divisor raises
    [Division_by_zero]; otherwise the result is the truncated quotient (resp.
    remainder) reduced to the width, also for [min_int / -1]; no operand
    reaches the C operators where they are undefined. *)
Theorem boxed_div_mod_correct (ns : bool) (v1 v2 n1 n2 : Z) :
  sint 32 v1 -> sint 32 v2 -> sint WORD n1 -> sint WORD n2 ->
  caml_int32_div ns v1 v2 =
    (if v2 =? 0 then Raise Division_by_zero else Ok (swrap 32 (Z.quot v1 v2))) /\
  caml_int32_mod ns v1 v2 =
    (if v2 =? 0 then Raise Division_by_zero else Ok (swrap 32 (Z.rem v1 v2))) /\
  caml_nativeint_div ns n1 n2 =
    (if n2 =? 0 then Raise Division_by_zero else Ok (swrap WORD (Z.quot n1 n2))) /\
  caml_nativeint_mod ns n1 n2 =
    (if n2 =? 0 then Raise Division_by_zero else Ok (swrap WORD (Z.rem n1 n2))).
Proof.
  intros H1 H2 H3 H4. pose proof WORD_pos.
  unfold caml_int32_div, caml_int32_mod, caml_nativeint_div, caml_nativeint_mod. cbv zeta.
  destruct (Z.eqb_spec v2 0), (Z.eqb_spec n2 0); conj; auto.
  all: first [ apply (boxed_div 32 ns v1 v2); auto; lia | apply (boxed_mod 32 ns v1 v2); auto; lia
             | apply (boxed_div WORD ns n1 n2); auto; lia | apply (boxed_mod WORD ns n1 n2); auto; lia ].
Qed.
End SafeDiv.

Lemma boxed_div_mod_witness :
  sint 32 (- 2 ^ 31) /\ @caml_int32_div arch64 true (- 2 ^ 31) (-1) = Ok (- 2 ^ 31) /\
  @caml_nativeint_mod arch64 true (-7) 2 = Ok (-1).
Proof.
  pose proof (@boxed_div_mod_correct arch64 true (- 2 ^ 31) (-1) (-7) 2) as H.
  destruct H as (H1 & _ & _ & H4); try (split; cbn; lia).
  split; [split; cbn; lia|]. split; [rewrite H1; reflexivity | rewrite H4; reflexivity].
Defined.

(** ** Int64 *)

Section Int64Div.
Context {A : Arch} {O : Int64Ops} {K : Int64Ok O}.

(** [caml_int64_div] and [caml_int64_mod], over any implementation that
    satisfies the 64-bit interface: a zero divisor raises [Division_by_zero];
    otherwise the result is the truncated quotient (resp. remainder) modulo
    2^64, and the guard on [min_int / -1] makes the primitives total. *)
Theorem int64_div_mod_correct (x y : int64_t) : valid x -> valid y ->
  (sv y = 0 -> caml_int64_div x y = Raise Division_by_zero /\
               caml_int64_mod x y = Raise Division_by_zero) /\
  (sv y <> 0 -> exists q r,
     caml_int64_div x y = Ok q /\ caml_int64_mod x y = Ok r /\ valid q /\ valid r /\
     sv q = swrap 64 (Z.quot (sv x) (sv y)) /\ sv r = Z.rem (sv x) (sv y)).
Proof.
  intros Hx Hy. unfold caml_int64_div, caml_int64_mod, caml_copy_int64. cbv zeta.
  rewrite is_zero_ok, is_min_int_ok, is_minus_one_ok by auto. split.
  - intros ->. auto.
  - intros Hnz. rewrite (proj2 (Z.eqb_neq _ _) Hnz).
    destruct (Z.eqb_spec (sv x) (- 2 ^ 63)) as [E1|E1], (Z.eqb_spec (sv y) (-1)) as [E2|E2]; cbn [andb].
    1: { destruct (literal_ok 0 0) as [V0 S0]; [split; lia | split; lia|].
         exists x, (i64_literal 0 0). rewrite S0, E1, E2. conj; auto. }
    all: assert (Hov : sv x <> - 2 ^ 63 \/ sv y <> -1) by auto.
    all: destruct (div_ok x y Hx Hy Hnz Hov) as (q & -> & Vq & Sq);
         destruct (mod_ok x y Hx Hy Hnz Hov) as (r & -> & Vr & Sr).
    all: exists q, r; conj; auto; rewrite Sq; symmetry; apply swrap_small64.
    all: rewrite <- Sq; now apply sv_range.
Qed.
End Int64Div.

Lemma int64_div_mod_witness : exists q,
  @caml_int64_div int64_emul (I64 0x80000000 0) (I64 0xFFFFFFFF 0xFFFFFFFF) = Ok q /\ sval q = - 2 ^ 63.
Proof.
  destruct (@int64_div_mod_correct arch32 int64_emul (@int64_emul_ok arch32 eq_refl)
              (I64 0x80000000 0) (I64 0xFFFFFFFF 0xFFFFFFFF)) as [_ H].
  - repeat split; cbn; lia.
  - repeat split; cbn; lia.
  - destruct H as (q & r & H1 & _ & _ & _ & H2 & _); [cbv; discriminate|].
    exists q. split; [exact H1 | rewrite <- (eq_refl : swrap 64 (2 ^ 63) = - 2 ^ 63); exact H2].
Defined.
