(* ===== verification/ExternOutput.v ===== *)
(** ExternOutput: the output side of marshalling, src/inline-more/byterun/
    extern.c lines 123-286 and 603-721 with reverse.h: the chain of output
    blocks, the primitive writers and the functions for user-defined
    marshallers.  The chain is proved to implement an append-only byte
    sequence, with the capacity of a user-provided buffer respected. *)
From Stdlib Require Import ZArith Lia Bool Ascii String List.
From S2P Require Import Prelude Mlvalues.
Import ListNotations.
Local Open Scope Z_scope.

(** ** State

    [blocks] are the contents of the output blocks already closed, oldest
    first; [cur] are the bytes between the start of the current block (or of
    the user-provided buffer) and [extern_ptr]; [cap] is the distance from that
    start to [extern_limit]. *)
Record extern_out := Out {
  userprovided : bool; blocks : list (list Z); cur : list Z; cap : Z }.

Definition SIZE_EXTERN_OUTPUT_BLOCK : Z := 8100.

Definition len (l : list Z) : Z := Z.of_nat (List.length l).

Definition init_extern_output : extern_out := Out false [] [] SIZE_EXTERN_OUTPUT_BLOCK.

(** [caml_output_value_to_buffer] and [caml_output_value_to_block]: a buffer of
    [size] bytes given by the caller. *)
Definition init_user_output (size : Z) : extern_out := Out true [] [] size.

(** A failing [malloc] is not modelled. *)
Definition grow_extern_output (required : Z) (s : extern_out) : res extern_out :=
  if userprovided s then Raise (Failure "Marshal.to_buffer: buffer overflow")
  else
    let extra := if required <=? SIZE_EXTERN_OUTPUT_BLOCK / 2 then 0 else required in
    Ok (Out false (blocks s ++ [cur s]) [] (SIZE_EXTERN_OUTPUT_BLOCK + extra)).

Definition extern_output_length (s : extern_out) : Z :=
  if userprovided s then len (cur s)
  else fold_left (fun n b => n + len b) (blocks s ++ [cur s]) 0.

(** The loops of [caml_output_value_to_string] and [caml_output_value_to_malloc]
    that copy the blocks, with the length of a block in an [int]: a negative
    length is a huge one for [memmove]. *)
Fixpoint collect_blocks (blks : list (list Z)) (r : list Z) : res (list Z) :=
  match blks with
  | [] => Ok r
  | b :: blks =>
      let n := swrap 32 (len b) in
      if n <? 0 then Stuck else collect_blocks blks (r ++ firstn (Z.to_nat n) b)
  end.
Definition extern_output_contents (s : extern_out) : res (list Z) :=
  collect_blocks (blocks s ++ [cur s]) [].

(** ** Writers *)

(** The test that precedes every write of [n] bytes. *)
Definition ensure (n : Z) (s : extern_out) : res extern_out :=
  if cap s <? len (cur s) + n then grow_extern_output n s else Ok s.
(** Stores at [extern_ptr], which is then advanced. *)
Definition put (bs : list Z) (s : extern_out) : extern_out :=
  Out (userprovided s) (blocks s) (cur s ++ bs) (cap s).

(** Conversion to [char]. *)
Definition byte (x : Z) : Z := wrap 8 x.

Definition Write (c : Z) (s : extern_out) : res extern_out :=
  let! s := (if cap s <=? len (cur s) then grow_extern_output 1 s else Ok s) in
  Ok (put [byte c] s).

Definition writeblock (data : list Z) (s : extern_out) : res extern_out :=
  let! s := ensure (len data) s in Ok (put data s).

Definition writecode8 (code val : Z) (s : extern_out) : res extern_out :=
  let! s := ensure 2 s in Ok (put [byte code; byte val] s).

Definition writecode16 (code val : Z) (s : extern_out) : res extern_out :=
  let! s := ensure 3 s in Ok (put [byte code; byte (Z.shiftr val 8); byte val] s).

Definition write32 (val : Z) (s : extern_out) : res extern_out :=
  let! s := ensure 4 s in
  Ok (put [byte (Z.shiftr val 24); byte (Z.shiftr val 16); byte (Z.shiftr val 8); byte val] s).

Definition writecode32 (code val : Z) (s : extern_out) : res extern_out :=
  let! s := ensure 5 s in
  Ok (put [byte code; byte (Z.shiftr val 24); byte (Z.shiftr val 16);
           byte (Z.shiftr val 8); byte val] s).

Fixpoint write_shifts (val : Z) (k : nat) (s : extern_out) : extern_out :=
  match k with
  | O => s
  | S k => write_shifts val k (put [byte (Z.shiftr val (8 * Z.of_nat k))] s)
  end.
Definition writecode64 (code val : Z) (s : extern_out) : res extern_out :=
  let! s := ensure 9 s in Ok (write_shifts val 8 (put [byte code] s)).

(** ** User-defined marshallers *)

Definition caml_serialize_int_1 (i : Z) (s : extern_out) : res extern_out :=
  let! s := ensure 1 s in Ok (put [byte i] s).
Definition caml_serialize_int_2 (i : Z) (s : extern_out) : res extern_out :=
  let! s := ensure 2 s in Ok (put [byte (Z.shiftr i 8); byte i] s).
Definition caml_serialize_int_4 (i : Z) (s : extern_out) : res extern_out :=
  let! s := ensure 4 s in
  Ok (put [byte (Z.shiftr i 24); byte (Z.shiftr i 16); byte (Z.shiftr i 8); byte i] s).

(** reverse.h, on the bytes at the source pointer. *)
Definition Reverse_16 (p : list Z) : list Z := [nth 1 p 0; nth 0 p 0].
Definition Reverse_32 (p : list Z) : list Z := [nth 3 p 0; nth 2 p 0; nth 1 p 0; nth 0 p 0].
Definition Reverse_64 (p : list Z) : list Z :=
  [nth 7 p 0; nth 6 p 0; nth 5 p 0; nth 4 p 0; nth 3 p 0; nth 2 p 0; nth 1 p 0; nth 0 p 0].

(** The loops over the [len] items of [size] bytes of a block. *)
Fixpoint reverse_items (reverse : list Z -> list Z) (size : nat) (p : list Z) (len : nat) : list Z :=
  match len with
  | O => []
  | S len => reverse p ++ reverse_items reverse size (skipn size p) len
  end.

Section Blocks.
Context {A : Arch}.

Definition serialize_items (reverse : list Z -> list Z) (size : nat) (data : list Z) (n : nat)
    (s : extern_out) : res extern_out :=
  let! s := ensure (Z.of_nat size * Z.of_nat n) s in
  Ok (put (if ARCH_BIG_ENDIAN then firstn (n * size) data
           else reverse_items reverse size data n) s).

Definition caml_serialize_block_1 (data : list Z) (n : nat) (s : extern_out) : res extern_out :=
  let! s := ensure (Z.of_nat n) s in Ok (put (firstn n data) s).
Definition caml_serialize_block_2 := serialize_items Reverse_16 2.
Definition caml_serialize_block_4 := serialize_items Reverse_32 4.
Definition caml_serialize_block_8 := serialize_items Reverse_64 8.

(** The bytes of an [n]-byte integer in memory. *)
Fixpoint le_bytes (n : nat) (x : Z) : list Z :=
  match n with O => [] | S n => byte x :: le_bytes n (Z.shiftr x 8) end.
Definition be_bytes (n : nat) (x : Z) : list Z := rev (le_bytes n x).
Definition mem_bytes (n : nat) (x : Z) : list Z :=
  if ARCH_BIG_ENDIAN then be_bytes n x else le_bytes n x.

(** [&i] of an [int64] *)
Definition caml_serialize_int_8 (i : Z) (s : extern_out) : res extern_out :=
  caml_serialize_block_8 (mem_bytes 8 i) 1 s.
End Blocks.

(** ** Specification: appending to a byte sequence *)

Definition output (s : extern_out) : list Z := concat (blocks s) ++ cur s.

(** [extern_ptr] never passes [extern_limit], and a user-provided buffer is the
    only block. *)
Definition out_ok (s : extern_out) : Prop :=
  len (cur s) <= cap s /\ (userprovided s = true -> blocks s = []).

(** The block the header of the message is in; writes only make it longer. *)
Definition first_block (s : extern_out) : list Z :=
  match blocks s with [] => cur s | b :: _ => b end.
Definition first_grows (s s' : extern_out) : Prop := exists t, first_block s' = first_block s ++ t.

Lemma first_grows_refl s : first_grows s s.
Proof. exists []. now rewrite app_nil_r. Qed.
Lemma first_grows_trans s1 s2 s3 : first_grows s1 s2 -> first_grows s2 s3 -> first_grows s1 s3.
Proof. intros [t1 E1] [t2 E2]. exists (t1 ++ t2). now rewrite E2, E1, app_assoc. Qed.
Lemma first_grows_put bs s : first_grows s (put bs s).
Proof.
  unfold first_grows, first_block, put. cbn [blocks cur].
  destruct (blocks s); [now exists bs | exists []; now rewrite app_nil_r].
Qed.
#[export] Hint Resolve first_grows_refl first_grows_put : core.

(** [op] appends [bs], or the user-provided buffer is too small for that. *)
Definition emits (op : extern_out -> res extern_out) (bs : list Z) : Prop :=
  forall s, out_ok s ->
  match op s with
  | Ok s' => out_ok s' /\ output s' = output s ++ bs /\ userprovided s' = userprovided s /\
             (userprovided s = true -> cap s' = cap s) /\ first_grows s s'
  | Raise e => userprovided s = true /\ e = Failure "Marshal.to_buffer: buffer overflow" /\
               cap s < len (output s) + len bs
  | Stuck => False
  end.

Lemma len_app l1 l2 : len (l1 ++ l2) = len l1 + len l2.
Proof. unfold len. rewrite length_app. lia. Qed.

Lemma len_nonneg l : 0 <= len l.
Proof. unfold len. lia. Qed.

Lemma output_user s : out_ok s -> userprovided s = true -> output s = cur s.
Proof. intros [_ H] U. unfold output. now rewrite (H U). Qed.

Lemma put_ok bs s : out_ok s -> len (cur s) + len bs <= cap s ->
  out_ok (put bs s) /\ output (put bs s) = output s ++ bs /\
  userprovided (put bs s) = userprovided s /\ cap (put bs s) = cap s.
Proof.
  intros [H1 H2] H. unfold put, out_ok, output; cbn [userprovided blocks cur cap].
  rewrite len_app, app_assoc. auto.
Qed.

(** Making room: afterwards [n] bytes fit, and nothing written is lost. *)
Lemma ensure_ok n s : 0 <= n -> out_ok s ->
  match ensure n s with
  | Ok s' => out_ok s' /\ output s' = output s /\ userprovided s' = userprovided s /\
             len (cur s') + n <= cap s' /\ (userprovided s = true -> cap s' = cap s) /\
             first_grows s s'
  | Raise e => userprovided s = true /\ e = Failure "Marshal.to_buffer: buffer overflow" /\
               cap s < len (output s) + n
  | Stuck => False
  end.
Proof.
  intros Hn Hs. unfold ensure, grow_extern_output.
  destruct (Z.ltb_spec (cap s) (len (cur s) + n)); [|conj; auto; apply Hs].
  destruct (userprovided s) eqn:U.
  - conj; auto. now rewrite output_user.
  - cbv zeta. unfold out_ok, output; cbn [userprovided blocks cur cap].
    rewrite concat_app, !app_nil_r. cbn [concat]. rewrite app_nil_r.
    change (len []) with 0. change (SIZE_EXTERN_OUTPUT_BLOCK / 2) with 4050.
    unfold SIZE_EXTERN_OUTPUT_BLOCK.
    assert (G : forall c, first_grows s (Out false (blocks s ++ [cur s]) [] c)).
    { intros c. unfold first_grows, first_block; cbn [blocks cur].
      exists []. now destruct (blocks s); cbn [app]; rewrite app_nil_r. }
    destruct (Z.leb_spec n 4050); conj; auto; try discriminate; lia.
Qed.

(** A writer that makes room for its bytes and stores them. *)
Lemma emits_put n bs : n = len bs ->
  emits (fun s => let! s := ensure n s in Ok (put bs s)) bs.
Proof.
  intros -> s Hs. pose proof (ensure_ok (len bs) s (len_nonneg bs) Hs) as E.
  destruct (ensure (len bs) s) as [s'|e|]; auto.
  destruct E as (H1 & H2 & H3 & H4 & H5 & H6).
  destruct (put_ok bs s' H1 H4) as (P1 & P2 & P3 & P4).
  conj; auto; try congruence. apply first_grows_trans with s'; auto.
Qed.

Lemma emits_ext op op' bs : (forall s, op s = op' s) -> emits op bs -> emits op' bs.
Proof. intros E H s Hs. rewrite <- E. now apply H. Qed.

(** Sequences of writers. *)
Lemma emits_seq op1 op2 bs1 bs2 : emits op1 bs1 -> emits op2 bs2 ->
  emits (fun s => let! s := op1 s in op2 s) (bs1 ++ bs2).
Proof.
  intros E1 E2 s Hs. specialize (E1 s Hs). destruct (op1 s) as [s1|e|]; auto.
  - destruct E1 as (H1 & H2 & H3 & H4 & H5). specialize (E2 s1 H1).
    destruct (op2 s1) as [s2|e|]; auto.
    + destruct E2 as (G1 & G2 & G3 & G4 & G5). conj; auto; try congruence.
      * rewrite G2, H2. symmetry. apply app_assoc.
      * intros U. rewrite G4 by congruence. auto.
      * now apply first_grows_trans with s1.
    + destruct E2 as (G1 & G2 & G3). conj; auto; try congruence.
      rewrite H2 in G3. rewrite !len_app in *. rewrite <- H4 by congruence. lia.
  - destruct E1 as (H1 & H2 & H3). conj; auto. rewrite len_app. pose proof (len_nonneg bs2). lia.
Qed.

Lemma Write_ensure c s : Write c s = let! s := ensure 1 s in Ok (put [byte c] s).
Proof.
  unfold Write, ensure. destruct (Z.leb_spec (cap s) (len (cur s))),
    (Z.ltb_spec (cap s) (len (cur s) + 1)); auto; lia.
Qed.

(** ** Big-endian encodings *)

(** The number a big-endian byte sequence denotes. *)
Definition be_val (l : list Z) : Z := fold_left (fun n b => n * 256 + b) l 0.

Lemma be_val_snoc l b : be_val (l ++ [b]) = be_val l * 256 + b.
Proof. unfold be_val. now rewrite fold_left_app. Qed.

Lemma le_bytes_length n : forall x, length (le_bytes n x) = n.
Proof. induction n; intros x; cbn; auto. Qed.

Lemma be_bytes_length n x : length (be_bytes n x) = n.
Proof. unfold be_bytes. rewrite length_rev. apply le_bytes_length. Qed.

Lemma mem_bytes_length {A : Arch} n x : length (mem_bytes n x) = n.
Proof.
  unfold mem_bytes. destruct ARCH_BIG_ENDIAN; [apply be_bytes_length | apply le_bytes_length].
Qed.

Lemma byte_split n x : wrap (8 * Z.of_nat (S n)) x =
  wrap (8 * Z.of_nat n) (Z.shiftr x 8) * 256 + byte x.
Proof.
  unfold wrap, byte. rewrite Z.shiftr_div_pow2 by lia. change (wrap 8 x) with (x mod 2 ^ 8).
  replace (8 * Z.of_nat (S n)) with (8 + 8 * Z.of_nat n) by lia.
  rewrite Z.pow_add_r by lia. rewrite Z.rem_mul_r by (try apply pow2_pos; lia).
  change (2 ^ 8) with 256. ring.
Qed.

Lemma be_val_be_bytes n : forall x, be_val (be_bytes n x) = wrap (8 * Z.of_nat n) x.
Proof.
  induction n as [|n IH]; intros x.
  - unfold wrap. now rewrite Z.mod_1_r.
  - unfold be_bytes. cbn [le_bytes rev]. rewrite be_val_snoc.
    change (rev (le_bytes n (Z.shiftr x 8))) with (be_bytes n (Z.shiftr x 8)).
    rewrite IH. symmetry. apply byte_split.
Qed.

Lemma be2 v : be_bytes 2 v = [byte (Z.shiftr v 8); byte v].
Proof. reflexivity. Qed.

Lemma be4 v : be_bytes 4 v =
  [byte (Z.shiftr v 24); byte (Z.shiftr v 16); byte (Z.shiftr v 8); byte v].
Proof. unfold be_bytes. cbn [le_bytes rev app]. now rewrite !Z.shiftr_shiftr by lia. Qed.

(** ** Every writer appends its encoding *)

Lemma Write_emits c : emits (Write c) [byte c].
Proof.
  apply emits_ext with (fun s => let! s := ensure 1 s in Ok (put [byte c] s)).
  - intros s. now rewrite Write_ensure.
  - now apply emits_put.
Qed.

Lemma writeblock_emits data : emits (writeblock data) data.
Proof. now apply emits_put. Qed.

Lemma writecode8_emits code v : emits (writecode8 code v) (byte code :: be_bytes 1 v).
Proof. now apply emits_put. Qed.

Lemma writecode16_emits code v : emits (writecode16 code v) (byte code :: be_bytes 2 v).
Proof. now apply emits_put. Qed.

Lemma write32_emits v : emits (write32 v) (be_bytes 4 v).
Proof. rewrite be4. now apply emits_put. Qed.

Lemma writecode32_emits code v : emits (writecode32 code v) (byte code :: be_bytes 4 v).
Proof. rewrite be4. now apply emits_put. Qed.

Lemma put_put bs1 bs2 s : put bs2 (put bs1 s) = put (bs1 ++ bs2) s.
Proof. unfold put; cbn [userprovided blocks cur cap]. now rewrite app_assoc. Qed.

Lemma writecode64_emits code v : emits (writecode64 code v) (byte code :: be_bytes 8 v).
Proof.
  apply emits_ext with (fun s => let! s := ensure 9 s in Ok (put (byte code :: be_bytes 8 v) s)).
  - intros s. unfold writecode64. destruct (ensure 9 s) as [s'|e|]; auto. f_equal.
    cbn [write_shifts]. now rewrite !put_put.
  - now apply emits_put.
Qed.

Lemma caml_serialize_int_1_emits i : emits (caml_serialize_int_1 i) (be_bytes 1 i).
Proof. now apply emits_put. Qed.

Lemma caml_serialize_int_2_emits i : emits (caml_serialize_int_2 i) (be_bytes 2 i).
Proof. now apply emits_put. Qed.

Lemma caml_serialize_int_4_emits i : emits (caml_serialize_int_4 i) (be_bytes 4 i).
Proof. rewrite be4. now apply emits_put. Qed.

(** *** Blocks of integers: the wire format does not depend on the machine *)

Section BlocksProof.
Context {A : Arch}.
Variable reverse : list Z -> list Z.
Variable size : nat.
Hypothesis reverse_rev : forall l r, length l = size -> reverse (l ++ r) = rev l.

Lemma reverse_items_spec xs :
  reverse_items reverse size (concat (map (le_bytes size) xs)) (length xs) =
  concat (map (be_bytes size) xs).
Proof.
  induction xs as [|x xs IH]; cbn [map concat reverse_items length]; auto.
  rewrite reverse_rev by apply le_bytes_length. fold (be_bytes size x). f_equal.
  rewrite skipn_app, le_bytes_length, Nat.sub_diag, skipn_all2 by (rewrite le_bytes_length; lia).
  exact IH.
Qed.

Lemma concat_length_const (f : Z -> list Z) xs :
  (forall x, length (f x) = size) -> length (concat (map f xs)) = (length xs * size)%nat.
Proof. intros H. induction xs; cbn; auto. rewrite length_app, H, IHxs. lia. Qed.

Lemma serialize_items_emits xs :
  emits (serialize_items reverse size (concat (map (mem_bytes size) xs)) (length xs))
        (concat (map (be_bytes size) xs)).
Proof.
  assert (L : length (concat (map (be_bytes size) xs)) = (length xs * size)%nat)
    by (apply concat_length_const; intros; apply be_bytes_length).
  assert (E : (if ARCH_BIG_ENDIAN then firstn (length xs * size) (concat (map (mem_bytes size) xs))
               else reverse_items reverse size (concat (map (mem_bytes size) xs)) (length xs)) =
              concat (map (be_bytes size) xs)).
  { unfold mem_bytes. destruct ARCH_BIG_ENDIAN.
    - rewrite <- L. apply firstn_all.
    - apply reverse_items_spec. }
  unfold serialize_items. rewrite E. apply emits_put. unfold len. rewrite L. lia.
Qed.
End BlocksProof.

Section BlockPrims.
Context {A : Arch}.

Lemma Reverse_32_rev l r : length l = 4%nat -> Reverse_32 (l ++ r) = rev l.
Proof. do 5 (destruct l as [|? l]; try discriminate). reflexivity. Qed.

Lemma Reverse_64_rev l r : length l = 8%nat -> Reverse_64 (l ++ r) = rev l.
Proof. do 9 (destruct l as [|? l]; try discriminate). reflexivity. Qed.

Lemma Reverse_16_rev l r : length l = 2%nat -> Reverse_16 (l ++ r) = rev l.
Proof. do 3 (destruct l as [|? l]; try discriminate). reflexivity. Qed.

Lemma caml_serialize_block_4_emits xs :
  emits (caml_serialize_block_4 (concat (map (mem_bytes 4) xs)) (length xs))
        (concat (map (be_bytes 4) xs)).
Proof. apply serialize_items_emits, Reverse_32_rev. Qed.

Lemma caml_serialize_int_8_emits i : emits (caml_serialize_int_8 i) (be_bytes 8 i).
Proof.
  pose proof (serialize_items_emits Reverse_64 8 Reverse_64_rev [i]) as H.
  cbn [map concat length] in H. rewrite !app_nil_r in H. exact H.
Qed.
End BlockPrims.

(** ** Collecting the output *)

Lemma collect_blocks_concat blks : forall r, len (concat blks) < 2 ^ 31 -> collect_blocks blks r = Ok (r ++ concat blks).
Proof.
  induction blks as [|b blks IH]; intros r; cbn [collect_blocks concat].
  - now rewrite app_nil_r.
  - rewrite len_app. intros L. pose proof (len_nonneg b). pose proof (len_nonneg (concat blks)).
    rewrite swrap_small by (change (2 ^ (32 - 1)) with (2 ^ 31); lia). rewrite (proj2 (Z.ltb_ge _ _)) by lia.
    rewrite IH by lia. unfold len at 1. now rewrite Nat2Z.id, firstn_all, app_assoc.
Qed.

(** The length of an output block of two gigabytes or more does not fit. *)
Lemma collect_large_block b blks r : 2 ^ 31 <= len b < 2 ^ 32 -> collect_blocks (b :: blks) r = Stuck.
Proof.
  intros H. cbn [collect_blocks]. unfold swrap. change (2 ^ (32 - 1)) with (2 ^ 31). rewrite wrap_small by lia.
  destruct (Z.ltb_spec (len b) (2 ^ 31)); [lia|]. now rewrite (proj2 (Z.ltb_lt _ 0)) by lia.
Qed.

Lemma extern_output_contents_spec s : len (output s) < 2 ^ 31 -> extern_output_contents s = Ok (output s).
Proof.
  intros H. unfold extern_output_contents, output in *. rewrite collect_blocks_concat, concat_app.
  - cbn [concat app]. now rewrite app_nil_r.
  - rewrite concat_app. cbn [concat]. now rewrite app_nil_r.
Qed.

Lemma fold_len blks : forall n, fold_left (fun n b => n + len b) blks n = n + len (concat blks).
Proof.
  induction blks as [|b blks IH]; intros n; cbn [fold_left concat].
  - change (len []) with 0. lia.
  - rewrite IH, len_app. lia.
Qed.

Lemma extern_output_length_spec s : out_ok s -> extern_output_length s = len (output s).
Proof.
  intros Hs. unfold extern_output_length. destruct (userprovided s) eqn:U.
  - now rewrite output_user.
  - rewrite fold_len. unfold output. rewrite concat_app, !len_app. cbn [concat].
    rewrite app_nil_r. lia.
Qed.

Lemma init_extern_output_ok : out_ok init_extern_output.
Proof. split; [vm_compute; discriminate | discriminate]. Qed.

(** A whole message: a sequence of writes. *)
Definition run (ops : list (extern_out -> res extern_out)) (s : extern_out) : res extern_out :=
  fold_left (fun r op => let! s := r in op s) ops (Ok s).

Lemma run_cons op ops s : run (op :: ops) s = let! s := op s in run ops s.
Proof.
  unfold run. cbn [fold_left]. destruct (op s) as [s'|e|]; auto.
  - induction ops; cbn; auto.
  - induction ops; cbn; auto.
Qed.

Lemma run_emits ops bss : Forall2 emits ops bss -> emits (run ops) (concat bss).
Proof.
  induction 1 as [|op bs ops bss E _ IH].
  - intros s Hs. cbn. conj; auto. now rewrite app_nil_r.
  - cbn [concat]. apply emits_ext with (fun s => let! s := op s in run ops s).
    + intros s. now rewrite run_cons.
    + now apply emits_seq.
Qed.

(** The chain of output blocks implements an append-only byte sequence:
    after any sequence of writes, started on a fresh chain, no write fails, the
    collected output is the concatenation of what the writes encode (however
    they fell across the 8100-byte blocks), and [extern_output_length] is its
    length, which is less than two gigabytes. *)
Theorem extern_output_sequence (ops : list (extern_out -> res extern_out)) (bss : list (list Z)) :
  Forall2 emits ops bss -> len (concat bss) < 2 ^ 31 ->
  exists s, run ops init_extern_output = Ok s /\
    extern_output_contents s = Ok (concat bss) /\ extern_output_length s = len (concat bss).
Proof.
  intros H Hl. pose proof (run_emits ops bss H _ init_extern_output_ok) as E.
  destruct (run ops init_extern_output) as [s|e|].
  - destruct E as (H1 & H2 & _). change (output init_extern_output ++ concat bss) with (concat bss) in H2.
    exists s. rewrite extern_output_contents_spec, extern_output_length_spec, H2 by (rewrite ?H2; auto). auto.
  - destruct E as [E _]. discriminate.
  - destruct E.
Qed.

Lemma extern_output_sequence_witness :
  exists s, run [write32 0x8495A6BE; writecode64 3 (-1); Write 0x41] init_extern_output = Ok s /\
    extern_output_contents s = Ok [0x84; 0x95; 0xA6; 0xBE; 3; 255; 255; 255; 255; 255; 255; 255; 255; 0x41].
Proof.
  destruct (extern_output_sequence [write32 0x8495A6BE; writecode64 3 (-1); Write 0x41]
    [be_bytes 4 0x8495A6BE; byte 3 :: be_bytes 8 (-1); [byte 0x41]]) as (s & H1 & H2 & _).
  - repeat constructor; first [apply write32_emits | apply writecode64_emits | apply Write_emits].
  - reflexivity.
  - exists s. split; [exact H1 | rewrite H2; reflexivity].
Defined.

(** A user-provided buffer of [size] bytes is never overrun: a sequence of
    writes either succeeds with all its bytes in the buffer, or raises
    [Failure Marshal.to_buffer: buffer overflow], and it does so exactly when
    the bytes do not fit. *)
Theorem extern_user_buffer_bounded (size : Z) (ops : list (extern_out -> res extern_out))
    (bss : list (list Z)) :
  0 <= size -> Forall2 emits ops bss ->
  (len (concat bss) <= size /\
   exists s, run ops (init_user_output size) = Ok s /\ cur s = concat bss) \/
  (size < len (concat bss) /\
   run ops (init_user_output size) = Raise (Failure "Marshal.to_buffer: buffer overflow")).
Proof.
  intros Hsz H. pose proof (run_emits ops bss H (init_user_output size)) as E.
  assert (Hs : out_ok (init_user_output size)) by (split; cbn; auto).
  specialize (E Hs). destruct (run ops (init_user_output size)) as [s|e|].
  - destruct E as (H1 & H2 & H3 & H4 & _). left.
    assert (C : cur s = concat bss).
    { rewrite <- (output_user s), H2; auto. }
    split; eauto. rewrite <- C. specialize (H4 eq_refl). cbn in H4. rewrite <- H4. apply H1.
  - destruct E as (_ & -> & H3). right. split; auto.
  - destruct E.
Qed.

Lemma extern_user_buffer_witness :
  run [write32 1; Write 2] (init_user_output 4) = Raise (Failure "Marshal.to_buffer: buffer overflow").
Proof.
  destruct (extern_user_buffer_bounded 4 [write32 1; Write 2] [be_bytes 4 1; [byte 2]]) as [[H _] | [_ H]].
  - lia.
  - repeat constructor; first [apply write32_emits | apply Write_emits].
  - exfalso. cbv in H. now apply H.
  - exact H.
Defined.
