(* ===== verification/InternInput.v ===== *)
(** InternInput: the input side of marshalling, src/inline-more/byterun/
    intern.c lines 66-99 and 588-715: the read macros and the functions for
    user-defined unmarshallers, proved inverse to the writers of ExternOutput
    whatever the word size and the endianness of the two machines. *)
From Stdlib Require Import ZArith Lia Bool Ascii String List.
From S2P Require Import Prelude Mlvalues ExternOutput.
Import ListNotations.
Local Open Scope Z_scope.

(** ** Reading

    [intern_src] is the list of the bytes left; reading past the end of the
    message is undefined. *)

Definition input (T : Type) := list Z -> res (T * list Z).

Section Reads.
Context {A : Arch}.

Definition Sign_extend_shift : Z := (WORD / 8 - 1) * 8.
Definition Sign_extend (x : Z) : Z :=
  Z.shiftr (swrap WORD (Z.shiftl x Sign_extend_shift)) Sign_extend_shift.

Definition read8u : input Z := fun src =>
  match src with a :: src => Ok (a, src) | _ => Stuck end.
Definition read8s : input Z := fun src =>
  match src with a :: src => Ok (Sign_extend a, src) | _ => Stuck end.
Definition read16u : input Z := fun src =>
  match src with a :: b :: src => Ok (Z.shiftl a 8 + b, src) | _ => Stuck end.
Definition read16s : input Z := fun src =>
  match src with a :: b :: src => Ok (swrap WORD (Z.shiftl (Sign_extend a) 8 + b), src) | _ => Stuck end.
Definition read32u : input Z := fun src =>
  match src with
  | a :: b :: c :: d :: src =>
      Ok (wrap WORD (Z.shiftl a 24 + Z.shiftl b 16 + Z.shiftl c 8 + d), src)
  | _ => Stuck
  end.
Definition read32s : input Z := fun src =>
  match src with
  | a :: b :: c :: d :: src =>
      Ok (swrap WORD (Z.shiftl (Sign_extend a) 24 + Z.shiftl b 16 + Z.shiftl c 8 + d), src)
  | _ => Stuck
  end.

(** Only compiled when ARCH_SIXTYFOUR. *)
Fixpoint read64s_loop (k : nat) (r : Z) : input Z := fun src =>
  match k with
  | O => Ok (r, src)
  | S k => match src with
           | b :: src => read64s_loop k (swrap WORD (Z.shiftl r 8 + b)) src
           | [] => Stuck
           end
  end.
Definition read64s : input Z := read64s_loop 8 0.

Definition readblock (len : nat) : input (list Z) := fun src =>
  if Nat.leb len (length src) then Ok (firstn len src, skipn len src) else Stuck.

(** ** User-defined unmarshallers *)

Definition caml_deserialize_uint_1 : input Z := read8u.
Definition caml_deserialize_sint_1 : input Z := fun src =>
  let! (n, src) := read8s src in Ok (swrap 32 n, src).
Definition caml_deserialize_uint_2 : input Z := read16u.
Definition caml_deserialize_sint_2 : input Z := fun src =>
  let! (n, src) := read16s src in Ok (swrap 32 n, src).
Definition caml_deserialize_uint_4 : input Z := fun src =>
  let! (n, src) := read32u src in Ok (wrap 32 n, src).
Definition caml_deserialize_sint_4 : input Z := fun src =>
  let! (n, src) := read32s src in Ok (swrap 32 n, src).

(** The destination block, as the list of its bytes. *)
Definition deserialize_items (reverse : list Z -> list Z) (size : nat) (n : nat) : input (list Z) :=
  fun src =>
    if Nat.leb (n * size) (length src)
    then Ok (if ARCH_BIG_ENDIAN then firstn (n * size) src else reverse_items reverse size src n,
             skipn (n * size) src)
    else Stuck.
Definition caml_deserialize_block_1 : nat -> input (list Z) := readblock.
Definition caml_deserialize_block_2 := deserialize_items Reverse_16 2.
Definition caml_deserialize_block_4 := deserialize_items Reverse_32 4.
Definition caml_deserialize_block_8 := deserialize_items Reverse_64 8.

(** The integer whose bytes in memory are [l]. *)
Definition mem_val (l : list Z) : Z := be_val (if ARCH_BIG_ENDIAN then l else rev l).

Definition caml_deserialize_uint_8 : input Z := fun src =>
  let! (data, src) := caml_deserialize_block_8 1 src in Ok (wrap 64 (mem_val data), src).
Definition caml_deserialize_sint_8 : input Z := fun src =>
  let! (data, src) := caml_deserialize_block_8 1 src in Ok (swrap 64 (mem_val data), src).

Definition caml_deserialize_error {T} (msg : string) : res T := Raise (Failure msg).
End Reads.

(** ** Proofs *)

Lemma byte_range x : 0 <= byte x < 256.
Proof. apply (wrap_range 8). lia. Qed.

Lemma be_bytes_range n : forall x, Forall (fun b => 0 <= b < 256) (be_bytes n x).
Proof.
  unfold be_bytes. induction n as [|n IH]; intros x; cbn [le_bytes rev]; auto.
  apply Forall_app; split; auto. constructor; auto. apply byte_range.
Qed.

Section ReadsProof.
Context {A : Arch}.

Lemma Sign_extend_byte a : 0 <= a < 256 -> Sign_extend a = swrap 8 a.
Proof.
  intros Ha. unfold Sign_extend, Sign_extend_shift.
  destruct WORD_cases as [-> | ->].
  - change ((32 / 8 - 1) * 8) with 24. rewrite Z.shiftl_mul_pow2, Z.shiftr_div_pow2 by lia.
    unfold swrap. rewrite !wrap_small by lia. change (32 - 1) with 31. change (8 - 1) with 7.
    zbool; try lia.
    + now rewrite Z.div_mul by lia.
    + replace (a * 2 ^ 24 - 2 ^ 32) with ((a - 2 ^ 8) * 2 ^ 24) by lia. now rewrite Z.div_mul by lia.
  - change ((64 / 8 - 1) * 8) with 56. rewrite Z.shiftl_mul_pow2, Z.shiftr_div_pow2 by lia.
    unfold swrap. rewrite !wrap_small by lia. change (64 - 1) with 63. change (8 - 1) with 7.
    zbool; try lia.
    + now rewrite Z.div_mul by lia.
    + replace (a * 2 ^ 56 - 2 ^ 64) with ((a - 2 ^ 8) * 2 ^ 56) by lia. now rewrite Z.div_mul by lia.
Qed.

Lemma read8u_spec v r : read8u (be_bytes 1 v ++ r) = Ok (wrap 8 v, r).
Proof. reflexivity. Qed.

Lemma read8s_spec v r : read8s (be_bytes 1 v ++ r) = Ok (swrap 8 v, r).
Proof.
  cbn [be_bytes le_bytes rev app read8s]. rewrite Sign_extend_byte by apply byte_range.
  unfold byte. now rewrite swrap_wrap by lia.
Qed.

(** Big-endian digits of a two- or four-byte number. *)
Lemma be2_val v : byte (Z.shiftr v 8) * 256 + byte v = wrap 16 v.
Proof. exact (be_val_be_bytes 2 v). Qed.

Lemma be4_val v : byte (Z.shiftr v 24) * 2 ^ 24 + byte (Z.shiftr v 16) * 2 ^ 16 +
  byte (Z.shiftr v 8) * 2 ^ 8 + byte v = wrap 32 v.
Proof.
  change (wrap 32 v) with (wrap (8 * Z.of_nat 4) v).
  rewrite <- (be_val_be_bytes 4 v), be4. unfold be_val. cbn [fold_left]. ring. Qed.

Lemma read16u_spec v r : read16u (be_bytes 2 v ++ r) = Ok (wrap 16 v, r).
Proof.
  rewrite be2. cbn [app read16u]. now rewrite Z.shiftl_mul_pow2, be2_val by lia.
Qed.

Lemma swrap_byte_cases a : 0 <= a < 256 ->
  (a < 128 /\ swrap 8 a = a) \/ (128 <= a /\ swrap 8 a = a - 256).
Proof.
  intros Ha. unfold swrap. rewrite wrap_small by (change (2 ^ 8) with 256; lia).
  change (2 ^ (8 - 1)) with 128. change (2 ^ 8) with 256. zbool; lia.
Qed.

Lemma swrap_unique w z y q : 0 < w -> sint w y -> y = z + q * 2 ^ w -> y = swrap w z.
Proof.
  intros Hw Hy E. rewrite <- (swrap_small w y) by auto. now apply swrap_congr with q.
Qed.

Lemma sint_WORD x : sint 32 x -> swrap WORD x = x.
Proof.
  intros Hx. destruct WORD_cases as [-> | ->]; unfold sint in Hx; apply swrap_small; lia.
Qed.

Lemma read16s_spec v r : read16s (be_bytes 2 v ++ r) = Ok (swrap 16 v, r).
Proof.
  rewrite be2. cbn [app read16s]. do 2 f_equal.
  pose proof (byte_range (Z.shiftr v 8)) as Ha. pose proof (byte_range v) as Hb.
  pose proof (be2_val v) as E. destruct (wrap_eqm 16 v ltac:(lia)) as [q Eq].
  rewrite Sign_extend_byte, Z.shiftl_mul_pow2 by (auto; lia).
  set (a := byte (Z.shiftr v 8)) in *. set (b := byte v) in *. clearbody a b.
  destruct (swrap_byte_cases a Ha) as [[Hc ->] | [Hc ->]].
  - rewrite sint_WORD by (unfold sint; lia).
    apply swrap_unique with (- q); [lia | unfold sint; lia | lia].
  - rewrite sint_WORD by (unfold sint; lia).
    apply swrap_unique with (- q - 1); [lia | unfold sint; lia | lia].
Qed.

Lemma read32u_spec v r : read32u (be_bytes 4 v ++ r) = Ok (wrap 32 v, r).
Proof.
  rewrite be4. cbn [app read32u]. do 2 f_equal. rewrite !Z.shiftl_mul_pow2, be4_val by lia.
  pose proof (wrap_range 32 v ltac:(lia)).
  destruct WORD_cases as [-> | ->]; apply wrap_small; lia.
Qed.

Lemma read32s_spec v r : read32s (be_bytes 4 v ++ r) = Ok (swrap 32 v, r).
Proof.
  rewrite be4. cbn [app read32s]. do 2 f_equal.
  pose proof (byte_range (Z.shiftr v 24)) as Ha. pose proof (byte_range (Z.shiftr v 16)) as Hb.
  pose proof (byte_range (Z.shiftr v 8)) as Hc. pose proof (byte_range v) as Hd.
  pose proof (be4_val v) as E. destruct (wrap_eqm 32 v ltac:(lia)) as [q Eq].
  rewrite Sign_extend_byte, !Z.shiftl_mul_pow2 by (auto; lia).
  set (a := byte (Z.shiftr v 24)) in *. set (b := byte (Z.shiftr v 16)) in *.
  set (c := byte (Z.shiftr v 8)) in *. set (d := byte v) in *. clearbody a b c d.
  destruct (swrap_byte_cases a Ha) as [[Hx ->] | [Hx ->]].
  - rewrite sint_WORD by (unfold sint; lia).
    apply swrap_unique with (- q); [lia | unfold sint; lia | lia].
  - rewrite sint_WORD by (unfold sint; lia).
    apply swrap_unique with (- q - 1); [lia | unfold sint; lia | lia].
Qed.

(** The accumulator of [read64s] is the value read so far, reduced. *)
Lemma read64s_loop_spec k : forall acc bs r, WORD = 64 -> length bs = k ->
  read64s_loop k (swrap 64 acc) (bs ++ r) =
  Ok (swrap 64 (fold_left (fun n b => n * 256 + b) bs acc), r).
Proof.
  induction k as [|k IH]; intros acc [|b bs] r HW L; try discriminate; auto.
  cbn [read64s_loop app fold_left]. injection L as L. rewrite HW.
  replace (swrap 64 (Z.shiftl (swrap 64 acc) 8 + b)) with (swrap 64 (acc * 256 + b)).
  - now apply IH.
  - rewrite Z.shiftl_mul_pow2 by lia. destruct (swrap_eqm 64 acc ltac:(lia)) as [q ->].
    apply swrap_congr with (- q * 256). change (2 ^ 8) with 256. ring.
Qed.

Lemma read64s_spec v r : WORD = 64 -> read64s (be_bytes 8 v ++ r) = Ok (swrap 64 v, r).
Proof.
  intros HW. unfold read64s. change 0 with (swrap 64 0).
  rewrite read64s_loop_spec by (auto; apply be_bytes_length).
  change (fold_left (fun n b => n * 256 + b) (be_bytes 8 v) 0) with (be_val (be_bytes 8 v)).
  rewrite be_val_be_bytes. now rewrite swrap_wrap by (cbn; lia).
Qed.

Lemma deserialize_uint_4_spec v r : caml_deserialize_uint_4 (be_bytes 4 v ++ r) = Ok (wrap 32 v, r).
Proof. unfold caml_deserialize_uint_4. rewrite read32u_spec. now rewrite wrap_idemp by lia. Qed.

Lemma deserialize_sint_4_spec v r : caml_deserialize_sint_4 (be_bytes 4 v ++ r) = Ok (swrap 32 v, r).
Proof. unfold caml_deserialize_sint_4. rewrite read32s_spec. now rewrite swrap_idemp by lia. Qed.

(** *** Blocks *)

Section Items.
Variable reverse : list Z -> list Z.
Variable size : nat.
Hypothesis reverse_rev : forall l r, length l = size -> reverse (l ++ r) = rev l.

Lemma reverse_items_be xs r :
  reverse_items reverse size (concat (map (be_bytes size) xs) ++ r) (length xs) =
  concat (map (le_bytes size) xs).
Proof.
  induction xs as [|x xs IH]; cbn [map concat reverse_items length]; auto.
  rewrite <- app_assoc, reverse_rev by apply be_bytes_length.
  unfold be_bytes at 1. rewrite rev_involutive. f_equal.
  rewrite skipn_app, be_bytes_length, Nat.sub_diag, skipn_all2 by (rewrite be_bytes_length; lia).
  exact IH.
Qed.

Lemma deserialize_items_spec xs r :
  deserialize_items reverse size (length xs) (concat (map (be_bytes size) xs) ++ r) =
  Ok (concat (map (mem_bytes size) xs), r).
Proof.
  assert (L : length (concat (map (be_bytes size) xs)) = (length xs * size)%nat)
    by (apply concat_length_const; intros; apply be_bytes_length).
  unfold deserialize_items. rewrite length_app, L.
  rewrite (proj2 (Nat.leb_le _ _)) by lia.
  rewrite skipn_app, L, Nat.sub_diag, skipn_all2 by lia. cbn [app skipn]. f_equal. f_equal.
  unfold mem_bytes. destruct ARCH_BIG_ENDIAN.
  - rewrite <- L, firstn_app, Nat.sub_diag, firstn_all. cbn. apply app_nil_r.
  - apply reverse_items_be.
Qed.
End Items.

Lemma mem_val_mem_bytes n x : mem_val (mem_bytes n x) = wrap (8 * Z.of_nat n) x.
Proof.
  unfold mem_val, mem_bytes. destruct ARCH_BIG_ENDIAN; apply be_val_be_bytes.
Qed.

Lemma deserialize_sint_8_spec v r : caml_deserialize_sint_8 (be_bytes 8 v ++ r) = Ok (swrap 64 v, r).
Proof.
  unfold caml_deserialize_sint_8, caml_deserialize_block_8.
  pose proof (deserialize_items_spec Reverse_64 8 Reverse_64_rev [v] r) as H.
  cbn [map concat length] in H. rewrite !app_nil_r in H. rewrite H, mem_val_mem_bytes.
  now rewrite swrap_wrap by (cbn; lia).
Qed.
End ReadsProof.
