(* ===== verification/Custom.v ===== *)
(** Custom: the marshalling of boxed integers and big naturals: the
    [serialize] and [deserialize] functions of ints.c (lines 211-222, 387-405,
    612-649) and of src/inline-more/otherlibs/num/nat_stubs.c (lines 336-391).
    A value written on one machine and read on another keeps its numeric
    value, for every combination of word size and endianness, or the reader
    raises the documented error. *)
From Stdlib Require Import ZArith Lia Bool Ascii String List.
From S2P Require Import Prelude Mlvalues ExternOutput InternInput.
Import ListNotations.
Local Open Scope Z_scope.

(** ** Writers: the new output state, and the sizes on 32- and 64-bit machines *)

Definition writer := extern_out -> res (extern_out * (Z * Z)).

Definition int32_serialize (v : Z) : writer := fun s =>
  let! s := caml_serialize_int_4 v s in Ok (s, (4, 4)).
(** Reader of the contents of the block and of its size in bytes. *)
Definition int32_deserialize {A : Arch} : input (Z * Z) := fun src =>
  let! (i, src) := caml_deserialize_sint_4 src in Ok ((i, 4), src).

Definition int64_serialize {A : Arch} (v : Z) : writer := fun s =>
  let! s := caml_serialize_int_8 v s in Ok (s, (8, 8)).
Definition int64_deserialize {A : Arch} : input (Z * Z) := fun src =>
  let! (i, src) := caml_deserialize_sint_8 src in Ok ((i, 8), src).

Definition nativeint_serialize {A : Arch} (v : Z) : writer := fun s =>
  let l := v in
  let! s :=
    (if ARCH_SIXTYFOUR then
       if (l <=? 0x7FFFFFFF) && (- 0x80000000 <=? l) then
         let! s := caml_serialize_int_1 1 s in caml_serialize_int_4 (swrap 32 l) s
       else
         let! s := caml_serialize_int_1 2 s in caml_serialize_int_8 l s
     else
       let! s := caml_serialize_int_1 1 s in caml_serialize_int_4 l s) in
  Ok (s, (4, 8)).

(** [sizeof_long] is [sizeof(long)], which is not that of [intnat] on LLP64. *)
Definition nativeint_deserialize {A : Arch} (sizeof_long : Z) : input (Z * Z) := fun src =>
  let! (code, src) := caml_deserialize_uint_1 src in
  let! (n, src) :=
    (if code =? 1 then caml_deserialize_sint_4 src
     else if code =? 2 then
       if ARCH_SIXTYFOUR then caml_deserialize_sint_8 src
       else caml_deserialize_error "input_value: native integer value too large"
     else caml_deserialize_error "input_value: ill-formed native integer") in
  Ok ((n, sizeof_long), src).

(** ** Naturals

    [data] are the bytes of the [ndigits] digits of a nat, as in memory. *)

(** [p[i]] for a pointer to 32-bit integers *)
Definition int32_at {A : Arch} (p : list Z) (i : nat) : Z :=
  mem_val (firstn 4 (skipn (4 * i) p)).

(** The loop of big-endian 64-bit machines, two words at a time. *)
Fixpoint serialize_nat_loop {A : Arch} (p : list Z) (i : nat) (s : extern_out) : res extern_out :=
  match i with
  | O => Ok s
  | S i =>
      let! s := caml_serialize_int_4 (swrap 32 (int32_at p 1)) s in
      let! s := caml_serialize_int_4 (swrap 32 (int32_at p 0)) s in
      serialize_nat_loop (skipn 8 p) i s
  end.

Definition serialize_nat {A : Arch} (data : list Z) (ndigits : nat) : writer := fun s =>
  let len := if ARCH_SIXTYFOUR then Z.of_nat ndigits * 2 else Z.of_nat ndigits in
  if ARCH_SIXTYFOUR && (Z.shiftl 1 32 <=? len)
  then Raise (Failure "output_value: nat too big")
  else
    let! s := caml_serialize_int_4 (swrap 32 len) s in
    let! s :=
      (if ARCH_SIXTYFOUR && ARCH_BIG_ENDIAN then serialize_nat_loop data ndigits s
       else caml_serialize_block_4 data (Z.to_nat len) s) in
    Ok (s, (len * 4, len * 4)).

(** The bytes stored at [dst] by the big-endian 64-bit loop, and the number of
    32-bit words. *)
Fixpoint deserialize_nat_loop {A : Arch} (fuel : nat) (i : nat) (len : Z) : input (list Z * Z) := fun src =>
  match fuel, i with
  | _, O => Ok (([], len), src)
  | _, 1%nat =>
      let! (lo, src) := caml_deserialize_uint_4 src in
      Ok ((mem_bytes 4 0 ++ mem_bytes 4 lo, len + 1), src)
  | S fuel, S (S i) =>
      let! (lo, src) := caml_deserialize_uint_4 src in
      let! (hi, src) := caml_deserialize_uint_4 src in
      let! (rest, len, src) := deserialize_nat_loop fuel i len src in
      Ok ((mem_bytes 4 hi ++ mem_bytes 4 lo ++ rest, len), src)
  | O, _ => Stuck
  end.

(** The bytes of the block and its size in bytes. *)
Definition deserialize_nat {A : Arch} : input (list Z * Z) := fun src =>
  let! (len, src) := caml_deserialize_uint_4 src in
  let! (dst, len, src) :=
    (if ARCH_SIXTYFOUR && ARCH_BIG_ENDIAN then deserialize_nat_loop (Z.to_nat len) (Z.to_nat len) len src
     else
       let! (dst, src) := caml_deserialize_block_4 (Z.to_nat len) src in
       if ARCH_SIXTYFOUR && negb (Z.land len 1 =? 0)
       then Ok ((dst ++ mem_bytes 4 0, len + 1), src)
       else Ok ((dst, len), src)) in
  Ok ((dst, len * 4), src).

(** ** Specification *)

(** A serializer appends [bs]; the sizes are ignored here. *)
Definition serializes (w : writer) (bs : list Z) : Prop :=
  emits (fun s => let! (s, _) := w s in Ok s) bs.

Definition sizeof_digit {A : Arch} : nat := if ARCH_SIXTYFOUR then 8%nat else 4%nat.

(** The bytes of a nat with the given digits, least significant first, and the
    number it denotes. *)
Definition nat_data {A : Arch} (ds : list Z) : list Z := concat (map (mem_bytes sizeof_digit) ds).

Fixpoint nat_val (w : Z) (ds : list Z) : Z :=
  match ds with [] => 0 | d :: ds => d + 2 ^ w * nat_val w ds end.

(** The digits of a nat as 32-bit words, and back, a missing high half being 0. *)
Definition words32 {A : Arch} (ds : list Z) : list Z :=
  if ARCH_SIXTYFOUR then concat (map (fun d => [wrap 32 d; Z.shiftr d 32]) ds) else ds.
Fixpoint pair_up (ws : list Z) : list Z :=
  match ws with
  | lo :: hi :: ws => (lo + 2 ^ 32 * hi) :: pair_up ws
  | [lo] => [lo]
  | [] => []
  end.
Definition digits_of_words {A : Arch} (ws : list Z) : list Z :=
  if ARCH_SIXTYFOUR then pair_up ws else ws.

(** ** Boxed integers *)

Lemma serializes_of (w : writer) op sz bs :
  (forall s, w s = let! s := op s in Ok (s, sz)) -> emits op bs -> serializes w bs.
Proof.
  intros E H. apply emits_ext with op; auto. intros s. rewrite E. now destruct (op s).
Qed.

Lemma int32_serializes v : serializes (int32_serialize v) (be_bytes 4 v).
Proof.
  apply serializes_of with (op := caml_serialize_int_4 v) (sz := (4, 4));
    [reflexivity | apply caml_serialize_int_4_emits].
Qed.

Lemma int64_serializes {A : Arch} v : serializes (int64_serialize v) (be_bytes 8 v).
Proof.
  apply serializes_of with (op := caml_serialize_int_8 v) (sz := (8, 8));
    [reflexivity | apply caml_serialize_int_8_emits].
Qed.

(** What a native integer looks like on the wire. *)
Definition nativeint_wire (v : Z) : list Z :=
  if (v <=? 0x7FFFFFFF) && (- 0x80000000 <=? v) then 1 :: be_bytes 4 v else 2 :: be_bytes 8 v.

Lemma le_bytes_congr n : forall x y q, x = y + q * 2 ^ (8 * Z.of_nat n) -> le_bytes n x = le_bytes n y.
Proof.
  induction n as [|n IH]; intros x y q E; auto. cbn [le_bytes].
  replace (8 * Z.of_nat (S n)) with (8 + 8 * Z.of_nat n) in E by lia.
  rewrite Z.pow_add_r in E by lia. f_equal.
  - unfold byte. apply wrap_congr with (q * 2 ^ (8 * Z.of_nat n)). lia.
  - apply IH with q. rewrite !Z.shiftr_div_pow2 by lia. rewrite E.
    replace (y + q * (2 ^ 8 * 2 ^ (8 * Z.of_nat n)))
      with (y + q * 2 ^ (8 * Z.of_nat n) * 2 ^ 8) by ring.
    rewrite Z.div_add by lia. reflexivity.
Qed.

Lemma be_bytes_congr n x y q : x = y + q * 2 ^ (8 * Z.of_nat n) -> be_bytes n x = be_bytes n y.
Proof. intros E. unfold be_bytes. f_equal. now apply le_bytes_congr with q. Qed.

Lemma be_bytes_swrap x : be_bytes 4 (swrap 32 x) = be_bytes 4 x.
Proof.
  destruct (swrap_eqm 32 x ltac:(lia)) as [q E]. now apply be_bytes_congr with q.
Qed.

Lemma nativeint_serializes {A : Arch} v : sint WORD v ->
  serializes (nativeint_serialize v) (nativeint_wire v).
Proof.
  intros Hv. unfold nativeint_serialize, nativeint_wire, WORD in *.
  destruct ARCH_SIXTYFOUR.
  - destruct (_ && _).
    + apply serializes_of with (sz := (4, 8))
        (op := fun s => let! s := caml_serialize_int_1 1 s in caml_serialize_int_4 (swrap 32 v) s); auto.
      rewrite <- be_bytes_swrap.
      apply (emits_seq _ _ (be_bytes 1 1)); [apply caml_serialize_int_1_emits | apply caml_serialize_int_4_emits].
    + apply serializes_of with (sz := (4, 8))
        (op := fun s => let! s := caml_serialize_int_1 2 s in caml_serialize_int_8 v s); auto.
      apply (emits_seq _ _ (be_bytes 1 2)); [apply caml_serialize_int_1_emits | apply caml_serialize_int_8_emits].
  - unfold sint in Hv. change (32 - 1) with 31 in Hv.
    rewrite (proj2 (Z.leb_le v 0x7FFFFFFF)), (proj2 (Z.leb_le (-0x80000000) v)) by lia.
    apply serializes_of with (sz := (4, 8))
      (op := fun s => let! s := caml_serialize_int_1 1 s in caml_serialize_int_4 v s); auto.
    apply (emits_seq _ _ (be_bytes 1 1)); [apply caml_serialize_int_1_emits | apply caml_serialize_int_4_emits].
Qed.

(** A boxed integer serialized on one machine ([A1]) and deserialized on
    another ([A2]) is unchanged, whatever their word sizes and endianness; a
    native integer that does not fit the reader's word makes the reader raise
    [Failure input_value: native integer value too large]. *)
Theorem boxed_integer_wire (A1 A2 : Arch) (i j n sizeof_long : Z) :
  sint 32 i -> sint 64 j -> sint (@WORD A1) n ->
  (exists bs, serializes (int32_serialize i) bs /\
     forall r, @int32_deserialize A2 (bs ++ r) = Ok ((i, 4), r)) /\
  (exists bs, serializes (@int64_serialize A1 j) bs /\
     forall r, @int64_deserialize A2 (bs ++ r) = Ok ((j, 8), r)) /\
  (exists bs, serializes (@nativeint_serialize A1 n) bs /\
     forall r, @nativeint_deserialize A2 sizeof_long (bs ++ r) =
       if (- 2 ^ (@WORD A2 - 1) <=? n) && (n <? 2 ^ (@WORD A2 - 1))
       then Ok ((n, sizeof_long), r)
       else Raise (Failure "input_value: native integer value too large")).
Proof.
  intros Hi Hj Hn. conj.
  - exists (be_bytes 4 i). split; [apply int32_serializes|]. intros r. unfold int32_deserialize.
    rewrite deserialize_sint_4_spec. now rewrite swrap_small by (auto; lia).
  - exists (be_bytes 8 j). split; [apply int64_serializes|]. intros r. unfold int64_deserialize.
    rewrite deserialize_sint_8_spec. now rewrite swrap_small by (auto; lia).
  - exists (nativeint_wire n). split; [now apply nativeint_serializes|]. intros r.
    assert (Hn64 : sint 64 n).
    { unfold sint in *. destruct (@WORD_cases A1) as [E | E]; rewrite E in Hn; lia. }
    unfold nativeint_deserialize, nativeint_wire, caml_deserialize_uint_1, sint, WORD in *.
    destruct (Z.leb_spec n 0x7FFFFFFF); cbn [andb];
      [destruct (Z.leb_spec (-0x80000000) n)|]; cbn [app read8u Z.eqb Pos.eqb].
    + rewrite deserialize_sint_4_spec, swrap_small by lia.
      destruct (@ARCH_SIXTYFOUR A2); zbool; cbn [andb]; auto; lia.
    + change (64 - 1) with 63 in *. destruct (@ARCH_SIXTYFOUR A2).
      * rewrite deserialize_sint_8_spec, swrap_small by lia. zbool; cbn [andb]; auto; lia.
      * zbool; cbn [andb]; auto; lia.
    + change (64 - 1) with 63 in *. destruct (@ARCH_SIXTYFOUR A2).
      * rewrite deserialize_sint_8_spec, swrap_small by lia. zbool; cbn [andb]; auto; lia.
      * zbool; cbn [andb]; auto; lia.
Qed.

Definition big64 : Arch := {| ARCH_SIXTYFOUR := true; ARCH_BIG_ENDIAN := true |}.

Lemma boxed_integer_wire_witness :
  exists bs, serializes (@nativeint_serialize big64 (2 ^ 40)) bs /\
    @nativeint_deserialize arch32 4 (bs ++ []) =
      Raise (Failure "input_value: native integer value too large").
Proof.
  destruct (boxed_integer_wire big64 arch32 0 0 (2 ^ 40) 4) as (_ & _ & bs & H1 & H2).
  - split; vm_compute; congruence.
  - split; vm_compute; congruence.
  - split; vm_compute; congruence.
  - exists bs. split; [exact H1 | exact (H2 [])].
Defined.

(** ** Naturals *)

Lemma le_bytes_app n m : forall x,
  le_bytes (n + m) x = le_bytes n x ++ le_bytes m (Z.shiftr x (8 * Z.of_nat n)).
Proof.
  induction n as [|n IH]; intros x; cbn [Nat.add le_bytes app].
  - now rewrite Z.shiftr_0_r.
  - rewrite IH, Z.shiftr_shiftr by lia. do 4 f_equal. lia.
Qed.

Lemma le_bytes_wrap x : le_bytes 4 (wrap 32 x) = le_bytes 4 x.
Proof.
  destruct (wrap_eqm 32 x ltac:(lia)) as [q E]. apply le_bytes_congr with (- q).
  change (8 * Z.of_nat 4) with 32. lia.
Qed.

Lemma le_bytes_8 x : le_bytes 8 x = le_bytes 4 (wrap 32 x) ++ le_bytes 4 (Z.shiftr x 32).
Proof. rewrite le_bytes_wrap. apply (le_bytes_app 4 4). Qed.

Lemma words32_length {A : Arch} ds :
  length (words32 ds) = (if ARCH_SIXTYFOUR then length ds * 2 else length ds)%nat.
Proof.
  unfold words32. destruct ARCH_SIXTYFOUR; auto.
  induction ds as [|d ds IH]; cbn [map concat length Nat.mul app] in *; auto. lia.
Qed.

(** Outside big-endian 64-bit machines the digits are their words in memory. *)
Lemma nat_data_words {A : Arch} ds : ARCH_SIXTYFOUR && ARCH_BIG_ENDIAN = false ->
  nat_data ds = concat (map (mem_bytes 4) (words32 ds)).
Proof.
  unfold nat_data, words32, sizeof_digit, mem_bytes. destruct ARCH_SIXTYFOUR; auto.
  cbn [andb]. intros ->. induction ds as [|d ds IH]; cbn [map concat app] in *; auto.
  now rewrite IH, le_bytes_8, app_assoc.
Qed.

Lemma firstn_mem {A : Arch} n x r : firstn n (mem_bytes n x ++ r) = mem_bytes n x.
Proof.
  rewrite firstn_app, mem_bytes_length, Nat.sub_diag, firstn_all2 by (rewrite mem_bytes_length; lia).
  apply app_nil_r.
Qed.

Lemma skipn_mem {A : Arch} n x r : skipn n (mem_bytes n x ++ r) = r.
Proof.
  rewrite skipn_app, mem_bytes_length, Nat.sub_diag, skipn_all2 by (rewrite mem_bytes_length; lia).
  reflexivity.
Qed.

(** On big-endian 64-bit machines the high word comes first in memory. *)
Lemma mem_bytes_8_big {A : Arch} d : ARCH_BIG_ENDIAN = true ->
  mem_bytes 8 d = mem_bytes 4 (Z.shiftr d 32) ++ mem_bytes 4 (wrap 32 d).
Proof.
  intros E. unfold mem_bytes. rewrite E. unfold be_bytes. rewrite le_bytes_8. apply rev_app_distr.
Qed.

Lemma be_bytes_wrap32 x : be_bytes 4 (swrap 32 (wrap 32 x)) = be_bytes 4 x.
Proof. rewrite be_bytes_swrap. unfold be_bytes. now rewrite le_bytes_wrap. Qed.

Lemma emits_nil : emits (fun s => Ok s) [].
Proof. intros s Hs. conj; auto. now rewrite app_nil_r. Qed.

Lemma serialize_nat_loop_emits {A : Arch} ds : ARCH_SIXTYFOUR = true -> ARCH_BIG_ENDIAN = true ->
  emits (serialize_nat_loop (nat_data ds) (length ds)) (concat (map (be_bytes 4) (words32 ds))).
Proof.
  intros E64 Ebe. unfold words32. rewrite E64.
  induction ds as [|d ds IH]; cbn [length serialize_nat_loop map concat app].
  - apply emits_nil.
  - assert (D : nat_data (d :: ds) =
      mem_bytes 4 (Z.shiftr d 32) ++ mem_bytes 4 (wrap 32 d) ++ nat_data ds).
    { unfold nat_data, sizeof_digit. rewrite E64. cbn [map concat].
      now rewrite mem_bytes_8_big, <- app_assoc by auto. }
    rewrite D.
    assert (I0 : int32_at (mem_bytes 4 (Z.shiftr d 32) ++ mem_bytes 4 (wrap 32 d) ++ nat_data ds) 0 =
                 wrap 32 (Z.shiftr d 32)).
    { unfold int32_at. change (4 * 0)%nat with 0%nat. rewrite skipn_O, firstn_mem. apply mem_val_mem_bytes. }
    assert (I1 : int32_at (mem_bytes 4 (Z.shiftr d 32) ++ mem_bytes 4 (wrap 32 d) ++ nat_data ds) 1 =
                 wrap 32 d).
    { unfold int32_at. change (4 * 1)%nat with 4%nat. rewrite skipn_mem, firstn_mem, mem_val_mem_bytes.
      apply wrap_idemp. lia. }
    rewrite I0, I1.
    replace (skipn 8 (mem_bytes 4 (Z.shiftr d 32) ++ mem_bytes 4 (wrap 32 d) ++ nat_data ds))
      with (nat_data ds).
    2:{ rewrite app_assoc, <- mem_bytes_8_big by auto. now rewrite skipn_mem. }
    apply emits_seq.
    + replace (be_bytes 4 (wrap 32 d)) with (be_bytes 4 (swrap 32 (wrap 32 d))) by apply be_bytes_swrap.
      apply caml_serialize_int_4_emits.
    + apply emits_seq; [|exact IH].
      rewrite <- be_bytes_wrap32. apply caml_serialize_int_4_emits.
Qed.

(** The wire format of a nat: the number of its 32-bit words, then the words. *)
Definition nat_wire {A : Arch} (ds : list Z) : list Z :=
  be_bytes 4 (Z.of_nat (length (words32 ds))) ++ concat (map (be_bytes 4) (words32 ds)).

Lemma nat_serializes {A : Arch} ds : Z.of_nat (length (words32 ds)) < 2 ^ 32 ->
  serializes (serialize_nat (nat_data ds) (length ds)) (nat_wire ds).
Proof.
  intros Hlen. unfold nat_wire, serialize_nat. rewrite words32_length in *.
  set (len := if ARCH_SIXTYFOUR then Z.of_nat (length ds) * 2 else Z.of_nat (length ds)).
  assert (El : Z.of_nat (if ARCH_SIXTYFOUR then length ds * 2 else length ds)%nat = len)
    by (unfold len; destruct ARCH_SIXTYFOUR; lia).
  rewrite El in *.
  assert (G : ARCH_SIXTYFOUR && (Z.shiftl 1 32 <=? len) = false).
  { change (Z.shiftl 1 32) with (2 ^ 32). rewrite (proj2 (Z.leb_gt _ _) Hlen). apply andb_false_r. }
  apply serializes_of with (sz := (len * 4, len * 4)) (op := fun s =>
    let! s := caml_serialize_int_4 (swrap 32 len) s in
    if ARCH_SIXTYFOUR && ARCH_BIG_ENDIAN then serialize_nat_loop (nat_data ds) (length ds) s
    else caml_serialize_block_4 (nat_data ds) (Z.to_nat len) s).
  { intros s. rewrite G. now destruct (caml_serialize_int_4 (swrap 32 len) s). }
  apply emits_seq; [rewrite <- be_bytes_swrap; apply caml_serialize_int_4_emits|].
  destruct (ARCH_SIXTYFOUR && ARCH_BIG_ENDIAN) eqn:E.
  - apply andb_true_iff in E as [E1 E2]. now apply serialize_nat_loop_emits.
  - rewrite nat_data_words by auto.
    replace (Z.to_nat len) with (length (words32 ds)) by (rewrite words32_length; lia).
    apply caml_serialize_block_4_emits.
Qed.

(** *** Reading *)

Lemma deserialize_nat_loop_spec {A : Arch} : ARCH_SIXTYFOUR = true -> ARCH_BIG_ENDIAN = true ->
  forall fuel ws len r, (length ws <= fuel)%nat -> Forall (uint 32) ws ->
  exists len', deserialize_nat_loop fuel (length ws) len (concat (map (be_bytes 4) ws) ++ r) =
    Ok ((nat_data (pair_up ws), len'), r) /\ len' = len + Z.of_nat (length ws) mod 2.
Proof.
  intros E64 Ebe. induction fuel as [|fuel IH]; intros ws len r Hf Hw.
  - destruct ws; cbn in Hf; [|lia]. exists len. split; [reflexivity | cbn; lia].
  - assert (P : forall lo hi, uint 32 lo -> uint 32 hi ->
      mem_bytes 8 (lo + 2 ^ 32 * hi) = mem_bytes 4 hi ++ mem_bytes 4 lo).
    { intros lo hi [L0 L1] [H0 H1]. rewrite mem_bytes_8_big by auto. f_equal.
      - f_equal. rewrite Z.shiftr_div_pow2 by lia. symmetry. apply Z.div_unique with lo; lia.
      - f_equal. symmetry. apply Z.mod_unique with hi; lia. }
    destruct ws as [|lo [|hi ws]]; cbn [length deserialize_nat_loop map concat].
    + exists len. split; [reflexivity | cbn; lia].
    + inversion Hw; subst. rewrite <- app_assoc, deserialize_uint_4_spec. cbn [app].
      rewrite wrap_small by auto. exists (len + 1). split; [|cbn; lia]. repeat f_equal.
      unfold nat_data, sizeof_digit. rewrite E64. cbn [pair_up map concat]. rewrite app_nil_r.
      rewrite <- (P lo 0) by (auto; split; lia). now rewrite Z.mul_0_r, Z.add_0_r.
    + inversion Hw as [|? ? Hlo Hw']; subst. inversion Hw' as [|? ? Hhi Hws]; subst.
      rewrite <- !app_assoc, !deserialize_uint_4_spec. rewrite !wrap_small by auto.
      destruct (IH ws len r) as (len' & -> & El); [cbn in Hf; lia | auto |].
      exists len'. split.
      * repeat f_equal. unfold nat_data, sizeof_digit. rewrite E64. cbn [pair_up map concat].
        now rewrite P, <- app_assoc by auto.
      * rewrite El. f_equal. rewrite !Nat2Z.inj_succ.
        replace (Z.succ (Z.succ (Z.of_nat (length ws)))) with (Z.of_nat (length ws) + 1 * 2) by lia.
        symmetry. apply Z.mod_add. lia.
Qed.

(** Little-endian 64-bit machines: two words make a digit, a last odd one is
    completed with zero. *)
Lemma pair_up_data {A : Arch} ws : ARCH_SIXTYFOUR = true -> ARCH_BIG_ENDIAN = false ->
  Forall (uint 32) ws ->
  nat_data (pair_up ws) = concat (map (mem_bytes 4) ws) ++
    (if Nat.odd (length ws) then mem_bytes 4 0 else []).
Proof.
  intros E64 Ele.
  assert (P : forall lo hi, uint 32 lo -> uint 32 hi ->
    mem_bytes 8 (lo + 2 ^ 32 * hi) = mem_bytes 4 lo ++ mem_bytes 4 hi).
  { intros lo hi [L0 L1] [H0 H1]. unfold mem_bytes. rewrite Ele, le_bytes_8. f_equal.
    - f_equal. symmetry. apply Z.mod_unique with hi; lia.
    - f_equal. rewrite Z.shiftr_div_pow2 by lia. symmetry. apply Z.div_unique with lo; lia. }
  remember (length ws) as n eqn:En. revert ws En.
  induction n as [n IH] using (well_founded_induction lt_wf). intros ws En Hw.
  unfold nat_data, sizeof_digit in *. rewrite E64 in *.
  destruct ws as [|lo [|hi ws]]; cbn [length] in En; subst n.
  - reflexivity.
  - inversion Hw; subst. cbn [pair_up map concat Nat.odd]. cbn. rewrite !app_nil_r.
    rewrite <- P by (auto; split; lia). now rewrite Z.mul_0_r, Z.add_0_r.
  - inversion Hw as [|? ? Hlo Hw']; subst. inversion Hw' as [|? ? Hhi Hws]; subst.
    cbn [pair_up map concat]. rewrite (IH (length ws)), P by (auto; lia).
    now rewrite <- !app_assoc.
Qed.

Lemma odd_land1 n : negb (Z.land (Z.of_nat n) 1 =? 0) = Nat.odd n.
Proof.
  change 1 with (Z.ones 1). rewrite Z.land_ones by lia. change (2 ^ 1) with 2. rewrite Zmod_odd.
  replace (Z.odd (Z.of_nat n)) with (Nat.odd n); [now destruct (Nat.odd n)|].
  destruct (Nat.odd n) eqn:E; symmetry.
  - apply Nat.odd_spec in E as [m ->]. apply Z.odd_spec. exists (Z.of_nat m). lia.
  - rewrite <- Z.negb_even. apply negb_false_iff. apply (f_equal negb) in E. rewrite Nat.negb_odd in E.
    apply Nat.even_spec in E as [m ->]. apply Z.even_spec. exists (Z.of_nat m). lia.
Qed.

Lemma deserialize_nat_spec {A : Arch} ws r : Z.of_nat (length ws) < 2 ^ 32 -> Forall (uint 32) ws ->
  exists sz, deserialize_nat (be_bytes 4 (Z.of_nat (length ws)) ++ concat (map (be_bytes 4) ws) ++ r) =
    Ok ((nat_data (digits_of_words ws), sz), r).
Proof.
  intros Hl Hw. unfold deserialize_nat. rewrite deserialize_uint_4_spec, wrap_small by lia.
  rewrite Nat2Z.id. unfold digits_of_words.
  destruct (ARCH_SIXTYFOUR && ARCH_BIG_ENDIAN) eqn:E.
  - apply andb_true_iff in E as [E1 E2]. rewrite E1.
    destruct (deserialize_nat_loop_spec E1 E2 (length ws) ws (Z.of_nat (length ws)) r (le_n _) Hw)
      as (len' & -> & _). eauto.
  - unfold caml_deserialize_block_4. rewrite deserialize_items_spec by apply Reverse_32_rev.
    rewrite odd_land1. destruct ARCH_SIXTYFOUR eqn:E64; cbn [andb] in *.
    + rewrite pair_up_data by auto. destruct (Nat.odd (length ws)); rewrite ?app_nil_r; eauto.
    + eexists. do 3 f_equal. unfold nat_data, sizeof_digit. rewrite E64. reflexivity.
Qed.

(** *** Values *)

Lemma nat_val_words32 {A : Arch} ds : Forall (uint WORD) ds ->
  nat_val 32 (words32 ds) = nat_val WORD ds /\ Forall (uint 32) (words32 ds).
Proof.
  unfold words32, WORD. destruct ARCH_SIXTYFOUR; auto.
  induction ds as [|d ds IH]; intros Hd; cbn [map concat app nat_val]; auto.
  inversion Hd as [|? ? [D0 D1] Hds]; subst. destruct (IH Hds) as [IH1 IH2].
  pose proof (Z.div_mod d (2 ^ 32) ltac:(lia)) as DM.
  pose proof (Z.mod_pos_bound d (2 ^ 32) ltac:(lia)) as MB.
  rewrite Z.shiftr_div_pow2 by lia. split.
  - rewrite IH1. unfold wrap. lia.
  - constructor; [exact MB|]. constructor; auto.
    split; [apply Z.div_pos; lia | apply Z.div_lt_upper_bound; lia].
Qed.

Lemma nat_val_pair_up ws : nat_val 64 (pair_up ws) = nat_val 32 ws.
Proof.
  remember (length ws) as n eqn:En. revert ws En.
  induction n as [n IH] using (well_founded_induction lt_wf). intros ws En.
  destruct ws as [|lo [|hi ws]]; cbn [length] in En; subst n; cbn [pair_up nat_val]; try lia.
  rewrite (IH (length ws)); auto; lia.
Qed.

(** C30. The wire format of big naturals: a nat written by [serialize_nat] on
    one machine and read by [deserialize_nat] on another, of any word size and
    endianness, denotes the same number (an odd number of 32-bit words is
    completed by a zero half digit on 64-bit readers). *)
Theorem nat_wire_portable (A1 A2 : Arch) (ds : list Z) :
  Forall (uint (@WORD A1)) ds -> Z.of_nat (length ds) < 2 ^ 31 ->
  exists bs, serializes (@serialize_nat A1 (@nat_data A1 ds) (length ds)) bs /\
    forall r, exists ds' sz, @deserialize_nat A2 (bs ++ r) = Ok ((@nat_data A2 ds', sz), r) /\
      nat_val (@WORD A2) ds' = nat_val (@WORD A1) ds.
Proof.
  intros Hd Hl. destruct (@nat_val_words32 A1 ds Hd) as [V W].
  assert (L : Z.of_nat (length (@words32 A1 ds)) < 2 ^ 32).
  { rewrite words32_length. destruct (@ARCH_SIXTYFOUR A1); lia. }
  exists (@nat_wire A1 ds). split; [now apply nat_serializes|]. intros r.
  destruct (@deserialize_nat_spec A2 (@words32 A1 ds) r L W) as (sz & E).
  exists (@digits_of_words A2 (@words32 A1 ds)), sz. split.
  - unfold nat_wire. now rewrite <- app_assoc.
  - rewrite <- V. unfold digits_of_words, WORD. destruct (@ARCH_SIXTYFOUR A2); auto.
    apply nat_val_pair_up.
Qed.

(** Three 32-bit digits, written on a 32-bit machine, read on a 64-bit one. *)
Lemma nat_wire_portable_witness : exists bs,
  serializes (@serialize_nat arch32 (@nat_data arch32 [1; 2; 3]) 3) bs /\
  forall r, exists ds' sz, @deserialize_nat big64 (bs ++ r) = Ok ((@nat_data big64 ds', sz), r) /\
    nat_val 64 ds' = 3 * 2 ^ 64 + 2 * 2 ^ 32 + 1.
Proof.
  destruct (nat_wire_portable arch32 big64 [1; 2; 3]) as (bs & H1 & H2).
  - repeat constructor; vm_compute; congruence.
  - vm_compute. reflexivity.
  - exists bs. split; [exact H1|]. intros r. destruct (H2 r) as (ds' & sz & E1 & E2).
    exists ds', sz. split; [exact E1|]. exact E2.
Defined.
