(* ===== verification/InterpState.v ===== *)
(** InterpState: values, heap and registers of the bytecode machine of
    src/inline-more/byterun/interp.c.

    Pointers are kept apart from immediate words: an immediate is its tagged
    machine word, a heap pointer is a block and an offset in words (infix
    pointers of mutually recursive closures have a positive one), a code
    pointer is an index in the bytecode, a stack pointer is its distance in
    words from [caml_stack_high].  Garbage collection, which moves blocks, is
    invisible at this level and is not modelled. *)
From Stdlib Require Import ZArith Lia Bool List.
From S2P Require Import Prelude Mlvalues.
Import ListNotations.
Local Open Scope Z_scope.

#[global] Arguments Val_long {A} x : simpl never.
#[global] Arguments Val_int {A} x : simpl never.
#[global] Arguments Long_val x : simpl never.
#[global] Arguments Int_val x : simpl never.
#[global] Arguments Make_header {A} wosize tag color : simpl never.

(** ** Values and heap *)

Inductive value := Imm (w : Z) | Ptr (b ofs : Z) | Cptr (p : Z) | Sptr (hgt : Z).

Definition value_dec (v1 v2 : value) : {v1 = v2} + {v1 <> v2}.
Proof. decide equality; apply Z.eq_dec. Defined.
Definition value_eqb (v1 v2 : value) : bool := if value_dec v1 v2 then true else false.
Lemma value_eqb_spec v w : reflect (v = w) (value_eqb v w).
Proof. unfold value_eqb. destruct (value_dec v w); now constructor. Qed.

(** Contents of a block: fields, bytes of a string, or the bits of doubles. *)
Inductive contents := Fields (l : list value) | Bytes (l : list Z) | Doubles (l : list Z).
Record block := Block { btag : Z; body : contents }.
Record heap := Heap { blocks : Z -> option block; next : Z }.

(** Atoms are statically allocated blocks of size 0. *)
Definition Atom (tag : Z) : value := Ptr (- 1 - tag) 0.
Definition get_block (h : heap) (b : Z) : option block :=
  if b <? 0 then Some (Block (- 1 - b) (Fields [])) else blocks h b.

(** Access to a list by a machine integer; [None] out of range. *)
Definition nthZ {T} (l : list T) (i : Z) : option T :=
  if i <? 0 then None else nth_error l (Z.to_nat i).
Definition updZ {T} (l : list T) (i : Z) (x : T) : option (list T) :=
  if (0 <=? i) && (i <? Z.of_nat (length l))
  then Some (firstn (Z.to_nat i) l ++ x :: skipn (S (Z.to_nat i)) l) else None.

Definition heap_set (h : heap) (b : Z) (blk : block) : heap :=
  Heap (fun x => if x =? b then Some blk else blocks h x) (next h).

(** [Field(v, i)] and its assignment; undefined outside the block. *)
Definition field (h : heap) (v : value) (i : Z) : res value :=
  match v with
  | Ptr b ofs =>
      match get_block h b with
      | Some (Block _ (Fields l)) => of_option (nthZ l (ofs + i))
      | _ => Stuck
      end
  | _ => Stuck
  end.

Definition set_field (h : heap) (v : value) (i : Z) (x : value) : res heap :=
  match v with
  | Ptr b ofs =>
      match blocks h b with
      | Some (Block t (Fields l)) =>
          let! l := of_option (updZ l (ofs + i) x) in Ok (heap_set h b (Block t (Fields l)))
      | _ => Stuck
      end
  | _ => Stuck
  end.

(** [Byte_u(v, i)] and its assignment. *)
Definition get_byte (h : heap) (v : value) (i : Z) : res Z :=
  match v with
  | Ptr b 0 => match blocks h b with
               | Some (Block _ (Bytes l)) => of_option (nthZ l i)
               | _ => Stuck
               end
  | _ => Stuck
  end.
Definition set_byte (h : heap) (v : value) (i x : Z) : res heap :=
  match v with
  | Ptr b 0 =>
      match blocks h b with
      | Some (Block t (Bytes l)) =>
          let! l := of_option (updZ l i (wrap 8 x)) in Ok (heap_set h b (Block t (Bytes l)))
      | _ => Stuck
      end
  | _ => Stuck
  end.

(** [Double_field], [Double_val] and the stores. *)
Definition double_field (h : heap) (v : value) (i : Z) : res Z :=
  match v with
  | Ptr b 0 => match blocks h b with
               | Some (Block _ (Doubles l)) => of_option (nthZ l i)
               | _ => Stuck
               end
  | _ => Stuck
  end.
Definition set_double_field (h : heap) (v : value) (i d : Z) : res heap :=
  match v with
  | Ptr b 0 =>
      match blocks h b with
      | Some (Block t (Doubles l)) =>
          let! l := of_option (updZ l i d) in Ok (heap_set h b (Block t (Doubles l)))
      | _ => Stuck
      end
  | _ => Stuck
  end.

(** Allocation ([Alloc_small], [caml_alloc_shr]) followed by the
    initialisation of the block. *)
Definition alloc (h : heap) (tag : Z) (c : contents) : value * heap :=
  (Ptr (next h) 0,
   Heap (fun x => if x =? next h then Some (Block tag c) else blocks h x) (next h + 1)).

(** The raw word of an immediate; pointers are never used in arithmetic. *)
Definition raw (v : value) : res Z := match v with Imm w => Ok w | _ => Stuck end.

Section Machine.
Context {A : Arch}.

Definition Double_wosize : Z := 8 / sizeof_value.

(** A pointer inside a block is preceded by the header of an infix block. *)
Definition wosize_val (h : heap) (v : value) : res Z :=
  match v with
  | Ptr b ofs =>
      if ofs =? 0 then
        match get_block h b with
        | Some (Block _ (Fields l)) => Ok (Z.of_nat (length l))
        | Some (Block _ (Bytes l)) => Ok ((Z.of_nat (length l) + sizeof_value) / sizeof_value)
        | Some (Block _ (Doubles l)) => Ok (Z.of_nat (length l) * Double_wosize)
        | None => Stuck
        end
      else let! hd := field h v (-1) in let! w := raw hd in Ok (Wosize_hd w)
  | _ => Stuck
  end.
Definition tag_val (h : heap) (v : value) : res Z :=
  match v with
  | Ptr b ofs =>
      if ofs =? 0 then match get_block h b with Some blk => Ok (btag blk) | None => Stuck end
      else let! hd := field h v (-1) in let! w := raw hd in Ok (Tag_hd w)
  | _ => Stuck
  end.

(** [Code_val(v)] *)
Definition code_val (h : heap) (v : value) : res Z :=
  let! c := field h v 0 in match c with Cptr p => Ok p | _ => Stuck end.

(** ** Registers *)

Record state := St {
  pc : Z;
  sp : list value;          (* the stack, top first *)
  accu : value;
  env : value;
  extra_args : Z;
  trapsp : Z;               (* caml_trapsp, from the bottom of the stack *)
  hp : heap;
  global_data : value;
  something_to_do : bool;
  stack_size : Z;           (* words allocated for the stack *)
  code : Z -> Z }.          (* GETPUBMET writes its cache in the code *)

Definition set_pc (p : Z) (s : state) : state :=
  St p (sp s) (accu s) (env s) (extra_args s) (trapsp s) (hp s) (global_data s) (something_to_do s) (stack_size s) (code s).
Definition set_sp (l : list value) (s : state) : state :=
  St (pc s) l (accu s) (env s) (extra_args s) (trapsp s) (hp s) (global_data s) (something_to_do s) (stack_size s) (code s).
Definition set_accu (v : value) (s : state) : state :=
  St (pc s) (sp s) v (env s) (extra_args s) (trapsp s) (hp s) (global_data s) (something_to_do s) (stack_size s) (code s).
Definition set_env (v : value) (s : state) : state :=
  St (pc s) (sp s) (accu s) v (extra_args s) (trapsp s) (hp s) (global_data s) (something_to_do s) (stack_size s) (code s).
Definition set_extra (n : Z) (s : state) : state :=
  St (pc s) (sp s) (accu s) (env s) n (trapsp s) (hp s) (global_data s) (something_to_do s) (stack_size s) (code s).
Definition set_trapsp (t : Z) (s : state) : state :=
  St (pc s) (sp s) (accu s) (env s) (extra_args s) t (hp s) (global_data s) (something_to_do s) (stack_size s) (code s).
Definition set_hp (h : heap) (s : state) : state :=
  St (pc s) (sp s) (accu s) (env s) (extra_args s) (trapsp s) h (global_data s) (something_to_do s) (stack_size s) (code s).
Definition set_todo (b : bool) (s : state) : state :=
  St (pc s) (sp s) (accu s) (env s) (extra_args s) (trapsp s) (hp s) (global_data s) b (stack_size s) (code s).
Definition set_stack_size (n : Z) (s : state) : state :=
  St (pc s) (sp s) (accu s) (env s) (extra_args s) (trapsp s) (hp s) (global_data s) (something_to_do s) n (code s).
Definition set_code (p x : Z) (s : state) : state :=
  St (pc s) (sp s) (accu s) (env s) (extra_args s) (trapsp s) (hp s) (global_data s) (something_to_do s) (stack_size s)
     (fun q => if q =? p then x else code s q).

(** [sp[i]], [*--sp = v], [sp += n], [sp[i] = v], [*sp++]. *)
Definition peek (s : state) (i : Z) : res value := of_option (nthZ (sp s) i).
Definition push (v : value) (s : state) : state := set_sp (v :: sp s) s.
Definition drop (n : Z) (s : state) : res state :=
  if (0 <=? n) && (n <=? Z.of_nat (length (sp s)))
  then Ok (set_sp (skipn (Z.to_nat n) (sp s)) s) else Stuck.
Definition poke (s : state) (i : Z) (v : value) : res state :=
  let! l := of_option (updZ (sp s) i v) in Ok (set_sp l s).
Definition pop (s : state) : res (value * state) :=
  match sp s with v :: l => Ok (v, set_sp l s) | [] => Stuck end.

(** [sp[0] .. sp[n-1]] *)
Definition args (s : state) (n : Z) : res (list value) :=
  if (0 <=? n) && (n <=? Z.of_nat (length (sp s))) then Ok (firstn (Z.to_nat n) (sp s)) else Stuck.

(** Operand [i] of the current instruction: [pc[i]]. *)
Definition operand (s : state) (i : Z) : Z := code s (pc s + i).
Definition skip (n : Z) (s : state) : state := set_pc (pc s + n) s.

(** What an instruction leads to. *)
Inductive outcome :=
  | Next (s : state)
  | Stopped (v : value)            (* STOP: caml_interprete returns *)
  | Exception_result (v : value)   (* an exception no handler of this call catches *)
  | Fatal.                         (* bad opcode *)
End Machine.
