(* ===== verification/Interp.v ===== *)
(** Interp: the bytecode interpreter [caml_interprete] of src/inline-more/
    byterun/interp.c, one definition per instruction or group of instructions,
    with the exception and stack-growth code they share (fail.c, stacks.c).
    Theorems about it are in InterpCalls, InterpArith and InterpObjects. *)
From Stdlib Require Import ZArith Lia Bool List.
From S2P Require Import Prelude Mlvalues Int64Emul Int64 Ints InterpState.
Import ListNotations.
Local Open Scope Z_scope.

(** instruct.h *)
Inductive instruction :=
  | ACC0 | ACC1 | ACC2 | ACC3 | ACC4 | ACC5 | ACC6 | ACC7
  | ACC | PUSH
  | PUSHACC0 | PUSHACC1 | PUSHACC2 | PUSHACC3
  | PUSHACC4 | PUSHACC5 | PUSHACC6 | PUSHACC7
  | PUSHACC | POP | ASSIGN
  | ENVACC1 | ENVACC2 | ENVACC3 | ENVACC4 | ENVACC
  | PUSHENVACC1 | PUSHENVACC2 | PUSHENVACC3 | PUSHENVACC4 | PUSHENVACC
  | PUSH_RETADDR | APPLY | APPLY1 | APPLY2 | APPLY3
  | APPTERM | APPTERM1 | APPTERM2 | APPTERM3
  | RETURN | RESTART | GRAB
  | CLOSURE | CLOSUREREC
  | OFFSETCLOSUREM2 | OFFSETCLOSURE0 | OFFSETCLOSURE2 | OFFSETCLOSURE
  | PUSHOFFSETCLOSUREM2 | PUSHOFFSETCLOSURE0
  | PUSHOFFSETCLOSURE2 | PUSHOFFSETCLOSURE
  | GETGLOBAL | PUSHGETGLOBAL | GETGLOBALFIELD | PUSHGETGLOBALFIELD | SETGLOBAL
  | ATOM0 | ATOM | PUSHATOM0 | PUSHATOM
  | MAKEBLOCK | MAKEBLOCK1 | MAKEBLOCK2 | MAKEBLOCK3 | MAKEFLOATBLOCK
  | GETFIELD0 | GETFIELD1 | GETFIELD2 | GETFIELD3 | GETFIELD | GETFLOATFIELD
  | SETFIELD0 | SETFIELD1 | SETFIELD2 | SETFIELD3 | SETFIELD | SETFLOATFIELD
  | VECTLENGTH | GETVECTITEM | SETVECTITEM
  | GETSTRINGCHAR | SETSTRINGCHAR
  | BRANCH | BRANCHIF | BRANCHIFNOT | SWITCH | BOOLNOT
  | PUSHTRAP | POPTRAP | RAISE | CHECK_SIGNALS
  | C_CALL1 | C_CALL2 | C_CALL3 | C_CALL4 | C_CALL5 | C_CALLN
  | CONST0 | CONST1 | CONST2 | CONST3 | CONSTINT
  | PUSHCONST0 | PUSHCONST1 | PUSHCONST2 | PUSHCONST3 | PUSHCONSTINT
  | NEGINT | ADDINT | SUBINT | MULINT | DIVINT | MODINT
  | ANDINT | ORINT | XORINT | LSLINT | LSRINT | ASRINT
  | EQ | NEQ | LTINT | LEINT | GTINT | GEINT
  | OFFSETINT | OFFSETREF | ISINT
  | GETMETHOD
  | BEQ | BNEQ | BLTINT | BLEINT | BGTINT | BGEINT
  | ULTINT | UGEINT
  | BULTINT | BUGEINT
  | GETPUBMET | GETDYNMET
  | STOP
  | EVENT | BREAK.

(** The numbering of the enumeration. *)
Definition instructions : list instruction :=
  [ACC0; ACC1; ACC2; ACC3; ACC4; ACC5; ACC6; ACC7;
   ACC; PUSH;
   PUSHACC0; PUSHACC1; PUSHACC2; PUSHACC3;
   PUSHACC4; PUSHACC5; PUSHACC6; PUSHACC7;
   PUSHACC; POP; ASSIGN;
   ENVACC1; ENVACC2; ENVACC3; ENVACC4; ENVACC;
   PUSHENVACC1; PUSHENVACC2; PUSHENVACC3; PUSHENVACC4; PUSHENVACC;
   PUSH_RETADDR; APPLY; APPLY1; APPLY2; APPLY3;
   APPTERM; APPTERM1; APPTERM2; APPTERM3;
   RETURN; RESTART; GRAB;
   CLOSURE; CLOSUREREC;
   OFFSETCLOSUREM2; OFFSETCLOSURE0; OFFSETCLOSURE2; OFFSETCLOSURE;
   PUSHOFFSETCLOSUREM2; PUSHOFFSETCLOSURE0;
   PUSHOFFSETCLOSURE2; PUSHOFFSETCLOSURE;
   GETGLOBAL; PUSHGETGLOBAL; GETGLOBALFIELD; PUSHGETGLOBALFIELD; SETGLOBAL;
   ATOM0; ATOM; PUSHATOM0; PUSHATOM;
   MAKEBLOCK; MAKEBLOCK1; MAKEBLOCK2; MAKEBLOCK3; MAKEFLOATBLOCK;
   GETFIELD0; GETFIELD1; GETFIELD2; GETFIELD3; GETFIELD; GETFLOATFIELD;
   SETFIELD0; SETFIELD1; SETFIELD2; SETFIELD3; SETFIELD; SETFLOATFIELD;
   VECTLENGTH; GETVECTITEM; SETVECTITEM;
   GETSTRINGCHAR; SETSTRINGCHAR;
   BRANCH; BRANCHIF; BRANCHIFNOT; SWITCH; BOOLNOT;
   PUSHTRAP; POPTRAP; RAISE; CHECK_SIGNALS;
   C_CALL1; C_CALL2; C_CALL3; C_CALL4; C_CALL5; C_CALLN;
   CONST0; CONST1; CONST2; CONST3; CONSTINT;
   PUSHCONST0; PUSHCONST1; PUSHCONST2; PUSHCONST3; PUSHCONSTINT;
   NEGINT; ADDINT; SUBINT; MULINT; DIVINT; MODINT;
   ANDINT; ORINT; XORINT; LSLINT; LSRINT; ASRINT;
   EQ; NEQ; LTINT; LEINT; GTINT; GEINT;
   OFFSETINT; OFFSETREF; ISINT;
   GETMETHOD;
   BEQ; BNEQ; BLTINT; BLEINT; BGTINT; BGEINT;
   ULTINT; UGEINT;
   BULTINT; BUGEINT;
   GETPUBMET; GETDYNMET;
   STOP;
   EVENT; BREAK].

(** What the runtime outside interp.c does: the table of C primitives, the
    processing of signals, finalisers and collections, and the limits. *)
Inductive prim_result := PrimOk (v : value) (h : heap) | PrimRaise (exn : value) (h : heap).
Inductive event_result := EventDone (h : heap) | EventRaise (exn : value) (h : heap).

Section Interp.
Context {A : Arch}.
Variable Primitive : Z -> list value -> heap -> prim_result.
Variable caml_process_event : heap -> event_result.
Variable caml_max_stack_size : Z.
(** Height of the stack when [caml_interprete] was called. *)
Variable initial_sp_offset : Z.
Variable NONSTANDARD_DIV_MOD : bool.

Definition run1 (s : state) : res outcome := Ok (Next s).

(** ** Exceptions *)

(** fail.c: a bucket for a constant exception of [caml_global_data]. *)
Definition ZERO_DIVIDE_EXN : Z := 5.
Definition STACK_OVERFLOW_EXN : Z := 8.
Definition caml_raise_constant (tag : value) (h : heap) : value * heap :=
  alloc h 0 (Fields [tag]).

(** [raise_exception], the exception being in [accu]; backtraces and the
    debugger are left out. *)
Definition raise_exception (s : state) : res outcome :=
  if trapsp s <=? initial_sp_offset then Ok (Exception_result (accu s))
  else
    let n := Z.of_nat (length (sp s)) in
    let! s := drop (n - trapsp s) s in
    let! handler := peek s 0 in
    let! link := peek s 1 in
    let! e := peek s 2 in
    let! x := peek s 3 in
    match handler, link with
    | Cptr p, Sptr t =>
        let! x := raw x in
        let! s := drop 4 s in
        run1 (set_pc p (set_trapsp t (set_env e (set_extra (Long_val x) s))))
    | _, _ => Stuck
    end.

(** A C function that raises: longjmp to [raise_exception]. *)
Definition raise_from_c (exn : value) (h : heap) (s : state) : res outcome :=
  raise_exception (set_accu exn (set_hp h s)).

Definition raise_constant (n : Z) (s : state) : res outcome :=
  let! tag := field (hp s) (global_data s) n in
  let '(bucket, h) := caml_raise_constant tag (hp s) in
  raise_from_c bucket h s.

(** ** Stack checks and signals *)

Definition Stack_threshold : Z := 256.

(** The loop of [caml_realloc_stack]: the new size, or [None] for a stack
    overflow; the size doubles, so that [WORD] turns are enough. *)
Fixpoint realloc_size (fuel : nat) (size used required : Z) : res (option Z) :=
  match fuel with
  | O => Stuck
  | S fuel =>
      if caml_max_stack_size <=? size then Ok None
      else
        let size := size * 2 in
        if size <? used + required then realloc_size fuel size used required else Ok (Some size)
  end.

Definition process_signal (s : state) : res outcome :=
  let s := set_todo false s in
  (* Setup_for_event *)
  let frame := [accu s; Imm Val_unit; Imm Val_unit; Cptr (pc s); env s; Imm (Val_long (extra_args s))] in
  let s := set_sp (frame ++ sp s) s in
  match caml_process_event (hp s) with
  | EventRaise exn h => raise_from_c exn h s
  | EventDone h =>
      (* Restore_after_event *)
      let s := set_hp h s in
      let! a := peek s 0 in
      let! p := peek s 3 in
      let! e := peek s 4 in
      let! x := peek s 5 in
      let! x := raw x in
      let! s := drop 6 s in
      match p with
      | Cptr p => run1 (set_pc p (set_accu a (set_env e (set_extra (Long_val x) s))))
      | _ => Stuck
      end
  end.

Definition exec_CHECK_SIGNALS (s : state) : res outcome :=
  if something_to_do s then process_signal s else run1 s.

Definition check_stacks (s : state) : res outcome :=
  let used := Z.of_nat (length (sp s)) in
  if stack_size s - used <? Stack_threshold then
    let! size := realloc_size (Z.to_nat WORD + 1) (stack_size s) used Stack_threshold in
    match size with
    | Some size => exec_CHECK_SIGNALS (set_stack_size size s)
    | None => raise_constant STACK_OVERFLOW_EXN s
    end
  else exec_CHECK_SIGNALS s.

(** ** Basic stack operations *)

Definition exec_ACCn (n : Z) (s : state) : res outcome :=
  let! v := peek s n in run1 (set_accu v s).
Definition exec_PUSH (s : state) : res outcome := run1 (push (accu s) s).
Definition exec_PUSHACCn (n : Z) (s : state) : res outcome := exec_ACCn n (push (accu s) s).
Definition exec_ACC (s : state) : res outcome := exec_ACCn (operand s 0) (skip 1 s).
Definition exec_PUSHACC (s : state) : res outcome := exec_ACC (push (accu s) s).
Definition exec_POP (s : state) : res outcome :=
  let! s' := drop (operand s 0) (skip 1 s) in run1 s'.
Definition exec_ASSIGN (s : state) : res outcome :=
  let! s' := poke (skip 1 s) (operand s 0) (accu s) in run1 (set_accu (Imm Val_unit) s').

(** ** Access in heap-allocated environment *)

Definition exec_ENVACCn (n : Z) (s : state) : res outcome :=
  let! v := field (hp s) (env s) n in run1 (set_accu v s).
Definition exec_PUSHENVACCn (n : Z) (s : state) : res outcome := exec_ENVACCn n (push (accu s) s).
Definition exec_ENVACC (s : state) : res outcome := exec_ENVACCn (operand s 0) (skip 1 s).
Definition exec_PUSHENVACC (s : state) : res outcome := exec_ENVACC (push (accu s) s).

(** ** Function application *)

(** [pc = Code_val(accu); env = accu; goto check_stacks] *)
Definition enter (s : state) : res outcome :=
  let! p := code_val (hp s) (accu s) in check_stacks (set_pc p (set_env (accu s) s)).

Definition return_frame (p : Z) (s : state) : list value :=
  [Cptr p; env s; Imm (Val_long (extra_args s))].

Definition exec_PUSH_RETADDR (s : state) : res outcome :=
  run1 (skip 1 (set_sp (return_frame (pc s + operand s 0) s ++ sp s) s)).
Definition exec_APPLY (s : state) : res outcome :=
  enter (set_extra (operand s 0 - 1) s).
(** APPLY1, APPLY2 and APPLY3: the return frame slides under the arguments. *)
Definition exec_APPLYn (n : Z) (s : state) : res outcome :=
  let! a := args s n in
  let! s' := drop n s in
  enter (set_extra (n - 1) (set_sp (a ++ return_frame (pc s) s ++ sp s') s)).
Definition exec_APPTERM (s : state) : res outcome :=
  let nargs := operand s 0 in
  let slotsize := operand s 1 in
  let! a := args s nargs in
  let! s' := drop slotsize s in
  enter (set_extra (extra_args s + nargs - 1) (set_sp (a ++ sp s') s)).
Definition exec_APPTERMn (n : Z) (s : state) : res outcome :=
  let! a := args s n in
  let! s' := drop (operand s 0) s in
  enter (set_extra (extra_args s + n - 1) (set_sp (a ++ sp s') s)).

(** Pop the frame [PUSH_RETADDR] or APPLYn pushed. *)
Definition pop_frame (s : state) : res outcome :=
  let! p := peek s 0 in
  let! e := peek s 1 in
  let! x := peek s 2 in
  let! x := raw x in
  let! s := drop 3 s in
  match p with
  | Cptr p => run1 (set_pc p (set_env e (set_extra (Long_val x) s)))
  | _ => Stuck
  end.

Definition exec_RETURN (s : state) : res outcome :=
  let! s' := drop (operand s 0) (skip 1 s) in
  if 0 <? extra_args s' then
    let! p := code_val (hp s') (accu s') in
    run1 (set_pc p (set_env (accu s') (set_extra (extra_args s' - 1) s')))
  else pop_frame s'.

(** [Field(v, i) .. Field(v, i + n - 1)] *)
Fixpoint fields_from (h : heap) (v : value) (i : Z) (n : nat) : res (list value) :=
  match n with
  | O => Ok []
  | S n => let! x := field h v i in let! l := fields_from h v (i + 1) n in Ok (x :: l)
  end.

Definition exec_RESTART (s : state) : res outcome :=
  let! w := wosize_val (hp s) (env s) in
  let num_args := w - 2 in
  if num_args <? 0 then Stuck
  else
    let! l := fields_from (hp s) (env s) 2 (Z.to_nat num_args) in
    let! e := field (hp s) (env s) 1 in
    run1 (set_env e (set_extra (extra_args s + num_args) (set_sp (l ++ sp s) s))).

Definition exec_GRAB (s : state) : res outcome :=
  let required := operand s 0 in
  let s := skip 1 s in
  if required <=? extra_args s then run1 (set_extra (extra_args s - required) s)
  else
    let num_args := 1 + extra_args s in
    let! a := args s num_args in
    let '(clos, h) := alloc (hp s) Closure_tag (Fields (Cptr (pc s - 3) :: env s :: a)) in
    let! s' := drop num_args (set_accu clos (set_hp h s)) in
    pop_frame s'.

Definition exec_CLOSURE (s : state) : res outcome :=
  let nvars := operand s 0 in
  let s := skip 1 s in
  let s := if 0 <? nvars then push (accu s) s else s in
  let! vars := args s nvars in
  let '(clos, h) := alloc (hp s) Closure_tag (Fields (Cptr (pc s + operand s 0) :: vars)) in
  let! s' := drop nvars (set_accu clos (set_hp h s)) in
  run1 (skip 1 s').

(** Fields of the functions [i .. nfuncs - 1] after the first one: infix header
    and code pointer; and the pointers pushed for them. *)
Fixpoint infix_fields (s : state) (i : Z) (n : nat) : list value :=
  match n with
  | O => []
  | S n => Imm (Make_header (i * 2) Infix_tag Caml_white) :: Cptr (pc s + operand s i)
           :: infix_fields s (i + 1) n
  end.
Fixpoint infix_pointers (b i : Z) (n : nat) (l : list value) : list value :=
  match n with
  | O => l
  | S n => infix_pointers b (i + 1) n (Ptr b (2 * i) :: l)
  end.

Definition exec_CLOSUREREC (s : state) : res outcome :=
  let nfuncs := operand s 0 in
  let nvars := operand s 1 in
  let s := skip 2 s in
  let s := if 0 <? nvars then push (accu s) s else s in
  let! vars := args s nvars in
  let n := Z.to_nat (nfuncs - 1) in
  let '(clos, h) := alloc (hp s) Closure_tag
    (Fields ((Cptr (pc s + operand s 0) :: infix_fields s 1 n) ++ vars)) in
  let! s' := drop nvars (set_accu clos (set_hp h s)) in
  let s' := push clos s' in
  let s' := set_sp (infix_pointers (next (hp s)) 1 n (sp s')) s' in
  run1 (skip nfuncs s').

(** [env + n * sizeof(value)] *)
Definition offset_closure (v : value) (n : Z) : res value :=
  match v with Ptr b ofs => Ok (Ptr b (ofs + n)) | _ => Stuck end.
Definition exec_OFFSETCLOSUREn (n : Z) (s : state) : res outcome :=
  let! v := offset_closure (env s) n in run1 (set_accu v s).
Definition exec_PUSHOFFSETCLOSUREn (n : Z) (s : state) : res outcome :=
  exec_OFFSETCLOSUREn n (push (accu s) s).
Definition exec_OFFSETCLOSURE (s : state) : res outcome :=
  exec_OFFSETCLOSUREn (operand s 0) (skip 1 s).
Definition exec_PUSHOFFSETCLOSURE (s : state) : res outcome :=
  exec_OFFSETCLOSURE (push (accu s) s).

(** ** Access to global variables *)

Definition exec_GETGLOBAL (s : state) : res outcome :=
  let! v := field (hp s) (global_data s) (operand s 0) in run1 (skip 1 (set_accu v s)).
Definition exec_PUSHGETGLOBAL (s : state) : res outcome := exec_GETGLOBAL (push (accu s) s).
Definition exec_GETGLOBALFIELD (s : state) : res outcome :=
  let! v := field (hp s) (global_data s) (operand s 0) in
  let! v := field (hp s) v (operand s 1) in
  run1 (skip 2 (set_accu v s)).
Definition exec_PUSHGETGLOBALFIELD (s : state) : res outcome := exec_GETGLOBALFIELD (push (accu s) s).
Definition exec_SETGLOBAL (s : state) : res outcome :=
  let! h := set_field (hp s) (global_data s) (operand s 0) (accu s) in
  run1 (skip 1 (set_accu (Imm Val_unit) (set_hp h s))).

(** ** Allocation of blocks *)

Definition exec_ATOM0 (s : state) : res outcome := run1 (set_accu (Atom 0) s).
Definition exec_PUSHATOM0 (s : state) : res outcome := exec_ATOM0 (push (accu s) s).
Definition exec_ATOM (s : state) : res outcome := run1 (skip 1 (set_accu (Atom (operand s 0)) s)).
Definition exec_PUSHATOM (s : state) : res outcome := exec_ATOM (push (accu s) s).

(** The common part of the MAKEBLOCK instructions: [accu] and [wosize - 1]
    words of the stack in a new block. *)
Definition make_block (wosize tag : Z) (s : state) : res outcome :=
  let! l := args s (wosize - 1) in
  let '(b, h) := alloc (hp s) tag (Fields (accu s :: l)) in
  let! s' := drop (wosize - 1) (set_hp h s) in
  run1 (set_accu b s').
Definition exec_MAKEBLOCK (s : state) : res outcome :=
  make_block (operand s 0) (operand s 1) (skip 2 s).
Definition exec_MAKEBLOCKn (n : Z) (s : state) : res outcome :=
  make_block n (operand s 0) (skip 1 s).

Fixpoint double_vals (h : heap) (l : list value) : res (list Z) :=
  match l with
  | [] => Ok []
  | v :: l => let! d := double_field h v 0 in let! ds := double_vals h l in Ok (d :: ds)
  end.
Definition exec_MAKEFLOATBLOCK (s : state) : res outcome :=
  let size := operand s 0 in
  let s := skip 1 s in
  let! l := args s (size - 1) in
  let! ds := double_vals (hp s) (accu s :: l) in
  let '(b, h) := alloc (hp s) Double_array_tag (Doubles ds) in
  let! s' := drop (size - 1) (set_hp h s) in
  run1 (set_accu b s').

(** ** Access to components of blocks *)

Definition exec_GETFIELDn (n : Z) (s : state) : res outcome :=
  let! v := field (hp s) (accu s) n in run1 (set_accu v s).
Definition exec_GETFIELD (s : state) : res outcome :=
  let! v := field (hp s) (accu s) (operand s 0) in run1 (skip 1 (set_accu v s)).
Definition exec_GETFLOATFIELD (s : state) : res outcome :=
  let! d := double_field (hp s) (accu s) (operand s 0) in
  let '(b, h) := alloc (hp s) Double_tag (Doubles [d]) in
  run1 (skip 1 (set_accu b (set_hp h s))).

(** [modify]: the write barrier does not change what is stored. *)
Definition modify (dest : value) (i : Z) (newval : value) (s : state) : res outcome :=
  let! h := set_field (hp s) dest i newval in run1 (set_accu (Imm Val_unit) (set_hp h s)).
Definition exec_SETFIELDn (n : Z) (s : state) : res outcome :=
  let! (newval, s') := pop s in modify (accu s) n newval s'.
Definition exec_SETFIELD (s : state) : res outcome :=
  let! (newval, s') := pop (skip 1 s) in modify (accu s) (operand s 0) newval s'.
Definition exec_SETFLOATFIELD (s : state) : res outcome :=
  let! (v, s') := pop s in
  let! d := double_field (hp s) v 0 in
  let! h := set_double_field (hp s) (accu s) (operand s 0) d in
  run1 (skip 1 (set_accu (Imm Val_unit) (set_hp h s'))).

(** ** Array and string operations *)

Definition exec_VECTLENGTH (s : state) : res outcome :=
  let! size := wosize_val (hp s) (accu s) in
  let! tag := tag_val (hp s) (accu s) in
  let size := if tag =? Double_array_tag then size / Double_wosize else size in
  run1 (set_accu (Imm (Val_long size)) s).
Definition exec_GETVECTITEM (s : state) : res outcome :=
  let! (i, s') := pop s in
  let! i := raw i in
  let! v := field (hp s) (accu s) (Long_val i) in
  run1 (set_accu v s').
Definition exec_SETVECTITEM (s : state) : res outcome :=
  let! (i, s') := pop s in
  let! i := raw i in
  let! (newval, s') := pop s' in
  modify (accu s) (Long_val i) newval s'.
Definition exec_GETSTRINGCHAR (s : state) : res outcome :=
  let! (i, s') := pop s in
  let! i := raw i in
  let! c := get_byte (hp s) (accu s) (Long_val i) in
  run1 (set_accu (Imm (Val_int c)) s').
Definition exec_SETSTRINGCHAR (s : state) : res outcome :=
  let! (i, s') := pop s in
  let! i := raw i in
  let! (c, s') := pop s' in
  let! c := raw c in
  let! h := set_byte (hp s) (accu s) (Long_val i) (Int_val c) in
  run1 (set_accu (Imm Val_unit) (set_hp h s')).

(** ** Branches *)

(** [pc += *pc] *)
Definition branch (s : state) : state := skip (operand s 0) s.
Definition exec_BRANCH (s : state) : res outcome := run1 (branch s).
Definition exec_BRANCHIF (s : state) : res outcome :=
  run1 (if negb (value_eqb (accu s) (Imm Val_false)) then branch s else skip 1 s).
Definition exec_BRANCHIFNOT (s : state) : res outcome :=
  run1 (if value_eqb (accu s) (Imm Val_false) then branch s else skip 1 s).
Definition exec_SWITCH (s : state) : res outcome :=
  let sizes := wrap 32 (operand s 0) in
  let s := skip 1 s in
  match accu s with
  | Imm w => run1 (skip (operand s (Long_val w)) s)
  | v => let! index := tag_val (hp s) v in
         run1 (skip (operand s (Z.land sizes 0xFFFF + index)) s)
  end.
Definition exec_BOOLNOT (s : state) : res outcome :=
  let! w := raw (accu s) in run1 (set_accu (Imm (Val_not w)) s).

(** ** Exceptions *)

Definition exec_PUSHTRAP (s : state) : res outcome :=
  let frame := [Cptr (pc s + operand s 0); Sptr (trapsp s); env s; Imm (Val_long (extra_args s))] in
  let s := set_sp (frame ++ sp s) s in
  run1 (skip 1 (set_trapsp (Z.of_nat (length (sp s))) s)).
Definition exec_POPTRAP (s : state) : res outcome :=
  if something_to_do s then process_signal (skip (-1) s)
  else
    let! link := peek s 1 in
    let! s' := drop 4 s in
    match link with Sptr t => run1 (set_trapsp t s') | _ => Stuck end.
Definition exec_RAISE (s : state) : res outcome := raise_exception s.

(** ** Calling C functions *)

(** Setup_for_c_call, the call of [Primitive(n)] with [accu] and [sp[1]] ..
    [sp[nargs-1]] (the environment is pushed first), Restore_after_c_call. *)
Definition c_call (n : Z) (arguments : list value) (pops : Z) (s : state) : res outcome :=
  match Primitive n arguments (hp s) with
  | PrimRaise exn h => raise_from_c exn h (push (env s) s)
  | PrimOk v h =>
      let! (e, s') := pop (push (env s) s) in
      let! s' := drop pops (set_env e s') in
      run1 (skip 1 (set_accu v (set_hp h s')))
  end.
Definition exec_C_CALLn (nargs : Z) (s : state) : res outcome :=
  let! rest := args s (nargs - 1) in
  c_call (operand s 0) (accu s :: rest) (nargs - 1) s.
Definition exec_C_CALLN (s : state) : res outcome :=
  let nargs := operand s 0 in
  let s := push (accu s) (skip 1 s) in
  let! a := args s nargs in
  c_call (operand s 0) a nargs s.

(** ** Integer constants and arithmetic *)

Definition exec_CONSTn (n : Z) (s : state) : res outcome := run1 (set_accu (Imm (Val_int n)) s).
Definition exec_PUSHCONSTn (n : Z) (s : state) : res outcome := exec_CONSTn n (push (accu s) s).
Definition exec_CONSTINT (s : state) : res outcome :=
  run1 (skip 1 (set_accu (Imm (Val_int (operand s 0))) s)).
Definition exec_PUSHCONSTINT (s : state) : res outcome := exec_CONSTINT (push (accu s) s).

Definition iw (x : Z) : Z := swrap WORD x.

Definition exec_NEGINT (s : state) : res outcome :=
  let! a := raw (accu s) in run1 (set_accu (Imm (iw (2 - a))) s).

(** The instructions that combine the words of [accu] and [*sp++]. *)
Definition int_op (f : Z -> Z -> res Z) (s : state) : res outcome :=
  let! a := raw (accu s) in
  let! (b, s') := pop s in
  let! b := raw b in
  let! r := f a b in
  run1 (set_accu (Imm r) s').
Definition add_words (a b : Z) : res Z := Ok (iw (a + b - 1)).
Definition sub_words (a b : Z) : res Z := Ok (iw (a - b + 1)).
Definition mul_words (a b : Z) : res Z := Ok (Val_long (iw (Long_val a * Long_val b))).
Definition and_words (a b : Z) : res Z := Ok (Z.land a b).
Definition or_words (a b : Z) : res Z := Ok (Z.lor a b).
Definition xor_words (a b : Z) : res Z := Ok (Z.lor (Z.lxor a b) 1).
Definition lsl_words (a b : Z) : res Z :=
  let! r := C_shift WORD Z.shiftl (iw (a - 1)) (Long_val b) in Ok (iw (iw r + 1)).
Definition lsr_words (a b : Z) : res Z :=
  let! r := C_shift WORD Z.shiftr (wrap WORD (wrap WORD a - 1)) (Long_val b) in Ok (iw (Z.lor r 1)).
Definition asr_words (a b : Z) : res Z :=
  let! r := C_shift WORD Z.shiftr (iw (a - 1)) (Long_val b) in Ok (iw (Z.lor r 1)).
Definition exec_ADDINT : state -> res outcome := int_op add_words.
Definition exec_SUBINT : state -> res outcome := int_op sub_words.
Definition exec_MULINT : state -> res outcome := int_op mul_words.
Definition exec_ANDINT : state -> res outcome := int_op and_words.
Definition exec_ORINT : state -> res outcome := int_op or_words.
Definition exec_XORINT : state -> res outcome := int_op xor_words.
Definition exec_LSLINT : state -> res outcome := int_op lsl_words.
Definition exec_LSRINT : state -> res outcome := int_op lsr_words.
Definition exec_ASRINT : state -> res outcome := int_op asr_words.

(** DIVINT and MODINT; [standard] is the C operator, [safe] the function used
    when NONSTANDARD_DIV_MOD is set. *)
Definition div_op (standard safe : Z -> Z -> res Z) (s : state) : res outcome :=
  let! (d, s') := pop s in
  let! d := raw d in
  let divisor := Long_val d in
  if divisor =? 0 then raise_constant ZERO_DIVIDE_EXN (push (env s') s')
  else
    let! a := raw (accu s) in
    let! r := (if NONSTANDARD_DIV_MOD then safe (Long_val a) divisor else standard (Long_val a) divisor) in
    run1 (set_accu (Imm (Val_long r)) s').
Definition exec_DIVINT : state -> res outcome := div_op (C_quot WORD) caml_safe_div.
Definition exec_MODINT : state -> res outcome := div_op (C_rem WORD) caml_safe_mod.

(** Integer_comparison: EQ and NEQ also compare pointers. *)
Definition exec_EQ (s : state) : res outcome :=
  let! (v, s') := pop s in run1 (set_accu (Imm (Val_int (b2z (value_eqb (accu s) v)))) s').
Definition exec_NEQ (s : state) : res outcome :=
  let! (v, s') := pop s in run1 (set_accu (Imm (Val_int (b2z (negb (value_eqb (accu s) v))))) s').
Definition Integer_comparison (tst : Z -> Z -> bool) : state -> res outcome :=
  int_op (fun a b => Ok (Val_int (b2z (tst a b)))).
Definition unsigned (tst : Z -> Z -> bool) (a b : Z) : bool := tst (wrap WORD a) (wrap WORD b).

(** Integer_branch_comparison: the immediate operand against [accu]. *)
Definition Integer_branch_comparison (tst : Z -> Z -> bool) (s : state) : res outcome :=
  let! a := raw (accu s) in
  let n := operand s 0 in
  let s := skip 1 s in
  run1 (if tst n (Long_val a) then branch s else skip 1 s).

Definition exec_OFFSETINT (s : state) : res outcome :=
  let! a := raw (accu s) in
  run1 (skip 1 (set_accu (Imm (iw (a + Z.shiftl (operand s 0) 1))) s)).
Definition exec_OFFSETREF (s : state) : res outcome :=
  let! v := field (hp s) (accu s) 0 in
  let! a := raw v in
  let! h := set_field (hp s) (accu s) 0 (Imm (iw (a + Z.shiftl (operand s 0) 1))) in
  run1 (skip 1 (set_accu (Imm Val_unit) (set_hp h s))).
Definition exec_ISINT (s : state) : res outcome :=
  run1 (set_accu (Imm (Val_long (match accu s with Imm w => Z.land w 1 | _ => 0 end))) s).

(** ** Object-oriented operations *)

Definition exec_GETMETHOD (s : state) : res outcome :=
  let! obj := peek s 0 in
  let! lab := raw (accu s) in
  let! meths := field (hp s) obj 0 in
  let! m := field (hp s) meths (Int_val lab) in
  run1 (set_accu m s).

(** The binary search in a method table: tags at the odd indices from 3, each
    after its method; [Field(meths,0)] is the index of the last tag.  The
    interval at least halves, so that [WORD] turns are enough. *)
Fixpoint method_search (fuel : nat) (h : heap) (meths : value) (tag li hi : Z) : res Z :=
  if li <? hi then
    match fuel with
    | O => Stuck
    | S fuel =>
        let mi := Z.lor (Z.shiftr (swrap 32 (li + hi)) 1) 1 in
        let! v := field h meths mi in
        let! t := raw v in
        if tag <? t then method_search fuel h meths tag li (mi - 2)
        else method_search fuel h meths tag mi hi
    end
  else Ok li.
Definition find_method (h : heap) (meths : value) (tag : Z) : res Z :=
  let! v := field h meths 0 in
  let! hi := raw v in
  method_search (Z.to_nat WORD) h meths tag 3 (swrap 32 hi).

Definition exec_GETDYNMET (s : state) : res outcome :=
  let! obj := peek s 0 in
  let! tag := raw (accu s) in
  let! meths := field (hp s) obj 0 in
  let! li := find_method (hp s) meths tag in
  let! m := field (hp s) meths (li - 1) in
  run1 (set_accu m s).

(** A field at a byte offset. *)
Definition field_at (h : heap) (v : value) (i ofs : Z) : res value :=
  if ofs mod sizeof_value =? 0 then field h v (i + ofs / sizeof_value) else Stuck.

Definition exec_GETPUBMET (s : state) : res outcome :=
  let! meths := field (hp s) (accu s) 0 in
  let s := push (accu s) s in
  let tag := Val_int (operand s 0) in
  let s := skip 1 s in
  let! mask := field (hp s) meths 1 in
  let! mask := raw mask in
  let ofs := Z.land (operand s 0) mask in
  let! t := field_at (hp s) meths 3 ofs in
  if value_eqb t (Imm tag) then
    let! m := field_at (hp s) meths 2 ofs in
    run1 (skip 1 (set_accu m s))
  else
    let! li := find_method (hp s) meths tag in
    let s := set_code (pc s) (swrap 32 ((li - 3) * sizeof_value)) s in
    let! m := field (hp s) meths (li - 1) in
    run1 (skip 1 (set_accu m s)).

(** obj.c; [Imm 0] stands for the null value returned when the tag is not
    there. *)
Definition caml_get_public_method (h : heap) (obj : value) (tag : Z) : res value :=
  let! meths := field h obj 0 in
  let! li := find_method h meths tag in
  let! t := field h meths li in
  if value_eqb t (Imm tag) then field h meths (li - 1) else Ok (Imm 0).

Definition exec_STOP (s : state) : res outcome := Ok (Stopped (accu s)).

(** ** Dispatch

    EVENT and BREAK call the debugger and are not modelled. *)
Definition exec (i : instruction) (s : state) : res outcome :=
  match i with
  | ACC0 => exec_ACCn 0 s | ACC1 => exec_ACCn 1 s | ACC2 => exec_ACCn 2 s | ACC3 => exec_ACCn 3 s
  | ACC4 => exec_ACCn 4 s | ACC5 => exec_ACCn 5 s | ACC6 => exec_ACCn 6 s | ACC7 => exec_ACCn 7 s
  | ACC => exec_ACC s
  | PUSH | PUSHACC0 => exec_PUSH s
  | PUSHACC1 => exec_PUSHACCn 1 s | PUSHACC2 => exec_PUSHACCn 2 s | PUSHACC3 => exec_PUSHACCn 3 s
  | PUSHACC4 => exec_PUSHACCn 4 s | PUSHACC5 => exec_PUSHACCn 5 s | PUSHACC6 => exec_PUSHACCn 6 s
  | PUSHACC7 => exec_PUSHACCn 7 s
  | PUSHACC => exec_PUSHACC s | POP => exec_POP s | ASSIGN => exec_ASSIGN s
  | ENVACC1 => exec_ENVACCn 1 s | ENVACC2 => exec_ENVACCn 2 s
  | ENVACC3 => exec_ENVACCn 3 s | ENVACC4 => exec_ENVACCn 4 s | ENVACC => exec_ENVACC s
  | PUSHENVACC1 => exec_PUSHENVACCn 1 s | PUSHENVACC2 => exec_PUSHENVACCn 2 s
  | PUSHENVACC3 => exec_PUSHENVACCn 3 s | PUSHENVACC4 => exec_PUSHENVACCn 4 s
  | PUSHENVACC => exec_PUSHENVACC s
  | PUSH_RETADDR => exec_PUSH_RETADDR s | APPLY => exec_APPLY s
  | APPLY1 => exec_APPLYn 1 s | APPLY2 => exec_APPLYn 2 s | APPLY3 => exec_APPLYn 3 s
  | APPTERM => exec_APPTERM s
  | APPTERM1 => exec_APPTERMn 1 s | APPTERM2 => exec_APPTERMn 2 s | APPTERM3 => exec_APPTERMn 3 s
  | RETURN => exec_RETURN s | RESTART => exec_RESTART s | GRAB => exec_GRAB s
  | CLOSURE => exec_CLOSURE s | CLOSUREREC => exec_CLOSUREREC s
  | OFFSETCLOSUREM2 => exec_OFFSETCLOSUREn (-2) s | OFFSETCLOSURE0 => exec_OFFSETCLOSUREn 0 s
  | OFFSETCLOSURE2 => exec_OFFSETCLOSUREn 2 s | OFFSETCLOSURE => exec_OFFSETCLOSURE s
  | PUSHOFFSETCLOSUREM2 => exec_PUSHOFFSETCLOSUREn (-2) s
  | PUSHOFFSETCLOSURE0 => exec_PUSHOFFSETCLOSUREn 0 s
  | PUSHOFFSETCLOSURE2 => exec_PUSHOFFSETCLOSUREn 2 s | PUSHOFFSETCLOSURE => exec_PUSHOFFSETCLOSURE s
  | GETGLOBAL => exec_GETGLOBAL s | PUSHGETGLOBAL => exec_PUSHGETGLOBAL s
  | GETGLOBALFIELD => exec_GETGLOBALFIELD s | PUSHGETGLOBALFIELD => exec_PUSHGETGLOBALFIELD s
  | SETGLOBAL => exec_SETGLOBAL s
  | ATOM0 => exec_ATOM0 s | ATOM => exec_ATOM s | PUSHATOM0 => exec_PUSHATOM0 s
  | PUSHATOM => exec_PUSHATOM s
  | MAKEBLOCK => exec_MAKEBLOCK s | MAKEBLOCK1 => exec_MAKEBLOCKn 1 s
  | MAKEBLOCK2 => exec_MAKEBLOCKn 2 s | MAKEBLOCK3 => exec_MAKEBLOCKn 3 s
  | MAKEFLOATBLOCK => exec_MAKEFLOATBLOCK s
  | GETFIELD0 => exec_GETFIELDn 0 s | GETFIELD1 => exec_GETFIELDn 1 s
  | GETFIELD2 => exec_GETFIELDn 2 s | GETFIELD3 => exec_GETFIELDn 3 s
  | GETFIELD => exec_GETFIELD s | GETFLOATFIELD => exec_GETFLOATFIELD s
  | SETFIELD0 => exec_SETFIELDn 0 s | SETFIELD1 => exec_SETFIELDn 1 s
  | SETFIELD2 => exec_SETFIELDn 2 s | SETFIELD3 => exec_SETFIELDn 3 s
  | SETFIELD => exec_SETFIELD s | SETFLOATFIELD => exec_SETFLOATFIELD s
  | VECTLENGTH => exec_VECTLENGTH s | GETVECTITEM => exec_GETVECTITEM s
  | SETVECTITEM => exec_SETVECTITEM s
  | GETSTRINGCHAR => exec_GETSTRINGCHAR s | SETSTRINGCHAR => exec_SETSTRINGCHAR s
  | BRANCH => exec_BRANCH s | BRANCHIF => exec_BRANCHIF s | BRANCHIFNOT => exec_BRANCHIFNOT s
  | SWITCH => exec_SWITCH s | BOOLNOT => exec_BOOLNOT s
  | PUSHTRAP => exec_PUSHTRAP s | POPTRAP => exec_POPTRAP s | RAISE => exec_RAISE s
  | CHECK_SIGNALS => exec_CHECK_SIGNALS s
  | C_CALL1 => exec_C_CALLn 1 s | C_CALL2 => exec_C_CALLn 2 s | C_CALL3 => exec_C_CALLn 3 s
  | C_CALL4 => exec_C_CALLn 4 s | C_CALL5 => exec_C_CALLn 5 s | C_CALLN => exec_C_CALLN s
  | CONST0 => exec_CONSTn 0 s | CONST1 => exec_CONSTn 1 s
  | CONST2 => exec_CONSTn 2 s | CONST3 => exec_CONSTn 3 s | CONSTINT => exec_CONSTINT s
  | PUSHCONST0 => exec_PUSHCONSTn 0 s | PUSHCONST1 => exec_PUSHCONSTn 1 s
  | PUSHCONST2 => exec_PUSHCONSTn 2 s | PUSHCONST3 => exec_PUSHCONSTn 3 s
  | PUSHCONSTINT => exec_PUSHCONSTINT s
  | NEGINT => exec_NEGINT s | ADDINT => exec_ADDINT s | SUBINT => exec_SUBINT s
  | MULINT => exec_MULINT s | DIVINT => exec_DIVINT s | MODINT => exec_MODINT s
  | ANDINT => exec_ANDINT s | ORINT => exec_ORINT s | XORINT => exec_XORINT s
  | LSLINT => exec_LSLINT s | LSRINT => exec_LSRINT s | ASRINT => exec_ASRINT s
  | EQ => exec_EQ s | NEQ => exec_NEQ s
  | LTINT => Integer_comparison Z.ltb s | LEINT => Integer_comparison Z.leb s
  | GTINT => Integer_comparison Z.gtb s | GEINT => Integer_comparison Z.geb s
  | ULTINT => Integer_comparison (unsigned Z.ltb) s
  | UGEINT => Integer_comparison (unsigned Z.geb) s
  | OFFSETINT => exec_OFFSETINT s | OFFSETREF => exec_OFFSETREF s | ISINT => exec_ISINT s
  | GETMETHOD => exec_GETMETHOD s
  | BEQ => Integer_branch_comparison Z.eqb s
  | BNEQ => Integer_branch_comparison (fun a b => negb (a =? b)) s
  | BLTINT => Integer_branch_comparison Z.ltb s | BLEINT => Integer_branch_comparison Z.leb s
  | BGTINT => Integer_branch_comparison Z.gtb s | BGEINT => Integer_branch_comparison Z.geb s
  | BULTINT => Integer_branch_comparison (unsigned Z.ltb) s
  | BUGEINT => Integer_branch_comparison (unsigned Z.geb) s
  | GETPUBMET => exec_GETPUBMET s | GETDYNMET => exec_GETDYNMET s
  | STOP => exec_STOP s
  | EVENT | BREAK => Stuck
  end.

(** [curr_instr = *pc++] and the dispatch. *)
Definition step (s : state) : res outcome :=
  match nthZ instructions (operand s 0) with
  | Some i => exec i (skip 1 s)
  | None => Ok Fatal
  end.

(** The registers when a call of [caml_interprete] starts executing [prog]; the
    stack is [caml_extern_sp]. *)
Definition initial_registers (prog : Z) (s : state) : state :=
  set_pc prog (set_extra 0 (set_env (Atom 0) (set_accu (Imm (Val_int 0)) s))).

(** The execution of at most [fuel] instructions. *)
Fixpoint caml_interprete (fuel : nat) (s : state) : res outcome :=
  match fuel with
  | O => Ok (Next s)
  | S fuel =>
      let! o := step s in
      match o with Next s => caml_interprete fuel s | o => Ok o end
  end.
End Interp.
