(* ===== verification/InterpCalls.v ===== *)
(** InterpCalls: the calling conventions of the bytecode machine: partial
    application with GRAB and RESTART, tail calls, mutually recursive closures
    and exception handlers. *)
From Stdlib Require Import ZArith Lia Bool List.
From S2P Require Import Prelude Mlvalues Int64Emul Int64 Ints InterpState Interp.
Import ListNotations.
Local Open Scope Z_scope.

(** ** Lists and stacks *)

Lemma nthZ_app_l {T} (l r : list T) i x : nthZ l i = Some x -> nthZ (l ++ r) i = Some x.
Proof.
  unfold nthZ. destruct (i <? 0); [discriminate|]. intros E.
  rewrite nth_error_app1; auto. apply nth_error_Some. congruence.
Qed.

Lemma nthZ_cons {T} (x : T) l i : 0 < i -> nthZ (x :: l) i = nthZ l (i - 1).
Proof.
  intros Hi. unfold nthZ. rewrite (proj2 (Z.ltb_ge i 0)), (proj2 (Z.ltb_ge (i - 1) 0)) by lia.
  replace (Z.to_nat i) with (S (Z.to_nat (i - 1))) by lia. reflexivity.
Qed.

(** The words on top of the stack. *)
Lemma nthZ_0 {T} (a : T) l : nthZ (a :: l) 0 = Some a.
Proof. reflexivity. Qed.
Lemma nthZ_1 {T} (a b : T) l : nthZ (a :: b :: l) 1 = Some b.
Proof. reflexivity. Qed.
Lemma nthZ_2 {T} (a b c : T) l : nthZ (a :: b :: c :: l) 2 = Some c.
Proof. reflexivity. Qed.
Lemma nthZ_3 {T} (a b c d : T) l : nthZ (a :: b :: c :: d :: l) 3 = Some d.
Proof. reflexivity. Qed.

Create Rewrite HintDb stack.
#[export] Hint Rewrite @nthZ_0 @nthZ_1 @nthZ_2 @nthZ_3 : stack.

Definition zlen {T} (l : list T) : Z := Z.of_nat (length l).

Section Calls.
Context {A : Arch}.

Lemma drop_app l r s : sp s = l ++ r -> drop (zlen l) s = Ok (set_sp r s).
Proof.
  intros E. unfold drop, zlen. rewrite E, length_app.
  rewrite (proj2 (Z.leb_le 0 (Z.of_nat (length l)))) by lia.
  rewrite (proj2 (Z.leb_le _ _)) by lia. cbn [andb]. rewrite Nat2Z.id.
  now rewrite skipn_app, Nat.sub_diag, skipn_all2 by lia.
Qed.

Lemma args_app l r s : sp s = l ++ r -> args s (zlen l) = Ok l.
Proof.
  intros E. unfold args, zlen. rewrite E, length_app.
  rewrite (proj2 (Z.leb_le 0 (Z.of_nat (length l)))) by lia.
  rewrite (proj2 (Z.leb_le _ _)) by lia. cbn [andb]. rewrite Nat2Z.id.
  rewrite firstn_app, Nat.sub_diag, firstn_all2 by lia. now rewrite app_nil_r.
Qed.

Lemma Long_val_of x : Min_long <= x <= Max_long -> Long_val (Val_long x) = x.
Proof. apply Long_val_Val_long. Qed.

(** A return frame on top of the stack. *)
Definition frame (p : Z) (e : value) (x : Z) : list value := [Cptr p; e; Imm (Val_long x)].

Lemma pop_frame_spec p e x rest s : Min_long <= x <= Max_long -> sp s = frame p e x ++ rest ->
  pop_frame s = Ok (Next (set_pc p (set_env e (set_extra x (set_sp rest s))))).
Proof.
  intros Hx E. unfold pop_frame, peek. rewrite E. cbn [frame app].
  autorewrite with stack. cbn [of_option raw].
  change 3 with (zlen (frame p e x)). rewrite (drop_app (frame p e x) rest) by auto.
  cbn. now rewrite Long_val_of.
Qed.

(** ** Partial application *)

(** [i] is the instruction at code address [p]. *)
Definition instr_at (s : state) (p : Z) (i : instruction) : Prop :=
  nthZ instructions (code s p) = Some i.

(** The state in which the function at address [p] starts: called with the
    arguments [a], its closure being [f]. *)
Definition entering (s : state) (f : value) (p : Z) (a rest : list value) : Prop :=
  pc s = p /\ env s = f /\ extra_args s = zlen a - 1 /\ sp s = a ++ rest.

Lemma fields_from_app h b t l1 l2 : get_block h b = Some (Block t (Fields (l1 ++ l2))) ->
  fields_from h (Ptr b 0) (zlen l1) (length l2) = Ok l2.
Proof.
  revert l1. induction l2 as [|x l2 IH]; intros l1 E; cbn [fields_from length]; auto.
  unfold field. rewrite E. cbn [Z.add].
  unfold nthZ at 1, zlen. rewrite (proj2 (Z.ltb_ge _ _)) by lia.
  rewrite Nat2Z.id, nth_error_app2, Nat.sub_diag by lia. cbn [nth_error of_option].
  replace (Z.of_nat (length l1) + 1) with (zlen (l1 ++ [x])) by (unfold zlen; rewrite length_app; cbn; lia).
  rewrite IH; auto. now rewrite <- app_assoc.
Qed.

(** The runtime around the interpreter. *)
Variable Primitive : Z -> list value -> heap -> prim_result.
Variable caml_process_event : heap -> event_result.
Variable caml_max_stack_size : Z.
Variable initial_sp_offset : Z.
Variable NONSTANDARD_DIV_MOD : bool.

Notation step := (step Primitive caml_process_event caml_max_stack_size initial_sp_offset NONSTANDARD_DIV_MOD).
Notation exec := (exec Primitive caml_process_event caml_max_stack_size initial_sp_offset NONSTANDARD_DIV_MOD).
Notation raise_exception := (raise_exception initial_sp_offset).
Notation exec_POPTRAP := (exec_POPTRAP caml_process_event initial_sp_offset).

Lemma step_instr s i : instr_at s (pc s) i -> step s = exec i (skip 1 s).
Proof.
  intros H. unfold step, operand. rewrite Z.add_0_r.
  unfold instr_at in H. now rewrite H.
Qed.

Lemma alloc_get h t c v h' : alloc h t c = (v, h') -> 0 <= next h ->
  v = Ptr (next h) 0 /\ get_block h' (next h) = Some (Block t c) /\
  (forall b, b <> next h -> get_block h' b = get_block h b).
Proof.
  intros [= <- <-] Hn. unfold get_block. cbn [blocks].
  rewrite (proj2 (Z.ltb_ge _ _) Hn), Z.eqb_refl. conj; auto.
  intros b Hb. destruct (b <? 0); auto. now rewrite (proj2 (Z.eqb_neq _ _) Hb).
Qed.

(** GRAB with too few arguments: the arguments and the environment go to a new
    closure for RESTART, and the caller is returned to. *)
Lemma step_GRAB_partial s f p r a rp re rx rest :
  entering s f p a (frame rp re rx ++ rest) -> a <> [] ->
  instr_at s p GRAB -> code s (p + 1) = r -> zlen a <= r ->
  Min_long <= rx <= Max_long -> 0 <= next (hp s) ->
  exists h', alloc (hp s) Closure_tag (Fields (Cptr (p - 1) :: f :: a)) = (Ptr (next (hp s)) 0, h') /\
  step s = Ok (Next (set_pc rp (set_env re (set_extra rx (set_sp rest
             (set_accu (Ptr (next (hp s)) 0) (set_hp h' (skip 2 s)))))))).
Proof.
  intros (Ep & Ee & Ex & Es) Ha Hi Hr Hlen Hx Hn. eexists. split; [reflexivity|].
  rewrite (step_instr s GRAB) by now rewrite Ep. cbn [exec]. unfold exec_GRAB.
  unfold operand. cbn [skip set_pc pc code extra_args]. rewrite Ep, Z.add_0_r, Hr, Ex.
  rewrite (proj2 (Z.leb_gt r (zlen a - 1))) by lia.
  replace (1 + (zlen a - 1)) with (zlen a) by lia.
  rewrite (args_app a (frame rp re rx ++ rest)) by exact Es.
  cbn [hp env pc skip set_pc]. rewrite Ee. replace (p + 1 + 1 - 3) with (p - 1) by lia.
  unfold alloc at 1. rewrite (drop_app a (frame rp re rx ++ rest)) by exact Es.
  rewrite (pop_frame_spec rp re rx rest) by auto.
  unfold skip; cbn. rewrite Ep. do 3 f_equal.
Qed.

(** RESTART in a closure GRAB made: the arguments come back on the stack under
    the new ones, and the function is entered again. *)
Lemma step_RESTART s pap f p a b rest t :
  entering s pap (p - 1) b rest -> instr_at s (p - 1) RESTART ->
  pap = Ptr t 0 -> get_block (hp s) t = Some (Block Closure_tag (Fields (Cptr (p - 1) :: f :: a))) ->
  step s = Ok (Next (set_pc p (set_env f (set_extra (zlen a + zlen b - 1) (set_sp (a ++ b ++ rest) s))))).
Proof.
  intros (Ep & Ee & Ex & Es) Hi -> Hb.
  rewrite (step_instr s RESTART) by now rewrite Ep. cbn [exec]. unfold exec_RESTART.
  cbn [skip set_pc hp env extra_args sp]. rewrite Ee. unfold wosize_val. cbn [Z.eqb].
  rewrite Hb. cbn [length].
  replace (Z.of_nat (S (S (length a))) - 2) with (zlen a) by (unfold zlen; lia).
  rewrite (proj2 (Z.ltb_ge (zlen a) 0)) by (unfold zlen; lia).
  unfold zlen at 1. rewrite Nat2Z.id.
  pose proof (fields_from_app (hp s) t Closure_tag [Cptr (p - 1); f] a Hb) as F.
  change (zlen [Cptr (p - 1); f]) with 2 in F. rewrite F.
  unfold field. rewrite Hb, Z.add_0_l, nthZ_1. cbn [of_option]. unfold run1. do 2 f_equal.
  unfold set_pc, set_env, set_extra, set_sp; cbn. rewrite Ep, Ex, Es. f_equal; lia.
Qed.

(** C34. Partial application is transparent: a function whose code is
    RESTART; GRAB n, called with too few arguments, returns a closure to its
    caller; when that closure is later called with more arguments (in any state
    whose heap still holds it), one step reaches the state in which the
    function itself is entered with all the arguments, in order, and with its
    own environment. *)
Theorem partial_application_transparent s f p r a rp re rx rest :
  entering s f p a (frame rp re rx ++ rest) -> a <> [] ->
  instr_at s (p - 1) RESTART -> instr_at s p GRAB -> code s (p + 1) = r -> zlen a <= r ->
  Min_long <= rx <= Max_long -> 0 <= next (hp s) ->
  exists s1 pap,
    step s = Ok (Next s1) /\ accu s1 = pap /\ code_val (hp s1) pap = Ok (p - 1) /\
    pc s1 = rp /\ env s1 = re /\ extra_args s1 = rx /\ sp s1 = rest /\ code s1 = code s /\
    forall s2 b rest2,
      entering s2 pap (p - 1) b rest2 -> b <> [] -> code s2 = code s ->
      (forall x, get_block (hp s1) x <> None -> get_block (hp s2) x = get_block (hp s1) x) ->
      exists s3, step s2 = Ok (Next s3) /\ entering s3 f p (a ++ b) rest2 /\
        hp s3 = hp s2 /\ accu s3 = accu s2 /\ trapsp s3 = trapsp s2.
Proof.
  intros He Ha Hr Hg Hn Hl Hx Hnext.
  destruct (step_GRAB_partial s f p r a rp re rx rest) as (h' & Ea & Es); auto.
  destruct (alloc_get _ _ _ _ _ Ea Hnext) as (_ & Gb & _).
  eexists _, _. split; [exact Es|]. conj; try reflexivity.
  - cbn [accu set_pc set_env set_extra set_sp set_accu hp set_hp]. unfold code_val, field.
    now rewrite Gb.
  - intros s2 b rest2 He2 Hb Ec Hk. cbn [accu hp set_pc set_env set_extra set_sp set_accu set_hp] in *.
    assert (R : instr_at s2 (p - 1) RESTART) by (unfold instr_at in *; now rewrite Ec).
    assert (G2 : get_block (hp s2) (next (hp s)) = Some (Block Closure_tag (Fields (Cptr (p - 1) :: f :: a)))).
    { rewrite Hk; rewrite Gb; [reflexivity | discriminate]. }
    eexists. split; [exact (step_RESTART s2 _ f p a b rest2 _ He2 R eq_refl G2)|].
    unfold entering; cbn. conj; auto.
    + unfold zlen. rewrite length_app. lia.
    + now rewrite app_assoc.
Qed.

(** GRAB with enough arguments only consumes them from [extra_args]. *)
Lemma step_GRAB_full s f p r a rest :
  entering s f p a rest -> instr_at s p GRAB -> code s (p + 1) = r -> r < zlen a ->
  step s = Ok (Next (set_extra (zlen a - 1 - r) (set_pc (p + 2) s))).
Proof.
  intros (Ep & Ee & Ex & Es) Hi Hr Hl.
  rewrite (step_instr s GRAB) by now rewrite Ep. cbn [exec]. unfold exec_GRAB.
  unfold operand. cbn [skip set_pc pc code extra_args]. rewrite Ep, Z.add_0_r, Hr, Ex.
  rewrite (proj2 (Z.leb_le r (zlen a - 1))) by lia. unfold run1. do 2 f_equal.
  unfold set_extra, set_pc; cbn. f_equal. lia.
Qed.

(** ** Exceptions *)

(** Exception handlers: after PUSHTRAP, raising in any later state whose
    stack still has the trap frame below what was pushed since, with
    [caml_trapsp] pointing to it, resumes at the handler with the stack,
    environment, extra arguments and enclosing handler of PUSHTRAP, the
    exception in the accumulator and the current heap; and POPTRAP on the same
    frame restores stack and enclosing handler. *)
Theorem trap_restores s s1 :
  instr_at s (pc s) PUSHTRAP -> step s = Ok (Next s1) ->
  Min_long <= extra_args s <= Max_long -> initial_sp_offset <= zlen (sp s) ->
  (forall s2 pushed, sp s2 = pushed ++ sp s1 -> trapsp s2 = trapsp s1 ->
     raise_exception s2 =
       Ok (Next (St (pc s + 1 + code s (pc s + 1)) (sp s) (accu s2) (env s) (extra_args s) (trapsp s)
                    (hp s2) (global_data s2) (something_to_do s2) (stack_size s2) (code s2)))) /\
  (forall s2, sp s2 = sp s1 -> something_to_do s2 = false ->
     exec_POPTRAP s2 = Ok (Next (set_trapsp (trapsp s) (set_sp (sp s) s2)))).
Proof.
  intros Hi Hs Hx Hini. rewrite (step_instr s PUSHTRAP Hi) in Hs. cbn [exec] in Hs.
  unfold exec_PUSHTRAP, run1 in Hs. injection Hs as <-.
  set (fr := [Cptr (pc (skip 1 s) + operand (skip 1 s) 0); Sptr (trapsp s); env s; Imm (Val_long (extra_args s))]).
  change (sp (skip 1 _)) with (fr ++ sp s). change (trapsp (skip 1 _)) with (Z.of_nat (length (fr ++ sp s))).
  assert (Eop : pc (skip 1 s) + operand (skip 1 s) 0 = pc s + 1 + code s (pc s + 1)).
  { unfold operand; cbn. now rewrite Z.add_0_r. }
  assert (L4 : zlen fr = 4) by reflexivity. split.
  - intros s2 pushed E2 T2. unfold Interp.raise_exception. rewrite T2.
    rewrite (proj2 (Z.leb_gt _ _)) by (unfold zlen in *; rewrite length_app; cbn; lia).
    replace (Z.of_nat (length (sp s2)) - Z.of_nat (length (fr ++ sp s))) with (zlen pushed)
      by (rewrite E2; unfold zlen; rewrite !length_app; lia).
    rewrite (drop_app pushed (fr ++ sp s)) by auto. cbv zeta. unfold peek. cbn [sp set_sp fr app].
    autorewrite with stack. cbn [of_option raw].
    match goal with |- context [drop 4 ?x] =>
      replace (drop 4 x) with (Ok (set_sp (sp s) x)) by (rewrite <- L4; symmetry; now apply drop_app) end.
    unfold run1. rewrite Eop. do 2 f_equal. unfold set_pc, set_trapsp, set_env, set_extra, set_sp; cbn.
    f_equal. now apply Long_val_of.
  - intros s2 E2 T2. unfold Interp.exec_POPTRAP. rewrite T2. unfold peek. rewrite E2. cbn [fr app].
    autorewrite with stack. cbn [of_option].
    rewrite <- L4, (drop_app fr (sp s)) by auto. reflexivity.
Qed.

(** ** Mutually recursive closures *)

Lemma infix_fields_nth s n : forall i k, 0 <= k < Z.of_nat n ->
  nthZ (infix_fields s i n) (2 * k) = Some (Imm (Make_header ((i + k) * 2) Infix_tag Caml_white)) /\
  nthZ (infix_fields s i n) (2 * k + 1) = Some (Cptr (pc s + operand s (i + k))).
Proof.
  induction n as [|n IH]; intros i k Hk; [lia|]. cbn [infix_fields].
  destruct (Z.eq_dec k 0) as [->|Hk0].
  - rewrite Z.add_0_r. split; reflexivity.
  - rewrite !(nthZ_cons _ _ (2 * k)), !(nthZ_cons _ _ (2 * k + 1)) by lia.
    rewrite (nthZ_cons _ _ (2 * k - 1)), (nthZ_cons _ _ (2 * k + 1 - 1)) by lia.
    destruct (IH (i + 1) (k - 1) ltac:(lia)) as [H1 H2].
    replace (2 * k - 1 - 1) with (2 * (k - 1)) by lia.
    replace (2 * k + 1 - 1 - 1) with (2 * (k - 1) + 1) by lia.
    rewrite H1, H2. replace (i + 1 + (k - 1)) with (i + k) by lia. auto.
Qed.

Lemma infix_pointers_nth b n : forall i l k, 0 <= k < Z.of_nat n ->
  nthZ (infix_pointers b i n l) (Z.of_nat n - 1 - k) = Some (Ptr b (2 * (i + k))).
Proof.
  assert (Below : forall n i l k, 0 <= k -> nthZ (infix_pointers b i n l) (Z.of_nat n + k) = nthZ l k).
  { intros m. induction m as [|m IH]; intros i l k Hk; cbn [infix_pointers]; [f_equal; lia|].
    replace (Z.of_nat (S m) + k) with (Z.of_nat m + (k + 1)) by lia.
    rewrite IH by lia. rewrite nthZ_cons by lia. f_equal. lia. }
  induction n as [|n IH]; intros i l k Hk; [lia|]. cbn [infix_pointers].
  destruct (Z.eq_dec k 0) as [->|Hk0].
  - replace (Z.of_nat (S n) - 1 - 0) with (Z.of_nat n + 0) by lia.
    rewrite Below by lia. now rewrite Z.add_0_r.
  - replace (Z.of_nat (S n) - 1 - k) with (Z.of_nat n - 1 - (k - 1)) by lia.
    rewrite IH by lia. do 2 f_equal. lia.
Qed.

Lemma infix_pointers_length b n : forall i l, length (infix_pointers b i n l) = (n + length l)%nat.
Proof. induction n; intros i l; cbn [infix_pointers]; auto. rewrite IHn. cbn. lia. Qed.

(** Field [2 i] of the block CLOSUREREC fills is the code of function [i], the
    field before it its infix header. *)
Lemma closurerec_fields s n vars i : 0 <= i <= Z.of_nat n ->
  let l := (Cptr (pc s + operand s 0) :: infix_fields s 1 n) ++ vars in
  nthZ l (2 * i) = Some (Cptr (pc s + operand s i)) /\
  (0 < i -> nthZ l (2 * i - 1) = Some (Imm (Make_header (i * 2) Infix_tag Caml_white))).
Proof.
  intros Hi. cbn zeta. destruct (Z.eq_dec i 0) as [->|Hi0].
  - split; [reflexivity | lia].
  - destruct (infix_fields_nth s n 1 (i - 1) ltac:(lia)) as [H1 H2].
    replace (1 + (i - 1)) with i in * by lia. split; [|intros _].
    + apply nthZ_app_l. rewrite nthZ_cons by lia. rewrite <- H2. f_equal. lia.
    + apply nthZ_app_l. rewrite nthZ_cons by lia. rewrite <- H1. f_equal. lia.
Qed.

(** CLOSUREREC builds one block for [n] mutually recursive functions: the
    [i]-th pointer it pushes leads to the code of function [i], carries an
    infix header for [i > 0], and OFFSETCLOSURE with offset [2 (j - i)],
    executed with function [i] as environment, gives function [j]. *)
Theorem closurerec_layout s s1 n :
  instr_at s (pc s) CLOSUREREC -> code s (pc s + 1) = n -> 1 <= n <= 2 ^ 20 ->
  0 <= next (hp s) -> step s = Ok (Next s1) ->
  exists b, forall i, 0 <= i < n ->
    nthZ (sp s1) (n - 1 - i) = Some (Ptr b (2 * i)) /\
    code_val (hp s1) (Ptr b (2 * i)) = Ok (pc s + 3 + code s (pc s + 3 + i)) /\
    (0 < i -> tag_val (hp s1) (Ptr b (2 * i)) = Ok Infix_tag /\
              wosize_val (hp s1) (Ptr b (2 * i)) = Ok (2 * i)) /\
    (forall j s2, 0 <= j < n -> env s2 = Ptr b (2 * i) ->
       exec_OFFSETCLOSUREn (2 * (j - i)) s2 = Ok (Next (set_accu (Ptr b (2 * j)) s2))).
Proof.
  intros Hi Hn Hn1 Hnext Hs. rewrite (step_instr s CLOSUREREC Hi) in Hs. cbn [exec] in Hs.
  unfold exec_CLOSUREREC in Hs. cbv zeta in Hs.
  change (operand (skip 1 s) 0) with (code s (pc s + 1 + 0)) in Hs.
  change (operand (skip 1 s) 1) with (code s (pc s + 1 + 1)) in Hs.
  rewrite Z.add_0_r, Hn in Hs.
  set (nv := code s (pc s + 1 + 1)) in *.
  set (s' := if 0 <? nv then _ else _) in Hs.
  assert (Epc : pc s' = pc s + 3 /\ code s' = code s /\ hp s' = hp s).
  { unfold s'. destruct (0 <? nv); cbn; conj; auto; lia. }
  destruct Epc as (Epc & Ecode & Ehp).
  destruct (args s' nv) as [vars| |] eqn:Ea; try discriminate.
  destruct (alloc _ _ _) as [clos h] eqn:El.
  destruct (alloc_get _ _ _ _ _ El) as (-> & Gb & _); [now rewrite Ehp|].
  destruct (drop nv _) as [s3| |] eqn:Ed; try discriminate.
  unfold run1 in Hs. injection Hs as <-.
  unfold drop in Ed. destruct (_ && _); [|discriminate]. injection Ed as <-.
  exists (next (hp s')). intros i Hir.
  assert (Nn : Z.of_nat (Z.to_nat (n - 1)) = n - 1) by lia.
  assert (Op : operand s' i = code s (pc s + 3 + i)) by (unfold operand; now rewrite Ecode, Epc).
  destruct (closurerec_fields s' (Z.to_nat (n - 1)) vars i ltac:(lia)) as [F1 F2]. cbn zeta in F1, F2.
  set (l := (Cptr (pc s' + operand s' 0) :: infix_fields s' 1 (Z.to_nat (n - 1))) ++ vars) in *.
  cbn [sp set_sp set_pc skip push hp set_accu set_hp accu]. conj.
  - destruct (Z.eq_dec i 0) as [->|Hi0].
    + unfold nthZ. rewrite (proj2 (Z.ltb_ge _ _)) by lia.
      assert (Below : forall m k t, nth_error (infix_pointers (next (hp s')) k m t) m = nth_error t 0).
      { clear. intros m. induction m as [|m IH]; intros k t; auto. cbn [infix_pointers].
        assert (G : forall m k (t : list value) j, nth_error (infix_pointers (next (hp s')) k m t) (m + j) = nth_error t j).
        { clear. induction m as [|m IH]; intros k t j; auto. cbn [infix_pointers].
          replace (S m + j)%nat with (m + S j)%nat by lia. rewrite IH. reflexivity. }
        replace (S m) with (m + 1)%nat by lia. rewrite G. reflexivity. }
      replace (Z.to_nat (n - 1 - 0)) with (Z.to_nat (n - 1)) by lia. rewrite Below. reflexivity.
    + pose proof (infix_pointers_nth (next (hp s')) (Z.to_nat (n - 1)) 1
        (Ptr (next (hp s')) 0 :: skipn (Z.to_nat nv) (sp s')) (i - 1) ltac:(lia)) as P.
      rewrite Nn in P. replace (n - 1 - 1 - (i - 1)) with (n - 1 - i) in P by lia.
      replace (2 * (1 + (i - 1))) with (2 * i) in P by lia. exact P.
  - unfold code_val, field. rewrite Gb, Z.add_0_r, F1. cbn [of_option]. now rewrite Op, Epc.
  - intros Hi0. specialize (F2 Hi0).
    unfold tag_val, wosize_val, field. rewrite Gb, (proj2 (Z.eqb_neq (2 * i) 0)) by lia.
    replace (2 * i + -1) with (2 * i - 1) by lia. rewrite F2. cbn [of_option raw].
    assert (HM : 0 <= i * 2 <= Max_wosize) by (unfold Max_wosize; destruct ARCH_SIXTYFOUR; cbn; lia).
    change Caml_white with (0 * 256). rewrite Make_header_eq by (unfold Infix_tag; lia).
    rewrite Tag_hd_mod, Wosize_hd_div. split; f_equal.
    + symmetry. apply Z.mod_unique with (i * 2 * 4); unfold Infix_tag; lia.
    + symmetry. apply Z.div_unique with Infix_tag; unfold Infix_tag; lia.
  - intros j s2 Hj Ee. unfold exec_OFFSETCLOSUREn, offset_closure. rewrite Ee. unfold run1.
    do 4 f_equal. lia.
Qed.

End Calls.

(** ** Examples *)

Definition code_of (l : list Z) : Z -> Z := fun p => nth (Z.to_nat p) l 0.
Definition no_prim (n : Z) (l : list value) (h : heap) : prim_result := PrimOk (Imm 1) h.
Definition no_event (h : heap) : event_result := EventDone h.
Definition empty_heap : heap := Heap (fun _ => None) 0.

Definition example_state (l : list Z) (p : Z) (stack : list value) (e : value) (x : Z) : state :=
  St p stack (Imm 1) e x 0 empty_heap (Atom 0) false 4096 (code_of l).

(** A function of two arguments (RESTART; GRAB 1) applied to one: when its
    partial application is applied to a second one, both are on the stack. *)
Lemma partial_application_witness :
  let s := example_state [41; 42; 1] 1 [Imm 5; Cptr 7; Atom 0; Imm (@Val_long arch64 0); Imm 9] (Atom 0) 0 in
  exists s1 pap, @step arch64 no_prim no_event 1048576 0 false s = Ok (Next s1) /\ accu s1 = pap /\
    forall s2, entering s2 pap 0 [Imm 11] [] -> code s2 = code s -> hp s2 = hp s1 ->
      exists s3, @step arch64 no_prim no_event 1048576 0 false s2 = Ok (Next s3) /\
        entering s3 (Atom 0) 1 [Imm 5; Imm 11] [].
Proof.
  intros s.
  destruct (@partial_application_transparent arch64 no_prim no_event 1048576 0 false
    s (Atom 0) 1 1 [Imm 5] 7 (Atom 0) 0 [Imm 9]) as (s1 & pap & H1 & H2 & _ & _ & _ & _ & _ & _ & H3).
  - repeat split.
  - discriminate.
  - reflexivity.
  - reflexivity.
  - reflexivity.
  - vm_compute. discriminate.
  - vm_compute. split; discriminate.
  - vm_compute. discriminate.
  - exists s1, pap. split; [exact H1|]. split; [exact H2|]. intros s2 He Hc Hh.
    destruct (H3 s2 [Imm 11] []) as (s3 & G1 & G2 & _); auto; [discriminate | intros x _; now rewrite Hh |].
    exists s3. split; [exact G1 | exact G2].
Defined.

Lemma trap_restores_witness :
  let s := example_state [89; 10] 0 [Imm 9] (Atom 0) 0 in
  exists s1, @step arch64 no_prim no_event 1048576 0 false s = Ok (Next s1) /\
    raise_exception 0 (set_accu (Imm 77) (push (Imm 3) s1)) =
      Ok (Next (St 11 [Imm 9] (Imm 77) (Atom 0) 0 0 empty_heap (Atom 0) false 4096 (code_of [89; 10]))).
Proof.
  intros s. eexists. split; [vm_compute; reflexivity|].
  match goal with |- context [push (Imm 3) ?x] => set (s1 := x) end.
  destruct (@trap_restores arch64 no_prim no_event 1048576 0 false s s1) as [H _].
  - reflexivity.
  - vm_compute. reflexivity.
  - vm_compute. split; discriminate.
  - vm_compute. discriminate.
  - apply (H (set_accu (Imm 77) (push (Imm 3) s1)) [Imm 3]); reflexivity.
Defined.

Lemma closurerec_witness :
  let s := example_state [44; 2; 0; 20; 30] 0 [] (Atom 0) 0 in
  exists s1, @step arch64 no_prim no_event 1048576 0 false s = Ok (Next s1) /\
    exists b, nthZ (sp s1) 0 = Some (Ptr b 2) /\ code_val (hp s1) (Ptr b 2) = Ok 33.
Proof.
  intros s. eexists. split; [vm_compute; reflexivity|].
  match goal with |- exists b, nthZ (sp ?x) 0 = _ /\ _ => set (s1 := x) end.
  destruct (@closurerec_layout arch64 no_prim no_event 1048576 0 false s s1 2) as (b & H).
  - reflexivity.
  - reflexivity.
  - lia.
  - vm_compute. discriminate.
  - vm_compute. reflexivity.
  - exists b. destruct (H 1 ltac:(lia)) as (H1 & H2 & _). split; [exact H1 | exact H2].
Defined.
