(* ===== verification/InterpArith.v ===== *)
(** InterpArith: the integer instructions of the bytecode machine work on
    tagged words; they are proved to compute on the integers the words
    represent, modulo 2^(WORD-1), with the division errors raised as OCaml
    exceptions. *)
From Stdlib Require Import ZArith Lia Bool List.
From S2P Require Import Prelude Mlvalues Int64Emul Int64 Ints InterpState Interp InterpCalls.
Import ListNotations.
Local Open Scope Z_scope.

(** ** Tagged words *)

(** A bitwise operation on two odd numbers. *)
Lemma odd_bitop op f a b :
  (forall x y i, Z.testbit (op x y) i = f (Z.testbit x i) (Z.testbit y i)) ->
  op (2 * a + 1) (2 * b + 1) = 2 * op a b + b2z (f true true).
Proof.
  intros Hop. apply Z.bits_inj'. intros i Hi. rewrite Hop.
  destruct (Z.eq_dec i 0) as [->|H0].
  - rewrite !Z.testbit_odd_0. destruct (f true true); cbn [b2z].
    + now rewrite Z.testbit_odd_0.
    + now rewrite Z.add_0_r, Z.testbit_even_0.
  - replace i with (Z.succ (i - 1)) by lia. rewrite !Z.testbit_odd_succ by lia.
    destruct (f true true); cbn [b2z].
    + now rewrite Z.testbit_odd_succ, Hop by lia.
    + now rewrite Z.add_0_r, Z.testbit_even_succ, Hop by lia.
Qed.

Lemma lor_1 x : Z.lor x 1 = 2 * (x / 2) + 1.
Proof.
  apply Z.bits_inj'. intros i Hi. rewrite Z.lor_spec.
  destruct (Z.eq_dec i 0) as [->|H0].
  - rewrite Z.testbit_odd_0. now rewrite orb_true_r.
  - replace i with (Z.succ (i - 1)) by lia. rewrite Z.testbit_odd_succ by lia.
    change (Z.testbit 1 (Z.succ (i - 1))) with (Z.testbit (2 * 0 + 1) (Z.succ (i - 1))).
    rewrite (Z.testbit_odd_succ 0 (i - 1)), Z.bits_0, orb_false_r by lia.
    rewrite <- Z.div2_div, Z.div2_spec, Z.shiftr_spec by lia. f_equal; lia.
Qed.

Lemma div_pow2_half x n : 0 <= n -> 2 * x / 2 ^ n / 2 = x / 2 ^ n.
Proof.
  intros Hn. pose proof (pow2_pos n Hn).
  rewrite Z.div_div, (Z.mul_comm (2 ^ n) 2), <- Z.div_div by lia.
  now rewrite (Z.mul_comm 2 x), Z.div_mul by lia.
Qed.

Section Arith.
Context {A : Arch}.

(** The integers of OCaml. *)
Definition longz (a : Z) : Prop := Min_long <= a <= Max_long.
Definition long (a : Z) : value := Imm (Val_long a).

Lemma Val_long_swrap z : Val_long z = swrap WORD (2 * z + 1).
Proof.
  unfold Val_long. pose proof WORD_pos. rewrite Z.shiftl_mul_pow2 by lia.
  destruct (swrap_eqm WORD z) as [q ->]; [lia|]. apply swrap_congr with (2 * q). lia.
Qed.

Lemma Val_long_word a : longz a -> Val_long a = 2 * a + 1.
Proof. apply Val_long_small. Qed.

Lemma longz_word a : longz a -> sint WORD (2 * a + 1).
Proof.
  unfold longz, sint. rewrite Max_long_eq, Min_long_eq. pose proof WORD_half. lia.
Qed.

Lemma Val_long_of w z : w = 2 * z + 1 -> iw w = Val_long z.
Proof. intros ->. unfold iw. now rewrite Val_long_swrap. Qed.

Lemma add_words_spec a b : longz a -> longz b ->
  add_words (Val_long a) (Val_long b) = Ok (Val_long (a + b)).
Proof. intros Ha Hb. unfold add_words. f_equal. apply Val_long_of. rewrite !Val_long_word by auto. lia. Qed.

Lemma sub_words_spec a b : longz a -> longz b ->
  sub_words (Val_long a) (Val_long b) = Ok (Val_long (a - b)).
Proof. intros Ha Hb. unfold sub_words. f_equal. apply Val_long_of. rewrite !Val_long_word by auto. lia. Qed.

Lemma mul_words_spec a b : longz a -> longz b ->
  mul_words (Val_long a) (Val_long b) = Ok (Val_long (a * b)).
Proof.
  intros Ha Hb. unfold mul_words. rewrite !Long_val_of by auto. f_equal.
  rewrite !Val_long_swrap. unfold iw. pose proof WORD_pos.
  destruct (swrap_eqm WORD (a * b)) as [q ->]; [lia|]. apply swrap_congr with (2 * q). ring.
Qed.

Lemma bit_words_spec op f a b : longz a -> longz b ->
  (forall x y i, Z.testbit (op x y) i = f (Z.testbit x i) (Z.testbit y i)) -> f true true = true ->
  op (Val_long a) (Val_long b) = Val_long (op a b).
Proof.
  intros Ha Hb Hop Hf. rewrite !Val_long_word by auto.
  pose proof (odd_bitop op f a b Hop) as E. rewrite Hf in E. cbn [b2z] in E.
  assert (R : sint WORD (op (2 * a + 1) (2 * b + 1))).
  { pose proof WORD_pos. apply (sint_bitop WORD op f); auto using longz_word. lia. }
  rewrite E in *. rewrite Val_long_swrap. symmetry. apply swrap_small; auto. pose proof WORD_pos; lia.
Qed.

Lemma xor_words_spec a b : longz a -> longz b ->
  xor_words (Val_long a) (Val_long b) = Ok (Val_long (Z.lxor a b)).
Proof.
  intros Ha Hb. unfold xor_words. f_equal. rewrite !Val_long_word by auto.
  pose proof (odd_bitop Z.lxor xorb a b Z.lxor_spec) as E. cbn [xorb b2z] in E. rewrite Z.add_0_r in E.
  assert (R : sint WORD (2 * Z.lxor a b)).
  { rewrite <- E. pose proof WORD_pos.
    apply (sint_bitop WORD Z.lxor xorb); auto using longz_word; [lia | exact Z.lxor_spec]. }
  rewrite E, lor_1, (Z.mul_comm 2 (Z.lxor a b)), Z.div_mul by lia.
  rewrite Val_long_swrap. symmetry. apply swrap_small; [pose proof WORD_pos; lia|].
  unfold sint in *. pose proof WORD_half. lia.
Qed.

(** Shifts: the amounts C defines. *)
Definition shift_amount (n : Z) : Prop := 0 <= n < WORD.

Lemma shift_amount_long n : shift_amount n -> longz n /\ Native.shift_ok WORD n = true.
Proof.
  intros Hn. split; [|now apply shift_ok_true]. unfold shift_amount in Hn. apply small_long.
  pose proof WORD_pos. lia.
Qed.

Lemma even_word a : longz a -> iw (2 * a + 1 - 1) = 2 * a.
Proof.
  intros Ha. unfold iw. replace (2 * a + 1 - 1) with (2 * a) by ring. pose proof WORD_pos.
  apply longz_word in Ha. unfold sint in Ha. pose proof WORD_half. apply swrap_small; lia.
Qed.

Lemma lsl_words_spec a n : longz a -> shift_amount n ->
  lsl_words (Val_long a) (Val_long n) = Ok (Val_long (a * 2 ^ n)).
Proof.
  intros Ha Hn. destruct (shift_amount_long n Hn) as [Ln So].
  unfold lsl_words, C_shift. rewrite Long_val_of, So, (Val_long_word a), even_word by auto. f_equal.
  unfold shift_amount in Hn. rewrite Z.shiftl_mul_pow2 by lia. rewrite Val_long_swrap.
  unfold iw. pose proof WORD_pos. destruct (swrap_eqm WORD (2 * a * 2 ^ n)) as [q ->]; [lia|].
  apply swrap_congr with q. ring.
Qed.

Lemma shr_word x n : 0 <= n -> iw (Z.lor (Z.shiftr (2 * x) n) 1) = Val_long (x / 2 ^ n).
Proof.
  intros Hn. apply Val_long_of. rewrite lor_1, Z.shiftr_div_pow2 by lia. now rewrite div_pow2_half.
Qed.

Lemma asr_words_spec a n : longz a -> shift_amount n ->
  asr_words (Val_long a) (Val_long n) = Ok (Val_long (a / 2 ^ n)).
Proof.
  intros Ha Hn. destruct (shift_amount_long n Hn) as [Ln So].
  unfold asr_words, C_shift. rewrite Long_val_of, So, (Val_long_word a), even_word by auto.
  unfold shift_amount in Hn. now rewrite shr_word by lia.
Qed.

(** The bits of an OCaml integer, as an unsigned number. *)
Definition ubits (a : Z) : Z := wrap (WORD - 1) a.

Lemma wrap_even a : wrap WORD (2 * a) = 2 * ubits a.
Proof.
  unfold wrap, ubits, wrap. pose proof WORD_pos.
  replace (2 ^ WORD) with (2 * 2 ^ (WORD - 1)) by (rewrite <- Z.pow_succ_r by lia; f_equal; lia).
  apply Z.mul_mod_distr_l; [|lia]. pose proof (pow2_pos (WORD - 1)). lia.
Qed.

Lemma lsr_words_spec a n : longz a -> shift_amount n ->
  lsr_words (Val_long a) (Val_long n) = Ok (Val_long (ubits a / 2 ^ n)).
Proof.
  intros Ha Hn. destruct (shift_amount_long n Hn) as [Ln So].
  unfold lsr_words, C_shift. rewrite Long_val_of, So, (Val_long_word a) by auto.
  replace (wrap WORD (wrap WORD (2 * a + 1) - 1)) with (2 * ubits a).
  - unfold shift_amount in Hn. now rewrite shr_word by lia.
  - rewrite <- wrap_even. pose proof WORD_pos.
    destruct (wrap_eqm WORD (2 * a + 1)) as [q E]; [lia|].
    symmetry. apply wrap_congr with (- q). lia.
Qed.

Lemma ubits_word a : longz a -> wrap WORD (Val_long a) = 2 * ubits a + 1.
Proof.
  intros Ha. rewrite Val_long_word by auto. rewrite <- wrap_even.
  pose proof (wrap_even a) as E. pose proof WORD_pos.
  assert (W1 : 0 <= WORD - 1) by lia. pose proof (wrap_range (WORD - 1) a W1) as R. fold (ubits a) in R.
  destruct (wrap_eqm WORD (2 * a)) as [q Eq]; [lia|].
  assert (P : 2 ^ WORD = 2 * 2 ^ (WORD - 1)) by (rewrite <- Z.pow_succ_r by lia; f_equal; lia).
  rewrite <- (wrap_small WORD (wrap WORD (2 * a) + 1)) by lia.
  apply wrap_congr with q. lia.
Qed.

(** ** Instructions *)

(** An instruction on [accu] and the top of the stack that computes [f]. *)
Definition computes (i : state -> res outcome) (f : Z -> Z -> Z) (ok : Z -> Prop) : Prop :=
  forall s a b rest, longz a -> longz b -> ok b -> accu s = long a -> sp s = long b :: rest ->
  i s = Ok (Next (set_accu (long (f a b)) (set_sp rest s))).

Lemma int_op_computes w f (ok : Z -> Prop) :
  (forall a b, longz a -> longz b -> ok b -> w (Val_long a) (Val_long b) = Ok (Val_long (f a b))) ->
  computes (int_op w) f ok.
Proof.
  intros H s a b rest Ha Hb Hok Ea Es. unfold int_op. rewrite Ea. unfold pop. rewrite Es.
  cbn [raw long]. now rewrite H.
Qed.

Definition any (b : Z) : Prop := True.

(** The integer instructions NEGINT, ADDINT, SUBINT, MULINT, ANDINT, ORINT,
    XORINT, LSLINT, LSRINT and ASRINT, which work on tagged words without
    untagging most of them, compute the corresponding operation on the integers
    represented, modulo 2^(WORD-1) (shifts by the amounts C defines). *)
Theorem int_arith_correct :
  (forall s a, longz a -> accu s = long a -> exec_NEGINT s = Ok (Next (set_accu (long (- a)) s))) /\
  computes exec_ADDINT Z.add any /\ computes exec_SUBINT Z.sub any /\
  computes exec_MULINT Z.mul any /\ computes exec_ANDINT Z.land any /\
  computes exec_ORINT Z.lor any /\ computes exec_XORINT Z.lxor any /\
  computes exec_LSLINT (fun a n => a * 2 ^ n) shift_amount /\
  computes exec_LSRINT (fun a n => ubits a / 2 ^ n) shift_amount /\
  computes exec_ASRINT (fun a n => a / 2 ^ n) shift_amount.
Proof.
  conj.
  - intros s a Ha Ea. unfold exec_NEGINT. rewrite Ea. cbn [raw long]. unfold run1. do 3 f_equal.
    unfold long. f_equal. apply Val_long_of. rewrite Val_long_word by auto. lia.
  - apply int_op_computes. auto using add_words_spec.
  - apply int_op_computes. auto using sub_words_spec.
  - apply int_op_computes. auto using mul_words_spec.
  - apply int_op_computes. intros a b Ha Hb _. unfold and_words. f_equal.
    now apply (bit_words_spec Z.land andb a b Ha Hb Z.land_spec).
  - apply int_op_computes. intros a b Ha Hb _. unfold or_words. f_equal.
    now apply (bit_words_spec Z.lor orb a b Ha Hb Z.lor_spec).
  - apply int_op_computes. auto using xor_words_spec.
  - apply int_op_computes. auto using lsl_words_spec.
  - apply int_op_computes. auto using lsr_words_spec.
  - apply int_op_computes. auto using asr_words_spec.
Qed.

(** The comparison instructions LTINT, LEINT, GTINT, GEINT order the
    integers represented, ULTINT and UGEINT their unsigned bits, and EQ and NEQ
    decide equality of values. *)
Theorem int_compare_correct :
  computes (Integer_comparison Z.ltb) (fun a b => b2z (a <? b)) any /\
  computes (Integer_comparison Z.leb) (fun a b => b2z (a <=? b)) any /\
  computes (Integer_comparison Z.gtb) (fun a b => b2z (a >? b)) any /\
  computes (Integer_comparison Z.geb) (fun a b => b2z (a >=? b)) any /\
  computes (Integer_comparison (unsigned Z.ltb)) (fun a b => b2z (ubits a <? ubits b)) any /\
  computes (Integer_comparison (unsigned Z.geb)) (fun a b => b2z (ubits a >=? ubits b)) any /\
  computes exec_EQ (fun a b => b2z (a =? b)) any /\
  computes exec_NEQ (fun a b => b2z (negb (a =? b))) any.
Proof.
  assert (EQV : forall a b, longz a -> longz b -> value_eqb (long a) (long b) = (a =? b)).
  { intros a b Ha Hb. unfold value_eqb, long. rewrite !Val_long_word by auto.
    destruct (value_dec _ _) as [E|N]; symmetry; [apply Z.eqb_eq | apply Z.eqb_neq].
    - assert (E' : 2 * a + 1 = 2 * b + 1) by congruence. lia.
    - intros ->. now apply N. }
  conj; try (apply int_op_computes; intros a b Ha Hb _; f_equal; unfold Val_int; f_equal; f_equal).
  - rewrite !Val_long_word by auto. zbool; auto; lia.
  - rewrite !Val_long_word by auto. zbool; auto; lia.
  - rewrite !Val_long_word by auto. rewrite !Z.gtb_ltb. zbool; auto; lia.
  - rewrite !Val_long_word by auto. rewrite !Z.geb_leb. zbool; auto; lia.
  - unfold unsigned. rewrite !ubits_word by auto. zbool; auto; lia.
  - unfold unsigned. rewrite !ubits_word by auto. rewrite !Z.geb_leb. zbool; auto; lia.
  - intros s a b rest Ha Hb _ Ea Es. unfold exec_EQ, pop. rewrite Es, Ea, EQV by auto. reflexivity.
  - intros s a b rest Ha Hb _ Ea Es. unfold exec_NEQ, pop. rewrite Es, Ea, EQV by auto. reflexivity.
Qed.

(** ** Division *)

Lemma longz_word_div a b : longz a -> longz b -> b <> 0 ->
  sint WORD a /\ sint WORD b /\ C_quot WORD a b = Ok (Z.quot a b) /\ C_rem WORD a b = Ok (Z.rem a b).
Proof.
  intros Ha Hb Hnz. unfold longz, sint in *. rewrite Max_long_eq, Min_long_eq in *. pose proof WORD_half.
  assert (0 < 2 ^ (WORD - 2)) by (apply pow2_pos; pose proof WORD_pos; lia).
  unfold C_quot, C_rem. rewrite (proj2 (Z.eqb_neq b 0) Hnz), (proj2 (Z.eqb_neq a _)) by lia.
  cbn [andb]. conj; auto; lia.
Qed.

Variable initial_sp_offset : Z.
Variable NONSTANDARD_DIV_MOD : bool.

(** DIVINT and MODINT: with a zero divisor they raise the exception stored
    in the global data for [Division_by_zero] (a fresh bucket holding it, in
    the current handler); otherwise they compute the truncated quotient and the
    remainder of the integers represented, in both division configurations. *)
Theorem int_division_correct s a b rest zd :
  longz a -> longz b -> accu s = long a -> sp s = long b :: rest ->
  field (hp s) (global_data s) ZERO_DIVIDE_EXN = Ok zd ->
  exec_DIVINT initial_sp_offset NONSTANDARD_DIV_MOD s =
    (if b =? 0 then
       let '(bucket, h) := alloc (hp s) 0 (Fields [zd]) in
       raise_exception initial_sp_offset (set_accu bucket (set_hp h (set_sp (env s :: rest) s)))
     else Ok (Next (set_accu (long (Z.quot a b)) (set_sp rest s)))) /\
  (b <> 0 -> exec_MODINT initial_sp_offset NONSTANDARD_DIV_MOD s =
     Ok (Next (set_accu (long (Z.rem a b)) (set_sp rest s)))).
Proof.
  intros Ha Hb Ea Es Hz.
  assert (VL : forall z, Val_long (swrap WORD z) = Val_long z).
  { intros z. rewrite !Val_long_swrap. pose proof WORD_pos.
    destruct (swrap_eqm WORD z) as [q ->]; [lia|]. apply swrap_congr with (2 * q). ring. }
  unfold exec_DIVINT, exec_MODINT, div_op, pop. rewrite Es. cbn [raw long].
  rewrite Long_val_of by auto. split.
  - destruct (Z.eqb_spec b 0) as [->|Hnz].
    + unfold raise_constant. cbn [hp global_data push set_sp]. rewrite Hz. reflexivity.
    + rewrite Ea. cbn [raw long]. rewrite Long_val_of by auto.
      destruct (longz_word_div a b Ha Hb Hnz) as (Sa & Sb & Q & _).
      destruct NONSTANDARD_DIV_MOD; [rewrite caml_safe_div_spec by auto | rewrite Q];
        unfold run1, long; now rewrite ?VL.
  - intros Hnz. rewrite (proj2 (Z.eqb_neq b 0) Hnz), Ea. cbn [raw long]. rewrite Long_val_of by auto.
    destruct (longz_word_div a b Ha Hb Hnz) as (Sa & Sb & _ & R).
    destruct NONSTANDARD_DIV_MOD; [rewrite caml_safe_mod_spec by auto | rewrite R];
      unfold run1, long; now rewrite ?VL.
Qed.
End Arith.

Lemma int_division_witness :
  let h := Heap (fun b => if b =? 0 then Some (Block 0 (Fields (repeat (Imm 3) 10))) else None) 1 in
  let s := St 0 [Imm (2 * 2 + 1)] (Imm (2 * -7 + 1)) (Atom 0) 0 0 h (Ptr 0 0) false 4096 (fun _ => 0) in
  @exec_DIVINT arch64 0 true s = Ok (Next (set_accu (Imm (2 * -3 + 1)) (set_sp [] s))).
Proof.
  intros h s. refine (proj1 (@int_division_correct arch64 0 true s (-7) 2 [] (Imm 3) _ _ _ _ _)).
  - vm_compute. split; discriminate.
  - vm_compute. split; discriminate.
  - vm_compute. reflexivity.
  - vm_compute. reflexivity.
  - vm_compute. reflexivity.
Defined.

Lemma int_arith_witness :
  let s := St 0 [Imm (2 * 5 + 1)] (Imm (2 * -7 + 1)) (Atom 0) 0 0 empty_heap (Atom 0) false 4096 (fun _ => 0) in
  @exec_MULINT arch64 s = Ok (Next (set_accu (Imm (2 * -35 + 1)) (set_sp [] s))).
Proof.
  intros s. destruct (@int_arith_correct arch64) as (_ & _ & _ & H & _).
  apply (H s (-7) 5 []); vm_compute; first [split; discriminate | exact I | reflexivity].
Defined.

Lemma int_compare_witness :
  let s := St 0 [Imm (2 * 5 + 1)] (Imm (2 * -7 + 1)) (Atom 0) 0 0 empty_heap (Atom 0) false 4096 (fun _ => 0) in
  @Integer_comparison arch64 (@unsigned arch64 Z.ltb) s = Ok (Next (set_accu (Imm 1) (set_sp [] s))).
Proof.
  intros s. destruct (@int_compare_correct arch64) as (_ & _ & _ & _ & H & _).
  apply (H s (-7) 5 []); vm_compute; first [split; discriminate | exact I | reflexivity].
Defined.
