(* ===== verification/InterpObjects.v ===== *)
(** InterpObjects: method dispatch of the bytecode machine: the binary search
    of GETDYNMET and caml_get_public_method and the inline cache of
    GETPUBMET. *)
From Stdlib Require Import ZArith Lia Bool List.
From S2P Require Import Prelude Mlvalues Int64Emul Int64 Ints InterpState Interp InterpCalls InterpArith.
Import ListNotations.
Local Open Scope Z_scope.

Section Objects.
Context {A : Arch}.

(** A method table as camlinternalOO.ml builds it: the index of the last tag,
    the mask of the caches, then methods and tags in turn, in the order of the
    tags.  The mask lets [2 ^ lg] pairs be addressed; the slots of the table
    beyond the public methods do not hold one of their tags. *)
Record method_table (h : heap) (meths : value) (n lg : Z) (m : Z -> value) (tg : Z -> Z) : Prop := {
  mt_size : 1 <= n < 2 ^ 29;
  mt_last : field h meths 0 = Ok (Imm (2 * n + 1));
  mt_lg : 0 <= lg;
  mt_fits : n <= 2 ^ lg;
  mt_mask : field h meths 1 = Ok (Imm (2 * sizeof_value * 2 ^ lg - 1));
  mt_method : forall k, 0 <= k < n -> field h meths (2 + 2 * k) = Ok (m k);
  mt_tag : forall k, 0 <= k < n -> field h meths (3 + 2 * k) = Ok (Imm (tg k));
  mt_sorted : forall j k, 0 <= j -> j < k -> k < n -> tg j < tg k;
  mt_padding : forall k, n <= k < 2 ^ lg ->
    exists v, field h meths (3 + 2 * k) = Ok v /\ forall i, 0 <= i < n -> v <> Imm (tg i) }.

Variables (h : heap) (meths : value) (n lg : Z) (m : Z -> value) (tg : Z -> Z).
Hypothesis T : method_table h meths n lg m tg.

Lemma mid_index i j : 0 <= i <= j -> j < 2 ^ 29 - 1 ->
  Z.lor (Z.shiftr (swrap 32 (2 * i + 3 + (2 * j + 3))) 1) 1 = 2 * ((i + j + 1) / 2) + 3.
Proof.
  intros Hi Hj. rewrite swrap_small by (change (32 - 1) with 31; lia). rewrite lor_1, Z.shiftr_div_pow2 by lia.
  change (2 ^ 1) with 2. replace (2 * i + 3 + (2 * j + 3)) with ((i + j + 3) * 2) by lia.
  rewrite Z.div_mul by lia. Z.div_mod_to_equations; lia.
Qed.

(** The search stops at the last tag of the interval that is not above the
    one searched, or at its first one. *)
Lemma method_search_spec f tag : forall i j, 0 <= i <= j -> j < n -> j - i < 2 ^ Z.of_nat f ->
  exists k, method_search f h meths tag (2 * i + 3) (2 * j + 3) = Ok (2 * k + 3) /\ i <= k <= j /\
    (k = i \/ tg k <= tag) /\ (k = j \/ tag < tg (k + 1)).
Proof.
  pose proof (mt_size _ _ _ _ _ _ T) as Hn.
  induction f as [|f IH]; intros i j Hi Hj Hf; cbn [method_search].
  - change (2 ^ Z.of_nat 0) with 1 in Hf. rewrite (proj2 (Z.ltb_ge _ _)) by lia.
    exists i. conj; auto; lia.
  - rewrite Nat2Z.inj_succ, Z.pow_succ_r in Hf by lia.
    destruct (Z.ltb_spec (2 * i + 3) (2 * j + 3)) as [Hlt|Hge].
    2: { exists i. conj; auto; lia. }
    rewrite mid_index by lia. set (q := (i + j + 1) / 2).
    assert (Hq : i < q <= j /\ q - 1 - i < 2 ^ Z.of_nat f /\ j - q < 2 ^ Z.of_nat f)
      by (subst q; Z.div_mod_to_equations; lia).
    rewrite Z.add_comm, (mt_tag _ _ _ _ _ _ T) by lia. cbn [raw].
    destruct (Z.ltb_spec tag (tg q)) as [Hlow|Hhigh].
    + replace (3 + 2 * q - 2) with (2 * (q - 1) + 3) by lia.
      destruct (IH i (q - 1)) as (k & E & Hk & Hl & Hr); [lia..|].
      exists k. split; [exact E|]. split; [lia|]. split; [exact Hl|].
      right. destruct Hr as [->|]; auto. now replace (q - 1 + 1) with q by lia.
    + rewrite (Z.add_comm 3). destruct (IH q j) as (k & E & Hk & Hl & Hr); [lia..|].
      exists k. split; [exact E|]. split; [lia|]. split; [|exact Hr].
      right. destruct Hl as [->|]; lia.
Qed.

Lemma find_method_spec tag :
  exists k, find_method h meths tag = Ok (2 * k + 3) /\ 0 <= k < n /\
    (k = 0 \/ tg k <= tag) /\ (k = n - 1 \/ tag < tg (k + 1)).
Proof.
  pose proof (mt_size _ _ _ _ _ _ T) as Hn. unfold find_method.
  rewrite (mt_last _ _ _ _ _ _ T). cbn [raw]. rewrite swrap_small by (change (32 - 1) with 31; lia).
  destruct (method_search_spec (Z.to_nat WORD) tag 0 (n - 1)) as (k & E & Hk & Hl & Hr); [lia..| |].
  - pose proof WORD_pos. rewrite Z2Nat.id by lia.
    pose proof (Z.pow_le_mono_r 2 32 WORD ltac:(lia) ltac:(destruct WORD_cases; lia)). lia.
  - exists k. replace (2 * n + 1) with (2 * (n - 1) + 3) by lia.
    split; [exact E|]. split; [lia|]. now split.
Qed.

(** A tag of the table is found at its place. *)
Lemma find_method_present i : 0 <= i < n -> find_method h meths (tg i) = Ok (2 * i + 3).
Proof.
  intros Hi. destruct (find_method_spec (tg i)) as (k & -> & Hk & Hl & Hr).
  pose proof (mt_sorted _ _ _ _ _ _ T) as Hs. do 2 f_equal.
  destruct (Z.lt_trichotomy k i) as [Hlt|[->|Hgt]]; auto.
  - destruct Hr as [->|Hr]; [lia|].
    destruct (Z.eq_dec (k + 1) i) as [<-|]; [lia|]. specialize (Hs (k + 1) i). lia.
  - destruct Hl as [->|Hl]; [lia|]. specialize (Hs i k). lia.
Qed.

Lemma tag_unique j k : 0 <= j < n -> 0 <= k < n -> tg j = tg k -> j = k.
Proof.
  intros Hj Hk E. pose proof (mt_sorted _ _ _ _ _ _ T) as Hs.
  destruct (Z.lt_trichotomy j k) as [H|[H|H]]; auto.
  - specialize (Hs j k). lia.
  - specialize (Hs k j). lia.
Qed.

(** Whatever the cache holds, the masked offset addresses a pair of the
    table, so that the comparison with the tag is defined and succeeds at the
    right pair only. *)
Lemma masked_offset c : exists k, 0 <= k < 2 ^ lg /\
  Z.land (2 * sizeof_value * c) (2 * sizeof_value * 2 ^ lg - 1) = 2 * sizeof_value * k.
Proof.
  pose proof (mt_lg _ _ _ _ _ _ T) as Hlg. exists (c mod 2 ^ lg). split.
  - apply Z.mod_pos_bound. apply pow2_pos; auto.
  - assert (E : exists e, 0 <= e /\ 2 * sizeof_value = 2 ^ e).
    { unfold sizeof_value. destruct WORD_cases as [-> | ->]; [exists 3 | exists 4]; now split. }
    destruct E as (e & He & ->). rewrite <- Z.pow_add_r by lia.
    change (2 ^ (e + lg) - 1) with (Z.pred (2 ^ (e + lg))). rewrite <- Z.ones_equiv, Z.land_ones by lia.
    rewrite Z.pow_add_r, Z.mul_mod_distr_l by (try apply Z.pow_nonzero; lia). reflexivity.
Qed.

Lemma field_at_pair i k : field_at h meths i (2 * sizeof_value * k) = field h meths (i + 2 * k).
Proof.
  assert (0 < sizeof_value) by (unfold sizeof_value; now destruct WORD_cases as [-> | ->]).
  unfold field_at.
  replace (2 * sizeof_value * k) with (2 * k * sizeof_value) by lia.
  now rewrite Z.mod_mul, Z.div_mul by lia.
Qed.

Lemma slot_decides i k : 0 <= i < n -> 0 <= k < 2 ^ lg ->
  exists v, field h meths (3 + 2 * k) = Ok v /\ (v = Imm (tg i) <-> k = i).
Proof.
  intros Hi Hk. destruct (Z_lt_ge_dec k n) as [Hkn|Hkn].
  - exists (Imm (tg k)). rewrite (mt_tag _ _ _ _ _ _ T) by lia. split; [reflexivity|]. split.
    + intros [= E]. apply tag_unique; auto; lia.
    + now intros ->.
  - destruct (mt_padding _ _ _ _ _ _ T k) as (v & Ev & Hv); [lia|].
    exists v. split; [exact Ev|]. split; [intros E; now apply Hv in E | lia].
Qed.
End Objects.

Section Dispatch.
Context {A : Arch}.

(** Methods are found by tag: on any well-formed method table the binary
    search of [caml_get_public_method] returns the method of a tag of the
    table and 0 for any other tag, and the instruction GETDYNMET fetches the
    same method. *)
Theorem public_method_lookup h obj meths n lg m tg :
  field h obj 0 = Ok meths -> method_table h meths n lg m tg ->
  (forall i, 0 <= i < n -> caml_get_public_method h obj (tg i) = Ok (m i)) /\
  (forall t, (forall i, 0 <= i < n -> tg i <> t) -> caml_get_public_method h obj t = Ok (Imm 0)) /\
  (forall s i, hp s = h -> peek s 0 = Ok obj -> 0 <= i < n -> accu s = Imm (tg i) ->
     exec_GETDYNMET s = Ok (Next (set_accu (m i) s))).
Proof.
  intros Ho T. unfold caml_get_public_method, exec_GETDYNMET. rewrite Ho. conj.
  - intros i Hi. rewrite (find_method_present _ _ _ _ _ _ T i Hi), Z.add_comm.
    rewrite (mt_tag _ _ _ _ _ _ T) by lia. destruct (value_eqb_spec (Imm (tg i)) (Imm (tg i))); [|easy].
    replace (3 + 2 * i - 1) with (2 + 2 * i) by lia. now apply (mt_method _ _ _ _ _ _ T).
  - intros t Ht. destruct (find_method_spec _ _ _ _ _ _ T t) as (k & -> & Hk & _).
    rewrite Z.add_comm, (mt_tag _ _ _ _ _ _ T) by lia.
    destruct (value_eqb_spec (Imm (tg k)) (Imm t)) as [[= E]|]; [|easy]. now apply Ht in E.
  - intros s i <- Hs Hi Ha. rewrite Hs, Ha. cbn [raw]. rewrite Ho.
    rewrite (find_method_present _ _ _ _ _ _ T i Hi).
    replace (2 * i + 3 - 1) with (2 + 2 * i) by lia. now rewrite (mt_method _ _ _ _ _ _ T).
Qed.

(** The words the compiler and GETPUBMET itself put in a cache. *)
Definition cache_word (c : Z) : Prop := exists k, c = 2 * sizeof_value * k.

Lemma cache_word_store i : cache_word (swrap 32 ((2 * i + 3 - 3) * sizeof_value)).
Proof.
  destruct (swrap_eqm 32 ((2 * i + 3 - 3) * sizeof_value)) as [q ->]; [lia|]. unfold cache_word.
  unfold sizeof_value. destruct WORD_cases as [-> | ->].
  - exists (i + 2 ^ 29 * q). change (2 ^ 32) with (2 * 4 * 2 ^ 29). change (32 / 8) with 4. lia.
  - exists (i + 2 ^ 28 * q). change (2 ^ 32) with (2 * 8 * 2 ^ 28). change (64 / 8) with 8. lia.
Qed.

(** The inline cache of GETPUBMET is transparent: on a well-formed method
    table, whatever offset an earlier execution has left in the cache word
    (perhaps for an object of another class), the instruction pushes the
    object, fetches the method of the tag it names and goes on after the cache
    word; at most the cache word of the code has changed, and it is again one
    that any later execution accepts. *)
Theorem getpubmet_cache_transparent s meths n lg m tg i :
  field (hp s) (accu s) 0 = Ok meths -> method_table (hp s) meths n lg m tg ->
  0 <= i < n -> Val_int (code s (pc s)) = tg i -> cache_word (code s (pc s + 1)) ->
  exists s', exec_GETPUBMET s = Ok (Next s') /\
    accu s' = m i /\ sp s' = accu s :: sp s /\ pc s' = pc s + 2 /\ hp s' = hp s /\
    env s' = env s /\ extra_args s' = extra_args s /\
    (forall p, p <> pc s + 1 -> code s' p = code s p) /\ cache_word (code s' (pc s + 1)).
Proof.
  intros Ho T Hi Ht [c Hc]. unfold exec_GETPUBMET. rewrite Ho. unfold operand.
  cbn [skip push set_pc set_sp pc hp code]. rewrite !Z.add_0_r, Ht, (mt_mask _ _ _ _ _ _ T). cbn [raw].
  rewrite Hc. destruct (masked_offset _ _ _ _ _ _ T c) as (k & Hk & ->). rewrite !field_at_pair.
  destruct (slot_decides _ _ _ _ _ _ T i k Hi Hk) as (v & -> & Hv).
  destruct (value_eqb_spec v (Imm (tg i))) as [E|E].
  - apply Hv in E as ->. rewrite (mt_method _ _ _ _ _ _ T) by auto. unfold run1.
    eexists. split; [reflexivity|]. cbn. conj; auto; [lia|]. now exists c.
  - rewrite (find_method_present _ _ _ _ _ _ T i Hi). cbn [set_code hp].
    replace (2 * i + 3 - 1) with (2 + 2 * i) by lia. rewrite (mt_method _ _ _ _ _ _ T) by auto.
    unfold run1. eexists. split; [reflexivity|]. cbn. conj; auto; [lia| |].
    + intros p Hp. now rewrite (proj2 (Z.eqb_neq _ _) Hp).
    + rewrite Z.eqb_refl. apply cache_word_store.
Qed.
End Dispatch.

(** An object (block 0) whose method table (block 1) has three public methods
    and room for a fourth pair. *)
Definition object_heap : heap :=
  Heap (fun b =>
    if b =? 0 then Some (Block 248 (Fields [Ptr 1 0; Imm 1]))
    else if b =? 1 then Some (Block 0 (Fields [Imm 7; Imm 63; Cptr 10; Imm 21; Cptr 20; Imm 35;
                                               Cptr 30; Imm 41; Cptr 40; Imm 1]))
    else None) 2.
Definition object_tag (k : Z) : Z := nth (Z.to_nat k) [21; 35; 41] 0.
Definition object_method (k : Z) : value := Cptr (10 * (k + 1)).

Lemma object_heap_table : @method_table arch64 object_heap (Ptr 1 0) 3 2 object_method object_tag.
Proof.
  assert (C : forall k, 0 <= k < 3 -> k = 0 \/ k = 1 \/ k = 2) by lia.
  split; try reflexivity; try lia.
  - intros k Hk. destruct (C k Hk) as [-> | [-> | ->]]; reflexivity.
  - intros k Hk. destruct (C k Hk) as [-> | [-> | ->]]; reflexivity.
  - intros j k Hj Hjk Hk. destruct (C k) as [-> | [-> | ->]]; destruct (C j) as [-> | [-> | ->]]; try lia; reflexivity.
  - intros k Hk. assert (k = 3) as -> by lia. exists (Imm 1). split; [reflexivity|].
    intros i Hi. destruct (C i Hi) as [-> | [-> | ->]]; discriminate.
Defined.

Lemma public_method_lookup_witness :
  @caml_get_public_method arch64 object_heap (Ptr 0 0) 35 = Ok (Cptr 20) /\
  @caml_get_public_method arch64 object_heap (Ptr 0 0) 37 = Ok (Imm 0).
Proof.
  destruct (public_method_lookup (A := arch64) object_heap (Ptr 0 0) (Ptr 1 0) 3 2 object_method object_tag
              eq_refl object_heap_table) as (Hp & Ha & _).
  split; [now apply (Hp 1) | apply (Ha 37)].
  intros i Hi. assert (C : i = 0 \/ i = 1 \/ i = 2) by lia.
  destruct C as [-> | [-> | ->]]; discriminate.
Defined.

(** The cache holds the offset 1024 left by a larger table. *)
Definition pubmet_state : state :=
  St 0 [] (Ptr 0 0) (Atom 0) 0 0 object_heap (Atom 0) false 4096 (fun p => if p =? 0 then 17 else 1024).
Lemma getpubmet_witness :
  exists s', @exec_GETPUBMET arch64 pubmet_state = Ok (Next s') /\ accu s' = Cptr 20 /\ pc s' = 2.
Proof.
  destruct (getpubmet_cache_transparent (A := arch64) pubmet_state (Ptr 1 0) 3 2 object_method object_tag 1
              eq_refl object_heap_table) as (s' & E & Ha & _ & Hp & _).
  - lia.
  - reflexivity.
  - exists 64. reflexivity.
  - exists s'. now rewrite E, Ha, Hp.
Defined.
