(* ===== verification/MarshalHeap.v ===== *)
(** MarshalHeap: memory as the marshaller sees it: blocks with a header word and
    a list of words, the bytes of words, custom operation tables
    (src/inline-more/byterun/custom.c). *)
From Stdlib Require Import ZArith Lia Bool Ascii String List.
From S2P Require Import Prelude Mlvalues InterpState ExternOutput InternInput Custom.
Import ListNotations.
Local Open Scope Z_scope.

(** ** Bytes of words *)

Section Words.
Context {A : Arch}.

(** [sizeof(value)] as a number of bytes to iterate on. *)
Definition ws : nat := Z.to_nat sizeof_value.

(** The byte at address [k] of a word, and its assignment. *)
Definition word_byte (v : value) (k : Z) : res Z :=
  match v with Imm x => of_option (nthZ (mem_bytes ws x) k) | _ => Stuck end.
Definition set_word_byte (v : value) (k b : Z) : res value :=
  match v with
  | Imm x => let! l := of_option (updZ (mem_bytes ws x) k (byte b)) in Ok (Imm (swrap WORD (mem_val l)))
  | _ => Stuck
  end.

(** gc.h and mlvalues.h *)
Definition Colornum_hd (hd : Z) : Z := Z.land (Z.shiftr hd 8) 3.
Definition Coloredhd_hd (hd colnum : Z) : Z :=
  Z.lor (Z.land hd (wrap WORD (Z.lnot Caml_black))) (Z.shiftl colnum 8).

(** ** Blocks of the heap

    A heap maps block numbers to a header and the words that follow it; a
    pointer [Ptr b ofs] with [ofs] positive points inside block [b]. *)
Record sblock := SBlock { shd : Z; swords : list value }.
Definition sheap := Z -> option sblock.

(** Atoms have a header and no word. *)
Definition get_sblock (h : sheap) (b : Z) : option sblock :=
  if b <? 0 then Some (SBlock (Make_header 0 (- 1 - b) Caml_white) []) else h b.
Definition upd_sblock (h : sheap) (b : Z) (blk : sblock) : sheap :=
  fun x => if x =? b then Some blk else h x.

(** [Hd_val(v)]: the word before the one [v] points to. *)
Definition hd_of (h : sheap) (v : value) : res Z :=
  match v with
  | Ptr b ofs =>
      match get_sblock h b with
      | Some (SBlock hd ws) => if ofs =? 0 then Ok hd else let! w := of_option (nthZ ws (ofs - 1)) in raw w
      | None => Stuck
      end
  | _ => Stuck
  end.
(** [Field(v, i)] *)
Definition fld (h : sheap) (v : value) (i : Z) : res value :=
  match v with
  | Ptr b ofs =>
      match get_sblock h b with
      | Some (SBlock _ ws) => of_option (nthZ ws (ofs + i))
      | None => Stuck
      end
  | _ => Stuck
  end.
Definition set_hd (h : sheap) (v : value) (hd : Z) : res sheap :=
  match v with
  | Ptr b ofs =>
      match h b with
      | Some (SBlock hd0 ws) =>
          if ofs =? 0 then Ok (upd_sblock h b (SBlock hd ws))
          else let! ws := of_option (updZ ws (ofs - 1) (Imm hd)) in Ok (upd_sblock h b (SBlock hd0 ws))
      | None => Stuck
      end
  | _ => Stuck
  end.
Definition set_fld (h : sheap) (v : value) (i : Z) (x : value) : res sheap :=
  match v with
  | Ptr b ofs =>
      match h b with
      | Some (SBlock hd ws) =>
          let! ws := of_option (updZ ws (ofs + i) x) in Ok (upd_sblock h b (SBlock hd ws))
      | None => Stuck
      end
  | _ => Stuck
  end.

(** [Byte(v, i)] *)
Definition byte_at (h : sheap) (v : value) (i : Z) : res Z :=
  let! w := fld h v (i / sizeof_value) in word_byte w (i mod sizeof_value).
(** The bytes [Byte(v, 0) .. Byte(v, n - 1)] *)
Fixpoint bytes_at (h : sheap) (v : value) (i : Z) (n : nat) : res (list Z) :=
  match n with
  | O => Ok []
  | S n => let! b := byte_at h v i in let! bs := bytes_at h v (i + 1) n in Ok (b :: bs)
  end.

(** str.c *)
Definition caml_string_length (h : sheap) (v : value) : res Z :=
  let! hd := hd_of h v in
  let temp := Bosize_hd hd - 1 in
  let! b := byte_at h v temp in
  Ok (temp - swrap 8 b).

(** ** Predicates on values *)

(** A raw word with its low bit clear is not a heap pointer. *)
Definition Is_long_val (v : value) : bool := match v with Imm w => Is_long w | _ => false end.
Definition Is_in_value_area (v : value) : bool := match v with Ptr _ _ => true | _ => false end.
End Words.

(** ** Custom operations

    The methods of a custom block that marshalling, comparison and hashing call.
    [serialize] is given the data words of the block; [deserialize] returns the
    data words it stores and their size in bytes; [compare] returns its result
    and the value it gives to [caml_compare_unordered]. *)
Record custom_operations := Ops {
  identifier : list Z;
  custom_compare : option (list value -> list value -> res (Z * bool));
  custom_hash : option (list value -> res Z);
  serialize : option (list value -> writer);
  deserialize : option (input (list value * Z)) }.

(** The table is a list of addresses of operations, most recent first. *)
Section CustomTable.
Variable custom_at : Z -> option custom_operations.

Definition caml_register_custom_operations (ops : Z) (custom_ops_table : list Z) : list Z :=
  ops :: custom_ops_table.

Definition zlist_eqb (l1 l2 : list Z) : bool := if list_eq_dec Z.eq_dec l1 l2 then true else false.

Fixpoint caml_find_custom_operations (ident : list Z) (l : list Z) : option Z :=
  match l with
  | [] => None
  | p :: l =>
      match custom_at p with
      | Some ops => if zlist_eqb (identifier ops) ident then Some p else caml_find_custom_operations ident l
      | None => caml_find_custom_operations ident l
      end
  end.
End CustomTable.

(** A heap given by the list of its blocks, and the empty table, for
    examples. *)
Definition heap_of (l : list sblock) : sheap := fun b => nthZ l b.
Definition no_custom : Z -> option custom_operations := fun _ => None.
