(* ===== verification/Extern.v ===== *)
(** Extern: marshalling of structured values, src/inline-more/byterun/extern.c:
    the trail of forwarding pointers, [extern_rec], [extern_value] and the
    entry points to a string and to a buffer. *)
From Stdlib Require Import ZArith Lia Bool Ascii String List.
From S2P Require Import Prelude Mlvalues InterpState ExternOutput InternInput Custom MarshalHeap.
Import ListNotations.
Local Open Scope Z_scope.

(** ** intext.h *)

Definition Intext_magic_number : Z := 0x8495A6BE.
Definition PREFIX_SMALL_BLOCK : Z := 0x80.
Definition PREFIX_SMALL_INT : Z := 0x40.
Definition PREFIX_SMALL_STRING : Z := 0x20.
Definition CODE_INT8 : Z := 0x0.
Definition CODE_INT16 : Z := 0x1.
Definition CODE_INT32 : Z := 0x2.
Definition CODE_INT64 : Z := 0x3.
Definition CODE_SHARED8 : Z := 0x4.
Definition CODE_SHARED16 : Z := 0x5.
Definition CODE_SHARED32 : Z := 0x6.
Definition CODE_BLOCK32 : Z := 0x8.
Definition CODE_BLOCK64 : Z := 0x13.
Definition CODE_STRING8 : Z := 0x9.
Definition CODE_STRING32 : Z := 0xA.
Definition CODE_DOUBLE_BIG : Z := 0xB.
Definition CODE_DOUBLE_LITTLE : Z := 0xC.
Definition CODE_DOUBLE_ARRAY8_BIG : Z := 0xD.
Definition CODE_DOUBLE_ARRAY8_LITTLE : Z := 0xE.
Definition CODE_DOUBLE_ARRAY32_BIG : Z := 0xF.
Definition CODE_DOUBLE_ARRAY32_LITTLE : Z := 0x7.
Definition CODE_CODEPOINTER : Z := 0x10.
Definition CODE_INFIXPOINTER : Z := 0x11.
Definition CODE_CUSTOM : Z := 0x12.
Definition ENTRIES_PER_TRAIL_BLOCK : nat := 1025.

(** ARCH_FLOAT_ENDIANNESS is 0x76543210 (big) or 0x01234567 (little); the mixed
    order of old ARM processors is not modelled. *)
Class FloatArch := { float_big_endian : bool }.
Definition little_floats : FloatArch := {| float_big_endian := false |}.
Definition big_floats : FloatArch := {| float_big_endian := true |}.

Section Codes.
Context {F : FloatArch}.
Definition CODE_DOUBLE_NATIVE : Z := if float_big_endian then CODE_DOUBLE_BIG else CODE_DOUBLE_LITTLE.
Definition CODE_DOUBLE_ARRAY8_NATIVE : Z :=
  if float_big_endian then CODE_DOUBLE_ARRAY8_BIG else CODE_DOUBLE_ARRAY8_LITTLE.
Definition CODE_DOUBLE_ARRAY32_NATIVE : Z :=
  if float_big_endian then CODE_DOUBLE_ARRAY32_BIG else CODE_DOUBLE_ARRAY32_LITTLE.
End Codes.

(** ** State *)

(** [te_obj] and [te_color] share a word in the code. *)
Record trail_entry := Entry { te_obj : value; te_color : Z; te_field0 : value }.

(** [trail_prev] are the full trail blocks, most recent first; [trail_cur] are
    the entries of the current one. *)
Record ext := Ext {
  eout : extern_out; eheap : sheap; obj_counter : Z; size_32 : Z; size_64 : Z;
  trail_prev : list (list trail_entry); trail_cur : list trail_entry }.

Definition set_eout (o : extern_out) (st : ext) : ext :=
  Ext o (eheap st) (obj_counter st) (size_32 st) (size_64 st) (trail_prev st) (trail_cur st).

(** An exception comes with the heap it leaves behind. *)
Inductive eres (T : Type) := EOk (x : T) | ERaise (e : exn) (h : sheap) | EStuck.
Arguments EOk {T} x.
Arguments ERaise {T} e h.
Arguments EStuck {T}.

Notation "'let?' p ':=' e 'in' k" :=
  (match e with EOk p => k | ERaise e' h' => ERaise e' h' | EStuck => EStuck end)
  (at level 10, p pattern, e at level 100, k at level 200,
   format "'let?'  p  ':='  e  'in' '//' k") : c_scope.

Definition read {T} (r : res T) : eres T := match r with Ok x => EOk x | _ => EStuck end.

Section Extern.
Context {A : Arch} {F : FloatArch}.
(** The registered structures of custom operations by address, the size of the
    bytecode in opcodes and its checksum. *)
Variable custom_at : Z -> option custom_operations.
Variable caml_code_size : Z.
Variable caml_code_checksum : list Z.
(** The flags of the call. *)
Variable extern_ignore_sharing : bool.
Variable extern_closures : bool.

Definition add_sizes (s32 s64 : Z) (st : ext) : ext :=
  Ext (eout st) (eheap st) (obj_counter st) (wrap WORD (size_32 st + s32)) (wrap WORD (size_64 st + s64))
      (trail_prev st) (trail_cur st).

(** ** The trail *)

Definition replay_entry (e : trail_entry) (h : sheap) : res sheap :=
  let! hd := hd_of h (te_obj e) in
  let! h := set_hd h (te_obj e) (Coloredhd_hd hd (te_color e)) in
  set_fld h (te_obj e) 0 (te_field0 e).
Fixpoint replay_block (l : list trail_entry) (h : sheap) : res sheap :=
  match l with [] => Ok h | e :: l => let! h := replay_entry e h in replay_block l h end.
Fixpoint replay_blocks (ls : list (list trail_entry)) (h : sheap) : res sheap :=
  match ls with [] => Ok h | l :: ls => let! h := replay_block l h in replay_blocks ls h end.
Definition extern_replay_trail (st : ext) : res sheap :=
  replay_blocks (trail_cur st :: trail_prev st) (eheap st).

Definition extern_record_location (obj : value) (st : ext) : res ext :=
  if extern_ignore_sharing then Ok st
  else
    let '(prev, cur) :=
      if Nat.eqb (length (trail_cur st)) ENTRIES_PER_TRAIL_BLOCK
      then (trail_cur st :: trail_prev st, []) else (trail_prev st, trail_cur st) in
    let! hdr := hd_of (eheap st) obj in
    let! field0 := fld (eheap st) obj 0 in
    let cur := cur ++ [Entry obj (Colornum_hd hdr) field0] in
    let! h := set_hd (eheap st) obj (Bluehd_hd hdr) in
    let! h := set_fld h obj 0 (Imm (obj_counter st)) in
    Ok (Ext (eout st) h (wrap WORD (obj_counter st + 1)) (size_32 st) (size_64 st) prev cur).

(** ** Exceptions *)

Definition extern_failure {T} (e : exn) (st : ext) : eres T :=
  match extern_replay_trail st with Ok h => ERaise e h | _ => EStuck end.
Definition extern_invalid_argument {T} (msg : string) (st : ext) : eres T :=
  extern_failure (Invalid_argument msg) st.

(** A write; [grow_extern_output] replays the trail when it fails. *)
Definition write (op : extern_out -> res extern_out) (st : ext) : eres ext :=
  match op (eout st) with
  | Ok o => EOk (set_eout o st)
  | Raise e => extern_failure e st
  | Stuck => EStuck
  end.

(** ** Contents of the objects *)

Definition extern_int (n : Z) (st : ext) : eres ext :=
  if (0 <=? n) && (n <? 0x40) then write (Write (PREFIX_SMALL_INT + n)) st
  else if (- 2 ^ 7 <=? n) && (n <? 2 ^ 7) then write (writecode8 CODE_INT8 n) st
  else if (- 2 ^ 15 <=? n) && (n <? 2 ^ 15) then write (writecode16 CODE_INT16 n) st
  else if ARCH_SIXTYFOUR && ((n <? - 2 ^ 31) || (2 ^ 31 <=? n)) then write (writecode64 CODE_INT64 n) st
  else write (writecode32 CODE_INT32 n) st.

Definition extern_shared (d : Z) (st : ext) : eres ext :=
  if d <? 0x100 then write (writecode8 CODE_SHARED8 d) st
  else if d <? 0x10000 then write (writecode16 CODE_SHARED16 d) st
  else write (writecode32 CODE_SHARED32 d) st.

Definition extern_string (v : value) (st : ext) : eres ext :=
  let? len := read (caml_string_length (eheap st) v) in
  let? st :=
    (if len <? 0x20 then write (Write (PREFIX_SMALL_STRING + len)) st
     else if len <? 0x100 then write (writecode8 CODE_STRING8 len) st
     else write (writecode32 CODE_STRING32 len) st) in
  let? data := read (bytes_at (eheap st) v 0 (Z.to_nat len)) in
  let? st := write (writeblock data) st in
  read (extern_record_location v (add_sizes (1 + (len + 4) / 4) (1 + (len + 8) / 8) st)).

(** [sizeof(double)] is 8 on the machines modelled. *)
Definition extern_double (v : value) (st : ext) : eres ext :=
  let? st := write (Write CODE_DOUBLE_NATIVE) st in
  let? data := read (bytes_at (eheap st) v 0 8) in
  let? st := write (writeblock data) st in
  read (extern_record_location v (add_sizes (1 + 2) (1 + 1) st)).

Definition extern_double_array (v : value) (sz : Z) (st : ext) : eres ext :=
  let nfloats := sz / Double_wosize in
  let? st :=
    (if nfloats <? 0x100 then write (writecode8 CODE_DOUBLE_ARRAY8_NATIVE nfloats) st
     else write (writecode32 CODE_DOUBLE_ARRAY32_NATIVE nfloats) st) in
  let? data := read (bytes_at (eheap st) v 0 (Z.to_nat (nfloats * 8))) in
  let? st := write (writeblock data) st in
  read (extern_record_location v (add_sizes (1 + nfloats * 2) (1 + nfloats) st)).

Definition buffer_overflow : exn := Failure "Marshal.to_buffer: buffer overflow".

(** A serializer that runs out of buffer replays the trail; one that raises on
    its own does not. *)
Definition extern_custom (v : value) (st : ext) : eres ext :=
  let? ops := read (let! w := fld (eheap st) v 0 in let! p := raw w in of_option (custom_at p)) in
  match serialize ops with
  | None => extern_invalid_argument "output_value: abstract value (Custom)" st
  | Some serialize =>
      let? st := write (Write CODE_CUSTOM) st in
      let? st := write (writeblock (identifier ops ++ [0])) st in
      let? words := read (match v with
                          | Ptr b 0 => of_option (option_map swords (eheap st b))
                          | _ => Stuck
                          end) in
      match serialize (tl words) (eout st) with
      | Ok (o, (sz_32, sz_64)) =>
          read (extern_record_location v
                  (add_sizes (2 + Z.shiftr (sz_32 + 3) 2) (2 + Z.shiftr (sz_64 + 7) 3) (set_eout o st)))
      | Raise (Failure msg) =>
          if String.eqb msg "Marshal.to_buffer: buffer overflow" then extern_failure (Failure msg) st
          else ERaise (Failure msg) (eheap st)
      | Raise e => ERaise e (eheap st)
      | Stuck => EStuck
      end
  end.

Definition extern_header (hd tag sz : Z) (st : ext) : eres ext :=
  if (tag <? 16) && (sz <? 8) then write (Write (PREFIX_SMALL_BLOCK + tag + Z.shiftl sz 4)) st
  else if ARCH_SIXTYFOUR && (Z.shiftl 1 32 <=? hd) then write (writecode64 CODE_BLOCK64 (Whitehd_hd hd)) st
  else write (writecode32 CODE_BLOCK32 (Whitehd_hd hd)) st.

(** What to do with a block tagged [Forward_tag]: [None] when the pointer must
    not be short-circuited. *)
Definition forward_target (h : sheap) (v : value) : eres (option value) :=
  let? f := read (fld h v 0) in
  if Is_long_val f then EOk (Some f)
  else if negb (Is_in_value_area f) then EOk None
  else
    let? hd := read (hd_of h f) in
    let t := Tag_hd hd in
    EOk (if (t =? Forward_tag) || (t =? Lazy_tag) || (t =? Double_tag) then None else Some f).

(** The loop over the fields between the first and the last. *)
Fixpoint extern_fields (rec : value -> ext -> eres ext) (v : value) (i : Z) (n : nat) (st : ext) : eres ext :=
  match n with
  | O => EOk st
  | S n =>
      let? x := read (fld (eheap st) v i) in
      let? st := rec x st in
      extern_fields rec v (i + 1) n st
  end.

Definition extern_block (rec : value -> ext -> eres ext) (v : value) (hd tag sz : Z) (st : ext) : eres ext :=
  let? st := extern_header hd tag sz st in
  let st := add_sizes (1 + sz) (1 + sz) st in
  let? field0 := read (fld (eheap st) v 0) in
  let? st := read (extern_record_location v st) in
  if sz =? 1 then rec field0 st
  else
    let? st := rec field0 st in
    let? st := extern_fields rec v 1 (Z.to_nat (sz - 2)) st in
    let? x := read (fld (eheap st) v (sz - 1)) in
    rec x st.

Definition extern_object (rec : value -> ext -> eres ext) (v : value) (hd tag sz : Z) (st : ext) : eres ext :=
  if sz =? 0 then
    if tag <? 16 then write (Write (PREFIX_SMALL_BLOCK + tag)) st
    else write (writecode32 CODE_BLOCK32 hd) st
  else if Color_hd hd =? Caml_blue then
    let? c := read (let! w := fld (eheap st) v 0 in raw w) in
    extern_shared (wrap WORD (obj_counter st - c)) st
  else if tag =? String_tag then extern_string v st
  else if tag =? Double_tag then extern_double v st
  else if tag =? Double_array_tag then extern_double_array v sz st
  else if tag =? Abstract_tag then extern_invalid_argument "output_value: abstract value (Abstract)" st
  else if tag =? Infix_tag then
    let? st := write (writecode32 CODE_INFIXPOINTER (Infix_offset_hd hd)) st in
    match v with
    | Ptr b ofs => rec (Ptr b (ofs - Infix_offset_hd hd / sizeof_value)) st
    | _ => EStuck
    end
  else if tag =? Custom_tag then extern_custom v st
  else extern_block rec v hd tag sz st.

(** Code pointers are written as byte offsets; an opcode has four bytes. *)
Definition extern_code (v : value) (st : ext) : eres ext :=
  match v with
  | Cptr p =>
      if (0 <=? p) && (p <? caml_code_size) then
        if negb extern_closures then extern_invalid_argument "output_value: functional value" st
        else
          let? st := write (writecode32 CODE_CODEPOINTER (4 * p)) st in
          write (writeblock caml_code_checksum) st
      else extern_invalid_argument "output_value: abstract value (outside heap)" st
  | _ => extern_invalid_argument "output_value: abstract value (outside heap)" st
  end.

(** The recursion follows the graph of the heap; [fuel] bounds its depth, tail
    calls included. *)
Fixpoint extern_rec (fuel : nat) (v : value) (st : ext) : eres ext :=
  match fuel with
  | O => EStuck
  | S fuel =>
      match v with
      | Imm w => if Is_long w then extern_int (Long_val w) st else extern_code v st
      | Ptr _ _ =>
          let? hd := read (hd_of (eheap st) v) in
          let tag := Tag_hd hd in
          let sz := Wosize_hd hd in
          let? target := (if tag =? Forward_tag then forward_target (eheap st) v else EOk None) in
          match target with
          | Some f => extern_rec fuel f st
          | None => extern_object (extern_rec fuel) v hd tag sz st
          end
      | _ => extern_code v st
      end
  end.

(** ** A whole message *)

(** Stores over bytes already written, from offset [ofs] of the first block. *)
Definition overwrite (ofs : nat) (bs : list Z) (data : list Z) : list Z :=
  firstn ofs data ++ bs ++ skipn (ofs + length bs) data.
Definition patch_first (ofs : nat) (bs : list Z) (o : extern_out) : extern_out :=
  match blocks o with
  | [] => Out (userprovided o) [] (overwrite ofs bs (cur o)) (cap o)
  | b :: bs' => Out (userprovided o) (overwrite ofs bs b :: bs') (cur o) (cap o)
  end.

(** The bytes [write32] stores. *)
Definition bytes32 (x : Z) : list Z :=
  [byte (Z.shiftr x 24); byte (Z.shiftr x 16); byte (Z.shiftr x 8); byte x].

(** [junk] are the 16 bytes skipped for the sizes, not initialised yet.  The
    result is the length, the output and the heap. *)
Definition extern_value (junk : list Z) (fuel : nat) (v : value) (o : extern_out) (h : sheap) :
    eres (Z * extern_out * sheap) :=
  let st := Ext o h 0 0 0 [] [] in
  let? st := write (write32 Intext_magic_number) st in
  let st := set_eout (put junk (eout st)) st in
  let? st := extern_rec fuel v st in
  let? h := read (extern_replay_trail st) in
  let res_len := extern_output_length (eout st) in
  if ARCH_SIXTYFOUR &&
     ((Z.shiftl 1 32 <=? res_len) || (Z.shiftl 1 32 <=? size_32 st) || (Z.shiftl 1 32 <=? size_64 st))
  then ERaise (Failure "output_value: object too big") h
  else
    EOk (res_len,
         patch_first 4 (bytes32 (res_len - 5 * 4) ++ bytes32 (obj_counter st) ++
                        bytes32 (size_32 st) ++ bytes32 (size_64 st)) (eout st), h).

(** [caml_alloc_string]: the words of a string of [len] bytes, up to the limit of
    [caml_alloc_shr]. *)
Definition string_words (len : Z) : Z := (len + sizeof_value) / sizeof_value.
Definition caml_output_value_to_string (junk : list Z) (fuel : nat) (v : value) (h : sheap) :
    eres (list Z * sheap) :=
  let? (len, o, h) := extern_value junk fuel v init_extern_output h in
  if Max_wosize <? string_words len then ERaise Out_of_memory h
  else let? s := read (extern_output_contents o) in EOk (s, h).

Definition caml_output_value_to_buffer (junk : list Z) (fuel : nat) (len : Z) (v : value) (h : sheap) :
    eres (Z * list Z * sheap) :=
  let? (n, o, h) := extern_value junk fuel v (init_user_output len) h in
  EOk (n, cur o, h).

(** The block allocated and its length. *)
Definition caml_output_value_to_malloc (junk : list Z) (fuel : nat) (v : value) (h : sheap) :
    eres (list Z * Z * sheap) :=
  let? (len_res, o, h) := extern_value junk fuel v init_extern_output h in
  let? s := read (extern_output_contents o) in EOk (s, len_res, h).
End Extern.

(** The flags of the call, a list of constructor numbers. *)
Definition NO_SHARING : Z := 1.
Definition CLOSURES : Z := 2.
Definition extern_flags : list Z := [NO_SHARING; CLOSURES].
Fixpoint caml_convert_flag_list (l : list Z) (flags : list Z) (acc : Z) : option Z :=
  match l with
  | [] => Some acc
  | n :: l =>
      match nthZ flags n with
      | Some f => caml_convert_flag_list l flags (Z.lor acc f)
      | None => None
      end
  end.
