(* ===== verification/Intern.v ===== *)
(** Intern: unmarshalling of structured values, src/inline-more/byterun/intern.c:
    [intern_rec], [intern_alloc] and the entry points. *)
From Stdlib Require Import ZArith Lia Bool Ascii String List.
From S2P Require Import Prelude Mlvalues InterpState ExternOutput InternInput Custom MarshalHeap Extern.
Import ListNotations.
Local Open Scope Z_scope.

(** ** State

    The result is built in one area of [iend] words, allocated beforehand; word
    [a] of it is [imem a], and a pointer to it is [Ptr intern_area a].
    [intern_obj_table] is [None] for a null pointer; otherwise its length is
    [obj_counter].  [ivar] is the C variable a call can be asked to fill. *)

Definition intern_area : Z := 0.

Record int_state := Int {
  isrc : list Z; idest : Z; imem : Z -> value; iend : Z; ivar : value;
  intern_obj_table : option (list value); table_size : Z }.

Inductive destination := Var | At (a : Z).

Definition set_isrc (src : list Z) (st : int_state) : int_state :=
  Int src (idest st) (imem st) (iend st) (ivar st) (intern_obj_table st) (table_size st).
Definition set_idest (d : Z) (st : int_state) : int_state :=
  Int (isrc st) d (imem st) (iend st) (ivar st) (intern_obj_table st) (table_size st).
Definition set_imem (m : Z -> value) (st : int_state) : int_state :=
  Int (isrc st) (idest st) m (iend st) (ivar st) (intern_obj_table st) (table_size st).
Definition set_ivar (v : value) (st : int_state) : int_state :=
  Int (isrc st) (idest st) (imem st) (iend st) v (intern_obj_table st) (table_size st).
Definition set_table (t : option (list value)) (st : int_state) : int_state :=
  Int (isrc st) (idest st) (imem st) (iend st) (ivar st) t (table_size st).

(** ** Stores; outside the area they are undefined. *)

Definition store_word (a : Z) (v : value) (st : int_state) : res int_state :=
  if (0 <=? a) && (a <? iend st) then Ok (set_imem (fun x => if x =? a then v else imem st x) st) else Stuck.
Definition store (dest : destination) (v : value) (st : int_state) : res int_state :=
  match dest with Var => Ok (set_ivar v st) | At a => store_word a v st end.
Fixpoint store_words (a : Z) (l : list value) (st : int_state) : res int_state :=
  match l with [] => Ok st | v :: l => let! st := store_word a v st in store_words (a + 1) l st end.

Section Intern.
Context {A : Arch} {F : FloatArch}.
Variable custom_at : Z -> option custom_operations.
Variable custom_ops_table : list Z.
Variable caml_code_checksum : list Z.
(** The colour of the blocks in the area. *)
Variable intern_color : Z.

(** [Byte(v, i)] for [v] the block whose first word is [a]. *)
Definition load_byte (a i : Z) (st : int_state) : res Z := word_byte (imem st (a + i / sizeof_value)) (i mod sizeof_value).
Definition store_byte (a i b : Z) (st : int_state) : res int_state :=
  let! w := set_word_byte (imem st (a + i / sizeof_value)) (i mod sizeof_value) b in
  store_word (a + i / sizeof_value) w st.
Fixpoint store_bytes (a i : Z) (l : list Z) (st : int_state) : res int_state :=
  match l with [] => Ok st | b :: l => let! st := store_byte a i b st in store_bytes a (i + 1) l st end.
Fixpoint load_bytes (a i : Z) (n : nat) (st : int_state) : res (list Z) :=
  match n with
  | O => Ok []
  | S n => let! b := load_byte a i st in let! bs := load_bytes a (i + 1) n st in Ok (b :: bs)
  end.

(** [readblock(&Byte(v, 0), len)] *)
Definition readblock_at (a len : Z) (st : int_state) : res int_state :=
  let! (data, src) := readblock (Z.to_nat len) (isrc st) in
  store_bytes a 0 data (set_isrc src st).

(** ** Objects *)

(** [intern_obj_table[obj_counter++] = v] when there is a table. *)
Definition record_object (v : value) (st : int_state) : res int_state :=
  match intern_obj_table st with
  | None => Ok st
  | Some t => if Z.of_nat (length t) <? table_size st then Ok (set_table (Some (t ++ [v])) st) else Stuck
  end.

(** A new block: the header goes to [intern_dest], which then moves past the
    block.  The result is the address of its first word. *)
Definition new_block (size tag : Z) (st : int_state) : res (Z * int_state) :=
  let a := idest st + 1 in
  let! st := record_object (Ptr intern_area a) st in
  let! st := store_word (idest st) (Imm (Make_header size tag intern_color)) st in
  Ok (a, set_idest (idest st + (1 + size)) st).

Fixpoint intern_fields (rec : destination -> int_state -> res int_state) (a : Z) (n : nat) (st : int_state) :
    res int_state :=
  match n with
  | O => Ok st
  | S n => let! st := rec (At a) st in intern_fields rec (a + 1) n st
  end.

Definition read_block (rec : destination -> int_state -> res int_state) (tag size : Z) (dest : destination)
    (st : int_state) : res int_state :=
  if size =? 0 then store dest (Atom tag) st
  else
    let! st := store dest (Ptr intern_area (idest st + 1)) st in
    let! (a, st) := new_block size tag st in
    let! st := intern_fields rec a (Z.to_nat (size - 1)) st in
    rec (At (a + (size - 1))) st.

Definition read_string (len : Z) (dest : destination) (st : int_state) : res int_state :=
  let size := (len + sizeof_value) / sizeof_value in
  let! (a, st) := new_block size String_tag st in
  let! st := store_word (a + (size - 1)) (Imm 0) st in
  let ofs_ind := Bsize_wsize size - 1 in
  let! st := store_byte a ofs_ind (ofs_ind - len) st in
  let! st := readblock_at a len st in
  store dest (Ptr intern_area a) st.

(** [Reverse_64] of the double [i] of a block, in place. *)
Definition reverse_64_at (a i : Z) (st : int_state) : res int_state :=
  let! bs := load_bytes a (8 * i) 8 st in
  store_bytes a (8 * i) (Reverse_64 bs) st.
Fixpoint reverse_doubles (a i : Z) (n : nat) (st : int_state) : res int_state :=
  match n with O => Ok st | S n => let! st := reverse_64_at a i st in reverse_doubles a (i + 1) n st end.

Definition read_double (big : bool) (dest : destination) (st : int_state) : res int_state :=
  let! (a, st) := new_block Double_wosize Double_tag st in
  let! st := readblock_at a 8 st in
  let! st := (if Bool.eqb big float_big_endian then Ok st else reverse_64_at a 0 st) in
  store dest (Ptr intern_area a) st.

Definition read_double_array (len : Z) (big : bool) (dest : destination) (st : int_state) : res int_state :=
  let size := len * Double_wosize in
  let! (a, st) := new_block size Double_array_tag st in
  let! st := readblock_at a (len * 8) st in
  let! st := (if Bool.eqb big float_big_endian then Ok st else reverse_doubles a 0 (Z.to_nat len) st) in
  store dest (Ptr intern_area a) st.

Definition read_shared (ofs : Z) (dest : destination) (st : int_state) : res int_state :=
  match intern_obj_table st with
  | Some t => let! v := of_option (nthZ t (Z.of_nat (length t) - ofs)) in store dest v st
  | None => Stuck
  end.

(** The identifier of a custom block, up to its final null byte. *)
Fixpoint read_ident (src : list Z) : res (list Z * list Z) :=
  match src with
  | [] => Stuck
  | c :: src => if c =? 0 then Ok ([], src) else let! (id, src) := read_ident src in Ok (c :: id, src)
  end.

Definition read_custom (dest : destination) (st : int_state) : res int_state :=
  let! (ident, src) := read_ident (isrc st) in
  match caml_find_custom_operations custom_at ident custom_ops_table with
  | None => Raise (Failure "input_value: unknown custom block identifier")
  | Some p =>
      let! ops := of_option (custom_at p) in
      let! deserialize := of_option (deserialize ops) in
      let! (data, size, src) := deserialize src in
      let st := set_isrc src st in
      let size := 1 + (size + sizeof_value - 1) / sizeof_value in
      let! st := store_words (idest st + 2) data st in
      let! (a, st) := new_block size Custom_tag st in
      let! st := store_word a (Imm p) st in
      store dest (Ptr intern_area a) st
  end.

Definition read_code (dest : destination) (st : int_state) : res int_state :=
  let! (ofs, src) := read32u (isrc st) in
  let! (cksum, src) := readblock 16 src in
  if negb (zlist_eqb cksum caml_code_checksum) then Raise (Failure "input_value: code mismatch")
  else if ofs mod 4 =? 0 then store dest (Cptr (ofs / 4)) (set_isrc src st) else Stuck.

Definition read_infix (rec : destination -> int_state -> res int_state) (dest : destination) (st : int_state) :
    res int_state :=
  let! (ofs, src) := read32u (isrc st) in
  let! st' := rec Var (set_isrc src st) in
  let clos := ivar st' in
  let st := set_ivar (ivar st) st' in
  match clos with
  | Ptr b a => if ofs mod sizeof_value =? 0 then store dest (Ptr b (a + ofs / sizeof_value)) st else Stuck
  | _ => Stuck
  end.

(** An integer or a size read from the message, then the rest of the case. *)
Definition reading {T} (r : input T) (k : T -> int_state -> res int_state) (st : int_state) : res int_state :=
  let! (x, src) := r (isrc st) in k x (set_isrc src st).

Fixpoint intern_rec (fuel : nat) (dest : destination) (st : int_state) : res int_state :=
  match fuel with
  | O => Stuck
  | S fuel =>
      let! (code, src) := read8u (isrc st) in
      let st := set_isrc src st in
      if PREFIX_SMALL_INT <=? code then
        if PREFIX_SMALL_BLOCK <=? code then
          read_block (intern_rec fuel) (Z.land code 0xF) (Z.land (Z.shiftr code 4) 0x7) dest st
        else store dest (Imm (Val_int (Z.land code 0x3F))) st
      else if PREFIX_SMALL_STRING <=? code then read_string (Z.land code 0x1F) dest st
      else if code =? CODE_INT8 then reading read8s (fun n => store dest (Imm (Val_long n))) st
      else if code =? CODE_INT16 then reading read16s (fun n => store dest (Imm (Val_long n))) st
      else if code =? CODE_INT32 then reading read32s (fun n => store dest (Imm (Val_long n))) st
      else if code =? CODE_INT64 then
        if ARCH_SIXTYFOUR then reading read64s (fun n => store dest (Imm (Val_long n))) st
        else Raise (Failure "input_value: integer too large")
      else if code =? CODE_SHARED8 then reading read8u (fun ofs => read_shared ofs dest) st
      else if code =? CODE_SHARED16 then reading read16u (fun ofs => read_shared ofs dest) st
      else if code =? CODE_SHARED32 then reading read32u (fun ofs => read_shared ofs dest) st
      else if code =? CODE_BLOCK32 then
        reading read32u (fun header => read_block (intern_rec fuel) (Tag_hd header) (Wosize_hd header) dest) st
      else if code =? CODE_BLOCK64 then
        if ARCH_SIXTYFOUR then
          reading read64s (fun header => read_block (intern_rec fuel) (Tag_hd (wrap WORD header))
                                           (Wosize_hd (wrap WORD header)) dest) st
        else Raise (Failure "input_value: data block too large")
      else if code =? CODE_STRING8 then reading read8u (fun len => read_string len dest) st
      else if code =? CODE_STRING32 then reading read32u (fun len => read_string len dest) st
      else if code =? CODE_DOUBLE_LITTLE then read_double false dest st
      else if code =? CODE_DOUBLE_BIG then read_double true dest st
      else if code =? CODE_DOUBLE_ARRAY8_LITTLE then reading read8u (fun len => read_double_array len false dest) st
      else if code =? CODE_DOUBLE_ARRAY8_BIG then reading read8u (fun len => read_double_array len true dest) st
      else if code =? CODE_DOUBLE_ARRAY32_LITTLE then reading read32u (fun len => read_double_array len false dest) st
      else if code =? CODE_DOUBLE_ARRAY32_BIG then reading read32u (fun len => read_double_array len true dest) st
      else if code =? CODE_CODEPOINTER then read_code dest st
      else if code =? CODE_INFIXPOINTER then read_infix (intern_rec fuel) dest st
      else if code =? CODE_CUSTOM then read_custom dest st
      else Raise (Failure "input_value: ill-formed message")
  end.

(** ** Entry points *)


(** [garbage] is what the allocated area holds.  A size above [Max_wosize] is
    rounded up to whole pages and goes to a heap chunk of its own.  Sizes in
    bytes are computed modulo the word size, as in the code. *)
Definition intern_alloc (garbage : Z -> value) (src : list Z) (whsize num_objects : Z) : int_state :=
  if whsize =? 0 then Int src 0 garbage 0 (Imm 0) None 0
  else
    let wosize := Wosize_whsize whsize in
    let words :=
      if Max_wosize <? wosize
      then Wsize_bsize (Z.shiftl (Z.shiftr (wrap WORD (Bsize_wsize whsize + Page_size - 1)) Page_log) Page_log)
      else whsize in
    Int src 0 garbage words (Imm 0) (if 0 <? num_objects then Some [] else None)
      (wrap WORD (num_objects * sizeof_value) / sizeof_value).

(** [whsize] of the three sizes read in the header. *)
Definition read_sizes : input (Z * Z) := fun src =>
  let! (num_objects, src) := read32u src in
  let! (size_32, src) := read32u src in
  let! (size_64, src) := read32u src in
  Ok ((num_objects, if ARCH_SIXTYFOUR then size_64 else size_32), src).

Definition input_val_from_block (garbage : Z -> value) (fuel : nat) (src : list Z) : res int_state :=
  let! (num_objects, whsize, src) := read_sizes src in
  intern_rec fuel Var (intern_alloc garbage src whsize num_objects).

Definition caml_input_val_from_string (garbage : Z -> value) (fuel : nat) (str : list Z) (ofs : Z) : res int_state :=
  let! (num_objects, whsize, src) := read_sizes (skipn (Z.to_nat (ofs + 2 * 4)) str) in
  intern_rec fuel Var (intern_alloc garbage (skipn (Z.to_nat (ofs + 5 * 4)) str) whsize num_objects).

Definition caml_input_value_from_block (garbage : Z -> value) (fuel : nat) (data : list Z) (len : Z) : res int_state :=
  let! (magic, src) := read32u data in
  if negb (wrap 32 magic =? Intext_magic_number) then Raise (Failure "input_value_from_block: bad object")
  else
    let! (block_len, src) := read32u src in
    if wrap WORD len <? wrap WORD (5 * 4 + block_len) then Raise (Failure "input_value_from_block: bad block length")
    else input_val_from_block garbage fuel src.

Definition caml_input_value_from_malloc (garbage : Z -> value) (fuel : nat) (data : list Z) (ofs : Z) : res int_state :=
  let! (magic, src) := read32u (skipn (Z.to_nat ofs) data) in
  if negb (wrap 32 magic =? Intext_magic_number) then Raise (Failure "input_value_from_malloc: bad object")
  else
    let! (block_len, src) := read32u src in
    input_val_from_block garbage fuel src.

Definition caml_marshal_data_size (buff : list Z) (ofs : Z) : res Z :=
  let! (magic, src) := read32u (skipn (Z.to_nat ofs) buff) in
  if negb (wrap 32 magic =? Intext_magic_number) then Raise (Failure "Marshal.data_size: bad object")
  else
    let! (block_len, src) := read32u src in
    Ok (Val_long block_len).
End Intern.
