(* ===== verification/MarshalBytes.v ===== *)
(** MarshalBytes: byte accesses to the words of the destination area of
    [intern_rec]. *)
From Stdlib Require Import ZArith Lia Bool Ascii String List.
From S2P Require Import Prelude Mlvalues InterpState InterpCalls ExternOutput InternInput Custom MarshalHeap Extern Intern.
Import ListNotations.
Local Open Scope Z_scope.

(** Membership in an interval. *)
Lemma within_true lo hi j : lo <= j < hi -> (lo <=? j) && (j <? hi) = true.
Proof. intros Hj. now rewrite (proj2 (Z.leb_le _ _)), (proj2 (Z.ltb_lt _ _)) by lia. Qed.
Lemma within_false lo hi j : j < lo \/ hi <= j -> (lo <=? j) && (j <? hi) = false.
Proof. intros Hj. destruct (Z.leb_spec lo j), (Z.ltb_spec j hi); auto; lia. Qed.
Lemma within_spec lo hi j : if (lo <=? j) && (j <? hi) then lo <= j < hi else j < lo \/ hi <= j.
Proof. destruct (Z.leb_spec lo j), (Z.ltb_spec j hi); cbn [andb]; lia. Qed.

(** ** Words and their bytes *)

Definition is_byte (b : Z) : Prop := 0 <= b < 256.

Lemma le_bytes_wrap_eq n : forall x y, wrap (8 * Z.of_nat n) x = wrap (8 * Z.of_nat n) y -> le_bytes n x = le_bytes n y.
Proof.
  induction n as [|n IH]; intros x y E; cbn [le_bytes]; auto.
  rewrite !byte_split in E. pose proof (byte_range x). pose proof (byte_range y).
  assert (byte x = byte y /\ wrap (8 * Z.of_nat n) (Z.shiftr x 8) = wrap (8 * Z.of_nat n) (Z.shiftr y 8)) as [-> E2] by lia.
  f_equal. now apply IH.
Qed.

Lemma le_bytes_be_val l : Forall is_byte l -> le_bytes (length l) (be_val (rev l)) = l.
Proof.
  induction 1 as [|b l Hb _ IH]; cbn [length le_bytes rev]; auto.
  rewrite be_val_snoc. unfold is_byte in Hb. f_equal.
  - unfold byte, wrap. change (2 ^ 8) with 256. rewrite Z.add_comm, Z.mod_add by lia. now apply Z.mod_small.
  - rewrite Z.shiftr_div_pow2 by lia. change (2 ^ 8) with 256.
    rewrite Z.div_add_l, (Z.div_small b), Z.add_0_r by lia. exact IH.
Qed.

Lemma le_bytes_range n : forall x, Forall is_byte (le_bytes n x).
Proof. induction n; intros x; cbn [le_bytes]; constructor; auto. apply byte_range. Qed.

Section Bytes.
Context {A : Arch}.

Lemma sizeof_value_pos : 0 < sizeof_value.
Proof. unfold sizeof_value. now destruct WORD_cases as [-> | ->]. Qed.

Lemma ws_sizeof : Z.of_nat ws = sizeof_value.
Proof. unfold ws. pose proof sizeof_value_pos. lia. Qed.

Lemma WORD_ws : WORD = 8 * Z.of_nat ws.
Proof. rewrite ws_sizeof. unfold sizeof_value. now destruct WORD_cases as [-> | ->]. Qed.

Lemma mem_bytes_range n x : Forall is_byte (mem_bytes n x).
Proof.
  unfold mem_bytes, be_bytes. destruct ARCH_BIG_ENDIAN; [apply Forall_rev|]; apply le_bytes_range.
Qed.

(** A word is determined by its bytes. *)
Lemma mem_bytes_word l : length l = ws -> Forall is_byte l -> mem_bytes ws (swrap WORD (mem_val l)) = l.
Proof.
  intros Hl Hb. pose proof WORD_pos. unfold mem_bytes, mem_val, be_bytes.
  assert (E : forall x, le_bytes ws (swrap WORD x) = le_bytes ws x).
  { intros x. apply le_bytes_wrap_eq. rewrite <- WORD_ws. now rewrite wrap_swrap by lia. }
  rewrite E. destruct ARCH_BIG_ENDIAN.
  - rewrite <- (rev_involutive l) at 1. rewrite <- Hl, <- length_rev, le_bytes_be_val; [apply rev_involutive|].
    now apply Forall_rev.
  - rewrite <- Hl. now apply le_bytes_be_val.
Qed.

Lemma updZ_spec {T} (l : list T) i x : 0 <= i < zlen l ->
  exists l', updZ l i x = Some l' /\ length l' = length l /\
    forall j, nthZ l' j = if j =? i then Some x else nthZ l j.
Proof.
  intros Hi. unfold updZ, zlen in *. rewrite (proj2 (Z.leb_le _ _)), (proj2 (Z.ltb_lt _ _)) by lia. cbn [andb].
  eexists. split; [reflexivity|].
  assert (Lf : length (firstn (Z.to_nat i) l) = Z.to_nat i) by (rewrite length_firstn; lia).
  split.
  - rewrite length_app, Lf. cbn [length]. rewrite length_skipn. lia.
  - intros j. unfold nthZ. destruct (Z.ltb_spec j 0).
    { destruct (Z.eqb_spec j i); [lia | auto]. }
    destruct (Z.eqb_spec j i) as [->|Hj].
    + rewrite nth_error_app2, Lf, Nat.sub_diag by lia. reflexivity.
    + destruct (Z_lt_ge_dec j i).
      * rewrite nth_error_app1 by lia. rewrite nth_error_firstn.
        now rewrite (proj2 (Nat.ltb_lt _ _)) by lia.
      * rewrite nth_error_app2, Lf by lia. destruct (Z.to_nat j - Z.to_nat i)%nat as [|k] eqn:Ek; [lia|].
        cbn [nth_error]. rewrite nth_error_skipn. f_equal. lia.
Qed.

Lemma set_word_byte_spec x k b : 0 <= k < sizeof_value ->
  exists x', set_word_byte (Imm x) k b = Ok (Imm x') /\
    forall j, 0 <= j < sizeof_value -> word_byte (Imm x') j = if j =? k then Ok (byte b) else word_byte (Imm x) j.
Proof.
  intros Hk. unfold set_word_byte, word_byte. pose proof ws_sizeof as Hs.
  destruct (updZ_spec (mem_bytes ws x) k (byte b)) as (l & -> & Hl & Hn).
  { unfold zlen. rewrite mem_bytes_length. lia. }
  cbn [of_option]. eexists. split; [reflexivity|]. rewrite mem_bytes_length in Hl.
  assert (Hb : Forall is_byte l).
  { apply Forall_forall. intros y Hy. apply In_nth_error in Hy as [i Hi].
    assert (Ei : nthZ l (Z.of_nat i) = Some y).
    { unfold nthZ. rewrite (proj2 (Z.ltb_ge _ _)) by lia. now rewrite Nat2Z.id. }
    rewrite Hn in Ei. destruct (_ =? _); [injection Ei as <-; apply byte_range|].
    unfold nthZ in Ei. destruct (_ <? _); [discriminate|]. apply nth_error_In in Ei.
    pose proof (mem_bytes_range ws x) as Hr. rewrite Forall_forall in Hr. auto. }
  intros j Hj. rewrite mem_bytes_word, Hn by auto. now destruct (j =? k).
Qed.

(** ** The bytes of a region of words *)

Definition mem_byte (m : Z -> value) (a i : Z) : res Z := word_byte (m (a + i / sizeof_value)) (i mod sizeof_value).
(** [size] words that are not pointers. *)
Definition raw_region (m : Z -> value) (a size : Z) : Prop := forall k, 0 <= k < size -> exists x, m (a + k) = Imm x.

Lemma byte_index i size : 0 <= i < size * sizeof_value -> 0 <= i / sizeof_value < size /\ 0 <= i mod sizeof_value < sizeof_value.
Proof.
  intros Hi. pose proof sizeof_value_pos. split; [|now apply Z.mod_pos_bound].
  split; [apply Z.div_pos; lia | apply Z.div_lt_upper_bound; lia].
Qed.

Lemma store_byte_spec a size i b st : 0 <= i < size * sizeof_value -> 0 <= a -> a + size <= iend st ->
  raw_region (imem st) a size ->
  exists m, store_byte a i b st = Ok (set_imem m st) /\ raw_region m a size /\
    (forall w, w < a \/ a + size <= w -> m w = imem st w) /\
    (forall j, 0 <= j < size * sizeof_value -> mem_byte m a j = if j =? i then Ok (byte b) else mem_byte (imem st) a j).
Proof.
  intros Hi Ha He Hr. destruct (byte_index i size Hi) as [Hq Hk]. pose proof sizeof_value_pos.
  destruct (Hr _ Hq) as [x Ex]. destruct (set_word_byte_spec x (i mod sizeof_value) b Hk) as (x' & E & Hx').
  unfold store_byte. rewrite Ex, E. unfold store_word.
  rewrite (proj2 (Z.leb_le _ _)), (proj2 (Z.ltb_lt _ _)) by lia. cbn [andb].
  eexists. split; [reflexivity|]. conj.
  - intros k Hk2. destruct (Z.eqb_spec (a + k) (a + i / sizeof_value)); eauto.
  - intros w Hw. destruct (Z.eqb_spec w (a + i / sizeof_value)); auto. lia.
  - intros j Hj. destruct (byte_index j size Hj) as [_ Hjk]. unfold mem_byte.
    destruct (Z.eqb_spec (a + j / sizeof_value) (a + i / sizeof_value)) as [Eq|Ne].
    + rewrite Hx' by auto. replace (j / sizeof_value) with (i / sizeof_value) by lia. rewrite Ex.
      destruct (Z.eqb_spec j i) as [->|Hji]; [now rewrite Z.eqb_refl|].
      destruct (Z.eqb_spec (j mod sizeof_value) (i mod sizeof_value)); auto. exfalso. apply Hji.
      pose proof (Z.div_mod j sizeof_value). pose proof (Z.div_mod i sizeof_value).
      replace (j / sizeof_value) with (i / sizeof_value) in * by lia. lia.
    + destruct (Z.eqb_spec j i); auto. congruence.
Qed.

Lemma set_imem_twice m m' st : set_imem m (set_imem m' st) = set_imem m st.
Proof. reflexivity. Qed.

Lemma store_bytes_spec a size l : forall i st, 0 <= i -> i + zlen l <= size * sizeof_value -> 0 <= a ->
  a + size <= iend st -> raw_region (imem st) a size ->
  exists m, store_bytes a i l st = Ok (set_imem m st) /\ raw_region m a size /\
    (forall w, w < a \/ a + size <= w -> m w = imem st w) /\
    (forall j, 0 <= j < size * sizeof_value ->
       mem_byte m a j = match nthZ l (j - i) with Some b => Ok (byte b) | None => mem_byte (imem st) a j end).
Proof.
  induction l as [|b l IH]; intros i st Hi Hl Ha He Hr; cbn [store_bytes].
  - exists (imem st). conj; auto.
    + now destruct st.
    + intros j Hj. unfold nthZ. destruct (_ <? _); auto. now destruct (Z.to_nat (j - i)).
  - unfold zlen in Hl. cbn [length] in Hl.
    destruct (store_byte_spec a size i b st) as (m1 & -> & R1 & U1 & B1); [lia..|auto|].
    destruct (IH (i + 1) (set_imem m1 st)) as (m2 & -> & R2 & U2 & B2); auto; [lia|unfold zlen; lia|].
    exists m2. cbn [imem set_imem] in *. conj; auto.
    + intros w Hw. rewrite U2, U1; auto.
    + intros j Hj. rewrite B2, B1 by auto. destruct (Z.eqb_spec j i) as [->|Hji].
      * rewrite Z.sub_diag. unfold nthZ at 1. now rewrite (proj2 (Z.ltb_lt _ _)) by lia.
      * destruct (Z_lt_ge_dec j i).
        -- unfold nthZ. now rewrite !(proj2 (Z.ltb_lt _ _)) by lia.
        -- rewrite nthZ_cons by lia. now replace (j - i - 1) with (j - (i + 1)) by lia.
Qed.

(** ** Loads and reversals *)

Lemma word_byte_ok x k : 0 <= k < sizeof_value -> exists b, word_byte (Imm x) k = Ok b /\ is_byte b.
Proof.
  intros Hk. unfold word_byte, nthZ. pose proof ws_sizeof. rewrite (proj2 (Z.ltb_ge k 0)) by lia.
  destruct (nth_error (mem_bytes ws x) (Z.to_nat k)) as [b|] eqn:E.
  - exists b. split; auto. apply nth_error_In in E. pose proof (mem_bytes_range ws x) as Hr.
    rewrite Forall_forall in Hr. auto.
  - apply nth_error_None in E. rewrite mem_bytes_length in E. lia.
Qed.

Lemma mem_byte_ok m a size j : raw_region m a size -> 0 <= j < size * sizeof_value ->
  exists b, mem_byte m a j = Ok b /\ is_byte b.
Proof.
  intros Hr Hj. destruct (byte_index j size Hj) as [Hq Hk]. unfold mem_byte.
  destruct (Hr _ Hq) as [x ->]. now apply word_byte_ok.
Qed.

Lemma load_bytes_spec a size n : forall i st, 0 <= i -> i + Z.of_nat n <= size * sizeof_value ->
  raw_region (imem st) a size ->
  exists l, load_bytes a i n st = Ok l /\ length l = n /\ Forall is_byte l /\
    forall k, 0 <= k < Z.of_nat n -> mem_byte (imem st) a (i + k) = of_option (nthZ l k).
Proof.
  induction n as [|n IH]; intros i st Hi Hn Hr; cbn [load_bytes].
  - exists []. conj; auto. intros k Hk. lia.
  - destruct (mem_byte_ok (imem st) a size i Hr ltac:(lia)) as (b & Eb & Hb).
    unfold load_byte. unfold mem_byte in Eb. rewrite Eb.
    destruct (IH (i + 1) st) as (l & -> & Hl & Fl & Hk); auto; [lia..|].
    exists (b :: l). conj; auto; [cbn; lia|]. intros k Hk2. destruct (Z.eq_dec k 0) as [->|Hk0].
    + rewrite Z.add_0_r. exact Eb.
    + rewrite nthZ_cons by lia. rewrite <- Hk by lia. f_equal. lia.
Qed.

(** The position of a byte in a double of the other endianness. *)
Definition swap8 (j : Z) : Z := 8 * (j / 8) + (7 - j mod 8).

Lemma swap8_range i j : 8 * i <= j < 8 * i + 8 -> swap8 j = 8 * i + (7 - (j - 8 * i)).
Proof.
  intros Hj. unfold swap8. assert (j / 8 = i) by (symmetry; apply Z.div_unique with (j - 8 * i); lia).
  pose proof (Z.div_mod j 8). lia.
Qed.

Lemma nthZ_rev {T} (l : list T) k : 0 <= k < zlen l -> nthZ (rev l) k = nthZ l (zlen l - 1 - k).
Proof.
  unfold zlen. intros Hk. unfold nthZ. rewrite !(proj2 (Z.ltb_ge _ 0)) by lia.
  rewrite nth_error_rev by lia. rewrite (proj2 (Nat.ltb_lt _ _)) by lia. f_equal. lia.
Qed.

Lemma byte_of_byte b : is_byte b -> byte b = b.
Proof. intros Hb. apply wrap_small. exact Hb. Qed.

Lemma nthZ_Some {T} (l : list T) k : 0 <= k < zlen l -> exists x, nthZ l k = Some x /\ In x l.
Proof.
  unfold zlen, nthZ. intros Hk. rewrite (proj2 (Z.ltb_ge _ 0)) by lia.
  destruct (nth_error l (Z.to_nat k)) eqn:E; [eauto using nth_error_In|]. apply nth_error_None in E. lia.
Qed.
Lemma nthZ_None {T} (l : list T) k : k < 0 \/ zlen l <= k -> nthZ l k = None.
Proof.
  unfold zlen, nthZ. intros Hk. destruct (Z.ltb_spec k 0); auto. apply nth_error_None. lia.
Qed.

Lemma reverse_64_at_spec a size i st : 0 <= i -> 8 * i + 8 <= size * sizeof_value -> 0 <= a ->
  a + size <= iend st -> raw_region (imem st) a size ->
  exists m, reverse_64_at a i st = Ok (set_imem m st) /\ raw_region m a size /\
    (forall w, w < a \/ a + size <= w -> m w = imem st w) /\
    (forall j, 0 <= j < size * sizeof_value ->
       mem_byte m a j = mem_byte (imem st) a (if (8 * i <=? j) && (j <? 8 * i + 8) then swap8 j else j)).
Proof.
  intros Hi Hs Ha He Hr. unfold reverse_64_at.
  destruct (load_bytes_spec a size 8 (8 * i) st) as (l & -> & Hl & Fl & Hk); auto; [lia..|].
  assert (Er : Reverse_64 l = rev l) by (rewrite <- (app_nil_r l) at 1; now apply Reverse_64_rev). rewrite Er.
  destruct (store_bytes_spec a size (rev l) (8 * i) st) as (m & -> & R & U & B); auto.
  { lia. } { unfold zlen. rewrite length_rev, Hl. lia. }
  exists m. conj; auto. intros j Hj. rewrite B by auto.
  pose proof (within_spec (8 * i) (8 * i + 8) j) as Ej. destruct (_ && _).
  - rewrite (swap8_range i) by lia. rewrite Hk by lia. rewrite nthZ_rev by (unfold zlen; lia).
    unfold zlen. rewrite Hl. replace (Z.of_nat 8 - 1 - (j - 8 * i)) with (7 - (j - 8 * i)) by lia.
    destruct (nthZ_Some l (7 - (j - 8 * i))) as (x & -> & Hx); [unfold zlen; lia|].
    rewrite Forall_forall in Fl. cbn [of_option]. now rewrite byte_of_byte by auto.
  - rewrite nthZ_None; auto. unfold zlen. rewrite length_rev, Hl. lia.
Qed.

Lemma reverse_doubles_spec a size n : forall i st, 0 <= i -> 8 * (i + Z.of_nat n) <= size * sizeof_value -> 0 <= a ->
  a + size <= iend st -> raw_region (imem st) a size ->
  exists m, reverse_doubles a i n st = Ok (set_imem m st) /\ raw_region m a size /\
    (forall w, w < a \/ a + size <= w -> m w = imem st w) /\
    (forall j, 0 <= j < size * sizeof_value ->
       mem_byte m a j = mem_byte (imem st) a (if (8 * i <=? j) && (j <? 8 * (i + Z.of_nat n)) then swap8 j else j)).
Proof.
  induction n as [|n IH]; intros i st Hi Hs Ha He Hr; cbn [reverse_doubles].
  - exists (imem st). conj; auto; [now destruct st|]. intros j Hj. now rewrite within_false by lia.
  - destruct (reverse_64_at_spec a size i st) as (m1 & -> & R1 & U1 & B1); auto; [lia|].
    destruct (IH (i + 1) (set_imem m1 st)) as (m2 & -> & R2 & U2 & B2); auto; [lia..|].
    exists m2. cbn [imem set_imem] in *. conj; auto; [intros w Hw; now rewrite U2, U1|].
    intros j Hj. rewrite B2 by auto. pose proof (within_spec (8 * (i + 1)) (8 * (i + 1 + Z.of_nat n)) j) as E1.
    destruct (_ && _).
    + rewrite (within_true (8 * i)) by lia.
      pose proof (Z.div_mod j 8). pose proof (Z.mod_pos_bound j 8).
      assert (Hsw : swap8 j = 8 * (j / 8) + (7 - j mod 8)) by reflexivity.
      rewrite B1 by lia. now rewrite within_false by lia.
    + rewrite B1 by auto. f_equal. pose proof (within_spec (8 * i) (8 * i + 8) j) as E2. destruct (_ && _).
      * now rewrite within_true by lia.
      * now rewrite within_false by lia.
Qed.
End Bytes.

(** ** Bytes of a block *)

Lemma mem_byte_range {A : Arch} w k b : word_byte w k = Ok b -> is_byte b.
Proof.
  unfold word_byte. destruct w as [x|? ?|?|?]; try discriminate. cbn [raw]. unfold of_option, nthZ.
  destruct (k <? 0); [discriminate|]. destruct (nth_error _ _) as [y|] eqn:E; [|discriminate]. intros [= <-].
  apply nth_error_In in E. pose proof (mem_bytes_range ws x) as Hf. rewrite Forall_forall in Hf. now apply Hf.
Qed.

Lemma bytes_at_length {A : Arch} h v n : forall i bs, bytes_at h v i n = Ok bs -> length bs = n.
Proof.
  induction n as [|n IH]; cbn [bytes_at]; intros i bs; [now intros [= <-]|].
  destruct (byte_at h v i); [|discriminate..]. destruct (bytes_at h v (i + 1) n) eqn:E; [|discriminate..].
  intros [= <-]. cbn. now rewrite (IH _ _ E).
Qed.

Lemma bytes_at_range {A : Arch} h v n : forall i bs, bytes_at h v i n = Ok bs -> Forall is_byte bs.
Proof.
  induction n as [|n IH]; cbn [bytes_at]; intros i bs; [intros [= <-]; constructor|].
  destruct (byte_at h v i) as [b| |] eqn:E; try discriminate. destruct (bytes_at h v (i + 1) n) as [l| |] eqn:El; try discriminate.
  intros [= <-]. constructor; [|now apply (IH _ _ El)].
  unfold byte_at in E. destruct (fld h v _); try discriminate. now apply mem_byte_range in E.
Qed.
