(* ===== verification/MarshalTrail.v ===== *)
(** MarshalTrail: the forwarding pointers that [extern_rec] puts in the objects
    it has seen, and the trail that undoes them: whatever the outcome, the heap
    is left as it was. *)
From Stdlib Require Import ZArith Lia Bool Ascii String List Permutation.
From S2P Require Import Prelude Mlvalues InterpState InterpCalls ExternOutput InternInput Custom MarshalHeap Extern.
Import ListNotations.
Local Open Scope Z_scope.

(** ** Positions in a list without duplicates *)

Fixpoint index (b : Z) (l : list Z) : option nat :=
  match l with [] => None | x :: l => if x =? b then Some O else option_map S (index b l) end.

Lemma index_None b l : index b l = None <-> ~ In b l.
Proof.
  induction l as [|x l IH]; cbn; [tauto|]. destruct (Z.eqb_spec x b).
  - split; [discriminate | tauto].
  - destruct (index b l); cbn; [split; [discriminate|] | tauto].
    intros H. exfalso. destruct IH as [_ IH]. discriminate IH. tauto.
Qed.

Lemma index_Some b l i : index b l = Some i -> nth_error l i = Some b.
Proof.
  revert i. induction l as [|x l IH]; cbn; [discriminate|]. intros i.
  destruct (Z.eqb_spec x b) as [->|]; [now intros [= <-]|].
  destruct (index b l) as [j|]; [|discriminate]. intros [= <-]. cbn. now apply IH.
Qed.

Lemma index_app_l b l r i : index b l = Some i -> index b (l ++ r) = Some i.
Proof.
  revert i. induction l as [|x l IH]; cbn; [discriminate|]. intros i.
  destruct (x =? b); auto. destruct (index b l); [|discriminate]. intros [= <-].
  now rewrite (IH _ eq_refl).
Qed.

Lemma index_snoc b l : ~ In b l -> index b (l ++ [b]) = Some (length l).
Proof.
  induction l as [|x l IH]; cbn; intros H.
  - now rewrite Z.eqb_refl.
  - destruct (Z.eqb_spec x b); [tauto|]. now rewrite IH by tauto.
Qed.

Lemma index_snoc_other b x l : x <> b -> index x (l ++ [b]) = index x l.
Proof.
  intros H. induction l as [|y l IH]; cbn.
  - destruct (Z.eqb_spec b x); congruence.
  - destruct (y =? x); auto. now rewrite IH.
Qed.

(** ** Blocks not seen yet *)

Definition unseen (seen : list Z) (b : Z) : bool := negb (existsb (Z.eqb b) seen).
Definition rem (D seen : list Z) : nat := length (filter (unseen seen) D).

Lemma unseen_spec seen b : unseen seen b = true <-> ~ In b seen.
Proof.
  unfold unseen. rewrite negb_true_iff, <- not_true_iff_false, existsb_exists. split; intros Hn Hi; apply Hn.
  - exists b. split; auto. apply Z.eqb_refl.
  - destruct Hi as (x & Hx & Ex). apply Z.eqb_eq in Ex. now subst.
Qed.

Lemma filter_le {T} (f g : T -> bool) l : (forall x, f x = true -> g x = true) ->
  (length (filter f l) <= length (filter g l))%nat.
Proof.
  intros Hfg. induction l as [|x l IH]; cbn [filter]; auto. specialize (Hfg x).
  destruct (f x), (g x); cbn [length]; lia.
Qed.

Lemma filter_lt {T} (f g : T -> bool) x l : (forall x, f x = true -> g x = true) -> In x l -> f x = false ->
  g x = true -> (length (filter f l) < length (filter g l))%nat.
Proof.
  intros Hfg Hi Hf Hg. induction l as [|y l IH]; [easy|]. cbn [filter]. destruct Hi as [->|Hi].
  - rewrite Hf, Hg. cbn [length]. pose proof (filter_le f g l Hfg). lia.
  - specialize (IH Hi). specialize (Hfg y). destruct (f y), (g y); cbn [length]; lia.
Qed.

Lemma rem_app D seen s : (rem D (seen ++ s) <= rem D seen)%nat.
Proof.
  apply filter_le. intros x. rewrite !unseen_spec. intros Hn Hi. apply Hn, in_or_app. now left.
Qed.

Lemma rem_snoc D seen b : In b D -> ~ In b seen -> (rem D (seen ++ [b]) < rem D seen)%nat.
Proof.
  intros HD Hn. apply filter_lt with b; auto.
  - intros x. rewrite !unseen_spec. intros Hx Hi. apply Hx, in_or_app. now left.
  - apply not_true_is_false. rewrite unseen_spec. intros Hx. apply Hx, in_or_app. right. now left.
  - now apply unseen_spec.
Qed.

Lemma rem_nil D : rem D [] = length D.
Proof. unfold rem. f_equal. induction D as [|x D IH]; cbn; congruence. Qed.

Section Trail.
Context {A : Arch} {F : FloatArch}.

(** ** Headers and colours *)

Definition header_ok (hd : Z) : Prop := 0 <= hd < 2 ^ WORD.

Lemma color_mask i : 0 <= i < WORD ->
  Z.testbit (wrap WORD (Z.lnot Caml_black)) i = negb (Z.testbit Caml_black i).
Proof.
  intros Hi. unfold wrap. rewrite Z.mod_pow2_bits_low by lia. now rewrite Z.lnot_spec by lia.
Qed.

Lemma black_bits i : 0 <= i -> Z.testbit Caml_black i = (i =? 8) || (i =? 9).
Proof.
  intros Hi. unfold Caml_black. rewrite Z.shiftl_spec by lia.
  destruct (Z.eqb_spec i 8) as [->|]; [reflexivity|]. destruct (Z.eqb_spec i 9) as [->|]; [reflexivity|].
  destruct (Z_lt_ge_dec i 8).
  - now rewrite Z.testbit_neg_r by lia.
  - apply Z.bits_above_log2; [lia|]. change (Z.log2 3) with 1. lia.
Qed.

Lemma header_high hd i : header_ok hd -> WORD <= i -> Z.testbit hd i = false.
Proof.
  intros [H0 H1] Hi. destruct (Z.eq_dec hd 0) as [->|]; [apply Z.bits_0|].
  apply Z.bits_above_log2; [lia|]. apply Z.log2_lt_pow2 in H1; lia.
Qed.

(** Restoring the colour undoes any change of colour. *)
Lemma Coloredhd_Bluehd hd : header_ok hd -> Coloredhd_hd (Bluehd_hd hd) (Colornum_hd hd) = hd.
Proof.
  intros Hh. pose proof WORD_pos. apply Z.bits_inj'. intros i Hi.
  unfold Coloredhd_hd, Bluehd_hd, Colornum_hd.
  rewrite Z.lor_spec, Z.shiftl_spec, Z.land_spec, Z.lor_spec, Z.land_spec by lia.
  destruct (Z_lt_ge_dec i WORD) as [Hw|Hw].
  - rewrite color_mask, black_bits by lia.
    destruct (Z.eqb_spec i 8) as [->|]; [|destruct (Z.eqb_spec i 9) as [->|]].
    + rewrite !andb_false_r. cbn [orb]. rewrite Z.land_spec, Z.shiftr_spec by lia.
      change (8 - 8 + 8) with 8. apply andb_true_r.
    + rewrite !andb_false_r. cbn [orb]. rewrite Z.land_spec, Z.shiftr_spec by lia.
      change (9 - 8 + 8) with 9. apply andb_true_r.
    + rewrite !andb_true_r. cbn [orb].
      assert (E : Z.testbit Caml_blue i = false).
      { unfold Caml_blue. rewrite Z.shiftl_spec by lia. destruct (Z_lt_ge_dec i 8).
        - now rewrite Z.testbit_neg_r by lia.
        - apply Z.bits_above_log2; [lia|]. change (Z.log2 2) with 1. lia. }
      rewrite E, orb_false_r. assert (E2 : Z.testbit (Z.land (Z.shiftr hd 8) 3) (i - 8) = false).
      { destruct (Z_lt_ge_dec i 8); [now rewrite Z.testbit_neg_r by lia|].
        rewrite Z.land_spec. rewrite (Z.bits_above_log2 3) by (change (Z.log2 3) with 1; lia).
        apply andb_false_r. }
      rewrite E2. apply orb_false_r.
  - rewrite (header_high hd i Hh) by lia. unfold wrap.
    rewrite Z.mod_pow2_bits_high, andb_false_r by lia. cbn [orb].
    rewrite Z.land_spec, (Z.bits_above_log2 3) by (change (Z.log2 3) with 1; lia). apply andb_false_r.
Qed.

Lemma Bluehd_fields hd : header_ok hd ->
  Tag_hd (Bluehd_hd hd) = Tag_hd hd /\ Wosize_hd (Bluehd_hd hd) = Wosize_hd hd /\
  Color_hd (Bluehd_hd hd) = Caml_blue.
Proof.
  intros Hh. pose proof WORD_pos. unfold Tag_hd, Wosize_hd, Color_hd, Bluehd_hd. conj.
  - rewrite Z.land_lor_distr_l. change (Z.land Caml_blue 255) with 0. rewrite Z.lor_0_r.
    apply Z.bits_inj'. intros i Hi. rewrite !Z.land_spec. change 255 with (Z.ones 8).
    rewrite Z.testbit_ones by lia. destruct (Z.leb_spec 0 i), (Z.ltb_spec i 8); cbn [andb]; rewrite ?andb_false_r; auto; try lia.
    rewrite color_mask, black_bits, !andb_true_r by lia.
    destruct (Z.eqb_spec i 8), (Z.eqb_spec i 9); try lia. now rewrite ?andb_true_r.
  - rewrite Z.shiftr_lor. change (Z.shiftr Caml_blue 10) with 0. rewrite Z.lor_0_r.
    apply Z.bits_inj'. intros i Hi. rewrite !Z.shiftr_spec, Z.land_spec by lia.
    destruct (Z_lt_ge_dec (i + 10) WORD).
    + rewrite color_mask, black_bits by lia.
      destruct (Z.eqb_spec (i + 10) 8), (Z.eqb_spec (i + 10) 9); try lia. apply andb_true_r.
    + now rewrite header_high by (auto; lia).
  - rewrite Z.land_lor_distr_l. change (Z.land Caml_blue Caml_black) with Caml_blue.
    rewrite <- Z.land_assoc. rewrite (Z.land_comm _ Caml_black).
    assert (E : Z.land Caml_black (wrap WORD (Z.lnot Caml_black)) = 0).
    { apply Z.bits_inj'. intros i Hi. rewrite Z.land_spec, Z.bits_0. rewrite black_bits by lia.
      destruct (Z_lt_ge_dec i WORD).
      - rewrite color_mask, black_bits by lia. now destruct ((i =? 8) || (i =? 9)).
      - destruct (Z.eqb_spec i 8), (Z.eqb_spec i 9); auto; lia. }
    rewrite E. now rewrite Z.land_0_r.
Qed.

(** ** Marked heaps *)

Variable H : sheap.

(** Heaps are compared block by block. *)
Definition heap_eq (h1 h2 : sheap) : Prop := forall x, h1 x = h2 x.

(** The heap [H] with forwarding pointers in the blocks [seen]. *)
Definition mark (seen : list Z) : sheap := fun x =>
  match index x seen with
  | Some i =>
      match H x with
      | Some (SBlock hd (f0 :: ws)) => Some (SBlock (Bluehd_hd hd) (Imm (wrap WORD (Z.of_nat i)) :: ws))
      | o => o
      end
  | None => H x
  end.

Definition entry_of (b : Z) : trail_entry :=
  match H b with
  | Some (SBlock hd (f0 :: ws)) => Entry (Ptr b 0) (Colornum_hd hd) f0
  | _ => Entry (Ptr b 0) 0 (Imm 0)
  end.

Definition markable (b : Z) : Prop :=
  0 <= b /\ exists hd f0 ws, H b = Some (SBlock hd (f0 :: ws)) /\ header_ok hd.

(** The state of the marshaller when the blocks [seen] have been recorded, in
    this order. *)
Record Inv (seen : list Z) (st : ext) : Prop := {
  inv_heap : heap_eq (eheap st) (mark seen);
  inv_nodup : NoDup seen;
  inv_markable : Forall markable seen;
  inv_trail : concat (rev (trail_prev st)) ++ trail_cur st = map entry_of seen;
  inv_counter : obj_counter st = wrap WORD (Z.of_nat (length seen)) }.

Lemma mark_nil : heap_eq (mark []) H.
Proof. intros x. reflexivity. Qed.

Lemma mark_unseen seen x : ~ In x seen -> mark seen x = H x.
Proof. intros Hx. unfold mark. now rewrite (proj2 (index_None x seen) Hx). Qed.

Lemma mark_seen seen x i hd f0 ws : index x seen = Some i -> H x = Some (SBlock hd (f0 :: ws)) ->
  mark seen x = Some (SBlock (Bluehd_hd hd) (Imm (wrap WORD (Z.of_nat i)) :: ws)).
Proof. intros Hi E. unfold mark. now rewrite Hi, E. Qed.

Lemma mark_snoc seen b hd f0 ws : ~ In b seen -> H b = Some (SBlock hd (f0 :: ws)) ->
  heap_eq (mark (seen ++ [b]))
    (upd_sblock (mark seen) b (SBlock (Bluehd_hd hd) (Imm (wrap WORD (Z.of_nat (length seen))) :: ws))).
Proof.
  intros Hb E x. unfold upd_sblock. destruct (Z.eqb_spec x b) as [->|Hx].
  - unfold mark. now rewrite index_snoc, E by auto.
  - unfold mark. now rewrite index_snoc_other.
Qed.

(** ** Recording an object *)

Lemma Inv_eout seen st o : Inv seen st -> Inv seen (set_eout o st).
Proof. intros []; now constructor. Qed.
Lemma Inv_sizes seen st a b : Inv seen st -> Inv seen (add_sizes a b st).
Proof. intros []; now constructor. Qed.

Lemma nthZ_upd0 (x v : value) l : updZ (x :: l) (0 + 0) v = Some (v :: l).
Proof. unfold updZ. cbn [length Z.add Z.leb andb Z.compare]. now rewrite (proj2 (Z.ltb_lt _ _)) by lia. Qed.

Lemma get_sblock_pos h b : 0 <= b -> get_sblock h b = h b.
Proof. intros Hb. unfold get_sblock. now rewrite (proj2 (Z.ltb_ge b 0)). Qed.

Lemma record_location_ok seen st b : Inv seen st -> markable b -> ~ In b seen ->
  exists st', extern_record_location false (Ptr b 0) st = Ok st' /\ Inv (seen ++ [b]) st' /\
    eout st' = eout st /\ size_32 st' = size_32 st /\ size_64 st' = size_64 st.
Proof.
  intros I [Hb (hd & f0 & ws & E & Hh)] Hn. pose proof I as [Ih Ind Im It Ic].
  assert (Eh : eheap st b = Some (SBlock hd (f0 :: ws))) by (rewrite Ih, mark_unseen; auto).
  unfold extern_record_location. cbn [hd_of fld set_hd]. rewrite get_sblock_pos by auto. rewrite Eh.
  change (0 =? 0) with true. cbn [Z.add nthZ Z.ltb Z.compare Z.to_nat nth_error of_option].
  set (pc := if Nat.eqb _ _ then _ else _). assert (Hpc : concat (rev (fst pc)) ++ snd pc = map entry_of seen).
  { unfold pc. destruct (Nat.eqb _ _); cbn [fst snd]; auto. cbn [rev]. rewrite concat_app. cbn [concat].
    now rewrite !app_nil_r. }
  destruct pc as [prev cur]. cbn [fst snd] in Hpc.
  unfold set_fld, upd_sblock at 1. rewrite Z.eqb_refl, nthZ_upd0. cbn [of_option].
  eexists. split; [reflexivity|]. conj; auto. split; cbn [eheap trail_prev trail_cur obj_counter].
  - intros x. rewrite (mark_snoc seen b hd f0 ws) by auto. unfold upd_sblock. rewrite Ic.
    destruct (Z.eqb_spec x b); auto.
  - apply NoDup_app; auto; [repeat constructor; auto|]. intros x Hx [->|[]]. auto.
  - apply Forall_app. split; auto. repeat constructor; auto. exists hd, f0, ws. auto.
  - rewrite app_assoc, Hpc, map_app. cbn [map]. unfold entry_of at 3. now rewrite E.
  - rewrite Ic, wrap_wrap_add_l, length_app. cbn [length]. f_equal. lia.
Qed.

(** ** Replaying the trail *)

(** [h] is [H] with some forwarding pointer in each of the blocks [l]. *)
Definition marked_at (l : list Z) (h : sheap) : Prop :=
  forall x, if in_dec Z.eq_dec x l
            then exists hd f0 ws c, H x = Some (SBlock hd (f0 :: ws)) /\
                                    h x = Some (SBlock (Bluehd_hd hd) (c :: ws))
            else h x = H x.

Lemma replay_block_ok l : forall h, NoDup l -> Forall markable l -> marked_at l h ->
  exists h', replay_block (map entry_of l) h = Ok h' /\ heap_eq h' H.
Proof.
  induction l as [|b l IH]; intros h Hd Hm Hh; cbn [map replay_block].
  - exists h. split; [reflexivity | intros x; exact (Hh x)].
  - inversion Hd as [|? ? Hnb Hd']; subst. inversion Hm as [|? ? [Hb Hmb] Hm']; subst.
    pose proof (Hh b) as Eb. destruct (in_dec Z.eq_dec b (b :: l)) as [_|n]; [|exfalso; apply n; now left].
    destruct Eb as (hd & f0 & ws & c & E & Eh). destruct Hmb as (hd' & f0' & ws' & E' & Hok).
    rewrite E in E'. injection E' as <- <- <-.
    unfold replay_entry, entry_of at 1 2 3 4 5. rewrite E. cbn [te_obj te_color te_field0].
    cbn [hd_of set_hd]. rewrite get_sblock_pos, Eh by auto. change (0 =? 0) with true.
    cbn [set_fld]. unfold upd_sblock at 1. rewrite Z.eqb_refl, nthZ_upd0. cbn [of_option].
    rewrite Coloredhd_Bluehd by auto. apply IH; auto.
    intros x. specialize (Hh x). unfold upd_sblock.
    destruct (Z.eqb_spec x b) as [->|Hx].
    + destruct (in_dec Z.eq_dec b l); [contradiction|]. now rewrite E.
    + destruct (in_dec Z.eq_dec x l) as [i|n], (in_dec Z.eq_dec x (b :: l)) as [i'|n']; auto.
      * exfalso. apply n'. now right.
      * exfalso. destruct i'; congruence.
Qed.

Lemma replay_block_app l1 l2 : forall h,
  replay_block (l1 ++ l2) h = let! h := replay_block l1 h in replay_block l2 h.
Proof.
  induction l1 as [|e l1 IH]; intros h; cbn [app replay_block]; auto.
  destruct (replay_entry e h); auto.
Qed.

Lemma replay_blocks_concat ls : forall h, replay_blocks ls h = replay_block (concat ls) h.
Proof.
  induction ls as [|l ls IH]; intros h; cbn [replay_blocks concat]; auto.
  rewrite replay_block_app. destruct (replay_block l h); auto.
Qed.

Lemma Permutation_concat_rev {T} (ls : list (list T)) : Permutation (concat (rev ls)) (concat ls).
Proof.
  induction ls as [|l ls IH]; cbn [rev concat]; auto.
  rewrite concat_app. cbn [concat]. rewrite app_nil_r. rewrite IH. apply Permutation_app_comm.
Qed.

Lemma Inv_marked_at seen st : Inv seen st -> marked_at seen (eheap st).
Proof.
  intros [Ih Ind Im _ _] x. rewrite Ih. destruct (in_dec Z.eq_dec x seen) as [i|n].
  - pose proof (proj1 (Forall_forall _ _) Im x i) as [_ (hd & f0 & ws & E & _)].
    unfold mark. destruct (index x seen) as [k|] eqn:Ek.
    + rewrite E. eauto 8.
    + now apply index_None in Ek.
  - now apply mark_unseen.
Qed.

(** Whatever has been recorded, replaying the trail gives back the heap. *)
Lemma replay_trail_ok seen st : Inv seen st ->
  exists h, extern_replay_trail st = Ok h /\ heap_eq h H.
Proof.
  intros I. pose proof (Inv_marked_at _ _ I) as M. destruct I as [Ih Ind Im It _].
  unfold extern_replay_trail. rewrite replay_blocks_concat. cbn [concat].
  assert (P : Permutation (map entry_of seen) (trail_cur st ++ concat (trail_prev st))).
  { rewrite <- It, Permutation_concat_rev. apply Permutation_app_comm. }
  symmetry in P. apply Permutation_map_inv in P as (l & El & Pl). rewrite El.
  apply replay_block_ok.
  - now apply (Permutation_NoDup Pl).
  - now apply (Permutation_Forall Pl).
  - intros x. specialize (M x).
    destruct (in_dec Z.eq_dec x l) as [i|n], (in_dec Z.eq_dec x seen) as [i'|n']; auto.
    + exfalso. apply n'. now apply (Permutation_in x (Permutation_sym Pl)).
    + exfalso. apply n. now apply (Permutation_in x Pl).
Qed.
End Trail.
