(* ===== verification/MarshalRestore.v ===== *)
(** MarshalRestore: marshalling leaves the heap as it found it, whether it
    succeeds or raises. *)
From Stdlib Require Import ZArith Lia Bool Ascii String List.
From S2P Require Import Prelude Mlvalues InterpState InterpCalls ExternOutput InternInput Custom MarshalHeap Extern MarshalTrail.
Import ListNotations.
Local Open Scope Z_scope.

(** ** Well-formed heaps *)

Section Heaps.
Context {A : Arch}.
Variable H : sheap.

(** A pointer points to a block, to an atom, or to an infix header inside a
    block of closures. *)
Definition infix_at (b ofs : Z) : Prop :=
  0 <= b /\ 2 <= ofs /\ exists hd ws ihd, (H b = Some (SBlock hd ws) /\ Tag_hd hd = Closure_tag) /\
    nthZ ws (ofs - 1) = Some (Imm ihd) /\
    Tag_hd ihd = Infix_tag /\ Wosize_hd ihd = ofs /\ Color_hd ihd <> Caml_blue.
Definition ptr_ok (v : value) : Prop :=
  match v with
  | Ptr b ofs => (ofs = 0 /\ - Num_tags <= b) \/ infix_at b ofs
  | _ => True
  end.

Record heap_wf : Prop := {
  hw_header : forall b hd ws, 0 <= b -> H b = Some (SBlock hd ws) ->
    header_ok hd /\ Color_hd hd <> Caml_blue /\ Wosize_hd hd = zlen ws /\ Tag_hd hd <> Infix_tag;
  hw_fields : forall b hd ws, 0 <= b -> H b = Some (SBlock hd ws) -> Tag_hd hd < No_scan_tag -> Forall ptr_ok ws }.
End Heaps.

(** A graph of blocks [D] that marshalling can traverse: closed under the fields
    of the blocks that are scanned, with readable contents.  Abstract blocks and
    custom blocks without a serializer are allowed. *)
Section Graph.
Context {A : Arch}.
Variable custom_at : Z -> option custom_operations.
Variable H : sheap.
Variable D : list Z.

Definition value_ok (v : value) : Prop :=
  match v with
  | Ptr b ofs => (ofs = 0 /\ (In b D \/ - Num_tags <= b < 0 /\ - 1 - b <> Forward_tag)) \/ (In b D /\ infix_at H b ofs)
  | _ => True
  end.
Definition contents_ok (b hd : Z) (ws : list value) : Prop :=
  let tag := Tag_hd hd in
  if tag =? String_tag then
    exists n bs, caml_string_length H (Ptr b 0) = Ok n /\ bytes_at H (Ptr b 0) 0 (Z.to_nat n) = Ok bs
  else if tag =? Double_tag then exists bs, bytes_at H (Ptr b 0) 0 8 = Ok bs
  else if tag =? Double_array_tag then
    exists bs, bytes_at H (Ptr b 0) 0 (Z.to_nat (Wosize_hd hd / Double_wosize * 8)) = Ok bs
  else if tag =? Abstract_tag then True
  else if tag =? Custom_tag then
    exists p data ops, ws = Imm p :: data /\ custom_at p = Some ops /\
      forall s o, serialize ops = Some s -> s data o <> Stuck
  else Forall value_ok ws.
Definition closed : Prop := forall b, In b D -> 0 <= b /\
  exists hd ws, H b = Some (SBlock hd ws) /\ 0 < Wosize_hd hd /\ contents_ok b hd ws.

(** The calls of [extern_rec] before a block is entered or a leaf is written. *)
Definition rank (v : value) : nat :=
  match v with
  | Ptr b ofs =>
      if ofs =? 0 then match hd_of H v with Ok hd => if Tag_hd hd =? Forward_tag then 3 else 1 | _ => 1 end else 2
  | _ => 1
  end.
Lemma rank_bounds v : (1 <= rank v <= 3)%nat.
Proof.
  unfold rank. destruct v as [|b ofs| |]; try lia. destruct (ofs =? 0); [|lia]. destruct (hd_of _ _) as [hd| |]; try lia.
  destruct (_ =? _); lia.
Qed.
End Graph.

(** Writers fail by an exception only. *)
Definition never_stuck {T U} (op : T -> res U) : Prop := forall x, op x <> Stuck.
Lemma ensure_never_stuck n : never_stuck (ensure n).
Proof. intros s. unfold ensure, grow_extern_output. destruct (_ <? _), (userprovided s); discriminate. Qed.
Lemma put_never_stuck n (f : extern_out -> extern_out) : never_stuck (fun s => let! s := ensure n s in Ok (f s)).
Proof. intros s. pose proof (ensure_never_stuck n s). destruct (ensure n s); [discriminate.. | contradiction]. Qed.
Lemma Write_never_stuck c : never_stuck (Write c).
Proof. intros s. unfold Write, grow_extern_output. destruct (_ <=? _), (userprovided s); discriminate. Qed.
#[export] Hint Resolve Write_never_stuck : writers.
#[export] Hint Extern 1 (never_stuck (writecode8 _ _)) => apply put_never_stuck : writers.
#[export] Hint Extern 1 (never_stuck (writecode16 _ _)) => apply put_never_stuck : writers.
#[export] Hint Extern 1 (never_stuck (writecode32 _ _)) => apply put_never_stuck : writers.
#[export] Hint Extern 1 (never_stuck (writecode64 _ _)) => apply put_never_stuck : writers.
#[export] Hint Extern 1 (never_stuck (write32 _)) => apply put_never_stuck : writers.
#[export] Hint Extern 1 (never_stuck (writeblock _)) => apply put_never_stuck : writers.

(** Contents depend on the block only. *)
Section Contents.
Context {A : Arch}.
Variables (H h : sheap) (b : Z).
Hypothesis E : h b = H b.
Hypothesis Hb : 0 <= b.
Lemma bytes_at_unseen n : forall i, bytes_at h (Ptr b 0) i n = bytes_at H (Ptr b 0) i n.
Proof using E Hb.
  induction n as [|n IH]; intros i; cbn [bytes_at]; auto.
  unfold byte_at, fld. rewrite !get_sblock_pos, E by auto. destruct (match H b with Some _ => _ | None => _ end); auto.
  destruct (word_byte _ _); auto. now rewrite IH.
Qed.
Lemma string_length_unseen : caml_string_length h (Ptr b 0) = caml_string_length H (Ptr b 0).
Proof using E Hb. unfold caml_string_length, hd_of, byte_at, fld. now rewrite !get_sblock_pos, E by auto. Qed.
End Contents.

Section Restore.
Context {A : Arch} {F : FloatArch}.
Variable custom_at : Z -> option custom_operations.
Variable caml_code_size : Z.
Variable caml_code_checksum : list Z.
Variable extern_ignore_sharing : bool.
Variable extern_closures : bool.
Variable H : sheap.
Hypothesis Hwf : heap_wf H.
Variable D : list Z.
Hypothesis HD : closed custom_at H D.

Notation extern_rec := (extern_rec custom_at caml_code_size caml_code_checksum extern_ignore_sharing extern_closures).
Notation value_ok := (value_ok H D).

(** An exception that a serializer raises on its own. *)
Definition foreign (e : exn) : Prop := exists p ops s data o,
  custom_at p = Some ops /\ serialize ops = Some s /\ s data o = Raise e /\ e <> buffer_overflow.

(** The heap can be restored from the result of an operation, or has been,
    except for the exceptions of serializers.  Without sharing the traversal of
    a cycle does not end. *)
Definition restorable (seen : list Z) (r : eres ext) : Prop :=
  match r with
  | EOk st => exists s, Inv H (seen ++ s) st
  | ERaise e h => heap_eq h H \/ foreign e
  | EStuck => extern_ignore_sharing = true
  end.

Lemma restorable_ok seen st : Inv H seen st -> restorable seen (EOk st).
Proof. intros I. exists []. now rewrite app_nil_r. Qed.

Lemma restorable_failure seen st e : Inv H seen st -> restorable seen (extern_failure e st).
Proof.
  intros I. destruct (replay_trail_ok H seen st I) as (h & E & Hh).
  unfold extern_failure. rewrite E. now left.
Qed.

(** After a write the same blocks are recorded. *)
Lemma restorable_write seen st op k : never_stuck op -> Inv H seen st ->
  (forall st', Inv H seen st' -> eheap st' = eheap st -> obj_counter st' = obj_counter st -> restorable seen (k st')) ->
  restorable seen (let? st' := write op st in k st').
Proof.
  intros N I K. unfold write. specialize (N (eout st)). destruct (op (eout st)); [| |contradiction].
  - apply K; auto. now apply Inv_eout.
  - unfold extern_failure. destruct (replay_trail_ok H seen st I) as (h & -> & Hh). now left.
Qed.

Lemma restorable_write' seen st op : never_stuck op -> Inv H seen st -> restorable seen (write op st).
Proof.
  intros N I. pose proof (restorable_write seen st op (fun st => EOk st) N I) as R.
  destruct (write op st); apply R; intros st' I' _ _; now apply restorable_ok.
Qed.

Lemma restorable_read {T} seen (r : res T) x (k : T -> eres ext) : r = Ok x -> restorable seen (k x) ->
  restorable seen (let? x := read r in k x).
Proof. now intros -> K. Qed.

Lemma restorable_bind seen r k : restorable seen r ->
  (forall s st, Inv H (seen ++ s) st -> restorable (seen ++ s) (k st)) ->
  restorable seen (let? st := r in k st).
Proof.
  destruct r as [st|e h|]; cbn; auto. intros [s I] K. specialize (K s st I). destruct (k st); cbn in *; auto.
  destruct K as [s' I']. exists (s ++ s'). now rewrite app_assoc.
Qed.

(** A block met by [extern_rec] is marked or as in [H]. *)
Lemma block_view seen st b hd ws : Inv H seen st -> 0 <= b -> eheap st b = Some (SBlock hd ws) ->
  (~ In b seen /\ H b = Some (SBlock hd ws)) \/
  (In b seen /\ Color_hd hd = Caml_blue /\
   exists hd0 f0 c ws', H b = Some (SBlock hd0 (f0 :: ws')) /\ ws = Imm c :: ws' /\ Tag_hd hd = Tag_hd hd0 /\
     Wosize_hd hd = Wosize_hd hd0).
Proof.
  intros [Ih Ind Im _ _] Hb E. rewrite Ih in E. destruct (in_dec Z.eq_dec b seen) as [i|n].
  - right. pose proof (proj1 (Forall_forall _ _) Im b i) as [_ (hd0 & f0 & ws' & E0 & Hok)].
    destruct (index b seen) as [k|] eqn:Ek; [|now apply index_None in Ek].
    rewrite (mark_seen H seen b k hd0 f0 ws' Ek E0) in E. injection E as <- <-.
    destruct (Bluehd_fields hd0 Hok) as (H1 & H2 & H3). conj; auto. eauto 10.
  - left. now rewrite mark_unseen in E.
Qed.

Lemma markable_of b hd ws : 0 <= b -> H b = Some (SBlock hd ws) -> Wosize_hd hd <> 0 -> markable H b.
Proof.
  intros Hb E Hz. destruct (hw_header H Hwf b hd ws Hb E) as (Hok & _ & Hs & _).
  destruct ws as [|f0 ws]; [now rewrite Hs in Hz|]. split; eauto 10.
Qed.

Lemma record_sharing seen st b hd ws : Inv H seen st -> 0 <= b -> H b = Some (SBlock hd ws) ->
  Wosize_hd hd <> 0 -> ~ In b seen ->
  exists s st', extern_record_location extern_ignore_sharing (Ptr b 0) st = Ok st' /\ Inv H (seen ++ s) st' /\
    (extern_ignore_sharing = false -> s = [b]).
Proof.
  intros I Hb E Hz Hn. destruct extern_ignore_sharing.
  - exists [], st. rewrite app_nil_r. conj; auto. discriminate.
  - destruct (record_location_ok H seen st b I (markable_of b hd ws Hb E Hz) Hn) as (st' & -> & I' & _).
    exists [b], st'. auto.
Qed.

(** *** Objects without pointers *)

Section NoScan.
Variables (seen : list Z) (st : ext) (b hd : Z) (ws : list value).
Hypothesis I : Inv H seen st.
Hypothesis Hb : 0 <= b.
Hypothesis E : H b = Some (SBlock hd ws).
Hypothesis Hz : Wosize_hd hd <> 0.
Hypothesis Hn : ~ In b seen.

Lemma unseen_eq st' : Inv H seen st' -> eheap st' b = H b.
Proof. intros I'. rewrite (inv_heap _ _ _ I'). now apply mark_unseen. Qed.

Lemma after_write st' s32 s64 : Inv H seen st' ->
  restorable seen (read (extern_record_location extern_ignore_sharing (Ptr b 0) (add_sizes s32 s64 st'))).
Proof.
  intros I'. destruct (record_sharing seen (add_sizes s32 s64 st') b hd ws) as (s & st2 & -> & I2 & _); auto; [now apply Inv_sizes|].
  cbn. eauto.
Qed.

Lemma restorable_bytes n bs s32 s64 st' : bytes_at H (Ptr b 0) 0 n = Ok bs -> Inv H seen st' -> restorable seen
  (let? data := read (bytes_at (eheap st') (Ptr b 0) 0 n) in
   let? st := write (writeblock data) st' in
   read (extern_record_location extern_ignore_sharing (Ptr b 0) (add_sizes s32 s64 st))).
Proof.
  intros Eb I'. apply (restorable_read seen _ bs); [now rewrite (bytes_at_unseen H) by (auto using unseen_eq)|].
  apply (restorable_write seen _ _ (fun st => read _)); auto with writers. intros st2 I2 _ _. now apply after_write.
Qed.

Lemma restorable_string n bs : caml_string_length H (Ptr b 0) = Ok n -> bytes_at H (Ptr b 0) 0 (Z.to_nat n) = Ok bs ->
  restorable seen (extern_string extern_ignore_sharing (Ptr b 0) st).
Proof.
  intros En Eb. unfold extern_string.
  apply (restorable_read seen _ n); [now rewrite (string_length_unseen H) by (auto using unseen_eq)|].
  destruct (n <? 32); [|destruct (n <? 256)];
    apply (restorable_write seen _ _ (fun st => let? data := read _ in _)); auto with writers;
    intros st' I' _ _; now apply (restorable_bytes _ bs).
Qed.

Lemma restorable_double bs : bytes_at H (Ptr b 0) 0 8 = Ok bs -> restorable seen (extern_double extern_ignore_sharing (Ptr b 0) st).
Proof.
  intros Eb. unfold extern_double. apply (restorable_write seen _ _ (fun st => let? data := read _ in _)); auto with writers.
  intros st' I' _ _. now apply (restorable_bytes 8 bs).
Qed.

Lemma restorable_double_array bs : bytes_at H (Ptr b 0) 0 (Z.to_nat (Wosize_hd hd / Double_wosize * 8)) = Ok bs ->
  restorable seen (extern_double_array extern_ignore_sharing (Ptr b 0) (Wosize_hd hd) st).
Proof.
  intros Eb. unfold extern_double_array. cbv zeta. set (n := Wosize_hd hd / Double_wosize) in *.
  destruct (n <? 256); apply (restorable_write seen _ _ (fun st => let? data := read _ in _)); auto with writers;
    intros st' I' _ _; now apply (restorable_bytes _ bs).
Qed.

Lemma restorable_custom p data ops : ws = Imm p :: data -> custom_at p = Some ops ->
  (forall s o, serialize ops = Some s -> s data o <> Stuck) ->
  restorable seen (extern_custom custom_at extern_ignore_sharing (Ptr b 0) st).
Proof.
  intros Ew Ep Hs. unfold extern_custom. apply (restorable_read seen _ ops).
  { cbn [fld]. rewrite get_sblock_pos, unseen_eq, E, Ew by auto. cbn. now rewrite Ep. }
  destruct (serialize ops) as [ser|] eqn:Es; [|now apply (restorable_failure seen)].
  apply (restorable_write seen _ _ (fun st => let? st := write _ st in _)); auto with writers. intros st1 I1 _ _.
  apply (restorable_write seen _ _ (fun st => let? words := read _ in _)); auto with writers. intros st2 I2 _ _.
  apply (restorable_read seen _ ws); [now rewrite unseen_eq, E|]. rewrite Ew. cbn [tl].
  specialize (Hs ser (eout st2) eq_refl).
  assert (Fo : forall e, ser data (eout st2) = Raise e -> e <> buffer_overflow -> foreign e) by (intros e Ee Hne; exists p, ops, ser, data, (eout st2); auto).
  destruct (ser data (eout st2)) as [[o [s32 s64]]|e|]; [|specialize (Fo e eq_refl)|contradiction].
  - apply after_write. now apply Inv_eout.
  - destruct e; try (right; apply Fo; discriminate). destruct (String.eqb_spec msg "Marshal.to_buffer: buffer overflow") as [->|Hm].
    + now apply (restorable_failure seen).
    + right. apply Fo. intros [= ->]. now apply Hm.
Qed.
End NoScan.

(** ** The recursion *)

(** The fuel is enough for [n] more calls before a block is entered. *)
Definition enough (n : nat) (seen : list Z) (fuel : nat) : Prop :=
  extern_ignore_sharing = false -> (n + 3 * rem D seen <= fuel)%nat.
Lemma enough_le n n' seen s fuel : (n' <= n)%nat -> enough n seen fuel -> enough n' (seen ++ s) fuel.
Proof. intros Hn E Es. specialize (E Es). pose proof (rem_app D seen s). lia. Qed.
Lemma enough_more n seen s fuel : enough n seen fuel -> enough n (seen ++ s) fuel.
Proof. now apply enough_le. Qed.

Lemma In_D b : In b D -> 0 <= b.
Proof. intros Hb. now destruct (HD b Hb). Qed.
Lemma block_of b : In b D -> exists hd ws, H b = Some (SBlock hd ws) /\ 0 < Wosize_hd hd /\ contents_ok custom_at H D b hd ws.
Proof. intros Hb. now destruct (HD b Hb). Qed.

Section Rec.
Variable rec : value -> ext -> eres ext.
Variable fuel : nat.
Hypothesis Hrec : forall v seen st, value_ok v -> Inv H seen st -> enough (rank H v) seen fuel -> restorable seen (rec v st).

Lemma Hrec3 v seen st : value_ok v -> Inv H seen st -> enough 3 seen fuel -> restorable seen (rec v st).
Proof.
  intros Hv I En. apply Hrec; auto. rewrite <- (app_nil_r seen). apply (enough_le 3); auto. apply rank_bounds.
Qed.

(** Fields other than the first are those of [H], marked or not. *)
Lemma fld_value_ok seen st b hd ws i : Inv H seen st -> 0 <= b -> H b = Some (SBlock hd ws) ->
  Forall value_ok ws -> 1 <= i < zlen ws -> exists x, fld (eheap st) (Ptr b 0) i = Ok x /\ value_ok x.
Proof.
  intros I Hb E Hf Hi. destruct (nthZ ws i) as [x|] eqn:Ex.
  2: { exfalso. unfold nthZ in Ex. destruct (Z.ltb_spec i 0); [lia|]. apply nth_error_None in Ex. unfold zlen in Hi. lia. }
  exists x. assert (Hx : value_ok x).
  { rewrite Forall_forall in Hf. apply Hf. unfold nthZ in Ex. destruct (i <? 0); [discriminate|]. now apply nth_error_In in Ex. }
  split; [|exact Hx]. cbn [fld]. rewrite get_sblock_pos by auto. destruct (eheap st b) as [[hd' ws']|] eqn:E'.
  - destruct (block_view seen st b hd' ws' I Hb E') as [[_ E0]|(_ & _ & hd0 & f0 & c & ws0 & E0 & -> & _)].
    + rewrite E in E0. injection E0 as <- <-. now rewrite Z.add_0_l, Ex.
    + rewrite E in E0. injection E0 as <- ->. rewrite Z.add_0_l, nthZ_cons in * by lia. now rewrite Ex.
  - exfalso. rewrite (inv_heap _ _ _ I) in E'. unfold mark in E'. rewrite E in E'. destruct (index b seen), ws; discriminate.
Qed.

Lemma restorable_fields b hd ws n : 0 <= b -> H b = Some (SBlock hd ws) -> Forall value_ok ws ->
  forall i seen st, 1 <= i -> i + Z.of_nat n <= zlen ws -> Inv H seen st -> enough 3 seen fuel ->
  restorable seen (extern_fields rec (Ptr b 0) i n st).
Proof.
  intros Hb E Hf. induction n as [|n IH]; intros i seen st Hi Hl I En; cbn [extern_fields]; [now apply restorable_ok|].
  destruct (fld_value_ok seen st b hd ws i I Hb E Hf) as (x & Ex & Hx); [lia|]. apply (restorable_read seen _ x _ Ex).
  apply restorable_bind; [now apply Hrec3|]. intros s st' I'. apply IH; auto; try lia. now apply enough_more.
Qed.

Lemma restorable_header seen st hd tag sz k : Inv H seen st ->
  (forall st', Inv H seen st' -> eheap st' = eheap st -> restorable seen (k st')) ->
  restorable seen (let? st' := extern_header hd tag sz st in k st').
Proof.
  intros I K. unfold extern_header. destruct (_ && _); [|destruct (_ && _)];
    apply (restorable_write seen _ _ k); auto with writers.
Qed.

Lemma restorable_block seen st b hd ws : Inv H seen st -> In b D -> H b = Some (SBlock hd ws) ->
  Forall value_ok ws -> 0 < Wosize_hd hd -> ~ In b seen -> enough 0 seen fuel ->
  restorable seen (extern_block extern_ignore_sharing rec (Ptr b 0) hd (Tag_hd hd) (Wosize_hd hd) st).
Proof.
  intros I HbD E Hf Hz Hn En. pose proof (In_D b HbD) as Hb. unfold extern_block.
  destruct (hw_header H Hwf b hd ws Hb E) as (_ & _ & Es & _).
  apply (restorable_header seen _ _ _ _ (fun st => let? field0 := read _ in _)); auto.
  intros st1 I1 E1. cbv zeta. destruct ws as [|f0 ws]; [unfold zlen in Es; cbn [length] in Es; lia|].
  apply (restorable_read seen _ f0).
  { cbn [fld add_sizes eheap]. rewrite get_sblock_pos by auto. rewrite (inv_heap _ _ _ I1), mark_unseen, E by auto. reflexivity. }
  destruct (record_sharing seen (add_sizes (1 + Wosize_hd hd) (1 + Wosize_hd hd) st1) b hd (f0 :: ws)) as (s & st2 & Er & I2 & Hs); auto; [now apply Inv_sizes | lia|].
  rewrite Er. cbn [read].
  assert (En3 : enough 3 (seen ++ s) fuel).
  { intros Ei. specialize (En Ei). rewrite (Hs Ei). pose proof (rem_snoc D seen b HbD Hn). lia. }
  enough (R : restorable (seen ++ s) (if Wosize_hd hd =? 1 then rec f0 st2 else
    let? st := rec f0 st2 in let? st := extern_fields rec (Ptr b 0) 1 (Z.to_nat (Wosize_hd hd - 2)) st in
    let? x := read (fld (eheap st) (Ptr b 0) (Wosize_hd hd - 1)) in rec x st)).
  { destruct (if Wosize_hd hd =? 1 then _ else _); cbn in *; auto. destruct R as [s' I']. exists (s ++ s'). now rewrite app_assoc. }
  pose proof (Forall_inv Hf) as P0. destruct (Z.eqb_spec (Wosize_hd hd) 1) as [E3|H1]; [now apply Hrec3|].
  apply restorable_bind; [now apply Hrec3|]. intros s3 st3 I3.
  apply restorable_bind.
  { apply (restorable_fields b hd (f0 :: ws)); auto; try lia. now apply enough_more. }
  intros s4 st4 I4. destruct (fld_value_ok _ st4 b hd (f0 :: ws) (Wosize_hd hd - 1) I4 Hb E Hf) as (x & Ex & Hx); [lia|].
  apply (restorable_read _ _ x _ Ex), Hrec3; auto. now apply enough_more, enough_more.
Qed.

Lemma atom_header b : - Num_tags <= b -> b < 0 -> Wosize_hd (Make_header 0 (- 1 - b) Caml_white) = 0.
Proof.
  change Num_tags with 256. intros H1 H2. change Caml_white with (0 * 256).
  rewrite Make_header_eq by (try lia; unfold Max_wosize; destruct ARCH_SIXTYFOUR; cbn; lia).
  rewrite Wosize_hd_div. apply Z.div_small. lia.
Qed.

(** A pointer to a block. *)
Lemma restorable_new seen st b hd ws : Inv H seen st -> In b D -> H b = Some (SBlock hd ws) -> 0 < Wosize_hd hd ->
  contents_ok custom_at H D b hd ws -> ~ In b seen -> Color_hd hd <> Caml_blue -> enough 0 seen fuel ->
  restorable seen (extern_object custom_at extern_ignore_sharing rec (Ptr b 0) hd (Tag_hd hd) (Wosize_hd hd) st).
Proof.
  intros I HbD E Hz C Hn Hc En. pose proof (In_D b HbD) as Hb. unfold extern_object.
  rewrite (proj2 (Z.eqb_neq _ 0)), (proj2 (Z.eqb_neq _ _) Hc) by lia.
  destruct (hw_header H Hwf b hd ws Hb E) as (_ & _ & _ & Hinf). unfold contents_ok in C. cbv zeta in C.
  destruct (Z.eqb_spec (Tag_hd hd) String_tag).
  { destruct C as (n & bs & En' & Eb). apply (restorable_string seen st b hd ws I Hb E ltac:(lia) Hn n bs En' Eb). }
  destruct (Z.eqb_spec (Tag_hd hd) Double_tag).
  { destruct C as (bs & Eb). apply (restorable_double seen st b hd ws I Hb E ltac:(lia) Hn bs Eb). }
  destruct (Z.eqb_spec (Tag_hd hd) Double_array_tag).
  { destruct C as (bs & Eb). apply (restorable_double_array seen st b hd ws I Hb E ltac:(lia) Hn bs Eb). }
  destruct (Z.eqb_spec (Tag_hd hd) Abstract_tag); [now apply restorable_failure|].
  destruct (Z.eqb_spec (Tag_hd hd) Infix_tag); [contradiction|].
  destruct (Z.eqb_spec (Tag_hd hd) Custom_tag).
  { destruct C as (p & data & ops & Ew & Ep & Hs). apply (restorable_custom seen st b hd ws I Hb E ltac:(lia) Hn p data ops Ew Ep Hs). }
  now apply (restorable_block seen st b hd ws).
Qed.

Lemma restorable_object_block seen st b : Inv H seen st -> In b D -> enough 0 seen fuel ->
  exists hd, hd_of (eheap st) (Ptr b 0) = Ok hd /\
  restorable seen (extern_object custom_at extern_ignore_sharing rec (Ptr b 0) hd (Tag_hd hd) (Wosize_hd hd) st).
Proof.
  intros I HbD En. pose proof (In_D b HbD) as Hb. destruct (block_of b HbD) as (hd0 & ws0 & E0 & Hz & C).
  cbn [hd_of]. rewrite get_sblock_pos by auto. destruct (in_dec Z.eq_dec b seen) as [Hs|Hs].
  - destruct (index b seen) as [k|] eqn:Ek; [|now apply index_None in Ek].
    pose proof (markable_of b hd0 ws0 Hb E0 ltac:(lia)) as (_ & hd' & f0 & ws & E & Hok). rewrite E in E0. injection E0 as -> <-.
    rewrite (inv_heap _ _ _ I), (mark_seen H seen b k hd0 f0 ws Ek E). exists (Bluehd_hd hd0). split; [reflexivity|].
    destruct (Bluehd_fields hd0 Hok) as (_ & E2 & E3). unfold extern_object.
    rewrite E2, E3, (proj2 (Z.eqb_neq (Wosize_hd hd0) 0)) by lia. change (Caml_blue =? Caml_blue) with true. cbv iota.
    apply (restorable_read seen _ (wrap WORD (Z.of_nat k))).
    { cbn [fld]. rewrite get_sblock_pos by auto. rewrite (inv_heap _ _ _ I), (mark_seen H seen b k hd0 f0 ws Ek E). reflexivity. }
    unfold extern_shared. destruct (_ <? _); [|destruct (_ <? _)]; apply restorable_write'; auto with writers.
  - rewrite (inv_heap _ _ _ I), mark_unseen, E0 by auto. exists hd0. split; [reflexivity|].
    apply (restorable_new seen st b hd0 ws0); auto. now destruct (hw_header H Hwf b hd0 ws0 Hb E0) as (_ & K & _).
Qed.

Lemma restorable_object_atom seen st b : Inv H seen st -> - Num_tags <= b < 0 ->
  exists hd, hd_of (eheap st) (Ptr b 0) = Ok hd /\ Tag_hd hd = - 1 - b /\
  restorable seen (extern_object custom_at extern_ignore_sharing rec (Ptr b 0) hd (Tag_hd hd) (Wosize_hd hd) st).
Proof.
  intros I Hb. cbn [hd_of]. unfold get_sblock. rewrite (proj2 (Z.ltb_lt b 0)) by lia. change (0 =? 0) with true. cbv iota.
  eexists. split; [reflexivity|]. split.
  - change Caml_white with (0 * 256). change Num_tags with 256 in Hb.
    rewrite Make_header_eq by (try lia; unfold Max_wosize; destruct ARCH_SIXTYFOUR; cbn; lia).
    rewrite Tag_hd_mod. change (0 * 1024 + 0 * 256) with 0. apply Z.mod_small. lia.
  - unfold extern_object. rewrite atom_header by lia. change (0 =? 0) with true. cbv iota.
    destruct (_ <? _); apply restorable_write'; auto with writers.
Qed.

(** A pointer to an infix header. *)
Lemma infix_header seen st b ofs : Inv H seen st -> infix_at H b ofs -> exists hd, hd_of (eheap st) (Ptr b ofs) = Ok hd /\
  Tag_hd hd = Infix_tag /\ Wosize_hd hd = ofs /\ Color_hd hd <> Caml_blue.
Proof.
  intros I (Hb & Ho & hd0 & ws & ihd & [E _] & Ei & Hi). exists ihd. split; [|exact Hi]. cbn [hd_of].
  rewrite get_sblock_pos by auto. destruct (eheap st b) as [[hd' ws']|] eqn:E'.
  - destruct (Z.eqb_spec ofs 0); [lia|].
    destruct (block_view seen st b hd' ws' I Hb E') as [[_ E0]|(_ & _ & hd1 & f0 & c & ws1 & E0 & -> & _)].
    + rewrite E in E0. injection E0 as <- <-. now rewrite Ei.
    + rewrite E in E0. injection E0 as <- ->. rewrite nthZ_cons in * by lia. now rewrite Ei.
  - exfalso. rewrite (inv_heap _ _ _ I) in E'. unfold mark in E'. rewrite E in E'. destruct (index b seen), ws; discriminate.
Qed.

Lemma infix_rank b ofs : infix_at H b ofs -> rank H (Ptr b ofs) = 2%nat /\ rank H (Ptr b 0) = 1%nat.
Proof.
  intros (Hb & Ho & hd & ws & ihd & [E Et] & _). unfold rank. rewrite (proj2 (Z.eqb_neq ofs 0)) by lia. split; [reflexivity|].
  change (0 =? 0) with true. cbn [hd_of]. rewrite get_sblock_pos, E by auto. change (0 =? 0) with true. cbv iota. now rewrite Et.
Qed.

Lemma restorable_object_infix seen st b ofs hd : Inv H seen st -> In b D -> infix_at H b ofs -> enough 1 seen fuel ->
  Tag_hd hd = Infix_tag -> Wosize_hd hd = ofs -> Color_hd hd <> Caml_blue ->
  restorable seen (extern_object custom_at extern_ignore_sharing rec (Ptr b ofs) hd (Tag_hd hd) (Wosize_hd hd) st).
Proof.
  intros I HbD Hi En Et Es Hc. pose proof Hi as (_ & Ho & _). unfold extern_object. rewrite Et, Es.
  rewrite (proj2 (Z.eqb_neq ofs 0)), (proj2 (Z.eqb_neq _ _) Hc) by lia.
  change (Infix_tag =? String_tag) with false. change (Infix_tag =? Double_tag) with false.
  change (Infix_tag =? Double_array_tag) with false. change (Infix_tag =? Abstract_tag) with false.
  change (Infix_tag =? Infix_tag) with true. cbv iota.
  apply (restorable_write seen _ _ (fun st => rec _ st)); auto with writers. intros st' I' _ _.
  assert (E : Infix_offset_hd hd / sizeof_value = ofs).
  { unfold Infix_offset_hd, Bosize_hd, Bsize_wsize. rewrite Es. apply Z.div_mul.
    unfold sizeof_value. now destruct WORD_cases as [-> | ->]. }
  rewrite E, Z.sub_diag. destruct (infix_rank b ofs Hi) as [_ R1]. apply Hrec; auto; [left; auto | now rewrite R1].
Qed.

(** A block tagged [Forward_tag], marked or not. *)
Lemma forward_target_ok seen st b hd : Inv H seen st -> In b D -> hd_of (eheap st) (Ptr b 0) = Ok hd -> Tag_hd hd = Forward_tag ->
  exists t, forward_target (eheap st) (Ptr b 0) = EOk t /\
    match t with Some f => value_ok f /\ (rank H f <= 2)%nat | None => True end.
Proof.
  intros I HbD Hh Ht. pose proof (In_D b HbD) as Hb. destruct (block_of b HbD) as (hd0 & ws0 & E0 & Hz & C).
  destruct (hw_header H Hwf b hd0 ws0 Hb E0) as (_ & _ & Es & _). cbn [hd_of] in Hh. rewrite get_sblock_pos in Hh by auto.
  unfold forward_target. cbn [fld]. rewrite get_sblock_pos by auto. destruct (eheap st b) as [[hd' ws]|] eqn:E; [|discriminate]. injection Hh as ->.
  destruct (block_view seen st b hd ws I Hb E) as [[_ E1]|(_ & _ & hd1 & f0 & c & ws1 & _ & -> & _)].
  - rewrite E1 in E0. injection E0 as <- <-. unfold contents_ok in C. rewrite Ht in C. cbn -[In] in C.
    destruct ws as [|f ws]; [unfold zlen in Es; cbn [length] in Es; lia|]. cbn [Z.add nthZ Z.ltb Z.compare Z.to_nat nth_error of_option read].
    apply Forall_inv in C. destruct (Is_long_val f) eqn:El.
    { exists (Some f). split; [reflexivity|]. destruct f; try discriminate. cbn. auto. }
    destruct f as [w|b' ofs|p|p]; cbn [Is_in_value_area negb]; try (now exists None).
    assert (Hh' : exists fhd, hd_of (eheap st) (Ptr b' ofs) = Ok fhd /\ (Tag_hd fhd <> Forward_tag -> (rank H (Ptr b' ofs) <= 2)%nat)).
    { destruct C as [[-> [HbD'|Hat]]|[HbD' Hinf]].
      - pose proof (In_D b' HbD') as Hb'. destruct (block_of b' HbD') as (fhd & fws & Ef & Hfz & _).
        unfold rank. cbn [hd_of]. rewrite !get_sblock_pos, Ef by auto. destruct (eheap st b') as [[fhd' fws']|] eqn:Ef'.
        + exists fhd'. split; [reflexivity|]. destruct (block_view seen st b' fhd' fws' I Hb' Ef') as [[_ Ev]|(_ & _ & hd2 & f2 & c2 & ws2 & Ev & _ & Tv & _)];
            rewrite Ef in Ev; injection Ev as <- ->; [|rewrite Tv]; intros Ht'; change (0 =? 0) with true; cbv iota; rewrite (proj2 (Z.eqb_neq _ _) Ht'); lia.
        + exfalso. rewrite (inv_heap _ _ _ I) in Ef'. unfold mark in Ef'. rewrite Ef in Ef'. destruct (index b' seen), fws; discriminate.
      - destruct (restorable_object_atom seen st b' I (proj1 Hat)) as (fhd & Ef & Et & _). exists fhd. split; [exact Ef|]. intros Ht'.
        unfold rank. change (hd_of H (Ptr b' 0)) with (hd_of H (Ptr b' 0)). cbn [hd_of] in Ef |- *. unfold get_sblock in *. rewrite (proj2 (Z.ltb_lt b' 0)) in * by lia.
        rewrite Ef, (proj2 (Z.eqb_neq _ _) Ht'). change (0 =? 0) with true. cbv iota. lia.
      - destruct (infix_header seen st b' ofs I Hinf) as (fhd & Ef & _). exists fhd. split; [exact Ef|]. intros _. destruct (infix_rank b' ofs Hinf) as [-> _]. lia. }
    destruct Hh' as (fhd & -> & Hr). cbn [read]. eexists. split; [reflexivity|].
    destruct (Z.eqb_spec (Tag_hd fhd) Forward_tag); [exact Logic.I|]. cbn [orb]. destruct (_ || _); auto.
  - cbn [Z.add nthZ Z.ltb Z.compare Z.to_nat nth_error of_option read Is_long_val Is_in_value_area negb].
    destruct (Is_long c); [exists (Some (Imm c)); cbn; auto | exists None; auto].
Qed.
End Rec.

(** Values that are not in [D]. *)
Lemma ptr_ok_base b ofs : infix_at H b ofs -> ptr_ok H (Ptr b 0).
Proof. intros (Hb & _). left. unfold Num_tags. cbn. lia. Qed.

Lemma forward_target_ptr_ok seen st b hd f : Inv H seen st -> 0 <= b -> hd_of (eheap st) (Ptr b 0) = Ok hd ->
  Tag_hd hd = Forward_tag -> forward_target (eheap st) (Ptr b 0) = EOk (Some f) -> ptr_ok H f.
Proof using Hwf.
  intros I Hb Hh Ht Hf. cbn [hd_of] in Hh. rewrite get_sblock_pos in Hh by auto.
  unfold forward_target in Hf. cbn [fld] in Hf. rewrite get_sblock_pos in Hf by auto.
  destruct (eheap st b) as [[hd' ws]|] eqn:E; [|discriminate]. injection Hh as ->.
  destruct ws as [|w ws]; [discriminate|]. cbn [Z.add nthZ Z.ltb Z.compare Z.to_nat nth_error of_option read] in Hf.
  assert (f = w) as ->.
  { destruct (Is_long_val w); [congruence|]. destruct (negb (Is_in_value_area w)); [discriminate|].
    destruct (hd_of (eheap st) w); try discriminate. cbn [read] in Hf. destruct (_ || _); congruence. }
  destruct (block_view seen st b hd (w :: ws) I Hb E) as [[_ E0]|(_ & _ & hd0 & f0 & c & ws0 & _ & [= -> ->] & _)].
  - pose proof (hw_fields H Hwf b hd (w :: ws) Hb E0) as Hall. rewrite Ht in Hall.
    specialize (Hall ltac:(reflexivity)). now inversion Hall.
  - exact Logic.I.
Qed.

Lemma restorable_int seen st n : Inv H seen st -> restorable seen (extern_int n st).
Proof.
  intros I. unfold extern_int.
  repeat match goal with |- restorable _ (if ?c then _ else _) => destruct c end;
    apply restorable_write'; auto with writers.
Qed.

Lemma restorable_code seen st v : Inv H seen st ->
  restorable seen (extern_code caml_code_size caml_code_checksum extern_closures v st).
Proof.
  intros I. unfold extern_code, extern_invalid_argument. destruct v; try now apply restorable_failure.
  destruct (_ && _); [|now apply restorable_failure].
  destruct (negb extern_closures); [now apply restorable_failure|].
  apply (restorable_write seen _ _ (fun st => write _ st)); auto with writers. intros st' I' _ _.
  apply restorable_write'; auto with writers.
Qed.

Lemma restorable_rec fuel : forall v seen st, value_ok v -> Inv H seen st -> enough (rank H v) seen fuel ->
  restorable seen (extern_rec fuel v st).
Proof.
  induction fuel as [|fuel IH]; intros v seen st Hv I En; cbn [Extern.extern_rec].
  { pose proof (rank_bounds H v). unfold enough in En. cbn. destruct extern_ignore_sharing; auto. specialize (En eq_refl). lia. }
  assert (En0 : enough (pred (rank H v)) seen fuel).
  { intros Ei. specialize (En Ei). pose proof (rank_bounds H v). lia. }
  assert (E0 : enough 0 seen fuel) by (intros Ei; specialize (En0 Ei); lia).
  destruct v as [w|b ofs|p|p]; try now apply restorable_code.
  - destruct (Is_long w); [now apply restorable_int | now apply restorable_code].
  - destruct Hv as [[-> [Hb|Hb]]|[Hb Hi]].
    + destruct (restorable_object_block (extern_rec fuel) fuel IH seen st b I Hb E0) as (hd & Eh & R).
      apply (restorable_read seen _ hd _ Eh). cbv zeta. destruct (Z.eqb_spec (Tag_hd hd) Forward_tag) as [Et|Ht]; [|exact R].
      destruct (forward_target_ok (extern_rec fuel) seen st b hd I Hb Eh Et) as (t & -> & Hf).
      destruct t as [f|]; [|exact R]. destruct Hf as [Hf Hr]. apply IH; auto. intros Ei. specialize (En Ei).
      assert (rank H (Ptr b 0) = 3%nat); [|lia]. pose proof (In_D b Hb) as Hb0. destruct (block_of b Hb) as (hd0 & ws0 & Eb & _).
      unfold rank. cbn [hd_of] in Eh |- *. rewrite !get_sblock_pos, Eb in * by auto. change (0 =? 0) with true in *. cbv iota in *.
      destruct (eheap st b) as [[hd' ws']|] eqn:E'; [|discriminate]. injection Eh as ->.
      destruct (block_view seen st b hd ws' I Hb0 E') as [[_ Ev]|(_ & _ & hd2 & f2 & c2 & ws2 & Ev & _ & Tv & _)];
        rewrite Eb in Ev; injection Ev as <- ->; [|rewrite <- Tv]; now rewrite Et.
    + destruct (restorable_object_atom (extern_rec fuel) seen st b I (proj1 Hb)) as (hd & Eh & Et & R).
      apply (restorable_read seen _ hd _ Eh). cbv zeta. destruct Hb as [_ Hf]. rewrite Et at 1. now rewrite (proj2 (Z.eqb_neq _ _) Hf).
    + destruct (infix_header seen st b ofs I Hi) as (hd & Eh & Et & Es & Ec). apply (restorable_read seen _ hd _ Eh). cbv zeta.
      rewrite Et at 1. change (Infix_tag =? Forward_tag) with false. cbv iota. destruct (infix_rank b ofs Hi) as [R2 _]. rewrite R2 in En0.
      now apply (restorable_object_infix (extern_rec fuel) fuel IH).
Qed.

Lemma Inv_init o : Inv H [] (Ext o H 0 0 0 [] []).
Proof.
  split; [intros x; reflexivity | constructor | constructor | reflexivity |].
  cbn [obj_counter length]. unfold wrap. change (Z.of_nat 0) with 0. now rewrite Z.mod_0_l by (apply Z.pow_nonzero; pose proof WORD_pos; lia).
Qed.
End Restore.

(** C13. Marshalling leaves the heap as it found it: although [extern_rec] puts a
    forwarding pointer in every object it emits, changing its colour and
    overwriting its first field, after [extern_value] every block of the heap
    has its header and fields back, when the call succeeds and when it raises
    an exception of its own (abstract, functional or unmarshallable custom
    value, buffer overflow, object too big).  The exceptions that a serializer
    raises are not among them: [extern_value] does not see them.  On a closed
    graph of blocks [D] of any kinds, cyclic or not, the call always ends, with
    three calls of [extern_rec] for each block, unless sharing is ignored. *)
Theorem extern_value_restores_heap {A : Arch} {F : FloatArch} custom_at code_size checksum no_sharing closures
    junk fuel v o H D :
  heap_wf H -> closed custom_at H D -> value_ok H D v -> (3 * length D + 3 <= fuel)%nat ->
  match extern_value custom_at code_size checksum no_sharing closures junk fuel v o H with
  | EOk (_, _, h) => heap_eq h H
  | ERaise e h => heap_eq h H \/ foreign custom_at e
  | EStuck => no_sharing = true
  end.
Proof.
  intros Hwf HD Hv Hf. unfold extern_value.
  set (rest := fun st => extern_rec custom_at code_size checksum no_sharing closures fuel v
                           (set_eout (put junk (eout st)) st)).
  assert (R : restorable custom_at no_sharing H [] (let? st := write (write32 Intext_magic_number) (Ext o H 0 0 0 [] []) in rest st)).
  { apply (restorable_write custom_at no_sharing H [] _ _ rest); auto with writers; [apply Inv_init|]. intros st I _ _.
    apply (restorable_rec custom_at _ _ _ _ H Hwf D HD fuel v []); auto; [now apply Inv_eout|].
    intros _. rewrite rem_nil. pose proof (rank_bounds H v). lia. }
  destruct (write _ _) as [st|e h|]; auto. cbv zeta. fold (rest st).
  destruct (rest st) as [st'|e h|]; auto. destruct R as [seen I].
  destruct (replay_trail_ok H _ st' I) as (h & -> & Hh). cbn [read].
  destruct (_ && _); [now left | exact Hh].
Qed.

(** ** Examples *)

(** A tuple that contains itself, a string, and a block of tag [t] with one
    raw word. *)
Definition example_heap (t : Z) : sheap :=
  heap_of [SBlock (@Make_header arch64 3 0 Caml_white) [Ptr 0 0; Ptr 1 0; Ptr 2 0];
           SBlock (@Make_header arch64 1 String_tag Caml_black) [Imm 0x0500000000006968];
           SBlock (@Make_header arch64 1 t Caml_black) [Imm 4618441417868443648]].

Lemma example_heap_wf t : t = Abstract_tag \/ t = Double_tag -> @heap_wf arch64 (example_heap t).
Proof.
  intros Ht.
  assert (C : forall b hd ws, 0 <= b -> example_heap t b = Some (SBlock hd ws) ->
    (b = 0 \/ b = 1 \/ b = 2)).
  { intros b hd ws Hb E. unfold example_heap, heap_of, nthZ in E. destruct (b <? 0); [discriminate|].
    destruct (Z.to_nat b) as [|[|[|n]]] eqn:Eb; try lia. destruct n; discriminate. }
  split; intros b hd ws Hb E; destruct (C b hd ws Hb E) as [-> | [-> | ->]]; destruct Ht as [-> | ->]; injection E as <- <-.
  1-6: split; [split; [vm_compute; discriminate | reflexivity]|]; conj; try reflexivity; vm_compute; discriminate.
  1-2: intros _; repeat constructor; vm_compute; discriminate.
  all: intros Ht; vm_compute in Ht; discriminate.
Qed.

Lemma example_heap_closed : closed (A := arch64) no_custom (example_heap Abstract_tag) [0; 1; 2].
Proof.
  intros b Hb. destruct Hb as [<-|[<-|[<-|[]]]]; (split; [lia|]); eexists _, _; (split; [reflexivity|]); (split; [reflexivity|]).
  - repeat constructor; vm_compute; tauto.
  - eexists _, _. split; [vm_compute; reflexivity | vm_compute; reflexivity].
  - exact I.
Qed.

(** Marshalling a structure that holds an abstract value fails half-way and
    restores the objects already emitted. *)
Lemma extern_value_restores_witness :
  exists h, @extern_value arch64 little_floats no_custom 100 [] false false (repeat 0 16) 12 (Ptr 0 0)
              init_extern_output (example_heap Abstract_tag)
            = ERaise (Invalid_argument "output_value: abstract value (Abstract)") h /\
    heap_eq h (example_heap Abstract_tag).
Proof.
  pose proof (extern_value_restores_heap (A := arch64) (F := little_floats) no_custom 100 [] false false
    (repeat 0 16) 12 (Ptr 0 0) init_extern_output (example_heap Abstract_tag) [0; 1; 2]
    (example_heap_wf _ (or_introl eq_refl)) example_heap_closed) as R.
  destruct (extern_value _ _ _ _ _ _ _ _ _ _) as [x|e h|] eqn:E.
  - vm_compute in E. discriminate.
  - exists h. split.
    + f_equal. vm_compute in E. injection E as <- _. reflexivity.
    + destruct R as [R|(p & ops & _ & _ & _ & K & _)]; [left; cbn; auto | cbn; lia | exact R | discriminate K].
  - vm_compute in E. discriminate.
Defined.
