(* ===== verification/MarshalDump.v ===== *)
(** MarshalDump: what [extern_rec] computes: a depth-first traversal of the
    graph of a value, as a sequence of tokens and of their encodings.  The
    marks in the heap, the trail and the counter of the implementation are
    replaced by the list of the blocks already seen. *)
From Stdlib Require Import ZArith Lia Bool Ascii String List.
From S2P Require Import Prelude Mlvalues InterpState InterpCalls ExternOutput InternInput Custom MarshalHeap Extern MarshalTrail MarshalRestore.
Import ListNotations.
Local Open Scope Z_scope.

(** ** Tokens *)

Inductive token :=
  | TInt (n : Z)
  | TAtom (hd : Z)
  | TShared (d : Z)
  | TString (bs : list Z)
  | TDouble (bs : list Z)
  | TDoubles (n : Z) (bs : list Z)
  | TBlock (hd : Z)
  | TInfix (ofs : Z)
  | TCode (p : Z).

(** Words taken by the object on a machine with [w] bytes in a word, and
    number of objects. *)
Definition tok_words (w : Z) (t : token) : Z :=
  match t with
  | TString bs => 1 + (len bs + w) / w
  | TDouble _ => 1 + 8 / w
  | TDoubles n _ => 1 + n * (8 / w)
  | TBlock hd => 1 + Wosize_hd hd
  | _ => 0
  end.
Definition tok_objs (t : token) : Z :=
  match t with TString _ | TDouble _ | TDoubles _ _ | TBlock _ => 1 | _ => 0 end.
Fixpoint sum (f : token -> Z) (ts : list token) : Z :=
  match ts with [] => 0 | t :: ts => f t + sum f ts end.

Lemma sum_app f ts1 ts2 : sum f (ts1 ++ ts2) = sum f ts1 + sum f ts2.
Proof. induction ts1; cbn [sum app]; lia. Qed.

Section Tokens.
Context {A : Arch} {F : FloatArch}.
Variable caml_code_checksum : list Z.

Definition enc (t : token) : list Z :=
  match t with
  | TInt n =>
      if (0 <=? n) && (n <? 0x40) then [byte (PREFIX_SMALL_INT + n)]
      else if (- 2 ^ 7 <=? n) && (n <? 2 ^ 7) then byte CODE_INT8 :: be_bytes 1 n
      else if (- 2 ^ 15 <=? n) && (n <? 2 ^ 15) then byte CODE_INT16 :: be_bytes 2 n
      else if ARCH_SIXTYFOUR && ((n <? - 2 ^ 31) || (2 ^ 31 <=? n)) then byte CODE_INT64 :: be_bytes 8 n
      else byte CODE_INT32 :: be_bytes 4 n
  | TAtom hd =>
      if Tag_hd hd <? 16 then [byte (PREFIX_SMALL_BLOCK + Tag_hd hd)] else byte CODE_BLOCK32 :: be_bytes 4 hd
  | TShared d =>
      if d <? 0x100 then byte CODE_SHARED8 :: be_bytes 1 d
      else if d <? 0x10000 then byte CODE_SHARED16 :: be_bytes 2 d
      else byte CODE_SHARED32 :: be_bytes 4 d
  | TString bs =>
      (if len bs <? 0x20 then [byte (PREFIX_SMALL_STRING + len bs)]
       else if len bs <? 0x100 then byte CODE_STRING8 :: be_bytes 1 (len bs)
       else byte CODE_STRING32 :: be_bytes 4 (len bs)) ++ bs
  | TDouble bs => byte CODE_DOUBLE_NATIVE :: bs
  | TDoubles n bs =>
      (if n <? 0x100 then byte CODE_DOUBLE_ARRAY8_NATIVE :: be_bytes 1 n
       else byte CODE_DOUBLE_ARRAY32_NATIVE :: be_bytes 4 n) ++ bs
  | TBlock hd =>
      if (Tag_hd hd <? 16) && (Wosize_hd hd <? 8)
      then [byte (PREFIX_SMALL_BLOCK + Tag_hd hd + Z.shiftl (Wosize_hd hd) 4)]
      else if ARCH_SIXTYFOUR && (Z.shiftl 1 32 <=? hd) then byte CODE_BLOCK64 :: be_bytes 8 (Whitehd_hd hd)
      else byte CODE_BLOCK32 :: be_bytes 4 (Whitehd_hd hd)
  | TInfix ofs => byte CODE_INFIXPOINTER :: be_bytes 4 ofs
  | TCode p => (byte CODE_CODEPOINTER :: be_bytes 4 (4 * p)) ++ caml_code_checksum
  end.
Definition encs (ts : list token) : list Z := concat (map enc ts).

Lemma encs_app ts1 ts2 : encs (ts1 ++ ts2) = encs ts1 ++ encs ts2.
Proof. unfold encs. now rewrite map_app, concat_app. Qed.

(** ** The traversal *)

Variable caml_code_size : Z.
Variable extern_closures : bool.
Variable H : sheap.

Definition of_res {T} (r : res T) : option T := match r with Ok x => Some x | _ => None end.

Fixpoint dump_list (rec : value -> list Z -> option (list token * list Z)) (l : list value) (seen : list Z) :
    option (list token * list Z) :=
  match l with
  | [] => Some ([], seen)
  | v :: l =>
      let* (ts1, seen) := rec v seen in
      let* (ts2, seen) := dump_list rec l seen in
      Some (ts1 ++ ts2, seen)
  end.

(** The contents of block [b], not seen before. *)
Definition dump_block (rec : value -> list Z -> option (list token * list Z)) (b hd : Z) (seen : list Z) :
    option (list token * list Z) :=
  let v := Ptr b 0 in
  let tag := Tag_hd hd in
  let seen' := seen ++ [b] in
  if tag =? String_tag then
    let* n := of_res (caml_string_length H v) in
    let* bs := of_res (if 0 <=? n then bytes_at H v 0 (Z.to_nat n) else Stuck) in
    Some ([TString bs], seen')
  else if tag =? Double_tag then
    let* bs := of_res (bytes_at H v 0 8) in Some ([TDouble bs], seen')
  else if tag =? Double_array_tag then
    let n := Wosize_hd hd / Double_wosize in
    let* bs := of_res (bytes_at H v 0 (Z.to_nat (n * 8))) in Some ([TDoubles n bs], seen')
  else if (tag =? Abstract_tag) || (tag =? Infix_tag) || (tag =? Custom_tag) then None
  else
    let* blk := H b in
    let* (ts, seen'') := dump_list rec (swords blk) seen' in
    Some (TBlock hd :: ts, seen'').

Fixpoint dump (fuel : nat) (v : value) (seen : list Z) : option (list token * list Z) :=
  match fuel with
  | O => None
  | S fuel =>
      match v with
      | Imm w => if Is_long w then Some ([TInt (Long_val w)], seen) else None
      | Cptr p => if (0 <=? p) && (p <? caml_code_size) && extern_closures then Some ([TCode p], seen) else None
      | Sptr _ => None
      | Ptr b ofs =>
          let* hd := of_res (hd_of H v) in
          if Tag_hd hd =? Forward_tag then
            match forward_target H v with EOk (Some f) => dump fuel f seen | _ => None end
          else if Wosize_hd hd =? 0 then Some ([TAtom hd], seen)
          else if ofs =? 0 then
            match index b seen with
            | Some i => Some ([TShared (Z.of_nat (length seen) - Z.of_nat i)], seen)
            | None => if 0 <=? b then dump_block (dump fuel) b hd seen else None
            end
          else
            let* (ts, seen) := dump fuel (Ptr b (ofs - Infix_offset_hd hd / sizeof_value)) seen in
            Some (TInfix (Infix_offset_hd hd) :: ts, seen)
      end
  end.

(** ** The blocks seen *)

(** None of them is a forwarding block: those are short-circuited. *)
Definition plain (seen : list Z) : Prop :=
  forall b hd ws, In b seen -> H b = Some (SBlock hd ws) -> Tag_hd hd <> Forward_tag.

Definition grows (rec : value -> list Z -> option (list token * list Z)) : Prop :=
  forall v seen ts seen', rec v seen = Some (ts, seen') -> (exists s, seen' = seen ++ s) /\ (plain seen -> plain seen').

Lemma dump_list_grows rec : grows rec ->
  forall l seen ts seen', dump_list rec l seen = Some (ts, seen') ->
  (exists s, seen' = seen ++ s) /\ (plain seen -> plain seen').
Proof.
  intros Hr. induction l as [|v l IH]; cbn [dump_list]; intros seen ts seen'.
  - intros [= _ <-]. split; auto. exists []. now rewrite app_nil_r.
  - destruct (rec v seen) as [[ts1 seen1]|] eqn:E1; [|discriminate].
    destruct (dump_list rec l seen1) as [[ts2 seen2]|] eqn:E2; [|discriminate]. intros [= _ <-].
    destruct (Hr _ _ _ _ E1) as [[s1 ->] P1]. destruct (IH _ _ _ E2) as [[s2 ->] P2].
    split; auto. exists (s1 ++ s2). now rewrite app_assoc.
Qed.

Lemma plain_snoc seen b hd : hd_of H (Ptr b 0) = Ok hd -> Tag_hd hd <> Forward_tag -> 0 <= b ->
  plain seen -> plain (seen ++ [b]).
Proof.
  intros Hh Ht Hb P x hd' ws Hx E. apply in_app_or in Hx as [Hx|[->|[]]]; [eauto|].
  cbn [hd_of] in Hh. rewrite get_sblock_pos, E in Hh by auto. cbn in Hh. congruence.
Qed.

Lemma dump_block_grows rec b hd seen ts seen' : grows rec -> hd_of H (Ptr b 0) = Ok hd ->
  Tag_hd hd <> Forward_tag -> 0 <= b -> dump_block rec b hd seen = Some (ts, seen') ->
  (exists s, seen' = (seen ++ [b]) ++ s) /\ (plain seen -> plain seen').
Proof.
  intros Hr Hh Ht Hb. unfold dump_block. pose proof (plain_snoc seen b hd Hh Ht Hb) as P.
  destruct (_ =? _); [|destruct (_ =? _); [|destruct (_ =? _); [|destruct (_ || _)]]].
  - destruct (of_res _); [|discriminate]. destruct (of_res _); [|discriminate]. intros [= _ <-]. split; auto.
    exists []. now rewrite app_nil_r.
  - destruct (of_res _); [|discriminate]. intros [= _ <-]. split; auto. exists []. now rewrite app_nil_r.
  - destruct (of_res _); [|discriminate]. intros [= _ <-]. split; auto. exists []. now rewrite app_nil_r.
  - discriminate.
  - destruct (H b) as [blk|]; [|discriminate].
    destruct (dump_list rec (swords blk) (seen ++ [b])) as [[ts' s']|] eqn:E; [|discriminate].
    intros [= _ <-]. destruct (dump_list_grows rec Hr _ _ _ _ E) as [G P']. auto.
Qed.

Lemma dump_grows fuel : grows (dump fuel).
Proof.
  induction fuel as [|fuel IH]; intros v seen ts seen'; cbn [dump]; [discriminate|].
  assert (K : forall ts0, Some (ts0, seen) = Some (ts, seen') -> (exists s, seen' = seen ++ s) /\ (plain seen -> plain seen')).
  { intros ts0 [= _ <-]. split; auto. exists []. now rewrite app_nil_r. }
  destruct v as [w|b ofs|p|p]; [destruct (Is_long w); [apply K | discriminate]| |
    destruct (_ && _); [apply K | discriminate] | discriminate].
  destruct (hd_of H (Ptr b ofs)) as [hd| |] eqn:Eh; cbn [of_res]; [|discriminate..].
  destruct (Z.eqb_spec (Tag_hd hd) Forward_tag) as [_|Ht].
  { destruct (forward_target H (Ptr b ofs)) as [[f|]| |]; [apply IH | discriminate..]. }
  destruct (Z.eqb_spec (Wosize_hd hd) 0) as [_|Hz]; [apply K|].
  destruct (Z.eqb_spec ofs 0) as [->|Ho].
  - destruct (index b seen); [apply K|]. destruct (Z.leb_spec 0 b) as [Hb|]; [|discriminate]. intros E.
    destruct (dump_block_grows (dump fuel) b hd seen ts seen' IH Eh Ht Hb E) as [[s ->] P].
    split; auto. exists ([b] ++ s). now rewrite app_assoc.
  - destruct (dump fuel _ seen) as [[ts1 seen1]|] eqn:E1; [|discriminate]. intros [= _ <-].
    now apply (IH _ _ _ _ E1).
Qed.
End Tokens.
