(* ===== verification/MarshalDecode.v ===== *)
(** MarshalDecode: [intern_rec] recognises the encoding of each token, whatever
    the word size and endianness of the machine that wrote it. *)
From Stdlib Require Import ZArith Lia Bool Ascii String List.
From S2P Require Import Prelude Mlvalues InterpState InterpCalls ExternOutput InternInput Custom MarshalHeap Extern Intern MarshalBytes MarshalTrail MarshalRestore MarshalDump.
Import ListNotations.
Local Open Scope Z_scope.

(** Headers without colour. *)
Lemma Whitehd_eq {A : Arch} hd : header_ok hd -> Whitehd_hd hd = hd / 1024 * 1024 + hd mod 256.
Proof.
  intros Hh. pose proof WORD_pos.
  assert (E : hd / 1024 * 1024 + hd mod 256 = Z.lor (Z.shiftl (Z.shiftr hd 10) 10) (Z.land hd (Z.ones 8))).
  { assert (D : Z.land (Z.shiftl (Z.shiftr hd 10) 10) (Z.land hd (Z.ones 8)) = 0).
    { apply Z.bits_inj'. intros i Hi. rewrite Z.bits_0, Z.land_spec, Z.land_spec, Z.testbit_ones by lia.
      destruct (Z_lt_ge_dec i 8).
      - now rewrite Z.shiftl_spec_low by lia.
      - rewrite (proj2 (Z.ltb_ge i 8)), !andb_false_r by lia. reflexivity. }
    rewrite <- Z.lxor_lor, <- Z.add_nocarry_lxor by exact D.
    now rewrite Z.land_ones, Z.shiftl_mul_pow2, Z.shiftr_div_pow2 by lia. }
  rewrite E. unfold Whitehd_hd. apply Z.bits_inj'. intros i Hi.
  rewrite Z.land_spec, Z.lor_spec, Z.shiftl_spec, Z.land_spec, Z.testbit_ones by lia.
  rewrite (proj2 (Z.leb_le 0 i)) by lia. cbn [andb].
  destruct (Z_lt_ge_dec i WORD) as [Hw|Hw].
  - rewrite color_mask, black_bits by lia. destruct (Z_lt_ge_dec i 8).
    + rewrite (Z.testbit_neg_r _ (i - 10)), (proj2 (Z.ltb_lt i 8)) by lia. cbn [orb].
      destruct (Z.eqb_spec i 8), (Z.eqb_spec i 9); try lia; auto.
    + rewrite (proj2 (Z.ltb_ge i 8)), andb_false_r, orb_false_r by lia.
      destruct (Z_lt_ge_dec i 10).
      * rewrite (Z.testbit_neg_r _ (i - 10)) by lia.
        destruct (Z.eqb_spec i 8), (Z.eqb_spec i 9); try lia; apply andb_false_r.
      * rewrite Z.shiftr_spec by lia. replace (i - 10 + 10) with i by lia.
        destruct (Z.eqb_spec i 8), (Z.eqb_spec i 9); try lia; apply andb_true_r.
  - rewrite (header_high hd i Hh) by lia. cbn [andb]. rewrite orb_false_r, Z.shiftr_spec by lia.
    rewrite (header_high hd) by (auto; lia). reflexivity.
Qed.

Lemma Whitehd_fields {A : Arch} hd : header_ok hd ->
  Tag_hd (Whitehd_hd hd) = Tag_hd hd /\ Wosize_hd (Whitehd_hd hd) = Wosize_hd hd /\ 0 <= Whitehd_hd hd <= hd.
Proof.
  intros Hh. rewrite Whitehd_eq by auto. rewrite !Tag_hd_mod, !Wosize_hd_div. destruct Hh as [H0 _].
  pose proof (Z.mod_pos_bound hd 256 ltac:(lia)). pose proof (Z.div_mod hd 256 ltac:(lia)).
  pose proof (Z.div_mod hd 1024 ltac:(lia)). pose proof (Z.mod_pos_bound hd 1024 ltac:(lia)).
  assert (hd mod 1024 mod 256 = hd mod 256).
  { change 1024 with (256 * 4). rewrite Z.rem_mul_r by lia. rewrite Z.mul_comm, Z.mod_add by lia. apply Z.mod_mod. lia. }
  assert (hd mod 256 <= hd mod 1024) by (rewrite <- H4; apply Z.mod_le; lia).
  assert (0 <= hd / 1024) by (apply Z.div_pos; lia). conj; try lia.
  - replace (hd / 1024 * 1024) with (hd / 1024 * 4 * 256) by lia. rewrite Z.add_comm, Z.mod_add by lia.
    apply Z.mod_mod. lia.
  - rewrite Z.div_add_l by lia. rewrite (Z.div_small (hd mod 256)) by lia. lia.
Qed.

(** ** Tokens that mean the same on the two machines *)

Definition tok_fits (A1 A2 : Arch) (t : token) : Prop :=
  match t with
  | TInt n => @Min_long A1 <= n <= @Max_long A1 /\ @Min_long A2 <= n <= @Max_long A2
  | TAtom hd => 0 <= hd < 256
  | TShared d => 0 < d < 2 ^ 32
  | TString bs => len bs < 2 ^ 32 /\ @string_words A2 (len bs) <= @Max_wosize A2 /\ Forall is_byte bs
  | TDouble bs => len bs = 8 /\ Forall is_byte bs
  | TDoubles n bs => 0 < n < 2 ^ 32 /\ n * @Double_wosize A2 <= @Max_wosize A2 /\ len bs = 8 * n /\ Forall is_byte bs
  | TBlock hd => @header_ok A1 hd /\ 0 < Wosize_hd hd <= @Max_wosize A2
  | TInfix ofs => 0 <= ofs < 2 ^ 32 /\ @WORD A1 = @WORD A2
  | TCode p => 0 <= p < 2 ^ 30
  end.

Section Decode.
Context {A1 : Arch} {F1 : FloatArch} {A2 : Arch} {F2 : FloatArch}.
Variable custom_at : Z -> option custom_operations.
Variable custom_ops_table : list Z.
Variable checksum : list Z.
Variable intern_color : Z.
Hypothesis checksum_length : length checksum = 16%nat.

Notation intern_rec := (@intern_rec A2 F2 custom_at custom_ops_table checksum intern_color).

(** What the reader does for a token, with the bytes [data ++ rest] left. *)
Definition read_token (rec : destination -> int_state -> res int_state) (t : token) (dest : destination)
    (rest : list Z) (st : int_state) : res int_state :=
  match t with
  | TInt n => store dest (Imm (Val_long n)) (set_isrc rest st)
  | TAtom hd => store dest (Atom (Tag_hd hd)) (set_isrc rest st)
  | TShared d => read_shared d dest (set_isrc rest st)
  | TString bs => read_string intern_color (len bs) dest (set_isrc (bs ++ rest) st)
  | TDouble bs => read_double intern_color (@float_big_endian F1) dest (set_isrc (bs ++ rest) st)
  | TDoubles n bs => read_double_array intern_color n (@float_big_endian F1) dest (set_isrc (bs ++ rest) st)
  | TBlock hd => read_block intern_color rec (Tag_hd hd) (Wosize_hd hd) dest (set_isrc rest st)
  | TInfix ofs =>
      let! st' := rec Var (set_isrc rest st) in
      match ivar st' with
      | Ptr b a =>
          if ofs mod sizeof_value =? 0
          then store dest (Ptr b (a + ofs / sizeof_value)) (set_ivar (ivar st) st') else Stuck
      | _ => Stuck
      end
  | TCode p => store dest (Cptr p) (set_isrc rest st)
  end.

Definition decodes (t : token) : Prop := forall fuel dest rest st, isrc st = @enc A1 F1 checksum t ++ rest ->
  intern_rec (S fuel) dest st = read_token (intern_rec fuel) t dest rest st.

(** [isrc] is read before anything else. *)
Lemma set_isrc_twice a b st : set_isrc a (set_isrc b st) = set_isrc a st.
Proof. reflexivity. Qed.

Lemma long_sint {A : Arch} n : Min_long <= n <= Max_long -> sint (WORD - 1) n.
Proof.
  rewrite Max_long_eq, Min_long_eq. unfold sint. replace (WORD - 1 - 1) with (WORD - 2) by lia. lia.
Qed.

(** The case of a code byte known in advance. *)
Lemma dispatch c src fuel dest st (k : int_state -> res int_state) : isrc st = byte c :: src ->
  (forall st0, isrc st0 = byte c :: src -> intern_rec (S fuel) dest st0 = k (set_isrc src st0)) ->
  intern_rec (S fuel) dest st = k (set_isrc src st).
Proof. auto. Qed.
Ltac dispatch k Es := rewrite (dispatch _ _ _ _ _ k Es); [|intros ? Ex; cbn [Intern.intern_rec]; rewrite Ex; reflexivity].

Ltac small_code Es :=
  cbn [Intern.intern_rec]; rewrite Es; cbn [app read8u];
  unfold byte, PREFIX_SMALL_INT, PREFIX_SMALL_BLOCK, PREFIX_SMALL_STRING.
Ltac finish_reading spec := unfold reading; cbn [isrc set_isrc]; rewrite spec; cbn [InternInput.input].

Lemma decodes_int n : tok_fits A1 A2 (TInt n) -> decodes (TInt n).
Proof.
  intros [R1 R2] fuel dest rest st Es. cbn [enc] in Es. cbn [read_token].
  apply (long_sint (A := A1)) in R1. apply (long_sint (A := A2)) in R2. unfold sint in R1, R2.
  set (k := fun n => store dest (Imm (Val_long n))).
  destruct ((0 <=? n) && (n <? 64)) eqn:E6.
  { small_code Es. rewrite wrap_small, (proj2 (Z.leb_le _ _)), (proj2 (Z.leb_gt _ _)) by lia.
    replace (Z.land (64 + n) 63) with n; auto.
    change 63 with (Z.ones 6). rewrite Z.land_ones by lia.
    change 64 with (1 * 2 ^ 6). rewrite Z.add_comm, Z.mod_add by lia. now rewrite Z.mod_small by lia. }
  destruct ((- 2 ^ 7 <=? n) && (n <? 2 ^ 7)) eqn:E8; [|destruct ((- 2 ^ 15 <=? n) && (n <? 2 ^ 15)) eqn:E16;
    [|destruct (@ARCH_SIXTYFOUR A1) eqn:S1; [destruct ((n <? - 2 ^ 31) || (2 ^ 31 <=? n)) eqn:E32|]]];
    cbn [andb] in Es; rewrite <- app_comm_cons in Es.
  - dispatch (reading read8s k) Es. finish_reading (read8s_spec n rest).
    rewrite swrap_small by (change (8 - 1) with 7; lia). reflexivity.
  - dispatch (reading read16s k) Es. finish_reading (read16s_spec n rest).
    rewrite swrap_small by (change (16 - 1) with 15; lia). reflexivity.
  - assert (S2 : @ARCH_SIXTYFOUR A2 = true).
    { destruct (@ARCH_SIXTYFOUR A2) eqn:S2; auto. exfalso. unfold WORD in R2. rewrite S2 in R2.
      change (32 - 1 - 1) with 30 in R2. lia. }
    dispatch (fun st => if ARCH_SIXTYFOUR then reading read64s k st
                        else Raise (Failure "input_value: integer too large")) Es.
    rewrite S2. finish_reading (read64s_spec n rest ltac:(unfold WORD; now rewrite S2)).
    rewrite swrap_small; [reflexivity | lia |]. unfold WORD in R2. rewrite S2 in R2.
    change (64 - 1 - 1) with 62 in R2. change (64 - 1) with 63. lia.
  - dispatch (reading read32s k) Es. finish_reading (read32s_spec n rest).
    rewrite swrap_small by (change (32 - 1) with 31; lia). reflexivity.
  - dispatch (reading read32s k) Es. finish_reading (read32s_spec n rest).
    unfold WORD in R1. rewrite S1 in R1. change (32 - 1 - 1) with 30 in R1.
    rewrite swrap_small by (change (32 - 1) with 31; lia). reflexivity.
Qed.

Lemma decodes_shared d : tok_fits A1 A2 (TShared d) -> decodes (TShared d).
Proof.
  intros R fuel dest rest st Es. cbn [enc tok_fits] in *. cbn [read_token].
  destruct (Z.ltb_spec d 256); [|destruct (Z.ltb_spec d 65536)]; rewrite <- app_comm_cons in Es.
  - dispatch (reading read8u (fun ofs => read_shared ofs dest)) Es. finish_reading (read8u_spec d rest).
    now rewrite wrap_small by lia.
  - dispatch (reading read16u (fun ofs => read_shared ofs dest)) Es. finish_reading (read16u_spec d rest).
    now rewrite wrap_small by lia.
  - dispatch (reading read32u (fun ofs => read_shared ofs dest)) Es. finish_reading (read32u_spec d rest).
    now rewrite wrap_small by lia.
Qed.

Lemma land_add_high x c k : 0 <= k -> 0 <= x < 2 ^ k -> Z.land (c * 2 ^ k + x) (Z.ones k) = x.
Proof.
  intros Hk Hx. rewrite Z.land_ones, Z.add_comm, Z.mod_add by (try apply Z.pow_nonzero; lia).
  now rewrite Z.mod_small.
Qed.

Lemma decodes_string bs : tok_fits A1 A2 (TString bs) -> decodes (TString bs).
Proof.
  intros [R _] fuel dest rest st Es. cbn [enc tok_fits] in *. cbn [read_token]. pose proof (len_nonneg bs).
  destruct (Z.ltb_spec (len bs) 32); [|destruct (Z.ltb_spec (len bs) 256)];
    rewrite <- app_assoc in Es; rewrite <- app_comm_cons in Es.
  - small_code Es. rewrite wrap_small, (proj2 (Z.leb_gt 64 _)), (proj2 (Z.leb_le _ _)) by lia.
    replace (Z.land (32 + len bs) 31) with (len bs); auto.
    symmetry. apply (land_add_high (len bs) 1 5); lia.
  - dispatch (reading read8u (fun n => read_string intern_color n dest)) Es.
    finish_reading (read8u_spec (len bs) (bs ++ rest)). now rewrite wrap_small by lia.
  - dispatch (reading read32u (fun n => read_string intern_color n dest)) Es.
    finish_reading (read32u_spec (len bs) (bs ++ rest)). now rewrite wrap_small by lia.
Qed.

Lemma decodes_double bs : decodes (TDouble bs).
Proof.
  intros fuel dest rest st Es. cbn [enc] in Es. cbn [read_token]. unfold CODE_DOUBLE_NATIVE in Es.
  rewrite <- app_comm_cons in Es. destruct (@float_big_endian F1).
  - dispatch (read_double intern_color true dest) Es. reflexivity.
  - dispatch (read_double intern_color false dest) Es. reflexivity.
Qed.

Lemma decodes_doubles n bs : tok_fits A1 A2 (TDoubles n bs) -> decodes (TDoubles n bs).
Proof.
  intros [R _] fuel dest rest st Es. cbn [enc] in Es. cbn [read_token].
  unfold CODE_DOUBLE_ARRAY8_NATIVE, CODE_DOUBLE_ARRAY32_NATIVE in Es. rewrite <- app_assoc in Es.
  destruct (Z.ltb_spec n 256); rewrite <- app_comm_cons in Es; destruct (@float_big_endian F1).
  - dispatch (reading read8u (fun n => read_double_array intern_color n true dest)) Es.
    finish_reading (read8u_spec n (bs ++ rest)). now rewrite wrap_small by lia.
  - dispatch (reading read8u (fun n => read_double_array intern_color n false dest)) Es.
    finish_reading (read8u_spec n (bs ++ rest)). now rewrite wrap_small by lia.
  - dispatch (reading read32u (fun n => read_double_array intern_color n true dest)) Es.
    finish_reading (read32u_spec n (bs ++ rest)). now rewrite wrap_small by lia.
  - dispatch (reading read32u (fun n => read_double_array intern_color n false dest)) Es.
    finish_reading (read32u_spec n (bs ++ rest)). now rewrite wrap_small by lia.
Qed.

Lemma decodes_code p : tok_fits A1 A2 (TCode p) -> decodes (TCode p).
Proof.
  intros R fuel dest rest st Es. cbn [enc tok_fits] in *. cbn [read_token].
  rewrite <- app_assoc in Es. rewrite <- app_comm_cons in Es.
  dispatch (read_code checksum dest) Es. unfold read_code. cbn [isrc set_isrc].
  rewrite read32u_spec, wrap_small by lia. unfold readblock.
  rewrite length_app, checksum_length, (proj2 (Nat.leb_le _ _)) by lia.
  rewrite <- checksum_length, firstn_app, skipn_app, Nat.sub_diag, firstn_all, skipn_all. cbn [firstn skipn app].
  rewrite app_nil_r. unfold zlist_eqb. destruct (list_eq_dec Z.eq_dec checksum checksum); [|congruence]. cbn [negb].
  rewrite (Z.mul_comm 4 p), Z.mod_mul, Z.div_mul by lia. reflexivity.
Qed.

Lemma decodes_infix ofs : tok_fits A1 A2 (TInfix ofs) -> decodes (TInfix ofs).
Proof.
  intros [R _] fuel dest rest st Es. cbn [enc tok_fits] in *. cbn [read_token]. rewrite <- app_comm_cons in Es.
  dispatch (read_infix (intern_rec fuel) dest) Es. unfold read_infix. cbn [isrc set_isrc].
  rewrite read32u_spec, wrap_small by lia. reflexivity.
Qed.

Lemma decodes_atom hd : tok_fits A1 A2 (TAtom hd) -> decodes (TAtom hd).
Proof.
  intros R fuel dest rest st Es. cbn [enc tok_fits] in *. cbn [read_token].
  assert (Et : Tag_hd hd = hd) by (rewrite Tag_hd_mod; apply Z.mod_small; lia). rewrite Et in *.
  destruct (Z.ltb_spec hd 16).
  - small_code Es. rewrite wrap_small, !(proj2 (Z.leb_le _ _)) by lia.
    replace (Z.land (128 + hd) 15) with hd by (symmetry; apply (land_add_high hd 8 4); lia).
    replace (Z.land (Z.shiftr (128 + hd) 4) 7) with 0; [reflexivity|].
    rewrite Z.shiftr_div_pow2 by lia. replace ((128 + hd) / 2 ^ 4) with 8; [reflexivity|].
    apply Z.div_unique with hd; lia.
  - rewrite <- app_comm_cons in Es.
    dispatch (reading read32u (fun header => read_block intern_color (intern_rec fuel) (Tag_hd header) (Wosize_hd header) dest)) Es.
    finish_reading (read32u_spec hd rest). rewrite wrap_small by lia. rewrite Et.
    unfold read_block. replace (Wosize_hd hd) with 0; [reflexivity|].
    rewrite Wosize_hd_div. symmetry. apply Z.div_small. lia.
Qed.

Lemma decodes_block hd : tok_fits A1 A2 (TBlock hd) -> decodes (TBlock hd).
Proof.
  intros [Hh Hs] fuel dest rest st Es. cbn [enc] in Es. cbn [read_token].
  destruct (@Whitehd_fields A1 hd Hh) as (W1 & W2 & W3). pose proof (proj1 Hh) as Hpos.
  pose proof (Z.mod_pos_bound hd 256 ltac:(lia)) as Ht. rewrite <- Tag_hd_mod in Ht.
  set (k := fun header => read_block intern_color (intern_rec fuel) (Tag_hd header) (Wosize_hd header) dest).
  destruct ((Tag_hd hd <? 16) && (Wosize_hd hd <? 8)) eqn:Esm.
  { small_code Es. rewrite Z.shiftl_mul_pow2 by lia. change (2 ^ 4) with 16.
    rewrite wrap_small, !(proj2 (Z.leb_le _ _)) by lia.
    replace (128 + Tag_hd hd + Wosize_hd hd * 16) with ((8 + Wosize_hd hd) * 2 ^ 4 + Tag_hd hd) by lia.
    change 15 with (Z.ones 4). rewrite land_add_high by lia. rewrite Z.shiftr_div_pow2, Z.div_add_l by lia.
    rewrite (Z.div_small (Tag_hd hd)), Z.add_0_r by lia.
    change 7 with (Z.ones 3). change 8 with (1 * 2 ^ 3). now rewrite land_add_high by lia. }
  destruct (@ARCH_SIXTYFOUR A1 && (Z.shiftl 1 32 <=? hd)) eqn:E64; rewrite <- app_comm_cons in Es.
  - change (Z.shiftl 1 32) with (2 ^ 32) in E64. rewrite Wosize_hd_div in Hs.
    assert (Hbig : 2 ^ 22 <= hd / 1024) by (apply Z.div_le_lower_bound; lia).
    assert (S2 : @ARCH_SIXTYFOUR A2 = true).
    { destruct (@ARCH_SIXTYFOUR A2) eqn:S2; auto. exfalso. unfold Max_wosize in Hs. rewrite S2 in Hs.
      change (Z.shiftl 1 22 - 1) with (2 ^ 22 - 1) in Hs. lia. }
    dispatch (fun st => if ARCH_SIXTYFOUR then reading read64s (fun header =>
                read_block intern_color (intern_rec fuel) (Tag_hd (wrap WORD header)) (Wosize_hd (wrap WORD header)) dest) st
              else Raise (Failure "input_value: data block too large")) Es.
    rewrite S2. finish_reading (read64s_spec (@Whitehd_hd A1 hd) rest ltac:(unfold WORD; now rewrite S2)).
    assert (E : @wrap (@WORD A2) (swrap 64 (@Whitehd_hd A1 hd)) = @Whitehd_hd A1 hd).
    { unfold WORD at 1. rewrite S2. rewrite wrap_swrap by lia. apply wrap_small. destruct Hh as [_ Hh].
      assert (@WORD A1 <= 64) by apply WORD_pos. pose proof (Z.pow_le_mono_r 2 (@WORD A1) 64). lia. }
    rewrite E, W1, W2. reflexivity.
  - dispatch (reading read32u k) Es. finish_reading (read32u_spec (@Whitehd_hd A1 hd) rest).
    rewrite wrap_small; [unfold k; now rewrite W1, W2|]. split; [lia|].
    destruct (@ARCH_SIXTYFOUR A1) eqn:S1; cbn [andb] in E64.
    + change (Z.shiftl 1 32) with (2 ^ 32) in E64. lia.
    + destruct Hh as [_ Hh]. unfold WORD in Hh. rewrite S1 in Hh. lia.
Qed.

(** Every token is recognised. *)
Lemma decodes_token t : tok_fits A1 A2 t -> decodes t.
Proof.
  destruct t; intros Hf; auto using decodes_int, decodes_atom, decodes_shared, decodes_string, decodes_double,
    decodes_doubles, decodes_block, decodes_infix, decodes_code.
Qed.
End Decode.
