(* ===== verification/MarshalRead.v ===== *)
(** MarshalRead: unmarshalling the tokens of a traversal builds a graph that is
    isomorphic to the one traversed, in exactly the space computed by the
    writer. *)
From Stdlib Require Import ZArith Lia Bool Ascii String List.
From S2P Require Import Prelude Mlvalues InterpState InterpCalls ExternOutput InternInput Custom MarshalHeap Extern Intern MarshalBytes MarshalTrail MarshalRestore MarshalDump MarshalDecode.
Import ListNotations.
Local Open Scope Z_scope.

(** ** Objects in the destination area *)

Section Objects.
Context {A : Arch} {F : FloatArch}.
Variable intern_color : Z.

(** The table of the objects read so far, at the addresses [ad]. *)
Definition table_ok (ad : list Z) (st : int_state) : Prop :=
  intern_obj_table st = if table_size st =? 0 then None else Some (map (Ptr intern_area) ad).

(** The words from [idest] on do not hold pointers yet. *)
Definition fresh (st : int_state) : Prop := forall w, idest st <= w < iend st -> exists x, imem st w = Imm x.

Lemma fresh_region st a size : fresh st -> idest st <= a -> a + size <= iend st -> raw_region (imem st) a size.
Proof. intros Hf Ha He k Hk. apply Hf. lia. Qed.

Lemma store_word_ok a v st : 0 <= a < iend st ->
  store_word a v st = Ok (set_imem (fun x => if x =? a then v else imem st x) st).
Proof. intros Ha. unfold store_word. now rewrite within_true by lia. Qed.

(** A new block of [size] words. *)
Lemma new_block_ok size tag st ad : table_ok ad st -> zlen ad + 1 <= table_size st -> 0 <= idest st ->
  idest st + 1 + size <= iend st -> 0 <= size ->
  exists st', new_block intern_color size tag st = Ok (idest st + 1, st') /\
    isrc st' = isrc st /\ idest st' = idest st + 1 + size /\ iend st' = iend st /\ ivar st' = ivar st /\
    table_size st' = table_size st /\ table_ok (ad ++ [idest st + 1]) st' /\
    imem st' = fun w => if w =? idest st then Imm (Make_header size tag intern_color) else imem st w.
Proof.
  intros Ht Hc H0 He Hs. unfold new_block, record_object, zlen in *. rewrite Ht.
  assert (Hn : (table_size st =? 0) = false) by (apply Z.eqb_neq; lia). rewrite Hn.
  rewrite length_map, (proj2 (Z.ltb_lt _ _)) by lia.
  rewrite store_word_ok by (cbn [set_table idest iend]; lia).
  eexists. split; [reflexivity|]. unfold table_ok.
  cbn [isrc idest iend ivar table_size imem intern_obj_table set_idest set_imem set_table].
  conj; auto; [lia|]. now rewrite Hn, map_app.
Qed.

(** *** Strings *)

(** The [size] words of a string: its bytes, zeros and the final byte. *)
Definition string_size (bs : list Z) : Z := (len bs + sizeof_value) / sizeof_value.
Definition string_byte (bs : list Z) (j : Z) : Z :=
  let last := string_size bs * sizeof_value - 1 in
  match nthZ bs j with Some b => b | None => if j =? last then last - len bs else 0 end.
Definition string_at (m : Z -> value) (a : Z) (bs : list Z) : Prop :=
  forall j, 0 <= j < string_size bs * sizeof_value -> mem_byte m a j = Ok (string_byte bs j).

Lemma string_size_bounds bs : len bs < string_size bs * sizeof_value <= len bs + sizeof_value /\ 0 < string_size bs.
Proof.
  unfold string_size. pose proof sizeof_value_pos. pose proof (len_nonneg bs).
  pose proof (Z.div_mod (len bs + sizeof_value) sizeof_value).
  pose proof (Z.mod_pos_bound (len bs + sizeof_value) sizeof_value).
  split; [lia|]. apply Z.div_str_pos. lia.
Qed.

Lemma readblock_at_ok a size bs rest st : isrc st = bs ++ rest -> len bs <= size * sizeof_value ->
  0 <= a -> a + size <= iend st -> raw_region (imem st) a size -> Forall is_byte bs ->
  exists m, readblock_at a (len bs) st = Ok (set_imem m (set_isrc rest st)) /\ raw_region m a size /\
    (forall w, w < a \/ a + size <= w -> m w = imem st w) /\
    (forall j, 0 <= j < size * sizeof_value ->
       mem_byte m a j = match nthZ bs j with Some b => Ok b | None => mem_byte (imem st) a j end).
Proof.
  intros Es Hl Ha He Hr Hb. unfold readblock_at, readblock, len in *. rewrite Es, length_app, Nat2Z.id.
  rewrite (proj2 (Nat.leb_le _ _)) by lia.
  rewrite firstn_app, skipn_app, Nat.sub_diag, firstn_all, skipn_all. cbn [firstn skipn app]. rewrite app_nil_r.
  destruct (store_bytes_spec a size bs 0 (set_isrc rest st)) as (m & -> & R & U & B); auto; [lia|].
  exists m. conj; auto. intros j Hj. rewrite B, Z.sub_0_r by auto.
  destruct (nthZ bs j) as [b|] eqn:E; auto. rewrite byte_of_byte; auto.
  unfold nthZ in E. destruct (_ <? _); [discriminate|]. apply nth_error_In in E.
  rewrite Forall_forall in Hb. auto.
Qed.

Lemma mem_byte_zero m a j size : 0 <= j < size * sizeof_value -> m (a + j / sizeof_value) = Imm 0 -> mem_byte m a j = Ok 0.
Proof.
  intros Hj E. destruct (byte_index j size Hj) as [_ Hk]. unfold mem_byte, word_byte. rewrite E.
  assert (Z0 : forall n, mem_bytes n 0 = repeat 0 n).
  { assert (L : forall n, le_bytes n 0 = repeat 0 n) by (induction n; cbn [le_bytes repeat]; [auto | now f_equal]).
    intros n. unfold mem_bytes, be_bytes. rewrite L. destruct ARCH_BIG_ENDIAN; auto. apply rev_repeat. }
  pose proof ws_sizeof. rewrite Z0. destruct (nthZ_Some (repeat 0 ws) (j mod sizeof_value)) as (x & -> & Hx).
  { unfold zlen. rewrite repeat_length. lia. }
  now apply repeat_spec in Hx as ->.
Qed.

(** The state after a step that has consumed the message up to [rest], moved
    [intern_dest] to [d], recorded the objects [ad] and only written in the
    area from the former [intern_dest] on. *)
Record moved (rest ad : list Z) (d : Z) (st st' : int_state) : Prop := {
  mv_src : isrc st' = rest;
  mv_dest : idest st' = d;
  mv_end : iend st' = iend st;
  mv_var : ivar st' = ivar st;
  mv_size : table_size st' = table_size st;
  mv_table : table_ok ad st';
  mv_frame : forall w, w < idest st \/ d <= w -> imem st' w = imem st w }.

Lemma read_string_ok bs rest dest st ad : isrc st = bs ++ rest -> Forall is_byte bs ->
  table_ok ad st -> zlen ad + 1 <= table_size st -> 0 <= idest st ->
  idest st + (1 + string_size bs) <= iend st -> fresh st ->
  exists st', read_string intern_color (len bs) dest st = store dest (Ptr intern_area (idest st + 1)) st' /\
    moved rest (ad ++ [idest st + 1]) (idest st + (1 + string_size bs)) st st' /\
    imem st' (idest st) = Imm (Make_header (string_size bs) String_tag intern_color) /\
    string_at (imem st') (idest st + 1) bs.
Proof.
  intros Es Hb Ht Hc H0 He Hf. destruct (string_size_bounds bs) as [[Hs1 Hs2] Hs0]. pose proof sizeof_value_pos.
  unfold read_string. fold (string_size bs). set (size := string_size bs) in *. set (a := idest st + 1).
  destruct (new_block_ok size String_tag st ad Ht Hc H0 ltac:(lia) ltac:(lia))
    as (st1 & -> & S1 & D1 & E1 & V1 & T1 & K1 & M1). fold a in K1 |- *.
  assert (R1 : raw_region (imem st1) a size).
  { rewrite M1. intros k Hk. destruct (_ =? _); eauto. apply Hf. lia. }
  rewrite store_word_ok by lia. match goal with |- context [set_imem ?m st1] => set (m2 := m) end.
  assert (R2 : raw_region m2 a size) by (intros k Hk; unfold m2; destruct (_ =? _); eauto).
  unfold Bsize_wsize. set (last := size * sizeof_value - 1).
  destruct (store_byte_spec a size last (last - len bs) (set_imem m2 st1)) as (m3 & -> & R3 & U3 & B3);
    cbn [iend imem set_imem]; auto; [unfold last; lia..|].
  destruct (readblock_at_ok a size bs rest (set_imem m3 (set_imem m2 st1))) as (m4 & -> & R4 & U4 & B4);
    cbn [isrc iend imem set_imem]; auto; [congruence|lia..|].
  cbn [imem set_imem] in U3, B3, U4, B4. eexists. split; [reflexivity|].
  assert (U : forall w, w < a \/ a + size <= w -> m4 w = imem st1 w).
  { intros w Hw. rewrite U4, U3 by auto. unfold m2. destruct (Z.eqb_spec w (a + (size - 1))); auto. lia. }
  split; [|split].
  - split; cbn [isrc idest iend ivar table_size imem set_isrc set_imem]; auto; [lia|].
    intros w Hw. rewrite U by lia. rewrite M1. destruct (Z.eqb_spec w (idest st)); auto. lia.
  - cbn [imem set_imem set_isrc]. rewrite U by lia. rewrite M1. now rewrite Z.eqb_refl.
  - intros j Hj. fold size in Hj. cbn [imem set_imem set_isrc]. rewrite B4, B3 by lia. unfold string_byte.
    fold size. fold last. destruct (nthZ bs j) as [b|] eqn:En; auto. destruct (Z.eqb_spec j last) as [->|Hl].
    + f_equal. apply byte_of_byte. unfold is_byte, last. assert (sizeof_value <= 8).
      { unfold sizeof_value. now destruct WORD_cases as [-> | ->]. } lia.
    + apply mem_byte_zero with size; auto. unfold m2.
      assert (Hj2 : len bs <= j).
      { destruct (Z_lt_ge_dec j (len bs)) as [Hlt|]; [|lia]. destruct (nthZ_Some bs j) as (x & Ex & _); [unfold zlen, len in *; lia|congruence]. }
      assert (Ej : j / sizeof_value = size - 1).
      { symmetry. apply Z.div_unique with (j - (size - 1) * sizeof_value); lia. }
      now rewrite Ej, Z.eqb_refl.
Qed.

(** *** Doubles *)

(** The bytes of doubles written with the endianness [big]. *)
Definition doubles_at (big : bool) (m : Z -> value) (a : Z) (bs : list Z) : Prop :=
  forall j, 0 <= j < len bs -> mem_byte m a j =
    of_option (nthZ bs (if Bool.eqb big float_big_endian then j else swap8 j)).

Lemma Double_wosize_eq : Double_wosize * sizeof_value = 8.
Proof. unfold Double_wosize, sizeof_value. now destruct WORD_cases as [-> | ->]. Qed.

(** Reading [n] doubles in a block of the right size; [rev] is how the code
    reverses them. *)
Lemma read_doubles_ok (rev : Z -> int_state -> res int_state) n tag big bs rest st ad :
  isrc st = bs ++ rest -> Forall is_byte bs -> 0 < n -> len bs = 8 * n ->
  (forall a st, 0 <= a -> a + n * Double_wosize <= iend st -> raw_region (imem st) a (n * Double_wosize) ->
     exists m, rev a st = Ok (set_imem m st) /\ raw_region m a (n * Double_wosize) /\
       (forall w, w < a \/ a + n * Double_wosize <= w -> m w = imem st w) /\
       (forall j, 0 <= j < 8 * n -> mem_byte m a j = mem_byte (imem st) a (swap8 j))) ->
  table_ok ad st -> zlen ad + 1 <= table_size st -> 0 <= idest st ->
  idest st + (1 + n * Double_wosize) <= iend st -> fresh st ->
  exists st', (let! (a, st) := new_block intern_color (n * Double_wosize) tag st in
               let! st := readblock_at a (n * 8) st in
               let! st := (if Bool.eqb big float_big_endian then Ok st else rev a st) in
               Ok (a, st)) = Ok (idest st + 1, st') /\
    moved rest (ad ++ [idest st + 1]) (idest st + (1 + n * Double_wosize)) st st' /\
    imem st' (idest st) = Imm (Make_header (n * Double_wosize) tag intern_color) /\
    doubles_at big (imem st') (idest st + 1) bs.
Proof.
  intros Es Hb Hn Hl Hrev Ht Hc H0 He Hf. pose proof Double_wosize_eq as Hd. pose proof sizeof_value_pos as Hp.
  assert (Hw : 0 < Double_wosize) by (apply Z.mul_pos_cancel_r with sizeof_value; lia).
  assert (Hsz : n * Double_wosize * sizeof_value = 8 * n) by (rewrite <- Z.mul_assoc, Hd; lia).
  assert (Hpos : 0 < n * Double_wosize) by (apply Z.mul_pos_pos; lia).
  set (size := n * Double_wosize) in *. set (a := idest st + 1).
  destruct (new_block_ok size tag st ad Ht Hc H0 ltac:(lia) ltac:(lia))
    as (st1 & -> & S1 & D1 & E1 & V1 & T1 & K1 & M1). fold a in K1 |- *.
  assert (R1 : raw_region (imem st1) a size).
  { rewrite M1. intros k Hk. destruct (_ =? _); eauto. apply Hf. lia. }
  replace (n * 8) with (len bs) by lia.
  destruct (readblock_at_ok a size bs rest st1) as (m2 & -> & R2 & U2 & B2); auto; [congruence|lia..|].
  assert (Fin : exists m3, (if Bool.eqb big float_big_endian then Ok (set_imem m2 (set_isrc rest st1))
                            else rev a (set_imem m2 (set_isrc rest st1))) = Ok (set_imem m3 (set_isrc rest st1)) /\
    (forall w, w < a \/ a + size <= w -> m3 w = imem st1 w) /\ doubles_at big m3 a bs).
  { assert (B : forall j, 0 <= j < 8 * n -> mem_byte m2 a j = of_option (nthZ bs j)).
    { intros j Hj. rewrite B2 by lia. destruct (nthZ_Some bs j) as (x & -> & _); [unfold zlen, len in *; lia | auto]. }
    unfold doubles_at. destruct (Bool.eqb big float_big_endian).
    - exists m2. conj; auto. intros j Hj. apply B. lia.
    - destruct (Hrev a (set_imem m2 (set_isrc rest st1))) as (m3 & -> & R3 & U3 & B3); cbn [iend imem set_imem set_isrc]; auto; [lia..|].
      cbn [imem set_imem] in U3, B3. exists m3. conj; auto.
      + intros w Hw2. now rewrite U3, U2.
      + intros j Hj. rewrite B3 by lia. apply B. unfold swap8.
        pose proof (Z.div_mod j 8). pose proof (Z.mod_pos_bound j 8). lia. }
  destruct Fin as (m3 & -> & U3 & B3). eexists. split; [reflexivity|]. conj.
  - split; cbn [isrc idest iend ivar table_size imem set_isrc set_imem]; auto; [lia|].
    intros w Hw2. rewrite U3 by lia. rewrite M1. destruct (Z.eqb_spec w (idest st)); auto. lia.
  - cbn [imem set_imem set_isrc]. rewrite U3 by lia. rewrite M1. now rewrite Z.eqb_refl.
  - exact B3.
Qed.

Lemma read_double_ok big bs rest dest st ad : isrc st = bs ++ rest -> Forall is_byte bs -> len bs = 8 ->
  table_ok ad st -> zlen ad + 1 <= table_size st -> 0 <= idest st ->
  idest st + (1 + Double_wosize) <= iend st -> fresh st ->
  exists st', read_double intern_color big dest st = store dest (Ptr intern_area (idest st + 1)) st' /\
    moved rest (ad ++ [idest st + 1]) (idest st + (1 + Double_wosize)) st st' /\
    imem st' (idest st) = Imm (Make_header Double_wosize Double_tag intern_color) /\
    doubles_at big (imem st') (idest st + 1) bs.
Proof.
  intros Es Hb Hl Ht Hc H0 He Hf. pose proof Double_wosize_eq as Hd.
  destruct (read_doubles_ok (fun a => reverse_64_at a 0) 1 Double_tag big bs rest st ad)
    as (st' & E & R); auto; try lia.
  - intros a st0 Ha He0 Hr. rewrite !Z.mul_1_l in *.
    destruct (reverse_64_at_spec a Double_wosize 0 st0) as (m & Em & R & U & B); auto; try lia.
    exists m. conj; auto. intros j Hj. rewrite B by lia. now rewrite within_true by lia.
  - rewrite !Z.mul_1_l in *. exists st'. split; [|exact R]. unfold read_double. change (1 * 8) with 8 in E.
    destruct (new_block intern_color Double_wosize Double_tag st) as [[a st1]| |]; try discriminate.
    destruct (readblock_at a 8 st1) as [st2| |]; try discriminate.
    destruct (if Bool.eqb big float_big_endian then _ else _) as [st3| |]; try discriminate.
    now injection E as -> ->.
Qed.

Lemma read_double_array_ok n big bs rest dest st ad : isrc st = bs ++ rest -> Forall is_byte bs ->
  0 < n -> len bs = 8 * n ->
  table_ok ad st -> zlen ad + 1 <= table_size st -> 0 <= idest st ->
  idest st + (1 + n * Double_wosize) <= iend st -> fresh st ->
  exists st', read_double_array intern_color n big dest st = store dest (Ptr intern_area (idest st + 1)) st' /\
    moved rest (ad ++ [idest st + 1]) (idest st + (1 + n * Double_wosize)) st st' /\
    imem st' (idest st) = Imm (Make_header (n * Double_wosize) Double_array_tag intern_color) /\
    doubles_at big (imem st') (idest st + 1) bs.
Proof.
  intros Es Hb Hn Hl Ht Hc H0 He Hf. pose proof Double_wosize_eq as Hd.
  assert (Hsz : n * Double_wosize * sizeof_value = 8 * n) by (rewrite <- Z.mul_assoc, Hd; lia).
  destruct (read_doubles_ok (fun a => reverse_doubles a 0 (Z.to_nat n)) n Double_array_tag big bs rest st ad)
    as (st' & E & R); auto.
  - intros a st0 Ha He0 Hr.
    destruct (reverse_doubles_spec a (n * Double_wosize) (Z.to_nat n) 0 st0) as (m & Em & R & U & B); auto; try lia.
    exists m. conj; auto. intros j Hj. rewrite B by lia. now rewrite within_true by lia.
  - exists st'. split; [|exact R]. unfold read_double_array.
    destruct (new_block intern_color (n * Double_wosize) Double_array_tag st) as [[a st1]| |]; try discriminate.
    destruct (readblock_at a (n * 8) st1) as [st2| |]; try discriminate.
    destruct (if Bool.eqb big float_big_endian then _ else _) as [st3| |]; try discriminate.
    now injection E as -> ->.
Qed.
End Objects.
