(* ===== verification/MarshalRefine.v ===== *)
(** MarshalRefine: [extern_rec], which marks the heap as it goes, implements the
    traversal [dump] of MarshalDump, and computes the sizes the reader needs. *)
From Stdlib Require Import ZArith Lia Bool Ascii String List.
From S2P Require Import Prelude Mlvalues InterpState InterpCalls ExternOutput InternInput Custom MarshalHeap Extern MarshalBytes MarshalTrail MarshalRestore MarshalDump.
Import ListNotations.
Local Open Scope Z_scope.

Section Refine.
Context {A : Arch} {F : FloatArch}.
Variable custom_at : Z -> option custom_operations.
Variable caml_code_size : Z.
Variable caml_code_checksum : list Z.
Variable extern_closures : bool.
Variable H : sheap.
Hypothesis Hwf : heap_wf H.
(** The output at some earlier point. *)
Variable o0 : extern_out.

Notation extern_rec := (extern_rec custom_at caml_code_size caml_code_checksum false extern_closures).
Notation dump := (dump caml_code_size extern_closures H).
Notation enc := (enc caml_code_checksum).
Notation encs := (encs caml_code_checksum).

(** The marshaller has recorded [seen], written [out] to a chain of blocks, and
    counted [n32] and [n64] words. *)
Record Wrote (seen out : list Z) (n32 n64 : Z) (st : ext) : Prop := {
  w_inv : Inv H seen st;
  w_ok : out_ok (eout st);
  w_chain : userprovided (eout st) = false;
  w_out : output (eout st) = out;
  w_first : first_grows o0 (eout st);
  w_32 : size_32 st = wrap WORD n32;
  w_64 : size_64 st = wrap WORD n64 }.

Lemma write_wrote seen out n32 n64 st op bs : Wrote seen out n32 n64 st -> emits op bs ->
  exists st', write op st = EOk st' /\ Wrote seen (out ++ bs) n32 n64 st' /\ eheap st' = eheap st.
Proof.
  intros [I O U W G S1 S2] E. specialize (E (eout st) O). unfold write.
  destruct (op (eout st)) as [o|e|].
  - destruct E as (O' & W' & U' & _ & G'). exists (set_eout o st). split; [reflexivity|]. split; [|reflexivity].
    split; cbn [eout set_eout size_32 size_64]; auto; try congruence; [now apply Inv_eout | now apply first_grows_trans with (eout st)].
  - destruct E as [E _]. congruence.
  - destruct E.
Qed.

Lemma record_wrote seen out n32 n64 st b s32 s64 : Wrote seen out n32 n64 st -> markable H b -> ~ In b seen ->
  exists st', extern_record_location false (Ptr b 0) (add_sizes s32 s64 st) = Ok st' /\
    Wrote (seen ++ [b]) out (n32 + s32) (n64 + s64) st'.
Proof.
  intros [I O U W G S1 S2] Hm Hn.
  destruct (record_location_ok H seen (add_sizes s32 s64 st) b (Inv_sizes H _ _ _ _ I) Hm Hn)
    as (st' & E & I' & Eo & E32 & E64).
  exists st'. split; [exact E|]. split; auto; rewrite ?Eo, ?E32, ?E64; auto; cbn [size_32 size_64 add_sizes].
  - now rewrite S1, wrap_wrap_add_l.
  - now rewrite S2, wrap_wrap_add_l.
Qed.

(** Reads of a block that is not marked. *)
Lemma of_res_Some {T} (r : res T) x : of_res r = Some x -> r = Ok x.
Proof. destruct r; cbn; congruence. Qed.

(** One write of the marshaller: the next state and what was appended. *)
Ltac solve_emits :=
  first [apply Write_emits | apply writecode8_emits | apply writecode16_emits | apply writecode64_emits
        | apply writecode32_emits | apply writeblock_emits].
Ltac next_write W E :=
  match type of W with Wrote _ ?out _ _ ?st =>
    match goal with |- context [write ?op st] =>
      let bs := open_constr:(_) in
      let W' := fresh "W" in
      destruct (write_wrote _ _ _ _ st op bs W ltac:(solve_emits)) as (? & -> & W' & E); clear W; rename W' into W
    end
  end.

(** *** Integers, atoms and shared objects *)

Lemma extern_int_wrote seen out n32 n64 st n : Wrote seen out n32 n64 st ->
  exists st', extern_int n st = EOk st' /\ Wrote seen (out ++ enc (TInt n)) n32 n64 st'.
Proof.
  intros W. unfold extern_int, MarshalDump.enc.
  repeat match goal with |- context [if ?c then _ else _] => destruct c end;
    next_write W E; eauto.
Qed.

Lemma extern_shared_wrote seen out n32 n64 st d : Wrote seen out n32 n64 st ->
  exists st', extern_shared d st = EOk st' /\ Wrote seen (out ++ enc (TShared d)) n32 n64 st'.
Proof.
  intros W. unfold extern_shared, MarshalDump.enc.
  repeat match goal with |- context [if ?c then _ else _] => destruct c end;
    next_write W E; eauto.
Qed.

Lemma extern_code_wrote seen out n32 n64 st p : Wrote seen out n32 n64 st ->
  (0 <=? p) && (p <? caml_code_size) && extern_closures = true ->
  exists st', extern_code caml_code_size caml_code_checksum extern_closures (Cptr p) st = EOk st' /\
    Wrote seen (out ++ enc (TCode p)) n32 n64 st'.
Proof.
  intros W Hp. apply andb_prop in Hp as [Hp Hc]. unfold extern_code. rewrite Hp, Hc. cbn [negb].
  next_write W E. next_write W E'. rewrite <- app_assoc in W. eauto.
Qed.

(** *** Objects without pointers *)

Section NoScan.
Variables (seen out : list Z) (n32 n64 : Z) (st : ext) (b hd : Z) (ws : list value).
Hypothesis W : Wrote seen out n32 n64 st.
Hypothesis Hb : 0 <= b.
Hypothesis E : H b = Some (SBlock hd ws).
Hypothesis Hz : Wosize_hd hd <> 0.
Hypothesis Hn : ~ In b seen.

Lemma unseen_block : eheap st b = H b.
Proof. rewrite (inv_heap _ _ _ (w_inv _ _ _ _ _ W)). now apply mark_unseen. Qed.

Lemma extern_string_wrote n bs : caml_string_length H (Ptr b 0) = Ok n -> 0 <= n ->
  bytes_at H (Ptr b 0) 0 (Z.to_nat n) = Ok bs ->
  exists st', extern_string false (Ptr b 0) st = EOk st' /\
    Wrote (seen ++ [b]) (out ++ enc (TString bs))
      (n32 + tok_words 4 (TString bs)) (n64 + tok_words 8 (TString bs)) st'.
Proof.
  intros En Hn0 Eb. pose proof unseen_block as Eh. unfold extern_string.
  rewrite (string_length_unseen H), En by auto. cbn [read].
  assert (L : len bs = n) by (unfold len; rewrite (bytes_at_length _ _ _ _ _ Eb); lia).
  assert (K : forall st1 pre, Wrote seen (out ++ pre) n32 n64 st1 -> eheap st1 = eheap st ->
    exists st', (let? data := read (bytes_at (eheap st1) (Ptr b 0) 0 (Z.to_nat n)) in
      let? st := write (writeblock data) st1 in
      read (extern_record_location false (Ptr b 0) (add_sizes (1 + (n + 4) / 4) (1 + (n + 8) / 8) st)))
      = EOk st' /\ Wrote (seen ++ [b]) (out ++ pre ++ bs) (n32 + (1 + (n + 4) / 4)) (n64 + (1 + (n + 8) / 8)) st').
  { intros st1 pre W1 E1. rewrite E1, (bytes_at_unseen H), Eb by auto. cbn [read]. next_write W1 E2.
    destruct (record_wrote _ _ _ _ _ b (1 + (n + 4) / 4) (1 + (n + 8) / 8) W1
                (markable_of H Hwf b hd ws Hb E Hz) Hn) as (st' & -> & W2).
    rewrite <- app_assoc in W2. cbn [read]. eauto. }
  unfold MarshalDump.enc, tok_words. rewrite L.
  destruct (n <? 32); [|destruct (n <? 256)]; pose proof W as W1; next_write W1 E1; now apply K.
Qed.

Lemma extern_double_wrote bs : bytes_at H (Ptr b 0) 0 8 = Ok bs ->
  exists st', extern_double false (Ptr b 0) st = EOk st' /\
    Wrote (seen ++ [b]) (out ++ enc (TDouble bs))
      (n32 + tok_words 4 (TDouble bs)) (n64 + tok_words 8 (TDouble bs)) st'.
Proof.
  intros Eb. pose proof unseen_block as Eh. unfold extern_double. pose proof W as W1. next_write W1 E1.
  rewrite E1, (bytes_at_unseen H), Eb by auto. cbn [read]. next_write W1 E2.
  destruct (record_wrote _ _ _ _ _ b (1 + 2) (1 + 1) W1 (markable_of H Hwf b hd ws Hb E Hz) Hn)
    as (st' & -> & W2).
  rewrite <- app_assoc in W2. cbn [read]. eauto.
Qed.

Lemma extern_double_array_wrote bs : let n := Wosize_hd hd / Double_wosize in
  bytes_at H (Ptr b 0) 0 (Z.to_nat (n * 8)) = Ok bs ->
  exists st', extern_double_array false (Ptr b 0) (Wosize_hd hd) st = EOk st' /\
    Wrote (seen ++ [b]) (out ++ enc (TDoubles n bs))
      (n32 + tok_words 4 (TDoubles n bs)) (n64 + tok_words 8 (TDoubles n bs)) st'.
Proof.
  intros n Eb. pose proof unseen_block as Eh. unfold extern_double_array. fold n.
  assert (K : forall st1 pre, Wrote seen (out ++ pre) n32 n64 st1 -> eheap st1 = eheap st ->
    exists st', (let? data := read (bytes_at (eheap st1) (Ptr b 0) 0 (Z.to_nat (n * 8))) in
      let? st := write (writeblock data) st1 in
      read (extern_record_location false (Ptr b 0) (add_sizes (1 + n * 2) (1 + n) st)))
      = EOk st' /\ Wrote (seen ++ [b]) (out ++ pre ++ bs) (n32 + (1 + n * 2)) (n64 + (1 + n)) st').
  { intros st1 pre W1 E1. rewrite E1, (bytes_at_unseen H), Eb by auto. cbn [read]. next_write W1 E2.
    destruct (record_wrote _ _ _ _ _ b (1 + n * 2) (1 + n) W1
                (markable_of H Hwf b hd ws Hb E Hz) Hn) as (st' & -> & W2).
    rewrite <- app_assoc in W2. cbn [read]. eauto. }
  unfold MarshalDump.enc, tok_words. change (8 / 4) with 2. change (8 / 8) with 1. rewrite Z.mul_1_r.
  destruct (n <? 256); pose proof W as W1; next_write W1 E1; now apply K.
Qed.
End NoScan.

(** *** Blocks *)

Lemma destruct_last {T} (l : list T) : l = [] \/ exists x m, l = m ++ [x].
Proof. destruct l using rev_ind; [now left | right; eauto]. Qed.

Section Rec.
Variable rec : value -> ext -> eres ext.
Variable drec : value -> list Z -> option (list token * list Z).
Hypothesis Hgrows : grows H drec.

(** [rec] implements [drec]. *)
Definition implements : Prop := forall v seen ts seen' st out n32 n64,
  drec v seen = Some (ts, seen') -> Z.of_nat (length seen') < 2 ^ 32 -> plain H seen -> ptr_ok H v ->
  Wrote seen out n32 n64 st ->
  exists st', rec v st = EOk st' /\
    Wrote seen' (out ++ encs ts) (n32 + sum (tok_words 4) ts) (n64 + sum (tok_words 8) ts) st'.
Hypothesis Himpl : implements.

Lemma grown_length (seen s : list Z) : Z.of_nat (length (seen ++ s)) < 2 ^ 32 -> Z.of_nat (length seen) < 2 ^ 32.
Proof. rewrite length_app. lia. Qed.

(** Fields other than the first are still those of [H]. *)
Lemma fld_wrote seen st b hd ws i x : Inv H seen st -> 0 <= b -> H b = Some (SBlock hd ws) -> 1 <= i ->
  nthZ ws i = Some x -> fld (eheap st) (Ptr b 0) i = Ok x.
Proof.
  intros I Hb E Hi Hx. cbn [fld]. rewrite get_sblock_pos by auto. rewrite (inv_heap _ _ _ I). cbn [Z.add].
  unfold mark. rewrite E. destruct (index b seen) as [k|]; [|now rewrite Hx].
  destruct ws as [|f0 ws]; [now rewrite Hx|]. rewrite nthZ_cons in Hx |- * by lia. now rewrite Hx.
Qed.

Lemma nthZ_skipn {T} (l : list T) i x r : 0 <= i -> skipn (Z.to_nat i) l = x :: r -> nthZ l i = Some x.
Proof.
  intros Hi E. unfold nthZ. rewrite (proj2 (Z.ltb_ge i 0)) by lia.
  rewrite <- (firstn_skipn (Z.to_nat i) l), E.
  assert (L : (Z.to_nat i < length l)%nat).
  { destruct (Nat.lt_ge_cases (Z.to_nat i) (length l)); auto. rewrite skipn_all2 in E by auto. discriminate. }
  rewrite nth_error_app2; rewrite length_firstn, Nat.min_l by lia; [|lia]. now rewrite Nat.sub_diag.
Qed.

Lemma extern_fields_wrote b hd ws l : 0 <= b -> H b = Some (SBlock hd ws) -> Tag_hd hd < No_scan_tag ->
  forall i seen ts seen' st out n32 n64 r, 1 <= i -> skipn (Z.to_nat i) ws = l ++ r ->
  dump_list drec l seen = Some (ts, seen') -> Z.of_nat (length seen') < 2 ^ 32 -> plain H seen ->
  Wrote seen out n32 n64 st ->
  exists st', extern_fields rec (Ptr b 0) i (length l) st = EOk st' /\
    Wrote seen' (out ++ encs ts) (n32 + sum (tok_words 4) ts) (n64 + sum (tok_words 8) ts) st'.
Proof.
  intros Hb E Ht. induction l as [|v l IH]; intros i seen ts seen' st out n32 n64 r Hi Es D L P W.
  - injection D as <- <-. cbn [extern_fields length]. exists st. split; [reflexivity|].
    cbn [sum MarshalDump.encs map concat]. now rewrite app_nil_r, !Z.add_0_r.
  - cbn [dump_list] in D. destruct (drec v seen) as [[ts1 seen1]|] eqn:D1; [|discriminate].
    destruct (dump_list drec l seen1) as [[ts2 seen2]|] eqn:D2; [|discriminate]. injection D as <- <-.
    destruct (Hgrows _ _ _ _ D1) as [[s1 ->] P1].
    destruct (dump_list_grows H drec Hgrows _ _ _ _ D2) as [[s2 ->] P2].
    pose proof (nthZ_skipn ws i v (l ++ r) ltac:(lia) Es) as Hv.
    assert (Pv : ptr_ok H v).
    { pose proof (hw_fields H Hwf b hd ws Hb E Ht) as Hall. rewrite Forall_forall in Hall. apply Hall.
      rewrite <- (firstn_skipn (Z.to_nat i) ws), Es. apply in_or_app. right. now left. }
    cbn [extern_fields length]. rewrite (fld_wrote seen st b hd ws i v) by (auto; apply W). cbn [read].
    destruct (Himpl _ _ _ _ _ _ _ _ D1 (grown_length _ _ L) P Pv W) as (st1 & -> & W1).
    destruct (IH (i + 1) (seen ++ s1) ts2 ((seen ++ s1) ++ s2) st1 (out ++ encs ts1)
                (n32 + sum (tok_words 4) ts1) (n64 + sum (tok_words 8) ts1) r) as (st2 & -> & W2); auto; [lia| |].
    + replace (Z.to_nat (i + 1)) with (1 + Z.to_nat i)%nat by lia.
      rewrite <- skipn_skipn, Es. reflexivity.
    + exists st2. split; [reflexivity|]. rewrite encs_app, !sum_app, app_assoc, !Z.add_assoc. exact W2.
Qed.

Lemma dump_list_snoc l x : forall seen ts seen', dump_list drec (l ++ [x]) seen = Some (ts, seen') ->
  exists ts1 seen1 ts2, dump_list drec l seen = Some (ts1, seen1) /\ drec x seen1 = Some (ts2, seen') /\ ts = ts1 ++ ts2.
Proof.
  induction l as [|v l IH]; cbn [dump_list app]; intros seen ts seen'.
  - destruct (drec x seen) as [[ts1 seen1]|] eqn:E; [|discriminate]. intros [= <- <-].
    exists [], seen, ts1. now rewrite app_nil_r.
  - destruct (drec v seen) as [[ts1 seen1]|]; [|discriminate].
    destruct (dump_list drec (l ++ [x]) seen1) as [[ts2 seen2]|] eqn:E; [|discriminate]. intros [= <- <-].
    destruct (IH _ _ _ E) as (t1 & s1 & t2 & -> & E2 & ->).
    exists (ts1 ++ t1), s1, t2. now rewrite app_assoc.
Qed.

Lemma extern_header_wrote seen out n32 n64 st hd : Wrote seen out n32 n64 st ->
  exists st', extern_header hd (Tag_hd hd) (Wosize_hd hd) st = EOk st' /\
    Wrote seen (out ++ enc (TBlock hd)) n32 n64 st' /\ eheap st' = eheap st.
Proof.
  intros W. unfold extern_header, MarshalDump.enc. change Prelude.ARCH_SIXTYFOUR with ARCH_SIXTYFOUR.
  repeat match goal with |- context [if ?c then _ else _] => destruct c end; next_write W E; eauto.
Qed.

Lemma extern_block_wrote seen out n32 n64 st b hd ws ts seen' :
  Wrote seen out n32 n64 st -> 0 <= b -> H b = Some (SBlock hd ws) -> Tag_hd hd < No_scan_tag ->
  Tag_hd hd <> Forward_tag -> Wosize_hd hd <> 0 -> ~ In b seen -> plain H seen ->
  dump_list drec ws (seen ++ [b]) = Some (ts, seen') -> Z.of_nat (length seen') < 2 ^ 32 ->
  exists st', extern_block false rec (Ptr b 0) hd (Tag_hd hd) (Wosize_hd hd) st = EOk st' /\
    Wrote seen' (out ++ encs (TBlock hd :: ts)) (n32 + sum (tok_words 4) (TBlock hd :: ts))
      (n64 + sum (tok_words 8) (TBlock hd :: ts)) st'.
Proof.
  intros W Hb E Ht Htf Hz Hn P D L. unfold extern_block.
  destruct (extern_header_wrote seen out n32 n64 st hd W) as (st1 & -> & W1 & E1). cbv zeta.
  destruct (hw_header H Hwf b hd ws Hb E) as (_ & _ & Hs & _).
  destruct ws as [|f0 ws]; [now rewrite Hs in Hz|].
  assert (Hf : fld (eheap (add_sizes (1 + Wosize_hd hd) (1 + Wosize_hd hd) st1)) (Ptr b 0) 0 = Ok f0).
  { cbn [fld add_sizes eheap]. rewrite get_sblock_pos by auto.
    now rewrite E1, (inv_heap _ _ _ (w_inv _ _ _ _ _ W)), mark_unseen, E by auto. }
  rewrite Hf. cbn [read].
  destruct (record_wrote _ _ _ _ _ b (1 + Wosize_hd hd) (1 + Wosize_hd hd) W1
              (markable_of H Hwf b hd (f0 :: ws) Hb E Hz) Hn) as (st2 & -> & W2). cbn [read].
  assert (P2 : plain H (seen ++ [b])).
  { apply plain_snoc with hd; auto. cbn [hd_of]. now rewrite get_sblock_pos, E by auto. }
  cbn [dump_list] in D. destruct (drec f0 (seen ++ [b])) as [[ts1 seen1]|] eqn:D1; [|discriminate].
  destruct (dump_list drec ws seen1) as [[ts2 seen2]|] eqn:D2; [|discriminate]. injection D as <- <-.
  destruct (Hgrows _ _ _ _ D1) as [[s1 ->] P1].
  destruct (dump_list_grows H drec Hgrows _ _ _ _ D2) as [[s2 ->] _].
  assert (P0 : ptr_ok H f0) by (pose proof (hw_fields H Hwf b hd _ Hb E Ht) as Hall; now inversion Hall).
  destruct (Himpl _ _ _ _ _ _ _ _ D1 (grown_length _ _ L) P2 P0 W2) as (st3 & E3 & W3).
  assert (Eo : forall ts, out ++ encs (TBlock hd :: ts) = (out ++ enc (TBlock hd)) ++ encs ts)
    by (intros; unfold MarshalDump.encs; cbn [map concat]; now rewrite app_assoc).
  rewrite Eo. cbn [sum tok_words]. rewrite !sum_app, encs_app, app_assoc, !Z.add_assoc. rewrite !Z.add_assoc in W3.
  destruct (Z.eqb_spec (Wosize_hd hd) 1) as [Ez|Hz1].
  - rewrite Hs in Ez. destruct ws as [|x ws]; [|unfold zlen in Ez; cbn [length] in Ez; lia].
    injection D2 as <- E2. apply (f_equal (@length Z)) in E2. rewrite (length_app _ s2) in E2.
    destruct s2; [|cbn [length] in E2; lia].
    exists st3. split; [exact E3|]. cbn [sum MarshalDump.encs map concat]. now rewrite !app_nil_r, !Z.add_0_r.
  - rewrite E3. destruct (destruct_last ws) as [->|(x & mid & ->)].
    { rewrite Hs in Hz1. now unfold zlen in Hz1. }
    destruct (dump_list_snoc mid x _ _ _ D2) as (ts3 & seen3 & ts4 & D3 & D4 & ->).
    destruct (dump_list_grows H drec Hgrows _ _ _ _ D3) as [[s3 ->] P3].
    destruct (Hgrows _ _ _ _ D4) as [[s4 E4] _]. rewrite E4 in *.
    assert (Hlen : Z.to_nat (Wosize_hd hd - 2) = length mid).
    { rewrite Hs. unfold zlen. cbn [length]. rewrite length_app. cbn [length]. lia. }
    destruct (extern_fields_wrote b hd (f0 :: mid ++ [x]) mid Hb E Ht 1 _ _ _ st3 _ _ _ [x]
                ltac:(lia) eq_refl D3 (grown_length _ _ L) (P1 P2) W3) as (st4 & E5 & W4).
    rewrite Hlen, E5.
    rewrite (fld_wrote _ st4 b hd (f0 :: mid ++ [x]) (Wosize_hd hd - 1) x (w_inv _ _ _ _ _ W4) Hb E).
    2: { rewrite Hs. unfold zlen. cbn [length]. rewrite length_app. cbn [length]. lia. }
    2: { rewrite Hs. unfold zlen. cbn [length]. rewrite length_app. cbn [length].
         unfold nthZ. rewrite (proj2 (Z.ltb_ge _ 0)) by lia.
         replace (Z.to_nat _) with (S (length mid)) by lia. cbn [nth_error].
         rewrite nth_error_app2, Nat.sub_diag by lia. reflexivity. }
    cbn [read].
    assert (Px : ptr_ok H x).
    { pose proof (hw_fields H Hwf b hd _ Hb E Ht) as Hall. rewrite Forall_forall in Hall. apply Hall.
      right. apply in_or_app. right. now left. }
    destruct (Himpl _ _ _ _ _ _ _ _ D4 L (P3 (P1 P2)) Px W4) as (st5 & E6 & W5).
    exists st5. split; [exact E6|]. rewrite encs_app, !sum_app, app_assoc, !Z.add_assoc. exact W5.
Qed.

(** *** Headers, marked or not *)

Lemma hd_of_wrote seen st v hd : Inv H seen st -> ptr_ok H v -> hd_of H v = Ok hd ->
  exists hd', hd_of (eheap st) v = Ok hd' /\ Tag_hd hd' = Tag_hd hd /\ Wosize_hd hd' = Wosize_hd hd /\
    match v with
    | Ptr b ofs => (ofs = 0 /\ In b seen /\ Color_hd hd' = Caml_blue) \/
                   ((ofs = 0 -> ~ In b seen) /\ hd' = hd)
    | _ => True
    end.
Proof.
  intros I Hv Hh. destruct v as [|b ofs| |]; try discriminate. cbn [hd_of] in *.
  destruct (Z_lt_ge_dec b 0) as [Hneg|Hpos].
  { exists hd. unfold get_sblock in *. rewrite (proj2 (Z.ltb_lt b 0)) in * by lia. conj; auto. right. split; auto.
    intros _ Hin. pose proof (proj1 (Forall_forall _ _) (inv_markable _ _ _ I) b Hin) as [? _]. lia. }
  rewrite get_sblock_pos in * by lia. rewrite (inv_heap _ _ _ I).
  destruct (in_dec Z.eq_dec b seen) as [Hin|Hnin].
  - pose proof (proj1 (Forall_forall _ _) (inv_markable _ _ _ I) b Hin) as [_ (hd0 & f0 & ws & E & Hok)].
    destruct (index b seen) as [k|] eqn:Ek; [|now apply index_None in Ek].
    rewrite (mark_seen H seen b k hd0 f0 ws Ek E), E in *.
    destruct (Bluehd_fields hd0 Hok) as (B1 & B2 & B3).
    destruct (Z.eqb_spec ofs 0) as [->|Ho].
    + injection Hh as ->. exists (Bluehd_hd hd). conj; auto.
    + destruct Hv as [[-> _]|(_ & Ho2 & _)]; [lia|]. exists hd. rewrite nthZ_cons in Hh |- * by lia.
      split; [exact Hh|]. conj; auto; right; split; auto; lia.
  - rewrite mark_unseen by auto. exists hd. conj; auto.
Qed.

Lemma no_scan_cases hd : Tag_hd hd <> String_tag -> Tag_hd hd <> Double_tag -> Tag_hd hd <> Double_array_tag ->
  Tag_hd hd <> Abstract_tag -> Tag_hd hd <> Custom_tag -> Tag_hd hd < No_scan_tag.
Proof.
  pose proof (Z.mod_pos_bound hd 256). rewrite <- Tag_hd_mod in *.
  unfold String_tag, Double_tag, Double_array_tag, Abstract_tag, Custom_tag, No_scan_tag. lia.
Qed.

(** An object met for the first time. *)
Lemma extern_object_new seen out n32 n64 st b hd ts seen' :
  Wrote seen out n32 n64 st -> 0 <= b -> hd_of H (Ptr b 0) = Ok hd -> Tag_hd hd <> Forward_tag ->
  Wosize_hd hd <> 0 -> ~ In b seen -> plain H seen ->
  dump_block H drec b hd seen = Some (ts, seen') -> Z.of_nat (length seen') < 2 ^ 32 ->
  exists st', extern_object custom_at false rec (Ptr b 0) hd (Tag_hd hd) (Wosize_hd hd) st = EOk st' /\
    Wrote seen' (out ++ encs ts) (n32 + sum (tok_words 4) ts) (n64 + sum (tok_words 8) ts) st'.
Proof.
  intros W Hb Hh Htf Hz Hn P D L. cbn [hd_of] in Hh. rewrite get_sblock_pos in Hh by auto.
  destruct (H b) as [[hd' ws]|] eqn:E; [|discriminate]. injection Hh as ->.
  destruct (hw_header H Hwf b hd ws Hb E) as (_ & Hc & _ & _).
  unfold extern_object, dump_block in *.
  rewrite (proj2 (Z.eqb_neq _ _) Hz), (proj2 (Z.eqb_neq _ _) Hc).
  assert (K1 : forall t st', Wrote (seen ++ [b]) (out ++ enc t) (n32 + tok_words 4 t) (n64 + tok_words 8 t) st' ->
    Wrote (seen ++ [b]) (out ++ encs [t]) (n32 + sum (tok_words 4) [t]) (n64 + sum (tok_words 8) [t]) st').
  { intros t st'. unfold MarshalDump.encs. cbn [map concat sum]. now rewrite app_nil_r, !Z.add_0_r. }
  destruct (Z.eqb_spec (Tag_hd hd) String_tag) as [|N1].
  { destruct (caml_string_length H (Ptr b 0)) as [n| |] eqn:En; try discriminate. cbn [of_res] in D.
    destruct (Z.leb_spec 0 n); [|discriminate].
    destruct (bytes_at H (Ptr b 0) 0 (Z.to_nat n)) as [bs| |] eqn:Eb; try discriminate. injection D as <- <-.
    destruct (extern_string_wrote seen out n32 n64 st b hd ws W Hb E Hz Hn n bs En) as (st' & -> & W'); auto.
    eauto. }
  destruct (Z.eqb_spec (Tag_hd hd) Double_tag) as [|N2].
  { destruct (bytes_at H (Ptr b 0) 0 8) as [bs| |] eqn:Eb; try discriminate. injection D as <- <-.
    destruct (extern_double_wrote seen out n32 n64 st b hd ws W Hb E Hz Hn bs Eb) as (st' & -> & W'). eauto. }
  destruct (Z.eqb_spec (Tag_hd hd) Double_array_tag) as [|N3].
  { destruct (bytes_at H (Ptr b 0) 0 _) as [bs| |] eqn:Eb; try discriminate. injection D as <- <-.
    destruct (extern_double_array_wrote seen out n32 n64 st b hd ws W Hb E Hz Hn bs Eb) as (st' & -> & W'). eauto. }
  destruct (Z.eqb_spec (Tag_hd hd) Abstract_tag) as [|N4]; [discriminate|].
  destruct (Z.eqb_spec (Tag_hd hd) Infix_tag) as [|N5]; [discriminate|].
  destruct (Z.eqb_spec (Tag_hd hd) Custom_tag) as [|N6]; [discriminate|]. cbn [orb] in D. rewrite E in D.
  destruct (dump_list drec _ _) as [[ts' s']|] eqn:El; [|discriminate]. injection D as <- <-.
  apply (extern_block_wrote seen out n32 n64 st b hd ws); auto. now apply no_scan_cases.
Qed.

(** An object met again. *)
Lemma extern_object_shared seen out n32 n64 st b hd i :
  Wrote seen out n32 n64 st -> index b seen = Some i -> Wosize_hd hd <> 0 -> Color_hd hd = Caml_blue ->
  Z.of_nat (length seen) < 2 ^ 32 ->
  exists st', extern_object custom_at false rec (Ptr b 0) hd (Tag_hd hd) (Wosize_hd hd) st = EOk st' /\
    Wrote seen (out ++ enc (TShared (Z.of_nat (length seen) - Z.of_nat i))) n32 n64 st'.
Proof.
  intros W Hi Hz Hc L. unfold extern_object. rewrite (proj2 (Z.eqb_neq _ _) Hz), Hc, Z.eqb_refl.
  pose proof (w_inv _ _ _ _ _ W) as I.
  pose proof (index_Some _ _ _ Hi) as Hnth. pose proof (nth_error_In _ _ Hnth) as Hin.
  pose proof (proj1 (Forall_forall _ _) (inv_markable _ _ _ I) b Hin) as [Hb (hd0 & f0 & ws & E & Hok)].
  cbn [fld]. rewrite get_sblock_pos by auto. rewrite (inv_heap _ _ _ I), (mark_seen H seen b i hd0 f0 ws Hi E).
  cbn [Z.add nthZ Z.ltb Z.compare Z.to_nat nth_error of_option raw read].
  assert (Hil : (i < length seen)%nat) by (apply nth_error_Some; congruence).
  pose proof WORD_pos. assert (2 ^ 32 <= 2 ^ WORD) by (apply Z.pow_le_mono_r; lia).
  rewrite (inv_counter _ _ _ I), (wrap_small WORD (Z.of_nat (length seen))), (wrap_small WORD (Z.of_nat i)),
    (wrap_small WORD) by lia.
  now apply extern_shared_wrote.
Qed.

Lemma extern_object_atom seen out n32 n64 st v hd :
  Wrote seen out n32 n64 st -> Wosize_hd hd = 0 ->
  exists st', extern_object custom_at false rec v hd (Tag_hd hd) (Wosize_hd hd) st = EOk st' /\
    Wrote seen (out ++ enc (TAtom hd)) n32 n64 st'.
Proof.
  intros W Hz. unfold extern_object, MarshalDump.enc. rewrite Hz, Z.eqb_refl.
  destruct (_ <? _); next_write W E; eauto.
Qed.

(** A short-circuited forwarding block. *)
Lemma forward_target_wrote seen st b f : Inv H seen st -> 0 <= b -> ~ In b seen ->
  (forall hd ws, H b = Some (SBlock hd ws) -> Tag_hd hd = Forward_tag) ->
  forward_target H (Ptr b 0) = EOk (Some f) ->
  ptr_ok H f /\ forward_target (eheap st) (Ptr b 0) = EOk (Some f).
Proof.
  intros I Hb Hn Ht. unfold forward_target. cbn [fld]. rewrite !get_sblock_pos by auto.
  rewrite (inv_heap _ _ _ I), mark_unseen by auto. destruct (H b) as [[hd ws]|] eqn:E; [|discriminate].
  destruct ws as [|w ws]; [discriminate|].
  cbn [Z.add nthZ Z.ltb Z.compare Z.to_nat nth_error of_option read].
  assert (Pw : ptr_ok H w).
  { specialize (Ht hd (w :: ws) eq_refl). pose proof (hw_fields H Hwf b hd (w :: ws) Hb E) as Hall.
    rewrite Ht in Hall. specialize (Hall ltac:(reflexivity)). now inversion Hall. }
  destruct (Is_long_val w); [now intros [= <-]|]. destruct (negb (Is_in_value_area w)); [discriminate|].
  destruct (hd_of H w) as [hdw| |] eqn:Ew; [|discriminate..]. cbn [read].
  destruct (hd_of_wrote seen st w hdw I Pw Ew) as (hd' & -> & Et & _). cbn [read]. rewrite Et.
  destruct (_ || _); [discriminate|]. intros [= <-]. auto.
Qed.
End Rec.

Lemma infix_hd b ofs hd : infix_at H b ofs -> hd_of H (Ptr b ofs) = Ok hd ->
  Tag_hd hd = Infix_tag /\ Wosize_hd hd = ofs /\ Color_hd hd <> Caml_blue.
Proof.
  intros (Hb & Ho & hd0 & ws & ihd & [E _] & Ei & Hi) Hh. cbn [hd_of] in Hh.
  rewrite get_sblock_pos, E in Hh by auto. destruct (Z.eqb_spec ofs 0); [lia|].
  rewrite Ei in Hh. cbn in Hh. injection Hh as <-. exact Hi.
Qed.

(** [extern_rec] implements [dump]. *)
Lemma extern_rec_implements fuel : implements (extern_rec fuel) (dump fuel).
Proof.
  induction fuel as [|fuel IH]; intros v seen ts seen' st out n32 n64 D L P Hv W; [discriminate|].
  cbn [MarshalDump.dump Extern.extern_rec] in *.
  assert (K : forall t r, Some ([t], seen) = Some (ts, seen') -> tok_words 4 t = 0 -> tok_words 8 t = 0 ->
    (exists st', r = EOk st' /\ Wrote seen (out ++ enc t) n32 n64 st') ->
    exists st', r = EOk st' /\
      Wrote seen' (out ++ encs ts) (n32 + sum (tok_words 4) ts) (n64 + sum (tok_words 8) ts) st').
  { intros t r [= <- <-] T4 T8 X. unfold MarshalDump.encs. cbn [map concat sum].
    now rewrite app_nil_r, T4, T8, !Z.add_0_r. }
  destruct v as [w|b ofs|p|p]; [| | |discriminate].
  - destruct (Is_long w); [|discriminate]. apply (K _ _ D); auto. now apply extern_int_wrote.
  - destruct (hd_of H (Ptr b ofs)) as [hd| |] eqn:Eh; try discriminate. cbn [of_res] in D.
    destruct (hd_of_wrote seen st (Ptr b ofs) hd (w_inv _ _ _ _ _ W) Hv Eh) as (hd' & -> & Et & Es & View).
    cbn [read]. cbv zeta. rewrite Et, Es.
    destruct (Z.eqb_spec (Tag_hd hd) Forward_tag) as [Tf|Tf].
    + destruct (forward_target H (Ptr b ofs)) as [[f|]| |] eqn:Ef; try discriminate.
      assert (F0 : ofs = 0 /\ 0 <= b).
      { destruct Hv as [[-> _]|Hi].
        - split; auto. destruct (Z_lt_ge_dec b 0); [|lia]. exfalso. unfold forward_target, fld, get_sblock in Ef.
          rewrite (proj2 (Z.ltb_lt b 0)) in Ef by lia. discriminate.
        - destruct (infix_hd b ofs hd Hi Eh) as (Ti & _). rewrite Tf in Ti. discriminate. }
      destruct F0 as [-> Hb]. cbn [hd_of] in Eh. rewrite get_sblock_pos in Eh by auto.
      assert (Tall : forall hd0 ws, H b = Some (SBlock hd0 ws) -> Tag_hd hd0 = Forward_tag).
      { intros hd0 ws E. rewrite E in Eh. injection Eh as ->. exact Tf. }
      assert (Hn : ~ In b seen).
      { intros Hin. destruct (H b) as [[hd0 ws]|] eqn:E; [|discriminate].
        now apply (P b hd0 ws Hin E), (Tall hd0 ws). }
      destruct (forward_target_wrote seen st b f (w_inv _ _ _ _ _ W) Hb Hn Tall Ef) as [Pf ->].
      now apply (IH f seen ts seen' st).
    + destruct (Z.eqb_spec (Wosize_hd hd) 0) as [Hz|Hz].
      * apply (K _ _ D); auto. assert (hd' = hd) as ->.
        { destruct View as [(-> & Hin & _)|[_ V]]; auto. exfalso.
          pose proof (proj1 (Forall_forall _ _) (inv_markable _ _ _ (w_inv _ _ _ _ _ W)) b Hin) as [Hb (h0 & f0 & ws & E & _)].
          destruct (hw_header H Hwf b h0 _ Hb E) as (_ & _ & Hlen & _). cbn [hd_of] in Eh.
          rewrite get_sblock_pos, E in Eh by auto. injection Eh as ->. rewrite Hz in Hlen. unfold zlen in Hlen. cbn in Hlen. lia. }
        now apply extern_object_atom.
      * destruct (Z.eqb_spec ofs 0) as [->|Ho].
        -- destruct (index b seen) as [i|] eqn:Ei.
           ++ assert (Hin : In b seen) by (eapply nth_error_In, index_Some, Ei).
              destruct View as [(_ & _ & Hc)|[V _]]; [|now elim (V eq_refl)].
              apply (K _ _ D); auto. rewrite <- Et, <- Es. injection D as _ <-.
              apply extern_object_shared; auto; lia.
           ++ apply index_None in Ei. destruct (Z.leb_spec 0 b) as [Hb|]; [|discriminate].
              destruct View as [(_ & Hin & _)|[_ ->]]; [contradiction|].
              apply (extern_object_new (extern_rec fuel) (dump fuel) (dump_grows _ _ _ fuel) IH seen); auto.
        -- destruct Hv as [[-> _]|Hi]; [contradiction|]. destruct (infix_hd b ofs hd Hi Eh) as (Ti & Si & Ci).
           destruct View as [(-> & _)|[_ ->]]; [contradiction|]. unfold extern_object.
           rewrite (proj2 (Z.eqb_neq _ _) Hz), (proj2 (Z.eqb_neq _ _) Ci), Ti.
           change (Infix_tag =? String_tag) with false. change (Infix_tag =? Double_tag) with false.
           change (Infix_tag =? Double_array_tag) with false. change (Infix_tag =? Abstract_tag) with false.
           change (Infix_tag =? Infix_tag) with true. cbv iota. next_write W Ew.
           assert (Eo : Infix_offset_hd hd / sizeof_value = ofs).
           { unfold Infix_offset_hd, Bosize_hd, Bsize_wsize. rewrite Si. apply Z.div_mul.
             unfold sizeof_value. now destruct WORD_cases as [-> | ->]. }
           rewrite Eo, Z.sub_diag in *.
           destruct (dump fuel (Ptr b 0) seen) as [[ts1 seen1]|] eqn:D1; [|discriminate]. injection D as <- <-.
           destruct (IH _ _ _ _ _ _ _ _ D1 L P (ptr_ok_base H b ofs Hi) W) as (st2 & -> & W2).
           exists st2. split; [reflexivity|]. unfold MarshalDump.encs in *. cbn [map concat sum tok_words].
           now rewrite <- app_assoc in W2.
  - destruct (_ && _) eqn:Ec; [|discriminate]. apply (K _ _ D); auto. now apply extern_code_wrote.
Qed.
End Refine.

(** ** Number of objects *)

Section Objects.
Context {A : Arch} {F : FloatArch}.
Variable caml_code_size : Z.
Variable extern_closures : bool.
Variable H : sheap.

Definition counts (rec : value -> list Z -> option (list token * list Z)) : Prop :=
  forall v seen ts seen', rec v seen = Some (ts, seen') ->
  Z.of_nat (length seen') = Z.of_nat (length seen) + sum tok_objs ts.

Lemma dump_list_counts rec : counts rec -> forall l seen ts seen',
  dump_list rec l seen = Some (ts, seen') ->
  Z.of_nat (length seen') = Z.of_nat (length seen) + sum tok_objs ts.
Proof.
  intros Hr. induction l as [|v l IH]; cbn [dump_list]; intros seen ts seen'.
  - intros [= <- <-]. cbn. lia.
  - destruct (rec v seen) as [[ts1 seen1]|] eqn:E1; [|discriminate].
    destruct (dump_list rec l seen1) as [[ts2 seen2]|] eqn:E2; [|discriminate]. intros [= <- <-].
    rewrite sum_app. apply Hr in E1. apply IH in E2. lia.
Qed.

Lemma dump_block_counts rec b hd seen ts seen' : counts rec -> dump_block H rec b hd seen = Some (ts, seen') ->
  Z.of_nat (length seen') = Z.of_nat (length seen) + sum tok_objs ts.
Proof.
  intros Hr. unfold dump_block.
  assert (K : forall t, tok_objs t = 1 -> Some ([t], seen ++ [b]) = Some (ts, seen') ->
    Z.of_nat (length seen') = Z.of_nat (length seen) + sum tok_objs ts).
  { intros t Ht [= <- <-]. rewrite length_app. cbn [length sum]. lia. }
  destruct (_ =? _); [|destruct (_ =? _); [|destruct (_ =? _); [|destruct (_ || _); [discriminate|]]]].
  - destruct (of_res _); [|discriminate]. destruct (of_res _); [|discriminate]. now apply K.
  - destruct (of_res _); [|discriminate]. now apply K.
  - destruct (of_res _); [|discriminate]. now apply K.
  - destruct (H b) as [blk|]; [|discriminate].
    destruct (dump_list rec (swords blk) (seen ++ [b])) as [[ts' s']|] eqn:E; [|discriminate].
    intros [= <- <-]. apply (dump_list_counts rec Hr) in E. rewrite length_app in E. cbn [length sum tok_objs] in *. lia.
Qed.

Lemma dump_counts fuel : counts (dump caml_code_size extern_closures H fuel).
Proof.
  induction fuel as [|fuel IH]; intros v seen ts seen'; cbn [dump]; [discriminate|].
  assert (K : forall t, tok_objs t = 0 -> Some ([t], seen) = Some (ts, seen') ->
    Z.of_nat (length seen') = Z.of_nat (length seen) + sum tok_objs ts).
  { intros t Ht [= <- <-]. cbn [sum]. lia. }
  destruct v as [w|b ofs|p|p]; [destruct (Is_long w); [now apply K | discriminate]| |
    destruct (_ && _); [now apply K | discriminate] | discriminate].
  destruct (of_res _) as [hd|]; [|discriminate].
  destruct (_ =? _).
  { destruct (forward_target H (Ptr b ofs)) as [[f|]| |]; [apply IH | discriminate..]. }
  destruct (_ =? _); [now apply K|]. destruct (_ =? _).
  - destruct (index b seen); [now apply K|]. destruct (_ <=? _); [|discriminate]. now apply dump_block_counts.
  - destruct (dump _ _ H fuel _ seen) as [[ts1 seen1]|] eqn:E1; [|discriminate]. intros [= <- <-].
    apply IH in E1. cbn [sum tok_objs]. lia.
Qed.
End Objects.

(** ** The whole message *)

Lemma output_first o : exists r, output o = first_block o ++ r.
Proof.
  unfold output, first_block. destruct (blocks o) as [|b bs]; cbn [concat]; [now exists [] ; rewrite app_nil_r|].
  exists (concat bs ++ cur o). now rewrite app_assoc.
Qed.

Lemma overwrite_app ofs bs l r : (ofs + length bs <= length l)%nat ->
  overwrite ofs bs (l ++ r) = overwrite ofs bs l ++ r.
Proof.
  intros Hl. unfold overwrite. rewrite firstn_app, skipn_app, <- !app_assoc.
  replace (ofs - length l)%nat with O by lia. replace (ofs + length bs - length l)%nat with O by lia.
  cbn [firstn skipn]. reflexivity.
Qed.

Lemma patch_first_output ofs bs o : (ofs + length bs <= length (first_block o))%nat ->
  output (patch_first ofs bs o) = overwrite ofs bs (output o).
Proof.
  unfold patch_first, output, first_block. destruct (blocks o) as [|b bl]; cbn [blocks cur concat]; intros Hl; auto.
  now rewrite <- !app_assoc, overwrite_app.
Qed.

(** The bytes of a message: the magic number, the length of the data, the number
    of objects, their sizes in words on 32- and 64-bit machines, the data. *)
Definition message (n objs s32 s64 : Z) (data : list Z) : list Z :=
  be_bytes 4 Intext_magic_number ++ be_bytes 4 n ++ be_bytes 4 objs ++ be_bytes 4 s32 ++ be_bytes 4 s64 ++ data.

Lemma bytes32_be x : bytes32 x = be_bytes 4 x.
Proof. symmetry. apply be4. Qed.

Lemma overwrite_message junk sizes data : length junk = 16%nat -> length sizes = 16%nat ->
  overwrite 4 sizes (be_bytes 4 Intext_magic_number ++ junk ++ data) =
  be_bytes 4 Intext_magic_number ++ sizes ++ data.
Proof.
  intros Hj Hs. unfold overwrite. rewrite Hs.
  change 4%nat with (length (be_bytes 4 Intext_magic_number)) at 1.
  rewrite firstn_app, Nat.sub_diag, firstn_all. cbn [firstn]. rewrite app_nil_r. do 2 f_equal.
  rewrite app_assoc, skipn_app, length_app, Hj, be_bytes_length.
  rewrite skipn_all2 by (rewrite length_app, Hj, be_bytes_length; lia). reflexivity.
Qed.

Lemma be_bytes4_wrap {A : Arch} x : be_bytes 4 (wrap WORD x) = be_bytes 4 x.
Proof.
  assert (Hb : forall k, 0 <= k -> k + 8 <= WORD -> byte (Z.shiftr (wrap WORD x) k) = byte (Z.shiftr x k)).
  { intros k Hk Hw. unfold byte, wrap. apply Z.bits_inj'. intros i Hi.
    destruct (Z_lt_ge_dec i 8).
    - rewrite !Z.mod_pow2_bits_low, !Z.shiftr_spec, Z.mod_pow2_bits_low by lia. reflexivity.
    - now rewrite !Z.mod_pow2_bits_high by lia. }
  pose proof WORD_pos. rewrite !be4, !Hb by lia. pose proof (Hb 0) as H0. rewrite !Z.shiftr_0_r in H0.
  now rewrite H0 by lia.
Qed.

Lemma len_be4 x : len (be_bytes 4 x) = 4.
Proof. unfold len. now rewrite be_bytes_length. Qed.

(** The state after the magic number and the room for the sizes. *)
Lemma Wrote_start {A : Arch} H junk : length junk = 16%nat ->
  let o1 := put junk (put (bytes32 Intext_magic_number) init_extern_output) in
  Wrote H o1 [] (be_bytes 4 Intext_magic_number ++ junk) 0 0 (Ext o1 H 0 0 0 [] []).
Proof.
  intros Hj o1. assert (Z0 : 0 = wrap WORD 0) by (symmetry; apply wrap_small; split; [lia | apply pow2_pos; pose proof WORD_pos; lia]).
  split; auto; [apply Inv_init|]. split; [|discriminate]. change (cap (eout _)) with 8100.
  change (cur (eout _)) with (bytes32 Intext_magic_number ++ junk). rewrite len_app. unfold len at 2. rewrite Hj.
  change (len (bytes32 Intext_magic_number)) with 4. lia.
Qed.

Section Message.
Context {A : Arch} {F : FloatArch}.
Variable custom_at : Z -> option custom_operations.
Variable code_size : Z.
Variable checksum : list Z.
Variable closures : bool.
Variable H : sheap.
Hypothesis Hwf : heap_wf H.

(** The message for the tokens [ts]. *)
Definition message_of (ts : list token) : list Z :=
  let data := encs checksum ts in
  message (len data) (sum tok_objs ts) (sum (tok_words 4) ts) (sum (tok_words 8) ts) data.

Lemma extern_value_message junk fuel v ts seen : ptr_ok H v -> length junk = 16%nat ->
  dump code_size closures H fuel v [] = Some (ts, seen) -> sum tok_objs ts < 2 ^ 32 ->
  0 <= sum (tok_words 4) ts < 2 ^ 32 -> 0 <= sum (tok_words 8) ts < 2 ^ 32 ->
  exists o h, heap_eq h H /\ output o = message_of ts /\
    extern_value custom_at code_size checksum false closures junk fuel v init_extern_output H =
    if ARCH_SIXTYFOUR && (2 ^ 32 <=? len (message_of ts))
    then ERaise (Failure "output_value: object too big") h else EOk (len (message_of ts), o, h).
Proof.
  intros Hv Hj D Lo L4 L8. unfold extern_value.
  pose proof (dump_counts code_size closures H fuel _ _ _ _ D) as Cn. cbn [length] in Cn.
  set (o1 := put junk (put (bytes32 Intext_magic_number) init_extern_output)).
  assert (E1 : write (write32 Intext_magic_number) (Ext init_extern_output H 0 0 0 [] []) =
    EOk (Ext (put (bytes32 Intext_magic_number) init_extern_output) H 0 0 0 [] [])) by reflexivity.
  rewrite E1. cbv zeta. match goal with |- context [set_eout ?o ?s] =>
    change (set_eout o s) with (Ext o1 H 0 0 0 [] []) end.
  pose proof (Wrote_start H junk Hj) as W0. cbv zeta in W0. fold o1 in W0.
  destruct (extern_rec_implements custom_at code_size checksum closures H Hwf o1 fuel v [] ts seen
    _ _ _ _ D ltac:(lia) ltac:(intros ? ? ? []) Hv W0) as (st & -> & W). cbn [Z.add] in W.
  destruct W as [I O U Wo Wg W4 W8].
  destruct (replay_trail_ok H seen st I) as (h & -> & Hh). cbn [read].
  set (o := patch_first 4 _ (eout st)). exists o, h. split; [exact Hh|].
  rewrite extern_output_length_spec, Wo by auto.
  pose proof WORD_pos. assert (2 ^ 32 <= 2 ^ WORD) by (apply Z.pow_le_mono_r; lia).
  rewrite W4, W8, !wrap_small by lia. change (Z.shiftl 1 32) with (2 ^ 32).
  rewrite (proj2 (Z.leb_gt _ (sum (tok_words 4) ts))), (proj2 (Z.leb_gt _ (sum (tok_words 8) ts))), !orb_false_r by lia.
  assert (Ln : len ((be_bytes 4 Intext_magic_number ++ junk) ++ encs checksum ts) = 20 + len (encs checksum ts)).
  { rewrite !len_app. unfold len. rewrite Hj, be_bytes_length. lia. }
  assert (Lm : len (message_of ts) = 20 + len (encs checksum ts)).
  { unfold message_of, message. rewrite !len_app, !len_be4. lia. }
  rewrite Ln, Lm. split; [|reflexivity]. unfold o. rewrite extern_output_length_spec, Wo, Ln, W4, W8, !wrap_small by (auto; lia).
  rewrite patch_first_output, Wo.
  - rewrite <- app_assoc, overwrite_message by (auto; rewrite !length_app, !bytes32_be, !be_bytes_length; reflexivity).
    unfold message_of, message. rewrite (bytes32_be (_ - _)), (bytes32_be (obj_counter st)),
      (bytes32_be (sum (tok_words 4) ts)), (bytes32_be (sum (tok_words 8) ts)), <- !app_assoc.
    rewrite (inv_counter _ _ _ I), be_bytes4_wrap, Cn. f_equal. f_equal. f_equal. lia.
  - destruct Wg as [t Et]. rewrite Et.
    assert (L1 : length (first_block o1) = 20%nat) by (unfold o1, first_block, put, init_extern_output; cbn [blocks cur]; rewrite !length_app, Hj; reflexivity).
    rewrite !length_app, L1. cbn [bytes32 length]. lia.
Qed.

(** As a string, when the string can be allocated and no output block has two
    gigabytes. *)
Lemma output_value_message junk fuel v ts seen : ptr_ok H v -> length junk = 16%nat ->
  dump code_size closures H fuel v [] = Some (ts, seen) -> sum tok_objs ts < 2 ^ 32 ->
  0 <= sum (tok_words 4) ts < 2 ^ 32 -> 0 <= sum (tok_words 8) ts < 2 ^ 32 -> len (message_of ts) < 2 ^ 31 ->
  exists h, heap_eq h H /\
    caml_output_value_to_string custom_at code_size checksum false closures junk fuel v H =
    if Max_wosize <? string_words (len (message_of ts)) then ERaise Out_of_memory h else EOk (message_of ts, h).
Proof.
  intros Hv Hj D Lo L4 L8 Lm. destruct (extern_value_message junk fuel v ts seen Hv Hj D Lo L4 L8) as (o & h & Hh & Ho & E).
  exists h. split; [exact Hh|]. unfold caml_output_value_to_string. rewrite E, (proj2 (Z.leb_gt (2 ^ 32) _)), andb_false_r by lia.
  destruct (_ <? _); [reflexivity|]. now rewrite extern_output_contents_spec, Ho by now rewrite Ho.
Qed.
End Message.
