(* ===== verification/MarshalIso.v ===== *)
(** MarshalIso: the graph built by [intern_rec] from the tokens of a traversal is
    isomorphic to the graph traversed, by a simulation. *)
From Stdlib Require Import ZArith Lia Bool Ascii String List.
From S2P Require Import Prelude Mlvalues ExternOutput InternInput Custom InterpState InterpCalls MarshalHeap Extern Intern MarshalBytes MarshalTrail MarshalRestore MarshalDump MarshalDecode MarshalRead MarshalRefine.
Import ListNotations.
Local Open Scope Z_scope.

(** ** Isomorphism

    The block [seen[i]] of the heap [H], on the machine [A1] that writes, is
    copied at the address [ad[i]] of the area of the machine [A2] that reads. *)

Section Iso.
Context {A1 : Arch} {F1 : FloatArch} {A2 : Arch} {F2 : FloatArch}.
Variable intern_color : Z.
Variable H : sheap.

Inductive img (seen ad : list Z) : value -> value -> Prop :=
  | img_int n : img seen ad (Imm (@Val_long A1 n)) (Imm (@Val_long A2 n))
  | img_atom b hd : @hd_of A1 H (Ptr b 0) = Ok hd -> Wosize_hd hd = 0 -> img seen ad (Ptr b 0) (Atom (Tag_hd hd))
  | img_block b i a : nth_error seen i = Some b -> nth_error ad i = Some a ->
      img seen ad (Ptr b 0) (Ptr intern_area a)
  | img_infix b ofs i a : 0 < ofs -> nth_error seen i = Some b -> nth_error ad i = Some a ->
      img seen ad (Ptr b ofs) (Ptr intern_area (a + ofs))
  | img_code p : img seen ad (Cptr p) (Cptr p)
  | img_forward b hd f v : @hd_of A1 H (Ptr b 0) = Ok hd -> Tag_hd hd = Forward_tag ->
      @forward_target A1 H (Ptr b 0) = EOk (Some f) -> img seen ad f v -> img seen ad (Ptr b 0) v.

Lemma img_mono seen ad s a v v' : img seen ad v v' -> img (seen ++ s) (ad ++ a) v v'.
Proof.
  assert (N : forall (l r : list Z) i x, nth_error l i = Some x -> nth_error (l ++ r) i = Some x).
  { intros l r i x E. rewrite nth_error_app1; auto. apply nth_error_Some. congruence. }
  induction 1; econstructor; eauto.
Qed.

(** The copy of block [b] at [a], in the part [lo, hi) of the area: same tag and
    size, a size that the header can hold, corresponding fields; for strings and
    doubles, same contents. *)
Definition contents_img (seen ad : list Z) (b hd : Z) (words : list value) (m : Z -> value) (a size : Z) : Prop :=
  let tag := Tag_hd hd in
  if tag =? String_tag then
    exists n bs, @caml_string_length A1 H (Ptr b 0) = Ok n /\ @bytes_at A1 H (Ptr b 0) 0 (Z.to_nat n) = Ok bs /\
      size = string_size bs /\ string_at m a bs
  else if tag =? Double_tag then
    exists bs, @bytes_at A1 H (Ptr b 0) 0 8 = Ok bs /\ size = Double_wosize /\
      doubles_at (@float_big_endian F1) m a bs
  else if tag =? Double_array_tag then
    exists n bs, n = Wosize_hd hd / @Double_wosize A1 /\ @bytes_at A1 H (Ptr b 0) 0 (Z.to_nat (n * 8)) = Ok bs /\
      size = n * Double_wosize /\ doubles_at (@float_big_endian F1) m a bs
  else size = Wosize_hd hd /\ forall k x, nthZ words k = Some x -> img seen ad x (m (a + k)).

Definition block_img (seen ad : list Z) (lo hi : Z) (m : Z -> value) (b a : Z) : Prop :=
  0 <= b /\ exists hd words size, H b = Some (SBlock hd words) /\ lo <= a - 1 /\ a + size <= hi /\ 0 < size <= @Max_wosize A2 /\
    m (a - 1) = Imm (@Make_header A2 size (Tag_hd hd) intern_color) /\
    contents_img seen ad b hd words m a size.

Lemma mem_byte_frame m m' a size j : (forall w, a <= w < a + size -> m' w = m w) ->
  0 <= j < size * sizeof_value -> mem_byte m' a j = mem_byte m a j.
Proof. intros Hm Hj. destruct (byte_index j size Hj) as [Hq _]. unfold mem_byte. now rewrite Hm by lia. Qed.

Lemma doubles_frame m m' a size big bs : (forall w, a <= w < a + size -> m' w = m w) ->
  len bs <= size * sizeof_value -> doubles_at big m a bs -> doubles_at big m' a bs.
Proof. intros Hm Hs Hd j Hj. rewrite (mem_byte_frame m m' a size) by (auto; lia). now apply Hd. Qed.

Lemma len_bytes {A : Arch} h v i n bs : bytes_at h v i n = Ok bs -> len bs = Z.of_nat n.
Proof. intros E. unfold len. now rewrite (bytes_at_length h v n i bs E). Qed.

(** Later writes elsewhere keep the copy. *)
Lemma block_img_frame seen ad s ad' lo hi lo' hi' m m' b a : block_img seen ad lo hi m b a ->
  (forall w, lo <= w < hi -> m' w = m w) -> lo' <= lo -> hi <= hi' ->
  (forall b hd ws, 0 <= b -> H b = Some (SBlock hd ws) -> zlen ws = Wosize_hd hd) ->
  block_img (seen ++ s) (ad ++ ad') lo' hi' m' b a.
Proof.
  intros (Hb & hd & ws & size & E & L1 & L2 & L3 & Eh & C) Hm Hlo Hhi Hz. split; auto. exists hd, ws, size.
  assert (Ha : forall w, a <= w < a + size -> m' w = m w) by (intros; apply Hm; lia).
  conj; auto; try lia; [rewrite Hm by lia; auto|].
  unfold contents_img in *. pose proof (@Double_wosize_eq A2) as Hd. pose proof (@sizeof_value_pos A2) as Hp.
  destruct (Tag_hd hd =? String_tag); [|destruct (Tag_hd hd =? Double_tag); [|destruct (Tag_hd hd =? Double_array_tag)]].
  - destruct C as (n & bs & C1 & C2 & -> & C4). exists n, bs. conj; auto. intros j Hj.
    rewrite (mem_byte_frame m m' a (string_size bs)) by auto. now apply C4.
  - destruct C as (bs & C1 & -> & C3). exists bs. conj; auto.
    apply doubles_frame with m Double_wosize; auto. rewrite (len_bytes _ _ _ _ _ C1). lia.
  - destruct C as (n & bs & En & C1 & -> & C3). exists n, bs. conj; auto.
    apply doubles_frame with m (n * Double_wosize); auto. rewrite (len_bytes _ _ _ _ _ C1).
    rewrite <- Z.mul_assoc, Hd. lia.
  - destruct C as [-> C]. split; auto. intros k x Hk. rewrite Ha.
    + apply img_mono. auto.
    + rewrite <- (Hz _ _ _ Hb E). unfold nthZ in Hk. destruct (Z.ltb_spec k 0); [discriminate|].
      assert (Z.to_nat k < length ws)%nat by (apply nth_error_Some; congruence). unfold zlen. lia.
Qed.
End Iso.

(** ** Destinations *)

Definition at_dest (dest : destination) (st : int_state) : value :=
  match dest with Var => ivar st | At a => imem st a end.
Definition dest_ok (dest : destination) (st : int_state) : Prop :=
  match dest with Var => True | At a => 0 <= a < idest st end.

Lemma store_ok dest v st : dest_ok dest st -> idest st <= iend st ->
  exists st', store dest v st = Ok st' /\ at_dest dest st' = v /\
    isrc st' = isrc st /\ idest st' = idest st /\ iend st' = iend st /\ table_size st' = table_size st /\
    intern_obj_table st' = intern_obj_table st /\
    (forall w, dest <> At w -> imem st' w = imem st w) /\ (dest <> Var -> ivar st' = ivar st).
Proof.
  intros Hd He. destruct dest as [|a]; cbn [store dest_ok] in *.
  - eexists. split; [reflexivity|]. cbn. conj; auto. easy.
  - rewrite store_word_ok by lia. eexists. split; [reflexivity|]. cbn. rewrite Z.eqb_refl. conj; auto.
    intros w Hw. destruct (Z.eqb_spec w a); congruence.
Qed.

Section Sim.
Context {A1 : Arch} {F1 : FloatArch} {A2 : Arch} {F2 : FloatArch}.
Variable custom_at : Z -> option custom_operations.
Variable custom_ops_table : list Z.
Variable checksum : list Z.
Variable intern_color : Z.
Variable H : sheap.
Hypothesis Hwf : @heap_wf A1 H.

Notation encs := (@encs A1 F1 checksum).
Notation img := (img (A1 := A1) (A2 := A2) H).
Notation block_img := (block_img (A1 := A1) (F1 := F1) (A2 := A2) (F2 := F2) intern_color H).
Notation words := (sum (tok_words (@sizeof_value A2))).

(** Distinct objects are at distinct addresses, below [intern_dest]. *)
Definition addr_ok (ad : list Z) (d : Z) : Prop := NoDup ad /\ Forall (fun a => a <= d) ad.

Lemma addr_ok_snoc ad d d' : addr_ok ad d -> d + 1 <= d' -> addr_ok (ad ++ [d + 1]) d'.
Proof.
  intros [Hn Hf] Hd. rewrite Forall_forall in Hf. split.
  - apply NoDup_app; auto; [repeat constructor; auto|]. intros x Hx [<-|[]]. apply Hf in Hx. lia.
  - apply Forall_app. split; [apply Forall_forall; intros x Hx; apply Hf in Hx; lia | repeat constructor; lia].
Qed.

(** The reader is ready for the tokens [ts], having read the blocks [seen] at
    the addresses [ad]. *)
Record ready (seen ad : list Z) (ts : list token) (rest : list Z) (st : int_state) : Prop := {
  rd_src : isrc st = encs ts ++ rest;
  rd_len : length ad = length seen;
  rd_addr : addr_ok ad (idest st);
  rd_table : table_ok ad st;
  rd_objs : zlen ad + sum tok_objs ts <= table_size st;
  rd_pos : 0 <= idest st;
  rd_room : idest st + words ts <= iend st;
  rd_fresh : fresh st }.

(** What has been read: [seen'] at the addresses [ad'], the words outside the
    new part of the area unchanged except [keep]. *)
Record done (seen seen' ad' : list Z) (ts : list token) (rest : list Z) (keep : Z -> Prop) (st st' : int_state) : Prop := {
  dn_src : isrc st' = rest;
  dn_dest : idest st' = idest st + words ts;
  dn_end : iend st' = iend st;
  dn_size : table_size st' = table_size st;
  dn_len : length ad' = length seen';
  dn_addr : addr_ok ad' (idest st');
  dn_table : table_ok ad' st';
  dn_frame : forall w, keep w \/ idest st' <= w -> imem st' w = imem st w;
  dn_blocks : forall i b a, (length seen <= i)%nat -> nth_error seen' i = Some b -> nth_error ad' i = Some a ->
    block_img seen' ad' (idest st) (idest st') (imem st') b a }.

Definition reads (rec : destination -> int_state -> res int_state)
    (drec : value -> list Z -> option (list token * list Z)) : Prop :=
  forall v seen ts seen' (ad : list Z) dest rest st,
  drec v seen = Some (ts, seen') -> ptr_ok H v -> Forall (tok_fits A1 A2) ts ->
  ready seen ad ts rest st -> dest_ok dest st ->
  exists ad' st', rec dest st = Ok st' /\
    done seen seen' (ad ++ ad') ts rest (fun w => w < idest st /\ dest <> At w) st st' /\
    (dest <> Var -> ivar st' = ivar st) /\
    img seen' (ad ++ ad') v (at_dest dest st').

Lemma tok_words_nonneg t : tok_fits A1 A2 t -> 0 <= tok_words (@sizeof_value A2) t.
Proof.
  pose proof (@sizeof_value_pos A2) as Hp. pose proof (@Double_wosize_eq A2) as Hd. unfold Double_wosize in Hd.
  assert (Hq : 0 < 8 / @sizeof_value A2) by (apply Z.mul_pos_cancel_r with (@sizeof_value A2); lia).
  destruct t as [n|hd|d|bs|bs|n bs|hd|ofs|p]; cbn [tok_words tok_fits]; intros Hf; try lia.
  destruct (@string_size_bounds A2 bs) as [_ Hs]. unfold string_size in Hs. lia.
Qed.

Lemma words_nonneg ts : Forall (tok_fits A1 A2) ts -> 0 <= words ts.
Proof. induction 1 as [|t ts Ht _ IH]; cbn [sum]; [lia|]. pose proof (tok_words_nonneg t Ht). lia. Qed.

Lemma block_sizes b hd ws : 0 <= b -> H b = Some (SBlock hd ws) -> zlen ws = Wosize_hd hd.
Proof. intros Hb E. symmetry. apply (hw_header H Hwf b hd ws Hb E). Qed.

(** ** Fields *)

Section Rec.
Variable rec : destination -> int_state -> res int_state.
Variable drec : value -> list Z -> option (list token * list Z).
Hypothesis Hgrows : grows H drec.
Hypothesis Hcounts : counts drec.
Hypothesis Hreads : reads rec drec.

Lemma done_ready seen seen' ad ad' ts1 ts2 rest keep st st' : Forall (tok_fits A1 A2) ts1 ->
  Z.of_nat (length seen') = Z.of_nat (length seen) + sum tok_objs ts1 ->
  ready seen ad (ts1 ++ ts2) rest st -> done seen seen' ad' ts1 (encs ts2 ++ rest) keep st st' ->
  ready seen' ad' ts2 rest st'.
Proof.
  intros Hf Hc [R1 R2 Ra R3 R4 R5 R6 R7] [D1 D2 D3 D4 D5 Da D6 D7 _]. pose proof (words_nonneg ts1 Hf).
  rewrite sum_app in R4, R6. unfold zlen in *. split; auto; [unfold zlen; lia | lia | lia |].
  intros w Hw. rewrite D7 by lia. apply R7. lia.
Qed.

Lemma ready_first seen ad ts1 ts2 rest st : Forall (tok_fits A1 A2) ts2 -> 0 <= sum tok_objs ts2 ->
  ready seen ad (ts1 ++ ts2) rest st -> ready seen ad ts1 (encs ts2 ++ rest) st.
Proof.
  intros Hf Hc [R1 R2 Ra R3 R4 R5 R6 R7]. pose proof (words_nonneg ts2 Hf). rewrite sum_app in R4, R6.
  split; auto; try lia. rewrite R1, encs_app. symmetry. apply app_assoc.
Qed.

Lemma objs_nonneg ts : 0 <= sum tok_objs ts.
Proof. induction ts as [|t ts IH]; cbn [sum]; [lia|]. destruct t; cbn [tok_objs]; lia. Qed.

Lemma reads_fields l : forall a seen ts seen' (ad : list Z) rest st,
  dump_list drec l seen = Some (ts, seen') -> Forall (ptr_ok H) l -> Forall (tok_fits A1 A2) ts ->
  ready seen ad ts rest st -> 0 <= a -> a + zlen l <= idest st ->
  exists ad' st', intern_fields rec a (length l) st = Ok st' /\
    done seen seen' (ad ++ ad') ts rest (fun w => w < idest st /\ (w < a \/ a + zlen l <= w)) st st' /\
    ivar st' = ivar st /\
    (forall k x, nthZ l k = Some x -> img seen' (ad ++ ad') x (imem st' (a + k))).
Proof.
  induction l as [|v l IH]; intros a seen ts seen' ad rest st D Hp Hf R Ha Hl.
  - injection D as <- <-. exists [], st. rewrite app_nil_r. split; [reflexivity|]. destruct R.
    conj; auto; [split; auto; cbn [sum]; try lia|].
    + intros i b x Hi Hb. assert (i < length seen)%nat by (apply nth_error_Some; congruence). lia.
    + intros k x Hk. unfold nthZ in Hk. destruct (_ <? _); [discriminate|]. now destruct (Z.to_nat k).
  - cbn [dump_list] in D. destruct (drec v seen) as [[ts1 seen1]|] eqn:D1; [|discriminate].
    destruct (dump_list drec l seen1) as [[ts2 seen2]|] eqn:D2; [|discriminate]. injection D as <- <-.
    inversion Hp as [|? ? Hpv Hpl]; subst. apply Forall_app in Hf as [Hf1 Hf2].
    destruct (Hgrows _ _ _ _ D1) as [[s1 ->] _]. destruct (dump_list_grows H drec Hgrows _ _ _ _ D2) as [[s2 ->] _].
    unfold zlen in Hl. cbn [length] in Hl.
    destruct (Hreads v seen ts1 _ ad (At a) (encs ts2 ++ rest) st D1 Hpv Hf1) as (ad1 & st1 & E1 & N1 & V1 & I1).
    { now apply ready_first; [|apply objs_nonneg|]. } { cbn. lia. }
    pose proof (done_ready _ _ _ _ _ _ _ _ _ _ Hf1 (Hcounts _ _ _ _ D1) R N1) as R1.
    pose proof (words_nonneg ts1 Hf1) as Hw1. pose proof (words_nonneg ts2 Hf2) as Hw2.
    pose proof (dn_dest _ _ _ _ _ _ _ _ N1) as Ed1.
    destruct (IH (a + 1) _ _ _ _ _ _ D2 Hpl Hf2 R1) as (ad2 & st2 & E2 & N2 & V2 & I2); [lia|unfold zlen; lia|].
    exists (ad1 ++ ad2), st2. cbn [intern_fields length]. rewrite E1. split; [exact E2|]. rewrite app_assoc.
    pose proof (dn_dest _ _ _ _ _ _ _ _ N2) as Ed2. pose proof (dn_frame _ _ _ _ _ _ _ _ N2) as F2'.
    split; [|split].
    + destruct N1 as [A1' B1 C1 G1 L1 K1 T1 FR1 BL1]. destruct N2 as [A2' B2 C2 G2 L2 K2 T2 FR2 BL2].
      split; auto; try congruence.
      * rewrite sum_app. lia.
      * unfold zlen in *. cbn [length] in *. intros w Hw.
        rewrite FR2 by lia. apply FR1. destruct Hw as [[Hw1' Hw2']|Hw]; [left; split; [lia|]|right; lia].
        intros [= ->]. lia.
      * intros i b x Hi Hb Hx. destruct (Nat.lt_ge_cases i (length (seen ++ s1))) as [Hlt|Hge].
        -- rewrite nth_error_app1 in Hb by auto. rewrite nth_error_app1 in Hx by lia.
           apply block_img_frame with (idest st) (idest st1) (imem st1);
             [now apply (BL1 i) | | lia | lia | apply block_sizes].
           intros w Hw. apply FR2. unfold zlen in *. lia.
        -- pose proof (BL2 i b x Hge Hb Hx) as B.
           rewrite <- (app_nil_r ((seen ++ s1) ++ s2)), <- (app_nil_r ((ad ++ ad1) ++ ad2)).
           apply block_img_frame with (idest st1) (idest st2) (imem st2);
             [exact B | auto | lia | lia | apply block_sizes].
    + rewrite V2. apply V1. discriminate.
    + intros k x Hk. destruct (Z.eq_dec k 0) as [->|Hk0].
      * cbn in Hk. injection Hk as <-. rewrite Z.add_0_r, F2' by (unfold zlen in *; lia). now apply img_mono.
      * assert (0 < k). { unfold nthZ in Hk. destruct (Z.ltb_spec k 0); [discriminate|lia]. }
        rewrite nthZ_cons in Hk by lia. replace (a + k) with (a + 1 + (k - 1)) by lia. auto.
Qed.
End Rec.

(** ** Tokens without fields *)

Definition keeps (dest : destination) (st : int_state) (w : Z) : Prop := w < idest st /\ dest <> At w.

(** A value stored at its destination: nothing new is allocated. *)
Lemma leaf_result seen ad t rest st dest v v' : ready seen ad [t] rest st ->
  tok_words (@sizeof_value A2) t = 0 -> dest_ok dest st -> img seen ad v v' ->
  exists ad' st', store dest v' (set_isrc rest st) = Ok st' /\
    done seen seen (ad ++ ad') [t] rest (keeps dest st) st st' /\
    (dest <> Var -> ivar st' = ivar st) /\ img seen (ad ++ ad') v (at_dest dest st').
Proof.
  intros [R1 R2 Ra R3 R4 R5 R6 R7] Hw Hd Hi. cbn [sum] in *. exists []. rewrite app_nil_r.
  destruct (store_ok dest v' (set_isrc rest st)) as (st' & E & V & S1 & S2 & S3 & S4 & S5 & S6 & S7);
    [now destruct dest | cbn [idest iend set_isrc]; lia |].
  exists st'. cbn [isrc idest iend ivar table_size imem intern_obj_table set_isrc] in *.
  split; [exact E|]. rewrite V. conj; auto. split; auto; cbn [sum]; try congruence; try lia.
  - unfold table_ok in *. now rewrite S5, S4.
  - intros w [[_ Hn]|Hge]; apply S6; auto. intros ->. cbn in Hd. lia.
  - intros i b x Hi2 Hb. assert (i < length seen)%nat by (apply nth_error_Some; congruence). lia.
Qed.

(** An object without pointers, then stored at its destination. *)
Lemma object_result seen ad t rest st st1 dest b hd wds size : ready seen ad [t] rest st ->
  tok_words (@sizeof_value A2) t = 1 + size -> 0 < size <= @Max_wosize A2 -> 0 <= b -> H b = Some (SBlock hd wds) ->
  moved rest (ad ++ [idest st + 1]) (idest st + (1 + size)) st st1 ->
  imem st1 (idest st) = Imm (@Make_header A2 size (Tag_hd hd) intern_color) ->
  contents_img (A1 := A1) (F1 := F1) (A2 := A2) (F2 := F2) H (seen ++ [b]) (ad ++ [idest st + 1]) b hd wds
    (imem st1) (idest st + 1) size -> dest_ok dest st ->
  exists ad' st', store dest (Ptr intern_area (idest st + 1)) st1 = Ok st' /\
    done seen (seen ++ [b]) (ad ++ ad') [t] rest (keeps dest st) st st' /\
    (dest <> Var -> ivar st' = ivar st) /\ img (seen ++ [b]) (ad ++ ad') (Ptr b 0) (at_dest dest st').
Proof.
  intros [R1 R2 Ra R3 R4 R5 R6 R7] Hw Hs Hb E [M1 M2 M3 M4 M5 M6 M7] Hh Hc Hd. cbn [sum] in *.
  set (a := idest st + 1) in *. exists [a].
  destruct (store_ok dest (Ptr intern_area a) st1) as (st' & Es & V & S1 & S2 & S3 & S4 & S5 & S6 & S7);
    [destruct dest; cbn [dest_ok] in *; [exact I | lia] | lia |].
  exists st'. split; [exact Es|].
  assert (Nb : nth_error (seen ++ [b]) (length seen) = Some b) by (rewrite nth_error_app2, Nat.sub_diag by lia; reflexivity).
  assert (Na : nth_error (ad ++ [a]) (length seen) = Some a) by (rewrite <- R2, nth_error_app2, Nat.sub_diag by lia; reflexivity).
  conj.
  - split; cbn [sum]; try congruence; try lia.
    + rewrite !length_app. cbn. lia.
    + apply addr_ok_snoc; auto; lia.
    + unfold table_ok in *. now rewrite S5, S4.
    + intros w Hw2. rewrite S6; [apply M7; unfold keeps in Hw2; lia|].
      destruct Hw2 as [[_ Hn]|Hge]; auto. intros ->. cbn in Hd. lia.
    + intros i b0 a0 Hi Hb0 Ha0.
      assert (i = length seen) as ->.
      { assert (i < length (seen ++ [b]))%nat by (apply nth_error_Some; congruence). rewrite length_app in *. cbn in *. lia. }
      rewrite Nb in Hb0. rewrite Na in Ha0. injection Hb0 as <-. injection Ha0 as <-.
      rewrite <- (app_nil_r (seen ++ [b])), <- (app_nil_r (ad ++ [a])).
      apply block_img_frame with (idest st) (idest st') (imem st1); [|auto|lia|lia|apply block_sizes].
      * split; auto. exists hd, wds, size. conj; auto; try lia. now replace (a - 1) with (idest st) by lia.
      * intros w Hw2. apply S6. destruct dest; [discriminate|]. cbn in Hd. intros [= ->]. lia.
  - intros Hv. rewrite S7, M4; auto.
  - rewrite V. now apply (img_block _ _ _ b (length seen) a).
Qed.

(** ** Blocks with fields *)

Lemma intern_fields_snoc rec n : forall a st,
  (let! st := intern_fields rec a n st in rec (At (a + Z.of_nat n)) st) = intern_fields rec a (S n) st.
Proof.
  induction n as [|n IH]; intros a st.
  - cbn [intern_fields]. rewrite Z.add_0_r. now destruct (rec (At a) st).
  - change (intern_fields rec a (S (S n)) st) with
      (let! st := rec (At a) st in intern_fields rec (a + 1) (S n) st).
    cbn [intern_fields]. destruct (rec (At a) st) as [st1| |]; auto. specialize (IH (a + 1) st1).
    cbn [intern_fields] in IH. rewrite <- IH.
    now replace (a + Z.of_nat (S n)) with (a + 1 + Z.of_nat n) by lia.
Qed.

Section Blocks.
Variable rec : destination -> int_state -> res int_state.
Variable drec : value -> list Z -> option (list token * list Z).
Hypothesis Hgrows : grows H drec.
Hypothesis Hcounts : counts drec.
Hypothesis Hreads : reads rec drec.

Lemma block_result seen ad ts rest st dest b hd wds seen' : 0 <= b -> H b = Some (SBlock hd wds) ->
  Tag_hd hd < No_scan_tag -> Tag_hd hd <> Infix_tag ->
  tok_fits A1 A2 (TBlock hd) -> Forall (tok_fits A1 A2) ts ->
  dump_list drec wds (seen ++ [b]) = Some (ts, seen') ->
  ready seen ad (TBlock hd :: ts) rest st -> dest_ok dest st ->
  exists ad' st', read_block intern_color rec (Tag_hd hd) (Wosize_hd hd) dest (set_isrc (encs ts ++ rest) st) = Ok st' /\
    done seen seen' (ad ++ ad') (TBlock hd :: ts) rest (keeps dest st) st st' /\
    (dest <> Var -> ivar st' = ivar st) /\ img seen' (ad ++ ad') (Ptr b 0) (at_dest dest st').
Proof.
  intros Hb E Ht Hti [Hh Hsz] Hf D [R1 R2 Ra R3 R4 R5 R6 R7] Hd. cbn [sum tok_words tok_objs] in *.
  pose proof (block_sizes b hd wds Hb E) as Hz. pose proof (words_nonneg ts Hf) as Hwn.
  pose proof (objs_nonneg ts) as Hon. set (size := Wosize_hd hd) in *. set (a := idest st + 1) in *.
  unfold read_block. rewrite (proj2 (Z.eqb_neq size 0)) by lia. cbn [idest set_isrc]. fold a.
  destruct (store_ok dest (Ptr intern_area a) (set_isrc (encs ts ++ rest) st)) as (s0 & -> & V & S1 & S2 & S3 & S4 & S5 & S6 & S7);
    [now destruct dest | cbn [idest iend set_isrc]; lia |].
  cbn [isrc idest iend ivar table_size imem intern_obj_table set_isrc] in *.
  destruct (new_block_ok intern_color size (Tag_hd hd) s0 ad) as (s1 & Ea & N1 & N2 & N3 & N4 & N5 & N6 & N7);
    [unfold table_ok in *; now rewrite S5, S4 | lia | lia | lia | lia |].
  rewrite S2 in *. fold a in Ea, N6, N2. rewrite Ea.
  assert (Rd : ready (seen ++ [b]) (ad ++ [a]) ts rest s1).
  { split; [congruence | rewrite !length_app; cbn; lia | apply addr_ok_snoc; auto; lia | exact N6 | | lia | lia |].
    - unfold zlen in *. rewrite length_app. cbn [length]. lia.
    - intros w Hw. rewrite N7. destruct (Z.eqb_spec w (idest st)); eauto. rewrite S6; [apply R7; lia|].
      destruct dest; [discriminate|]. cbn in Hd. intros [= ->]. lia. }
  assert (Hps : Forall (ptr_ok H) wds) by (apply (hw_fields H Hwf b hd wds Hb E Ht)).
  destruct (reads_fields rec drec Hgrows Hcounts Hreads wds a (seen ++ [b]) ts seen' (ad ++ [a]) rest s1 D Hps Hf Rd)
    as (ad' & st' & Ef & Dn & Vr & Im); [lia | lia |].
  assert (Efs : (let! st := intern_fields rec a (Z.to_nat (size - 1)) s1 in rec (At (a + (size - 1))) st) = Ok st').
  { rewrite <- Ef. replace (length wds) with (S (Z.to_nat (size - 1))) by (unfold zlen in Hz; lia).
    rewrite <- intern_fields_snoc. now replace (a + Z.of_nat (Z.to_nat (size - 1))) with (a + (size - 1)) by lia. }
  rewrite Efs. exists ([a] ++ ad'), st'. split; [reflexivity|]. rewrite app_assoc.
  destruct (dump_list_grows H drec Hgrows _ _ _ _ D) as [[s ->] _].
  destruct Dn as [D1 D2 D3 D4 D5 Da D6 D7 D8].
  assert (Nb : nth_error ((seen ++ [b]) ++ s) (length seen) = Some b)
    by (rewrite nth_error_app1, nth_error_app2, Nat.sub_diag by (rewrite ?length_app; cbn; lia); reflexivity).
  assert (Na : nth_error ((ad ++ [a]) ++ ad') (length seen) = Some a)
    by (rewrite <- R2, nth_error_app1, nth_error_app2, Nat.sub_diag by (rewrite ?length_app; cbn; lia); reflexivity).
  assert (Fr : forall w, keeps dest st w -> imem st' w = imem st w).
  { intros w [Hw Hn]. rewrite D7 by (left; lia). rewrite N7. destruct (Z.eqb_spec w (idest st)); [lia|]. now apply S6. }
  conj.
  - split; cbn [sum tok_words]; try congruence; try lia.
    + intros w [Hw|Hw]; [now apply Fr|]. rewrite D7 by (right; lia). rewrite N7.
      destruct (Z.eqb_spec w (idest st)); [lia|]. apply S6. destruct dest; [discriminate|]. cbn in Hd. intros [= ->]. lia.
    + intros i b0 a0 Hi Hb0 Ha0. destruct (Nat.eq_dec i (length seen)) as [->|Hne].
      * rewrite Nb in Hb0. rewrite Na in Ha0. injection Hb0 as <-. injection Ha0 as <-.
        split; auto. exists hd, wds, size. conj; auto; try lia.
        -- rewrite D7 by (left; lia). rewrite N7. replace (a - 1) with (idest st) by lia. now rewrite Z.eqb_refl.
        -- unfold contents_img.
           rewrite !(proj2 (Z.eqb_neq (Tag_hd hd) _)) by (unfold No_scan_tag, String_tag, Double_tag, Double_array_tag in *; lia).
           auto.
      * rewrite <- (app_nil_r ((seen ++ [b]) ++ s)), <- (app_nil_r ((ad ++ [a]) ++ ad')).
        apply block_img_frame with (idest s1) (idest st') (imem st'); [|auto|lia|lia|apply block_sizes].
        apply (D8 i); auto. rewrite length_app. cbn. lia.
  - intros Hv. rewrite Vr, N4. now apply S7.
  - replace (at_dest dest st') with (Ptr intern_area a); [now apply (img_block _ _ _ b (length seen) a)|].
    destruct dest as [|w]; cbn [at_dest dest_ok] in *; [congruence|].
    rewrite D7 by (left; lia). rewrite N7. destruct (Z.eqb_spec w (idest st)); [lia | congruence].
Qed.
End Blocks.
End Sim.
