(* ===== verification/MarshalRoundtrip.v ===== *)
(** MarshalRoundtrip: a value marshalled by [caml_output_value_to_string] on one machine and
    read by [caml_input_val_from_string] on another; and the termination of
    [extern_rec], which enters each block once, even on cyclic graphs. *)
From Stdlib Require Import ZArith Lia Bool Ascii String List.
From S2P Require Import Prelude Mlvalues ExternOutput InternInput Custom InterpState InterpCalls MarshalHeap Extern Intern MarshalBytes MarshalTrail MarshalRestore MarshalDump MarshalDecode MarshalRead MarshalRefine MarshalIso.
Import ListNotations.
Local Open Scope Z_scope.

(** ** More fuel never hurts the reader *)

Section Mono.
Context {A : Arch} {F : FloatArch}.
Variable custom_at : Z -> option custom_operations.
Variable custom_ops_table : list Z.
Variable checksum : list Z.
Variable intern_color : Z.
Notation intern_rec := (intern_rec custom_at custom_ops_table checksum intern_color).

(** [r2] is defined, with the same result, wherever [r1] is. *)
Definition res_le {T} (r1 r2 : res T) : Prop := match r1 with Ok x => r2 = Ok x | _ => True end.
Definition rec_le (r1 r2 : destination -> int_state -> res int_state) : Prop :=
  forall dest st, res_le (r1 dest st) (r2 dest st).

Lemma res_le_refl {T} (r : res T) : res_le r r.
Proof. now destruct r. Qed.

Lemma res_le_bind {T U} (r1 r2 : res T) (k1 k2 : T -> res U) : res_le r1 r2 -> (forall x, res_le (k1 x) (k2 x)) ->
  res_le (let! x := r1 in k1 x) (let! x := r2 in k2 x).
Proof. intros Hr Hk. destruct r1; cbn in *; auto. rewrite Hr. apply Hk. Qed.

Lemma intern_fields_mono r1 r2 n : rec_le r1 r2 -> forall a st, res_le (intern_fields r1 a n st) (intern_fields r2 a n st).
Proof.
  intros Hr. induction n as [|n IH]; intros a st; cbn [intern_fields]; [apply res_le_refl|].
  apply res_le_bind; auto.
Qed.

Lemma read_block_mono r1 r2 tag size dest st : rec_le r1 r2 ->
  res_le (read_block intern_color r1 tag size dest st) (read_block intern_color r2 tag size dest st).
Proof.
  intros Hr. unfold read_block. destruct (size =? 0); [apply res_le_refl|].
  apply res_le_bind; [apply res_le_refl|]. intros st1.
  apply (res_le_bind _ _ (fun '(a, st) => _) (fun '(a, st) => _)); [apply res_le_refl|]. intros [a st2].
  apply res_le_bind; [now apply intern_fields_mono|]. auto.
Qed.

Lemma read_infix_mono r1 r2 dest st : rec_le r1 r2 -> res_le (read_infix r1 dest st) (read_infix r2 dest st).
Proof.
  intros Hr. unfold read_infix. destruct (read32u (isrc st)) as [[ofs src]| |]; try exact I.
  apply res_le_bind; auto. intros st'. apply res_le_refl.
Qed.

Lemma reading_mono {T} (r : input T) k1 k2 st : (forall x st, res_le (k1 x st) (k2 x st)) ->
  res_le (reading r k1 st) (reading r k2 st).
Proof. intros Hk. unfold reading. destruct (r (isrc st)) as [[x src]| |]; try exact I. apply Hk. Qed.

Lemma intern_rec_mono fuel : rec_le (intern_rec fuel) (intern_rec (S fuel)).
Proof.
  induction fuel as [|fuel IH]; intros dest st; [exact I|].
  change (intern_rec (S (S fuel)) dest st) with
    (Intern.intern_rec custom_at custom_ops_table checksum intern_color (S (S fuel)) dest st).
  remember (S fuel) as f eqn:Ef. rewrite Ef at 1. cbn [Intern.intern_rec].
  destruct (read8u (isrc st)) as [[code src]| |]; try exact I.
  repeat match goal with |- res_le (if ?c then _ else _) _ => destruct c end;
    try apply res_le_refl;
    first [now apply read_block_mono | now apply read_infix_mono
          | apply reading_mono; intros; now apply read_block_mono].
Qed.

Lemma intern_rec_more fuel n dest st st' : intern_rec fuel dest st = Ok st' -> intern_rec (n + fuel) dest st = Ok st'.
Proof.
  intros E. induction n as [|n IH]; auto.
  pose proof (intern_rec_mono (n + fuel) dest st) as M. rewrite IH in M. exact M.
Qed.
End Mono.

(** ** The simulation *)

Section Reads.
Context {A1 : Arch} {F1 : FloatArch} {A2 : Arch} {F2 : FloatArch}.
Variable custom_at : Z -> option custom_operations.
Variable custom_ops_table : list Z.
Variable checksum : list Z.
Variable intern_color : Z.
Variable code_size : Z.
Variable closures : bool.
Hypothesis checksum_length : length checksum = 16%nat.
Variable H : sheap.
Hypothesis Hwf : @heap_wf A1 H.

Notation intern_rec := (@intern_rec A2 F2 custom_at custom_ops_table checksum intern_color).
Notation hd_of := (@MarshalHeap.hd_of A1).
Notation forward_target := (@Extern.forward_target A1).
Notation dump := (@dump A1 code_size closures H).
Notation img := (img (A1 := A1) (A2 := A2) H).
Notation ready := (ready (A1 := A1) (F1 := F1) (A2 := A2) checksum).
Notation done := (done (A1 := A1) (F1 := F1) (A2 := A2) (F2 := F2) intern_color H).

(** A token read on its own. *)
Lemma ready_decode seen ad t ts rest st : tok_fits A1 A2 t -> ready seen ad (t :: ts) rest st ->
  forall fuel dest, intern_rec (S fuel) dest st =
    read_token (F1 := F1) (A2 := A2) (F2 := F2) intern_color (intern_rec fuel) t dest (@encs A1 F1 checksum ts ++ rest) st.
Proof.
  intros Hf R fuel dest. apply (decodes_token (A1 := A1)); auto.
  rewrite (rd_src _ _ _ _ _ _ R). unfold encs. cbn [map concat]. symmetry. apply app_assoc.
Qed.

Lemma set_isrc_id seen ad ts rest st : ready seen ad ts rest st -> forall src, idest (set_isrc src st) = idest st.
Proof. reflexivity. Qed.

Lemma int_reads seen ad w rest st dest fuel : Is_long w = true -> tok_fits A1 A2 (TInt (Long_val w)) ->
  ready seen ad [TInt (Long_val w)] rest st -> dest_ok dest st ->
  exists ad' st', intern_rec (S fuel) dest st = Ok st' /\
    done seen seen (ad ++ ad') [TInt (Long_val w)] rest (keeps dest st) st st' /\
    (dest <> Var -> ivar st' = ivar st) /\ img seen (ad ++ ad') (Imm w) (at_dest dest st').
Proof.
  intros Hl Hf R Hd. rewrite (ready_decode seen ad _ [] rest st Hf R). cbn [read_token encs map concat app].
  apply (leaf_result checksum intern_color H seen ad); auto.
  destruct Hf as [Hf _]. pose proof (img_int (A1 := A1) (A2 := A2) H seen ad (Long_val w)) as Hi.
  rewrite (@Val_long_small A1) in Hi by auto. now rewrite <- Is_long_odd in Hi.
Qed.

Lemma shared_reads seen ad b i rest st dest fuel : index b seen = Some i ->
  tok_fits A1 A2 (TShared (Z.of_nat (length seen) - Z.of_nat i)) ->
  ready seen ad [TShared (Z.of_nat (length seen) - Z.of_nat i)] rest st -> dest_ok dest st ->
  exists ad' st', intern_rec (S fuel) dest st = Ok st' /\
    done seen seen (ad ++ ad') [TShared (Z.of_nat (length seen) - Z.of_nat i)] rest (keeps dest st) st st' /\
    (dest <> Var -> ivar st' = ivar st) /\ img seen (ad ++ ad') (Ptr b 0) (at_dest dest st').
Proof.
  intros Hi Hf R Hd. rewrite (ready_decode seen ad _ [] rest st Hf R). cbn [read_token encs map concat app].
  pose proof (index_Some _ _ _ Hi) as Hb. assert (Hil : (i < length seen)%nat) by (apply nth_error_Some; congruence).
  pose proof (rd_len _ _ _ _ _ _ R) as Hl. destruct (nth_error ad i) as [a|] eqn:Ea.
  2: { apply nth_error_None in Ea. lia. }
  unfold read_shared. cbn [intern_obj_table set_isrc]. rewrite (rd_table _ _ _ _ _ _ R).
  pose proof (rd_objs _ _ _ _ _ _ R) as Ho. cbn [sum tok_objs] in Ho. unfold zlen in Ho.
  rewrite (proj2 (Z.eqb_neq _ _)) by lia. rewrite length_map.
  assert (En : nthZ (map (Ptr intern_area) ad) (Z.of_nat (length ad) - (Z.of_nat (length seen) - Z.of_nat i)) = Some (Ptr intern_area a)).
  { unfold nthZ. rewrite (proj2 (Z.ltb_ge _ _)) by lia. rewrite nth_error_map.
    replace (Z.to_nat _) with i by lia. now rewrite Ea. }
  rewrite En. cbn [of_option]. apply (leaf_result checksum intern_color H seen ad); auto.
  now apply (img_block _ _ _ b i a).
Qed.

Lemma Double_wosize_max : @Double_wosize A2 <= @Max_wosize A2.
Proof. unfold Double_wosize, sizeof_value, WORD, Max_wosize. destruct ARCH_SIXTYFOUR; vm_compute; discriminate. Qed.

(** Objects without pointers. *)
Lemma no_scan_reads drec seen ad b hd ts seen' rest st dest fuel : 0 <= b -> hd_of H (Ptr b 0) = Ok hd ->
  Wosize_hd hd <> 0 -> Tag_hd hd = String_tag \/ Tag_hd hd = Double_tag \/ Tag_hd hd = Double_array_tag ->
  dump_block (A := A1) H drec b hd seen = Some (ts, seen') -> Forall (tok_fits A1 A2) ts ->
  ready seen ad ts rest st -> dest_ok dest st ->
  exists ad' st', intern_rec (S fuel) dest st = Ok st' /\
    done seen seen' (ad ++ ad') ts rest (keeps dest st) st st' /\
    (dest <> Var -> ivar st' = ivar st) /\ img seen' (ad ++ ad') (Ptr b 0) (at_dest dest st').
Proof.
  intros Hb Hh Hz Ht D Hf R Hd. cbn [MarshalHeap.hd_of] in Hh. rewrite get_sblock_pos in Hh by auto.
  destruct (H b) as [[hd' wds]|] eqn:E; [|discriminate]. injection Hh as ->.
  unfold dump_block in D. pose proof R as [R1 R2 Ra R3 R4 R5 R6 R7]. destruct Ht as [Ht|[Ht|Ht]]; rewrite Ht in D.
  - change (String_tag =? String_tag) with true in D. cbv iota in D.
    destruct (caml_string_length H (Ptr b 0)) as [n| |] eqn:En; try discriminate. cbn [of_res] in D.
    destruct (0 <=? n); [|discriminate]. destruct (bytes_at H (Ptr b 0) 0 (Z.to_nat n)) as [bs| |] eqn:Eb; try discriminate.
    injection D as <- <-. inversion Hf as [|? ? Hft _]; subst. pose proof Hft as (_ & Hmax & Hby). cbn [sum tok_objs tok_words] in *.
    rewrite (ready_decode seen ad _ [] rest st Hft R). cbn [read_token encs map concat app].
    destruct (@read_string_ok A2 intern_color bs rest dest (set_isrc (bs ++ rest) st) ad) as (st1 & -> & Mv & Mh & Ms);
      cbn [isrc idest iend table_size imem set_isrc]; auto; [unfold string_size; lia..|].
    apply (object_result checksum intern_color H Hwf seen ad _ rest st st1 dest b hd wds (string_size bs)); auto.
    + destruct (@string_size_bounds A2 bs). split; [auto | exact Hmax].
    + now destruct Mv.
    + now rewrite Ht.
    + unfold contents_img. rewrite Ht. change (String_tag =? String_tag) with true. cbv iota.
      exists n, bs. conj; auto.
  - change (Double_tag =? String_tag) with false in D. change (Double_tag =? Double_tag) with true in D. cbv iota in D.
    destruct (bytes_at H (Ptr b 0) 0 8) as [bs| |] eqn:Eb; try discriminate.
    injection D as <- <-. inversion Hf as [|? ? Hft _]; subst. pose proof Hft as [Hl Hby]. cbn [sum tok_objs tok_words] in *.
    rewrite (ready_decode seen ad _ [] rest st Hft R). cbn [read_token encs map concat app].
    destruct (@read_double_ok A2 F2 intern_color (@float_big_endian F1) bs rest dest (set_isrc (bs ++ rest) st) ad) as (st1 & -> & Mv & Mh & Ms);
      cbn [isrc idest iend table_size imem set_isrc]; auto; [unfold Double_wosize; lia..|].
    apply (object_result checksum intern_color H Hwf seen ad _ rest st st1 dest b hd wds Double_wosize); auto.
    + pose proof (@Double_wosize_eq A2). pose proof (@sizeof_value_pos A2).
      split; [apply Z.mul_pos_cancel_r with (@sizeof_value A2); lia | apply Double_wosize_max].
    + now destruct Mv.
    + now rewrite Ht.
    + unfold contents_img. rewrite Ht. change (Double_tag =? String_tag) with false.
      change (Double_tag =? Double_tag) with true. cbv iota. exists bs. conj; auto.
  - change (Double_array_tag =? String_tag) with false in D. change (Double_array_tag =? Double_tag) with false in D.
    change (Double_array_tag =? Double_array_tag) with true in D. cbv iota zeta in D.
    destruct (bytes_at H (Ptr b 0) 0 _) as [bs| |] eqn:Eb; try discriminate.
    injection D as <- <-. inversion Hf as [|? ? Hft _]; subst. pose proof Hft as (Hn & Hmax & Hl & Hby). cbn [sum tok_objs tok_words] in *.
    set (n := Wosize_hd hd / Double_wosize) in *.
    rewrite (ready_decode seen ad _ [] rest st Hft R). cbn [read_token encs map concat app].
    destruct (@read_double_array_ok A2 F2 intern_color n (@float_big_endian F1) bs rest dest (set_isrc (bs ++ rest) st) ad) as (st1 & -> & Mv & Mh & Ms);
      cbn [isrc idest iend table_size imem set_isrc]; auto; [lia | unfold Double_wosize; lia..|].
    apply (object_result checksum intern_color H Hwf seen ad _ rest st st1 dest b hd wds (n * Double_wosize)); auto.
    + pose proof (@Double_wosize_eq A2). pose proof (@sizeof_value_pos A2).
      assert (0 < @Double_wosize A2) by (apply Z.mul_pos_cancel_r with (@sizeof_value A2); lia). split; [apply Z.mul_pos_pos; lia | exact Hmax].
    + now destruct Mv.
    + now rewrite Ht.
    + unfold contents_img. rewrite Ht. change (Double_array_tag =? String_tag) with false.
      change (Double_array_tag =? Double_tag) with false. change (Double_array_tag =? Double_array_tag) with true. cbv iota.
      exists n, bs. conj; auto.
Qed.

Lemma atom_reads seen ad b hd rest st dest fuel : hd_of H (Ptr b 0) = Ok hd -> Wosize_hd hd = 0 ->
  tok_fits A1 A2 (TAtom hd) -> ready seen ad [TAtom hd] rest st -> dest_ok dest st ->
  exists ad' st', intern_rec (S fuel) dest st = Ok st' /\
    done seen seen (ad ++ ad') [TAtom hd] rest (keeps dest st) st st' /\
    (dest <> Var -> ivar st' = ivar st) /\ img seen (ad ++ ad') (Ptr b 0) (at_dest dest st').
Proof.
  intros Hh Hz Hf R Hd. rewrite (ready_decode seen ad _ [] rest st Hf R). cbn [read_token encs map concat app].
  apply (leaf_result checksum intern_color H seen ad); auto. now apply img_atom.
Qed.

Lemma code_reads seen ad p rest st dest fuel : tok_fits A1 A2 (TCode p) -> ready seen ad [TCode p] rest st ->
  dest_ok dest st ->
  exists ad' st', intern_rec (S fuel) dest st = Ok st' /\
    done seen seen (ad ++ ad') [TCode p] rest (keeps dest st) st st' /\
    (dest <> Var -> ivar st' = ivar st) /\ img seen (ad ++ ad') (Cptr p) (at_dest dest st').
Proof.
  intros Hf R Hd. rewrite (ready_decode seen ad _ [] rest st Hf R). cbn [read_token encs map concat app].
  apply (leaf_result checksum intern_color H seen ad); auto. apply img_code.
Qed.

(** The copy of the block an infix pointer points into. *)
Lemma img_closure seen ad b ofs v : infix_at H b ofs -> img seen ad (Ptr b 0) v ->
  exists i a, nth_error seen i = Some b /\ nth_error ad i = Some a /\ v = Ptr intern_area a.
Proof.
  intros (Hb & Ho & hd & ws & ihd & [E Ec] & Ei & _) Hi. pose proof (hw_header H Hwf b hd ws Hb E) as (_ & _ & Hs & _).
  assert (Hh : forall hd', hd_of H (Ptr b 0) = Ok hd' -> hd' = hd).
  { intros hd'. cbn [MarshalHeap.hd_of]. rewrite get_sblock_pos, E by auto.
    change (0 =? 0) with true. cbv iota. congruence. }
  inversion Hi as [|b0 hd0 Hh0 Hz| |b0 ofs0 i a Hpos| |b0 hd0 f v0 Hh0 Htf]; subst.
  - apply Hh in Hh0 as ->. exfalso. rewrite Hs in Hz. destruct ws; [|unfold zlen in Hz; cbn in Hz; lia].
    unfold nthZ in Ei. destruct (_ <? _); [discriminate|]. now destruct (Z.to_nat (ofs - 1)).
  - eauto 6.
  - lia.
  - apply Hh in Hh0 as ->. rewrite Ec in Htf. discriminate.
Qed.

Lemma infix_reads drec seen ad b ofs ts seen' rest st dest fuel :
  reads (A1 := A1) (F1 := F1) (A2 := A2) (F2 := F2) checksum intern_color H (intern_rec fuel) drec ->
  infix_at H b ofs -> drec (Ptr b 0) seen = Some (ts, seen') ->
  tok_fits A1 A2 (TInfix (ofs * @sizeof_value A1)) -> Forall (tok_fits A1 A2) ts ->
  ready seen ad (TInfix (ofs * @sizeof_value A1) :: ts) rest st -> dest_ok dest st ->
  exists ad' st', intern_rec (S fuel) dest st = Ok st' /\
    done seen seen' (ad ++ ad') (TInfix (ofs * @sizeof_value A1) :: ts) rest (keeps dest st) st st' /\
    (dest <> Var -> ivar st' = ivar st) /\ img seen' (ad ++ ad') (Ptr b ofs) (at_dest dest st').
Proof.
  intros Hr Hi D Hft Hf R Hd. rewrite (ready_decode seen ad _ ts rest st Hft R). cbn [read_token].
  set (src := @encs A1 F1 checksum ts ++ rest). destruct R as [R1 R2 Ra R3 R4 R5 R6 R7]. cbn [sum tok_objs tok_words] in *.
  destruct (Hr (Ptr b 0) seen ts seen' ad Var rest (set_isrc src st) D (ptr_ok_base H b ofs Hi) Hf)
    as (ad' & st1 & -> & Dn & _ & Im); [split; cbn; auto; lia | exact I |].
  destruct (img_closure _ _ _ _ _ Hi Im) as (i & a & Hb & Ha & Ev). cbn [at_dest] in Ev. rewrite Ev.
  destruct Hft as [_ HW]. assert (Es : @sizeof_value A1 = @sizeof_value A2) by (unfold sizeof_value; now rewrite HW).
  rewrite Es. pose proof (@sizeof_value_pos A2) as Hsp. rewrite Z.mod_mul, Z.div_mul by lia. cbn [Z.eqb].
  destruct Dn as [D1 D2 D3 D4 D5 Da D6 D7 D8]. cbn [idest iend table_size imem set_isrc] in *.
  pose proof (words_nonneg (A1 := A1) ts Hf) as Hwn.
  destruct (store_ok dest (Ptr intern_area (a + ofs)) (set_ivar (ivar st) st1))
    as (st' & -> & V & S1 & S2 & S3 & S4 & S5 & S6 & S7);
    [destruct dest; cbn [dest_ok idest set_ivar] in *; [exact I | lia] | cbn [idest iend set_ivar]; lia |].
  cbn [isrc idest iend ivar table_size imem intern_obj_table set_ivar] in *.
  exists ad', st'. split; [reflexivity|].
  assert (Dk : forall w, idest st <= w -> dest <> At w).
  { intros w Hw. destruct dest; [discriminate|]. cbn in Hd. intros [= ->]. lia. }
  conj.
  - split; cbn [sum tok_words]; try congruence; try lia.
    + unfold table_ok in *. now rewrite S5, S4.
    + intros w Hw. rewrite S6; [apply D7; unfold keeps in Hw; destruct Hw as [[Hw1 Hw2]|Hw]; [left; split; [lia|discriminate] | right; lia]|].
      destruct Hw as [[_ Hn]|Hw]; auto. apply Dk. lia.
    + intros j b0 a0 Hj Hb0 Ha0. pose proof (D8 j b0 a0 Hj Hb0 Ha0) as B.
      rewrite <- (app_nil_r seen'), <- (app_nil_r (ad ++ ad')).
      apply block_img_frame with (idest st) (idest st1) (imem st1); [exact B | | lia | lia | apply (block_sizes H Hwf)].
      intros w Hw. apply S6, Dk. lia.
  - exact S7.
  - rewrite V. destruct Hi as (_ & Ho & _). apply (img_infix _ _ _ b ofs i a); auto. lia.
Qed.

Lemma Forall_cons_tok t ts : Forall (tok_fits A1 A2) (t :: ts) -> tok_fits A1 A2 t /\ Forall (tok_fits A1 A2) ts.
Proof. intros Hf. now inversion Hf. Qed.

(** Every traversal is read back. *)
Lemma intern_rec_reads fuel : reads (A1 := A1) (F1 := F1) (A2 := A2) (F2 := F2) checksum intern_color H (intern_rec fuel) (dump fuel).
Proof.
  induction fuel as [|fuel IH]; intros v seen ts seen' ad dest rest st D Hv Hf R Hd; [discriminate|].
  cbn [MarshalDump.dump] in D. fold (keeps dest st).
  destruct v as [w|b ofs|p|p]; [| | |discriminate].
  - destruct (Is_long w) eqn:El; [|discriminate]. injection D as <- <-. apply Forall_cons_tok in Hf as [Hf _].
    now apply int_reads.
  - destruct (hd_of H (Ptr b ofs)) as [hd| |] eqn:Eh; try discriminate. cbn [of_res] in D.
    destruct (Z.eqb_spec (Tag_hd hd) Forward_tag) as [Tf|Tf].
    + destruct (forward_target H (Ptr b ofs)) as [[f|]| |] eqn:Ef; try discriminate.
      assert (F0 : ofs = 0 /\ 0 <= b).
      { destruct Hv as [[-> _]|Hi].
        - split; auto. destruct (Z_lt_ge_dec b 0); [|lia]. exfalso. unfold Extern.forward_target, fld, get_sblock in Ef.
          rewrite (proj2 (Z.ltb_lt b 0)) in Ef by lia. discriminate.
        - destruct (infix_hd H b ofs hd Hi Eh) as (Ti & _). rewrite Tf in Ti. discriminate. }
      destruct F0 as [-> Hb].
      assert (Pf : ptr_ok H f).
      { assert (I0 : Inv (A := A1) H [] (Ext init_extern_output H 0 0 0 [] [])) by apply Inv_init.
        apply (forward_target_ptr_ok H Hwf [] _ b hd f I0 Hb Eh Tf Ef). }
      destruct (IH f seen ts seen' ad dest rest st D Pf Hf R Hd) as (ad' & st' & E & Dn & Vr & Im).
      exists ad', st'. conj; auto; [apply (intern_rec_more custom_at custom_ops_table checksum intern_color fuel 1); exact E|].
      now apply (img_forward _ _ _ b hd f).
    + destruct (Z.eqb_spec (Wosize_hd hd) 0) as [Hz|Hz].
      * injection D as <- <-. apply Forall_cons_tok in Hf as [Hf _].
        assert (ofs = 0) as ->.
        { destruct Hv as [[-> _]|Hi]; auto. destruct (infix_hd H b ofs hd Hi Eh) as (_ & Hs & _).
          destruct Hi as (_ & Ho & _). lia. }
        now apply atom_reads.
      * destruct (Z.eqb_spec ofs 0) as [->|Ho].
        -- destruct (index b seen) as [i|] eqn:Ei.
           ++ injection D as <- <-. apply Forall_cons_tok in Hf as [Hf _]. now apply shared_reads.
           ++ destruct (Z.leb_spec 0 b) as [Hb|]; [|discriminate].
              destruct (Z.eq_dec (Tag_hd hd) String_tag); [apply (no_scan_reads (dump fuel) seen ad b hd); auto|].
              destruct (Z.eq_dec (Tag_hd hd) Double_tag); [apply (no_scan_reads (dump fuel) seen ad b hd); auto|].
              destruct (Z.eq_dec (Tag_hd hd) Double_array_tag); [apply (no_scan_reads (dump fuel) seen ad b hd); auto|].
              unfold dump_block in D. rewrite !(proj2 (Z.eqb_neq (Tag_hd hd) _)) in D by auto.
              destruct (Z.eqb_spec (Tag_hd hd) Abstract_tag) as [|N4]; [discriminate|].
              destruct (Z.eqb_spec (Tag_hd hd) Infix_tag) as [|N5]; [discriminate|].
              destruct (Z.eqb_spec (Tag_hd hd) Custom_tag) as [|N6]; [discriminate|]. cbn [orb] in D.
              cbn [MarshalHeap.hd_of] in Eh. rewrite get_sblock_pos in Eh by auto.
              destruct (H b) as [[hd' wds]|] eqn:E; [|discriminate]. injection Eh as ->. cbn [swords] in D.
              destruct (dump_list (dump fuel) wds (seen ++ [b])) as [[ts1 s1]|] eqn:Dl; [|discriminate].
              injection D as <- <-. apply Forall_cons_tok in Hf as [Hft Hf].
              rewrite (ready_decode seen ad _ ts1 rest st Hft R). cbn [read_token].
              apply (block_result checksum intern_color H Hwf (intern_rec fuel) (dump fuel)
                (dump_grows _ _ _ fuel) (dump_counts _ _ _ fuel) IH seen ad ts1 rest st dest b hd wds); auto.
              now apply no_scan_cases.
        -- destruct Hv as [[-> _]|Hi]; [contradiction|]. destruct (infix_hd H b ofs hd Hi Eh) as (Ti & Si & _).
           assert (Eo : @Infix_offset_hd A1 hd = ofs * @sizeof_value A1) by (unfold Infix_offset_hd, Bosize_hd, Bsize_wsize; now rewrite Si).
           pose proof (@sizeof_value_pos A1). rewrite Eo, Z.div_mul, Z.sub_diag in D by lia.
           destruct (dump fuel (Ptr b 0) seen) as [[ts1 seen1]|] eqn:D1; [|discriminate]. injection D as <- <-.
           apply Forall_cons_tok in Hf as [Hft Hf]. now apply (infix_reads (dump fuel)).
  - destruct (_ && _) eqn:Ec; [|discriminate]. injection D as <- <-. apply Forall_cons_tok in Hf as [Hf _].
    now apply code_reads.
Qed.
End Reads.

(** ** Values that can be marshalled *)

Section Total.
Context {A1 A2 : Arch}.
Variable code_size : Z.
Variable closures : bool.
Variable H : sheap.
(** The blocks reached. *)
Variable D : list Z.

Notation hd_of := (@MarshalHeap.hd_of A1).
Notation forward_target := (@Extern.forward_target A1).
Notation bytes_at := (@MarshalHeap.bytes_at A1).
Notation dump := (@dump A1 code_size closures H).

(** Integers and blocks that fit both machines; the rank is the number of steps
    before a block is entered or a leaf is written. *)
Inductive exportable : nat -> value -> Prop :=
  | ex_int w : Is_long w = true -> @Min_long A1 <= Long_val w <= @Max_long A1 ->
      @Min_long A2 <= Long_val w <= @Max_long A2 -> exportable 1 (Imm w)
  | ex_code p : closures = true -> 0 <= p < code_size -> p < 2 ^ 30 -> exportable 1 (Cptr p)
  | ex_atom b : - Num_tags <= b < 0 -> - 1 - b <> Forward_tag -> exportable 1 (Ptr b 0)
  | ex_block b : In b D -> exportable 1 (Ptr b 0)
  | ex_infix b ofs : In b D -> infix_at H b ofs -> ofs * @sizeof_value A1 < 2 ^ 32 -> @WORD A1 = @WORD A2 ->
      exportable 2 (Ptr b ofs)
  | ex_forward k b hd f : (k <= 2)%nat -> hd_of H (Ptr b 0) = Ok hd -> Tag_hd hd = Forward_tag ->
      forward_target H (Ptr b 0) = EOk (Some f) -> exportable k f -> exportable 3 (Ptr b 0).

Definition field_ok (v : value) : Prop := exists k, exportable k v.

(** The block [b]: neither abstract nor custom, not a forwarding block, with
    contents of the kind its tag announces. *)
Definition block_ok (b : Z) : Prop :=
  0 <= b /\ exists hd ws, H b = Some (SBlock hd ws) /\ Tag_hd hd <> Forward_tag /\ 0 < Wosize_hd hd /\
    let tag := Tag_hd hd in
    if tag =? String_tag then
      exists n bs, @caml_string_length A1 H (Ptr b 0) = Ok n /\ 0 <= n < 2 ^ 32 /\ @string_words A2 n <= @Max_wosize A2 /\
        bytes_at H (Ptr b 0) 0 (Z.to_nat n) = Ok bs
    else if tag =? Double_tag then exists bs, bytes_at H (Ptr b 0) 0 8 = Ok bs
    else if tag =? Double_array_tag then
      let n := Wosize_hd hd / @Double_wosize A1 in
      0 < n < 2 ^ 32 /\ n * @Double_wosize A2 <= @Max_wosize A2 /\ exists bs, bytes_at H (Ptr b 0) 0 (Z.to_nat (n * 8)) = Ok bs
    else tag <> Abstract_tag /\ tag <> Infix_tag /\ tag <> Custom_tag /\
      Wosize_hd hd <= @Max_wosize A2 /\ Forall field_ok ws.

Hypothesis Hwf : @heap_wf A1 H.
Hypothesis Hok : forall b, In b D -> block_ok b.
Hypothesis Hcount : Z.of_nat (length D) < 2 ^ 32.

(** Enough fuel for the traversal, with the blocks [seen] behind it. *)
Definition ends (rec : value -> list Z -> option (list token * list Z)) (v : value) (seen : list Z) : Prop :=
  exists ts seen', rec v seen = Some (ts, seen') /\ Forall (tok_fits A1 A2) ts /\ incl seen' D /\ NoDup seen'.
Definition total (fuel : nat) : Prop := forall k v seen, exportable k v -> incl seen D -> NoDup seen ->
  (k + 3 * rem D seen <= fuel)%nat -> ends (dump fuel) v seen.

Lemma rank_le k v : exportable k v -> (1 <= k <= 3)%nat.
Proof. destruct 1; lia. Qed.

Lemma ends_leaf rec v seen t : rec v seen = Some ([t], seen) -> tok_fits A1 A2 t -> incl seen D -> NoDup seen ->
  ends rec v seen.
Proof. intros E Ht Hi Hn. exists [t], seen. auto. Qed.

Lemma total_fields fuel l : total fuel -> Forall field_ok l -> forall seen, incl seen D -> NoDup seen ->
  (3 + 3 * rem D seen <= fuel)%nat ->
  exists ts seen', dump_list (dump fuel) l seen = Some (ts, seen') /\ Forall (tok_fits A1 A2) ts /\ incl seen' D /\ NoDup seen'.
Proof.
  intros Ht. induction 1 as [|v l [k Hv] _ IH]; intros seen Hi Hn Hf.
  - exists [], seen. auto.
  - pose proof (rank_le k v Hv). destruct (Ht k v seen Hv Hi Hn ltac:(lia)) as (ts1 & seen1 & E1 & F1 & I1 & N1).
    destruct (proj1 (dump_grows code_size closures H fuel _ _ _ _ E1)) as [s ->].
    pose proof (rem_app D seen s). destruct (IH (seen ++ s) I1 N1 ltac:(lia)) as (ts2 & seen2 & E2 & F2 & I2 & N2).
    exists (ts1 ++ ts2), seen2. cbn [dump_list]. rewrite E1, E2. split; [reflexivity|]. split; [now apply Forall_app | auto].
Qed.

(** Entering a block. *)
Lemma total_block fuel b hd seen : total fuel -> In b D -> ~ In b seen -> hd_of H (Ptr b 0) = Ok hd ->
  incl seen D -> NoDup seen -> (3 * rem D seen <= fuel)%nat ->
  exists ts seen', @dump_block A1 H (dump fuel) b hd seen = Some (ts, seen') /\ Forall (tok_fits A1 A2) ts /\ incl seen' D /\ NoDup seen'.
Proof.
  intros Ht Hb Hs Hh Hi Hn Hf. destruct (Hok b Hb) as (Hpos & hd' & ws & E & Hfw & Hz & C).
  cbn [MarshalHeap.hd_of] in Hh. rewrite get_sblock_pos, E in Hh by auto. injection Hh as <-.
  destruct (hw_header H Hwf b hd' ws Hpos E) as (Hhd & _).
  assert (I' : incl (seen ++ [b]) D) by (apply incl_app; auto; now intros x [<-|[]]).
  assert (N' : NoDup (seen ++ [b])).
  { apply NoDup_app; auto; [repeat constructor; auto|]. now intros x Hx [->|[]]. }
  unfold dump_block. cbv zeta in C.
  destruct (Tag_hd hd' =? String_tag); [|destruct (Tag_hd hd' =? Double_tag); [|destruct (Tag_hd hd' =? Double_array_tag)]].
  - destruct C as (n & bs & E1 & Hr & Hm & E2). rewrite E1. cbn [of_res]. rewrite (proj2 (Z.leb_le 0 n)), E2 by lia.
    cbn [of_res]. exists [TString bs], (seen ++ [b]). split; auto. split; auto. constructor; auto. cbn [tok_fits].
    assert (Ln : len bs = n) by (unfold len; rewrite (bytes_at_length _ _ _ _ _ E2); lia). rewrite Ln.
    split; [lia|]. split; [exact Hm | now apply bytes_at_range in E2].
  - destruct C as (bs & E2). rewrite E2. cbn [of_res]. exists [TDouble bs], (seen ++ [b]). split; auto. split; auto.
    constructor; auto. cbn [tok_fits]. split; [|now apply bytes_at_range in E2].
    unfold len. now rewrite (bytes_at_length _ _ _ _ _ E2).
  - destruct C as (Hr & Hm & bs & E2). rewrite E2. cbn [of_res]. eexists _, (seen ++ [b]). split; [reflexivity|]. split; auto.
    constructor; auto. cbn [tok_fits]. split; auto. split; [exact Hm|]. split; [|now apply bytes_at_range in E2].
    unfold len. rewrite (bytes_at_length _ _ _ _ _ E2). lia.
  - destruct C as (C1 & C2 & C3 & C4 & C5). rewrite !(proj2 (Z.eqb_neq _ _)) by auto. cbn [orb]. rewrite E. cbn [swords].
    pose proof (rem_snoc D seen b Hb Hs).
    destruct (total_fields fuel ws Ht C5 (seen ++ [b]) I' N' ltac:(lia)) as (ts & seen' & -> & F & I2 & N2).
    exists (TBlock hd' :: ts), seen'. split; auto. split; auto. constructor; auto. cbn [tok_fits]. split; auto.
Qed.

Lemma atom_hd b : - Num_tags <= b < 0 -> hd_of H (Ptr b 0) = Ok (- 1 - b) /\ Tag_hd (- 1 - b) = - 1 - b /\ Wosize_hd (- 1 - b) = 0.
Proof.
  change Num_tags with 256. intros Hb. cbn [MarshalHeap.hd_of]. unfold get_sblock. rewrite (proj2 (Z.ltb_lt b 0)) by lia.
  change (0 =? 0) with true. cbv iota. change Caml_white with (0 * 256).
  rewrite Make_header_eq by (try lia; unfold Max_wosize; destruct ARCH_SIXTYFOUR; cbn; lia).
  change (0 * 1024 + 0 * 256) with 0. split; [f_equal; lia|]. rewrite Tag_hd_mod, Wosize_hd_div.
  split; [apply Z.mod_small; lia | apply Z.div_small; lia].
Qed.

Lemma index_lt b l i : index b l = Some i -> (i < length l)%nat.
Proof. intros E. apply index_Some in E. apply nth_error_Some. congruence. Qed.

Lemma infix_hd_ok b ofs : infix_at H b ofs -> exists hd, hd_of H (Ptr b ofs) = Ok hd.
Proof.
  intros (Hb & Ho & hd & ws & ihd & [E _] & Ei & _). exists ihd. cbn [MarshalHeap.hd_of].
  rewrite get_sblock_pos, E, (proj2 (Z.eqb_neq ofs 0)), Ei by (auto; lia). reflexivity.
Qed.

Lemma dump_total fuel : total fuel.
Proof.
  induction fuel as [|fuel IH]; intros k v seen Hv Hi Hn Hf; [pose proof (rank_le k v Hv); lia|].
  destruct Hv as [w El R1 R2|p Hc Hp1 Hp2|b Hb Hft|b Hb|b ofs Hb Hinf Ho HW|k b hd f Hk Hh Htg Hft Hex].
  - apply ends_leaf with (TInt (Long_val w)); auto; [cbn [MarshalDump.dump]; now rewrite El | now split].
  - apply ends_leaf with (TCode p); auto; [|cbn [tok_fits]; lia]. cbn [MarshalDump.dump].
    now rewrite Hc, (proj2 (Z.leb_le 0 p)), (proj2 (Z.ltb_lt p code_size)) by lia.
  - destruct (atom_hd b Hb) as (Eh & Et & Ew). change Num_tags with 256 in Hb.
    apply ends_leaf with (TAtom (- 1 - b)); auto; [|cbn [tok_fits]; lia]. cbn [MarshalDump.dump]. rewrite Eh. cbn [of_res].
    now rewrite Et, (proj2 (Z.eqb_neq _ _) Hft), Ew.
  - pose proof (Hok b Hb) as (Hpos & hd & ws & E & Hfw & Hz & _).
    assert (Eh : hd_of H (Ptr b 0) = Ok hd) by (cbn [MarshalHeap.hd_of]; now rewrite get_sblock_pos, E by auto).
    unfold ends. cbn [MarshalDump.dump]. rewrite Eh. cbn [of_res].
    rewrite (proj2 (Z.eqb_neq _ _) Hfw), (proj2 (Z.eqb_neq (Wosize_hd hd) 0)) by lia. change (0 =? 0) with true. cbv iota.
    destruct (index b seen) as [i|] eqn:Ei.
    + eexists _, seen. split; [reflexivity|]. split; auto. constructor; auto. cbn [tok_fits].
      apply index_lt in Ei. pose proof (NoDup_incl_length Hn Hi). lia.
    + rewrite (proj2 (Z.leb_le 0 b) Hpos). apply index_None in Ei. apply total_block; auto. lia.
  - destruct (infix_hd_ok b ofs Hinf) as [ihd Eh]. destruct (infix_hd H b ofs ihd Hinf Eh) as (Ti & Si & _).
    pose proof Hinf as (_ & Hofs & _). pose proof (@sizeof_value_pos A1).
    assert (Eo : @Infix_offset_hd A1 ihd = ofs * @sizeof_value A1) by (unfold Infix_offset_hd, Bosize_hd, Bsize_wsize; now rewrite Si).
    destruct (IH 1%nat (Ptr b 0) seen (ex_block b Hb) Hi Hn ltac:(lia)) as (ts & seen' & Ed & F & I' & N').
    exists (TInfix (ofs * @sizeof_value A1) :: ts), seen'. cbn [MarshalDump.dump]. rewrite Eh. cbn [of_res].
    rewrite Ti, Si, (proj2 (Z.eqb_neq ofs 0)), Eo, Z.div_mul, Z.sub_diag, Ed by lia.
    split; [reflexivity|]. split; auto. constructor; auto. cbn [tok_fits]. split; auto. lia.
  - destruct (IH k f seen Hex Hi Hn ltac:(lia)) as (ts & seen' & Ed & Rest).
    exists ts, seen'. cbn [MarshalDump.dump]. rewrite Hh. cbn [of_res]. now rewrite Htg, Hft.
Qed.
End Total.
