(* ===== verification/Marshal.v ===== *)
(** Marshal: the guarantees of the marshaller as a whole: it terminates on
    cyclic graphs, and what one machine writes another reads back as an
    isomorphic graph. *)
From Stdlib Require Import ZArith Lia Bool Ascii String List.
From S2P Require Import Prelude Mlvalues InterpState InterpCalls ExternOutput InternInput Custom MarshalHeap Extern Intern MarshalBytes MarshalTrail MarshalRestore MarshalDump MarshalDecode MarshalRead MarshalRefine MarshalIso MarshalRoundtrip.
Import ListNotations.
Local Open Scope Z_scope.

(** ** The area allocated by the reader *)

Section Alloc.
Context {A : Arch}.

Lemma sizeof_value_cases : sizeof_value = 4 \/ sizeof_value = 8.
Proof. unfold sizeof_value. destruct WORD_cases as [-> | ->]; auto. Qed.

Lemma page_round x : 0 <= x -> x + Page_size <= 2 ^ WORD ->
  x <= Z.shiftl (Z.shiftr (wrap WORD (x + Page_size - 1)) Page_log) Page_log.
Proof.
  intros Hx Hl. rewrite wrap_small by (change Page_size with 4096 in *; lia).
  rewrite Z.shiftl_mul_pow2, Z.shiftr_div_pow2 by (unfold Page_log; lia).
  change (2 ^ Page_log) with 4096. change Page_size with 4096.
  pose proof (Z.div_mod (x + 4096 - 1) 4096). pose proof (Z.mod_pos_bound (x + 4096 - 1) 4096). lia.
Qed.

Lemma intern_alloc_ok garbage src whsize objs : 0 <= objs <= whsize -> (whsize = 0 <-> objs = 0) ->
  Bsize_wsize whsize + Page_size <= 2 ^ WORD ->
  let st := intern_alloc garbage src whsize objs in
  isrc st = src /\ idest st = 0 /\ imem st = garbage /\ whsize <= iend st /\ table_size st = objs /\ table_ok [] st.
Proof.
  intros Ho Hz Hl. unfold intern_alloc. pose proof sizeof_value_pos as Hp. unfold Bsize_wsize in *.
  destruct (Z.eqb_spec whsize 0) as [->|Hn].
  { assert (objs = 0) as -> by tauto. cbn. conj; auto; reflexivity. }
  assert (0 < objs) by lia.
  assert (Et : wrap WORD (objs * sizeof_value) / sizeof_value = objs).
  { rewrite wrap_small; [apply Z.div_mul; lia|]. change Page_size with 4096 in Hl. nia. }
  cbn [isrc idest imem iend table_size intern_obj_table]. rewrite Et. conj; auto.
  - destruct (_ <? _); [|lia]. unfold Wsize_bsize. apply Z.div_le_lower_bound; auto.
    rewrite Z.mul_comm. apply page_round; auto. nia.
  - unfold table_ok. cbn [table_size intern_obj_table]. rewrite (proj2 (Z.ltb_lt 0 objs)), (proj2 (Z.eqb_neq objs 0)) by lia.
    reflexivity.
Qed.
End Alloc.

Section Whole.
Context {A1 : Arch} {F1 : FloatArch} {A2 : Arch} {F2 : FloatArch}.
Variable custom_at : Z -> option custom_operations.
Variable custom_ops_table : list Z.
Variable checksum : list Z.
Variable intern_color : Z.
Variable code_size : Z.
Variable closures : bool.

Notation words := (sum (tok_words (@sizeof_value A2))).

(** Each object takes at least a header. *)
Lemma objs_le_words ts : Forall (tok_fits A1 A2) ts -> 0 <= sum tok_objs ts <= words ts /\ (words ts = 0 <-> sum tok_objs ts = 0).
Proof.
  intros Hf. pose proof (@sizeof_value_pos A2) as Hp.
  assert (K : forall t, tok_fits A1 A2 t -> 0 <= tok_objs t <= tok_words (@sizeof_value A2) t /\
            (tok_words (@sizeof_value A2) t = 0 <-> tok_objs t = 0)).
  { intros t Ht. assert (Hd : 0 <= 8 / @sizeof_value A2) by (apply Z.div_pos; lia).
    destruct t as [n|hd|d|bs|bs|n bs|hd|ofs|p]; cbn [tok_objs tok_words tok_fits] in *; try lia.
    destruct (@string_size_bounds A2 bs) as [_ Hs]. unfold string_size in Hs. lia. }
  induction Hf as [|t ts Ht _ IH]; cbn [sum]; [lia|]. specialize (K t Ht). lia.
Qed.

Lemma sum_words_nonneg w ts : Forall (tok_fits A1 A2) ts -> 0 < w <= 8 -> 0 <= sum (tok_words w) ts.
Proof.
  intros Hf Hw. induction Hf as [|t ts Ht _ IH]; cbn [sum]; [lia|]. enough (0 <= tok_words w t) by lia.
  assert (0 <= 8 / w) by (apply Z.div_pos; lia).
  destruct t as [n|hd|d|bs|bs|n bs|hd|ofs|p]; cbn [tok_words tok_fits] in *; try lia.
  pose proof (len_nonneg bs). pose proof (Z.div_pos (len bs + w) w). lia.
Qed.

(** [v] has been copied, with everything it reaches, in the area [0, size) of
    the reader: the blocks [seen] are at the distinct addresses [ad], sharing
    and cycles included. *)
Definition copied (H : sheap) (v : value) (st : int_state) : Prop :=
  exists seen ad, NoDup ad /\ length ad = length seen /\
    img (A1 := A1) (A2 := A2) H seen ad v (ivar st) /\
    (forall i b a, nth_error seen i = Some b -> nth_error ad i = Some a ->
       block_img (A1 := A1) (F1 := F1) (A2 := A2) (F2 := F2) intern_color H seen ad 0 (idest st) (imem st) b a).

Lemma skip_message pre n objs s32 s64 (r : list Z) :
  skipn (Z.to_nat (len pre + 2 * 4)) (pre ++ message n objs s32 s64 r) = be_bytes 4 objs ++ be_bytes 4 s32 ++ be_bytes 4 s64 ++ r /\
  skipn (Z.to_nat (len pre + 5 * 4)) (pre ++ message n objs s32 s64 r) = r.
Proof.
  assert (K : forall k l t, length l = k -> skipn (Z.to_nat (len pre + Z.of_nat k)) (pre ++ l ++ t) = t).
  { intros k l t Hl. unfold len. rewrite Z2Nat.inj_add, !Nat2Z.id by lia. rewrite app_assoc, skipn_app, length_app, Hl.
    rewrite skipn_all2 by (rewrite length_app; lia). now rewrite Nat.sub_diag. }
  unfold message. split.
  - change (2 * 4) with (Z.of_nat 8). rewrite app_assoc with (l := be_bytes 4 Intext_magic_number).
    apply K. now rewrite length_app, !be_bytes_length.
  - change (5 * 4) with (Z.of_nat 20).
    replace (be_bytes 4 Intext_magic_number ++ _) with
      ((be_bytes 4 Intext_magic_number ++ be_bytes 4 n ++ be_bytes 4 objs ++ be_bytes 4 s32 ++ be_bytes 4 s64) ++ r)
      by now rewrite <- !app_assoc.
    apply K. now rewrite !length_app, !be_bytes_length.
Qed.

Section Reader.
Variable garbage : Z -> value.
Hypothesis Hg : forall w, exists x, garbage w = Imm x.
Hypothesis Hck : length checksum = 16%nat.
Variable H : sheap.
Hypothesis Hwf : @heap_wf A1 H.
Variable fuel : nat.
Variable v : value.
Hypothesis Hv : ptr_ok H v.
Variable ts : list token.
Variable seen : list Z.
Hypothesis Hd : @dump A1 code_size closures H fuel v [] = Some (ts, seen).
Hypothesis Hf : Forall (tok_fits A1 A2) ts.
Hypothesis Hl : @Bsize_wsize A2 (words ts) + Page_size <= 2 ^ @WORD A2.
Notation data := (@encs A1 F1 checksum ts).

(** Reading the data of a traversal in an area just allocated. *)
Lemma input_data suf :
  exists st, @intern_rec A2 F2 custom_at custom_ops_table checksum intern_color fuel Var
      (intern_alloc garbage (data ++ suf) (words ts) (sum tok_objs ts)) = Ok st /\
    idest st = words ts /\ isrc st = suf /\ copied H v st.
Proof.
  destruct (objs_le_words ts Hf) as [Ho Hz].
  destruct (intern_alloc_ok garbage (data ++ suf) (words ts) (sum tok_objs ts) Ho Hz Hl)
    as (S1 & S2 & S3 & S4 & S5 & S6).
  set (st0 := intern_alloc garbage (data ++ suf) (words ts) (sum tok_objs ts)) in *.
  assert (R : ready (A1 := A1) (F1 := F1) (A2 := A2) checksum [] [] ts suf st0).
  { split; auto; try lia; [split; [constructor | constructor] | change (zlen []) with 0; lia |].
    intros w _. rewrite S3. apply Hg. }
  destruct (intern_rec_reads custom_at custom_ops_table checksum intern_color code_size closures Hck H Hwf fuel
    v [] ts seen [] Var suf st0 Hd Hv Hf R I) as (ad & st & E & [D1 D2 D3 D4 D5 [Da _] D6 D7 D8] & _ & Im).
  exists st. rewrite E, S2 in *. cbn [app] in *. conj; auto. exists seen, ad. conj; auto.
  intros i b a Hi Ha. apply (D8 i); auto. cbn. lia.
Qed.

Hypothesis L0 : sum tok_objs ts < 2 ^ 32.
Hypothesis L4 : sum (tok_words 4) ts < 2 ^ 32.
Hypothesis L8 : sum (tok_words 8) ts < 2 ^ 32.

Lemma sizes_wrap : wrap 32 (sum tok_objs ts) = sum tok_objs ts /\
  (if @ARCH_SIXTYFOUR A2 then wrap 32 (sum (tok_words 8) ts) else wrap 32 (sum (tok_words 4) ts)) = words ts.
Proof.
  destruct (objs_le_words ts Hf) as [Ho _].
  pose proof (sum_words_nonneg 4 ts Hf ltac:(lia)). pose proof (sum_words_nonneg 8 ts Hf ltac:(lia)).
  rewrite !wrap_small by lia. split; auto. unfold sizeof_value, WORD. now destruct (@ARCH_SIXTYFOUR A2).
Qed.

(** From a string, at an offset. *)
Lemma input_message pre suf :
  exists st, @caml_input_val_from_string A2 F2 custom_at custom_ops_table checksum intern_color garbage fuel
      (pre ++ @message_of A1 F1 checksum ts ++ suf) (len pre) = Ok st /\
    idest st = words ts /\ isrc st = suf /\ copied H v st.
Proof.
  unfold caml_input_val_from_string.
  assert (Em : @message_of A1 F1 checksum ts ++ suf =
    message (len data) (sum tok_objs ts) (sum (tok_words 4) ts) (sum (tok_words 8) ts) (data ++ suf)).
  { unfold message_of, message. now rewrite <- !app_assoc. }
  rewrite Em. destruct (skip_message pre (len data) (sum tok_objs ts) (sum (tok_words 4) ts) (sum (tok_words 8) ts) (data ++ suf)) as [-> ->].
  unfold read_sizes. rewrite !read32u_spec. destruct sizes_wrap as [-> ->]. apply input_data.
Qed.

End Reader.
End Whole.

(** The blocks of the example can be marshalled to any machine. *)
Lemma example_blocks_ok {A2 : Arch} : forall b, In b [0; 1; 2] ->
  block_ok (A1 := arch64) (A2 := A2) 100 false (example_heap Double_tag) [0; 1; 2] b.
Proof.
  assert (F : forall b, In b [0; 1; 2] -> field_ok (A1 := arch64) (A2 := A2) 100 false (example_heap Double_tag) [0; 1; 2] (Ptr b 0)).
  { intros b Hb. exists 1%nat. now apply ex_block. }
  intros b Hb. destruct Hb as [<-|[<-|[<-|[]]]]; (split; [lia|]); eexists _, _; (split; [reflexivity|]);
    (split; [vm_compute; discriminate|]); (split; [reflexivity|]).
  - cbv zeta. match goal with |- if ?c then _ else ?x => change x end. match goal with |- if ?c then _ else ?x => change x end.
    match goal with |- if ?c then _ else ?x => change x end. conj; try (vm_compute; discriminate).
    + unfold Max_wosize. destruct ARCH_SIXTYFOUR; vm_compute; discriminate.
    + repeat constructor; apply F; cbn; tauto.
  - eexists _, _. split; [vm_compute; reflexivity|]. split; [lia|]. split; [|vm_compute; reflexivity].
    unfold string_words, sizeof_value, WORD, Max_wosize. destruct ARCH_SIXTYFOUR; vm_compute; discriminate.
  - eexists. vm_compute. reflexivity.
Qed.



(** The output of the writer. *)
Lemma writes_message {A1 : Arch} {F1 : FloatArch} {A2 : Arch} custom_at checksum code_size closures H D k v fuel junk :
  @heap_wf A1 H -> ptr_ok H v -> length junk = 16%nat ->
  (forall b, In b D -> block_ok (A1 := A1) (A2 := A2) code_size closures H D b) ->
  Z.of_nat (length D) < 2 ^ 32 -> exportable (A1 := A1) (A2 := A2) code_size closures H D k v ->
  (3 * length D + 3 <= fuel)%nat ->
  exists ts seen, @dump A1 code_size closures H fuel v [] = Some (ts, seen) /\ Forall (tok_fits A1 A2) ts /\
    sum tok_objs ts < 2 ^ 32 /\
    (sum (tok_words 4) ts < 2 ^ 32 -> sum (tok_words 8) ts < 2 ^ 32 -> len (@message_of A1 F1 checksum ts) < 2 ^ 32 ->
     exists o h, heap_eq h H /\ output o = @message_of A1 F1 checksum ts /\
       @extern_value A1 F1 custom_at code_size checksum false closures junk fuel v init_extern_output H =
         EOk (len (@message_of A1 F1 checksum ts), o, h)).
Proof.
  intros Hwf Hv Hj Hok Hc Hex Hf. pose proof (rank_le code_size closures H D k v Hex) as Hk.
  destruct (dump_total code_size closures H D Hwf Hok Hc fuel k v [] Hex (incl_nil_l D) (NoDup_nil Z))
    as (ts & seen & Ed & Hfit & Hi & Hn); [rewrite rem_nil; lia|].
  pose proof (NoDup_incl_length Hn Hi) as Hl. pose proof (dump_counts code_size closures H fuel _ _ _ _ Ed) as Cn. cbn [length] in Cn.
  exists ts, seen. split; [exact Ed|]. split; [exact Hfit|]. split; [lia|]. intros L4 L8 Lm.
  pose proof (sum_words_nonneg 4 ts Hfit ltac:(lia)). pose proof (sum_words_nonneg 8 ts Hfit ltac:(lia)).
  destruct (extern_value_message (A := A1) (F := F1) custom_at code_size checksum closures H Hwf junk fuel v ts seen Hv Hj Ed)
    as (o & h & Hh & Ho & Ew); try lia.
  exists o, h. conj; auto. now rewrite Ew, (proj2 (Z.leb_gt _ _) Lm), andb_false_r.
Qed.

(** C1. Marshalling is portable: a value written by [caml_output_value_to_string]
    on one machine and read by [caml_input_val_from_string] on another, of
    any word size and byte orders, at any offset of a string, is copied with
    everything it reaches: the blocks read are in one-to-one correspondence
    with the blocks written, with the same tags, sizes and contents (strings,
    doubles of either byte order, integers, code pointers, infix pointers,
    atoms, short-circuited forwarding blocks), the same sharing and the same
    cycles.  The reader consumes exactly the message and fills exactly the
    number of words announced by the writer for its word size; the writer's
    heap is unchanged.  Neither side runs out of fuel.  The message must be
    less than 2 Gb; the writer raises [Out_of_memory], its heap unchanged as well,
    exactly when it is too long for a string of its machine.  The graph
    ([exportable], [block_ok]) has no abstract block, no custom block, no
    forwarding block that is not skipped and no chain of them; its integers
    and its blocks fit the machine that reads, closures are only written when
    [closures] is set, and infix pointers only between machines of the same word
    size. *)
Theorem marshal_roundtrip {A1 : Arch} {F1 : FloatArch} {A2 : Arch} {F2 : FloatArch}
    custom_at1 custom_at2 custom_ops_table checksum intern_color code_size closures H D k v fuel junk garbage pre suf :
  @heap_wf A1 H -> ptr_ok H v -> length checksum = 16%nat -> length junk = 16%nat ->
  (forall w, exists x, garbage w = Imm x) ->
  (forall b, In b D -> block_ok (A1 := A1) (A2 := A2) code_size closures H D b) ->
  Z.of_nat (length D) < 2 ^ 32 -> exportable (A1 := A1) (A2 := A2) code_size closures H D k v ->
  (3 * length D + 3 <= fuel)%nat ->
  exists ts seen, @dump A1 code_size closures H fuel v [] = Some (ts, seen) /\
    (sum (tok_words 4) ts < 2 ^ 32 -> sum (tok_words 8) ts < 2 ^ 32 ->
     len (@message_of A1 F1 checksum ts) < 2 ^ 31 ->
     @Bsize_wsize A2 (sum (tok_words (@sizeof_value A2)) ts) + Page_size <= 2 ^ @WORD A2 ->
     exists msg h st,
       @caml_output_value_to_string A1 F1 custom_at1 code_size checksum false closures junk fuel v H =
         (if @Max_wosize A1 <? @string_words A1 (len msg) then ERaise Out_of_memory h else EOk (msg, h)) /\
       heap_eq h H /\
       @caml_input_val_from_string A2 F2 custom_at2 custom_ops_table checksum intern_color garbage fuel
         (pre ++ msg ++ suf) (len pre) = Ok st /\
       isrc st = suf /\ idest st = sum (tok_words (@sizeof_value A2)) ts /\
       copied (A1 := A1) (F1 := F1) (A2 := A2) (F2 := F2) intern_color H v st).
Proof.
  intros Hwf Hv Hck Hj Hg Hok Hc Hex Hf.
  destruct (writes_message (F1 := F1) custom_at1 checksum code_size closures H D k v fuel junk Hwf Hv Hj Hok Hc Hex Hf)
    as (ts & seen & Ed & Hfit & L0 & _).
  exists ts, seen. split; auto. intros L4 L8 Lm Lp.
  pose proof (sum_words_nonneg 4 ts Hfit ltac:(lia)). pose proof (sum_words_nonneg 8 ts Hfit ltac:(lia)).
  destruct (output_value_message (A := A1) (F := F1) custom_at1 code_size checksum closures H Hwf junk fuel v ts seen Hv Hj Ed)
    as (h & Hh & Ew); try lia.
  destruct (input_message (F1 := F1) (F2 := F2) custom_at2 custom_ops_table checksum intern_color code_size closures
    garbage Hg Hck H Hwf fuel v Hv ts seen Ed Hfit Lp L0 L4 L8 pre suf) as (st & Er & Hd & Hs & Hcp).
  exists (@message_of A1 F1 checksum ts), h, st. conj; auto.
Qed.

(** From a little-endian 64-bit machine to a 32-bit one with big-endian
    floats. *)
Lemma marshal_roundtrip_witness :
  exists msg h st,
    @caml_output_value_to_string arch64 little_floats no_custom 100 (repeat 7 16) false false (repeat 0 16) 12
      (Ptr 0 0) (example_heap Double_tag) =
      (if @Max_wosize arch64 <? @string_words arch64 (len msg) then ERaise Out_of_memory h else EOk (msg, h)) /\
    heap_eq h (example_heap Double_tag) /\
    @caml_input_val_from_string arch32 big_floats no_custom [] (repeat 7 16) Caml_white (fun _ => Imm 0) 12
      ([1; 2; 3] ++ msg ++ [4; 5]) 3 = Ok st /\
    isrc st = [4; 5] /\ idest st = 9 /\
    copied (A1 := arch64) (F1 := little_floats) (A2 := arch32) (F2 := big_floats) Caml_white (example_heap Double_tag) (Ptr 0 0) st.
Proof.
  destruct (marshal_roundtrip (A1 := arch64) (F1 := little_floats) (A2 := arch32) (F2 := big_floats)
    no_custom no_custom [] (repeat 7 16) Caml_white 100 false (example_heap Double_tag) [0; 1; 2] 1 (Ptr 0 0) 12
    (repeat 0 16) (fun _ => Imm 0) [1; 2; 3] [4; 5]) as (ts & seen & Ed & R).
  - apply example_heap_wf. now right.
  - left. vm_compute. split; [reflexivity | discriminate].
  - reflexivity.
  - reflexivity.
  - eauto.
  - apply example_blocks_ok.
  - reflexivity.
  - apply ex_block. now left.
  - cbn. lia.
  - vm_compute in Ed. injection Ed as <- <-.
    exact (R eq_refl eq_refl eq_refl ltac:(vm_compute; discriminate)).
Defined.

(** ** Serializers that raise

    [extern_custom] calls the serializer of a block without a handler: nothing
    replays the trail when it raises, as [serialize_nat] does for a natural
    that is too big. *)
Section Serializer.
Context {A : Arch} {F : FloatArch}.
Variable custom_at : Z -> option custom_operations.
Variables (code_size : Z) (checksum : list Z) (closures : bool) (H : sheap).
Hypothesis Hwf : heap_wf H.
Variables (c chd p : Z) (data : list value) (ops : custom_operations) (s : list value -> writer) (e : exn).
Hypothesis Hc : 0 <= c.
Hypothesis Ec : H c = Some (SBlock chd (Imm p :: data)).
Hypothesis Tc : Tag_hd chd = Custom_tag.
Hypothesis Hp : custom_at p = Some ops.
Hypothesis Hs : serialize ops = Some s.
Hypothesis Hr : forall o, s data o = Raise e.
Hypothesis He : e <> buffer_overflow.

Lemma custom_raises o seen out n32 n64 st fuel : Wrote H o seen out n32 n64 st -> ~ In c seen ->
  exists st', extern_rec custom_at code_size checksum false closures (S fuel) (Ptr c 0) st = ERaise e (eheap st') /\ Inv H seen st'.
Proof using Hwf Hc Ec Tc Hp Hs Hr He.
  intros W Hn. destruct (hw_header H Hwf c chd _ Hc Ec) as (_ & Hb & Hz & _). unfold zlen in Hz. cbn [length] in Hz.
  assert (Eh : forall st', Inv H seen st' -> eheap st' c = Some (SBlock chd (Imm p :: data))).
  { intros st' I'. rewrite (inv_heap _ _ _ I'). now rewrite mark_unseen. }
  cbn [extern_rec hd_of]. rewrite get_sblock_pos, (Eh st (w_inv _ _ _ _ _ _ _ W)) by auto. change (0 =? 0) with true. cbn [read].
  rewrite Tc. change (Custom_tag =? Forward_tag) with false. cbv iota. unfold extern_object.
  rewrite (proj2 (Z.eqb_neq _ 0)), (proj2 (Z.eqb_neq _ _) Hb) by lia.
  change (Custom_tag =? String_tag) with false. change (Custom_tag =? Double_tag) with false. change (Custom_tag =? Double_array_tag) with false.
  change (Custom_tag =? Abstract_tag) with false. change (Custom_tag =? Infix_tag) with false. change (Custom_tag =? Custom_tag) with true. cbv iota.
  unfold extern_custom. cbn [fld]. rewrite get_sblock_pos, (Eh st (w_inv _ _ _ _ _ _ _ W)) by auto.
  cbn [Z.add nthZ Z.ltb Z.compare Z.to_nat nth_error of_option raw]. rewrite Hp. cbn [of_option read]. rewrite Hs.
  
  destruct (write_wrote H _ _ _ _ _ _ _ _ W (Write_emits CODE_CUSTOM)) as (st1 & -> & W1 & _).
  destruct (write_wrote H _ _ _ _ _ _ _ _ W1 (writeblock_emits (identifier ops ++ [0]))) as (st2 & -> & W2 & _). rewrite (Eh _ (w_inv _ _ _ _ _ _ _ W2)). cbn [of_option option_map read swords tl]. rewrite Hr.
  exists st2. split; [|exact (w_inv _ _ _ _ _ _ _ W2)]. destruct e; try reflexivity.
  destruct (String.eqb_spec msg "Marshal.to_buffer: buffer overflow") as [->|_]; [now destruct He | reflexivity].
Qed.

Lemma block_raises o out n32 n64 st b hd ws fuel : Wrote H o [] out n32 n64 st -> 0 <= b ->
  H b = Some (SBlock hd (Ptr c 0 :: ws)) -> Tag_hd hd < No_scan_tag -> Tag_hd hd <> Forward_tag ->
  exists st', extern_rec custom_at code_size checksum false closures (S (S fuel)) (Ptr b 0) st = ERaise e (eheap st') /\ Inv H [b] st'.
Proof using Hwf Hc Ec Tc Hp Hs Hr He.
  intros W Hb Eb Ht Hf. destruct (hw_header H Hwf b hd _ Hb Eb) as (_ & Hbl & Hz & Hinf). unfold zlen in Hz. cbn [length] in Hz.
  assert (Hbc : c <> b) by (intros ->; rewrite Ec in Eb; injection Eb; intros _ _ _; congruence).
  assert (Eh : forall st', Inv H [] st' -> eheap st' b = Some (SBlock hd (Ptr c 0 :: ws))) by (intros st' I'; rewrite (inv_heap _ _ _ I'); exact Eb).
  remember (S fuel) as fuel1 eqn:Ef. cbn [extern_rec hd_of]. rewrite get_sblock_pos, (Eh st (w_inv _ _ _ _ _ _ _ W)) by auto.
  change (0 =? 0) with true. cbn [read]. rewrite (proj2 (Z.eqb_neq _ _) Hf). unfold extern_object.
  rewrite (proj2 (Z.eqb_neq _ 0)), (proj2 (Z.eqb_neq _ _) Hbl) by lia.
  rewrite !(proj2 (Z.eqb_neq (Tag_hd hd) _)) by (unfold No_scan_tag, String_tag, Double_tag, Double_array_tag, Abstract_tag, Custom_tag in *; auto; lia).
  unfold extern_block. destruct (extern_header_wrote checksum H _ _ _ _ _ _ hd W) as (st1 & -> & W1 & _). cbv zeta.
  change (eheap (add_sizes (1 + Wosize_hd hd) (1 + Wosize_hd hd) st1)) with (eheap st1). cbn [fld]. rewrite get_sblock_pos, (Eh st1 (w_inv _ _ _ _ _ _ _ W1)) by auto.
  change (of_option (nthZ (Ptr c 0 :: ws) (0 + 0))) with (Ok (Ptr c 0)). cbn [read].
  destruct (record_wrote H _ _ _ _ _ st1 b (1 + Wosize_hd hd) (1 + Wosize_hd hd) W1) as (st2 & -> & W2);
    [apply (markable_of H Hwf b hd (Ptr c 0 :: ws)); auto; lia | intros [] |]. cbn [read app] in *.
  destruct (custom_raises _ _ _ _ _ _ fuel W2) as (st3 & E3 & I3); [intros [->|[]]; now apply Hbc|]. rewrite <- Ef in E3.
  exists st3. split; [|exact I3]. destruct (_ =? 1); rewrite E3; reflexivity.
Qed.
End Serializer.


(** A pair of a custom block of operations at address 0, whose serializer
    raises, and an integer. *)
Definition failing_ops : custom_operations :=
  Ops [] None None (Some (fun _ _ => Raise (Failure "output_value: nat too big"))) None.
Definition failing_pair : sheap :=
  heap_of [SBlock (@Make_header arch64 2 0 Caml_white) [Ptr 1 0; Imm 85];
           SBlock (@Make_header arch64 2 Custom_tag Caml_white) [Imm 0; Imm 1]].
Lemma failing_pair_wf : @heap_wf arch64 failing_pair.
Proof.
  assert (C : forall b hd ws, 0 <= b -> failing_pair b = Some (SBlock hd ws) -> b = 0 \/ b = 1).
  { intros b hd ws Hb E. unfold failing_pair, heap_of, nthZ in E. destruct (b <? 0); [discriminate|].
    destruct (Z.to_nat b) as [|[|n]] eqn:Eb; try lia. destruct n; discriminate. }
  split; intros b hd ws Hb E; destruct (C b hd ws Hb E) as [-> | ->]; injection E as <- <-.
  1-2: split; [split; [vm_compute; discriminate | reflexivity]|]; conj; try reflexivity; vm_compute; discriminate.
  - intros _. repeat constructor. vm_compute. discriminate.
  - intros Ht. vm_compute in Ht. discriminate.
Qed.


(** ** Shared forwarding blocks

    A forwarding block that must not be short-circuited (its value is a float)
    is marked like any other block when it is written, its first field then
    holding its number.  When it is met again the test of [Forward_tag] comes
    before the test of the mark, and takes an odd number for an integer. *)
Definition shared_lazy_heap : sheap :=
  heap_of [SBlock (@Make_header arch64 2 0 Caml_white) [Ptr 1 0; Ptr 1 0];
           SBlock (@Make_header arch64 1 Forward_tag Caml_white) [Ptr 2 0];
           SBlock (@Make_header arch64 1 Double_tag Caml_white) [Imm 4618441417868443648]].

(** The pair of twice the same lazy float is read back as a pair of a lazy
    float and the integer 0: sharing of forwarding blocks is not preserved. *)
Theorem forward_sharing_lost :
  match @caml_output_value_to_string arch64 little_floats no_custom 100 [] false false (repeat 0 16) 12
          (Ptr 0 0) shared_lazy_heap with
  | EOk (msg, _) =>
      match @caml_input_val_from_string arch64 little_floats no_custom [] [] Caml_white (fun _ => Imm 0) 12 msg 0 with
      | Ok st => ivar st = Ptr intern_area 1 /\ imem st 1 = Ptr intern_area 4 /\
                 imem st 2 = Imm (@Val_long arch64 0)
      | _ => False
      end
  | _ => False
  end.
Proof. vm_compute. auto. Qed.
