(* ===== verification/Md5Proof.v ===== *)
(** Md5Proof: the incremental implementation of MD5 computes the reference
    digest, however the message is cut in pieces. *)
From Stdlib Require Import ZArith Lia Bool Ascii String List.
From S2P Require Import Prelude Mlvalues ExternOutput InternInput Int64Emul Custom MarshalBytes Md5.
Import ListNotations.
Local Open Scope Z_scope.

(** ** The table of operations *)

Definition ref_instr (i : nat) : instr :=
  (match (i / 16)%nat with 0%nat => F1 | 1%nat => F2 | 2%nat => F3 | _ => F4 end,
   nth (i mod 4) [Ra; Rd; Rc; Rb] Ra, nth (i mod 4) [Rb; Ra; Rd; Rc] Ra,
   nth (i mod 4) [Rc; Rb; Ra; Rd] Ra, nth (i mod 4) [Rd; Rc; Rb; Ra] Ra,
   Z.of_nat (round_index i), sine_constant i, round_shift i).

Lemma steps_ref : steps = map ref_instr (seq 0 64).
Proof. vm_compute. reflexivity. Qed.

(** ** The functions *)

Lemma testbit_ones32 n : 0 <= n -> Z.testbit 0xFFFFFFFF n = (n <? 32).
Proof.
  intros Hn. change 0xFFFFFFFF with (Z.ones 32). destruct (Z.ltb_spec n 32).
  - now apply Z.ones_spec_low.
  - apply Z.ones_spec_high. lia.
Qed.

(** Bitwise identities on [uint32]. *)
Ltac bitwise32 :=
  apply Z.bits_inj'; let n := fresh "n" in let Hn := fresh "Hn" in intros n Hn; unfold not32;
  repeat rewrite ?Z.lxor_spec, ?Z.lor_spec, ?Z.land_spec;
  rewrite ?testbit_ones32 by lia; destruct (Z.ltb_spec n 32);
  repeat match goal with
  | H : uint 32 ?x |- context [Z.testbit ?x n] =>
      first [rewrite (uint_testbit 32 x n H) by lia | destruct (Z.testbit x n)]
  end; reflexivity.

Lemma F1_spec x y z : uint 32 x -> uint 32 y -> uint 32 z -> F1 x y z = Z.lor (Z.land x y) (Z.land (not32 x) z).
Proof. intros Hx Hy Hz. unfold F1. bitwise32. Qed.

Lemma F2_spec x y z : uint 32 x -> uint 32 y -> uint 32 z -> F2 x y z = Z.lor (Z.land x z) (Z.land y (not32 z)).
Proof. intros Hx Hy Hz. unfold F2, F1. bitwise32. Qed.

Lemma round_fun_spec i x y z : uint 32 x -> uint 32 y -> uint 32 z ->
  (match (i / 16)%nat with 0%nat => F1 | 1%nat => F2 | 2%nat => F3 | _ => F4 end) x y z = round_fun i x y z.
Proof.
  intros Hx Hy Hz. unfold round_fun. destruct (i / 16)%nat as [|[|[|n]]].
  - now apply F1_spec.
  - now apply F2_spec.
  - unfold F3. apply Z.lxor_assoc.
  - reflexivity.
Qed.

Lemma round_shift_range i : 0 <= round_shift i <= 32.
Proof.
  unfold round_shift. destruct (i / 16)%nat as [|[|[|[|n]]]]; [..|destruct n];
    destruct (i mod 4)%nat as [|[|[|[|m]]]]; cbn [nth]; try (destruct m; cbn [nth]); lia.
Qed.

Lemma rotl_spec w s : 0 <= s <= 32 -> Z.lor (wrap 32 (Z.shiftl w s)) (Z.shiftr w (32 - s)) = rotl w s.
Proof. intros Hs. unfold rotl. now rewrite Z.shiftl_mul_pow2, Z.shiftr_div_pow2 by lia. Qed.

(** ** One operation *)

Definition tup (s : regs) : Z * Z * Z * Z := (r_a s, r_b s, r_c s, r_d s).
Definition regs_ok (s : regs) : Prop := uint 32 (r_a s) /\ uint 32 (r_b s) /\ uint 32 (r_c s) /\ uint 32 (r_d s).

(** The four variables, as the [i]-th operation names them. *)
Definition view (i : nat) (s : regs) : Z * Z * Z * Z :=
  (get (nth (i mod 4) [Ra; Rd; Rc; Rb] Ra) s, get (nth (i mod 4) [Rb; Ra; Rd; Rc] Ra) s,
   get (nth (i mod 4) [Rc; Rb; Ra; Rd] Ra) s, get (nth (i mod 4) [Rd; Rc; Rb; Ra] Ra) s).

Lemma MD5STEP_spec i w x y z X : uint 32 x -> uint 32 y -> uint 32 z ->
  MD5STEP (match (i / 16)%nat with 0%nat => F1 | 1%nat => F2 | 2%nat => F3 | _ => F4 end)
    w x y z (wrap 32 (X + sine_constant i)) (round_shift i) =
  wrap 32 (x + rotl (wrap 32 (w + round_fun i x y z + X + sine_constant i)) (round_shift i)).
Proof.
  intros Hx Hy Hz. unfold MD5STEP. rewrite rotl_spec by apply round_shift_range.
  rewrite round_fun_spec by auto. rewrite (Z.add_comm (rotl _ _) x). do 2 f_equal.
  rewrite Z.add_assoc, wrap_wrap_add_r. now rewrite Z.add_assoc.
Qed.

Lemma view_0 s : view 0 s = tup s.
Proof. reflexivity. Qed.
Lemma view_64 s : view (0 + 64) s = tup s.
Proof. reflexivity. Qed.

Section Steps.
Context {A : Arch}.
Variable bs block : list Z.
Hypothesis Hwords : forall k, (k < 16)%nat -> word_at bs (Z.of_nat k) = le_word block k.

Lemma round_index_lt i : (round_index i < 16)%nat.
Proof.
  unfold round_index. destruct (i / 16)%nat as [|[|[|n]]]; apply Nat.mod_upper_bound; lia.
Qed.

Lemma mod4_succ i : (S i mod 4 = match i mod 4 with 0 => 1 | 1 => 2 | 2 => 3 | _ => 0 end)%nat.
Proof.
  pose proof (Nat.mod_upper_bound i 4). pose proof (Nat.div_mod i 4).
  destruct (i mod 4)%nat as [|[|[|[|n]]]] eqn:E; try lia;
    symmetry; first [apply (Nat.mod_unique _ _ (i / 4)%nat); lia | apply (Nat.mod_unique _ _ (S (i / 4))); lia].
Qed.

Lemma run_step_spec i s : regs_ok s ->
  view (S i) (run_step bs s (ref_instr i)) = md5_op (le_word block) (view i s) i /\
  regs_ok (run_step bs s (ref_instr i)).
Proof.
  intros (Ha & Hb & Hc & Hd). unfold run_step, ref_instr, md5_op, view.
  rewrite Hwords by apply round_index_lt. rewrite mod4_succ.
  pose proof (Nat.mod_upper_bound i 4 ltac:(lia)) as Hm.
  assert (U : forall x, uint 32 (wrap 32 x)) by (intros x; apply wrap_range; lia).
  destruct (i mod 4)%nat as [|[|[|[|n]]]]; [..|lia];
    cbn [nth get set r_a r_b r_c r_d]; (split; [now rewrite MD5STEP_spec by auto|]);
    unfold regs_ok, MD5STEP; cbn [r_a r_b r_c r_d]; auto.
Qed.

Lemma run_steps_spec n : forall i s, regs_ok s ->
  view (i + n) (fold_left (run_step bs) (map ref_instr (seq i n)) s) =
    fold_left (md5_op (le_word block)) (seq i n) (view i s) /\
  regs_ok (fold_left (run_step bs) (map ref_instr (seq i n)) s).
Proof.
  induction n as [|n IH]; intros i s Hs; cbn [seq map fold_left].
  - now rewrite Nat.add_0_r.
  - destruct (run_step_spec i s Hs) as [E1 O1]. rewrite <- E1, <- Nat.add_succ_comm. now apply IH.
Qed.

Lemma transform_spec buf : regs_ok buf ->
  tup (caml_MD5Transform buf bs) = md5_block (tup buf) block /\ regs_ok (caml_MD5Transform buf bs).
Proof.
  intros Hs. unfold caml_MD5Transform, md5_block. rewrite steps_ref.
  pose proof (run_steps_spec 64 0 buf Hs) as [E _]. rewrite view_64, (view_0 buf) in E.
  revert E. generalize (fold_left (run_step bs) (map ref_instr (seq 0 64)) buf). intros s <-.
  split; [reflexivity|]. unfold regs_ok. cbn [r_a r_b r_c r_d]. conj; apply wrap_range; lia.
Qed.
End Steps.

(** ** Words in memory *)

Lemma is_byte4 l : length l = 4%nat -> Forall is_byte l -> exists b0 b1 b2 b3, l = [b0; b1; b2; b3] /\
  is_byte b0 /\ is_byte b1 /\ is_byte b2 /\ is_byte b3.
Proof.
  intros Hl Hb. destruct l as [|b0 [|b1 [|b2 [|b3 [|b4 l]]]]]; try discriminate.
  do 4 (inversion_clear Hb as [|? ? ? Hb']; rename Hb' into Hb). exists b0, b1, b2, b3. auto.
Qed.

Lemma le_val4 b0 b1 b2 b3 : be_val (rev [b0; b1; b2; b3]) = b0 + 256 * b1 + 65536 * b2 + 16777216 * b3.
Proof. cbn [rev app be_val fold_left]. unfold be_val. cbn [fold_left]. lia. Qed.

Lemma reverse_word_val b0 b1 b2 b3 : is_byte b0 -> is_byte b1 -> is_byte b2 -> is_byte b3 ->
  Z.lor (wrap 32 (Z.shiftl (Z.lor (Z.shiftl b3 8) b2) 16)) (Z.lor (Z.shiftl b1 8) b0) =
  b0 + 256 * b1 + 65536 * b2 + 16777216 * b3.
Proof.
  unfold is_byte. intros H0 H1 H2 H3. rewrite !Z.shiftl_mul_pow2 by lia.
  rewrite !(lor_shiftl_add _ _ 8) by lia. rewrite wrap_small by lia.
  rewrite lor_shiftl_add by lia. lia.
Qed.

Section Memory.
Context {A : Arch}.

Lemma firstn_length_le {T} n (l : list T) : (n <= length l)%nat -> length (firstn n l) = n.
Proof. intros. rewrite length_firstn. lia. Qed.

Lemma reverse_words_length n : forall buf, (4 * n <= length buf)%nat -> length (reverse_words n buf) = length buf.
Proof.
  induction n as [|n IH]; intros buf Hl; cbn [reverse_words]; auto.
  rewrite length_app, mem_bytes_length, IH by (rewrite length_skipn; lia). rewrite length_skipn. lia.
Qed.

Lemma byteReverse_length n buf : (4 * n <= length buf)%nat -> length (byteReverse n buf) = length buf.
Proof. unfold byteReverse. destruct ARCH_BIG_ENDIAN; auto. apply reverse_words_length. Qed.

Lemma Forall_skipn {T} (P : T -> Prop) n l : Forall P l -> Forall P (skipn n l).
Proof. revert l. induction n; intros l H; cbn; auto. destruct H; auto. Qed.

Lemma Forall_firstn {T} (P : T -> Prop) n l : Forall P l -> Forall P (firstn n l).
Proof. revert l. induction n; intros l H; cbn; auto. destruct H; auto. Qed.

(** Reversed words are read in little-endian order; the others stay. *)
Lemma word_reversed n : ARCH_BIG_ENDIAN = true -> forall buf k, (4 * n <= length buf)%nat -> Forall is_byte buf ->
  (k < n)%nat -> word_at (reverse_words n buf) (Z.of_nat k) = le_word buf k.
Proof.
  intros HB. induction n as [|n IH]; intros buf k Hl Hb Hk; [lia|]. cbn [reverse_words].
  destruct k as [|k].
  - unfold word_at, le_word. change (Z.to_nat (4 * Z.of_nat 0)) with 0%nat. change (4 * 0)%nat with 0%nat. cbn [skipn].
    rewrite firstn_app, mem_bytes_length. change (4 - 4)%nat with 0%nat. rewrite firstn_O, app_nil_r.
    rewrite firstn_all2 by (rewrite mem_bytes_length; lia). rewrite mem_val_mem_bytes.
    destruct buf as [|b0 [|b1 [|b2 [|b3 buf]]]]; cbn [length] in Hl; try lia.
    destruct (is_byte4 [b0; b1; b2; b3] eq_refl) as (? & ? & ? & ? & [= <- <- <- <-] & B0 & B1 & B2 & B3).
    { now apply (Forall_firstn is_byte 4) in Hb. }
    cbn [nth firstn]. rewrite reverse_word_val, le_val4 by auto. unfold is_byte in *. apply wrap_small.
    change (2 ^ (8 * Z.of_nat 4)) with (2 ^ 32). lia.
  - specialize (IH (skipn 4 buf) k). rewrite length_skipn in IH. unfold word_at, le_word in *.
    replace (Z.to_nat (4 * Z.of_nat (S k))) with (Z.to_nat (4 * Z.of_nat k) + 4)%nat by lia.
    replace (4 * S k)%nat with (4 * k + 4)%nat by lia. rewrite <- !skipn_skipn.
    rewrite (skipn_app 4), mem_bytes_length, (skipn_all2 (mem_bytes _ _)) by (rewrite mem_bytes_length; lia).
    change (4 - 4)%nat with 0%nat. rewrite skipn_O. cbn [app].
    apply IH; [lia | now apply Forall_skipn | lia].
Qed.

Lemma word_byteReverse n buf k : (4 * n <= length buf)%nat -> Forall is_byte buf -> (k < n)%nat ->
  word_at (byteReverse n buf) (Z.of_nat k) = le_word buf k.
Proof.
  intros Hl Hb Hk. unfold byteReverse. destruct ARCH_BIG_ENDIAN eqn:HB; [now apply word_reversed|].
  unfold word_at, le_word, mem_val. rewrite HB. do 4 f_equal. lia.
Qed.

(** ** memcpy *)

Lemma memcpy_length ofs d p : (ofs + length d <= length p)%nat -> length (memcpy ofs d p) = length p.
Proof. intros H. unfold memcpy. rewrite !length_app, length_skipn, length_firstn. lia. Qed.

Lemma memcpy_firstn ofs d p : (ofs <= length p)%nat -> firstn (ofs + length d) (memcpy ofs d p) = firstn ofs p ++ d.
Proof.
  intros H. unfold memcpy. rewrite app_assoc, firstn_app.
  rewrite firstn_all2 by (rewrite length_app, length_firstn; lia).
  rewrite length_app, length_firstn. replace (_ - _)%nat with 0%nat by lia. apply app_nil_r.
Qed.

Lemma memcpy_full ofs d p : (ofs + length d = length p)%nat -> memcpy ofs d p = firstn ofs p ++ d.
Proof. intros H. unfold memcpy. rewrite skipn_all2 by lia. now rewrite app_nil_r. Qed.

Lemma Forall_memcpy (P : Z -> Prop) ofs d p : Forall P d -> Forall P p -> Forall P (memcpy ofs d p).
Proof.
  intros Hd Hp. unfold memcpy. apply Forall_app. split; [now apply Forall_firstn|].
  apply Forall_app. split; auto. now apply Forall_skipn.
Qed.
End Memory.

(** ** Blocks of the reference definition *)

Lemma md5_blocks_app n m : forall st msg,
  md5_blocks (n + m) st msg = md5_blocks m (md5_blocks n st msg) (skipn (64 * n) msg).
Proof.
  induction n as [|n IH]; intros st msg.
  { rewrite Nat.mul_0_r.
    exact eq_refl. }
  change (S n + m)%nat with (S (n + m)). cbn [md5_blocks]. rewrite IH, skipn_skipn. f_equal. f_equal. lia.
Qed.

(** Only the first [64 * n] bytes matter. *)
Lemma md5_blocks_ext n : forall st m1 m2, (64 * n <= length m1)%nat ->
  md5_blocks n st (m1 ++ m2) = md5_blocks n st m1.
Proof.
  induction n as [|n IH]; intros st m1 m2 Hl; cbn [md5_blocks]; [reflexivity|].
  rewrite firstn_app, skipn_app. replace (64 - length m1)%nat with 0%nat by lia. rewrite firstn_O, skipn_O, app_nil_r.
  apply IH. rewrite length_skipn. lia.
Qed.

Section Update.
Context {A : Arch}.
Definition init_state : Z * Z * Z * Z := (0x67452301, 0xefcdab89, 0x98badcfe, 0x10325476).

Lemma Forall_byteReverse n buf : Forall is_byte buf -> Forall is_byte (byteReverse n buf).
Proof.
  unfold byteReverse. destruct ARCH_BIG_ENDIAN; auto. revert buf. induction n as [|n IH]; intros buf Hb; cbn [reverse_words]; auto.
  apply Forall_app. split; [apply mem_bytes_range | apply IH; now apply Forall_skipn].
Qed.

(** The registers after the [q] first blocks of a message. *)
Definition digested (q : nat) (msg : list Z) (buf : regs) : Prop :=
  regs_ok buf /\ tup buf = md5_blocks q init_state msg.

Lemma digest_block q msg block buf : digested q msg buf -> (64 * (q + 1) <= length msg)%nat -> Forall is_byte block ->
  block = firstn 64 (skipn (64 * q) msg) -> digested (q + 1) msg (caml_MD5Transform buf (byteReverse 16 block)).
Proof.
  intros [Ho Et] Hl Hb E.
  assert (Hlen : length block = 64%nat) by (subst block; rewrite length_firstn, length_skipn; lia).
  destruct (transform_spec (byteReverse 16 block) block) with buf as [E1 O1]; auto.
  { intros k Hk. apply word_byteReverse; auto. lia. }
  split; auto. rewrite E1, md5_blocks_app, Et, E. reflexivity.
Qed.

(** What a context holds after the bytes [msg]. *)
Record holds (msg : list Z) (ctx : MD5Context) : Prop := {
  h_buf : digested (length msg / 64) msg (ctx_buf ctx);
  h_bits0 : ctx_bits0 ctx = wrap 32 (8 * len msg);
  h_bits1 : ctx_bits1 ctx = wrap 32 (8 * len msg / 2 ^ 32);
  h_len : length (ctx_in ctx) = 64%nat;
  h_bytes : Forall is_byte (ctx_in ctx);
  h_in : firstn (length msg mod 64) (ctx_in ctx) = skipn (64 * (length msg / 64)) msg }.

Lemma update_blocks_spec n : forall q msg data buf inb, digested q (msg ++ data) buf -> length msg = (64 * q)%nat ->
  (64 * n <= length data)%nat -> Forall is_byte data -> length inb = 64%nat -> Forall is_byte inb ->
  exists buf' inb', update_blocks n buf inb data = (buf', inb', skipn (64 * n) data) /\
    digested (q + n) (msg ++ data) buf' /\ length inb' = 64%nat /\ Forall is_byte inb'.
Proof.
  induction n as [|n IH]; intros q msg data buf inb Hd Hq Hn Hb Hl Hi; cbn [update_blocks].
  - exists buf, inb. rewrite Nat.add_0_r. auto.
  - assert (L64 : length (firstn 64 data) = 64%nat) by (rewrite length_firstn; lia).
    rewrite memcpy_full by lia. rewrite firstn_O. cbn [app]. set (block := firstn 64 data) in *.
    assert (Hblk : Forall is_byte block) by now apply Forall_firstn.
    replace (msg ++ data) with ((msg ++ block) ++ skipn 64 data) in * by (unfold block; now rewrite <- app_assoc, firstn_skipn).
    destruct (IH (q + 1)%nat (msg ++ block) (skipn 64 data) (caml_MD5Transform buf (byteReverse 16 block)) (byteReverse 16 block))
      as (buf' & inb' & -> & D & L & I).
    + apply digest_block; auto; [rewrite !length_app, length_skipn; lia|].
      rewrite <- app_assoc, skipn_app, skipn_all2, Hq, Nat.sub_diag, skipn_O by lia. cbn [app].
      rewrite firstn_app, L64, Nat.sub_diag, firstn_O, app_nil_r. now rewrite firstn_all2 by lia.
    + rewrite length_app. lia.
    + rewrite length_skipn. lia.
    + now apply Forall_skipn.
    + rewrite byteReverse_length; lia.
    + now apply Forall_byteReverse.
    + exists buf', inb'. conj; auto; [|now replace (q + S n)%nat with (q + 1 + n)%nat by lia].
      f_equal. rewrite skipn_skipn. f_equal. lia.
Qed.

Lemma update_tail_spec q msg data buf inb : digested q (msg ++ data) buf -> length msg = (64 * q)%nat ->
  Forall is_byte data -> length inb = 64%nat -> Forall is_byte inb ->
  holds (msg ++ data) (update_tail (wrap 32 (8 * len (msg ++ data))) (wrap 32 (8 * len (msg ++ data) / 2 ^ 32)) buf inb data).
Proof.
  intros Hd Hq Hb Hl Hi. unfold update_tail. set (n := (length data / 64)%nat).
  pose proof (Nat.div_mod (length data) 64 ltac:(lia)) as Dm. pose proof (Nat.mod_upper_bound (length data) 64 ltac:(lia)) as Mb.
  fold n in Dm. destruct (update_blocks_spec n q msg data buf inb Hd Hq ltac:(lia) Hb Hl Hi) as (buf' & inb' & -> & D & L & I).
  assert (Eq : (length (msg ++ data) / 64 = q + n)%nat).
  { rewrite length_app. symmetry. apply (Nat.div_unique _ _ _ (length data mod 64)); lia. }
  assert (Em : (length (msg ++ data) mod 64 = length data mod 64)%nat).
  { rewrite length_app. symmetry. apply (Nat.mod_unique _ _ (q + n)); lia. }
  assert (Lr : length (skipn (64 * n) data) = (length data mod 64)%nat) by (rewrite length_skipn; lia).
  split; cbn [ctx_buf ctx_bits0 ctx_bits1 ctx_in]; auto.
  - now rewrite Eq.
  - rewrite memcpy_length; lia.
  - apply Forall_memcpy; auto. now apply Forall_skipn.
  - rewrite Em, Eq, <- Lr.
    pose proof (memcpy_firstn 0 (skipn (64 * n) data) inb' ltac:(lia)) as E. cbn [Nat.add firstn app] in E. rewrite E.
    rewrite skipn_app, (skipn_all2 msg) by lia. cbn [app]. f_equal. lia.
Qed.

(** The count of bits. *)
Lemma update_bits n l : 0 <= n -> 0 <= l ->
  let t := wrap 32 (8 * n) in
  let bits0 := wrap 32 (t + wrap 32 (Z.shiftl (wrap 32 l) 3)) in
  let bits1 := if bits0 <? t then wrap 32 (wrap 32 (8 * n / 2 ^ 32) + 1) else wrap 32 (8 * n / 2 ^ 32) in
  bits0 = wrap 32 (8 * (n + l)) /\ wrap 32 (bits1 + Z.shiftr l 29) = wrap 32 (8 * (n + l) / 2 ^ 32).
Proof.
  intros Hn Hl. cbv zeta. rewrite Z.shiftl_mul_pow2, Z.shiftr_div_pow2 by lia. change (2 ^ 3) with 8.
  assert (E8 : wrap 32 (wrap 32 l * 8) = wrap 32 (8 * l)).
  { unfold wrap. rewrite Z.mul_mod_idemp_l by lia. f_equal. lia. }
  rewrite E8. unfold wrap. change (2 ^ 32) with 4294967296. change (2 ^ 29) with 536870912.
  rewrite <- Z.add_mod by lia. split; [f_equal; lia|].
  replace (8 * (n + l)) with (8 * n + 8 * l) by lia.
  pose proof (Z.div_mod (8 * n) 4294967296 ltac:(lia)). pose proof (Z.mod_pos_bound (8 * n) 4294967296 ltac:(lia)).
  pose proof (Z.div_mod (8 * l) 4294967296 ltac:(lia)). pose proof (Z.mod_pos_bound (8 * l) 4294967296 ltac:(lia)).
  pose proof (Z.div_mod (8 * n + 8 * l) 4294967296 ltac:(lia)). pose proof (Z.mod_pos_bound (8 * n + 8 * l) 4294967296 ltac:(lia)).
  assert (El : l / 536870912 = 8 * l / 4294967296).
  { change 4294967296 with (8 * 536870912). now rewrite Z.div_mul_cancel_l by lia. }
  rewrite El. destruct (Z.ltb_spec ((8 * n + 8 * l) mod 4294967296) (8 * n mod 4294967296));
    rewrite ?Zplus_mod_idemp_l.
  - rewrite <- Z.add_assoc, Zplus_mod_idemp_l. f_equal. lia.
  - f_equal. lia.
Qed.

(** The bytes already in [in]. *)
Lemma count_bytes (l : list Z) : Z.to_nat (Z.land (Z.shiftr (wrap 32 (8 * len l)) 3) 0x3f) = (length l mod 64)%nat.
Proof.
  unfold len. generalize (length l). intros n.
  change 0x3f with (Z.ones 6). rewrite Z.land_ones, Z.shiftr_div_pow2 by lia. unfold wrap.
  change (2 ^ 6) with 64. change (2 ^ 3) with 8. change (2 ^ 32) with (8 * 536870912).
  rewrite Z.mul_mod_distr_l by lia. rewrite Z.mul_comm, Z.div_mul by lia.
  change 536870912 with (64 * 8388608).
  rewrite <- (Nat2Z.id (n mod 64)). f_equal. rewrite Nat2Z.inj_mod. change (Z.of_nat 64) with 64.
  symmetry. rewrite (Z.rem_mul_r (Z.of_nat n) 64 8388608) by lia.
  rewrite Z.mul_comm, Z.mod_add by lia. now rewrite Z.mod_mod by lia.
Qed.

Lemma digested_app q msg data buf : digested q msg buf -> (64 * q <= length msg)%nat -> digested q (msg ++ data) buf.
Proof. intros [Ho Et] Hl. split; auto. now rewrite md5_blocks_ext. Qed.

Lemma update_spec msg data ctx : holds msg ctx -> Forall is_byte data -> holds (msg ++ data) (caml_MD5Update ctx data).
Proof.
  intros [Hbuf H0 H1 Hl Hb Hin] Hd. unfold caml_MD5Update. cbv zeta.
  pose proof (update_bits (len msg) (len data) (len_nonneg msg) (len_nonneg data)) as B. cbv zeta in B.
  rewrite H0, H1. destruct B as [B0 B1]. rewrite B0 in *. rewrite B1. rewrite <- !len_app.
  pose proof (Nat.div_mod (length msg) 64 ltac:(lia)) as Dm. pose proof (Nat.mod_upper_bound (length msg) 64 ltac:(lia)) as Mb.
  set (q := (length msg / 64)%nat) in *. rewrite count_bytes. set (t := (length msg mod 64)%nat) in *.
  destruct (Nat.eqb_spec t 0) as [Ht|Ht].
  - apply (update_tail_spec q); auto; [apply digested_app; auto; lia | lia].
  - destruct (Z.ltb_spec (len data) (Z.of_nat (64 - t))) as [Hs|Hs]; unfold len in Hs.
    + assert (Eq : (length (msg ++ data) / 64 = q)%nat) by (rewrite length_app; symmetry; apply (Nat.div_unique _ _ _ (t + length data)); lia).
      assert (Em : (length (msg ++ data) mod 64 = t + length data)%nat) by (rewrite length_app; symmetry; apply (Nat.mod_unique _ _ q); lia).
      split; cbn [ctx_buf ctx_bits0 ctx_bits1 ctx_in]; auto.
      * rewrite Eq. apply digested_app; auto. lia.
      * rewrite memcpy_length; lia.
      * now apply Forall_memcpy.
      * rewrite Em, Eq, memcpy_firstn, Hin by lia. rewrite skipn_app. replace (64 * q - length msg)%nat with 0%nat by lia.
        now rewrite skipn_O.
    + set (d1 := firstn (64 - t) data). assert (L1 : length d1 = (64 - t)%nat) by (apply firstn_length_le; lia).
      rewrite memcpy_full, Hin by lia. set (block := skipn (64 * q) msg ++ d1).
      assert (Ed : msg ++ data = (msg ++ d1) ++ skipn (64 - t) data) by (unfold d1; now rewrite <- app_assoc, firstn_skipn).
      rewrite Ed.
      assert (Hblk : Forall is_byte block).
      { apply Forall_app. split; [rewrite <- Hin; now apply Forall_firstn | now apply Forall_firstn]. }
      assert (Lb : length block = 64%nat) by (unfold block; rewrite length_app, length_skipn; lia).
      apply (update_tail_spec (q + 1)).
      * apply digest_block; auto.
        -- apply digested_app; [apply digested_app; auto; lia | rewrite length_app; lia].
        -- rewrite !length_app, length_skipn. lia.
        -- rewrite <- app_assoc, skipn_app. replace (64 * q - length msg)%nat with 0%nat by lia. rewrite skipn_O.
           rewrite app_assoc. fold block. rewrite firstn_app, Lb, Nat.sub_diag, firstn_O, app_nil_r.
           now rewrite firstn_all2 by lia.
      * rewrite length_app. lia.
      * now apply Forall_skipn.
      * rewrite byteReverse_length; lia.
      * now apply Forall_byteReverse.
Qed.

Lemma init_holds junk : length junk = 64%nat -> Forall is_byte junk -> holds [] (caml_MD5Init junk).
Proof.
  intros Hl Hb. split; auto; try reflexivity. split; [|reflexivity].
  unfold regs_ok, uint. cbn. lia.
Qed.
End Update.

(** ** The last blocks *)

Section Final.
Context {A : Arch}.

Lemma skip4 {T} k (a b : list T) : (4 * k + 4 <= length a)%nat ->
  firstn 4 (skipn (4 * k) (a ++ b)) = firstn 4 (skipn (4 * k) a).
Proof.
  intros Hk. rewrite skipn_app. replace (4 * k - length a)%nat with 0%nat by lia. rewrite skipn_O, firstn_app.
  rewrite length_skipn. replace (4 - (length a - 4 * k))%nat with 0%nat by lia. now rewrite firstn_O, app_nil_r.
Qed.

Lemma skip4_end {T} k (a b : list T) : length a = (4 * k)%nat -> firstn 4 (skipn (4 * k) (a ++ b)) = firstn 4 b.
Proof. intros Hk. rewrite skipn_app, skipn_all2, Hk, Nat.sub_diag by lia. reflexivity. Qed.

Lemma word_at_nat l k : word_at l (Z.of_nat k) = mem_val (firstn 4 (skipn (4 * k) l)).
Proof. unfold word_at. do 3 f_equal. lia. Qed.

Lemma firstn4_app (a b : list Z) : length a = 4%nat -> firstn 4 (a ++ b) = a.
Proof. intros H. rewrite firstn_app, H, Nat.sub_diag, firstn_O, app_nil_r. now apply firstn_all2; lia. Qed.

Lemma le_word_bytes x : be_val (rev (le_bytes 4 x)) = wrap 32 x.
Proof. apply (be_val_be_bytes 4 x). Qed.

Lemma last_words inb b56 b0 b1 : length inb = 64%nat -> Forall is_byte inb -> firstn 56 inb = b56 ->
  forall k, (k < 16)%nat ->
  word_at (memcpy 60 (mem_bytes 4 b1) (memcpy 56 (mem_bytes 4 b0) (byteReverse 14 inb))) (Z.of_nat k) =
  le_word (b56 ++ le_bytes 4 b0 ++ le_bytes 4 b1) k.
Proof.
  intros Hl Hb H56 k Hk. set (Y := byteReverse 14 inb).
  assert (LY : length Y = 64%nat) by (unfold Y; rewrite byteReverse_length; lia).
  assert (L0 : length (mem_bytes 4 b0) = 4%nat) by apply mem_bytes_length.
  assert (L1 : length (mem_bytes 4 b1) = 4%nat) by apply mem_bytes_length.
  rewrite memcpy_full by (rewrite memcpy_length; lia).
  replace 60%nat with (56 + length (mem_bytes 4 b0))%nat by lia. rewrite memcpy_firstn by lia.
  assert (L56 : length (firstn 56 Y) = 56%nat) by (apply firstn_length_le; lia).
  assert (M56 : length b56 = 56%nat) by (subst b56; apply firstn_length_le; lia).
  rewrite word_at_nat. unfold le_word. rewrite <- app_assoc.
  assert (Hc : (k < 14 \/ k = 14 \/ k = 15)%nat) by lia. destruct Hc as [Hc|[->| ->]].
  - rewrite !skip4 by lia. fold (le_word b56 k). rewrite <- H56.
    assert (E : le_word (firstn 56 inb) k = le_word inb k).
    { unfold le_word. rewrite <- (firstn_skipn 56 inb) at 2. now rewrite (skip4 k (firstn 56 inb)) by (rewrite firstn_length_le; lia). }
    rewrite E. rewrite <- (word_byteReverse 14) by (auto; lia). fold Y. rewrite word_at_nat.
    rewrite <- (firstn_skipn 56 Y) at 2. now rewrite skip4 by lia.
  - rewrite !skip4_end by lia. rewrite !firstn4_app by (auto; apply le_bytes_length).
    rewrite mem_val_mem_bytes, le_word_bytes. reflexivity.
  - rewrite !app_assoc, !skip4_end by (rewrite length_app, ?le_bytes_length; lia).
    rewrite !firstn_all2 by (rewrite ?le_bytes_length; lia). rewrite mem_val_mem_bytes, le_word_bytes. reflexivity.
Qed.

(** The digest is stored in little-endian order. *)
Lemma reverse_words_cons n l r : ARCH_BIG_ENDIAN = true -> length l = 4%nat -> Forall is_byte l ->
  reverse_words (S n) (l ++ r) = rev l ++ reverse_words n r.
Proof.
  intros HB Hl Hb. destruct (is_byte4 l Hl Hb) as (b0 & b1 & b2 & b3 & -> & B0 & B1 & B2 & B3).
  cbn [reverse_words app nth skipn]. f_equal. rewrite reverse_word_val by auto. rewrite <- le_val4.
  unfold mem_bytes, be_bytes. rewrite HB. change 4%nat with (length [b0; b1; b2; b3]). now rewrite le_bytes_be_val.
Qed.

Lemma digest_bytes s : byteReverse 4 (bytes_of_regs s) =
  le_bytes 4 (r_a s) ++ le_bytes 4 (r_b s) ++ le_bytes 4 (r_c s) ++ le_bytes 4 (r_d s).
Proof.
  unfold byteReverse, bytes_of_regs. destruct ARCH_BIG_ENDIAN eqn:HB; [|unfold mem_bytes; now rewrite HB].
  rewrite !reverse_words_cons by (auto using mem_bytes_length, mem_bytes_range).
  rewrite <- (app_nil_r (mem_bytes 4 (r_d s))), reverse_words_cons by (auto using mem_bytes_length, mem_bytes_range).
  unfold mem_bytes, be_bytes. rewrite HB, !rev_involutive. cbn [reverse_words]. now rewrite app_nil_r.
Qed.

(** The last call of [caml_MD5Transform] and the digest, with [q] blocks
    digested out of [q + 1]. *)
Lemma final_block q msg b56 inb buf bits : digested q (msg ++ b56 ++ le_bytes 8 bits) buf -> 0 <= bits ->
  length msg = (64 * q)%nat -> length inb = 64%nat -> Forall is_byte inb -> firstn 56 inb = b56 ->
  let inb := memcpy 60 (mem_bytes 4 (wrap 32 (bits / 2 ^ 32))) (memcpy 56 (mem_bytes 4 (wrap 32 bits)) (byteReverse 14 inb)) in
  tup (caml_MD5Transform buf inb) = md5_blocks (q + 1) init_state (msg ++ b56 ++ le_bytes 8 bits).
Proof.
  intros [Ho Et] Hbits Hq Hl Hb H56. cbv zeta.
  destruct (transform_spec _ (b56 ++ le_bytes 4 (wrap 32 bits) ++ le_bytes 4 (wrap 32 (bits / 2 ^ 32)))
              (last_words inb b56 _ _ Hl Hb H56) buf Ho) as [-> _].
  rewrite md5_blocks_app, Et. cbn [md5_blocks]. f_equal.
  rewrite skipn_app, skipn_all2, Hq, Nat.sub_diag, skipn_O by lia. cbn [app].
  rewrite le_bytes_8, !le_bytes_wrap, Z.shiftr_div_pow2 by lia. symmetry. apply firstn_all2.
  rewrite !length_app, !le_bytes_length. subst b56. rewrite firstn_length_le; lia.
Qed.

Lemma pad_zeros (msg : list Z) : let t := (length msg mod 64)%nat in
  Z.to_nat ((55 - len msg) mod 64) = (if t <? 56 then 55 - t else 119 - t)%nat.
Proof.
  cbv zeta. set (t := (length msg mod 64)%nat).
  pose proof (Nat.div_mod (length msg) 64 ltac:(lia)) as Dm. pose proof (Nat.mod_upper_bound (length msg) 64 ltac:(lia)) as Mb.
  fold t in Dm, Mb. unfold len. destruct (Nat.ltb_spec t 56).
  - rewrite <- (Z.mod_unique (55 - Z.of_nat (length msg)) 64 (- Z.of_nat (length msg / 64)) (55 - Z.of_nat t)) by lia. lia.
  - rewrite <- (Z.mod_unique (55 - Z.of_nat (length msg)) 64 (- Z.of_nat (length msg / 64) - 1) (119 - Z.of_nat t)) by lia. lia.
Qed.

Lemma Forall_zeros n : Forall is_byte (repeat 0 n).
Proof. apply Forall_forall. intros x Hx. apply repeat_spec in Hx. rewrite Hx. unfold is_byte. lia. Qed.

(** [rest], the bytes of the last block, and the byte 0x80 are in the buffer. *)
Section Cases.
Variable q t : nat.
Variable msg0 rest in1 : list Z.
Variable buf : regs.
Variable bits : Z.
Hypothesis L0 : length msg0 = (64 * q)%nat.
Hypothesis Lr : length rest = t.
Hypothesis Hd : digested q (msg0 ++ rest) buf.
Hypothesis Hbits : 0 <= bits.
Hypothesis L1 : length in1 = 64%nat.
Hypothesis B1 : Forall is_byte in1.
Hypothesis H1 : firstn (S t) in1 = rest ++ [128].

(** [ctx->in] with the count of bits. *)
Definition with_count (inb : list Z) : list Z :=
  memcpy 60 (mem_bytes 4 (wrap 32 (bits / 2 ^ 32))) (memcpy 56 (mem_bytes 4 (wrap 32 bits)) (byteReverse 14 inb)).

Lemma final_long : (56 <= t < 64)%nat ->
  let p := (msg0 ++ rest) ++ 128 :: repeat 0 (119 - t) ++ le_bytes 8 bits in
  let in2 := byteReverse 16 (memcpy (S t) (repeat 0 (64 - 1 - t)) in1) in
  tup (caml_MD5Transform (caml_MD5Transform buf in2) (with_count (memcpy 0 (repeat 0 56) in2))) =
  md5_blocks (length p / 64) init_state p.
Proof.
  intros Ht. cbv zeta. set (block := rest ++ 128 :: repeat 0 (63 - t)).
  assert (Lb : length block = 64%nat) by (unfold block; rewrite length_app; cbn [length]; rewrite repeat_length; lia).
  assert (E2 : memcpy (S t) (repeat 0 (64 - 1 - t)) in1 = block).
  { rewrite memcpy_full by (rewrite repeat_length; lia). rewrite H1, <- app_assoc. reflexivity. }
  assert (Bb : Forall is_byte block) by (rewrite <- E2; apply Forall_memcpy; auto; apply Forall_zeros).
  rewrite E2. assert (L2 : length (byteReverse 16 block) = 64%nat) by (rewrite byteReverse_length; lia).
  assert (Ep : (msg0 ++ rest) ++ 128 :: repeat 0 (119 - t) ++ le_bytes 8 bits =
               (msg0 ++ block) ++ repeat 0 56 ++ le_bytes 8 bits).
  { unfold block. rewrite <- !app_assoc. cbn [app]. rewrite (app_assoc (repeat 0 (63 - t))), <- repeat_app.
    do 5 f_equal. lia. }
  rewrite Ep. set (p := (msg0 ++ block) ++ _).
  assert (Lp : (length p = 64 * (q + 1 + 1))%nat).
  { unfold p. rewrite !length_app, le_bytes_length, repeat_length. lia. }
  rewrite Lp, Nat.mul_comm, Nat.div_mul by lia. apply final_block; auto.
  - fold p. apply digest_block; auto; [|lia|].
    + unfold p. rewrite <- Ep. apply digested_app; auto. rewrite length_app. lia.
    + unfold p. rewrite <- app_assoc, skipn_app, skipn_all2, L0, Nat.sub_diag, skipn_O by lia. cbn [app].
      rewrite firstn_app, Lb, Nat.sub_diag, firstn_O, app_nil_r. now rewrite firstn_all2 by lia.
  - rewrite length_app. lia.
  - rewrite memcpy_length; rewrite ?repeat_length; lia.
  - apply Forall_memcpy; [apply Forall_zeros | now apply Forall_byteReverse].
Qed.

Lemma final_short : (t < 56)%nat ->
  let p := (msg0 ++ rest) ++ 128 :: repeat 0 (55 - t) ++ le_bytes 8 bits in
  tup (caml_MD5Transform buf (with_count (memcpy (S t) (repeat 0 (64 - 1 - t - 8)) in1))) =
  md5_blocks (length p / 64) init_state p.
Proof.
  intros Ht. cbv zeta. set (in2 := memcpy (S t) (repeat 0 (64 - 1 - t - 8)) in1).
  set (b56 := rest ++ 128 :: repeat 0 (55 - t)).
  assert (E2 : firstn 56 in2 = b56).
  { unfold in2, b56. pose proof (memcpy_firstn (S t) (repeat 0 (64 - 1 - t - 8)) in1 ltac:(lia)) as E.
    rewrite repeat_length, H1, <- app_assoc in E. replace (S t + (64 - 1 - t - 8))%nat with 56%nat in E by lia.
    rewrite E. cbn [app]. do 3 f_equal. lia. }
  assert (Ep : (msg0 ++ rest) ++ 128 :: repeat 0 (55 - t) ++ le_bytes 8 bits = msg0 ++ b56 ++ le_bytes 8 bits).
  { unfold b56. rewrite <- !app_assoc. reflexivity. }
  assert (Lp : (length (msg0 ++ b56 ++ le_bytes 8 bits) = 64 * (q + 1))%nat).
  { unfold b56. rewrite !length_app, le_bytes_length. cbn [length]. rewrite !repeat_length. lia. }
  rewrite Ep, Lp, Nat.mul_comm, Nat.div_mul by lia. apply final_block; auto.
  - rewrite <- Ep. apply digested_app; auto. rewrite length_app. lia.
  - unfold in2. rewrite memcpy_length; rewrite ?repeat_length; lia.
  - apply Forall_memcpy; auto. apply Forall_zeros.
Qed.
End Cases.

Lemma digest_of_tup buf st : tup buf = st ->
  firstn 16 (byteReverse 4 (bytes_of_regs buf)) =
  (let '(a, b, c, d) := st in le_bytes 4 a ++ le_bytes 4 b ++ le_bytes 4 c ++ le_bytes 4 d).
Proof.
  intros <-. rewrite digest_bytes. unfold tup. cbv beta iota. apply firstn_all2.
  rewrite !length_app, !le_bytes_length. lia.
Qed.

Lemma final_spec msg ctx : holds msg ctx -> fst (caml_MD5Final ctx) = md5 msg.
Proof.
  intros [Hbuf H0 H1 Hl Hb Hin]. unfold caml_MD5Final, md5, md5_pad. rewrite H0, count_bytes, pad_zeros.
  pose proof (Nat.div_mod (length msg) 64 ltac:(lia)) as Dm. pose proof (Nat.mod_upper_bound (length msg) 64 ltac:(lia)) as Mb.
  set (q := (length msg / 64)%nat) in *. set (t := (length msg mod 64)%nat) in *. rewrite H1.
  set (bits := 8 * len msg). assert (Hbits : 0 <= bits) by (pose proof (len_nonneg msg); unfold bits; lia).
  set (rest := skipn (64 * q) msg) in *. assert (Em : firstn (64 * q) msg ++ rest = msg) by apply firstn_skipn.
  assert (L0 : length (firstn (64 * q) msg) = (64 * q)%nat) by (apply firstn_length_le; lia).
  assert (Lr : length rest = t) by (unfold rest; rewrite length_skipn; lia).
  set (in1 := memcpy t [128] (ctx_in ctx)).
  assert (L1 : length in1 = 64%nat) by (unfold in1; rewrite memcpy_length; cbn [length]; lia).
  assert (B1 : Forall is_byte in1) by (apply Forall_memcpy; auto; repeat constructor; unfold is_byte; lia).
  assert (F1' : firstn (S t) in1 = rest ++ [128]).
  { pose proof (memcpy_firstn t [128] (ctx_in ctx) ltac:(lia)) as E. rewrite Hin in E. cbn [length] in E.
    now rewrite Nat.add_1_r in E. }
  rewrite <- Em in Hbuf.
  pose proof (final_long q t _ rest in1 _ bits L0 Lr Hbuf Hbits L1 B1 F1') as Fl.
  pose proof (final_short q t _ rest in1 _ bits L0 Lr Hbuf Hbits L1 B1 F1') as Fs. rewrite Em in Fl, Fs.
  destruct (Nat.ltb_spec (64 - 1 - t) 8) as [Ht|Ht]; cbv zeta; cbn [fst].
  - rewrite (proj2 (Nat.ltb_ge t 56)) by lia. apply digest_of_tup. apply Fl. lia.
  - rewrite (proj2 (Nat.ltb_lt t 56)) by lia. apply digest_of_tup. apply Fs. lia.
Qed.
End Final.

(** ** The digest of a message *)

Lemma updates_spec {A : Arch} chunks : forall msg ctx, holds msg ctx -> Forall (Forall is_byte) chunks ->
  holds (msg ++ concat chunks) (fold_left caml_MD5Update chunks ctx).
Proof.
  induction chunks as [|c chunks IH]; intros msg ctx H Hb; cbn [fold_left concat].
  - now rewrite app_nil_r.
  - inversion_clear Hb. rewrite app_assoc. apply IH; auto. now apply update_spec.
Qed.

(** C18. The MD5 implementation computes the MD5 function: however a message is
    cut into pieces given to [caml_MD5Update], whatever their lengths, empty
    pieces and pieces of more than a block included, [caml_MD5Final] returns
    the digest of the whole message, as defined on its padded blocks with the
    textbook boolean functions, index schedule and sine constants; in
    particular [caml_md5_string] returns the digest of the substring.  This
    holds on little- and big-endian machines, whatever the uninitialised
    buffer contains, the count of bits being taken modulo 2^64. *)
Theorem md5_correct {A : Arch} junk chunks str ofs l : length junk = 64%nat -> Forall is_byte junk ->
  Forall (Forall is_byte) chunks -> Forall is_byte str ->
  fst (caml_MD5Final (fold_left caml_MD5Update chunks (caml_MD5Init junk))) = md5 (concat chunks) /\
  caml_md5_string junk str ofs l = md5 (firstn (Z.to_nat l) (skipn (Z.to_nat ofs) str)).
Proof.
  intros Hl Hj Hc Hs. pose proof (init_holds junk Hl Hj) as H0. split.
  - apply final_spec. now apply (updates_spec chunks [] (caml_MD5Init junk)).
  - unfold caml_md5_string. apply final_spec. apply (update_spec []); auto.
    now apply Forall_firstn, Forall_skipn.
Qed.

(** The test vectors of RFC 1321 for "abc" and for 80 digits, the latter in two
    pieces, on a big-endian machine. *)
Definition digits80 : string := "12345678901234567890123456789012345678901234567890123456789012345678901234567890".

Lemma md5_correct_witness :
  fst (@caml_MD5Final big32 (fold_left (@caml_MD5Update big32) [firstn 33 (bytes_of digits80); skipn 33 (bytes_of digits80)]
         (caml_MD5Init (repeat 170 64)))) =
    md5 (concat [firstn 33 (bytes_of digits80); skipn 33 (bytes_of digits80)]) /\
  @caml_md5_string big32 (repeat 170 64) (bytes_of "xabcx") 1 3 = md5 (firstn 3 (skipn 1 (bytes_of "xabcx"))).
Proof.
  assert (B : forall l, forallb (fun b => (0 <=? b) && (b <? 256)) l = true -> Forall is_byte l).
  { intros l Hl. apply Forall_forall. intros x Hx. rewrite forallb_forall in Hl. apply Hl in Hx.
    unfold is_byte. lia. }
  apply (md5_correct (A := big32) (repeat 170 64) [firstn 33 (bytes_of digits80); skipn 33 (bytes_of digits80)]
    (bytes_of "xabcx") 1 3); [reflexivity | now apply B | do 2 (constructor; [apply B; reflexivity|]); constructor | apply B; reflexivity].
Defined.

Example md5_vectors :
  fst (@caml_MD5Final big32 (fold_left (@caml_MD5Update big32) [firstn 33 (bytes_of digits80); skipn 33 (bytes_of digits80)]
         (caml_MD5Init (repeat 170 64)))) =
    [0x57; 0xed; 0xf4; 0xa2; 0x2b; 0xe3; 0xc9; 0x55; 0xac; 0x49; 0xda; 0x2e; 0x21; 0x07; 0xb6; 0x7a] /\
  @caml_md5_string big32 (repeat 170 64) (bytes_of "xabcx") 1 3 =
    [0x90; 0x01; 0x50; 0x98; 0x3c; 0xd2; 0x4f; 0xb0; 0xd6; 0x96; 0x3f; 0x7d; 0x28; 0xe1; 0x7f; 0x72].
Proof. vm_compute. split; reflexivity. Qed.
