(* ===== verification/Io.v ===== *)
(** Io: buffered channels, src/inline-more/byterun/io.c and io.h.  The system
    calls are an interface; the operations are written in a monad of state and
    exceptions over a channel and the system. *)
From Stdlib Require Import ZArith Lia Bool Ascii String List.
From S2P Require Import Prelude Mlvalues ExternOutput.
Import ListNotations.
Local Open Scope Z_scope.

(** ** The system calls *)

Inductive errno := EINTR | EAGAIN | EBADF | EIO.
Inductive whence := SEEK_SET | SEEK_CUR | SEEK_END.

(** [write] returns the number of bytes written, [read] the bytes read, [lseek]
    the new position, or an error. *)
Class System := {
  sys : Type;
  sys_write : Z -> list Z -> sys -> (Z + errno) * sys;
  sys_read : Z -> Z -> sys -> (list Z + errno) * sys;
  sys_lseek : Z -> Z -> whence -> sys -> (Z + errno) * sys;
  sys_close : Z -> sys -> (unit + errno) * sys;
  (** The number of times a call is interrupted in a row. *)
  retries : nat }.

(** ** Channels *)

Definition IO_BUFFER_SIZE : Z := 4096.
Definition INT_MAX : Z := 2 ^ 31 - 1.

(** [curr] and [max] are indices in [buff]; [max] is [None] for the null pointer
    of output channels; [end] is the index [IO_BUFFER_SIZE]. *)
Record channel := Chan { fd : Z; offset : Z; curr : Z; max : option Z; buff : list Z }.

Definition set_fd (x : Z) (c : channel) : channel := Chan x (offset c) (curr c) (max c) (buff c).
Definition set_offset (x : Z) (c : channel) : channel := Chan (fd c) x (curr c) (max c) (buff c).
Definition set_curr (x : Z) (c : channel) : channel := Chan (fd c) (offset c) x (max c) (buff c).
Definition set_max (x : option Z) (c : channel) : channel := Chan (fd c) (offset c) (curr c) x (buff c).
Definition set_buff (x : list Z) (c : channel) : channel := Chan (fd c) (offset c) (curr c) (max c) x.

(** [memmove(buff + ofs, data, length data)] *)
Definition store_at (ofs : Z) (data buff : list Z) : list Z :=
  firstn (Z.to_nat ofs) buff ++ data ++ skipn (Z.to_nat ofs + length data) buff.
(** The [n] bytes at [buff + ofs]. *)
Definition load_at (ofs n : Z) (buff : list Z) : list Z := firstn (Z.to_nat n) (skipn (Z.to_nat ofs) buff).

Section Io.
Context {Sy : System}.

Definition io (T : Type) : Type := channel * sys -> res T * (channel * sys).
Definition ret {T} (x : T) : io T := fun s => (Ok x, s).
Definition bind {T U} (m : io T) (k : T -> io U) : io U := fun s =>
  let '(r, s') := m s in
  match r with Ok x => k x s' | Raise e => (Raise e, s') | Stuck => (Stuck, s') end.
Definition raise {T} (e : exn) : io T := fun s => (Raise e, s).
Definition stuck {T} : io T := fun s => (Stuck, s).
Definition get : io channel := fun s => (Ok (fst s), s).
Definition put (c : channel) : io unit := fun s => (Ok tt, (c, snd s)).
Definition call {T} (f : sys -> (T + errno) * sys) : io (T + errno) := fun '(c, s) =>
  let '(r, s') := f s in (Ok r, (c, s')).

Notation "'do' p <- m ; k" := (bind m (fun p => k)) (at level 200, p pattern, m at level 100, k at level 200).
Notation "m ;; k" := (bind m (fun _ => k)) (at level 199, right associativity).

(** [channel->max], which must not be null here. *)
Definition max_of (c : channel) : io Z := match max c with Some m => ret m | None => stuck end.

Definition caml_sys_io_error {T} (e : errno) : io T :=
  match e with EAGAIN => raise Sys_blocked_io | _ => raise Sys_error end.

Definition caml_open_descriptor_in (fd : Z) (junk : list Z) (s : sys) : channel * sys :=
  let '(r, s) := sys_lseek fd 0 SEEK_CUR s in
  (Chan fd (match r with inl p => p | inr _ => -1 end) 0 (Some 0) junk, s).
Definition caml_open_descriptor_out (fd : Z) (junk : list Z) (s : sys) : channel * sys :=
  let '(c, s) := caml_open_descriptor_in fd junk s in (set_max None c, s).

Definition caml_channel_size : io Z :=
  do c <- get;
  do e <- call (sys_lseek (fd c) 0 SEEK_END);
  match e with
  | inr _ => raise Sys_error
  | inl end_ =>
      do r <- call (sys_lseek (fd c) (offset c) SEEK_SET);
      match r with inl p => if p =? offset c then ret end_ else raise Sys_error | inr _ => raise Sys_error end
  end.

(** ** Output *)

(** The [again] loop of [do_write], for at most [fuel] calls. *)
Fixpoint write_loop (fuel : nat) (fd : Z) (p : list Z) : io Z :=
  match fuel with
  | O => stuck
  | S fuel =>
      do r <- call (sys_write fd p);
      match r with
      | inl written => ret written
      | inr EINTR => write_loop fuel fd p
      | inr EAGAIN => if 1 <? len p then write_loop fuel fd (firstn 1 p) else caml_sys_io_error EAGAIN
      | inr e => caml_sys_io_error e
      end
  end.
Definition do_write (fd : Z) (p : list Z) : io Z := write_loop (2 * retries + 2) fd p.

Definition caml_flush_partial : io bool :=
  do c <- get;
  let towrite := curr c in
  (if 0 <? towrite then
     do written <- do_write (fd c) (load_at 0 towrite (buff c));
     do c <- get;
     let c := set_offset (offset c + written) c in
     let c := if written <? towrite then set_buff (store_at 0 (load_at written (towrite - written) (buff c)) (buff c)) c else c in
     put (set_curr (curr c - written) c)
   else ret tt);;
  do c <- get;
  ret (curr c =? 0).

(** The loop makes at most one iteration for each byte of the buffer. *)
Fixpoint flush_loop (fuel : nat) : io unit :=
  match fuel with
  | O => stuck
  | S fuel => do b <- caml_flush_partial; if (b : bool) then ret tt else flush_loop fuel
  end.
Definition caml_flush : io unit := flush_loop (S (Z.to_nat IO_BUFFER_SIZE)).

Definition putch (ch : Z) : io unit :=
  do c <- get;
  (if IO_BUFFER_SIZE <=? curr c then caml_flush_partial;; ret tt else ret tt);;
  do c <- get;
  put (set_curr (curr c + 1) (set_buff (store_at (curr c) [byte ch] (buff c)) c)).

(** The channel is in binary mode. *)
Definition caml_putword (w : Z) : io unit :=
  putch (Z.shiftr w 24);; putch (Z.shiftr w 16);; putch (Z.shiftr w 8);; putch w.

Definition caml_putblock (p : list Z) : io Z :=
  do c <- get;
  let n := if INT_MAX <=? len p then INT_MAX else len p in
  let free := IO_BUFFER_SIZE - curr c in
  if n <? free then
    put (set_curr (curr c + n) (set_buff (store_at (curr c) (firstn (Z.to_nat n) p) (buff c)) c));;
    ret n
  else
    put (set_buff (store_at (curr c) (firstn (Z.to_nat free) p) (buff c)) c);;
    do c <- get;
    let towrite := IO_BUFFER_SIZE in
    do written <- do_write (fd c) (load_at 0 towrite (buff c));
    do c <- get;
    let c := if written <? towrite then set_buff (store_at 0 (load_at written (towrite - written) (buff c)) (buff c)) c else c in
    put (set_curr (IO_BUFFER_SIZE - written) (set_offset (offset c + written) c));;
    ret free.

(** A call that finds the buffer full writes no byte of [p] but makes room, so
    that two iterations for each byte are enough. *)
Fixpoint putblock_loop (fuel : nat) (p : list Z) : io unit :=
  match p with
  | [] => ret tt
  | _ :: _ =>
      match fuel with
      | O => stuck
      | S fuel => do written <- caml_putblock p; putblock_loop fuel (skipn (Z.to_nat written) p)
      end
  end.
Definition caml_really_putblock (p : list Z) : io unit := putblock_loop (2 * length p) p.

Definition caml_seek_out (dest : Z) : io unit :=
  caml_flush;;
  do c <- get;
  do r <- call (sys_lseek (fd c) dest SEEK_SET);
  match r with
  | inl p => if p =? dest then do c <- get; put (set_offset dest c) else raise Sys_error
  | inr _ => raise Sys_error
  end.
Definition caml_pos_out : io Z := do c <- get; ret (offset c + curr c).

(** ** Input *)

Fixpoint read_loop (fuel : nat) (fd n : Z) : io (list Z) :=
  match fuel with
  | O => stuck
  | S fuel =>
      do r <- call (sys_read fd n);
      match r with
      | inl bs => ret bs
      | inr EINTR => read_loop fuel fd n
      | inr e => caml_sys_io_error e
      end
  end.
Definition caml_do_read (fd n : Z) : io (list Z) := read_loop (S retries) fd n.

Definition caml_refill : io Z :=
  do c <- get;
  do bs <- caml_do_read (fd c) IO_BUFFER_SIZE;
  do c <- get;
  let c := set_buff (store_at 0 bs (buff c)) c in
  put c;;
  if len bs =? 0 then raise End_of_file
  else
    put (set_curr 1 (set_max (Some (len bs)) (set_offset (offset c + len bs) c)));;
    ret (nth 0 (buff c) 0).

Definition getch : io Z :=
  do c <- get;
  do m <- max_of c;
  if m <=? curr c then caml_refill
  else put (set_curr (curr c + 1) c);; ret (nth (Z.to_nat (curr c)) (buff c) 0).

Fixpoint getword_loop (n : nat) (res : Z) : io Z :=
  match n with
  | O => ret res
  | S n => do b <- getch; getword_loop n (wrap 32 (wrap 32 (Z.shiftl res 8) + b))
  end.
Definition caml_getword : io Z := getword_loop 4 0.

(** The bytes copied to [p]. *)
Definition caml_getblock (len_ : Z) : io (list Z) :=
  do c <- get;
  do m <- max_of c;
  let n := if INT_MAX <=? len_ then INT_MAX else len_ in
  let avail := m - curr c in
  if n <=? avail then put (set_curr (curr c + n) c);; ret (load_at (curr c) n (buff c))
  else if 0 <? avail then put (set_curr (curr c + avail) c);; ret (load_at (curr c) avail (buff c))
  else
    do bs <- caml_do_read (fd c) IO_BUFFER_SIZE;
    do c <- get;
    let nread := len bs in
    let n := if nread <? n then nread else n in
    let buff' := store_at 0 bs (buff c) in
    put (set_curr n (set_max (Some nread) (set_offset (offset c + nread) (set_buff buff' c))));;
    ret (load_at 0 n buff').

(** The bytes read and whether all were. *)
Fixpoint getblock_loop (fuel : nat) (n : Z) (acc : list Z) : io (list Z * bool) :=
  if n <=? 0 then ret (acc, n =? 0)
  else
    match fuel with
    | O => stuck
    | S fuel =>
        do bs <- caml_getblock n;
        if len bs =? 0 then ret (acc, n =? 0) else getblock_loop fuel (n - len bs) (acc ++ bs)
    end.
Definition caml_really_getblock (n : Z) : io (list Z * bool) := getblock_loop (Z.to_nat n) n [].

Definition caml_seek_in (dest : Z) : io unit :=
  do c <- get;
  do m <- max_of c;
  if (offset c - m <=? dest) && (dest <=? offset c) then put (set_curr (m - (offset c - dest)) c)
  else
    do r <- call (sys_lseek (fd c) dest SEEK_SET);
    match r with
    | inl p =>
        if p =? dest then do c <- get; put (set_offset dest (set_curr 0 (set_max (Some 0) c))) else raise Sys_error
    | inr _ => raise Sys_error
    end.
Definition caml_pos_in : io Z := do c <- get; do m <- max_of c; ret (offset c - (m - curr c)).

(** One turn of the loop of [caml_input_scan_line] examines the byte at [p]; the
    buffer bounds their number. *)
Definition newline : Z := 10.
Fixpoint scan_loop (fuel : nat) (p : Z) : io Z :=
  match fuel with
  | O => stuck
  | S fuel =>
      do c <- get;
      do m <- max_of c;
      let next p := (do c <- get;
                     if nth (Z.to_nat p) (buff c) 0 =? newline then ret (p + 1 - curr c) else scan_loop fuel (p + 1)) in
      if m <=? p then
        let n := curr c in
        let c := if 0 <? n then set_curr 0 (set_max (Some (m - n)) (set_buff (store_at 0 (load_at n (m - n) (buff c)) (buff c)) c)) else c in
        let p := if 0 <? n then p - n else p in
        let m := if 0 <? n then m - n else m in
        put c;;
        if IO_BUFFER_SIZE <=? m then ret (- (m - curr c))
        else
          do bs <- caml_do_read (fd c) (IO_BUFFER_SIZE - m);
          do c <- get;
          put (set_buff (store_at m bs (buff c)) c);;
          if len bs =? 0 then ret (- (m - curr c))
          else
            do c <- get;
            put (set_offset (offset c + len bs) (set_max (Some (m + len bs)) c));;
            next p
      else next p
  end.
Definition caml_input_scan_line : io Z :=
  do c <- get; scan_loop (S (Z.to_nat IO_BUFFER_SIZE)) (curr c).

(** ** OCaml entry points *)

Definition caml_ml_close_channel : io unit :=
  do c <- get;
  put (set_fd (-1) (set_curr IO_BUFFER_SIZE (set_max (Some IO_BUFFER_SIZE) c)));;
  if fd c =? -1 then ret tt
  else do r <- call (sys_close (fd c)); match r with inl _ => ret tt | inr _ => raise Sys_error end.

Definition caml_ml_flush_partial : io bool := do c <- get; if fd c =? -1 then ret true else caml_flush_partial.
Definition caml_ml_flush : io unit := do c <- get; if fd c =? -1 then ret tt else caml_flush.
Definition caml_ml_output_char (ch : Z) : io unit := putch ch.
Definition caml_ml_output_int (w : Z) : io unit := caml_putword (wrap 32 w).
Definition caml_ml_output_partial (buf : list Z) (start length_ : Z) : io Z :=
  caml_putblock (load_at start length_ buf).
Definition caml_ml_output (buf : list Z) (start length_ : Z) : io unit :=
  caml_really_putblock (load_at start length_ buf).
Definition caml_ml_pos_out {A : Arch} : io Z :=
  do pos <- caml_pos_out; if Max_long <? pos then raise Sys_error else ret pos.
Definition caml_ml_pos_in {A : Arch} : io Z :=
  do pos <- caml_pos_in; if Max_long <? pos then raise Sys_error else ret pos.
Definition caml_ml_channel_size {A : Arch} : io Z :=
  do size <- caml_channel_size; if Max_long <? size then raise Sys_error else ret size.
Definition caml_ml_input_char : io Z := getch.
(** The tagged integer. *)
Definition caml_ml_input_int {A : Arch} : io Z :=
  do i <- caml_getword; ret (Val_long (swrap 32 i)).
Definition caml_ml_input (length_ : Z) : io (list Z) := caml_getblock length_.
Definition caml_ml_input_scan_line : io Z := caml_input_scan_line.
End Io.
