(* ===== verification/IoOut.v ===== *)
(** IoOut: output channels implement a file written at a position, whatever the
    sizes of the writes the system accepts. *)
From Stdlib Require Import ZArith Lia Bool Ascii String List.
From S2P Require Import Prelude Mlvalues ExternOutput Io.
Import ListNotations.
Local Open Scope Z_scope.

(** ** Files *)

(** [bs] written in the file [f] at position [p]; a gap is filled with zeros, and
    writing nothing changes nothing. *)
Definition overlay (f : list Z) (p : Z) (bs : list Z) : list Z :=
  match bs with
  | [] => f
  | _ => firstn (Z.to_nat p) (f ++ repeat 0 (Z.to_nat p - length f)) ++ bs ++ skipn (Z.to_nat p + length bs) f
  end.

Lemma overlay_cons f p bs : bs <> [] ->
  overlay f p bs = firstn (Z.to_nat p) (f ++ repeat 0 (Z.to_nat p - length f)) ++ bs ++ skipn (Z.to_nat p + length bs) f.
Proof. now destruct bs. Qed.

Lemma overlay_app f p a b : 0 <= p -> overlay (overlay f p a) (p + len a) b = overlay f p (a ++ b).
Proof.
  intros Hp. destruct a as [|x a]; [unfold len; cbn [length app overlay]; now rewrite Z.add_0_r|].
  destruct b as [|y b]; [now rewrite app_nil_r|].
  set (A := x :: a). set (B := y :: b). rewrite !overlay_cons by easy. unfold len.
  replace (Z.to_nat (p + Z.of_nat (length A))) with (Z.to_nat p + length A)%nat by lia.
  set (h := firstn (Z.to_nat p) (f ++ repeat 0 (Z.to_nat p - length f))).
  assert (Lh : length h = Z.to_nat p) by (unfold h; rewrite length_firstn, length_app, repeat_length; lia).
  assert (L : (Z.to_nat p + length A <= length (h ++ A ++ skipn (Z.to_nat p + length A) f))%nat)
    by (rewrite !length_app; lia).
  replace (Z.to_nat p + length A - _)%nat with 0%nat by lia. cbn [repeat]. rewrite app_nil_r.
  rewrite !length_app, !app_assoc, firstn_app, skipn_app.
  rewrite (firstn_all2 (h ++ A)), (skipn_all2 (h ++ A)) by (rewrite length_app; lia). rewrite length_app, Lh.
  replace (Z.to_nat p + length A - (Z.to_nat p + length A))%nat with 0%nat by lia. rewrite firstn_O, app_nil_r.
  cbn [app]. rewrite skipn_skipn, <- !app_assoc. do 3 f_equal. f_equal. lia.
Qed.

(** ** What the runtime relies on

    [at_file fd f p s]: the descriptor [fd] is open on a regular file that
    contains [f], at position [p].  A write takes at least one byte, a read
    returns at least one byte unless the position is at the end, a call that
    fails changes neither the file nor the position, and a call is interrupted
    only [retries] times in a row. *)
Class SystemLaws (Sy : System) := {
  at_file : Z -> list Z -> Z -> sys -> Prop;
  patience : sys -> nat;
  patience_bound s : (patience s <= retries)%nat;
  write_law fd f p bs s : at_file fd f p s -> 0 <= p -> bs <> [] ->
    match sys_write fd bs s with
    | (inl k, s') => 0 < k <= len bs /\ at_file fd (overlay f p (firstn (Z.to_nat k) bs)) (p + k) s'
    | (inr e, s') => at_file fd f p s' /\ (e = EINTR -> (patience s' < patience s)%nat)
    end;
  read_law fd f p n s : at_file fd f p s -> 0 <= p -> 0 < n ->
    match sys_read fd n s with
    | (inl bs, s') => len bs <= n /\ bs = load_at p (len bs) f /\ (bs = [] -> len f <= p) /\ at_file fd f (p + len bs) s'
    | (inr e, s') => at_file fd f p s' /\ (e = EINTR -> (patience s' < patience s)%nat)
    end;
  seek_law fd f p d s : at_file fd f p s -> 0 <= d ->
    match sys_lseek fd d SEEK_SET s with
    | (inl r, s') => r = d /\ at_file fd f d s'
    | (inr _, s') => at_file fd f p s'
    end;
  closed_law bs n s : (exists s', sys_write (-1) bs s = (inr EBADF, s')) /\ (exists s', sys_read (-1) n s = (inr EBADF, s')) }.

(** ** Total correctness of monadic programs *)

Section Logic.
Context {Sy : System}.

(** From [st], [m] returns a result that satisfies [Q], or raises an exception
    that satisfies [E]; it is not stuck. *)
Definition post {T} (m : io T) (st : channel * sys) (Q : T -> channel * sys -> Prop) (E : exn -> channel * sys -> Prop) : Prop :=
  match m st with
  | (Ok x, st') => Q x st'
  | (Raise e, st') => E e st'
  | (Stuck, _) => False
  end.

Lemma post_bind {T U} (m : io T) (k : T -> io U) st Q E :
  post m st (fun x st' => post (k x) st' Q E) E -> post (bind m k) st Q E.
Proof. unfold post, bind. destruct (m st) as [[x|e|] st']; auto. Qed.

Lemma post_mono {T} (m : io T) st (Q Q' : T -> channel * sys -> Prop) (E E' : exn -> channel * sys -> Prop) :
  post m st Q E -> (forall x st', Q x st' -> Q' x st') -> (forall e st', E e st' -> E' e st') -> post m st Q' E'.
Proof. unfold post. destruct (m st) as [[x|e|] st']; auto. Qed.

Lemma post_ext {T} (m m' : io T) st Q E : m st = m' st -> post m' st Q E -> post m st Q E.
Proof. unfold post. now intros ->. Qed.

Lemma post_get {U} (k : channel -> io U) c s Q E : post (k c) (c, s) Q E -> post (bind get k) (c, s) Q E.
Proof. exact (fun H => H). Qed.

Lemma post_max {U} (k : Z -> io U) c m st Q E : max c = Some m -> post (k m) st Q E -> post (bind (max_of c) k) st Q E.
Proof. intros Em H. unfold max_of. rewrite Em. exact H. Qed.

Lemma post_put {U} (k : unit -> io U) c c' s Q E : post (k tt) (c', s) Q E -> post (bind (put c') k) (c, s) Q E.
Proof. exact (fun H => H). Qed.

Lemma post_call {T U} (f : sys -> (T + errno) * sys) (k : T + errno -> io U) c s r s' Q E :
  f s = (r, s') -> post (k r) (c, s') Q E -> post (bind (call f) k) (c, s) Q E.
Proof. intros Ef. unfold post, bind, call. now rewrite Ef. Qed.
End Logic.

(** Projections of updated channels. *)
Ltac chan_simpl := cbn [fst snd fd offset curr max buff set_fd set_offset set_curr set_max set_buff] in *.

(** ** Bytes of the buffer *)

Lemma store_at_length ofs d b : 0 <= ofs -> ofs + len d <= len b -> len (store_at ofs d b) = len b.
Proof. unfold len, store_at. intros H1 H2. rewrite !length_app, length_firstn, length_skipn. lia. Qed.

Lemma firstn_store n ofs d b : 0 <= n <= ofs -> ofs <= len b ->
  firstn (Z.to_nat n) (store_at ofs d b) = firstn (Z.to_nat n) b.
Proof.
  unfold len, store_at. intros H1 H2. rewrite firstn_app, firstn_firstn, length_firstn.
  replace (Z.to_nat n - _)%nat with 0%nat by lia. rewrite firstn_O, app_nil_r. f_equal. lia.
Qed.

Lemma firstn_store_end ofs d b : 0 <= ofs <= len b ->
  firstn (Z.to_nat (ofs + len d)) (store_at ofs d b) = firstn (Z.to_nat ofs) b ++ d.
Proof.
  unfold len, store_at. intros H. rewrite app_assoc, firstn_app.
  rewrite firstn_all2 by (rewrite length_app, length_firstn; lia).
  rewrite length_app, length_firstn. replace (_ - _)%nat with 0%nat by lia. now rewrite firstn_O, app_nil_r.
Qed.

Lemma load_at_0 n b : load_at 0 n b = firstn (Z.to_nat n) b.
Proof. reflexivity. Qed.

Lemma len_load ofs n b : 0 <= ofs -> 0 <= n -> ofs + n <= len b -> len (load_at ofs n b) = n.
Proof. unfold len, load_at. intros. rewrite length_firstn, length_skipn. lia. Qed.

Lemma len_firstn n (l : list Z) : 0 <= n <= len l -> len (firstn (Z.to_nat n) l) = n.
Proof. unfold len. intros. rewrite length_firstn. lia. Qed.

Lemma load_split k n b : 0 <= k <= n -> firstn (Z.to_nat n) b = firstn (Z.to_nat k) b ++ load_at k (n - k) b.
Proof.
  intros H. unfold load_at. rewrite <- (firstn_skipn (Z.to_nat k) (firstn (Z.to_nat n) b)), firstn_firstn.
  rewrite skipn_firstn_comm. f_equal; f_equal; lia.
Qed.

Lemma len_pos l : l <> [] -> 0 < len l.
Proof. destruct l; [easy|]. unfold len. cbn. lia. Qed.

(** ** Output channels *)

Section Output.
Context {Sy : System} {L : SystemLaws Sy}.

(** An error of the system. *)
Definition sys_exn (e : exn) : Prop := e = Sys_error \/ e = Sys_blocked_io.

(** The channel is on descriptor [d], open on a file; once the buffer is written
    the file will contain [f], and the next byte goes at position [p]. *)
Variable d : Z.
Definition out_file (f : list Z) (p : Z) (st : channel * sys) : Prop :=
  let c := fst st in
  fd c = d /\ len (buff c) = IO_BUFFER_SIZE /\ 0 <= curr c <= IO_BUFFER_SIZE /\ 0 <= offset c /\ p = offset c + curr c /\
  exists f0, at_file d f0 (offset c) (snd st) /\ f = overlay f0 (offset c) (firstn (Z.to_nat (curr c)) (buff c)).

(** A first try, then one with a single byte. *)
Definition tries (bs : list Z) : nat := if 1 <? len bs then S retries else O.

Lemma write_loop_spec fd f p c fuel : 0 <= p -> forall bs s, bs <> [] -> at_file fd f p s ->
  (patience s + tries bs < fuel)%nat ->
  post (write_loop fuel fd bs) (c, s)
    (fun k st => fst st = c /\ 0 < k <= len bs /\ at_file fd (overlay f p (firstn (Z.to_nat k) bs)) (p + k) (snd st))
    (fun e st => sys_exn e /\ fst st = c /\ at_file fd f p (snd st)).
Proof.
  intros Hp. induction fuel as [|fuel IH]; intros bs s Hb Hs Hf; [lia|]. cbn [write_loop].
  pose proof (write_law fd f p bs s Hs Hp Hb) as W. destruct (sys_write fd bs s) as [[k|e] s'] eqn:Ew.
  - eapply post_call; eauto. exact (conj eq_refl W).
  - destruct W as [Hs' He]. eapply post_call; eauto. destruct e.
    + specialize (He eq_refl). apply IH; auto; lia.
    + unfold tries in Hf. destruct (Z.ltb_spec 1 (len bs)) as [H1|H1]; [|split; [now right | now split]].
      assert (L1 : len (firstn 1 bs) = 1) by (apply (len_firstn 1 bs); lia).
      pose proof (patience_bound s'). eapply post_mono; [apply IH with (bs := firstn 1 bs)| |]; auto.
      * destruct bs; easy.
      * unfold tries. rewrite L1. cbn. lia.
      * intros k st (E & Hk & Ha). rewrite L1 in Hk. replace k with 1 in * by lia.
        change (Z.to_nat 1) with 1%nat in *. rewrite firstn_firstn in Ha. conj; auto; lia.
    + split; [now left | now split].
    + split; [now left | now split].
Qed.

Lemma do_write_spec fd f p bs c s : 0 <= p -> bs <> [] -> at_file fd f p s ->
  post (do_write fd bs) (c, s)
    (fun k st => fst st = c /\ 0 < k <= len bs /\ at_file fd (overlay f p (firstn (Z.to_nat k) bs)) (p + k) (snd st))
    (fun e st => sys_exn e /\ fst st = c /\ at_file fd f p (snd st)).
Proof.
  intros Hp Hb Hs. apply write_loop_spec; auto. pose proof (patience_bound s). unfold tries. destruct (_ <? _); lia.
Qed.

(** The bytes of the buffer that have been written leave it. *)
Lemma shift_out f0 o n k b : 0 <= o -> 0 < k <= n -> n <= len b ->
  overlay f0 o (firstn (Z.to_nat n) b) =
  overlay (overlay f0 o (firstn (Z.to_nat k) (load_at 0 n b))) (o + k)
    (firstn (Z.to_nat (n - k)) (if k <? n then store_at 0 (load_at k (n - k) b) b else b)).
Proof.
  intros Ho Hk Hn. rewrite load_at_0, firstn_firstn. replace (Nat.min _ _) with (Z.to_nat k) by lia.
  rewrite (load_split k n) by lia. rewrite <- overlay_app, len_firstn by lia.
  destruct (Z.ltb_spec k n).
  - f_equal. pose proof (firstn_store_end 0 (load_at k (n - k) b) b ltac:(pose proof (len_nonneg b); lia)) as E.
    rewrite len_load in E by lia. rewrite Z.add_0_l in E. rewrite E. reflexivity.
  - replace k with n by lia. rewrite Z.sub_diag. reflexivity.
Qed.

Lemma flush_partial_spec f p c s : out_file f p (c, s) ->
  post caml_flush_partial (c, s)
    (fun b st => out_file f p st /\ b = (curr (fst st) =? 0) /\
                 (curr (fst st) < curr c \/ (curr c = 0 /\ st = (c, s))))
    (fun e st => sys_exn e /\ out_file f p st).
Proof.
  intros (Hd & Hl & Hc & Ho & Hp & f0 & Hf & Ef). cbn [fst snd] in *. unfold caml_flush_partial. apply post_get. rewrite Hd.
  destruct (Z.ltb_spec 0 (curr c)) as [H1|H1].
  - apply post_bind, post_bind. eapply post_mono.
    + apply (do_write_spec d f0 (offset c) (load_at 0 (curr c) (buff c))); auto.
      intros E. assert (X : len (load_at 0 (curr c) (buff c)) = curr c) by (apply len_load; lia). rewrite E in X. unfold len in X. cbn in X. lia.
    + intros k [c' s'] (Ec & Hk & Ha). cbn [fst snd] in *. subst c'. rewrite len_load in Hk by lia. apply post_get.
      unfold post at 1. cbn [put]. cbn [fst snd]. apply post_get. unfold post. cbn [ret].
      set (b' := if k <? curr c then store_at 0 (load_at k (curr c - k) (buff c)) (buff c) else buff c).
      assert (Lb : len b' = IO_BUFFER_SIZE).
      { unfold b'. destruct (k <? curr c); auto. rewrite store_at_length; rewrite ?len_load; lia. }
      assert (Eb : forall x, (if k <? curr c then set_buff (store_at 0 (load_at k (curr c - k) (buff c)) (buff c)) (set_offset x c)
                   else set_offset x c) = Chan (fd c) x (curr c) (max c) b') by (intros x; unfold b'; destruct (k <? curr c); destruct c; reflexivity).
      cbn [set_offset buff] in *. rewrite Eb. cbn [set_curr fd offset curr max buff fst snd]. conj; auto; [|left; lia].
      unfold out_file. chan_simpl. conj; auto; try lia. eexists. split; [exact Ha|].
      rewrite Ef. unfold b'. rewrite (shift_out f0 (offset c) (curr c) k) by lia. reflexivity.
    + intros e [c' s'] (He & Ec & Ha). cbn [fst snd] in *. subst c'. split; auto. unfold out_file. cbn [fst snd] in *. conj; auto; try lia. eauto.
  - unfold post. cbn. conj; auto; [|right; split; [lia | reflexivity]]. unfold out_file. cbn [fst snd]. conj; auto; try lia. eauto.
Qed.

Lemma flush_loop_spec f p fuel : forall c s, out_file f p (c, s) -> curr c < Z.of_nat fuel ->
  post (flush_loop fuel) (c, s) (fun _ st => out_file f p st /\ curr (fst st) = 0) (fun e st => sys_exn e /\ out_file f p st).
Proof.
  induction fuel as [|fuel IH]; intros c s Ho Hf; [destruct Ho as (_ & _ & Hc & _); cbn in Hc; lia|]. cbn [flush_loop].
  apply post_bind. eapply post_mono; [apply (flush_partial_spec f p); exact Ho | |auto].
  intros b [c' s'] (Ho' & -> & Hc). cbn [fst] in *. destruct (Z.eqb_spec (curr c') 0) as [E|E]; [now split|].
  apply IH; auto. destruct Hc as [Hc|[Hc1 [= -> ->]]]; lia.
Qed.

Lemma flush_spec f p c s : out_file f p (c, s) ->
  post caml_flush (c, s) (fun _ st => out_file f p st /\ curr (fst st) = 0) (fun e st => sys_exn e /\ out_file f p st).
Proof.
  intros Ho. apply flush_loop_spec; auto. destruct Ho as (_ & _ & Hc & _). cbn [fst] in Hc. unfold IO_BUFFER_SIZE in *. lia.
Qed.

(** Bytes appended to the buffer. *)
Lemma append_bytes f0 o n b bs : 0 <= o -> 0 <= n <= len b ->
  overlay f0 o (firstn (Z.to_nat (n + len bs)) (store_at n bs b)) = overlay (overlay f0 o (firstn (Z.to_nat n) b)) (o + n) bs.
Proof. intros Ho Hn. rewrite firstn_store_end by lia. rewrite <- overlay_app, len_firstn by lia. reflexivity. Qed.

Lemma append_file f p c s bs : out_file f p (c, s) -> curr c + len bs <= IO_BUFFER_SIZE ->
  out_file (overlay f p bs) (p + len bs) (set_curr (curr c + len bs) (set_buff (store_at (curr c) bs (buff c)) c), s).
Proof.
  intros (Hd & Hl & Hc & Ho & Hp & f0 & Hf & Ef) Hb. pose proof (len_nonneg bs). unfold out_file. chan_simpl.
  conj; auto; try lia; [rewrite store_at_length; lia|]. exists f0. split; auto.
  rewrite append_bytes by lia. now rewrite Ef, Hp.
Qed.

Lemma putch_spec ch f p c s : out_file f p (c, s) ->
  post (putch ch) (c, s) (fun _ st => out_file (overlay f p [byte ch]) (p + 1) st) (fun e st => sys_exn e /\ out_file f p st).
Proof.
  intros Ho. unfold putch. apply post_get, post_bind.
  assert (K : forall c s, out_file f p (c, s) -> curr c < IO_BUFFER_SIZE ->
    post (bind get (fun c => put (set_curr (curr c + 1) (set_buff (store_at (curr c) [byte ch] (buff c)) c)))) (c, s)
      (fun _ st => out_file (overlay f p [byte ch]) (p + 1) st) (fun e st => sys_exn e /\ out_file f p st)).
  { intros c1 s1 H1 H2. apply (append_file f p c1 s1 [byte ch] H1). change (len [byte ch]) with 1. lia. }
  destruct (Z.leb_spec IO_BUFFER_SIZE (curr c)) as [Hc|Hc]; [|now apply K].
  apply post_bind. eapply post_mono; [apply (flush_partial_spec f p); exact Ho | |auto].
  intros b [c' s'] (Ho' & _ & H'). apply K; auto. cbn [fst] in *.
  destruct Ho as (_ & _ & Hc' & _). cbn [fst] in Hc'. unfold IO_BUFFER_SIZE in *. destruct H' as [H'|[H' _]]; lia.
Qed.

Lemma putblock_spec bs f p c s : out_file f p (c, s) -> bs <> [] ->
  post (caml_putblock bs) (c, s)
    (fun n st => 0 <= n <= len bs /\ out_file (overlay f p (firstn (Z.to_nat n) bs)) (p + n) st /\
       (if curr c <? IO_BUFFER_SIZE then 0 < n else curr (fst st) < IO_BUFFER_SIZE))
    (fun e st => sys_exn e /\ out_file f p st).
Proof.
  intros Ho Hb. pose proof Ho as (Hd & Hl & Hc & Hof & Hp & f0 & Hf & Ef). cbn [fst snd] in *.
  pose proof (len_pos bs Hb) as Hlen. unfold caml_putblock. apply post_get.
  set (n := if INT_MAX <=? len bs then INT_MAX else len bs).
  assert (Hn : 0 < n <= len bs /\ (n < len bs -> INT_MAX <= n)) by (unfold n; destruct (Z.leb_spec INT_MAX (len bs)); unfold INT_MAX in *; lia).
  destruct (Z.ltb_spec n (IO_BUFFER_SIZE - curr c)) as [Hs|Hs].
  - assert (En : n = len bs) by (unfold INT_MAX, IO_BUFFER_SIZE in *; lia). apply post_put. unfold post. cbn [ret].
    rewrite En, firstn_all2 by (unfold len; lia). conj; try lia; [now apply append_file; [|lia]|].
    rewrite (proj2 (Z.ltb_lt _ _)) by lia. lia.
  - set (free := IO_BUFFER_SIZE - curr c) in *. set (d1 := firstn (Z.to_nat free) bs).
    assert (L1 : len d1 = free) by (apply len_firstn; lia).
    apply post_put, post_get, post_bind. chan_simpl. set (b1 := store_at (curr c) d1 (buff c)). rewrite Hd.
    assert (Hl1 : len b1 = IO_BUFFER_SIZE) by (unfold b1; rewrite store_at_length; lia).
    assert (Ef1 : overlay f p d1 = overlay f0 (offset c) (firstn (Z.to_nat IO_BUFFER_SIZE) b1)).
    { pose proof (append_bytes f0 (offset c) (curr c) (buff c) d1 ltac:(lia) ltac:(lia)) as E.
      replace (curr c + len d1) with IO_BUFFER_SIZE in E by lia. fold b1 in E. now rewrite E, <- Ef, Hp. }
    eapply post_mono.
    + apply (do_write_spec d f0 (offset c) (load_at 0 IO_BUFFER_SIZE b1)); auto.
      intros E. assert (X : len (load_at 0 IO_BUFFER_SIZE b1) = IO_BUFFER_SIZE) by (apply len_load; unfold IO_BUFFER_SIZE in *; lia).
      rewrite E in X. discriminate.
    + intros k [c' s'] (Ec & Hk & Ha). chan_simpl. subst c'. rewrite len_load in Hk by (unfold IO_BUFFER_SIZE in *; lia).
      apply post_get, post_put. unfold post. cbn [ret].
      set (b2 := if k <? IO_BUFFER_SIZE then store_at 0 (load_at k (IO_BUFFER_SIZE - k) b1) b1 else b1).
      assert (Eb : (if k <? IO_BUFFER_SIZE then set_buff (store_at 0 (load_at k (IO_BUFFER_SIZE - k) b1) b1) (set_buff b1 c)
                    else set_buff b1 c) = Chan (fd c) (offset c) (curr c) (max c) b2) by (unfold b2; destruct (k <? _); destruct c; reflexivity).
      chan_simpl. rewrite Eb. chan_simpl. conj; try lia.
      * unfold out_file. chan_simpl. conj; auto; try lia.
        -- unfold b2. destruct (k <? _); auto. rewrite store_at_length; rewrite ?len_load; lia.
        -- eexists. split; [exact Ha|]. fold d1. rewrite Ef1. unfold b2. apply shift_out; lia.
      * destruct (Z.ltb_spec (curr c) IO_BUFFER_SIZE); lia.
    + intros e [c' s'] (He & Ec & Ha). chan_simpl. subst c'. split; auto. unfold out_file. chan_simpl. conj; auto; try lia.
      exists f0. split; auto. unfold b1. now rewrite firstn_store by lia.
Qed.

(** ** The abstract machine: a file and a position *)

Inductive micro := MByte (b : Z) | MSeek (dest : Z).
Definition astep (st : list Z * Z) (m : micro) : list Z * Z :=
  let '(f, p) := st in
  match m with MByte b => (overlay f p [b], p + 1) | MSeek dest => (f, dest) end.
Definition aruns (l : list micro) (st : list Z * Z) : list Z * Z := fold_left astep l st.
Definition at_state (fp : list Z * Z) (st : channel * sys) : Prop := out_file (fst fp) (snd fp) st.

Lemma aruns_bytes bs : forall f p, 0 <= p -> aruns (map MByte bs) (f, p) = (overlay f p bs, p + len bs).
Proof.
  induction bs as [|b bs IH]; intros f p Hp; cbn [map aruns fold_left].
  - unfold len. cbn. f_equal. lia.
  - change (fold_left astep (map MByte bs) (astep (f, p) (MByte b))) with (aruns (map MByte bs) (overlay f p [b], p + 1)).
    rewrite IH by lia. f_equal; [|unfold len; cbn [length]; lia].
    change (p + 1) with (p + len [b]). now rewrite overlay_app.
Qed.

(** [m] does the steps [l]; when it raises an exception it has done the first of
    them. *)
Definition does (m : io unit) (l : list micro) : Prop := forall fp st, at_state fp st -> 
  post m st (fun _ st' => at_state (aruns l fp) st')
    (fun e st' => sys_exn e /\ exists l1 l2, l = l1 ++ l2 /\ at_state (aruns l1 fp) st').

Lemma does_ret : does (ret tt) [].
Proof. intros fp st H. exact H. Qed.

Lemma does_seq m1 m2 l1 l2 : does m1 l1 -> does m2 l2 -> does (bind m1 (fun _ => m2)) (l1 ++ l2).
Proof.
  intros H1 H2 fp st H. apply post_bind. eapply post_mono; [apply (H1 fp); exact H | |].
  - intros ? st' H'. eapply post_mono; [apply (H2 _ _ H') | |].
    + intros ? st2 K. unfold aruns in *. now rewrite fold_left_app.
    + intros e st2 (He & a & b & -> & K). split; auto. exists (l1 ++ a), b. rewrite app_assoc. split; auto.
      unfold aruns in *. now rewrite fold_left_app.
  - intros e st' (He & a & b & -> & K). split; auto. exists a, (b ++ l2). now rewrite app_assoc.
Qed.

Lemma out_file_pos f p st : out_file f p st -> 0 <= p.
Proof. intros (_ & _ & Hc & Ho & -> & _). lia. Qed.

(** A program that does nothing visible. *)
Lemma does_none (m : io unit) :
  (forall f p st, out_file f p st ->
     post m st (fun _ st' => out_file f p st') (fun e st' => sys_exn e /\ out_file f p st')) -> does m [].
Proof.
  intros H [f p] st Hs. eapply post_mono; [apply (H f p st Hs) | auto |].
  intros e st' [He K]. split; auto. exists [], []. auto.
Qed.

Lemma does_putch ch : does (putch ch) [MByte (byte ch)].
Proof.
  intros [f p] [c s] H. eapply post_mono; [apply (putch_spec ch f p c s H) | auto |].
  intros e st' [He K]. split; auto. exists [], [MByte (byte ch)]. auto.
Qed.

Lemma does_putword w : does (caml_putword w) (map MByte (be_bytes 4 w)).
Proof. rewrite be4. unfold caml_putword. cbn [map]. apply (does_seq _ _ [_]), (does_seq _ _ [_]), (does_seq _ _ [_]); apply does_putch. Qed.

Lemma putblock_loop_spec fuel : forall bs f p c s, out_file f p (c, s) ->
  2 * len bs <= Z.of_nat fuel + (if curr c <? IO_BUFFER_SIZE then 1 else 0) ->
  post (putblock_loop fuel bs) (c, s) (fun _ st => out_file (overlay f p bs) (p + len bs) st)
    (fun e st => sys_exn e /\ exists b1 b2, bs = b1 ++ b2 /\ out_file (overlay f p b1) (p + len b1) st).
Proof.
  induction fuel as [|fuel IH]; intros bs f p c s Ho Hf.
  - destruct bs as [|b bs]; [cbn; unfold post; cbn; now rewrite Z.add_0_r|].
    unfold len in Hf. cbn [length] in Hf. destruct (_ <? _); lia.
  - destruct bs as [|b bs]; [cbn; unfold post; cbn; now rewrite Z.add_0_r|]. set (B := b :: bs) in *. cbn [putblock_loop].
    change (match B with [] => ret tt | _ :: _ => bind (caml_putblock B) (fun written => putblock_loop fuel (skipn (Z.to_nat written) B)) end)
      with (bind (caml_putblock B) (fun written => putblock_loop fuel (skipn (Z.to_nat written) B))).
    pose proof (out_file_pos _ _ _ Ho) as Hp.
    apply post_bind. eapply post_mono; [apply (putblock_spec B f p c s Ho); easy | |].
    + intros n [c' s'] (Hn & Ho' & Hc'). cbn [fst] in Hc'.
      assert (Ls : len (skipn (Z.to_nat n) B) = len B - n) by (unfold len in *; rewrite length_skipn; lia).
      assert (Ov : forall x, overlay (overlay f p (firstn (Z.to_nat n) B)) (p + n) x = overlay f p (firstn (Z.to_nat n) B ++ x)).
      { intros x. rewrite <- overlay_app, len_firstn by lia. reflexivity. }
      eapply post_mono; [apply (IH _ _ _ _ _ Ho') | |].
      * rewrite Ls. destruct (curr c <? IO_BUFFER_SIZE); [destruct (curr c' <? IO_BUFFER_SIZE)|rewrite (proj2 (Z.ltb_lt _ _) Hc')]; lia.
      * intros ? st K. rewrite Ov, firstn_skipn, Ls in K. now replace (p + len B) with (p + n + (len B - n)) by lia.
      * intros e st (He & b1 & b2 & E & K). split; auto. exists (firstn (Z.to_nat n) B ++ b1), b2.
        rewrite <- app_assoc, <- E, firstn_skipn. split; auto. rewrite Ov in K. rewrite len_app, len_firstn by lia.
        now rewrite Z.add_assoc.
    + intros e st [He K]. split; auto. exists [], B. split; auto. cbn. now rewrite Z.add_0_r.
Qed.

Lemma does_putblock bs : does (caml_really_putblock bs) (map MByte bs).
Proof.
  intros [f p] [c s] Ho. pose proof (out_file_pos _ _ _ Ho) as Hp. cbn [snd] in Hp. unfold caml_really_putblock.
  eapply post_mono; [apply (putblock_loop_spec (2 * length bs) bs f p c s Ho); unfold len; destruct (_ <? _); lia | |].
  - intros ? st K. unfold at_state. rewrite aruns_bytes by auto. exact K.
  - intros e st (He & b1 & b2 & -> & K). split; auto. exists (map MByte b1), (map MByte b2). rewrite map_app. split; auto.
    unfold at_state. rewrite aruns_bytes by auto. exact K.
Qed.

(** When the buffer is empty the file is on disk. *)
Lemma flushed_file f p st : out_file f p st -> curr (fst st) = 0 -> at_file d f p (snd st).
Proof.
  intros (_ & _ & _ & _ & Hp & f0 & Hf & Ef) E0. rewrite E0 in *. cbn [Z.to_nat firstn overlay] in Ef.
  rewrite Ef, Hp. now replace (offset (fst st) + 0) with (offset (fst st)) by lia.
Qed.

Lemma does_flush : does caml_flush [].
Proof.
  apply does_none. intros f p [c s] Ho. eapply post_mono; [apply (flush_spec f p c s Ho) | | auto]. now intros ? st [K _].
Qed.

Lemma does_flush_partial : does (bind caml_flush_partial (fun _ => ret tt)) [].
Proof.
  apply does_none. intros f p [c s] Ho. apply post_bind.
  eapply post_mono; [apply (flush_partial_spec f p c s Ho) | | auto]. now intros b st (K & _).
Qed.

Lemma does_seek dest : 0 <= dest -> does (caml_seek_out dest) [MSeek dest].
Proof.
  intros Hd [f p] [c s] Ho. unfold caml_seek_out. apply post_bind.
  eapply post_mono; [apply (flush_spec f p c s Ho) | |].
  - intros ? [c1 s1] [(E1 & Hl & Hc & Hof & Hp & f0 & Hf & Ef) E0]. chan_simpl. apply post_get. rewrite E1.
    rewrite E0 in *. cbn [Z.to_nat firstn overlay] in Ef. subst f0.
    pose proof (seek_law d f (offset c1) dest s1 Hf Hd) as W. destruct (sys_lseek d dest SEEK_SET s1) as [[r|e] s2] eqn:Ew.
    + destruct W as [-> W]. eapply post_call; eauto. cbv beta iota. rewrite Z.eqb_refl. apply post_get. unfold post. cbn [put].
      unfold at_state, out_file. cbn [aruns fold_left astep]. chan_simpl. rewrite E0. conj; auto; try lia; try (unfold IO_BUFFER_SIZE; lia).
      exists f. auto.
    + eapply post_call; eauto. unfold post. cbn [raise]. split; [now left|]. exists [], [MSeek dest]. split; auto.
      unfold at_state, out_file. chan_simpl. rewrite E0. conj; auto; try lia; try (unfold IO_BUFFER_SIZE; lia). exists f. auto.
  - intros e st [He K]. split; auto. exists [], [MSeek dest]. auto.
Qed.
End Output.

(** ** Sequences of operations *)

Section Ops.
Context {Sy : System}.

Inductive oop :=
  | OChar (ch : Z) | OWord (w : Z) | OBlock (bs : list Z) | OFlushPartial | OFlush | OSeek (dest : Z).

Definition run_oop (o : oop) : io unit :=
  match o with
  | OChar ch => putch ch
  | OWord w => caml_putword w
  | OBlock bs => caml_really_putblock bs
  | OFlushPartial => bind caml_flush_partial (fun _ => ret tt)
  | OFlush => caml_flush
  | OSeek dest => caml_seek_out dest
  end.
Fixpoint run_oops (l : list oop) : io unit :=
  match l with [] => ret tt | o :: l => bind (run_oop o) (fun _ => run_oops l) end.

Definition oop_ok (o : oop) : Prop := match o with OSeek dest => 0 <= dest | _ => True end.

(** What the operation means for the file. *)
Definition micro_of (o : oop) : list micro :=
  match o with
  | OChar ch => [MByte (byte ch)]
  | OWord w => map MByte (be_bytes 4 w)
  | OBlock bs => map MByte bs
  | OFlushPartial | OFlush => []
  | OSeek dest => [MSeek dest]
  end.
Definition micros (l : list oop) : list micro := concat (map micro_of l).
End Ops.

Section Refinement.
Context {Sy : System} {L : SystemLaws Sy}.

Lemma does_oop d o : oop_ok o -> does d (run_oop o) (micro_of o).
Proof.
  intros Ho. destruct o; cbn [run_oop micro_of].
  - apply does_putch.
  - apply does_putword.
  - apply does_putblock.
  - apply does_flush_partial.
  - apply does_flush.
  - now apply does_seek.
Qed.

Lemma does_oops d l : Forall oop_ok l -> does d (run_oops l) (micros l).
Proof.
  induction 1 as [|o l Ho _ IH]; cbn [run_oops]; [apply does_ret|].
  unfold micros. cbn [map concat]. apply does_seq; auto. now apply does_oop.
Qed.
End Refinement.

(** C16. An output channel implements a file and a position.  Any sequence of
    characters, binary integers, blocks, partial and complete flushes and
    seeks, over any system that accepts writes of any non-zero size, interrupts
    calls and refuses to block, terminates; it either does exactly the writes
    at exactly the positions that were asked for, the bytes still in the buffer
    being counted as written, or raises a system error after having done the
    first of them and no other: no byte is lost, repeated or out of order.
    After a final flush the file itself holds the result. *)
Theorem output_channel_refines {Sy : System} {L : SystemLaws Sy} d f p ops c s :
  out_file d f p (c, s) -> Forall oop_ok ops ->
  post (run_oops ops) (c, s)
    (fun _ st => at_state d (aruns (micros ops) (f, p)) st)
    (fun e st => sys_exn e /\ exists l1 l2, micros ops = l1 ++ l2 /\ at_state d (aruns l1 (f, p)) st) /\
  post (run_oops (ops ++ [OFlush])) (c, s)
    (fun _ st => at_file d (fst (aruns (micros ops) (f, p))) (snd (aruns (micros ops) (f, p))) (snd st))
    (fun e st => sys_exn e).
Proof.
  intros Ho Hops. assert (R1 : post (run_oops ops) (c, s)
    (fun _ st => at_state d (aruns (micros ops) (f, p)) st)
    (fun e st => sys_exn e /\ exists l1 l2, micros ops = l1 ++ l2 /\ at_state d (aruns l1 (f, p)) st))
    by (apply (does_oops d ops Hops (f, p) (c, s)); exact Ho).
  split; auto.
  assert (E : forall l st, run_oops (l ++ [OFlush]) st = bind (run_oops l) (fun _ => bind caml_flush (fun _ => ret tt)) st).
  { induction l as [|o l IH]; intros st; [reflexivity|]. cbn [app run_oops]. unfold bind in *.
    destruct (run_oop o st) as [[x|e|] st']; auto. }
  apply (post_ext _ _ _ _ _ (E ops (c, s))).
  apply post_bind. eapply post_mono; [exact R1 | | now intros e st [He _]].
  intros ? [c1 s1] H1. apply post_bind. eapply post_mono; [apply (flush_spec d _ _ c1 s1 H1) | | now intros e st [He _]].
  intros ? st [K E0]. exact (flushed_file d _ _ st K E0).
Qed.

(** ** An example system

    One file on descriptor 1, and a list of answers that limits the size of the
    next calls, interrupts them or makes them fail. *)

Inductive answer := Upto (k : Z) | Err (e : errno).
Record esys := ESys { e_file : list Z; e_pos : Z; e_answers : list answer }.

Definition e_write (fd : Z) (bs : list Z) (s : esys) : (Z + errno) * esys :=
  if negb (fd =? 1) then (inr EBADF, s) else
  match e_answers s with
  | Err e :: l => (inr (match e with EINTR => EAGAIN | e => e end), ESys (e_file s) (e_pos s) l)
  | Upto k :: l =>
      let n := if (0 <? k) && (k <? len bs) then k else len bs in
      (inl n, ESys (overlay (e_file s) (e_pos s) (firstn (Z.to_nat n) bs)) (e_pos s + n) l)
  | [] => (inl (len bs), ESys (overlay (e_file s) (e_pos s) bs) (e_pos s + len bs) [])
  end.
Definition e_read (fd n : Z) (s : esys) : (list Z + errno) * esys :=
  if negb (fd =? 1) then (inr EBADF, s) else
  match e_answers s with
  | Err e :: l => (inr (match e with EINTR => EAGAIN | e => e end), ESys (e_file s) (e_pos s) l)
  | Upto k :: l =>
      let bs := load_at (e_pos s) (if (0 <? k) && (k <? n) then k else n) (e_file s) in
      (inl bs, ESys (e_file s) (e_pos s + len bs) l)
  | [] => let bs := load_at (e_pos s) n (e_file s) in (inl bs, ESys (e_file s) (e_pos s + len bs) [])
  end.
Definition e_lseek (fd ofs : Z) (w : whence) (s : esys) : (Z + errno) * esys :=
  let p := match w with SEEK_SET => ofs | SEEK_CUR => e_pos s + ofs | SEEK_END => len (e_file s) + ofs end in
  (inl p, ESys (e_file s) p (e_answers s)).

#[export] Instance example_system : System := {|
  sys := esys; sys_write := e_write; sys_read := e_read; sys_lseek := e_lseek;
  sys_close := fun _ s => (inl tt, s); retries := 0 |}.

Lemma load_exact p n f : 0 <= p -> 0 < n ->
  let bs := load_at p n f in len bs <= n /\ bs = load_at p (len bs) f /\ (bs = [] -> len f <= p).
Proof.
  intros Hp Hn. cbv zeta. unfold load_at, len. rewrite !length_firstn, length_skipn. split; [lia|]. split.
  - destruct (Nat.le_ge_cases (Z.to_nat n) (length f - Z.to_nat p)).
    + f_equal. lia.
    + transitivity (skipn (Z.to_nat p) f); [|symmetry]; apply firstn_all2; rewrite length_skipn; lia.
  - intros E. apply (f_equal (@length Z)) in E. rewrite length_firstn, length_skipn in E. cbn in E. lia.
Qed.

#[export] Instance example_laws : SystemLaws example_system.
Proof.
  apply (Build_SystemLaws example_system (fun fd f p s => fd = 1 /\ e_file s = f /\ e_pos s = p) (fun _ => 0%nat)).
  - auto.
  - intros fd f p bs [f0 p0 l] (-> & <- & <-) Hp Hb. cbn [e_file e_pos sys_write example_system] in *. unfold e_write. cbn [Z.eqb Pos.eqb negb e_answers e_file e_pos].
    pose proof (len_pos bs Hb). destruct l as [|[k|e] l]; cbn [e_file e_pos].
    + rewrite firstn_all2 by (unfold len; lia). split; [lia | auto].
    + destruct ((0 <? k) && (k <? len bs)) eqn:E; split; auto; lia.
    + split; auto. destruct e; discriminate.
  - intros fd f p n [f0 p0 l] (-> & <- & <-) Hp Hn. cbn [e_file e_pos sys_read example_system] in *. unfold e_read. cbn [Z.eqb Pos.eqb negb e_answers e_file e_pos].
    destruct l as [|[k|e] l]; cbn [e_file e_pos].
    + destruct (load_exact p0 n f0 Hp Hn) as (A & B & C). conj; auto.
    + set (m := if (0 <? k) && (k <? n) then k else n). assert (Hm : 0 < m <= n) by (unfold m; destruct ((0 <? k) && (k <? n)) eqn:E; lia).
      destruct (load_exact p0 m f0 Hp (proj1 Hm)) as (A & B & C). conj; auto. lia.
    + split; auto. destruct e; discriminate.
  - intros fd f p d [f0 p0 l] (-> & <- & <-) Hd. cbn. auto.
  - intros bs n s. split; exists s; reflexivity.
Defined.

Definition new_file_channel : channel := Chan 1 0 0 None (repeat 0 4096).

Lemma new_file_out answers : out_file 1 [] 0 (new_file_channel, ESys [] 0 answers).
Proof.
  unfold out_file, new_file_channel. chan_simpl. split; auto. split; [vm_compute; reflexivity|].
  split; [unfold IO_BUFFER_SIZE; lia|]. split; [lia|]. split; auto. exists []. cbn. auto.
Qed.

(** Five bytes, a flush, a seek back and one more byte, on a system that takes
    three bytes, then refuses a write, then takes one byte. *)
Definition example_ops : list oop := [OBlock [97; 98; 99; 100; 101]; OFlush; OSeek 2; OChar 65].

Lemma output_channel_witness :
  post (Sy := example_system) (run_oops (example_ops ++ [OFlush])) (new_file_channel, ESys [] 0 [Upto 3; Err EAGAIN; Upto 1])
    (fun _ st => at_file 1 (fst (aruns (micros example_ops) ([], 0))) (snd (aruns (micros example_ops) ([], 0))) (snd st))
    (fun e st => sys_exn e).
Proof.
  refine (proj2 (output_channel_refines (Sy := example_system) 1 [] 0 example_ops new_file_channel (ESys [] 0 [Upto 3; Err EAGAIN; Upto 1]) _ _)).
  - apply new_file_out.
  - repeat constructor. cbn. lia.
Defined.

Example output_channel_example :
  match run_oops (Sy := example_system) (example_ops ++ [OFlush]) (new_file_channel, ESys [] 0 [Upto 3; Err EAGAIN; Upto 1]) with
  | (Ok tt, (_, s)) => e_file s = [97; 98; 65; 100; 101]
  | _ => False
  end.
Proof. vm_compute. reflexivity. Qed.
