(* ===== verification/IoIn.v ===== *)
(** IoIn: input channels implement a file read from a position, whatever the
    sizes of the reads the system returns. *)
From Stdlib Require Import ZArith Lia Bool Ascii String List.
From S2P Require Import Prelude Mlvalues ExternOutput Io IoOut.
Import ListNotations.
Local Open Scope Z_scope.

(** ** Parts of a file *)

Lemma load_app a n m f : 0 <= a -> 0 <= n -> 0 <= m -> load_at a (n + m) f = load_at a n f ++ load_at (a + n) m f.
Proof.
  intros Ha Hn Hm. unfold load_at. rewrite <- (firstn_skipn (Z.to_nat n) (firstn (Z.to_nat (n + m)) _)), firstn_firstn, skipn_firstn_comm, skipn_skipn.
  f_equal; repeat f_equal; lia.
Qed.

Lemma load_nil a f : load_at a 0 f = [].
Proof. reflexivity. Qed.

Lemma load_le a n f : 0 <= a -> 0 <= n -> len (load_at a n f) = n -> 0 < n -> a + n <= len f.
Proof. unfold load_at, len. rewrite length_firstn, length_skipn. lia. Qed.

Lemma load_firstn a k n f : 0 <= k <= n -> load_at a k f = firstn (Z.to_nat k) (load_at a n f).
Proof. intros H. unfold load_at. rewrite firstn_firstn. f_equal. lia. Qed.

Lemma load_of_load a n k m f : 0 <= a -> 0 <= k -> 0 <= m -> k + m <= n ->
  load_at k m (load_at a n f) = load_at (a + k) m f.
Proof.
  intros Ha Hk Hm Hn. unfold load_at. rewrite skipn_firstn_comm, firstn_firstn, skipn_skipn. f_equal; [lia|]. f_equal. lia.
Qed.

Lemma load_buff k m n (b : list Z) : 0 <= k -> 0 <= m -> k + m <= n ->
  load_at k m b = load_at k m (firstn (Z.to_nat n) b).
Proof. intros Hk Hm Hn. unfold load_at. rewrite skipn_firstn_comm, firstn_firstn. f_equal. lia. Qed.

Lemma load_1 a f : 0 <= a < len f -> load_at a 1 f = [nth (Z.to_nat a) f 0].
Proof.
  unfold load_at, len. intros H. change (Z.to_nat 1) with 1%nat.
  rewrite <- (firstn_skipn (Z.to_nat a) f) at 2. rewrite app_nth2; rewrite length_firstn; [|lia].
  replace (Z.to_nat a - _)%nat with 0%nat by lia.
  destruct (skipn (Z.to_nat a) f) as [|x l] eqn:E; [|reflexivity].
  apply (f_equal (@length Z)) in E. rewrite length_skipn in E. cbn in E. lia.
Qed.

Lemma store_0 bs b : store_at 0 bs b = bs ++ skipn (length bs) b.
Proof. reflexivity. Qed.

(** ** Input channels *)

Section Input.
Context {Sy : System} {L : SystemLaws Sy}.
Variable d : Z.
Variable f : list Z.

(** The channel is on descriptor [d], open on the file [f]; the buffer holds the
    part of the file before [offset], and the next byte read is at position
    [p]. *)
Record in_file (p : Z) (st : channel * sys) : Prop := {
  in_fd : fd (fst st) = d;
  in_len : len (buff (fst st)) = IO_BUFFER_SIZE;
  in_pos : 0 <= p;
  in_at : at_file d f (offset (fst st)) (snd st);
  in_max : exists m, max (fst st) = Some m /\ 0 <= curr (fst st) <= m /\ m <= IO_BUFFER_SIZE /\ m <= offset (fst st) /\
    p = offset (fst st) - (m - curr (fst st)) /\
    firstn (Z.to_nat m) (buff (fst st)) = load_at (offset (fst st) - m) m f }.

Lemma read_loop_spec p c n fuel : 0 <= p -> 0 < n -> forall s, at_file d f p s -> (patience s < fuel)%nat ->
  post (read_loop fuel d n) (c, s)
    (fun bs st => fst st = c /\ len bs <= n /\ bs = load_at p (len bs) f /\ (bs = [] -> len f <= p) /\ at_file d f (p + len bs) (snd st))
    (fun e st => sys_exn e /\ fst st = c /\ at_file d f p (snd st)).
Proof.
  intros Hp Hn. induction fuel as [|fuel IH]; intros s Hs Hf; [lia|]. cbn [read_loop].
  pose proof (read_law d f p n s Hs Hp Hn) as W. destruct (sys_read d n s) as [[bs|e] s'] eqn:Er; (eapply post_call; [exact Er|]).
  - unfold post. cbn [ret]. tauto.
  - destruct W as [Hs' He]. destruct e; [apply IH; auto; specialize (He eq_refl); lia | ..];
      (split; [now (left + right) | now split]).
Qed.

Lemma do_read_spec p c n s : 0 <= p -> 0 < n -> at_file d f p s ->
  post (caml_do_read d n) (c, s)
    (fun bs st => fst st = c /\ len bs <= n /\ bs = load_at p (len bs) f /\ (bs = [] -> len f <= p) /\ at_file d f (p + len bs) (snd st))
    (fun e st => sys_exn e /\ fst st = c /\ at_file d f p (snd st)).
Proof. intros Hp Hn Hs. apply read_loop_spec; auto. pose proof (patience_bound s). lia. Qed.

(** Bytes of the buffer are bytes of the file. *)
Lemma buffer_load c m k n : firstn (Z.to_nat m) (buff c) = load_at (offset c - m) m f -> 0 <= k -> 0 <= n -> k + n <= m ->
  m <= offset c -> load_at k n (buff c) = load_at (offset c - m + k) n f.
Proof. intros E Hk Hn Hm Ho. rewrite (load_buff k n m) by lia. rewrite E. apply load_of_load; lia. Qed.

Lemma buffer_len c m : firstn (Z.to_nat m) (buff c) = load_at (offset c - m) m f -> 0 <= m <= len (buff c) ->
  m <= offset c -> 0 < m -> offset c <= len f.
Proof.
  intros E Hm Ho H0. apply (f_equal len) in E. rewrite len_firstn in E by lia. symmetry in E.
  apply load_le in E; lia.
Qed.

(** Moving [curr] inside the buffer. *)
Lemma move_curr p c s m x : in_file p (c, s) -> max c = Some m -> 0 <= x <= m ->
  in_file (p + (x - curr c)) (set_curr x c, s).
Proof.
  intros [F1 F2 F3 F4 (m' & Em & Hc & Hm & Ho & Hp & Eb)] Hx Hr. chan_simpl. rewrite Hx in Em. injection Em as <-.
  split; chan_simpl; auto; [lia|]. exists m. conj; auto; lia.
Qed.

(** The buffer filled with the next bytes of the file. *)
Lemma refilled p c s bs x : in_file p (c, s) -> max c = Some (curr c) ->
  len bs <= IO_BUFFER_SIZE -> bs = load_at (offset c) (len bs) f -> forall s', at_file d f (offset c + len bs) s' -> 0 <= x <= len bs ->
  in_file (p + x) (set_curr x (set_max (Some (len bs)) (set_offset (offset c + len bs) (set_buff (store_at 0 bs (buff c)) c))), s').
Proof.
  intros [F1 F2 F3 F4 (m' & Em & Hc & Hm & Ho & Hp & Eb)] Hx Hl Hb s' Hs Hr. chan_simpl. rewrite Hx in Em. injection Em as <-.
  pose proof (len_nonneg bs). split; chan_simpl; auto; try lia.
  - rewrite store_at_length; lia.
  - exists (len bs). conj; auto; try lia. replace (offset c + len bs - len bs) with (offset c) by lia.
    pose proof (firstn_store_end 0 bs (buff c) ltac:(lia)) as E. cbn [Z.add Z.to_nat firstn app] in E.
    change (0 + len bs) with (len bs) in E. congruence.
Qed.

(** End of file, or an error of the system. *)
Definition in_exn (p : Z) (e : exn) (st : channel * sys) : Prop :=
  in_file p st /\ (sys_exn e \/ (e = End_of_file /\ len f <= p)).

Lemma nth_load a n b k : 0 <= a -> 0 <= k < n -> load_at a n f = b -> a + n <= len f -> nth (Z.to_nat k) b 0 = nth (Z.to_nat (a + k)) f 0.
Proof.
  intros Ha Hk <- Hn. unfold load_at, len in *.
  rewrite nth_firstn, nth_skipn. rewrite (proj2 (Nat.ltb_lt _ _)) by lia. f_equal. lia.
Qed.

Lemma getch_spec p st : in_file p st ->
  post getch st (fun b st' => p < len f /\ b = nth (Z.to_nat p) f 0 /\ in_file (p + 1) st') (in_exn p).
Proof.
  destruct st as [c s]. intros I. pose proof I as [F1 F2 F3 F4 (m & Em & Hc & Hm & Ho & Hp & Eb)]. chan_simpl.
  unfold getch. apply post_get, (post_max _ _ m); auto. destruct (Z.leb_spec m (curr c)) as [Hle|Hlt].
  - assert (Ec : max c = Some (curr c)) by (rewrite Em; f_equal; lia).
    unfold caml_refill. apply post_get, post_bind. rewrite F1.
    eapply post_mono; [apply (do_read_spec (offset c) c IO_BUFFER_SIZE s); auto; unfold IO_BUFFER_SIZE in *; lia | |].
    + intros bs [c' s'] (E & Hl & Hb & Hn & Hs). chan_simpl. subst c'. apply post_get, post_put.
      destruct (Z.eqb_spec (len bs) 0) as [E0|E0].
      * assert (bs = []) as -> by (destruct bs; [auto|unfold len in E0; cbn in E0; lia]).
        unfold post. cbn [raise]. split; [|right; split; auto; specialize (Hn eq_refl); lia].
        change (store_at 0 [] (buff c)) with (buff c). replace (set_buff (buff c) c) with c by now destruct c.
        split; chan_simpl; auto; [now rewrite Z.add_0_r in Hs|]. exists m. conj; auto; lia.
      * apply post_put. unfold post. cbn [ret]. pose proof (len_nonneg bs).
        assert (Lf : offset c + len bs <= len f) by (apply load_le; [lia | lia | now rewrite <- Hb | lia]).
        conj; [lia | | apply (refilled p c s); auto; lia].
        chan_simpl. rewrite store_0, app_nth1 by (unfold len in *; lia).
        change 0%nat with (Z.to_nat 0). rewrite (nth_load (offset c) (len bs) bs 0) by (auto; lia). do 2 f_equal. lia.
    + intros e [c' s'] (He & E & Hs). chan_simpl. subst c'. split; [|now left]. split; chan_simpl; auto. exists m. conj; auto; lia.
  - apply post_put. unfold post. cbn [ret].
    assert (Lf : offset c <= len f) by (apply (buffer_len c m Eb); lia).
    conj; [lia | | replace (p + 1) with (p + (curr c + 1 - curr c)) by lia; apply (move_curr p c s m); auto; lia].
    pose proof (buffer_load c m (curr c) 1 Eb ltac:(lia) ltac:(lia) ltac:(lia) ltac:(lia)) as E1.
    rewrite (load_1 (curr c) (buff c)), load_1 in E1 by lia. injection E1 as ->. do 2 f_equal. lia.
Qed.

Lemma getblock_spec p n st : in_file p st -> 0 < n ->
  post (caml_getblock n) st
    (fun bs st' => len bs <= n /\ bs = load_at p (len bs) f /\ (bs = [] -> len f <= p) /\ in_file (p + len bs) st')
    (fun e st' => sys_exn e /\ in_file p st').
Proof.
  destruct st as [c s]. intros I Hn0. pose proof I as [F1 F2 F3 F4 (m & Em & Hc & Hm & Ho & Hp & Eb)]. chan_simpl.
  unfold caml_getblock. apply post_get, (post_max _ _ m); auto.
  set (k := if INT_MAX <=? n then INT_MAX else n).
  assert (Hk : 0 < k <= n) by (unfold k; destruct (Z.leb_spec INT_MAX n); unfold INT_MAX in *; lia).
  assert (K : forall x, 0 < x <= m - curr c -> x <= n ->
    post (bind (put (set_curr (curr c + x) c)) (fun _ => ret (load_at (curr c) x (buff c)))) (c, s)
      (fun bs st' => len bs <= n /\ bs = load_at p (len bs) f /\ (bs = [] -> len f <= p) /\ in_file (p + len bs) st')
      (fun e st' => sys_exn e /\ in_file p st')).
  { intros x Hx Hxn. apply post_put. unfold post. cbn [ret]. rewrite len_load by lia.
    conj; auto; [rewrite (buffer_load c m) by (auto; lia); f_equal; lia | |].
    - intros E. assert (X : len (load_at (curr c) x (buff c)) = x) by (apply len_load; lia). rewrite E in X. cbn in X. lia.
    - replace (p + x) with (p + (curr c + x - curr c)) by lia. apply (move_curr p c s m); auto. lia. }
  destruct (Z.leb_spec k (m - curr c)); [apply K; lia|]. destruct (Z.ltb_spec 0 (m - curr c)); [apply K; lia|].
  assert (Ec : max c = Some (curr c)) by (rewrite Em; f_equal; lia).
  apply post_bind. rewrite F1.
  eapply post_mono; [apply (do_read_spec (offset c) c IO_BUFFER_SIZE s); auto; unfold IO_BUFFER_SIZE in *; lia | |].
  - intros bs [c' s'] (E & Hl & Hb & Hn & Hs). chan_simpl. subst c'. apply post_get, post_put. unfold post. cbn [ret].
    pose proof (len_nonneg bs). set (x := if len bs <? k then len bs else k).
    assert (Hx : 0 <= x <= len bs /\ x <= n /\ (x = 0 -> len bs = 0)) by (unfold x; destruct (Z.ltb_spec (len bs) k); lia).
    assert (Lx : load_at 0 x (store_at 0 bs (buff c)) = load_at p x f).
    { rewrite load_at_0, store_0, firstn_app. replace (Z.to_nat x - length bs)%nat with 0%nat by (unfold len in *; lia).
      rewrite firstn_O, app_nil_r. rewrite Hb, <- load_firstn by lia. f_equal. lia. }
    rewrite Lx. assert (Ln : len (load_at p x f) = x).
    { rewrite (load_firstn p x (len bs)) by lia. replace p with (offset c) by lia. rewrite <- Hb. apply len_firstn. lia. }
    rewrite Ln. conj; auto; try lia; [|apply (refilled p c s); auto; lia].
    intros E. rewrite E in Ln. assert (len bs = 0) by (apply Hx; rewrite <- Ln; reflexivity).
    assert (bs = []) as Eb0 by (destruct bs; [auto|unfold len in *; cbn in *; lia]). specialize (Hn Eb0). lia.
  - intros e [c' s'] (He & E & Hs). chan_simpl. subst c'. split; auto. split; chan_simpl; auto. exists m. conj; auto; lia.
Qed.

(** ** Blocks and binary integers *)

Lemma load_len p n : 0 <= p -> 0 <= n -> len (load_at p n f) <= n /\ (len (load_at p n f) < n -> len f <= p + len (load_at p n f)).
Proof. intros Hp Hn. unfold load_at, len. rewrite length_firstn, length_skipn. lia. Qed.

Lemma load_past p n : 0 <= p -> len f <= p -> load_at p n f = [].
Proof. intros Hp H. unfold load_at. rewrite skipn_all2 by (unfold len in H; lia). apply firstn_nil. Qed.

Lemma getblock_loop_spec p fuel : forall n acc st, 0 <= n <= Z.of_nat fuel -> acc = load_at p (len acc) f -> 0 <= p ->
  in_file (p + len acc) st ->
  post (getblock_loop fuel n acc) st
    (fun '(bs, ok) st' => bs = load_at p (len acc + n) f /\ ok = (len bs =? len acc + n) /\ in_file (p + len bs) st')
    (fun e st' => sys_exn e /\ exists p', in_file p' st').
Proof.
  assert (D : forall n acc st, 0 <= n -> n <= 0 -> acc = load_at p (len acc) f -> in_file (p + len acc) st ->
    post (ret (acc, n =? 0)) st (fun '(bs, ok) st' => bs = load_at p (len acc + n) f /\ ok = (len bs =? len acc + n) /\ in_file (p + len bs) st')
      (fun e st' => sys_exn e /\ exists p', in_file p' st')).
  { intros n acc st H1 H2 Ha I. replace n with 0 by lia. unfold post. cbn [ret]. rewrite Z.add_0_r, <- Ha, !Z.eqb_refl. auto. }
  induction fuel as [|fuel IH]; intros n acc st Hn Ha Hp I; cbn [getblock_loop].
  - destruct (Z.leb_spec n 0); [now apply D|lia].
  - destruct (Z.leb_spec n 0); [now apply D|].
    pose proof (len_nonneg acc). apply post_bind. eapply post_mono; [apply (getblock_spec (p + len acc) n st I); lia | |].
    + intros bs st' (Hl & Hb & He & I'). pose proof (len_nonneg bs). destruct (Z.eqb_spec (len bs) 0) as [E0|E0].
      * assert (Eb : bs = []) by (destruct bs; [auto|unfold len in *; cbn in *; lia]). specialize (He Eb). unfold post. cbn [ret].
        assert (El : load_at p (len acc + n) f = acc) by (rewrite load_app by lia; rewrite (load_past (p + len acc)) by lia; now rewrite app_nil_r).
        rewrite El. conj; auto; [|now rewrite E0, Z.add_0_r in I'].
        destruct (Z.eqb_spec n 0), (Z.eqb_spec (len acc) (len acc + n)); auto; lia.
      * assert (Ea : acc ++ bs = load_at p (len (acc ++ bs)) f) by (rewrite len_app, load_app by lia; congruence).
        eapply post_mono; [apply (IH (n - len bs) (acc ++ bs) st'); auto; [lia | now rewrite len_app, Z.add_assoc] | | auto].
        intros [r ok] st2. rewrite len_app. now replace (len acc + len bs + (n - len bs)) with (len acc + n) by lia.
    + intros e st' [He I']. eauto.
Qed.

Lemma really_getblock_spec p n st : 0 <= n -> in_file p st ->
  post (caml_really_getblock n) st
    (fun '(bs, ok) st' => bs = load_at p n f /\ ok = (len bs =? n) /\ in_file (p + len bs) st')
    (fun e st' => sys_exn e /\ exists p', in_file p' st').
Proof.
  intros Hn I. apply (getblock_loop_spec p (Z.to_nat n) n [] st); [lia | reflexivity | apply (in_pos _ _ I) |].
  change (len []) with 0. now rewrite Z.add_0_r.
Qed.

Lemma getword_loop_spec n : forall p res st, in_file p st ->
  post (getword_loop n res) st
    (fun w st' => (n = O \/ p + Z.of_nat n <= len f) /\ in_file (p + Z.of_nat n) st' /\
       w = fold_left (fun a b => wrap 32 (wrap 32 (Z.shiftl a 8) + b)) (load_at p (Z.of_nat n) f) res)
    (fun e st' => exists p', p <= p' < p + Z.of_nat n /\ in_exn p' e st').
Proof.
  induction n as [|n IH]; intros p res st I; cbn [getword_loop].
  - unfold post. cbn [ret]. change (Z.of_nat 0) with 0. rewrite Z.add_0_r. auto.
  - apply post_bind. pose proof (in_pos _ _ I). eapply post_mono; [apply (getch_spec p st I) | | intros e st' He; exists p; split; [lia | auto]].
    intros b st1 (Hl & -> & I1). eapply post_mono; [apply (IH (p + 1) _ st1 I1) | | intros e st' (p' & Hp' & He); exists p'; split; [lia | auto]].
    intros w st2 (Hn & I2 & ->). rewrite Nat2Z.inj_succ. unfold Z.succ. replace (p + 1 + Z.of_nat n) with (p + (Z.of_nat n + 1)) in * by lia.
    conj; auto; [right; destruct Hn as [->|]; [cbn|]; lia|].
    rewrite (Z.add_comm (Z.of_nat n) 1), load_app, load_1 by lia. reflexivity.
Qed.

Lemma fold_word l : Forall (fun b => 0 <= b < 256) l -> forall res, 0 <= res < 2 ^ 32 ->
  fold_left (fun a b => wrap 32 (wrap 32 (Z.shiftl a 8) + b)) l res = wrap 32 (fold_left (fun a b => a * 256 + b) l res).
Proof.
  intros Hl. assert (K : forall l x, fold_left (fun a b => wrap 32 (wrap 32 (Z.shiftl a 8) + b)) l (wrap 32 x) =
    wrap 32 (fold_left (fun a b => a * 256 + b) l x)).
  { clear. induction l as [|b l IH]; intros x; [reflexivity|]. cbn [fold_left].
    assert (E : wrap 32 (wrap 32 (Z.shiftl (wrap 32 x) 8) + b) = wrap 32 (x * 256 + b)).
    { rewrite wrap_wrap_add_l, Z.shiftl_mul_pow2 by lia. change (2 ^ 8) with 256. unfold wrap.
      rewrite <- Z.add_mod_idemp_l, Z.mul_mod_idemp_l, Z.add_mod_idemp_l by lia. reflexivity. }
    rewrite E. apply IH. }
  intros res Hr. rewrite <- (wrap_small 32 res) at 1 by lia. apply K.
Qed.

Lemma getword_spec p st : in_file p st -> Forall (fun b => 0 <= b < 256) f ->
  post caml_getword st
    (fun w st' => p + 4 <= len f /\ w = wrap 32 (be_val (load_at p 4 f)) /\ in_file (p + 4) st')
    (fun e st' => exists p', p <= p' < p + 4 /\ in_exn p' e st').
Proof.
  intros I Hb. eapply post_mono; [apply (getword_loop_spec 4 p 0 st I) | | auto].
  intros w st' (Hn & I' & ->). change (Z.of_nat 4) with 4 in *. conj; auto; [lia|].
  apply fold_word; [|lia]. unfold load_at. clear -Hb. apply Forall_forall. rewrite Forall_forall in Hb.
  intros x Hx. apply Hb. rewrite <- (firstn_skipn (Z.to_nat p) f). apply in_or_app. right.
  rewrite <- (firstn_skipn (Z.to_nat 4) (skipn _ f)). apply in_or_app. now left.
Qed.

Lemma seek_in_spec p dest st : in_file p st -> 0 <= dest ->
  post (caml_seek_in dest) st (fun _ st' => in_file dest st') (fun e st' => sys_exn e /\ in_file p st').
Proof.
  destruct st as [c s]. intros I Hd. pose proof I as [F1 F2 F3 F4 (m & Em & Hc & Hm & Ho & Hp & Eb)]. chan_simpl.
  unfold caml_seek_in. apply post_get, (post_max _ _ m); auto.
  destruct ((offset c - m <=? dest) && (dest <=? offset c)) eqn:E.
  - unfold post. cbn [put snd]. replace dest with (p + (m - (offset c - dest) - curr c)) at 1 by lia.
    apply (move_curr p c s m); auto. lia.
  - rewrite F1. pose proof (seek_law d f (offset c) dest s F4 Hd) as W.
    destruct (sys_lseek d dest SEEK_SET s) as [[r|e] s2] eqn:Ew; (eapply post_call; [exact Ew|]).
    + destruct W as [-> W]. cbv beta iota. rewrite Z.eqb_refl. apply post_get. unfold post. cbn [put snd].
      split; chan_simpl; auto. exists 0. conj; auto; unfold IO_BUFFER_SIZE; lia.
    + unfold post. cbn [raise]. split; [now left|]. split; chan_simpl; auto. exists m. conj; auto; lia.
Qed.

(** ** Lines *)

(** The result of [caml_input_scan_line] at position [p]: the length of the line,
    newline included, or minus the number of bytes in the buffer when they hold
    no newline and the buffer is full or the file ends. *)
Definition line_at (p r : Z) : Prop :=
  (0 < r <= IO_BUFFER_SIZE /\ exists l, load_at p r f = l ++ [newline] /\ ~ In newline l /\ len l = r - 1) \/
  (r <= 0 /\ len (load_at p (- r) f) = - r /\ ~ In newline (load_at p (- r) f) /\ (- r = IO_BUFFER_SIZE \/ len f <= p - r)).

(** The unread bytes moved to the beginning of the buffer. *)
Definition shifted (m : Z) (c : channel) : channel :=
  if 0 <? curr c
  then set_curr 0 (set_max (Some (m - curr c)) (set_buff (store_at 0 (load_at (curr c) (m - curr c) (buff c)) (buff c)) c))
  else c.

Lemma shifted_file p c s m : in_file p (c, s) -> max c = Some m ->
  in_file p (shifted m c, s) /\ max (shifted m c) = Some (m - curr c) /\ curr (shifted m c) = 0 /\ fd (shifted m c) = d.
Proof.
  intros I Em. pose proof I as [F1 F2 F3 F4 (m' & Em' & Hc & Hm & Ho & Hp & Eb)]. chan_simpl. rewrite Em in Em'. injection Em' as <-.
  unfold shifted. destruct (Z.ltb_spec 0 (curr c)).
  - assert (Ll : len (load_at (curr c) (m - curr c) (buff c)) = m - curr c) by (apply len_load; lia).
    chan_simpl. conj; auto. split; chan_simpl; auto.
    + rewrite store_at_length; lia.
    + exists (m - curr c). conj; auto; try lia.
      pose proof (firstn_store_end 0 (load_at (curr c) (m - curr c) (buff c)) (buff c) ltac:(lia)) as E.
      rewrite Ll in E. cbn [Z.add Z.to_nat firstn app] in E. rewrite E.
      rewrite (buffer_load c m) by (auto; lia). f_equal. lia.
  - conj; auto; [rewrite Em; f_equal; lia | lia].
Qed.

(** More bytes of the file after the unread ones. *)
Lemma extended_file p c s m bs s' : in_file p (c, s) -> max c = Some m -> bs = load_at (offset c) (len bs) f ->
  m + len bs <= IO_BUFFER_SIZE -> at_file d f (offset c + len bs) s' ->
  in_file p (set_offset (offset c + len bs) (set_max (Some (m + len bs)) (set_buff (store_at m bs (buff c)) c)), s').
Proof.
  intros I Em Hb Hl Hs. pose proof I as [F1 F2 F3 F4 (m' & Em' & Hc & Hm & Ho & Hp & Eb)]. chan_simpl. rewrite Em in Em'. injection Em' as <-.
  pose proof (len_nonneg bs). split; chan_simpl; auto; [rewrite store_at_length; lia|].
  exists (m + len bs). conj; auto; try lia.
  rewrite firstn_store_end, Eb by lia. replace (offset c + len bs - (m + len bs)) with (offset c - m) by lia.
  rewrite load_app by lia. replace (offset c - m + m) with (offset c) by lia. congruence.
Qed.

Lemma scan_loop_spec p fuel : forall q c s m, in_file p (c, s) -> max c = Some m -> curr c <= q <= m ->
  ~ In newline (load_at p (q - curr c) f) -> IO_BUFFER_SIZE < q - curr c + Z.of_nat fuel ->
  post (scan_loop fuel q) (c, s) (fun r st => line_at p r /\ in_file p st) (fun e st => sys_exn e /\ in_file p st).
Proof.
  induction fuel as [|fuel IH]; intros q c s m I Em Hq Hnl Hf;
    pose proof I as [F1 F2 F3 F4 (m' & Em' & Hc & Hm & Ho & Hp & Eb)]; chan_simpl; rewrite Em in Em'; injection Em' as <-; [lia|].
  cbn [scan_loop]. apply post_get, (post_max _ _ m); auto.
  assert (Next : forall q c s m, in_file p (c, s) -> max c = Some m -> curr c <= q < m -> ~ In newline (load_at p (q - curr c) f) ->
    IO_BUFFER_SIZE < q - curr c + Z.of_nat (S fuel) ->
    post (bind get (fun c => if nth (Z.to_nat q) (buff c) 0 =? newline then ret (q + 1 - curr c) else scan_loop fuel (q + 1))) (c, s)
      (fun r st => line_at p r /\ in_file p st) (fun e st => sys_exn e /\ in_file p st)).
  { clear - IH. intros q c s m I Em Hq Hnl Hf. pose proof I as [F1 F2 F3 F4 (m' & Em' & Hc & Hm & Ho & Hp & Eb)]. chan_simpl.
    rewrite Em in Em'. injection Em' as <-. apply post_get.
    assert (Lf : offset c <= len f) by (apply (buffer_len c m Eb); lia).
    assert (E1 : [nth (Z.to_nat q) (buff c) 0] = load_at (p + (q - curr c)) 1 f).
    { rewrite <- load_1 by lia. rewrite (buffer_load c m q 1 Eb) by lia. f_equal. lia. }
    assert (E2 : load_at p (q + 1 - curr c) f = load_at p (q - curr c) f ++ [nth (Z.to_nat q) (buff c) 0]).
    { rewrite E1, <- load_app by lia. f_equal. lia. }
    destruct (Z.eqb_spec (nth (Z.to_nat q) (buff c) 0) newline) as [En|En].
    - unfold post. cbn [ret]. split; auto. left. split; [lia|]. exists (load_at p (q - curr c) f). rewrite E2, En. conj; auto.
      rewrite len_load; lia.
    - apply (IH (q + 1) c s m); auto; [lia | | lia]. rewrite E2. intros Hin. apply in_app_or in Hin as [Hin|[Hin|[]]]; auto. }
  destruct (Z.leb_spec m q) as [Hle|Hlt]; [|apply (Next q c s m); auto; lia].
  destruct (shifted_file p c s m I Em) as (I1 & Em1 & Ec1 & Ed1). fold (shifted m c).
  replace (if 0 <? curr c then q - curr c else q) with (m - curr c) by (destruct (Z.ltb_spec 0 (curr c)); lia).
  replace (if 0 <? curr c then m - curr c else m) with (m - curr c) by (destruct (Z.ltb_spec 0 (curr c)); lia).
  replace (q - curr c) with (m - curr c) in * by lia. set (m1 := m - curr c) in *. set (c1 := shifted m c) in *.
  pose proof I1 as [G1 G2 G3 G4 (m' & Em' & Hc1 & Hm1 & Ho1 & Hp1 & Eb1)]. chan_simpl. rewrite Em1 in Em'. injection Em' as <-.
  assert (Lm : len (load_at p m1 f) = m1).
  { replace p with (offset c1 - m1) by lia. rewrite <- Eb1. apply len_firstn. lia. }
  apply post_put. rewrite Ec1, Z.sub_0_r. destruct (Z.leb_spec IO_BUFFER_SIZE m1) as [Hfull|Hroom].
  { unfold post. cbn [ret]. split; auto. right. rewrite Z.opp_involutive. conj; auto; lia. }
  apply post_bind. rewrite Ed1.
  eapply post_mono; [apply (do_read_spec (offset c1) c1 (IO_BUFFER_SIZE - m1) s); auto; lia | |].
  - intros bs [c' s'] (E & Hl & Hb & He & Hs). chan_simpl. subst c'. apply post_get, post_put. pose proof (len_nonneg bs).
    pose proof (extended_file p c1 s m1 bs s' I1 Em1 Hb ltac:(lia) Hs) as I2.
    destruct (Z.eqb_spec (len bs) 0) as [E0|E0].
    + assert (Eb0 : bs = []) by (destruct bs; [auto|unfold len in *; cbn in *; lia]). specialize (He Eb0).
      unfold post. cbn [ret]. rewrite Ec1, Z.sub_0_r. split.
      * right. rewrite Z.opp_involutive. conj; auto; lia.
      * rewrite E0, !Z.add_0_r in I2. replace (set_buff (store_at m1 bs (buff c1)) c1) with
          (set_offset (offset c1) (set_max (Some m1) (set_buff (store_at m1 bs (buff c1)) c1))); auto.
        clear - Em1. destruct c1. cbn in *. now rewrite Em1.
    + apply post_get, post_put. chan_simpl.
      apply (Next m1 _ s' (m1 + len bs)); auto; chan_simpl; [lia | now rewrite Ec1, Z.sub_0_r | lia].
  - intros e [c' s'] (He & E & Hs). chan_simpl. subst c'. split; auto. split; chan_simpl; auto. exists m1. conj; auto; lia.
Qed.

Lemma scan_line_spec p st : in_file p st ->
  post caml_input_scan_line st (fun r st' => line_at p r /\ in_file p st') (fun e st' => sys_exn e /\ in_file p st').
Proof.
  destruct st as [c s]. intros I. pose proof I as [_ _ _ _ (m & Em & Hc & _)]. chan_simpl. apply post_get.
  apply (scan_loop_spec p _ (curr c) c s m); auto; [lia | rewrite Z.sub_diag; auto | lia].
Qed.
End Input.

(** ** Sequences of operations *)

Inductive iop := IChar | IWord | IBlock (n : Z) | IAll (n : Z) | ILine | ISeek (dest : Z) | IPos.
Inductive ival := VChar (b : Z) | VWord (w : Z) | VBlock (bs : list Z) | VAll (bs : list Z) (ok : bool) | VLine (r : Z) | VUnit | VPos (p : Z).

Section Ops.
Context {Sy : System}.
Definition run_iop (o : iop) : io ival :=
  match o with
  | IChar => bind getch (fun b => ret (VChar b))
  | IWord => bind caml_getword (fun w => ret (VWord w))
  | IBlock n => bind (caml_getblock n) (fun bs => ret (VBlock bs))
  | IAll n => bind (caml_really_getblock n) (fun '(bs, ok) => ret (VAll bs ok))
  | ILine => bind caml_input_scan_line (fun r => ret (VLine r))
  | ISeek dest => bind (caml_seek_in dest) (fun _ => ret VUnit)
  | IPos => bind caml_pos_in (fun p => ret (VPos p))
  end.
Fixpoint run_iops (l : list iop) : io (list ival) :=
  match l with
  | [] => ret []
  | o :: l => bind (run_iop o) (fun v => bind (run_iops l) (fun vs => ret (v :: vs)))
  end.
End Ops.

Definition iop_ok (o : iop) : Prop :=
  match o with IBlock n => 0 < n | IAll n => 0 <= n | ISeek dest => 0 <= dest | _ => True end.

(** [istep f o v p p']: on the file [f] at position [p], the operation [o] may
    return [v] and move to [p']. *)
Definition istep (f : list Z) (o : iop) (v : ival) (p p' : Z) : Prop :=
  match o, v with
  | IChar, VChar b => p < len f /\ b = nth (Z.to_nat p) f 0 /\ p' = p + 1
  | IWord, VWord w => p + 4 <= len f /\ w = wrap 32 (be_val (load_at p 4 f)) /\ p' = p + 4
  | IBlock n, VBlock bs => len bs <= n /\ bs = load_at p (len bs) f /\ (bs = [] -> len f <= p) /\ p' = p + len bs
  | IAll n, VAll bs ok => bs = load_at p n f /\ ok = (len bs =? n) /\ p' = p + len bs
  | ILine, VLine r => line_at f p r /\ p' = p
  | ISeek dest, VUnit => p' = dest
  | IPos, VPos x => x = p /\ p' = p
  | _, _ => False
  end.
Inductive isteps (f : list Z) : list iop -> list ival -> Z -> Z -> Prop :=
  | isteps_nil p : isteps f [] [] p p
  | isteps_cons o l v vs p p1 p2 : istep f o v p p1 -> isteps f l vs p1 p2 -> isteps f (o :: l) (v :: vs) p p2.

Section Refinement.
Context {Sy : System} {L : SystemLaws Sy}.
Variable d : Z.
Variable f : list Z.
Hypothesis f_bytes : Forall (fun b => 0 <= b < 256) f.

Definition in_failure (e : exn) (st : channel * sys) : Prop := exists p, in_exn d f p e st.

Lemma sys_failure p e st : sys_exn e /\ in_file d f p st -> in_failure e st.
Proof. intros [He I]. exists p. split; auto. Qed.

Lemma run_iop_spec o p st : iop_ok o -> in_file d f p st ->
  post (run_iop o) st (fun v st' => exists p', istep f o v p p' /\ in_file d f p' st') in_failure.
Proof.
  intros Ho I. destruct o; cbn [run_iop]; apply post_bind; cbn [iop_ok] in Ho.
  - eapply post_mono; [apply (getch_spec d f p st I) | |].
    + intros b st' (H1 & H2 & H3). exists (p + 1). cbn. auto.
    + intros e st' H. now exists p.
  - eapply post_mono; [apply (getword_spec d f p st I f_bytes) | | intros e st' (p' & _ & He); now exists p'].
    intros w st' (H1 & H2 & H3). exists (p + 4). cbn [istep]. auto.
  - eapply post_mono; [apply (getblock_spec d f p n st I Ho) | | apply sys_failure].
    intros bs st' (H1 & H2 & H3 & H4). exists (p + len bs). cbn [istep]. auto.
  - eapply post_mono; [apply (really_getblock_spec d f p n st Ho I) | |].
    + intros [bs ok] st' (H1 & H2 & H3). exists (p + len bs). cbn [istep]. auto.
    + intros e st' (He & p' & I'). now apply (sys_failure p').
  - eapply post_mono; [apply (scan_line_spec d f p st I) | | apply sys_failure].
    intros r st' (H1 & H2). exists p. cbn [istep]. auto.
  - eapply post_mono; [apply (seek_in_spec d f p dest st I Ho) | | apply sys_failure].
    intros ? st' H. exists dest. cbn [istep]. auto.
  - destruct st as [c s]. pose proof I as [_ _ _ _ (m & Em & _ & _ & _ & Hp & _)]. chan_simpl. unfold caml_pos_in.
    apply post_get, (post_max _ _ m); auto. unfold post. cbn [ret]. exists p. cbn [istep]. auto.
Qed.

Lemma run_iops_spec l : Forall iop_ok l -> forall p st, in_file d f p st ->
  post (run_iops l) st (fun vs st' => exists p', isteps f l vs p p' /\ in_file d f p' st') in_failure.
Proof.
  induction 1 as [|o l Ho _ IH]; intros p st I; cbn [run_iops].
  - exists p. split; auto. constructor.
  - apply post_bind. eapply post_mono; [apply (run_iop_spec o p st Ho I) | | auto].
    intros v st1 (p1 & S1 & I1). apply post_bind. eapply post_mono; [apply (IH p1 st1 I1) | | auto].
    intros vs st2 (p2 & S2 & I2). exists p2. split; auto. now apply isteps_cons with p1.
Qed.
End Refinement.

(** C17. An input channel implements a file read from a position.  Any sequence
    of reads of characters, binary integers, blocks (partial or complete),
    searches of the end of the line, seeks and position queries, over any
    system that returns reads of any non-zero size and interrupts calls,
    terminates; it returns what the file holds at the positions reached, with a
    complete block short only at the end of the file, a line search that finds
    the first newline or fails with the buffer full or at the end of the file
    and does not move the position; or it raises a system error, or
    [End_of_file] at the end of the file only, leaving the channel at a
    position of the file. *)
Theorem input_channel_refines {Sy : System} {L : SystemLaws Sy} d f p ops st :
  in_file d f p st -> Forall (fun b => 0 <= b < 256) f -> Forall iop_ok ops ->
  post (run_iops ops) st
    (fun vs st' => exists p', isteps f ops vs p p' /\ in_file d f p' st')
    (fun e st' => exists p', in_file d f p' st' /\ (sys_exn e \/ (e = End_of_file /\ len f <= p'))).
Proof. intros I Hf Ho. exact (run_iops_spec d f Hf ops Ho p st I). Qed.

(** ** Example *)

Definition example_text : list Z := bytes_of "first line" ++ [newline] ++ bytes_of "second".
Definition new_input_channel : channel := Chan 1 0 0 (Some 0) (repeat 0 4096).

Lemma new_input_file f answers : in_file (Sy := example_system) 1 f 0 (new_input_channel, ESys f 0 answers).
Proof.
  unfold new_input_channel. split; chan_simpl; [reflexivity | vm_compute; reflexivity | lia | cbn; auto |].
  exists 0. conj; auto; unfold IO_BUFFER_SIZE; lia.
Qed.

Definition example_iops : list iop := [IChar; IBlock 100; ISeek 0; ILine; ISeek 11; IAll 6; IPos].

Lemma input_channel_witness :
  post (Sy := example_system) (run_iops example_iops) (new_input_channel, ESys example_text 0 [Upto 4; Upto 3])
    (fun vs st' => exists p', isteps example_text example_iops vs 0 p' /\ in_file 1 example_text p' st')
    (fun e st' => exists p', in_file 1 example_text p' st' /\ (sys_exn e \/ (e = End_of_file /\ len example_text <= p'))).
Proof.
  apply (input_channel_refines (Sy := example_system) 1 example_text 0 example_iops).
  - apply new_input_file.
  - repeat constructor; vm_compute; discriminate.
  - repeat constructor; vm_compute; try reflexivity; discriminate.
Defined.

Example input_channel_example :
  fst (run_iops (Sy := example_system) example_iops (new_input_channel, ESys example_text 0 [Upto 4; Upto 3])) =
  Ok [VChar 102; VBlock (bytes_of "irs"); VUnit; VLine 11; VUnit; VAll (bytes_of "second") true; VPos 17].
Proof. vm_compute. reflexivity. Qed.
