(* ===== verification/IoClients.v ===== *)
(** IoClients: the primitives of the runtime that work on channels: marshalling
    (src/inline-more/byterun/extern.c, intern.c) and digests (md5.c), with the
    theorems that compose them with the guarantees of channels. *)
From Stdlib Require Import ZArith Lia Bool Ascii String List.
From S2P Require Import Prelude Mlvalues InterpState InterpCalls ExternOutput InternInput Custom MarshalHeap Extern Intern MarshalBytes MarshalTrail MarshalRestore MarshalDump MarshalDecode MarshalRead MarshalRefine MarshalIso MarshalRoundtrip Marshal Md5 Md5Proof Io IoOut IoIn.
Import ListNotations.
Local Open Scope Z_scope.

Local Notation "'do' p <- m ; k" := (bind m (fun p => k)) (at level 200, p pattern, m at level 100, k at level 200).
Local Notation "m ;; k" := (bind m (fun _ => k)) (at level 199, right associativity).

Section Clients.
Context {Sy : System} {A : Arch} {F : FloatArch}.

(** ** Marshalling *)

Fixpoint put_blocks (l : list (list Z)) : io unit :=
  match l with [] => ret tt | b :: l => caml_really_putblock b;; put_blocks l end.

(** The result is the heap.  Channels are in binary mode. *)
Definition caml_output_val (custom_at : Z -> option custom_operations) (code_size : Z) (checksum : list Z)
    (no_sharing closures : bool) (junk : list Z) (fuel : nat) (v : value) (h : sheap) : io sheap :=
  match extern_value custom_at code_size checksum no_sharing closures junk fuel v init_extern_output h with
  | EOk (_, o, h) => put_blocks (blocks o ++ [cur o]);; ret h
  | ERaise e _ => raise e
  | EStuck => stuck
  end.

Definition of_result {T} (r : res T) : io T :=
  match r with Ok x => ret x | Raise e => raise e | Stuck => stuck end.

Definition caml_input_val (custom_at : Z -> option custom_operations) (custom_ops_table checksum : list Z)
    (intern_color : Z) (garbage : Z -> value) (fuel : nat) : io int_state :=
  do magic <- caml_getword;
  if negb (magic =? Intext_magic_number) then raise (Failure "input_value: bad object")
  else
    do block_len <- caml_getword;
    do num_objects <- caml_getword;
    do size_32 <- caml_getword;
    do size_64 <- caml_getword;
    do (block, ok) <- caml_really_getblock block_len;
    if negb ok then raise (Failure "input_value: truncated object")
    else
      let whsize := if ARCH_SIXTYFOUR then size_64 else size_32 in
      of_result (intern_rec custom_at custom_ops_table checksum intern_color fuel Var
                   (intern_alloc garbage block whsize num_objects)).

(** ** Digests *)

Fixpoint md5_all (fuel : nat) (ctx : MD5Context) : io MD5Context :=
  match fuel with
  | O => stuck
  | S fuel =>
      do read <- caml_getblock 4096;
      if len read =? 0 then ret ctx else md5_all fuel (caml_MD5Update ctx read)
  end.
Fixpoint md5_some (fuel : nat) (toread : Z) (ctx : MD5Context) : io MD5Context :=
  if toread <=? 0 then ret ctx
  else
    match fuel with
    | O => stuck
    | S fuel =>
        do read <- caml_getblock (if 4096 <? toread then 4096 else toread);
        if len read =? 0 then raise End_of_file
        else md5_some fuel (toread - len read) (caml_MD5Update ctx read)
    end.
(** [fuel] bounds the number of reads. *)
Definition caml_md5_chan (fuel : nat) (junk : list Z) (toread : Z) : io (list Z) :=
  let ctx := caml_MD5Init junk in
  do ctx <- (if toread <? 0 then md5_all fuel ctx else md5_some fuel toread ctx);
  ret (fst (caml_MD5Final ctx)).
End Clients.

(** ** Reading what follows a position *)

Definition rest_at (f : list Z) (p : Z) (r : list Z) : Prop := 0 <= p <= len f /\ skipn (Z.to_nat p) f = r.

Lemma rest_load f p a r : rest_at f p (a ++ r) -> load_at p (len a) f = a /\ rest_at f (p + len a) r.
Proof.
  intros [Hp E]. pose proof (f_equal (@length Z) E) as El. rewrite length_skipn, length_app in El. unfold load_at, rest_at, len in *.
  rewrite E, Nat2Z.id. split; [rewrite firstn_app, Nat.sub_diag, firstn_O, app_nil_r; apply firstn_all2; lia|].
  split; [lia|]. replace (Z.to_nat (p + Z.of_nat (length a))) with (length a + Z.to_nat p)%nat by lia.
  rewrite <- skipn_skipn, E, skipn_app, skipn_all2, Nat.sub_diag by lia. reflexivity.
Qed.

Section Marshal.
Context {Sy : System} {L : SystemLaws Sy}.

Lemma does_put_blocks d l : does d (put_blocks l) (map MByte (concat l)).
Proof.
  induction l as [|b l IH]; cbn [put_blocks concat]; [apply does_ret|]. rewrite map_app. apply does_seq; auto. apply does_putblock.
Qed.

Section Reader.
Variable d : Z.
Variable f : list Z.
Hypothesis f_bytes : Forall (fun b => 0 <= b < 256) f.

Lemma getword_rest p x r st : in_file d f p st -> rest_at f p (be_bytes 4 x ++ r) ->
  post caml_getword st (fun w st' => w = wrap 32 x /\ in_file d f (p + 4) st' /\ rest_at f (p + 4) r) (fun e _ => sys_exn e).
Proof.
  intros I R. destruct (rest_load f p _ _ R) as [E R']. rewrite len_be4 in *.
  eapply post_mono; [apply (getword_spec d f p st I f_bytes) | |].
  - intros w st' (_ & -> & I'). rewrite E, be_val_be_bytes. change (8 * Z.of_nat 4) with 32. rewrite wrap_idemp by lia. auto.
  - intros e st' (p' & Hp' & _ & [He|[_ He]]); auto. destruct R' as [R' _]. lia.
Qed.

Lemma really_getblock_rest p bs r st : in_file d f p st -> rest_at f p (bs ++ r) ->
  post (caml_really_getblock (len bs)) st (fun '(bs', ok) st' => bs' = bs /\ ok = true /\ in_file d f (p + len bs) st' /\ rest_at f (p + len bs) r)
    (fun e _ => sys_exn e).
Proof.
  intros I R. destruct (rest_load f p _ _ R) as [E R'].
  eapply post_mono; [apply (really_getblock_spec d f p (len bs) st); auto; apply len_nonneg | | now intros e st' [He _]].
  intros [bs' ok] st' (-> & -> & I'). rewrite E in *. rewrite Z.eqb_refl. auto.
Qed.
End Reader.
End Marshal.

(** The next word of the file is read. *)
Ltac next_word Hb I R :=
  apply post_bind; eapply post_mono; [apply (getword_rest _ _ Hb _ _ _ _ I R) | | auto];
  clear I R; let st := fresh "st" in intros ? st (-> & I & R).

Section Messages.
Context {Sy : System} {L : SystemLaws Sy}.

Lemma output_val_file {A : Arch} {F : FloatArch} custom_at code_size checksum no_sharing closures junk fuel v H n o msg h d f p c s :
  extern_value custom_at code_size checksum no_sharing closures junk fuel v init_extern_output H = EOk (n, o, h) ->
  output o = msg -> out_file d f p (c, s) ->
  post (bind (caml_output_val custom_at code_size checksum no_sharing closures junk fuel v H) (fun h => bind caml_flush (fun _ => ret h))) (c, s)
    (fun h' st => h' = h /\ at_file d (overlay f p msg) (p + len msg) (snd st)) (fun e _ => sys_exn e).
Proof.
  intros E <- Ho. apply post_bind. unfold caml_output_val. rewrite E. set (l := blocks o ++ [cur o]).
  replace (output o) with (concat l) by (unfold l, output; rewrite concat_app; cbn [concat]; now rewrite app_nil_r).
  apply post_bind. eapply post_mono; [apply (does_put_blocks d l (f, p) (c, s) Ho) | | now intros e st [He _]].
  intros ? [c1 s1] H1. rewrite aruns_bytes in H1 by apply (out_file_pos d f p _ Ho). unfold post at 1. cbn [ret].
  apply post_bind. eapply post_mono; [apply (flush_spec d _ _ c1 s1 H1) | | now intros e st [He _]].
  intros ? st [K E0]. unfold post. cbn [ret]. split; auto. exact (flushed_file d _ _ st K E0).
Qed.

Lemma input_val_file {A : Arch} {F : FloatArch} custom_at custom_ops_table checksum intern_color garbage fuel n objs s32 s64 data next r d f p st :
  in_file d f p st -> Forall is_byte f -> rest_at f p (message n objs s32 s64 data ++ next) -> wrap 32 n = len data ->
  intern_rec custom_at custom_ops_table checksum intern_color fuel Var
    (intern_alloc garbage data (if ARCH_SIXTYFOUR then wrap 32 s64 else wrap 32 s32) (wrap 32 objs)) = Ok r ->
  post (caml_input_val custom_at custom_ops_table checksum intern_color garbage fuel) st
    (fun r' st2 => r' = r /\ in_file d f (p + len (message n objs s32 s64 data)) st2) (fun e _ => sys_exn e).
Proof.
  intros I Hb R En Er. unfold caml_input_val, message in *. rewrite <- !app_assoc in R.
  next_word Hb I R. change (negb (wrap 32 Intext_magic_number =? Intext_magic_number)) with false. cbv iota.
  do 4 next_word Hb I R.
  rewrite En. apply post_bind. eapply post_mono; [apply (really_getblock_rest d f _ data next _ I R) | | auto].
  intros [bs ok] st' (-> & -> & I1 & _). cbn [negb]. rewrite Er. unfold post. cbn [of_result ret]. split; auto.
  rewrite !len_app, !len_be4. now replace (p + (4 + _)) with (p + 4 + 4 + 4 + 4 + 4 + len data) by lia.
Qed.
End Messages.

(** C15. A value written on a channel and flushed is read back from a channel as
    an isomorphic graph.  Between any two machines and any two systems, with
    partial and interrupted reads and writes: the writer puts the message at
    its position in the file and leaves its heap unchanged, and the reader,
    positioned in any file where the message is, builds the copy and leaves
    the channel just after the message, so that values written one after the
    other are read one after the other.  Both terminate, and fail only by an
    error of the system.  As for strings, the graph has no abstract block, no custom
    block, no forwarding block that is not skipped and no chain of them, its integers and
    blocks fit the machine that reads, and infix pointers only go to machines of the
    same word size; the message is less than 4 Gb. *)
Theorem file_roundtrip {Sy1 : System} {L1 : SystemLaws Sy1} {Sy2 : System} {L2 : SystemLaws Sy2}
    {A1 : Arch} {F1 : FloatArch} {A2 : Arch} {F2 : FloatArch}
    custom_at1 custom_at2 custom_ops_table checksum intern_color code_size closures H D k v fuel junk garbage :
  @heap_wf A1 H -> ptr_ok H v -> length checksum = 16%nat -> length junk = 16%nat ->
  (forall w, exists x, garbage w = Imm x) ->
  (forall b, In b D -> block_ok (A1 := A1) (A2 := A2) code_size closures H D b) ->
  Z.of_nat (length D) < 2 ^ 32 -> exportable (A1 := A1) (A2 := A2) code_size closures H D k v ->
  (3 * length D + 3 <= fuel)%nat ->
  exists ts seen, @dump A1 code_size closures H fuel v [] = Some (ts, seen) /\
    (sum (tok_words 4) ts < 2 ^ 32 -> sum (tok_words 8) ts < 2 ^ 32 ->
     len (@message_of A1 F1 checksum ts) < 2 ^ 32 ->
     @Bsize_wsize A2 (sum (tok_words (@sizeof_value A2)) ts) + Page_size <= 2 ^ @WORD A2 ->
     let msg := @message_of A1 F1 checksum ts in
       (forall d f p c s, out_file (Sy := Sy1) d f p (c, s) ->
          post (bind (@caml_output_val Sy1 A1 F1 custom_at1 code_size checksum false closures junk fuel v H)
                     (fun h => bind caml_flush (fun _ => ret h))) (c, s)
            (fun h st => heap_eq h H /\ at_file d (overlay f p msg) (p + len msg) (snd st)) (fun e _ => sys_exn e)) /\
       (forall d f p next st, in_file (Sy := Sy2) d f p st -> Forall is_byte f -> rest_at f p (msg ++ next) ->
          post (@caml_input_val Sy2 A2 F2 custom_at2 custom_ops_table checksum intern_color garbage fuel) st
            (fun r st' => copied (A1 := A1) (F1 := F1) (A2 := A2) (F2 := F2) intern_color H v r /\ in_file d f (p + len msg) st')
            (fun e _ => sys_exn e))).
Proof.
  intros Hwf Hv Hck Hj Hg Hok Hc Hex Hf.
  destruct (writes_message (F1 := F1) custom_at1 checksum code_size closures H D k v fuel junk Hwf Hv Hj Hok Hc Hex Hf)
    as (ts & seen & Ed & Hfit & L0 & W).
  exists ts, seen. split; auto. intros L4 L8 Lm Lp. destruct (W L4 L8 Lm) as (o & h & Hh & Eo & Ew).
  split.
  - intros d f p c s Ho. eapply post_mono; [apply (output_val_file _ _ _ _ _ _ _ _ _ _ _ _ _ d f p c s Ew Eo Ho) | | auto].
    intros h' st [-> K]. exact (conj Hh K).
  - intros d f p next st I Hb R.
    destruct (input_data (F1 := F1) (F2 := F2) custom_at2 custom_ops_table checksum intern_color code_size closures
      garbage Hg Hck H Hwf fuel v Hv ts seen Ed Hfit Lp []) as (r & Er & _ & _ & Hcp). rewrite app_nil_r in Er.
    destruct (sizes_wrap (A2 := A2) checksum Hck ts Hfit L0 L4 L8) as [E1 E2]. rewrite <- E1, <- E2 in Er.
    unfold message_of in *. set (data := encs checksum ts) in *.
    assert (En : wrap 32 (len data) = len data).
    { apply wrap_small. split; [apply len_nonneg|]. unfold message in Lm. rewrite !len_app, !len_be4 in Lm. lia. }
    eapply post_mono; [exact (input_val_file _ _ _ _ _ _ _ _ _ _ _ next r d f p st I Hb R En Er) | | auto].
    intros r' st' [-> K]. exact (conj Hcp K).
Qed.

Definition cyclic_pair : sheap := heap_of [SBlock (@Make_header arch32 2 0 Caml_white) [Ptr 0 0; Imm 85]].

Lemma file_roundtrip_witness :
  exists msg,
    post (Sy := example_system)
      (bind (@caml_output_val example_system arch32 little_floats no_custom 100 (repeat 7 16) false false (repeat 0 16) 12 (Ptr 0 0) cyclic_pair)
            (fun h => bind caml_flush (fun _ => ret h)))
      (new_file_channel, ESys [] 0 [Upto 3; Err EAGAIN; Upto 1])
      (fun h st => heap_eq h cyclic_pair /\ at_file 1 (overlay [] 0 msg) (0 + len msg) (snd st)) (fun e _ => sys_exn e) /\
    post (Sy := example_system)
      (@caml_input_val example_system arch64 big_floats no_custom [] (repeat 7 16) Caml_white (fun _ => Imm 0) 12)
      (new_input_channel, ESys (msg ++ [4; 5]) 0 [Upto 4; Upto 3])
      (fun r st' => copied (A1 := arch32) (F1 := little_floats) (A2 := arch64) (F2 := big_floats) Caml_white cyclic_pair (Ptr 0 0) r /\
                    in_file 1 (msg ++ [4; 5]) (0 + len msg) st') (fun e _ => sys_exn e).
Proof.
  assert (HE : forall b hd ws, 0 <= b -> cyclic_pair b = Some (SBlock hd ws) ->
    b = 0 /\ hd = @Make_header arch32 2 0 Caml_white /\ ws = [Ptr 0 0; Imm 85]).
  { intros b hd ws Hb E. unfold cyclic_pair, heap_of, nthZ in E. destruct (b <? 0); [discriminate|].
    destruct (Z.to_nat b) as [|n] eqn:Eb; [|destruct n; discriminate]. injection E as <- <-. split; [lia | auto]. }
  destruct (file_roundtrip (Sy1 := example_system) (Sy2 := example_system) (A1 := arch32) (F1 := little_floats) (A2 := arch64) (F2 := big_floats)
    no_custom no_custom [] (repeat 7 16) Caml_white 100 false cyclic_pair [0] 1 (Ptr 0 0) 12
    (repeat 0 16) (fun _ => Imm 0)) as (ts & seen & Ed & R).
  - split; intros b hd ws Hb E; destruct (HE b hd ws Hb E) as (-> & -> & ->).
    + split; [split; [vm_compute; discriminate | reflexivity]|]. conj; try reflexivity; vm_compute; discriminate.
    + intros _. repeat constructor. vm_compute. discriminate.
  - left. vm_compute. split; [reflexivity | discriminate].
  - reflexivity.
  - reflexivity.
  - eauto.
  - intros b [<-|[]]. split; [lia|]. eexists _, _. split; [reflexivity|]. split; [vm_compute; discriminate|]. split; [reflexivity|].
    vm_compute. conj; try discriminate. constructor; [exists 1%nat; apply ex_block; now left|].
    constructor; [|constructor]. exists 1%nat. apply ex_int; [reflexivity | |]; vm_compute; split; discriminate.
  - reflexivity.
  - apply ex_block. now left.
  - cbn. lia.
  - vm_compute in Ed. injection Ed as <- <-.
    destruct (R eq_refl eq_refl eq_refl ltac:(vm_compute; discriminate)) as [R1 R2].
    eexists. split; [apply R1, new_file_out|]. apply (R2 1 _ 0 [4; 5]).
    + apply new_input_file.
    + repeat constructor; vm_compute; discriminate.
    + split; [vm_compute; split; discriminate | reflexivity].
Defined.

(** ** Digests of channels *)

Section Digest.
Context {Sy : System} {L : SystemLaws Sy} {A : Arch}.
Variable d : Z.
Variable f : list Z.
Hypothesis f_bytes : Forall is_byte f.

Lemma load_bytes_ok p n : Forall is_byte (load_at p n f).
Proof. now apply Forall_firstn, Forall_skipn. Qed.

Lemma rest_split p bs : 0 <= p -> bs = load_at p (len bs) f -> skipn (Z.to_nat p) f = bs ++ skipn (Z.to_nat (p + len bs)) f.
Proof.
  intros Hp Hb. pose proof (len_nonneg bs). rewrite Z2Nat.inj_add, Nat.add_comm, <- skipn_skipn by lia. rewrite Hb at 1.
  unfold load_at. symmetry. apply firstn_skipn.
Qed.

Lemma len_0 (l : list Z) : len l = 0 -> l = [].
Proof. destruct l; [auto|]. unfold len. cbn. lia. Qed.

Lemma md5_all_spec fuel : forall p msg ctx st, in_file d f p st -> holds msg ctx -> len f - p < Z.of_nat fuel -> (0 < fuel)%nat ->
  post (md5_all fuel ctx) st
    (fun ctx' st' => holds (msg ++ skipn (Z.to_nat p) f) ctx' /\ in_file d f (p + len (skipn (Z.to_nat p) f)) st')
    (fun e _ => sys_exn e).
Proof.
  induction fuel as [|fuel IH]; intros p msg ctx st I Hh Hf H0; [lia|]. pose proof (in_pos _ _ _ _ I) as Hp.
  cbn [md5_all]. apply post_bind. eapply post_mono; [apply (getblock_spec d f p 4096 st I); lia | | now intros e st' [He _]].
  intros bs st1 (_ & Hb & He & I1). pose proof (len_nonneg bs). destruct (Z.eqb_spec (len bs) 0) as [E0|E0].
  - apply len_0 in E0 as ->. specialize (He eq_refl). unfold post. cbn [ret].
    rewrite skipn_all2, app_nil_r by (unfold len in He; lia). auto.
  - rewrite (rest_split p bs Hp Hb), app_assoc, len_app, Z.add_assoc.
    assert (p + len bs <= len f) by (apply load_le; [lia | lia | congruence | lia]).
    apply IH; auto; [|lia|lia]. apply update_spec; auto. rewrite Hb. apply load_bytes_ok.
Qed.

Lemma md5_some_spec fuel : forall toread p msg ctx st, in_file d f p st -> holds msg ctx -> 0 <= toread <= Z.of_nat fuel ->
  post (md5_some fuel toread ctx) st
    (fun ctx' st' => len (load_at p toread f) = toread /\ holds (msg ++ load_at p toread f) ctx' /\ in_file d f (p + toread) st')
    (fun e _ => sys_exn e \/ (e = End_of_file /\ len f < p + toread)).
Proof.
  assert (Z0 : forall p msg ctx st, in_file d f p st -> holds msg ctx ->
    len (load_at p 0 f) = 0 /\ holds (msg ++ load_at p 0 f) ctx /\ in_file d f (p + 0) st)
    by (intros; rewrite load_nil, app_nil_r, Z.add_0_r; auto).
  induction fuel as [|fuel IH]; intros toread p msg ctx st I Hh Hf; cbn [md5_some]; pose proof (in_pos _ _ _ _ I) as Hp.
  - destruct (Z.leb_spec toread 0); [|lia]. replace toread with 0 by lia. now apply Z0.
  - destruct (Z.leb_spec toread 0); [replace toread with 0 by lia; now apply Z0|].
    apply post_bind. set (n := if 4096 <? toread then 4096 else toread).
    assert (Hn : 0 < n <= toread) by (unfold n; destruct (Z.ltb_spec 4096 toread); lia).
    eapply post_mono; [apply (getblock_spec d f p n st I); lia | | intros e st' [He _]; now left].
    intros bs st1 (Hl & Hb & He & I1). pose proof (len_nonneg bs). destruct (Z.eqb_spec (len bs) 0) as [E0|E0].
    + apply len_0 in E0 as ->. specialize (He eq_refl). right. split; auto. lia.
    + eapply post_mono; [apply (IH (toread - len bs) (p + len bs) (msg ++ bs)); auto; [|lia] | |].
      * apply update_spec; auto. rewrite Hb. apply load_bytes_ok.
      * intros ctx' st' (E1 & E2 & E3). pose proof (load_app p (len bs) (toread - len bs) f) as E.
        rewrite Zplus_minus, <- Hb in E. rewrite E, len_app, app_assoc by lia.
        replace (p + toread) with (p + len bs + (toread - len bs)) by lia. conj; auto. lia.
      * intros e st' [K|[K1 K2]]; [now left | right; split; auto; lia].
Qed.
End Digest.

(** The digest of a channel is the MD5 function of what the channel gives:
    of the whole rest of the file when the length asked for is negative, of
    exactly that number of bytes otherwise, with [End_of_file] only when the
    file is shorter.  The channel is left after the bytes digested.  The number
    of reads is bounded by the number of bytes, whatever the sizes of the reads
    of the system. *)
Theorem md5_chan_correct {Sy : System} {L : SystemLaws Sy} {A : Arch} d f p fuel junk toread st :
  in_file d f p st -> Forall is_byte f -> length junk = 64%nat -> Forall is_byte junk ->
  (if toread <? 0 then len f - p < Z.of_nat fuel /\ (0 < fuel)%nat else toread <= Z.of_nat fuel) ->
  post (caml_md5_chan fuel junk toread) st
    (fun digest st' =>
       let data := if toread <? 0 then skipn (Z.to_nat p) f else load_at p toread f in
       digest = md5 data /\ (0 <= toread -> len data = toread) /\ in_file d f (p + len data) st')
    (fun e _ => sys_exn e \/ (e = End_of_file /\ 0 <= toread /\ len f < p + toread)).
Proof.
  intros I Hb Hl Hj Hf. unfold caml_md5_chan. cbv zeta. pose proof (init_holds junk Hl Hj) as H0. apply post_bind.
  destruct (Z.ltb_spec toread 0) as [Hn|Hn].
  - eapply post_mono; [apply (md5_all_spec d f Hb fuel p [] _ st I H0); tauto | | now left].
    intros ctx st' [Hh I']. unfold post. cbn [ret]. conj; auto; [exact (final_spec _ _ Hh) | lia].
  - eapply post_mono; [apply (md5_some_spec d f Hb fuel toread p [] _ st I H0); lia | |].
    + intros ctx st' (E & Hh & I'). unfold post. cbn [ret]. rewrite E. conj; auto. exact (final_spec _ _ Hh).
    + intros e st' [K|[K1 K2]]; [now left | right; auto].
Qed.

Lemma md5_chan_correct_witness :
  post (Sy := example_system) (@caml_md5_chan example_system arch64 17 (repeat 0 64) 10)
    (new_input_channel, ESys example_text 0 [Upto 4; Upto 3])
    (fun digest st' => digest = md5 (bytes_of "first line") /\ in_file 1 example_text 10 st')
    (fun e _ => sys_exn e \/ (e = End_of_file /\ 0 <= 10 /\ 17 < 10)).
Proof.
  refine (post_mono _ _ _ _ _ _ (md5_chan_correct (Sy := example_system) (A := arch64) 1 example_text 0 17 (repeat 0 64) 10
    (new_input_channel, ESys example_text 0 [Upto 4; Upto 3]) _ _ _ _ _) _ _).
  - apply new_input_file.
  - repeat constructor; vm_compute; discriminate.
  - reflexivity.
  - repeat constructor; vm_compute; discriminate.
  - cbn. lia.
  - intros digest st' (E & _ & I). split; [exact E | exact I].
  - auto.
Defined.
