(* ===== verification/IoClosed.v ===== *)
(** IoClosed: channels that have been closed. *)
From Stdlib Require Import ZArith Lia Bool Ascii String List.
From S2P Require Import Prelude Mlvalues ExternOutput Io IoOut IoIn.
Import ListNotations.
Local Open Scope Z_scope.

Section Closed.
Context {Sy : System} {L : SystemLaws Sy}.

(** The operations tried one after the other, an exception being caught before
    the next one. *)
Fixpoint tries {T} (l : list (io T)) (st : channel * sys) : list (res T) :=
  match l with [] => [] | m :: l => let '(r, st') := m st in r :: tries l st' end.

(** [m] fails with [Sys_error] from the channels of [P], and leaves one. *)
Definition fails {T} (P : channel -> Prop) (m : io T) : Prop := forall c s, P c ->
  exists c' s', m (c, s) = (Raise Sys_error, (c', s')) /\ P c'.

Lemma tries_fail {T} P (l : list (io T)) : Forall (fails P) l -> forall c s, P c ->
  Forall (fun r => r = Raise Sys_error) (tries l (c, s)).
Proof.
  induction 1 as [|m l Hm _ IH]; intros c s Hc; cbn [tries]; [constructor|].
  destruct (Hm c s Hc) as (c' & s' & -> & Hc'). constructor; auto.
Qed.

Lemma fails_bind {T U} P (m : io T) (k : T -> io U) : fails P m -> fails P (bind m k).
Proof. intros H c s Hc. unfold bind. destruct (H c s Hc) as (c' & s' & -> & Hc'). eauto. Qed.

(** A closed channel as seen by reads and by writes. *)
Definition closed_in (c : channel) : Prop := fd c = -1 /\ max c = Some (curr c) /\ 0 <= curr c <= IO_BUFFER_SIZE.
Definition closed_out (c : channel) : Prop := fd c = -1 /\ curr c = IO_BUFFER_SIZE /\ len (buff c) = IO_BUFFER_SIZE.

Lemma run_get {U} (k : channel -> io U) c s : bind get k (c, s) = k c (c, s).
Proof. reflexivity. Qed.
Lemma run_put {U} (k : unit -> io U) c c' s : bind (put c') k (c, s) = k tt (c', s).
Proof. reflexivity. Qed.
Lemma run_max {U} c m (k : Z -> io U) st : max c = Some m -> bind (max_of c) k st = k m st.
Proof. unfold max_of. now intros ->. Qed.
Lemma run_assoc {T U V} (m : io T) (k : T -> io U) (k' : U -> io V) st :
  bind (bind m k) k' st = bind m (fun x => bind (k x) k') st.
Proof. unfold bind. destruct (m st) as [[x|e|] st']; reflexivity. Qed.

Lemma read_closed n c s : exists s', caml_do_read (-1) n (c, s) = (Raise Sys_error, (c, s')).
Proof.
  destruct (proj2 (closed_law [] n s)) as [s' E]. exists s'. unfold caml_do_read. cbn [read_loop]. unfold bind, call. now rewrite E.
Qed.

Lemma write_closed bs c s : exists s', do_write (-1) bs (c, s) = (Raise Sys_error, (c, s')).
Proof.
  destruct (proj1 (closed_law bs 0 s)) as [s' E]. exists s'. unfold do_write.
  replace (2 * retries + 2)%nat with (S (2 * retries + 1)) by lia. cbn [write_loop]. unfold bind, call. now rewrite E.
Qed.

Lemma fails_read {U} n c s (k : list Z -> io U) : closed_in c ->
  exists c' s', bind (caml_do_read (fd c) n) k (c, s) = (Raise Sys_error, (c', s')) /\ closed_in c'.
Proof.
  intros H. destruct (read_closed n c s) as [s' E]. exists c, s'. unfold bind. rewrite (proj1 H), E. auto.
Qed.

Lemma fails_write {U} bs c s (k : Z -> io U) : closed_out c ->
  exists c' s', bind (do_write (fd c) bs) k (c, s) = (Raise Sys_error, (c', s')) /\ closed_out c'.
Proof.
  intros H. destruct (write_closed bs c s) as [s' E]. exists c, s'. unfold bind. rewrite (proj1 H), E. auto.
Qed.

Lemma getch_closed : fails closed_in getch.
Proof.
  intros c s H. pose proof H as (Hf & Hm & Hc). unfold getch. rewrite run_get, (run_max c _ _ _ Hm), Z.leb_refl.
  unfold caml_refill. rewrite run_get. now apply fails_read.
Qed.

Lemma getblock_closed n : 0 < n -> fails closed_in (caml_getblock n).
Proof.
  intros Hn c s H. pose proof H as (Hf & Hm & Hc). unfold caml_getblock. rewrite run_get, (run_max c _ _ _ Hm), Z.sub_diag.
  rewrite (proj2 (Z.leb_gt _ 0)) by (destruct (INT_MAX <=? n); unfold INT_MAX; lia). now apply fails_read.
Qed.

Lemma really_getblock_closed n : 0 < n -> fails closed_in (caml_really_getblock n).
Proof.
  intros Hn. unfold caml_really_getblock. replace (Z.to_nat n) with (S (Z.to_nat n - 1)) by lia. cbn [getblock_loop].
  rewrite (proj2 (Z.leb_gt _ 0)) by lia. apply fails_bind, getblock_closed. exact Hn.
Qed.

Lemma scan_loop_closed fuel : fails closed_in (bind get (fun c => scan_loop (S fuel) (curr c))).
Proof.
  intros c s H. pose proof H as (Hf & Hm & Hc). rewrite run_get. cbn [scan_loop].
  rewrite run_get, (run_max c _ _ _ Hm), Z.leb_refl, run_put. fold (shifted (curr c) c). rewrite Z.sub_diag.
  replace (if 0 <? curr c then 0 else curr c) with 0 by (destruct (Z.ltb_spec 0 (curr c)); lia).
  change (IO_BUFFER_SIZE <=? 0) with false. apply fails_read.
  unfold closed_in, shifted. destruct (Z.ltb_spec 0 (curr c)); chan_simpl; rewrite ?Z.sub_diag; conj; auto; unfold IO_BUFFER_SIZE; lia.
Qed.

Lemma flush_partial_closed : fails closed_out caml_flush_partial.
Proof.
  intros c s H. pose proof H as (Hf & Hc & Hl). unfold caml_flush_partial. rewrite run_get, Hc. change (0 <? IO_BUFFER_SIZE) with true.
  cbv iota zeta. rewrite run_assoc. now apply fails_write.
Qed.

Lemma flush_closed : fails closed_out caml_flush.
Proof. unfold caml_flush. cbn [flush_loop]. apply fails_bind, flush_partial_closed. Qed.

Lemma putch_closed ch : fails closed_out (putch ch).
Proof.
  intros c s H. pose proof H as (Hf & Hc & Hl). unfold putch. rewrite run_get, Hc, Z.leb_refl.
  apply fails_bind; auto. apply fails_bind, flush_partial_closed.
Qed.

Lemma putblock_closed bs : fails closed_out (caml_putblock bs).
Proof.
  intros c s H. pose proof H as (Hf & Hc & Hl). unfold caml_putblock. rewrite run_get, Hc, Z.sub_diag.
  rewrite (proj2 (Z.ltb_ge _ 0)) by (pose proof (len_nonneg bs); destruct (INT_MAX <=? len bs); unfold INT_MAX; lia).
  rewrite run_put, run_get. apply fails_write. unfold closed_out. chan_simpl. conj; auto.
  rewrite store_at_length; auto; unfold IO_BUFFER_SIZE in *; cbn; lia.
Qed.

Lemma really_putblock_closed bs : bs <> [] -> fails closed_out (caml_really_putblock bs).
Proof.
  intros Hb. unfold caml_really_putblock. destruct bs as [|b bs]; [easy|].
  change (2 * length (b :: bs))%nat with (S (length bs + S (length bs + 0))). cbn [putblock_loop]. apply fails_bind, putblock_closed.
Qed.

(** The reads of at least a byte, and the writes and flushes. *)
Definition read_op (o : iop) : Prop :=
  match o with IChar | IWord | ILine => True | IBlock n | IAll n => 0 < n | ISeek _ | IPos => False end.
Definition write_op (o : oop) : Prop := match o with OBlock bs => bs <> [] | _ => True end.

Lemma run_iop_closed o : read_op o -> fails closed_in (run_iop o).
Proof.
  destruct o; cbn [read_op run_iop]; intros H; try easy; apply fails_bind.
  - apply getch_closed.
  - apply fails_bind, getch_closed.
  - now apply getblock_closed.
  - now apply really_getblock_closed.
  - apply (scan_loop_closed (Z.to_nat IO_BUFFER_SIZE)).
Qed.

Lemma run_oop_closed o : write_op o -> fails closed_out (run_oop o).
Proof.
  destruct o; cbn [write_op run_oop]; intros H; try easy.
  - apply putch_closed.
  - apply fails_bind, putch_closed.
  - now apply really_putblock_closed.
  - apply fails_bind, flush_partial_closed.
  - apply flush_closed.
  - apply fails_bind, flush_closed.
Qed.
End Closed.

(** Closing a channel is definitive: whether or not the system call
    succeeds, every later read of at least a byte and every later write, flush
    of the buffer or output seek, however many are tried and in any order,
    raises [Sys_error]; the primitive [caml_ml_flush] returns without doing
    anything, so that flushing all the channels at exit is harmless; and
    closing again returns without a second call to the system, which could
    close a descriptor that has been reused. *)
Theorem close_channel_definitive {Sy : System} {L : SystemLaws Sy} c s reads writes :
  len (buff c) = IO_BUFFER_SIZE -> Forall read_op reads -> Forall write_op writes ->
  let st := snd (caml_ml_close_channel (c, s)) in
  Forall (fun r => r = Raise Sys_error) (tries (map run_iop reads) st) /\
  Forall (fun r => r = Raise Sys_error) (tries (map run_oop writes) st) /\
  caml_ml_flush st = (Ok tt, st) /\ caml_ml_close_channel st = (Ok tt, st).
Proof.
  intros Hl Hr Hw. cbv zeta. set (c' := set_fd (-1) (set_curr IO_BUFFER_SIZE (set_max (Some IO_BUFFER_SIZE) c))).
  assert (E : exists s', snd (caml_ml_close_channel (c, s)) = (c', s')).
  { unfold caml_ml_close_channel, bind at 1 2, get, put. cbn [fst snd]. fold c'. destruct (fd c =? -1); [cbn; eauto|].
    unfold bind, call. destruct (sys_close (fd c) s) as [[u|e] s']; cbn; eauto. }
  destruct E as [s' ->]. conj.
  - apply (tries_fail closed_in); [|unfold closed_in, c'; chan_simpl; unfold IO_BUFFER_SIZE; conj; auto; lia].
    apply Forall_map. revert Hr. apply Forall_impl. intros o. apply run_iop_closed.
  - apply (tries_fail closed_out); [|unfold closed_out, c'; chan_simpl; auto].
    apply Forall_map. revert Hw. apply Forall_impl. intros o. apply run_oop_closed.
  - reflexivity.
  - reflexivity.
Qed.

(** A channel that has read four bytes is closed. *)
Lemma close_channel_definitive_witness :
  let st := snd (caml_ml_close_channel (Sy := example_system) (Chan 1 4 2 (Some 4) (repeat 65 4096), ESys [65; 65; 65; 65] 4 [])) in
  Forall (fun r => r = Raise Sys_error) (tries (map run_iop [ILine; IChar; IAll 3]) st) /\
  Forall (fun r => r = Raise Sys_error) (tries (map run_oop [OChar 66; OBlock [1; 2]]) st) /\
  caml_ml_flush st = (Ok tt, st) /\ caml_ml_close_channel st = (Ok tt, st).
Proof.
  apply (close_channel_definitive (Sy := example_system)).
  - vm_compute. reflexivity.
  - repeat constructor.
  - repeat constructor. discriminate.
Defined.

(** The position of a closed input channel can still be moved inside the
    buffer, without a call to the system, and what is read there is not an
    error: here a channel that had read four bytes of its file is closed, and
    reading a character fails, but after [caml_seek_in] at position 3 it
    returns a byte from the end of the buffer that is not a byte of the
    file. *)
Theorem closed_seek_reads_stale :
  let file := [65; 66; 67; 68] in
  let c := Chan 1 4 2 (Some 4) (file ++ repeat 90 4092) in
  let st := snd (caml_ml_close_channel (Sy := example_system) (c, ESys file 4 [])) in
  fst (caml_ml_input_char st) = Raise Sys_error /\
  in_file (Sy := example_system) 1 file 2 (c, ESys file 4 []) /\
  fst (bind (caml_seek_in 3) (fun _ => caml_ml_input_char) st) = Ok 90 /\ ~ In 90 file.
Proof.
  cbv zeta. conj.
  - vm_compute. reflexivity.
  - split; chan_simpl; [reflexivity | vm_compute; reflexivity | lia | cbn; auto |].
    exists 4. conj; auto; unfold IO_BUFFER_SIZE; lia.
  - vm_compute. reflexivity.
  - cbn. lia.
Qed.
