(* ===== verification/Compare.v ===== *)
(** Compare: structural comparison, src/inline-more/byterun/compare.c: the loop of
    [compare_val] with its explicit stack, and the primitives; and what it computes,
    the lexicographic comparison of the trees that values denote, lazy values that
    have been forced being transparent, exceptions included. *)
From Stdlib Require Import ZArith Lia Bool Ascii String List.
From S2P Require Import Prelude Mlvalues ExternOutput InternInput Custom InterpState MarshalHeap Extern.
Import ListNotations.
Local Open Scope Z_scope.

(** ** Doubles

    A double is its 64 bits: sign, exponent and mantissa.  Comparison is that of
    IEEE 754: a NaN is not comparable, the two zeros are equal. *)

Definition is_nan (d : Z) : bool := Z.shiftl 2047 52 <? Z.land d (2 ^ 63 - 1).
Definition float_key (d : Z) : Z :=
  let m := Z.land d (2 ^ 63 - 1) in if Z.testbit d 63 then - m else m.
Definition flt (d1 d2 : Z) : bool := negb (is_nan d1) && negb (is_nan d2) && (float_key d1 <? float_key d2).
Definition feq (d1 d2 : Z) : bool := negb (is_nan d1) && negb (is_nan d2) && (float_key d1 =? float_key d2).

Definition COMPARE_STACK_INIT_SIZE : Z := 256.
Definition COMPARE_STACK_MAX_SIZE : Z := 1024 * 1024.
Definition LESS : Z := -1.
Definition EQUAL : Z := 0.
Definition GREATER : Z := 1.

(** [&Field(v, i)] is the pair of [v] and [i]. *)
Record compare_item := Item { it_v1 : value * Z; it_v2 : value * Z; count : Z }.

(** What one turn of the loop does with two values: return a result, take the
    next item, compare two other values, do so after pushing the other fields of
    a block, or raise [Invalid_argument] after freeing the stack. *)
Inductive verdict :=
  | Return (r : Z)
  | Next_item
  | Continue (v1 v2 : value)
  | Push (v1 v2 : value) (sz : Z)
  | Invalid (msg : string).

Section Compare.
Context {A : Arch} {F : FloatArch}.
Variable custom_at : Z -> option custom_operations.
(** The address of a pointer, as a signed word. *)
Variable addr : value -> Z.

Definition UNORDERED : Z := - 2 ^ (WORD - 1).

(** [Double_field(v, i)] *)
Definition Double_field (h : sheap) (v : value) (i : Z) : res Z :=
  let! bs := bytes_at h v (8 * i) 8 in Ok (be_val (if float_big_endian then bs else rev bs)).
Definition Double_val (h : sheap) (v : value) : res Z := Double_field h v 0.
Definition Forward_val (h : sheap) (v : value) : res value := fld h v 0.
Definition Oid_val (h : sheap) (v : value) : res Z :=
  let! w := fld h v 1 in let! x := raw w in Ok (Long_val x).
Definition custom_data (h : sheap) (v : value) : res (list value) :=
  match v with Ptr b 0 => of_option (option_map (fun blk => tl (swords blk)) (get_sblock h b)) | _ => Stuck end.
Definition Custom_ops_val (h : sheap) (v : value) : res custom_operations :=
  let! w := fld h v 0 in let! p := raw w in of_option (custom_at p).

(** The loop on the first [n] bytes of two strings, from byte [i]; [None] when
    they are the same. *)
Fixpoint string_loop (h : sheap) (v1 v2 : value) (i : Z) (n : nat) : res (option Z) :=
  match n with
  | O => Ok None
  | S n =>
      let! p1 := byte_at h v1 i in
      let! p2 := byte_at h v2 i in
      if negb (p1 =? p2) then Ok (Some (p1 - p2)) else string_loop h v1 v2 (i + 1) n
  end.

Definition compare_doubles (total : bool) (d1 d2 : Z) : option Z :=
  if flt d1 d2 then Some LESS
  else if flt d2 d1 then Some GREATER
  else if negb (feq d1 d2) then
    if negb total then Some UNORDERED
    else if feq d1 d1 then Some GREATER
    else if feq d2 d2 then Some LESS
    else None
  else None.

Fixpoint doubles_loop (total : bool) (h : sheap) (v1 v2 : value) (i : Z) (n : nat) : res (option Z) :=
  match n with
  | O => Ok None
  | S n =>
      let! d1 := Double_field h v1 i in
      let! d2 := Double_field h v2 i in
      match compare_doubles total d1 d2 with
      | Some r => Ok (Some r)
      | None => doubles_loop total h v1 v2 (i + 1) n
      end
  end.

Definition return_or_next (r : option Z) : verdict :=
  match r with Some r => Return r | None => Next_item end.

(** The [switch] on the common tag of two blocks. *)
Definition compare_blocks (total : bool) (h : sheap) (t hd1 hd2 : Z) (v1 v2 : value) : res verdict :=
  if t =? String_tag then
    if value_eqb v1 v2 then Ok Next_item
    else
      let! len1 := caml_string_length h v1 in
      let! len2 := caml_string_length h v2 in
      let len := if len1 <=? len2 then len1 else len2 in
      let! r := string_loop h v1 v2 0 (Z.to_nat len) in
      match r with
      | Some r => Ok (Return r)
      | None => Ok (if negb (len1 =? len2) then Return (swrap WORD (len1 - len2)) else Next_item)
      end
  else if t =? Double_tag then
    let! d1 := Double_val h v1 in
    let! d2 := Double_val h v2 in
    Ok (return_or_next (compare_doubles total d1 d2))
  else if t =? Double_array_tag then
    let sz1 := Wosize_hd hd1 / Double_wosize in
    let sz2 := Wosize_hd hd2 / Double_wosize in
    if negb (sz1 =? sz2) then Ok (Return (swrap WORD (sz1 - sz2)))
    else let! r := doubles_loop total h v1 v2 0 (Z.to_nat sz1) in Ok (return_or_next r)
  else if t =? Abstract_tag then Ok (Invalid "equal: abstract value")
  else if (t =? Closure_tag) || (t =? Infix_tag) then Ok (Invalid "equal: functional value")
  else if t =? Object_tag then
    let! oid1 := Oid_val h v1 in
    let! oid2 := Oid_val h v2 in
    Ok (if negb (oid1 =? oid2) then Return (oid1 - oid2) else Next_item)
  else if t =? Custom_tag then
    let! ops := Custom_ops_val h v1 in
    match custom_compare ops with
    | None => Ok (Invalid "equal: abstract value")
    | Some compare =>
        let! data1 := custom_data h v1 in
        let! data2 := custom_data h v2 in
        let! (res, caml_compare_unordered) := compare data1 data2 in
        Ok (if caml_compare_unordered && negb total then Return UNORDERED
            else if negb (res =? 0) then Return res else Next_item)
    end
  else
    let sz1 := Wosize_hd hd1 in
    let sz2 := Wosize_hd hd2 in
    if negb (sz1 =? sz2) then Ok (Return (swrap WORD (sz1 - sz2)))
    else if sz1 =? 0 then Ok Next_item
    else
      let! f1 := fld h v1 0 in
      let! f2 := fld h v2 0 in
      if 1 <? sz1 then Ok (Push f1 f2 sz1) else Ok (Continue f1 f2).

Definition Tag_val_in (h : sheap) (v : value) : res Z := let! hd := hd_of h v in Ok (Tag_hd hd).

(** A turn of the loop, up to [next_item]. *)
Definition compare_turn (total : bool) (h : sheap) (v1 v2 : value) : res verdict :=
  if value_eqb v1 v2 && total then Ok Next_item
  else if Is_long_val v1 then
    if value_eqb v1 v2 then Ok Next_item
    else if Is_long_val v2 then
      let! w1 := raw v1 in
      let! w2 := raw v2 in
      Ok (Return (swrap WORD (Long_val w1 - Long_val w2)))
    else if negb (Is_in_value_area v2) then Ok (Return LESS)
    else
      let! t2 := Tag_val_in h v2 in
      if t2 =? Forward_tag then let! v2 := Forward_val h v2 in Ok (Continue v1 v2) else Ok (Return LESS)
  else if Is_long_val v2 then
    if negb (Is_in_value_area v1) then Ok (Return GREATER)
    else
      let! t1 := Tag_val_in h v1 in
      if t1 =? Forward_tag then let! v1 := Forward_val h v1 in Ok (Continue v1 v2) else Ok (Return GREATER)
  else if negb (Is_in_value_area v1) || negb (Is_in_value_area v2) then
    if value_eqb v1 v2 then Ok Next_item
    else Ok (Return (Z.shiftr (addr v1) 1 - Z.shiftr (addr v2) 1))
  else
    let! hd1 := hd_of h v1 in
    let! hd2 := hd_of h v2 in
    let t1 := Tag_hd hd1 in
    let t2 := Tag_hd hd2 in
    if t1 =? Forward_tag then let! v1 := Forward_val h v1 in Ok (Continue v1 v2)
    else if t2 =? Forward_tag then let! v2 := Forward_val h v2 in Ok (Continue v1 v2)
    else if negb (t1 =? t2) then Ok (Return (t1 - t2))
    else compare_blocks total h t1 hd1 hd2 v1 v2.

(** ** The stack

    [items] are the entries from [compare_stack + 1] to [sp], the last one first;
    [limit] is [compare_stack_limit - compare_stack], which is
    [COMPARE_STACK_INIT_SIZE] when the stack is the static one.  Results come
    with the limit left behind. *)

Definition compare_free_stack (limit : Z) : Z :=
  if negb (limit =? COMPARE_STACK_INIT_SIZE) then COMPARE_STACK_INIT_SIZE else limit.

(** The new limit, or [None] when the stack overflows. *)
Definition compare_resize_stack (limit : Z) : option Z :=
  let newsize := 2 * limit in if COMPARE_STACK_MAX_SIZE <=? newsize then None else Some newsize.

Definition push_item (it : compare_item) (items : list compare_item) (limit : Z) : option (list compare_item * Z) :=
  if limit <=? Z.of_nat (length items) + 1
  then match compare_resize_stack limit with Some limit => Some (it :: items, limit) | None => None end
  else Some (it :: items, limit).

(** The values to compare next, and the stack; [None] when it is empty. *)
Definition next_item (h : sheap) (items : list compare_item) : res (option (value * value * list compare_item)) :=
  match items with
  | [] => Ok None
  | Item (p1, i1) (p2, i2) n :: items =>
      let! v1 := fld h p1 i1 in
      let! v2 := fld h p2 i2 in
      let n := n - 1 in
      Ok (Some (v1, v2, if n =? 0 then items else Item (p1, i1 + 1) (p2, i2 + 1) n :: items))
  end.

(** [fuel] bounds the number of turns. *)
Fixpoint compare_loop (fuel : nat) (total : bool) (h : sheap) (v1 v2 : value) (items : list compare_item) (limit : Z) : res Z * Z :=
  match fuel with
  | O => (Stuck, limit)
  | S fuel =>
      match compare_turn total h v1 v2 with
      | Ok (Return r) => (Ok r, limit)
      | Ok (Invalid msg) => (Raise (Invalid_argument msg), compare_free_stack limit)
      | Ok (Continue v1 v2) => compare_loop fuel total h v1 v2 items limit
      | Ok (Push f1 f2 sz) =>
          match push_item (Item (v1, 1) (v2, 1) (sz - 1)) items limit with
          | Some (items, limit) => compare_loop fuel total h f1 f2 items limit
          | None => (Raise Out_of_memory, compare_free_stack limit)
          end
      | Ok Next_item =>
          match next_item h items with
          | Ok None => (Ok EQUAL, limit)
          | Ok (Some (v1, v2, items)) => compare_loop fuel total h v1 v2 items limit
          | Raise e => (Raise e, limit)
          | Stuck => (Stuck, limit)
          end
      | Raise e => (Raise e, limit)
      | Stuck => (Stuck, limit)
      end
  end.
Definition compare_val (fuel : nat) (v1 v2 : value) (total : bool) (h : sheap) (limit : Z) : res Z * Z :=
  compare_loop fuel total h v1 v2 [] limit.

(** The primitives: the result of [compare_val] is tested after the stack has
    been freed. *)
Definition with_compare (fuel : nat) (total : bool) (test : Z -> Z) (h : sheap) (v1 v2 : value) (limit : Z) : res Z * Z :=
  match compare_val fuel v1 v2 total h limit with
  | (Ok r, limit) => (Ok (Val_int (test r)), compare_free_stack limit)
  | r => r
  end.
Definition caml_compare (fuel : nat) :=
  with_compare fuel true (fun res => if res <? 0 then LESS else if 0 <? res then GREATER else EQUAL).
Definition caml_equal (fuel : nat) := with_compare fuel false (fun res => b2z (res =? 0)).
Definition caml_notequal (fuel : nat) := with_compare fuel false (fun res => b2z (negb (res =? 0))).
Definition caml_lessthan (fuel : nat) := with_compare fuel false (fun res => b2z ((res <? 0) && negb (res =? UNORDERED))).
Definition caml_lessequal (fuel : nat) := with_compare fuel false (fun res => b2z ((res <=? 0) && negb (res =? UNORDERED))).
Definition caml_greaterthan (fuel : nat) := with_compare fuel false (fun res => b2z (0 <? res)).
Definition caml_greaterequal (fuel : nat) := with_compare fuel false (fun res => b2z (0 <=? res)).
End Compare.

(** ** Trees *)

Inductive tree :=
  | TLong (n : Z)
  | TString (bs : list Z)
  | TDouble (d : Z)
  | TDoubles (ds : list Z)
  | TAbstract
  | TFunction (tag : Z)
  | TObject (oid : Z)
  | TCustom (ops : Z) (data : list value)
  | TBlock (tag : Z) (fields : list tree).

Section TreeInd.
Variable P : tree -> Prop.
Hypothesis Hlong : forall n, P (TLong n).
Hypothesis Hstring : forall bs, P (TString bs).
Hypothesis Hdouble : forall d, P (TDouble d).
Hypothesis Hdoubles : forall ds, P (TDoubles ds).
Hypothesis Habstract : P TAbstract.
Hypothesis Hfunction : forall tag, P (TFunction tag).
Hypothesis Hobject : forall oid, P (TObject oid).
Hypothesis Hcustom : forall ops data, P (TCustom ops data).
Hypothesis Hblock : forall tag fields, Forall P fields -> P (TBlock tag fields).
Fixpoint tree_ind' (t : tree) : P t :=
  match t with
  | TLong n => Hlong n | TString bs => Hstring bs | TDouble d => Hdouble d | TDoubles ds => Hdoubles ds
  | TAbstract => Habstract | TFunction tag => Hfunction tag | TObject oid => Hobject oid
  | TCustom ops data => Hcustom ops data
  | TBlock tag l => Hblock tag l ((fix go l : Forall P l :=
      match l with [] => Forall_nil P | t :: l => Forall_cons t (tree_ind' t) (go l) end) l)
  end.
End TreeInd.

(** The number of nested blocks. *)
Fixpoint depth (t : tree) : Z :=
  match t with TBlock _ l => 1 + fold_right (fun t n => Z.max (depth t) n) 0 l | _ => 0 end.

Section Spec.
Context {A : Arch} {F : FloatArch}.
Variable custom_at : Z -> option custom_operations.

Definition tree_tag (t : tree) : Z :=
  match t with
  | TLong _ => 1000 | TString _ => String_tag | TDouble _ => Double_tag | TDoubles _ => Double_array_tag
  | TAbstract => Abstract_tag | TFunction tag => tag | TObject _ => Object_tag | TCustom _ _ => Custom_tag
  | TBlock tag _ => tag
  end.

(** The first result that is not 0. *)
Definition then_ (r : res Z) (k : res Z) : res Z :=
  let! x := r in if x =? 0 then k else Ok x.

Fixpoint cmp_bytes (l1 l2 : list Z) : Z :=
  match l1, l2 with b1 :: l1, b2 :: l2 => if b1 =? b2 then cmp_bytes l1 l2 else b1 - b2 | _, _ => 0 end.
Definition cmp_double (total : bool) (d1 d2 : Z) : Z :=
  match compare_doubles total d1 d2 with Some r => r | None => 0 end.
Fixpoint cmp_doubles (total : bool) (l1 l2 : list Z) : Z :=
  match l1, l2 with
  | d1 :: l1, d2 :: l2 => if cmp_double total d1 d2 =? 0 then cmp_doubles total l1 l2 else cmp_double total d1 d2
  | _, _ => 0
  end.
(** Nothing is said of the comparison of custom blocks with different
    operations. *)
Definition custom_cmp (total : bool) (o1 : Z) (data1 : list value) (o2 : Z) (data2 : list value) : res Z :=
  match (if o1 =? o2 then custom_at o1 else None) with
  | None => Stuck
  | Some ops =>
      match custom_compare ops with
      | None => Raise (Invalid_argument "equal: abstract value")
      | Some compare =>
          let! (r, unordered) := compare data1 data2 in Ok (if unordered && negb total then UNORDERED else r)
      end
  end.

Fixpoint cmp (total : bool) (t1 t2 : tree) {struct t1} : res Z :=
  match t1, t2 with
  | TLong n1, TLong n2 => Ok (n1 - n2)
  | TLong _, _ => Ok LESS
  | _, TLong _ => Ok GREATER
  | _, _ =>
      if negb (tree_tag t1 =? tree_tag t2) then Ok (tree_tag t1 - tree_tag t2)
      else
        match t1, t2 with
        | TString l1, TString l2 => then_ (Ok (cmp_bytes l1 l2)) (Ok (len l1 - len l2))
        | TDouble d1, TDouble d2 => Ok (cmp_double total d1 d2)
        | TDoubles l1, TDoubles l2 => then_ (Ok (len l1 - len l2)) (Ok (cmp_doubles total l1 l2))
        | TAbstract, _ => Raise (Invalid_argument "equal: abstract value")
        | TFunction _, _ => Raise (Invalid_argument "equal: functional value")
        | TObject o1, TObject o2 => Ok (o1 - o2)
        | TCustom o1 d1, TCustom o2 d2 => custom_cmp total o1 d1 o2 d2
        | TBlock _ l1, TBlock _ l2 =>
            then_ (Ok (Z.of_nat (length l1) - Z.of_nat (length l2)))
              ((fix go l1 l2 : res Z :=
                  match l1, l2 with t1 :: l1, t2 :: l2 => then_ (cmp total t1 t2) (go l1 l2) | _, _ => Ok 0 end) l1 l2)
        | _, _ => Stuck
        end
  end.
Definition cmp_fields (total : bool) : list tree -> list tree -> res Z :=
  fix go l1 l2 :=
    match l1, l2 with t1 :: l1, t2 :: l2 => then_ (cmp total t1 t2) (go l1 l2) | _, _ => Ok 0 end.

(** ** What a value denotes

    [denotes h n v t]: the value [v] of the heap [h] denotes the tree [t], with
    [n] nodes. *)
Definition block_tag (h : sheap) (v : value) (tag : Z) : Prop :=
  exists b ofs hd, v = Ptr b ofs /\ hd_of h v = Ok hd /\ Tag_hd hd = tag.

Inductive doubles_at (h : sheap) (v : value) : Z -> list Z -> Prop :=
  | da_nil i : doubles_at h v i []
  | da_cons i d ds : Double_field h v i = Ok d -> doubles_at h v (i + 1) ds -> doubles_at h v i (d :: ds).

Inductive denotes (h : sheap) : nat -> value -> tree -> Prop :=
  | den_long w : Is_long w = true -> sint WORD w -> denotes h 1 (Imm w) (TLong (Long_val w))
  | den_forward n v v' t : block_tag h v Forward_tag -> fld h v 0 = Ok v' -> denotes h n v' t -> denotes h (S n) v t
  | den_string v l bs : block_tag h v String_tag -> caml_string_length h v = Ok l -> 0 <= l < 2 ^ (WORD - 1) ->
      bytes_at h v 0 (Z.to_nat l) = Ok bs -> denotes h 1 v (TString bs)
  | den_double v d : block_tag h v Double_tag -> Double_val h v = Ok d -> denotes h 1 v (TDouble d)
  | den_doubles v hd ds : block_tag h v Double_array_tag -> hd_of h v = Ok hd -> 0 <= Wosize_hd hd < 2 ^ (WORD - 1) ->
      doubles_at h v 0 ds -> Wosize_hd hd = Z.of_nat (length ds) * Double_wosize -> denotes h 1 v (TDoubles ds)
  | den_abstract v : block_tag h v Abstract_tag -> denotes h 1 v TAbstract
  | den_function v tag : block_tag h v tag -> tag = Closure_tag \/ tag = Infix_tag -> denotes h 1 v (TFunction tag)
  | den_object v oid : block_tag h v Object_tag -> Oid_val h v = Ok oid -> denotes h 1 v (TObject oid)
  | den_custom v o data : block_tag h v Custom_tag -> fld h v 0 = Ok (Imm o) -> custom_data h v = Ok data ->
      denotes h 1 v (TCustom o data)
  | den_block n v hd tag ts : block_tag h v tag -> hd_of h v = Ok hd -> 0 <= tag < Closure_tag ->
      Wosize_hd hd = Z.of_nat (length ts) -> Wosize_hd hd < 2 ^ (WORD - 1) -> denotes_fields h n v 0 ts ->
      denotes h (S n) v (TBlock tag ts)
with denotes_fields (h : sheap) : nat -> value -> Z -> list tree -> Prop :=
  | df_nil v i : denotes_fields h 0 v i []
  | df_cons n m v i x t ts : fld h v i = Ok x -> denotes h n x t -> denotes_fields h m v (i + 1) ts ->
      denotes_fields h (n + m) v i (t :: ts).
Scheme denotes_mut := Induction for denotes Sort Prop
  with denotes_fields_mut := Induction for denotes_fields Sort Prop.

(** ** Values and trees *)

Lemma block_tag_det h v t1 t2 : block_tag h v t1 -> block_tag h v t2 -> t1 = t2.
Proof. intros (b & o & hd & -> & E1 & <-) (b' & o' & hd' & _ & E2 & <-). congruence. Qed.

Lemma block_tag_not_long h w t : ~ block_tag h (Imm w) t.
Proof. intros (b & o & hd & E & _). discriminate. Qed.

Lemma doubles_at_det h v i l1 : doubles_at h v i l1 -> forall l2, doubles_at h v i l2 -> length l1 = length l2 -> l1 = l2.
Proof.
  induction 1 as [|i d ds E _ IH]; intros l2 H2 Hl; inversion H2; subst; try discriminate; auto.
  cbn in Hl. f_equal; [congruence | apply IH; auto].
Qed.

(** The three kinds of value: an integer, a forwarding block, another block. *)
Lemma denotes_cases h n v t : denotes h n v t ->
  (exists w, v = Imm w /\ Is_long w = true /\ sint WORD w /\ t = TLong (Long_val w) /\ n = 1%nat) \/
  (block_tag h v Forward_tag /\ exists n' v', n = S n' /\ fld h v 0 = Ok v' /\ denotes h n' v' t) \/
  (block_tag h v (tree_tag t) /\ tree_tag t <> Forward_tag /\ (forall m, t <> TLong m)).
Proof.
  destruct 1; [left; eauto 6 | right; left; eauto 6 | right; right ..]; cbn [tree_tag]; conj; try easy; try lia.
  destruct H0; subst; discriminate. unfold Closure_tag, Forward_tag in *. lia.
Qed.
End Spec.

Arguments denotes_mut {A F} h P P0.

(** [w] is reached from [v] by fields. *)
Inductive reach {A : Arch} (h : sheap) (v : value) : value -> Prop :=
  | reach_refl : reach h v v
  | reach_field w i x : reach h v w -> fld h w i = Ok x -> reach h v x.

(** What two values share can be compared with itself.  The total comparison does
    not look inside a value that is compared with itself, so that it finds a
    function equal to itself. *)
Definition shared_comparable {A : Arch} {F : FloatArch} custom_at (h : sheap) (v1 v2 : value) : Prop :=
  forall v n t, reach h v1 v -> reach h v2 v -> denotes h n v t -> exists z, cmp custom_at true t t = Ok z.
