(* ===== verification/CompareProof.v ===== *)
(** CompareProof: the loop of [compare_val] computes the comparison of trees. *)
From Stdlib Require Import ZArith Lia Bool Ascii String List.
From S2P Require Import Prelude Mlvalues InterpState ExternOutput InternInput Custom MarshalHeap Extern MarshalBytes Compare.
Import ListNotations.
Local Open Scope Z_scope.

Section Proof.
Context {A : Arch} {F : FloatArch}.
Variable custom_at : Z -> option custom_operations.
Variable addr : value -> Z.
Variable h : sheap.
(** The arguments of the comparison. *)
Variables a1 a2 : value.

Lemma Double_wosize_pos : 0 < Double_wosize.
Proof. unfold Double_wosize, sizeof_value. destruct WORD_cases as [-> | ->]; reflexivity. Qed.

(** ** A value denotes one tree *)

Ltac same_tag :=
  match goal with
  | H1 : block_tag ?h ?v ?a, H2 : block_tag ?h ?v ?b |- _ =>
      let E := fresh in pose proof (block_tag_det h v a b H1 H2) as E;
      first [discriminate E | subst; clear H2 | subst b; clear H2 | subst a; clear H1]
  | H : block_tag _ (Imm _) _ |- _ => destruct (block_tag_not_long _ _ _ H)
  end.

Lemma denotes_det n v t : denotes h n v t -> forall n2 t2, denotes h n2 v t2 -> t = t2.
Proof.
  revert n v t.
  apply (denotes_mut h (fun n v t _ => forall n2 t2, denotes h n2 v t2 -> t = t2)
    (fun n v i ts _ => forall n2 ts2, denotes_fields h n2 v i ts2 -> length ts = length ts2 -> ts = ts2)).
  all: intros.
  11: { inversion H; subst; [auto | discriminate]. }
  11: { inversion H1; subst; [discriminate|]. cbn in H2. injection H2 as Hl. f_equal; [|eauto].
        eapply H. replace x with x0 in * by congruence. eauto. }
  all: match goal with H : denotes _ _ _ _ |- _ = ?t2 => match type of H with denotes _ _ _ t2 => inversion H; subst end end.
  all: repeat match goal with H : _ \/ _ |- _ => destruct H; subst end.
  all: try (same_tag; fail).
  all: try (exfalso; match goal with H1 : block_tag ?h ?v ?a, H2 : block_tag ?h ?v ?b |- _ =>
      pose proof (block_tag_det h v a b H1 H2); unfold Closure_tag, Infix_tag, Forward_tag, String_tag, Double_tag, Double_array_tag,
        Abstract_tag, Object_tag, Custom_tag in *; lia end).
  all: try reflexivity.
  all: try (f_equal; congruence).
  - match goal with H : forall n2 t2, _ -> _ = t2 |- _ => eapply H end.
    match goal with H1 : fld h v 0 = Ok ?a, H2 : fld h v 0 = Ok ?b |- _ => replace a with b by congruence end. eauto.
  - f_equal. match goal with H1 : hd_of h v = Ok ?a, H2 : hd_of h v = Ok ?b |- _ => replace b with a in * by congruence end.
    eapply doubles_at_det; eauto. pose proof Double_wosize_pos. nia.
  - match goal with H1 : block_tag h v ?a, H2 : block_tag h v ?b |- _ => pose proof (block_tag_det h v a b H1 H2); subst end.
    f_equal. match goal with H1 : hd_of h v = Ok ?a, H2 : hd_of h v = Ok ?b |- _ => replace b with a in * by congruence end.
    eapply H; eauto. lia.
Qed.

(** ** Comparing a tree with itself *)

(** A custom comparison finds a value equal to itself. *)
Definition custom_reflexive : Prop := forall o ops compare data r u, custom_at o = Some ops ->
  custom_compare ops = Some compare -> compare data data = Ok (r, u) -> r = 0.
Hypothesis custom_refl : custom_reflexive.

Lemma cmp_bytes_refl l : cmp_bytes l l = 0.
Proof. induction l as [|b l IH]; cbn; auto. now rewrite Z.eqb_refl. Qed.

Lemma cmp_double_refl d : cmp_double true d d = 0.
Proof.
  unfold cmp_double, compare_doubles, flt. rewrite Z.ltb_irrefl, !andb_false_r. cbn [negb].
  now destruct (feq d d).
Qed.

Lemma cmp_doubles_refl l : cmp_doubles true l l = 0.
Proof. induction l as [|d l IH]; cbn [cmp_doubles]; auto. now rewrite cmp_double_refl, Z.eqb_refl. Qed.

Lemma cmp_block total tag l1 l2 : cmp custom_at total (TBlock tag l1) (TBlock tag l2) =
  then_ (Ok (Z.of_nat (length l1) - Z.of_nat (length l2))) (cmp_fields custom_at total l1 l2).
Proof. cbn [cmp tree_tag]. now rewrite Z.eqb_refl. Qed.

Lemma cmp_refl t : forall z, cmp custom_at true t t = Ok z -> z = 0.
Proof.
  induction t using tree_ind'; intros z.
  9: rewrite cmp_block, Z.sub_diag.
  1-8: cbn [cmp tree_tag]; rewrite ?Z.eqb_refl; cbn [negb].
  - intros [= <-]. lia.
  - rewrite cmp_bytes_refl, Z.sub_diag. now intros [= <-].
  - rewrite cmp_double_refl. now intros [= <-].
  - rewrite Z.sub_diag. cbn. rewrite cmp_doubles_refl. now intros [= <-].
  - discriminate.
  - discriminate.
  - intros [= <-]. lia.
  - unfold custom_cmp. rewrite Z.eqb_refl. destruct (custom_at ops) as [o|] eqn:Eo; [|discriminate].
    destruct (custom_compare o) as [c|] eqn:Ec; [|discriminate]. destruct (c data data) as [[r u]| |] eqn:E; try discriminate.
    rewrite andb_false_r. intros [= <-]. eapply custom_refl; eauto.
  - cbn [then_ Z.eqb]. revert z. induction H as [|t l Ht _ IH]; intros z; cbn [cmp_fields]; [now intros [= <-]|].
    unfold then_ at 1. destruct (cmp custom_at true t t) as [x| |]; try discriminate.
    rewrite (Ht x eq_refl). cbn [Z.eqb]. apply IH.
Qed.

(** ** The loops on strings and arrays *)

Lemma half_pos : 0 < 2 ^ (WORD - 1).
Proof. apply pow2_pos. pose proof WORD_pos. lia. Qed.

Lemma string_loop_spec v1 v2 m1 : forall i m2 l1 l2, bytes_at h v1 i m1 = Ok l1 -> bytes_at h v2 i m2 = Ok l2 ->
  string_loop h v1 v2 i (Nat.min m1 m2) = Ok (if cmp_bytes l1 l2 =? 0 then None else Some (cmp_bytes l1 l2)).
Proof.
  induction m1 as [|m1 IH]; intros i m2 l1 l2 H1 H2; cbn [bytes_at] in H1.
  { injection H1 as <-. reflexivity. }
  destruct (byte_at h v1 i) as [b1| |] eqn:E1; try discriminate.
  destruct (bytes_at h v1 (i + 1) m1) as [r1| |] eqn:R1; try discriminate. injection H1 as <-.
  destruct m2 as [|m2]; cbn [bytes_at] in H2; [injection H2 as <-; reflexivity|].
  destruct (byte_at h v2 i) as [b2| |] eqn:E2; try discriminate.
  destruct (bytes_at h v2 (i + 1) m2) as [r2| |] eqn:R2; try discriminate. injection H2 as <-.
  cbn [Nat.min string_loop cmp_bytes]. rewrite E1, E2. destruct (Z.eqb_spec b1 b2) as [->|Hb]; cbn [negb].
  - now apply IH.
  - now rewrite (proj2 (Z.eqb_neq (b1 - b2) 0)) by lia.
Qed.

Lemma compare_doubles_nonzero total d1 d2 r : compare_doubles total d1 d2 = Some r -> r <> 0.
Proof.
  unfold compare_doubles, UNORDERED, LESS, GREATER. pose proof half_pos.
  repeat match goal with |- context [if ?b then _ else _] => destruct b end; intros [= <-]; lia.
Qed.

Lemma doubles_loop_spec total v1 v2 i l1 : doubles_at h v1 i l1 -> forall l2, doubles_at h v2 i l2 -> length l1 = length l2 ->
  doubles_loop total h v1 v2 i (length l1) = Ok (if cmp_doubles total l1 l2 =? 0 then None else Some (cmp_doubles total l1 l2)).
Proof.
  induction 1 as [|i d ds E _ IH]; intros l2 H2 Hl; inversion H2; subst; try discriminate; [reflexivity|].
  cbn [length doubles_loop cmp_doubles]. rewrite E, H. unfold cmp_double at 1 2 3 4.
  destruct (compare_doubles total d d0) as [r|] eqn:Ec; cbn [Z.eqb].
  - apply compare_doubles_nonzero in Ec. now rewrite !(proj2 (Z.eqb_neq r 0)).
  - apply IH; auto.
Qed.

(** ** A turn of the loop *)

Notation cmp := (cmp custom_at).
Notation cmp_fields := (cmp_fields custom_at).

(** What a turn on two values that denote [t1] and [t2] may do. *)
Inductive turn (total : bool) (n1 n2 : nat) (v1 v2 : value) (t1 t2 : tree) : res verdict -> Prop :=
  | turn_return r : r <> 0 -> cmp total t1 t2 = Ok r -> turn total n1 n2 v1 v2 t1 t2 (Ok (Return r))
  | turn_next : cmp total t1 t2 = Ok 0 -> turn total n1 n2 v1 v2 t1 t2 (Ok Next_item)
  | turn_continue m1 m2 w1 w2 u1 u2 : (reach h a1 v1 -> reach h a1 w1) -> (reach h a2 v2 -> reach h a2 w2) -> denotes h m1 w1 u1 -> denotes h m2 w2 u2 -> cmp total u1 u2 = cmp total t1 t2 ->
      (m1 + m2 < n1 + n2)%nat -> depth u1 <= depth t1 -> turn total n1 n2 v1 v2 t1 t2 (Ok (Continue w1 w2))
  | turn_push tag m1 m2 k1 k2 w1 w2 u1 u2 l1 l2 : t1 = TBlock tag (u1 :: l1) -> t2 = TBlock tag (u2 :: l2) ->
      (reach h a1 v1 -> reach h a1 w1) -> (reach h a2 v2 -> reach h a2 w2) ->
      denotes h m1 w1 u1 -> denotes h m2 w2 u2 -> denotes_fields h k1 v1 1 l1 -> denotes_fields h k2 v2 1 l2 ->
      length l1 = length l2 -> l1 <> [] -> n1 = S (m1 + k1) -> n2 = S (m2 + k2) ->
      turn total n1 n2 v1 v2 t1 t2 (Ok (Push w1 w2 (Z.of_nat (S (length l1)))))
  | turn_invalid msg : cmp total t1 t2 = Raise (Invalid_argument msg) -> turn total n1 n2 v1 v2 t1 t2 (Ok (Invalid msg))
  | turn_raise e : cmp total t1 t2 = Raise e -> turn total n1 n2 v1 v2 t1 t2 (Raise e).

(** The results the loop agrees with: not outside the specification, and for an
    exception of the total comparison, not one that it may miss because it does
    not look inside a value compared with itself. *)
Definition good (total : bool) (r : res Z) : Prop :=
  r <> Stuck /\ (total = true -> shared_comparable custom_at h a1 a2 \/ exists z, r = Ok z).

Lemma return_if r : match (if r =? 0 then None else Some r) with Some r => Return r | None => Next_item end =
  if r =? 0 then Next_item else Return r.
Proof. now destruct (r =? 0). Qed.

Lemma turn_value total n1 n2 v1 v2 t1 t2 r : cmp total t1 t2 = Ok r ->
  turn total n1 n2 v1 v2 t1 t2 (Ok (if r =? 0 then Next_item else Return r)).
Proof. intros E. destruct (Z.eqb_spec r 0) as [->|]; now constructor. Qed.

Lemma denotes_fields_0 n v i t ts : denotes_fields h n v i (t :: ts) ->
  exists x m k, fld h v i = Ok x /\ denotes h m x t /\ denotes_fields h k v (i + 1) ts /\ n = (m + k)%nat.
Proof. intros H. inversion H; subst. eauto 8. Qed.

Lemma swrap_diff a b : 0 <= a < 2 ^ (WORD - 1) -> 0 <= b < 2 ^ (WORD - 1) -> swrap WORD (a - b) = a - b.
Proof. intros Ha Hb. apply swrap_small; pose proof WORD_pos; lia. Qed.

(** Inversion of [denotes] on a value that is not a forwarding block. *)
Section Inversion.
Variable n : nat.
Variable v : value.
Variable hd : Z.
Hypothesis Hhd : hd_of h v = Ok hd.
Hypothesis Hf : ~ block_tag h v Forward_tag.

Ltac den H := inversion H; subst; clear H; [now destruct Hf|].

Lemma inv_string bs : denotes h n v (TString bs) ->
  caml_string_length h v = Ok (len bs) /\ 0 <= len bs < 2 ^ (WORD - 1) /\ bytes_at h v 0 (Z.to_nat (len bs)) = Ok bs.
Proof.
  intros H. den H. match goal with H : bytes_at _ _ _ _ = _ |- _ => pose proof (bytes_at_length _ _ _ _ _ H) as L end.
  unfold len in *. rewrite L, Z2Nat.id by lia. auto.
Qed.
Lemma inv_double d : denotes h n v (TDouble d) -> Double_val h v = Ok d.
Proof. intros H. den H. auto. Qed.
Lemma inv_doubles ds : denotes h n v (TDoubles ds) -> doubles_at h v 0 ds /\ len ds = Wosize_hd hd / Double_wosize /\ len ds < 2 ^ (WORD - 1).
Proof.
  intros H. den H. match goal with H : hd_of h v = Ok ?x |- _ => replace x with hd in * by congruence end.
  unfold len. pose proof Double_wosize_pos. match goal with H : Wosize_hd hd = _ |- _ => rewrite H in *; rewrite Z.div_mul by lia end.
  conj; auto. nia.
Qed.
Lemma inv_function tag : denotes h n v (TFunction tag) -> tag = Closure_tag \/ tag = Infix_tag.
Proof. intros H. den H. auto. Qed.
Lemma inv_object oid : denotes h n v (TObject oid) -> Oid_val h v = Ok oid.
Proof. intros H. den H. auto. Qed.
Lemma inv_custom o data : denotes h n v (TCustom o data) -> fld h v 0 = Ok (Imm o) /\ custom_data h v = Ok data.
Proof. intros H. den H. auto. Qed.
Lemma inv_block tag ts : denotes h n v (TBlock tag ts) -> 0 <= tag < Closure_tag /\ Wosize_hd hd = Z.of_nat (length ts) /\
  Wosize_hd hd < 2 ^ (WORD - 1) /\ exists k, n = S k /\ denotes_fields h k v 0 ts.
Proof.
  intros H. den H. match goal with H : hd_of h v = Ok ?x |- _ => replace x with hd in * by congruence end.
  conj; eauto; lia.
Qed.
End Inversion.

Section Blocks.
Variable total : bool.
Variables n1 n2 : nat.
Variables v1 v2 : value.
Variables hd1 hd2 : Z.
Hypothesis H1 : hd_of h v1 = Ok hd1.
Hypothesis H2 : hd_of h v2 = Ok hd2.
Hypothesis F1 : ~ block_tag h v1 Forward_tag.
Hypothesis F2 : ~ block_tag h v2 Forward_tag.

Notation blocks t := (compare_blocks custom_at total h t hd1 hd2 v1 v2).
Notation turns t1 t2 := (turn total n1 n2 v1 v2 t1 t2).

Lemma string_turn l1 l2 : denotes h n1 v1 (TString l1) -> denotes h n2 v2 (TString l2) ->
  turns (TString l1) (TString l2) (blocks String_tag).
Proof.
  intros D1 D2. unfold compare_blocks. change (String_tag =? String_tag) with true. cbv iota.
  assert (E : cmp total (TString l1) (TString l2) = Ok (if cmp_bytes l1 l2 =? 0 then len l1 - len l2 else cmp_bytes l1 l2))
    by (cbn; now destruct (cmp_bytes l1 l2 =? 0)).
  unfold value_eqb. destruct (value_dec v1 v2) as [Ev|Ev].
  { subst v2. pose proof (denotes_det _ _ _ D1 _ _ D2) as [= <-]. apply turn_next. rewrite E, cmp_bytes_refl. cbn. f_equal. lia. }
  destruct (inv_string _ _ F1 _ D1) as (-> & R1 & B1), (inv_string _ _ F2 _ D2) as (-> & R2 & B2).
  replace (Z.to_nat _) with (Nat.min (Z.to_nat (len l1)) (Z.to_nat (len l2))) by (destruct (Z.leb_spec (len l1) (len l2)); lia).
  rewrite (string_loop_spec v1 v2 _ 0 _ l1 l2 B1 B2), swrap_diff by auto. apply (turn_value total n1 n2 v1 v2) in E. revert E.
  destruct (Z.eqb_spec (cmp_bytes l1 l2) 0) as [_|Hn]; intros E.
  - destruct (Z.eqb_spec (len l1) (len l2)) as [El|El]; cbn [negb].
    + now rewrite El, Z.sub_diag in E.
    + now rewrite (proj2 (Z.eqb_neq (len l1 - len l2) 0)) in E by lia.
  - now rewrite (proj2 (Z.eqb_neq _ 0)) in E.
Qed.

Lemma double_turn d1 d2 : denotes h n1 v1 (TDouble d1) -> denotes h n2 v2 (TDouble d2) ->
  turns (TDouble d1) (TDouble d2) (blocks Double_tag).
Proof.
  intros D1 D2. unfold compare_blocks. change (Double_tag =? String_tag) with false. change (Double_tag =? Double_tag) with true. cbv iota.
  rewrite (inv_double _ _ F1 _ D1), (inv_double _ _ F2 _ D2).
  assert (E : cmp total (TDouble d1) (TDouble d2) = Ok (cmp_double total d1 d2)) by reflexivity.
  unfold cmp_double in E. destruct (compare_doubles total d1 d2) as [r|] eqn:Ec; [|now apply turn_next].
  apply turn_return; auto. now apply compare_doubles_nonzero in Ec.
Qed.

Lemma doubles_turn l1 l2 : denotes h n1 v1 (TDoubles l1) -> denotes h n2 v2 (TDoubles l2) ->
  turns (TDoubles l1) (TDoubles l2) (blocks Double_array_tag).
Proof.
  intros D1 D2. unfold compare_blocks. change (Double_array_tag =? String_tag) with false. change (Double_array_tag =? Double_tag) with false.
  change (Double_array_tag =? Double_array_tag) with true. cbv iota zeta.
  destruct (inv_doubles _ _ _ H1 F1 _ D1) as (A1 & <- & R1), (inv_doubles _ _ _ H2 F2 _ D2) as (A2 & <- & R2).
  pose proof (len_nonneg l1). pose proof (len_nonneg l2).
  assert (E : cmp total (TDoubles l1) (TDoubles l2) = then_ (Ok (len l1 - len l2)) (Ok (cmp_doubles total l1 l2))) by reflexivity.
  rewrite swrap_diff by lia. unfold then_ in E. destruct (Z.eqb_spec (len l1) (len l2)) as [El|El]; cbn [negb].
  - rewrite El, Z.sub_diag in E. cbn in E. replace (Z.to_nat (len l1)) with (length l1) by (unfold len; lia).
    rewrite (doubles_loop_spec total v1 v2 0 l1 A1 l2 A2) by (unfold len in El; lia). unfold return_or_next. rewrite return_if.
    now apply turn_value.
  - rewrite (proj2 (Z.eqb_neq (len l1 - len l2) 0)) in E by lia. apply turn_return; auto. lia.
Qed.

Lemma object_turn o1 o2 : denotes h n1 v1 (TObject o1) -> denotes h n2 v2 (TObject o2) ->
  turns (TObject o1) (TObject o2) (blocks Object_tag).
Proof.
  intros D1 D2. unfold compare_blocks. cbn [Z.eqb Pos.eqb Object_tag String_tag Double_tag Double_array_tag Abstract_tag Closure_tag Infix_tag orb].
  rewrite (inv_object _ _ F1 _ D1), (inv_object _ _ F2 _ D2).
  assert (E : cmp total (TObject o1) (TObject o2) = Ok (o1 - o2)) by reflexivity. apply (turn_value total n1 n2 v1 v2) in E.
  destruct (Z.eqb_spec o1 o2) as [->|Hn]; cbn [negb].
  - now rewrite Z.sub_diag in E.
  - now rewrite (proj2 (Z.eqb_neq (o1 - o2) 0)) in E by lia.
Qed.

Lemma custom_turn o1 d1 o2 d2 : denotes h n1 v1 (TCustom o1 d1) -> denotes h n2 v2 (TCustom o2 d2) ->
  good total (cmp total (TCustom o1 d1) (TCustom o2 d2)) -> turns (TCustom o1 d1) (TCustom o2 d2) (blocks Custom_tag).
Proof.
  intros D1 D2 [G _]. unfold compare_blocks. cbn [Z.eqb Pos.eqb Custom_tag Object_tag String_tag Double_tag Double_array_tag Abstract_tag Closure_tag Infix_tag orb].
  destruct (inv_custom _ _ F1 _ _ D1) as [E1 ->], (inv_custom _ _ F2 _ _ D2) as [E2 ->]. unfold Custom_ops_val. rewrite E1. cbn [raw].
  assert (E : cmp total (TCustom o1 d1) (TCustom o2 d2) = custom_cmp custom_at total o1 d1 o2 d2) by reflexivity.
  rewrite E in G. unfold custom_cmp in *. destruct (Z.eqb_spec o1 o2) as [<-|]; [|congruence].
  destruct (custom_at o1) as [ops|]; [|congruence]. cbn [of_option].
  destruct (custom_compare ops) as [c|]; [|now apply turn_invalid].
  destruct (c d1 d2) as [[r u]|e|]; [|now apply turn_raise|congruence]. pose proof half_pos.
  destruct (u && negb total); [apply turn_return; auto; unfold UNORDERED; lia|]. apply (turn_value total n1 n2 v1 v2) in E.
  now destruct (r =? 0).
Qed.

Lemma block_turn tag l1 l2 : denotes h n1 v1 (TBlock tag l1) -> denotes h n2 v2 (TBlock tag l2) ->
  turns (TBlock tag l1) (TBlock tag l2) (blocks tag).
Proof.
  intros D1 D2. destruct (inv_block _ _ _ H1 F1 _ _ D1) as (T & S1 & R1 & k1 & -> & A1), (inv_block _ _ _ H2 F2 _ _ D2) as (_ & S2 & R2 & k2 & -> & A2).
  unfold Closure_tag in T. unfold compare_blocks, String_tag, Double_tag, Double_array_tag, Abstract_tag, Closure_tag, Infix_tag, Object_tag, Custom_tag.
  rewrite !(proj2 (Z.eqb_neq tag _)) by lia. cbn [orb]. rewrite S1, S2. pose proof (cmp_block total tag l1 l2) as E. rewrite swrap_diff by lia.
  unfold then_ in E. destruct (Z.eqb_spec (Z.of_nat (length l1)) (Z.of_nat (length l2))) as [El|El]; cbn [negb].
  2: { rewrite (proj2 (Z.eqb_neq (_ - _) 0)) in E by lia. apply turn_return; auto. lia. }
  rewrite El, Z.sub_diag in E. cbn [Z.eqb] in E. destruct l1 as [|u1 l1]; destruct l2 as [|u2 l2]; try discriminate; [now apply turn_next|].
  change (Z.of_nat (length (u1 :: l1)) =? 0) with false. cbv iota.
  destruct (denotes_fields_0 _ _ _ _ _ A1) as (x1 & m1 & p1 & Ex1 & B1 & C1 & ->), (denotes_fields_0 _ _ _ _ _ A2) as (x2 & m2 & p2 & Ex2 & B2 & C2 & ->).
  rewrite Ex1, Ex2. assert (R1' : reach h a1 v1 -> reach h a1 x1) by eauto using reach_field. assert (R2' : reach h a2 v2 -> reach h a2 x2) by eauto using reach_field.
  cbn [length] in *. destruct (Z.ltb_spec 1 (Z.of_nat (S (length l1)))) as [Hl|Hl].
  - eapply turn_push; eauto; [lia | intros ->; cbn in Hl; lia].
  - destruct l1; cbn [length] in *; [|lia]. destruct l2; cbn [length] in *; [|lia].
    eapply turn_continue; eauto; [|lia|cbn [depth fold_right]; lia]. rewrite E. cbn. unfold then_. destruct (cmp total u1 u2) as [z| |]; auto.
    now destruct (Z.eqb_spec z 0) as [->|].
Qed.
End Blocks.

Lemma same_tag_turn total n1 n2 v1 v2 t1 t2 hd1 hd2 : denotes h n1 v1 t1 -> denotes h n2 v2 t2 ->
  hd_of h v1 = Ok hd1 -> hd_of h v2 = Ok hd2 -> ~ block_tag h v1 Forward_tag -> ~ block_tag h v2 Forward_tag ->
  (forall m, t1 <> TLong m) -> (forall m, t2 <> TLong m) -> tree_tag t1 = tree_tag t2 -> good total (cmp total t1 t2) ->
  turn total n1 n2 v1 v2 t1 t2 (compare_blocks custom_at total h (tree_tag t1) hd1 hd2 v1 v2).
Proof.
  intros D1 D2 E1 E2 F1 F2 L1 L2 Et G.
  assert (R : forall n v t, denotes h n v t -> ~ block_tag h v Forward_tag ->
    match t with TFunction tag => tag = Closure_tag \/ tag = Infix_tag | TBlock tag _ => 0 <= tag < Closure_tag | _ => True end).
  { intros n v t D Nf. destruct D; auto. contradiction. }
  pose proof (R _ _ _ D1 F1) as R1. pose proof (R _ _ _ D2 F2) as R2. clear R.
  assert (K : forall x y, x = y -> x = Closure_tag \/ x = Infix_tag -> 0 <= y < Closure_tag -> False)
    by (unfold Closure_tag, Infix_tag; lia).
  destruct t1; [now destruct (L1 n) | ..]; destruct t2; try (now destruct (L2 n)); cbn [tree_tag] in *;
    try discriminate; try (exfalso; eapply K; eauto; fail);
    try (exfalso; unfold Closure_tag, Infix_tag, String_tag, Double_tag, Double_array_tag, Abstract_tag, Object_tag, Custom_tag in *; lia).
  - now apply string_turn.
  - now apply double_turn.
  - now apply doubles_turn.
  - apply turn_invalid. reflexivity.
  - subst tag0. replace (compare_blocks _ _ _ _ _ _ _ _) with (@Ok verdict (Invalid "equal: functional value"))
      by (destruct R1 as [-> | ->]; reflexivity).
    apply turn_invalid. cbn [Compare.cmp tree_tag]. now rewrite Z.eqb_refl.
  - now apply object_turn.
  - now apply custom_turn.
  - subst tag0. now apply block_turn.
Qed.

Lemma long_cmp total n t : (forall m, t <> TLong m) -> cmp total (TLong n) t = Ok LESS /\ cmp total t (TLong n) = Ok GREATER.
Proof. intros H. destruct t; try (now destruct (H n0)); split; reflexivity. Qed.

Lemma Long_val_inj w1 w2 : Is_long w1 = true -> Is_long w2 = true -> Long_val w1 = Long_val w2 -> w1 = w2.
Proof. intros H1 H2 E. apply Is_long_odd in H1, H2. lia. Qed.

Lemma Long_val_diff w1 w2 : sint WORD w1 -> sint WORD w2 -> swrap WORD (Long_val w1 - Long_val w2) = Long_val w1 - Long_val w2.
Proof.
  unfold sint, Long_val. intros H1 H2. rewrite !Z.shiftr_div_pow2 by lia. change (2 ^ 1) with 2. pose proof WORD_pos.
  assert (E : 2 ^ (WORD - 1) = 2 * 2 ^ (WORD - 2)) by (rewrite <- Z.pow_succ_r by lia; f_equal; lia).
  pose proof (Z.div_mod w1 2). pose proof (Z.div_mod w2 2). pose proof (Z.mod_pos_bound w1 2). pose proof (Z.mod_pos_bound w2 2).
  apply swrap_small; lia.
Qed.

(** Not equal values. *)
Lemma turn_distinct total n1 n2 v1 v2 t1 t2 : v1 <> v2 \/ total = false -> denotes h n1 v1 t1 -> denotes h n2 v2 t2 ->
  good total (cmp total t1 t2) -> turn total n1 n2 v1 v2 t1 t2 (compare_turn custom_at addr total h v1 v2).
Proof.
  intros Hd D1 D2 G. unfold compare_turn.
  replace (value_eqb v1 v2 && total) with false by (destruct (value_eqb_spec v1 v2), total; auto; destruct Hd; congruence).
  destruct (denotes_cases h n1 v1 t1 D1) as [(w1 & -> & L1 & S1 & -> & ->)|[(B1 & m1 & u1 & -> & Ef1 & C1)|(B1 & T1 & N1)]];
  destruct (denotes_cases h n2 v2 t2 D2) as [(w2 & -> & L2 & S2 & -> & ->)|[(B2 & m2 & u2 & -> & Ef2 & C2)|(B2 & T2 & N2)]];
  try (pose proof B1 as (b1 & o1 & hd1 & -> & Eh1 & Et1)); try (pose proof B2 as (b2 & o2 & hd2 & -> & Eh2 & Et2));
  cbn [Is_long_val Is_in_value_area negb orb raw]; rewrite ?L1, ?L2; unfold Tag_val_in, Forward_val; rewrite ?Eh1, ?Eh2; rewrite ?Et1, ?Et2, ?Z.eqb_refl.
  - destruct (value_eqb_spec (Imm w1) (Imm w2)) as [[= <-]|Ne].
    + apply turn_next. cbn. f_equal. lia.
    + rewrite Long_val_diff by auto. apply turn_return; [|reflexivity]. intros E. apply Ne. f_equal. apply Long_val_inj; auto. lia.
  - rewrite Ef2. apply (turn_continue _ _ _ _ _ _ _ 1 m2 _ _ (TLong (Long_val w1)) t2); eauto using reach_field; lia.
  - rewrite (proj2 (Z.eqb_neq _ _) T2). now apply turn_return; [|apply long_cmp].
  - rewrite Ef1. apply (turn_continue _ _ _ _ _ _ _ m1 1 _ _ t1 (TLong (Long_val w2))); eauto using reach_field; lia.
  - rewrite Ef1. apply (turn_continue _ _ _ _ _ _ _ m1 (S m2) _ _ t1 t2); eauto using reach_field; lia.
  - rewrite Ef1. apply (turn_continue _ _ _ _ _ _ _ m1 n2 _ _ t1 t2); eauto using reach_field; lia.
  - rewrite (proj2 (Z.eqb_neq _ _) T1). now apply turn_return; [|apply long_cmp].
  - rewrite (proj2 (Z.eqb_neq _ _) T1), Ef2. apply (turn_continue _ _ _ _ _ _ _ n1 m2 _ _ t1 t2); eauto using reach_field; lia.
  - rewrite (proj2 (Z.eqb_neq _ _) T1), (proj2 (Z.eqb_neq _ _) T2).
    assert (NF1 : ~ block_tag h (Ptr b1 o1) Forward_tag) by (intros K; apply T1; eapply block_tag_det; eauto).
    assert (NF2 : ~ block_tag h (Ptr b2 o2) Forward_tag) by (intros K; apply T2; eapply block_tag_det; eauto).
    destruct (Z.eqb_spec (tree_tag t1) (tree_tag t2)) as [Et|Et]; cbn [negb]; [now apply same_tag_turn|].
    apply turn_return; [lia|]. pose proof (proj2 (Z.eqb_neq _ _) Et) as Eb.
    destruct t1; try (now destruct (N1 n)); destruct t2; try (now destruct (N2 n)); cbn [Compare.cmp]; rewrite Eb; reflexivity.
Qed.

Lemma turn_spec total n1 n2 v1 v2 t1 t2 : reach h a1 v1 -> reach h a2 v2 -> denotes h n1 v1 t1 -> denotes h n2 v2 t2 -> good total (cmp total t1 t2) ->
  turn total n1 n2 v1 v2 t1 t2 (compare_turn custom_at addr total h v1 v2).
Proof.
  intros Ra1 Ra2 D1 D2 G. destruct (value_eqb_spec v1 v2) as [E|E], total eqn:Et; try (apply turn_distinct; auto; fail).
  subst v2. assert (t2 = t1) as -> by (eapply denotes_det; eauto). unfold compare_turn.
  destruct (value_eqb_spec v1 v1); [|easy]. cbn [andb]. apply turn_next. destruct G as [_ G].
  assert (exists z, cmp true t1 t1 = Ok z) as [z Ez] by (destruct (G eq_refl) as [G'|G']; eauto). now rewrite Ez, (cmp_refl _ _ Ez).
Qed.

(** ** The loop *)

Fixpoint cmp_seq (total : bool) (l : list (tree * tree)) : res Z :=
  match l with [] => Ok 0 | (t1, t2) :: l => then_ (cmp total t1 t2) (cmp_seq total l) end.

(** The greatest number of items of the stack. *)
Definition COMPARE_DEPTH : Z := COMPARE_STACK_MAX_SIZE / 2 - 1.

(** [items_ok items m pend]: the items hold the pairs of trees [pend] to compare
    next, with [m] nodes in all; there is room to compare them. *)
Inductive items_ok : list compare_item -> nat -> list (tree * tree) -> Prop :=
  | items_nil : items_ok [] 0 []
  | items_cons p1 i1 p2 i2 n1 n2 l1 l2 items m pend : reach h a1 p1 -> reach h a2 p2 -> denotes_fields h n1 p1 i1 l1 -> denotes_fields h n2 p2 i2 l2 ->
      length l1 = length l2 -> l1 <> [] -> Forall (fun t => Z.of_nat (S (length items)) + depth t <= COMPARE_DEPTH) l1 ->
      items_ok items m pend ->
      items_ok (Item (p1, i1) (p2, i2) (Z.of_nat (length l1)) :: items) (n1 + n2 + m) (combine l1 l2 ++ pend).

Definition limit_ok (items : list compare_item) (limit : Z) : Prop :=
  In limit [256; 512; 1024; 2048; 4096; 8192; 16384; 32768; 65536; 131072; 262144; 524288] /\ Z.of_nat (length items) < limit.

Lemma push_ok it items limit : limit_ok items limit -> Z.of_nat (length items) + 1 <= COMPARE_DEPTH ->
  exists limit', push_item it items limit = Some (it :: items, limit') /\ limit_ok (it :: items) limit'.
Proof.
  intros [Hin Hl] Hd. unfold push_item, compare_resize_stack, limit_ok, COMPARE_DEPTH, COMPARE_STACK_MAX_SIZE in *. cbn [length].
  change (1024 * 1024 / 2 - 1) with 524287 in *. change (1024 * 1024) with 1048576.
  destruct (Z.leb_spec limit (Z.of_nat (length items) + 1)); [|exists limit; split; [reflexivity | split; auto; lia]].
  rewrite (proj2 (Z.leb_gt _ (2 * limit))) by (cbn in Hin; lia). exists (2 * limit). split; [reflexivity|]. split; [|lia].
  cbn in Hin. cbn [In]. intuition (subst; cbn; try lia); auto 20.
Qed.

Lemma then_good total r k : good total (then_ r k) -> good total r /\ (r = Ok 0 -> good total k).
Proof.
  unfold good, then_. intros [H1 H2]. destruct r as [x|e|]; [|split; [|discriminate]; split; auto|easy].
  split; [split; [easy|eauto]|]. intros [= ->]. auto.
Qed.

Lemma next_item_spec items m pend : items_ok items m pend ->
  match pend with
  | [] => items = []
  | (t1, t2) :: pend' =>
      exists v1 v2 items' n1 n2 m', next_item h items = Ok (Some (v1, v2, items')) /\
        reach h a1 v1 /\ reach h a2 v2 /\ denotes h n1 v1 t1 /\ denotes h n2 v2 t2 /\ items_ok items' m' pend' /\ (n1 + n2 + m' <= m)%nat /\
        (length items' <= length items)%nat /\ Z.of_nat (length items') + depth t1 <= COMPARE_DEPTH
  end.
Proof.
  destruct 1 as [|p1 i1 p2 i2 k1 k2 l1 l2 items m pend Q1 Q2 A1 A2 El Hn Hd H]; [reflexivity|].
  destruct l1 as [|t1 l1]; [easy|]. destruct l2 as [|t2 l2]; [discriminate|]. cbn [combine app].
  destruct (denotes_fields_0 _ _ _ _ _ A1) as (x1 & y1 & c1 & E1 & B1 & C1 & ->), (denotes_fields_0 _ _ _ _ _ A2) as (x2 & y2 & c2 & E2 & B2 & C2 & ->).
  pose proof (reach_field h _ _ _ _ Q1 E1). pose proof (reach_field h _ _ _ _ Q2 E2).
  cbn [next_item]. rewrite E1, E2. inversion_clear Hd. cbn [length] in *.
  replace (Z.of_nat (S (length l1)) - 1) with (Z.of_nat (length l1)) by lia. destruct (Z.eqb_spec (Z.of_nat (length l1)) 0) as [E0|E0].
  - destruct l1; [|cbn in E0; lia]. destruct l2; [|discriminate]. exists x1, x2, items, y1, y2, m. conj; auto; lia.
  - exists x1, x2. eexists _, y1, y2, (c1 + c2 + m)%nat. split; [reflexivity|]. conj; auto; cbn [length]; try lia.
    constructor; auto. intros ->. now apply E0.
Qed.

Lemma cmp_seq_fields total u1 u2 l1 : forall l2 pend,
  then_ (then_ (cmp total u1 u2) (cmp_fields total l1 l2)) (cmp_seq total pend) =
  then_ (cmp total u1 u2) (cmp_seq total (combine l1 l2 ++ pend)).
Proof.
  assert (K : forall l2 pend, then_ (cmp_fields total l1 l2) (cmp_seq total pend) = cmp_seq total (combine l1 l2 ++ pend)).
  { induction l1 as [|t1 l1 IH]; intros [|t2 l2] pend; cbn [Compare.cmp_fields combine app cmp_seq]; auto.
    rewrite <- IH. unfold then_ at 1 2 3. destruct (cmp total t1 t2) as [x| |]; auto. destruct (x =? 0) eqn:E; auto. now rewrite E. }
  intros l2 pend. rewrite <- K. unfold then_ at 1 2 3. destruct (cmp total u1 u2) as [x| |]; auto. destruct (x =? 0) eqn:E; auto. now rewrite E.
Qed.

Lemma cmp_block_seq total tag u1 u2 l1 l2 pend : length l1 = length l2 ->
  then_ (cmp total (TBlock tag (u1 :: l1)) (TBlock tag (u2 :: l2))) (cmp_seq total pend) =
  then_ (cmp total u1 u2) (cmp_seq total (combine l1 l2 ++ pend)).
Proof. intros El. rewrite cmp_block. cbn [length]. rewrite El, Z.sub_diag. exact (cmp_seq_fields total u1 u2 l1 l2 pend). Qed.

Lemma depth_fields tag l : Forall (fun t => depth t + 1 <= depth (TBlock tag l)) l.
Proof.
  cbn [depth]. induction l as [|t l IH]; cbn [fold_right]; constructor; [lia|]. revert IH. apply Forall_impl. intros u. lia.
Qed.

Lemma depth_nonneg t : 0 <= depth t.
Proof. destruct t; cbn [depth]; try lia. induction fields as [|t l IH]; cbn [fold_right]; lia. Qed.

Lemma denotes_pos n v t : denotes h n v t -> (0 < n)%nat.
Proof. destruct 1; lia. Qed.

Lemma limit_nil items limit : limit_ok items limit -> limit_ok [] limit /\ limit_ok [] (compare_free_stack limit).
Proof.
  intros [Hin Hl]. assert (L0 : limit_ok [] limit) by (split; [auto | cbn; lia]). split; auto.
  unfold compare_free_stack. destruct (negb _); auto. split; [now left | reflexivity].
Qed.

Lemma compare_loop_spec total fuel : forall n1 n2 m v1 v2 t1 t2 items pend limit, reach h a1 v1 -> reach h a2 v2 -> denotes h n1 v1 t1 -> denotes h n2 v2 t2 ->
  items_ok items m pend -> limit_ok items limit -> Z.of_nat (length items) + depth t1 <= COMPARE_DEPTH ->
  good total (cmp_seq total ((t1, t2) :: pend)) -> (n1 + n2 + m < fuel)%nat ->
  exists limit', compare_loop custom_at addr fuel total h v1 v2 items limit = (cmp_seq total ((t1, t2) :: pend), limit') /\
    limit_ok [] limit'.
Proof.
  induction fuel as [|fuel IH]; intros n1 n2 m v1 v2 t1 t2 items pend limit Q1 Q2 D1 D2 Hi Hl Hd G Hf; [lia|]. cbn [compare_loop].
  destruct (limit_nil _ _ Hl) as [L0 L1]. cbn [cmp_seq] in G. destruct (then_good _ _ _ G) as [G1 G2]. cbn [cmp_seq].
  destruct (turn_spec total n1 n2 v1 v2 t1 t2 Q1 Q2 D1 D2 G1) as
    [r Hr E | E | m1 m2 w1 w2 u1 u2 Q1' Q2' C1 C2 E Hm Hd' | tag m1 m2 k1 k2 w1 w2 u1 u2 l1 l2 -> -> Q1' Q2' C1 C2 A1 A2 El Hn -> -> | msg E | e E];
    try rewrite E.
  - exists limit. unfold then_. now rewrite (proj2 (Z.eqb_neq r 0) Hr).
  - specialize (G2 E). cbn [then_ Z.eqb]. pose proof (next_item_spec _ _ _ Hi) as Hx. destruct pend as [|[u1 u2] pend].
    + subst items. exists limit. auto.
    + destruct Hx as (w1 & w2 & items' & k1 & k2 & m' & -> & Q1' & Q2' & C1 & C2 & Hi' & Hm & Hlen & Hdep).
      pose proof (denotes_pos _ _ _ D1). apply (IH k1 k2 m'); auto; [|lia]. split; [apply Hl | destruct Hl; lia].
  - rewrite <- E in *. apply (IH m1 m2 m); auto; lia.
  - rewrite cmp_block_seq in * by auto. replace (Z.of_nat (S (length l1)) - 1) with (Z.of_nat (length l1)) by lia.
    pose proof (depth_fields tag (u1 :: l1)) as Df. inversion_clear Df as [|? ? D1' D2']. pose proof (depth_nonneg u1).
    destruct (push_ok (Item (v1, 1) (v2, 1) (Z.of_nat (length l1))) items limit Hl ltac:(lia)) as (limit' & -> & Hl').
    apply (IH m1 m2 (k1 + k2 + m)%nat w1 w2 u1 u2 _ (combine l1 l2 ++ pend)); auto; [|cbn [length]; lia|lia].
    constructor; auto. revert D2'. apply Forall_impl. intros t. lia.
  - exists (compare_free_stack limit). auto.
  - exists limit. auto.
Qed.
End Proof.
