(* ===== verification/CompareOrder.v ===== *)
(** CompareOrder: the primitives of compare.c compute the comparison of trees,
    and the total comparison is a total preorder. *)
From Stdlib Require Import ZArith Lia Bool Ascii String List.
From S2P Require Import Prelude Mlvalues InterpState ExternOutput InternInput Custom MarshalHeap Extern Compare CompareProof.
Import ListNotations.
Local Open Scope Z_scope.

(** ** Lexicographic combinations *)

Definition lex (x y : Z) : Z := if x =? 0 then y else x.

(** The results of comparing a with b and b with a. *)
Definition anti (ab ba : Z) : Prop := Z.sgn ba = - Z.sgn ab.
(** The results of comparing a with b, b with c and a with c. *)
Definition trans3 (ab bc ac : Z) : Prop := ab <= 0 -> bc <= 0 -> ac <= 0 /\ (ac = 0 <-> ab = 0 /\ bc = 0).

Lemma anti_lex x y x' y' : anti x y -> (x = 0 -> anti x' y') -> anti (lex x x') (lex y y').
Proof. unfold anti, lex. intros H H'. destruct (Z.eqb_spec x 0), (Z.eqb_spec y 0); subst; auto; lia. Qed.

Lemma trans3_lex x y z x' y' z' : trans3 x y z -> (x = 0 -> y = 0 -> z = 0 -> trans3 x' y' z') -> trans3 (lex x x') (lex y y') (lex z z').
Proof. unfold trans3, lex. intros H H'. destruct (Z.eqb_spec x 0), (Z.eqb_spec y 0), (Z.eqb_spec z 0); subst; auto; lia. Qed.

Lemma anti_diff a b : anti (a - b) (b - a).
Proof. unfold anti. lia. Qed.
Lemma trans3_diff a b c : trans3 (a - b) (b - c) (a - c).
Proof. unfold trans3. lia. Qed.
Lemma anti_sgn x y x' y' : Z.sgn x = Z.sgn x' -> Z.sgn y = Z.sgn y' -> anti x' y' -> anti x y.
Proof. unfold anti. lia. Qed.
Lemma trans3_sgn x y z x' y' z' : Z.sgn x = Z.sgn x' -> Z.sgn y = Z.sgn y' -> Z.sgn z = Z.sgn z' -> trans3 x' y' z' -> trans3 x y z.
Proof. unfold trans3. lia. Qed.
#[local] Hint Resolve anti_diff trans3_diff : core.

(** ** Strings and doubles *)

Definition cmp_string (l1 l2 : list Z) : Z := lex (cmp_bytes l1 l2) (len l1 - len l2).

Lemma cmp_string_cons b1 b2 l1 l2 : cmp_string (b1 :: l1) (b2 :: l2) = lex (b1 - b2) (cmp_string l1 l2).
Proof.
  unfold cmp_string, lex, len. cbn [cmp_bytes length]. destruct (Z.eqb_spec b1 b2) as [->|H].
  - rewrite Z.sub_diag. cbn [Z.eqb]. destruct (_ =? 0); lia.
  - now rewrite (proj2 (Z.eqb_neq (b1 - b2) 0)) by lia.
Qed.

Lemma cmp_string_nil_l l : cmp_string [] l = - len l.
Proof. destruct l; reflexivity. Qed.
Lemma cmp_string_nil_r l : cmp_string l [] = len l.
Proof. destruct l; unfold cmp_string, lex, len; cbn; lia. Qed.

Lemma cmp_string_anti l1 : forall l2, anti (cmp_string l1 l2) (cmp_string l2 l1).
Proof.
  induction l1 as [|b1 l1 IH]; intros [|b2 l2]; rewrite ?cmp_string_nil_l, ?cmp_string_nil_r, ?cmp_string_cons;
    [unfold anti, len; cbn; lia | unfold anti; lia | unfold anti; lia | now apply anti_lex].
Qed.

Lemma cmp_string_trans l1 : forall l2 l3, trans3 (cmp_string l1 l2) (cmp_string l2 l3) (cmp_string l1 l3).
Proof.
  induction l1 as [|b1 l1 IH]; intros [|b2 l2] [|b3 l3]; rewrite ?cmp_string_nil_l, ?cmp_string_nil_r, ?cmp_string_cons;
    try (apply trans3_lex; auto); unfold trans3, lex, len; cbn [length]; intros; lia.
Qed.

(** NaN is below the other doubles. *)
Definition total_key (d : Z) : Z := if is_nan d then - 2 ^ 64 else float_key d.

Lemma float_key_bound d : - 2 ^ 63 < float_key d < 2 ^ 63.
Proof.
  unfold float_key. assert (0 <= Z.land d (2 ^ 63 - 1) < 2 ^ 63).
  { change (2 ^ 63 - 1) with (Z.ones 63). rewrite Z.land_ones by lia. apply Z.mod_pos_bound. lia. }
  destruct (Z.testbit d 63); lia.
Qed.

Lemma cmp_double_key {A : Arch} d1 d2 : cmp_double true d1 d2 = Z.sgn (total_key d1 - total_key d2).
Proof.
  unfold cmp_double, compare_doubles, flt, feq, total_key, LESS, GREATER. pose proof (float_key_bound d1). pose proof (float_key_bound d2).
  destruct (is_nan d1), (is_nan d2); cbn [negb andb]; rewrite ?Z.eqb_refl; try (symmetry; apply Z.sgn_pos; lia); try (symmetry; apply Z.sgn_neg; lia);
    [reflexivity|].
  destruct (Z.ltb_spec (float_key d1) (float_key d2)); [symmetry; apply Z.sgn_neg; lia|].
  destruct (Z.ltb_spec (float_key d2) (float_key d1)); [symmetry; apply Z.sgn_pos; lia|].
  rewrite (proj2 (Z.eqb_eq (float_key d1) (float_key d2))) by lia. cbn. replace (_ - _) with 0 by lia. reflexivity.
Qed.

Section Doubles.
Context {A : Arch}.

Lemma cmp_double_anti d1 d2 : anti (cmp_double true d1 d2) (cmp_double true d2 d1).
Proof. rewrite !cmp_double_key. unfold anti. lia. Qed.
Lemma cmp_double_trans d1 d2 d3 : trans3 (cmp_double true d1 d2) (cmp_double true d2 d3) (cmp_double true d1 d3).
Proof. rewrite !cmp_double_key. unfold trans3. lia. Qed.

Lemma cmp_doubles_cons d1 d2 l1 l2 : cmp_doubles true (d1 :: l1) (d2 :: l2) = lex (cmp_double true d1 d2) (cmp_doubles true l1 l2).
Proof. reflexivity. Qed.

Lemma cmp_doubles_anti l1 : forall l2, anti (cmp_doubles true l1 l2) (cmp_doubles true l2 l1).
Proof.
  induction l1 as [|d1 l1 IH]; intros [|d2 l2]; try reflexivity. rewrite !cmp_doubles_cons. apply anti_lex; auto. apply cmp_double_anti.
Qed.
Lemma cmp_doubles_trans l1 : forall l2 l3, length l1 = length l2 -> length l2 = length l3 ->
  trans3 (cmp_doubles true l1 l2) (cmp_doubles true l2 l3) (cmp_doubles true l1 l3).
Proof.
  induction l1 as [|d1 l1 IH]; intros [|d2 l2] [|d3 l3] H1 H2; try discriminate; [unfold trans3; cbn; lia|].
  rewrite !cmp_doubles_cons. apply trans3_lex; auto. apply cmp_double_trans.
Qed.
End Doubles.

(** ** Trees *)

Section Trees.
Context {A : Arch} {F : FloatArch}.
Variable custom_at : Z -> option custom_operations.

(** The comparison of a kind of custom blocks is a total preorder, as custom.h
    requires of it. *)
Class CustomOrder : Prop := {
  custom_refl : custom_reflexive custom_at;
  custom_anti o ops c d1 d2 a b ua ub : custom_at o = Some ops -> custom_compare ops = Some c ->
    c d1 d2 = Ok (a, ua) -> c d2 d1 = Ok (b, ub) -> anti a b;
  custom_trans o ops c d1 d2 d3 ab bc ac u1 u2 u3 : custom_at o = Some ops -> custom_compare ops = Some c ->
    c d1 d2 = Ok (ab, u1) -> c d2 d3 = Ok (bc, u2) -> c d1 d3 = Ok (ac, u3) -> trans3 ab bc ac }.
Context {C : CustomOrder}.

Notation cmp := (cmp custom_at true).
Notation cmp_fields := (cmp_fields custom_at true).

Definition is_block (t : tree) : Z := match t with TLong _ => 0 | _ => 1 end.
Definition kind (t : tree) : Z := match t with TLong _ => 0 | _ => tree_tag t end.

(** Integers are below blocks, and blocks are ordered by tag first. *)
Lemma cmp_lex t1 t2 a : cmp t1 t2 = Ok a ->
  Z.sgn a = Z.sgn (lex (is_block t1 - is_block t2) (lex (kind t1 - kind t2) a)).
Proof.
  assert (K : forall x y z r, (if negb (x =? y) then Ok (x - y) else r) = Ok z -> Z.sgn z = Z.sgn (lex (x - y) z)).
  { intros x y z r. unfold lex. destruct (Z.eqb_spec x y) as [->|H]; cbn [negb]; [now rewrite Z.sub_diag|].
    intros [= <-]. now rewrite (proj2 (Z.eqb_neq (x - y) 0)) by lia. }
  destruct t1, t2; cbn [is_block kind]; try (intros [= <-]; reflexivity); cbn [Compare.cmp]; intros E; apply K in E; exact E.
Qed.

Lemma then_ok x k z : then_ (Ok x) k = Ok z -> exists y, (x = 0 -> k = Ok y) /\ z = lex x y.
Proof.
  unfold then_, lex. destruct (Z.eqb_spec x 0) as [->|H]; intros E.
  - exists z. auto.
  - injection E as <-. exists 0. split; [contradiction | auto].
Qed.

Lemma then_ok_inv r k z : then_ r k = Ok z -> exists x y, r = Ok x /\ (x = 0 -> k = Ok y) /\ z = lex x y.
Proof. destruct r as [x| |]; try discriminate. intros E. destruct (then_ok x k z E) as (y & H). eauto. Qed.

(** Trees of the same kind. *)
Lemma same_kind t1 t2 a : cmp t1 t2 = Ok a -> is_block t1 = is_block t2 -> kind t1 = kind t2 ->
  match t1, t2 with
  | TLong n1, TLong n2 => a = n1 - n2
  | TString l1, TString l2 => a = cmp_string l1 l2
  | TDouble d1, TDouble d2 => a = cmp_double true d1 d2
  | TDoubles l1, TDoubles l2 => a = lex (len l1 - len l2) (cmp_doubles true l1 l2)
  | TObject o1, TObject o2 => a = o1 - o2
  | TCustom o1 d1, TCustom o2 d2 => o1 = o2 /\ custom_cmp custom_at true o1 d1 o2 d2 = Ok a
  | TBlock _ l1, TBlock _ l2 =>
      exists y, (length l1 = length l2 -> cmp_fields l1 l2 = Ok y) /\ a = lex (Z.of_nat (length l1) - Z.of_nat (length l2)) y
  | _, _ => False
  end.
Proof.
  intros E Hb Hk. destruct t1, t2; cbn [is_block kind] in *; try discriminate Hb; cbn [Compare.cmp] in E; rewrite ?Hk, ?Z.eqb_refl in E;
    cbn [negb tree_tag] in E; try discriminate E; try (now injection E as <-).
  - apply then_ok in E as (y & H & ->). unfold cmp_string, lex. destruct (Z.eqb_spec (cmp_bytes bs bs0) 0) as [E0|]; auto.
    specialize (H E0). now injection H as <-.
  - apply then_ok in E as (y & H & ->). unfold lex. destruct (Z.eqb_spec (len ds - len ds0) 0) as [E0|]; auto.
    specialize (H E0). now injection H as <-.
  - split; auto. unfold custom_cmp in E. destruct (Z.eqb_spec ops ops0); [auto | discriminate].
  - cbn [tree_tag] in Hk. subst. apply then_ok in E as (y & H & ->). exists y. split; auto. intros El. apply H. lia.
Qed.

Lemma custom_cmp_ok o1 d1 o2 d2 a : custom_cmp custom_at true o1 d1 o2 d2 = Ok a ->
  exists ops c u, custom_at o1 = Some ops /\ custom_compare ops = Some c /\ c d1 d2 = Ok (a, u).
Proof.
  unfold custom_cmp. destruct (o1 =? o2); [|discriminate]. destruct (custom_at o1) as [ops|]; [|discriminate].
  destruct (custom_compare ops) as [c|] eqn:Ec; [|discriminate]. destruct (c d1 d2) as [[r u]| |] eqn:E; try discriminate.
  rewrite andb_false_r. intros [= <-]. eauto 8.
Qed.

Definition tree_anti (t1 t2 : tree) : Prop := forall a b, cmp t1 t2 = Ok a -> cmp t2 t1 = Ok b -> anti a b.
Definition tree_trans (t1 t2 t3 : tree) : Prop := forall ab bc ac, cmp t1 t2 = Ok ab -> cmp t2 t3 = Ok bc -> cmp t1 t3 = Ok ac -> trans3 ab bc ac.

Lemma fields_anti l1 : Forall (fun t1 => forall t2, tree_anti t1 t2) l1 -> forall l2 a b,
  cmp_fields l1 l2 = Ok a -> cmp_fields l2 l1 = Ok b -> anti a b.
Proof.
  induction 1 as [|t1 l1 H1 _ IH]; intros [|t2 l2] a b; try (now intros [= <-] [= <-]). cbn [Compare.cmp_fields]. intros E1 E2.
  apply then_ok_inv in E1 as (x & y & Ex & Hy & ->), E2 as (x' & y' & Ex' & Hy' & ->).
  assert (Hx : anti x x') by (eapply H1; eauto). apply anti_lex; auto. intros ->. apply (IH l2); auto. apply Hy'.
  unfold anti in Hx. lia.
Qed.

Lemma fields_trans l1 : Forall (fun t1 => forall t2 t3, tree_trans t1 t2 t3) l1 -> forall l2 l3 ab bc ac,
  length l1 = length l2 -> length l2 = length l3 ->
  cmp_fields l1 l2 = Ok ab -> cmp_fields l2 l3 = Ok bc -> cmp_fields l1 l3 = Ok ac -> trans3 ab bc ac.
Proof.
  induction 1 as [|t1 l1 H1 _ IH]; intros [|t2 l2] [|t3 l3] ab bc ac L1 L2; try discriminate.
  - intros [= <-] [= <-] [= <-]. unfold trans3. lia.
  - cbn [Compare.cmp_fields]. intros E1 E2 E3.
    apply then_ok_inv in E1 as (x & y & Ex & Hy & ->), E2 as (x' & y' & Ex' & Hy' & ->), E3 as (x2 & y2 & Ex2 & Hy2 & ->).
    apply trans3_lex; [eapply H1; eauto|]. intros -> -> ->. apply (IH l2 l3); auto.
Qed.

Lemma cmp_anti t1 : forall t2, tree_anti t1 t2.
Proof.
  induction t1 using tree_ind'; intros t2 a b Ea Eb.
  all: eapply anti_sgn; [exact (cmp_lex _ _ _ Ea) | exact (cmp_lex _ _ _ Eb) |].
  all: apply anti_lex; auto; intros Hb; apply anti_lex; auto; intros Hk.
  all: pose proof (same_kind _ _ _ Ea ltac:(lia) ltac:(lia)) as Sa; pose proof (same_kind _ _ _ Eb ltac:(lia) ltac:(lia)) as Sb.
  all: destruct t2; try contradiction.
  - subst. auto.
  - subst. apply cmp_string_anti.
  - subst. apply cmp_double_anti.
  - subst. apply anti_lex; auto. intros _. apply cmp_doubles_anti.
  - subst. auto.
  - destruct Sa as [<- Sa], Sb as [_ Sb]. apply custom_cmp_ok in Sa as (o & c & u & Eo & Ec & Sa), Sb as (o' & c' & u' & Eo' & Ec' & Sb).
    replace c' with c in * by congruence. eapply custom_anti; eauto.
  - destruct Sa as (y & Hy & ->), Sb as (y' & Hy' & ->). apply anti_lex; auto. intros El. eapply fields_anti; eauto; [apply Hy | apply Hy']; lia.
Qed.

Lemma cmp_trans t1 : forall t2 t3, tree_trans t1 t2 t3.
Proof.
  induction t1 using tree_ind'; intros t2 t3 ab bc ac E1 E2 E3.
  all: eapply trans3_sgn; [exact (cmp_lex _ _ _ E1) | exact (cmp_lex _ _ _ E2) | exact (cmp_lex _ _ _ E3) |].
  all: apply trans3_lex; auto; intros Hb Hb' _; apply trans3_lex; auto; intros Hk Hk' _.
  all: pose proof (same_kind _ _ _ E1 ltac:(lia) ltac:(lia)) as S1; pose proof (same_kind _ _ _ E2 ltac:(lia) ltac:(lia)) as S2;
    pose proof (same_kind _ _ _ E3 ltac:(lia) ltac:(lia)) as S3.
  all: destruct t2; try contradiction; destruct t3; try contradiction.
  - subst. auto.
  - subst. apply cmp_string_trans.
  - subst. apply cmp_double_trans.
  - subst. apply trans3_lex; auto. intros L1 L2 _. apply cmp_doubles_trans; unfold len in *; lia.
  - subst. auto.
  - destruct S1 as [<- S1], S2 as [<- S2], S3 as [_ S3].
    apply custom_cmp_ok in S1 as (o & c & u & Eo & Ec & S1), S2 as (o' & c' & u' & Eo' & Ec' & S2), S3 as (o3 & c3 & u3 & Eo3 & Ec3 & S3).
    replace c' with c in * by congruence. replace c3 with c in * by congruence. eapply custom_trans; eauto.
  - destruct S1 as (y1 & H1 & ->), S2 as (y2 & H2 & ->), S3 as (y3 & H3 & ->). apply trans3_lex; auto. intros L1 L2 _.
    refine (fields_trans _ H _ _ _ _ _ _ _ (H1 _) (H2 _) (H3 _)); lia.
Qed.
End Trees.

(** ** The primitives *)

(** The result of a primitive that tests the result [r] of the comparison; the
    stack is left in a state that the next comparison can use. *)
Definition answers {A : Arch} (r : res Z) (test : Z -> Z) (out : res Z * Z) : Prop :=
  match r with
  | Ok z => out = (Ok (Val_int (test z)), COMPARE_STACK_INIT_SIZE)
  | Raise e => exists limit, out = (Raise e, limit) /\ limit_ok [] limit
  | Stuck => True
  end.

Section Primitives.
Context {A : Arch} {F : FloatArch}.
Variable custom_at : Z -> option custom_operations.
Variable addr : value -> Z.
Variable h : sheap.
Hypothesis Hr : custom_reflexive custom_at.

Lemma with_compare_spec total test fuel n1 n2 v1 v2 t1 t2 limit : denotes h n1 v1 t1 -> denotes h n2 v2 t2 ->
  depth t1 <= COMPARE_DEPTH -> limit_ok [] limit -> (n1 + n2 < fuel)%nat ->
  (total = true -> shared_comparable custom_at h v1 v2 \/ exists z, cmp custom_at total t1 t2 = Ok z) ->
  answers (cmp custom_at total t1 t2) test (with_compare custom_at addr fuel total test h v1 v2 limit).
Proof.
  intros D1 D2 Hd Hl Hf Ht. unfold answers. destruct (cmp custom_at total t1 t2) as [z|e|] eqn:E; auto.
  all: assert (Es : cmp_seq custom_at total [(t1, t2)] = cmp custom_at total t1 t2)
    by (cbn [cmp_seq]; rewrite E; unfold then_; try destruct (Z.eqb_spec z 0); congruence).
  all: destruct (compare_loop_spec custom_at addr h v1 v2 Hr total fuel n1 n2 0 v1 v2 t1 t2 [] [] limit) as (limit' & El & Hl'); auto using reach_refl;
    [apply items_nil | rewrite Es, E; split; [easy | auto] | lia |].
  all: unfold with_compare, compare_val; rewrite El, Es, E; eauto.
  f_equal. unfold compare_free_stack. destruct (Z.eqb_spec limit' COMPARE_STACK_INIT_SIZE); auto.
Qed.

Lemma answers_ext (r : res Z) f g out : (forall z, f z = g z) -> answers r f out -> answers r g out.
Proof. intros E. unfold answers. destruct r; auto. now rewrite E. Qed.

Lemma caml_compare_answers fuel n1 n2 v1 v2 t1 t2 limit : denotes h n1 v1 t1 -> denotes h n2 v2 t2 ->
  depth t1 <= COMPARE_DEPTH -> limit_ok [] limit -> (n1 + n2 < fuel)%nat ->
  shared_comparable custom_at h v1 v2 \/ (exists z, cmp custom_at true t1 t2 = Ok z) ->
  answers (cmp custom_at true t1 t2) Z.sgn (caml_compare custom_at addr fuel h v1 v2 limit).
Proof.
  intros D1 D2 Hd Hl Hf E. eapply answers_ext; [|apply (with_compare_spec true _ fuel n1 n2 v1 v2 t1 t2 limit); auto].
  intros z. unfold LESS, GREATER, EQUAL. cbv beta. destruct (Z.ltb_spec z 0); [|destruct (Z.ltb_spec 0 z)]; lia.
Qed.

Lemma caml_compare_spec fuel n1 n2 v1 v2 t1 t2 limit z : denotes h n1 v1 t1 -> denotes h n2 v2 t2 ->
  depth t1 <= COMPARE_DEPTH -> limit_ok [] limit -> (n1 + n2 < fuel)%nat -> cmp custom_at true t1 t2 = Ok z ->
  caml_compare custom_at addr fuel h v1 v2 limit = (Ok (Val_int (Z.sgn z)), COMPARE_STACK_INIT_SIZE).
Proof.
  intros D1 D2 Hd Hl Hf E. pose proof (caml_compare_answers fuel n1 n2 v1 v2 t1 t2 limit D1 D2 Hd Hl Hf ltac:(eauto)) as K.
  now rewrite E in K.
Qed.

Lemma caml_compare_self fuel v limit : limit_ok [] limit ->
  caml_compare custom_at addr (S fuel) h v v limit = (Ok (Val_int 0), COMPARE_STACK_INIT_SIZE).
Proof.
  intros Hl. unfold caml_compare, with_compare, compare_val. cbn [compare_loop]. unfold compare_turn. destruct (value_eqb_spec v v); [|easy].
  cbn [andb next_item]. unfold compare_free_stack. destruct (Z.eqb_spec limit COMPARE_STACK_INIT_SIZE) as [->|]; reflexivity.
Qed.
End Primitives.

(** C27. The primitives of structural comparison compute the lexicographic
    comparison of the trees that values denote: integers before blocks, then
    tags, then sizes, then fields from left to right, strings byte by byte,
    doubles as IEEE numbers, objects by identity number, forced lazy values
    being transparent.  They terminate, a turn of the loop being made for each
    node; the explicit stack grows as needed up to the depth 2^19 - 1 and is
    always left ready for the next comparison; the first tree must not be
    deeper.  All the primitives raise the exception that the comparison of trees
    meets first, [Invalid_argument] on functional and abstract values or the
    exception of a custom comparison; the total one finds any value equal to
    itself without looking inside, so that it raises them all when the two
    values share nothing that cannot be compared with itself.  The polymorphic
    predicates differ from [compare] on NaN and on shared functional values
    only.  Nothing is said of custom blocks with different operations. *)
Theorem compare_refines {A : Arch} {F : FloatArch} custom_at addr h fuel n1 n2 v1 v2 t1 t2 limit :
  custom_reflexive custom_at -> denotes h n1 v1 t1 -> denotes h n2 v2 t2 -> depth t1 <= COMPARE_DEPTH ->
  limit_ok [] limit -> (n1 + n2 < fuel)%nat ->
  (shared_comparable custom_at h v1 v2 \/ (exists z, cmp custom_at true t1 t2 = Ok z) ->
     answers (cmp custom_at true t1 t2) Z.sgn (caml_compare custom_at addr fuel h v1 v2 limit)) /\
  (v1 = v2 -> caml_compare custom_at addr fuel h v1 v2 limit = (Ok (Val_int 0), COMPARE_STACK_INIT_SIZE)) /\
  let r := cmp custom_at false t1 t2 in
  answers r (fun z => b2z (z =? 0)) (caml_equal custom_at addr fuel h v1 v2 limit) /\
  answers r (fun z => b2z (negb (z =? 0))) (caml_notequal custom_at addr fuel h v1 v2 limit) /\
  answers r (fun z => b2z ((z <? 0) && negb (z =? UNORDERED))) (caml_lessthan custom_at addr fuel h v1 v2 limit) /\
  answers r (fun z => b2z ((z <=? 0) && negb (z =? UNORDERED))) (caml_lessequal custom_at addr fuel h v1 v2 limit) /\
  answers r (fun z => b2z (0 <? z)) (caml_greaterthan custom_at addr fuel h v1 v2 limit) /\
  answers r (fun z => b2z (0 <=? z)) (caml_greaterequal custom_at addr fuel h v1 v2 limit).
Proof.
  intros Hr D1 D2 Hd Hl Hf. split; [eapply caml_compare_answers; eauto|].
  split; [intros ->; destruct fuel; [lia | now apply caml_compare_self]|]. cbv zeta. conj; eapply with_compare_spec; eauto; discriminate.
Qed.

(** C28. [compare] is a total preorder: on values that denote trees that can be
    compared, it finds a value equal to itself, it is antisymmetric and it is
    transitive, NaN and lazy values included. *)
Theorem compare_total_order {A : Arch} {F : FloatArch} custom_at addr h fuel n1 n2 n3 v1 v2 v3 t1 t2 t3 z11 z12 z21 z23 z13 :
  CustomOrder custom_at -> denotes h n1 v1 t1 -> denotes h n2 v2 t2 -> denotes h n3 v3 t3 ->
  depth t1 <= COMPARE_DEPTH -> depth t2 <= COMPARE_DEPTH -> (n1 + n1 + n2 + n3 < fuel)%nat ->
  cmp custom_at true t1 t1 = Ok z11 -> cmp custom_at true t1 t2 = Ok z12 -> cmp custom_at true t2 t1 = Ok z21 ->
  cmp custom_at true t2 t3 = Ok z23 -> cmp custom_at true t1 t3 = Ok z13 ->
  exists c12 c23 c13,
    let compares v v' c := caml_compare custom_at addr fuel h v v' COMPARE_STACK_INIT_SIZE = (Ok (Val_int c), COMPARE_STACK_INIT_SIZE) in
    compares v1 v1 0 /\ compares v1 v2 c12 /\ compares v2 v1 (- c12) /\ compares v2 v3 c23 /\ compares v1 v3 c13 /\
    trans3 c12 c23 c13.
Proof.
  intros C D1 D2 D3 P1 P2 Hf E11 E12 E21 E23 E13. pose proof (custom_refl custom_at) as Hr.
  assert (L : limit_ok [] COMPARE_STACK_INIT_SIZE) by (split; [now left | reflexivity]).
  exists (Z.sgn z12), (Z.sgn z23), (Z.sgn z13). cbv zeta.
  pose proof (cmp_anti custom_at t1 t2 _ _ E12 E21) as Ha. unfold anti in Ha. rewrite <- Ha.
  pose proof (cmp_refl custom_at Hr t1 z11 E11) as E0. subst z11. change 0 with (Z.sgn 0).
  conj; try (eapply caml_compare_spec; eauto; lia). generalize (cmp_trans custom_at t1 t2 t3 _ _ _ E12 E23 E13). unfold trans3. lia.
Qed.

(** ** An example: native integers as custom blocks *)

Definition nativeint_ops : custom_operations :=
  Ops (bytes_of "_n")
    (Some (fun d1 d2 => match d1, d2 with [Imm a], [Imm b] => Ok (b2z (b <? a) - b2z (a <? b), false) | _, _ => Stuck end))
    (Some (fun d => match d with [Imm a] => Ok a | _ => Stuck end)) None None.
Definition nativeint_at (p : Z) : option custom_operations := if p =? 4096 then Some nativeint_ops else None.

#[export] Instance nativeint_order : CustomOrder nativeint_at.
Proof.
  assert (K : forall o ops c, nativeint_at o = Some ops -> custom_compare ops = Some c ->
    c = fun d1 d2 => match d1, d2 with [Imm a], [Imm b] => Ok (b2z (b <? a) - b2z (a <? b), false) | _, _ => Stuck end).
  { intros o ops c. unfold nativeint_at. destruct (o =? 4096); [|discriminate]. intros [= <-]. now intros [= <-]. }
  assert (B : forall x y, b2z (y <? x) - b2z (x <? y) = Z.sgn (x - y)).
  { intros x y. destruct (Z.ltb_spec y x), (Z.ltb_spec x y); cbn [b2z]; lia. }
  split.
  - intros o ops c d r u Ho Hc. rewrite (K o ops c Ho Hc). destruct d as [|[] []]; try discriminate. rewrite Z.ltb_irrefl. now intros [= <- <-].
  - intros o ops c d1 d2 a b ua ub Ho Hc. rewrite (K o ops c Ho Hc). destruct d1 as [|[] []]; try discriminate; destruct d2 as [|[] []]; try discriminate.
    intros [= <- <-] [= <- <-]. rewrite !B. unfold anti. lia.
  - intros o ops c d1 d2 d3 ab bc ac u1 u2 u3 Ho Hc. rewrite (K o ops c Ho Hc).
    destruct d1 as [|[] []]; try discriminate; destruct d2 as [|[] []]; try discriminate; destruct d3 as [|[] []]; try discriminate.
    intros [= <- <-] [= <- <-] [= <- <-]. rewrite !B. unfold trans3. lia.
Qed.

(** Two pairs of a native integer and an integer, the second through a forced
    lazy value. *)
Definition pairs_heap : sheap :=
  heap_of [SBlock (@Make_header arch64 2 0 Caml_white) [Ptr 2 0; Imm 3];
           SBlock (@Make_header arch64 2 0 Caml_white) [Ptr 4 0; Imm 3];
           SBlock (@Make_header arch64 2 Custom_tag Caml_white) [Imm 4096; Imm (-5)];
           SBlock (@Make_header arch64 2 Custom_tag Caml_white) [Imm 4096; Imm 7];
           SBlock (@Make_header arch64 1 Forward_tag Caml_white) [Ptr 3 0]].

Lemma pair_1 {F : FloatArch} : @denotes arch64 F pairs_heap 3 (Ptr 0 0) (TBlock 0 [TCustom 4096 [Imm (-5)]; TLong 1]).
Proof.
  apply (den_block _ 2 _ (@Make_header arch64 2 0 Caml_white)); try (vm_compute; (reflexivity || (split; (reflexivity || discriminate)))).
  - eexists _, _, _. split; [reflexivity|]. split; vm_compute; reflexivity.
  - apply (df_cons _ 1 1 _ _ (Ptr 2 0)); [reflexivity | |].
    + apply den_custom; [eexists _, _, _; split; [reflexivity|]; split; vm_compute; reflexivity | reflexivity | reflexivity].
    + apply (df_cons _ 1 0 _ _ (Imm 3)); [reflexivity | | constructor]. apply (den_long _ 3); [reflexivity | split; vm_compute; (reflexivity || discriminate)].
Qed.

Lemma pair_2 {F : FloatArch} : @denotes arch64 F pairs_heap 4 (Ptr 1 0) (TBlock 0 [TCustom 4096 [Imm 7]; TLong 1]).
Proof.
  apply (den_block _ 3 _ (@Make_header arch64 2 0 Caml_white)); try (vm_compute; (reflexivity || (split; (reflexivity || discriminate)))).
  - eexists _, _, _. split; [reflexivity|]. split; vm_compute; reflexivity.
  - apply (df_cons _ 2 1 _ _ (Ptr 4 0)); [reflexivity | |].
    + apply (den_forward _ 1 _ (Ptr 3 0)); [eexists _, _, _; split; [reflexivity|]; split; vm_compute; reflexivity | reflexivity |].
      apply den_custom; [eexists _, _, _; split; [reflexivity|]; split; vm_compute; reflexivity | reflexivity | reflexivity].
    + apply (df_cons _ 1 0 _ _ (Imm 3)); [reflexivity | | constructor]. apply (den_long _ 3); [reflexivity | split; vm_compute; (reflexivity || discriminate)].
Qed.

Lemma compare_refines_witness :
  caml_compare (A := arch64) (F := little_floats) nativeint_at (fun _ => 0) 8 pairs_heap (Ptr 0 0) (Ptr 1 0) 256 = (Ok (@Val_int arch64 (-1)), 256).
Proof.
  assert (E : cmp (A := arch64) nativeint_at true (TBlock 0 [TCustom 4096 [Imm (-5)]; TLong 1]) (TBlock 0 [TCustom 4096 [Imm 7]; TLong 1]) = Ok (-1)) by reflexivity.
  refine (proj1 (compare_refines (A := arch64) (F := little_floats) nativeint_at (fun _ => 0) pairs_heap 8 3 4 (Ptr 0 0) (Ptr 1 0) _ _ 256
    (custom_refl nativeint_at) pair_1 pair_2 _ _ _) (or_intror (ex_intro _ (-1) E))).
  - vm_compute. discriminate.
  - split; [now left | reflexivity].
  - lia.
Defined.

Lemma compare_total_order_witness :
  exists c12 c23 c13,
    let compares v v' c := caml_compare (A := arch64) (F := little_floats) nativeint_at (fun _ => 0) 20 pairs_heap v v' 256 = (Ok (@Val_int arch64 c), 256) in
    compares (Ptr 0 0) (Ptr 0 0) 0 /\ compares (Ptr 0 0) (Ptr 1 0) c12 /\ compares (Ptr 1 0) (Ptr 0 0) (- c12) /\
    compares (Ptr 1 0) (Ptr 1 0) c23 /\ compares (Ptr 0 0) (Ptr 1 0) c13 /\ trans3 c12 c23 c13.
Proof.
  apply (compare_total_order (A := arch64) (F := little_floats) nativeint_at (fun _ => 0) pairs_heap 20 3 4 4
    (Ptr 0 0) (Ptr 1 0) (Ptr 1 0) _ _ _ 0 (-1) 1 0 (-1) nativeint_order pair_1 pair_2 pair_2); try (vm_compute; (reflexivity || discriminate)); lia.
Defined.
