(* ===== verification/Hash.v ===== *)
(** Hash: the generic hashing primitive, src/inline-more/byterun/hash.c.  It
    terminates on every heap, cyclic ones included, gives the same result on all
    machines, and agrees with structural comparison except on zeros and NaNs. *)
From Stdlib Require Import ZArith Lia Bool Ascii String List.
From S2P Require Import Prelude Mlvalues InterpState ExternOutput InternInput Custom MarshalHeap Extern MarshalBytes Compare CompareProof CompareOrder.
Import ListNotations.
Local Open Scope Z_scope.

Definition Alpha : Z := 65599.
Definition Beta : Z := 19.

(** The global variables. *)
Record hash_state := HS { hash_accu : Z; hash_univ_limit : Z; hash_univ_count : Z }.

Definition decr_limit (st : hash_state) : hash_state := HS (hash_accu st) (hash_univ_limit st - 1) (hash_univ_count st).
Definition decr_count (st : hash_state) : hash_state := HS (hash_accu st) (hash_univ_limit st) (hash_univ_count st - 1).
Definition exhausted (st : hash_state) : bool := (hash_univ_count st <? 0) || (hash_univ_limit st <? 0).

Section Hash.
Context {A : Arch}.
Variable custom_at : Z -> option custom_operations.
Variable addr : value -> Z.
Variable h : sheap.

Definition Combine (new : Z) (st : hash_state) : hash_state :=
  HS (wrap WORD (hash_accu st * Alpha + new)) (hash_univ_limit st) (hash_univ_count st).
Definition Combine_small (new : Z) (st : hash_state) : hash_state :=
  HS (wrap WORD (hash_accu st * Beta + new)) (hash_univ_limit st) (hash_univ_count st).
Definition combine_bytes (bs : list Z) (st : hash_state) : hash_state := fold_left (fun st b => Combine_small b st) bs st.

(** The bytes of the double at byte [j], the least significant one first. *)
Definition double_bytes (v : value) (j : Z) : res (list Z) :=
  let! bs := bytes_at h v j 8 in Ok (if ARCH_BIG_ENDIAN then rev bs else bs).
Fixpoint hash_doubles (v : value) (j : Z) (n : nat) (st : hash_state) : res hash_state :=
  match n with
  | O => Ok st
  | S n => let! bs := double_bytes v j in hash_doubles v (j + 8) n (combine_bytes bs st)
  end.

(** The fields [n - 1] to 0. *)
Fixpoint hash_fields (rec : value -> hash_state -> res hash_state) (v : value) (n : nat) (st : hash_state) : res hash_state :=
  match n with
  | O => Ok st
  | S n => let! x := fld h v (Z.of_nat n) in let! st := rec x st in hash_fields rec v n st
  end.

(** [enter] is false for the jumps to [again]; [fuel] bounds the depth of calls
    and jumps. *)
Fixpoint hash_aux (fuel : nat) (enter : bool) (obj : value) (st : hash_state) : res hash_state :=
  match fuel with
  | O => Stuck
  | S fuel =>
      let st := if enter then decr_limit st else st in
      if enter && exhausted st then Ok st
      else if Is_long_val obj then
        let! w := raw obj in Ok (Combine (Long_val w) (decr_count st))
      else if Is_in_value_area obj then
        let! hd := hd_of h obj in
        let tag := Tag_hd hd in
        if tag =? String_tag then
          let! i := caml_string_length h obj in
          let! bs := bytes_at h obj 0 (Z.to_nat i) in
          Ok (combine_bytes bs (decr_count st))
        else if tag =? Double_tag then
          let! bs := double_bytes obj 0 in Ok (combine_bytes bs (decr_count st))
        else if tag =? Double_array_tag then
          hash_doubles obj 0 (Z.to_nat ((Bosize_hd hd + 7) / 8)) (decr_count st)
        else if tag =? Abstract_tag then Ok st
        else if tag =? Infix_tag then
          match obj with
          | Ptr b ofs => hash_aux fuel true (Ptr b (ofs - Infix_offset_hd hd / sizeof_value)) st
          | _ => Stuck
          end
        else if tag =? Forward_tag then let! obj := Forward_val h obj in hash_aux fuel false obj st
        else if tag =? Object_tag then
          let! oid := Oid_val h obj in Ok (Combine oid (decr_count st))
        else if tag =? Custom_tag then
          let! ops := Custom_ops_val custom_at h obj in
          match custom_hash ops with
          | None => Ok st
          | Some hash =>
              let! data := custom_data h obj in
              let! x := hash data in Ok (Combine x (decr_count st))
          end
        else
          hash_fields (hash_aux fuel true) obj (Z.to_nat (Wosize_hd hd)) (Combine_small tag (decr_count st))
      else Ok (Combine (addr obj) st)
  end.

Definition caml_hash_univ_param (fuel : nat) (count limit : Z) (obj : value) : res Z :=
  let! st := hash_aux fuel true obj (HS 0 (Long_val limit) (Long_val count)) in
  Ok (Val_long (Z.land (hash_accu st) 0x3FFFFFFF)).

(** [tag] is a C string: the bytes before the final 0.  [int] has 32 bits. *)
Definition caml_hash_variant (tag : list Z) : Z :=
  let accu := fold_left (fun accu b => Val_int (swrap 32 (223 * Int_val accu + b))) tag (Val_int 0) in
  let accu := if ARCH_SIXTYFOUR then Z.land accu (Val_long 0x7FFFFFFF) else accu in
  swrap 32 accu.
End Hash.

(** ** The hash of a tree, modulo 2^32 *)

Section Spec.
Variable custom_at : Z -> option custom_operations.

Definition combine32 (k new : Z) (st : hash_state) : hash_state :=
  HS (wrap 32 (hash_accu st * k + new)) (hash_univ_limit st) (hash_univ_count st).
Definition hash_bytes32 (bs : list Z) (st : hash_state) : hash_state := fold_left (fun st b => combine32 Beta b st) bs st.

Definition hash_enter (body : hash_state -> res hash_state) (st : hash_state) : res hash_state :=
  let st := decr_limit st in if exhausted st then Ok st else body st.

Fixpoint hash_body (t : tree) (st : hash_state) : res hash_state :=
  match t with
  | TLong n => Ok (combine32 Alpha n (decr_count st))
  | TString bs => Ok (hash_bytes32 bs (decr_count st))
  | TDouble d => Ok (hash_bytes32 (le_bytes 8 d) (decr_count st))
  | TDoubles ds => Ok (hash_bytes32 (concat (map (le_bytes 8) ds)) (decr_count st))
  | TAbstract => Ok st
  | TFunction _ => Stuck
  | TObject oid => Ok (combine32 Alpha oid (decr_count st))
  | TCustom o data =>
      let! ops := of_option (custom_at o) in
      match custom_hash ops with
      | None => Ok st
      | Some hash => let! x := hash data in Ok (combine32 Alpha x (decr_count st))
      end
  | TBlock tag l => fold_right (fun t r => let! st := r in hash_enter (hash_body t) st) (Ok (combine32 Beta tag (decr_count st))) l
  end.
Definition hash_tree (t : tree) : hash_state -> res hash_state := hash_enter (hash_body t).
End Spec.

(** The state of a machine and the state modulo 2^32. *)
Definition state32 (st : hash_state) : hash_state := HS (wrap 32 (hash_accu st)) (hash_univ_limit st) (hash_univ_count st).

Section Refine.
Context {A : Arch} {F : FloatArch}.
Hypothesis ieee : float_big_endian = ARCH_BIG_ENDIAN.
Variable custom_at : Z -> option custom_operations.
Variable addr : value -> Z.
Variable h : sheap.

Lemma wrap32_WORD x : wrap 32 (wrap WORD x) = wrap 32 x.
Proof.
  destruct WORD_cases as [-> | ->]; [apply wrap_idemp; lia|].
  destruct (wrap_eqm 64 x) as [q E]; [lia|]. rewrite E at 2. symmetry. apply (wrap_congr 32 _ _ (q * 2 ^ 32)). change (2 ^ 64) with (2 ^ 32 * 2 ^ 32). lia.
Qed.

Lemma combine_32 k new st :
  state32 (HS (wrap WORD (hash_accu st * k + new)) (hash_univ_limit st) (hash_univ_count st)) = combine32 k new (state32 st).
Proof.
  unfold state32, combine32. cbn [hash_accu hash_univ_limit hash_univ_count]. f_equal. rewrite wrap32_WORD.
  unfold wrap. rewrite <- (Z.add_mod_idemp_l (hash_accu st mod 2 ^ 32 * k)), Z.mul_mod_idemp_l, Z.add_mod_idemp_l by lia. reflexivity.
Qed.

Lemma combine_bytes_32 bs : forall st, state32 (combine_bytes bs st) = hash_bytes32 bs (state32 st).
Proof.
  induction bs as [|b bs IH]; intros st; [reflexivity|]. unfold combine_bytes, hash_bytes32 in *. cbn [fold_left]. rewrite IH. f_equal. apply combine_32.
Qed.

Lemma double_bytes_le v i d : Double_field h v i = Ok d -> double_bytes h v (8 * i) = Ok (le_bytes 8 d).
Proof.
  unfold Double_field, double_bytes. destruct (bytes_at h v (8 * i) 8) as [bs| |] eqn:E; try discriminate. intros [= <-].
  pose proof (bytes_at_length _ _ _ _ _ E) as L. pose proof (bytes_at_range _ _ _ _ _ E) as R. f_equal. rewrite ieee.
  destruct ARCH_BIG_ENDIAN; [rewrite <- (rev_involutive bs) at 2|]; symmetry.
  - replace 8%nat with (length (rev bs)) by (rewrite length_rev; auto). apply le_bytes_be_val. now apply Forall_rev.
  - replace 8%nat with (length bs) by auto. now apply le_bytes_be_val.
Qed.

Lemma hash_doubles_spec v i ds : doubles_at h v i ds -> forall st, exists st',
  hash_doubles h v (8 * i) (length ds) st = Ok st' /\ state32 st' = hash_bytes32 (concat (map (le_bytes 8) ds)) (state32 st).
Proof.
  induction 1 as [|i d ds E _ IH]; intros st; cbn [length hash_doubles map concat]; [eauto|].
  rewrite (double_bytes_le v i d E). replace (8 * i + 8) with (8 * (i + 1)) by lia.
  destruct (IH (combine_bytes (le_bytes 8 d) st)) as (st' & E' & Es). exists st'. split; auto.
  rewrite Es, combine_bytes_32. unfold hash_bytes32. now rewrite fold_left_app.
Qed.

Notation aux := (hash_aux custom_at addr h).

Lemma aux_enter fuel v st : aux (S fuel) true v st =
  if exhausted (decr_limit st) then Ok (decr_limit st) else aux (S fuel) false v (decr_limit st).
Proof. cbn [hash_aux andb]. destruct (exhausted (decr_limit st)); reflexivity. Qed.

Lemma state32_decr st : state32 (decr_limit st) = decr_limit (state32 st) /\ state32 (decr_count st) = decr_count (state32 st) /\
  exhausted (state32 st) = exhausted st.
Proof. auto. Qed.

(** Entering, from the behaviour after the entry. *)
Lemma enter_refines n v t st st' : (0 < n)%nat ->
  (forall st st', hash_body custom_at t (state32 st) = Ok st' -> exists st2, aux n false v st = Ok st2 /\ state32 st2 = st') ->
  hash_tree custom_at t (state32 st) = Ok st' -> exists st2, aux n true v st = Ok st2 /\ state32 st2 = st'.
Proof.
  intros Hn H. destruct n as [|n]; [lia|]. rewrite aux_enter. unfold hash_tree, hash_enter.
  change (decr_limit (state32 st)) with (state32 (decr_limit st)). change (exhausted (state32 (decr_limit st))) with (exhausted (decr_limit st)).
  destruct (exhausted (decr_limit st)); [intros [= <-]; eauto | apply H].
Qed.

Definition fold_fields (ts : list tree) (r : res hash_state) : res hash_state :=
  fold_right (fun t r => let! st := r in hash_enter (hash_body custom_at t) st) r ts.

(** A block of a known tag is hashed. *)
Ltac at_tag B :=
  let b := fresh "b" in let o := fresh "o" in let hd := fresh "hd" in let Eh := fresh "Eh" in let Et := fresh "Et" in
  destruct B as (b & o & hd & -> & Eh & Et); cbn [hash_aux andb Is_long_val Is_in_value_area]; rewrite Eh.
Ltac at_block B :=
  let b := fresh "b" in let o := fresh "o" in let hd := fresh "hd" in let Eh := fresh "Eh" in let Et := fresh "Et" in
  destruct B as (b & o & hd & -> & Eh & Et); cbn [hash_aux andb Is_long_val Is_in_value_area]; rewrite Eh, Et;
  cbn [Z.eqb Pos.eqb String_tag Double_tag Double_array_tag Abstract_tag Infix_tag Forward_tag Object_tag Custom_tag].

Lemma doubles_count hd n : Wosize_hd hd = Z.of_nat n * Double_wosize -> Z.to_nat ((Bosize_hd hd + 7) / 8) = n.
Proof.
  intros E. unfold Bosize_hd, Bsize_wsize, Double_wosize in *. rewrite E.
  replace (Z.of_nat n * (8 / sizeof_value) * sizeof_value) with (Z.of_nat n * 8)
    by (unfold sizeof_value; destruct WORD_cases as [-> | ->]; [change (8 / (32 / 8)) with 2; change (32 / 8) with 4 | change (8 / (64 / 8)) with 1; change (64 / 8) with 8]; lia).
  rewrite Z.div_add_l by lia. change (7 / 8) with 0. lia.
Qed.

Lemma hash_refines n v t : denotes h n v t -> forall fuel st st', (n <= fuel)%nat ->
  hash_body custom_at t (state32 st) = Ok st' -> exists st2, aux fuel false v st = Ok st2 /\ state32 st2 = st'.
Proof.
  revert n v t.
  apply (denotes_mut h (fun n v t _ => forall fuel st st', (n <= fuel)%nat ->
      hash_body custom_at t (state32 st) = Ok st' -> exists st2, aux fuel false v st = Ok st2 /\ state32 st2 = st')
    (fun n v i ts _ => forall fuel st st', (n <= fuel)%nat -> 0 <= i -> fold_fields ts (Ok (state32 st)) = Ok st' ->
       exists st2, hash_fields h (aux fuel true) v (Z.to_nat i + length ts) st = hash_fields h (aux fuel true) v (Z.to_nat i) st2 /\ state32 st2 = st')).
  - intros w Hl _ [|fuel] st st' Hf [= <-]; [lia|]. cbn [hash_aux andb Is_long_val raw]. rewrite Hl. eexists. split; [reflexivity|]. apply combine_32.
  - intros n v v' t B Ef _ IH [|fuel] st st' Hf E; [lia|]. at_block B. unfold Forward_val. rewrite Ef. apply IH; auto. lia.
  - intros v l bs B El _ Eb [|fuel] st st' Hf [= <-]; [lia|]. at_block B. rewrite El, Eb. eexists. split; [reflexivity|]. apply combine_bytes_32.
  - intros v d B Ed [|fuel] st st' Hf [= <-]; [lia|]. at_block B. change 0 with (8 * 0) at 1. rewrite (double_bytes_le _ 0 d Ed). eexists. split; [reflexivity|]. apply combine_bytes_32.
  - intros v hd ds B Eh _ Ha Hw [|fuel] st st' Hf [= <-]; [lia|]. at_block B. replace hd0 with hd in * by congruence.
    rewrite (doubles_count hd (length ds) Hw). exact (hash_doubles_spec _ 0 ds Ha (decr_count st)).
  - intros v B [|fuel] st st' Hf [= <-]; [lia|]. at_block B. eauto.
  - discriminate.
  - intros v oid B Eo [|fuel] st st' Hf [= <-]; [lia|]. at_block B. rewrite Eo. eexists. split; [reflexivity|]. apply combine_32.
  - intros v o data B Eo Ed [|fuel] st st' Hf E; [lia|]. cbn [hash_body] in E. at_block B. unfold Custom_ops_val. rewrite Eo. cbn [raw].
    destruct (custom_at o) as [ops|]; [|discriminate]. cbn [of_option] in *. destruct (custom_hash ops) as [hf|]; [|injection E as <-; eauto].
    rewrite Ed. destruct (hf data) as [x| |]; try discriminate. injection E as <-. eexists. split; [reflexivity|]. apply combine_32.
  - intros n v hd tag ts B Eh Ht Hw _ _ IH [|fuel] st st' Hf E; [lia|].
    at_tag B. replace hd0 with hd in * by congruence. rewrite Et. unfold Closure_tag in Ht.
    unfold String_tag, Double_tag, Double_array_tag, Abstract_tag, Infix_tag, Forward_tag, Object_tag, Custom_tag.
    rewrite !(proj2 (Z.eqb_neq tag _)) by lia. rewrite Hw, Nat2Z.id. cbn [hash_body] in E.
    change (decr_count (state32 st)) with (state32 (decr_count st)) in E. unfold Beta in E. rewrite <- combine_32 in E. fold Beta in E.
    destruct (IH fuel _ st' ltac:(lia) ltac:(lia) E) as (st2 & E2 & Es). cbn [Z.to_nat Nat.add] in E2. cbn [hash_fields] in E2. eauto.
  - intros v i fuel st st' _ _ [= <-]. exists st. now rewrite Nat.add_0_r.
  - intros n m v i x t ts Ex D IH _ IHs fuel st st' Hf Hi E. cbn [fold_fields fold_right] in E. fold (fold_fields ts (Ok (state32 st))) in E.
    destruct (fold_fields ts (Ok (state32 st))) as [s1| |] eqn:E1; try discriminate.
    destruct (IHs fuel st s1 ltac:(lia) ltac:(lia) E1) as (st1 & R1 & <-). pose proof (denotes_pos _ _ _ _ D).
    destruct (enter_refines fuel x t st1 st') as (st2 & R2 & Es); [lia | intros; apply IH; auto; lia | exact E |].
    exists st2. split; auto. cbn [length]. replace (Z.to_nat i + S (length ts))%nat with (Z.to_nat (i + 1) + length ts)%nat by lia. rewrite R1.
    replace (Z.to_nat (i + 1)) with (S (Z.to_nat i)) by lia. cbn [hash_fields]. rewrite Z2Nat.id, Ex, R2 by lia. reflexivity.
Qed.
End Refine.

(** ** Equal trees have equal hashes *)

(** The two zeros are equal but have different bits; so have the NaNs. *)
Definition plain_double (d : Z) : Prop := is_nan d = false /\ float_key d <> 0.
Fixpoint plain (t : tree) : Prop :=
  match t with
  | TDouble d => plain_double d
  | TDoubles ds => Forall plain_double ds
  | TBlock _ l => fold_right (fun t P => plain t /\ P) True l
  | _ => True
  end.

Section Equal.
Context {A : Arch} {F : FloatArch}.
Variable custom_at : Z -> option custom_operations.

(** The hash function of custom blocks is compatible with their comparison. *)
Definition custom_hash_law : Prop := forall o ops c hash d1 d2 u, custom_at o = Some ops -> custom_compare ops = Some c ->
  custom_hash ops = Some hash -> c d1 d2 = Ok (0, u) -> exists x, hash d1 = Ok x /\ hash d2 = Ok x.
Hypothesis hash_law : custom_hash_law.

Notation cmp := (cmp custom_at true).
Notation body := (hash_body custom_at).

Lemma cmp_string_zero l1 : forall l2, cmp_string l1 l2 = 0 -> l1 = l2.
Proof.
  induction l1 as [|b1 l1 IH]; intros [|b2 l2]; rewrite ?cmp_string_nil_l, ?cmp_string_nil_r, ?cmp_string_cons; auto; unfold len, lex; cbn [length]; try lia.
  destruct (Z.eqb_spec (b1 - b2) 0); [|lia]. intros E. f_equal; [lia | auto].
Qed.

Lemma key_bits d1 d2 : float_key d1 = float_key d2 -> float_key d1 <> 0 -> wrap 64 d1 = wrap 64 d2.
Proof.
  assert (K : forall d, wrap 64 d = Z.land d (2 ^ 63 - 1) + 2 ^ 63 * b2z (Z.testbit d 63)).
  { intros d. unfold wrap. change (2 ^ 63 - 1) with (Z.ones 63). rewrite Z.land_ones, Z.testbit_spec' by lia.
    change (2 ^ 64) with (2 ^ 63 * 2). now rewrite Z.rem_mul_r by lia. }
  rewrite !K. unfold float_key. assert (B : forall d, 0 <= Z.land d (2 ^ 63 - 1)) by (intros d; apply Z.land_nonneg; lia).
  pose proof (B d1). pose proof (B d2). destruct (Z.testbit d1 63), (Z.testbit d2 63); cbn [b2z]; lia.
Qed.

Lemma cmp_double_zero d1 d2 : cmp_double true d1 d2 = 0 -> plain_double d1 -> le_bytes 8 d1 = le_bytes 8 d2.
Proof.
  rewrite cmp_double_key. intros E [Hn Hk]. apply (le_bytes_wrap_eq 8). change (8 * Z.of_nat 8) with 64. apply key_bits; auto.
  unfold total_key in E. rewrite Hn in E. pose proof (float_key_bound d1). destruct (is_nan d2); lia.
Qed.

Lemma cmp_doubles_zero l1 : forall l2, length l1 = length l2 -> cmp_doubles true l1 l2 = 0 -> Forall plain_double l1 ->
  concat (map (le_bytes 8) l1) = concat (map (le_bytes 8) l2).
Proof.
  induction l1 as [|d1 l1 IH]; intros [|d2 l2] Hl; try discriminate; auto. rewrite cmp_doubles_cons. unfold lex. intros E H. inversion_clear H.
  cbn [map concat]. destruct (Z.eqb_spec (cmp_double true d1 d2) 0); [|lia]. f_equal; [now apply cmp_double_zero | apply IH; auto].
Qed.

Lemma lex_zero x y : lex x y = 0 -> x = 0 /\ y = 0.
Proof. unfold lex. destruct (Z.eqb_spec x 0); auto. lia. Qed.

Definition same_hash (t1 t2 : tree) : Prop := forall st, body t1 st = body t2 st /\ exists st', body t1 st = Ok st'.

Lemma fields_same l1 : Forall (fun t1 => forall t2, cmp t1 t2 = Ok 0 -> plain t1 -> same_hash t1 t2) l1 -> forall l2 st, length l1 = length l2 ->
  cmp_fields custom_at true l1 l2 = Ok 0 -> fold_right (fun t P => plain t /\ P) True l1 ->
  fold_fields custom_at l1 (Ok st) = fold_fields custom_at l2 (Ok st) /\ exists st', fold_fields custom_at l1 (Ok st) = Ok st'.
Proof.
  induction 1 as [|t1 l1 H1 _ IH]; intros [|t2 l2] st Hl; try discriminate; [intros; split; cbn; eauto|]. cbn [Compare.cmp_fields fold_right]. intros E [P1 P2].
  apply then_ok_inv in E as (x & y & Ex & Hy & E). symmetry in E. apply lex_zero in E as [-> ->].
  destruct (IH l2 st) as [E1 (st1 & E2)]; auto. unfold fold_fields in *. cbn [fold_right]. rewrite <- E1, E2. unfold hash_enter.
  destruct (exhausted (decr_limit st1)); [eauto|]. destruct (H1 t2 Ex P1 (decr_limit st1)) as [Eb Ex']. auto.
Qed.

Lemma cmp_zero_hash t1 : forall t2, cmp t1 t2 = Ok 0 -> plain t1 -> same_hash t1 t2.
Proof.
  induction t1 using tree_ind'; intros t2 E P st.
  all: pose proof (cmp_lex _ _ _ _ E) as El; symmetry in El; change (Z.sgn 0) with 0 in El; apply (proj1 (Z.sgn_null_iff _)) in El; apply lex_zero in El as [Hb Hk];
    apply lex_zero in Hk as [Hk _]; pose proof (same_kind _ _ _ _ E ltac:(lia) ltac:(lia)) as S; destruct t2; try contradiction; cbn [hash_body]; clear Hb.
  - split; [do 3 f_equal; lia | eauto].
  - symmetry in S. apply cmp_string_zero in S as ->. eauto.
  - rewrite (cmp_double_zero d d0) by auto. eauto.
  - symmetry in S. apply lex_zero in S as [S1 S2]. rewrite (cmp_doubles_zero ds ds0) by (auto; unfold len in S1; lia). eauto.
  - split; [do 3 f_equal; lia | eauto].
  - destruct S as [<- S]. apply custom_cmp_ok in S as (o & c & u & Eo & Ec & S). rewrite Eo. cbn [of_option].
    destruct (custom_hash o) as [hf|] eqn:Eh; [|eauto]. destruct (hash_law _ _ _ _ _ _ _ Eo Ec Eh S) as (x & -> & ->). eauto.
  - destruct S as (y & Hy & S). symmetry in S. apply lex_zero in S as [S1 ->]. cbn [kind tree_tag] in Hk. replace tag0 with tag by lia.
    apply (fields_same fields H fields0); auto; [lia | apply Hy; lia].
Qed.
End Equal.

(** ** Termination *)

Section Termination.
Context {A : Arch}.
Variable custom_at : Z -> option custom_operations.
Variable addr : value -> Z.
Variable h : sheap.

(** A set of values that is closed under what hashing follows: every block can be
    read, and the chains of forwarding blocks are finite, [fwd] being their
    length. *)
Variable P : value -> Prop.
Variable fwd : value -> nat.
Definition readable (v : value) : Prop :=
  match v with
  | Ptr b ofs =>
      exists hd, hd_of h v = Ok hd /\
      let tag := Tag_hd hd in
      if tag =? String_tag then exists i bs, caml_string_length h v = Ok i /\ bytes_at h v 0 (Z.to_nat i) = Ok bs
      else if tag =? Double_tag then exists bs, double_bytes h v 0 = Ok bs
      else if tag =? Double_array_tag then
        forall j, 0 <= j < (Bosize_hd hd + 7) / 8 -> exists bs, double_bytes h v (8 * j) = Ok bs
      else if tag =? Abstract_tag then True
      else if tag =? Infix_tag then P (Ptr b (ofs - Infix_offset_hd hd / sizeof_value))
      else if tag =? Forward_tag then exists v', Forward_val h v = Ok v' /\ P v' /\ (fwd v' < fwd v)%nat
      else if tag =? Object_tag then exists oid, Oid_val h v = Ok oid
      else if tag =? Custom_tag then
        exists ops, Custom_ops_val custom_at h v = Ok ops /\
        forall hash, custom_hash ops = Some hash -> exists data x, custom_data h v = Ok data /\ hash data = Ok x
      else forall i, 0 <= i < Wosize_hd hd -> exists x, fld h v i = Ok x /\ P x
  | _ => True
  end.
Hypothesis closed : forall v, P v -> readable v.
Variable K : nat.
Hypothesis fwd_bound : forall v, P v -> (fwd v <= K)%nat.

Notation aux := (hash_aux custom_at addr h).

Lemma limit_combine_bytes bs : forall st, hash_univ_limit (combine_bytes bs st) = hash_univ_limit st.
Proof. induction bs as [|b bs IH]; intros st; [reflexivity|]. exact (IH (Combine_small b st)). Qed.

Definition ends (m : hash_state -> res hash_state) (st : hash_state) : Prop :=
  exists st', m st = Ok st' /\ hash_univ_limit st' <= hash_univ_limit st.

Lemma hash_doubles_ends v n : forall j st, (forall k, j <= k < j + Z.of_nat n -> exists bs, double_bytes h v (8 * k) = Ok bs) ->
  ends (hash_doubles h v (8 * j) n) st.
Proof.
  induction n as [|n IH]; intros j st H; [exists st; split; [reflexivity | lia]|]. unfold ends. cbn [hash_doubles]. destruct (H j) as [bs ->]; [lia|].
  replace (8 * j + 8) with (8 * (j + 1)) by lia. destruct (IH (j + 1) (combine_bytes bs st)) as (st' & -> & Hl); [intros k Hk; apply H; lia|].
  exists st'. rewrite limit_combine_bytes in Hl. auto.
Qed.

Lemma hash_fields_ends rec v n : forall st, (forall i, 0 <= i < Z.of_nat n -> exists x, fld h v i = Ok x /\
    forall st', hash_univ_limit st' <= hash_univ_limit st -> ends (rec x) st') -> ends (hash_fields h rec v n) st.
Proof.
  induction n as [|n IH]; intros st H; [exists st; split; [reflexivity | lia]|]. unfold ends. cbn [hash_fields].
  destruct (H (Z.of_nat n)) as (x & -> & Hx); [lia|]. destruct (Hx st) as (st1 & -> & L1); [lia|].
  destruct (IH st1) as (st2 & -> & L2); [|exists st2; split; auto; lia].
  intros i Hi. destruct (H i) as (y & E & Hy); [lia|]. exists y. split; auto. intros st' Hs. apply Hy. lia.
Qed.

(** Enough fuel when [hash_univ_limit] is [l]. *)
Definition enough (l : Z) : nat := (Z.to_nat l * (K + 1) + 1)%nat.

Lemma hash_aux_ends fuel :
  (forall v st, P v -> (enough (hash_univ_limit st) <= fuel)%nat -> ends (aux fuel true v) st) /\
  (forall v st, P v -> 0 <= hash_univ_limit st -> (enough (hash_univ_limit st) + fwd v + 1 <= fuel)%nat -> ends (aux fuel false v) st).
Proof.
  unfold ends. induction fuel as [|fuel [IH1 IH2]]; [unfold enough; split; intros; lia|].
  assert (B : forall v st, P v -> 0 <= hash_univ_limit st -> (enough (hash_univ_limit st) + fwd v <= fuel)%nat ->
    exists st', aux (S fuel) false v st = Ok st' /\ hash_univ_limit st' <= hash_univ_limit st).
  { intros v st Pv H0 Hf. cbn [hash_aux andb]. destruct v as [w|b ofs|p|hgt]; cbn [Is_long_val Is_in_value_area raw];
      [destruct (Is_long w); eexists; (split; [reflexivity|]); cbn; lia | | eexists; (split; [reflexivity|]); cbn; lia ..].
    destruct (closed _ Pv) as (hd & -> & R). cbv zeta in R.
    destruct (Tag_hd hd =? String_tag); [destruct R as (i & bs & -> & ->); eexists; split; [reflexivity|]; rewrite limit_combine_bytes; cbn; lia|].
    destruct (Tag_hd hd =? Double_tag); [destruct R as (bs & ->); eexists; split; [reflexivity|]; rewrite limit_combine_bytes; cbn; lia|].
    destruct (Tag_hd hd =? Double_array_tag).
    { apply (hash_doubles_ends _ _ 0 (decr_count st)). intros k Hk. apply R. lia. }
    destruct (Tag_hd hd =? Abstract_tag); [eexists; split; [reflexivity | lia]|].
    destruct (Tag_hd hd =? Infix_tag); [apply IH1; auto; lia|].
    destruct (Tag_hd hd =? Forward_tag); [destruct R as (v' & -> & Pv' & Hw); apply IH2; auto; lia|].
    destruct (Tag_hd hd =? Object_tag); [destruct R as (oid & ->); eexists; split; [reflexivity | cbn; lia]|].
    destruct (Tag_hd hd =? Custom_tag).
    { destruct R as (ops & -> & Hh). destruct (custom_hash ops) as [hf|]; [|eexists; split; [reflexivity | lia]].
      destruct (Hh hf eq_refl) as (data & x & -> & ->). eexists. split; [reflexivity | cbn; lia]. }
    apply (hash_fields_ends (aux fuel true) _ _ (Combine_small (Tag_hd hd) (decr_count st))). intros i Hi.
    destruct (R i) as (x & Ex & Px); [lia|]. exists x. split; auto. intros st' Hl. cbn in Hl. apply IH1; auto.
    assert (enough (hash_univ_limit st') <= enough (hash_univ_limit st))%nat by (unfold enough; nia). lia. }
  split; [|intros; apply B; auto; lia].
  intros v st Pv Hf. cbn [hash_aux andb]. destruct (exhausted (decr_limit st)) eqn:Ex; [eexists; split; [reflexivity | cbn; lia]|].
  assert (Hl : 0 <= hash_univ_limit (decr_limit st)) by (unfold exhausted in Ex; lia). cbn in Hl.
  destruct (B v (decr_limit st) Pv Hl) as (st' & E & L); [cbn; pose proof (fwd_bound v Pv); unfold enough in *; nia|].
  exists st'. split; [exact E|]. cbn in L. lia.
Qed.
End Termination.

(** ** The primitive *)

Lemma land_wrap32 x : Z.land (wrap 32 x) 0x3FFFFFFF = Z.land x 0x3FFFFFFF.
Proof.
  change 0x3FFFFFFF with (Z.ones 30). rewrite !Z.land_ones by lia. unfold wrap. change (2 ^ 32) with (2 ^ 30 * 4).
  rewrite Z.rem_mul_r by lia. rewrite (Z.mul_comm (2 ^ 30)), Z.mod_add by lia. apply Z.mod_mod. lia.
Qed.

Lemma hash_univ_tree {A : Arch} {F : FloatArch} custom_at addr h fuel count limit n v t st : float_big_endian = ARCH_BIG_ENDIAN ->
  denotes h n v t -> (n <= fuel)%nat -> hash_tree custom_at t (HS 0 (Long_val limit) (Long_val count)) = Ok st ->
  caml_hash_univ_param custom_at addr h fuel count limit v = Ok (2 * Z.land (hash_accu st) 0x3FFFFFFF + 1).
Proof.
  intros ieee D Hf E. pose proof (denotes_pos _ _ _ _ D).
  destruct (enter_refines custom_at addr h fuel v t (HS 0 (Long_val limit) (Long_val count)) st) as (st2 & E2 & <-); auto; [lia | |].
  { intros s s' Es. eapply hash_refines; eauto. }
  unfold caml_hash_univ_param. rewrite E2. f_equal. cbn [state32 hash_accu]. rewrite land_wrap32. apply Val_long_small, small_long.
  change 0x3FFFFFFF with (Z.ones 30). rewrite Z.land_ones by lia. apply Z.mod_pos_bound. lia.
Qed.

(** Hashing gives the same result on all machines, as hash.c claims: on any
    two machines with IEEE doubles in the byte order of their words, 32 or 64
    bits, the hash of two values that denote the same tree is the same, for
    all limits on the number of nodes. *)
Theorem hash_portable {A1 : Arch} {F1 : FloatArch} {A2 : Arch} {F2 : FloatArch} custom_at addr1 addr2 h1 h2 fuel count limit n1 n2 v1 v2 t st :
  @float_big_endian F1 = @ARCH_BIG_ENDIAN A1 -> @float_big_endian F2 = @ARCH_BIG_ENDIAN A2 ->
  @denotes A1 F1 h1 n1 v1 t -> @denotes A2 F2 h2 n2 v2 t -> (n1 <= fuel)%nat -> (n2 <= fuel)%nat ->
  hash_tree custom_at t (HS 0 (Long_val limit) (Long_val count)) = Ok st ->
  exists r, @caml_hash_univ_param A1 custom_at addr1 h1 fuel count limit v1 = Ok r /\
            @caml_hash_univ_param A2 custom_at addr2 h2 fuel count limit v2 = Ok r.
Proof.
  intros I1 I2 D1 D2 L1 L2 E. exists (2 * Z.land (hash_accu st) 0x3FFFFFFF + 1).
  split; [exact (hash_univ_tree _ _ _ _ _ _ _ _ _ _ I1 D1 L1 E) | exact (hash_univ_tree _ _ _ _ _ _ _ _ _ _ I2 D2 L2 E)].
Qed.

Lemma Val_sgn_0 {A : Arch} z : Val_int (Z.sgn z) = Val_int 0 -> z = 0.
Proof.
  assert (B : 1 < 2 ^ (WORD - 2)) by (apply Z.pow_gt_1; pose proof WORD_pos; lia).
  unfold Val_int. rewrite !Val_long_small by (rewrite Min_long_eq, Max_long_eq; lia). lia.
Qed.

(** C29. Hashing is compatible with structural comparison, as the documentation
    of [Hashtbl.hash] promises: if [compare] returns 0 on two values, they have
    the same hash, provided that the first contains no zero and no NaN.  The
    values may have different shapes in memory (sharing, forced lazy values). *)
Theorem compare_equal_hash_equal {A : Arch} {F : FloatArch} custom_at addr h fuel count limit n1 n2 v1 v2 t1 t2 z l :
  float_big_endian = ARCH_BIG_ENDIAN -> custom_reflexive custom_at -> custom_hash_law custom_at ->
  denotes h n1 v1 t1 -> denotes h n2 v2 t2 -> depth t1 <= COMPARE_DEPTH -> (n1 + n2 < fuel)%nat ->
  cmp custom_at true t1 t2 = Ok z -> plain t1 ->
  caml_compare custom_at addr fuel h v1 v2 COMPARE_STACK_INIT_SIZE = (Ok (Val_int 0), l) ->
  exists r, caml_hash_univ_param custom_at addr h fuel count limit v1 = Ok r /\
            caml_hash_univ_param custom_at addr h fuel count limit v2 = Ok r.
Proof.
  intros ieee Hr Hh D1 D2 Hd Hf E Hp Ec.
  rewrite (caml_compare_spec custom_at addr h Hr fuel n1 n2 v1 v2 t1 t2 _ z) in Ec; auto; [|split; [now left | reflexivity]].
  assert (z = 0) as ->.
  { injection Ec as Ev _. now apply Val_sgn_0. }
  set (st := HS 0 (Long_val limit) (Long_val count)).
  assert (K : exists st', hash_tree custom_at t1 st = Ok st' /\ hash_tree custom_at t2 st = Ok st').
  { unfold hash_tree, hash_enter. destruct (exhausted (decr_limit st)); [eauto|].
    destruct (cmp_zero_hash custom_at Hh t1 t2 E Hp (decr_limit st)) as [<- (st' & ->)]. eauto. }
  destruct K as (st' & K1 & K2). exists (2 * Z.land (hash_accu st') 0x3FFFFFFF + 1).
  split; eapply hash_univ_tree; eauto; lia.
Qed.

(** Hashing always terminates, even on cyclic structures: whatever the graph,
    as long as its blocks can be read and its chains of forwarding blocks have
    at most [K] links, the depth of calls is bounded by the limit on the number
    of nodes, not by the graph. *)
Theorem hash_terminates {A : Arch} custom_at addr h (P : value -> Prop) fwd K fuel count limit v :
  (forall v, P v -> readable custom_at h P fwd v) -> (forall v, P v -> (fwd v <= K)%nat) -> P v ->
  (Z.to_nat (Long_val limit) * (K + 1) + 1 <= fuel)%nat ->
  exists r, caml_hash_univ_param custom_at addr h fuel count limit v = Ok r.
Proof.
  intros Hc Hk Pv Hf. unfold caml_hash_univ_param.
  destruct (proj1 (hash_aux_ends custom_at addr h P fwd Hc K Hk fuel) v (HS 0 (Long_val limit) (Long_val count)) Pv Hf) as (st' & -> & _). eauto.
Qed.

(** ** Hashing of variant tags *)

(** The 31 bits of an integer survive tagging. *)
Lemma tagged_31 {A : Arch} x : wrap 31 (Long_val (Val_int x)) = wrap 31 x /\ Val_int x = 2 * Long_val (Val_int x) + 1.
Proof.
  unfold Val_int, Val_long. rewrite Z.shiftl_mul_pow2 by lia. change (2 ^ 1) with 2. pose proof WORD_pos.
  destruct (swrap_eqm WORD x) as [q E]; [lia|]. destruct (swrap_eqm WORD (swrap WORD x * 2 + 1)) as [q' E']; [lia|].
  assert (W : exists w, 2 ^ WORD = 2 * (2 ^ 31 * w)).
  { exists (2 ^ (WORD - 32)). rewrite <- Z.pow_add_r, <- Z.pow_succ_r by lia. f_equal. lia. }
  destruct W as [w W]. rewrite E', E. unfold Long_val. rewrite Z.shiftr_div_pow2 by lia. change (2 ^ 1) with 2.
  replace ((x + q * 2 ^ WORD) * 2 + 1 + q' * 2 ^ WORD) with (1 + (x + q * 2 ^ WORD + q' * (2 ^ 31 * w)) * 2) by (rewrite W; ring).
  rewrite Z.div_add by lia. change (1 / 2) with 0. split; [|lia].
  apply (wrap_congr 31 _ _ (q * 2 * w + q' * w)). rewrite W. ring.
Qed.

Lemma wrap31_32 x : wrap 31 (swrap 32 x) = wrap 31 x.
Proof. destruct (swrap_eqm 32 x) as [q E]; [lia|]. apply (wrap_congr 31 _ _ (2 * q)). rewrite E. change (2 ^ 32) with (2 * 2 ^ 31). ring. Qed.

Lemma variant_loop {A1 A2 : Arch} tag : forall a1 a2, wrap 31 (Long_val a1) = wrap 31 (Long_val a2) ->
  a1 = 2 * Long_val a1 + 1 -> a2 = 2 * Long_val a2 + 1 ->
  let r1 := fold_left (fun accu b => @Val_int A1 (swrap 32 (223 * Int_val accu + b))) tag a1 in
  let r2 := fold_left (fun accu b => @Val_int A2 (swrap 32 (223 * Int_val accu + b))) tag a2 in
  wrap 31 (Long_val r1) = wrap 31 (Long_val r2) /\ r1 = 2 * Long_val r1 + 1 /\ r2 = 2 * Long_val r2 + 1.
Proof.
  induction tag as [|b tag IH]; intros a1 a2 H O1 O2; cbn [fold_left]; [auto|].
  set (x1 := swrap 32 (223 * Int_val a1 + b)). set (x2 := swrap 32 (223 * Int_val a2 + b)).
  destruct (@tagged_31 A1 x1) as [E1 T1], (@tagged_31 A2 x2) as [E2 T2]. apply IH; auto. rewrite E1, E2. unfold x1, x2, Int_val. rewrite !wrap31_32.
  assert (K : forall a, wrap 31 (223 * swrap 32 (Long_val a) + b) = wrap 31 (223 * wrap 31 (Long_val a) + b)).
  { intros a. rewrite <- (wrap31_32 (Long_val a)). destruct (wrap_eqm 31 (swrap 32 (Long_val a))) as [q E]; [lia|].
    apply (wrap_congr 31 _ _ (223 * q)). rewrite E at 1. ring. }
  now rewrite !K, H.
Qed.

(** The hash of a variant tag is the same on 32-bit and 64-bit machines, the
    sign included, so that polymorphic variants can be marshalled between
    them. *)
Theorem hash_variant_portable {A1 A2 : Arch} tag : @caml_hash_variant A1 tag = @caml_hash_variant A2 tag.
Proof.
  assert (Z0 : forall A : Arch, @Val_int A 0 = 1) by (intros A; unfold Val_int, Val_long; destruct (@WORD_cases A) as [-> | ->]; reflexivity).
  unfold caml_hash_variant. rewrite !Z0.
  destruct (@variant_loop A1 A2 tag 1 1 eq_refl eq_refl eq_refl) as (H & O1 & O2). cbv zeta in *.
  set (r1 := fold_left (fun accu b => @Val_int A1 _) tag 1) in *. set (r2 := fold_left (fun accu b => @Val_int A2 _) tag 1) in *.
  assert (M : forall (A : Arch) r, swrap 32 (if @ARCH_SIXTYFOUR A then Z.land r (@Val_long A 0x7FFFFFFF) else r) = swrap 32 r).
  { intros A r. destruct ARCH_SIXTYFOUR eqn:E; auto.
    replace (Val_long 0x7FFFFFFF) with (Z.ones 32) by (unfold Val_long, WORD; now rewrite E). rewrite Z.land_ones by lia. apply swrap_wrap. lia. }
  rewrite !M, O1, O2. clearbody r1 r2. clear M O1 O2. destruct (wrap_eqm 31 (Long_val r1)) as [q1 E1], (wrap_eqm 31 (Long_val r2)) as [q2 E2]; try lia.
  apply (swrap_congr 32 _ _ (q1 - q2)). rewrite E1, E2, H. change (2 ^ 32) with (2 * 2 ^ 31). ring.
Qed.

(** ** Zeros *)

(** The doubles 0.0 and -0.0. *)
Definition zeros_heap : sheap :=
  heap_of [SBlock (@Make_header arch64 1 Double_tag Caml_white) [Imm 0];
           SBlock (@Make_header arch64 1 Double_tag Caml_white) [Imm (- 2 ^ 63)]].

(** The two zeros are equal for [compare] and for [=], but their hashes are
    different: the promise of [Hashtbl.hash] does not hold for them. *)
Theorem hash_zeros_differ :
  caml_compare (A := arch64) (F := little_floats) no_custom (fun _ => 0) 2 zeros_heap (Ptr 0 0) (Ptr 1 0) 256 = (Ok (@Val_int arch64 0), 256) /\
  caml_equal (A := arch64) (F := little_floats) no_custom (fun _ => 0) 2 zeros_heap (Ptr 0 0) (Ptr 1 0) 256 = (Ok (@Val_int arch64 1), 256) /\
  @caml_hash_univ_param arch64 no_custom (fun _ => 0) zeros_heap 2 21 201 (Ptr 0 0) <>
  @caml_hash_univ_param arch64 no_custom (fun _ => 0) zeros_heap 2 21 201 (Ptr 1 0).
Proof. conj; [vm_compute; reflexivity | vm_compute; reflexivity | vm_compute; discriminate]. Qed.

(** ** Examples *)

(** The list of 1 on a 64-bit machine, and through a forced lazy value on a
    32-bit big-endian one. *)
Definition list_heap64 : sheap := heap_of [SBlock (@Make_header arch64 2 0 Caml_white) [Imm 3; Imm 1]].
Definition list_heap32 : sheap :=
  heap_of [SBlock (@Make_header arch32 1 Forward_tag Caml_white) [Ptr 1 0];
           SBlock (@Make_header arch32 2 0 Caml_white) [Imm 3; Imm 1]].

Lemma list_pair {A : Arch} {F : FloatArch} h v hd : block_tag h v 0 -> hd_of h v = Ok hd -> Wosize_hd hd = 2 -> fld h v 0 = Ok (Imm 3) -> fld h v 1 = Ok (Imm 1) ->
  denotes h 3 v (TBlock 0 [TLong 1; TLong 0]).
Proof.
  intros B Eh Hw E0 E1. pose proof half_pos. assert (3 < 2 ^ (WORD - 1)) by (destruct WORD_cases as [-> | ->]; reflexivity).
  apply (den_block _ 2 _ hd); auto; [unfold Closure_tag; lia | lia|].
  apply (df_cons _ 1 1 _ _ (Imm 3)); auto; [apply (den_long _ 3); [reflexivity | unfold sint; lia]|].
  apply (df_cons _ 1 0 _ _ (Imm 1)); auto; [apply (den_long _ 1); [reflexivity | unfold sint; lia] | constructor].
Qed.

Lemma hash_portable_witness :
  exists r, @caml_hash_univ_param arch64 no_custom (fun _ => 0) list_heap64 10 21 201 (Ptr 0 0) = Ok r /\
            @caml_hash_univ_param big32 no_custom (fun _ => 0) list_heap32 10 21 201 (Ptr 0 0) = Ok r.
Proof.
  apply (hash_portable (A1 := arch64) (F1 := little_floats) (A2 := big32) (F2 := big_floats) no_custom (fun _ => 0) (fun _ => 0)
    list_heap64 list_heap32 10 21 201 3 4 (Ptr 0 0) (Ptr 0 0) (TBlock 0 [TLong 1; TLong 0]) (HS 1 97 7)).
  - reflexivity.
  - reflexivity.
  - apply (list_pair _ _ (@Make_header arch64 2 0 Caml_white)); try reflexivity. eexists _, _, _. split; [reflexivity|]. split; reflexivity.
  - apply (den_forward _ 3 _ (Ptr 1 0)); [eexists _, _, _; split; [reflexivity|]; split; reflexivity | reflexivity |].
    apply (list_pair _ _ (@Make_header arch32 2 0 Caml_white)); try reflexivity. eexists _, _, _. split; [reflexivity|]. split; reflexivity.
  - lia.
  - lia.
  - vm_compute. reflexivity.
Defined.

Lemma nativeint_hash_law : custom_hash_law nativeint_at.
Proof.
  intros o ops c hash d1 d2 u. unfold nativeint_at. destruct (o =? 4096); [|discriminate]. intros [= <-] [= <-] [= <-].
  destruct d1 as [|[] []]; try discriminate; destruct d2 as [|[] []]; try discriminate. intros [= E _]. exists w. split; auto. f_equal.
  destruct (Z.ltb_spec w0 w), (Z.ltb_spec w w0); cbn in E; lia.
Qed.

Lemma compare_equal_hash_equal_witness :
  exists r, @caml_hash_univ_param arch64 nativeint_at (fun _ => 0) pairs_heap 10 21 201 (Ptr 3 0) = Ok r /\
            @caml_hash_univ_param arch64 nativeint_at (fun _ => 0) pairs_heap 10 21 201 (Ptr 4 0) = Ok r.
Proof.
  assert (D : @denotes arch64 little_floats pairs_heap 1 (Ptr 3 0) (TCustom 4096 [Imm 7])).
  { apply den_custom; [eexists _, _, _; split; [reflexivity|]; split; vm_compute; reflexivity | reflexivity | reflexivity]. }
  apply (compare_equal_hash_equal (A := arch64) (F := little_floats) nativeint_at (fun _ => 0) pairs_heap 10 21 201 1 2 (Ptr 3 0) (Ptr 4 0)
    (TCustom 4096 [Imm 7]) (TCustom 4096 [Imm 7]) 0 256).
  - reflexivity.
  - apply (custom_refl nativeint_at).
  - apply nativeint_hash_law.
  - exact D.
  - apply (den_forward _ 1 _ (Ptr 3 0)); [eexists _, _, _; split; [reflexivity|]; split; vm_compute; reflexivity | reflexivity | exact D].
  - vm_compute. discriminate.
  - lia.
  - vm_compute. reflexivity.
  - exact I.
  - vm_compute. reflexivity.
Defined.

(** A pair that contains itself. *)
Definition loop_heap : sheap := heap_of [SBlock (@Make_header arch64 2 0 Caml_white) [Ptr 0 0; Imm 85]].

Lemma hash_terminates_witness : exists r, @caml_hash_univ_param arch64 no_custom (fun _ => 0) loop_heap 101 21 201 (Ptr 0 0) = Ok r.
Proof.
  apply (hash_terminates (A := arch64) no_custom (fun _ => 0) loop_heap (fun v => v = Ptr 0 0 \/ v = Imm 85) (fun _ => 0%nat) 0).
  - intros v [-> | ->]; [|exact I]. exists (@Make_header arch64 2 0 Caml_white). split; [reflexivity|]. vm_compute Tag_hd. cbv beta iota zeta.
    change (Wosize_hd (Make_header 2 0 Caml_white)) with 2. intros i Hi. assert (i = 0 \/ i = 1) as [-> | ->] by lia; eexists; split; try reflexivity; auto.
  - auto.
  - now left.
  - vm_compute. lia.
Defined.
