(* ===== verification/StrMatch.v ===== *)
(** StrMatch: the matcher of the library Str, src/inline-more/otherlibs/str/
    strstubs.c: a backtracking interpreter of compiled regular expressions,
    searching and replacement.

    Positions in the text are numbers, 0 being [starttxt]; a null pointer is
    [None].  A text is followed by a null byte, as OCaml strings are. *)
From Stdlib Require Import ZArith Lia Bool Ascii String List.
From S2P Require Import Prelude Mlvalues InterpState ExternOutput.
Import ListNotations.
Local Open Scope Z_scope.

(** ** Compiled regular expressions *)

Record regexp := Regexp {
  Prog : list Z; Cpool : list (list Z); Normtable : list Z; Numgroups : Z; Numregisters : Z; Startchars : Z }.

Definition CHAR : Z := 0.
Definition CHARNORM : Z := 1.
Definition STRING : Z := 2.
Definition STRINGNORM : Z := 3.
Definition CHARCLASS : Z := 4.
Definition BOL : Z := 5.
Definition EOL : Z := 6.
Definition WORDBOUNDARY : Z := 7.
Definition BEGGROUP : Z := 8.
Definition ENDGROUP : Z := 9.
Definition REFGROUP : Z := 10.
Definition ACCEPT : Z := 11.
Definition SIMPLEOPT : Z := 12.
Definition SIMPLESTAR : Z := 13.
Definition SIMPLEPLUS : Z := 14.
Definition GOTO : Z := 15.
Definition PUSHBACK : Z := 16.
Definition SETMARK : Z := 17.
Definition CHECKPROGRESS : Z := 18.

Definition Opcode (x : Z) : Z := Z.land x 0xFF.
Definition Arg {A : Arch} (x : Z) : Z := Z.shiftr (wrap WORD x) 8.
Definition SignedArg (x : Z) : Z := Z.shiftr x 8.

(** Bytes of a C string, of a text and of the constants. *)
Definition byte_of (s : list Z) (i : Z) : res Z := of_option (nthZ (s ++ [0]) i).
Definition constant (re : regexp) (i : Z) : res (list Z) := of_option (nthZ (Cpool re) i).
Fixpoint c_string (s : list Z) : list Z :=
  match s with [] => [] | c :: s => if c =? 0 then [] else c :: c_string s end.

Definition In_bitset (s : list Z) (i : Z) : res bool :=
  let! b := byte_of s (Z.shiftr i 3) in Ok (negb (Z.land (Z.shiftr b (Z.land i 7)) 1 =? 0)).

Definition re_word_letters : list Z :=
  [0x00; 0x00; 0x00; 0x00; 0x00; 0x00; 0xFF; 0x03; 0xFE; 0xFF; 0xFF; 0x87; 0xFE; 0xFF; 0xFF; 0x07;
   0x00; 0x00; 0x00; 0x00; 0x00; 0x00; 0x00; 0x00; 0xFF; 0xFF; 0x7F; 0xFF; 0xFF; 0xFF; 0x7F; 0xFF].
Definition Is_word_letter (c : Z) : res bool := In_bitset re_word_letters c.

(** ** State *)

Definition NUM_GROUPS : Z := 32.
Definition NUM_REGISTERS : Z := 64.
Definition BACKTRACK_STACK_BLOCK_SIZE : Z := 500.

(** The arrays [re_group] and [re_register]. *)
Record vars := Vars { starts : list (option Z); ends : list (option Z); registers : list (option Z) }.

(** The address of one of their cells. *)
Inductive loc := LStart (n : Z) | LEnd (n : Z) | LReg (n : Z).
Definition get_loc (l : loc) (v : vars) : res (option Z) :=
  of_option (match l with LStart n => nthZ (starts v) n | LEnd n => nthZ (ends v) n | LReg n => nthZ (registers v) n end).
Definition set_loc (l : loc) (x : option Z) (v : vars) : res vars :=
  match l with
  | LStart n => let! s := of_option (updZ (starts v) n x) in Ok (Vars s (ends v) (registers v))
  | LEnd n => let! s := of_option (updZ (ends v) n x) in Ok (Vars (starts v) s (registers v))
  | LReg n => let! s := of_option (updZ (registers v) n x) in Ok (Vars (starts v) (ends v) s)
  end.

Inductive backtrack_point := Pos (pc txt : Z) | Undo (l : loc) (val : option Z).

(** [point] are the points of the current block below [sp], the last one first. *)
Record backtrack_stack := Stack { point : list backtrack_point; previous : list (list backtrack_point) }.

Definition push (b : backtrack_point) (s : backtrack_stack) : backtrack_stack :=
  if Z.of_nat (length (point s)) =? BACKTRACK_STACK_BLOCK_SIZE then Stack [b] (point s :: previous s)
  else Stack (b :: point s) (previous s).
(** The point below [sp], in the previous block when the current one is empty. *)
Definition pop (s : backtrack_stack) : option (backtrack_point * backtrack_stack) :=
  match point s with
  | b :: p => Some (b, Stack p (previous s))
  | [] => match previous s with (b :: p) :: l => Some (b, Stack p l) | _ => None end
  end.

(** What one instruction does. *)
Inductive outcome :=
  | Go (pc txt : Z)
  | Pushes (b : backtrack_point) (pc txt : Z) (v : vars)
  | Prefix_match (txt : Z)
  | Backtrack
  | Accept (txt : Z).

Section Match.
Context {A : Arch}.
Variable re : regexp.
Variable text : list Z.
Notation endtxt := (len text).

(** ** Instructions *)

(** The position after the bytes [s], compared with the text through [norm]. *)
Fixpoint match_bytes (norm : Z -> res Z) (s : list Z) (txt : Z) (k : Z -> outcome) : res outcome :=
  match s with
  | [] => Ok (k txt)
  | c :: s =>
      if txt =? endtxt then Ok (Prefix_match txt)
      else
        let! b := byte_of text txt in
        let! b := norm b in
        if negb (c =? b) then Ok Backtrack else match_bytes norm s (txt + 1) k
  end.
Definition normalize (b : Z) : res Z := byte_of (Normtable re) b.

Definition in_class (set : list Z) (txt : Z) : res bool :=
  let! b := byte_of text txt in In_bitset set b.
(** [while (txt < endtxt && In_bitset(set, *txt, c)) txt++], [n] being the number
    of bytes left. *)
Fixpoint skip_class (set : list Z) (n : nat) (txt : Z) : res Z :=
  match n with
  | O => Ok txt
  | S n => let! b := in_class set txt in if (b : bool) then skip_class set n (txt + 1) else Ok txt
  end.
Definition class_star (set : list Z) (txt : Z) : res Z := skip_class set (Z.to_nat (endtxt - txt)) txt.

Definition opt_eqb (x : option Z) (y : Z) : bool := match x with Some x => x =? y | None => false end.

(** The bytes from [s] to [e]. *)
Definition substring (s e : Z) : list Z := firstn (Z.to_nat (e - s)) (skipn (Z.to_nat s) text).

(** [pc] is already past the instruction. *)
Definition save_and_set (l : loc) (pc txt : Z) (v : vars) : res outcome :=
  let! old := get_loc l v in
  let! v := set_loc l (Some txt) v in
  Ok (Pushes (Undo l old) pc txt v).

Definition exec_WORDBOUNDARY (pc txt : Z) : res outcome :=
  if txt =? 0 then
    if txt =? endtxt then Ok (Prefix_match txt)
    else
      let! c := byte_of text txt in
      let! w := Is_word_letter c in Ok (if (w : bool) then Go pc txt else Backtrack)
  else if txt =? endtxt then
    let! c := byte_of text (txt - 1) in
    let! w := Is_word_letter c in Ok (if (w : bool) then Go pc txt else Backtrack)
  else
    let! c1 := byte_of text (txt - 1) in
    let! c2 := byte_of text txt in
    let! w1 := Is_word_letter c1 in
    let! w2 := Is_word_letter c2 in
    Ok (if negb (Bool.eqb w1 w2) then Go pc txt else Backtrack).

Definition exec_instr (instr pc txt : Z) (v : vars) : res outcome :=
  let op := Opcode instr in
  if op =? CHAR then
    if txt =? endtxt then Ok (Prefix_match txt)
    else let! b := byte_of text txt in Ok (if negb (b =? Arg instr) then Backtrack else Go pc (txt + 1))
  else if op =? CHARNORM then
    if txt =? endtxt then Ok (Prefix_match txt)
    else
      let! b := byte_of text txt in
      let! b := normalize b in Ok (if negb (b =? Arg instr) then Backtrack else Go pc (txt + 1))
  else if op =? STRING then
    let! s := constant re (Arg instr) in match_bytes (@Ok Z) (c_string s) txt (Go pc)
  else if op =? STRINGNORM then
    let! s := constant re (Arg instr) in match_bytes normalize (c_string s) txt (Go pc)
  else if op =? CHARCLASS then
    if txt =? endtxt then Ok (Prefix_match txt)
    else
      let! set := constant re (Arg instr) in
      let! b := in_class set txt in Ok (if negb b then Backtrack else Go pc (txt + 1))
  else if op =? BOL then
    if 0 <? txt then let! b := byte_of text (txt - 1) in Ok (if negb (b =? 10) then Backtrack else Go pc txt)
    else Ok (Go pc txt)
  else if op =? EOL then
    if txt <? endtxt then let! b := byte_of text txt in Ok (if negb (b =? 10) then Backtrack else Go pc txt)
    else Ok (Go pc txt)
  else if op =? WORDBOUNDARY then exec_WORDBOUNDARY pc txt
  else if op =? BEGGROUP then save_and_set (LStart (Arg instr)) pc txt v
  else if op =? ENDGROUP then save_and_set (LEnd (Arg instr)) pc txt v
  else if op =? REFGROUP then
    let! s := get_loc (LStart (Arg instr)) v in
    let! e := get_loc (LEnd (Arg instr)) v in
    match s, e with
    | Some s, Some e => match_bytes (@Ok Z) (substring s e) txt (Go pc)
    | _, _ => Ok Backtrack
    end
  else if op =? ACCEPT then Ok (Accept txt)
  else if op =? SIMPLEOPT then
    let! set := constant re (Arg instr) in
    if txt <? endtxt then let! b := in_class set txt in Ok (Go pc (if (b : bool) then txt + 1 else txt)) else Ok (Go pc txt)
  else if op =? SIMPLESTAR then
    let! set := constant re (Arg instr) in
    let! txt := class_star set txt in Ok (Go pc txt)
  else if op =? SIMPLEPLUS then
    let! set := constant re (Arg instr) in
    if txt =? endtxt then Ok (Prefix_match txt)
    else
      let! b := in_class set txt in
      if negb b then Ok Backtrack else let! txt := class_star set (txt + 1) in Ok (Go pc txt)
  else if op =? GOTO then Ok (Go (pc + SignedArg instr) txt)
  else if op =? PUSHBACK then Ok (Pushes (Pos (pc + SignedArg instr) txt) pc txt v)
  else if op =? SETMARK then save_and_set (LReg (Arg instr)) pc txt v
  else if op =? CHECKPROGRESS then
    let! r := get_loc (LReg (Arg instr)) v in Ok (if opt_eqb r txt then Backtrack else Go pc txt)
  else Stuck.

Definition fetch (pc : Z) : res Z := of_option (nthZ (Prog re) pc).

(** ** The interpreter *)

(** The [backtrack] loop: the position to resume from, or [None] when the stack
    is empty, which is the failure of the match; [fuel] bounds the number of
    points. *)
Fixpoint backtrack (fuel : nat) (s : backtrack_stack) (v : vars) : res (option (Z * Z * backtrack_stack) * vars) :=
  match fuel with
  | O => Stuck
  | S fuel =>
      match pop s with
      | None => Ok (None, v)
      | Some (Pos pc txt, s) => Ok (Some (pc, txt, s), v)
      | Some (Undo l x, s) => let! v := set_loc l x v in backtrack fuel s v
      end
  end.
Definition stack_size (s : backtrack_stack) : nat := (length (point s) + length (concat (previous s)))%nat.

Definition set_end0 (txt : Z) (v : vars) : res vars := set_loc (LEnd 0) (Some txt) v.

(** [fuel] bounds the number of instructions. *)
Fixpoint match_loop (fuel : nat) (accept_partial_match : bool) (pc txt : Z) (v : vars) (s : backtrack_stack) : res (bool * vars) :=
  match fuel with
  | O => Stuck
  | S fuel =>
      let resume :=
        (let! (r, v) := backtrack (S (stack_size s)) s v in
         match r with
         | None => Ok (false, v)
         | Some (pc, txt, s) => match_loop fuel accept_partial_match pc txt v s
         end) in
      let accept txt := (let! v := set_end0 txt v in Ok (true, v)) in
      let! instr := fetch pc in
      let! o := exec_instr instr (pc + 1) txt v in
      match o with
      | Go pc txt => match_loop fuel accept_partial_match pc txt v s
      | Pushes b pc txt v => match_loop fuel accept_partial_match pc txt v (push b s)
      | Prefix_match txt => if accept_partial_match then accept txt else resume
      | Backtrack => resume
      | Accept txt => accept txt
      end
  end.

(** The initialisation of groups and registers. *)
Fixpoint clear (n : nat) (i : Z) (mk : Z -> list loc) (v : vars) : res vars :=
  match n with
  | O => Ok v
  | S n =>
      let! v := fold_left (fun r l => let! v := r in set_loc l None v) (mk i) (Ok v) in
      clear n (i + 1) mk v
  end.
Definition init_vars (txt : Z) (v : vars) : res vars :=
  let! v := clear (Z.to_nat (Numgroups re - 1)) 1 (fun i => [LEnd i; LStart i]) v in
  let! v := clear (Z.to_nat (Numregisters re)) 0 (fun i => [LReg i]) v in
  set_loc (LStart 0) (Some txt) v.

Definition re_match (fuel : nat) (txt : Z) (accept_partial_match : bool) (v : vars) : res (bool * vars) :=
  let! v := init_vars txt v in
  match_loop fuel accept_partial_match 0 txt v (Stack [] []).

(** ** Groups *)

(** The positions, -1 when the group was not matched. *)
Fixpoint alloc_groups (n : nat) (i : Z) (v : vars) : res (list Z) :=
  match n with
  | O => Ok []
  | S n =>
      let! s := get_loc (LStart i) v in
      let! e := get_loc (LEnd i) v in
      let! l := alloc_groups n (i + 1) v in
      Ok (match s, e with Some s, Some e => s :: e :: l | _, _ => -1 :: -1 :: l end)
  end.
Definition re_alloc_groups (v : vars) : res (list Z) := alloc_groups (Z.to_nat (Numgroups re)) 0 v.

(** ** Matching and searching.  The empty array is the failure. *)

Definition match_at (msg : string) (partial : bool) (fuel : nat) (pos : Z) (v : vars) : res (list Z * vars) :=
  if (pos <? 0) || (endtxt <? pos) then Raise (Invalid_argument msg)
  else
    let! (b, v) := re_match fuel pos partial v in
    if (b : bool) then let! g := re_alloc_groups v in Ok (g, v) else Ok ([], v).
Definition re_string_match := match_at "Str.string_match" false.
Definition re_partial_match := match_at "Str.string_partial_match" true.

(** [startchars[*txt] == 0] *)
Definition no_start (chars : option (list Z)) (txt : Z) : res bool :=
  match chars with
  | None => Ok false
  | Some chars => let! c := byte_of text txt in let! b := byte_of chars c in Ok (b =? 0)
  end.
Definition start_table : res (option (list Z)) :=
  if Startchars re =? -1 then Ok None else let! s := constant re (Startchars re) in Ok (Some s).

(** One turn of the [do] loop of [re_search_forward] for each position up to the
    end of the text, and the inner loop that skips positions. *)
Fixpoint skip_forward (n : nat) (chars : option (list Z)) (txt : Z) : res Z :=
  match n with
  | O => Ok txt
  | S n => let! b := no_start chars txt in if (b : bool) then skip_forward n chars (txt + 1) else Ok txt
  end.
Fixpoint forward_loop (turns fuel : nat) (chars : option (list Z)) (txt : Z) (v : vars) : res (list Z * vars) :=
  match turns with
  | O => Stuck
  | S turns =>
      let! txt := skip_forward (Z.to_nat (endtxt - txt)) chars txt in
      let! (b, v) := re_match fuel txt false v in
      if (b : bool) then let! g := re_alloc_groups v in Ok (g, v)
      else if txt + 1 <=? endtxt then forward_loop turns fuel chars (txt + 1) v else Ok ([], v)
  end.
Definition re_search_forward (fuel : nat) (startpos : Z) (v : vars) : res (list Z * vars) :=
  if (startpos <? 0) || (endtxt <? startpos) then Raise (Invalid_argument "Str.search_forward")
  else let! chars := start_table in forward_loop (S (length text)) fuel chars startpos v.

Fixpoint skip_backward (n : nat) (chars : option (list Z)) (txt : Z) : res Z :=
  match n with
  | O => Ok txt
  | S n => let! b := no_start chars txt in if (b : bool) then skip_backward n chars (txt - 1) else Ok txt
  end.
Fixpoint backward_loop (turns fuel : nat) (chars : option (list Z)) (txt : Z) (v : vars) : res (list Z * vars) :=
  match turns with
  | O => Stuck
  | S turns =>
      let! txt := skip_backward (Z.to_nat txt) chars txt in
      let! (b, v) := re_match fuel txt false v in
      if (b : bool) then let! g := re_alloc_groups v in Ok (g, v)
      else if 0 <=? txt - 1 then backward_loop turns fuel chars (txt - 1) v else Ok ([], v)
  end.
Definition re_search_backward (fuel : nat) (startpos : Z) (v : vars) : res (list Z * vars) :=
  if (startpos <? 0) || (endtxt <? startpos) then Raise (Invalid_argument "Str.search_backward")
  else let! chars := start_table in backward_loop (S (length text)) fuel chars startpos v.
End Match.
