(* ===== verification/StrProof.v ===== *)
(** StrProof: the matcher of strstubs.c, which updates its variables in place and
    undoes the updates when it backtracks, implements a matcher that explores
    the alternatives with their own copy of the variables. *)
From Stdlib Require Import ZArith Lia Bool Ascii String List Morphisms.
From S2P Require Import Prelude Mlvalues InterpState ExternOutput MarshalBytes StrMatch.
Import ListNotations.
Local Open Scope Z_scope.

(** ** The chained blocks are a stack *)

Definition flat (s : backtrack_stack) : list backtrack_point := point s ++ concat (previous s).
Definition full (l : list backtrack_point) : Prop := Z.of_nat (length l) = BACKTRACK_STACK_BLOCK_SIZE.
Definition stack_ok (s : backtrack_stack) : Prop := Forall full (previous s).

(** Stacks with the same points; an empty block on top of a full one is the full
    one. *)
Definition same_stack (s1 s2 : backtrack_stack) : Prop := flat s1 = flat s2 /\ stack_ok s1 /\ stack_ok s2.

Lemma flat_push b s : flat (push b s) = b :: flat s.
Proof. unfold push, flat. destruct (_ =? _); reflexivity. Qed.

Lemma push_stack_ok b s : stack_ok s -> stack_ok (push b s).
Proof. unfold push, stack_ok. intros H. destruct (Z.eqb_spec (Z.of_nat (length (point s))) BACKTRACK_STACK_BLOCK_SIZE); cbn; auto. Qed.

Lemma pop_spec s : stack_ok s ->
  match flat s with
  | [] => pop s = None
  | b :: l => exists s', pop s = Some (b, s') /\ flat s' = l /\ stack_ok s'
  end.
Proof.
  unfold stack_ok, flat, pop. destruct s as [[|b p] prev]; cbn [point previous app]; intros H; [|eauto].
  destruct prev as [|[|b p] l]; cbn [concat app]; auto; inversion_clear H as [|? ? Hf Hl]; [discriminate Hf | eauto].
Qed.

Lemma push_same b s1 s2 : same_stack s1 s2 -> same_stack (push b s1) (push b s2).
Proof. intros (E & H1 & H2). repeat split; [now rewrite !flat_push, E | now apply push_stack_ok ..]. Qed.

Lemma stack_size_flat s : stack_size s = length (flat s).
Proof. unfold stack_size, flat. now rewrite length_app. Qed.

(** ** Undoing an assignment *)

Lemma nthZ_split {T} (l : list T) n x : nthZ l n = Some x -> exists a b, l = a ++ x :: b /\ n = Z.of_nat (length a).
Proof.
  unfold nthZ. destruct (Z.ltb_spec n 0); [discriminate|]. intros E.
  apply nth_error_split in E as (a & b & -> & E). exists a, b. split; auto. lia.
Qed.

Lemma updZ_middle {T} (a b : list T) x y : updZ (a ++ x :: b) (Z.of_nat (length a)) y = Some (a ++ y :: b).
Proof.
  unfold updZ. replace (_ && _) with true by (symmetry; apply andb_true_intro; rewrite length_app; cbn [length]; split; [apply Z.leb_le | apply Z.ltb_lt]; lia).

  rewrite Nat2Z.id, firstn_app, firstn_all, Nat.sub_diag, firstn_O, app_nil_r.
  replace (S (length a)) with (length (a ++ [x])) by (rewrite length_app; cbn; lia).
  change (x :: b) with ([x] ++ b). rewrite app_assoc, skipn_app, skipn_all, Nat.sub_diag. reflexivity.
Qed.

Lemma updZ_restore {T} (l l' : list T) n x old : nthZ l n = Some old -> updZ l n x = Some l' -> updZ l' n old = Some l.
Proof.
  intros H. apply nthZ_split in H as (a & b & -> & ->). rewrite updZ_middle. intros E. injection E as <-. apply updZ_middle.
Qed.

Lemma set_loc_restore l old x v v' : get_loc l v = Ok old -> set_loc l x v = Ok v' -> set_loc l old v' = Ok v.
Proof.
  unfold get_loc, set_loc. intros H1 H2.
  destruct l as [n|n|n]; (destruct (nthZ _ n) as [o|] eqn:E1 in H1; [|discriminate]; injection H1 as <-;
    destruct (updZ _ n x) as [l'|] eqn:E2 in H2; [|discriminate]; injection H2 as <-; cbn [starts ends registers];
    rewrite (updZ_restore _ _ _ _ _ E1 E2); destruct v; reflexivity).
Qed.

Section Refinement.
Context {A : Arch}.
Variable re : regexp.
Variable text : list Z.
Variable partial : bool.

Notation exec := (exec_instr re text).
Notation fetch := (fetch re).
Notation loop := (match_loop re text).

(** ** The specification

    [run pc txt v r]: exploration from [pc] and [txt] with variables [v] accepts
    with the position and the variables of [r], or fails.  An alternative is
    explored with the variables of the branching point. *)
Inductive run : Z -> Z -> vars -> option (Z * vars) -> Prop :=
  | run_go pc txt v i pc' txt' r : fetch pc = Ok i -> exec i (pc + 1) txt v = Ok (Go pc' txt') ->
      run pc' txt' v r -> run pc txt v r
  | run_set pc txt v i l x pc' txt' v' r : fetch pc = Ok i -> exec i (pc + 1) txt v = Ok (Pushes (Undo l x) pc' txt' v') ->
      run pc' txt' v' r -> run pc txt v r
  | run_first pc txt v i pc2 txt2 pc' txt' v' x : fetch pc = Ok i -> exec i (pc + 1) txt v = Ok (Pushes (Pos pc2 txt2) pc' txt' v') ->
      run pc' txt' v' (Some x) -> run pc txt v (Some x)
  | run_second pc txt v i pc2 txt2 pc' txt' v' r : fetch pc = Ok i -> exec i (pc + 1) txt v = Ok (Pushes (Pos pc2 txt2) pc' txt' v') ->
      run pc' txt' v' None -> run pc2 txt2 v r -> run pc txt v r
  | run_fail pc txt v i : fetch pc = Ok i -> exec i (pc + 1) txt v = Ok Backtrack -> run pc txt v None
  | run_prefix pc txt v i t : fetch pc = Ok i -> exec i (pc + 1) txt v = Ok (Prefix_match t) ->
      run pc txt v (if partial then Some (t, v) else None)
  | run_accept pc txt v i t : fetch pc = Ok i -> exec i (pc + 1) txt v = Ok (Accept t) -> run pc txt v (Some (t, v)).

(** What [match_loop] does after a failure. *)
Definition resume (fuel : nat) (v : vars) (s : backtrack_stack) : res (bool * vars) :=
  let! (r, v) := backtrack (S (stack_size s)) s v in
  match r with None => Ok (false, v) | Some (pc, txt, s) => loop fuel partial pc txt v s end.
Definition accept (t : Z) (v : vars) : res (bool * vars) := let! v := set_end0 t v in Ok (true, v).

Lemma loop_S fuel pc txt v s : loop (S fuel) partial pc txt v s =
  (let! i := fetch pc in
   let! o := exec i (pc + 1) txt v in
   match o with
   | Go pc txt => loop fuel partial pc txt v s
   | Pushes b pc txt v => loop fuel partial pc txt v (push b s)
   | Prefix_match t => if partial then accept t v else resume fuel v s
   | Backtrack => resume fuel v s
   | Accept t => accept t v
   end).
Proof. reflexivity. Qed.

(** ** Equal stacks behave the same *)

Lemma backtrack_same fuel : forall s1 s2 v, same_stack s1 s2 ->
  match backtrack fuel s1 v, backtrack fuel s2 v with
  | Ok (Some (pc1, t1, s1'), v1), Ok (Some (pc2, t2, s2'), v2) => pc1 = pc2 /\ t1 = t2 /\ v1 = v2 /\ same_stack s1' s2'
  | r1, r2 => r1 = r2
  end.
Proof.
  induction fuel as [|fuel IH]; intros s1 s2 v (E & H1 & H2); cbn [backtrack]; auto.
  pose proof (pop_spec s1 H1) as P1. pose proof (pop_spec s2 H2) as P2. rewrite <- E in P2.
  destruct (flat s1) as [|b l]; [now rewrite P1, P2|]. destruct P1 as (s1' & -> & F1 & O1), P2 as (s2' & -> & F2 & O2).
  assert (S' : same_stack s1' s2') by (repeat split; congruence || auto).
  destruct b as [pc t|lc x]; [auto|]. destruct (set_loc lc x v) as [v'| |]; auto. now apply IH.
Qed.

Lemma loop_same fuel : forall pc txt v s1 s2, same_stack s1 s2 -> loop fuel partial pc txt v s1 = loop fuel partial pc txt v s2.
Proof.
  induction fuel as [|fuel IH]; intros pc txt v s1 s2 H; [reflexivity|]. rewrite !loop_S.
  assert (R : resume fuel v s1 = resume fuel v s2).
  { unfold resume. rewrite !stack_size_flat, (proj1 H). pose proof (backtrack_same (S (length (flat s2))) s1 s2 v H) as B.
    destruct (backtrack _ s1 v) as [[[[[pc1 t1] s1']|] v1]| |]; destruct (backtrack _ s2 v) as [[[[[pc2 t2] s2']|] v2]| |]; try discriminate B; auto.
    - destruct B as (-> & -> & -> & B). now apply IH.
    - now injection B as ->.
    - now injection B as ->. }
  destruct (fetch pc) as [i| |]; auto. destruct (exec i (pc + 1) txt v) as [o| |]; auto.
  destruct o; auto; [|destruct partial; auto]. apply IH. now apply push_same.
Qed.

#[export] Instance loop_proper fuel pc txt v : Proper (same_stack ==> eq) (loop fuel partial pc txt v).
Proof. intros s1 s2. apply loop_same. Qed.

Lemma resume_undo fuel l old v v' s : stack_ok s -> set_loc l old v' = Ok v -> resume fuel v' (push (Undo l old) s) = resume fuel v s.
Proof.
  intros Hs H. unfold resume. rewrite !stack_size_flat, flat_push. cbn [length]. set (n := length (flat s)). cbn [backtrack].
  pose proof (pop_spec _ (push_stack_ok (Undo l old) s Hs)) as P. rewrite flat_push in P. destruct P as (s' & -> & F & O). rewrite H.
  pose proof (backtrack_same (S n) s' s v (conj F (conj O Hs))) as B.
  change (match pop s' with None => Ok (None, v) | Some (Pos pc txt, s0) => Ok (Some (pc, txt, s0), v)
    | Some (Undo l0 x, s0) => let! v0 := set_loc l0 x v in backtrack n s0 v0 end) with (backtrack (S n) s' v).
  change (match pop s with None => Ok (None, v) | Some (Pos pc txt, s0) => Ok (Some (pc, txt, s0), v)
    | Some (Undo l0 x, s0) => let! v0 := set_loc l0 x v in backtrack n s0 v0 end) with (backtrack (S n) s v).
  destruct (backtrack (S n) s' v) as [[[[[pc1 t1] s1']|] v1]| |]; destruct (backtrack (S n) s v) as [[[[[pc2 t2] s2']|] v2]| |]; try discriminate B; auto.
  - destruct B as (-> & -> & -> & B). now apply loop_same.
  - now injection B as ->.
  - now injection B as ->.
Qed.

Lemma resume_pos fuel pc txt v s : stack_ok s -> resume fuel v (push (Pos pc txt) s) = loop fuel partial pc txt v s.
Proof.
  intros Hs. unfold resume. cbn [backtrack].
  pose proof (pop_spec _ (push_stack_ok (Pos pc txt) s Hs)) as P. rewrite flat_push in P. destruct P as (s' & -> & F & O).
  apply loop_same. repeat split; auto.
Qed.

(** ** What an instruction pushes *)

Lemma save_and_set_pushes l pc txt v o : save_and_set l pc txt v = Ok o ->
  exists old v', o = Pushes (Undo l old) pc txt v' /\ set_loc l old v' = Ok v.
Proof.
  unfold save_and_set. intros H. destruct (get_loc l v) as [old| |] eqn:G; try discriminate. cbn in H.
  destruct (set_loc l (Some txt) v) as [v'| |] eqn:S'; try discriminate. injection H as <-.
  exists old, v'. split; [reflexivity | exact (set_loc_restore _ _ _ _ _ G S')].
Qed.

Lemma match_bytes_no_push norm s : forall t k b pc txt v, (forall t', exists pc, k t' = Go pc t') ->
  match_bytes text norm s t k <> Ok (Pushes b pc txt v).
Proof.
  induction s as [|c s IH]; intros t k b pc txt v K; cbn [match_bytes].
  - destruct (K t) as [pc' ->]. discriminate.
  - destruct (t =? _); [discriminate|]. destruct (byte_of text t) as [x| |]; try discriminate. cbn beta iota.
    destruct (norm x) as [y| |]; try discriminate. cbn beta iota. destruct (negb _); [discriminate | now apply IH].
Qed.

(** The saved point restores the variables of before. *)
Definition restores (b : backtrack_point) (v' v : vars) : Prop :=
  match b with Pos _ _ => v' = v | Undo l x => set_loc l x v' = Ok v end.

Ltac no_push := first
  [ discriminate
  | match goal with
    | H : save_and_set _ _ _ _ = Ok _ |- _ => apply save_and_set_pushes in H as (? & ? & H & ?); injection H as -> -> -> ->; assumption
    | H : match_bytes _ _ _ _ _ = Ok (Pushes _ _ _ _) |- _ => exfalso; revert H; apply match_bytes_no_push; eauto
    | H : match ?c with _ => _ end = Ok _ |- _ => destruct c; no_push
    | H : Ok (if ?c then _ else _) = Ok _ |- _ => destruct c; no_push
    end ].

Lemma exec_restores i pc txt v b pc' txt' v' : exec i pc txt v = Ok (Pushes b pc' txt' v') -> restores b v' v.
Proof.
  unfold exec_instr, exec_WORDBOUNDARY. intros H.
  repeat (match type of H with (if ?c then _ else _) = _ => destruct c; [try (no_push; fail) |] end); try no_push.
  all: injection H as <- _ _ <-; reflexivity.
Qed.

(** ** Soundness and completeness of the interpreter *)

Lemma run_loop pc txt v r : run pc txt v r -> forall s, stack_ok s ->
  exists n, forall fuel, loop (n + fuel) partial pc txt v s =
    match r with Some (t, v') => accept t v' | None => resume fuel v s end.
Proof.
  induction 1 as [pc txt v i pc' txt' r F X _ IH|pc txt v i l x pc' txt' v' r F X _ IH
    |pc txt v i pc2 txt2 pc' txt' v' [t u] F X _ IH|pc txt v i pc2 txt2 pc' txt' v' r F X _ IH1 _ IH2
    |pc txt v i F X|pc txt v i t F X|pc txt v i t F X]; intros s Hs.
  - destruct (IH s Hs) as [n E]. exists (S n). intros fuel. cbn [Nat.add]. rewrite loop_S, F, X. apply E.
  - destruct (IH _ (push_stack_ok (Undo l x) s Hs)) as [n E]. exists (S n). intros fuel. cbn [Nat.add]. rewrite loop_S, F, X.
    cbn beta iota. rewrite E. destruct r as [[t u]|]; [reflexivity|]. apply resume_undo; auto. exact (exec_restores _ _ _ _ _ _ _ _ X).
  - destruct (IH _ (push_stack_ok (Pos pc2 txt2) s Hs)) as [n E]. exists (S n). intros fuel. cbn [Nat.add]. rewrite loop_S, F, X. apply E.
  - destruct (IH1 _ (push_stack_ok (Pos pc2 txt2) s Hs)) as [n1 E1], (IH2 s Hs) as [n2 E2]. exists (S (n1 + n2)). intros fuel.
    cbn [Nat.add]. rewrite loop_S, F, X. cbn beta iota. rewrite <- Nat.add_assoc, E1, resume_pos by assumption.
    pose proof (exec_restores _ _ _ _ _ _ _ _ X) as R. cbn in R. subst v'. apply E2.
  - exists 1%nat. intros fuel. cbn [Nat.add]. now rewrite loop_S, F, X.
  - exists 1%nat. intros fuel. cbn [Nat.add]. rewrite loop_S, F, X. cbn beta iota. now destruct partial.
  - exists 1%nat. intros fuel. cbn [Nat.add]. now rewrite loop_S, F, X.
Qed.

Lemma loop_run fuel : forall pc txt v s x, stack_ok s -> loop fuel partial pc txt v s = Ok x ->
  exists r, run pc txt v r /\
    match r with Some (t, v') => accept t v' = Ok x | None => exists fuel', (fuel' < fuel)%nat /\ resume fuel' v s = Ok x end.
Proof.
  induction fuel as [fuel IH] using lt_wf_ind. destruct fuel as [|fuel]; intros pc txt v s x Hs H; [discriminate|].
  rewrite loop_S in H. destruct (fetch pc) as [i| |] eqn:F; try discriminate. cbn beta iota in H.
  destruct (exec i (pc + 1) txt v) as [o| |] eqn:X; try discriminate. cbn beta iota in H.
  destruct o as [pc' txt'|b pc' txt' v'|t| |t].
  - destruct (IH fuel (Nat.lt_succ_diag_r _) _ _ _ _ _ Hs H) as (r & R & E). exists r. split; [now apply (run_go _ _ _ _ _ _ _ F X)|].
    destruct r as [[t u]|]; auto. destruct E as (f & ? & E). exists f. auto.
  - pose proof (exec_restores _ _ _ _ _ _ _ _ X) as V.
    destruct (IH fuel (Nat.lt_succ_diag_r _) _ _ _ _ _ (push_stack_ok b s Hs) H) as (r & R & E). destruct b as [pc2 txt2|l old].
    + destruct r as [[t u]|]; [exists (Some (t, u)); split; [now apply (run_first _ _ _ _ _ _ _ _ _ _ F X) | auto]|].
      destruct E as (f & Hf & E). rewrite resume_pos in E by assumption. cbn in V. subst v'.
      destruct (IH f (Nat.lt_trans _ _ _ Hf (Nat.lt_succ_diag_r _)) _ _ _ _ _ Hs E) as (r2 & R2 & E2).
      exists r2. split; [now apply (run_second _ _ _ _ _ _ _ _ _ _ F X)|]. destruct r2 as [[t u]|]; auto.
      destruct E2 as (f2 & ? & E2). exists f2. split; [lia | auto].
    + exists r. split; [now apply (run_set _ _ _ _ _ _ _ _ _ _ F X)|]. destruct r as [[t u]|]; auto.
      destruct E as (f & ? & E). rewrite (resume_undo _ _ _ v) in E by assumption. exists f. auto.
  - eexists. split; [apply (run_prefix _ _ _ _ _ F X)|]. destruct partial; eauto.
  - exists None. split; [apply (run_fail _ _ _ _ F X) | eauto].
  - eexists. split; [apply (run_accept _ _ _ _ _ F X) | auto].
Qed.

(** ** The specification is a function *)

Ltac same_step := match goal with
  | F1 : fetch ?pc = Ok ?i, F2 : fetch ?pc = Ok ?j |- _ => rewrite F1 in F2; injection F2 as <-
  end; match goal with
  | X1 : exec ?i ?pc ?t ?v = Ok _, X2 : exec ?i ?pc ?t ?v = Ok _ |- _ => rewrite X1 in X2; try discriminate X2; injection X2; intros; subst
  | X1 : exec ?i ?pc ?t ?v = Ok _, X2 : exec ?i ?pc ?t ?v = Ok _ |- _ => clear X2
  end.

Lemma run_det pc txt v r1 : run pc txt v r1 -> forall r2, run pc txt v r2 -> r1 = r2.
Proof.
  induction 1 as [pc txt v i pc' txt' r F X _ IH|pc txt v i l x pc' txt' v' r F X _ IH
    |pc txt v i pc2 txt2 pc' txt' v' x F X _ IH|pc txt v i pc2 txt2 pc' txt' v' r F X _ IH1 _ IH2
    |pc txt v i F X|pc txt v i t F X|pc txt v i t F X]; intros r2 R; inversion R; subst; same_step; eauto.
  - match goal with H : run _ _ _ None |- _ => discriminate (IH _ H) end.
  - match goal with H : run _ _ _ (Some _) |- _ => discriminate (IH1 _ H) end.
Qed.

(** The result of [re_match] for an exploration from variables [v0]. *)
Definition answer (v0 : vars) (r : option (Z * vars)) : res (bool * vars) :=
  match r with Some (t, v) => accept t v | None => Ok (false, v0) end.

Lemma run_re_match txt v v0 r : init_vars re txt v = Ok v0 -> run 0 txt v0 r ->
  exists n, forall fuel, (n <= fuel)%nat -> re_match re text fuel txt partial v = answer v0 r.
Proof.
  intros I R. destruct (run_loop _ _ _ _ R (Stack [] []) (Forall_nil _)) as [n E]. exists n. intros fuel Hf.
  unfold re_match. rewrite I. cbn beta iota. replace fuel with (n + (fuel - n))%nat by lia. rewrite E.
  now destruct r as [[t u]|].
Qed.

Lemma re_match_run fuel txt v v0 x : init_vars re txt v = Ok v0 -> re_match re text fuel txt partial v = Ok x ->
  exists r, run 0 txt v0 r /\ answer v0 r = Ok x.
Proof.
  intros I H. unfold re_match in H. rewrite I in H. cbn beta iota in H.
  destruct (loop_run _ _ _ _ (Stack [] []) _ (Forall_nil _) H) as (r & R & E). exists r. split; auto.
  destruct r as [[t u]|]; auto. now destruct E as (f & _ & E).
Qed.
End Refinement.

(** C19. [re_match], which assigns groups and registers in place, records the old
    values on a chained stack and undoes the assignments when it backtracks,
    implements the exploration [run], where an alternative starts with the
    variables of its branching point: a match by [re_match] is one of [run], and
    every exploration that ends is the answer of [re_match] once it is given
    enough instructions. *)
Theorem re_match_refines {A : Arch} re text partial txt v v0 x : init_vars re txt v = Ok v0 ->
  (forall fuel, re_match re text fuel txt partial v = Ok x -> exists r, run re text partial 0 txt v0 r /\ answer v0 r = Ok x) /\
  (forall r, run re text partial 0 txt v0 r -> exists n, forall fuel, (n <= fuel)%nat -> re_match re text fuel txt partial v = answer v0 r).
Proof. intros I. split; [intros fuel; now apply re_match_run | intros r; now apply run_re_match]. Qed.

(** The expression [\(a\|b\)c]. *)
Definition sample_re : regexp :=
  let i op arg := op + 256 * arg in
  Regexp [i BEGGROUP 1; i PUSHBACK 2; i CHAR 97; i GOTO 1; i CHAR 98; i ENDGROUP 1; i CHAR 99; i ACCEPT 0] [] [] 2 0 (-1).
Definition no_vars : vars := Vars (repeat None 32) (repeat None 32) (repeat None 64).
Definition sample_start (p : Z) : vars := Vars (Some p :: repeat None 31) (repeat None 32) (repeat None 64).

Lemma re_match_refines_witness :
  (exists r, run (A := arch64) sample_re (bytes_of "xbc") false 0 1 (sample_start 1) r /\
     answer (sample_start 1) r = Ok (true, Vars ([Some 1; Some 1] ++ repeat None 30) ([Some 3; Some 2] ++ repeat None 30) (repeat None 64))) /\
  (exists r, run (A := arch64) sample_re (bytes_of "xbc") false 0 0 (sample_start 0) r /\ answer (sample_start 0) r = Ok (false, sample_start 0)).
Proof.
  split.
  - eapply (proj1 (re_match_refines (A := arch64) sample_re (bytes_of "xbc") false 1 no_vars (sample_start 1) _ eq_refl) 20%nat). vm_compute. reflexivity.
  - eapply (proj1 (re_match_refines (A := arch64) sample_re (bytes_of "xbc") false 0 no_vars (sample_start 0) _ eq_refl) 20%nat). vm_compute. reflexivity.
Defined.
