(* ===== verification/StrSearch.v ===== *)
(** StrSearch: the searches of strstubs.c find the first position, in the order
    of the search, where the expression matches, although they skip positions
    whose character cannot start a match. *)
From Stdlib Require Import ZArith Lia Bool Ascii String List.
From S2P Require Import Prelude Mlvalues InterpState InterpCalls ExternOutput MarshalBytes StrMatch StrProof.
Import ListNotations.
Local Open Scope Z_scope.

(** ** Initial variables *)

(** The arrays [re_group] and [re_register] have a fixed size, and the compiler of
    regular expressions respects it. *)
Definition vars_wf (v : vars) : Prop :=
  zlen (starts v) = NUM_GROUPS /\ zlen (ends v) = NUM_GROUPS /\ zlen (registers v) = NUM_REGISTERS.
Definition regexp_wf (re : regexp) : Prop :=
  1 <= Numgroups re <= NUM_GROUPS /\ 0 <= Numregisters re <= NUM_REGISTERS.

(** The first [n] cells empty. *)
Definition blank (n : nat) (l : list (option Z)) : list (option Z) := repeat None n ++ skipn n l.
Definition init_at (re : regexp) (p : Z) (v : vars) : vars :=
  let m := Z.to_nat (Numgroups re - 1) in
  Vars (Some p :: blank m (tl (starts v))) (firstn 1 (ends v) ++ blank m (tl (ends v)))
       (blank (Z.to_nat (Numregisters re)) (registers v)).

Lemma length_blank n l : (n <= length l)%nat -> length (blank n l) = length l.
Proof. intros. unfold blank. rewrite length_app, repeat_length, length_skipn. lia. Qed.

Lemma blank_again n l : (n <= length l)%nat -> blank n (blank n l) = blank n l.
Proof.
  intros. unfold blank. f_equal. rewrite skipn_app, repeat_length, Nat.sub_diag, skipn_all2 by (rewrite repeat_length; lia). reflexivity.
Qed.

Lemma blank_S l n : blank (S n) l = None :: blank n (tl l).
Proof. unfold blank. cbn [repeat app]. destruct l; [now rewrite !skipn_nil | reflexivity]. Qed.

(** Clearing the [n] cells that follow [a]. *)
Lemma clear_groups n : forall a b sa sb v, starts v = sa ++ a -> ends v = sb ++ b -> length sa = length sb ->
  (n <= length a)%nat -> (n <= length b)%nat ->
  clear n (zlen sa) (fun i => [LEnd i; LStart i]) v = Ok (Vars (sa ++ blank n a) (sb ++ blank n b) (registers v)).
Proof.
  induction n as [|n IH]; intros a b sa sb v Ea Eb L La Lb; cbn [clear]; [destruct v; cbn in *; now subst|].
  destruct a as [|x a]; [cbn in La; lia|]. destruct b as [|y b]; [cbn in Lb; lia|]. cbn [fold_left set_loc starts ends registers].
  rewrite Eb, Ea. replace (updZ (sb ++ y :: b) (zlen sa) None) with (Some (sb ++ None :: b)) by (unfold zlen; now rewrite L, updZ_middle).
  cbn [of_option starts ends registers]. unfold zlen at 1. rewrite updZ_middle. cbn [of_option starts ends registers].
  replace (zlen sa + 1) with (zlen (sa ++ [None : option Z])) by (unfold zlen; rewrite length_app; cbn; lia).
  rewrite (IH a b (sa ++ [None]) (sb ++ [None])); cbn [starts ends registers length] in *; rewrite ?blank_S, <- ?app_assoc; cbn [tl app]; auto; try lia.
  rewrite !length_app; cbn; lia.
Qed.

Lemma clear_registers n : forall a sa v, registers v = sa ++ a -> (n <= length a)%nat ->
  clear n (zlen sa) (fun i => [LReg i]) v = Ok (Vars (starts v) (ends v) (sa ++ blank n a)).
Proof.
  induction n as [|n IH]; intros a sa v Ea La; cbn [clear]; [destruct v; cbn in *; now subst|].
  destruct a as [|x a]; [cbn in La; lia|]. cbn [fold_left set_loc starts ends registers].
  rewrite Ea. unfold zlen at 1. rewrite updZ_middle. cbn [of_option].
  replace (zlen sa + 1) with (zlen (sa ++ [None : option Z])) by (unfold zlen; rewrite length_app; cbn; lia).
  rewrite (IH a (sa ++ [None])); cbn [starts ends registers length] in *; rewrite ?blank_S, <- ?app_assoc; cbn [tl app]; auto; lia.
Qed.

Section Search.
Context {A : Arch}.
Variable re : regexp.
Variable text : list Z.
Hypothesis Wre : regexp_wf re.

Lemma init_vars_closed p v : vars_wf v -> init_vars re p v = Ok (init_at re p v).
Proof.
  intros (Hs & He & Hr). destruct Wre as [Wg Wr]. unfold zlen, NUM_GROUPS, NUM_REGISTERS in *.
  destruct v as [[|s ss] [|e es] rs]; cbn [starts ends registers length] in *; try lia.
  unfold init_vars, init_at. cbn [starts ends registers tl firstn app].
  rewrite (clear_groups _ ss es [s] [e]) by (cbn [starts ends length]; auto; lia). cbn [app registers].
  rewrite (clear_registers _ rs []) by (auto; lia). reflexivity.
Qed.

Lemma init_at_wf p v : vars_wf v -> vars_wf (init_at re p v).
Proof.
  intros (Hs & He & Hr). destruct Wre as [Wg Wr]. unfold vars_wf, zlen, NUM_GROUPS, NUM_REGISTERS in *.
  destruct v as [[|s ss] [|e es] rs]; cbn [starts ends registers length tl] in *; try lia.
  cbn [init_at starts ends registers tl firstn app length]. rewrite !length_blank by lia. lia.
Qed.

Lemma init_at_again p q v : vars_wf v -> init_at re q (init_at re p v) = init_at re q v.
Proof.
  intros (Hs & He & Hr). destruct Wre as [Wg Wr]. unfold zlen, NUM_GROUPS, NUM_REGISTERS in *.
  destruct v as [[|s ss] [|e es] rs]; cbn [starts ends registers length tl] in *; try lia.
  unfold init_at. cbn [starts ends registers tl firstn app length]. rewrite !blank_again by lia. reflexivity.
Qed.

(** ** The specification of a search

    [start p] is the initial state of a match at [p]; the result is the groups of
    the first match among the positions, none when there is no match. *)
Notation match_from := (run re text false 0).
Inductive first_hit (start : Z -> vars) : list Z -> list Z -> Prop :=
  | hit_none : first_hit start [] []
  | hit_here p ps t u u' g : match_from p (start p) (Some (t, u)) -> set_end0 t u = Ok u' -> re_alloc_groups re u' = Ok g ->
      first_hit start (p :: ps) g
  | hit_later p ps g : match_from p (start p) None -> first_hit start ps g -> first_hit start (p :: ps) g.

(** [n] positions from [p] by steps of [d]. *)
Fixpoint positions (n : nat) (p d : Z) : list Z :=
  match n with O => [] | S n => p :: positions n (p + d) d end.

(** The table of initial characters rejects no position where a match starts. *)
Definition start_sound (start : Z -> vars) (chars : option (list Z)) : Prop :=
  forall p, 0 <= p <= len text -> exists b, no_start text chars p = Ok b /\ (b = true -> match_from p (start p) None).

(** ** A search in either direction

    [k] positions follow [txt]. *)
Fixpoint skip (k : nat) (d : Z) (chars : option (list Z)) (txt : Z) : res (Z * nat) :=
  match k with
  | O => Ok (txt, O)
  | S n => let! b := no_start text chars txt in if (b : bool) then skip n d chars (txt + d) else Ok (txt, k)
  end.
Fixpoint scan (turns fuel k : nat) (d : Z) (chars : option (list Z)) (txt : Z) (v : vars) : res (list Z * vars) :=
  match turns with
  | O => Stuck
  | S turns =>
      let! (txt, k) := skip k d chars txt in
      let! (b, v) := re_match re text fuel txt false v in
      if (b : bool) then let! g := re_alloc_groups re v in Ok (g, v)
      else match k with O => Ok ([], v) | S k => scan turns fuel k d chars (txt + d) v end
  end.

Lemma skip_forward_skip chars n : forall txt, len text - txt = Z.of_nat n ->
  skip_forward text n chars txt = let! (t, k) := skip n 1 chars txt in Ok t.
Proof.
  induction n as [|n IH]; intros txt H; cbn [skip skip_forward]; [reflexivity|].
  destruct (no_start text chars txt) as [[]| |]; auto. apply IH. lia.
Qed.
Lemma skip_backward_skip chars n : forall txt, txt = Z.of_nat n ->
  skip_backward text n chars txt = let! (t, k) := skip n (-1) chars txt in Ok t.
Proof.
  induction n as [|n IH]; intros txt H; cbn [skip skip_backward]; [reflexivity|].
  destruct (no_start text chars txt) as [[]| |]; auto. apply IH. lia.
Qed.
Lemma skip_moves chars d n : forall txt t k, skip n d chars txt = Ok (t, k) -> t = txt + d * (Z.of_nat n - Z.of_nat k) /\ (k <= n)%nat.
Proof.
  induction n as [|n IH]; intros txt t k H; cbn [skip] in H; [injection H as <- <-; split; lia|].
  destruct (no_start text chars txt) as [[]| |]; try discriminate H; [apply IH in H; lia | injection H as <- <-; lia].
Qed.

Lemma forward_scan turns fuel chars : forall txt v, 0 <= txt <= len text ->
  forward_loop re text turns fuel chars txt v = scan turns fuel (Z.to_nat (len text - txt)) 1 chars txt v.
Proof.
  induction turns as [|turns IH]; intros txt v H; cbn [forward_loop scan]; [reflexivity|].
  rewrite skip_forward_skip by lia. destruct (skip _ 1 chars txt) as [[t k]| |] eqn:E; auto. apply skip_moves in E.
  destruct (re_match re text fuel t false v) as [[[] v']| |]; auto.
  destruct (Z.leb_spec (t + 1) (len text)); destruct k as [|k]; try lia; auto. rewrite IH by lia. f_equal. lia.
Qed.
Lemma backward_scan turns fuel chars : forall txt v, 0 <= txt ->
  backward_loop re text turns fuel chars txt v = scan turns fuel (Z.to_nat txt) (-1) chars txt v.
Proof.
  induction turns as [|turns IH]; intros txt v H; cbn [backward_loop scan]; [reflexivity|].
  rewrite skip_backward_skip by lia. destruct (skip _ (-1) chars txt) as [[t k]| |] eqn:E; auto. apply skip_moves in E.
  destruct (re_match re text fuel t false v) as [[[] v']| |]; auto.
  destruct (Z.leb_spec 0 (t - 1)); destruct k as [|k]; try lia; auto. change (t + -1) with (t - 1). rewrite IH by lia. f_equal. lia.
Qed.

(** ** The search finds the first match *)

Section Scan.
Variable v0 : vars.
Variable chars : option (list Z).
Variable d : Z.
Hypothesis Wv : vars_wf v0.
Notation start := (fun p => init_at re p v0).
Hypothesis Sound : start_sound start chars.

(** The positions of the search are in the text. *)
Definition inside (k : nat) (txt : Z) : Prop := forall j, 0 <= j <= Z.of_nat k -> 0 <= txt + d * j <= len text.
(** The state between two matches. *)
Definition between (v : vars) : Prop := vars_wf v /\ forall p, init_at re p v = init_at re p v0.

Lemma inside_next k txt : inside (S k) txt -> inside k (txt + d).
Proof. intros H j Hj. replace (txt + d + d * j) with (txt + d * (j + 1)) by ring. apply H. lia. Qed.
Lemma inside_first k txt : inside k txt -> 0 <= txt <= len text.
Proof. intros H. specialize (H 0). lia. Qed.

Lemma skip_sound k : forall txt, inside k txt ->
  exists t k', skip k d chars txt = Ok (t, k') /\ (k' <= k)%nat /\ inside k' t /\
    forall g, first_hit start (positions (S k) txt d) g <-> first_hit start (positions (S k') t d) g.
Proof.
  induction k as [|k IH]; intros txt H; cbn [skip]; [exists txt, O; split; [|split; [|split]]; auto; tauto|].
  destruct (Sound txt (inside_first _ _ H)) as ([] & -> & Hb); cbn iota; [|exists txt, (S k); split; [|split; [|split]]; auto; tauto].
  destruct (IH _ (inside_next _ _ H)) as (t & k' & E & Hk & Hi & F). exists t, k'. split; [|split; [|split]]; auto. intros g. rewrite <- F. split.
  - remember (S k) as k1. cbn [positions]. intros G. inversion G; subst; auto.
    match goal with R : match_from _ _ (Some _) |- _ => discriminate (run_det _ _ _ _ _ _ _ R _ (Hb eq_refl)) end.
  - intros G. apply hit_later; auto.
Qed.

Lemma between_init p v : between v -> init_vars re p v = Ok (init_at re p v0) /\ between (init_at re p v0).
Proof.
  intros [W E]. rewrite init_vars_closed, E by assumption. split; [reflexivity|].
  split; [now apply init_at_wf | intros q; now apply init_at_again].
Qed.

Lemma scan_first_hit turns fuel : forall k txt v g v', between v -> inside k txt ->
  scan turns fuel k d chars txt v = Ok (g, v') -> first_hit start (positions (S k) txt d) g.
Proof.
  induction turns as [|turns IH]; intros k txt v g v' B I H; cbn [scan] in H; [discriminate|].
  destruct (skip_sound k txt I) as (t & k' & E & Hk & Hi & F). rewrite E in H. cbn iota in H. apply F.
  destruct (re_match re text fuel t false v) as [[b v1]| |] eqn:M; try discriminate H. cbn iota in H.
  destruct (between_init t v B) as [Ei Bi]. destruct (re_match_run _ _ _ _ _ _ _ _ Ei M) as (r & R & Ans).
  destruct r as [[e u]|]; cbn [answer] in Ans.
  - unfold accept in Ans. destruct (set_end0 e u) as [u'| |] eqn:Se; try discriminate Ans. injection Ans as <- <-.
    destruct (re_alloc_groups re u') as [g'| |] eqn:Eg; try discriminate H. injection H as <- _. exact (hit_here _ _ _ _ _ _ _ R Se Eg).
  - injection Ans as <- <-. apply hit_later; auto.
    destruct k' as [|k']; [injection H as <- _; constructor | exact (IH _ _ _ _ _ Bi (inside_next _ _ Hi) H)].
Qed.

Lemma first_hit_scan turns : forall k txt v g, between v -> inside k txt -> (k < turns)%nat -> first_hit start (positions (S k) txt d) g ->
  exists n, forall fuel, (n <= fuel)%nat -> exists v', scan turns fuel k d chars txt v = Ok (g, v').
Proof.
  induction turns as [|turns IH]; intros k txt v g B I Hk0 G; [lia|]. cbn [scan].
  destruct (skip_sound k txt I) as (t & k' & -> & Hk & Hi & F). cbn iota. apply F in G. clear F.
  destruct (between_init t v B) as [Ei Bi]. inversion G as [|? ? e u u' ? R Se Eg|? ? ? R G']; subst.
  - destruct (run_re_match _ _ _ _ _ _ _ Ei R) as [n E]. exists n. intros fuel Hf. rewrite E by assumption.
    cbn [answer]. unfold accept. rewrite Se. cbn iota. rewrite Eg. eauto.
  - destruct (run_re_match _ _ _ _ _ _ _ Ei R) as [n E]. destruct k' as [|k'].
    + exists n. intros fuel Hf. rewrite E by assumption. cbn [answer]. inversion G'; subst. eauto.
    + destruct (IH k' (t + d) _ g Bi (inside_next _ _ Hi) ltac:(lia) G') as [n2 E2]. exists (Nat.max n n2). intros fuel Hf.
      rewrite E by lia. cbn [answer]. apply E2. lia.
Qed.
End Scan.

(** The answer [g] of a search for large enough bounds on the instructions. *)
Definition answers (search : nat -> res (list Z * vars)) (g : list Z) : Prop :=
  exists n, forall fuel, (n <= fuel)%nat -> exists v', search fuel = Ok (g, v').
Definition returns (search : nat -> res (list Z * vars)) (g : list Z) : Prop :=
  exists fuel v', search fuel = Ok (g, v').

Lemma scan_spec v0 chars d k txt : vars_wf v0 -> start_sound (fun p => init_at re p v0) chars -> inside d k txt -> (k <= length text)%nat ->
  forall g, let search := fun fuel => scan (S (length text)) fuel k d chars txt v0 in
    let spec := first_hit (fun p => init_at re p v0) (positions (S k) txt d) g in
    (returns search g -> spec) /\ (spec -> answers search g).
Proof.
  intros W Sd I Hk g search spec. assert (B : between v0 v0) by (split; auto). split.
  - intros (fuel & v' & H). exact (scan_first_hit v0 chars d W Sd _ _ _ _ _ _ _ B I H).
  - intros H. exact (first_hit_scan v0 chars d W Sd _ _ _ _ _ B I (proj2 (Nat.lt_succ_r _ _) Hk) H).
Qed.
End Search.

(** C20. The searches: [re_search_forward] from a position of the text returns the
    groups of the match at the first position, from there to the end, where the
    expression matches, and [re_search_backward] at the last position from there
    down to the start; the empty array when there is none.  Conversely when the
    exploration of the positions up to the first match ends, the search returns.
    The positions that are skipped by the table of initial characters are no
    exception, provided the table is sound. *)
Theorem search_first_match {A : Arch} re text v chars pos g : regexp_wf re -> vars_wf v -> 0 <= pos <= len text ->
  start_table re = Ok chars -> start_sound re text (fun p => init_at re p v) chars ->
  let hit := first_hit re text (fun p => init_at re p v) in
  let forward fuel := re_search_forward re text fuel pos v in
  let backward fuel := re_search_backward re text fuel pos v in
  let up := positions (S (Z.to_nat (len text - pos))) pos 1 in
  let down := positions (S (Z.to_nat pos)) pos (-1) in
  ((returns forward g -> hit up g) /\ (hit up g -> answers forward g)) /\
  ((returns backward g -> hit down g) /\ (hit down g -> answers backward g)).
Proof.
  intros Wr Wv Hp Ht Sd hit forward backward up down. unfold forward, backward, re_search_forward, re_search_backward.
  rewrite (proj2 (Z.ltb_ge pos 0)), (proj2 (Z.ltb_ge (len text) pos)), Ht by lia. cbn [orb]. cbn iota. split.
  - pose proof (scan_spec re text Wr v chars 1 (Z.to_nat (len text - pos)) pos Wv Sd) as S.
    assert (S' := S ltac:(intros j Hj; lia) ltac:(unfold len in *; lia) g). clear S. unfold returns, answers in *. destruct S' as [S1 S2]. split.
    + intros (fuel & v' & H). apply S1. exists fuel, v'. now rewrite <- forward_scan.
    + intros H. destruct (S2 H) as [n E]. exists n. intros fuel Hf. rewrite forward_scan by lia. now apply E.
  - pose proof (scan_spec re text Wr v chars (-1) (Z.to_nat pos) pos Wv Sd) as S.
    assert (S' := S ltac:(intros j Hj; lia) ltac:(unfold len in *; lia) g). clear S. unfold returns, answers in *. destruct S' as [S1 S2]. split.
    + intros (fuel & v' & H). apply S1. exists fuel, v'. now rewrite <- backward_scan.
    + intros H. destruct (S2 H) as [n E]. exists n. intros fuel Hf. rewrite backward_scan by lia. now apply E.
Qed.

(** The expression [b], which only matches at its initial character. *)
Definition letter_b : regexp :=
  Regexp [CHAR + 256 * 98; ACCEPT] [map (fun n => if Nat.eqb n 98 then 1 else 0) (seq 0 256)] [] 1 0 0.

Lemma letter_b_sound v : start_sound (A := arch64) letter_b (bytes_of "abcb") (fun p => init_at letter_b p v) (Some (nth 0 (Cpool letter_b) [])).
Proof.
  intros p Hp. change (len (bytes_of "abcb")) with 4 in Hp.
  assert (C : p = 0 \/ p = 1 \/ p = 2 \/ p = 3 \/ p = 4) by lia.
  destruct C as [->|[->|[->|[->| ->]]]]; eexists; (split; [vm_compute; reflexivity|]); intros E; try discriminate E.
  - eapply run_fail; reflexivity.
  - eapply run_fail; reflexivity.
  - apply (run_prefix (A := arch64) letter_b (bytes_of "abcb") false 0 4 _ (CHAR + 256 * 98) 4); reflexivity.
Qed.

Lemma search_first_match_witness :
  first_hit (A := arch64) letter_b (bytes_of "abcb") (fun p => init_at letter_b p no_vars) (positions 5 0 1) [1; 2] /\
  first_hit (A := arch64) letter_b (bytes_of "abcb") (fun p => init_at letter_b p no_vars) (positions 5 4 (-1)) [3; 4].
Proof.
  assert (W : regexp_wf letter_b) by (split; unfold NUM_GROUPS, NUM_REGISTERS; cbn [letter_b Numgroups Numregisters]; lia). assert (V : vars_wf no_vars) by (repeat split).
  assert (L : 0 <= 0 <= len (bytes_of "abcb") /\ 0 <= 4 <= len (bytes_of "abcb")) by (vm_compute; intuition discriminate).
  split.
  - apply (search_first_match (A := arch64) letter_b (bytes_of "abcb") no_vars _ 0 [1; 2] W V (proj1 L) eq_refl (letter_b_sound no_vars)).
    exists 10%nat. eexists. vm_compute. reflexivity.
  - apply (search_first_match (A := arch64) letter_b (bytes_of "abcb") no_vars _ 4 [3; 4] W V (proj2 L) eq_refl (letter_b_sound no_vars)).
    exists 10%nat. eexists. vm_compute. reflexivity.
Defined.
