(* ===== verification/StrSafe.v ===== *)
(** StrSafe: the matcher of strstubs.c stays inside the text, the program, the
    constants, the groups and the registers. *)
From Stdlib Require Import ZArith Lia Bool Ascii String List.
From S2P Require Import Prelude Mlvalues InterpState InterpCalls ExternOutput MarshalBytes StrMatch StrProof StrSearch.
Import ListNotations.
Local Open Scope Z_scope.

Section Safe.
Context {A : Arch}.
Variable re : regexp.
Variable text : list Z.

(** ** Well-formed programs *)

Definition target_ok (pc : Z) : bool := (0 <=? pc) && (pc <? len (Prog re)).
Definition constant_ok (n i : Z) : bool := match constant re i with Ok s => n <=? len s | _ => false end.

(** Jumps stay in the program, an instruction that falls through has a successor,
    and the arguments are in the arrays they index.  A character set is a bitset
    of 32 bytes. *)
Definition args_ok (pc i : Z) : bool :=
  let op := Opcode i in
  let one_of l := existsb (Z.eqb op) l in
  if one_of [CHAR; BOL; EOL; WORDBOUNDARY] then true
  else if one_of [CHARNORM] then 256 <=? len (Normtable re)
  else if one_of [STRING] then constant_ok 0 (Arg i)
  else if one_of [STRINGNORM] then constant_ok 0 (Arg i) && (256 <=? len (Normtable re))
  else if one_of [CHARCLASS; SIMPLEOPT; SIMPLESTAR; SIMPLEPLUS] then constant_ok 32 (Arg i)
  else if one_of [BEGGROUP; ENDGROUP; REFGROUP] then Arg i <? NUM_GROUPS
  else if one_of [SETMARK; CHECKPROGRESS] then Arg i <? NUM_REGISTERS
  else if one_of [PUSHBACK] then target_ok (pc + SignedArg i)
  else false.
Definition instr_ok (pc i : Z) : bool :=
  let op := Opcode i in
  if op =? ACCEPT then true
  else if op =? GOTO then target_ok (pc + SignedArg i)
  else target_ok pc && args_ok pc i.
Fixpoint instrs_ok (pc : Z) (l : list Z) : bool :=
  match l with [] => true | i :: l => instr_ok (pc + 1) i && instrs_ok (pc + 1) l end.
Definition prog_ok : bool := target_ok 0 && instrs_ok 0 (Prog re).

(** ** The invariant *)

Definition in_text (t : Z) : Prop := 0 <= t <= len text.
Definition cell_ok (x : option Z) : Prop := match x with Some t => in_text t | None => True end.
Definition vars_ok (v : vars) : Prop :=
  vars_wf v /\ Forall cell_ok (starts v) /\ Forall cell_ok (ends v) /\ Forall cell_ok (registers v).
Definition loc_ok (l : loc) : Prop :=
  match l with LStart n | LEnd n => 0 <= n < NUM_GROUPS | LReg n => 0 <= n < NUM_REGISTERS end.
Definition point_ok (b : backtrack_point) : Prop :=
  match b with Pos pc t => target_ok pc = true /\ in_text t | Undo l x => loc_ok l /\ cell_ok x end.
Definition points_ok (s : backtrack_stack) : Prop := stack_ok s /\ Forall point_ok (flat s).

(** A turn of the loop starts in such a configuration. *)
Definition config_ok (pc t : Z) (v : vars) (s : backtrack_stack) : Prop :=
  target_ok pc = true /\ in_text t /\ vars_ok v /\ points_ok s.

Definition outcome_ok (o : outcome) : Prop :=
  match o with
  | Go pc t => target_ok pc = true /\ in_text t
  | Pushes b pc t v => target_ok pc = true /\ in_text t /\ vars_ok v /\ point_ok b
  | Prefix_match t | Accept t => in_text t
  | Backtrack => True
  end.

(** ** Accesses *)

Hypothesis Text : Forall (fun b => 0 <= b < 256) text.
Hypothesis Prog_ok : prog_ok = true.

Lemma byte_of_ok s i : 0 <= i <= len s -> exists b, byte_of s i = Ok b.
Proof.
  intros H. destruct (nthZ_Some (s ++ [0]) i) as (b & E & _); [unfold zlen; rewrite length_app; unfold len in H; cbn [length]; lia|].
  exists b. unfold byte_of. now rewrite E.
Qed.

Lemma text_byte t : in_text t -> exists b, byte_of text t = Ok b /\ 0 <= b < 256.
Proof.
  intros H. destruct (nthZ_Some (text ++ [0]) t) as (b & E & I); [unfold zlen; rewrite length_app; unfold in_text, len in H; cbn [length]; lia|].
  exists b. unfold byte_of. rewrite E. split; [reflexivity|]. apply in_app_or in I as [I|[<-|[]]]; [|lia].
  exact (proj1 (Forall_forall _ _) Text b I).
Qed.

Lemma bitset_ok s b : 32 <= len s -> 0 <= b < 256 -> exists r, In_bitset s b = Ok r.
Proof.
  intros Hs Hb. unfold In_bitset. destruct (byte_of_ok s (Z.shiftr b 3)) as [x ->]; [|eauto].
  rewrite Z.shiftr_div_pow2 by lia. split; [apply Z.div_pos; lia|]. apply Z.lt_le_incl, Z.div_lt_upper_bound; lia.
Qed.

Lemma class_ok s t : 32 <= len s -> in_text t -> exists r, in_class text s t = Ok r.
Proof. intros Hs Ht. unfold in_class. destruct (text_byte t Ht) as (b & -> & Hb). now apply bitset_ok. Qed.

Lemma word_ok b : 0 <= b < 256 -> exists r, Is_word_letter b = Ok r.
Proof. apply bitset_ok. reflexivity. Qed.

Lemma get_loc_ok l v : vars_ok v -> loc_ok l -> exists x, get_loc l v = Ok x /\ cell_ok x.
Proof.
  intros ((Ls & Le & Lr) & Fs & Fe & Fr) Hl.
  destruct l as [n|n|n]; unfold get_loc; cbn [loc_ok] in *;
    match goal with |- context [nthZ ?a n] => destruct (nthZ_Some a n) as (x & -> & I); [lia|] end;
    exists x; (split; [reflexivity|]); [exact (proj1 (Forall_forall _ _) Fs x I) | exact (proj1 (Forall_forall _ _) Fe x I) | exact (proj1 (Forall_forall _ _) Fr x I)].
Qed.

Lemma updZ_ok {T} (P : T -> Prop) l n x : 0 <= n < zlen l -> Forall P l -> P x -> exists l', updZ l n x = Some l' /\ zlen l' = zlen l /\ Forall P l'.
Proof.
  intros Hn F Hx. destruct (nthZ_Some l n Hn) as (y & E & _). apply nthZ_split in E as (a & b & -> & ->).
  exists (a ++ x :: b). rewrite updZ_middle. split; [reflexivity|]. split; [unfold zlen; now rewrite !length_app|].
  apply Forall_app in F as [Fa Fb]. apply Forall_app. split; auto. inversion_clear Fb. auto.
Qed.

Lemma set_loc_ok l x v : vars_ok v -> loc_ok l -> cell_ok x -> exists v', set_loc l x v = Ok v' /\ vars_ok v'.
Proof.
  intros ((Ls & Le & Lr) & Fs & Fe & Fr) Hl Hx. unfold vars_ok, vars_wf.
  destruct l as [n|n|n]; cbn [loc_ok set_loc] in *.
  - destruct (updZ_ok cell_ok (starts v) n x) as (l' & -> & L' & F'); auto; [lia|]. eexists. split; [reflexivity|]. cbn. repeat split; auto; lia.
  - destruct (updZ_ok cell_ok (ends v) n x) as (l' & -> & L' & F'); auto; [lia|]. eexists. split; [reflexivity|]. cbn. repeat split; auto; lia.
  - destruct (updZ_ok cell_ok (registers v) n x) as (l' & -> & L' & F'); auto; [lia|]. eexists. split; [reflexivity|]. cbn. repeat split; auto; lia.
Qed.

(** ** One instruction *)

Lemma fetch_ok pc : target_ok pc = true -> exists i, fetch re pc = Ok i /\ instr_ok (pc + 1) i = true.
Proof.
  unfold target_ok. intros H. apply andb_prop in H as [H1 H2].
  destruct (nthZ_Some (Prog re) pc) as (i & E & _); [unfold zlen, len in *; lia|].
  exists i. unfold fetch. rewrite E. split; [reflexivity|]. apply andb_prop in Prog_ok as [_ P].
  apply nthZ_split in E as (a & b & E & ->). rewrite E in P. clear - P.
  assert (G : forall pc, instrs_ok pc (a ++ i :: b) = true -> instr_ok (pc + Z.of_nat (length a) + 1) i = true).
  { clear P. induction a as [|x a IH]; intros pc H; cbn [app instrs_ok length] in *; apply andb_prop in H as [H1 H2].
    - now rewrite Z.add_0_r.
    - apply IH in H2. rewrite <- H2. f_equal. lia. }
  exact (G 0 P).
Qed.

Lemma constant_ok_spec n i : constant_ok n i = true -> exists s, constant re i = Ok s /\ n <= len s.
Proof. unfold constant_ok. destruct (constant re i) as [s| |]; try discriminate. intros H. exists s. split; [reflexivity | now apply Z.leb_le]. Qed.

Lemma Arg_pos i : 0 <= Arg i.
Proof. unfold Arg. apply Z.shiftr_nonneg, wrap_range. pose proof WORD_pos. lia. Qed.

Lemma normalize_ok b : (256 <=? len (Normtable re)) = true -> 0 <= b < 256 -> exists c, normalize re b = Ok c.
Proof. intros H Hb. apply byte_of_ok. lia. Qed.

Lemma match_bytes_ok norm s pc : (forall b, 0 <= b < 256 -> exists c, norm b = Ok c) -> target_ok pc = true ->
  forall t, in_text t -> exists o, match_bytes text norm s t (Go pc) = Ok o /\ outcome_ok o.
Proof.
  intros N P. induction s as [|c s IH]; intros t Ht; cbn [match_bytes]; [eexists; split; [reflexivity | now split]|].
  destruct (Z.eqb_spec t (len text)); [eexists; split; [reflexivity | exact Ht]|].
  destruct (text_byte t Ht) as (b & -> & Hb). destruct (N b Hb) as [x ->]. destruct (negb _); [eexists; split; [reflexivity | exact I]|].
  apply IH. unfold in_text in *. lia.
Qed.

Lemma skip_class_ok set n : forall t, 32 <= len set -> 0 <= t -> t + Z.of_nat n <= len text ->
  exists t', skip_class text set n t = Ok t' /\ t <= t' <= t + Z.of_nat n.
Proof.
  induction n as [|n IH]; intros t Hs Ht Hn; cbn [skip_class]; [exists t; split; [reflexivity | lia]|].
  destruct (class_ok set t Hs) as [[] ->]; [unfold in_text; lia| |exists t; split; [reflexivity | lia]].
  destruct (IH (t + 1) Hs) as (t' & -> & ?); try lia. exists t'. split; [reflexivity | lia].
Qed.

Lemma class_star_ok set t : 32 <= len set -> in_text t -> exists t', class_star text set t = Ok t' /\ in_text t'.
Proof.
  intros Hs Ht. unfold in_text in *. destruct (skip_class_ok set (Z.to_nat (len text - t)) t Hs) as (t' & E & ?); try lia.
  exists t'. split; [exact E | lia].
Qed.

Lemma save_and_set_ok l pc t v : target_ok pc = true -> in_text t -> vars_ok v -> loc_ok l ->
  exists o, save_and_set l pc t v = Ok o /\ outcome_ok o.
Proof.
  intros Hp Ht Hv Hl. unfold save_and_set. destruct (get_loc_ok l v Hv Hl) as (old & -> & Ho).
  destruct (set_loc_ok l (Some t) v Hv Hl Ht) as (v' & -> & Hv'). eexists. split; [reflexivity|]. cbn. auto.
Qed.

Lemma exec_WORDBOUNDARY_ok pc t : target_ok pc = true -> in_text t -> exists o, exec_WORDBOUNDARY text pc t = Ok o /\ outcome_ok o.
Proof.
  intros Hp Ht. unfold exec_WORDBOUNDARY.
  destruct (text_byte t Ht) as (b & E & Hb). destruct (word_ok b Hb) as [w W].
  destruct (Z.eqb_spec t 0) as [->|N].
  - rewrite E, W. destruct (0 =? _), w; (eexists; split; [reflexivity | cbn; auto]).
  - destruct (text_byte (t - 1)) as (b1 & E1 & Hb1); [unfold in_text in *; lia|]. destruct (word_ok b1 Hb1) as [w1 W1].
    rewrite E, E1, W, W1. destruct (t =? _), w, w1; (eexists; split; [reflexivity | cbn; auto]).
Qed.

(** The hypotheses an opcode gives on its arguments. *)
Ltac opcode E Hi := apply Z.eqb_eq in E; unfold instr_ok, args_ok in Hi; rewrite E in Hi; cbn [existsb Z.eqb Pos.eqb orb
    CHAR CHARNORM STRING STRINGNORM CHARCLASS BOL EOL WORDBOUNDARY BEGGROUP ENDGROUP REFGROUP ACCEPT SIMPLEOPT SIMPLESTAR
    SIMPLEPLUS GOTO PUSHBACK SETMARK CHECKPROGRESS] in Hi;
  repeat match goal with H : _ && _ = true |- _ => apply andb_prop in H as [? ?] end;
  try match goal with H : constant_ok _ _ = true |- _ => apply constant_ok_spec in H as (set & -> & Hset) end.
Ltac done := eexists; split; [reflexivity | cbn; unfold in_text in *; auto; try (split; auto; lia)].

Lemma exec_ok i pc t v : instr_ok pc i = true -> in_text t -> vars_ok v ->
  exists o, exec_instr re text i pc t v = Ok o /\ outcome_ok o.
Proof.
  intros Hi Ht Hv. pose proof (Arg_pos i) as Ha. destruct (text_byte t Ht) as (b & Eb & Hb). unfold exec_instr.
  assert (Next : t <> len text -> in_text (t + 1)) by (unfold in_text in *; lia).
  destruct (Opcode i =? CHAR) eqn:E0; [opcode E0 Hi; destruct (Z.eqb_spec t (len text)); [done|]; rewrite Eb; destruct (negb _); done|].
  destruct (Opcode i =? CHARNORM) eqn:E1.
  { opcode E1 Hi; destruct (Z.eqb_spec t (len text)); [done|]. rewrite Eb. destruct (normalize_ok b) as [c ->]; auto. destruct (negb _); done. }
  destruct (Opcode i =? STRING) eqn:E2; [opcode E2 Hi; apply match_bytes_ok; eauto|].
  destruct (Opcode i =? STRINGNORM) eqn:E3; [opcode E3 Hi; apply match_bytes_ok; auto using normalize_ok|].
  destruct (Opcode i =? CHARCLASS) eqn:E4.
  { opcode E4 Hi; destruct (Z.eqb_spec t (len text)); [done|]. destruct (class_ok set t Hset Ht) as [[] ->]; done. }
  destruct (Opcode i =? BOL) eqn:E5.
  { opcode E5 Hi. destruct (Z.ltb_spec 0 t); [|done]. destruct (text_byte (t - 1)) as (c & -> & _); [unfold in_text in *; lia|]. destruct (negb _); done. }
  destruct (Opcode i =? EOL) eqn:E6; [opcode E6 Hi; destruct (Z.ltb_spec t (len text)); [|done]; rewrite Eb; destruct (negb _); done|].
  destruct (Opcode i =? WORDBOUNDARY) eqn:E7; [opcode E7 Hi; now apply exec_WORDBOUNDARY_ok|].
  destruct (Opcode i =? BEGGROUP) eqn:E8; [opcode E8 Hi; apply save_and_set_ok; auto; unfold loc_ok; lia|].
  destruct (Opcode i =? ENDGROUP) eqn:E9; [opcode E9 Hi; apply save_and_set_ok; auto; unfold loc_ok; lia|].
  destruct (Opcode i =? REFGROUP) eqn:E10.
  { opcode E10 Hi. destruct (get_loc_ok (LStart (Arg i)) v Hv) as (s & -> & Hs); [unfold loc_ok; lia|].
    destruct (get_loc_ok (LEnd (Arg i)) v Hv) as (e & -> & He); [unfold loc_ok; lia|].
    destruct s as [s|], e as [e|]; try done. apply match_bytes_ok; eauto. }
  destruct (Opcode i =? ACCEPT) eqn:E11; [done|].
  destruct (Opcode i =? SIMPLEOPT) eqn:E12.
  { opcode E12 Hi. destruct (Z.ltb_spec t (len text)); [|done]. destruct (class_ok set t Hset Ht) as [[] ->]; done. }
  destruct (Opcode i =? SIMPLESTAR) eqn:E13; [opcode E13 Hi; destruct (class_star_ok set t Hset Ht) as (t' & -> & Ht'); done|].
  destruct (Opcode i =? SIMPLEPLUS) eqn:E14.
  { opcode E14 Hi. destruct (Z.eqb_spec t (len text)); [done|]. destruct (class_ok set t Hset Ht) as [[] ->]; cbn [negb]; [|done].
    destruct (class_star_ok set (t + 1) Hset) as (t' & -> & Ht'); auto. done. }
  destruct (Opcode i =? GOTO) eqn:E15; [opcode E15 Hi; done|].
  destruct (Opcode i =? PUSHBACK) eqn:E16; [opcode E16 Hi; done; auto|].
  destruct (Opcode i =? SETMARK) eqn:E17; [opcode E17 Hi; apply save_and_set_ok; auto; unfold loc_ok; lia|].
  destruct (Opcode i =? CHECKPROGRESS) eqn:E18.
  { opcode E18 Hi. destruct (get_loc_ok (LReg (Arg i)) v Hv) as (r & -> & Hr); [unfold loc_ok; lia|]. destruct (opt_eqb r t); done. }
  unfold instr_ok, args_ok in Hi. cbn [existsb] in Hi. rewrite ?E0, ?E1, ?E2, ?E3, ?E4, ?E5, ?E6, ?E7, ?E8, ?E9, ?E10, ?E11, ?E12, ?E13, ?E14, ?E15, ?E16, ?E17, ?E18 in Hi.
  apply andb_prop in Hi as [_ Hi]. discriminate Hi.
Qed.

(** ** The loop *)

Lemma push_points_ok b s : points_ok s -> point_ok b -> points_ok (push b s).
Proof. intros [H1 H2] Hb. split; [now apply push_stack_ok | rewrite flat_push; auto]. Qed.

Lemma backtrack_ok fuel : forall s v, points_ok s -> vars_ok v -> (stack_size s < fuel)%nat ->
  exists v', vars_ok v' /\
    (backtrack fuel s v = Ok (None, v') \/ exists pc t s', backtrack fuel s v = Ok (Some (pc, t, s'), v') /\ config_ok pc t v' s').
Proof.
  induction fuel as [|fuel IH]; intros s v [O P] V F; [lia|]. rewrite stack_size_flat in F. cbn [backtrack].
  pose proof (pop_spec s O) as Pop. destruct (flat s) as [|b l]; [rewrite Pop; eauto|].
  destruct Pop as (s' & -> & E & O'). inversion_clear P as [|? ? Pb Pl]. assert (Q : points_ok s') by (split; [auto | now rewrite E]).
  destruct b as [pc t|lc x]; destruct Pb as [P1 P2].
  - exists v. split; [auto | right]. exists pc, t, s'. split; [reflexivity | now split].
  - destruct (set_loc_ok lc x v V P1 P2) as (v' & -> & V'). apply IH; auto. rewrite stack_size_flat, E. cbn in F. lia.
Qed.

(** What a turn of the loop may do. *)
Definition turn_ok (partial : bool) (pc t : Z) (v : vars) (s : backtrack_stack) : Prop :=
  (exists b v', vars_ok v' /\ forall fuel, match_loop re text (S fuel) partial pc t v s = Ok (b, v')) \/
  (exists pc' t' v' s', config_ok pc' t' v' s' /\
     forall fuel, match_loop re text (S fuel) partial pc t v s = match_loop re text fuel partial pc' t' v' s').

Lemma turn_safe partial pc t v s : config_ok pc t v s -> turn_ok partial pc t v s.
Proof.
  intros (Hp & Ht & Hv & Hs). unfold turn_ok. destruct (fetch_ok pc Hp) as (i & F & Hi). destruct (exec_ok i (pc + 1) t v Hi Ht Hv) as (o & X & Ho).
  assert (Acc : forall t', in_text t' -> exists v', vars_ok v' /\ accept t' v = Ok (true, v')).
  { intros t' Ht'. destruct (set_loc_ok (LEnd 0) (Some t') v) as (v' & E & V'); auto; [cbn; unfold NUM_GROUPS; lia|].
    exists v'. split; auto. unfold accept, set_end0. now rewrite E. }
  assert (Res : (exists v', vars_ok v' /\ forall fuel, resume re text partial fuel v s = Ok (false, v')) \/
    exists pc' t' v' s', config_ok pc' t' v' s' /\ forall fuel, resume re text partial fuel v s = match_loop re text fuel partial pc' t' v' s').
  { destruct (backtrack_ok (S (stack_size s)) s v Hs Hv) as (v' & V' & B); [lia|]. unfold resume.
    destruct B as [->|(pc' & t' & s' & -> & C)]; [left; eauto | right; eauto 6]. }
  destruct o as [pc' t'|b pc' t' v'|t'| |t'].
  - right. exists pc', t', v, s. destruct Ho. split; [now split|]. intros fuel. now rewrite loop_S, F, X.
  - right. exists pc', t', v', (push b s). destruct Ho as (H1 & H2 & H3 & H4). split; [|intros fuel; now rewrite loop_S, F, X].
    split; [auto | split; [auto | split; [auto | now apply push_points_ok]]].
  - destruct partial.
    + destruct (Acc t' Ho) as (v' & V' & E). left. exists true, v'. split; auto. intros fuel. rewrite loop_S, F, X. exact E.
    + destruct Res as [(v' & V' & R)|(pc2 & t2 & v2 & s2 & C & R)]; [left; exists false, v' | right; exists pc2, t2, v2, s2]; (split; auto; intros fuel; rewrite loop_S, F, X; apply R).
  - destruct Res as [(v' & V' & R)|(pc2 & t2 & v2 & s2 & C & R)]; [left; exists false, v' | right; exists pc2, t2, v2, s2]; (split; auto; intros fuel; rewrite loop_S, F, X; apply R).
  - destruct (Acc t' Ho) as (v' & V' & E). left. exists true, v'. split; auto. intros fuel. rewrite loop_S, F, X. exact E.
Qed.

Lemma loop_vars_ok partial fuel : forall pc t v s b v', config_ok pc t v s -> match_loop re text fuel partial pc t v s = Ok (b, v') -> vars_ok v'.
Proof.
  induction fuel as [|fuel IH]; intros pc t v s b v' C H; [discriminate|].
  destruct (turn_safe partial pc t v s C) as [(b0 & v0 & V0 & E)|(pc' & t' & v1 & s' & C' & E)]; rewrite E in H; [now injection H as _ <- | eauto].
Qed.

Lemma loop_no_raise partial fuel e : forall pc t v s, config_ok pc t v s -> match_loop re text fuel partial pc t v s <> Raise e.
Proof.
  induction fuel as [|fuel IH]; intros pc t v s C; [discriminate|].
  destruct (turn_safe partial pc t v s C) as [(b0 & v0 & V0 & E)|(pc' & t' & v1 & s' & C' & E)]; rewrite E; [discriminate | auto].
Qed.

Lemma init_at_ok p v : regexp_wf re -> vars_ok v -> in_text p -> vars_ok (init_at re p v).
Proof.
  intros W (Wv & Fs & Fe & Fr) Hp. split; [now apply init_at_wf|].
  assert (B : forall n l, Forall cell_ok l -> Forall cell_ok (blank n l)).
  { intros n l F. apply Forall_app. split; [apply Forall_forall; intros x Hx; apply repeat_spec in Hx; now subst |].
    rewrite <- (firstn_skipn n l) in F. now apply Forall_app in F. }
  assert (Tl : forall l, Forall cell_ok l -> Forall cell_ok (tl l)) by (intros l F; destruct F; auto).
  cbn [init_at starts ends registers]. split; [constructor; auto|]. split; [|auto].
  apply Forall_app. split; auto. destruct Fe; cbn; auto.
Qed.

Lemma init_config p v : regexp_wf re -> vars_ok v -> in_text p -> config_ok 0 p (init_at re p v) (Stack [] []).
Proof.
  intros W V Hp. apply andb_prop in Prog_ok as [P0 _]. split; [exact P0|]. split; [exact Hp|]. split; [now apply init_at_ok|]. split; constructor.
Qed.

Lemma re_match_ok fuel p partial v : regexp_wf re -> vars_ok v -> in_text p ->
  match re_match re text fuel p partial v with Ok (_, v') => vars_ok v' | Raise _ => False | Stuck => True end.
Proof.
  intros W V Hp. pose proof (init_config p v W V Hp) as C. unfold re_match. rewrite init_vars_closed by (auto; apply V). cbn iota.
  destruct (match_loop _ _ _ _ _ _ _ _) as [[b v']|e|] eqn:M; auto.
  - now apply loop_vars_ok in M.
  - now apply loop_no_raise in M.
Qed.

Lemma alloc_groups_ok n : forall i v, vars_ok v -> 0 <= i -> i + Z.of_nat n <= NUM_GROUPS ->
  exists l, alloc_groups n i v = Ok l /\ length l = (2 * n)%nat /\ Forall (fun x => x = -1 \/ in_text x) l.
Proof.
  induction n as [|n IH]; intros i v V Hi Hn; cbn [alloc_groups]; [exists []; auto|].
  destruct (get_loc_ok (LStart i) v V) as (s & -> & Hs); [unfold loc_ok; lia|].
  destruct (get_loc_ok (LEnd i) v V) as (e & -> & He); [unfold loc_ok; lia|].
  destruct (IH (i + 1) v V) as (l & -> & L & F); try lia.
  destruct s as [s|], e as [e|]; (eexists; split; [reflexivity|]; split; [cbn [length]; lia | auto 10]).
Qed.
End Safe.

(** ** What a match depends on

    The arrays are static: their cells that the regular expression does not use
    are left from earlier matches, in other texts.  The result does not depend on
    them when the instructions name groups and registers of the regular
    expression, which are cleared first. *)
Definition own_instr (re : regexp) {A : Arch} (i : Z) : bool :=
  let one_of l := existsb (Z.eqb (Opcode i)) l in
  if one_of [BEGGROUP; ENDGROUP; REFGROUP] then (1 <=? Arg i) && (Arg i <? Numgroups re)
  else if one_of [SETMARK; CHECKPROGRESS] then Arg i <? Numregisters re
  else true.
Definition own_prog {A : Arch} (re : regexp) : bool := forallb (own_instr re) (Prog re).

Section Own.
Context {A : Arch}.
Variable re : regexp.
Variable text : list Z.

(** The cells that are cleared or set when a match starts; [end0] tells whether
    the end of the match has been set too. *)
Definition own (end0 : bool) (l : loc) : bool :=
  match l with
  | LStart n => (0 <=? n) && (n <? Numgroups re)
  | LEnd n => (if end0 then 0 <=? n else 1 <=? n) && (n <? Numgroups re)
  | LReg n => (0 <=? n) && (n <? Numregisters re)
  end.
Definition same_sizes (v w : vars) : Prop :=
  zlen (starts v) = zlen (starts w) /\ zlen (ends v) = zlen (ends w) /\ zlen (registers v) = zlen (registers w).
Definition agree (end0 : bool) (v w : vars) : Prop :=
  same_sizes v w /\ forall l, own end0 l = true -> get_loc l v = get_loc l w.
(** Equal, or equal up to cells that are not used. *)
Definition outcomes_agree (o o' : outcome) : Prop :=
  o = o' \/ exists b pc t v w, o = Pushes b pc t v /\ o' = Pushes b pc t w /\ agree false v w.
Definition results_agree {T} (R : T -> T -> Prop) (x y : res T) : Prop :=
  match x, y with Ok a, Ok b => R a b | Raise e, Raise f => e = f | Stuck, Stuck => True | _, _ => False end.
Definition matches_agree (x y : bool * vars) : Prop := fst x = fst y /\ agree (fst x) (snd x) (snd y).

Lemma results_agree_refl {T} (R : T -> T -> Prop) x : (forall a, R a a) -> results_agree R x x.
Proof. intros H. destruct x; cbn; auto. Qed.

Lemma agree_refl e v : agree e v v.
Proof. repeat split. Qed.

Lemma updZ_two {T} (l l' : list T) n x : zlen l = zlen l' ->
  updZ l n x = None /\ updZ l' n x = None \/
  exists a b, updZ l n x = Some a /\ updZ l' n x = Some b /\ zlen a = zlen b /\
    forall m, nthZ l m = nthZ l' m \/ m = n -> nthZ a m = nthZ b m.
Proof.
  intros E. destruct (Z.lt_ge_cases n 0); [|destruct (Z.lt_ge_cases n (zlen l))].
  1,3: left; unfold updZ, zlen in *; rewrite <- E; replace (_ && _) with false by (symmetry; apply andb_false_iff; rewrite Z.leb_gt, Z.ltb_ge; lia); auto.
  right. destruct (updZ_spec l n x) as (a & Ha & La & Na); [lia|]. destruct (updZ_spec l' n x) as (b & Hb & Lb & Nb); [lia|].
  exists a, b. unfold zlen in *. repeat split; auto; [lia|]. intros m Hm. rewrite Na, Nb. destruct (Z.eqb_spec m n); [reflexivity|]. tauto.
Qed.

(** The same assignment on both sides makes its cell agree. *)
Lemma set_loc_agree e l x v w : agree e v w ->
  results_agree (fun v' w' => same_sizes v' w' /\ forall l', own e l' = true \/ l' = l -> get_loc l' v' = get_loc l' w') (set_loc l x v) (set_loc l x w).
Proof.
  intros [(Ls & Le & Lr) H]. unfold set_loc.
  destruct l as [n|n|n];
    [destruct (updZ_two _ _ n x Ls) as [[-> ->]|(a & b & -> & -> & L & E)]
    |destruct (updZ_two _ _ n x Le) as [[-> ->]|(a & b & -> & -> & L & E)]
    |destruct (updZ_two _ _ n x Lr) as [[-> ->]|(a & b & -> & -> & L & E)]]; cbn [of_option results_agree]; auto;
    (split; [repeat split; cbn; auto|]; intros l' Hl; unfold get_loc in *; destruct l' as [m|m|m]; cbn [starts ends registers] in *;
      try (destruct Hl as [Hl|Hl]; [now apply (H _) in Hl | discriminate Hl]);
      f_equal; apply E; destruct Hl as [Hl|Hl]; [left | right; congruence]).
  - specialize (H (LStart m) Hl). cbn in H. now destruct (nthZ (starts v) m), (nthZ (starts w) m); inversion H.
  - specialize (H (LEnd m) Hl). cbn in H. now destruct (nthZ (ends v) m), (nthZ (ends w) m); inversion H.
  - specialize (H (LReg m) Hl). cbn in H. now destruct (nthZ (registers v) m), (nthZ (registers w) m); inversion H.
Qed.

Lemma save_and_set_agree l pc t v w : agree false v w -> own false l = true ->
  results_agree outcomes_agree (save_and_set l pc t v) (save_and_set l pc t w).
Proof.
  intros H Hl. unfold save_and_set. rewrite <- (proj2 H l Hl). destruct (get_loc l v) as [old| |]; cbn [results_agree]; auto.
  pose proof (set_loc_agree false l (Some t) v w H) as S. destruct (set_loc l (Some t) v), (set_loc l (Some t) w); cbn in S |- *; auto; try contradiction.
  right. do 5 eexists. split; [reflexivity|]. split; [reflexivity|]. split; [apply S|]. intros l' Hl'. apply S. auto.
Qed.

(** The opcodes that use the variables. *)
Lemma exec_instr_no_vars i pc t v : existsb (Z.eqb (Opcode i)) [BEGGROUP; ENDGROUP; REFGROUP; SETMARK; CHECKPROGRESS; PUSHBACK] = false ->
  forall w, exec_instr re text i pc t v = exec_instr re text i pc t w.
Proof.
  intros H w. cbn [existsb] in H. repeat (apply orb_false_elim in H as [? H]). unfold exec_instr.
  repeat match goal with E : (Opcode i =? _) = false |- _ => rewrite !E; clear E end. reflexivity.
Qed.

Lemma own_args i : own_instr re i = true ->
  (existsb (Z.eqb (Opcode i)) [BEGGROUP; ENDGROUP; REFGROUP] = true -> forall e, own e (LStart (Arg i)) = true /\ own e (LEnd (Arg i)) = true) /\
  (existsb (Z.eqb (Opcode i)) [SETMARK; CHECKPROGRESS] = true -> forall e, own e (LReg (Arg i)) = true).
Proof.
  unfold own_instr, own. pose proof (Arg_pos i) as P. intros H. split; intros E e; rewrite E in H.
  - destruct e; split; lia.
  - replace (existsb _ [BEGGROUP; ENDGROUP; REFGROUP]) with false in H; [lia|].
    cbn [existsb] in *. rewrite !orb_false_r in *. apply orb_prop in E as [E|E]; apply Z.eqb_eq in E; rewrite E; reflexivity.
Qed.

Lemma exec_agree i pc t v w : own_instr re i = true -> agree false v w ->
  results_agree outcomes_agree (exec_instr re text i pc t v) (exec_instr re text i pc t w).
Proof.
  intros O H. apply own_args in O as [G R].
  destruct (existsb (Z.eqb (Opcode i)) [BEGGROUP; ENDGROUP; REFGROUP; SETMARK; CHECKPROGRESS; PUSHBACK]) eqn:E.
  2: rewrite (exec_instr_no_vars i pc t v E w); apply results_agree_refl; now left.
  cbn [existsb] in E. rewrite orb_false_r in E.
  repeat (apply orb_prop in E as [E|E]); apply Z.eqb_eq in E; unfold exec_instr; rewrite E in *; cbn [Z.eqb Pos.eqb existsb orb
    CHAR CHARNORM STRING STRINGNORM CHARCLASS BOL EOL WORDBOUNDARY BEGGROUP ENDGROUP REFGROUP ACCEPT SIMPLEOPT SIMPLESTAR
    SIMPLEPLUS GOTO PUSHBACK SETMARK CHECKPROGRESS] in *.
  - apply save_and_set_agree; auto. now apply G.
  - apply save_and_set_agree; auto. now apply G.
  - destruct (G eq_refl false) as [G1 G2]. rewrite <- (proj2 H _ G1), <- (proj2 H _ G2). apply results_agree_refl. now left.
  - now apply save_and_set_agree; auto.
  - rewrite <- (proj2 H _ (R eq_refl false)). apply results_agree_refl. now left.
  - right. now do 5 eexists.
Qed.

Lemma backtrack_agree fuel : forall s v w, agree false v w ->
  results_agree (fun x y => fst x = fst y /\ agree false (snd x) (snd y)) (backtrack fuel s v) (backtrack fuel s w).
Proof.
  induction fuel as [|fuel IH]; intros s v w H; cbn [backtrack]; [exact I|]. destruct (pop s) as [[[pc t|l x] s']|]; cbn; auto.
  pose proof (set_loc_agree false l x v w H) as S. destruct (set_loc l x v), (set_loc l x w); cbn in S |- *; auto; try contradiction.
  apply IH. split; [apply S|]. intros l' Hl'. apply S. auto.
Qed.

Lemma accept_agree t v w : agree false v w -> results_agree matches_agree (accept t v) (accept t w).
Proof.
  intros H. unfold accept, set_end0. pose proof (set_loc_agree false (LEnd 0) (Some t) v w H) as S.
  destruct (set_loc _ _ v), (set_loc _ _ w); cbn in S |- *; auto; try contradiction. split; [reflexivity|]. cbn [fst snd]. split; [apply S|].
  intros l Hl. apply S. destruct l as [n|n|n]; auto. destruct (Z.eqb_spec n 0) as [->|N]; auto. left. cbn in *. lia.
Qed.

Lemma loop_agree partial fuel : own_prog re = true -> forall pc t v w s, agree false v w ->
  results_agree matches_agree (match_loop re text fuel partial pc t v s) (match_loop re text fuel partial pc t w s).
Proof.
  intros O. induction fuel as [|fuel IH]; intros pc t v w s H; [exact I|]. rewrite !loop_S.
  assert (Res : results_agree matches_agree (resume re text partial fuel v s) (resume re text partial fuel w s)).
  { unfold resume. pose proof (backtrack_agree (S (stack_size s)) s v w H) as B.
    destruct (backtrack _ s v) as [[r v']| |], (backtrack _ s w) as [[r' w']| |]; cbn in B |- *; auto; try contradiction. destruct B as [<- B].
    destruct r as [[[pc' t'] s']|]; [now apply IH|]. split; [reflexivity | exact B]. }
  unfold fetch. destruct (nthZ (Prog re) pc) as [i|] eqn:F; cbn [of_option]; [|exact I].
  assert (Oi : own_instr re i = true) by (apply nthZ_split in F as (a & b & F & _); unfold own_prog in O; rewrite F, forallb_app in O; apply andb_prop in O as [_ O]; now apply andb_prop in O).
  pose proof (exec_agree i (pc + 1) t v w Oi H) as X.
  destruct (exec_instr re text i (pc + 1) t v) as [o| |], (exec_instr re text i (pc + 1) t w) as [o'| |]; cbn in X |- *; auto; try contradiction.
  destruct X as [<-|(b & pc' & t' & v' & w' & -> & -> & A')]; [|now apply IH].
  destruct o as [pc' t'|b pc' t' v'|t'| |t']; auto using accept_agree, agree_refl. destruct partial; auto using accept_agree.
Qed.

Lemma init_at_agree p v w : regexp_wf re -> vars_wf v -> vars_wf w -> agree false (init_at re p v) (init_at re p w).
Proof.
  intros W Hv Hw. split.
  { pose proof (init_at_wf re W p v Hv) as (? & ? & ?). pose proof (init_at_wf re W p w Hw) as (? & ? & ?). repeat split; congruence. }
  assert (B : forall n (l l' : list (option Z)) i, 0 <= i < Z.of_nat n -> nthZ (blank n l) i = nthZ (blank n l') i).
  { intros n l l' i Hi. unfold blank, nthZ. replace (i <? 0) with false by lia. rewrite !nth_error_app1 by (rewrite repeat_length; lia). reflexivity. }
  destruct W as [Wg Wr], Hv as (Hs & He & Hr), Hw as (Hs' & He' & Hr'). unfold get_loc, init_at, NUM_GROUPS in *.
  intros [n|n|n] Hn; cbn [own starts ends registers] in *; f_equal.
  - destruct (Z.eqb_spec n 0) as [->|N]; [reflexivity|]. rewrite !nthZ_cons by lia. apply B. lia.
  - destruct (ends v) as [|x l], (ends w) as [|y l']; unfold zlen in *; cbn [length] in *; try lia. cbn [firstn app tl].
    rewrite !nthZ_cons by lia. apply B. lia.
  - apply B. lia.
Qed.

Lemma re_match_agree fuel p partial v w : own_prog re = true -> regexp_wf re -> vars_wf v -> vars_wf w ->
  results_agree matches_agree (re_match re text fuel p partial v) (re_match re text fuel p partial w).
Proof.
  intros O W Hv Hw. unfold re_match. rewrite !init_vars_closed by assumption. apply loop_agree; auto. now apply init_at_agree.
Qed.

Lemma alloc_groups_agree n : forall i v w, agree true v w -> 0 <= i -> i + Z.of_nat n <= Numgroups re -> alloc_groups n i v = alloc_groups n i w.
Proof.
  induction n as [|n IH]; intros i v w H Hi Hn; cbn [alloc_groups]; [reflexivity|].
  rewrite (proj2 H (LStart i)), (proj2 H (LEnd i)), (IH (i + 1) v w) by (auto; cbn; lia). reflexivity.
Qed.

(** Whatever the arrays held. *)
Lemma re_match_any_vars fuel p partial v : Forall (fun b => 0 <= b < 256) text -> prog_ok re = true -> own_prog re = true -> regexp_wf re ->
  vars_wf v -> in_text text p ->
  match re_match re text fuel p partial v with
  | Ok (b, v') => vars_wf v' /\ (b = true -> exists g, re_alloc_groups re v' = Ok g /\
      length g = (2 * Z.to_nat (Numgroups re))%nat /\ Forall (fun x => x = -1 \/ in_text text x) g)
  | Stuck => True
  | Raise _ => False
  end.
Proof.
  intros T P O W Hv Hp. assert (V : vars_ok text no_vars).
  { split; [repeat split|]. repeat split; apply Forall_forall; intros x Hx; apply repeat_spec in Hx; subst x; exact I. }
  pose proof (re_match_agree fuel p partial v no_vars O W Hv (proj1 V)) as Ag. pose proof (re_match_ok re text T P fuel p partial no_vars) as Ok'.
  destruct (re_match re text fuel p partial v) as [[b v']| |], (re_match re text fuel p partial no_vars) as [[b0 w]| |] eqn:M; cbn in Ag; auto; try contradiction.
  destruct Ag as [Eb [(L1 & L2 & L3) H]]. cbn [fst snd] in *. subst b0. specialize (Ok' W V Hp). pose proof Ok' as [(W1 & W2 & W3) _].
  split; [repeat split; congruence|]. intros ->. destruct W as [Wg _].
  destruct (alloc_groups_ok text (Z.to_nat (Numgroups re)) 0 w Ok') as (g & E & L & F); try lia. exists g. split; [|auto].
  unfold re_alloc_groups. rewrite (alloc_groups_agree _ 0 v' w) by (auto; try lia; repeat split; auto). exact E.
Qed.
End Own.

(** C21. Invariant of the matcher: for a well-formed program and a text of bytes,
    from a configuration where the program counter is in the program, the current
    position, the groups, the registers and the saved positions are in the text
    and the saved locations are in their arrays, a turn of the loop makes only
    accesses that are in bounds and either ends the match with valid variables or
    reaches such a configuration again. *)
Theorem match_loop_invariant {A : Arch} re text partial pc t v s :
  Forall (fun b => 0 <= b < 256) text -> prog_ok re = true -> config_ok re text pc t v s -> turn_ok re text partial pc t v s.
Proof. intros T P C. now apply turn_safe. Qed.

Lemma match_loop_invariant_witness : turn_ok (A := arch64) sample_re (bytes_of "xbc") true 1 1 no_vars (Stack [] []).
Proof.
  apply (match_loop_invariant (A := arch64) sample_re (bytes_of "xbc") true 1 1 no_vars (Stack [] [])).
  - repeat constructor; cbn; lia.
  - reflexivity.
  - split; [reflexivity|]. split; [unfold in_text; cbn; lia|]. split; [|split; constructor].
    split; [repeat split|]. repeat split; apply Forall_forall; intros x Hx; apply repeat_spec in Hx; subst x; exact I.
Defined.

(** C23. [re_string_match] and [re_partial_match] raise [Invalid_argument] exactly
    when the position is outside the text, whatever matches came before and
    whatever positions they left in the static groups and registers.  Otherwise
    their answer is the one of the matcher: the empty array when it fails, and
    when it succeeds the bounds of all the groups of the regular expression, each
    in the text or -1.  No access is out of bounds: the answer is missing only
    when the matcher runs out of fuel. *)
Theorem match_groups_in_text {A : Arch} re text msg partial fuel pos v :
  Forall (fun b => 0 <= b < 256) text -> prog_ok re = true -> own_prog re = true -> regexp_wf re -> vars_wf v ->
  (forall e, match_at re text msg partial fuel pos v = Raise e <-> ~ in_text text pos /\ e = Invalid_argument msg) /\
  (in_text text pos ->
     match re_match re text fuel pos partial v with
     | Ok (true, v') => vars_wf v' /\ exists g, match_at re text msg partial fuel pos v = Ok (g, v') /\
         len g = 2 * Numgroups re /\ Forall (fun x => x = -1 \/ in_text text x) g
     | Ok (false, v') => vars_wf v' /\ match_at re text msg partial fuel pos v = Ok ([], v')
     | r => r = Stuck /\ match_at re text msg partial fuel pos v = Stuck
     end).
Proof.
  intros T P O W V. unfold match_at. fold (in_text text pos).
  destruct ((pos <? 0) || (len text <? pos)) eqn:Hp.
  { assert (N : ~ in_text text pos) by (unfold in_text; lia). split; [|tauto]. intros e. split; [intros H; injection H as <-; auto | intros [_ ->]; reflexivity]. }
  assert (I : in_text text pos) by (unfold in_text; lia).
  pose proof (re_match_any_vars re text fuel pos partial v T P O W V I) as M.
  destruct (re_match re text fuel pos partial v) as [[[] v']| |]; [|cbn iota|contradiction|].
  - destruct M as [V' M]. destruct (M eq_refl) as (g & E & L & F). rewrite E. split; [intros e; split; [discriminate | tauto]|].
    intros _. split; [exact V'|]. exists g. split; [reflexivity|]. destruct W as [Wg _]. split; [unfold len; lia | exact F].
  - split; [intros e; split; [discriminate | tauto] | intros _; split; [apply M | reflexivity]].
  - split; [intros e; split; [discriminate | tauto] | intros _; split; reflexivity].
Qed.

(** The group 1 of an earlier match is outside this text. *)
Definition stale_vars : vars := Vars (None :: Some 100 :: repeat None 30) (None :: Some 200 :: repeat None 30) (repeat None 64).

Lemma match_groups_in_text_witness : exists v' g,
  re_string_match (A := arch64) sample_re (bytes_of "xbc") 20 1 stale_vars = Ok (g, v') /\ len g = 4.
Proof.
  assert (H := proj2 (match_groups_in_text (A := arch64) sample_re (bytes_of "xbc") "Str.string_match" false 20 1 stale_vars
    ltac:(repeat constructor; cbn; lia) eq_refl eq_refl ltac:(split; unfold NUM_GROUPS, NUM_REGISTERS; cbn [sample_re Numgroups Numregisters]; lia)
    ltac:(repeat split)) ltac:(unfold in_text; cbn; lia)).
  destruct (re_match (A := arch64) sample_re (bytes_of "xbc") 20 1 false stale_vars) as [[[] v']| |] eqn:M; vm_compute in M; try discriminate M.
  destruct H as (_ & g & E & L & _). exists v', g. split; [exact E | exact L].
Defined.
