(* ===== verification/StrReplace.v ===== *)
(** StrReplace: [re_replacement_text] of strstubs.c, which computes the length of
    the replacement text in a first pass and writes it in a second one. *)
From Stdlib Require Import ZArith Lia Bool Ascii String List.
From S2P Require Import Prelude Mlvalues InterpState InterpCalls ExternOutput MarshalBytes StrMatch StrProof.
Import ListNotations.
Local Open Scope Z_scope.

Section Replacement.
Context {A : Arch}.
Variable groups : list Z.
Variable orig : list Z.

Definition illegal : exn := Failure "Str.replace: illegal backslash sequence".
Definition unmatched : exn := Failure "Str.replace: reference to unmatched group".
Definition backslash : Z := 92.
Definition is_digit (c : Z) : bool := (48 <=? c) && (c <=? 57).

(** [Field(groups, c*2)] and the next field. *)
Definition group_field (i : Z) : res Z := of_option (nthZ groups i).

(** The first pass: [len] for the characters of [repl]. *)
Fixpoint replacement_length (repl : list Z) (length : Z) : res Z :=
  match repl with
  | [] => Ok length
  | c :: repl =>
      if negb (c =? backslash) then replacement_length repl (wrap WORD (length + 1))
      else
        match repl with
        | [] => Raise illegal
        | c :: repl =>
            if c =? backslash then replacement_length repl (wrap WORD (length + 1))
            else if is_digit c then
              let c := c - 48 in
              if len groups <=? c * 2 then Raise unmatched
              else
                let! start := group_field (c * 2) in
                let! end_ := group_field (c * 2 + 1) in
                if start =? -1 then Raise unmatched
                else replacement_length repl (wrap WORD (length + (end_ - start)))
            else replacement_length repl (wrap WORD (length + 2))
        end
  end.

(** [*q++ = c], in a string of the length allocated. *)
Definition put_char (q c : Z) (buf : list Z) : res (list Z) := of_option (updZ buf q c).
(** [memmove (q, &Byte(orig, start), len)] *)
Fixpoint put_chars (q : Z) (l : list Z) (buf : list Z) : res (list Z) :=
  match l with [] => Ok buf | c :: l => let! buf := put_char q c buf in put_chars (q + 1) l buf end.
Definition memmove_orig (q start n : Z) (buf : list Z) : res (list Z) :=
  if (0 <=? start) && (0 <=? n) && (start + n <=? len orig) then put_chars q (substring orig start (start + n)) buf else Stuck.

(** The second pass. *)
Fixpoint replacement_write (repl : list Z) (q : Z) (buf : list Z) : res (list Z) :=
  match repl with
  | [] => Ok buf
  | c :: repl =>
      if negb (c =? backslash) then let! buf := put_char q c buf in replacement_write repl (q + 1) buf
      else
        match repl with
        | [] => Stuck
        | c :: repl =>
            if c =? backslash then let! buf := put_char q backslash buf in replacement_write repl (q + 1) buf
            else if is_digit c then
              let c := c - 48 in
              let! start := group_field (c * 2) in
              let! end_ := group_field (c * 2 + 1) in
              let n := wrap WORD (end_ - start) in
              let! buf := memmove_orig q start n buf in replacement_write repl (q + n) buf
            else
              let! buf := put_char q backslash buf in
              let! buf := put_char (q + 1) c buf in replacement_write repl (q + 2) buf
        end
  end.

(** [alloc_string] leaves the contents undefined: [junk] is what was there. *)
Definition fresh_string (junk : nat -> Z) (n : Z) : list Z := map junk (seq 0 (Z.to_nat n)).
Definition re_replacement_text (junk : nat -> Z) (repl : list Z) : res (list Z) :=
  let! n := replacement_length repl 0 in replacement_write repl 0 (fresh_string junk n).

(** ** The specification *)

(** Groups as a match, complete or partial, leaves them: unmatched or in the text.
    A partial match can leave a group that was entered again and not closed: its
    start is then after its end. *)
Definition groups_ok : Prop := forall c s e, nthZ groups (2 * c) = Some s -> nthZ groups (2 * c + 1) = Some e ->
  s = -1 \/ 0 <= s <= len orig /\ 0 <= e <= len orig.
Definition pairs : Prop := exists n, len groups = 2 * n.

(** The text of group [c]: there is none when the group was left open. *)
Definition group_text (c : Z) : option (res (list Z)) :=
  match nthZ groups (2 * c), nthZ groups (2 * c + 1) with
  | Some s, Some e => if s =? -1 then None else Some (if e <? s then Stuck else Ok (substring orig s e))
  | _, _ => None
  end.
(** The replacement text: a character, an escaped one or the text of a group.  An
    illegal escape anywhere comes before the missing text of a group. *)
Fixpoint expansion (repl : list Z) : res (list Z) :=
  match repl with
  | [] => Ok []
  | c :: repl =>
      if negb (c =? backslash) then let! l := expansion repl in Ok (c :: l)
      else
        match repl with
        | [] => Raise illegal
        | c :: repl =>
            if c =? backslash then let! l := expansion repl in Ok (backslash :: l)
            else if is_digit c then
              match group_text (c - 48) with
              | Some t => let! l := expansion repl in let! t := t in Ok (t ++ l)
              | None => Raise unmatched
              end
            else let! l := expansion repl in Ok (backslash :: c :: l)
        end
  end.

(** ** Both passes follow the specification *)

Hypothesis Groups : groups_ok.
Hypothesis Pairs : pairs.

Lemma group_pair c : 0 <= c -> c * 2 < len groups ->
  exists s e, group_field (c * 2) = Ok s /\ group_field (c * 2 + 1) = Ok e /\
    group_text c = (if s =? -1 then None else Some (if e <? s then Stuck else Ok (substring orig s e))) /\
    (s = -1 \/ 0 <= s <= len orig /\ 0 <= e <= len orig).
Proof.
  intros Hc Hl. destruct Pairs as [n Hn]. unfold group_field, group_text.
  destruct (nthZ_Some groups (2 * c)) as (s & Es & _); [unfold zlen, len in *; lia|].
  destruct (nthZ_Some groups (2 * c + 1)) as (e & Ee & _); [unfold zlen, len in *; lia|].
  exists s, e. rewrite (Z.mul_comm c 2), Es, Ee. repeat split; auto. exact (Groups _ _ _ Es Ee).
Qed.

Lemma group_text_none c : 0 <= c -> len groups <= c * 2 -> group_text c = None.
Proof. intros Hc Hl. unfold group_text. rewrite nthZ_None; [reflexivity | unfold zlen, len in *; lia]. Qed.

Lemma substring_length s e : 0 <= s <= e -> e <= len orig -> len (substring orig s e) = e - s.
Proof. intros H1 H2. unfold substring, len in *. rewrite length_firstn, length_skipn. lia. Qed.

(** The first pass has the exceptions of the specification, and its length. *)
Definition length_of (n : Z) (x : res (list Z)) (y : res Z) : Prop :=
  match x with Ok l => y = Ok (wrap WORD (n + len l)) | Raise e => y = Raise e | Stuck => exists m, y = Ok m end.

Lemma length_of_add n k x f y : (forall l, len (f l) = k + len l) -> length_of (n + k) x y -> length_of n (let! l := x in Ok (f l)) y.
Proof. intros F H. destruct x as [l| |]; cbn in *; auto. rewrite H, F. do 2 f_equal. lia. Qed.

Lemma replacement_length_spec repl : forall n, length_of n (expansion repl) (replacement_length repl (wrap WORD n)).
Proof.
  induction repl as [repl IH] using (induction_ltof1 _ (@length Z)). unfold ltof in IH. pose proof WORD_pos as HW.
  assert (Step : forall r k n, (length r < length repl)%nat -> length_of (n + k) (expansion r) (replacement_length r (wrap WORD (wrap WORD n + k))))
    by (intros r k n H; rewrite wrap_wrap_add_l; now apply IH).
  intros n. destruct repl as [|c repl]; cbn [replacement_length expansion length_of]; [unfold len; cbn; now rewrite Z.add_0_r|].
  destruct (negb (c =? backslash)).
  { apply length_of_add with (k := 1); [intros l; unfold len; cbn [length]; lia | apply Step; cbn; lia]. }
  destruct repl as [|c2 repl]; [reflexivity|]. destruct (c2 =? backslash).
  { apply length_of_add with (k := 1); [intros l; unfold len; cbn [length]; lia | apply Step; cbn; lia]. }
  destruct (is_digit c2) eqn:D; [|apply length_of_add with (k := 2); [intros l; unfold len; cbn [length]; lia | apply Step; cbn; lia]].
  unfold is_digit in D. apply andb_prop in D as [D1 D2]. destruct (Z.leb_spec (len groups) ((c2 - 48) * 2)).
  { rewrite group_text_none by lia. reflexivity. }
  destruct (group_pair (c2 - 48)) as (s & e & -> & -> & -> & G); [lia | auto |]. cbn iota. destruct (Z.eqb_spec s (-1)); [reflexivity|].
  specialize (Step repl (e - s) n ltac:(cbn; lia)). destruct (Z.ltb_spec e s).
  - destruct (expansion repl); cbn [length_of] in *; eauto.
  - apply length_of_add with (k := e - s); auto. intros l. unfold len at 1. rewrite length_app, Nat2Z.inj_add.
    fold (len (substring orig s e)) (len l). rewrite substring_length; lia.
Qed.

Lemma put_char_next a x b c : put_char (len a) c (a ++ x :: b) = Ok ((a ++ [c]) ++ b).
Proof. unfold put_char, len. rewrite updZ_middle. cbn. now rewrite <- app_assoc. Qed.

Lemma put_chars_next l : forall a x b, length x = length l -> put_chars (len a) l (a ++ x ++ b) = Ok ((a ++ l) ++ b).
Proof.
  induction l as [|c l IH]; intros a [|y x] b H; try discriminate H; cbn [put_chars app]; [now rewrite app_nil_r|].
  rewrite put_char_next. replace (len a + 1) with (len (a ++ [c])) by (unfold len; rewrite length_app; cbn; lia).
  rewrite IH by (cbn in H; lia). now rewrite <- !app_assoc.
Qed.

Lemma replacement_write_spec repl : forall a b l, expansion repl = Ok l -> length b = length l -> len l < 2 ^ WORD ->
  replacement_write repl (len a) (a ++ b) = Ok (a ++ l).
Proof.
  induction repl as [repl IH] using (induction_ltof1 _ (@length Z)). unfold ltof in IH. pose proof WORD_pos as HW.
  assert (Step : forall r a t l b q, (length r < length repl)%nat -> expansion r = Ok l -> length b = length l ->
    len (t ++ l) < 2 ^ WORD -> q = len a + len t -> replacement_write r q ((a ++ t) ++ b) = Ok (a ++ t ++ l)).
  { intros r a t l b q Hr Hx Hb Hl ->. replace (len a + len t) with (len (a ++ t)) by (unfold len; rewrite length_app; lia).
    rewrite (IH r Hr (a ++ t) b l Hx Hb); [now rewrite app_assoc | unfold len in *; rewrite length_app in Hl; lia]. }
  intros a b l Hx Hb Hl. destruct repl as [|c repl]; cbn [replacement_write expansion] in *.
  { injection Hx as <-. destruct b; [reflexivity | discriminate Hb]. }
  destruct (negb (c =? backslash)).
  { destruct (expansion repl) as [l'| |] eqn:E; try discriminate Hx. injection Hx as <-. destruct b as [|x b]; [discriminate Hb|].
    rewrite put_char_next. apply (Step _ _ [c]); cbn in *; auto; lia. }
  destruct repl as [|c2 repl]; [discriminate Hx|]. destruct (c2 =? backslash).
  { destruct (expansion repl) as [l'| |] eqn:E; try discriminate Hx. injection Hx as <-. destruct b as [|x b]; [discriminate Hb|].
    rewrite put_char_next. apply (Step _ _ [backslash]); cbn in *; auto; lia. }
  destruct (is_digit c2) eqn:D.
  - unfold is_digit in D. apply andb_prop in D as [D1 D2]. destruct (group_text (c2 - 48)) as [t|] eqn:T; [|discriminate Hx].
    assert (Hg : (c2 - 48) * 2 < len groups) by (destruct (Z.lt_ge_cases ((c2 - 48) * 2) (len groups)); auto; rewrite group_text_none in T by lia; discriminate).
    destruct (group_pair (c2 - 48)) as (s & e & -> & -> & Et & G); [lia | auto |]. rewrite T in Et.
    destruct (Z.eqb_spec s (-1)); [discriminate Et|]. injection Et as ->. destruct G as [G|[G1 G2]]; [lia|].
    destruct (expansion repl) as [l'| |] eqn:E; try discriminate Hx. destruct (Z.ltb_spec e s); [discriminate Hx|].
    injection Hx as <-. rewrite length_app in Hb. pose proof (substring_length s e ltac:(lia) ltac:(lia)) as Ls.
    assert (Hn : wrap WORD (e - s) = e - s) by (apply wrap_small; unfold len in *; rewrite length_app in Hl; lia).
    rewrite Hn. unfold memmove_orig. replace (_ && _) with true by (symmetry; rewrite !andb_true_iff, !Z.leb_le; lia).
    replace (s + (e - s)) with e by lia. rewrite <- (firstn_skipn (length (substring orig s e)) b).
    rewrite put_chars_next by (rewrite length_firstn; lia). apply Step; auto; [cbn; lia | rewrite length_skipn; lia | lia].
  - destruct (expansion repl) as [l'| |] eqn:E; try discriminate Hx. injection Hx as <-. destruct b as [|x [|y b]]; try discriminate Hb.
    rewrite put_char_next. replace (len a + 1) with (len (a ++ [backslash])) by (unfold len; rewrite length_app; cbn; lia).
    cbn [app]. rewrite put_char_next, <- (app_assoc a). apply (Step _ _ [backslash; c2]); cbn in *; auto; lia.
Qed.

(** A group left open is copied with a negative length. *)
Lemma replacement_write_stuck repl : len orig < 2 ^ WORD -> expansion repl = Stuck -> forall q buf, replacement_write repl q buf = Stuck.
Proof.
  intros O. induction repl as [repl IH] using (induction_ltof1 _ (@length Z)). unfold ltof in IH. pose proof WORD_pos as HW.
  assert (Put : forall q c buf, put_char q c buf = Stuck \/ exists b, put_char q c buf = Ok b)
    by (intros q c buf; unfold put_char; destruct (updZ buf q c); cbn; eauto).
  assert (Puts : forall l q buf, put_chars q l buf = Stuck \/ exists b, put_chars q l buf = Ok b).
  { induction l as [|c l IHl]; intros q buf; cbn [put_chars]; eauto. destruct (Put q c buf) as [->|[b ->]]; auto. }
  intros Hx q buf. destruct repl as [|c repl]; [discriminate Hx|]. cbn [expansion replacement_write] in *. destruct (negb (c =? backslash)).
  { destruct (Put q c buf) as [->|[b ->]]; [reflexivity|]. apply IH; [cbn; lia|]. now destruct (expansion repl). }
  destruct repl as [|c2 repl]; [discriminate Hx|]. destruct (c2 =? backslash).
  { destruct (Put q backslash buf) as [->|[b ->]]; [reflexivity|]. apply IH; [cbn; lia|]. now destruct (expansion repl). }
  destruct (is_digit c2) eqn:D.
  - unfold is_digit in D. apply andb_prop in D as [D1 D2].
    destruct (Z.lt_ge_cases ((c2 - 48) * 2) (len groups)); [|rewrite group_text_none in Hx by lia; discriminate].
    destruct (group_pair (c2 - 48)) as (s & e & -> & -> & Et & G); [lia | auto |]. rewrite Et in Hx.
    destruct (Z.eqb_spec s (-1)); [discriminate Hx|]. cbn iota. unfold memmove_orig. destruct (Z.ltb_spec e s).
    + rewrite <- (wrap_add_mul WORD (e - s) 1), wrap_small by lia.
      replace (_ && _) with false by (symmetry; rewrite !andb_false_iff, !Z.leb_gt; lia). reflexivity.
    + destruct (_ && _); [|reflexivity]. destruct (Puts (substring orig s (s + wrap WORD (e - s))) q buf) as [->|[b ->]]; [reflexivity|].
      apply IH; [cbn; lia|]. now destruct (expansion repl).
  - destruct (Put q backslash buf) as [->|[b ->]]; [reflexivity|]. destruct (Put (q + 1) c2 b) as [->|[b' ->]]; [reflexivity|].
    apply IH; [cbn; lia|]. now destruct (expansion repl).
Qed.
End Replacement.


(** The program of the expression that repeats a group 1: a group 2 of an a, then a b. *)
Definition reentered_re : regexp :=
  Regexp [16 + 7 * 256; 8 + 256; 8 + 2 * 256; 97 * 256; 9 + 2 * 256; 98 * 256; 9 + 256; 15 - 8 * 256; 11] [] [] 3 0 (-1).

