(* ===== verification/Gc.v ===== *)
(** Gc: the marking phase of the major collector, src/inline-more/byterun/
    major_gc.c, with the part of finalise.c it calls and the write barrier
    [Modify] of memory.h.

    Memory is a map from the byte addresses of words to words; a pointer is the
    address of the first field of a block, its header is the word before. *)
From Stdlib Require Import ZArith Lia List Bool.
From S2P Require Import Prelude Mlvalues.
Import ListNotations.
Local Open Scope Z_scope.

Section Memory.
Context {A : Arch}.

Definition Hd_op (m : mem) (op : Z) : Z := m (op - sizeof_value).
Definition Op_val (m : mem) (v i : Z) : Z := m (v + Bsize_wsize i).
Definition Val_hp (hp : Z) : Z := hp + sizeof_value.
Definition Forward_value (m : mem) (v : Z) : Z := Op_val m v 0.
End Memory.

Definition Not_in_heap : Z := 0.
Definition In_heap : Z := 1.
Definition In_young : Z := 2.
Definition In_static_data : Z := 4.
Definition In_code_area : Z := 8.

Definition Phase_mark : Z := 0.
Definition Phase_sweep : Z := 1.
Definition Phase_idle : Z := 2.
Definition Subphase_main : Z := 10.
Definition Subphase_weak1 : Z := 11.
Definition Subphase_weak2 : Z := 12.
Definition Subphase_final : Z := 13.

(** ** State *)

(** finalise.c *)
Record final := Final { fun_ : Z; val : Z; offset : Z }.

(** The variables of major_gc.c, finalise.c and memory.c that marking uses.
    [gray_vals] is the array from [gray_vals_cur] down to its start, [finalisable]
    the finalisable set, [to_do] the finalising set, [ref_table] the table of
    pointers to the minor heap. *)
Record gc := GC {
  memory : mem; gray_vals : list Z; gray_vals_size : Z; heap_is_pure : bool;
  markhp : Z; chunk : Z; limit : Z; weak_prev : Z; caml_gc_phase : Z; caml_gc_subphase : Z; caml_gc_sweep_hp : Z;
  finalisable : list final; to_do : list (list final); ref_table : list Z }.

Definition set_memory m s := GC m (gray_vals s) (gray_vals_size s) (heap_is_pure s) (markhp s) (chunk s) (limit s) (weak_prev s)
  (caml_gc_phase s) (caml_gc_subphase s) (caml_gc_sweep_hp s) (finalisable s) (to_do s) (ref_table s).
Definition set_gray g sz p s := GC (memory s) g sz p (markhp s) (chunk s) (limit s) (weak_prev s)
  (caml_gc_phase s) (caml_gc_subphase s) (caml_gc_sweep_hp s) (finalisable s) (to_do s) (ref_table s).
Definition set_scan hp c l s := GC (memory s) (gray_vals s) (gray_vals_size s) (heap_is_pure s) hp c l (weak_prev s)
  (caml_gc_phase s) (caml_gc_subphase s) (caml_gc_sweep_hp s) (finalisable s) (to_do s) (ref_table s).
Definition set_subphase p s := GC (memory s) (gray_vals s) (gray_vals_size s) (heap_is_pure s) (markhp s) (chunk s) (limit s) (weak_prev s)
  (caml_gc_phase s) p (caml_gc_sweep_hp s) (finalisable s) (to_do s) (ref_table s).
Definition set_weak_prev w s := GC (memory s) (gray_vals s) (gray_vals_size s) (heap_is_pure s) (markhp s) (chunk s) (limit s) w
  (caml_gc_phase s) (caml_gc_subphase s) (caml_gc_sweep_hp s) (finalisable s) (to_do s) (ref_table s).
Definition set_phase p hp s := GC (memory s) (gray_vals s) (gray_vals_size s) (heap_is_pure s) (markhp s) (chunk s) (limit s) (weak_prev s)
  p (caml_gc_subphase s) hp (finalisable s) (to_do s) (ref_table s).
Definition set_final f t s := GC (memory s) (gray_vals s) (gray_vals_size s) (heap_is_pure s) (markhp s) (chunk s) (limit s) (weak_prev s)
  (caml_gc_phase s) (caml_gc_subphase s) (caml_gc_sweep_hp s) f t (ref_table s).
Definition set_ref_table r s := GC (memory s) (gray_vals s) (gray_vals_size s) (heap_is_pure s) (markhp s) (chunk s) (limit s) (weak_prev s)
  (caml_gc_phase s) (caml_gc_subphase s) (caml_gc_sweep_hp s) (finalisable s) (to_do s) r.

(** What marking uses and does not change: the chunks of the heap, the page table,
    the addresses of static variables, and whether [realloc] finds room for the
    array it is asked. *)
Class Heap_env := {
  caml_heap_start : Z;
  Chunk_next : Z -> Z;
  Chunk_size : Z -> Z;
  Classify_addr : Z -> Z;
  Is_young : Z -> bool;
  caml_stat_heap_size : Z;
  caml_weak_list_head : Z;
  caml_weak_none : Z;
  realloc_ok : gc -> bool }.

Section Marking.
Context {A : Arch} {Env : Heap_env}.

Definition Is_in_heap (a : Z) : bool := negb (Z.land (Classify_addr a) In_heap =? 0).
Definition Is_in_value_area (a : Z) : bool :=
  negb (Z.land (Classify_addr a) (Z.lor (Z.lor In_heap In_young) In_static_data) =? 0).

Definition set_hd (v hd : Z) (s : gc) : gc := set_memory ((memory s).[v - sizeof_value <- hd]) s.
Definition set_field (v i x : Z) (s : gc) : gc := set_memory ((memory s).[v + Bsize_wsize i <- x]) s.

(** ** The gray stack *)

Definition realloc_gray_vals (s : gc) : gc :=
  if gray_vals_size s <? caml_stat_heap_size / 128 then
    if realloc_ok s then set_gray (gray_vals s) (2 * gray_vals_size s) (heap_is_pure s) s
    else set_gray [] (gray_vals_size s) false s
  else
    let kept := Z.to_nat (gray_vals_size s / 2) in
    set_gray (skipn (length (gray_vals s) - kept) (gray_vals s)) (gray_vals_size s) false s.

(** [*gray_vals_cur++ = v] and the test that follows. *)
Definition push_gray (v : Z) (s : gc) : gc :=
  let s := set_gray (v :: gray_vals s) (gray_vals_size s) (heap_is_pure s) s in
  if gray_vals_size s <=? Z.of_nat (length (gray_vals s)) then realloc_gray_vals s else s.

Definition caml_darken (v : Z) (s : gc) : gc :=
  if Is_block v && Is_in_heap v then
    let h := Hd_op (memory s) v in
    let v := if Tag_hd h =? Infix_tag then v - Infix_offset_hd h else v in
    let h := Hd_op (memory s) v in
    if Is_white_hd h then
      if Tag_hd h <? No_scan_tag then push_gray v (set_hd v (Grayhd_hd h) s)
      else set_hd v (Blackhd_hd h) s
    else s
  else s.

(** ** Forwarding *)

(** The value of a forwarding block is not short-circuited when this is true. *)
Definition keep_forward (m : mem) (f : Z) : bool :=
  negb (Is_in_value_area f) || (Tag_hd (Hd_op m f) =? Forward_tag) || (Tag_hd (Hd_op m f) =? Lazy_tag) || (Tag_hd (Hd_op m f) =? Double_tag).

(** ** Scanning a gray block *)

Definition short_circuit (v i child : Z) (s : gc) : gc :=
  if Tag_hd (Hd_op (memory s) child) =? Forward_tag then
    let f := Forward_value (memory s) child in
    if Is_block f && keep_forward (memory s) f then s else set_field v i f s
  else s.

(** One field. *)
Definition mark_field (v i : Z) (s : gc) : gc :=
  let child := Op_val (memory s) v i in
  if Is_block child && Is_in_heap child then
    let hd := Hd_op (memory s) child in
    let s := short_circuit v i child s in
    let infix := negb (Tag_hd hd =? Forward_tag) && (Tag_hd hd =? Infix_tag) in
    let child := if infix then child - Infix_offset_hd hd else child in
    let hd := if infix then Hd_op (memory s) child else hd in
    if Is_white_hd hd then push_gray child (set_hd child (Grayhd_hd hd) s) else s
  else s.
Fixpoint mark_fields (n : nat) (v i : Z) (s : gc) : gc :=
  match n with O => s | S n => mark_fields n v (i + 1) (mark_field v i s) end.

(** ** Weak pointers *)

(** The code from [weak_again]; a short-circuited pointer is examined again. *)
Fixpoint weak_again (fuel : nat) (cur i curfield : Z) (s : gc) : res gc :=
  match fuel with
  | O => Stuck
  | S fuel =>
      if negb (curfield =? caml_weak_none) && Is_block curfield && Is_in_heap curfield then
        let clean := if Is_white_hd (Hd_op (memory s) curfield) then set_field cur i caml_weak_none s else s in
        if Tag_hd (Hd_op (memory s) curfield) =? Forward_tag then
          let f := Forward_value (memory s) curfield in
          if Is_block f && negb (keep_forward (memory s) f) then weak_again fuel cur i f (set_field cur i f s)
          else Ok clean
        else Ok clean
      else Ok s
  end.
Definition weak_field (cur i : Z) (s : gc) : res gc := weak_again 2 cur i (Op_val (memory s) cur i) s.
Fixpoint weak_fields (n : nat) (cur i : Z) (s : gc) : res gc :=
  match n with O => Ok s | S n => let! s := weak_field cur i s in weak_fields n cur (i + 1) s end.

(** ** Finalised values *)

Definition Is_white_val (m : mem) (v : Z) : bool := Is_white_hd (Hd_op m v).
(** The code from [again]: whether the value goes to the finalising set, and the
    entry, whose value may have been short-circuited. *)
Fixpoint final_again (fuel : nat) (m : mem) (f : final) : res (bool * final) :=
  match fuel with
  | O => Stuck
  | S fuel =>
      if Is_white_val m (val f) then
        if Tag_hd (Hd_op m (val f)) =? Forward_tag then
          let fv := Forward_value m (val f) in
          if Is_block fv && keep_forward m fv then Ok (true, f)
          else
            let f := Final (fun_ f) fv (offset f) in
            if Is_block fv && Is_in_heap fv then final_again fuel m f else Ok (true, f)
        else Ok (true, f)
      else Ok (false, f)
  end.
(** The finalising set and the finalisable set, in the order of the table. *)
Fixpoint final_split (m : mem) (l : list final) : res (list final * list final) :=
  match l with
  | [] => Ok ([], [])
  | f :: l =>
      let! (white, f) := final_again 2 m f in
      let! (todo, kept) := final_split m l in
      Ok (if (white : bool) then (f :: todo, kept) else (todo, f :: kept))
  end.
Definition caml_final_update (s : gc) : res gc :=
  if existsb (fun f => Is_white_val (memory s) (val f)) (finalisable s) then
    let! (todo, kept) := final_split (memory s) (finalisable s) in
    let s := set_final kept (to_do s ++ [todo]) s in
    Ok (fold_left (fun s f => caml_darken (val f) s) todo s)
  else Ok s.

(** ** Marking *)

(** One turn of the loop of [mark_slice], with the work left. *)
Definition mark_turn (s : gc) (work : Z) : res (gc * Z) :=
  match gray_vals s with
  | v :: l =>
      let s := set_gray l (gray_vals_size s) (heap_is_pure s) s in
      let hd := Hd_op (memory s) v in
      let s := set_hd v (Blackhd_hd hd) s in
      let size := Wosize_hd hd in
      let s := if Tag_hd hd <? No_scan_tag then mark_fields (Z.to_nat size) v 0 s else s in
      Ok (s, work - Whsize_wosize size)
  | [] =>
      if negb (markhp s =? 0) then
        if markhp s =? limit s then
          let c := Chunk_next (chunk s) in
          Ok (if c =? 0 then set_scan 0 c (limit s) s else set_scan c c (c + Chunk_size c) s, work)
        else
          let hd := memory s (markhp s) in
          let s' := if Is_gray_hd hd then set_gray [Val_hp (markhp s)] (gray_vals_size s) (heap_is_pure s) s else s in
          Ok (set_scan (markhp s + Bhsize_hd hd) (chunk s) (limit s) s', work)
      else if negb (heap_is_pure s) then
        let s := set_gray [] (gray_vals_size s) true s in
        Ok (set_scan caml_heap_start caml_heap_start (caml_heap_start + Chunk_size caml_heap_start) s, work)
      else if caml_gc_subphase s =? Subphase_main then
        Ok (set_weak_prev caml_weak_list_head (set_subphase Subphase_weak1 s), work)
      else if caml_gc_subphase s =? Subphase_weak1 then
        let cur := memory s (weak_prev s) in
        if negb (cur =? 0) then
          let hd := Hd_op (memory s) cur in
          let sz := Wosize_hd hd in
          let! s := weak_fields (Z.to_nat (sz - 1)) cur 1 s in
          Ok (set_weak_prev cur s, work - Whsize_hd hd)
        else Ok (set_weak_prev caml_weak_list_head (set_subphase Subphase_weak2 s), work)
      else if caml_gc_subphase s =? Subphase_weak2 then
        let cur := memory s (weak_prev s) in
        if negb (cur =? 0) then
          let hd := Hd_op (memory s) cur in
          let s :=
            if Color_hd hd =? Caml_white then set_memory ((memory s).[weak_prev s <- Op_val (memory s) cur 0]) s
            else set_weak_prev cur s in
          Ok (s, work - 1)
        else
          let! s := caml_final_update s in Ok (set_subphase Subphase_final s, work)
      else if caml_gc_subphase s =? Subphase_final then
        let s := set_phase Phase_sweep caml_heap_start s in
        Ok (set_scan (markhp s) caml_heap_start (caml_heap_start + Chunk_size caml_heap_start) s, 0)
      else Stuck
  end.

(** [fuel] bounds the number of turns. *)
Fixpoint mark_slice (fuel : nat) (work : Z) (s : gc) : res gc :=
  if 0 <? work then
    match fuel with
    | O => Stuck
    | S fuel => let! (s, work) := mark_turn s work in mark_slice fuel work s
    end
  else Ok s.

(** ** Roots and the start of a cycle *)

(** The values that the program holds outside of the heap (roots.c). *)
Record roots := Roots {
  caml_global_data : Z; stack : list Z; caml_local_roots : list (list (list Z)); global_roots : list Z; hook_roots : list Z }.

Definition caml_final_do_strong_roots (s : gc) : list Z :=
  map fun_ (finalisable s) ++ flat_map (fun t => flat_map (fun f => [fun_ f; val f]) t) (to_do s).
Definition caml_do_local_roots (r : roots) : list Z := stack r ++ concat (concat (caml_local_roots r)).
Definition caml_do_roots (r : roots) (s : gc) : list Z :=
  [caml_global_data r] ++ caml_do_local_roots r ++ global_roots r ++ caml_final_do_strong_roots s ++ hook_roots r.
Definition caml_darken_all_roots (r : roots) (s : gc) : gc := fold_left (fun s v => caml_darken v s) (caml_do_roots r s) s.

Definition start_cycle (r : roots) (s : gc) : gc :=
  let s := caml_darken_all_roots r s in
  set_scan 0 (chunk s) (limit s) (set_subphase Subphase_main (set_phase Phase_mark (caml_gc_sweep_hp s) s)).

(** [while (caml_gc_phase == Phase_mark) mark_slice (LONG_MAX)] of
    [caml_finish_major_cycle]; [slices] bounds the number of slices. *)
Definition LONG_MAX : Z := 2 ^ (WORD - 1) - 1.
Fixpoint finish_mark (slices fuel : nat) (s : gc) : res gc :=
  if caml_gc_phase s =? Phase_mark then
    match slices with
    | O => Stuck
    | S slices => let! s := mark_slice fuel LONG_MAX s in finish_mark slices fuel s
    end
  else Ok s.

(** ** The write barrier *)

Definition caml_modify (fp v : Z) (s : gc) : gc :=
  let old := memory s fp in
  let s := set_memory ((memory s).[fp <- v]) s in
  if Is_in_heap fp then
    let s := if caml_gc_phase s =? Phase_mark then caml_darken old s else s in
    if Is_block v && Is_young v && negb (Is_block old && Is_young old) then set_ref_table (fp :: ref_table s) s else s
  else s.
End Marking.
