(* ===== verification/GcGraph.v ===== *)
(** GcGraph: the blocks of the major heap as a graph, colours, what the writes of the
    marker preserve, and the tri-colour invariant: a block is guarded when it is gray,
    or white and reached from a gray block through white ones. *)
From Stdlib Require Import ZArith Lia List Bool.
From S2P Require Import Prelude Mlvalues ExternOutput InterpState MarshalBytes MarshalTrail MarshalDecode Gc.
Import ListNotations.
Local Open Scope Z_scope.

(** ** Colours of headers *)

(** [h'] is [h] with another colour. *)
Definition recolored {A : Arch} (h h' c : Z) : Prop :=
  header_ok h' /\ Tag_hd h' = Tag_hd h /\ Wosize_hd h' = Wosize_hd h /\ Color_hd h' = c.

Section Colors.
Context {A : Arch}.

Lemma Whitehd_lor h c : header_ok h -> 0 <= c < 4 -> Z.lor (Whitehd_hd h) (c * 256) = h / 1024 * 1024 + c * 256 + h mod 256.
Proof.
  intros H Hc. rewrite Whitehd_eq by assumption. pose proof (Z.mod_pos_bound h 256 eq_refl).
  pose proof (lor_shiftl_add (h / 1024) (c * 256 + h mod 256) 10 ltac:(lia) ltac:(lia)) as E1.
  pose proof (lor_shiftl_add (h / 1024) (h mod 256) 10 ltac:(lia) ltac:(lia)) as E2.
  pose proof (lor_shiftl_add c (h mod 256) 8 ltac:(lia) ltac:(lia)) as E3.
  change (2 ^ 10) with 1024 in *. change (2 ^ 8) with 256 in *.
  rewrite <- E2, <- Z.lor_assoc, (Z.lor_comm (h mod 256)), E3, E1. lia.
Qed.

Lemma recolor h c : header_ok h -> 0 <= c < 4 -> recolored h (Z.lor (Whitehd_hd h) (c * 256)) (c * 256).
Proof.
  intros H Hc. rewrite Whitehd_lor by assumption. pose proof (Z.mod_pos_bound h 256 eq_refl) as Hm.
  unfold recolored, header_ok in *. rewrite Tag_hd_mod, Tag_hd_mod, Wosize_hd_div, Wosize_hd_div, Color_hd_eq.
  assert (E1 : (h / 1024 * 1024 + c * 256 + h mod 256) / 256 = h / 1024 * 4 + c) by (symmetry; apply Z.div_unique with (h mod 256); lia).
  assert (E2 : h / 1024 * 1024 + c * 256 + h mod 256 < 2 ^ WORD).
  { pose proof WORD_pos. assert (D : 2 ^ WORD = 1024 * 2 ^ (WORD - 10)) by (change 1024 with (2 ^ 10); rewrite <- Z.pow_add_r by lia; f_equal; lia).
    assert (h / 1024 < 2 ^ (WORD - 10)) by (apply Z.div_lt_upper_bound; lia). nia. }
  split; [|split; [|split]].
  - pose proof (Z.div_pos h 1024). lia.
  - symmetry. apply Z.mod_unique with (h / 1024 * 4 + c); lia.
  - symmetry. apply Z.div_unique with (c * 256 + h mod 256); lia.
  - rewrite E1. f_equal. symmetry. apply Z.mod_unique with (h / 1024); lia.
Qed.

Lemma Grayhd_recolor h : header_ok h -> recolored h (Grayhd_hd h) Caml_gray.
Proof. intros H. exact (recolor h 1 H ltac:(lia)). Qed.
Lemma Blackhd_recolor h : header_ok h -> recolored h (Blackhd_hd h) Caml_black.
Proof.
  intros H. replace (Blackhd_hd h) with (Z.lor (Whitehd_hd h) (3 * 256)); [exact (recolor h 3 H ltac:(lia))|].
  unfold Blackhd_hd, Whitehd_hd. change (3 * 256) with Caml_black. apply Z.bits_inj'. intros i Hi. rewrite !Z.lor_spec, Z.land_spec.
  destruct (Z_lt_ge_dec i WORD); [|rewrite header_high by (auto; lia); reflexivity].
  rewrite color_mask by lia. destruct (Z.testbit h i), (Z.testbit Caml_black i); reflexivity.
Qed.
Lemma Whitehd_recolor h : header_ok h -> recolored h (Whitehd_hd h) Caml_white.
Proof. intros H. replace (Whitehd_hd h) with (Z.lor (Whitehd_hd h) (0 * 256)) by apply Z.lor_0_r. exact (recolor h 0 H ltac:(lia)). Qed.
Lemma Bluehd_recolor h : header_ok h -> recolored h (Bluehd_hd h) Caml_blue.
Proof. intros H. exact (recolor h 2 H ltac:(lia)). Qed.

Lemma Wosize_hd_pos h : header_ok h -> 0 <= Wosize_hd h.
Proof. intros [H _]. rewrite Wosize_hd_div. now apply Z.div_pos. Qed.
Lemma Max_wosize_hd h : header_ok h -> Wosize_hd h <= Max_wosize.
Proof.
  intros [_ H]. assert (Hb : 2 ^ WORD = (Max_wosize + 1) * 1024) by (unfold WORD, Max_wosize; destruct ARCH_SIXTYFOUR; reflexivity).
  rewrite Wosize_hd_div. assert (h / 1024 < Max_wosize + 1) by (apply Z.div_lt_upper_bound; lia). lia.
Qed.
End Colors.

#[export] Hint Resolve Grayhd_recolor Blackhd_recolor Whitehd_recolor Bluehd_recolor Wosize_hd_pos : gc.

(** ** Blocks and pointers *)

Section Graph.
Context {A : Arch} {Env : Heap_env}.

Definition tag (m : mem) (b : Z) : Z := Tag_hd (Hd_op m b).
Definition wosize (m : mem) (b : Z) : Z := Wosize_hd (Hd_op m b).
Definition color (m : mem) (b : Z) : Z := Color_hd (Hd_op m b).

(** A value that points into the major heap, and the block it points to, inside
    which it may be an infix pointer. *)
Definition pointer (x : Z) : Prop := Is_block x = true /\ Is_in_heap x = true.
Definition base (m : mem) (p : Z) : Z := if tag m p =? Infix_tag then p - Infix_offset_hd (Hd_op m p) else p.
Definition field_of (m : mem) (b a : Z) : Prop := exists i, 0 <= i < wosize m b /\ a = b + Bsize_wsize i.

(** [c] is pointed to by a field of [b] of index at least [k]. *)
Definition child_from (m : mem) (k b c : Z) : Prop :=
  exists i, k <= i < wosize m b /\ pointer (Op_val m b i) /\ c = base m (Op_val m b i).
Definition edge (m : mem) (b c : Z) : Prop := tag m b < No_scan_tag /\ child_from m 0 b c.
Inductive reach (m : mem) (b : Z) : Z -> Prop :=
  | reach_refl : reach m b b
  | reach_step c d : reach m b c -> edge m c d -> reach m b d.

Section Heap.
(** The blocks of the heap, free ones included, and those that are allocated and
    have valid fields. *)
Variable B : list Z.
Variable L : Z -> Prop.

Record heap_wf (m : mem) : Prop := {
  wf_header : forall b, In b B -> header_ok (Hd_op m b);
  wf_apart : forall b b', In b B -> In b' B -> b <> b' -> b' < b \/ b + Bsize_wsize (wosize m b) < b' }.

Definition good (m : mem) (x : Z) : Prop :=
  L (base m x) /\ (tag m x = Infix_tag -> tag m (base m x) = Closure_tag /\ field_of m (base m x) (x - sizeof_value) /\ color m x = Caml_white).

Record live_wf (m : mem) : Prop := {
  live_in : forall b, L b -> In b B;
  live_color : forall b, L b -> color m b <> Caml_blue;
  live_forward : forall b, L b -> tag m b = Forward_tag -> 0 < wosize m b;
  live_field : forall b i, L b -> tag m b < No_scan_tag -> 0 <= i < wosize m b -> pointer (Op_val m b i) -> good m (Op_val m b i) }.

(** ** What the marker keeps *)

Record same_shape (m m' : mem) : Prop := {
  ss_header : forall b, In b B -> header_ok (Hd_op m' b) /\ tag m' b = tag m b /\ wosize m' b = wosize m b;
  ss_infix : forall b a, In b B -> tag m b = Closure_tag -> field_of m b a -> Tag_hd (m a) = Infix_tag -> m' a = m a }.

Lemma same_shape_refl m : heap_wf m -> same_shape m m.
Proof. intros W. split; auto. intros b Hb. split; auto. now apply (wf_header m W). Qed.

Lemma same_shape_trans m1 m2 m3 : same_shape m1 m2 -> same_shape m2 m3 -> same_shape m1 m3.
Proof.
  intros [H1 I1] [H2 I2]. split.
  - intros b Hb. destruct (H1 b Hb) as (_ & E1 & E2), (H2 b Hb) as (H & E3 & E4). split; [auto | split; congruence].
  - intros b a Hb Ht Hf Hi. destruct (H1 b Hb) as (_ & E1 & E2). rewrite (I2 b a), (I1 b a); auto; [congruence| |].
    + unfold field_of in *. now rewrite E2.
    + now rewrite (I1 b a).
Qed.

Lemma heap_wf_same m m' : heap_wf m -> same_shape m m' -> heap_wf m'.
Proof.
  intros W S. split.
  - intros b Hb. now apply (ss_header m m' S).
  - intros b b' Hb Hb' N. destruct (ss_header m m' S b Hb) as (_ & _ & E). rewrite E. now apply (wf_apart m W).
Qed.

Lemma good_same m m' x : same_shape m m' -> live_wf m -> good m x -> base m' x = base m x /\ good m' x.
Proof.
  intros S V [Hb Hi]. pose proof (live_in m V _ Hb) as Ib. destruct (ss_header m m' S _ Ib) as (_ & Et & Ew).
  assert (E : base m' x = base m x /\ tag m' x = tag m x).
  { destruct (Z.eqb_spec (tag m x) Infix_tag) as [Ti|Ti].
    - destruct (Hi Ti) as (Tc & F & _). pose proof (ss_infix m m' S _ _ Ib Tc F Ti) as E. unfold base, tag, Hd_op in *. now rewrite E.
    - unfold base in *. apply Z.eqb_neq in Ti. rewrite Ti in *. rewrite Et. now rewrite Ti. }
  destruct E as [E1 E2]. split; [exact E1|]. unfold good. rewrite E1, E2. split; [exact Hb|]. intros Ti. destruct (Hi Ti) as (Tc & F & Cw).
  pose proof (ss_infix m m' S _ _ Ib Tc F Ti) as Eh. unfold color, Hd_op in *. rewrite Eh.
  unfold field_of in *. rewrite Et, Ew. auto.
Qed.

(** Cells of different blocks are different. *)
Lemma header_not_field m b b' i : heap_wf m -> In b B -> In b' B -> 0 <= i < wosize m b -> b + Bsize_wsize i <> b' - sizeof_value.
Proof.
  intros W Hb Hb' Hi E. unfold Bsize_wsize in *. pose proof sizeof_value_pos. destruct (Z.eq_dec b b') as [->|N]; [nia|].
  destruct (wf_apart m W b b' Hb Hb' N) as [H'|H']; unfold Bsize_wsize in *; nia.
Qed.

Lemma field_not_field m b b' i j : heap_wf m -> In b B -> In b' B -> 0 <= i < wosize m b -> 0 <= j < wosize m b' ->
  b + Bsize_wsize i = b' + Bsize_wsize j -> b = b' /\ i = j.
Proof.
  intros W Hb Hb' Hi Hj E. unfold Bsize_wsize in *. pose proof sizeof_value_pos. destruct (Z.eq_dec b b') as [->|N]; [split; nia|].
  destruct (wf_apart m W b b' Hb Hb' N) as [H'|H'], (wf_apart m W b' b Hb' Hb ltac:(congruence)) as [H''|H'']; unfold Bsize_wsize in *; nia.
Qed.

(** ** Recolouring a block *)

Section Recolor.
Variables (m : mem) (b c h : Z).
Hypothesis (W : heap_wf m) (Hb : In b B) (R : recolored (Hd_op m b) h c).
Let m' := m.[b - sizeof_value <- h].

Lemma recolor_hd b' : Hd_op m' b' = if b' =? b then h else Hd_op m b'.
Proof.
  unfold m', Hd_op, upd. destruct (Z.eqb_spec (b' - sizeof_value) (b - sizeof_value)), (Z.eqb_spec b' b); auto; lia.
Qed.

Lemma recolor_color b' : color m' b' = if b' =? b then c else color m b'.
Proof. unfold color. rewrite recolor_hd. destruct (b' =? b); [apply R | reflexivity]. Qed.

Lemma recolor_field b' i : In b' B -> 0 <= i < wosize m b' -> Op_val m' b' i = Op_val m b' i.
Proof. intros Hb' Hi. unfold m', Op_val. apply upd_other. now apply (header_not_field m). Qed.

Lemma recolor_shape : same_shape m m'.
Proof.
  split.
  - intros b' Hb'. unfold tag, wosize. rewrite recolor_hd. destruct (Z.eqb_spec b' b) as [->|]; [destruct R as (? & ? & ? & _); auto|].
    split; auto. now apply (wf_header m W).
  - intros b' a Hb' _ (i & Hi & ->) _. now apply recolor_field.
Qed.

Lemma recolor_live : live_wf m -> c <> Caml_blue -> live_wf m'.
Proof.
  intros V Hc. pose proof recolor_shape as S. split.
  - apply (live_in m V).
  - intros x Hx. rewrite recolor_color. destruct (x =? b); [auto | now apply (live_color m V)].
  - intros x Hx. destruct (ss_header m m' S x (live_in m V x Hx)) as (_ & Et & Ew). rewrite Et, Ew. now apply (live_forward m V).
  - intros x i Hx. pose proof (live_in m V x Hx) as Ix. destruct (ss_header m m' S x Ix) as (_ & Et & Ew). rewrite Et, Ew. intros Ht Hi.
    rewrite recolor_field by auto. intros P. apply (good_same m m' _ S V). now apply (live_field m V).
Qed.

Lemma recolor_child k x y : live_wf m -> L x -> 0 <= k -> tag m x < No_scan_tag -> child_from m' k x y <-> child_from m k x y.
Proof.
  intros V Hx Hk Ht. pose proof recolor_shape as S. pose proof (live_in m V x Hx) as Ix. destruct (ss_header m m' S x Ix) as (_ & _ & Ew).
  unfold child_from. rewrite Ew. split; intros (i & Hi & P & ->); exists i; (split; [exact Hi|]); rewrite recolor_field in * by (auto; lia);
    (split; [exact P|]); [|symmetry]; apply (good_same m m' _ S V); apply (live_field m V); auto; lia.
Qed.

Lemma recolor_edge x y : live_wf m -> L x -> edge m' x y <-> edge m x y.
Proof.
  intros V Hx. pose proof recolor_shape as S. destruct (ss_header m m' S x (live_in m V x Hx)) as (_ & Et & _). unfold edge. rewrite Et.
  split; intros [Ht H]; (split; [exact Ht|]); [rewrite <- recolor_child | rewrite recolor_child]; auto; lia.
Qed.
End Recolor.

(** ** Storing in a field *)

Section Store.
Variables (m : mem) (b k x : Z).
Hypothesis (W : heap_wf m) (V : live_wf m) (Hb : L b) (Hs : tag m b < No_scan_tag) (Hk : 0 <= k < wosize m b).
Hypothesis (Old : Is_block (Op_val m b k) = true \/ tag m b <> Closure_tag) (Hx : pointer x -> good m x).
Let m' := m.[b + Bsize_wsize k <- x].

Lemma store_hd b' : In b' B -> Hd_op m' b' = Hd_op m b'.
Proof. intros Hb'. unfold m', Hd_op. apply upd_other. intros E. apply (header_not_field m b b' k W (live_in m V b Hb) Hb' Hk). auto. Qed.

Lemma store_color b' : In b' B -> color m' b' = color m b'.
Proof. intros H. unfold color. now rewrite store_hd. Qed.

Lemma store_field b' i : In b' B -> 0 <= i < wosize m b' -> Op_val m' b' i = if (b' =? b) && (i =? k) then x else Op_val m b' i.
Proof.
  intros Hb' Hi. unfold m', Op_val, upd. destruct (Z.eqb_spec (b' + Bsize_wsize i) (b + Bsize_wsize k)) as [E|N].
  - destruct (field_not_field m b' b i k W Hb' (live_in m V b Hb) Hi Hk E) as [-> ->]. now rewrite !Z.eqb_refl.
  - destruct (Z.eqb_spec b' b) as [->|]; auto. destruct (Z.eqb_spec i k) as [->|]; [congruence | reflexivity].
Qed.

Lemma infix_odd h : Tag_hd h = Infix_tag -> Is_block h = false.
Proof.
  intros E. unfold Is_block. apply Z.eqb_neq. intros E2. rewrite Tag_hd_mod in E. change Infix_tag with 249 in E.
  change 1 with (Z.ones 1) in E2 at 1. rewrite Z.land_ones in E2 by lia. change (2 ^ 1) with 2 in E2. pose proof (Z.div_mod h 256 ltac:(lia)). pose proof (Z.div_mod h 2 ltac:(lia)). lia.
Qed.

Lemma store_shape : same_shape m m'.
Proof.
  split.
  - intros b' Hb'. unfold tag, wosize. rewrite store_hd by auto. split; auto. now apply (wf_header m W).
  - intros b' a Hb' Ht (i & Hi & ->) Ti. change (Op_val m' b' i = Op_val m b' i). rewrite store_field by auto.
    destruct (Z.eqb_spec b' b) as [->|]; auto. destruct (Z.eqb_spec i k) as [->|]; auto. cbn [andb].
    destruct Old as [O|O]; [|contradiction]. apply infix_odd in Ti. fold (Op_val m b k) in Ti. congruence.
Qed.

Lemma store_live : live_wf m'.
Proof.
  pose proof store_shape as S. split.
  - apply (live_in m V).
  - intros y Hy. rewrite store_color by (now apply (live_in m V)). now apply (live_color m V).
  - intros y Hy. destruct (ss_header m m' S y (live_in m V y Hy)) as (_ & Et & Ew). rewrite Et, Ew. now apply (live_forward m V).
  - intros y i Hy. pose proof (live_in m V y Hy) as Iy. destruct (ss_header m m' S y Iy) as (_ & Et & Ew). rewrite Et, Ew. intros Ht Hi.
    rewrite store_field by auto. intros P. apply (good_same m m' _ S V). destruct ((y =? b) && (i =? k)); [auto | now apply (live_field m V)].
Qed.

(** The edges of other blocks, and of the other fields, are kept. *)
Lemma store_child j y c : L y -> 0 <= j -> tag m y < No_scan_tag -> y <> b \/ k < j -> child_from m' j y c <-> child_from m j y c.
Proof.
  intros Hy Hj Ht D. pose proof store_shape as S. pose proof (live_in m V y Hy) as Iy. destruct (ss_header m m' S y Iy) as (_ & _ & Ew).
  assert (F : forall i, j <= i < wosize m y -> Op_val m' y i = Op_val m y i).
  { intros i Hi. rewrite store_field by (auto; lia). destruct (Z.eqb_spec y b), (Z.eqb_spec i k); auto; lia. }
  unfold child_from. rewrite Ew. split; intros (i & Hi & P & ->); exists i; (split; [exact Hi|]); rewrite F in * by auto;
    (split; [exact P|]); [|symmetry]; apply (good_same m m' _ S V); apply (live_field m V); auto; lia.
Qed.

Lemma store_edge_other y c : L y -> y <> b -> edge m' y c <-> edge m y c.
Proof.
  intros Hy N. pose proof store_shape as S. destruct (ss_header m m' S y (live_in m V y Hy)) as (_ & Et & _). unfold edge. rewrite Et.
  split; intros [Ht H]; (split; [exact Ht|]); [rewrite <- store_child | rewrite store_child]; auto; lia.
Qed.

Lemma store_edge y c : L y -> edge m' y c -> edge m y c \/ (y = b /\ pointer x /\ c = base m x).
Proof.
  intros Hy [Ht (i & Hi & P & ->)]. pose proof store_shape as S. pose proof (live_in m V y Hy) as Iy.
  destruct (ss_header m m' S y Iy) as (_ & Et & Ew). rewrite Et in Ht. rewrite Ew in Hi. rewrite store_field in * by auto.
  destruct (Z.eqb_spec y b) as [->|N]; [destruct (Z.eqb_spec i k) as [->|N]|]; cbn [andb] in *.
  - right. repeat split; auto; try apply P. now apply (good_same m m' _ S V), Hx.
  - left. split; auto. exists i. split; auto. split; auto. now apply (good_same m m' _ S V), (live_field m V).
  - left. split; auto. exists i. split; auto. split; auto. now apply (good_same m m' _ S V), (live_field m V).
Qed.
End Store.
End Heap.
End Graph.

Section Tricolor.
Context {A : Arch} {Env : Heap_env}.
Variable B : list Z.
Variable L : Z -> Prop.
Notation heap_wf := (heap_wf B).
Notation live_wf := (live_wf B L).
Notation same_shape := (same_shape B).

(** [pend] are children that the marker has still to look at. *)
Inductive guarded (m : mem) (pend : Z -> Prop) : Z -> Prop :=
  | g_gray b : In b B -> color m b = Caml_gray -> guarded m pend b
  | g_pend c : pend c -> color m c = Caml_white -> guarded m pend c
  | g_step b c : guarded m pend b -> edge m b c -> color m c = Caml_white -> guarded m pend c.
Definition none (c : Z) : Prop := False.

(** A block that the collector will not free. *)
Definition safe (m : mem) (pend : Z -> Prop) (x : Z) : Prop := color m x = Caml_black \/ guarded m pend x.
Definition grays_live (m : mem) : Prop := forall b, In b B -> color m b = Caml_gray -> L b.

Lemma guarded_color m pend x : guarded m pend x -> color m x = Caml_gray \/ color m x = Caml_white.
Proof. destruct 1; auto. Qed.

Lemma edge_live m b c : live_wf m -> L b -> edge m b c -> L c.
Proof. intros V Hb [Ht (i & Hi & P & ->)]. now apply (live_field B L m V). Qed.

Lemma child_live m k v c : live_wf m -> L v -> tag m v < No_scan_tag -> 0 <= k -> child_from m k v c -> L c.
Proof. intros V Hv Ht Hk (i & Hi & P & ->). apply (live_field B L m V); auto. lia. Qed.

Lemma guarded_live m pend x : live_wf m -> grays_live m -> (forall c, pend c -> L c) -> guarded m pend x -> L x.
Proof. intros V G P. induction 1; auto. eapply edge_live; eauto. Qed.

Lemma reach_live m b c : live_wf m -> L b -> reach m b c -> L c.
Proof. intros V Hb. induction 1; auto. eapply edge_live; eauto. Qed.

Lemma reach_trans m a b c : reach m a b -> reach m b c -> reach m a c.
Proof. intros H. induction 1; auto. econstructor; eauto. Qed.

Lemma no_gray_no_guard m x : (forall b, In b B -> color m b <> Caml_gray) -> ~ guarded m none x.
Proof. intros N. induction 1 as [b Hb Hc|c []|]; auto. exact (N b Hb Hc). Qed.

Section Change.
Variables (m : mem) (pend : Z -> Prop).
Hypothesis (W : heap_wf m) (V : live_wf m) (G : grays_live m) (P : forall c, pend c -> L c).

Lemma guarded_gray b h pend' : In b B -> recolored (Hd_op m b) h Caml_gray -> (forall c, pend c -> pend' c \/ c = b) ->
  forall x, guarded m pend x -> guarded (m.[b - sizeof_value <- h]) pend' x.
Proof.
  intros Hb R Q. set (m' := m.[b - sizeof_value <- h]).
  assert (C : forall y, color m' y = if y =? b then Caml_gray else color m y) by (intros y; exact (recolor_color m b _ h R y)).
  assert (Gb : guarded m' pend' b) by (apply g_gray; [auto | now rewrite C, Z.eqb_refl]).
  induction 1 as [y Hy Hc|c Hp Hc|y c H IH E Hc].
  - destruct (Z.eq_dec y b) as [->|N]; [auto|]. apply g_gray; auto. rewrite C. apply Z.eqb_neq in N. now rewrite N.
  - destruct (Z.eq_dec c b) as [->|N]; [auto|]. destruct (Q c Hp) as [Hp'|]; [|contradiction]. apply g_pend; auto. rewrite C. apply Z.eqb_neq in N. now rewrite N.
  - destruct (Z.eq_dec c b) as [->|N]; [auto|]. apply g_step with y; auto.
    + apply (recolor_edge B L m b Caml_gray h W Hb R y c V); auto. exact (guarded_live _ _ _ V G P H).
    + rewrite C. apply Z.eqb_neq in N. now rewrite N.
Qed.

Lemma guarded_leaf b h : In b B -> recolored (Hd_op m b) h Caml_black -> color m b = Caml_white -> No_scan_tag <= tag m b ->
  forall x, guarded m pend x -> x = b \/ guarded (m.[b - sizeof_value <- h]) pend x.
Proof.
  intros Hb R Hw Ht x. destruct (Z.eq_dec x b) as [->|Nx]; [auto|]. intros H. right. set (m' := m.[b - sizeof_value <- h]).
  assert (C : forall y, y <> b -> color m' y = color m y).
  { intros y N. unfold m'. rewrite (recolor_color m b Caml_black h R y). apply Z.eqb_neq in N. now rewrite N. }
  induction H as [y Hy Hc|c Hp Hc|y c H IH E Hc]; [apply g_gray; auto; now rewrite C | apply g_pend; auto; now rewrite C|].
  apply g_step with y; [| |now rewrite C].
  - apply IH. intros ->. destruct E as [E _]. lia.
  - apply (recolor_edge B L m b Caml_black h W Hb R y c V); auto. exact (guarded_live _ _ _ V G P H).
Qed.

Lemma guarded_store b k x y : L b -> tag m b < No_scan_tag -> 0 <= k < wosize m b -> Is_block (Op_val m b k) = true -> (pointer x -> good L m x) ->
  color m b = Caml_black -> guarded m pend y -> guarded (m.[b + Bsize_wsize k <- x]) pend y.
Proof.
  intros Hb Ht Hk Old Hx Hc. pose proof (store_color B L m b k x W V Hb Hk) as C.
  induction 1 as [z Hz Hg|c Hp Hw|z c H IH E Hw].
  - apply g_gray; auto. now rewrite C.
  - apply g_pend; auto. rewrite C; auto. now apply (live_in B L m V), P.
  - pose proof (guarded_live _ _ _ V G P H) as Lz. apply g_step with z; auto.
    + apply (store_edge_other B L m b k x); auto. intros ->. destruct (guarded_color _ _ _ H) as [E'|E']; rewrite Hc in E'; discriminate E'.
    + rewrite C; auto. apply (live_in B L m V). exact (edge_live m z c V Lz E).
Qed.
End Change.

(** Blackening a gray block whose children are then all to be looked at. *)
Lemma guarded_pop m v h : heap_wf m -> live_wf m -> grays_live m -> L v -> color m v = Caml_gray -> recolored (Hd_op m v) h Caml_black ->
  let m' := m.[v - sizeof_value <- h] in
  forall x, guarded m none x -> x = v \/ guarded m' (fun c => tag m v < No_scan_tag /\ child_from m' 0 v c) x.
Proof.
  intros W V G Hv Hg R m'. pose proof (live_in B L m V v Hv) as Iv.
  assert (C : forall y, y <> v -> color m' y = color m y).
  { intros y N. unfold m'. rewrite (recolor_color m v Caml_black h R y). apply Z.eqb_neq in N. now rewrite N. }
  induction 1 as [y Hy Hc|c []|y c H IH E Hc].
  - destruct (Z.eq_dec y v); [auto|]. right. apply g_gray; auto. now rewrite C.
  - right. assert (Nc : c <> v) by (intros ->; rewrite Hg in Hc; discriminate Hc).
    assert (Ly : L y) by (apply (guarded_live m none y V G); [intros ? [] | auto]).
    destruct IH as [->|IH].
    + destruct E as [Et E]. apply g_pend; [|now rewrite C]. split; auto. apply (recolor_child B L m v Caml_black h W Iv R 0 v c V); auto. lia.
    + apply g_step with y; auto; [|now rewrite C]. now apply (recolor_edge B L m v Caml_black h W Iv R y c V).
Qed.
End Tricolor.
