(* ===== verification/GcInv.v ===== *)
(** GcInv: the invariant of the marker and the operations that keep it. *)
From Stdlib Require Import ZArith Lia List Bool.
From S2P Require Import Prelude Mlvalues InterpState ExternOutput MarshalBytes MarshalTrail MarshalDecode Gc GcGraph.
Import ListNotations.
Local Open Scope Z_scope.

Section Invariant.
Context {A : Arch} {Env : Heap_env}.
Variable B : list Z.
Variable L : Z -> Prop.
Notation heap_wf := (heap_wf B).
Notation live_wf := (live_wf B L).
Notation same_shape := (same_shape B).
Notation grays_live := (grays_live B L).
Notation guarded := (guarded B).

(** ** Walking the heap *)

(** The blocks from the header at [hp] to [l], and those of a list of chunks. *)
Inductive walk (m : mem) : Z -> Z -> list Z -> Prop :=
  | walk_end l : walk m l l []
  | walk_block hp l bs : hp <> l -> walk m (hp + Bhsize_hd (m hp)) l bs -> walk m hp l (Val_hp hp :: bs).
Inductive chunks (m : mem) : Z -> list Z -> Prop :=
  | chunks_end : chunks m 0 []
  | chunks_cons c bs rest : 0 < c -> walk m c (c + Chunk_size c) bs -> chunks m (Chunk_next c) rest -> chunks m c (bs ++ rest).

Lemma Val_hp_hd m hp : Hd_op m (Val_hp hp) = m hp.
Proof. unfold Hd_op, Val_hp. f_equal. lia. Qed.

Lemma walk_same m m' hp l bs : same_shape m m' -> walk m hp l bs -> incl bs B -> walk m' hp l bs.
Proof.
  intros S. induction 1 as [|hp l bs N H IH]; intros I; constructor; auto. apply incl_cons_inv in I as [Ib I].
  destruct (ss_header B m m' S _ Ib) as (_ & _ & Ew). unfold wosize in Ew. rewrite !Val_hp_hd in Ew.
  unfold Bhsize_hd, Whsize_hd in *. rewrite Ew. auto.
Qed.
Lemma chunks_same m m' c bs : same_shape m m' -> chunks m c bs -> incl bs B -> chunks m' c bs.
Proof.
  intros S. induction 1 as [|c bs rest Hc Hw H IH]; intros I; constructor; auto.
  - eapply walk_same; eauto. now apply incl_app_inv in I.
  - apply IH. now apply incl_app_inv in I.
Qed.

(** The blocks that the scan of the heap has still to visit. *)
Definition scanning (m : mem) (hp c l : Z) (rem : list Z) : Prop :=
  (hp = 0 /\ rem = []) \/
  (0 < hp /\ incl rem B /\ exists bs rest, walk m hp l bs /\ chunks m (Chunk_next c) rest /\ rem = bs ++ rest).

Lemma scanning_same m m' hp c l rem : same_shape m m' -> scanning m hp c l rem -> scanning m' hp c l rem.
Proof.
  intros S [H|(H & I & bs & rest & Hw & Hc & ->)]; [now left|]. right. apply incl_app_inv in I as [I1 I2].
  split; [auto|]. split; [now apply incl_app|]. exists bs, rest. split; [|split]; eauto using walk_same, chunks_same.
Qed.

(** ** The list of weak arrays, chained by their first field *)

Definition weak_array (m : mem) (c : Z) : Prop :=
  In c B /\ tag m c = Abstract_tag /\ 0 < wosize m c /\
  forall i, 1 <= i < wosize m c -> Op_val m c i <> caml_weak_none -> pointer (Op_val m c i) -> good L m (Op_val m c i).
Lemma weak_array_tag m c : weak_array m c -> No_scan_tag <= tag m c.
Proof. intros (_ & -> & _). discriminate. Qed.
(** Where the collector finds the next array: the head of the list or an array. *)
Definition weak_link (m : mem) (p : Z) : Prop := p = caml_weak_list_head \/ weak_array m p.
Fixpoint weak_chain (m : mem) (p : Z) (l : list Z) : Prop :=
  weak_link m p /\ match l with [] => m p = 0 | c :: l => m p = c /\ c <> 0 /\ weak_array m c /\ weak_chain m c l end.
(** A word that is not scanned. *)
Definition data_cell (m : mem) (p : Z) : Prop :=
  p = caml_weak_list_head \/ exists c, In c B /\ No_scan_tag <= tag m c /\ field_of m c p.

Lemma weak_array_cell m c i : weak_array m c -> 0 <= i < wosize m c -> data_cell m (c + Bsize_wsize i).
Proof. intros H Hi. right. exists c. split; [apply H|]. split; [now apply weak_array_tag|]. exists i. auto. Qed.
Lemma weak_link_cell m p : weak_link m p -> data_cell m p.
Proof.
  intros [->|H]; [now left|]. replace p with (p + Bsize_wsize 0) by (unfold Bsize_wsize; lia). apply weak_array_cell; auto. destruct H as (_ & _ & H & _). lia.
Qed.
(** Static variables are outside of the heap. *)
Definition static (m : mem) (p : Z) : Prop := forall b, In b B -> p <> b - sizeof_value /\ ~ field_of m b p.

(** ** Changes that keep the graph *)

(** An address that is in no allocated block. *)
Definition foreign (m : mem) (a : Z) : Prop := forall b, L b -> a <> b - sizeof_value /\ ~ field_of m b a.

Record keeps (m m' : mem) : Prop := {
  kp_shape : same_shape m m';
  kp_frame : forall a, foreign m a -> m' a = m a;
  kp_data : forall p, data_cell m p -> m' p = m p;
  kp_live : live_wf m' }.
(** The marker adds no path. *)
Record mutates (m m' : mem) : Prop := {
  mu_keeps : keeps m m';
  mu_edge : forall b c, L b -> edge m' b c -> reach m b c }.

Lemma mu_shape m m' : mutates m m' -> same_shape m m'.
Proof. intros [K _]. apply K. Qed.
Lemma mu_live m m' : mutates m m' -> live_wf m'.
Proof. intros [K _]. apply K. Qed.

Lemma data_cell_same m m' p : same_shape m m' -> data_cell m p -> data_cell m' p.
Proof.
  intros S [->|(c & Hc & Ht & F)]; [now left|]. right. exists c. destruct (ss_header B m m' S c Hc) as (_ & E1 & E2). unfold field_of in *. rewrite E1, E2. auto.
Qed.

Lemma weak_array_same m m' c : live_wf m -> keeps m m' -> weak_array m c -> weak_array m' c.
Proof.
  intros V M H. pose proof H as (Hc & Ht & Hw & Hf). destruct (ss_header B m m' (kp_shape m m' M) c Hc) as (_ & E1 & E2).
  unfold weak_array. rewrite E1, E2. split; auto. split; auto. split; auto. intros i Hi.
  replace (Op_val m' c i) with (Op_val m c i) by (symmetry; apply (kp_data m m' M), weak_array_cell; auto; lia).
  intros Hn P. eapply good_same; eauto. apply M.
Qed.

Lemma weak_link_same m m' p : live_wf m -> keeps m m' -> weak_link m p -> weak_link m' p.
Proof. intros V M [->|H]; [now left | right; eapply weak_array_same; eauto]. Qed.

Lemma weak_chain_same m m' : live_wf m -> keeps m m' -> forall l p, weak_chain m p l -> weak_chain m' p l.
Proof.
  intros V M. induction l as [|c l IH]; intros p [Hp H]; cbn [weak_chain]; rewrite (kp_data m m' M p (weak_link_cell m p Hp));
    (split; [eapply weak_link_same; eauto|]); auto. destruct H as (H1 & H2 & H3 & H4). split; auto. split; auto. split; [eapply weak_array_same; eauto | auto].
Qed.

Lemma static_same m m' p : same_shape m m' -> static m p -> static m' p.
Proof.
  intros S H b Hb. destruct (H b Hb) as [H1 H2]. destruct (ss_header B m m' S b Hb) as (_ & _ & Ew). split; auto.
  unfold field_of in *. now rewrite Ew.
Qed.

Lemma keeps_refl m : heap_wf m -> live_wf m -> keeps m m.
Proof. intros W V. split; auto using same_shape_refl. Qed.
Lemma mutates_refl m : heap_wf m -> live_wf m -> mutates m m.
Proof. intros W V. split; [now apply keeps_refl|]. intros b c Hb E. econstructor; eauto. constructor. Qed.

Lemma foreign_same m m' a : live_wf m -> same_shape m m' -> foreign m a -> foreign m' a.
Proof.
  intros V S F b Hb. destruct (F b Hb) as [F1 F2]. split; auto. destruct (ss_header B m m' S b (live_in B L m V b Hb)) as (_ & _ & Ew). unfold field_of in *. now rewrite Ew.
Qed.

Lemma keeps_trans m1 m2 m3 : live_wf m1 -> keeps m1 m2 -> keeps m2 m3 -> keeps m1 m3.
Proof.
  intros V1 K1 K2. split.
  - eapply same_shape_trans; [apply K1 | apply K2].
  - intros a Ha. rewrite (kp_frame _ _ K2), (kp_frame _ _ K1); auto. eapply foreign_same; eauto. apply K1.
  - intros p Hp. rewrite (kp_data _ _ K2), (kp_data _ _ K1); auto. eapply data_cell_same; eauto. apply K1.
  - apply K2.
Qed.

Lemma mutates_trans m1 m2 m3 : live_wf m1 -> mutates m1 m2 -> mutates m2 m3 -> mutates m1 m3.
Proof.
  intros V1 M1 M2. split; [eapply keeps_trans; [exact V1 | apply M1 | apply M2]|].
  intros b c Hb E. pose proof (mu_edge _ _ M2 b c Hb E) as R. clear E. induction R as [|c d R IH E]; [constructor|].
  eapply reach_trans; eauto. apply (mu_edge _ _ M1); auto. eapply reach_live; [exact (mu_live _ _ M1) | | eauto]; auto.
Qed.

Lemma mutates_reach m m' b c : live_wf m -> mutates m m' -> L b -> reach m' b c -> reach m b c.
Proof.
  intros V M Hb. induction 1 as [|c d R IH E]; [constructor|]. eapply reach_trans; eauto. apply (mu_edge _ _ M); auto.
  eapply reach_live; [exact (mu_live _ _ M) | | eauto]; auto.
Qed.

Section Writes.
Variable m : mem.
Hypothesis (W : heap_wf m) (V : live_wf m) (Out : static m caml_weak_list_head).

Lemma data_cell_header p b : data_cell m p -> In b B -> p <> b - sizeof_value.
Proof.
  intros [->|(c & Hc & Ht & i & Hi & ->)] Hb; [now apply Out|]. now apply (header_not_field B m).
Qed.
Lemma data_cell_field p b i : data_cell m p -> In b B -> 0 <= i < wosize m b -> tag m b < No_scan_tag -> p <> b + Bsize_wsize i.
Proof.
  intros [->|(c & Hc & Ht & j & Hj & ->)] Hb Hi Hs E; [apply (proj2 (Out b Hb)); exists i; auto|].
  destruct (field_not_field B m c b j i W Hc Hb Hj Hi E) as [-> _]. lia.
Qed.

Lemma recolor_mutates b c h : L b -> recolored (Hd_op m b) h c -> c <> Caml_blue -> mutates m (m.[b - sizeof_value <- h]).
Proof.
  intros Lb R Hc. pose proof (live_in B L m V b Lb) as Hb. split; [split|].
  - exact (recolor_shape B m b c h W Hb R).
  - intros a F. apply upd_other. now apply F.
  - intros p Hp. apply upd_other. now apply data_cell_header.
  - exact (recolor_live B L m b c h W Hb R V Hc).
  - intros x y Hx E. apply (recolor_edge B L m b c h W Hb R x y V Hx) in E. econstructor; eauto. constructor.
Qed.

Lemma store_keeps b k x : L b -> tag m b < No_scan_tag -> 0 <= k < wosize m b -> Is_block (Op_val m b k) = true \/ tag m b <> Closure_tag ->
  (pointer x -> good L m x) -> keeps m (m.[b + Bsize_wsize k <- x]).
Proof.
  intros Hb Ht Hk Old Gx. split.
  - exact (store_shape B L m b k x W V Hb Hk Old).
  - intros a F. apply upd_other. intros ->. apply (proj2 (F b Hb)). exists k. auto.
  - intros p Hp. apply upd_other. apply data_cell_field; auto. now apply (live_in B L m V).
  - apply (store_live B L m b k x); auto.
Qed.

(** Short-circuiting: the new value is a field of a block that the old one
    points to. *)
Lemma store_mutates b k x : L b -> tag m b < No_scan_tag -> 0 <= k < wosize m b -> Is_block (Op_val m b k) = true ->
  (pointer x -> good L m x /\ reach m b (base m x)) -> mutates m (m.[b + Bsize_wsize k <- x]).
Proof.
  intros Hb Ht Hk Old Hx. assert (Gx : pointer x -> good L m x) by (intros P; now apply Hx). split; [apply store_keeps; auto|].
  intros y c Hy E. apply (store_edge B L m b k x) in E as [E|(-> & P & ->)]; [econstructor; eauto; constructor | now apply Hx | ..]; auto.
Qed.
End Writes.
End Invariant.
