(* ===== verification/GcMark.v ===== *)
(** GcMark: a turn of the marker keeps the invariant, and every block that was safe
    is still safe. *)
From Stdlib Require Import ZArith Lia List Bool.
From S2P Require Import Prelude Mlvalues InterpState ExternOutput MarshalBytes MarshalTrail MarshalDecode Gc GcGraph GcInv.
Import ListNotations.
Local Open Scope Z_scope.

Section Mark.
Context {A : Arch} {Env : Heap_env}.
Variable B : list Z.
Variable L : Z -> Prop.
Notation guarded := (guarded B).
Notation safe := (safe B).
Notation mutates := (mutates B L).

(** ** The invariant *)

Definition weak_phase (s : gc) : Prop := caml_gc_subphase s = Subphase_weak1 \/ caml_gc_subphase s = Subphase_weak2.
(** When the heap is pure, a gray block is in the stack or the scan of the heap
    has not reached it yet. *)
Definition found (m : mem) (g : list Z) (pure : bool) (rem : list Z) : Prop :=
  pure = true -> forall b, In b B -> color m b = Caml_gray -> In b g \/ In b rem.

Record inv (s : gc) : Prop := {
  inv_heap : heap_wf B (memory s);
  inv_live : live_wf B L (memory s);
  inv_chunks : chunks (memory s) caml_heap_start B;
  inv_start : 0 < caml_heap_start;
  inv_static : static B (memory s) caml_weak_list_head;
  inv_weak_list : exists l, weak_chain B L (memory s) caml_weak_list_head l;
  inv_grays : grays_live B L (memory s);
  inv_stack : Forall (fun v => L v /\ color (memory s) v = Caml_gray) (gray_vals s);
  inv_nodup : NoDup (gray_vals s);
  inv_scan : exists rem, scanning B (memory s) (markhp s) (chunk s) (limit s) rem /\ found (memory s) (gray_vals s) (heap_is_pure s) rem;
  inv_final : Forall (fun f => pointer (val f) /\ good L (memory s) (val f)) (finalisable s);
  inv_weak : weak_phase s -> exists l, weak_chain B L (memory s) (weak_prev s) l }.

(** The variables that the operations on the graph do not touch. *)
Record same_control (s s' : gc) : Prop := {
  sc_markhp : markhp s' = markhp s; sc_chunk : chunk s' = chunk s; sc_limit : limit s' = limit s; sc_weak : weak_prev s' = weak_prev s;
  sc_phase : caml_gc_phase s' = caml_gc_phase s; sc_subphase : caml_gc_subphase s' = caml_gc_subphase s;
  sc_final : finalisable s' = finalisable s; sc_todo : to_do s' = to_do s }.
(** Blocks only become darker. *)
Definition darker (m m' : mem) : Prop := forall b, In b B ->
  color m' b = color m b \/ color m b = Caml_white /\ (color m' b = Caml_gray \/ color m' b = Caml_black) \/
  color m b = Caml_gray /\ color m' b = Caml_black.

Lemma darker_refl m : darker m m.
Proof. intros b Hb. now left. Qed.
Lemma darker_trans m1 m2 m3 : darker m1 m2 -> darker m2 m3 -> darker m1 m3.
Proof.
  intros H1 H2 b Hb. destruct (H1 b Hb) as [E|[[E1 [E2|E2]]|[E1 E2]]], (H2 b Hb) as [F|[[F1 [F2|F2]]|[F1 F2]]];
    try (rewrite E2 in F1; discriminate F1); try (rewrite E2 in F; auto; tauto); try (rewrite E in *; tauto); tauto.
Qed.
Lemma darker_black m m' b : darker m m' -> In b B -> color m b = Caml_black -> color m' b = Caml_black.
Proof. intros H Hb E. destruct (H b Hb) as [F|[[F _]|[F _]]]; [congruence | rewrite E in F; discriminate F ..]. Qed.

Lemma same_control_refl s : same_control s s.
Proof. now split. Qed.
Lemma same_control_trans s1 s2 s3 : same_control s1 s2 -> same_control s2 s3 -> same_control s1 s3.
Proof. intros H1 H2. destruct H1, H2. split; congruence. Qed.

Lemma inv_update s s' : inv s -> same_control s s' -> keeps B L (memory s) (memory s') -> grays_live B L (memory s') ->
  Forall (fun v => L v /\ color (memory s') v = Caml_gray) (gray_vals s') -> NoDup (gray_vals s') ->
  (heap_is_pure s' = true -> heap_is_pure s = true /\
     forall b, In b B -> color (memory s') b = Caml_gray -> In b (gray_vals s') \/ (color (memory s) b = Caml_gray /\ ~ In b (gray_vals s))) ->
  inv s'.
Proof.
  intros I C M G St N F. destruct C as [C1 C2 C3 C4 C5 C6 C7 C8]. pose proof (kp_shape _ _ _ _ M) as S. split; auto.
  - eapply heap_wf_same; eauto. apply I.
  - apply M.
  - eapply chunks_same; eauto; [apply I | apply incl_refl].
  - apply I.
  - eapply static_same; eauto. apply I.
  - destruct (inv_weak_list s I) as [l H]. exists l. eapply weak_chain_same; eauto; apply I.
  - destruct (inv_scan s I) as (rem & Sc & Fd). exists rem. rewrite C1, C2, C3. split; [eapply scanning_same; eauto|].
    intros Hp b Hb Hg. destruct (F Hp) as [Hp0 H]. destruct (H b Hb Hg) as [?|[Hg0 Nb]]; auto. destruct (Fd Hp0 b Hb Hg0); [contradiction | auto].
  - rewrite C7. eapply Forall_impl; [|apply I]. intros f [P Hf]. split; auto. eapply good_same; eauto. apply I.
  - unfold weak_phase. rewrite C4, C6. intros Hw. destruct (inv_weak s I Hw) as [l H]. exists l. eapply weak_chain_same; eauto; apply I.
Qed.

(** ** Graying a block *)

Lemma push_gray_spec v s : memory (push_gray v s) = memory s /\ same_control s (push_gray v s) /\
  (exists k, gray_vals (push_gray v s) = skipn k (v :: gray_vals s)) /\
  (heap_is_pure (push_gray v s) = true -> heap_is_pure s = true /\ gray_vals (push_gray v s) = v :: gray_vals s).
Proof.
  assert (K : forall k g, gray_vals (push_gray v s) = g -> g = skipn k (v :: gray_vals s) -> exists k, gray_vals (push_gray v s) = skipn k (v :: gray_vals s))
    by (intros k g -> ->; eauto).
  revert K. unfold push_gray, realloc_gray_vals. cbn [gray_vals gray_vals_size set_gray]. destruct (_ <=? _); cbn iota.
  - destruct (_ <? _); [destruct (realloc_ok _)|]; cbn [memory gray_vals heap_is_pure set_gray]; intros K.
    + split; auto. split; [now split|]. split; [apply (K O _ eq_refl); reflexivity | auto].
    + split; auto. split; [now split|]. split; [|discriminate]. apply (K (length (v :: gray_vals s)) _ eq_refl). now rewrite skipn_all.
    + split; auto. split; [now split|]. split; [|discriminate]. eapply (K _ _ eq_refl). reflexivity.
  - intros K. cbn. split; auto. split; [now split|]. split; [apply (K O _ eq_refl); reflexivity | auto].
Qed.

Lemma skipn_Forall {T} (P : T -> Prop) k l : Forall P l -> Forall P (skipn k l).
Proof. intros F. rewrite <- (firstn_skipn k l) in F. now apply Forall_app in F. Qed.
Lemma skipn_NoDup {T} k (l : list T) : NoDup l -> NoDup (skipn k l).
Proof. revert l. induction k as [|k IH]; intros [|x l] H; auto. inversion_clear H. now apply IH. Qed.

Definition gray_block (c : Z) (s : gc) : gc := push_gray c (set_hd c (Grayhd_hd (Hd_op (memory s) c)) s).

Section Gray.
Variables (c : Z) (s : gc).
Hypothesis (I : inv s) (Hc : L c) (White : color (memory s) c = Caml_white).
Let m := memory s.
Let m' := memory (gray_block c s).

Lemma gray_memory : m' = m.[c - sizeof_value <- Grayhd_hd (Hd_op m c)].
Proof. unfold m', gray_block. now rewrite (proj1 (push_gray_spec _ _)). Qed.

Lemma gray_recolored : In c B /\ recolored (Hd_op m c) (Grayhd_hd (Hd_op m c)) Caml_gray.
Proof.
  pose proof (live_in B L m (inv_live s I) c Hc) as Ic. split; auto. apply Grayhd_recolor. now apply (wf_header B m (inv_heap s I)).
Qed.

Lemma gray_color b : color m' b = if b =? c then Caml_gray else color m b.
Proof. rewrite gray_memory. apply recolor_color. apply gray_recolored. Qed.

Lemma gray_block_spec : inv (gray_block c s) /\ same_control s (gray_block c s) /\ mutates m m' /\ darker m m'.
Proof.
  destruct gray_recolored as [Ic R]. destruct (push_gray_spec c (set_hd c (Grayhd_hd (Hd_op m c)) s)) as (_ & C & [k K] & F).
  assert (C' : same_control s (gray_block c s)) by (eapply same_control_trans; [|exact C]; now split).
  assert (M : mutates m m') by (rewrite gray_memory; apply (recolor_mutates B L m (inv_heap s I) (inv_live s I) (inv_static s I) c Caml_gray); auto; discriminate).
  assert (N : ~ In c (gray_vals s)) by (intros H; pose proof (proj1 (Forall_forall _ _) (inv_stack s I) c H) as [_ E]; rewrite White in E; discriminate E).
  split; [|split; [|split]]; auto.
  - apply (inv_update s); try exact (mu_keeps _ _ _ _ M); auto.
    + intros b Hb. fold m'. rewrite gray_color. destruct (Z.eqb_spec b c) as [->|]; auto. now apply (inv_grays s I).
    + fold m'. unfold gray_block. fold m. rewrite K. apply skipn_Forall. constructor; [split; auto; rewrite gray_color, Z.eqb_refl; reflexivity|].
      apply Forall_forall. intros b Hb. destruct (proj1 (Forall_forall _ _) (inv_stack s I) b Hb) as [Lb Cb]. split; auto. rewrite gray_color.
      destruct (b =? c); auto.
    + unfold gray_block. fold m. rewrite K. apply skipn_NoDup. constructor; auto. apply (inv_nodup s I).
    + intros Hp. destruct (F Hp) as [Hp0 E]. split; auto. intros b Hb. fold m'. rewrite gray_color. unfold gray_block. fold m. rewrite E.
      destruct (Z.eqb_spec b c) as [->|Nb]; intros Hg; [left; now left|].
      destruct (in_dec Z.eq_dec b (gray_vals s)); [left; now right | right; auto].
  - intros b _. rewrite gray_color. destruct (Z.eqb_spec b c) as [->|]; auto.
Qed.

Lemma gray_block_guarded pend pend' : (forall x, pend x -> L x) -> (forall x, pend x -> pend' x \/ x = c) ->
  forall x, guarded m pend x -> guarded m' pend' x.
Proof. intros P Q x H. destruct gray_recolored. rewrite gray_memory. apply (guarded_gray B L m pend); auto; apply I. Qed.
End Gray.

(** ** Blackening a block that is not in the stack *)

Lemma blacken_inv v s l : inv s -> L v -> color (memory s) v = Caml_gray \/ color (memory s) v = Caml_white -> NoDup l -> incl l (gray_vals s) -> ~ In v l ->
  (forall b, In b (gray_vals s) -> b = v \/ In b l) ->
  let s' := set_hd v (Blackhd_hd (Hd_op (memory s) v)) (set_gray l (gray_vals_size s) (heap_is_pure s) s) in
  inv s' /\ same_control s s' /\ mutates (memory s) (memory s') /\ darker (memory s) (memory s') /\ color (memory s') v = Caml_black.
Proof.
  intros I Hv Cv N Il Nv Al s'. pose proof (live_in B L _ (inv_live s I) v Hv) as Iv.
  pose proof (Blackhd_recolor _ (wf_header B _ (inv_heap s I) v Iv)) as R.
  assert (C : same_control s s') by now split.
  assert (K : forall b, color (memory s') b = if b =? v then Caml_black else color (memory s) b) by (intros b; exact (recolor_color _ v _ _ R b)).
  assert (M : mutates (memory s) (memory s')) by (apply (recolor_mutates B L _ (inv_heap s I) (inv_live s I) (inv_static s I) v Caml_black); auto; discriminate).
  split; [|split; [|split; [|split]]]; auto.
  - apply (inv_update s); try exact (mu_keeps _ _ _ _ M); auto.
    + intros b Hb. rewrite K. destruct (b =? v); [discriminate|]. now apply (inv_grays s I).
    + apply Forall_forall. intros b Hb. destruct (proj1 (Forall_forall _ _) (inv_stack s I) b (Il b Hb)) as [Lb Cb]. split; auto.
      rewrite K. destruct (Z.eqb_spec b v) as [->|]; [contradiction | auto].
    + intros Hp. split; auto. intros b Hb. rewrite K. destruct (Z.eqb_spec b v); [discriminate|]. intros Hg. cbn.
      destruct (in_dec Z.eq_dec b (gray_vals s)) as [H|H]; [|right; auto]. destruct (Al b H); [contradiction | auto].
  - intros b _. rewrite K. destruct (Z.eqb_spec b v) as [->|]; tauto.
  - now rewrite K, Z.eqb_refl.
Qed.

(** ** Scanning a field *)

Lemma guarded_pend m pend pend' x : (forall c, pend c -> color m c = Caml_white -> pend' c) -> guarded m pend x -> guarded m pend' x.
Proof. intros H. induction 1; [apply g_gray | apply g_pend | eapply g_step]; eauto. Qed.

Lemma Is_white_color m c : Is_white_hd (Hd_op m c) = (color m c =? Caml_white).
Proof. reflexivity. Qed.

(** What an operation on the graph does to the state. *)
Definition advances (s s' : gc) (pend pend' : Z -> Prop) : Prop :=
  inv s' /\ same_control s s' /\ mutates (memory s) (memory s') /\ darker (memory s) (memory s') /\
  forall x, guarded (memory s) pend x -> guarded (memory s') pend' x.

Lemma advances_trans s1 s2 s3 p1 p2 p3 : inv s1 -> advances s1 s2 p1 p2 -> advances s2 s3 p2 p3 -> advances s1 s3 p1 p3.
Proof.
  intros I (I2 & C2 & M2 & K2 & G2) (I3 & C3 & M3 & K3 & G3). split; auto. split; [eapply same_control_trans; eauto|].
  split; [eapply mutates_trans; eauto; apply I|]. split; [eapply darker_trans; eauto | intros x Hx; auto].
Qed.

Lemma advances_weaken s pend pend' : inv s -> (forall c, pend c -> color (memory s) c = Caml_white -> pend' c) -> advances s s pend pend'.
Proof.
  intros I H. split; auto. split; [apply same_control_refl|]. split; [apply mutates_refl; apply I|]. split; [apply darker_refl|].
  intros x. now apply guarded_pend.
Qed.

(** The short-circuit of a forwarding block. *)
Lemma store_advances s v i f pend : inv s -> L v -> tag (memory s) v < No_scan_tag -> 0 <= i < wosize (memory s) v ->
  color (memory s) v = Caml_black -> Is_block (Op_val (memory s) v i) = true -> (forall c, pend c -> L c) ->
  (pointer f -> good L (memory s) f /\ reach (memory s) v (base (memory s) f)) -> advances s (set_field v i f s) pend pend.
Proof.
  intros I Hv Ht Hi Hb Old P Hf. pose proof (inv_heap s I) as W. pose proof (inv_live s I) as V.
  assert (C : same_control s (set_field v i f s)) by now split.
  assert (K : forall b, In b B -> color (memory (set_field v i f s)) b = color (memory s) b) by (intros b; exact (store_color B L _ v i f W V Hv Hi b)).
  assert (M : mutates (memory s) (memory (set_field v i f s))) by (apply store_mutates; auto; apply I).
  split; [|split; [auto|split; [auto|split]]].
  - apply (inv_update s); try exact (mu_keeps _ _ _ _ M); auto; try apply I.
    + intros b Hb'. rewrite K by auto. now apply (inv_grays s I).
    + apply Forall_forall. intros b Hb'. destruct (proj1 (Forall_forall _ _) (inv_stack s I) b Hb') as [Lb Cb]. split; auto. rewrite K; auto. now apply (live_in B L _ V).
    + intros Hp. split; auto. intros b Hb'. rewrite K by auto. destruct (in_dec Z.eq_dec b (gray_vals s)); auto.
  - intros b Ib. left. now rewrite K.
  - intros x. apply (guarded_store B L (memory s) pend); auto; try apply I. intros Pf. now apply Hf.
Qed.

Lemma child_mutates m m' k v y : mutates m m' -> live_wf B L m -> L v -> tag m v < No_scan_tag -> 0 <= k ->
  (forall i, k <= i < wosize m v -> Op_val m' v i = Op_val m v i) -> child_from m k v y -> child_from m' k v y.
Proof.
  intros M V Hv Ht Hk E (i & Hi & P & ->). pose proof (mu_shape _ _ _ _ M) as S.
  destruct (ss_header B m m' S v (live_in B L m V v Hv)) as (_ & _ & Ew). exists i. rewrite Ew, E by auto. split; auto. split; auto.
  symmetry. apply (good_same B L m m' _ S V). apply (live_field B L m V); auto. lia.
Qed.

Lemma child_next m k v y : child_from m k v y -> (pointer (Op_val m v k) /\ y = base m (Op_val m v k)) \/ child_from m (k + 1) v y.
Proof.
  intros (i & Hi & P & ->). destruct (Z.eq_dec i k) as [->|]; [left; auto | right]. exists i. split; [lia | auto].
Qed.

Lemma reach_field m v i : tag m v < No_scan_tag -> 0 <= i < wosize m v -> pointer (Op_val m v i) -> edge m v (base m (Op_val m v i)).
Proof. intros Ht Hi P. split; auto. exists i. auto. Qed.

(** [c0] is the value of field [i] of the block being scanned. *)
Lemma short_circuit_spec s v i pend : inv s -> L v -> tag (memory s) v < No_scan_tag -> 0 <= i < wosize (memory s) v -> color (memory s) v = Caml_black ->
  (forall c, pend c -> L c) -> let c0 := Op_val (memory s) v i in pointer c0 -> let s1 := short_circuit v i c0 s in
  advances s s1 pend pend /\ (forall j, i < j < wosize (memory s) v -> Op_val (memory s1) v j = Op_val (memory s) v j) /\
  (forall b, In b B -> Hd_op (memory s1) b = Hd_op (memory s) b).
Proof.
  intros I Hv Ht Hi Hb HP c0 P s1. pose proof (inv_heap s I) as W. pose proof (inv_live s I) as V. set (m := memory s) in *.
  pose proof (live_field B L m V v i Hv Ht Hi P) as Gc0. fold c0 in Gc0. set (c := base m c0). assert (Lc : L c) by apply Gc0.
  assert (Same : advances s s pend pend) by (apply advances_weaken; auto).
  unfold s1, short_circuit. fold m. destruct (Z.eqb_spec (Tag_hd (Hd_op m c0)) Forward_tag) as [Tf|]; [|now split].
  destruct (_ && _); [now split|].
  assert (Ec : c = c0) by (unfold c, base, tag; rewrite Tf; reflexivity).
  assert (Tc : tag m c < No_scan_tag) by (rewrite Ec; unfold tag; rewrite Tf; reflexivity).
  assert (Wc : 0 <= 0 < wosize m c) by (split; [lia | apply (live_forward B L m V); [auto | now rewrite Ec]]).
  split; [|split].
  - apply store_advances; auto; [apply P|]. unfold Forward_value. fold m. rewrite <- Ec. intros Pf. split; [now apply (live_field B L m V)|].
    eapply reach_step; [eapply reach_step; [apply reach_refl|] | exact (reach_field m c 0 Tc Wc Pf)]. exact (reach_field m v i Ht Hi P).
  - intros j Hj. cbn [memory set_field set_memory]. fold m. rewrite (store_field B L m v i _ W V Hv Hi v j (live_in B L m V v Hv)) by lia.
    rewrite Z.eqb_refl. destruct (Z.eqb_spec j i); [lia | reflexivity].
  - intros b Ib. exact (store_hd B L m v i _ W V Hv Hi b Ib).
Qed.

Lemma mark_field_spec s v i : inv s -> L v -> tag (memory s) v < No_scan_tag -> 0 <= i < wosize (memory s) v -> color (memory s) v = Caml_black ->
  advances s (mark_field v i s) (child_from (memory s) i v) (child_from (memory (mark_field v i s)) (i + 1) v).
Proof.
  intros I Hv Ht Hi Hb. pose proof (inv_live s I) as V. set (m := memory s) in *.
  assert (HP : forall c, child_from m i v c -> L c) by (intros c; apply (child_live B L m i v c V Hv Ht); lia).
  unfold mark_field. fold m. set (c0 := Op_val m v i). destruct (Is_block c0 && Is_in_heap c0) eqn:Pc.
  2:{ apply advances_weaken; auto. intros c Hc _. apply child_next in Hc as [[[P1 P2] _]|Hc]; auto. fold c0 in P1, P2. rewrite P1, P2 in Pc. discriminate Pc. }
  apply andb_prop in Pc as P. fold (pointer c0) in P.
  pose proof (live_field B L m V v i Hv Ht Hi P) as Gc0. fold c0 in Gc0. assert (Lc : L (base m c0)) by apply Gc0.
  destruct (short_circuit_spec s v i _ I Hv Ht Hi Hb HP P) as (A1 & F1 & D1). fold m c0 in A1, F1, D1. set (s1 := short_circuit v i c0 s) in *.
  set (infix := negb _ && _). assert (Ei : infix = (tag m c0 =? Infix_tag)).
  { unfold infix, tag. destruct (Z.eqb_spec (Tag_hd (Hd_op m c0)) Forward_tag) as [->|]; reflexivity. }
  rewrite Ei. clear infix Ei. fold (base m c0). set (c := base m c0) in *. assert (Ic : In c B) by now apply (live_in B L m V).
  replace (if tag m c0 =? Infix_tag then c0 - Infix_offset_hd (Hd_op m c0) else c0) with c by reflexivity.
  replace (if tag m c0 =? Infix_tag then Hd_op (memory s1) c else Hd_op m c0) with (Hd_op (memory s1) c).
  2:{ destruct (tag m c0 =? Infix_tag) eqn:E; auto. rewrite D1 by auto. unfold c, base. now rewrite E. }
  pose proof A1 as (I1 & C1 & M1 & K1 & G1). rewrite Is_white_color.
  assert (Next : forall y, child_from m (i + 1) v y -> child_from (memory s1) (i + 1) v y).
  { intros y. apply child_mutates; auto; [lia|]. intros j Hj. apply F1. lia. }
  apply (advances_trans _ _ _ _ _ _ I A1). destruct (Z.eqb_spec (color (memory s1) c) Caml_white) as [Wh|Wh].
  - fold (gray_block c s1). destruct (gray_block_spec c s1 I1 Lc Wh) as (I2 & C2 & M2 & K2). split; [auto|split; [auto|split; [auto|split; [auto|]]]].
    apply gray_block_guarded; auto. intros y Hy. apply child_next in Hy as [[_ ->]|Hy]; [right; reflexivity | left]. apply Next in Hy.
    pose proof (mu_shape _ _ _ _ M1) as S1. destruct (ss_header B m _ S1 v (live_in B L m V v Hv)) as (_ & Etv & Ewv).
    apply (child_mutates _ _ _ _ _ M2 (inv_live s1 I1)); auto; try lia. intros j Hj. rewrite gray_memory.
    destruct (gray_recolored c s1 I1 Lc) as [_ R].
    apply (recolor_field B (memory s1) c _ (inv_heap s1 I1) Ic); [now apply (live_in B L m V) | lia].
  - apply advances_weaken; auto. intros y Hy Wy. apply child_next in Hy as [[_ ->]|Hy]; [contradiction | now apply Next].
Qed.

Lemma mark_fields_spec n : forall s v i, inv s -> L v -> tag (memory s) v < No_scan_tag -> 0 <= i -> i + Z.of_nat n = wosize (memory s) v ->
  color (memory s) v = Caml_black -> advances s (mark_fields n v i s) (child_from (memory s) i v) none.
Proof.
  induction n as [|n IH]; intros s v i I Hv Ht Hi Hn Hb; cbn [mark_fields].
  - apply advances_weaken; auto. intros c (j & Hj & _) _. lia.
  - pose proof (mark_field_spec s v i I Hv Ht ltac:(lia) Hb) as A1. pose proof A1 as (I1 & C1 & M1 & K1 & G1).
    pose proof (live_in B L _ (inv_live s I) v Hv) as Iv.
    destruct (ss_header B _ _ (mu_shape _ _ _ _ M1) v Iv) as (_ & Et & Ew). apply (advances_trans _ _ _ _ _ _ I A1).
    apply IH; auto; [now rewrite Et | lia | rewrite Ew; lia | exact (darker_black _ _ v K1 Iv Hb)].
Qed.

(** ** Darkening a value *)

(** What a step of the marker does, blocks being compared between two steps. *)
Record marks (s s' : gc) : Prop := {
  mk_inv : inv s';
  mk_shape : same_shape B (memory s) (memory s');
  mk_darker : darker (memory s) (memory s');
  mk_reach : forall b c, L b -> reach (memory s') b c -> reach (memory s) b c;
  mk_safe : forall x, L x -> safe (memory s) none x -> safe (memory s') none x }.

Lemma marks_refl s : inv s -> marks s s.
Proof. intros I. split; auto; [apply same_shape_refl; apply I | apply darker_refl]. Qed.
Lemma marks_trans s1 s2 s3 : marks s1 s2 -> marks s2 s3 -> marks s1 s3.
Proof. intros [I1 Sh1 D1 R1 S1] [I2 Sh2 D2 R2 S2]. split; auto; [eapply same_shape_trans; eauto | eapply darker_trans; eauto]. Qed.

Lemma advances_marks s s' pend : inv s -> advances s s' pend none -> (forall x, L x -> safe (memory s) none x -> color (memory s) x = Caml_black \/ guarded (memory s) pend x) -> marks s s'.
Proof.
  intros I (I' & C & M & K & G) H. split; auto; [exact (mu_shape _ _ _ _ M)|..].
  - intros b c Hb. apply (mutates_reach B L); auto. apply I.
  - intros x Hx Sx. destruct (H x Hx Sx) as [Hc|Hg]; [left; apply (darker_black _ _ _ K); auto; now apply (live_in B L _ (inv_live s I)) | right; auto].
Qed.

Lemma darken_spec v s : inv s -> (pointer v -> good L (memory s) v) ->
  marks s (caml_darken v s) /\ mutates (memory s) (memory (caml_darken v s)) /\ same_control s (caml_darken v s) /\
  (pointer v -> color (memory (caml_darken v s)) (base (memory s) v) <> Caml_white).
Proof.
  intros I Hv. set (m := memory s). pose proof (inv_live s I) as V.
  assert (Same : pointer v /\ color m (base m v) <> Caml_white \/ ~ pointer v ->
    marks s s /\ mutates m (memory s) /\ same_control s s /\ (pointer v -> color (memory s) (base m v) <> Caml_white)).
  { intros H. split; [now apply marks_refl|]. split; [apply mutates_refl; apply I|]. split; [apply same_control_refl|]. intros P. destruct H as [[_ H]|H]; [auto | contradiction]. }
  unfold caml_darken. fold m. destruct (Is_block v && Is_in_heap v) eqn:P.
  2:{ apply Same. right. intros [P1 P2]. rewrite P1, P2 in P. discriminate P. }
  apply andb_prop in P. fold (pointer v) in P. destruct (Hv P) as [Lc _]. fold (tag m v). fold (base m v). fold m in Lc. set (c := base m v) in *.
  rewrite Is_white_color. destruct (Z.eqb_spec (color m c) Caml_white) as [Wh|Wh]; [|apply Same; left; auto].
  pose proof (live_in B L m V c Lc) as Ic. destruct (Z.ltb_spec (Tag_hd (Hd_op m c)) No_scan_tag) as [Ht|Ht].
  - fold (gray_block c s). destruct (gray_block_spec c s I Lc Wh) as (I' & C & M & K). split; [|split; [auto | split; [auto|]]].
    + apply (advances_marks s _ none I); auto. split; auto. split; auto. split; auto. split; auto. apply gray_block_guarded; auto. intros x [].
    + intros _ E. pose proof (eq_trans (eq_sym (gray_color c s I Lc c)) E) as K'. rewrite Z.eqb_refl in K'. discriminate K'.
  - destruct (blacken_inv c s (gray_vals s) I Lc (or_intror Wh) (inv_nodup s I) (incl_refl _)) as (I' & C & M & K & Kc).
    + intros H. pose proof (proj1 (Forall_forall _ _) (inv_stack s I) c H) as [_ E]. fold m in E. rewrite Wh in E. discriminate E.
    + auto.
    + set (s0 := set_gray _ _ _ _) in *. assert (E0 : s0 = s) by (unfold s0; now destruct s). rewrite E0 in *. fold m in I', C, M, K, Kc.
      split; [|split; [auto | split; [auto|]]]; [|intros _; rewrite Kc; discriminate].
      split; auto; [exact (mu_shape _ _ _ _ M) | intros b y Hb; now apply (mutates_reach B L)|]. intros x Hx [Hk|Hg]; [left; apply (darker_black _ _ _ K); auto; now apply (live_in B L m V)|].
      destruct (guarded_leaf B L m none (inv_heap s I) V (inv_grays s I) ltac:(intros ? []) c _ Ic (Blackhd_recolor _ (wf_header B m (inv_heap s I) c Ic)) Wh Ht x Hg) as [->|Hg'];
        [now left | now right].
Qed.

(** The only change is that the block, when it is white, becomes gray, or black if
    it has nothing to scan. *)
Lemma darken_change v s : inv s -> (pointer v -> good L (memory s) v) ->
  memory (caml_darken v s) = memory s \/
  (pointer v /\ exists h col, recolored (Hd_op (memory s) (base (memory s) v)) h col /\
     memory (caml_darken v s) = (memory s).[base (memory s) v - sizeof_value <- h] /\ color (memory s) (base (memory s) v) = Caml_white /\
     (col = Caml_gray \/ col = Caml_black /\ No_scan_tag <= tag (memory s) (base (memory s) v))).
Proof.
  intros I Hv. unfold caml_darken. destruct (Is_block v && Is_in_heap v) eqn:P; [|now left]. apply andb_prop in P. fold (pointer v) in P.
  fold (tag (memory s) v). fold (base (memory s) v). set (c := base (memory s) v) in *. destruct (Hv P) as [Lc _]. fold c in Lc.
  rewrite Is_white_color. destruct (Z.eqb_spec (color (memory s) c) Caml_white) as [Wh|]; [|now left]. right. split; auto.
  pose proof (wf_header B _ (inv_heap s I) c (live_in B L _ (inv_live s I) c Lc)) as Ho.
  destruct (Z.ltb_spec (Tag_hd (Hd_op (memory s) c)) No_scan_tag) as [Ht|Ht].
  - exists (Grayhd_hd (Hd_op (memory s) c)), Caml_gray. split; [now apply Grayhd_recolor|]. split; [|auto]. now rewrite (proj1 (push_gray_spec _ _)).
  - exists (Blackhd_hd (Hd_op (memory s) c)), Caml_black. split; [now apply Blackhd_recolor|]. split; [reflexivity | auto].
Qed.

Lemma good_mutates s s' x : inv s -> mutates (memory s) (memory s') -> good L (memory s) x -> good L (memory s') x.
Proof. intros I M G. eapply good_same; eauto; [apply M | apply I]. Qed.

Lemma darken_all_spec l : forall s, inv s -> Forall (fun v => pointer v -> good L (memory s) v) l ->
  marks s (fold_left (fun s v => caml_darken v s) l s) /\ mutates (memory s) (memory (fold_left (fun s v => caml_darken v s) l s)) /\
  same_control s (fold_left (fun s v => caml_darken v s) l s) /\
  forall v, In v l -> pointer v -> safe (memory (fold_left (fun s v => caml_darken v s) l s)) none (base (memory s) v).
Proof.
  induction l as [|v l IH]; intros s I F; cbn [fold_left].
  { split; [now apply marks_refl|]. split; [apply mutates_refl; apply I|]. split; [apply same_control_refl | intros v []]. }
  inversion_clear F as [|? ? Hv Fl]. destruct (darken_spec v s I Hv) as (M1 & Mu1 & C1 & Wv). pose proof (mk_inv _ _ M1) as I1.
  destruct (IH _ I1) as (M2 & Mu2 & C2 & Sv).
  { eapply Forall_impl; [|exact Fl]. cbn. intros y Hy P. exact (good_mutates _ _ _ I Mu1 (Hy P)). }
  split; [eapply marks_trans; eauto|]. split; [eapply mutates_trans; eauto; apply I|]. split; [eapply same_control_trans; eauto|].
  intros y Hy P. destruct (in_dec Z.eq_dec y l) as [H|H].
  - specialize (Sv y H P). assert (Gy : good L (memory s) y) by (exact (proj1 (Forall_forall _ _) Fl y H P)).
    destruct (good_same B L _ _ y (mu_shape _ _ _ _ Mu1) (inv_live s I) Gy) as [E _]. now rewrite E in Sv.
  - destruct Hy as [->|Hy]; [|contradiction]. apply (mk_safe _ _ M2); [now apply Hv|].
    pose proof (live_in B L _ (inv_live s I) _ (proj1 (Hv P))) as Ib. pose proof (live_color B L _ (inv_live _ I1) _ (proj1 (Hv P))) as Nb. specialize (Wv P).
    pose proof (Color_hd_eq (Hd_op (memory (caml_darken y s)) (base (memory s) y))) as E. fold (color (memory (caml_darken y s)) (base (memory s) y)) in E.
    pose proof (Z.mod_pos_bound (Hd_op (memory (caml_darken y s)) (base (memory s) y) / 256) 4 eq_refl) as Bd.
    change Caml_blue with 512 in Nb. change Caml_white with 0 in Wv.
    assert (D : color (memory (caml_darken y s)) (base (memory s) y) = 256 \/ color (memory (caml_darken y s)) (base (memory s) y) = 768) by lia.
    destruct D as [D|D]; [right; now apply g_gray | now left].
Qed.
End Mark.
