(* ===== verification/GcWeak.v ===== *)
(** GcWeak: the cleaning of weak arrays and the update of finalised values keep the
    invariant of the marker. *)
From Stdlib Require Import ZArith Lia List Bool.
From S2P Require Import Prelude Mlvalues InterpState ExternOutput MarshalBytes MarshalTrail MarshalDecode Gc GcGraph GcInv GcMark.
Import ListNotations.
Local Open Scope Z_scope.

Section Weak.
Context {A : Arch} {Env : Heap_env}.
Variable B : list Z.
Variable L : Z -> Prop.
Notation inv := (inv B L).
Notation marks := (marks B L).

(** ** Writing in a word that is not scanned *)

Section Data.
Variables (m : mem) (a x : Z).
Hypothesis (W : heap_wf B m) (V : live_wf B L m).
Hypothesis (NotHd : forall b, In b B -> a <> b - sizeof_value).
Hypothesis (NotField : forall b i, In b B -> tag m b < No_scan_tag -> 0 <= i < wosize m b -> a <> b + Bsize_wsize i).
Let m' := m.[a <- x].

Lemma data_hd b : In b B -> Hd_op m' b = Hd_op m b.
Proof. intros Hb. unfold m', Hd_op. apply upd_other. apply not_eq_sym. auto. Qed.
Lemma data_color b : In b B -> color m' b = color m b.
Proof. intros Hb. unfold color. now rewrite data_hd. Qed.
Lemma data_field b i : In b B -> tag m b < No_scan_tag -> 0 <= i < wosize m b -> Op_val m' b i = Op_val m b i.
Proof. intros Hb Ht Hi. unfold m', Op_val. apply upd_other. apply not_eq_sym. auto. Qed.

Lemma data_shape : same_shape B m m'.
Proof.
  split.
  - intros b Hb. unfold tag, wosize. rewrite data_hd by auto. split; auto. now apply (wf_header B m W).
  - intros b c Hb Ht (i & Hi & ->) _. apply data_field; auto. now rewrite Ht.
Qed.

Lemma data_live : live_wf B L m'.
Proof.
  pose proof data_shape as S. split.
  - apply (live_in B L m V).
  - intros b Hb. rewrite data_color by (now apply (live_in B L m V)). now apply (live_color B L m V).
  - intros b Hb. destruct (ss_header B m m' S b (live_in B L m V b Hb)) as (_ & Et & Ew). rewrite Et, Ew. now apply (live_forward B L m V).
  - intros b i Hb. pose proof (live_in B L m V b Hb) as Ib. destruct (ss_header B m m' S b Ib) as (_ & Et & Ew). rewrite Et, Ew. intros Ht Hi.
    rewrite data_field by auto. intros P. apply (good_same B L m m' _ S V). now apply (live_field B L m V).
Qed.

Lemma data_edge b c : L b -> edge m' b c <-> edge m b c.
Proof.
  intros Hb. pose proof data_shape as S. pose proof (live_in B L m V b Hb) as Ib. destruct (ss_header B m m' S b Ib) as (_ & Et & Ew).
  unfold edge, child_from. rewrite Et, Ew. split; intros [Ht (i & Hi & P & ->)]; (split; [exact Ht|]); exists i; (split; [exact Hi|]);
    rewrite data_field in * by auto; (split; [exact P|]); [|symmetry]; apply (good_same B L m m' _ S V); now apply (live_field B L m V).
Qed.

Lemma data_reach b c : L b -> reach m' b c -> reach m b c.
Proof.
  intros Hb. induction 1 as [|c d R IH E]; [constructor|]. econstructor; eauto. apply data_edge; auto. now apply (reach_live B L m b c V).
Qed.

Lemma data_safe y : grays_live B L m -> L y -> safe B m none y -> safe B m' none y.
Proof.
  intros G Hy [H|H]; [left; now rewrite data_color by (now apply (live_in B L m V)) | right]. clear Hy.
  induction H as [b Hb Hc|c []|b c H IH E Hc]; [apply g_gray; auto; now rewrite data_color|].
  assert (Lb : L b) by (apply (guarded_live B L m none b V G); [intros ? []| exact H]). apply g_step with b; auto; [now apply data_edge|].
  rewrite data_color; auto. apply (live_in B L m V). now apply (edge_live B L m b c).
Qed.
End Data.

(** Links and weak fields are such words, so the rest of the invariant holds when
    the lists of arrays are still well formed. *)
Lemma data_marks s a x : inv s -> (forall b, In b B -> a <> b - sizeof_value) ->
  (forall b i, In b B -> tag (memory s) b < No_scan_tag -> 0 <= i < wosize (memory s) b -> a <> b + Bsize_wsize i) ->
  let m' := (memory s).[a <- x] in
  (forall p l, weak_chain B L (memory s) p l -> exists l, weak_chain B L m' p l) -> marks s (set_memory m' s).
Proof.
  intros I N1 N2 m' Ch. pose proof (inv_heap B L s I) as W. pose proof (inv_live B L s I) as V. pose proof (data_shape (memory s) a x W N1 N2) as S. fold m' in S.
  assert (Col : forall b, In b B -> color m' b = color (memory s) b) by (intros b; now apply data_color).
  split; [|exact S|intros b Hb; left; now apply Col|intros b c Hb; now apply (data_reach (memory s) a x) | intros y Hy; apply (data_safe (memory s) a x); auto; apply I].
  split; cbn [memory gray_vals heap_is_pure markhp chunk limit finalisable weak_prev set_memory].
  - eapply heap_wf_same; eauto.
  - now apply (data_live (memory s) a x).
  - eapply chunks_same; eauto; [apply I | apply incl_refl].
  - apply I.
  - eapply static_same; eauto. apply I.
  - destruct (inv_weak_list B L s I) as [l H]. eauto.
  - intros b Hb. rewrite Col by auto. now apply (inv_grays B L s I).
  - apply Forall_forall. intros b Hb. destruct (proj1 (Forall_forall _ _) (inv_stack B L s I) b Hb) as [Lb Cb]. split; auto. rewrite Col; auto. now apply (live_in B L _ V).
  - apply I.
  - destruct (inv_scan B L s I) as (rem & Sc & Fd). exists rem. split; [eapply scanning_same; eauto|]. intros Hp b Hb. rewrite Col by auto. now apply Fd.
  - eapply Forall_impl; [|apply I]. intros f [P Hf]. split; auto. eapply good_same; eauto.
  - intros Hw. destruct (inv_weak B L s I Hw) as [l H]. eauto.
Qed.

(** ** The field of a weak array *)

Definition weak_value (m : mem) (x : Z) : Prop := x <> caml_weak_none -> pointer x -> good L m x.

Lemma weak_field_arrays m c i x : heap_wf B m -> live_wf B L m -> static B m caml_weak_list_head -> weak_array B L m c -> 1 <= i < wosize m c -> weak_value m x ->
  let m' := m.[c + Bsize_wsize i <- x] in
  (forall d, weak_array B L m d -> weak_array B L m' d) /\ forall l p, weak_chain B L m p l -> weak_chain B L m' p l.
Proof.
  intros W V Out Hc Hi Hx m'. pose proof Hc as (Ic & _). pose proof (weak_array_tag B L m c Hc) as Tc.
  assert (N1 : forall b, In b B -> c + Bsize_wsize i <> b - sizeof_value) by (intros b Hb; apply (header_not_field B m); auto; lia).
  assert (N2 : forall b j, In b B -> tag m b < No_scan_tag -> 0 <= j < wosize m b -> c + Bsize_wsize i <> b + Bsize_wsize j).
  { intros b j Hb Ht Hj E. destruct (field_not_field B m c b i j W Ic Hb) as [-> _]; auto; lia. }
  pose proof (data_shape m _ x W N1 N2) as S. fold m' in S.
  assert (Arr : forall d, weak_array B L m d -> weak_array B L m' d).
  { intros d (Id & Td & Wd & Fd). destruct (ss_header B m m' S d Id) as (_ & E1 & E2). unfold weak_array. rewrite E1, E2. split; auto. split; auto. split; auto.
    intros j Hj. assert (F : Op_val m' d j = Op_val m d j \/ Op_val m' d j = x) by (unfold m', Op_val, upd; destruct (_ =? _); auto).
    intros Hn P. eapply good_same; eauto. destruct F as [F|F]; rewrite F in *; auto. }
  assert (Link : forall p, weak_link B L m p -> m' p = m p).
  { intros p Hp. unfold m'. apply upd_other. intros ->. destruct Hp as [E|(Ip & _ & Wp & _)].
    - apply (proj2 (Out c Ic)). exists i. split; [lia | auto].
    - destruct (field_not_field B m _ c 0 i W Ip Ic) as [_ E]; [lia | lia | unfold Bsize_wsize; lia | lia]. }
  split; auto. induction l as [|d l IH]; intros p [Hp H]; cbn [weak_chain]; rewrite (Link p Hp);
    (split; [destruct Hp as [->|Hp]; [now left | right; auto]|]); auto. destruct H as (H1 & H2 & H3 & H4). auto.
Qed.

(** What a step on a weak array does. *)
Record weak_step (s s' : gc) : Prop := {
  ws_marks : marks s s';
  ws_shape : same_shape B (memory s) (memory s');
  ws_array : forall c, weak_array B L (memory s) c -> weak_array B L (memory s') c;
  ws_chain : forall l p, weak_chain B L (memory s) p l -> weak_chain B L (memory s') p l;
  ws_control : same_control s s';
  ws_color : forall b, In b B -> color (memory s') b = color (memory s) b }.

Lemma weak_step_refl s : inv s -> weak_step s s.
Proof. intros I. split; auto; [now apply marks_refl | apply same_shape_refl; apply I | apply same_control_refl]. Qed.
Lemma weak_step_trans s1 s2 s3 : weak_step s1 s2 -> weak_step s2 s3 -> weak_step s1 s3.
Proof.
  intros H1 H2. destruct H1 as [M1 S1 A1 C1 K1 E1], H2 as [M2 S2 A2 C2 K2 E2]. split; auto; [eapply marks_trans; eauto | eapply same_shape_trans; eauto | eapply same_control_trans; eauto|].
  intros b Hb. now rewrite E2, E1.
Qed.

Lemma set_field_weak s c i x : inv s -> weak_array B L (memory s) c -> 1 <= i < wosize (memory s) c -> weak_value (memory s) x ->
  weak_step s (set_field c i x s).
Proof.
  intros I Hc Hi Hx. pose proof Hc as (Ic & _). pose proof (weak_array_tag B L _ c Hc) as Tc. pose proof (inv_heap B L s I) as W. pose proof (inv_live B L s I) as V.
  destruct (weak_field_arrays (memory s) c i x W V (inv_static B L s I) Hc Hi Hx) as [Arr Ch].
  assert (N1 : forall b, In b B -> c + Bsize_wsize i <> b - sizeof_value) by (intros b Hb; apply (header_not_field B (memory s)); auto; lia).
  assert (N2 : forall b j, In b B -> tag (memory s) b < No_scan_tag -> 0 <= j < wosize (memory s) b -> c + Bsize_wsize i <> b + Bsize_wsize j).
  { intros b j Hb Ht Hj E. destruct (field_not_field B (memory s) c b i j W Ic Hb) as [-> _]; auto; lia. }
  split; auto; [|apply data_shape; auto | now split | intros b Hb; now apply (data_color (memory s) _ x N1)]. apply data_marks; auto. intros p l H. eauto.
Qed.

Lemma keep_forward_tag m f : keep_forward m f = false -> tag m f <> Forward_tag.
Proof. unfold keep_forward, tag. intros H E. rewrite E in H. rewrite Z.eqb_refl, orb_true_r in H. discriminate H. Qed.

Lemma weak_none_value m : weak_value m caml_weak_none.
Proof. intros []. reflexivity. Qed.

Lemma weak_field_spec s c i : inv s -> weak_array B L (memory s) c -> 1 <= i < wosize (memory s) c -> exists s', weak_field c i s = Ok s' /\ weak_step s s'.
Proof.
  intros I Hc Hi. unfold weak_field. set (m := memory s). set (x := Op_val m c i). pose proof (inv_live B L s I) as V.
  assert (Hx : weak_value m x) by (destruct Hc as (_ & _ & _ & F); intros Hn P; now apply F).
  assert (Cl : forall s1 b, weak_step s s1 -> exists s', Ok (if (b : bool) then set_field c i caml_weak_none s1 else s1) = Ok s' /\ weak_step s s').
  { intros s1 b S1. destruct b; eexists; (split; [reflexivity|]); auto. eapply weak_step_trans; eauto. apply set_field_weak.
    - exact (mk_inv _ _ _ _ (ws_marks _ _ S1)).
    - apply (ws_array _ _ S1). exact Hc.
    - destruct (ss_header B _ _ (ws_shape _ _ S1) c) as (_ & _ & ->); [apply Hc | lia].
    - apply weak_none_value. }
  pose proof (weak_step_refl s I) as S0. cbn [weak_again]. fold m.
  destruct (negb (x =? caml_weak_none) && Is_block x && Is_in_heap x) eqn:Px; [|eauto].
  apply andb_prop in Px as [Px P2]. apply andb_prop in Px as [Pn P1]. assert (Gx : good L m x).
  { apply Hx; [|now split]. intros E. rewrite E, Z.eqb_refl in Pn. discriminate Pn. }
  destruct (Z.eqb_spec (Tag_hd (Hd_op m x)) Forward_tag) as [Tf|]; [|now apply Cl]. set (f := Forward_value m x).
  destruct (Is_block f && negb (keep_forward m f)) eqn:K; [|now apply Cl]. apply andb_prop in K as [K1 K2]. apply negb_true_iff in K2.
  assert (Ex : base m x = x) by (unfold base, tag; rewrite Tf; reflexivity). assert (Lx : L x) by (rewrite <- Ex; apply Gx).
  assert (Hf : pointer f -> good L m f).
  { intros Pf. apply (live_field B L m V x 0); auto; [unfold tag; rewrite Tf; reflexivity|]. split; [lia | now apply (live_forward B L m V)]. }
  assert (S1 : weak_step s (set_field c i f s)) by (apply set_field_weak; auto; intros _; exact Hf). set (s1 := set_field c i f s) in *.
  destruct (negb (f =? caml_weak_none) && Is_block f && Is_in_heap f) eqn:Pf; [|eauto].
  apply andb_prop in Pf as [Pf Q2]. apply andb_prop in Pf as [_ Q1]. assert (Gf : good L m f) by (apply Hf; now split).
  destruct (Z.eqb_spec (Tag_hd (Hd_op (memory s1) f)) Forward_tag) as [Tf'|]; [exfalso | now apply Cl].
  apply (keep_forward_tag m f K2). destruct (Z.eqb_spec (tag m f) Infix_tag) as [Ti|Ti].
  - destruct (good_same B L m (memory s1) f (ws_shape _ _ S1) V Gf) as [_ _]. destruct Gf as [Lb Gi]. destruct (Gi Ti) as (Tc & F & _).
    pose proof (ss_infix B m _ (ws_shape _ _ S1) _ _ (live_in B L m V _ Lb) Tc F Ti) as E. unfold tag, Hd_op in *. now rewrite <- E.
  - assert (Eb : base m f = f) by (unfold base; apply Z.eqb_neq in Ti; now rewrite Ti).
    destruct (ss_header B m _ (ws_shape _ _ S1) f) as (_ & E & _); [rewrite <- Eb; apply (live_in B L m V), Gf | rewrite <- E; exact Tf'].
Qed.

Lemma weak_fields_spec n : forall s c i, inv s -> weak_array B L (memory s) c -> 1 <= i -> i + Z.of_nat n <= wosize (memory s) c ->
  exists s', weak_fields n c i s = Ok s' /\ weak_step s s'.
Proof.
  induction n as [|n IH]; intros s c i I Hc Hi Hn; cbn [weak_fields]; [eexists; split; [reflexivity | now apply weak_step_refl]|].
  destruct (weak_field_spec s c i I Hc) as (s1 & -> & S1); [lia|]. destruct (IH s1 c (i + 1)) as (s2 & E & S2).
  - exact (mk_inv _ _ _ _ (ws_marks _ _ S1)).
  - now apply (ws_array _ _ S1).
  - lia.
  - destruct (ss_header B _ _ (ws_shape _ _ S1) c) as (_ & _ & ->); [apply Hc | lia].
  - exists s2. split; auto. eapply weak_step_trans; eauto.
Qed.

(** ** Removing an array from the list *)

Lemma unlink_chain m p c : heap_wf B m -> live_wf B L m -> static B m caml_weak_list_head -> weak_link B L m p -> weak_array B L m c -> m p = c -> c <> 0 ->
  let m' := m.[p <- Op_val m c 0] in
  forall n l q, (length l <= n)%nat -> weak_chain B L m q l ->
  exists l', weak_chain B L m' q l' /\ (length l' <= length l)%nat /\ (q = p -> (length l' < length l)%nat).
Proof.
  intros W V Out Hp Hc Ec Nc m'.
  assert (N1 : forall b, In b B -> p <> b - sizeof_value) by (intros b; apply (data_cell_header B m W Out); now apply (weak_link_cell B L)).
  assert (N2 : forall b j, In b B -> tag m b < No_scan_tag -> 0 <= j < wosize m b -> p <> b + Bsize_wsize j).
  { intros b j Hb Ht Hj. apply (data_cell_field B m W Out); auto. now apply (weak_link_cell B L). }
  pose proof (data_shape m p (Op_val m c 0) W N1 N2) as S. fold m' in S.
  assert (Arr : forall d, weak_array B L m d -> weak_array B L m' d).
  { intros d (Id & Td & Wd & Fd). destruct (ss_header B m m' S d Id) as (_ & E1 & E2). unfold weak_array. rewrite E1, E2. split; auto. split; auto. split; auto.
    intros j Hj. assert (F : Op_val m' d j = Op_val m d j).
    { unfold m', Op_val. apply upd_other. intros E. destruct Hp as [->|(Ip & _ & Wp & _)]; [apply (proj2 (Out d Id)); exists j; split; [lia | auto]|].
      destruct (field_not_field B m d p j 0 W Id Ip) as [_ ?]; [lia | lia | unfold Bsize_wsize in *; lia | lia]. }
    rewrite F. intros Hn P. eapply good_same; eauto. }
  assert (Link : forall q, weak_link B L m q -> weak_link B L m' q) by (intros q [->|Hq]; [now left | right; auto]).
  assert (Ep : m' p = m c) by (unfold m', upd; rewrite Z.eqb_refl; unfold Op_val; f_equal; unfold Bsize_wsize; lia).
  induction n as [|n IH]; intros l q Hl H; (destruct l as [|d l]; [|cbn [length] in Hl; try lia]); destruct H as [Hq H].
  1, 2: exists []; cbn [weak_chain]; destruct (Z.eq_dec q p) as [->|Nq]; [congruence | unfold m'; rewrite upd_other by auto; split; [split; [now apply Link | auto] | split; [auto | contradiction]]].
  destruct H as (H1 & H2 & H3 & H4). destruct (Z.eq_dec q p) as [->|Nq].
  - assert (E : d = c) by congruence. rewrite E in H4. clear E H1 H2 H3. destruct l as [|e l]; destruct H4 as [_ H4].
    + exists []. cbn [weak_chain length]. rewrite Ep. split; [split; [now apply Link | auto] | lia].
    + destruct H4 as (K1 & K2 & K3 & K4). destruct (IH l e) as (l' & H' & Le & _); [cbn [length] in Hl; lia | auto |].
      exists (e :: l'). cbn [weak_chain length]. rewrite Ep. split; [split; [now apply Link | auto] | lia].
  - destruct (IH l d) as (l' & H' & Le & _); [lia | auto |]. exists (d :: l'). cbn [weak_chain length]. unfold m' at 2. rewrite upd_other by auto.
    split; [split; [now apply Link | auto] | split; [lia | contradiction]].
Qed.

Lemma unlink_step s c : inv s -> weak_link B L (memory s) (weak_prev s) -> weak_array B L (memory s) c -> memory s (weak_prev s) = c -> c <> 0 ->
  let s' := set_memory ((memory s).[weak_prev s <- Op_val (memory s) c 0]) s in
  marks s s' /\ (forall b, In b B -> color (memory s') b = color (memory s) b) /\
  forall l, weak_chain B L (memory s) (weak_prev s) l -> exists l', weak_chain B L (memory s') (weak_prev s) l' /\ (length l' < length l)%nat.
Proof.
  intros I Hp Hc Ec Nc s'. pose proof (inv_heap B L s I) as W. pose proof (inv_static B L s I) as Out.
  pose proof (unlink_chain (memory s) (weak_prev s) c W (inv_live B L s I) Out Hp Hc Ec Nc) as U.
  assert (N1 : forall b, In b B -> weak_prev s <> b - sizeof_value) by (intros b; apply (data_cell_header B (memory s) W Out); now apply (weak_link_cell B L)).
  split; [|split].
  - apply data_marks; auto.
    + intros b j Hb Ht Hj. apply (data_cell_field B (memory s) W Out); auto. now apply (weak_link_cell B L).
    + intros q l H. destruct (U (length l) l q (le_n _) H) as (l' & H' & _). eauto.
  - intros b Hb. now apply data_color.
  - intros l H. destruct (U (length l) l _ (le_n _) H) as (l' & H' & _ & Lt). eauto.
Qed.

(** ** Finalised values *)

Definition final_ok (m : mem) (f : final) : Prop := pointer (val f) /\ good L m (val f).
Definition todo_ok (m : mem) (f : final) : Prop := pointer (val f) -> good L m (val f).

Lemma final_again_spec m f : heap_wf B m -> live_wf B L m -> final_ok m f ->
  exists w f', final_again 2 m f = Ok (w, f') /\ (if (w : bool) then todo_ok m f' else final_ok m f').
Proof.
  intros W V Ff. pose proof Ff as [P Hf]. assert (Tf0 : todo_ok m f) by (intros _; exact Hf). cbn [final_again].
  destruct (Is_white_val m (val f)); [|do 2 eexists; split; [reflexivity | exact Ff]].
  destruct (Z.eqb_spec (Tag_hd (Hd_op m (val f))) Forward_tag) as [Tf|]; [|do 2 eexists; split; [reflexivity | exact Tf0]]. set (fv := Forward_value m (val f)).
  destruct (Is_block fv && keep_forward m fv) eqn:K; [do 2 eexists; split; [reflexivity | exact Tf0]|].
  assert (Ex : base m (val f) = val f) by (unfold base, tag; rewrite Tf; reflexivity). assert (Lx : L (val f)) by (rewrite <- Ex; apply Hf).
  assert (Gf : todo_ok m (Final (fun_ f) fv (offset f))).
  { intros Pf. apply (live_field B L m V (val f) 0); auto; [unfold tag; rewrite Tf; reflexivity|]. split; [lia | now apply (live_forward B L m V)]. }
  destruct (Is_block fv && Is_in_heap fv) eqn:Q; [|do 2 eexists; split; [reflexivity | exact Gf]]. cbn [val fun_ offset].
  apply andb_prop in Q. destruct (Is_white_val m fv); [|do 2 eexists; split; [reflexivity | split; [exact Q | now apply Gf]]].
  rewrite (proj1 Q) in K. cbn [andb] in K. apply keep_forward_tag in K. unfold tag in K.
  destruct (Z.eqb_spec (Tag_hd (Hd_op m fv)) Forward_tag); [contradiction | do 2 eexists; split; [reflexivity | exact Gf]].
Qed.

Lemma final_split_spec m l : heap_wf B m -> live_wf B L m -> Forall (final_ok m) l ->
  exists todo kept, final_split m l = Ok (todo, kept) /\ Forall (todo_ok m) todo /\ Forall (final_ok m) kept.
Proof.
  intros W V. induction 1 as [|f l Hf F IH]; cbn [final_split]; [exists [], []; auto|].
  destruct (final_again_spec m f W V Hf) as (w & f' & -> & Gf). destruct IH as (todo & kept & -> & Ft & Fk).
  destruct w; eexists; eexists; (split; [reflexivity|]); auto.
Qed.

Lemma set_final_marks s f t : inv s -> Forall (final_ok (memory s)) f -> marks s (set_final f t s).
Proof. intros I F. split; auto; [destruct I; now split | apply same_shape_refl; apply I | apply darker_refl]. Qed.

Lemma fold_darken_vals l : forall s, fold_left (fun s f => caml_darken (val f) s) l s = fold_left (fun s v => caml_darken v s) (map val l) s.
Proof. induction l as [|f l IH]; intros s; cbn; auto. Qed.

Lemma final_update_spec s : inv s -> exists s', caml_final_update s = Ok s' /\ marks s s' /\
  (markhp s' = markhp s /\ caml_gc_phase s' = caml_gc_phase s /\ caml_gc_subphase s' = caml_gc_subphase s).
Proof.
  intros I. unfold caml_final_update. destruct (existsb _ _); [|exists s; split; [reflexivity | split; [now apply marks_refl | auto]]].
  destruct (final_split_spec (memory s) (finalisable s) (inv_heap B L s I) (inv_live B L s I) (inv_final B L s I)) as (todo & kept & -> & Ft & Fk).
  eexists. split; [reflexivity|]. pose proof (set_final_marks s kept (to_do s ++ [todo]) I Fk) as M1. rewrite fold_darken_vals.
  destruct (darken_all_spec B L (map val todo) _ (mk_inv _ _ _ _ M1)) as (M2 & _ & C2 & _).
  - apply Forall_map. exact Ft.
  - split; [eapply marks_trans; eauto|]. destruct C2 as [C1 _ _ _ C5 C6 _ _]. rewrite C1, C5, C6. auto.
Qed.
End Weak.
