(* ===== verification/GcTurn.v ===== *)
(** GcTurn: every turn of [mark_slice] is possible and keeps the invariant; marking
    ends when no block is gray.  Marking only replaces, in the fields that the program
    reads, pointers to forwarding blocks by the values they forward to. *)
From Stdlib Require Import ZArith Lia List Bool.
From S2P Require Import Prelude Mlvalues ExternOutput InterpState MarshalBytes MarshalTrail MarshalDecode Gc GcGraph GcInv GcMark GcWeak.
Import ListNotations.
Local Open Scope Z_scope.

Section Turn.
Context {A : Arch} {Env : Heap_env}.
Variable B : list Z.
Variable L : Z -> Prop.
Notation inv := (inv B L).
Notation marks := (marks B L).
Notation walk := walk.

Definition no_gray (m : mem) : Prop := forall b, In b B -> color m b <> Caml_gray.
Definition subphase_ok (s : gc) : Prop :=
  caml_gc_subphase s = Subphase_main \/ caml_gc_subphase s = Subphase_weak1 \/ caml_gc_subphase s = Subphase_weak2 \/ caml_gc_subphase s = Subphase_final.

(** What a turn does: it stays in the same phase, or ends the marking. *)
Definition turn_ok (s s' : gc) (work : Z) : Prop :=
  marks s s' /\ subphase_ok s' /\ (caml_gc_phase s' = caml_gc_phase s \/ caml_gc_phase s' = Phase_sweep /\ no_gray (memory s') /\ work = 0).

(** ** Changing control variables *)

Lemma marks_same_memory s s' : memory s' = memory s -> inv s' -> marks s s'.
Proof. intros E I. split; auto; [rewrite <- E; apply same_shape_refl; apply I | rewrite E; apply darker_refl | intros; now rewrite E in * ..]. Qed.

Lemma inv_set_scan s g p hp c l : inv s -> Forall (fun v => L v /\ color (memory s) v = Caml_gray) g -> NoDup g ->
  (exists rem, scanning B (memory s) hp c l rem /\ found B (memory s) g p rem) ->
  inv (set_scan hp c l (set_gray g (gray_vals_size s) p s)).
Proof. intros I F N Sc. destruct I. now split. Qed.

Lemma inv_set_subphase s p w : inv s -> (p = Subphase_weak1 \/ p = Subphase_weak2 -> exists l, weak_chain B L (memory s) w l) ->
  inv (set_weak_prev w (set_subphase p s)).
Proof. intros I Hw. destruct I. now split. Qed.

(** ** Scanning the heap for gray blocks *)

Lemma next_chunk m c rest : chunks m c rest -> incl rest B ->
  (c = 0 /\ rest = []) \/ (c <> 0 /\ scanning B m c c (c + Chunk_size c) rest).
Proof.
  intros H I. destruct H as [|c bs rest Hc Hw H]; [now left | right]. split; [lia|]. right. split; [lia|]. split; auto. eauto.
Qed.

Lemma scan_turn s : inv s -> gray_vals s = [] -> markhp s <> 0 -> exists s',
  (forall work, mark_turn s work = Ok (s', work)) /\ memory s' = memory s /\ inv s' /\
  caml_gc_phase s' = caml_gc_phase s /\ caml_gc_subphase s' = caml_gc_subphase s.
Proof.
  intros I Eg Hm. unfold mark_turn. rewrite Eg. apply Z.eqb_neq in Hm as Hm'. rewrite Hm'. cbn [negb].
  destruct (inv_scan B L s I) as (rem & [[E _]|(Hp & Ir & bs & rest & Hw & Hc & ->)] & Fd); [contradiction|]. rewrite Eg in Fd.
  assert (Eset : forall hp c l, set_scan hp c l s = set_scan hp c l (set_gray [] (gray_vals_size s) (heap_is_pure s) s)) by (intros; destruct s; cbn in *; now subst).
  apply incl_app_inv in Ir as [Ib Ir]. destruct (Z.eqb_spec (markhp s) (limit s)) as [E|N].
  - assert (bs = []) by (rewrite E in Hw; inversion Hw; congruence). subst bs. cbn [app] in Fd.
    destruct (next_chunk _ _ _ Hc Ir) as [[-> ->]|[Nc Sc]].
    + cbn [Z.eqb]. eexists. split; [reflexivity|]. split; [reflexivity|]. split; [|split; reflexivity].
      rewrite Eset. apply inv_set_scan; auto; [constructor|]. exists []. split; [now left | auto].
    + apply Z.eqb_neq in Nc. rewrite Nc. eexists. split; [reflexivity|]. split; [reflexivity|]. split; [|split; reflexivity].
      rewrite Eset. apply inv_set_scan; auto; [constructor|]. exists rest. auto.
  - inversion Hw as [|hp l bs' N' Hw' E1 E2]; subst; [contradiction|]. set (hd := memory s (markhp s)) in *.
    apply incl_cons_inv in Ib as [Ib Ibs]. assert (Hd : Hd_op (memory s) (Val_hp (markhp s)) = hd) by apply Val_hp_hd.
    assert (Sc : scanning B (memory s) (markhp s + Bhsize_hd hd) (chunk s) (limit s) (bs' ++ rest)).
    { right. split; [|split; [now apply incl_app | eauto]]. pose proof (wf_header B _ (inv_heap B L s I) _ Ib) as Ho. rewrite Hd in Ho.
      apply Wosize_hd_pos in Ho. pose proof sizeof_value_pos. unfold Bhsize_hd, Bsize_wsize, Whsize_hd, Whsize_wosize. nia. }
    eexists. split; [reflexivity|]. unfold Is_gray_hd. destruct (Z.eqb_spec (Color_hd hd) Caml_gray) as [Hg|Hg].
    + split; [reflexivity|]. split; [|split; reflexivity]. assert (Cg : color (memory s) (Val_hp (markhp s)) = Caml_gray) by (unfold color; now rewrite Hd).
      apply (inv_set_scan s); auto.
      * constructor; [split; [now apply (inv_grays B L s I) | auto] | constructor].
      * constructor; [intros [] | constructor].
      * exists (bs' ++ rest). split; auto. intros Pu b Hb Gb. destruct (Fd Pu b Hb Gb) as [[]|[<-|H]]; [left; now left | now right].
    + split; [reflexivity|]. split; [|split; reflexivity]. rewrite Eset. apply (inv_set_scan s); auto; [constructor|].
      exists (bs' ++ rest). split; auto. intros Pu b Hb Gb. destruct (Fd Pu b Hb Gb) as [[]|[<-|H]]; [|now right].
      unfold color in Gb. rewrite Hd in Gb. contradiction.
Qed.

(** ** Scanning a gray block *)

Definition popped (v : Z) (l : list Z) (s : gc) : gc := set_hd v (Blackhd_hd (Hd_op (memory s) v)) (set_gray l (gray_vals_size s) (heap_is_pure s) s).
Definition scanned (v : Z) (l : list Z) (s : gc) : gc :=
  if tag (memory s) v <? No_scan_tag then mark_fields (Z.to_nat (wosize (memory s) v)) v 0 (popped v l s) else popped v l s.

Section Pop.
Variables (s : gc) (v : Z) (l : list Z).
Hypothesis (I : inv s) (Eg : gray_vals s = v :: l).

Lemma pop_live : L v /\ In v B /\ color (memory s) v = Caml_gray /\ 0 <= wosize (memory s) v.
Proof.
  pose proof (inv_stack B L s I) as St. rewrite Eg in St. inversion_clear St as [|? ? [Lv Cv] _]. pose proof (live_in B L _ (inv_live B L s I) v Lv) as Iv.
  split; auto. split; auto. split; auto. apply (Wosize_hd_pos _ (wf_header B _ (inv_heap B L s I) v Iv)).
Qed.

Lemma pop_blacken : inv (popped v l s) /\ same_control s (popped v l s) /\ mutates B L (memory s) (memory (popped v l s)) /\ darker B (memory s) (memory (popped v l s)) /\
  tag (memory (popped v l s)) v = tag (memory s) v /\ wosize (memory (popped v l s)) v = wosize (memory s) v /\
  forall x, color (memory (popped v l s)) x = if x =? v then Caml_black else color (memory s) x.
Proof.
  destruct pop_live as (Lv & Iv & Cv & _). pose proof (inv_nodup B L s I) as Nd. rewrite Eg in Nd. inversion_clear Nd as [|? ? Nv Nl].
  destruct (blacken_inv B L v s l I Lv (or_introl Cv) Nl) as (I1 & C1 & M1 & K1 & _); try (rewrite Eg; apply incl_tl, incl_refl); try (rewrite Eg; intros b [->|Hb]; auto); auto.
  destruct (ss_header B _ _ (mu_shape _ _ _ _ M1) v Iv) as (_ & Et & Ew). repeat (split; [assumption|]).
  intros x. exact (recolor_color _ v _ _ (Blackhd_recolor _ (wf_header B _ (inv_heap B L s I) v Iv)) x).
Qed.

Lemma pop_advances : advances B L (popped v l s) (scanned v l s) (fun c => tag (memory s) v < No_scan_tag /\ child_from (memory (popped v l s)) 0 v c) none.
Proof.
  destruct pop_live as (Lv & _ & _ & Wp). destruct pop_blacken as (I1 & _ & _ & _ & Et & Ew & Col). unfold scanned. set (s1 := popped v l s) in *.
  destruct (Z.ltb_spec (tag (memory s) v) No_scan_tag) as [Ht|Ht]; [|apply advances_weaken; auto; intros c [? _]; lia].
  eapply advances_trans; [exact I1 | apply (advances_weaken B L s1 _ (child_from (memory s1) 0 v) I1); intros c [_ ?] _; auto |].
  apply mark_fields_spec; auto; [now rewrite Et | lia | rewrite Ew; lia | now rewrite Col, Z.eqb_refl].
Qed.

Lemma pop_mutates : mutates B L (memory s) (memory (scanned v l s)).
Proof. destruct pop_blacken as (_ & _ & M1 & _). destruct pop_advances as (_ & _ & M2 & _). eapply mutates_trans; eauto. apply I. Qed.
End Pop.

Lemma pop_turn s work v l : inv s -> gray_vals s = v :: l -> mark_turn s work = Ok (scanned v l s, work - Whsize_wosize (wosize (memory s) v)) /\ marks s (scanned v l s) /\
  same_control s (scanned v l s) /\ color (memory (scanned v l s)) v = Caml_black.
Proof.
  intros I Eg. destruct (pop_live s v l I Eg) as (Lv & Iv & Cv & Wp). destruct (pop_blacken s v l I Eg) as (I1 & C1 & M1 & K1 & _ & _ & Col). destruct (pop_advances s v l I Eg) as (I2 & C2 & M2 & K2 & G2).
  pose proof (guarded_pop B L (memory s) v _ (inv_heap B L s I) (inv_live B L s I) (inv_grays B L s I) Lv Cv (Blackhd_recolor _ (wf_header B _ (inv_heap B L s I) v Iv))) as Gp. cbn zeta in Gp.
  change ((memory s).[v - sizeof_value <- Blackhd_hd (Hd_op (memory s) v)]) with (memory (popped v l s)) in Gp.
  assert (Cb : color (memory (popped v l s)) v = Caml_black) by now rewrite Col, Z.eqb_refl.
  split; [unfold mark_turn; rewrite Eg; reflexivity|]. split; [|split; [eapply same_control_trans; eauto | exact (darker_black B _ _ v K2 Iv Cb)]]. split; auto.
  - eapply same_shape_trans; [exact (mu_shape _ _ _ _ M1) | exact (mu_shape _ _ _ _ M2)].
  - eapply darker_trans; eauto.
  - intros b c Hb. apply (mutates_reach B L _ _ b c (inv_live B L s I) (pop_mutates s v l I Eg) Hb).
  - intros y Hy Sy. pose proof (live_in B L _ (inv_live B L s I) y Hy) as Iy. destruct Sy as [Sy|Sy]; [left; apply (darker_black B _ _ y K2 Iy); exact (darker_black B _ _ y K1 Iy Sy)|].
    destruct (Gp y Sy) as [->|G]; [left; exact (darker_black B _ _ v K2 Iv Cb) | right; auto].
Qed.

(** ** Weak arrays and the end of marking *)

(** The next subphase, or a shorter rest of the list of weak arrays. *)
Definition weak_progress (s s' : gc) : Prop :=
  caml_gc_subphase s < caml_gc_subphase s' \/
  (caml_gc_subphase s' = caml_gc_subphase s /\
   forall l, weak_chain B L (memory s) (weak_prev s) l -> exists l', weak_chain B L (memory s') (weak_prev s') l' /\ (length l' < length l)%nat).

Lemma weak1_turn s work : inv s -> gray_vals s = [] -> markhp s = 0 -> heap_is_pure s = true -> caml_gc_subphase s = Subphase_weak1 ->
  exists s' w, mark_turn s work = Ok (s', w) /\ marks s s' /\ subphase_ok s' /\ weak_progress s s' /\ caml_gc_phase s' = caml_gc_phase s.
Proof.
  intros I Eg Em Ep Es. unfold mark_turn. rewrite Eg, Em, Ep, Es. cbn [Z.eqb negb Pos.eqb Subphase_main Subphase_weak1].
  destruct (inv_weak B L s I (or_introl Es)) as [l H]. set (cur := memory s (weak_prev s)). destruct (Z.eqb_spec cur 0) as [E0|N]; cbn [negb].
  - eexists. eexists. split; [reflexivity|]. split; [|split; [|split; [|reflexivity]]].
    + apply marks_same_memory; [reflexivity|]. apply inv_set_subphase; auto. intros _. apply (inv_weak_list B L s I).
    + unfold subphase_ok. cbn. auto.
    + left. cbn. rewrite Es. reflexivity.
  - destruct l as [|c l]; destruct H as [Hl H]; [contradiction|]. destruct H as (Ec & Nc & Hc & Hch). fold cur in Ec. subst c.
    destruct (weak_fields_spec B L (Z.to_nat (Wosize_hd (Hd_op (memory s) cur) - 1)) s cur 1 I Hc) as (s1 & -> & S1); [lia | destruct Hc as (_ & _ & Hc & _); unfold wosize in *; lia|].
    eexists. eexists. split; [reflexivity|]. pose proof (ws_control _ _ _ _ S1) as C1. split; [|split; [|split]].
    + eapply marks_trans; [apply S1|]. apply marks_same_memory; [reflexivity|].
      pose proof (inv_set_subphase s1 (caml_gc_subphase s1) cur (mk_inv _ _ _ _ (ws_marks _ _ _ _ S1))) as K. destruct s1. apply K.
      intros _. exists l. apply (ws_chain _ _ _ _ S1). exact Hch.
    + unfold subphase_ok. cbn [caml_gc_subphase set_weak_prev]. rewrite (sc_subphase _ _ C1), Es. auto.
    + right. split; [exact (sc_subphase _ _ C1)|]. intros k Hk. destruct k as [|d k]; destruct Hk as [_ Hk]; [contradiction|]. destruct Hk as (Ed & _ & _ & Hk).
      exists k. split; [|cbn; lia]. cbn. unfold cur. rewrite Ed. apply (ws_chain _ _ _ _ S1). exact Hk.
    + apply C1.
Qed.

Lemma weak2_turn s work : inv s -> gray_vals s = [] -> markhp s = 0 -> heap_is_pure s = true -> caml_gc_subphase s = Subphase_weak2 ->
  exists s' w, mark_turn s work = Ok (s', w) /\ marks s s' /\ subphase_ok s' /\ weak_progress s s' /\ caml_gc_phase s' = caml_gc_phase s.
Proof.
  intros I Eg Em Ep Es. unfold mark_turn. rewrite Eg, Em, Ep, Es. cbn [Z.eqb negb Pos.eqb Subphase_main Subphase_weak1 Subphase_weak2].
  destruct (inv_weak B L s I (or_intror Es)) as [l H]. set (cur := memory s (weak_prev s)). destruct (Z.eqb_spec cur 0) as [E0|N]; cbn [negb].
  - destruct (final_update_spec B L s I) as (s1 & -> & M1 & _ & P1 & _). eexists. eexists. split; [reflexivity|]. split; [|split; [|split]].
    + eapply marks_trans; [exact M1|]. apply marks_same_memory; [reflexivity|].
      pose proof (inv_set_subphase s1 Subphase_final (weak_prev s1) (mk_inv _ _ _ _ M1)) as K. destruct s1. apply K. intros [F|F]; discriminate F.
    + unfold subphase_ok. cbn. auto.
    + left. cbn. rewrite Es. reflexivity.
    + exact P1.
  - destruct l as [|c l]; destruct H as [Hl H]; [contradiction|]. destruct H as (Ec & Nc & Hc & Hch). fold cur in Ec. subst c.
    eexists. eexists. split; [reflexivity|]. destruct (Color_hd _ =? _).
    + destruct (unlink_step B L s cur I Hl Hc eq_refl Nc) as (M & _ & Sh). split; [exact M|]. split; [|split; [|reflexivity]].
      * unfold subphase_ok. cbn [caml_gc_subphase set_memory]. rewrite Es. auto.
      * right. split; [reflexivity | exact Sh].
    + split; [|split; [|split; [|reflexivity]]].
      * apply marks_same_memory; [reflexivity|]. pose proof (inv_set_subphase s (caml_gc_subphase s) cur I) as K. destruct s. apply K. intros _. eauto.
      * unfold subphase_ok. cbn [caml_gc_subphase set_weak_prev]. rewrite Es. auto.
      * right. split; [reflexivity|]. intros k Hk. destruct k as [|d k]; destruct Hk as [_ Hk]; [contradiction|]. destruct Hk as (Ed & _ & _ & Hk).
        exists k. split; [|cbn; lia]. cbn. unfold cur. rewrite Ed. exact Hk.
Qed.

(** The heap is scanned again after the gray stack overflowed. *)
Lemma rescan_turn s work : inv s -> gray_vals s = [] -> markhp s = 0 -> heap_is_pure s = false ->
  exists s', mark_turn s work = Ok (s', work) /\ marks s s' /\ caml_gc_phase s' = caml_gc_phase s /\ caml_gc_subphase s' = caml_gc_subphase s.
Proof.
  intros I Eg Em Ep. unfold mark_turn. rewrite Eg, Em, Ep. cbn [Z.eqb negb]. eexists. split; [reflexivity|]. split; [|split; reflexivity].
  apply marks_same_memory; [reflexivity|].
  apply inv_set_scan; auto; [constructor|]. exists B. split; [|intros _ b Hb _; now right].
  destruct (next_chunk _ _ _ (inv_chunks B L s I) (incl_refl _)) as [[E _]|[_ Sc]]; [pose proof (inv_start B L s I); lia | exact Sc].
Qed.

Lemma mark_turn_spec s work : inv s -> subphase_ok s -> exists s' w, mark_turn s work = Ok (s', w) /\ turn_ok s s' w.
Proof.
  intros I Sp. destruct (gray_vals s) as [|v l] eqn:Eg.
  2:{ destruct (pop_turn s work v l I Eg) as (E & M & C & _). eexists. eexists. split; [exact E|]. split; auto. unfold subphase_ok in *. rewrite (sc_subphase _ _ C), (sc_phase _ _ C). auto. }
  destruct (Z.eq_dec (markhp s) 0) as [Em|Nm].
  2:{ destruct (scan_turn s I Eg Nm) as (s' & E & Mm & I' & P & Q). exists s', work. split; auto. split; [now apply marks_same_memory|].
      split; [unfold subphase_ok in *; rewrite Q; auto | auto]. }
  destruct (heap_is_pure s) eqn:Ep.
  2:{ destruct (rescan_turn s work I Eg Em Ep) as (s' & E & M & P & Q). exists s', work. split; auto. split; auto.
      split; [unfold subphase_ok in *; rewrite Q; auto | auto]. }
  assert (K : forall s' w, mark_turn s work = Ok (s', w) /\ marks s s' /\ subphase_ok s' /\ weak_progress s s' /\ caml_gc_phase s' = caml_gc_phase s ->
    exists s' w, mark_turn s work = Ok (s', w) /\ turn_ok s s' w) by (intros s' w (H1 & H2 & H3 & _ & H4); exists s', w; unfold turn_ok; auto).
  destruct Sp as [Es|[Es|[Es|Es]]].
  - unfold mark_turn. rewrite Eg, Em, Ep, Es. cbn [Z.eqb negb Pos.eqb Subphase_main]. eexists. eexists. split; [reflexivity|].
    split; [|split; [unfold subphase_ok; cbn; auto | now left]]. apply marks_same_memory; [reflexivity|]. apply inv_set_subphase; auto.
    intros _. apply (inv_weak_list B L s I).
  - destruct (weak1_turn s work I Eg Em Ep Es) as (s' & w & H). exact (K s' w H).
  - destruct (weak2_turn s work I Eg Em Ep Es) as (s' & w & H). exact (K s' w H).
  - unfold mark_turn. rewrite Eg, Em, Ep, Es. cbn [Z.eqb negb Pos.eqb Subphase_main Subphase_weak1 Subphase_weak2 Subphase_final].
    eexists. eexists. split; [reflexivity|].
    split; [|split; [unfold subphase_ok; cbn; rewrite Es; auto | right; split; [reflexivity | split; [|reflexivity]]]].
    + apply marks_same_memory; [reflexivity|]. destruct I. split; auto. cbn. exists []. split; [now left|]. destruct inv_scan as (rem & [[_ ->]|(H & _)] & Fd); [auto | lia].
    + intros b Hb Gb. cbn in Gb. destruct (inv_scan B L s I) as (rem & [[_ ->]|(H & _)] & Fd); [|lia]. destruct (Fd Ep b Hb Gb) as [H|H]; [rewrite Eg in H; destruct H | destruct H].
Qed.

Definition phase_ok (s : gc) : Prop := caml_gc_phase s = Phase_mark \/ caml_gc_phase s = Phase_sweep /\ no_gray (memory s).

Lemma slice_spec fuel : forall work s s', inv s -> subphase_ok s -> caml_gc_phase s = Phase_mark -> mark_slice fuel work s = Ok s' ->
  marks s s' /\ subphase_ok s' /\ phase_ok s'.
Proof.
  induction fuel as [|fuel IH]; intros work s s' I Sp Ph H; cbn [mark_slice] in H.
  - destruct (0 <? work); [discriminate H|]. injection H as <-. split; [now apply marks_refl | unfold phase_ok; auto].
  - destruct (0 <? work); [|injection H as <-; split; [now apply marks_refl | unfold phase_ok; auto]].
    destruct (mark_turn_spec s work I Sp) as (s1 & w & E & M1 & Sp1 & P1). rewrite E in H. destruct P1 as [P1|(P1 & G1 & ->)].
    + destruct (IH w s1 s' (mk_inv _ _ _ _ M1) Sp1 ltac:(congruence) H) as (M2 & Sp2 & P2). split; [eapply marks_trans; eauto | auto].
    + assert (s' = s1) by (destruct fuel; cbn in H; congruence). subst s'. split; auto. split; auto. now right.
Qed.
End Turn.

Section Data.
Context {A : Arch} {Env : Heap_env}.
Variable B : list Z.
Variable L : Z -> Prop.
Notation inv := (inv B L).

(** The values that a value stands for, through forwarding blocks. *)
Inductive shortcut (m : mem) (x : Z) : Z -> Prop :=
  | shortcut_refl : shortcut m x x
  | shortcut_step y : pointer x -> tag m x = Forward_tag -> shortcut m (Forward_value m x) y -> shortcut m x y.

Lemma shortcut_trans m x y z : shortcut m x y -> shortcut m y z -> shortcut m x z.
Proof. induction 1; auto. intros. econstructor; eauto. Qed.

Definition fields (m m' : mem) : Prop := forall b i, L b -> tag m b < No_scan_tag -> 0 <= i < wosize m b -> shortcut m (Op_val m b i) (Op_val m' b i).

Lemma fields_unchanged m m' : (forall b i, L b -> tag m b < No_scan_tag -> 0 <= i < wosize m b -> Op_val m' b i = Op_val m b i) -> fields m m'.
Proof. intros E b i Lb Ht Hi. rewrite E by auto. constructor. Qed.
Lemma fields_refl m : fields m m.
Proof. apply fields_unchanged. auto. Qed.

Lemma forward_base m x : live_wf B L m -> good L m x -> tag m x = Forward_tag -> L x /\ 0 <= 0 < wosize m x.
Proof.
  intros V G Tf. assert (E : base m x = x) by (unfold base; now rewrite Tf). destruct G as [Lx _]. rewrite E in Lx. split; auto. split; [lia | now apply (live_forward B L m V)].
Qed.
Lemma shortcut_old m1 m2 x y : live_wf B L m1 -> live_wf B L m2 -> same_shape B m1 m2 -> fields m1 m2 -> shortcut m2 x y -> (pointer x -> good L m2 x) -> shortcut m1 x y.
Proof.
  intros V1 V2 S F. induction 1 as [|x y P Tf H IH]; intros G; [constructor|]. destruct (forward_base m2 x V2 (G P) Tf) as [Lx W]. pose proof (live_in B L m1 V1 x Lx) as Ix.
  destruct (ss_header B m1 m2 S x Ix) as (_ & Et & Ew). rewrite Ew in W. apply shortcut_step; auto; [congruence|]. unfold Forward_value in *.
  apply shortcut_trans with (Op_val m2 x 0); [apply F; auto; rewrite <- Et, Tf; reflexivity|]. apply IH.
  apply (live_field B L m2 V2); auto; [rewrite Tf; reflexivity | now rewrite Ew].
Qed.
Lemma fields_compose m1 m2 m3 : live_wf B L m1 -> live_wf B L m2 -> same_shape B m1 m2 -> fields m1 m2 -> fields m2 m3 -> fields m1 m3.
Proof.
  intros V1 V2 S F1 F2 b i Lb Ht Hi. destruct (ss_header B m1 m2 S b (live_in B L m1 V1 b Lb)) as (_ & Et & Ew). apply shortcut_trans with (Op_val m2 b i); [now apply F1|].
  apply (shortcut_old m1 m2); auto; [apply F2; auto; congruence|]. apply (live_field B L m2 V2); auto; congruence.
Qed.

(** A change of header. *)
Lemma fields_header m b h : heap_wf B m -> live_wf B L m -> In b B -> fields m (m.[b - sizeof_value <- h]).
Proof. intros W V Hb. apply fields_unchanged. intros x i Lx _ Hi. unfold Op_val. apply upd_other. apply (header_not_field B m); auto. now apply (live_in B L m V). Qed.

Lemma short_circuit_fields s v i : inv s -> L v -> tag (memory s) v < No_scan_tag -> 0 <= i < wosize (memory s) v -> pointer (Op_val (memory s) v i) ->
  fields (memory s) (memory (short_circuit v i (Op_val (memory s) v i) s)).
Proof.
  intros I Hv Ht Hi P. unfold short_circuit. destruct (Z.eqb_spec (Tag_hd (Hd_op (memory s) (Op_val (memory s) v i))) Forward_tag) as [Tf|]; [|apply fields_refl].
  destruct (_ && _); [apply fields_refl|]. intros b j Lb Hb Hj. cbn [memory set_field set_memory].
  rewrite (store_field B L _ v i _ (inv_heap B L s I) (inv_live B L s I) Hv Hi b j (live_in B L _ (inv_live B L s I) b Lb) Hj).
  destruct (Z.eqb_spec b v) as [->|]; [|constructor]. destruct (Z.eqb_spec j i) as [->|]; cbn [andb]; [|constructor]. apply shortcut_step; auto. constructor.
Qed.

Lemma mark_field_fields s v i : inv s -> L v -> tag (memory s) v < No_scan_tag -> 0 <= i < wosize (memory s) v -> color (memory s) v = Caml_black ->
  fields (memory s) (memory (mark_field v i s)).
Proof.
  intros I Hv Ht Hi Hb. pose proof (inv_live B L s I) as V. unfold mark_field.
  destruct (Is_block (Op_val (memory s) v i) && Is_in_heap (Op_val (memory s) v i)) eqn:Pc; [|apply fields_refl]. apply andb_prop in Pc as P. fold (pointer (Op_val (memory s) v i)) in P.
  pose proof (live_field B L _ V v i Hv Ht Hi P) as G. pose proof (short_circuit_fields s v i I Hv Ht Hi P) as F1.
  destruct (short_circuit_spec B L s v i none I Hv Ht Hi Hb ltac:(intros ? []) P) as (A1 & _ & D1). set (c0 := Op_val (memory s) v i) in *. set (s1 := short_circuit v i c0 s) in *.
  set (infix := negb _ && _). assert (Ei : infix = (tag (memory s) c0 =? Infix_tag)).
  { unfold infix, tag. destruct (Z.eqb_spec (Tag_hd (Hd_op (memory s) c0)) Forward_tag) as [->|]; reflexivity. }
  rewrite Ei. clear infix Ei. change (if tag (memory s) c0 =? Infix_tag then c0 - Infix_offset_hd (Hd_op (memory s) c0) else c0) with (base (memory s) c0).
  destruct (Is_white_hd _); [|exact F1]. rewrite (proj1 (push_gray_spec _ _)). cbn [memory set_hd set_memory]. pose proof A1 as (I1 & _ & M1 & _).
  apply (fields_compose _ (memory s1)); auto; [apply I1 | exact (mu_shape _ _ _ _ M1)|]. apply fields_header; [apply I1 | apply I1 | apply (live_in B L _ V), G].
Qed.

Lemma mark_fields_fields n : forall s v i, inv s -> L v -> tag (memory s) v < No_scan_tag -> 0 <= i -> i + Z.of_nat n = wosize (memory s) v ->
  color (memory s) v = Caml_black -> fields (memory s) (memory (mark_fields n v i s)).
Proof.
  induction n as [|n IH]; intros s v i I Hv Ht Hi Hn Hb; cbn [mark_fields]; [apply fields_refl|].
  destruct (mark_field_spec B L s v i I Hv Ht ltac:(lia) Hb) as (I1 & _ & M1 & K1 & _). pose proof (inv_live B L s I) as V. pose proof (live_in B L _ V v Hv) as Iv.
  destruct (ss_header B _ _ (mu_shape _ _ _ _ M1) v Iv) as (_ & Et & Ew). apply (fields_compose _ (memory (mark_field v i s))); auto; [apply I1 | exact (mu_shape _ _ _ _ M1) | apply mark_field_fields; auto; lia|].
  apply IH; auto; [now rewrite Et | lia | rewrite Ew; lia | exact (darker_black B _ _ v K1 Iv Hb)].
Qed.

Lemma pop_fields s v l : inv s -> gray_vals s = v :: l -> fields (memory s) (memory (scanned v l s)).
Proof.
  intros I Eg. destruct (pop_live B L s v l I Eg) as (Lv & Iv & Cv & Wp). destruct (pop_blacken B L s v l I Eg) as (I1 & _ & M1 & _ & Et & Ew & Col). pose proof (inv_live B L s I) as V.
  assert (F1 : fields (memory s) (memory (popped v l s))) by (apply fields_header; auto; apply I).
  unfold scanned. destruct (Z.ltb_spec (tag (memory s) v) No_scan_tag) as [Ht|]; [|exact F1]. apply (fields_compose _ (memory (popped v l s))); auto; [apply I1 | exact (mu_shape _ _ _ _ M1)|].
  apply mark_fields_fields; auto; [now rewrite Et | lia | rewrite Ew; lia | now rewrite Col, Z.eqb_refl].
Qed.

Lemma darken_all_fields l : forall s, inv s -> Forall (fun v => pointer v -> good L (memory s) v) l -> fields (memory s) (memory (fold_left (fun s v => caml_darken v s) l s)).
Proof.
  induction l as [|v l IH]; intros s I F; cbn [fold_left]; [apply fields_refl|]. inversion_clear F as [|? ? Hv Fl]. destruct (darken_spec B L v s I Hv) as (M1 & Mu1 & _). pose proof (inv_live B L s I) as V.
  apply (fields_compose _ (memory (caml_darken v s))); auto; [apply M1 | exact (mu_shape _ _ _ _ Mu1) | |].
  - destruct (darken_change B L v s I Hv) as [->|(P & h & col & _ & -> & _)]; [apply fields_refl|]. apply fields_header; auto; [apply I | apply (live_in B L _ V), (Hv P)].
  - apply IH; [apply M1|]. eapply Forall_impl; [|exact Fl]. cbn. intros y Hy P. exact (good_mutates B L _ _ _ I Mu1 (Hy P)).
Qed.
End Data.
