(* ===== verification/GcCycle.v ===== *)
(** GcCycle: marking interleaved with the program.  The program stores through
    [caml_modify] and moves values it can reach between its roots; when marking
    ends, everything it can reach is black. *)
From Stdlib Require Import ZArith Lia List Bool.
From S2P Require Import Prelude Mlvalues InterpState ExternOutput MarshalBytes MarshalTrail MarshalDecode Gc GcGraph GcInv GcMark GcWeak GcTurn.
Import ListNotations.
Local Open Scope Z_scope.

Section Cycle.
Context {A : Arch} {Env : Heap_env}.
Variable B : list Z.
Variable L : Z -> Prop.
Notation inv := (inv B L).
Notation marks := (marks B L).
Notation guarded := (guarded B).
Notation safe := (safe B).

(** The page table covers the heap. *)
Definition cells_in_heap (m : mem) : Prop := forall b i, In b B -> 0 <= i < wosize m b -> Is_in_heap (b + Bsize_wsize i) = true.

Lemma color_nonwhite m b : live_wf B L m -> L b -> color m b <> Caml_white -> color m b = Caml_gray \/ color m b = Caml_black.
Proof.
  intros V Lb Nw. pose proof (live_color B L m V b Lb) as Nb. pose proof (Color_hd_eq (Hd_op m b)) as E. fold (color m b) in E.
  pose proof (Z.mod_pos_bound (Hd_op m b / 256) 4 eq_refl) as Bd. change Caml_blue with 512 in Nb. change Caml_white with 0 in Nw.
  change Caml_gray with 256. change Caml_black with 768. lia.
Qed.

(** ** The write barrier *)

Section Modify.
Variables (s : gc) (b i v : Z).
Hypothesis (I : inv s) (Hb : L b) (Ht : tag (memory s) b < No_scan_tag) (Hc : tag (memory s) b <> Closure_tag) (Hi : 0 <= i < wosize (memory s) b).
Hypothesis (Hv : pointer v -> good L (memory s) v).
Let m := memory s.
Let old := Op_val m b i.
Let s1 := set_memory (m.[b + Bsize_wsize i <- v]) s.
Let s2 := caml_darken old s1.

Lemma modify_keeps : keeps B L m (memory s1).
Proof. apply store_keeps; auto; apply I. Qed.

Lemma modify_old : pointer old -> good L m old.
Proof. intros P. now apply (live_field B L m (inv_live B L s I)). Qed.

Lemma modify_color x : In x B -> color (memory s1) x = color m x.
Proof. exact (store_color B L m b i v (inv_heap B L s I) (inv_live B L s I) Hb Hi x). Qed.

Lemma modify_store_inv : inv s1.
Proof.
  pose proof modify_keeps as K. pose proof (inv_live B L s I) as V. apply (inv_update B L s); auto; try apply I.
  - now split.
  - intros x Hx. rewrite modify_color by auto. now apply (inv_grays B L s I).
  - apply Forall_forall. intros x Hx. destruct (proj1 (Forall_forall _ _) (inv_stack B L s I) x Hx) as [Lx Cx]. split; auto. rewrite modify_color; auto. now apply (live_in B L m V).
  - intros Hp. split; auto. intros x Hx. rewrite modify_color by auto. cbn. destruct (in_dec Z.eq_dec x (gray_vals s)); auto.
Qed.

Lemma modify_darken : marks s1 s2 /\ mutates B L (memory s1) (memory s2) /\ same_control s1 s2 /\ (pointer old -> color (memory s2) (base m old) <> Caml_white).
Proof.
  pose proof modify_keeps as K. pose proof (inv_live B L s I) as V.
  assert (G : pointer old -> good L (memory s1) old /\ base (memory s1) old = base m old).
  { intros P. destruct (good_same B L m _ old (kp_shape _ _ _ _ K) V (modify_old P)). auto. }
  destruct (darken_spec B L old s1 modify_store_inv) as (M & Mu & C & Nw); [intros P; now apply G|]. split; auto. split; auto. split; auto.
  intros P. rewrite <- (proj2 (G P)). auto.
Qed.

Lemma modify_change x : L x -> (color (memory s2) x = color m x \/ (pointer old /\ x = base m old /\ color m x = Caml_white /\
    (color (memory s2) x = Caml_gray \/ color (memory s2) x = Caml_black /\ No_scan_tag <= tag m x))) /\
  forall c, edge (memory s2) x c <-> edge (memory s1) x c.
Proof.
  intros Hx. pose proof (live_in B L m (inv_live B L s I) x Hx) as Ix. pose proof modify_keeps as K. pose proof (inv_live B L s I) as V.
  rewrite <- (modify_color x Ix).
  assert (G : pointer old -> good L (memory s1) old /\ base (memory s1) old = base m old).
  { intros P. destruct (good_same B L m _ old (kp_shape _ _ _ _ K) V (modify_old P)). auto. }
  assert (Go : pointer old -> good L (memory s1) old) by (intros P; now apply G).
  pose proof (darken_change B L old s1 modify_store_inv Go) as D. fold s2 in D.
  destruct D as [->|(P & h & col & R & Em & Wh & Hcol)]; [split; [now left | tauto]|].
  destruct (G P) as [[Lc _] Eb]. rewrite Eb in *. set (c := base m old) in *. pose proof (live_in B L m V c Lc) as Ic.
  destruct (ss_header B _ _ (kp_shape _ _ _ _ K) c Ic) as (_ & Et & _). rewrite Em. split.
  - rewrite (recolor_color _ c col h R x). destruct (Z.eqb_spec x c) as [->|]; [right|now left]. split; auto. split; auto. split; auto.
    rewrite Et in Hcol. exact Hcol.
  - intros y. apply (recolor_edge B L _ c col h (inv_heap B L _ modify_store_inv) Ic R x y); auto. exact (kp_live _ _ _ _ K).
Qed.

Lemma modify_shape : same_shape B m (memory s2).
Proof. destruct modify_darken as (_ & Mu & _). eapply same_shape_trans; [apply modify_keeps | exact (mu_shape _ _ _ _ Mu)]. Qed.

Lemma modify_reach x c : L x -> reach (memory s2) x c -> reach m x c \/ (pointer v /\ reach m (base m v) c).
Proof.
  intros Hx. pose proof (inv_live B L s I) as V. pose proof modify_darken as (M2 & _). induction 1 as [|c d R IH E]; [left; constructor|].
  assert (Lc : L c) by (apply (reach_live B L (memory s2) x c (inv_live B L _ (mk_inv _ _ _ _ M2)) Hx R)).
  apply (proj2 (modify_change c Lc)) in E. apply (store_edge B L m b i v) in E; auto; try apply I.
  destruct E as [E|(-> & P & ->)]; [destruct IH as [IH|[P IH]]; [left | right; split; auto]; econstructor; eauto | right; split; auto; constructor].
Qed.

Lemma modify_safe x : L x -> safe m none x -> safe (memory s2) none x.
Proof.
  intros Hx. pose proof (inv_live B L s I) as V. destruct modify_darken as (M2 & _ & _ & Nw). intros [Sx|Sx].
  { left. destruct (proj1 (modify_change x Hx)) as [->|(_ & _ & E & _)]; [auto | rewrite Sx in E; discriminate E]. }
  assert (Goal1 : (color (memory s2) x = Caml_black /\ No_scan_tag <= tag m x) \/ guarded (memory s2) none x); [|destruct Goal1 as [[H _]|H]; [now left | now right]].
  clear Hx. induction Sx as [y Hy Cy|y []|y c H IH E Cc].
  - right. apply g_gray; auto. destruct (proj1 (modify_change y (inv_grays B L s I y Hy Cy))) as [E|(_ & _ & E & _)]; [now rewrite E | rewrite Cy in E; discriminate E].
  - assert (Ly : L y) by (apply (guarded_live B L m none y V (inv_grays B L s I)); [intros ? [] | auto]). assert (Lc : L c) by (apply (edge_live B L m y c V Ly E)).
    pose proof (live_in B L m V c Lc) as Ic. destruct IH as [[_ Hl]|IH]; [destruct E as [E _]; lia|].
    destruct (proj1 (modify_change c Lc)) as [Ec|(_ & _ & _ & [Ec|Ec])]; [|right; now apply g_gray | now left].
    destruct (Z.eq_dec (color (memory s2) c) Caml_white) as [Wc|Wc]; [|rewrite Ec in Wc; contradiction].
    right. apply g_step with y; auto. apply (proj2 (modify_change y Ly)). destruct E as [Ety (j & Hj & P & ->)].
    destruct (Z.eq_dec y b) as [->|Ny]; [destruct (Z.eq_dec j i) as [->|Nj]|].
    + exfalso. exact (Nw P Wc).
    + pose proof (kp_shape _ _ _ _ modify_keeps) as S. destruct (ss_header B _ _ S b (live_in B L m V b Hb)) as (_ & Et & Ew).
      assert (F : Op_val (memory s1) b j = Op_val m b j).
      { cbn [memory s1 set_memory]. rewrite (store_field B L m b i v (inv_heap B L s I) V Hb Hi b j (live_in B L m V b Hb)) by auto.
        rewrite Z.eqb_refl. destruct (Z.eqb_spec j i); [contradiction | reflexivity]. }
      split; [now rewrite Et|]. exists j. rewrite Ew, F. split; auto. split; auto. symmetry. apply (good_same B L m _ _ S V). now apply (live_field B L m V).
    + apply (store_edge_other B L m b i v); auto; try apply I. split; auto. exists j. auto.
Qed.
End Modify.

(** ** What the program can reach *)

Definition heap_reach (m : mem) (rs : list Z) (x : Z) : Prop := exists r, In r rs /\ pointer r /\ reach m (base m r) x.
Definition roots_good (m : mem) (rs : list Z) : Prop := forall r, In r rs -> pointer r -> good L m r.
(** A value that the program has. *)
Definition available (m : mem) (rs : list Z) (v : Z) : Prop := pointer v -> good L m v /\ heap_reach m rs (base m v).

Lemma heap_reach_live m rs x : live_wf B L m -> roots_good m rs -> heap_reach m rs x -> L x.
Proof. intros V G (r & Hr & P & R). apply (reach_live B L m (base m r) x V); auto. now apply G. Qed.

(** Marking slices, stores of the program and changes of its roots. *)
Inductive step : list Z * gc -> list Z * gc -> Prop :=
  | step_mark rs s s' fuel work : caml_gc_phase s = Phase_mark -> mark_slice fuel work s = Ok s' -> step (rs, s) (rs, s')
  | step_modify rs s b i v : caml_gc_phase s = Phase_mark -> heap_reach (memory s) rs b -> tag (memory s) b < No_scan_tag ->
      tag (memory s) b <> Closure_tag -> 0 <= i < wosize (memory s) b -> available (memory s) rs v ->
      step (rs, s) (rs, caml_modify (b + Bsize_wsize i) v s)
  | step_roots rs rs' s : caml_gc_phase s = Phase_mark -> (forall v, In v rs' -> available (memory s) rs v) -> step (rs, s) (rs', s).
Inductive steps : list Z * gc -> list Z * gc -> Prop :=
  | steps_refl x : steps x x
  | steps_step x y z : steps x y -> step y z -> steps x z.

(** ** The invariant of a cycle *)

Record cycle_inv (rs : list Z) (s : gc) : Prop := {
  ci_inv : inv s;
  ci_cells : cells_in_heap (memory s);
  ci_subphase : subphase_ok s;
  ci_phase : phase_ok B s;
  ci_roots : roots_good (memory s) rs;
  ci_safe : forall x, heap_reach (memory s) rs x -> safe (memory s) none x }.

Lemma cells_same m m' : same_shape B m m' -> cells_in_heap m -> cells_in_heap m'.
Proof. intros S C b i Hb. destruct (ss_header B m m' S b Hb) as (_ & _ & ->). now apply C. Qed.

Lemma roots_same m m' rs : same_shape B m m' -> live_wf B L m -> roots_good m rs -> roots_good m' rs /\ forall r, In r rs -> pointer r -> base m' r = base m r.
Proof. intros S V G. split; intros r Hr P; now apply (good_same B L m m' r S V (G r Hr P)). Qed.

Lemma ci_mark rs s s' fuel work : cycle_inv rs s -> caml_gc_phase s = Phase_mark -> mark_slice fuel work s = Ok s' -> cycle_inv rs s'.
Proof.
  intros C Ph H. destruct C as [I Ce Sp _ G Sf]. destruct (slice_spec B L fuel work s s' I Sp Ph H) as (M & Sp' & Ph').
  pose proof (mk_shape _ _ _ _ M) as S. destruct (roots_same _ _ rs S (inv_live B L s I) G) as [G' Eb].
  split; auto; [apply M | eapply cells_same; eauto|]. intros x (r & Hr & P & R). rewrite Eb in R by auto.
  pose proof (mk_reach _ _ _ _ M _ _ (proj1 (G r Hr P)) R) as R0. apply (mk_safe _ _ _ _ M).
  - apply (heap_reach_live (memory s) rs x (inv_live B L s I) G). exists r. auto.
  - apply Sf. exists r. auto.
Qed.

Lemma ci_modify rs s b i v : cycle_inv rs s -> caml_gc_phase s = Phase_mark -> heap_reach (memory s) rs b -> tag (memory s) b < No_scan_tag ->
  tag (memory s) b <> Closure_tag -> 0 <= i < wosize (memory s) b -> available (memory s) rs v -> cycle_inv rs (caml_modify (b + Bsize_wsize i) v s).
Proof.
  intros C Ph Rb Ht Hc Hi Av. destruct C as [I Ce Sp _ G Sf]. pose proof (inv_live B L s I) as V. pose proof (heap_reach_live _ _ _ V G Rb) as Hb.
  assert (Hv : pointer v -> good L (memory s) v) by (intros P; now apply Av).
  unfold caml_modify. rewrite (Ce b i (live_in B L _ V b Hb) Hi). cbn [caml_gc_phase set_memory]. rewrite Ph. cbn [Z.eqb Phase_mark].
  change (memory s (b + Bsize_wsize i)) with (Op_val (memory s) b i).
  set (s1 := set_memory _ s). set (s2 := caml_darken _ s1).
  destruct (modify_darken s b i v I Hb Ht Hc Hi Hv) as (M2 & _ & C2 & _). pose proof (modify_shape s b i v I Hb Ht Hc Hi Hv) as S. fold s1 s2 in S, M2, C2.
  destruct (roots_same _ _ rs S V G) as [G' Eb].
  assert (CI : cycle_inv rs s2).
  { split; [apply M2 | eapply cells_same; eauto | unfold subphase_ok in *; rewrite (sc_subphase _ _ C2); exact Sp | left; rewrite (sc_phase _ _ C2); exact Ph | auto |].
    intros x (r & Hr & P & R). rewrite Eb in R by auto.
    assert (Rx : heap_reach (memory s) rs x).
    { destruct (modify_reach s b i v I Hb Ht Hc Hi Hv _ x (proj1 (G r Hr P)) R) as [R0|[Pv R0]]; [exists r; auto|].
      destruct (proj2 (Av Pv)) as (r' & Hr' & P' & R'). exists r'. split; auto. split; auto. eapply reach_trans; eauto. }
    apply (modify_safe s b i v I Hb Ht Hc Hi Hv); [exact (heap_reach_live _ _ _ V G Rx) | auto]. }
  destruct (_ && _); [|exact CI]. destruct CI as [[] ? ? ? ? ?]. split; auto. now split.
Qed.

Lemma ci_step x y : step x y -> cycle_inv (fst x) (snd x) -> cycle_inv (fst y) (snd y).
Proof.
  intros [rs s s' fuel work Ph H|rs s b i v Ph Rb Ht Hc Hi Av|rs rs' s Ph Hr] C; cbn [fst snd] in *; [eapply ci_mark; eauto | now apply ci_modify|].
  destruct C as [I Ce Sp Po G Sf]. split; auto; [intros r Hr' P; now apply Hr|]. intros z (r & Hr' & P & R). apply Sf.
  destruct (proj2 (Hr r Hr' P)) as (r0 & Hr0 & P0 & R0). exists r0. split; auto. split; auto. eapply reach_trans; eauto.
Qed.

Lemma step_shape x y : step x y -> cycle_inv (fst x) (snd x) -> same_shape B (memory (snd x)) (memory (snd y)).
Proof.
  intros [rs s s' fuel work Ph H|rs s b i v Ph Rb Ht Hc Hi Av|rs rs' s Ph Hr] [I Ce Sp _ G _]; cbn [fst snd] in *.
  - now apply (slice_spec B L fuel work s s' I Sp Ph H).
  - pose proof (heap_reach_live _ _ _ (inv_live B L s I) G Rb) as Hb. unfold caml_modify. rewrite (Ce b i (live_in B L _ (inv_live B L s I) b Hb) Hi).
    cbn [caml_gc_phase set_memory]. rewrite Ph. cbn [Z.eqb Phase_mark].
    pose proof (modify_shape s b i v I Hb Ht Hc Hi (fun P => proj1 (Av P))) as S. destruct (_ && _); exact S.
  - apply same_shape_refl, I.
Qed.

Lemma ci_steps x y : steps x y -> cycle_inv (fst x) (snd x) -> cycle_inv (fst y) (snd y).
Proof. induction 1 as [|x y z H IH S]; auto. intros C. eapply ci_step; eauto. Qed.
Lemma steps_shape x y : steps x y -> cycle_inv (fst x) (snd x) -> same_shape B (memory (snd x)) (memory (snd y)).
Proof.
  induction 1 as [x|x y z H IH S]; intros C; [apply same_shape_refl, C|]. eapply same_shape_trans; [now apply IH|].
  apply step_shape; auto. now apply (ci_steps x y).
Qed.

(** ** The start of a cycle *)

(** No block is gray or black. *)
Record idle (s : gc) : Prop := {
  id_inv : inv s;
  id_cells : cells_in_heap (memory s);
  id_markhp : markhp s = 0;
  id_white : forall b, In b B -> color (memory s) b = Caml_white \/ color (memory s) b = Caml_blue }.

Definition black_leaves (m : mem) : Prop := forall b, L b -> color m b = Caml_black -> No_scan_tag <= tag m b.

Lemma darken_leaves l : forall s, inv s -> Forall (fun v => pointer v -> good L (memory s) v) l -> black_leaves (memory s) ->
  black_leaves (memory (fold_left (fun s v => caml_darken v s) l s)).
Proof.
  induction l as [|v l IH]; intros s I F Bl; cbn [fold_left]; auto. inversion_clear F as [|? ? Hv Fl].
  destruct (darken_spec B L v s I Hv) as (M1 & Mu1 & _). apply IH; [apply M1| |].
  - eapply Forall_impl; [|exact Fl]. cbn. intros y Hy P. exact (good_mutates B L _ _ _ I Mu1 (Hy P)).
  - intros b Hb. pose proof (live_in B L _ (inv_live B L s I) b Hb) as Ib. destruct (ss_header B _ _ (mu_shape _ _ _ _ Mu1) b Ib) as (_ & -> & _).
    destruct (darken_change B L v s I Hv) as [->|(P & h & col & R & Em & _ & Hcol)]; [now apply Bl|]. rewrite Em, (recolor_color _ _ col h R b).
    destruct (Z.eqb_spec b (base (memory s) v)) as [->|]; [|now apply Bl]. intros ->. destruct Hcol as [E|[_ H]]; [discriminate E | exact H].
Qed.

Lemma safe_closed m b c : live_wf B L m -> black_leaves m -> L b -> safe m none b -> reach m b c -> safe m none c.
Proof.
  intros V Bl Hb Sb. induction 1 as [|c d R IH E]; auto. pose proof (reach_live B L m b c V Hb R) as Lc. pose proof (edge_live B L m c d V Lc E) as Ld.
  destruct IH as [Bc|Gc]; [pose proof (Bl c Lc Bc); destruct E as [E _]; lia|].
  destruct (Z.eq_dec (color m d) Caml_white) as [Wd|Wd]; [right; eapply g_step; eauto|].
  destruct (color_nonwhite m d V Ld Wd) as [Hd|Hd]; [right; apply g_gray; auto; now apply (live_in B L m V) | now left].
Qed.

Lemma start_darken r s : idle s -> roots_good (memory s) (caml_do_roots r s) ->
  marks s (caml_darken_all_roots r s) /\ mutates B L (memory s) (memory (caml_darken_all_roots r s)).
Proof.
  intros [I _ _ _] G. destruct (darken_all_spec B L (caml_do_roots r s) s I) as (M & Mu & _); [|auto]. apply Forall_forall. intros v Hv P. now apply G.
Qed.
Lemma start_shape r s : idle s -> roots_good (memory s) (caml_do_roots r s) -> same_shape B (memory s) (memory (start_cycle r s)).
Proof. intros I G. apply (start_darken r s I G). Qed.
Lemma start_reach r s x : idle s -> roots_good (memory s) (caml_do_roots r s) ->
  heap_reach (memory (start_cycle r s)) (caml_do_roots r s) x -> heap_reach (memory s) (caml_do_roots r s) x.
Proof.
  intros I G (y & Hy & P & R). destruct (start_darken r s I G) as [M _]. exists y. split; auto. split; auto.
  destruct (roots_same _ _ _ (mk_shape _ _ _ _ M) (inv_live B L s (id_inv s I)) G) as [_ Eb]. cbn [start_cycle memory set_scan set_subphase set_phase] in R.
  rewrite Eb in R by auto. apply (mk_reach _ _ _ _ M); auto. now apply G.
Qed.

Lemma darken_edge v s x c : inv s -> (pointer v -> good L (memory s) v) -> L x -> edge (memory (caml_darken v s)) x c <-> edge (memory s) x c.
Proof.
  intros I Hv Hx. destruct (darken_change B L v s I Hv) as [->|(P & h & col & R & -> & _)]; [tauto|].
  apply (recolor_edge B L (memory s) _ col h (inv_heap B L s I)); auto; [|apply I]. apply (live_in B L _ (inv_live B L s I)), (Hv P).
Qed.
Lemma darken_all_edge l x c : forall s, inv s -> Forall (fun v => pointer v -> good L (memory s) v) l -> L x ->
  edge (memory (fold_left (fun s v => caml_darken v s) l s)) x c <-> edge (memory s) x c.
Proof.
  induction l as [|v l IH]; intros s I F Hx; cbn [fold_left]; [tauto|]. inversion_clear F as [|? ? Hv Fl].
  destruct (darken_spec B L v s I Hv) as (M1 & Mu1 & _). rewrite IH; auto; [now apply darken_edge | apply M1|].
  eapply Forall_impl; [|exact Fl]. cbn. intros y Hy P. exact (good_mutates B L _ _ _ I Mu1 (Hy P)).
Qed.
Lemma start_reached r s x : idle s -> roots_good (memory s) (caml_do_roots r s) ->
  heap_reach (memory s) (caml_do_roots r s) x -> heap_reach (memory (start_cycle r s)) (caml_do_roots r s) x.
Proof.
  intros Id G (y & Hy & P & R). pose proof (id_inv s Id) as I. destruct (start_darken r s Id G) as [M _]. exists y. split; auto. split; auto.
  destruct (roots_same _ _ _ (mk_shape _ _ _ _ M) (inv_live B L s I) G) as [_ Eb]. cbn [start_cycle memory set_scan set_subphase set_phase].
  rewrite Eb by auto. induction R as [|c d R IH E]; [constructor|]. apply reach_step with c; auto. apply darken_all_edge; auto.
  - apply Forall_forall. intros v Hv Pv. now apply G.
  - apply (reach_live B L (memory s) (base (memory s) y) c (inv_live B L s I)); auto. now apply G.
Qed.

Lemma ci_start r s : idle s -> roots_good (memory s) (caml_do_roots r s) -> cycle_inv (caml_do_roots r s) (start_cycle r s).
Proof.
  intros [I Ce Mh Wh] G. set (rs := caml_do_roots r s) in *. unfold start_cycle, caml_darken_all_roots. fold rs.
  assert (F : Forall (fun v => pointer v -> good L (memory s) v) rs) by (apply Forall_forall; intros v Hv P; now apply G).
  destruct (darken_all_spec B L rs s I F) as (M & Mu & C & Sv). assert (Bl : black_leaves (memory s)) by (intros b Hb E; destruct (Wh b (live_in B L _ (inv_live B L s I) b Hb)) as [W|W]; rewrite W in E; discriminate E).
  pose proof (darken_leaves rs s I F Bl) as Bl'. set (s1 := fold_left _ rs s) in *. pose proof (mu_shape _ _ _ _ Mu) as S.
  destruct (roots_same _ _ rs S (inv_live B L s I) G) as [G' Eb]. pose proof (mk_inv _ _ _ _ M) as I1. pose proof (inv_live B L s1 I1) as V1. split; cbn [memory].
  - destruct I1. split; auto; [|intros [E|E]; discriminate E]. exists []. split; [now left|]. intros Pu b Hb Gb.
    destruct inv_scan as (rem & [[_ ->]|(H & _)] & Fd); [now apply Fd | rewrite (sc_markhp _ _ C) in H; lia].
  - eapply cells_same; eauto.
  - unfold subphase_ok. cbn. auto.
  - left. reflexivity.
  - exact G'.
  - intros x (y & Hy & P & R). cbn [memory set_scan set_subphase set_phase] in *. rewrite Eb in R by auto.
    apply (safe_closed _ (base (memory s) y) x V1 Bl'); auto. now apply G.
Qed.
End Cycle.
