(* ===== verification/GcLive.v ===== *)
(** GcLive: the measure that decreases while the collector marks, and what a cycle without the program blackens. *)
From Stdlib Require Import ZArith Lia List Bool Wellfounded Relation_Operators Transitive_Closure.
From S2P Require Import Prelude Mlvalues ExternOutput InterpState MarshalBytes MarshalTrail MarshalDecode Gc GcGraph GcInv GcMark GcWeak GcTurn GcCycle.
Import ListNotations.
Local Open Scope Z_scope.

Section Live.
Context {A : Arch} {Env : Heap_env}.
Variable B : list Z.
Variable L : Z -> Prop.
Notation inv := (inv B L).

(** ** Measures *)

(** A block has at most two changes of colour before it. *)
Definition weight (c : Z) : nat := if c =? Caml_white then 2%nat else if c =? Caml_gray then 1%nat else 0%nat.
Fixpoint weights (m : mem) (l : list Z) : nat :=
  match l with [] => 0%nat | b :: l => (weight (color m b) + weights m l)%nat end.

Lemma darker_weight m m' b : darker B m m' -> In b B -> (weight (color m' b) <= weight (color m b))%nat.
Proof.
  intros D Hb. destruct (D b Hb) as [->|[[-> [->| ->]]|[-> ->]]]; cbn; auto.
Qed.
Lemma darker_weights m m' l : darker B m m' -> incl l B -> (weights m' l <= weights m l)%nat.
Proof.
  intros D. induction l as [|b l IH]; intros I; cbn [weights]; [lia|]. apply incl_cons_inv in I as [Ib I]. pose proof (darker_weight m m' b D Ib). specialize (IH I). lia.
Qed.
Lemma darker_weights_strict m m' l v : darker B m m' -> incl l B -> In v l -> color m v = Caml_gray -> color m' v = Caml_black ->
  (weights m' l < weights m l)%nat.
Proof.
  intros D I Hv C C'. apply in_split in Hv as (l1 & l2 & ->). apply incl_app_inv in I as [I1 I2]. apply incl_cons_inv in I2 as [_ I2].
  assert (E : forall m, weights m (l1 ++ v :: l2) = (weights m l1 + weight (color m v) + weights m l2)%nat).
  { clear. intros m. induction l1 as [|b l1 IH]; cbn [weights app]; [lia | rewrite IH; lia]. }
  rewrite !E, C, C'. pose proof (darker_weights m m' l1 D I1). pose proof (darker_weights m m' l2 D I2). cbn. lia.
Qed.

(** What is left of a scan of the heap: blocks and chunks. *)
Inductive nchunks : Z -> nat -> Prop :=
  | nchunks_end : nchunks 0 0
  | nchunks_cons c k : c <> 0 -> nchunks (Chunk_next c) k -> nchunks c (S k).
Definition scan_count (s : gc) (r : nat) : Prop :=
  (markhp s = 0 /\ r = 0%nat) \/
  (0 < markhp s /\ exists bs rest k, walk (memory s) (markhp s) (limit s) bs /\ chunks (memory s) (Chunk_next (chunk s)) rest /\
     nchunks (Chunk_next (chunk s)) k /\ r = S (length bs + length rest + k)).
Definition weak_count (s : gc) (w : nat) : Prop := weak_phase s -> exists l, weak_chain B L (memory s) (weak_prev s) l /\ length l = w.

Lemma chunks_count m c bs : chunks m c bs -> exists k, nchunks c k.
Proof. induction 1 as [|c bs rest Hc Hw H [k IH]]; [exists O; constructor | exists (S k); constructor; auto; lia]. Qed.

Lemma inv_scan_count s : inv s -> exists r, scan_count s r.
Proof.
  intros I. destruct (inv_scan B L s I) as (rem & [[E _]|(H & _ & bs & rest & Hw & Hc & _)] & _); [exists O; now left|].
  destruct (chunks_count _ _ _ Hc) as [k Hk]. exists (S (length bs + length rest + k)). right. split; auto. exists bs, rest, k. auto.
Qed.
Lemma inv_weak_count s : inv s -> exists w, weak_count s w.
Proof.
  intros I. destruct (Z.eq_dec (caml_gc_subphase s) Subphase_weak1) as [E|N1]; [|destruct (Z.eq_dec (caml_gc_subphase s) Subphase_weak2) as [E|N2]].
  - destruct (inv_weak B L s I (or_introl E)) as [l H]. exists (length l). intros _. eauto.
  - destruct (inv_weak B L s I (or_intror E)) as [l H]. exists (length l). intros _. eauto.
  - exists O. intros [E|E]; contradiction.
Qed.

(** Colours, then the subphase, weak arrays, the need of a scan, and the scan. *)
Definition order := slexprod nat _ lt (slexprod nat _ lt (slexprod nat _ lt (slexprod nat nat lt lt))).
Lemma order_wf : well_founded order.
Proof. repeat apply wf_slexprod; apply lt_wf. Qed.

Definition rank (s : gc) (t : nat * (nat * (nat * (nat * nat)))) : Prop :=
  let '(a, (u, (w, (p, r)))) := t in
  a = weights (memory s) B /\ u = Z.to_nat (Subphase_final - caml_gc_subphase s) /\ weak_count s w /\
  p = (if heap_is_pure s then 0 else 1)%nat /\ scan_count s r.

Lemma rank_exists s : inv s -> exists t, rank s t.
Proof.
  intros I. destruct (inv_scan_count s I) as [r Hr], (inv_weak_count s I) as [w Hw].
  exists (weights (memory s) B, (Z.to_nat (Subphase_final - caml_gc_subphase s), (w, ((if heap_is_pure s then 0 else 1)%nat, r)))). cbn. auto.
Qed.

(** ** Every turn goes down *)

Lemma rank_weights s s' t : inv s' -> rank s t -> (weights (memory s') B < weights (memory s) B)%nat -> exists t', rank s' t' /\ order t' t.
Proof.
  intros I R H. destruct (rank_exists s' I) as [t' R']. exists t'. split; auto. destruct t as [a t], t' as [a' t'].
  destruct t as (u & w & p & r), t' as (u' & w' & p' & r'). destruct R as [-> _], R' as [-> _]. now left.
Qed.

Lemma rank_subphase s s' t : inv s' -> rank s t -> (weights (memory s') B <= weights (memory s) B)%nat -> subphase_ok s' ->
  caml_gc_subphase s < caml_gc_subphase s' -> exists t', rank s' t' /\ order t' t.
Proof.
  intros I R H Sp Lt. destruct (Nat.eq_dec (weights (memory s') B) (weights (memory s) B)) as [E|N]; [|apply (rank_weights s s' t I R); lia].
  destruct (rank_exists s' I) as [t' R']. exists t'. split; auto. destruct t as (a & u & w & p & r), t' as (a' & u' & w' & p' & r').
  destruct R as (-> & -> & _), R' as (-> & -> & _). rewrite E. right. left.
  assert (caml_gc_subphase s' <= Subphase_final) by (destruct Sp as [->|[->|[->| ->]]]; discriminate). lia.
Qed.

Lemma scan_turn_rank s s' work w t : inv s -> gray_vals s = [] -> markhp s <> 0 -> mark_turn s work = Ok (s', w) -> rank s t ->
  exists t', rank s' t' /\ order t' t.
Proof.
  intros I Eg Nm E R. destruct t as (a & u & wk & p & r). destruct R as (-> & -> & Wk & -> & [[E0 _]|(Hp & bs & rest & k & Hw & Hc & Hk & ->)]); [contradiction|].
  assert (F : memory s' = memory s /\ caml_gc_subphase s' = caml_gc_subphase s /\ weak_prev s' = weak_prev s /\ heap_is_pure s' = heap_is_pure s /\
    exists r', scan_count s' r' /\ (r' < S (length bs + length rest + k))%nat).
  { unfold mark_turn in E. rewrite Eg in E. apply Z.eqb_neq in Nm as Nm'. rewrite Nm' in E. cbn [negb] in E.
    destruct (Z.eqb_spec (markhp s) (limit s)) as [El|Nl].
    - assert (bs = []) by (rewrite El in Hw; inversion Hw; congruence). subst bs. cbn [length Nat.add].
      destruct (Z.eqb_spec (Chunk_next (chunk s)) 0) as [Ec|Nc]; injection E as <- _; cbn [memory caml_gc_subphase weak_prev heap_is_pure set_scan]; repeat (split; [reflexivity|]).
      + exists O. split; [left; split; reflexivity | lia].
      + inversion Hc as [E1|c bs' rest' Pc Hw' Hc' E1 E2]; [congruence|]. inversion Hk as [E3|c' k' _ Hk' E3 E4]; [congruence|]. subst.
        exists (S (length bs' + length rest' + k')). split; [|rewrite length_app; lia]. right. split; [exact Pc|]. exists bs', rest', k'. auto.
    - inversion Hw as [|hp l bs' N' Hw' E1 E2]; subst; [contradiction|]. set (hd := memory s (markhp s)) in *.
      assert (Ib : In (Val_hp (markhp s)) B).
      { destruct (inv_scan B L s I) as (rem & [[E0 _]|(_ & Ir & bs0 & rest0 & Hw0 & _ & ->)] & _); [contradiction|].
        inversion Hw0; subst; [contradiction|]. apply Ir. now left. }
      pose proof (wf_header B _ (inv_heap B L s I) _ Ib) as Ho. rewrite Val_hp_hd in Ho. fold hd in Ho. apply Wosize_hd_pos in Ho. pose proof sizeof_value_pos.
      assert (0 < markhp s + Bhsize_hd hd) by (unfold Bhsize_hd, Bsize_wsize, Whsize_hd, Whsize_wosize; nia).
      assert (K : forall s1, memory s1 = memory s -> memory (set_scan (markhp s + Bhsize_hd hd) (chunk s) (limit s) s1) = memory s) by (intros s1 <-; reflexivity).
      injection E as <- _. destruct (Is_gray_hd hd); cbn [memory caml_gc_subphase weak_prev heap_is_pure set_scan set_gray]; repeat (split; [reflexivity|]);
        (exists (S (length bs' + length rest + k)); split; [|cbn [length]; lia]); right; (split; [assumption|]); exists bs', rest, k; auto. }
  destruct F as (Em & Es & Ew & Ep & r' & Hr & Lt). eexists (_, (_, (_, (_, r')))). split.
  - cbn. rewrite Em, Es, Ep. split; [reflexivity|]. split; [reflexivity|]. split; [|split; [reflexivity | exact Hr]].
    unfold weak_count, weak_phase in *. rewrite Em, Es, Ew. exact Wk.
  - right. right. right. right. exact Lt.
Qed.

Lemma weak_turn_rank s s' t : marks B L s s' -> subphase_ok s' -> weak_phase s -> weak_progress B L s s' -> rank s t -> exists t', rank s' t' /\ order t' t.
Proof.
  intros M Sp Wp Pr R. pose proof (mk_inv _ _ _ _ M) as I'. pose proof (darker_weights _ _ B (mk_darker _ _ _ _ M) (incl_refl _)) as D.
  destruct Pr as [Lt|[Es Sh]]; [now apply (rank_subphase s s')|].
  destruct (Nat.eq_dec (weights (memory s') B) (weights (memory s) B)) as [E|N]; [|apply (rank_weights s s' t I' R); lia].
  destruct t as (a & u & w & p & r). destruct R as (-> & -> & Wk & _). destruct (Wk Wp) as (l & Hl & <-). destruct (Sh l Hl) as (l' & Hl' & Lt).
  destruct (inv_scan_count s' I') as [r' Hr']. eexists (_, (_, (length l', (_, r')))). split.
  - cbn. split; [reflexivity|]. split; [reflexivity|]. split; [intros _; eauto | split; [reflexivity | exact Hr']].
  - rewrite E, Es. right. right. left. exact Lt.
Qed.

Lemma turn_rank s work t : inv s -> subphase_ok s -> rank s t ->
  exists s' w, mark_turn s work = Ok (s', w) /\ turn_ok B L s s' w /\ (caml_gc_phase s' = Phase_sweep \/ exists t', rank s' t' /\ order t' t).
Proof.
  intros I Sp R. destruct (mark_turn_spec B L s work I Sp) as (s' & w & E & T). exists s', w. split; auto. split; auto. pose proof T as (M & Sp' & _).
  pose proof (darker_weights _ _ B (mk_darker _ _ _ _ M) (incl_refl _)) as D. pose proof (mk_inv _ _ _ _ M) as I'.
  destruct (gray_vals s) as [|v l] eqn:Eg.
  2:{ right. destruct (pop_turn B L s work v l I Eg) as (E1 & _ & _ & Cv'). destruct (pop_live B L s v l I Eg) as (_ & Iv & Cv & _). rewrite E1 in E. injection E as Es' _. rewrite Es' in Cv'.
      apply (rank_weights s s' t I' R). eapply darker_weights_strict; eauto; [apply M | apply incl_refl]. }
  destruct (Z.eq_dec (markhp s) 0) as [Em|Nm]; [|right; exact (scan_turn_rank s s' work w t I Eg Nm E R)].
  destruct (heap_is_pure s) eqn:Ep.
  2:{ right. destruct (rescan_turn B L s work I Eg Em Ep) as (s1 & E1 & M1 & _ & Q). unfold mark_turn in E. rewrite Eg, Em, Ep in E. cbn [Z.eqb negb] in E.
      injection E as <- _. destruct (inv_scan_count _ I') as [r' Hr']. destruct t as (a & u & wk & p & r). destruct R as (-> & -> & Wk & -> & _).
      eexists (_, (_, (wk, (_, r')))). split; [cbn; split; [reflexivity|]; split; [reflexivity|]; split; [exact Wk | split; [reflexivity | exact Hr']]|].
      rewrite Ep. right. right. right. left. cbn. lia. }
  assert (W : weak_phase s -> exists t', rank s' t' /\ order t' t).
  { intros Wp. assert (Pr : weak_progress B L s s').
    { destruct Wp as [Es|Es].
      - destruct (weak1_turn B L s work I Eg Em Ep Es) as (s1 & w1 & E1 & _ & _ & P & _). rewrite E1 in E. injection E as -> _. exact P.
      - destruct (weak2_turn B L s work I Eg Em Ep Es) as (s1 & w1 & E1 & _ & _ & P & _). rewrite E1 in E. injection E as -> _. exact P. }
    now apply (weak_turn_rank s s'). }
  destruct Sp as [Es|[Es|[Es|Es]]]; [|right; apply W; now left | right; apply W; now right|];
    unfold mark_turn in E; rewrite Eg, Em, Ep, Es in E; cbn [Z.eqb negb Pos.eqb Subphase_main Subphase_weak1 Subphase_weak2 Subphase_final] in E; injection E as <- _.
  - right. apply (rank_subphase s _ t I' R D Sp'). cbn. rewrite Es. reflexivity.
  - left. reflexivity.
Qed.

(** ** Slices end, and marking too *)

Definition below := clos_trans _ order.
Lemma below_wf : well_founded below.
Proof. apply wf_clos_trans, order_wf. Qed.

Lemma mark_slice_more n : forall work s s', mark_slice n work s = Ok s' -> forall fuel, (n <= fuel)%nat -> mark_slice fuel work s = Ok s'.
Proof.
  induction n as [|n IH]; intros work s s' H fuel Hf; cbn [mark_slice] in H.
  - destruct (0 <? work) eqn:E; [discriminate H|]. destruct fuel; cbn [mark_slice]; rewrite E; exact H.
  - destruct fuel as [|fuel]; [lia|]. cbn [mark_slice]. destruct (0 <? work); [|exact H]. destruct (mark_turn s work) as [[s1 w]| |]; try discriminate H.
    apply IH; auto. lia.
Qed.

Lemma slice_ends : forall t s work, rank s t -> inv s -> subphase_ok s -> caml_gc_phase s = Phase_mark ->
  exists n s', mark_slice n work s = Ok s' /\ (0 < work -> caml_gc_phase s' = Phase_mark -> exists t', rank s' t' /\ below t' t).
Proof.
  induction t as [t IH] using (well_founded_induction below_wf). intros s work R I Sp Ph. destruct (Z.ltb_spec 0 work) as [Hw|Hw].
  2:{ exists O, s. cbn [mark_slice]. rewrite (proj2 (Z.ltb_ge 0 work)) by lia. split; [reflexivity | lia]. }
  destruct (turn_rank s work t I Sp R) as (s1 & w & E & (M & Sp1 & P1) & D). pose proof (mk_inv _ _ _ _ M) as I1.
  destruct P1 as [P1|(P1 & _ & ->)].
  - destruct D as [D|(t1 & R1 & O1)]; [rewrite P1, Ph in D; discriminate D|]. apply t_step in O1. change (below t1 t) in O1.
    destruct (IH t1 O1 s1 w R1 I1 Sp1 ltac:(congruence)) as (n & s' & En & Dn). exists (S n), s'.
    split; [cbn [mark_slice]; rewrite (proj2 (Z.ltb_lt 0 work) Hw), E; exact En|]. intros _ Ph'.
    destruct (Z.ltb_spec 0 w) as [H|H].
    + destruct (Dn H Ph') as (t2 & R2 & O2). exists t2. split; auto. eapply t_trans; eauto.
    + assert (s' = s1) by (destruct n; cbn [mark_slice] in En; rewrite (proj2 (Z.ltb_ge 0 w) H) in En; congruence). subst s'. eauto.
  - exists 1%nat, s1. split; [cbn [mark_slice]; rewrite (proj2 (Z.ltb_lt 0 work) Hw), E; reflexivity|]. intros _ Ph'. rewrite P1 in Ph'. discriminate Ph'.
Qed.

Lemma LONG_MAX_pos : 0 < LONG_MAX.
Proof. unfold LONG_MAX. destruct WORD_cases as [-> | ->]; reflexivity. Qed.

Lemma finish_ends : forall t s, rank s t -> inv s -> subphase_ok s -> caml_gc_phase s = Phase_mark ->
  exists n s', (forall slices fuel, (n <= slices)%nat -> (n <= fuel)%nat -> finish_mark slices fuel s = Ok s') /\
    marks B L s s' /\ caml_gc_phase s' = Phase_sweep /\ no_gray B (memory s').
Proof.
  induction t as [t IH] using (well_founded_induction below_wf). intros s R I Sp Ph.
  destruct (slice_ends t s LONG_MAX R I Sp Ph) as (n & s1 & E & D). destruct (slice_spec B L n LONG_MAX s s1 I Sp Ph E) as (M & Sp1 & P1).
  assert (Turn : forall slices fuel, (n <= fuel)%nat -> finish_mark (S slices) fuel s = finish_mark slices fuel s1).
  { intros slices fuel Hf. cbn [finish_mark]. rewrite Ph. cbn [Z.eqb Phase_mark]. now rewrite (mark_slice_more n LONG_MAX s s1 E fuel Hf). }
  destruct P1 as [P1|[P1 G]].
  - destruct (D LONG_MAX_pos P1) as (t1 & R1 & O1). destruct (IH t1 O1 s1 R1 (mk_inv _ _ _ _ M) Sp1 P1) as (n1 & s' & En & M1 & Ps & G).
    exists (S (Nat.max n n1)), s'. split; [|split; [eapply marks_trans; eauto | auto]]. intros [|slices] fuel Hs Hf; [lia|].
    rewrite Turn by lia. apply En; lia.
  - exists (S n), s1. split; [|auto]. intros [|slices] fuel Hs Hf; [lia|]. rewrite Turn by lia. destruct slices; cbn [finish_mark]; rewrite P1; reflexivity.
Qed.
End Live.

Section Exact.
Context {A : Arch} {Env : Heap_env}.
Variable B : list Z.
Variable L : Z -> Prop.
Variable S : Z -> Prop.
Notation inv := (inv B L).
Notation marks := (marks B L).
Notation mutates := (mutates B L).

Definition marked (m : mem) (x : Z) : Prop := color m x = Caml_gray \/ color m x = Caml_black.
Definition marked_in (m : mem) : Prop := forall x, In x B -> marked m x -> S x.
Definition closed (m : mem) : Prop := forall y x, L y -> S y -> edge m y x -> S x.
Definition finals_in (s : gc) : Prop := forall f, In f (finalisable s) -> S (base (memory s) (val f)).

Lemma closed_reach m y x : live_wf B L m -> closed m -> L y -> S y -> reach m y x -> S x.
Proof. intros V C Hy Sy. induction 1 as [|c d R IH E]; auto. apply (C c d); auto. now apply (reach_live B L m y c). Qed.
Lemma closed_edges m m' : live_wf B L m -> (forall b c, L b -> edge m' b c -> reach m b c) -> closed m -> closed m'.
Proof. intros V H C y x Hy Sy E. apply (closed_reach m y x); auto. Qed.
Lemma closed_marks s s' : inv s -> marks s s' -> closed (memory s) -> closed (memory s').
Proof.
  intros I M. apply closed_edges; [apply I|]. intros b c Hb E. apply (mk_reach _ _ _ _ M); auto. econstructor; [constructor | exact E].
Qed.

Lemma marked_same m m' : (forall b, In b B -> color m' b = color m b) -> marked_in m -> marked_in m'.
Proof. intros E H x Hx M. apply H; auto. unfold marked in *. now rewrite E in M. Qed.
Lemma marked_recolor m c h col : recolored (Hd_op m c) h col -> S c -> marked_in m -> marked_in (m.[c - sizeof_value <- h]).
Proof.
  intros R Sc H x Hx M. destruct (Z.eq_dec x c) as [->|N]; auto. apply H; auto. unfold marked in *. rewrite (recolor_color m c col h R) in M.
  apply Z.eqb_neq in N. now rewrite N in M.
Qed.

(** ** One operation *)

(** The only change of colour is that of the child, from white to gray. *)
Lemma mark_field_color s v i : inv s -> L v -> tag (memory s) v < No_scan_tag -> 0 <= i < wosize (memory s) v -> color (memory s) v = Caml_black ->
  forall x, In x B -> color (memory (mark_field v i s)) x = color (memory s) x \/
    (color (memory (mark_field v i s)) x = Caml_gray /\ pointer (Op_val (memory s) v i) /\ x = base (memory s) (Op_val (memory s) v i)).
Proof.
  intros I Hv Ht Hi Hb x Hx. pose proof (inv_live B L s I) as V. set (m := memory s) in *. unfold mark_field. fold m.
  set (c0 := Op_val m v i). destruct (Is_block c0 && Is_in_heap c0) eqn:Pc; [|now left]. apply andb_prop in Pc as P. fold (pointer c0) in P.
  pose proof (live_field B L m V v i Hv Ht Hi P) as Gc0. fold c0 in Gc0.
  destruct (short_circuit_spec B L s v i none I Hv Ht Hi Hb ltac:(intros ? []) P) as (A1 & _ & D1). fold m c0 in A1, D1. set (s1 := short_circuit v i c0 s) in *.
  set (infix := negb _ && _). assert (Ei : infix = (tag m c0 =? Infix_tag)).
  { unfold infix, tag. destruct (Z.eqb_spec (Tag_hd (Hd_op m c0)) Forward_tag) as [->|]; reflexivity. }
  rewrite Ei. clear infix Ei. fold (base m c0). assert (Ic : In (base m c0) B) by (apply (live_in B L m V), Gc0).
  replace (if tag m c0 =? Infix_tag then c0 - Infix_offset_hd (Hd_op m c0) else c0) with (base m c0) by reflexivity.
  replace (if tag m c0 =? Infix_tag then Hd_op (memory s1) (base m c0) else Hd_op m c0) with (Hd_op (memory s1) (base m c0)).
  2:{ destruct (tag m c0 =? Infix_tag) eqn:E; auto. rewrite D1 by auto. unfold base. now rewrite E. }
  set (c := base m c0) in *. assert (E1 : color (memory s1) x = color m x) by (unfold color; now rewrite D1).
  destruct (Is_white_hd _); [|now left]. rewrite (proj1 (push_gray_spec _ _)). cbn [memory set_hd set_memory].
  assert (R : recolored (Hd_op (memory s1) c) (Grayhd_hd (Hd_op (memory s1) c)) Caml_gray) by (apply Grayhd_recolor; rewrite D1 by auto; now apply (wf_header B m (inv_heap B L s I))).
  rewrite (recolor_color _ c _ _ R x). destruct (Z.eqb_spec x c) as [->|]; [right; auto | now left].
Qed.

Lemma mark_field_in s v i : inv s -> L v -> tag (memory s) v < No_scan_tag -> 0 <= i < wosize (memory s) v -> color (memory s) v = Caml_black ->
  S v -> closed (memory s) -> marked_in (memory s) -> marked_in (memory (mark_field v i s)).
Proof.
  intros I Hv Ht Hi Hb Sv Cl Mi x Hx M. destruct (mark_field_color s v i I Hv Ht Hi Hb x Hx) as [E|(_ & P & ->)].
  - apply Mi; auto. unfold marked in *. now rewrite <- E.
  - apply (Cl v); auto. now apply reach_field.
Qed.

Lemma mark_fields_in n : forall s v i, inv s -> L v -> tag (memory s) v < No_scan_tag -> 0 <= i -> i + Z.of_nat n = wosize (memory s) v ->
  color (memory s) v = Caml_black -> S v -> closed (memory s) -> marked_in (memory s) -> marked_in (memory (mark_fields n v i s)).
Proof.
  induction n as [|n IH]; intros s v i I Hv Ht Hi Hn Hb Sv Cl Mi; cbn [mark_fields]; auto.
  pose proof (mark_field_in s v i I Hv Ht ltac:(lia) Hb Sv Cl Mi) as Mi1.
  destruct (mark_field_spec B L s v i I Hv Ht ltac:(lia) Hb) as (I1 & C1 & M1 & K1 & _). pose proof (live_in B L _ (inv_live B L s I) v Hv) as Iv.
  destruct (ss_header B _ _ (mu_shape _ _ _ _ M1) v Iv) as (_ & Et & Ew). apply IH; auto; [now rewrite Et | lia | rewrite Ew; lia | exact (darker_black B _ _ v K1 Iv Hb)|].
  apply (closed_edges (memory s)); auto; [apply I | apply M1].
Qed.

Lemma darken_in v s : inv s -> (pointer v -> good L (memory s) v /\ S (base (memory s) v)) -> marked_in (memory s) -> marked_in (memory (caml_darken v s)).
Proof.
  intros I Hv Mi. destruct (darken_change B L v s I (fun P => proj1 (Hv P))) as [->|(P & h & col & R & -> & _)]; auto.
  apply (marked_recolor _ _ _ col); auto. now apply Hv.
Qed.

Lemma darken_all_in l : forall s, inv s -> Forall (fun v => pointer v -> good L (memory s) v /\ S (base (memory s) v)) l ->
  marked_in (memory s) -> marked_in (memory (fold_left (fun s v => caml_darken v s) l s)).
Proof.
  induction l as [|v l IH]; intros s I F Mi; cbn [fold_left]; auto. inversion_clear F as [|? ? Hv Fl].
  destruct (darken_spec B L v s I (fun P => proj1 (Hv P))) as (M1 & Mu1 & _). apply IH; [apply M1 | | now apply darken_in].
  eapply Forall_impl; [|exact Fl]. cbn. intros y Hy P. destruct (Hy P) as [G Sy].
  destruct (good_same B L _ _ y (mu_shape _ _ _ _ Mu1) (inv_live B L s I) G) as [-> G']. auto.
Qed.

(** ** Finalised values *)

Lemma final_again_in m f : live_wf B L m -> closed m -> final_ok L m f -> S (base m (val f)) -> forall w f', final_again 2 m f = Ok (w, f') ->
  pointer (val f') -> good L m (val f') /\ S (base m (val f')).
Proof.
  intros V Cl [P Hf] Sf w f'. cbn [final_again].
  assert (Same : forall w', Ok (w', f) = Ok (w, f') -> pointer (val f') -> good L m (val f') /\ S (base m (val f'))) by (intros w' E; injection E as _ <-; auto).
  destruct (Is_white_val m (val f)); [|apply Same]. destruct (Z.eqb_spec (Tag_hd (Hd_op m (val f))) Forward_tag) as [Tf|]; [|apply Same].
  set (fv := Forward_value m (val f)). destruct (Is_block fv && keep_forward m fv) eqn:K; [apply Same|].
  assert (Ex : base m (val f) = val f) by (unfold base, tag; rewrite Tf; reflexivity). assert (Lx : L (val f)) by (rewrite <- Ex; apply Hf).
  assert (Tx : tag m (val f) < No_scan_tag) by (unfold tag; rewrite Tf; reflexivity). assert (Wx : 0 <= 0 < wosize m (val f)) by (split; [lia | now apply (live_forward B L m V)]).
  assert (G : pointer fv -> good L m fv /\ S (base m fv)).
  { intros Pf. split; [now apply (live_field B L m V (val f) 0)|]. apply (Cl (val f)); auto; [now rewrite <- Ex | exact (reach_field m (val f) 0 Tx Wx Pf)]. }
  assert (Done : forall w', Ok (w', Final (fun_ f) fv (offset f)) = Ok (w, f') -> pointer (val f') -> good L m (val f') /\ S (base m (val f')))
    by (intros w' E; injection E as _ <-; exact G).
  destruct (Is_block fv && Is_in_heap fv) eqn:Q; [|apply Done]. cbn [val fun_ offset]. destruct (Is_white_val m fv); [|apply Done].
  apply andb_prop in Q. rewrite (proj1 Q) in K. cbn [andb] in K. apply keep_forward_tag in K. unfold tag in K.
  destruct (Z.eqb_spec (Tag_hd (Hd_op m fv)) Forward_tag); [contradiction | apply Done].
Qed.

Lemma final_split_in m l : heap_wf B m -> live_wf B L m -> closed m -> Forall (final_ok L m) l -> (forall f, In f l -> S (base m (val f))) ->
  forall todo kept, final_split m l = Ok (todo, kept) ->
  (forall f, In f (todo ++ kept) -> pointer (val f) -> good L m (val f) /\ S (base m (val f))) /\ Forall (final_ok L m) kept.
Proof.
  intros W V Cl F. induction F as [|f l Hf F IH]; intros Hs todo kept; cbn [final_split]; [intros E; injection E as <- <-; split; [intros ? [] | auto]|].
  destruct (final_again_spec B L m f W V Hf) as (w & f' & E & Gf). rewrite E.
  pose proof (final_again_in m f V Cl Hf (Hs f (or_introl eq_refl)) w f' E) as Gf'.
  destruct (final_split m l) as [[todo' kept']| |]; try discriminate. destruct (IH (fun g Hg => Hs g (or_intror Hg)) todo' kept' eq_refl) as [IH1 IH2].
  destruct w; intros E'; injection E' as <- <-; (split; [|auto]); intros g Hg.
  - destruct Hg as [->|Hg]; auto.
  - apply in_app_or in Hg as [Hg|[->|Hg]]; auto; apply IH1; apply in_or_app; auto.
Qed.

Lemma final_update_in s s' : inv s -> closed (memory s) -> finals_in s -> marked_in (memory s) -> caml_final_update s = Ok s' ->
  marked_in (memory s') /\ finals_in s'.
Proof.
  intros I Cl Fi Mi. unfold caml_final_update. destruct (existsb _ _); [|intros E; injection E as <-; auto].
  destruct (final_split (memory s) (finalisable s)) as [[todo kept]| |] eqn:E; try discriminate. intros E'; injection E' as <-. rewrite fold_darken_vals.
  destruct (final_split_in _ _ (inv_heap B L s I) (inv_live B L s I) Cl (inv_final B L s I) Fi todo kept E) as [G Fk].
  pose proof (set_final_marks B L s kept (to_do s ++ [todo]) I Fk) as M1. set (s1 := set_final _ _ s) in *.
  assert (F : Forall (fun v => pointer v -> good L (memory s1) v /\ S (base (memory s1) v)) (map val todo)).
  { apply Forall_map, Forall_forall. intros f Hf. apply G. apply in_or_app. auto. }
  split; [apply darken_all_in; auto; apply M1|]. intros f.
  assert (F' : Forall (fun v => pointer v -> good L (memory s1) v) (map val todo)) by (eapply Forall_impl; [|exact F]; cbn; tauto).
  destruct (darken_all_spec B L (map val todo) s1 (mk_inv _ _ _ _ M1) F') as (M2 & _ & C2 & _). rewrite (sc_final _ _ C2). intros Hf.
  destruct (proj1 (Forall_forall _ _) Fk f Hf) as [P Gf]. destruct (good_same B L (memory s1) _ _ (mk_shape _ _ _ _ M2) (inv_live B L s I) Gf) as [-> _].
  apply G; auto. apply in_or_app. auto.
Qed.

(** ** Turns and slices *)

Record exact (s : gc) : Prop := {
  ex_marked : marked_in (memory s);
  ex_closed : closed (memory s);
  ex_final : finals_in s }.

Lemma exact_marks s s' : inv s -> marks s s' -> finalisable s' = finalisable s -> marked_in (memory s') -> exact s -> exact s'.
Proof.
  intros I M Ef Mi [_ Cl Fi]. split; auto; [now apply (closed_marks s)|]. intros f. rewrite Ef. intros Hf.
  pose proof (proj1 (Forall_forall _ _) (inv_final B L s I) f Hf) as [_ G].
  destruct (good_same B L _ _ _ (mk_shape _ _ _ _ M) (inv_live B L s I) G) as [-> _]. auto.
Qed.

Lemma pop_in s v l : inv s -> gray_vals s = v :: l -> marked_in (memory s) -> closed (memory s) -> marked_in (memory (scanned v l s)).
Proof.
  intros I Eg Mi Cl. destruct (pop_live B L s v l I Eg) as (Lv & Iv & Cv & Wp). destruct (pop_blacken B L s v l I Eg) as (I1 & _ & M1 & _ & Et & Ew & Col).
  assert (Sv : S v) by (apply Mi; [auto | now left]).
  assert (Mi1 : marked_in (memory (popped v l s))) by (apply (marked_recolor _ v _ Caml_black); auto; apply Blackhd_recolor; now apply (wf_header B _ (inv_heap B L s I))).
  unfold scanned. destruct (Z.ltb_spec (tag (memory s) v) No_scan_tag) as [Ht|Ht]; [|exact Mi1].
  apply mark_fields_in; auto; [now rewrite Et | lia | rewrite Ew; lia | now rewrite Col, Z.eqb_refl |]. apply (closed_edges (memory s)); auto; [apply I | apply M1].
Qed.

(** Until the finalised values are darkened. *)
Lemma turn_marked s work s' w : inv s -> subphase_ok s -> mark_turn s work = Ok (s', w) -> caml_gc_subphase s' <> Subphase_final ->
  caml_gc_subphase s <> Subphase_final /\ (marked_in (memory s) -> closed (memory s) -> marked_in (memory s')).
Proof.
  intros I Sp E Nf. destruct (gray_vals s) as [|v l] eqn:Eg.
  { unfold mark_turn in E. rewrite Eg in E.
    destruct (negb (markhp s =? 0)); [destruct (markhp s =? limit s); [destruct (Chunk_next (chunk s) =? 0) | destruct (Is_gray_hd _)]; injection E as <- _; auto|].
    destruct (negb (heap_is_pure s)); [injection E as <- _; auto|].
    destruct Sp as [Es|[Es|[Es|Es]]]; rewrite Es in *; cbn [Z.eqb Pos.eqb Subphase_main Subphase_weak1 Subphase_weak2 Subphase_final] in E; ((split; [discriminate|]) || (exfalso; injection E as <- _; exact (Nf Es))).
    - injection E as <- _. auto.
    - destruct (Z.eqb_spec (memory s (weak_prev s)) 0) as [|N]; cbn [negb] in E; [injection E as <- _; auto|].
      destruct (inv_weak B L s I (or_introl Es)) as [[|c l] [_ H]]; [contradiction|]. destruct H as (Ec & _ & Hc & _). rewrite Ec in E.
      destruct (weak_fields_spec B L (Z.to_nat (Wosize_hd (Hd_op (memory s) c) - 1)) s c 1 I Hc) as (s1 & F1 & S1); [lia | destruct Hc as (_ & _ & Hc & _); unfold wosize in *; lia|].
      rewrite F1 in E. injection E as <- _. intros Mi _. exact (marked_same (memory s) _ (ws_color _ _ _ _ S1) Mi).
    - destruct (Z.eqb_spec (memory s (weak_prev s)) 0) as [|N]; cbn [negb] in E.
      + destruct (caml_final_update s) as [s1| |]; try discriminate E. injection E as <- _. destruct (Nf eq_refl).
      + destruct (inv_weak B L s I (or_intror Es)) as [[|c l] [Hl H]]; [contradiction|]. destruct H as (Ec & Nc & Hc & _). injection E as <- _. destruct (Color_hd _ =? _); [|auto].
        destruct (unlink_step B L s c I Hl Hc Ec Nc) as (_ & Col & _). rewrite Ec. intros Mi _. exact (marked_same (memory s) _ Col Mi). }
  destruct (pop_turn B L s work v l I Eg) as (E1 & _ & C & _). rewrite E1 in E. injection E as <- _. rewrite <- (sc_subphase _ _ C). split; [exact Nf|]. now apply pop_in.
Qed.

Lemma turn_in s work s' w : inv s -> subphase_ok s -> exact s -> mark_turn s work = Ok (s', w) -> exact s'.
Proof.
  intros I Sp Ex E. destruct (mark_turn_spec B L s work I Sp) as (s0 & w0 & E0 & M & _). rewrite E in E0. injection E0 as <- <-.
  destruct (gray_vals s) as [|v l] eqn:Eg.
  2:{ destruct (pop_turn B L s work v l I Eg) as (E1 & _ & C & _). rewrite E1 in E. injection E as <- _. apply (exact_marks s); auto; [apply C | apply pop_in; auto; apply Ex]. }
  unfold mark_turn in E. rewrite Eg in E.
  assert (Same : memory s' = memory s -> finalisable s' = finalisable s -> exact s') by (intros Em Ef; apply (exact_marks s); auto; rewrite Em; apply Ex).
  destruct (negb (markhp s =? 0)); [destruct (markhp s =? limit s); [destruct (Chunk_next (chunk s) =? 0) | destruct (Is_gray_hd _)]; injection E as <- _; now apply Same|].
  destruct (negb (heap_is_pure s)); [injection E as <- _; now apply Same|].
  destruct (Z.eqb_spec (caml_gc_subphase s) Subphase_main); [injection E as <- _; now apply Same|].
  assert (Link : weak_phase s -> memory s (weak_prev s) <> 0 -> weak_link B L (memory s) (weak_prev s) /\ weak_array B L (memory s) (memory s (weak_prev s))).
  { intros Hw N. destruct (inv_weak B L s I Hw) as [l H]. destruct l as [|c l]; destruct H as [Hl H]; [contradiction|]. destruct H as (-> & _ & Hc & _). auto. }
  destruct (Z.eqb_spec (caml_gc_subphase s) Subphase_weak1) as [E1|].
  { destruct (Z.eqb_spec (memory s (weak_prev s)) 0) as [E0|N]; cbn [negb] in E; [injection E as <- _; now apply Same|].
    destruct (Link (or_introl E1) N) as [_ Hc]. set (cur := memory s (weak_prev s)) in *.
    destruct (weak_fields_spec B L (Z.to_nat (Wosize_hd (Hd_op (memory s) cur) - 1)) s cur 1 I Hc) as (s1 & F1 & S1); [lia | destruct Hc as (_ & _ & Hc & _); unfold wosize in *; lia|].
    rewrite F1 in E. injection E as <- _. apply (exact_marks s); auto; [exact (sc_final _ _ (ws_control _ _ _ _ S1))|].
    apply (marked_same (memory s)); [exact (ws_color _ _ _ _ S1) | apply Ex]. }
  destruct (Z.eqb_spec (caml_gc_subphase s) Subphase_weak2) as [E2|].
  { destruct (Z.eqb_spec (memory s (weak_prev s)) 0) as [E0|N]; cbn [negb] in E.
    - destruct (final_update_spec B L s I) as (s1 & F1 & M1 & _). rewrite F1 in E. injection E as <- _.
      destruct (final_update_in s s1 I (ex_closed s Ex) (ex_final s Ex) (ex_marked s Ex) F1) as [Mi Fi]. split; auto. cbn. now apply (closed_marks s s1), Ex.
    - destruct (Link (or_intror E2) N) as [Hl Hc]. set (cur := memory s (weak_prev s)) in *. injection E as <- _. destruct (Color_hd _ =? _); [|now apply Same].
      destruct (unlink_step B L s cur I Hl Hc eq_refl N) as (_ & Col & _). apply (exact_marks s); auto. apply (marked_same (memory s)); [exact Col | apply Ex]. }
  destruct (caml_gc_subphase s =? Subphase_final); [|discriminate E]. injection E as <- _. now apply Same.
Qed.

Lemma slice_in fuel : forall work s s', inv s -> subphase_ok s -> exact s -> mark_slice fuel work s = Ok s' -> exact s'.
Proof.
  induction fuel as [|fuel IH]; intros work s s' I Sp Ex H; cbn [mark_slice] in H; (destruct (0 <? work); [|injection H as <-; exact Ex]); [discriminate H|].
  destruct (mark_turn_spec B L s work I Sp) as (s1 & w & E & M1 & Sp1 & _). rewrite E in H. apply (IH w s1); auto; [apply M1 | now apply (turn_in s work s1 w)].
Qed.

Lemma finish_in slices : forall fuel s s', inv s -> subphase_ok s -> exact s -> finish_mark slices fuel s = Ok s' -> exact s'.
Proof.
  induction slices as [|n IH]; intros fuel s s' I Sp Ex H; cbn [finish_mark] in H; (destruct (Z.eqb_spec (caml_gc_phase s) Phase_mark) as [Ph|]; [|injection H as <-; exact Ex]); [discriminate H|].
  destruct (mark_slice fuel LONG_MAX s) as [s1| |] eqn:E; try discriminate H. destruct (slice_spec B L fuel LONG_MAX s s1 I Sp Ph E) as (M1 & Sp1 & _).
  apply (IH fuel s1); auto; [apply M1 | now apply (slice_in fuel LONG_MAX s)].
Qed.

(** ** From the start of a cycle *)

Lemma start_exact r s : idle B L s -> roots_good L (memory s) (caml_do_roots r s) -> closed (memory s) -> finals_in s ->
  (forall b, In b B -> ~ marked (memory s) b) -> (forall v, In v (caml_do_roots r s) -> pointer v -> S (base (memory s) v)) -> exact (start_cycle r s).
Proof.
  intros [I _ _ _] G Cl Fi Nm Sr. set (rs := caml_do_roots r s) in *.
  assert (F : Forall (fun v => pointer v -> good L (memory s) v /\ S (base (memory s) v)) rs) by (apply Forall_forall; intros v Hv P; split; [now apply G | auto]).
  assert (F' : Forall (fun v => pointer v -> good L (memory s) v) rs) by (eapply Forall_impl; [|exact F]; cbn; tauto).
  assert (Mi : marked_in (memory s)) by (intros b Hb M; destruct (Nm b Hb M)). pose proof (darken_all_in rs s I F Mi) as Mi'.
  destruct (darken_all_spec B L rs s I F') as (M & _ & C & _). pose proof (exact_marks s _ I M (sc_final _ _ C) Mi' ltac:(now split)) as [H1 H2 H3]. now split.
Qed.
End Exact.

(** ** Exactness *)

Section Exactness.
Context {A : Arch} {Env : Heap_env}.
Variable B : list Z.
Variable L : Z -> Prop.

Lemma finish_black rs s s' x : cycle_inv B L rs s -> marks B L s s' -> no_gray B (memory s') -> heap_reach (memory s) rs x -> color (memory s') x = Caml_black.
Proof.
  intros C M N Rx. pose proof (inv_live B L _ (ci_inv B L _ _ C)) as V.
  destruct (mk_safe _ _ _ _ M x (heap_reach_live B L _ _ x V (ci_roots B L _ _ C) Rx) (ci_safe B L _ _ C x Rx)) as [|Gx]; auto.
  destruct (no_gray_no_guard B _ x N Gx).
Qed.

Lemma finish_exact r s n s' : idle B L s -> roots_good L (memory s) (caml_do_roots r s) -> finish_mark n n (start_cycle r s) = Ok s' ->
  marks B L (start_cycle r s) s' -> no_gray B (memory s') -> forall x, In x B ->
  (heap_reach (memory s) (caml_do_roots r s) x -> color (memory s') x = Caml_black) /\
  (color (memory s') x = Caml_black -> heap_reach (memory s) (caml_do_roots r s ++ map val (finalisable s)) x).
Proof.
  intros I G E M N x Hx. pose proof (ci_start B L r s I G) as C. pose proof (ci_inv B L _ _ C) as I1. cbn [fst snd] in I1. pose proof (id_inv B L s I) as I0. split.
  - intros Rx. apply (finish_black (caml_do_roots r s) (start_cycle r s) s' x C M N). now apply (start_reached B L).
  - intros Bx. set (S := heap_reach (memory s) (caml_do_roots r s ++ map val (finalisable s))) in *.
    assert (Ex : exact B L S (start_cycle r s)).
    { apply start_exact; auto.
      - intros y z _ (v & Hv & P & Ry) Ez. exists v. split; auto. split; auto. econstructor; eauto.
      - intros f Hf. exists (val f). split; [apply in_or_app; right; now apply in_map|]. split; [|constructor].
        exact (proj1 (proj1 (Forall_forall _ _) (inv_final B L s I0) f Hf)).
      - intros b Hb [K|K]; destruct (id_white B L s I b Hb) as [W|W]; rewrite W in K; discriminate K.
      - intros v Hv P. exists v. split; [apply in_or_app; auto|]. split; [auto | constructor]. }
    apply (ex_marked B L S s'); [|auto | now right]. exact (finish_in B L S n n _ s' I1 (ci_subphase B L _ _ C) Ex E).
Qed.
End Exactness.
