(* ===== verification/GcTheorems.v ===== *)
(** GcTheorems: what marking does, and a heap on which the theorems of the collector are
    applied: a tuple, a forwarding block, a closure with an infix pointer to it, a
    string, a weak array, an unreachable block with a finaliser, a free block and an
    unreachable custom block; the gray stack has room for one block, so that it
    overflows. *)
From Stdlib Require Import ZArith Lia List Bool.
From S2P Require Import Prelude Mlvalues ExternOutput InterpState MarshalBytes MarshalTrail MarshalDecode Gc GcGraph GcInv GcMark GcWeak GcTurn GcCycle GcLive.
Import ListNotations.
Local Open Scope Z_scope.

Definition words : list Z := [
  2048; 4128; 4168;  (* 4104: a tuple *)
  1274; 4224;  (* 4128: a forwarding block *)
  4343; 65536; 3; 3321; 65552;  (* 4144: a closure, with an infix pointer at 4168 *)
  1024; 4104;  (* 4184: an unreachable block *)
  2299; 0; 4184;  (* 4200: a weak array *)
  1276; 7;  (* 4224: a string *)
  1536; 0;  (* 4240: a free block *)
  1279; 48  (* 4256: an unreachable custom block *) ].
Definition example_memory : mem := fun a =>
  if a =? 64 then 4200 else if a =? 128 then 4240 else if (4096 <=? a) && (a <? 4264) && (a mod 8 =? 0) then nth (Z.to_nat ((a - 4096) / 8)) words 0 else 0.

#[export] Instance example_env : Heap_env := {
  caml_heap_start := 4096; Chunk_next _ := 0; Chunk_size _ := 168;
  Classify_addr a := if (4096 <=? a) && (a <? 4264) then In_heap else Not_in_heap;
  Is_young v := (8192 <? v) && (v <? 8448); caml_stat_heap_size := 168; caml_weak_list_head := 64; caml_weak_none := 32;
  realloc_ok _ := true }.
#[export] Existing Instance arch64.

Definition example_blocks : list Z := [4104; 4128; 4144; 4184; 4200; 4224; 4240; 4256].
Definition example_live (b : Z) : Prop := In b [4104; 4128; 4144; 4184; 4200; 4224; 4256].
Definition example_gc : gc :=
  GC example_memory [] 1 true 0 0 0 0 Phase_idle Subphase_main 0 [Final 1 4184 0] [] [].
Definition example_roots : roots := Roots 1 [4104; 4200] [] [] [].

Ltac no_pointer := let P1 := fresh in let P2 := fresh in intros [P1 P2]; vm_compute in P1, P2; congruence.
Ltac valid_field := first [no_pointer | intros _; split; [vm_compute; tauto|
  let T := fresh in intros T; first [vm_compute in T; discriminate T | split; [reflexivity | split; [exists 2; split; [split; [discriminate | reflexivity] | reflexivity] | reflexivity]]]]].

Lemma example_heap : heap_wf example_blocks example_memory.
Proof.
  split.
  - intros b Hb. each Hb; split; try (vm_compute; intuition congruence).
  - intros b b' Hb Hb' N. each Hb; each Hb'; first [contradiction | left; reflexivity | right; reflexivity].
Qed.

Lemma example_live_wf : live_wf example_blocks example_live example_memory.
Proof.
  split.
  - intros b Hb. each Hb; vm_compute; tauto.
  - intros b Hb. each Hb; discriminate.
  - intros b Hb. each Hb; intros T; vm_compute in T; try discriminate T. reflexivity.
  - intros b i Hb. each Hb; intros T; vm_compute in T; try discriminate T; clear T; intros Hi; each_index Hi; valid_field.
Qed.

Lemma example_weak : weak_chain example_blocks example_live example_memory 64 [4200].
Proof.
  assert (W : weak_array example_blocks example_live example_memory 4200).
  { split; [vm_compute; tauto|]. split; [reflexivity|]. split; [reflexivity|]. intros i Hi _. assert (Hi' : 0 <= i < 2) by (change (wosize example_memory 4200) with 2 in Hi; lia).
    each_index Hi'; valid_field. }
  split; [now left|]. split; [reflexivity|]. split; [discriminate|]. split; [exact W|]. split; [now right | reflexivity].
Qed.

Ltac walk_one := match goal with |- walk ?m ?h ?l (?b :: ?bs) =>
  let x := eval vm_compute in h in change (walk m x l (Val_hp x :: bs)); apply walk_block; [discriminate|] end.

Lemma example_idle : idle example_blocks example_live example_gc.
Proof.
  split; [split|..]; cbn [memory example_gc gray_vals heap_is_pure markhp finalisable]; auto.
  - exact example_heap.
  - exact example_live_wf.
  - change example_blocks with (example_blocks ++ []). constructor; [reflexivity | | constructor].
    change (walk example_memory 4096 4264 example_blocks). unfold example_blocks. repeat walk_one. constructor.
  - reflexivity.
  - intros b Hb. each Hb; (split; [discriminate|]); intros (i & [Hi _] & E); unfold Bsize_wsize in E; change sizeof_value with 8 in E; change caml_weak_list_head with 64 in E; lia.
  - eexists. exact example_weak.
  - intros b Hb C. each Hb; discriminate C.
  - constructor.
  - exists []. split; [now left|]. intros _ b Hb C. each Hb; discriminate C.
  - constructor; [|constructor]. split; [split; reflexivity|]. split; [vm_compute; tauto | discriminate].
  - intros [H|H]; discriminate H.
  - intros b i Hb Hi. each Hb; each_index Hi; reflexivity.
  - intros b Hb. each Hb; first [left; reflexivity | right; reflexivity].
Qed.

Lemma example_roots_good : roots_good example_live example_memory (caml_do_roots example_roots example_gc).
Proof. intros v Hv. each Hv; valid_field. Qed.

Section Theorems.
Context {A : Arch} {Env : Heap_env}.
Variable B : list Z.
Variable L : Z -> Prop.
Notation start r s := (caml_do_roots r s, start_cycle r s).

(** C4. Whatever the program does while a cycle marks: if it only stores with
    [caml_modify] into blocks it reaches, values it has, and only moves to its roots
    values it has, then between any marking slices, overflows of the gray stack
    included, every block it reaches when marking ends is black, so that sweeping
    does not free it. *)
Theorem marking_safe r s rs' s' x : idle B L s -> roots_good L (memory s) (caml_do_roots r s) ->
  steps L (start r s) (rs', s') -> caml_gc_phase s' = Phase_sweep -> heap_reach (memory s') rs' x -> color (memory s') x = Caml_black.
Proof.
  intros I G H Ph R. destruct (ci_steps B L _ _ H (ci_start B L r s I G)) as [_ _ _ [P|[_ N]] _ Sf]; [cbn [snd] in P; rewrite Ph in P; discriminate P|].
  destruct (Sf x R) as [E|E]; [exact E|]. destruct (no_gray_no_guard B _ x N E).
Qed.

(** C6. Marking ends, and not only step by step: from any point of a cycle,
    whatever the gray stack can hold and however often its overflows make the heap
    be scanned again, [caml_finish_major_cycle] reaches the sweeping phase, in a
    number of slices and turns that only depends on the state; then no block is
    gray and every block that the program reaches is black. *)
Theorem marking_ends r s rs s1 : idle B L s -> roots_good L (memory s) (caml_do_roots r s) -> steps L (start r s) (rs, s1) ->
  caml_gc_phase s1 = Phase_mark -> exists n s',
    (forall slices fuel, (n <= slices)%nat -> (n <= fuel)%nat -> finish_mark slices fuel s1 = Ok s') /\
    caml_gc_phase s' = Phase_sweep /\ no_gray B (memory s') /\ forall x, heap_reach (memory s1) rs x -> color (memory s') x = Caml_black.
Proof.
  intros I G H Ph. pose proof (ci_steps B L _ _ H (ci_start B L r s I G)) as C. cbn [fst snd] in C.
  destruct (rank_exists B L _ (ci_inv B L _ _ C)) as [t R]. destruct (finish_ends B L t _ R (ci_inv B L _ _ C) (ci_subphase B L _ _ C) Ph) as (n & s' & E & M & Ps & N).
  exists n, s'. split; [exact E|]. split; [exact Ps|]. split; [exact N|]. intros x Rx. exact (finish_black B L rs s1 s' x C M N Rx).
Qed.

(** C5. Marking is exact: when the program does not run, a cycle that starts with
    nothing marked blackens all the blocks reachable from the roots in the heap as
    it was, and apart from them only blocks that finalised values reach; nothing
    is gray at the end. *)
Theorem marking_exact r s : idle B L s -> roots_good L (memory s) (caml_do_roots r s) ->
  exists n s', (forall slices fuel, (n <= slices)%nat -> (n <= fuel)%nat -> finish_mark slices fuel (start_cycle r s) = Ok s') /\
    no_gray B (memory s') /\ forall x, In x B ->
      (heap_reach (memory s) (caml_do_roots r s) x -> color (memory s') x = Caml_black) /\
      (color (memory s') x = Caml_black -> heap_reach (memory s) (caml_do_roots r s ++ map val (finalisable s)) x).
Proof.
  intros I G. pose proof (ci_start B L r s I G) as C. pose proof (ci_inv B L _ _ C) as I1. cbn [fst snd] in I1.
  destruct (rank_exists B L _ I1) as [t R]. destruct (finish_ends B L t _ R I1 (ci_subphase B L _ _ C) eq_refl) as (n & s' & E & M & Ps & N).
  exists n, s'. split; [exact E|]. split; [exact N|]. exact (finish_exact B L r s n s' I G (E n n (le_n _) (le_n _)) M N).
Qed.

(** The invariant of the marker: in any state that satisfies it (gray blocks are
    on the gray stack, or ahead of the scan of the heap, or the heap is not pure;
    the weak list is well formed; fields point to allocated blocks) a turn of the
    loop of [mark_slice] is possible, keeps it, only darkens blocks and keeps every
    block that is black, gray, or white and reached from a gray one through white
    ones in one of these cases; marking only ends when nothing is gray. *)
Theorem mark_turn_invariant s work : inv B L s -> subphase_ok s ->
  exists s' w, mark_turn s work = Ok (s', w) /\ inv B L s' /\ subphase_ok s' /\ darker B (memory s) (memory s') /\
    (forall x, L x -> safe B (memory s) none x -> safe B (memory s') none x) /\
    (caml_gc_phase s' <> caml_gc_phase s -> caml_gc_phase s' = Phase_sweep /\ no_gray B (memory s')).
Proof.
  intros I Sp. destruct (mark_turn_spec B L s work I Sp) as (s' & w & E & M & Sp' & P). exists s', w. split; auto. split; [apply M|]. split; auto.
  split; [apply M|]. split; [apply M|]. intros N. destruct P as [P|(P & G & _)]; [contradiction | auto].
Qed.

(** C7. Marking and the write barrier keep the heap well typed: through a cycle no
    block changes tag or size, no infix header moves, and every field of an
    allocated block, and every root, that points into the heap points to an
    allocated block or to an infix header inside a closure. *)
Theorem cycle_keeps_typing r s rs' s' : idle B L s -> roots_good L (memory s) (caml_do_roots r s) -> steps L (start r s) (rs', s') ->
  live_wf B L (memory s') /\ same_shape B (memory s) (memory s') /\ roots_good L (memory s') rs'.
Proof.
  intros I G H. pose proof (ci_start B L r s I G) as C. pose proof (ci_steps B L _ _ H C) as C'. split; [apply C'|]. split; [|apply C'].
  eapply same_shape_trans; [exact (start_shape B L r s I G) | exact (steps_shape B L _ _ H C)].
Qed.

(** Cleaning a weak array erases a pointer to a closure that has an infix header,
    even when the closure is black: the colour it tests is that of the infix header,
    which is always white. *)
Theorem weak_infix_erased s c i : let x := Op_val (memory s) c i in
  x <> caml_weak_none -> pointer x -> good L (memory s) x -> tag (memory s) x = Infix_tag ->
  weak_field c i s = Ok (set_field c i caml_weak_none s).
Proof.
  intros x N [P1 P2] [_ G] T. destruct (G T) as (_ & _ & C). unfold weak_field. fold x. cbn [weak_again]. apply Z.eqb_neq in N. rewrite N, P1, P2. cbn [negb andb].
  pose proof (Is_white_color (memory s) x) as W. rewrite C in W. rewrite W. fold (tag (memory s) x). now rewrite T.
Qed.
End Theorems.

(** ** On the example *)

(** The program stores the infix pointer in the first field of the tuple, keeps the
    tuple as its only root, and marking is run to its end. *)
Definition result_or (s : gc) (r : res gc) : gc := match r with Ok s' => s' | _ => s end.
Definition example_start : gc := start_cycle example_roots example_gc.
Definition example_stored : gc := caml_modify (4104 + Bsize_wsize 0) 4168 example_start.
Definition example_end : gc := result_or example_stored (mark_slice 100 LONG_MAX example_stored).

Lemma result_or_ok s r : match r with Ok _ => true | _ => false end = true -> r = Ok (result_or s r).
Proof. destruct r; [reflexivity | discriminate ..]. Qed.

Lemma example_field m : Op_val m 4104 1 = 4168 -> tag m 4104 = 0 -> wosize m 4104 = 2 -> base m 4168 = 4144 -> edge m 4104 4144.
Proof. intros F T W E. split; [rewrite T; reflexivity|]. exists 1. rewrite W, F. split; [lia|]. split; [split; reflexivity | auto]. Qed.

Lemma example_reach_root m rs : In 4104 rs -> tag m 4104 = 0 -> heap_reach m rs 4104.
Proof. intros H T. exists 4104. split; auto. split; [split; reflexivity|]. unfold base. rewrite T. constructor. Qed.
Lemma example_reach_closure m rs : In 4104 rs -> Op_val m 4104 1 = 4168 -> tag m 4104 = 0 -> wosize m 4104 = 2 -> base m 4168 = 4144 -> heap_reach m rs 4144.
Proof.
  intros H F T W E. destruct (example_reach_root m rs H T) as (r & Hr & P & R). exists r. split; auto. split; auto.
  econstructor; [exact R | now apply example_field].
Qed.

Lemma mark_to_end rs s : caml_gc_phase s = Phase_mark -> match mark_slice 100 LONG_MAX s with Ok _ => true | _ => false end = true ->
  step example_live (rs, s) (rs, result_or s (mark_slice 100 LONG_MAX s)).
Proof. intros Ph E. apply step_mark with 100%nat LONG_MAX; auto. now apply result_or_ok. Qed.

Lemma example_steps : steps example_live (caml_do_roots example_roots example_gc, example_start) ([4104], example_end).
Proof.
  set (rs := caml_do_roots example_roots example_gc). assert (Hr : In 4104 rs) by (vm_compute; tauto).
  assert (S1 : step example_live (rs, example_start) (rs, example_stored)).
  { apply step_modify; [by_vm | apply example_reach_root; [exact Hr | by_vm] | by_vm | vm_compute; discriminate | |].
    - split; [discriminate | by_vm].
    - intros _. split; [split; [vm_compute; tauto|]|].
      + intros _. split; [by_vm|]. split; [exists 2; split; [split; [discriminate | by_vm] | by_vm] | by_vm].
      + assert (Eb : base (memory example_start) 4168 = 4144) by by_vm. rewrite Eb. apply example_reach_closure; [exact Hr | by_vm ..]. }
  assert (S2 : step example_live (rs, example_stored) ([4104], example_stored)).
  { apply step_roots; [by_vm|]. intros v [<-|[]] _. assert (Eb : base (memory example_stored) 4104 = 4104) by by_vm.
    split; [split; [vm_compute; tauto | vm_compute; discriminate]|]. rewrite Eb. apply example_reach_root; [exact Hr | by_vm]. }
  assert (S3 : step example_live ([4104], example_stored) ([4104], example_end)).
  { assert (E : match mark_slice 100 LONG_MAX example_stored with Ok _ => true | _ => false end = true) by by_vm.
    assert (Ph : caml_gc_phase example_stored = Phase_mark) by by_vm. exact (mark_to_end [4104] example_stored Ph E). }
  eapply steps_step; [eapply steps_step; [eapply steps_step; [apply steps_refl | exact S1] | exact S2] | exact S3].
Qed.

Lemma marking_safe_witness : steps example_live (caml_do_roots example_roots example_gc, example_start) ([4104], example_end) /\
  color (memory example_end) 4144 = Caml_black.
Proof.
  split; [exact example_steps|]. apply (marking_safe example_blocks example_live example_roots example_gc [4104] example_end 4144 example_idle example_roots_good example_steps).
  - by_vm.
  - apply example_reach_closure; [now left | by_vm ..].
Defined.

Lemma marking_ends_witness : exists n s', forall slices fuel, (n <= slices)%nat -> (n <= fuel)%nat -> finish_mark slices fuel example_start = Ok s'.
Proof.
  destruct (marking_ends example_blocks example_live example_roots example_gc _ _ example_idle example_roots_good (steps_refl _ _) eq_refl) as (n & s' & H & _).
  exists n, s'. exact H.
Defined.

Lemma marking_exact_witness : exists n s', finish_mark n n example_start = Ok s' /\ color (memory s') 4224 = Caml_black.
Proof.
  destruct (marking_exact example_blocks example_live example_roots example_gc example_idle example_roots_good) as (n & s' & H & _ & E).
  exists n, s'. split; [apply H; auto|]. apply E; [vm_compute; tauto|]. exists 4104. split; [vm_compute; tauto|]. split; [split; reflexivity|].
  assert (E1 : base example_memory 4104 = 4104) by by_vm. assert (E2 : edge example_memory 4104 4128) by (split; [by_vm|]; exists 0; split; [split; [discriminate | by_vm] | split; [split; by_vm | by_vm]]).
  assert (E3 : edge example_memory 4128 4224) by (split; [by_vm|]; exists 0; split; [split; [discriminate | by_vm] | split; [split; by_vm | by_vm]]).
  change (memory example_gc) with example_memory. rewrite E1. econstructor; [econstructor; [constructor | exact E2] | exact E3].
Defined.

Lemma example_cycle : inv example_blocks example_live example_start /\ subphase_ok example_start.
Proof.
  pose proof (ci_start example_blocks example_live example_roots example_gc example_idle example_roots_good) as C.
  split; [exact (ci_inv _ _ _ _ C) | exact (ci_subphase _ _ _ _ C)].
Qed.
Lemma mark_turn_invariant_witness : exists s' w, mark_turn example_start LONG_MAX = Ok (s', w) /\ inv example_blocks example_live s'.
Proof.
  destruct (mark_turn_invariant example_blocks example_live example_start LONG_MAX (proj1 example_cycle) (proj2 example_cycle)) as (s' & w & E & I & _).
  exists s', w. split; assumption.
Defined.

Lemma cycle_keeps_typing_witness : live_wf example_blocks example_live (memory example_end) /\ roots_good example_live (memory example_end) [4104].
Proof.
  destruct (cycle_keeps_typing example_blocks example_live example_roots example_gc _ _ example_idle example_roots_good example_steps) as (H1 & _ & H2).
  split; assumption.
Defined.

(** The closure is black, the weak array points to its second function. *)
Definition example_infix : gc := set_field 4200 1 4168 example_end.
Lemma weak_infix_erased_witness : color (memory example_infix) (base (memory example_infix) 4168) = Caml_black /\
  weak_field 4200 1 example_infix = Ok (set_field 4200 1 caml_weak_none example_infix).
Proof.
  split; [by_vm|]. apply (weak_infix_erased example_live example_infix 4200 1); [vm_compute; discriminate | split; by_vm | | by_vm].
  split; [vm_compute; tauto|]. intros _. split; [by_vm|]. split; [exists 2; split; [split; [discriminate | by_vm] | by_vm] | by_vm].
Defined.
