(* ===== verification/Freelist.v ===== *)
(** Freelist: the list of free blocks, src/inline-more/byterun/freelist.c, with both
    allocation policies, and the sweeping phase of major_gc.c that feeds it.

    The list goes through the first fields of the free blocks, from the first
    field of a sentinel, and ends with 0. *)
From Stdlib Require Import ZArith Lia List Bool.
From S2P Require Import Prelude Mlvalues Gc.
Import ListNotations.
Local Open Scope Z_scope.

Definition FLP_MAX : Z := 1000.
Definition Policy_next_fit : Z := 0.
Definition Policy_first_fit : Z := 1.

(** The static variables of freelist.c; [flp] is the array from 0 to [flp_size]. *)
Record free_list := Free_list {
  fl_prev : Z; fl_last : Z; caml_fl_merge : Z; caml_fl_cur_size : Z;
  flp : list Z; beyond : Z; last_fragment : Z; policy : Z }.
Definition flp_size (f : free_list) : Z := Z.of_nat (length (flp f)).

Definition set_prev p f := Free_list p (fl_last f) (caml_fl_merge f) (caml_fl_cur_size f) (flp f) (beyond f) (last_fragment f) (policy f).
Definition set_last p f := Free_list (fl_prev f) p (caml_fl_merge f) (caml_fl_cur_size f) (flp f) (beyond f) (last_fragment f) (policy f).
Definition set_merge p f := Free_list (fl_prev f) (fl_last f) p (caml_fl_cur_size f) (flp f) (beyond f) (last_fragment f) (policy f).
Definition set_size n f := Free_list (fl_prev f) (fl_last f) (caml_fl_merge f) n (flp f) (beyond f) (last_fragment f) (policy f).
Definition set_flp l b f := Free_list (fl_prev f) (fl_last f) (caml_fl_merge f) (caml_fl_cur_size f) l b (last_fragment f) (policy f).
Definition set_fragment p f := Free_list (fl_prev f) (fl_last f) (caml_fl_merge f) (caml_fl_cur_size f) (flp f) (beyond f) p (policy f).
Definition set_policy p f := Free_list (fl_prev f) (fl_last f) (caml_fl_merge f) (caml_fl_cur_size f) (flp f) (beyond f) (last_fragment f) p.

(** The address of the sentinel's [first_bp]. *)
Class Sentinel := Fl_head : Z.

Section Freelist.
Context {A : Arch} {Sn : Sentinel}.

Definition Next (m : mem) (b : Z) : Z := m b.
Definition Wosize_bp (m : mem) (b : Z) : Z := Wosize_hd (Hd_op m b).
Definition Whsize_bp (m : mem) (b : Z) : Z := Whsize_hd (Hd_op m b).
Definition Hp_bp (b : Z) : Z := b - sizeof_value.
(** [caml_fl_cur_size] is unsigned. *)
Definition add_size (n : Z) (f : free_list) : free_list := set_size (wrap WORD (caml_fl_cur_size f + n)) f.

(** ** Allocation *)

(** What happens to the table when [cur], which follows [prev], leaves the list. *)
Definition remove_flp (flpi prev cur : Z) (f : free_list) : free_list :=
  if (flpi + 1 <? flp_size f) && (nth (Z.to_nat (flpi + 1)) (flp f) 0 =? cur) then
    set_flp (firstn (Z.to_nat (flpi + 1)) (flp f) ++ prev :: skipn (Z.to_nat (flpi + 2)) (flp f)) (beyond f) f
  else if flpi =? flp_size f - 1 then
    set_flp (removelast (flp f)) (if prev =? Fl_head then 0 else prev) f
  else f.

(** The pointer returned, the memory and the free list. *)
Definition allocate_block (wh_sz flpi prev cur : Z) (m : mem) (f : free_list) : Z * mem * free_list :=
  let h := Hd_op m cur in
  let '(m, f) :=
    if Wosize_hd h <? wh_sz + 1 then
      let f := add_size (- Whsize_hd h) f in
      let m := m.[prev <- Next m cur] in
      let f := if caml_fl_merge f =? cur then set_merge prev f else f in
      let m := m.[cur - sizeof_value <- Make_header 0 0 Caml_white] in
      (m, if policy f =? Policy_first_fit then remove_flp flpi prev cur f else f)
    else
      (m.[cur - sizeof_value <- Make_header (Wosize_hd h - wh_sz) 0 Caml_blue], add_size (- wh_sz) f) in
  let f := if policy f =? Policy_next_fit then set_prev prev f else f in
  (cur + Bosize_hd h - Bsize_wsize wh_sz, m, f).

(** The loops over the list: the block before the first that is large enough, if
    there is one before the end [stop], and else the last block. *)
Fixpoint find_fit (fuel : nat) (m : mem) (wo_sz prev : Z) : res (option Z * Z) :=
  match fuel with
  | O => Stuck
  | S fuel =>
      let cur := Next m prev in
      if cur =? 0 then Ok (None, prev)
      else if wo_sz <=? Wosize_bp m cur then Ok (Some prev, prev)
      else find_fit fuel m wo_sz cur
  end.
Fixpoint find_fit_until (fuel : nat) (m : mem) (wo_sz stop prev : Z) : res (option Z) :=
  if prev =? stop then Ok None
  else
    match fuel with
    | O => Stuck
    | S fuel =>
        let cur := Next m prev in
        if cur =? 0 then Stuck
        else if wo_sz <=? Wosize_bp m cur then Ok (Some prev)
        else find_fit_until fuel m wo_sz stop cur
    end.

Definition allocate_next_fit (fuel : nat) (wo_sz : Z) (m : mem) (f : free_list) : res (Z * mem * free_list) :=
  let! (found, last) := find_fit fuel m wo_sz (fl_prev f) in
  match found with
  | Some prev => Ok (allocate_block (Whsize_wosize wo_sz) 0 prev (Next m prev) m f)
  | None =>
      let f := set_last last f in
      let! found := find_fit_until fuel m wo_sz (fl_prev f) Fl_head in
      match found with
      | Some prev => Ok (allocate_block (Whsize_wosize wo_sz) 0 prev (Next m prev) m f)
      | None => Ok (0, m, f)
      end
  end.

(** ** First fit *)

(** The first entry of the table whose next block is large enough. *)
Fixpoint search_flp (m : mem) (wo_sz i : Z) (l : list Z) : option Z :=
  match l with
  | [] => None
  | p :: l => if wo_sz <=? Wosize_bp m (Next m p) then Some i else search_flp m wo_sz (i + 1) l
  end.

(** [while (flp_size < FLP_MAX)]: the table is extended up to a large enough block,
    the end of the list, or FLP_MAX entries. *)
Inductive extension := Extended (f : free_list) | End_of_list (f : free_list) | Table_full (f : free_list) (cur : Z).
Fixpoint extend_flp (fuel : nat) (m : mem) (wo_sz prev prevsz cur : Z) (f : free_list) : res extension :=
  if flp_size f <? FLP_MAX then
    match fuel with
    | O => Stuck
    | S fuel =>
        let cur := Next m prev in
        if cur =? 0 then Ok (End_of_list (set_flp (flp f) (if prev =? Fl_head then 0 else prev) (set_last prev f)))
        else
          let sz := Wosize_bp m cur in
          if prevsz <? sz then
            let f := set_flp (flp f ++ [prev]) (beyond f) f in
            if wo_sz <=? sz then Ok (Extended (set_flp (flp f) cur f))
            else extend_flp fuel m wo_sz cur sz cur f
          else extend_flp fuel m wo_sz cur prevsz cur f
    end
  else Ok (Table_full f cur).

(** The search when the table is full. *)
Fixpoint slow_search (fuel : nat) (m : mem) (wo_sz prevsz prev : Z) (f : free_list) : res (option Z * free_list) :=
  match fuel with
  | O => Stuck
  | S fuel =>
      let cur := Next m prev in
      if cur =? 0 then Ok (None, set_last prev f)
      else
        let sz := Wosize_bp m cur in
        if sz <? prevsz then slow_search fuel m wo_sz prevsz cur (set_flp (flp f) cur f)
        else if wo_sz <=? sz then Ok (Some prev, f)
        else slow_search fuel m wo_sz prevsz cur f
  end.

(** [buf] is an array of FLP_MAX entries in the stack; writing past it is undefined. *)
Fixpoint collect_flp (fuel : nat) (m : mem) (prev stop prevsz oldsz : Z) (buf : list Z) : res (list Z) :=
  if prev =? stop then Ok buf
  else
    match fuel with
    | O => Stuck
    | S fuel =>
        let cur := Next m prev in
        let sz := Wosize_bp m cur in
        if cur =? 0 then Stuck
        else if prevsz <? sz then
          if Z.of_nat (length buf) <? FLP_MAX then
            let buf := buf ++ [prev] in
            if oldsz <=? sz then Ok buf else collect_flp fuel m cur stop sz oldsz buf
          else Stuck
        else collect_flp fuel m cur stop prevsz oldsz buf
    end.

(** From [update_flp]: the block at [i], of size [oldsz], was removed or reduced. *)
Definition update_flp (fuel : nat) (i oldsz : Z) (m : mem) (f : free_list) : res free_list :=
  if i <? flp_size f then
    let entry := nth (Z.to_nat i) (flp f) 0 in
    let prevsz := if 0 <? i then Wosize_bp m (Next m (nth (Z.to_nat (i - 1)) (flp f) 0)) else 0 in
    if i =? flp_size f - 1 then
      if Wosize_bp m (Next m entry) <=? prevsz then Ok (set_flp (removelast (flp f)) (Next m entry) f)
      else Ok (set_flp (flp f) 0 f)
    else
      let! buf := collect_flp fuel m entry (nth (Z.to_nat (i + 1)) (flp f) 0) prevsz oldsz [] in
      let l := firstn (Z.to_nat i) (flp f) ++ buf ++ skipn (Z.to_nat (i + 1)) (flp f) in
      if Z.of_nat (length l) <=? FLP_MAX then Ok (set_flp l (beyond f) f)
      else
        let l := firstn (Z.to_nat FLP_MAX) l in
        Ok (set_flp (removelast l) (Next m (last l 0)) f)
  else Ok f.

Definition allocate_first_fit (fuel : nat) (wo_sz : Z) (m : mem) (f : free_list) : res (Z * mem * free_list) :=
  let wh_sz := Whsize_wosize wo_sz in
  match search_flp m wo_sz 0 (flp f) with
  | Some i =>
      let p := nth (Z.to_nat i) (flp f) 0 in
      let sz := Wosize_bp m (Next m p) in
      let '(result, m, f) := allocate_block wh_sz i p (Next m p) m f in
      let! f := update_flp fuel i sz m f in
      Ok (result, m, f)
  | None =>
      let top := Next m (last (flp f) 0) in
      let prev := if flp_size f =? 0 then Fl_head else if negb (beyond f =? 0) then beyond f else top in
      let prevsz := if flp_size f =? 0 then 0 else Wosize_bp m top in
      let! e := extend_flp fuel m wo_sz prev prevsz 0 f in
      match e with
      | End_of_list f => Ok (0, m, f)
      | Extended f =>
          let i := flp_size f - 1 in
          let p := last (flp f) 0 in
          let sz := Wosize_bp m (Next m p) in
          let '(result, m, f) := allocate_block wh_sz i p (Next m p) m f in
          let! f := update_flp fuel i sz m f in
          Ok (result, m, f)
      | Table_full f cur =>
          let f := set_flp (flp f) cur f in
          let prev := if negb (beyond f =? 0) then beyond f else last (flp f) 0 in
          let prevsz := Wosize_bp m (Next m (nth (Z.to_nat (FLP_MAX - 1)) (flp f) 0)) in
          let! (found, f) := slow_search fuel m wo_sz prevsz prev f in
          match found with
          | Some prev => Ok (allocate_block wh_sz (flp_size f) prev (Next m prev) m f)
          | None => Ok (0, m, f)
          end
      end
  end.

Definition caml_fl_allocate (fuel : nat) (wo_sz : Z) (m : mem) (f : free_list) : res (Z * mem * free_list) :=
  if policy f =? Policy_next_fit then allocate_next_fit fuel wo_sz m f
  else if policy f =? Policy_first_fit then allocate_first_fit fuel wo_sz m f
  else Ok (0, m, f).

(** ** Freeing *)

Definition caml_fl_init_merge (f : free_list) : free_list := set_merge Fl_head (set_fragment 0 f).

(** The last entries of the table, from the end, while their next block is at or
    after [changed]. *)
Fixpoint truncate_entries (m : mem) (changed : Z) (l : list Z) : list Z :=
  match l with
  | [] => []
  | p :: l => if changed <=? Next m p then truncate_entries m changed l else p :: l
  end.
Definition truncate_flp (changed : Z) (m : mem) (f : free_list) : free_list :=
  if changed =? Fl_head then set_flp [] 0 f
  else set_flp (rev (truncate_entries m changed (rev (flp f)))) (if changed <=? beyond f then 0 else beyond f) f.

Definition caml_fl_reset (m : mem) (f : free_list) : mem * free_list :=
  let m := m.[Fl_head <- 0] in
  let f := if policy f =? Policy_next_fit then set_prev Fl_head f else if policy f =? Policy_first_fit then truncate_flp Fl_head m f else f in
  (m, caml_fl_init_merge (set_size 0 f)).

(** The three merges of [caml_fl_merge_block]: with the fragment before the block,
    with the free block after it, with the free block before it. *)
Definition merge_fragment (bp hd : Z) (m : mem) (f : free_list) : Z * Z * mem * free_list :=
  if (last_fragment f =? Hp_bp bp) && (Whsize_bp m bp <=? Max_wosize) then
    let hd := Make_header (Whsize_bp m bp) 0 Caml_white in
    let bp := last_fragment f in
    (bp, hd, m.[bp - sizeof_value <- hd], add_size (Whsize_wosize 0) f)
  else (bp, hd, m, f).
Definition merge_next (prev cur bp hd : Z) (m : mem) (f : free_list) : Z * Z * mem * free_list :=
  if (bp + Bosize_hd hd =? Hp_bp cur) && (Wosize_hd hd + Whsize_bp m cur <=? Max_wosize) then
    let next_cur := Next m cur in
    let cur_whsz := Whsize_bp m cur in
    let m := m.[prev <- next_cur] in
    let f := if (policy f =? Policy_next_fit) && (fl_prev f =? cur) then set_prev prev f else f in
    let hd := Make_header (Wosize_hd hd + cur_whsz) 0 Caml_blue in
    (next_cur, hd, m.[bp - sizeof_value <- hd], f)
  else (cur, hd, m, f).
Definition merge_prev (prev cur bp hd : Z) (m : mem) (f : free_list) : mem * free_list :=
  let prev_wosz := Wosize_bp m prev in
  if (prev + Bsize_wsize prev_wosz =? Hp_bp bp) && (prev_wosz + Whsize_hd hd <? Max_wosize) then
    (m.[prev - sizeof_value <- Make_header (prev_wosz + Whsize_hd hd) 0 Caml_blue], f)
  else if negb (Wosize_hd hd =? 0) then
    (m.[bp - sizeof_value <- Bluehd_hd hd].[bp <- cur].[prev <- bp], set_merge bp f)
  else (m, add_size (- Whsize_wosize 0) (set_fragment bp f)).

Definition caml_fl_merge_block (bp : Z) (m : mem) (f : free_list) : Z * mem * free_list :=
  let hd := Hd_op m bp in
  let f := add_size (Whsize_hd hd) f in
  let prev := caml_fl_merge f in
  let cur := Next m prev in
  let f := if policy f =? Policy_first_fit then truncate_flp prev m f else f in
  let '(bp, hd, m, f) := merge_fragment bp hd m f in
  let '(cur, hd, m, f) := merge_next prev cur bp hd m f in
  let '(m, f) := merge_prev prev cur bp hd m f in
  (bp + Bosize_hd hd, m, f).

(** [fl_last] is valid when this is called. *)
Fixpoint find_place (fuel : nat) (m : mem) (bp prev : Z) : res Z :=
  match fuel with
  | O => Stuck
  | S fuel =>
      let cur := Next m prev in
      if negb (cur =? 0) && (cur <? bp) then find_place fuel m bp cur else Ok prev
  end.
Definition caml_fl_add_blocks (fuel : nat) (sweep_hp bp : Z) (m : mem) (f : free_list) : res (mem * free_list) :=
  let f := add_size (Whsize_bp m bp) f in
  if fl_last f <? bp then
    let m := m.[fl_last f <- bp] in
    let f := if (fl_last f =? caml_fl_merge f) && (bp <? sweep_hp) then set_merge (Op_val m bp 1) f else f in
    let f := if (policy f =? Policy_first_fit) && (flp_size f <? FLP_MAX) then set_flp (flp f ++ [fl_last f]) (beyond f) f else f in
    Ok (m, f)
  else
    let! prev := find_place fuel m bp Fl_head in
    let cur := Next m prev in
    let m := m.[Op_val m bp 1 <- cur].[prev <- bp] in
    let f := if (prev =? caml_fl_merge f) && (bp <? sweep_hp) then set_merge (Op_val m bp 1) f else f in
    Ok (m, if policy f =? Policy_first_fit then truncate_flp bp m f else f).

(** [size] words from [p]; [fuel] is the number of blocks. *)
Fixpoint caml_make_free_blocks (fuel : nat) (p size : Z) (do_merge : bool) (m : mem) (f : free_list) : res (mem * free_list) :=
  if 0 <? size then
    match fuel with
    | O => Stuck
    | S fuel =>
        let sz := if Whsize_wosize Max_wosize <? size then Whsize_wosize Max_wosize else size in
        let m := m.[p <- Make_header (Wosize_whsize sz) 0 Caml_white] in
        let '(_, m, f) := if do_merge then caml_fl_merge_block (Val_hp p) m f else (0, m, f) in
        caml_make_free_blocks fuel (p + Bsize_wsize sz) (size - sz) do_merge m f
    end
  else Ok (m, f).

Definition caml_set_allocation_policy (p : Z) (f : free_list) : free_list :=
  set_policy p (if p =? Policy_next_fit then set_prev Fl_head f else if p =? Policy_first_fit then set_flp [] 0 f else f).
End Freelist.

(** ** Sweeping *)

(** The collector, the free list and the custom blocks whose finalisation function
    has been called, the last first. *)
Record sweeper := Sweeper { collector : gc; fl : free_list; finalized : list Z }.

Section Sweep.
Context {A : Arch} {Env : Heap_env} {Sn : Sentinel}.
(** Whether these custom operations have a finalisation function. *)
Variable has_finalize : Z -> bool.

Definition set_sweep_hp (hp : Z) (s : gc) : gc := set_phase (caml_gc_phase s) hp s.

Definition sweep_turn (s : sweeper) (work : Z) : sweeper * Z :=
  let g := collector s in
  if caml_gc_sweep_hp g <? limit g then
    let hp := caml_gc_sweep_hp g in
    let hd := memory g hp in
    let work := work - Whsize_hd hd in
    let g := set_sweep_hp (hp + Bhsize_hd hd) g in
    if Color_hd hd =? Caml_white then
      let calls := if (Tag_hd hd =? Custom_tag) && has_finalize (Op_val (memory g) (Val_hp hp) 0) then Val_hp hp :: finalized s else finalized s in
      let '(next, m, f) := caml_fl_merge_block (Val_hp hp) (memory g) (fl s) in
      (Sweeper (set_sweep_hp next (set_memory m g)) f calls, work)
    else if Color_hd hd =? Caml_blue then (Sweeper g (set_merge (Val_hp hp) (fl s)) (finalized s), work)
    else (Sweeper (set_memory ((memory g).[hp <- Whitehd_hd hd]) g) (fl s) (finalized s), work)
  else
    let c := Chunk_next (chunk g) in
    if c =? 0 then (Sweeper (set_phase Phase_idle (caml_gc_sweep_hp g) (set_scan (markhp g) c (limit g) g)) (fl s) (finalized s), 0)
    else (Sweeper (set_sweep_hp c (set_scan (markhp g) c (c + Chunk_size c) g)) (fl s) (finalized s), work).

Fixpoint sweep_slice (fuel : nat) (work : Z) (s : sweeper) : res sweeper :=
  if 0 <? work then
    match fuel with O => Stuck | S fuel => let '(s, work) := sweep_turn s work in sweep_slice fuel work s end
  else Ok s.

Fixpoint finish_sweep (slices fuel : nat) (s : sweeper) : res sweeper :=
  if caml_gc_phase (collector s) =? Phase_sweep then
    match slices with O => Stuck | S slices => let! s := sweep_slice fuel LONG_MAX s in finish_sweep slices fuel s end
  else Ok s.

(** The call of [caml_fl_init_merge] at the end of [mark_slice] is made here, after
    the last slice: marking does not use the free list. *)
Definition caml_finish_major_cycle (fuel : nat) (r : roots) (s : sweeper) : res sweeper :=
  let g := if caml_gc_phase (collector s) =? Phase_idle then start_cycle r (collector s) else collector s in
  let! g' := finish_mark fuel fuel g in
  let f := if caml_gc_phase g =? Phase_mark then caml_fl_init_merge (fl s) else fl s in
  finish_sweep fuel fuel (Sweeper g' f (finalized s)).
End Sweep.
