(* ===== verification/FlTile.v ===== *)
(** FlTile: the parts of the heap as sequences of adjacent blocks, the list of free
    blocks as a path through first fields, and a block that is being freed. *)
From Stdlib Require Import ZArith Lia List Bool.
From S2P Require Import Prelude Mlvalues ExternOutput InterpState MarshalBytes MarshalTrail MarshalDecode Gc GcGraph Freelist.
Import ListNotations.
Local Open Scope Z_scope.

Section Tile.
Context {A : Arch}.

(** The size of the fields of a block, in bytes. *)
Definition bsize (m : mem) (b : Z) : Z := Bsize_wsize (wosize m b).

Lemma bsize_nonneg m b : header_ok (Hd_op m b) -> 0 <= bsize m b.
Proof. intros H. unfold bsize, Bsize_wsize, wosize. pose proof (Wosize_hd_pos _ H). pose proof sizeof_value_pos. nia. Qed.
Lemma Bhsize_block m b : Bhsize_hd (Hd_op m b) = bsize m b + sizeof_value.
Proof. unfold bsize, Bhsize_hd, Whsize_hd, Whsize_wosize, Bsize_wsize, wosize. lia. Qed.

(** ** Adjacent blocks *)

(** The blocks [bs] fill the addresses from [hp] to [l]. *)
Fixpoint tile (m : mem) (hp l : Z) (bs : list Z) : Prop :=
  match bs with
  | [] => hp = l
  | b :: bs => b = hp + sizeof_value /\ header_ok (Hd_op m b) /\ tile m (b + bsize m b) l bs
  end.

Lemma tile_app m l1 l2 : forall a c, tile m a c (l1 ++ l2) <-> exists b, tile m a b l1 /\ tile m b c l2.
Proof.
  induction l1 as [|x l1 IH]; intros a c; cbn [app tile].
  - split; [eauto | intros (b & -> & H); exact H].
  - rewrite IH. split; [intros (E & Ho & b & H1 & H2); eauto 8 | intros (b & (E & Ho & H1) & H2); eauto 8].
Qed.

Lemma tile_range m bs : forall a l, tile m a l bs -> a <= l /\ forall b, In b bs -> a + sizeof_value <= b /\ b + bsize m b <= l /\ header_ok (Hd_op m b).
Proof.
  pose proof sizeof_value_pos as Sp. induction bs as [|x bs IH]; intros a l; cbn [tile]; [intros ->; split; [lia | intros b []]|].
  intros (E & Ho & H). destruct (IH _ _ H) as [Le R]. pose proof (bsize_nonneg m x Ho). split; [lia|]. intros b [<-|Hb]; [split; [lia | auto]|].
  destruct (R b Hb) as (? & ? & ?). split; [lia | auto].
Qed.

Lemma tile_ext m m' bs : (forall b, In b bs -> Hd_op m' b = Hd_op m b) -> forall a l, tile m a l bs -> tile m' a l bs.
Proof.
  induction bs as [|x bs IH]; intros E a l; cbn [tile]; auto. intros (H1 & H2 & H3). rewrite E by now left. split; auto. split; auto.
  replace (bsize m' x) with (bsize m x) by (unfold bsize, wosize; now rewrite E by now left). apply IH; auto. intros b Hb. apply E. now right.
Qed.

Lemma tile_nodup m bs : forall a l, tile m a l bs -> NoDup bs.
Proof.
  pose proof sizeof_value_pos as Sp. induction bs as [|x bs IH]; intros a l; cbn [tile]; [constructor|]. intros (E & Ho & H). constructor; [|now apply (IH _ l H)].
  intros Hx. destruct (tile_range m bs _ _ H) as [_ R]. destruct (R x Hx) as (? & _). pose proof (bsize_nonneg m x Ho). lia.
Qed.

(** Two ranges of addresses that do not meet: a block with its header. *)
Definition apart (m : mem) (x y : Z) : Prop := x + bsize m x + sizeof_value <= y \/ y + bsize m y + sizeof_value <= x.

Lemma tile_apart m bs : forall a l, tile m a l bs -> forall x y, In x bs -> In y bs -> x <> y -> apart m x y.
Proof.
  induction bs as [|z bs IH]; intros a l; cbn [tile]; [intros _ x y []|]. intros (E & Ho & H) x y Hx Hy N.
  destruct (tile_range m bs _ _ H) as [_ R]. destruct Hx as [->|Hx], Hy as [->|Hy]; [contradiction | left | right | eapply IH; eauto].
  - destruct (R y Hy). lia.
  - destruct (R x Hx). lia.
Qed.

(** ** Cells *)

(** [a] is the header or a field of [b]. *)
Definition cell (m : mem) (b a : Z) : Prop := a = b - sizeof_value \/ field_of m b a.

Lemma cell_range m b a : header_ok (Hd_op m b) -> cell m b a -> b - sizeof_value <= a < b + bsize m b.
Proof.
  intros Ho. pose proof (bsize_nonneg m b Ho). pose proof sizeof_value_pos. intros [->|(i & Hi & ->)]; [lia|]. unfold bsize, Bsize_wsize in *. nia.
Qed.
Lemma cell_apart m x y a : header_ok (Hd_op m x) -> header_ok (Hd_op m y) -> apart m x y -> cell m x a -> ~ cell m y a.
Proof.
  intros Hx Hy Ap Cx Cy. apply cell_range in Cx; auto. apply cell_range in Cy; auto. destruct Ap; lia.
Qed.
Lemma cell_hd m b : cell m b (b - sizeof_value).
Proof. now left. Qed.
Lemma cell_first m b : 0 < wosize m b -> cell m b b.
Proof. intros H. right. exists 0. split; [lia | unfold Bsize_wsize; lia]. Qed.

(** Nothing is written in the block [b]. *)
Definition untouched (m m' : mem) (b : Z) : Prop := forall a, cell m b a -> m' a = m a.
Lemma untouched_hd m m' b : untouched m m' b -> Hd_op m' b = Hd_op m b.
Proof. intros H. apply H. apply cell_hd. Qed.
Lemma untouched_field m m' b i : untouched m m' b -> 0 <= i < wosize m b -> Op_val m' b i = Op_val m b i.
Proof. intros H Hi. apply H. right. exists i. auto. Qed.
Lemma untouched_trans m1 m2 m3 b : untouched m1 m2 b -> untouched m2 m3 b -> untouched m1 m3 b.
Proof.
  intros H1 H2 a Ca. rewrite H2; [now apply H1|]. destruct Ca as [->|F]; [apply cell_hd | right]. unfold field_of, wosize in *. now rewrite (untouched_hd m1 m2 b H1).
Qed.
Lemma untouched_upd m b a v : ~ cell m b a -> untouched m (m.[a <- v]) b.
Proof. intros H x Cx. apply upd_other. intros ->. contradiction. Qed.

(** ** Paths through first fields *)

Fixpoint links (m : mem) (p : Z) (l : list Z) (q : Z) : Prop :=
  match l with [] => Next m p = q | b :: l => Next m p = b /\ links m b l q end.

Lemma links_app m l1 b l2 q : forall p, links m p (l1 ++ b :: l2) q <-> links m p l1 b /\ links m b l2 q.
Proof. induction l1 as [|x l1 IH]; intros p; cbn [links app]; [tauto | rewrite IH; tauto]. Qed.

Lemma links_ext m m' l q : forall p, (forall x, In x (p :: l) -> m' x = m x) -> links m p l q -> links m' p l q.
Proof.
  induction l as [|b l IH]; intros p E; cbn [links]; unfold Next; rewrite (E p (or_introl eq_refl)); [auto|]. intros [H1 H2]. split; auto. apply IH; auto. intros x Hx. apply E. now right.
Qed.

Lemma last_cons {T} (l : list T) : forall p b, last (b :: l) p = last l b.
Proof. induction l as [|x l IH]; intros p b; [reflexivity|]. change (last (x :: l) p = last (x :: l) b). now rewrite !IH. Qed.
Lemma last_in {T} (l : list T) : forall p, In (last l p) (p :: l).
Proof. induction l as [|x l IH]; intros p; [now left|]. right. rewrite last_cons. apply IH. Qed.
Lemma last_default {T} (l : list T) p : last l p <> p -> In (last l p) l.
Proof. intros N. destruct (last_in l p) as [E|H]; [congruence | exact H]. Qed.

Lemma links_set m l q q' : forall p, NoDup (p :: l) -> links m p l q -> links (m.[last l p <- q']) p l q'.
Proof.
  induction l as [|b l IH]; intros p N H; [cbn; unfold Next; now rewrite upd_same|]. destruct H as [H1 H2]. inversion_clear N as [|? ? Np Nl].
  rewrite last_cons. cbn [links]. split; [|now apply IH]. unfold Next. rewrite upd_other; auto. intros E. apply Np. rewrite E. apply last_in.
Qed.

Lemma links_last m l q : forall p, links m p l q -> Next m (last l p) = q.
Proof. induction l as [|b l IH]; intros p; [auto|]. intros [_ H]. rewrite last_cons. now apply IH. Qed.

Lemma links_mid m X Y p : links m p (X ++ Y) 0 -> Next m (last X p) = match Y with [] => 0 | b :: _ => b end.
Proof.
  destruct Y as [|b Y]; [rewrite app_nil_r; apply links_last|]. intros H. apply links_app in H as [H _]. now apply links_last in H.
Qed.

End Tile.

Section Merge.
Context {A : Arch} {Sn : Sentinel}.

Lemma Make_header_parts w c : 0 <= w <= Max_wosize -> 0 <= c < 4 ->
  header_ok (Make_header w 0 (c * 256)) /\ Wosize_hd (Make_header w 0 (c * 256)) = w /\ Color_hd (Make_header w 0 (c * 256)) = c * 256.
Proof.
  intros Hw Hc. rewrite Make_header_eq by lia. assert (Hb : 2 ^ WORD = (Max_wosize + 1) * 1024) by (unfold WORD, Max_wosize; destruct ARCH_SIXTYFOUR; reflexivity).
  split; [unfold header_ok; lia|]. rewrite Wosize_hd_div, Color_hd_eq. split; [symmetry; apply Z.div_unique with (c * 256 + 0); lia|]. f_equal.
  replace ((w * 1024 + c * 256 + 0) / 256) with (w * 4 + c) by (apply Z.div_unique with 0; lia). symmetry. apply Z.mod_unique with w; lia.
Qed.
Lemma Max_wosize_pos : 0 < Max_wosize.
Proof. unfold Max_wosize. destruct ARCH_SIXTYFOUR; reflexivity. Qed.

(** ** Parts of the heap *)

(** A part of the heap: its bounds and its blocks. *)
Definition seg : Type := Z * Z * list Z.
Definition blocks (S : list seg) : list Z := flat_map snd S.
Definition seg_ok (m : mem) (s : seg) : Prop := tile m (fst (fst s)) (snd (fst s)) (snd s).
(** Between two parts there is something else (the head of a chunk). *)
Definition separate2 (s t : Z * Z) : Prop := snd s < fst t \/ snd t < fst s.
(** The sentinel is in no part. *)
Definition outside (s : Z * Z) : Prop := 0 < fst s /\ ~ (fst s <= Fl_head < snd s) /\ ~ (fst s <= Fl_head - sizeof_value < snd s).
Record layout (S : list (Z * Z)) : Prop := {
  lay_apart : ForallOrdPairs separate2 S;
  lay_out : Forall outside S }.
Record tiled (m : mem) (S : list seg) : Prop := {
  ti_layout : layout (map fst S);
  ti_segs : Forall (seg_ok m) S }.

Lemma blocks_app S T : blocks (S ++ T) = blocks S ++ blocks T.
Proof. apply flat_map_app. Qed.

Lemma tiled_block m S b : tiled m S -> In b (blocks S) -> exists s, In s S /\ In b (snd s) /\ header_ok (Hd_op m b) /\
  fst (fst s) + sizeof_value <= b /\ b + bsize m b <= snd (fst s).
Proof.
  intros T Hb. apply in_flat_map in Hb as (s & Hs & Hb). exists s. split; auto. split; auto. pose proof (proj1 (Forall_forall _ _) (ti_segs m S T) s Hs) as O.
  destruct (tile_range m _ _ _ O) as [_ R]. destruct (R b Hb) as (? & ? & ?). auto.
Qed.
Lemma tiled_header m S b : tiled m S -> In b (blocks S) -> header_ok (Hd_op m b).
Proof. intros T Hb. now destruct (tiled_block m S b T Hb) as (_ & _ & _ & H & _). Qed.

Lemma tiled_apart m S : tiled m S -> forall x y, In x (blocks S) -> In y (blocks S) -> x <> y -> apart m x y.
Proof.
  intros [[L _] O]. revert L O. induction S as [|s S IH]; [intros _ _ x y []|]. cbn [map blocks flat_map]. intros L O x y Hx Hy N.
  inversion_clear L as [|? ? Ls LS]. inversion_clear O as [|? ? Os OS]. pose proof sizeof_value_pos as Sp. destruct (tile_range m _ _ _ Os) as [_ Rs].
  assert (K : forall z, In z (flat_map snd S) -> exists c l, separate2 (fst s) (c, l) /\ c + sizeof_value <= z /\ z + bsize m z <= l).
  { intros z Hz. apply in_flat_map in Hz as (t & Ht & Hz). destruct (tile_range m _ _ _ (proj1 (Forall_forall _ _) OS t Ht)) as [_ R]. destruct (R z Hz) as (? & ? & _).
    exists (fst (fst t)), (snd (fst t)). split; [|auto]. rewrite <- surjective_pairing. apply (proj1 (Forall_forall _ _) Ls). now apply in_map. }
  apply in_app_or in Hx as [Hx|Hx], Hy as [Hy|Hy].
  - eapply tile_apart; eauto.
  - destruct (K y Hy) as (c & l & Se & ? & ?), (Rs x Hx) as (? & ? & _). unfold apart. destruct Se; cbn [fst snd] in *; lia.
  - destruct (K x Hx) as (c & l & Se & ? & ?), (Rs y Hy) as (? & ? & _). unfold apart. destruct Se; cbn [fst snd] in *; lia.
  - now apply IH.
Qed.

Lemma tiled_nodup m S : tiled m S -> NoDup (blocks S).
Proof.
  intros [[L _] O]. revert L O. induction S as [|s S IH]; [constructor|]. cbn [map blocks flat_map]. intros L O.
  inversion_clear L as [|? ? Ls LS]. inversion_clear O as [|? ? Os OS]. pose proof sizeof_value_pos as Sp. apply NoDup_app; [eapply tile_nodup; eauto | now apply IH|].
  intros x Hx Hy. apply in_flat_map in Hy as (t & Ht & Hy). destruct (tile_range m _ _ _ Os) as [_ R1]. destruct (tile_range m _ _ _ (proj1 (Forall_forall _ _) OS t Ht)) as [_ R2].
  destruct (R1 x Hx) as (? & ? & H1), (R2 x Hy) as (? & ? & _). pose proof (bsize_nonneg m x H1).
  pose proof (proj1 (Forall_forall _ _) Ls _ (in_map fst _ _ Ht)) as [Se|Se]; lia.
Qed.

Lemma tiled_ext m m' S : (forall b, In b (blocks S) -> Hd_op m' b = Hd_op m b) -> tiled m S -> tiled m' S.
Proof.
  intros E [L O]. split; auto. apply Forall_forall. intros s Hs. pose proof (proj1 (Forall_forall _ _) O s Hs) as T. eapply tile_ext; [|exact T].
  intros b Hb. apply E. apply in_flat_map. eauto.
Qed.

(** Cells of the blocks and of the sentinel. *)
Lemma tiled_cell m S x y a : tiled m S -> In x (blocks S) -> In y (blocks S) -> x <> y -> cell m x a -> ~ cell m y a.
Proof.
  intros T Hx Hy N. apply cell_apart; [now apply (tiled_header m S) | now apply (tiled_header m S) | now apply (tiled_apart m S)].
Qed.
Lemma tiled_head m S b : tiled m S -> In b (blocks S) -> ~ cell m b Fl_head /\ ~ cell m b (Fl_head - sizeof_value).
Proof.
  intros T Hb. destruct (tiled_block m S b T Hb) as (s & Hs & _ & Ho & H1 & H2). destruct (proj1 (Forall_forall _ _) (lay_out _ (ti_layout m S T)) _ (in_map fst _ _ Hs)) as (_ & O1 & O2).
  split; intros C; apply cell_range in C; auto; lia.
Qed.
Lemma tiled_not_head m S b : tiled m S -> In b (blocks S) -> b <> Fl_head.
Proof. intros T Hb ->. apply (proj2 (tiled_head m S Fl_head T Hb)). apply cell_hd. Qed.
Lemma tiled_pos m S b : tiled m S -> In b (blocks S) -> 0 < b - sizeof_value.
Proof.
  intros T Hb. destruct (tiled_block m S b T Hb) as (s & Hs & _ & _ & H1 & _). destruct (proj1 (Forall_forall _ _) (lay_out _ (ti_layout m S T)) _ (in_map fst _ _ Hs)) as (Hc & _).
  lia.
Qed.

(** Merging two adjacent blocks. *)
Lemma tile_merge m x y h b1 b2 a l : tile m a l (b1 ++ x :: y :: b2) -> header_ok h -> Wosize_hd h = wosize m x + Whsize_bp m y ->
  tile (m.[x - sizeof_value <- h]) a l (b1 ++ x :: b2).
Proof.
  intros T Ho Ew. pose proof (tile_nodup _ _ _ _ T) as N. set (m' := m.[_ <- h]).
  assert (E : forall b, b <> x -> Hd_op m' b = Hd_op m b) by (intros b Nb; unfold m', Hd_op; apply upd_other; lia).
  assert (Ex : Hd_op m' x = h) by (unfold m', Hd_op; apply upd_same). apply NoDup_remove in N as [_ Nx].
  apply tile_app in T as (b & T1 & T2). cbn [tile] in T2. destruct T2 as (H1 & H2 & H3 & H4 & T2). apply tile_app. exists b. split.
  - eapply tile_ext; [|exact T1]. intros z Hz. apply E. intros ->. apply Nx. apply in_or_app. now left.
  - cbn [tile]. rewrite Ex. split; auto. split; auto. assert (Eb : x + bsize m' x = y + bsize m y).
    { unfold bsize, wosize in *. rewrite Ex, Ew. unfold Whsize_bp, Whsize_hd, Whsize_wosize, Bsize_wsize in *. lia. }
    rewrite Eb. eapply tile_ext; [|exact T2]. intros z Hz. apply E. intros ->. apply Nx. apply in_or_app. right. now right.
Qed.

(** ** The list of free blocks *)

Definition free (m : mem) (b : Z) : bool := Is_blue_hd (Hd_op m b).
Definition frees (m : mem) (l : list Z) : list Z := filter (free m) l.
Definition total (m : mem) (l : list Z) : Z := fold_right (fun b n => Whsize_bp m b + n) 0 l.

(** [P] are the free blocks up to the insertion point, [N] those after it; the
    words [extra] are counted but not in the list yet. *)
Record free_ok (m : mem) (f : free_list) (P N : list Z) (extra : Z) : Prop := {
  fo_links : links m Fl_head (P ++ N) 0;
  fo_merge : caml_fl_merge f = last P Fl_head;
  fo_prev : policy f = Policy_next_fit -> In (fl_prev f) (Fl_head :: P ++ N);
  fo_size : caml_fl_cur_size f = wrap WORD (total m (P ++ N) + extra);
  fo_pos : forall b, In b (P ++ N) -> 0 < wosize m b;
  fo_head : wosize m Fl_head = 0 }.

Lemma frees_ext m m' l : (forall b, In b l -> Hd_op m' b = Hd_op m b) -> frees m' l = frees m l.
Proof. intros E. apply filter_ext_in. intros b Hb. unfold free. now rewrite E. Qed.
Lemma total_ext m m' l : (forall b, In b l -> Hd_op m' b = Hd_op m b) -> total m' l = total m l.
Proof.
  induction l as [|b l IH]; intros E; cbn [total fold_right]; auto. unfold Whsize_bp at 1. rewrite E by now left. fold (total m' l) (total m l).
  rewrite IH; [reflexivity | intros x Hx; apply E; now right].
Qed.
Lemma total_app m l1 l2 : total m (l1 ++ l2) = total m l1 + total m l2.
Proof. unfold total. induction l1 as [|b l IH]; cbn [fold_right app]; [reflexivity | rewrite IH; lia]. Qed.
Lemma frees_in m l b : In b (frees m l) <-> In b l /\ free m b = true.
Proof. apply filter_In. Qed.
Lemma frees_app m l1 l2 : frees m (l1 ++ l2) = frees m l1 ++ frees m l2.
Proof. apply filter_app. Qed.

(** Nothing that the list uses is written. *)
Lemma free_ok_same m m' f f' P N extra extra' : free_ok m f P N extra -> (forall b, In b (P ++ N) -> untouched m m' b) ->
  m' Fl_head = m Fl_head -> Hd_op m' Fl_head = Hd_op m Fl_head ->
  caml_fl_merge f' = caml_fl_merge f -> fl_prev f' = fl_prev f -> policy f' = policy f ->
  caml_fl_cur_size f' = wrap WORD (caml_fl_cur_size f + (extra' - extra)) -> free_ok m' f' P N extra'.
Proof.
  intros [H1 H2 H3 H4 H5 H6] U E1 E2 F1 F2 F3 F4.
  assert (E : forall b, In b (P ++ N) -> Hd_op m' b = Hd_op m b) by (intros b Hb; now apply untouched_hd, U). split.
  - eapply links_ext; [|exact H1]. intros b [<-|Hb]; [exact E1|]. apply (U b Hb). now apply cell_first, H5.
  - now rewrite F1.
  - rewrite F2, F3. exact H3.
  - rewrite F4, H4, wrap_wrap_add_l. rewrite (total_ext m m') by exact E. f_equal. lia.
  - intros b Hb. unfold wosize. rewrite E by auto. now apply H5.
  - unfold wosize. rewrite E2. exact H6.
Qed.

(** ** A block that is being freed *)

Section Candidate.
(** The parts of the heap before and after the one that is swept, and its bounds. *)
Variables (Dn Rs : list seg) (c l : Z).

Definition whole (bs : list Z) : list seg := Dn ++ (c, l, bs) :: Rs.
Definition others (b1 b2 : list Z) : list Z := (blocks Dn ++ b1) ++ b2 ++ blocks Rs.

(** [n] is the block, [b1] and [b2] are before and after it. *)
Record cand (m : mem) (f : free_list) (b1 : list Z) (n : Z) (b2 : list Z) : Prop := {
  cd_tiled : tiled m (whole (b1 ++ n :: b2));
  cd_free : free_ok m f (frees m (blocks Dn ++ b1)) (frees m (b2 ++ blocks Rs)) (Whsize_bp m n) }.
Record fine (m : mem) (f : free_list) (b1 b2 : list Z) : Prop := {
  fi_tiled : tiled m (whole (b1 ++ b2));
  fi_free : free_ok m f (frees m (blocks Dn ++ b1)) (frees m (b2 ++ blocks Rs)) 0 }.

Lemma whole_blocks b1 n b2 x : In x (blocks (whole (b1 ++ n :: b2))) <-> x = n \/ In x (others b1 b2).
Proof.
  unfold whole, others. rewrite blocks_app. cbn [blocks flat_map snd]. fold (blocks Rs). rewrite !in_app_iff. cbn [In]. split; [intros [H|[[H|[H|H]]|H]] | intros [H|[[H|H]|[H|H]]]]; auto 6.
Qed.
Lemma whole_tile m bs : tiled m (whole bs) -> tile m c l bs.
Proof. intros [_ O]. unfold whole in O. apply Forall_app in O as [_ O]. now inversion_clear O. Qed.
Lemma whole_set m m' bs bs' : (forall b, In b (blocks Dn ++ blocks Rs) -> Hd_op m' b = Hd_op m b) -> tile m' c l bs' -> tiled m (whole bs) -> tiled m' (whole bs').
Proof.
  intros E T [[L1 L2] O]. unfold whole in *. rewrite map_app in *. split; [split; rewrite map_app; assumption|].
  apply Forall_app in O as [O1 O2]. inversion_clear O2 as [|? ? _ O3]. assert (K : forall S, incl (blocks S) (blocks Dn ++ blocks Rs) -> Forall (seg_ok m) S -> Forall (seg_ok m') S).
  { intros S I O. apply Forall_forall. intros s Hs. eapply tile_ext; [|exact (proj1 (Forall_forall _ _) O s Hs)]. intros b Hb. apply E, I, in_flat_map. eauto. }
  apply Forall_app. split; [apply K; auto; apply incl_appl, incl_refl|]. constructor; [exact T | apply K; auto; apply incl_appr, incl_refl].
Qed.
Lemma whole_nodup m b1 n b2 : tiled m (whole (b1 ++ n :: b2)) -> NoDup (others b1 b2) /\ ~ In n (others b1 b2).
Proof.
  intros T. apply tiled_nodup in T. unfold whole in T. rewrite blocks_app in T. cbn [blocks flat_map snd] in T. fold (blocks Rs) in T.
  replace (blocks Dn ++ (b1 ++ n :: b2) ++ blocks Rs) with ((blocks Dn ++ b1) ++ n :: (b2 ++ blocks Rs)) in T by (rewrite <- !app_assoc; reflexivity).
  apply NoDup_remove in T. exact T.
Qed.
Lemma others_in b1 b2 x : In x (others b1 b2) <-> In x (blocks Dn) \/ In x b1 \/ In x b2 \/ In x (blocks Rs).
Proof. unfold others. rewrite !in_app_iff. tauto. Qed.

(** A header of the block [n] is written. *)
Lemma other_untouched m b1 n b2 a v x : tiled m (whole (b1 ++ n :: b2)) -> cell m n a -> In x (others b1 b2) -> untouched m (m.[a <- v]) x.
Proof.
  intros T Ca Hx. apply untouched_upd. intros Cx. destruct (whole_nodup m b1 n b2 T) as [_ Nn].
  apply (tiled_cell m _ n x a T); auto; try (apply whole_blocks; auto). congruence.
Qed.
Lemma head_untouched m b1 n b2 a v : tiled m (whole (b1 ++ n :: b2)) -> cell m n a -> (m.[a <- v]) Fl_head = m Fl_head /\ Hd_op (m.[a <- v]) Fl_head = Hd_op m Fl_head.
Proof.
  intros T Ca. destruct (tiled_head m _ n T) as [H1 H2]; [apply whole_blocks; auto|]. unfold Hd_op. split; apply upd_other; congruence.
Qed.
End Candidate.
End Merge.
