(* ===== verification/FlFree.v ===== *)
(** FlFree: the three merges of [caml_fl_merge_block], and the whole of it. *)
From Stdlib Require Import ZArith Lia List Bool.
From S2P Require Import Prelude Mlvalues InterpState ExternOutput MarshalBytes MarshalTrail MarshalDecode Gc GcGraph Freelist FlTile.
Import ListNotations.
Local Open Scope Z_scope.

Section Links.
Context {A : Arch}.

Lemma NoDup_disjoint {T} (l1 l2 : list T) x : NoDup (l1 ++ l2) -> In x l1 -> ~ In x l2.
Proof.
  induction l1 as [|y l1 IH]; intros D; [intros []|]. inversion_clear D as [|? ? Ny D']. intros [<-|H]; [|now apply IH]. intros H. apply Ny, in_or_app. auto.
Qed.

(** Removing a block from a path, and inserting one. *)
Lemma links_skip m P b N q p : NoDup (p :: P ++ b :: N) -> links m p (P ++ b :: N) q -> links (m.[last P p <- Next m b]) p (P ++ N) q.
Proof.
  intros D H. apply links_app in H as [H1 H2]. set (v := Next m b). assert (Dp : NoDup (p :: P)).
  { rewrite app_comm_cons in D. now apply NoDup_app_remove_r in D. }
  pose proof (links_set m P b v p Dp H1) as H1'. destruct N as [|d N]; cbn [links] in H2.
  - rewrite app_nil_r. unfold v in *. now rewrite H2 in *.
  - destruct H2 as [H2 H3]. unfold v in *. rewrite H2 in *. apply links_app. split; auto. eapply links_ext; [|exact H3].
    intros x Hx. apply upd_other. intros ->. rewrite app_comm_cons in D. apply (NoDup_disjoint _ _ _ D (last_in P p)). now right.
Qed.

Lemma links_insert m P b N p : NoDup (p :: P ++ N) -> ~ In b (p :: P ++ N) -> links m p (P ++ N) 0 ->
  links (m.[b <- Next m (last P p)].[last P p <- b]) p (P ++ b :: N) 0.
Proof.
  intros D Nb H. assert (Dp : NoDup (p :: P)) by (rewrite app_comm_cons in D; now apply NoDup_app_remove_r in D).
  assert (Np : b <> last P p) by (intros ->; apply Nb; rewrite app_comm_cons; apply in_or_app; left; apply last_in).
  set (m1 := m.[b <- Next m (last P p)]).
  assert (E1 : forall x, In x (p :: P ++ N) -> m1 x = m x) by (intros x Hx; apply upd_other; intros ->; contradiction).
  assert (E2 : forall x q, ~ In x (p :: P) -> (m1.[last P p <- q]) x = m1 x) by (intros x q Nx; apply upd_other; intros ->; apply Nx, last_in).
  apply links_app. destruct N as [|d N].
  - rewrite app_nil_r in *. split; [eapply links_set; auto; eapply links_ext; [|exact H]; intros x Hx; apply E1; auto|]. cbn [links]. unfold Next.
    rewrite upd_other by auto. unfold m1. rewrite upd_same. now apply links_last in H.
  - apply links_app in H as [H1 H2]. split; [eapply links_set; auto; eapply links_ext; [|exact H1]; intros x Hx; apply E1; rewrite app_comm_cons; apply in_or_app; auto|].
    cbn [links]. unfold Next at 1. rewrite upd_other by auto. unfold m1 at 1. rewrite upd_same. split; [now apply links_last in H1|].
    eapply links_ext; [|exact H2]. intros x Hx. assert (Ix : In x (p :: P ++ d :: N)) by (rewrite app_comm_cons; apply in_or_app; auto).
    rewrite E2; [now apply E1|]. rewrite app_comm_cons in D. intros K. exact (NoDup_disjoint _ _ _ D K Hx).
Qed.
End Links.

Section Free.
Context {A : Arch} {Sn : Sentinel}.
Variables (Dn Rs : list seg) (c l : Z).
Notation whole := (whole Dn Rs c l).
Notation others := (others Dn Rs).
Notation cand := (cand Dn Rs c l).
Notation fine := (fine Dn Rs c l).
Notation P m b1 := (frees m (blocks Dn ++ b1)).
Notation N m b2 := (frees m (b2 ++ blocks Rs)).

Lemma PN_others m b1 b2 x : In x (P m b1 ++ N m b2) -> In x (others b1 b2) /\ free m x = true.
Proof. unfold FlTile.others. rewrite in_app_iff, !frees_in, !in_app_iff. tauto. Qed.

Lemma PN_nodup m b1 n b2 : tiled m (whole (b1 ++ n :: b2)) -> NoDup (Fl_head :: P m b1 ++ N m b2) /\ ~ In n (P m b1 ++ N m b2).
Proof.
  intros T. destruct (whole_nodup _ _ _ _ m b1 n b2 T) as [D Nn]. split; [constructor|].
  - intros H. apply PN_others in H as [H _]. apply (tiled_not_head m _ Fl_head T); auto. apply whole_blocks. auto.
  - unfold FlTile.others in D. rewrite <- frees_app. now apply NoDup_filter.
  - intros H. now apply PN_others in H as [H _].
Qed.

(** ** With the fragment before it *)

Lemma cand_fragment m f b1 fr n b2 : cand m f (b1 ++ [fr]) n b2 -> free m fr = false -> wosize m fr = 0 -> Whsize_bp m n <= Max_wosize ->
  let m' := m.[fr - sizeof_value <- Make_header (Whsize_bp m n) 0 Caml_white] in
  cand m' (add_size (Whsize_wosize 0) f) b1 fr b2 /\ free m' fr = false /\ wosize m' fr = Whsize_bp m n /\ forall x, In x (others b1 b2) -> untouched m m' x.
Proof.
  intros [T F] Hf Hw Hs m'. rewrite <- app_assoc in T. cbn [app] in T.
  pose proof (tiled_header m _ n T ltac:(rewrite whole_blocks; right; apply others_in; cbn; auto)) as Hn. pose proof (Wosize_hd_pos _ Hn) as Wn. fold (wosize m n) in Wn.
  assert (En : Whsize_bp m n = wosize m n + 1) by reflexivity.
  assert (Bd : 0 <= Whsize_bp m n <= Max_wosize) by lia. destruct (Make_header_parts (Whsize_bp m n) 0 Bd ltac:(lia)) as (Ho & Ew & Ec). change (0 * 256) with Caml_white in *. set (h := Make_header _ _ _) in *.
  assert (U : forall x, In x (others b1 (n :: b2)) -> untouched m m' x) by (intros x; eapply other_untouched; eauto; apply cell_hd).
  destruct (head_untouched Dn Rs c l m b1 fr (n :: b2) (fr - sizeof_value) h T (cell_hd m fr)) as [E1 E2]. fold m' in E1, E2.
  assert (Eh : Hd_op m' fr = h) by (unfold m', Hd_op; apply upd_same).
  assert (I : forall x, In x (others b1 b2) -> In x (others b1 (n :: b2))) by (intros x; rewrite !others_in; cbn; tauto).
  assert (EP : P m' b1 = P m (b1 ++ [fr])).
  { rewrite app_assoc. rewrite (frees_app m _ [fr]). cbn [frees filter]. rewrite Hf, app_nil_r. apply frees_ext. intros x Hx. apply untouched_hd, U, others_in. apply in_app_or in Hx. tauto. }
  assert (EN : N m' b2 = N m b2) by (apply frees_ext; intros x Hx; apply untouched_hd, U, others_in; apply in_app_or in Hx; cbn; tauto).
  split; [split|split; [|split]].
  - eapply whole_set; [| |exact T].
    + intros x Hx. apply untouched_hd, U, others_in. apply in_app_or in Hx. tauto.
    + apply tile_merge with n; auto; [now apply (whole_tile Dn Rs) in T | rewrite Ew; lia].
  - rewrite EP, EN. apply (free_ok_same m m' f _ _ _ (Whsize_bp m n)); auto.
    + intros x Hx. apply PN_others in Hx as [Hx Fx]. apply U. rewrite !others_in in *. cbn. rewrite in_app_iff in Hx. cbn in Hx. destruct Hx as [?|[[?|[->|[]]]|[?|?]]]; try tauto. congruence.
    + cbn [add_size set_size caml_fl_cur_size]. f_equal. unfold Whsize_bp at 1. rewrite Eh. unfold Whsize_hd, Whsize_wosize. rewrite Ew. lia.
  - unfold free, Is_blue_hd. rewrite Eh, Ec. reflexivity.
  - unfold wosize. now rewrite Eh.
  - intros x Hx. now apply U, I.
Qed.

(** ** Writing in the block before the insertion point *)

Section Prev.
Variables (m : mem) (f : free_list) (b1 : list Z) (n : Z) (b2 : list Z).
Hypothesis (T : tiled m (whole (b1 ++ n :: b2))) (F : free_ok m f (P m b1) (N m b2) (Whsize_bp m n)).
Let prev := last (P m b1) Fl_head.

Lemma prev_cases : prev = Fl_head \/ (In prev (P m b1) /\ In prev (blocks (whole (b1 ++ n :: b2))) /\ prev <> n /\ 0 < wosize m prev).
Proof.
  destruct (last_in (P m b1) Fl_head) as [E|H]; [left; symmetry; exact E | right]. fold prev in H. split; auto.
  assert (HP : In prev (P m b1 ++ N m b2)) by (apply in_or_app; auto). destruct (PN_others m b1 b2 prev HP) as [Io _].
  split; [apply whole_blocks; auto|]. split; [intros ->; now apply (proj2 (whole_nodup _ _ _ _ m b1 n b2 T)) | now apply (fo_pos _ _ _ _ _ F)].
Qed.

Lemma prev_write v x : In x (blocks (whole (b1 ++ n :: b2))) -> x <> prev -> untouched m (m.[prev <- v]) x.
Proof.
  intros Hx Nx. apply untouched_upd. destruct prev_cases as [->|(_ & Ip & _ & Wp)]; [now apply (tiled_head m _ x T)|].
  apply (tiled_cell m _ prev x prev T); auto. now apply cell_first.
Qed.
Lemma prev_write_hd v x : In x (blocks (whole (b1 ++ n :: b2))) -> Hd_op (m.[prev <- v]) x = Hd_op m x.
Proof.
  intros Hx. destruct (Z.eq_dec x prev) as [->|Nx]; [|now apply untouched_hd, prev_write]. unfold Hd_op. apply upd_other. pose proof sizeof_value_pos. lia.
Qed.
Lemma prev_write_head v : Hd_op (m.[prev <- v]) Fl_head = Hd_op m Fl_head.
Proof.
  unfold Hd_op. apply upd_other. pose proof sizeof_value_pos. destruct prev_cases as [->|(_ & Ip & _ & Wp)]; [lia|].
  intros E. apply (proj2 (tiled_head m _ prev T Ip)). rewrite E. now apply cell_first.
Qed.
Lemma prev_untouched v x : In x (others b1 b2) -> free m x = false -> untouched m (m.[prev <- v]) x.
Proof.
  intros Hx Fx. apply prev_write; [apply whole_blocks; auto|]. intros ->. destruct prev_cases as [E|(H & _)].
  - apply (tiled_not_head m _ prev T); [apply whole_blocks; auto | exact E].
  - apply frees_in in H as [_ H]. congruence.
Qed.
End Prev.

(** ** With the free block after it *)

Lemma cand_next m f b1 n cur b2 f' : cand m f b1 n (cur :: b2) -> free m cur = true -> wosize m n + Whsize_bp m cur <= Max_wosize ->
  let m' := m.[caml_fl_merge f <- Next m cur].[n - sizeof_value <- Make_header (wosize m n + Whsize_bp m cur) 0 Caml_blue] in
  f' = (if (policy f =? Policy_next_fit) && (fl_prev f =? cur) then set_prev (caml_fl_merge f) f else f) ->
  cand m' f' b1 n b2 /\ wosize m' n = wosize m n + Whsize_bp m cur /\
  (forall x, In x (others b1 b2) -> Hd_op m' x = Hd_op m x) /\ forall x, In x (others b1 b2) -> free m x = false -> untouched m m' x.
Proof.
  intros [T F] Hf Hs m' Ef'. pose proof (fo_merge _ _ _ _ _ F) as Em. unfold m'. rewrite Em. clear m'. set (prev := last (P m b1) Fl_head) in *.
  pose proof (PN_nodup m b1 n (cur :: b2) T) as [D Nn]. pose proof F as [F1 _ F3 F4 F5 F6].
  assert (EN : N m (cur :: b2) = cur :: N m b2) by (cbn [app frees filter]; now rewrite Hf). rewrite EN in D, F1, F3, F4, F5.
  pose proof (tiled_header m _ n T ltac:(apply whole_blocks; auto)) as Hn. pose proof (Wosize_hd_pos _ Hn) as Wn. fold (wosize m n) in Wn.
  assert (Wc : 0 < wosize m cur) by (apply F5, in_or_app; right; now left). assert (Ec : Whsize_bp m cur = wosize m cur + 1) by reflexivity.
  assert (Bd : 0 <= wosize m n + Whsize_bp m cur <= Max_wosize) by lia.
  destruct (Make_header_parts _ 2 Bd ltac:(lia)) as (Ho & Ew & _). change (2 * 256) with Caml_blue in *. set (h := Make_header _ _ _) in *.
  set (m1 := m.[prev <- Next m cur]). set (m' := m1.[n - sizeof_value <- h]).
  assert (E1 : forall x, In x (blocks (whole (b1 ++ n :: cur :: b2))) -> Hd_op m1 x = Hd_op m x) by (intros x; exact (prev_write_hd m f b1 n (cur :: b2) T F _ x)).
  pose proof (tiled_ext m m1 _ E1 T) as T1.
  assert (U2 : forall x, In x (others b1 (cur :: b2)) -> untouched m1 m' x) by (intros x; eapply other_untouched; eauto; apply cell_hd).
  destruct (head_untouched Dn Rs c l m1 b1 n (cur :: b2) (n - sizeof_value) h T1 (cell_hd m1 n)) as [H1 H2]. fold m' in H1, H2.
  assert (Eh : Hd_op m' n = h) by (unfold m', Hd_op; apply upd_same).
  assert (I : forall x, In x (others b1 b2) -> In x (others b1 (cur :: b2))) by (intros x; rewrite !others_in; cbn; tauto).
  assert (E2 : forall x, In x (others b1 (cur :: b2)) -> Hd_op m' x = Hd_op m x) by (intros x Hx; rewrite (untouched_hd _ _ _ (U2 x Hx)); apply E1, whole_blocks; auto).
  assert (EP' : P m' b1 = P m b1) by (apply frees_ext; intros x Hx; apply E2, others_in; apply in_app_or in Hx; tauto).
  assert (EN' : N m' b2 = N m b2) by (apply frees_ext; intros x Hx; apply E2, others_in; apply in_app_or in Hx; cbn; tauto).
  assert (Sub : forall x, In x (P m b1 ++ N m b2) -> In x (P m b1 ++ cur :: N m b2)) by (intros x; rewrite !in_app_iff; cbn; tauto).
  assert (Ob : forall x, In x (P m b1 ++ N m b2) -> In x (others b1 (cur :: b2))) by (intros x Hx; exact (I x (proj1 (PN_others m b1 b2 x Hx)))).
  assert (Ewn : wosize m' n = wosize m n + Whsize_bp m cur) by (unfold wosize at 1; now rewrite Eh).
  split; [split|split; [exact Ewn | split; [intros x Hx; now apply E2, I|]]].
  - eapply whole_set; [| |exact T1].
    + intros x Hx. rewrite E2, E1; auto; [apply whole_blocks; right|]; apply others_in; apply in_app_or in Hx; tauto.
    + apply tile_merge with cur; auto; [now apply (whole_tile Dn Rs) in T1|]. rewrite Ew. unfold wosize, Whsize_bp. rewrite !E1 by (apply whole_blocks; rewrite others_in; cbn; tauto). reflexivity.
  - rewrite EP', EN'. split.
    + apply (links_ext m1); [|exact (links_skip m _ _ _ _ _ D F1)]. intros x [<-|Hx]; [exact H1|]. apply (U2 x (Ob x Hx)). apply cell_first. unfold wosize. rewrite E1 by (apply whole_blocks; right; auto).
      now apply F5, Sub.
    + subst f'. destruct (_ && _); exact Em.
    + subst f'. rewrite app_comm_cons, in_app_iff. destruct (Z.eqb_spec (fl_prev f) cur) as [Ep|Np]; [|rewrite andb_false_r; intros Po; rewrite <- in_app_iff, <- app_comm_cons]; [rewrite andb_true_r|].
      * destruct (Z.eqb_spec (policy f) Policy_next_fit) as [Po|Po]; [intros _ | intros Po'; contradiction]. left. cbn [fl_prev set_prev]. rewrite Em. apply last_in.
      * destruct (F3 Po) as [H|H]; [now left | right]. apply in_app_or in H as [H|[H|H]]; [apply in_or_app; auto | congruence | apply in_or_app; auto].
    + replace (caml_fl_cur_size f') with (caml_fl_cur_size f) by (subst f'; destruct (_ && _); reflexivity). rewrite F4. f_equal.
      assert (Wn' : Whsize_bp m' n = Whsize_bp m n + Whsize_bp m cur) by (change (wosize m' n + 1 = wosize m n + 1 + Whsize_bp m cur); lia).
      rewrite (total_ext m m') by (intros x Hx; apply E2, Ob, Hx). rewrite !total_app, Wn'. cbn [total fold_right]. fold (total m (N m b2)). lia.
    + intros x Hx. unfold wosize. rewrite E2 by auto. now apply F5, Sub.
    + unfold wosize. rewrite H2. unfold m1. now rewrite (prev_write_head m f b1 n (cur :: b2) T F).
  - intros x Hx Fx. apply (untouched_trans m m1); [now apply (prev_untouched m f b1 n (cur :: b2) T F); auto | auto].
Qed.

(** ** With the free block before it, in the list, or as a fragment *)

Lemma finish_prev m f b1 prev n b2 : cand m f (b1 ++ [prev]) n b2 -> free m prev = true -> wosize m prev + Whsize_bp m n <= Max_wosize ->
  let m' := m.[prev - sizeof_value <- Make_header (wosize m prev + Whsize_bp m n) 0 Caml_blue] in
  fine m' f (b1 ++ [prev]) b2 /\ wosize m' prev = wosize m prev + Whsize_bp m n /\ free m' prev = true /\ forall x, In x (others b1 b2) -> untouched m m' x.
Proof.
  intros [T F] Hf Hs m'. rewrite <- app_assoc in T. cbn [app] in T.
  assert (Ho : forall x, In x [prev; n] -> 0 <= wosize m x).
  { intros x Hx. apply (Wosize_hd_pos (Hd_op m x)), (tiled_header m _ x T), whole_blocks. destruct Hx as [<-|[<-|[]]]; [now left | right; apply others_in; cbn; auto]. }
  pose proof (Ho prev (or_introl eq_refl)) as Wp. pose proof (Ho n (or_intror (or_introl eq_refl))) as Wn. clear Ho. assert (En : Whsize_bp m n = wosize m n + 1) by reflexivity.
  assert (Bd : 0 <= wosize m prev + Whsize_bp m n <= Max_wosize) by lia.
  destruct (Make_header_parts _ 2 Bd ltac:(lia)) as (Ho & Ew & Ec). change (2 * 256) with Caml_blue in *. set (h := Make_header _ _ _) in *.
  assert (U : forall x, In x (others b1 (n :: b2)) -> untouched m m' x) by (intros x; eapply other_untouched; eauto; apply cell_hd).
  destruct (head_untouched Dn Rs c l m b1 prev (n :: b2) (prev - sizeof_value) h T (cell_hd m prev)) as [E1 E2]. fold m' in E1, E2.
  assert (Eh : Hd_op m' prev = h) by (unfold m', Hd_op; apply upd_same). assert (Fp : free m' prev = true) by (unfold free, Is_blue_hd; rewrite Eh, Ec; reflexivity).
  assert (Ewp : wosize m' prev = wosize m prev + Whsize_bp m n) by (unfold wosize at 1; now rewrite Eh).
  assert (I : forall x, In x (others b1 b2) -> In x (others b1 (n :: b2))) by (intros x; rewrite !others_in; cbn; tauto).
  assert (Oth : forall x, In x (P m (b1 ++ [prev]) ++ N m b2) -> x = prev \/ In x (others b1 (n :: b2))).
  { intros x Hx. apply PN_others in Hx as [Hx _]. rewrite !others_in in *. cbn. rewrite in_app_iff in Hx. cbn in Hx. destruct Hx as [?|[[?|[->|[]]]|[?|?]]]; tauto. }
  assert (EP : P m' (b1 ++ [prev]) = P m (b1 ++ [prev])).
  { unfold frees. apply filter_ext_in. intros x Hx. destruct (Z.eq_dec x prev) as [->|Nx]; [congruence|]. unfold free. rewrite (untouched_hd m m' x); [reflexivity|].
    apply U, others_in. rewrite app_assoc, !in_app_iff in Hx. cbn in Hx. destruct Hx as [[?|?]|[<-|[]]]; tauto. }
  assert (EN : N m' b2 = N m b2) by (apply frees_ext; intros x Hx; apply untouched_hd, U, others_in; apply in_app_or in Hx; cbn; tauto).
  split; [split|split; [exact Ewp | split; [exact Fp | intros x Hx; now apply U, I]]].
  - rewrite <- app_assoc. eapply whole_set; [| |exact T].
    + intros x Hx. apply untouched_hd, U, others_in. apply in_app_or in Hx. tauto.
    + cbn [app]. apply tile_merge with n; auto. now apply (whole_tile Dn Rs) in T.
  - rewrite EP, EN. destruct F as [F1 F2 F3 F4 F5 F6]. split; auto.
    + eapply links_ext; [|exact F1]. intros x [<-|Hx]; [exact E1|]. destruct (Oth x Hx) as [->|Hx']; [apply upd_other; pose proof sizeof_value_pos; lia | apply (U x Hx'); now apply cell_first, F5].
    + rewrite F4. f_equal. destruct (PN_nodup m b1 prev (n :: b2) T) as [D _].
      assert (K : forall Q, ~ In prev Q -> (forall x, In x Q -> In x (others b1 (n :: b2))) -> total m' Q = total m Q) by (intros Q Nq IQ; apply total_ext; intros x Hx; apply untouched_hd, U, IQ, Hx).
      destruct (whole_nodup Dn Rs c l m b1 prev (n :: b2) T) as [_ Np]. rewrite app_assoc. rewrite (frees_app m _ [prev]). cbn [frees filter]. rewrite Hf, !total_app.
      assert (I1 : forall x, In x (P m b1) -> In x (others b1 (n :: b2))) by (intros x Hx; apply others_in; apply frees_in in Hx as [Hx _]; apply in_app_or in Hx; tauto).
      assert (I2 : forall x, In x (N m b2) -> In x (others b1 (n :: b2))) by (intros x Hx; apply others_in; apply frees_in in Hx as [Hx _]; apply in_app_or in Hx; cbn; tauto).
      rewrite (K (P m b1)), (K (N m b2)); auto. cbn [total fold_right]. assert (Wp' : Whsize_bp m' prev = Whsize_bp m prev + Whsize_bp m n) by (change (wosize m' prev + 1 = wosize m prev + 1 + Whsize_bp m n); lia).
      rewrite Wp'. lia.
    + intros x Hx. destruct (Oth x Hx) as [->|Hx']; [rewrite Ewp; lia|]. unfold wosize. rewrite (untouched_hd m m' x) by auto. now apply F5.
    + unfold wosize. rewrite E2. exact F6.
Qed.

Lemma finish_insert m f b1 n b2 : cand m f b1 n b2 -> 0 < wosize m n ->
  let m' := m.[n - sizeof_value <- Bluehd_hd (Hd_op m n)].[n <- Next m (caml_fl_merge f)].[caml_fl_merge f <- n] in
  fine m' (set_merge n f) (b1 ++ [n]) b2 /\ wosize m' n = wosize m n /\ free m' n = true /\
  (forall x, In x (others b1 b2) -> Hd_op m' x = Hd_op m x) /\ forall x, In x (others b1 b2) -> free m x = false -> untouched m m' x.
Proof.
  intros [T F] Hw m'. pose proof (fo_merge _ _ _ _ _ F) as Em. unfold m'. rewrite Em. clear m'. set (prev := last (P m b1) Fl_head) in *.
  pose proof (PN_nodup m b1 n b2 T) as [D Nn]. pose proof (tiled_header m _ n T ltac:(apply whole_blocks; auto)) as Hn. pose proof sizeof_value_pos as Sp.
  destruct (Bluehd_recolor _ Hn) as (Ho & _ & Ew & Ec). set (h := Bluehd_hd _) in *. set (m1 := m.[n - sizeof_value <- h]). set (m2 := m1.[n <- Next m prev]). set (m' := m2.[prev <- n]).
  assert (U1 : forall x, In x (others b1 b2) -> untouched m m1 x) by (intros x; eapply other_untouched; eauto; apply cell_hd).
  destruct (head_untouched Dn Rs c l m b1 n b2 (n - sizeof_value) h T (cell_hd m n)) as [A1 A2]. fold m1 in A1, A2.
  assert (Eh1 : Hd_op m1 n = h) by (unfold m1, Hd_op; apply upd_same). assert (Ew1 : wosize m1 n = wosize m n) by (unfold wosize at 1; now rewrite Eh1).
  assert (E1 : forall x, In x (others b1 b2) -> Hd_op m1 x = Hd_op m x) by (intros x Hx; now apply untouched_hd, U1).
  assert (T1 : tiled m1 (whole (b1 ++ n :: b2))).
  { eapply whole_set; [| |exact T]; [intros x Hx; apply E1, others_in; apply in_app_or in Hx; tauto|]. apply (whole_tile Dn Rs), tile_app in T as (z & T1 & T2). apply tile_app. exists z.
    assert (K : forall x, In x (b1 ++ b2) -> Hd_op m1 x = Hd_op m x) by (intros x Hx; apply E1, others_in; apply in_app_or in Hx; tauto).
    split; [eapply tile_ext; [|exact T1]; intros x Hx; apply K, in_or_app; auto|]. cbn [tile] in *. destruct T2 as (H1 & H2 & H3). rewrite Eh1. split; auto. split; auto.
    replace (bsize m1 n) with (bsize m n) by (unfold bsize; now rewrite Ew1). eapply tile_ext; [|exact H3]. intros x Hx. apply K, in_or_app; auto. }
  assert (Cn : cell m1 n n) by (apply cell_first; now rewrite Ew1).
  assert (U2 : forall x, In x (others b1 b2) -> untouched m1 m2 x) by (intros x; eapply other_untouched; eauto).
  destruct (head_untouched Dn Rs c l m1 b1 n b2 n (Next m prev) T1 Cn) as [A3 A4]. fold m2 in A3, A4.
  assert (E2 : forall x, In x (blocks (whole (b1 ++ n :: b2))) -> Hd_op m2 x = Hd_op m1 x).
  { intros x Hx. apply whole_blocks in Hx as [->|Hx]; [unfold m2, Hd_op; apply upd_other; lia | now apply untouched_hd, U2]. }
  pose proof (tiled_ext m1 m2 _ E2 T1) as T2.
  assert (Sm : forall x, In x (others b1 b2) -> untouched m m2 x) by (intros x Hx; apply (untouched_trans m m1); auto).
  assert (P2 : P m2 b1 = P m b1) by (apply frees_ext; intros x Hx; apply untouched_hd, Sm, others_in; apply in_app_or in Hx; tauto).
  assert (N2 : N m2 b2 = N m b2) by (apply frees_ext; intros x Hx; apply untouched_hd, Sm, others_in; apply in_app_or in Hx; tauto).
  assert (Ob : forall x, In x (P m b1 ++ N m b2) -> In x (others b1 b2)) by (intros x Hx; exact (proj1 (PN_others m b1 b2 x Hx))).
  assert (F2 : free_ok m2 f (P m2 b1) (N m2 b2) (Whsize_bp m2 n)).
  { rewrite P2, N2. apply (free_ok_same m m2 f f _ _ (Whsize_bp m n)); auto; try congruence.
    - assert (W : Whsize_bp m2 n = Whsize_bp m n) by (unfold Whsize_bp; rewrite E2, Eh1 by (apply whole_blocks; auto); unfold Whsize_hd; now rewrite Ew).
      rewrite W, Z.sub_diag, Z.add_0_r. pose proof (fo_size _ _ _ _ _ F) as E. rewrite E, wrap_idemp; [reflexivity | pose proof WORD_pos; lia]. }
  assert (Pw : prev = last (P m2 b1) Fl_head) by now rewrite P2.
  assert (E3 : forall x, In x (blocks (whole (b1 ++ n :: b2))) -> Hd_op m' x = Hd_op m2 x) by (intros x; unfold m'; rewrite Pw; now apply (prev_write_hd m2 f b1 n b2 T2 F2)).
  pose proof (tiled_ext m2 m' _ E3 T2) as T3. assert (Eh : Hd_op m' n = h) by (rewrite E3, E2 by (apply whole_blocks; auto); exact Eh1).
  assert (Ewn : wosize m' n = wosize m n) by (unfold wosize at 1; now rewrite Eh). assert (Fn : free m' n = true) by (unfold free, Is_blue_hd; rewrite Eh, Ec; reflexivity).
  assert (EO : forall x, In x (others b1 b2) -> Hd_op m' x = Hd_op m x) by (intros x Hx; rewrite E3 by (apply whole_blocks; auto); now apply untouched_hd, Sm).
  assert (EP : P m' (b1 ++ [n]) = P m b1 ++ [n]).
  { rewrite app_assoc, (frees_app m' _ [n]). cbn [frees filter]. rewrite Fn. f_equal. apply frees_ext. intros x Hx. apply EO, others_in. apply in_app_or in Hx. tauto. }
  assert (EN : N m' b2 = N m b2) by (apply frees_ext; intros x Hx; apply EO, others_in; apply in_app_or in Hx; tauto).
  destruct F as [F1 _ F3 F4 F5 F6]. split; [split|split; [exact Ewn | split; [exact Fn | split; [exact EO|]]]].
  - rewrite <- app_assoc. exact T3.
  - assert (EA : (P m b1 ++ [n]) ++ N m b2 = P m b1 ++ n :: N m b2) by (rewrite <- app_assoc; reflexivity). rewrite EP, EN. split; try rewrite EA.
    + replace (P m b1 ++ n :: N m b2) with (P m b1 ++ [n] ++ N m b2) by reflexivity. apply (links_ext (m.[n <- Next m prev].[prev <- n])); [|apply links_insert; auto].
      * intros x Hx. unfold m', upd. destruct (x =? prev); auto. unfold m2, upd. destruct (x =? n) eqn:Exn; auto. apply Z.eqb_neq in Exn.
        destruct Hx as [<-|Hx]; [exact A1|]. apply in_app_or in Hx as [Hx|[Hx|Hx]]; [|congruence|].
        -- apply (U1 x); [apply Ob, in_or_app; auto | apply cell_first, F5, in_or_app; auto].
        -- apply (U1 x); [apply Ob, in_or_app; auto | apply cell_first, F5, in_or_app; auto].
      * intros [E|H]; [|contradiction]. apply (tiled_not_head m _ n T); [apply whole_blocks; auto | auto].
    + symmetry. apply last_last.
    + intros Po. destruct (F3 Po) as [H|H]; [now left | right]. cbn [fl_prev set_merge]. apply in_app_or in H. apply in_or_app. cbn. tauto.
    + cbn [caml_fl_cur_size set_merge]. rewrite F4. f_equal. rewrite !total_app. cbn [total fold_right]. fold (total m' (N m b2)).
      rewrite (total_ext m m' (P m b1)), (total_ext m m' (N m b2)) by (intros x Hx; apply EO, Ob, in_or_app; auto).
      assert (W : Whsize_bp m' n = Whsize_bp m n) by (change (wosize m' n + 1 = wosize m n + 1); lia). lia.
    + intros x Hx. apply in_app_or in Hx as [Hx|[<-|Hx]]; [|now rewrite Ewn|]; unfold wosize; rewrite EO by (apply Ob, in_or_app; auto); apply F5, in_or_app; auto.
    + unfold wosize, m'. rewrite Pw, (prev_write_head m2 f b1 n b2 T2 F2), A4, A2. exact F6.
  - intros x Hx Fx. apply (untouched_trans m m2); [auto|]. unfold m'. rewrite Pw. apply (prev_untouched m2 f b1 n b2 T2 F2); auto.
    unfold free in *. now rewrite (untouched_hd m m2 x (Sm x Hx)).
Qed.

Lemma finish_fragment m f b1 n b2 : cand m f b1 n b2 -> wosize m n = 0 -> free m n = false ->
  fine m (add_size (- Whsize_wosize 0) (set_fragment n f)) (b1 ++ [n]) b2.
Proof.
  intros [T F] Hw Hf. split; [rewrite <- app_assoc; exact T|]. rewrite app_assoc, (frees_app m _ [n]). cbn [frees filter]. rewrite Hf, app_nil_r.
  apply (free_ok_same m m f _ _ _ (Whsize_bp m n)); auto; [intros b Hb a Ha; reflexivity|]. cbn [add_size set_size set_fragment caml_fl_cur_size]. f_equal.
  assert (W : Whsize_bp m n = wosize m n + 1) by reflexivity. rewrite W, Hw. reflexivity.
Qed.
End Free.
