(* ===== verification/FlBlock.v ===== *)
(** FlBlock: what [caml_fl_merge_block] does as a whole, and that it only writes in
    the parts of the heap and in the sentinel. *)
From Stdlib Require Import ZArith Lia List Bool.
From S2P Require Import Prelude Mlvalues ExternOutput InterpState MarshalBytes MarshalTrail MarshalDecode Gc GcGraph Freelist FlTile FlFree.
Import ListNotations.
Local Open Scope Z_scope.

Section Block.
Context {A : Arch} {Sn : Sentinel}.
Variables (Dn Rs : list seg) (c l : Z).
Notation whole := (whole Dn Rs c l).
Notation others := (others Dn Rs).
Notation cand := (cand Dn Rs c l).
Notation fine := (fine Dn Rs c l).
Notation P m b1 := (frees m (blocks Dn ++ b1)).
Notation N m b2 := (frees m (b2 ++ blocks Rs)).

(** ** Neighbours *)

Lemma tile_snoc_end m a e bs x : tile m a e (bs ++ [x]) -> e = x + bsize m x.
Proof. intros T. apply tile_app in T as (b & _ & T). cbn [tile] in T. destruct T as (_ & _ & T). now symmetry. Qed.

Lemma tile_adjacent m a e l1 x y l2 : tile m a e (l1 ++ x :: y :: l2) -> x + bsize m x = Hp_bp y.
Proof. intros T. apply tile_app in T as (z & _ & T). cbn [tile] in T. destruct T as (_ & _ & E & _). unfold Hp_bp. lia. Qed.

Lemma tile_last m bs x : forall a e, tile m a e bs -> In x bs -> x + bsize m x = e -> exists b0, bs = b0 ++ [x].
Proof.
  pose proof sizeof_value_pos as Sp. induction bs as [|y bs IH]; intros a e T Hx E; [destruct Hx|]. cbn [tile] in T. destruct T as (H1 & H2 & T). destruct Hx as [<-|Hx].
  - destruct bs as [|z bs]; [now exists []|]. destruct (tile_range m _ _ _ T) as [_ R]. destruct (R z (or_introl eq_refl)) as (? & ? & Hz). pose proof (bsize_nonneg m z Hz). lia.
  - destruct (IH _ _ T Hx E) as [b0 ->]. now exists (y :: b0).
Qed.

Lemma ordered_right {T} (R : T -> T -> Prop) l1 l2 : ForallOrdPairs R (l1 ++ l2) -> ForallOrdPairs R l2.
Proof. induction l1 as [|t l1 IH]; cbn [app]; auto. intros H. inversion_clear H. auto. Qed.
Lemma ordered_cross {T} (R : T -> T -> Prop) l1 l2 x y : ForallOrdPairs R (l1 ++ l2) -> In x l1 -> In y l2 -> R x y.
Proof.
  induction l1 as [|t l1 IH]; cbn [app]; [intros _ []|]. intros H. inversion_clear H as [|? ? Ht H']. intros [<-|Hx] Hy; [|now apply IH].
  apply (proj1 (Forall_forall _ _) Ht). apply in_or_app. auto.
Qed.

Lemma whole_part m bs s : tiled m (whole bs) -> In s (Dn ++ Rs) -> separate2 (fst s) (c, l) /\ seg_ok m s.
Proof.
  intros [[L _] O] Hs. unfold FlTile.whole in *. split; [|apply (proj1 (Forall_forall _ _) O); rewrite in_app_iff in *; cbn; tauto].
  rewrite map_app in L. cbn [map fst] in L. apply in_app_or in Hs as [Hs|Hs].
  - apply (ordered_cross separate2 _ _ _ _ L); [now apply in_map | now left].
  - apply ordered_right in L. inversion_clear L as [|? ? Ht _]. destruct (proj1 (Forall_forall _ _) Ht _ (in_map fst _ _ Hs)) as [H|H]; [right | left]; exact H.
Qed.

Lemma whole_bounds m b1 n b2 : tiled m (whole (b1 ++ n :: b2)) -> c <= n - sizeof_value /\ n + bsize m n <= l /\ 0 <= bsize m n.
Proof.
  intros T. pose proof (whole_tile Dn Rs c l m _ T) as T1. destruct (tile_range m _ _ _ T1) as [_ R]. destruct (R n) as (? & ? & Ho); [apply in_or_app; right; now left|].
  pose proof (bsize_nonneg m n Ho). lia.
Qed.

Lemma before m b1 n b2 x : tiled m (whole (b1 ++ n :: b2)) -> In x (blocks Dn ++ b1) -> x + bsize m x = n - sizeof_value -> exists b0, b1 = b0 ++ [x].
Proof.
  intros T Hx E. destruct (whole_bounds m b1 n b2 T) as (B1 & B2 & B3). pose proof sizeof_value_pos as Sp. apply in_app_or in Hx as [Hx|Hx].
  - exfalso. apply in_flat_map in Hx as (s & Hs & Hx). destruct (whole_part m _ s T ltac:(apply in_or_app; auto)) as [Se O]. destruct (tile_range m _ _ _ O) as [_ R].
    destruct (R x Hx) as (? & ? & Ho). pose proof (bsize_nonneg m x Ho). destruct Se; cbn [fst snd] in *; lia.
  - apply (whole_tile Dn Rs c l), tile_app in T as (z & T1 & T2). cbn [tile] in T2. destruct T2 as (Ez & _). apply (tile_last m b1 x c z T1 Hx). lia.
Qed.

Lemma after m b1 n b2 y : tiled m (whole (b1 ++ n :: b2)) -> In y (b2 ++ blocks Rs) -> n + bsize m n = y - sizeof_value -> exists b, b2 = y :: b.
Proof.
  intros T Hy E. destruct (whole_bounds m b1 n b2 T) as (B1 & B2 & B3). pose proof sizeof_value_pos as Sp.
  pose proof (whole_tile Dn Rs c l m _ T) as T1. apply tile_app in T1 as (z & _ & T1). cbn [tile] in T1. destruct T1 as (_ & _ & T1). destruct b2 as [|z' b2].
  - exfalso. cbn [tile app] in *. apply in_flat_map in Hy as (s & Hs & Hy). destruct (whole_part m _ s T ltac:(apply in_or_app; auto)) as [Se O]. destruct (tile_range m _ _ _ O) as [_ R].
    destruct (R y Hy) as (? & ? & Ho). pose proof (bsize_nonneg m y Ho). destruct Se; cbn [fst snd] in *; lia.
  - cbn [tile] in T1. destruct T1 as (Ez & _). exists b2. f_equal. lia.
Qed.

(** ** The last two merges *)

(** What the end of [caml_fl_merge_block] leaves of the block [n], of [b1] and of [b2]. *)
Record merged (m : mem) (b1 : list Z) (n : Z) (b2 : list Z) (next : Z) (m' : mem) (f f' : free_list) (b1' b2' : list Z) : Prop := {
  me_fine : fine m' f' b1' b2';
  me_next : tile m' c next b1' /\ tile m' next l b2';
  me_policy : policy f' = policy f;
  me_rest : b2' = b2 \/ exists cur, free m cur = true /\ b2 = cur :: b2';
  me_done : b1' = b1 \/ b1' = b1 ++ [n];
  me_block : In n b1' -> free m' n = true \/ (wosize m' n = 0 /\ last_fragment f' = n /\ m' = m);
  me_fragment : last_fragment f' = last_fragment f \/ (last_fragment f' = n /\ In n b1' /\ wosize m' n = 0 /\ m' = m);
  me_free : forall x, In x (others b1 b2') -> free m' x = free m x;
  me_todo : forall x, In x (b2' ++ blocks Rs) -> Hd_op m' x = Hd_op m x;
  me_others : forall x, In x (others b1 b2') -> free m x = false -> untouched m m' x;
  me_sizes : forall x, In x (others b1 b2') -> wosize m x <= wosize m' x;
  me_prev : (b1' = b1 /\ exists b0 p, b1 = b0 ++ [p] /\ free m p = true) \/
    (b1' = b1 ++ [n] /\ forall b0 p, b1 = b0 ++ [p] -> free m p = true -> Max_wosize <= wosize m p + Whsize_bp m' n);
  me_tail : exists b0 x, b1' = b0 ++ [x] /\ wosize m n <= wosize m' x /\ (free m' x = false -> last_fragment f' = x) }.

Lemma whole_split m' b1' b2' : tiled m' (whole (b1' ++ b2')) -> exists z, tile m' c z b1' /\ tile m' z l b2'.
Proof. intros T. apply (whole_tile Dn Rs), tile_app in T. exact T. Qed.

(** The block before [n] is adjacent to it, and the insertion point when it is free. *)
Lemma prev_adjacent m f b1 n b2 b0 p : cand m f b1 n b2 -> b1 = b0 ++ [p] -> free m p = true ->
  caml_fl_merge f = p /\ p + bsize m p = Hp_bp n.
Proof.
  intros [T F] -> Fp. split.
  - rewrite (fo_merge _ _ _ _ _ F), app_assoc, frees_app. cbn [frees filter]. rewrite Fp. apply last_last.
  - apply (whole_tile Dn Rs c l) in T. rewrite <- app_assoc in T. exact (tile_adjacent _ _ _ _ _ _ _ T).
Qed.

Lemma merge_prev_spec m f b1 n b2 : cand m f b1 n b2 -> (wosize m n = 0 -> free m n = false) ->
  let '(m', f') := merge_prev (caml_fl_merge f) (Next m (caml_fl_merge f)) n (Hd_op m n) m f in
  exists b1', merged m b1 n b2 (n + bsize m n) m' f f' b1' b2.
Proof.
  intros C Hf. pose proof C as [T F]. unfold merge_prev. set (prev := caml_fl_merge f). fold (wosize m n). change (Wosize_bp m prev) with (wosize m prev).
  change (Whsize_hd (Hd_op m n)) with (Whsize_bp m n). fold (bsize m prev). destruct (whole_bounds m b1 n b2 T) as (B1 & B2 & B3). pose proof sizeof_value_pos as Sp.
  assert (Wz : forall x, In x (blocks (whole (b1 ++ n :: b2))) -> 0 <= wosize m x) by (intros x Hx; apply Wosize_hd_pos, (tiled_header m _ x T Hx)).
  pose proof (Wz n ltac:(apply whole_blocks; auto)) as Wn0.
  assert (Big : (prev + bsize m prev =? Hp_bp n) && (wosize m prev + Whsize_bp m n <? Max_wosize) = false ->
    forall b0 p, b1 = b0 ++ [p] -> free m p = true -> Max_wosize <= wosize m p + Whsize_bp m n).
  { intros Ad b0 p Hb Fp. destruct (prev_adjacent m f b1 n b2 b0 p C Hb Fp) as [Ep Ea]. fold prev in Ep. rewrite Ep, Ea, Z.eqb_refl in Ad. lia. }
  destruct ((prev + bsize m prev =? Hp_bp n) && (wosize m prev + Whsize_bp m n <? Max_wosize)) eqn:Ad;
    [clear Big | specialize (Big eq_refl); destruct (Z.eqb_spec (wosize m n) 0) as [Z0|NZ]; cbn [negb]].
  - apply andb_prop in Ad as [E1 E2]. apply Z.eqb_eq in E1. apply Z.ltb_lt in E2. unfold Hp_bp in E1.
    pose proof (fo_merge _ _ _ _ _ F) as Em. fold prev in Em. destruct (prev_cases Dn Rs c l m f b1 n b2 T F) as [Eh|(Ip & _ & _ & _)].
    { exfalso. rewrite <- Em in Eh. pose proof (fo_head _ _ _ _ _ F) as W0. rewrite <- Eh in W0. unfold bsize, Bsize_wsize in E1. rewrite W0 in E1.
      destruct (tiled_head m _ n T ltac:(apply whole_blocks; auto)) as [H1 _]. apply H1. rewrite <- Eh. replace prev with (n - sizeof_value) by lia. apply cell_hd. }
    rewrite <- Em in Ip. apply frees_in in Ip as [Ip Fp]. pose proof (Wz prev ltac:(apply whole_blocks, or_intror, others_in; apply in_app_or in Ip; tauto)) as Wp0. destruct (before m b1 n b2 prev T Ip E1) as [b0 Eb]. rewrite Eb in *.
    destruct (finish_prev Dn Rs c l m f b0 prev n b2 C Fp ltac:(lia)) as (Fi & Wp & Fp' & U). set (m' := m.[_ <- _]) in *. exists (b0 ++ [prev]).
    destruct (whole_split m' _ _ (fi_tiled _ _ _ _ _ _ _ _ Fi)) as (z & T1 & T2). pose proof (tile_snoc_end _ _ _ _ _ T1) as Ez.
    assert (Ez' : z = n + bsize m n) by (rewrite Ez; unfold bsize in *; rewrite Wp; unfold Whsize_bp, Whsize_hd, Whsize_wosize, Bsize_wsize in *; fold (wosize m n); lia). clear Ez. subst z.
    assert (Oth : forall x, In x (others (b0 ++ [prev]) b2) -> x = prev \/ In x (others b0 b2)).
    { intros x Hx. rewrite !others_in in *. rewrite in_app_iff in Hx. cbn in Hx. destruct Hx as [?|[[?|[->|[]]]|[?|?]]]; tauto. }
    split; auto.
    + intros H. exfalso. apply (proj2 (whole_nodup Dn Rs c l m _ n b2 T)). apply others_in. tauto.
    + intros x Hx. destruct (Oth x Hx) as [->|Hx']; [congruence|]. unfold free. now rewrite (untouched_hd _ _ _ (U x Hx')).
    + intros x Hx. apply untouched_hd, U, others_in. apply in_app_or in Hx. tauto.
    + intros x Hx Fx. destruct (Oth x Hx) as [->|Hx']; [congruence | now apply U].
    + intros x Hx. destruct (Oth x Hx) as [->|Hx']; [rewrite Wp; unfold Whsize_bp, Whsize_hd, Whsize_wosize; fold (wosize m n); lia|].
      unfold wosize. rewrite (untouched_hd _ _ _ (U x Hx')). lia.
    + left. split; [reflexivity|]. exists b0, prev. auto.
    + exists b0, prev. split; [reflexivity|]. split; [rewrite Wp; unfold Whsize_bp, Whsize_hd, Whsize_wosize; fold (wosize m n); lia | congruence].
  - pose proof (finish_fragment Dn Rs c l m f b1 n b2 C Z0 (Hf Z0)) as Fi. exists (b1 ++ [n]). destruct (whole_split m _ _ (fi_tiled _ _ _ _ _ _ _ _ Fi)) as (z & T1 & T2). pose proof (tile_snoc_end _ _ _ _ _ T1) as Ez. subst z.
    assert (Hn : In n (b1 ++ [n])) by (apply in_or_app; right; now left). split; auto.
    + intros x _ _ a _. reflexivity.
    + intros x _. lia.
    + exists b1, n. split; [reflexivity|]. split; [lia | reflexivity].
  - pose proof (Wosize_hd_pos _ (tiled_header m _ n T ltac:(apply whole_blocks; auto))) as Wn. fold (wosize m n) in Wn.
    destruct (finish_insert Dn Rs c l m f b1 n b2 C ltac:(lia)) as (Fi & Wn' & Fn & EO & U). fold prev in Fi, Wn', Fn, EO, U. set (m' := _.[prev <- n]) in *. exists (b1 ++ [n]).
    destruct (whole_split m' _ _ (fi_tiled _ _ _ _ _ _ _ _ Fi)) as (z & T1 & T2). pose proof (tile_snoc_end _ _ _ _ _ T1) as Ez.
    assert (Ez' : z = n + bsize m n) by (rewrite Ez; unfold bsize; now rewrite Wn'). clear Ez. subst z. split; auto.
    + intros x Hx. unfold free. now rewrite EO.
    + intros x Hx. apply EO, others_in. apply in_app_or in Hx. tauto.
    + intros x Hx. unfold wosize. rewrite EO by exact Hx. lia.
    + right. split; [reflexivity|]. intros b0 p Hb Fp. unfold Whsize_bp, Whsize_hd. fold (wosize m' n). rewrite Wn'. exact (Big b0 p Hb Fp).
    + exists b1, n. split; [reflexivity|]. split; [lia | congruence].
Qed.

(** The block after [n], when it is free, is merged with it or too large. *)
Definition ahead (m : mem) (n : Z) (b2 b2' : list Z) : Prop :=
  (b2' = b2 /\ forall d r, b2 = d :: r -> free m d = true -> Max_wosize < wosize m n + Whsize_bp m d) \/ exists cur, free m cur = true /\ b2 = cur :: b2'.

Lemma next_adjacent m f b1 n b2 d r : cand m f b1 n b2 -> b2 = d :: r -> free m d = true ->
  Next m (caml_fl_merge f) = d /\ n + bsize m n = Hp_bp d.
Proof.
  intros [T F] -> Fd. split.
  - pose proof (links_mid m _ _ _ (fo_links _ _ _ _ _ F)) as E. rewrite <- (fo_merge _ _ _ _ _ F) in E. cbn [app frees filter] in E. rewrite Fd in E. exact E.
  - apply (whole_tile Dn Rs c l) in T. exact (tile_adjacent _ _ _ _ _ _ _ T).
Qed.

Lemma merge_next_spec m f b1 n b2 : cand m f b1 n b2 -> (wosize m n = 0 -> free m n = false) ->
  let '(cur, hd, m', f') := merge_next (caml_fl_merge f) (Next m (caml_fl_merge f)) n (Hd_op m n) m f in
  exists b2', cand m' f' b1 n b2' /\ hd = Hd_op m' n /\ cur = Next m' (caml_fl_merge f') /\ (wosize m' n = 0 -> free m' n = false /\ m' = m) /\
    policy f' = policy f /\ last_fragment f' = last_fragment f /\ (b2' = b2 \/ exists cur, free m cur = true /\ b2 = cur :: b2') /\
    ahead m n b2 b2' /\ wosize m n <= wosize m' n /\
    (forall x, In x (others b1 b2') -> Hd_op m' x = Hd_op m x) /\ forall x, In x (others b1 b2') -> free m x = false -> untouched m m' x.
Proof.
  intros C Hf. pose proof C as [T F]. unfold merge_next. set (prev := caml_fl_merge f). set (cur := Next m prev). pose proof (fo_merge _ _ _ _ _ F) as Em. fold prev in Em.
  destruct (whole_bounds m b1 n b2 T) as (B1 & B2 & B3). pose proof sizeof_value_pos as Sp.
  change (Bosize_hd (Hd_op m n)) with (bsize m n). fold (wosize m n).
  destruct ((n + bsize m n =? Hp_bp cur) && (wosize m n + Whsize_bp m cur <=? Max_wosize)) eqn:Ad.
  2:{ exists b2. do 7 (split; [first [exact C | auto]|]). split; [left; split; [reflexivity|]|].
    - intros d r Hd Fd. destruct (next_adjacent m f b1 n b2 d r C Hd Fd) as [Ec Ea]. fold prev cur in Ec. rewrite Ec, Ea, Z.eqb_refl in Ad. lia.
    - split; [lia|]. split; auto. intros x _ _ a _. reflexivity. }
  apply andb_prop in Ad as [E1 E2]. apply Z.eqb_eq in E1. apply Z.leb_le in E2. unfold Hp_bp in E1.
  pose proof (links_mid m _ _ _ (fo_links _ _ _ _ _ F)) as Ec. rewrite <- Em in Ec. fold cur in Ec.
  assert (Np : 0 < n - sizeof_value) by (apply (tiled_pos m _ n T), whole_blocks; auto).
  assert (Ic : In cur (N m b2)) by (destruct (N m b2) as [|d N']; [lia | rewrite Ec; now left]). apply frees_in in Ic as [Ic Fc].
  destruct (after m b1 n b2 cur T Ic E1) as [b2' ->]. exists b2'.
  destruct (cand_next Dn Rs c l m f b1 n cur b2' _ C Fc E2 eq_refl) as (C' & Wn & EO & U). fold prev in C', Wn, EO, U. set (m' := (m.[prev <- Next m cur]).[n - sizeof_value <- Make_header (wosize m n + Whsize_bp m cur) 0 Caml_blue]) in *. set (f' := if (policy f =? Policy_next_fit) && (fl_prev f =? cur) then set_prev prev f else f) in *.
  assert (Ef : caml_fl_merge f' = prev /\ policy f' = policy f /\ last_fragment f' = last_fragment f) by (unfold f'; destruct (_ && _); auto). destruct Ef as (Ef1 & Ef2 & Ef3).
  pose proof (fo_pos _ _ _ _ _ F cur ltac:(apply in_or_app; right; apply frees_in; auto)) as Wc0. assert (Ec0 : Whsize_bp m cur = wosize m cur + 1) by reflexivity.
  split; [exact C'|]. split; [unfold m', Hd_op; now rewrite upd_same|].
  split; [|split; [|split; [auto|split; [auto|split; [eauto|split; [right; eauto|split; [lia|split; auto]]]]]]].
  - rewrite Ef1. destruct C' as [T' F']. pose proof (links_mid _ _ _ _ (fo_links _ _ _ _ _ F')) as Ec'. rewrite <- (fo_merge _ _ _ _ _ F'), Ef1 in Ec'.
    rewrite Ec'. cbn [app frees filter] in Ec. pose proof (fo_links _ _ _ _ _ F) as Ln. cbn [app frees filter] in Ln. rewrite Fc in Ln.
    apply links_app in Ln as [_ Ln]. fold (N m b2') in Ln.
    assert (EN : N m' b2' = N m b2') by (apply frees_ext; intros x Hx; apply EO, others_in; apply in_app_or in Hx; tauto). rewrite EN.
    destruct (N m b2'); cbn [links] in Ln; [exact Ln | exact (proj1 Ln)].
  - rewrite Wn. pose proof (fo_pos _ _ _ _ _ F cur) as Wc. specialize (Wc ltac:(apply in_or_app; right; apply frees_in; auto)).
    pose proof (Wosize_hd_pos _ (tiled_header m _ n T ltac:(apply whole_blocks; auto))) as Wn'. fold (wosize m n) in Wn'.
    assert (Whsize_bp m cur = wosize m cur + 1) by reflexivity. lia.
Qed.

(** ** The whole *)

(** The header of a block that is not swept yet only follows [last_fragment] when
    this is a fragment. *)
Definition frag_ok (m : mem) (f : free_list) (b1 b2 : list Z) : Prop :=
  forall b, In b (b2 ++ blocks Rs) -> Hp_bp b = last_fragment f ->
    In (last_fragment f) (blocks Dn ++ b1) /\ free m (last_fragment f) = false /\ wosize m (last_fragment f) = 0.

(** The block that is freed is [n0], after the blocks [a]: it is [n] unless this is
    merged with the fragment before it. *)
Definition shape (m : mem) (f : free_list) (b1 : list Z) (n : Z) (a : list Z) (n0 : Z) : Prop :=
  (b1 = a /\ n0 = n /\ (last_fragment f = Hp_bp n -> Max_wosize < Whsize_bp m n)) \/ (b1 = a ++ [n0] /\ free m n0 = false).

Record freed (m : mem) (f : free_list) (b1 : list Z) (n : Z) (b2 : list Z) (next : Z) (m' : mem) (f' : free_list) (b1' b2' : list Z) : Prop := {
  fd_fine : fine m' f' b1' b2';
  fd_next : tile m' c next b1' /\ tile m' next l b2';
  fd_policy : policy f' = policy f;
  fd_rest : b2' = b2 \/ exists cur, free m cur = true /\ b2 = cur :: b2';
  fd_old : forall x, In x b1 -> In x b1' \/ (x = last_fragment f /\ Hp_bp n = x);
  fd_new : forall x, In x b1' -> (In x b1 /\ free m' x = free m x) \/ (free m' x = true /\ (x = n \/ x = last_fragment f)) \/ (x = n /\ wosize m' x = 0 /\ m' = m);
  fd_free : forall x, In x (blocks Dn ++ b2' ++ blocks Rs) -> free m' x = free m x;
  fd_others : forall x, In x (others b1' b2') -> free m x = false -> x <> n -> free m' x = false -> untouched m m' x;
  fd_frag : frag_ok m' f' b1' b2';
  fd_todo : forall x, In x (b2' ++ blocks Rs) -> Hd_op m' x = Hd_op m x;
  fd_last : last_fragment f' = last_fragment f \/ last_fragment f' = n;
  fd_sizes : forall x, In x (blocks Dn) \/ In x b1 /\ In x b1' -> wosize m x <= wosize m' x;
  fd_shape : exists a n0, shape m f b1 n a n0 /\
    ((b1' = a /\ exists a0 p, a = a0 ++ [p] /\ free m p = true) \/
     (b1' = a ++ [n0] /\ forall a0 p, a = a0 ++ [p] -> free m p = true -> Max_wosize <= wosize m p + Whsize_bp m' n0));
  fd_tail : exists b0 x, b1' = b0 ++ [x] /\ wosize m n <= wosize m' x /\ (free m' x = false -> last_fragment f' = x);
  fd_ahead : (b2' = b2 /\ forall d r, b2 = d :: r -> free m d = true -> Max_wosize <= wosize m n + Whsize_bp m d) \/
    exists cur, free m cur = true /\ b2 = cur :: b2' }.

Lemma cand_start m f f0 b1 n b2 : fine m f b1 (n :: b2) -> free m n = false -> caml_fl_merge f0 = caml_fl_merge f -> fl_prev f0 = fl_prev f -> policy f0 = policy f ->
  caml_fl_cur_size f0 = wrap WORD (caml_fl_cur_size f + Whsize_bp m n) -> cand m f0 b1 n b2.
Proof.
  intros [T F] Hn E1 E2 E3 E4. split; [exact T|]. cbn [app frees filter] in F. rewrite Hn in F. apply (free_ok_same m m f f0 _ _ 0); auto; [intros x _ a _; reflexivity|].
  now rewrite Z.sub_0_r.
Qed.

(** The last two merges, after the first. *)
Lemma merge_both_spec m f b1 n b2 : cand m f b1 n b2 -> (wosize m n = 0 -> free m n = false) ->
  let '(cur, hd, m1, f1) := merge_next (caml_fl_merge f) (Next m (caml_fl_merge f)) n (Hd_op m n) m f in
  let '(m', f') := merge_prev (caml_fl_merge f) cur n hd m1 f1 in
  exists b1' b2', merged m b1 n b2 (n + Bosize_hd hd) m' f f' b1' b2' /\ ahead m n b2 b2'.
Proof.
  intros C Hf. pose proof (merge_next_spec m f b1 n b2 C Hf) as H. assert (Em : caml_fl_merge (snd (merge_next (caml_fl_merge f) (Next m (caml_fl_merge f)) n (Hd_op m n) m f)) = caml_fl_merge f).
  { unfold merge_next. destruct (_ && _); [|reflexivity]. cbn [snd]. destruct (_ && _); reflexivity. }
  destruct (merge_next _ _ n _ m f) as [[[cur hd] m1] f1]. cbn [snd] in Em. destruct H as (b2' & C1 & -> & Ec & W1 & Po & Lf & Re & Ah & Wn & EO & U). rewrite Ec. rewrite <- Em.
  pose proof (merge_prev_spec m1 f1 b1 n b2' C1 (fun W => proj1 (W1 W))) as H. destruct (merge_prev _ _ n _ m1 f1) as [m' f']. destruct H as (b1' & [H1 H2 H3 H4 H5 H6 H7 H8 Ht H9 Hs Hp Hl]).
  clear H4. exists b1', b2'. split; [|exact Ah].
  assert (Ws : forall x, In x (others b1 b2') -> wosize m1 x = wosize m x) by (intros x Hx; unfold wosize; now rewrite EO).
  assert (Lp : forall b0 p, b1 = b0 ++ [p] -> In p (others b1 b2')) by (intros b0 p ->; apply others_in; rewrite in_app_iff; cbn; auto).
  assert (Fr : forall x, In x (others b1 b2') -> free m1 x = free m x) by (intros x Hx; unfold free; now rewrite EO).
  assert (Mm : wosize m' n = 0 -> m' = m1 -> m' = m) by (intros W0 ->; now apply W1).
  split; auto; [congruence | intros Hn; destruct (H6 Hn) as [?|(W0 & Ln & Em')]; [auto | right; auto] | destruct H7 as [?|(Ln & Hn & W0 & Em')]; [left; congruence | right; auto] |
    intros x Hx; rewrite H8, Fr; auto | intros x Hx; rewrite Ht by auto; apply EO, others_in; apply in_app_or in Hx; tauto | intros x Hx Fx; apply (untouched_trans m m1); [auto | apply H9; auto; now rewrite Fr] |
    intros x Hx; rewrite <- Ws by exact Hx; now apply Hs | | destruct Hl as (b0 & x & Eb & Wl & Fl); exists b0, x; split; [exact Eb | split; [lia | exact Fl]]].
  destruct Hp as [(Eb & b0 & p & Ep & Fp)|(Eb & Hp)]; [left | right]; (split; [exact Eb|]).
  - exists b0, p. split; [exact Ep|]. rewrite <- Fr; eauto.
  - intros b0 p Ep Fp. rewrite <- Ws by eauto. apply (Hp b0); auto. rewrite Fr; eauto.
Qed.

Lemma merged_freed m f f0 b1 n b2 next m' f' b1' b2' : merged m b1 n b2 next m' f0 f' b1' b2' -> tiled m (whole (b1 ++ n :: b2)) ->
  policy f0 = policy f -> last_fragment f0 = last_fragment f -> frag_ok m f b1 (n :: b2) -> free m n = false -> ahead m n b2 b2' ->
  (last_fragment f = Hp_bp n -> Max_wosize < Whsize_bp m n) -> freed m f b1 n b2 next m' f' b1' b2'.
Proof.
  intros M T Ep El Fg Fn Ah Nf. destruct M as [H1 H2 H3 H4 H5 H6 H7 H8 Ht H9 Hs Hp Hl].
  assert (Sub : forall x, In x (b2' ++ blocks Rs) -> In x (n :: b2 ++ blocks Rs)) by (intros x; destruct H4 as [->|(d & _ & ->)]; cbn; rewrite !in_app_iff; cbn; tauto).
  assert (O1 : forall x, In x (others b1' b2') -> x = n \/ In x (others b1 b2')) by (intros x; rewrite !others_in; destruct H5 as [->| ->]; rewrite ?in_app_iff; cbn; intuition auto).
  split; auto; try congruence.
  - intros x Hx. left. destruct H5 as [->| ->]; [auto | apply in_or_app; auto].
  - intros x Hx. destruct (Z.eq_dec x n) as [->|Nx]; [destruct (H6 Hx) as [?|(W0 & _ & Em)]; [auto | right; right; auto]|]. left.
    assert (Hx' : In x b1) by (destruct H5 as [->| ->]; [auto | apply in_app_or in Hx as [Hx|[<-|[]]]; [auto | contradiction]]). split; auto. apply H8, others_in. auto.
  - intros x Hx. apply H8, others_in. rewrite !in_app_iff in Hx. tauto.
  - intros x Hx Fx Nx _. destruct (O1 x Hx) as [->|Hx']; [contradiction | now apply H9].
  - intros b Hb E. destruct H7 as [El'|(El' & Hn & W0 & Em)].
    + rewrite El', El in *. destruct (Fg b (Sub b Hb) E) as (Il & Fl & Wl).
      assert (Io : In (last_fragment f) (others b1 b2')) by (apply others_in; apply in_app_or in Il; tauto).
      split; [|split; [now rewrite H8 | unfold wosize in *; rewrite (untouched_hd m m'); auto]]. destruct H5 as [->| ->]; [auto|]. rewrite app_assoc. apply in_or_app. auto.
    + rewrite El' in *. split; [apply in_or_app; auto|]. subst m'. auto.
  - destruct H7 as [E|(E & _)]; [left; congruence | right; exact E].
  - intros x Hx. apply Hs, others_in. tauto.
  - exists b1, n. split; [left; auto | exact Hp].
  - destruct Ah as [[Eb Ah]|Ah]; [left | right; exact Ah]. split; [exact Eb|]. intros d r Ed Fd. apply Z.lt_le_incl, (Ah d r Ed Fd).
Qed.

Lemma fragment_freed m f f0 b0 fr n b2 m1 f1 next m' f' b1' b2' : merged m1 b0 fr b2 next m' f1 f' b1' b2' -> tiled m (whole ((b0 ++ [fr]) ++ n :: b2)) ->
  fr = Hp_bp n -> free m1 fr = false -> wosize m1 fr <> 0 -> free m fr = false -> wosize m fr = 0 -> wosize m1 fr = Whsize_bp m n -> ahead m1 fr b2 b2' -> (forall x, In x (others b0 b2) -> untouched m m1 x) ->
  policy f0 = policy f -> policy f1 = policy f0 -> last_fragment f1 = fr -> last_fragment f = fr -> freed m f (b0 ++ [fr]) n b2 next m' f' b1' b2'.
Proof.
  intros M T Efr Ff Wf Ff0 Wf0 Wf1 Ah U Ep Ep1 El1 El. destruct M as [H1 H2 H3 H4 H5 H6 H7 H8 Ht H9 Hs Hp Hl]. destruct (whole_nodup Dn Rs c l m _ n b2 T) as [_ Nn].
  assert (Fr : forall x, In x (others b0 b2) -> free m1 x = free m x) by (intros x Hx; unfold free; now rewrite (untouched_hd m m1 x (U x Hx))).
  assert (Sub : forall x, In x (others b0 b2') -> In x (others b0 b2)) by (intros x; rewrite !others_in; destruct H4 as [->|(d & _ & ->)]; cbn; tauto).
  assert (O1 : forall x, In x (others b1' b2') -> x = fr \/ In x (others b0 b2')) by (intros x; rewrite !others_in; destruct H5 as [->| ->]; rewrite ?in_app_iff; cbn; intuition auto).
  assert (Wz : forall x, In x (blocks Dn) \/ In x b0 -> wosize m1 x = wosize m x) by (intros x Hx; unfold wosize; rewrite (untouched_hd m m1 x); auto; apply U, others_in; tauto).
  assert (Hh : forall x, In x b1' -> 0 <= wosize m' x).
  { intros x Hx. apply Wosize_hd_pos. apply (tiled_header m' _ x (fi_tiled _ _ _ _ _ _ _ _ H1)). unfold FlTile.whole. rewrite blocks_app. cbn [blocks flat_map snd]. rewrite !in_app_iff. auto. }
  assert (Bf : In fr b1' -> free m' fr = true) by (intros Hf; destruct (H6 Hf) as [?|(W0 & _ & ->)]; [auto | contradiction]).
  split; auto; try congruence.
  - destruct H4 as [->|(d & Fd & Ed)]; [now left | right]. exists d. split; auto. rewrite <- Fd. symmetry. apply Fr, others_in. rewrite Ed. cbn. auto.
  - intros x Hx. apply in_app_or in Hx as [Hx|[<-|[]]]; [left | right; split; congruence]. destruct H5 as [->| ->]; [auto | apply in_or_app; auto].
  - intros x Hx. destruct (Z.eq_dec x fr) as [->|Nx]; [auto|]. assert (Hx' : In x b0) by (destruct H5 as [->| ->]; [auto | apply in_app_or in Hx as [Hx|[<-|[]]]; [auto | contradiction]]).
    left. split; [apply in_or_app; auto|]. rewrite H8 by (apply others_in; auto). apply Fr, others_in. auto.
  - intros x Hx. rewrite !in_app_iff in Hx. rewrite H8 by (apply others_in; tauto). apply Fr, Sub, others_in. tauto.
  - intros x Hx Fx Nx Fx'. destruct (O1 x Hx) as [->|Hx'].
    { destruct (in_dec Z.eq_dec fr b1') as [Hf|Hf]; [rewrite Bf in Fx' by auto; discriminate Fx'|]. exfalso. rewrite <- app_assoc in T. cbn [app] in T.
      apply (proj2 (whole_nodup Dn Rs c l m b0 fr (n :: b2) T)). apply others_in in Hx as [Hx|[Hx|Hx]]; [| contradiction|]; apply others_in; [auto|]. destruct H4 as [->|(d & _ & ->)]; cbn; tauto. }
    apply (untouched_trans m m1); [auto|]. apply H9; auto. now rewrite Fr; auto.
  - intros b Hb E. exfalso. destruct H7 as [El'|(_ & _ & W0 & ->)]; [|contradiction]. assert (b = n) by (rewrite El', El1, Efr in E; unfold Hp_bp in E; lia). subst b.
    apply Nn, others_in. apply in_app_or in Hb as [Hb|Hb]; [|auto]. destruct H4 as [->|(d & _ & ->)]; cbn; auto.
  - intros x Hx. rewrite Ht by auto. apply untouched_hd, U, Sub, others_in. apply in_app_or in Hx. tauto.
  - destruct H7 as [E|(_ & _ & W0 & ->)]; [left; congruence | contradiction].
  - intros x Hx. assert (Hx' : (In x (blocks Dn) \/ In x b0) \/ x = fr /\ In fr b1').
    { destruct Hx as [Hx|[Hx Hx']]; [auto|]. apply in_app_or in Hx as [Hx|[<-|[]]]; auto. }
    destruct Hx' as [Hx'|[-> Hx']]; [rewrite <- (Wz x Hx'); apply Hs, others_in; tauto | rewrite Wf0; now apply Hh].
  - exists b0, fr. split; [right; auto|]. destruct Hp as [(Eb & a0 & p & Ea & Fp)|(Eb & Hp)]; [left | right]; (split; [exact Eb|]).
    + exists a0, p. split; [exact Ea|]. rewrite <- Fr; auto. rewrite Ea. apply others_in. rewrite in_app_iff. cbn. auto.
    + intros a0 p Ea Fp. assert (Ip : In p b0) by (rewrite Ea; apply in_or_app; right; now left). rewrite <- (Wz p (or_intror Ip)). apply (Hp a0 p Ea). rewrite Fr; auto. apply others_in. auto.
  - destruct Hl as (l0 & x & El0 & Wl & Fl). exists l0, x. split; [exact El0|]. split; [|exact Fl]. rewrite Wf1 in Wl. unfold Whsize_bp, Whsize_hd, Whsize_wosize in Wl. fold (wosize m n) in Wl. lia.
  - destruct Ah as [[Eb Ah]|(d & Fd & Ed)].
    + left. split; [exact Eb|]. intros d r Ed Fd. assert (Id : In d (others b0 b2)) by (apply others_in; rewrite Ed; cbn; auto).
      specialize (Ah d r Ed). unfold Whsize_bp in Ah at 1. rewrite (untouched_hd m m1 d (U d Id)) in Ah. rewrite Fr in Ah by exact Id. specialize (Ah Fd).
      rewrite Wf1 in Ah. unfold Whsize_bp in *. unfold Whsize_hd in Ah at 1. unfold Whsize_wosize in Ah at 1. fold (wosize m n) in Ah. lia.
    + right. exists d. split; [|exact Ed]. rewrite <- Fd. symmetry. apply Fr, others_in. rewrite Ed. cbn. auto.
Qed.

Lemma merge_block_spec m f b1 n b2 : fine m f b1 (n :: b2) -> free m n = false -> frag_ok m f b1 (n :: b2) ->
  let '(next, m', f') := caml_fl_merge_block n m f in exists b1' b2', freed m f b1 n b2 next m' f' b1' b2'.
Proof.
  intros Fi Fn Fg. unfold caml_fl_merge_block. change (Whsize_hd (Hd_op m n)) with (Whsize_bp m n). set (prev := caml_fl_merge _).
  set (f0 := if policy _ =? Policy_first_fit then _ else _).
  assert (E0 : caml_fl_merge f0 = prev /\ fl_prev f0 = fl_prev f /\ policy f0 = policy f /\ last_fragment f0 = last_fragment f /\ caml_fl_cur_size f0 = wrap WORD (caml_fl_cur_size f + Whsize_bp m n)).
  { unfold f0. destruct (_ =? _); [|split; [reflexivity | auto]]. unfold truncate_flp. destruct (_ =? _); cbn; auto. }
  destruct E0 as (E1 & E2 & E3 & E4 & E5). change (caml_fl_merge (add_size (Whsize_bp m n) f)) with (caml_fl_merge f) in prev.
  pose proof (cand_start m f f0 b1 n b2 Fi Fn E1 E2 E3 E5) as C. pose proof C as [T F]. unfold merge_fragment. rewrite E4.
  destruct ((last_fragment f =? Hp_bp n) && (Whsize_bp m n <=? Max_wosize)) eqn:Ad.
  - apply andb_prop in Ad as [A1 A2]. apply Z.eqb_eq in A1. apply Z.leb_le in A2. set (fr := last_fragment f) in *. symmetry in A1.
    destruct (Fg n (or_introl eq_refl) A1) as (Il & Fl & Wl). fold fr in Il, Fl, Wl.
    destruct (before m b1 n b2 fr T Il) as [b0 Eb]; [unfold bsize; rewrite Wl; unfold Bsize_wsize; unfold Hp_bp in A1; lia|]. subst b1.
    destruct (cand_fragment Dn Rs c l m f0 b0 fr n b2 C Fl Wl A2) as (C1 & Fr1 & Wr1 & U1). set (m1 := m.[_ <- _]) in *. set (f1 := add_size _ f0) in *.
    assert (Ec : Next m prev = Next m1 (caml_fl_merge f1)).
    { change (caml_fl_merge f1) with (caml_fl_merge f0). rewrite E1. unfold Next, m1. symmetry. apply upd_other. pose proof (fo_merge _ _ _ _ _ F) as Em. rewrite E1 in Em.
      rewrite <- app_assoc in T. cbn [app] in T. intros E. destruct (prev_cases Dn Rs c l m f0 (b0 ++ [fr]) n b2) as [Eh|(Ip & Iw & _ & Wp)]; [rewrite <- app_assoc; exact T | exact F | |].
      - rewrite <- Em in Eh. apply (proj1 (tiled_head m _ fr T ltac:(apply whole_blocks; auto))). rewrite <- Eh, E. apply cell_hd.
      - rewrite <- Em in *. rewrite <- app_assoc in Iw. cbn [app] in Iw. destruct (Z.eq_dec prev fr) as [Epf|Npf]; [rewrite <- Epf in E; pose proof sizeof_value_pos; lia|].
        apply (tiled_cell m _ prev fr prev T Iw); [apply whole_blocks; auto | exact Npf | now apply cell_first | rewrite E; apply cell_hd]. }
    rewrite Ec. assert (Eh : Make_header (Whsize_bp m n) 0 Caml_white = Hd_op m1 fr) by (unfold m1, Hd_op; now rewrite upd_same). rewrite Eh.
    change prev with (caml_fl_merge f) in E1. assert (Ep : prev = caml_fl_merge f1) by (symmetry; exact E1). rewrite Ep.
    assert (W1 : wosize m1 fr <> 0).
    { rewrite Wr1. pose proof (Wosize_hd_pos _ (tiled_header m _ n T ltac:(apply whole_blocks; auto))). unfold Whsize_bp, Whsize_hd, Whsize_wosize. lia. }
    pose proof (merge_both_spec m1 f1 b0 fr b2 C1 ltac:(contradiction)) as H. destruct (merge_next _ _ fr _ m1 f1) as [[[cur hd] m2] f2].
    destruct (merge_prev _ cur fr hd m2 f2) as [m' f']. destruct H as (b1' & b2' & M & Ah). exists b1', b2'.
    exact (fragment_freed m f f0 b0 fr n b2 m1 f1 _ m' f' b1' b2' M T (eq_sym A1) Fr1 W1 Fl Wl Wr1 Ah U1 E3 eq_refl E4 eq_refl).
  - pose proof (merge_both_spec m f0 b1 n b2 C (fun _ => Fn)) as H. rewrite E1 in H. destruct (merge_next _ _ n _ m f0) as [[[cur hd] m2] f2].
    destruct (merge_prev _ cur n hd m2 f2) as [m' f']. destruct H as (b1' & b2' & M & Ah). exists b1', b2'. apply (merged_freed m f f0); auto.
    intros El. rewrite El, Z.eqb_refl in Ad. apply Z.leb_gt in Ad. exact Ad.
Qed.
End Block.

Section Frame.
Context {A : Arch} {Sn : Sentinel}.

Section Bounds.
Variable bounds : list (Z * Z).
Definition inside (a : Z) : Prop := exists s, In s bounds /\ fst s <= a < snd s.
Definition writable (a : Z) : Prop := inside a \/ a = Fl_head \/ a = Fl_head - sizeof_value.
Definition fixed (m m' : mem) : Prop := forall a, ~ writable a -> m' a = m a.

Lemma fixed_refl m : fixed m m.
Proof. intros a _. reflexivity. Qed.
Lemma fixed_trans m1 m2 m3 : fixed m1 m2 -> fixed m2 m3 -> fixed m1 m3.
Proof. intros H1 H2 a Ha. now rewrite H2, H1. Qed.
Lemma fixed_upd m m' a v : writable a -> fixed m m' -> fixed m (m'.[a <- v]).
Proof. intros Ha H x Hx. rewrite upd_other; [now apply H | intros ->; contradiction]. Qed.

Lemma merge_next_fixed prev cur bp hd m f : writable prev -> writable (bp - sizeof_value) ->
  let '(_, hd', m', _) := merge_next prev cur bp hd m f in fixed m m' /\ (hd' = hd \/ bp + Bosize_hd hd = Hp_bp cur).
Proof.
  intros Wp Wb. unfold merge_next. destruct ((_ =? _) && _) eqn:E; [|split; [apply fixed_refl | auto]]. apply andb_prop in E as [E _]. apply Z.eqb_eq in E.
  split; auto. apply fixed_upd; auto. apply fixed_upd; auto. apply fixed_refl.
Qed.
Lemma merge_prev_fixed prev cur bp hd m f : writable prev -> writable (prev - sizeof_value) -> writable (bp - sizeof_value) -> (Wosize_hd hd <> 0 -> writable bp) ->
  fixed m (fst (merge_prev prev cur bp hd m f)).
Proof.
  intros Wp Wh Wb W. unfold merge_prev. destruct (_ && _); [|destruct (Z.eqb_spec (Wosize_hd hd) 0); cbn [negb]]; cbn [fst]; repeat (apply fixed_upd; auto); apply fixed_refl.
Qed.
End Bounds.

Section Block.
Variables (Dn Rs : list seg) (c l : Z).
Notation whole := (whole Dn Rs c l).
Notation bounds := (map fst Dn ++ (c, l) :: map fst Rs).

Lemma whole_inside m bs b : tiled m (whole bs) -> In b (blocks (whole bs)) -> inside bounds (b - sizeof_value) /\ (0 < wosize m b -> inside bounds b).
Proof.
  intros T Hb. destruct (tiled_block m _ b T Hb) as (s & Hs & _ & Ho & R1 & R2). pose proof sizeof_value_pos. pose proof (bsize_nonneg m b Ho).
  assert (Is : In (fst s) bounds) by (apply (in_map fst) in Hs; unfold FlTile.whole in Hs; now rewrite map_app in Hs).
  split; [exists (fst s); split; auto; lia|]. intros W. exists (fst s). split; auto. unfold bsize, Bsize_wsize in *. nia.
Qed.

Lemma merge_block_fixed m f b1 n b2 : fine Dn Rs c l m f b1 (n :: b2) -> frag_ok Dn Rs m f b1 (n :: b2) ->
  let '(_, m', _) := caml_fl_merge_block n m f in fixed bounds m m'.
Proof.
  intros [T F] Fg. unfold caml_fl_merge_block. set (prev := caml_fl_merge _). set (f0 := if _ =? Policy_first_fit then _ else _).
  assert (E0 : last_fragment f0 = last_fragment f) by (unfold f0; destruct (_ =? _); [unfold truncate_flp; destruct (_ =? _)|]; reflexivity).
  assert (Bn : In n (blocks (whole (b1 ++ n :: b2)))) by (apply whole_blocks; auto). destruct (whole_inside m _ n T Bn) as [In1 In2].
  pose proof (Wosize_hd_pos _ (tiled_header m _ n T Bn)) as Wn. fold (wosize m n) in Wn.
  assert (Sub : forall x, In x (frees m (blocks Dn ++ b1) ++ frees m ((n :: b2) ++ blocks Rs)) -> In x (blocks (whole (b1 ++ n :: b2)))).
  { intros x Hx. rewrite !frees_app, !in_app_iff, !frees_in in Hx. apply whole_blocks. rewrite others_in. cbn [In] in Hx. intuition auto. }
  assert (Wp : writable bounds prev /\ writable bounds (prev - sizeof_value)).
  { assert (Ep : prev = caml_fl_merge f) by reflexivity. rewrite (fo_merge _ _ _ _ _ F) in Ep. destruct (last_in (frees m (blocks Dn ++ b1)) Fl_head) as [E|H].
    - rewrite Ep, <- E. unfold writable. auto.
    - rewrite <- Ep in H. destruct (whole_inside m _ prev T (Sub prev ltac:(apply in_or_app; auto))) as [I1 I2].
      split; left; auto. apply I2, (fo_pos _ _ _ _ _ F). apply in_or_app. auto. }
  destruct Wp as [Wp Wh]. unfold merge_fragment. rewrite E0. pose proof (tiled_pos m _ n T Bn) as Pn.
  destruct ((last_fragment f =? Hp_bp n) && (Whsize_bp m n <=? Max_wosize)) eqn:Ad.
  - apply andb_prop in Ad as [A1 A2]. apply Z.eqb_eq in A1. symmetry in A1. destruct (Fg n (or_introl eq_refl) ltac:(congruence)) as (If & _ & _). set (fr := last_fragment f) in *.
    destruct (whole_inside m _ fr T) as [Fr1 _]; [apply whole_blocks; rewrite others_in; apply in_app_or in If; tauto|].
    assert (Wf : writable bounds fr) by (left; rewrite <- A1; exact In1). assert (Wf1 : writable bounds (fr - sizeof_value)) by (left; exact Fr1).
    set (h := Make_header _ _ _). set (m1 := m.[_ <- h]). pose proof (merge_next_fixed bounds prev (Next m prev) fr h m1 (add_size (Whsize_wosize 0) f0) Wp Wf1) as N.
    destruct (merge_next prev _ fr h m1 _) as [[[cur hd] m2] f2]. destruct N as [N _].
    pose proof (merge_prev_fixed bounds prev cur fr hd m2 f2 Wp Wh Wf1 (fun _ => Wf)) as Q. destruct (merge_prev prev cur fr hd m2 f2) as [m3 f3]. cbn [fst] in Q.
    apply (fixed_trans _ _ m2); [apply (fixed_trans _ _ m1); [apply fixed_upd; auto; apply fixed_refl | exact N] | exact Q].
  - assert (Wn1 : writable bounds (n - sizeof_value)) by (left; exact In1). pose proof (merge_next_fixed bounds prev (Next m prev) n (Hd_op m n) m f0 Wp Wn1) as N.
    destruct (merge_next prev _ n _ m f0) as [[[cur hd] m2] f2]. destruct N as [N Eh].
    assert (Wb : Wosize_hd hd <> 0 -> writable bounds n).
    { intros Nz. left. destruct (Z.eq_dec (wosize m n) 0) as [Z0|]; [|apply In2; lia]. destruct Eh as [->|Eh]; [contradiction|].
      assert (Ec : Next m prev = Hp_bp (Next m prev) + sizeof_value) by (unfold Hp_bp; lia). rewrite <- Eh in Ec. unfold Bosize_hd in Ec. fold (wosize m n) in Ec. rewrite Z0 in Ec. unfold Bsize_wsize in Ec.
      pose proof (fo_links _ _ _ _ _ F) as Ln. apply links_mid in Ln. rewrite <- (fo_merge _ _ _ _ _ F) in Ln. change (caml_fl_merge f) with prev in Ln. pose proof sizeof_value_pos as Sp.
      destruct (frees m ((n :: b2) ++ blocks Rs)) as [|d N2] eqn:EN; [lia|]. destruct (whole_inside m _ d T) as [I1 _]; [apply Sub, in_or_app; right; now left|].
      replace n with (d - sizeof_value) by lia. exact I1. }
    pose proof (merge_prev_fixed bounds prev cur n hd m2 f2 Wp Wh Wn1 Wb) as Q. destruct (merge_prev prev cur n hd m2 f2) as [m3 f3]. cbn [fst] in Q.
    exact (fixed_trans _ _ _ _ N Q).
Qed.
End Block.
End Frame.
