(* ===== verification/FlSweep.v ===== *)
(** FlSweep: sweeping turns the blocks that are not black into free blocks, or
    fragments, and keeps the others. *)
From Stdlib Require Import ZArith Lia List Bool.
From S2P Require Import Prelude Mlvalues InterpState ExternOutput MarshalBytes MarshalTrail MarshalDecode Gc GcGraph Freelist FlTile FlFree FlBlock.
Import ListNotations.
Local Open Scope Z_scope.

Section Sweeping.
Context {A : Arch} {Env : Heap_env} {Sn : Sentinel}.
Variable has_finalize : Z -> bool.

(** The bounds of the chunks from [c]. *)
Inductive chunk_list : Z -> list (Z * Z) -> Prop :=
  | chunk_nil : chunk_list 0 []
  | chunk_cons c r : c <> 0 -> chunk_list (Chunk_next c) r -> chunk_list c ((c, c + Chunk_size c) :: r).

Definition same_fields (m m' : mem) (b : Z) : Prop := forall i, 0 <= i < wosize m b -> Op_val m' b i = Op_val m b i.
(** A custom block that dies and has a finalisation function. *)
Definition dead_custom (m : mem) (b : Z) : bool :=
  Is_white_hd (Hd_op m b) && (Tag_hd (Hd_op m b) =? Custom_tag) && has_finalize (Op_val m b 0).

(** What sweeping does not change. *)
Definition marker_state : Type := list Z * bool * Z * Z * list final * list (list final).
Definition marker_vars (g : gc) : marker_state := (gray_vals g, heap_is_pure g, markhp g, caml_gc_subphase g, finalisable g, to_do g).

Section From.
(** The memory, the blocks, the finalisation calls, the bounds of the chunks and
    the variables of the marker when sweeping starts. *)
Variables (m0 : mem) (B : list Z) (calls0 : list Z) (bounds : list (Z * Z)) (vars0 : marker_state).
Definition survives (b : Z) : Prop := In b B /\ color m0 b = Caml_black.

(** Blocks that have been swept, and those that have not. *)
Definition swept_ok (m : mem) (b : Z) : Prop :=
  (survives b /\ Hd_op m b = Whitehd_hd (Hd_op m0 b) /\ same_fields m0 m b) \/ (~ survives b /\ free m b = true) \/ (~ survives b /\ color m b = Caml_white /\ wosize m b = 0 /\ In b B /\ Hd_op m b = Hd_op m0 b).
Definition unswept_ok (m : mem) (b : Z) : Prop :=
  In b B /\ Hd_op m b = Hd_op m0 b /\ (free m b = false -> same_fields m0 m b) /\
  (color m0 b = Caml_white \/ color m0 b = Caml_blue \/ color m0 b = Caml_black).

Record sweep_inv (s : sweeper) (Dn : list seg) (c : Z) (b1 b2 : list Z) (Rs : list seg) : Prop := {
  sw_phase : caml_gc_phase (collector s) = Phase_sweep;
  sw_chunk : chunk (collector s) = c /\ limit (collector s) = c + Chunk_size c;
  sw_chunks : chunk_list (Chunk_next c) (map fst Rs);
  sw_bounds : map fst Dn ++ (c, limit (collector s)) :: map fst Rs = bounds;
  sw_fine : fine Dn Rs c (limit (collector s)) (memory (collector s)) (fl s) b1 b2;
  sw_tiles : tile (memory (collector s)) c (caml_gc_sweep_hp (collector s)) b1 /\ tile (memory (collector s)) (caml_gc_sweep_hp (collector s)) (limit (collector s)) b2;
  sw_frag : frag_ok Dn Rs (memory (collector s)) (fl s) b1 b2;
  sw_done : forall b, In b (blocks Dn ++ b1) -> swept_ok (memory (collector s)) b;
  sw_todo : forall b, In b (b2 ++ blocks Rs) -> unswept_ok (memory (collector s)) b;
  sw_kept : forall b, survives b -> In b (others Dn Rs b1 b2);
  sw_fragment : ~ survives (last_fragment (fl s));
  sw_calls : rev (filter (dead_custom m0) (b2 ++ blocks Rs)) ++ finalized s = rev (filter (dead_custom m0) B) ++ calls0;
  sw_fixed : fixed bounds m0 (memory (collector s));
  sw_vars : marker_vars (collector s) = vars0 }.

(** Two blocks that are free or fragments are next to each other only when a single
    block would be too large, or when the second was already free when sweeping
    started, and after a free block. *)
Definition after_free (y : Z) : Prop := color m0 y = Caml_blue /\ exists d, In d B /\ color m0 d = Caml_blue /\ d + bsize m0 d = Hp_bp y.
Definition unmerged (m : mem) (x y : Z) : Prop := Max_wosize <= wosize m x + Whsize_bp m y \/ after_free y.
Definition coalesced (m : mem) (l : list Z) : Prop :=
  forall a x y r, l = a ++ x :: y :: r -> ~ survives x -> ~ survives y -> unmerged m x y.

Record merge_inv (s : sweeper) (Dn : list seg) (b1 b2 : list Z) : Prop := {
  mg_done : forall sg, In sg Dn -> coalesced (memory (collector s)) (snd sg);
  mg_here : coalesced (memory (collector s)) b1;
  mg_ahead : forall a x d r, b1 = a ++ [x] -> b2 = d :: r -> ~ survives x -> color m0 d = Caml_blue -> unmerged (memory (collector s)) x d;
  mg_frag : forall a x, b1 = a ++ [x] -> ~ survives x -> free (memory (collector s)) x = false -> last_fragment (fl s) = x }.

(** The end of sweeping. *)
Record swept (s : sweeper) (S : list seg) : Prop := {
  fs_phase : caml_gc_phase (collector s) = Phase_idle;
  fs_bounds : map fst S = bounds;
  fs_tiled : tiled (memory (collector s)) S;
  fs_links : links (memory (collector s)) Fl_head (frees (memory (collector s)) (blocks S)) 0;
  fs_size : caml_fl_cur_size (fl s) = wrap WORD (total (memory (collector s)) (frees (memory (collector s)) (blocks S)));
  fs_prev : policy (fl s) = Policy_next_fit -> In (fl_prev (fl s)) (Fl_head :: frees (memory (collector s)) (blocks S));
  fs_pos : forall b, In b (frees (memory (collector s)) (blocks S)) -> 0 < wosize (memory (collector s)) b;
  fs_blocks : forall b, In b (blocks S) -> swept_ok (memory (collector s)) b;
  fs_kept : forall b, survives b -> In b (blocks S);
  fs_calls : finalized s = rev (filter (dead_custom m0) B) ++ calls0;
  fs_head : wosize (memory (collector s)) Fl_head = 0;
  fs_fixed : fixed bounds m0 (memory (collector s));
  fs_vars : marker_vars (collector s) = vars0;
  fs_merged : forall sg, In sg S -> coalesced (memory (collector s)) (snd sg) }.

Lemma color_white m b : color m b = Caml_white -> free m b = false.
Proof. unfold free, Is_blue_hd. fold (color m b). now intros ->. Qed.
Lemma color_black m b : color m b = Caml_black -> free m b = false.
Proof. unfold free, Is_blue_hd. fold (color m b). now intros ->. Qed.
Lemma color_blue m b : free m b = true <-> color m b = Caml_blue.
Proof. apply Z.eqb_eq. Qed.

Lemma untouched_same m m' b : untouched m m' b -> wosize m b = wosize m0 b -> same_fields m0 m b -> same_fields m0 m' b.
Proof. intros U Ew F i Hi. rewrite (untouched_field m m' b i U) by (rewrite Ew; exact Hi). now apply F. Qed.

Hypothesis (Ok0 : forall b, In b B -> header_ok (Hd_op m0 b)) (Ok1 : forall b, In b B -> color m0 b = Caml_white -> tag m0 b = Custom_tag -> 0 < wosize m0 b).

Lemma swept_untouched m m' b : untouched m m' b -> swept_ok m b -> swept_ok m' b.
Proof.
  intros U [(Sb & Eh & F)|[[Ns Fb]|(Ns & Cb & Wb & Ib & Eb)]].
  - left. split; auto. rewrite (untouched_hd m m' b U). split; auto. apply (untouched_same m); auto. unfold wosize. rewrite Eh. apply (Whitehd_recolor _ (Ok0 b (proj1 Sb))).
  - right. left. split; auto. unfold free. now rewrite (untouched_hd m m' b U).
  - right. right. unfold color, wosize in *. rewrite (untouched_hd m m' b U). auto.
Qed.
Lemma swept_free m b : swept_ok m b -> free m b = true -> ~ survives b.
Proof.
  intros [(Sb & Eh & _)|[[Ns _]|(Ns & _)]] F; auto. pose proof (Whitehd_recolor _ (Ok0 b (proj1 Sb))) as (_ & _ & _ & C). rewrite <- Eh in C. apply color_white in C. congruence.
Qed.
Lemma unswept_untouched m m' b : untouched m m' b -> unswept_ok m b -> unswept_ok m' b.
Proof.
  intros U (Hb & Eh & F & Cl). split; auto. rewrite (untouched_hd m m' b U). split; auto. split; auto.
  unfold free. rewrite (untouched_hd m m' b U). intros Fb. apply (untouched_same m); auto. unfold wosize. now rewrite Eh.
Qed.

(** ** Merging *)

Lemma unmerged_grows m m' x y : wosize m x <= wosize m' x -> wosize m y <= wosize m' y -> unmerged m x y -> unmerged m' x y.
Proof. intros Hx Hy [H|H]; [left | right; exact H]. unfold Whsize_bp, Whsize_hd, Whsize_wosize in *. fold (wosize m y) (wosize m' y) in *. lia. Qed.
Lemma coalesced_grows m m' l : (forall x, In x l -> wosize m x <= wosize m' x) -> coalesced m l -> coalesced m' l.
Proof.
  intros H C a x y r E Sx Sy. apply (unmerged_grows m); [apply H | apply H | exact (C a x y r E Sx Sy)]; rewrite E, in_app_iff; cbn; auto.
Qed.
Lemma coalesced_prefix m l l' : coalesced m (l ++ l') -> coalesced m l.
Proof. intros C a x y r -> Sx Sy. apply (C a x y (r ++ l')); auto. rewrite <- app_assoc. reflexivity. Qed.
Lemma coalesced_snoc m l n : coalesced m l -> (forall a x, l = a ++ [x] -> ~ survives x -> ~ survives n -> unmerged m x n) -> coalesced m (l ++ [n]).
Proof.
  intros C L a x y r E Sx Sy. destruct r as [|z r] using rev_ind.
  - change (a ++ [x; y]) with (a ++ [x] ++ [y]) in E. rewrite app_assoc in E. apply app_inj_tail in E as [-> <-]. now apply (L a).
  - clear IHr. change (a ++ x :: y :: r ++ [z]) with (a ++ (x :: y :: r) ++ [z]) in E. rewrite app_assoc in E. apply app_inj_tail in E as [-> <-]. now apply (C a x y r).
Qed.
Lemma coalesced_last m a x y : coalesced m ((a ++ [x]) ++ [y]) -> ~ survives x -> ~ survives y -> unmerged m x y.
Proof. intros C. apply (C a x y []). rewrite <- app_assoc. reflexivity. Qed.

Lemma white_merge s s' Dn c b1 n b2 Rs next b1' b2' : sweep_inv s Dn c b1 (n :: b2) Rs -> merge_inv s Dn b1 (n :: b2) ->
  freed Dn Rs c (limit (collector s)) (memory (collector s)) (fl s) b1 n b2 next (memory (collector s')) (fl s') b1' b2' -> merge_inv s' Dn b1' b2'.
Proof.
  intros I [D1 D2 D3 D4] Fd. destruct (sw_tiles _ _ _ _ _ _ I) as [_ T2]. pose proof (fi_tiled _ _ _ _ _ _ _ _ (sw_fine _ _ _ _ _ _ I)) as T.
  set (m := memory (collector s)) in *. set (m' := memory (collector s')) in *. pose proof (whole_tile Dn Rs c _ m _ T) as Tw.
  pose proof (fd_sizes _ _ _ _ _ _ _ _ _ _ _ _ _ _ Fd) as Sz. destruct (fd_tail _ _ _ _ _ _ _ _ _ _ _ _ _ _ Fd) as (bt & xt & Et & Wt & Lt).
  assert (Todo : forall x, In x (b2 ++ blocks Rs) -> Hd_op m x = Hd_op m0 x /\ In x B) by (intros x Hx; destruct (sw_todo _ _ _ _ _ _ I x (or_intror Hx)) as (? & ? & _); auto).
  assert (Wm : forall x, In x b1 -> 0 <= wosize m x).
  { intros x Hx. apply Wosize_hd_pos, (tiled_header m _ x T), whole_blocks, or_intror, others_in. auto. }
  split; fold m m'.
  - intros sg Hs. apply (coalesced_grows m); [|now apply D1]. intros x Hx. apply Sz. left. apply in_flat_map. eauto.
  - destruct (fd_shape _ _ _ _ _ _ _ _ _ _ _ _ _ _ Fd) as (a & n0 & Sh & [(-> & _)|(-> & Big)]).
    { assert (Ca : coalesced m a) by (destruct Sh as [(-> & _)|(-> & _)]; [exact D2 | exact (coalesced_prefix _ _ _ D2)]).
      apply (coalesced_grows m); [|exact Ca]. intros x Hx. apply Sz. right. split; auto. destruct Sh as [(-> & _)|(-> & _)]; [auto | apply in_or_app; auto]. }
    assert (Ia : forall x, In x a -> wosize m x <= wosize m' x) by (intros x Hx; apply Sz; right; split; [destruct Sh as [(-> & _)|(-> & _)]; [auto|]|]; apply in_or_app; auto).
    apply coalesced_snoc.
    + apply (coalesced_grows m); [exact Ia|]. destruct Sh as [(-> & _)|(-> & _)]; [exact D2 | exact (coalesced_prefix _ _ _ D2)].
    + intros a0 u -> Su Sn0. assert (Iu : In u (a0 ++ [u])) by (apply in_or_app; right; now left). pose proof (Ia u Iu) as Wu.
      destruct (free m u) eqn:Fu; [left; specialize (Big a0 u eq_refl Fu); lia|]. destruct Sh as [(-> & -> & Nf)|(-> & _)].
      * specialize (D4 a0 u eq_refl Su Fu). assert (Zu : wosize m u = 0).
        { destruct (sw_done _ _ _ _ _ _ I u) as [(K & _)|[[_ K]|(_ & _ & K & _)]]; [apply in_or_app; auto | contradiction | fold m in K; congruence | exact K]. }
        rewrite <- app_assoc in Tw. pose proof (tile_adjacent _ _ _ _ _ _ _ Tw) as Ea. unfold bsize in Ea. rewrite Zu in Ea. unfold Bsize_wsize in Ea.
        apply app_inj_tail in Et as [_ <-]. left. specialize (Nf ltac:(rewrite D4; lia)). unfold Whsize_bp, Whsize_hd, Whsize_wosize in *. fold (wosize m n) in Nf. fold (wosize m' n). lia.
      * apply (unmerged_grows m); [exact Wu | apply Sz; right; split; apply in_or_app; right; now left | exact (coalesced_last _ _ _ _ D2 Su Sn0)].
  - intros a x d r E1 E2 Sx Cd. rewrite Et in E1. apply app_inj_tail in E1 as [-> ->].
    assert (Id : In d (b2 ++ blocks Rs)) by (destruct (fd_rest _ _ _ _ _ _ _ _ _ _ _ _ _ _ Fd) as [E|(k & _ & E)]; rewrite E in *; rewrite E2; cbn; auto).
    destruct (Todo d Id) as [Ed _]. assert (Fr : free m d = true) by (unfold free; rewrite Ed; now apply color_blue).
    destruct (fd_ahead _ _ _ _ _ _ _ _ _ _ _ _ _ _ Fd) as [(E & Ah)|(k & Fk & E)].
    + left. specialize (Ah d r ltac:(congruence) Fr). unfold Whsize_bp. rewrite (fd_todo _ _ _ _ _ _ _ _ _ _ _ _ _ _ Fd) by (rewrite E2; now left). fold (Whsize_bp m d). lia.
    + right. split; [exact Cd|]. exists k. rewrite E, E2 in *. destruct (Todo k ltac:(now left)) as [Ek Ik]. split; [exact Ik|].
      split; [unfold free in Fk; rewrite Ek in Fk; now apply color_blue|]. change (n :: k :: d :: r) with ([n] ++ k :: d :: r) in Tw. rewrite app_assoc in Tw.
      pose proof (tile_adjacent _ _ _ _ _ _ _ Tw) as Ea. unfold bsize, wosize in *. now rewrite Ek in Ea.
  - intros a x E Sx Fx. rewrite Et in E. apply app_inj_tail in E as [-> ->]. auto.
Qed.

Lemma blue_merge s s' Dn c b1 n b2 Rs : sweep_inv s Dn c b1 (n :: b2) Rs -> merge_inv s Dn b1 (n :: b2) -> color m0 n = Caml_blue ->
  memory (collector s') = memory (collector s) -> last_fragment (fl s') = last_fragment (fl s) -> merge_inv s' Dn (b1 ++ [n]) b2.
Proof.
  intros I [D1 D2 D3 D4] Cn Em El. pose proof (fi_tiled _ _ _ _ _ _ _ _ (sw_fine _ _ _ _ _ _ I)) as T. pose proof (whole_tile Dn Rs c _ _ _ T) as Tw.
  destruct (sw_todo _ _ _ _ _ _ I n (or_introl eq_refl)) as (Bn & En & _). split; rewrite ?Em, ?El; auto.
  - apply coalesced_snoc; [exact D2|]. intros a x E Sx _. exact (D3 a x n b2 E eq_refl Sx Cn).
  - intros a x d r E1 -> Sx Cd. apply app_inj_tail in E1 as [-> ->]. right. split; [exact Cd|]. exists x. split; [exact Bn|]. split; [exact Cn|].
    pose proof (tile_adjacent _ _ _ _ _ _ _ Tw) as Ea. unfold bsize, wosize in *. now rewrite En in Ea.
  - intros a x E Sx Fx. apply app_inj_tail in E as [-> ->]. unfold free in Fx. rewrite En in Fx. apply (color_blue m0) in Cn. unfold free in Cn. congruence.
Qed.

Lemma black_merge s s' Dn b1 n b2 : merge_inv s Dn b1 (n :: b2) -> survives n -> (forall x, wosize (memory (collector s')) x = wosize (memory (collector s)) x) ->
  merge_inv s' Dn (b1 ++ [n]) b2.
Proof.
  intros [D1 D2 D3 D4] Sn' W. split.
  - intros sg Hs. apply (coalesced_grows (memory (collector s))); [intros x _; rewrite W; lia | now apply D1].
  - apply coalesced_snoc; [|contradiction]. apply (coalesced_grows (memory (collector s))); [intros x _; rewrite W; lia | exact D2].
  - intros a x d r E _ Sx. apply app_inj_tail in E as [_ ->]. contradiction.
  - intros a x E Sx. apply app_inj_tail in E as [_ ->]. contradiction.
Qed.

Lemma chunk_merge s s' Dn c l b1 b2 : merge_inv s Dn b1 [] -> memory (collector s') = memory (collector s) -> merge_inv s' (Dn ++ [(c, l, b1)]) [] b2.
Proof.
  intros [D1 D2 _ _] Em. split; rewrite ?Em.
  - intros sg Hs. apply in_app_or in Hs as [Hs|[<-|[]]]; auto.
  - intros a x y r E. destruct a; discriminate E.
  - intros a x d r E. destruct a; discriminate E.
  - intros a x E. destruct a; discriminate E.
Qed.

(** ** The three colours *)

Lemma white_turn s Dn c b1 n b2 Rs : sweep_inv s Dn c b1 (n :: b2) Rs -> merge_inv s Dn b1 (n :: b2) -> color m0 n = Caml_white ->
  let '(next, m', f') := caml_fl_merge_block n (memory (collector s)) (fl s) in
  exists b1' b2', (length b2' <= length b2)%nat /\
    let s' := Sweeper (set_sweep_hp next (set_memory m' (collector s))) f' (if dead_custom m0 n then n :: finalized s else finalized s) in
    sweep_inv s' Dn c b1' b2' Rs /\ merge_inv s' Dn b1' b2'.
Proof.
  intros I Mg. pose proof I as [H1 H2 H3 Hb0 H4 H5 H6 H7 H8 H9 H10 H11 H12 H13]. intros Wn. set (m := memory (collector s)) in *. destruct (H8 n (or_introl eq_refl)) as (Bn & En & _).
  assert (Fn : free m n = false) by (unfold free; rewrite En; now apply color_white).
  assert (Sn' : ~ survives n) by (intros [_ K]; rewrite Wn in K; discriminate K).
  pose proof (merge_block_spec Dn Rs c (limit (collector s)) m (fl s) b1 n b2 H4 Fn H6) as M. pose proof (merge_block_fixed Dn Rs c _ m (fl s) b1 n b2 H4 H6) as Fix.
  rewrite Hb0 in Fix. destruct (caml_fl_merge_block n m (fl s)) as [[next m'] f'].
  destruct M as (b1' & b2' & M). exists b1', b2'. pose proof M as [K1 K2 K3 K4 K5 K6 K7 K8 K9 Kt K10 _ _ _ _]. split; [destruct K4 as [->|(d & _ & ->)]; cbn; lia|].
  cbn zeta. split; [clear M|eapply white_merge; [exact I | exact Mg | exact M]]. clear I Mg.
  pose proof (fi_tiled _ _ _ _ _ _ _ _ H4) as T. destruct (whole_nodup Dn Rs c _ m b1 n b2 T) as [_ Nn]. rewrite others_in in Nn.
  assert (Sub : forall x, In x (b2' ++ blocks Rs) -> In x (b2 ++ blocks Rs)) by (intros x; destruct K4 as [->|(d & _ & ->)]; cbn; rewrite !in_app_iff; tauto).
  assert (Rest : forall x, In x (blocks Dn ++ b2' ++ blocks Rs) -> In x (others Dn Rs b1' b2') /\ x <> n).
  { intros x Hx. apply in_app_or in Hx as [Hx|Hx]; (split; [apply others_in; rewrite ?in_app_iff in Hx; tauto|]); intros ->; apply Nn; [auto|]. apply Sub in Hx. apply in_app_or in Hx. tauto. }
  assert (U : forall x, In x (blocks Dn ++ b2' ++ blocks Rs) -> free m x = false -> untouched m m' x).
  { intros x Hx Fx. destruct (Rest x Hx) as [Ho Nx]. apply K8; auto. now rewrite K7. }
  split; auto; cbn [collector fl finalized memory limit caml_gc_sweep_hp set_sweep_hp set_phase set_memory].
  - intros b Hb. apply in_app_or in Hb as [Hb|Hb].
    + assert (Hb' : In b (blocks Dn ++ b2' ++ blocks Rs)) by (apply in_or_app; auto). destruct (free m b) eqn:Fb; [right; left; split; [apply (swept_free m); auto; apply H7, in_or_app; auto | now rewrite K7]|].
      apply (swept_untouched m); auto. apply H7, in_or_app. auto.
    + destruct (K6 b Hb) as [[Ib Fb]|[[Fb Eb]|(-> & W0 & ->)]]; [|right; left; split; auto; destruct Eb as [->| ->]; auto | right; right; split; auto; split; [unfold color; now rewrite En | auto]].
      destruct (free m b) eqn:Fb'; [right; left; split; [apply (swept_free m); auto; apply H7, in_or_app; auto | congruence]|]. apply (swept_untouched m); [|apply H7, in_or_app; auto]. apply K8; auto; [apply others_in; auto|]. intros ->. tauto.
  - intros b Hb. assert (Hb' : In b (blocks Dn ++ b2' ++ blocks Rs)) by (apply in_or_app; auto). destruct (H8 b (or_intror (Sub b Hb))) as (Bb & Eb & Fb & Cb).
    destruct (free m b) eqn:Fr; [|apply (unswept_untouched m); auto; split; auto].
    split; auto. rewrite Kt by auto. split; auto. split; [|exact Cb]. rewrite K7 by auto. congruence.
  - intros b Sb. specialize (H9 b Sb). rewrite others_in in *. cbn [In] in H9. destruct H9 as [Hb|[Hb|[[<-|Hb]|Hb]]]; auto; [|contradiction|].
    + destruct (K5 b Hb) as [?|[-> _]]; [auto | contradiction].
    + right. right. left. destruct K4 as [->|(d & Fd & ->)]; [auto|]. destruct Hb as [<-|Hb]; [|auto]. exfalso. destruct (H8 d) as (_ & Ed & _); [right; apply in_or_app; left; now left|].
      destruct Sb as [_ Sb]. unfold free in Fd. rewrite Ed in Fd. apply color_black in Sb. unfold free in Sb. congruence.
  - destruct K10 as [->| ->]; auto.
  - assert (Ef : filter (dead_custom m0) (b2 ++ blocks Rs) = filter (dead_custom m0) (b2' ++ blocks Rs)).
    { destruct K4 as [->|(d & Fd & ->)]; [reflexivity|]. cbn [app filter]. destruct (H8 d) as (_ & Ed & _); [right; apply in_or_app; left; now left|].
      unfold free in Fd. rewrite Ed in Fd. apply (color_blue m0) in Fd. unfold dead_custom. unfold Is_white_hd. fold (color m0 d). now rewrite Fd. }
    rewrite <- H11, <- Ef. cbn [app filter]. destruct (dead_custom m0 n); [cbn [rev]; now rewrite <- app_assoc | reflexivity].
  - exact (fixed_trans _ _ _ _ H12 Fix).
Qed.

Lemma next_todo s Dn c b1 n b2 Rs : sweep_inv s Dn c b1 (n :: b2) Rs ->
  n = Val_hp (caml_gc_sweep_hp (collector s)) /\ caml_gc_sweep_hp (collector s) < limit (collector s) /\ In n B /\
  memory (collector s) (caml_gc_sweep_hp (collector s)) = Hd_op m0 n /\
  caml_gc_sweep_hp (collector s) + Bhsize_hd (Hd_op m0 n) = n + bsize (memory (collector s)) n /\
  tile (memory (collector s)) c (n + bsize (memory (collector s)) n) (b1 ++ [n]) /\
  tile (memory (collector s)) (n + bsize (memory (collector s)) n) (limit (collector s)) b2.
Proof.
  intros I. destruct (sw_tiles _ _ _ _ _ _ I) as [T1 T2]. destruct (sw_todo _ _ _ _ _ _ I n (or_introl eq_refl)) as (Bn & En & _).
  destruct (tile_range _ _ _ _ T2) as [_ R]. destruct (R n (or_introl eq_refl)) as (R1 & R2 & Ho). pose proof (bsize_nonneg _ _ Ho). pose proof sizeof_value_pos.
  destruct T2 as (E & _ & T2). split; [exact E|]. split; [lia|]. split; [exact Bn|]. split; [|split; [|split; [|exact T2]]].
  - rewrite <- En. unfold Hd_op. f_equal. lia.
  - rewrite <- En, Bhsize_block. lia.
  - apply tile_app. eexists. split; [exact T1|]. cbn [tile]. auto.
Qed.

Lemma survives_moved b Dn Rs b1 n b2 : In b (others Dn Rs b1 (n :: b2)) -> In b (others Dn Rs (b1 ++ [n]) b2).
Proof. rewrite !others_in, in_app_iff. cbn. tauto. Qed.

Lemma frag_moved Dn Rs m m' f b1 n b2 : frag_ok Dn Rs m f b1 (n :: b2) ->
  (In (last_fragment f) (blocks Dn ++ b1) -> Hd_op m' (last_fragment f) = Hd_op m (last_fragment f)) -> frag_ok Dn Rs m' f (b1 ++ [n]) b2.
Proof.
  intros F E b Hb Eb. destruct (F b (or_intror Hb) Eb) as (I & Ff & Wf). unfold free, wosize in *. rewrite E by auto. split; [rewrite app_assoc; apply in_or_app; auto | auto].
Qed.

Lemma blue_turn s Dn c b1 n b2 Rs : sweep_inv s Dn c b1 (n :: b2) Rs -> color m0 n = Caml_blue ->
  sweep_inv (Sweeper (set_sweep_hp (caml_gc_sweep_hp (collector s) + Bhsize_hd (Hd_op m0 n)) (collector s)) (set_merge n (fl s)) (finalized s)) Dn c (b1 ++ [n]) b2 Rs.
Proof.
  intros I Cn. destruct (next_todo _ _ _ _ _ _ _ I) as (En & Lt & Bn & Hn & -> & T1 & T2). destruct I as [H1 H2 H3 Hb0 H4 H5 H6 H7 H8 H9 H10 H11 H12 H13]. set (m := memory (collector s)) in *.
  destruct (H8 n (or_introl eq_refl)) as (_ & Eh & _). assert (Fn : free m n = true) by (unfold free; rewrite Eh; now apply color_blue).
  split; auto; cbn [collector fl finalized memory limit caml_gc_sweep_hp set_sweep_hp set_phase].
  - destruct H4 as [T F]. split; [rewrite <- app_assoc; exact T|]. fold m. rewrite app_assoc, (frees_app _ _ [n]). cbn [app frees filter] in *. rewrite Fn in *.
    destruct F as [F1 F2 F3 F4 F5 F6].
    set (X := frees m (blocks Dn ++ b1)) in *. change (filter (free m) (b2 ++ blocks Rs)) with (frees m (b2 ++ blocks Rs)) in *. set (Y := frees m (b2 ++ blocks Rs)) in *.
    assert (EA : (X ++ [n]) ++ Y = X ++ n :: Y) by (rewrite <- app_assoc; reflexivity). split; try rewrite EA; auto. symmetry. apply last_last.
  - apply (frag_moved Dn Rs m); auto.
  - intros b Hb. rewrite app_assoc in Hb. apply in_app_or in Hb as [Hb|[<-|[]]]; [now apply H7 | right; left; split; auto]. intros [_ K]. rewrite Cn in K. discriminate K.
  - intros b Hb. apply H8. now right.
  - intros b Sb. now apply survives_moved, H9.
  - rewrite <- H11. f_equal. cbn [app filter]. replace (dead_custom m0 n) with false; [reflexivity|]. unfold dead_custom, Is_white_hd. fold (color m0 n). now rewrite Cn.
Qed.

Lemma black_turn s Dn c b1 n b2 Rs : sweep_inv s Dn c b1 (n :: b2) Rs -> color m0 n = Caml_black ->
  sweep_inv (Sweeper (set_memory ((memory (collector s)).[caml_gc_sweep_hp (collector s) <- Whitehd_hd (Hd_op m0 n)])
    (set_sweep_hp (caml_gc_sweep_hp (collector s) + Bhsize_hd (Hd_op m0 n)) (collector s))) (fl s) (finalized s)) Dn c (b1 ++ [n]) b2 Rs.
Proof.
  intros I Cn. destruct (next_todo _ _ _ _ _ _ _ I) as (En & Lt & Bn & Hn & -> & T1 & T2). destruct I as [H1 H2 H3 Hb0 H4 H5 H6 H7 H8 H9 H10 H11 H12 H13]. set (m := memory (collector s)) in *.
  destruct (H8 n (or_introl eq_refl)) as (_ & Eh & Fs & _). replace (caml_gc_sweep_hp (collector s)) with (n - sizeof_value) by (rewrite En; unfold Val_hp; lia).
  set (h := Whitehd_hd (Hd_op m0 n)) in *. set (m' := m.[n - sizeof_value <- h]) in *. destruct (Whitehd_recolor _ (Ok0 n Bn)) as (Ho & _ & Ew & Ec). fold h in Ho, Ew, Ec.
  pose proof H4 as [T F]. assert (U : forall x, In x (others Dn Rs b1 b2) -> untouched m m' x) by (intros x; eapply other_untouched; eauto; apply cell_hd).
  destruct (head_untouched Dn Rs c _ m b1 n b2 (n - sizeof_value) h T (cell_hd m n)) as [E1 E2]. fold m' in E1, E2.
  assert (Eh' : Hd_op m' n = h) by (unfold m', Hd_op; apply upd_same). assert (Ew' : wosize m' n = wosize m n) by (unfold wosize; now rewrite Eh', Ew, Eh).
  assert (Fm : free m n = false) by (unfold free; rewrite Eh; now apply color_black). assert (Fm' : free m' n = false) by (unfold free, Is_blue_hd; rewrite Eh', Ec; reflexivity).
  assert (EP : frees m' (blocks Dn ++ b1 ++ [n]) = frees m (blocks Dn ++ b1)).
  { rewrite app_assoc, (frees_app m' _ [n]). cbn [frees filter]. rewrite Fm', app_nil_r. apply frees_ext. intros x Hx. apply untouched_hd, U, others_in. apply in_app_or in Hx. tauto. }
  assert (EN : frees m' (b2 ++ blocks Rs) = frees m ((n :: b2) ++ blocks Rs)).
  { cbn [app frees filter]. rewrite Fm. apply frees_ext. intros x Hx. apply untouched_hd, U, others_in. apply in_app_or in Hx. tauto. }
  assert (Hds : forall x, x <> n -> Hd_op m' x = Hd_op m x) by (intros x Nx; unfold m', Hd_op; apply upd_other; lia).
  assert (T1' : tile m' c (n + bsize m n) (b1 ++ [n])).
  { apply tile_app in T1 as (z & T1 & T1'). apply tile_app. exists z. split; [eapply tile_ext; [|exact T1]; intros x Hx; apply untouched_hd, U, others_in; auto|].
    cbn [tile] in *. destruct T1' as (G1 & _ & G3). rewrite Eh'. split; auto. split; auto. unfold bsize in *. now rewrite Ew'. }
  assert (T2' : tile m' (n + bsize m n) (limit (collector s)) b2) by (eapply tile_ext; [|exact T2]; intros x Hx; apply untouched_hd, U, others_in; auto).
  split; auto; cbn [collector fl finalized memory limit caml_gc_sweep_hp set_sweep_hp set_phase set_memory]; auto.
  - split.
    + eapply whole_set; [| |exact T]; [intros x Hx; apply untouched_hd, U, others_in; apply in_app_or in Hx; tauto|]. apply tile_app. eauto.
    + rewrite EP, EN. apply (free_ok_same m m' (fl s) _ _ _ 0); auto.
      * intros x Hx. apply U, others_in. apply in_app_or in Hx as [Hx|Hx]; apply frees_in in Hx as [Hx Fx]; apply in_app_or in Hx; [tauto|]. destruct Hx as [[<-|Hx]|Hx]; [congruence | tauto | tauto].
      * pose proof (fo_size _ _ _ _ _ F) as E. rewrite Z.sub_diag, Z.add_0_r, E, wrap_idemp; [reflexivity | pose proof WORD_pos; lia].
  - apply (frag_moved Dn Rs m); auto. intros Hl. apply untouched_hd, U, others_in. apply in_app_or in Hl. tauto.
  - intros b Hb. rewrite app_assoc in Hb. apply in_app_or in Hb as [Hb|[<-|[]]].
    + apply (swept_untouched m); auto. apply U, others_in. apply in_app_or in Hb. tauto.
    + left. split; [now split|]. split; [exact Eh'|]. intros i Hi. rewrite <- (Fs Fm i Hi). unfold m', Op_val. apply upd_other. unfold Bsize_wsize. pose proof sizeof_value_pos. nia.
  - intros b Hb. apply (unswept_untouched m); [|apply H8; now right]. apply U, others_in. apply in_app_or in Hb. tauto.
  - intros b Sb. now apply survives_moved, H9.
  - rewrite <- H11. f_equal. cbn [app filter]. replace (dead_custom m0 n) with false; [reflexivity|]. unfold dead_custom, Is_white_hd. fold (color m0 n). now rewrite Cn.
  - apply fixed_upd; auto. left. rewrite <- Hb0. apply (whole_inside Dn Rs c _ m _ n T). apply whole_blocks. auto.
Qed.

(** ** The end of a chunk *)

Lemma chunk_turn s Dn c b1 c' l' bs Rs : sweep_inv s Dn c b1 [] ((c', l', bs) :: Rs) ->
  sweep_inv (Sweeper (set_sweep_hp c' (set_scan (markhp (collector s)) c' (c' + Chunk_size c') (collector s))) (fl s) (finalized s))
    (Dn ++ [(c, limit (collector s), b1)]) c' [] bs Rs /\ c' = Chunk_next c /\ c' <> 0.
Proof.
  intros [H1 H2 H3 Hb0 H4 H5 H6 H7 H8 H9 H10 H11 H12 H13]. inversion H3 as [|c1 r Nc Hc E1 E2]. subst c' l' r.
  set (D := Dn ++ [(c, limit (collector s), b1)]). assert (ED : blocks D = blocks Dn ++ b1) by (unfold D; rewrite blocks_app; cbn; now rewrite app_nil_r).
  set (c' := Chunk_next c) in *. set (l' := c' + Chunk_size c') in *. set (m := memory (collector s)) in *.
  assert (EW : FlTile.whole Dn ((c', l', bs) :: Rs) c (limit (collector s)) b1 = FlTile.whole D Rs c' l' bs) by (unfold FlTile.whole, D; rewrite <- app_assoc; reflexivity).
  assert (EB : blocks ((c', l', bs) :: Rs) = bs ++ blocks Rs) by reflexivity. rewrite EB in *.
  destruct H4 as [T F]. rewrite app_nil_r in T. rewrite EW in T. pose proof (whole_tile D Rs c' l' m bs T) as Tb.
  split; [|auto]. split; auto; cbn [collector fl finalized memory limit caml_gc_sweep_hp set_sweep_hp set_phase set_scan chunk]; auto.
  - rewrite <- Hb0. unfold D. rewrite map_app, <- app_assoc. reflexivity.
  - split; [exact T|]. rewrite ED, app_nil_r. rewrite EB in F. exact F.
  - split; [reflexivity | exact Tb].
  - unfold frag_ok in *. rewrite ED, app_nil_r. rewrite EB in H6. exact H6.
  - intros b Hb. rewrite ED, app_nil_r in Hb. now apply H7.
  - intros b Sb. specialize (H9 b Sb). rewrite others_in in *. rewrite ED, in_app_iff. rewrite EB in H9. rewrite in_app_iff in H9. cbn in *. tauto.
Qed.

Lemma last_turn s Dn c b1 : sweep_inv s Dn c b1 [] [] -> merge_inv s Dn b1 [] ->
  Chunk_next c = 0 /\ swept (Sweeper (set_phase Phase_idle (caml_gc_sweep_hp (collector s)) (set_scan (markhp (collector s)) 0 (limit (collector s)) (collector s))) (fl s) (finalized s))
    (Dn ++ [(c, limit (collector s), b1)]).
Proof.
  intros [H1 H2 H3 Hb0 H4 H5 H6 H7 H8 H9 H10 H11 H12 H13] [Md Mh _ _]. set (S := Dn ++ _). assert (ES : blocks S = blocks Dn ++ b1) by (unfold S; rewrite blocks_app; cbn; now rewrite app_nil_r).
  destruct H4 as [T F]. rewrite app_nil_r in T. cbn [blocks flat_map app frees filter] in *. destruct F as [F1 F2 F3 F4 F5 F6]. rewrite !app_nil_r in *.
  split; [now inversion H3|]. split; cbn [collector fl finalized memory caml_gc_phase set_scan set_phase]; auto; rewrite ?ES; auto.
  - unfold S. rewrite map_app. exact Hb0.
  - rewrite F4. f_equal. lia.
  - intros b Sb. specialize (H9 b Sb). rewrite others_in in H9. cbn in H9. apply in_or_app. tauto.
  - intros sg Hs. apply in_app_or in Hs as [Hs|[<-|[]]]; auto.
Qed.

(** ** Turns and slices *)

Definition left (b2 : list Z) (Rs : list seg) : nat := (length b2 + fold_right (fun s n => S (length (snd s)) + n) 0 Rs)%nat.
Definition sweeping (s : sweeper) (k : nat) : Prop := exists Dn c b1 b2 Rs, sweep_inv s Dn c b1 b2 Rs /\ merge_inv s Dn b1 b2 /\ left b2 Rs = k.
Definition done (s : sweeper) : Prop := exists S, swept s S.

Lemma sweep_turn_spec s k work : sweeping s k ->
  let '(s', w) := sweep_turn has_finalize s work in (exists k', sweeping s' k' /\ (k' < k)%nat) \/ (w = 0 /\ done s').
Proof.
  intros (Dn & c & b1 & b2 & Rs & I & Mg & <-). unfold sweep_turn. destruct b2 as [|n b2].
  - destruct (sw_tiles _ _ _ _ _ _ I) as [_ T2]. cbn [tile] in T2. rewrite T2, Z.ltb_irrefl. destruct (sw_chunk _ _ _ _ _ _ I) as [Ec _]. rewrite Ec.
    destruct Rs as [|[[c' l'] bs] Rs].
    + destruct (last_turn s Dn c b1 I Mg) as [E F]. rewrite E, Z.eqb_refl. rewrite T2 in F. right. split; [reflexivity|]. eexists. exact F.
    + destruct (chunk_turn s Dn c b1 c' l' bs Rs I) as (I' & -> & Nz). apply Z.eqb_neq in Nz. rewrite Nz. left. exists (left bs Rs). split; [|unfold left; cbn; lia].
      eexists. eexists. eexists. eexists. eexists. split; [exact I'|]. split; [now apply (chunk_merge s) | reflexivity].
  - destruct (next_todo _ _ _ _ _ _ _ I) as (En & Lt & Bn & Hn & _). rewrite (proj2 (Z.ltb_lt _ _) Lt), Hn, <- En.
    destruct (sw_todo _ _ _ _ _ _ I n (or_introl eq_refl)) as (_ & Eh & Fs & Cl). fold (color m0 n).
    assert (Done : forall s' b1' b2', sweep_inv s' Dn c b1' b2' Rs -> merge_inv s' Dn b1' b2' -> (length b2' <= length b2)%nat -> exists k', sweeping s' k' /\ (k' < left (n :: b2) Rs)%nat).
    { intros s' b1' b2' I' Mg' Le. exists (left b2' Rs). split; [|unfold left; cbn [length]; lia]. exists Dn, c, b1', b2', Rs. auto. }
    destruct Cl as [Cl|[Cl|Cl]]; rewrite Cl.
    + cbn [Z.eqb Caml_white]. change (Caml_white =? Caml_white) with true. cbn iota. pose proof (white_turn s Dn c b1 n b2 Rs I Mg Cl) as H.
      cbn [memory set_sweep_hp set_phase]. set (calls := if _ && _ then _ else _). assert (Ed : calls = if dead_custom m0 n then n :: finalized s else finalized s).
      { unfold calls, dead_custom, Is_white_hd. fold (color m0 n). rewrite Cl, Z.eqb_refl. cbn [andb]. destruct (Z.eqb_spec (Tag_hd (Hd_op m0 n)) Custom_tag) as [Et|]; [|reflexivity]. cbn [andb].
        assert (Fn : free (memory (collector s)) n = false) by (unfold free; rewrite Eh; now apply color_white).
        rewrite (Fs Fn 0); [reflexivity|]. split; [lia | now apply Ok1]. }
      destruct (caml_fl_merge_block n _ (fl s)) as [[next m'] f']. destruct H as (b1' & b2' & Le & I' & Mg'). left. rewrite Ed. exact (Done _ _ _ I' Mg' Le).
    + left. refine (Done _ _ _ (blue_turn s Dn c b1 n b2 Rs I Cl) _ (le_n _)). now apply (blue_merge s _ Dn c b1 n b2 Rs).
    + left. refine (Done _ _ _ (black_turn s Dn c b1 n b2 Rs I Cl) _ (le_n _)). apply (black_merge s); [exact Mg | now split|].
      intros x. cbn [collector memory set_memory set_sweep_hp set_phase]. unfold wosize, Hd_op, upd. destruct (Z.eqb_spec (x - sizeof_value) (caml_gc_sweep_hp (collector s))) as [Ex|]; [|reflexivity].
      rewrite Ex, Hn. apply (Whitehd_recolor _ (Ok0 n Bn)).
Qed.

Lemma sweep_slice_done s work fuel : 0 < work -> sweep_slice has_finalize (S fuel) work s = let '(s', w) := sweep_turn has_finalize s work in sweep_slice has_finalize fuel w s'.
Proof. intros H. cbn [sweep_slice]. now rewrite (proj2 (Z.ltb_lt 0 work) H). Qed.
Lemma sweep_slice_stop s work fuel : work <= 0 -> sweep_slice has_finalize fuel work s = Ok s.
Proof. intros H. destruct fuel; cbn [sweep_slice]; now rewrite (proj2 (Z.ltb_ge 0 work) H). Qed.

Lemma sweep_slice_spec : forall k s work, sweeping s k -> exists n s', (forall fuel, (n <= fuel)%nat -> sweep_slice has_finalize fuel work s = Ok s') /\
  (done s' \/ exists k', sweeping s' k' /\ (k' <= k)%nat /\ (0 < work -> (k' < k)%nat)).
Proof.
  induction k as [k IH] using lt_wf_ind. intros s work Sw. destruct (Z.ltb_spec 0 work) as [Hw|Hw].
  2:{ exists O, s. split; [intros fuel _; now apply sweep_slice_stop | right; exists k; split; auto; split; [lia | lia]]. }
  pose proof (sweep_turn_spec s k work Sw) as T. destruct (sweep_turn has_finalize s work) as [s1 w] eqn:E. destruct T as [(k1 & Sw1 & Lt)|[-> D]].
  - destruct (IH k1 Lt s1 w Sw1) as (n & s' & En & Dn). exists (S n), s'. split.
    + intros [|fuel] Hf; [lia|]. rewrite sweep_slice_done, E by auto. apply En. lia.
    + destruct Dn as [D|(k' & Sw' & Le & _)]; [now left | right; exists k'; split; auto; split; lia].
  - exists 1%nat, s1. split; [|now left]. intros [|fuel] Hf; [lia|]. rewrite sweep_slice_done, E by auto. now apply sweep_slice_stop.
Qed.

Lemma finish_sweep_spec : forall k s, sweeping s k -> exists n s', (forall slices fuel, (n <= slices)%nat -> (n <= fuel)%nat -> finish_sweep has_finalize slices fuel s = Ok s') /\ done s'.
Proof.
  induction k as [k IH] using lt_wf_ind. intros s Sw. destruct (sweep_slice_spec k s LONG_MAX Sw) as (n & s1 & En & D).
  assert (Ph : caml_gc_phase (collector s) = Phase_sweep) by (destruct Sw as (? & ? & ? & ? & ? & I & _); apply I).
  assert (Step : forall slices fuel, (n <= fuel)%nat -> finish_sweep has_finalize (S slices) fuel s = finish_sweep has_finalize slices fuel s1).
  { intros slices fuel Hf. cbn [finish_sweep]. rewrite Ph. cbn [Z.eqb Phase_sweep Pos.eqb]. now rewrite En. }
  destruct D as [D|(k' & Sw' & _ & Lt)].
  - exists (S n), s1. split; auto. intros [|slices] fuel Hs Hf; [lia|]. rewrite Step by lia. destruct D as (S & D). destruct slices; cbn [finish_sweep]; rewrite (fs_phase _ _ D); reflexivity.
  - destruct (IH k' (Lt ltac:(unfold LONG_MAX; destruct WORD_cases as [-> | ->]; reflexivity)) s1 Sw') as (n' & s' & En' & D). exists (S (Nat.max n n')), s'. split; auto.
    intros [|slices] fuel Hs Hf; [lia|]. rewrite Step by lia. apply En'; lia.
Qed.
End From.

(** ** The start of sweeping *)

(** The invariant of the free list between two operations. *)
Record free_list_ok (m : mem) (f : free_list) (bs : list Z) : Prop := {
  fl_links : links m Fl_head (frees m bs) 0;
  fl_alloc : policy f = Policy_next_fit -> In (fl_prev f) (Fl_head :: frees m bs);
  fl_size : caml_fl_cur_size f = wrap WORD (total m (frees m bs));
  fl_pos : forall b, In b (frees m bs) -> 0 < wosize m b;
  fl_sentinel : wosize m Fl_head = 0 }.

Lemma merge_start m0 B s bs : merge_inv m0 B s [] [] bs.
Proof. split; [intros sg [] | intros a x y r E | intros a x d r E | intros a x E]; destruct a; discriminate E. Qed.

Lemma sweep_start g f calls c l bs Rs : caml_gc_phase g = Phase_sweep -> caml_gc_sweep_hp g = c -> chunk g = c -> limit g = l -> l = c + Chunk_size c ->
  chunk_list (Chunk_next c) (map fst Rs) -> tiled (memory g) ((c, l, bs) :: Rs) -> free_list_ok (memory g) f (bs ++ blocks Rs) ->
  (forall b, In b (bs ++ blocks Rs) -> color (memory g) b = Caml_white \/ color (memory g) b = Caml_blue \/ color (memory g) b = Caml_black) ->
  sweep_inv (memory g) (bs ++ blocks Rs) calls ((c, l) :: map fst Rs) (marker_vars g) (Sweeper g (caml_fl_init_merge f) calls) [] c [] bs Rs.
Proof.
  intros Ph Hp Ec El -> Cl T [F1 F2 F3 F4 F5] Col. set (m := memory g) in *.
  assert (T0 : tile m c (limit g) bs) by (destruct T as [_ O]; inversion_clear O as [|? ? Ob _]; rewrite El; exact Ob).
  split; cbn [collector fl finalized memory app blocks flat_map map]; fold m; auto; [now rewrite El | | rewrite Hp; split; [reflexivity | exact T0] | ..].
  - split; [rewrite El; exact T|]. cbn [blocks flat_map app frees filter]. split; auto.
    rewrite Z.add_0_r. exact F3.
  - intros b Hb E. exfalso. pose proof (tiled_pos m _ b T Hb). unfold Hp_bp in E. cbn [last_fragment caml_fl_init_merge set_merge set_fragment] in E. lia.
  - intros b [].
  - intros b Hb. split; auto. split; auto. split; [intros _ i Hi; reflexivity | auto].
  - intros b [Hb _]. apply others_in. apply in_app_or in Hb. tauto.
  - intros [Hb _]. pose proof (tiled_pos m _ _ T Hb). pose proof sizeof_value_pos. cbn [last_fragment caml_fl_init_merge set_merge set_fragment] in *. lia.
  - apply fixed_refl.
Qed.
End Sweeping.
