(* ===== verification/FlAlloc.v ===== *)
(** FlAlloc: the next-fit policy of [caml_fl_allocate] finds a block when there is one
    that is large enough, and takes the end of it. *)
From Stdlib Require Import ZArith Lia List Bool.
From S2P Require Import Prelude Mlvalues InterpState ExternOutput MarshalBytes MarshalTrail MarshalDecode Gc GcGraph Freelist FlTile FlFree FlBlock FlSweep GcInv.
Import ListNotations.
Local Open Scope Z_scope.

Section Search.
Context {A : Arch}.

Lemma links_tail m X Y q : forall p, links m p (X ++ Y) q -> links m (last X p) Y q.
Proof. induction X as [|x X IH]; intros p; [auto|]. intros [_ H]. rewrite last_cons. now apply IH. Qed.
Lemma links_front m X Y q : forall p, links m p (X ++ Y) q -> links m p X (Next m (last X p)).
Proof. induction X as [|x X IH]; intros p; [reflexivity|]. intros [E H]. split; auto. rewrite last_cons. now apply IH. Qed.
Lemma in_last {T} (l : list T) h p : In p (h :: l) -> exists X Y, l = X ++ Y /\ p = last X h.
Proof.
  intros [<-|H]; [exists [], l; auto|]. apply in_split in H as (X & Y & ->). exists (X ++ [p]), Y. rewrite <- app_assoc. split; [reflexivity | now rewrite last_last].
Qed.

Lemma last_app {T} (X Y : list T) : forall h, last (X ++ Y) h = last Y (last X h).
Proof. induction X as [|x X IH]; intros h; [reflexivity | cbn [app]; rewrite !last_cons; apply IH]. Qed.

Definition too_small (m : mem) (wo : Z) : Z -> Prop := fun x => wosize m x < wo.

Lemma find_fit_spec m wo l : forall p fuel, links m p l 0 -> Forall (fun b => b <> 0) l -> (length l < fuel)%nat ->
  (exists l1 b l2, l = l1 ++ b :: l2 /\ wo <= wosize m b /\ find_fit fuel m wo p = Ok (Some (last l1 p), last l1 p)) \/
  (Forall (too_small m wo) l /\ find_fit fuel m wo p = Ok (None, last l p)).
Proof.
  induction l as [|b l IH]; intros p [|fuel] H F Hf; cbn [length] in Hf; try lia; cbn [find_fit].
  - cbn [links] in H. rewrite H. right. auto.
  - destruct H as [-> H]. inversion_clear F as [|? ? Nb Fl]. apply Z.eqb_neq in Nb. rewrite Nb. change (Wosize_bp m b) with (wosize m b).
    destruct (Z.leb_spec wo (wosize m b)) as [Le|Lt]; [left; exists [], b, l; auto|].
    destruct (IH b fuel H Fl ltac:(lia)) as [(l1 & c & l2 & -> & Le & E)|[Fs E]]; [left; exists (b :: l1), c, l2; rewrite last_cons; auto | right; rewrite last_cons; auto].
Qed.
Lemma find_fit_until_spec m wo X : forall p q fuel, links m p X q -> Forall (fun b => b <> 0) X -> NoDup (p :: X) -> (length X < fuel)%nat ->
  (exists l1 b l2, X = l1 ++ b :: l2 /\ wo <= wosize m b /\ find_fit_until fuel m wo (last X p) p = Ok (Some (last l1 p))) \/
  (Forall (too_small m wo) X /\ find_fit_until fuel m wo (last X p) p = Ok None).
Proof.
  induction X as [|b X IH]; intros p q [|fuel] H F D Hf; cbn [length] in Hf; try lia; cbn [find_fit_until].
  - cbn [last]. rewrite Z.eqb_refl. right. auto.
  - inversion_clear D as [|? ? Np D']. rewrite last_cons. destruct (Z.eqb_spec p (last X b)) as [E|_]; [destruct Np; rewrite E; apply last_in|].
    destruct H as [-> H]. inversion_clear F as [|? ? Nb Fl]. apply Z.eqb_neq in Nb. rewrite Nb. change (Wosize_bp m b) with (wosize m b).
    destruct (Z.leb_spec wo (wosize m b)) as [Le|Lt]; [left; exists [], b, X; auto|].
    destruct (IH b q fuel H Fl D' ltac:(lia)) as [(l1 & c & l2 & -> & Le & E)|[Fs E]]; [left; exists (b :: l1), c, l2; rewrite last_cons; auto | right; auto].
Qed.
End Search.

Section Alloc.
Context {A : Arch} {Sn : Sentinel}.

Lemma next_fit_choice m f bs wo fuel : free_list_ok m f bs -> policy f = Policy_next_fit -> NoDup (Fl_head :: frees m bs) -> Forall (fun b => b <> 0) (frees m bs) ->
  (length (frees m bs) < fuel)%nat ->
  (exists P b N z, frees m bs = P ++ b :: N /\ wo <= wosize m b /\
     allocate_next_fit fuel wo m f = Ok (allocate_block (Whsize_wosize wo) 0 (last P Fl_head) b m (set_last z f))) \/
  (Forall (too_small m wo) (frees m bs) /\ allocate_next_fit fuel wo m f = Ok (0, m, set_last (last (frees m bs) Fl_head) f)).
Proof.
  intros [F1 F2 _ _ _] Pn D F Hf. specialize (F2 Pn). apply in_last in F2 as (X & Y & E & Ep). rewrite E in *. unfold allocate_next_fit. rewrite Ep.
  rewrite length_app in Hf. apply Forall_app in F as [FX FY]. pose proof (links_tail m X Y 0 _ F1) as LY.
  assert (Ef : f = set_last (fl_last f) f) by now destruct f.
  destruct (find_fit_spec m wo Y _ fuel LY FY ltac:(lia)) as [(l1 & b & l2 & -> & Le & ->)|[Sy ->]].
  - left. exists (X ++ l1), b, l2, (fl_last f). rewrite <- app_assoc. split; [reflexivity|]. split; [exact Le|].
    rewrite <- last_app, <- Ef. rewrite app_assoc in F1. now rewrite (links_mid m (X ++ l1) (b :: l2) _ F1).
  - cbn [fl_prev set_last]. rewrite Ep. assert (DX : NoDup (Fl_head :: X)) by (rewrite app_comm_cons in D; now apply NoDup_app_remove_r in D).
    destruct (find_fit_until_spec m wo X Fl_head _ fuel (links_front m X Y 0 _ F1) FX DX ltac:(lia)) as [(l1 & b & l2 & -> & Le & ->)|[Sx ->]].
    + left. exists l1, b, (l2 ++ Y), (last Y (last (l1 ++ b :: l2) Fl_head)). rewrite <- app_assoc in *. split; [reflexivity|]. split; [exact Le|].
      now rewrite (links_mid m l1 (b :: l2 ++ Y) _ F1).
    + right. split; [now apply Forall_app|]. now rewrite last_app.
Qed.

(** ** Taking the end of a free block *)

Section Take.
Variables (Dn Rs : list seg) (c l : Z) (m m' : mem) (f : free_list) (b1 b2 nb : list Z) (b : Z).
Notation whole := (whole Dn Rs c l).
Notation others := (others Dn Rs).
Notation P := (frees m (blocks Dn ++ b1)).
Notation N := (frees m (b2 ++ blocks Rs)).
Hypothesis (T : tiled m (whole (b1 ++ b :: b2))) (Fb : free m b = true) (F : free_list_ok m f (blocks (whole (b1 ++ b :: b2)))).

Lemma whole_split_blocks bs1 bs2 : blocks (whole (bs1 ++ bs2)) = (blocks Dn ++ bs1) ++ bs2 ++ blocks Rs.
Proof. unfold FlTile.whole. rewrite blocks_app. cbn [blocks flat_map snd]. fold (blocks Rs). now rewrite <- !app_assoc. Qed.
Lemma take_frees : frees m (blocks (whole (b1 ++ b :: b2))) = P ++ b :: N.
Proof. rewrite whole_split_blocks, frees_app. cbn [app frees filter]. now rewrite Fb. Qed.

Hypothesis (Hds : forall x, In x (others b1 b2) -> Hd_op m' x = Hd_op m x) (Tb : tile m' (b - sizeof_value) (b + bsize m b) nb).

Lemma take_tiled : tiled m' (whole (b1 ++ nb ++ b2)).
Proof.
  apply (whole_set Dn Rs c l m m' (b1 ++ b :: b2)); auto; [intros x Hx; apply Hds, others_in; apply in_app_or in Hx; tauto|]. pose proof (whole_tile Dn Rs c l m _ T) as T1.
  apply tile_app in T1 as (a & T1 & T2). cbn [tile] in T2. destruct T2 as (Ea & _ & T2). apply tile_app. exists a. split.
  - eapply tile_ext; [|exact T1]. intros x Hx. apply Hds, others_in. auto.
  - apply tile_app. exists (b + bsize m b). split; [replace a with (b - sizeof_value) by lia; exact Tb|]. eapply tile_ext; [|exact T2]. intros x Hx. apply Hds, others_in. auto.
Qed.
Lemma take_frees' : frees m' (blocks (whole (b1 ++ nb ++ b2))) = P ++ frees m' nb ++ N.
Proof.
  rewrite whole_split_blocks, <- (app_assoc nb), frees_app, (frees_app m' nb). f_equal; [|f_equal]; apply frees_ext; intros x Hx; apply Hds, others_in; apply in_app_or in Hx; tauto.
Qed.
Lemma take_total : total m' (P ++ frees m' nb ++ N) = total m (P ++ b :: N) - Whsize_bp m b + total m' (frees m' nb).
Proof.
  rewrite !total_app. cbn [total fold_right]. fold (total m N). rewrite (total_ext m m' P), (total_ext m m' N); [lia|..]; intros x Hx; apply frees_in in Hx as [Hx _]; apply Hds, others_in; apply in_app_or in Hx; tauto.
Qed.

(** The new list: [b] shrunk, or nothing. *)
Lemma take_list f' : links m' Fl_head (P ++ frees m' nb ++ N) 0 -> (forall x, In x (frees m' nb) -> 0 < wosize m' x) ->
  caml_fl_cur_size f' = wrap WORD (caml_fl_cur_size f - Whsize_bp m b + total m' (frees m' nb)) -> fl_prev f' = last P Fl_head -> Hd_op m' Fl_head = Hd_op m Fl_head ->
  free_list_ok m' f' (blocks (whole (b1 ++ nb ++ b2))).
Proof.
  destruct F as [F1 F2 F3 F4 F5]. intros Ln Ps Es Ep Eh. rewrite take_frees in *. split; rewrite ?take_frees'.
  - exact Ln.
  - intros _. rewrite Ep. destruct (last_in P Fl_head) as [E|E]; [left; congruence | right; apply in_or_app; auto].
  - rewrite Es, take_total, F3. rewrite <- Z.add_sub_swap, <- Z.add_sub_swap. unfold Z.sub. rewrite <- Z.add_assoc, wrap_wrap_add_l. f_equal. lia.
  - assert (K : forall x, In x P \/ In x N -> 0 < wosize m' x).
    { intros x Hx. unfold wosize. rewrite Hds; [apply F4; rewrite in_app_iff; cbn; tauto|]. apply others_in. destruct Hx as [Hx|Hx]; apply frees_in in Hx as [Hx _]; apply in_app_or in Hx; tauto. }
    intros x Hx. apply in_app_or in Hx as [Hx|Hx]; [auto|]. apply in_app_or in Hx as [Hx|Hx]; auto.
  - unfold wosize. rewrite Eh. exact F5.
Qed.
End Take.

(** ** The three cases *)

Section Cases.
Variables (Dn Rs : list seg) (c l : Z) (m : mem) (f : free_list) (b1 b2 : list Z) (b wo h : Z).
Notation whole := (whole Dn Rs c l).
Notation others := (others Dn Rs).
Notation P := (frees m (blocks Dn ++ b1)).
Notation N := (frees m (b2 ++ blocks Rs)).
Notation prev := (last P Fl_head).
Hypothesis (T : tiled m (whole (b1 ++ b :: b2))) (Fb : free m b = true) (F : free_list_ok m f (blocks (whole (b1 ++ b :: b2)))).
Hypothesis (Wo : 0 < wo <= wosize m b) (Ho : header_ok h) (Hw : Wosize_hd h = wo) (Hc : Color_hd h <> Caml_blue) (Pn : policy f = Policy_next_fit).

Definition taken (nb : list Z) (hp : Z) (m' : mem) (f' : free_list) : Prop :=
  tiled m' (whole (b1 ++ nb ++ b2)) /\ free_list_ok m' f' (blocks (whole (b1 ++ nb ++ b2))) /\ In (Val_hp hp) nb /\
  b - sizeof_value <= hp /\ Val_hp hp + Bsize_wsize wo = b + bsize m b /\ forall x, In x (others b1 b2) -> free m x = false -> untouched m m' x.

Lemma take_block : In b (blocks (whole (b1 ++ b :: b2))) /\ cell m b b /\ header_ok (Hd_op m b).
Proof. assert (I : In b (blocks (whole (b1 ++ b :: b2)))) by (apply whole_blocks; auto). split; auto. split; [apply cell_first; lia | now apply (tiled_header m _ b T)]. Qed.
Lemma PN_in x : In x P \/ In x N -> In x (others b1 b2) /\ free m x = true /\ 0 < wosize m x.
Proof.
  intros Hx. assert (In x (others b1 b2) /\ free m x = true) as [I1 I2] by (destruct Hx as [Hx|Hx]; apply frees_in in Hx as [Hx ?]; (split; [apply others_in; apply in_app_or in Hx; tauto | auto])).
  split; auto. split; auto. apply (fl_pos _ _ _ F). rewrite (take_frees Dn Rs c l m b1 b2 b Fb). apply in_or_app. cbn. tauto.
Qed.
Lemma other_block x : In x (others b1 b2) -> In x (blocks (whole (b1 ++ b :: b2))) /\ x <> b.
Proof. intros Hx. split; [apply whole_blocks; auto|]. intros ->. now apply (proj2 (whole_nodup Dn Rs c l m b1 b b2 T)). Qed.
Lemma take_prev : prev = Fl_head \/ (In prev (others b1 b2) /\ free m prev = true /\ cell m prev prev).
Proof.
  destruct (last_in P Fl_head) as [E|E]; [left; congruence | right]. destruct (PN_in _ (or_introl E)) as (I1 & I2 & W). split; auto. split; auto. now apply cell_first.
Qed.
Lemma prev_other v x : In x (others b1 b2) \/ x = b -> (x <> prev -> untouched m (m.[prev <- v]) x) /\ Hd_op (m.[prev <- v]) x = Hd_op m x.
Proof.
  intros Hx. assert (Ix : In x (blocks (whole (b1 ++ b :: b2)))) by (apply whole_blocks; tauto).
  assert (Nc : x <> prev -> ~ cell m x prev).
  { intros Nx. destruct take_prev as [->|(I & _ & Cp)]; [now apply (tiled_head m _ x T)|]. destruct (other_block _ I) as [I' _]. intros Cx. now apply (tiled_cell m _ x prev prev T Ix I' Nx Cx). }
  split; [intros Nx; now apply untouched_upd, Nc|]. destruct (Z.eq_dec x prev) as [E|Nx]; [unfold Hd_op; apply upd_other; pose proof sizeof_value_pos; lia|].
  now apply untouched_hd, untouched_upd, Nc.
Qed.
Lemma prev_head v : Hd_op (m.[prev <- v]) Fl_head = Hd_op m Fl_head.
Proof.
  unfold Hd_op. apply upd_other. destruct take_prev as [->|(I & _ & Cp)]; [pose proof sizeof_value_pos; lia|]. intros E.
  destruct (tiled_head m _ prev T (proj1 (other_block _ I))) as [_ K]. apply K. rewrite E. exact Cp.
Qed.
(** Writes inside the block. *)
Lemma inner_other (m1 : mem) x a v : (forall y, In y (others b1 b2) -> Hd_op m1 y = Hd_op m y) -> In x (others b1 b2) -> cell m b a -> untouched m1 (m1.[a <- v]) x.
Proof.
  intros E Hx Ca. destruct (other_block x Hx) as [Ix Nx]. destruct take_block as (Ib & _). apply untouched_upd. intros Cx.
  apply (tiled_cell m _ b x a T Ib Ix (not_eq_sym Nx) Ca). unfold cell, field_of, wosize in *. now rewrite E in Cx by auto.
Qed.
Lemma inner_head (m1 : mem) a v : cell m b a -> (m1.[a <- v]) Fl_head = m1 Fl_head /\ Hd_op (m1.[a <- v]) Fl_head = Hd_op m1 Fl_head.
Proof. intros Ca. destruct take_block as (Ib & _). destruct (tiled_head m _ b T Ib) as [H1 H2]. unfold Hd_op. split; apply upd_other; congruence. Qed.




(** The block is larger: its last words are taken. *)
Lemma take_end : wo + 1 < wosize m b -> exists nb, let '(hp, m1, f1) := allocate_block (Whsize_wosize wo) 0 prev b m f in taken nb hp (m1.[hp <- h]) f1.
Proof.
  intros Lt. destruct take_block as (Ib & Cb & Hb). unfold allocate_block. change (Wosize_hd (Hd_op m b)) with (wosize m b).
  destruct (Z.ltb_spec (wosize m b) (Whsize_wosize wo + 1)) as [K|_]; [unfold Whsize_wosize in K; lia|]. set (k := wosize m b - Whsize_wosize wo). assert (Ek : k = wosize m b - wo - 1) by (unfold k, Whsize_wosize; lia).
  cbn [policy add_size set_size]. rewrite Pn. cbn [Z.eqb Policy_next_fit]. set (hp := b + Bosize_hd (Hd_op m b) - Bsize_wsize (Whsize_wosize wo)).
  assert (Ehp : hp = b + Bsize_wsize k) by (unfold hp, Bosize_hd, Bsize_wsize, k; fold (wosize m b); lia). pose proof (Max_wosize_hd _ Hb) as Mb. fold (wosize m b) in Mb.
  assert (Bk : 0 <= k <= Max_wosize) by (clear - Ek Mb Lt Wo; lia). destruct (Make_header_parts k 2 Bk ltac:(lia)) as (O1 & W1 & C1). change (2 * 256) with Caml_blue in *. set (h1 := Make_header k 0 Caml_blue) in *.
  assert (Chp : cell m b hp) by (right; exists k; lia). pose proof sizeof_value_pos as Sp. assert (Hk : hp > b) by (rewrite Ehp; unfold Bsize_wsize; nia).
  set (m1 := m.[b - sizeof_value <- h1]). set (m2 := m1.[hp <- h]).
  assert (E1 : forall y, In y (others b1 b2) -> Hd_op m1 y = Hd_op m y) by (intros y Hy; apply untouched_hd; apply inner_other; auto; apply cell_hd).
  assert (U : forall x, In x (others b1 b2) -> untouched m m2 x) by (intros x Hx; apply (untouched_trans m m1); [apply inner_other; auto; apply cell_hd | now apply inner_other]).
  assert (Eb : Hd_op m2 b = h1) by (unfold m2, m1, Hd_op; rewrite upd_other by lia; apply upd_same). assert (En : Hd_op m2 (Val_hp hp) = h) by (rewrite Val_hp_hd; apply upd_same).
  assert (Wb : wosize m2 b = k) by (unfold wosize; now rewrite Eb). assert (Tb : tile m2 (b - sizeof_value) (b + bsize m b) [b; Val_hp hp]).
  { cbn [tile]. rewrite Eb, En. split; [lia|]. split; auto. unfold bsize. rewrite Wb. split; [unfold Val_hp; lia|]. split; auto. unfold wosize. rewrite En, Hw. fold (wosize m b).
    unfold Val_hp. rewrite Ehp, Ek. unfold Bsize_wsize. lia. }
  assert (Efr : frees m2 [b; Val_hp hp] = [b]).
  { cbn [frees filter]. unfold free, Is_blue_hd. rewrite Eb, En, C1, Z.eqb_refl. destruct (Z.eqb_spec (Color_hd h) Caml_blue); [contradiction | reflexivity]. }
  assert (Eh : m2 Fl_head = m Fl_head /\ Hd_op m2 Fl_head = Hd_op m Fl_head).
  { destruct (inner_head m1 hp h Chp) as [K1 K2]. destruct (inner_head m (b - sizeof_value) h1 (cell_hd m b)) as [K3 K4]. split; etransitivity; eauto. }
  exists [b; Val_hp hp]. assert (Hds : forall x, In x (others b1 b2) -> Hd_op m2 x = Hd_op m x) by (intros x Hx; apply untouched_hd, U, Hx). split; [|split; [|split; [|split; [|split]]]].
  - exact (take_tiled Dn Rs c l m m2 b1 b2 [b; Val_hp hp] b T Hds Tb).
  - apply (take_list Dn Rs c l m m2 f b1 b2 [b; Val_hp hp] b Fb F Hds); rewrite ?Efr; [| | | reflexivity | apply Eh].
    + pose proof (fl_links _ _ _ F) as Ln. rewrite (take_frees Dn Rs c l m b1 b2 b Fb) in Ln. eapply links_ext; [|exact Ln]. intros x [<-|Hx]; [apply Eh|].
      destruct (Z.eq_dec x b) as [->|Nx]; [unfold m2, m1; rewrite !upd_other by lia; reflexivity|].
      assert (Hx' : In x P \/ In x N) by (apply in_app_or in Hx; cbn in Hx; destruct Hx as [?|[?|?]]; auto; congruence). destruct (PN_in x Hx') as (Io & _ & W). apply (U x Io). now apply cell_first.
    + intros x [<-|[]]. rewrite Wb. lia.
    + cbn [caml_fl_cur_size set_prev add_size set_size total fold_right]. f_equal. unfold Whsize_bp, Whsize_hd, Whsize_wosize. rewrite Eb, W1. fold (wosize m b). lia.
  - now right; left.
  - lia.
  - unfold Val_hp, bsize. rewrite Ehp, Ek. unfold Bsize_wsize. lia.
  - intros x Hx _. now apply U.
Qed.

Lemma inner_neq x a : In x P \/ In x N -> cell m b a -> x <> a.
Proof.
  intros Hx Ca E. destruct (PN_in x Hx) as (Io & _ & W). destruct (other_block x Io) as [Ix Nx]. destruct take_block as (Ib & _).
  apply (tiled_cell m _ x b a T Ix Ib Nx); [rewrite <- E; now apply cell_first | exact Ca].
Qed.
Lemma unlinked_list m2 : (forall x, x = Fl_head \/ In x P \/ In x N -> m2 x = (m.[prev <- Next m b]) x) -> links m2 Fl_head (P ++ N) 0.
Proof.
  intros E. pose proof (fl_links _ _ _ F) as Ln. rewrite (take_frees Dn Rs c l m b1 b2 b Fb) in Ln.
  assert (D : NoDup (Fl_head :: P ++ b :: N)).
  { rewrite <- (take_frees Dn Rs c l m b1 b2 b Fb). constructor; [|apply NoDup_filter, (tiled_nodup m _ T)]. intros K. apply frees_in in K as [K _]. now apply (tiled_not_head m _ Fl_head T). }
  apply (links_skip m P b N 0 Fl_head D) in Ln. eapply links_ext; [|exact Ln]. intros x [<-|Hx]; apply E; auto. apply in_app_or in Hx. tauto.
Qed.

(** The whole block is taken, but for one word in the second case. *)
Lemma take_all : wosize m b <= wo + 1 -> exists nb, let '(hp, m1, f1) := allocate_block (Whsize_wosize wo) 0 prev b m f in taken nb hp (m1.[hp <- h]) f1.
Proof.
  intros Le. destruct take_block as (Ib & Cb & Hb). unfold allocate_block. change (Wosize_hd (Hd_op m b)) with (wosize m b).
  destruct (Z.ltb_spec (wosize m b) (Whsize_wosize wo + 1)) as [_|K]; [|unfold Whsize_wosize in K; lia].
  destruct (Make_header_parts 0 0) as (O1 & W1 & C1); [pose proof Max_wosize_pos; lia | lia|]. change (0 * 256) with Caml_white in *. set (h1 := Make_header 0 0 Caml_white) in *.
  set (f0 := if _ =? b then _ else _). assert (Ef : policy f0 = policy f /\ caml_fl_cur_size f0 = wrap WORD (caml_fl_cur_size f + - Whsize_bp m b)) by (unfold f0; destruct (_ =? b); auto). destruct Ef as [Ef Ec].
  rewrite Ef, Pn. change (Policy_next_fit =? Policy_first_fit) with false. cbn iota. rewrite Ef, Pn, Z.eqb_refl. set (hp := b + Bosize_hd (Hd_op m b) - Bsize_wsize (Whsize_wosize wo)).
  pose proof sizeof_value_pos as Sp. assert (Chp : (wosize m b = wo /\ hp = b - sizeof_value) \/ (wosize m b = wo + 1 /\ hp = b)).
  { unfold hp, Bosize_hd, Bsize_wsize, Whsize_wosize. fold (wosize m b). destruct (Z.eq_dec (wosize m b) wo) as [E|E]; [left | right].
    - split; [exact E|]. rewrite E. ring.
    - assert (E' : wosize m b = wo + 1) by lia. split; [exact E'|]. rewrite E'. ring. }
  assert (Cp : cell m b hp) by (destruct Chp as [[_ ->]|[_ ->]]; [apply cell_hd | exact Cb]). set (m0 := m.[prev <- Next m b]). set (m1 := m0.[b - sizeof_value <- h1]). set (m2 := m1.[hp <- h]).
  assert (E0 : forall y, In y (others b1 b2) -> Hd_op m0 y = Hd_op m y) by (intros y Hy; apply prev_other; auto).
  assert (E1 : forall y, In y (others b1 b2) -> Hd_op m1 y = Hd_op m y) by (intros y Hy; rewrite <- E0 by auto; apply untouched_hd; apply inner_other; auto; apply cell_hd).
  assert (E2 : forall y, In y (others b1 b2) -> Hd_op m2 y = Hd_op m y) by (intros y Hy; rewrite <- E1 by auto; apply untouched_hd; apply inner_other; auto).
  assert (U : forall x, In x (others b1 b2) -> free m x = false -> untouched m m2 x).
  { intros x Hx Fx. apply (untouched_trans m m1); [|now apply inner_other]. apply (untouched_trans m m0); [|apply inner_other; auto; apply cell_hd].
    apply prev_other; auto. intros Ex. destruct take_prev as [K|(_ & K & _)]; [|congruence]. destruct (other_block x Hx) as [Ix _]. apply (tiled_not_head m _ x T Ix). congruence. }
  assert (Eh : Hd_op m2 Fl_head = Hd_op m Fl_head) by (unfold m2; rewrite (proj2 (inner_head m1 hp h Cp)); unfold m1; rewrite (proj2 (inner_head m0 _ h1 (cell_hd m b))); apply prev_head).
  assert (Ln : links m2 Fl_head (P ++ N) 0).
  { apply unlinked_list. intros x Hx. fold m0. assert (Nx : x <> hp /\ x <> b - sizeof_value).
    { destruct Hx as [->|Hx]; [|split; apply inner_neq; auto; apply cell_hd]. destruct (tiled_head m _ b T Ib) as [K _]. split; intros E; apply K; rewrite E; [exact Cp | apply cell_hd]. }
    unfold m2, m1. rewrite !upd_other by tauto. reflexivity. }
  assert (Nh : free m2 (Val_hp hp) = false /\ wosize m2 (Val_hp hp) = wo /\ Hd_op m2 (Val_hp hp) = h).
  { assert (En : Hd_op m2 (Val_hp hp) = h) by (rewrite Val_hp_hd; apply upd_same). unfold free, wosize, Is_blue_hd. rewrite En. split; auto. now apply Z.eqb_neq. }
  destruct Nh as (Fn & Wn & En). exists (if wosize m b =? wo then [b] else [b; Val_hp hp]). set (nb := if _ =? wo then _ else _).
  assert (Tb : tile m2 (b - sizeof_value) (b + bsize m b) nb /\ frees m2 nb = [] /\ In (Val_hp hp) nb).
  { unfold nb. destruct Chp as [[Ew Ehp]|[Ew Ehp]]; rewrite Ew.
    - rewrite Z.eqb_refl. assert (Eb : Val_hp hp = b) by (unfold Val_hp; clear -Ehp; lia). rewrite Eb in *. cbn [tile frees filter]. rewrite En, Fn. unfold bsize. rewrite Wn, Ew. split; [split; [lia | auto] | split; [reflexivity | now left]].
    - destruct (Z.eqb_spec (wo + 1) wo); [lia|]. assert (Eb : Hd_op m2 b = h1) by (unfold m2, m1, Hd_op; rewrite upd_other by lia; apply upd_same).
      cbn [tile frees filter]. rewrite Fn. unfold free at 1, Is_blue_hd. rewrite Eb, C1. cbn [Z.eqb Caml_white Caml_blue]. split; [|split; [reflexivity | right; now left]].
      split; [lia|]. split; auto. unfold bsize, wosize at 1. rewrite Eb, W1. split; [unfold Val_hp, Bsize_wsize; lia|]. rewrite En. split; auto. rewrite Wn, Ew, Ehp. unfold Val_hp, Bsize_wsize. lia. }
  destruct Tb as (Tb & Efr & Inb). split; [|split; [|split; [|split; [|split]]]]; auto.
  - exact (take_tiled Dn Rs c l m m2 b1 b2 nb b T E2 Tb).
  - apply (take_list Dn Rs c l m m2 f b1 b2 nb b Fb F E2); rewrite ?Efr; [exact Ln | intros x [] | | reflexivity | exact Eh].
    cbn [caml_fl_cur_size set_prev total fold_right]. rewrite Ec. f_equal. lia.
  - destruct Chp as [[_ ->]|[_ ->]]; lia.
  - unfold Val_hp, bsize. destruct Chp as [[-> ->]|[-> ->]]; unfold Bsize_wsize; lia.
Qed.
End Cases.

(** ** Allocation *)

(** [b] is the free block that is used, [hp] the header of the new block. *)
Definition allocated (m : mem) (S : list seg) (wo hp : Z) (m' : mem) (f' : free_list) : Prop :=
  exists b, In b (blocks S) /\ free m b = true /\ wo <= wosize m b /\ b - sizeof_value <= hp /\ Val_hp hp + Bsize_wsize wo = b + bsize m b /\
    forall h, header_ok h -> Wosize_hd h = wo -> Color_hd h <> Caml_blue -> exists S', map fst S' = map fst S /\ tiled (m'.[hp <- h]) S' /\
      free_list_ok (m'.[hp <- h]) f' (blocks S') /\ In (Val_hp hp) (blocks S') /\
      forall x, In x (blocks S) -> free m x = false -> In x (blocks S') /\ untouched m (m'.[hp <- h]) x.

Lemma allocate_block_allocated m f S wo P b N : tiled m S -> free_list_ok m f (blocks S) -> policy f = Policy_next_fit -> 0 < wo <= wosize m b ->
  frees m (blocks S) = P ++ b :: N -> let '(hp, m', f') := allocate_block (Whsize_wosize wo) 0 (last P Fl_head) b m f in allocated m S wo hp m' f'.
Proof.
  intros T F Pn Wo EF. assert (Hb : In b (blocks S) /\ free m b = true) by (apply frees_in; rewrite EF; apply in_or_app; right; now left). destruct Hb as [Ib Fb].
  apply in_flat_map in Ib as (s & Hs & Ib). destruct s as [[c l] bs]. apply in_split in Hs as (Dn & Rs & ->). cbn [snd] in Ib. apply in_split in Ib as (b1 & b2 & ->).
  change (Dn ++ (c, l, b1 ++ b :: b2) :: Rs) with (whole Dn Rs c l (b1 ++ b :: b2)) in *. pose proof (take_frees Dn Rs c l m b1 b2 b Fb) as EF'. rewrite EF' in EF.
  assert (D : NoDup (frees m (blocks Dn ++ b1) ++ b :: frees m (b2 ++ blocks Rs))) by (rewrite <- EF'; apply NoDup_filter, (tiled_nodup m _ T)).
  assert (EP : frees m (blocks Dn ++ b1) = P).
  { assert (D2 : NoDup (P ++ b :: N)) by now rewrite <- EF. clear -EF D D2. revert EF D D2. generalize (frees m (blocks Dn ++ b1)). generalize (frees m (b2 ++ blocks Rs)). intros N' P'. revert P. 
    induction P' as [|x P' IH]; intros [|y P] E D D2; cbn [app] in *; auto; injection E as E1 E2.
    - subst y. inversion_clear D2 as [|? ? Nb _]. exfalso. apply Nb, in_or_app. right. now left.
    - subst x. inversion_clear D as [|? ? Nb _]. exfalso. apply Nb, in_or_app. right. now left.
    - subst y. f_equal. inversion_clear D. inversion_clear D2. now apply IH. }
  rewrite <- EP. assert (K : forall h, header_ok h -> Wosize_hd h = wo -> Color_hd h <> Caml_blue ->
    exists nb, let '(hp, m1, f1) := allocate_block (Whsize_wosize wo) 0 (last (frees m (blocks Dn ++ b1)) Fl_head) b m f in taken Dn Rs c l m b1 b2 b wo nb hp (m1.[hp <- h]) f1).
  { intros h Ho Hw Hc. destruct (Z_lt_le_dec (wo + 1) (wosize m b)); [now apply take_end | now apply take_all]. }
  destruct (allocate_block _ _ _ b m f) as [[hp m'] f'].
  pose proof (Max_wosize_hd _ (tiled_header m _ b T ltac:(apply whole_blocks; auto))) as Mb. fold (wosize m b) in Mb.
  destruct (Make_header_parts wo 0) as (O1 & W1 & C1); [lia | lia|]. exists b. split; [apply whole_blocks; auto|]. split; [exact Fb|]. split; [lia|].
  destruct (K _ O1 W1 ltac:(rewrite C1; discriminate)) as (_ & _ & _ & _ & G1 & G2 & _). split; [exact G1|]. split; [exact G2|].
  intros h Ho Hw Hc. destruct (K h Ho Hw Hc) as (nb & T' & F' & In' & _ & _ & U). exists (whole Dn Rs c l (b1 ++ nb ++ b2)).
  split; [unfold whole; now rewrite !map_app|]. split; [exact T'|]. split; [exact F'|]. split; [rewrite whole_split_blocks, !in_app_iff; auto|].
  intros x Hx Fx. apply whole_blocks in Hx as [->|Hx]; [congruence|]. split; [|now apply U]. rewrite whole_split_blocks, !in_app_iff. apply others_in in Hx. tauto.
Qed.

Lemma caml_fl_allocate_next_fit m f S wo fuel : tiled m S -> free_list_ok m f (blocks S) -> policy f = Policy_next_fit -> 0 < wo -> (length (blocks S) < fuel)%nat ->
  exists hp m' f', caml_fl_allocate fuel wo m f = Ok (hp, m', f') /\
  (allocated m S wo hp m' f' \/
   hp = 0 /\ m' = m /\ free_list_ok m f' (blocks S) /\ forall b, In b (blocks S) -> free m b = true -> wosize m b < wo).
Proof.
  intros T F Pn Hw Hf. unfold caml_fl_allocate. rewrite Pn. cbn [Z.eqb Policy_next_fit].
  assert (Sl : forall z, free_list_ok m (set_last z f) (blocks S)) by (intros z; destruct F; now split).
  assert (D : NoDup (Fl_head :: frees m (blocks S))).
  { constructor; [|apply NoDup_filter, (tiled_nodup m _ T)]. intros K. apply frees_in in K as [K _]. now apply (tiled_not_head m _ Fl_head T). }
  assert (Nz : Forall (fun b => b <> 0) (frees m (blocks S))).
  { apply Forall_forall. intros b Hb. apply frees_in in Hb as [Hb _]. pose proof (tiled_pos m _ b T Hb). pose proof sizeof_value_pos. lia. }
  assert (Lf : (length (frees m (blocks S)) < fuel)%nat) by (pose proof (filter_length_le (free m) (blocks S)); unfold frees; lia).
  destruct (next_fit_choice m f (blocks S) wo fuel F Pn D Nz Lf) as [(P & b & N & z & EF & Le & ->)|(Sm & ->)].
  - pose proof (allocate_block_allocated m (set_last z f) S wo P b N T (Sl z) Pn (conj Hw Le) EF) as K. destruct (allocate_block _ _ _ b m _) as [[hp m'] f']. exists hp, m', f'. auto.
  - exists 0, m, (set_last (last (frees m (blocks S)) Fl_head) f). split; [reflexivity|]. right. split; auto. split; auto. split; auto. intros b Hb Fb. apply (proj1 (Forall_forall _ _) Sm b). apply frees_in. auto.
Qed.
End Alloc.
