(* ===== verification/GcEnd.v ===== *)
(** GcEnd: the end of marking, and what it hands over to sweeping. *)
From Stdlib Require Import ZArith Lia List Bool.
From S2P Require Import Prelude Mlvalues ExternOutput InterpState MarshalBytes MarshalTrail MarshalDecode Gc GcGraph GcInv GcMark GcWeak GcTurn GcCycle GcLive Freelist FlTile FlFree.
Import ListNotations.
Local Open Scope Z_scope.

(** What becomes of a weak pointer [x], when the blocks of [R] are those that the
    program reaches.  The header of a closure inside a block is always white. *)
Definition weak_slot {A : Arch} {Env : Heap_env} (m : mem) (R : Z -> Prop) (x y : Z) : Prop :=
  if negb (x =? caml_weak_none) && Is_block x && Is_in_heap x then
    if tag m x =? Forward_tag then y = caml_weak_none \/ shortcut m x y
    else if tag m x =? Infix_tag then y = caml_weak_none
    else (R x -> y = x) /\ (~ R x -> y = caml_weak_none)
  else y = x.

Section End.
Context {A : Arch} {Env : Heap_env}.
Variable B : list Z.
Variable L : Z -> Prop.
(** The memory, the weak arrays and the blocks reached when the cycle starts. *)
Variables (m0 : mem) (l0 : list Z) (R0 : Z -> Prop).
Notation inv := (inv B L).
Notation marks := (marks B L).
Notation mutates := (mutates B L).
Notation weak_chain := (weak_chain B L).
Notation weak_array := (weak_array B L).

(** ** Black blocks point to safe blocks *)

Definition closedp (m : mem) (pend : Z -> Prop) : Prop := forall b c, L b -> color m b = Caml_black -> edge m b c -> safe B m pend c.

Lemma closedp_reach m pend b c : live_wf B L m -> closedp m pend -> L b -> safe B m pend b -> reach m b c -> safe B m pend c.
Proof.
  intros V C Hb Sb. induction 1 as [|c d R IH E]; auto. pose proof (reach_live B L m b c V Hb R) as Lc. pose proof (edge_live B L m c d V Lc E) as Ld.
  destruct IH as [Bc|Gc]; [exact (C c d Lc Bc E)|]. destruct (Z.eq_dec (color m d) Caml_white) as [Wd|Wd]; [right; eapply g_step; eauto|].
  destruct (color_nonwhite B L m d V Ld Wd) as [Hd|Hd]; [right; apply g_gray; auto; now apply (live_in B L m V) | now left].
Qed.

Definition no_new_black (m m' : mem) : Prop := forall x, In x B -> color m' x = Caml_black -> color m x = Caml_black.

(** Edges are old paths, safe blocks stay safe: it only remains to look at the
    blocks that become black. *)
Lemma closedp_step m m' p p' : live_wf B L m -> (forall b c, L b -> edge m' b c -> reach m b c) -> (forall x, L x -> safe B m p x -> safe B m' p' x) ->
  no_new_black m m' -> closedp m p -> closedp m' p'.
Proof.
  intros V R Sf N C b c Lb Bb E. apply (N b (live_in B L m V b Lb)) in Bb. specialize (R b c Lb E). apply Sf; [exact (reach_live B L m b c V Lb R)|].
  apply (closedp_reach m p b c V C Lb); [now left | exact R].
Qed.

Lemma safe_advances s s' p p' x : advances B L s s' p p' -> In x B -> safe B (memory s) p x -> safe B (memory s') p' x.
Proof. intros (_ & _ & _ & K & G) Hx [Sx|Sx]; [left; exact (darker_black B _ _ x K Hx Sx) | right; auto]. Qed.

Lemma mark_fields_black n : forall s v i, inv s -> L v -> tag (memory s) v < No_scan_tag -> 0 <= i -> i + Z.of_nat n = wosize (memory s) v ->
  color (memory s) v = Caml_black -> no_new_black (memory s) (memory (mark_fields n v i s)).
Proof.
  induction n as [|n IH]; intros s v i I Hv Ht Hi Hn Hb x Hx; cbn [mark_fields]; auto. assert (Hi' : 0 <= i < wosize (memory s) v) by lia.
  destruct (mark_field_spec B L s v i I Hv Ht Hi' Hb) as (I1 & _ & M1 & K1 & _). pose proof (live_in B L _ (inv_live B L s I) v Hv) as Iv.
  destruct (ss_header B _ _ (mu_shape _ _ _ _ M1) v Iv) as (_ & Et & Ew). intros E. apply (IH (mark_field v i s) v (i + 1)) in E; auto; [|now rewrite Et | lia | rewrite Ew; lia | exact (darker_black B _ _ v K1 Iv Hb)].
  destruct (mark_field_color B L s v i I Hv Ht Hi' Hb x Hx) as [<-|(G & _)]; [exact E | rewrite G in E; discriminate E].
Qed.

Lemma pop_closed s v l : inv s -> gray_vals s = v :: l -> closedp (memory s) none -> closedp (memory (scanned v l s)) none.
Proof.
  intros I Eg C. destruct (pop_live B L s v l I Eg) as (Lv & Iv & Cv & Wp). destruct (pop_blacken B L s v l I Eg) as (I1 & _ & M1 & K1 & Et & Ew & Col). pose proof (pop_advances B L s v l I Eg) as Ad.
  set (s1 := popped v l s) in *. pose proof (inv_live B L s I) as V. pose proof (inv_live B L s1 I1) as V1.
  pose proof (guarded_pop B L (memory s) v _ (inv_heap B L s I) V (inv_grays B L s I) Lv Cv (Blackhd_recolor _ (wf_header B _ (inv_heap B L s I) v Iv))) as Gp. cbn zeta in Gp.
  change ((memory s).[v - sizeof_value <- Blackhd_hd (Hd_op (memory s) v)]) with (memory s1) in Gp.
  set (p := fun c => tag (memory s) v < No_scan_tag /\ child_from (memory s1) 0 v c) in *.
  assert (C1 : closedp (memory s1) p).
  { intros b c Lb Bb E. pose proof (edge_live B L _ b c V1 Lb E) as Lc. pose proof (live_in B L _ V c Lc) as Ic. destruct (Z.eq_dec b v) as [->|Nb].
    - destruct E as [Ht Hc]. rewrite Et in Ht. assert (Pc : p c) by (split; auto). destruct (Z.eq_dec (color (memory s1) c) Caml_white) as [Wc|Wc]; [right; now apply g_pend|].
      destruct (color_nonwhite B L _ c V1 Lc Wc) as [Gc|Bc]; [right; now apply g_gray | now left].
    - rewrite Col in Bb. apply Z.eqb_neq in Nb. rewrite Nb in Bb. pose proof (mu_edge _ _ _ _ M1 b c Lb E) as R.
      destruct (closedp_reach _ _ b c V C Lb (or_introl Bb) R) as [Bc|Gc]; [left; exact (darker_black B _ _ c K1 Ic Bc)|].
      destruct (Gp c Gc) as [->|G]; [left; now rewrite Col, Z.eqb_refl | now right]. }
  pose proof Ad as (I2 & _ & M2 & _). apply (closedp_step (memory s1) _ p); auto.
  - apply M2.
  - intros x Lx. apply (safe_advances s1); auto. now apply (live_in B L _ V).
  - unfold scanned. fold s1. destruct (Z.ltb_spec (tag (memory s) v) No_scan_tag) as [Ht|Ht]; [|intros x _; auto].
    apply mark_fields_black; auto; [now rewrite Et | lia | rewrite Ew; lia | now rewrite Col, Z.eqb_refl].
Qed.

Lemma darken_closed v s : inv s -> (pointer v -> good L (memory s) v) -> closedp (memory s) none -> closedp (memory (caml_darken v s)) none.
Proof.
  intros I Hv C. destruct (darken_spec B L v s I Hv) as (M & _). intros b c Lb Bb E. pose proof (inv_live B L s I) as V.
  destruct (ss_header B _ _ (mk_shape _ _ _ _ M) b (live_in B L _ V b Lb)) as (_ & Et & _).
  assert (R : reach (memory s) b c) by (apply (mk_reach _ _ _ _ M); auto; econstructor; [constructor | exact E]).
  apply (mk_safe _ _ _ _ M); [exact (reach_live B L _ b c V Lb R)|]. destruct (Z.eq_dec (color (memory s) b) Caml_black) as [Bb'|Nb].
  - apply (closedp_reach _ _ b c V C Lb); [now left | exact R].
  - exfalso. destruct (darken_change B L v s I Hv) as [Em|(P & h & col & Rc & Em & _ & Hc)]; [congruence|]. rewrite Em, (recolor_color _ _ col h Rc b) in Bb.
    destruct (Z.eqb_spec b (base (memory s) v)) as [->|]; [|contradiction]. subst col. destruct Hc as [Hc|[_ Hc]]; [discriminate Hc|]. destruct E as [E _]. rewrite Et in E. lia.
Qed.
Lemma darken_all_closed l : forall s, inv s -> Forall (fun v => pointer v -> good L (memory s) v) l -> closedp (memory s) none ->
  closedp (memory (fold_left (fun s v => caml_darken v s) l s)) none.
Proof.
  induction l as [|v l IH]; intros s I F C; cbn [fold_left]; auto. inversion_clear F as [|? ? Hv Fl]. destruct (darken_spec B L v s I Hv) as (M1 & Mu1 & _).
  apply IH; [apply M1 | | now apply darken_closed]. eapply Forall_impl; [|exact Fl]. cbn. intros y Hy P. exact (good_mutates B L _ _ _ I Mu1 (Hy P)).
Qed.

(** ** The list of weak arrays *)

Lemma weak_chain_links m l : forall p, weak_chain m p l <-> links m p l 0 /\ weak_link B L m p /\ Forall (fun c => c <> 0 /\ weak_array m c) l.
Proof.
  induction l as [|c l IH]; intros p; cbn [GcInv.weak_chain links]; unfold Next.
  - split; [intros [H1 H2]; auto | intros (H1 & H2 & _); auto].
  - rewrite IH. split.
    + intros (H1 & -> & Nc & Hc & H2 & _ & H3). auto 7.
    + intros ([-> H2] & H1 & F). inversion_clear F as [|? ? [Nc Hc] F']. split; auto. split; auto. split; auto. split; auto. split; auto. split; auto. now right.
Qed.

Lemma links_det m l : forall p l', links m p l 0 -> links m p l' 0 -> Forall (fun c => c <> 0) l -> Forall (fun c => c <> 0) l' -> l = l'.
Proof.
  induction l as [|c l IH]; intros p [|c' l'] H H' F F'; auto; cbn [links] in *.
  - destruct H' as [H' _]. inversion_clear F'. congruence.
  - destruct H as [H _]. inversion_clear F. congruence.
  - destruct H as [H1 H2], H' as [H1' H2']. rewrite H1 in H1'. subst c'. inversion_clear F. inversion_clear F'. f_equal. now apply (IH c).
Qed.

Lemma weak_chain_nodup m p l : weak_chain m p l -> NoDup l.
Proof.
  intros H. apply weak_chain_links in H as (H & _ & F). assert (F' : Forall (fun c => c <> 0) l) by (eapply Forall_impl; [|exact F]; cbn; tauto). clear F.
  revert p H. induction l as [|c l IH]; intros p H; [constructor|]. inversion_clear F' as [|? ? Nc F]. destruct H as [_ H]. constructor; [|now apply (IH F c)].
  intros Hc. apply in_split in Hc as (l1 & l2 & ->). apply links_app in H as H'. destruct H' as [_ H']. apply Forall_app in F as F'. destruct F' as [_ F']. inversion_clear F' as [|? ? _ F2].
  pose proof (links_det m _ _ _ H H' F F2) as E. apply (f_equal (@length Z)) in E. rewrite length_app in E. cbn in E. lia.
Qed.

(** ** Pointers of weak arrays *)

(** The pointer is to a header that is not white. *)
Definition field_marked (m : mem) (a i : Z) : Prop := Op_val m a i <> caml_weak_none -> pointer (Op_val m a i) -> color m (Op_val m a i) <> Caml_white.
Definition fields_marked (m : mem) (a : Z) : Prop := forall i, 1 <= i < wosize m a -> field_marked m a i.
Definition nonwhite (m : mem) (a : Z) : Prop := color m a <> Caml_white.

Lemma nonwhite_kept m m' x : live_wf B L m -> same_shape B m m' -> darker B m m' -> good L m x -> nonwhite m x -> nonwhite m' x.
Proof.
  intros V S K [Lb Gi] N. destruct (Z.eqb_spec (tag m x) Infix_tag) as [Ti|Ti].
  - destruct (Gi Ti) as (Tc & F & _). pose proof (ss_infix B m m' S _ _ (live_in B L m V _ Lb) Tc F Ti) as E. unfold nonwhite, color, Hd_op in *. now rewrite E.
  - assert (E : base m x = x) by (unfold base; apply Z.eqb_neq in Ti; now rewrite Ti). rewrite E in Lb. unfold nonwhite in *.
    destruct (K x (live_in B L m V x Lb)) as [->|[[W _]|[_ ->]]]; [exact N | contradiction | discriminate].
Qed.

Lemma fields_kept m m' a : live_wf B L m -> same_shape B m m' -> darker B m m' -> weak_array m a ->
  (forall i, 1 <= i < wosize m a -> Op_val m' a i = Op_val m a i) -> fields_marked m a -> fields_marked m' a.
Proof.
  intros V S K (Ia & _ & _ & Fa) E F i Hi. destruct (ss_header B m m' S a Ia) as (_ & _ & Ew). rewrite Ew in Hi. unfold field_marked. rewrite (E i Hi). intros Nn P.
  apply (nonwhite_kept m); auto. now apply F.
Qed.

Lemma weak_field_marked s c i : inv s -> weak_array (memory s) c -> 1 <= i < wosize (memory s) c -> forall s', weak_field c i s = Ok s' ->
  field_marked (memory s') c i /\ forall a, a <> c + Bsize_wsize i -> memory s' a = memory s a.
Proof.
  intros I Hc Hi s'. destruct (weak_field_spec B L s c i I Hc Hi) as (s0 & E0 & S0). intros E. rewrite E0 in E. injection E as <-.
  unfold weak_field in E0. set (m := memory s) in *. set (x := Op_val m c i) in *.
  assert (Old : forall a y s1, (forall a, a <> c + Bsize_wsize i -> memory s1 a = m a) -> a <> c + Bsize_wsize i -> memory (set_field c i y s1) a = m a).
  { intros a y s1 E Na. cbn [memory set_field set_memory]. rewrite upd_other by auto. now apply E. }
  assert (New : forall y s1, Op_val (memory (set_field c i y s1)) c i = y) by (intros y s1; apply upd_same).
  assert (Cl : forall s1 y, (forall a, a <> c + Bsize_wsize i -> memory s1 a = m a) -> Op_val (memory s1) c i = y ->
    Ok (if Is_white_hd (Hd_op (memory s1) y) then set_field c i caml_weak_none s1 else s1) = Ok s0 -> field_marked (memory s0) c i /\ forall a, a <> c + Bsize_wsize i -> memory s0 a = m a).
  { intros s1 y E1 Ey E. rewrite Is_white_color in E. destruct (Z.eqb_spec (color (memory s1) y) Caml_white) as [W|W]; injection E as <-.
    - split; [intros Nn; rewrite New in Nn; contradiction | intros a Na; now apply Old].
    - split; [unfold field_marked; now rewrite Ey | exact E1]. }
  cbn [weak_again] in E0. fold m in E0. destruct (negb (x =? caml_weak_none) && Is_block x && Is_in_heap x) eqn:Px.
  2:{ injection E0 as <-. split; [|auto]. fold m. unfold field_marked. fold x. intros Nn [P1 P2]. apply Z.eqb_neq in Nn. rewrite Nn, P1, P2 in Px. discriminate Px. }
  destruct (Tag_hd (Hd_op m x) =? Forward_tag); [|now apply (Cl s x)]. set (f := Forward_value m x) in *.
  destruct (Is_block f && negb (keep_forward m f)); [|now apply (Cl s x)]. set (s1 := set_field c i f s) in *. assert (E1 : forall a, a <> c + Bsize_wsize i -> memory s1 a = m a) by (intros a Na; now apply Old).
  destruct (negb (f =? caml_weak_none) && Is_block f && Is_in_heap f) eqn:Pf.
  2:{ injection E0 as <-. split; [|exact E1]. unfold field_marked, s1. rewrite New. intros Nn [P1 P2]. apply Z.eqb_neq in Nn. rewrite Nn, P1, P2 in Pf. discriminate Pf. }
  destruct (Tag_hd (Hd_op (memory s1) f) =? Forward_tag); [destruct (Is_block _ && negb _); [discriminate E0|]|]; apply (Cl s1 f); auto; apply New.
Qed.

Lemma weak_fields_marked n : forall s c i, inv s -> weak_array (memory s) c -> 1 <= i -> i + Z.of_nat n <= wosize (memory s) c -> forall s', weak_fields n c i s = Ok s' ->
  (forall j, i <= j < i + Z.of_nat n -> field_marked (memory s') c j) /\
  forall a, (forall j, i <= j < i + Z.of_nat n -> a <> c + Bsize_wsize j) -> memory s' a = memory s a.
Proof.
  induction n as [|n IH]; intros s c i I Hc Hi Hn s'; cbn [weak_fields]; [intros E; injection E as <-; split; [lia | auto]|].
  assert (Hi' : 1 <= i < wosize (memory s) c) by lia. destruct (weak_field_spec B L s c i I Hc Hi') as (s1 & E1 & S1). rewrite E1. destruct (weak_field_marked s c i I Hc Hi' s1 E1) as [F1 O1].
  pose proof (mk_inv _ _ _ _ (ws_marks _ _ _ _ S1)) as I1. pose proof (ws_array _ _ _ _ S1 c Hc) as Hc1. pose proof Hc as (Ic & _ & _ & _). pose proof Hc1 as (_ & _ & _ & Fc1).
  destruct (ss_header B _ _ (ws_shape _ _ _ _ S1) c Ic) as (_ & _ & Ew). assert (Hn1 : i + 1 + Z.of_nat n <= wosize (memory s1) c) by (rewrite Ew; lia). intros E.
  destruct (weak_fields_spec B L n s1 c (i + 1) I1 Hc1 ltac:(lia) Hn1) as (s2 & E2 & S2). rewrite E2 in E. injection E as <-.
  destruct (IH s1 c (i + 1) I1 Hc1 ltac:(lia) Hn1 s2 E2) as [F2 O2]. pose proof sizeof_value_pos as Sp. split.
  - intros j Hj. destruct (Z.eq_dec j i) as [->|]; [|apply F2; lia]. assert (Eo : Op_val (memory s2) c i = Op_val (memory s1) c i) by (apply O2; intros k Hk; unfold Bsize_wsize; nia).
    unfold field_marked. rewrite Eo. intros Nn P. apply (nonwhite_kept (memory s1)); [apply I1 | exact (ws_shape _ _ _ _ S2) | exact (mk_darker _ _ _ _ (ws_marks _ _ _ _ S2)) | | now apply F1].
    apply Fc1; auto. rewrite Ew. exact Hi'.
  - intros a Ha. rewrite O2 by (intros j Hj; apply Ha; lia). apply O1. apply Ha. lia.
Qed.

(** ** The arrays already treated, in each subphase *)

Definition as_before (m : mem) (l : list Z) : Prop := forall c i, In c l -> 0 <= i < wosize m0 c -> Op_val m c i = Op_val m0 c i.
Definition treated (m : mem) (l : list Z) : Prop := forall c i, In c l -> 1 <= i < wosize m0 c -> weak_slot m0 R0 (Op_val m0 c i) (Op_val m c i).

Inductive stage (s : gc) : list Z -> list Z -> Prop :=
  | stage_main l : caml_gc_subphase s = Subphase_main -> l = l0 -> as_before (memory s) l0 -> stage s [] l
  | stage_weak1 l1 l2 : caml_gc_subphase s = Subphase_weak1 -> weak_prev s = last l1 caml_weak_list_head -> Forall (fields_marked (memory s)) l1 ->
      l1 ++ l2 = l0 -> treated (memory s) l1 -> as_before (memory s) l2 -> stage s l1 l2
  | stage_weak2 l1 l2 : caml_gc_subphase s = Subphase_weak2 -> weak_prev s = last l1 caml_weak_list_head -> Forall (fields_marked (memory s)) (l1 ++ l2) ->
      Forall (nonwhite (memory s)) l1 -> treated (memory s) l0 -> (exists k, l0 = k ++ l2 /\ forall c, In c l1 <-> In c k /\ R0 c) -> stage s l1 l2
  | stage_final l : caml_gc_subphase s = Subphase_final -> Forall (fields_marked (memory s)) l -> Forall (nonwhite (memory s)) l ->
      Forall (fun f => nonwhite (memory s) (val f)) (finalisable s) -> treated (memory s) l0 -> (forall c, In c l <-> In c l0 /\ R0 c) -> stage s l [].

Record late (s : gc) : Prop := {
  lt_closed : closedp (memory s) none;
  lt_arrays : exists l1 l2, weak_chain (memory s) caml_weak_list_head (l1 ++ l2) /\ Forall L (l1 ++ l2) /\ stage s l1 l2 }.

(** Nothing is written out of the allocated blocks, but the head of the weak list,
    nor in data but weak arrays; the other fields are only short-circuited. *)
Record frame (m m' : mem) : Prop := {
  fr_foreign : forall a, foreign L m a -> a <> caml_weak_list_head -> m' a = m a;
  fr_data : forall b i, In b B -> No_scan_tag <= tag m b -> ~ In b l0 -> 0 <= i < wosize m b -> Op_val m' b i = Op_val m b i;
  fr_fields : fields L m m' }.
Lemma frame_refl m : frame m m.
Proof. split; [reflexivity | reflexivity | apply fields_refl]. Qed.
Lemma frame_trans m1 m2 m3 : live_wf B L m1 -> live_wf B L m2 -> same_shape B m1 m2 -> frame m1 m2 -> frame m2 m3 -> frame m1 m3.
Proof.
  intros V V2 S [F1 C1 D1] [F2 C2 D2]. split.
  - intros a Fa Na. rewrite F2, F1; auto. now apply (foreign_same B L m1).
  - intros b i Hb Ht Na Hi. destruct (ss_header B m1 m2 S b Hb) as (_ & Et & Ew). rewrite C2, C1; auto; congruence.
  - exact (fields_compose B L m1 m2 m3 V V2 S D1 D2).
Qed.
Lemma frame_mutates m m' : mutates m m' -> fields L m m' -> frame m m'.
Proof.
  intros M F. split; [intros a Fa _; now apply M | | exact F]. intros b i Hb Ht _ Hi. apply (kp_data _ _ _ _ (mu_keeps _ _ _ _ M)). right. exists b. split; auto. split; auto. exists i. auto.
Qed.
(** A write in a weak array. *)
Lemma frame_array m m' q : heap_wf B m -> live_wf B L m -> weak_array m q -> L q -> In q l0 ->
  (forall a, (forall j, 0 <= j < wosize m q -> a <> q + Bsize_wsize j) -> m' a = m a) -> frame m m'.
Proof.
  intros W V (Iq & Tq & _) Lq Hq O.
  assert (Oth : forall b i, In b B -> b <> q -> 0 <= i < wosize m b -> Op_val m' b i = Op_val m b i).
  { intros b i Hb Nb Hi. apply O. intros j Hj E. destruct (field_not_field B m b q i j W Hb Iq Hi Hj E) as [-> _]. contradiction. }
  split.
  - intros a Fa _. apply O. intros j Hj ->. apply (proj2 (Fa q Lq)). exists j. auto.
  - intros b i Hb _ Nb. apply Oth; auto. now intros ->.
  - apply fields_unchanged. intros b i Lb Ht Hi. apply Oth; auto; [now apply (live_in B L m V)|]. intros ->. rewrite Tq in Ht. discriminate Ht.
Qed.

(** ** What is known of the start of the cycle *)

Record seen (s : gc) : Prop := {
  sn_shape : same_shape B m0 (memory s);
  sn_fields : fields L m0 (memory s);
  sn_safe : forall x, L x -> R0 x -> safe B (memory s) none x;
  sn_marked : caml_gc_subphase s <> Subphase_final -> marked_in B R0 (memory s) /\ closed L R0 (memory s) }.

Hypothesis (V0 : live_wf B L m0) (A0 : Forall (weak_array m0) l0) (F0 : Forall L l0).

Lemma array0 s c : seen s -> In c l0 -> In c B /\ L c /\ tag (memory s) c = Abstract_tag /\ wosize (memory s) c = wosize m0 c /\ weak_array m0 c.
Proof.
  intros Sn Hc. pose proof (proj1 (Forall_forall _ _) A0 c Hc) as Ac. pose proof Ac as (Ic & Tc & _). destruct (ss_header B _ _ (sn_shape s Sn) c Ic) as (_ & Et & Ew).
  split; [exact Ic|]. split; [exact (proj1 (Forall_forall _ _) F0 c Hc)|]. rewrite Et. auto.
Qed.
Lemma array0_cell s c i : seen s -> In c l0 -> 0 <= i < wosize m0 c -> data_cell B (memory s) (c + Bsize_wsize i).
Proof.
  intros Sn Hc Hi. destruct (array0 s c Sn Hc) as (Ic & _ & Tc & Ew & _). right. exists c. split; [exact Ic|]. split; [rewrite Tc; discriminate|]. exists i. rewrite Ew. auto.
Qed.
Lemma array0_other s c d i j : inv s -> seen s -> In c l0 -> In d B -> c <> d -> 0 <= i < wosize m0 c -> 0 <= j < wosize (memory s) d -> c + Bsize_wsize i <> d + Bsize_wsize j.
Proof.
  intros I Sn Hc Hd N Hi Hj E. destruct (array0 s c Sn Hc) as (Ic & _ & _ & Ew & _). rewrite <- Ew in Hi.
  destruct (field_not_field B (memory s) c d i j (inv_heap B L s I) Ic Hd Hi Hj E) as [-> _]. contradiction.
Qed.

Lemma treated_ext s m' l : incl l l0 -> (forall c i, In c l -> 1 <= i < wosize m0 c -> Op_val m' c i = Op_val (memory s) c i) -> treated (memory s) l -> treated m' l.
Proof. intros Il E T c i Hc Hi. rewrite E by auto. now apply T. Qed.

(** Before the finalised values are darkened, and once no block is gray, the blocks
    that are not white are those that were reached. *)
Lemma seen_color s x : inv s -> seen s -> no_gray B (memory s) -> caml_gc_subphase s <> Subphase_final -> L x -> R0 x <-> color (memory s) x <> Caml_white.
Proof.
  intros I Sn N Nf Lx. pose proof (inv_live B L s I) as V. split.
  - intros Rx. destruct (sn_safe s Sn x Lx Rx) as [->|G]; [discriminate | destruct (no_gray_no_guard B _ x N G)].
  - intros Nw. apply (proj1 (sn_marked s Sn Nf)); [now apply (live_in B L _ V)|]. exact (color_nonwhite B L _ x V Lx Nw).
Qed.

Lemma seen_step s s' : inv s -> marks s s' -> frame (memory s) (memory s') -> (caml_gc_subphase s' <> Subphase_final -> caml_gc_subphase s <> Subphase_final /\
  (marked_in B R0 (memory s) -> closed L R0 (memory s) -> marked_in B R0 (memory s'))) -> seen s -> seen s'.
Proof.
  intros I M F Mi [S1 S2 S3 S4]. split.
  - eapply same_shape_trans; [exact S1 | apply M].
  - exact (fields_compose B L m0 (memory s) (memory s') V0 (inv_live B L s I) S1 S2 (fr_fields _ _ F)).
  - intros x Lx Rx. apply (mk_safe _ _ _ _ M); auto.
  - intros Nf. destruct (Mi Nf) as [Nf' Mi']. destruct (S4 Nf') as [H1 H2]. split; [now apply Mi' | exact (closed_marks B L R0 s s' I M H2)].
Qed.

(** ** One weak pointer *)

Lemma weak_field_value s c i s' : weak_field c i s = Ok s' ->
  let x := Op_val (memory s) c i in let y := Op_val (memory s') c i in
  if negb (x =? caml_weak_none) && Is_block x && Is_in_heap x then
    if tag (memory s) x =? Forward_tag then y = caml_weak_none \/ y = x \/ y = Forward_value (memory s) x
    else y = (if color (memory s) x =? Caml_white then caml_weak_none else x)
  else y = x.
Proof.
  unfold weak_field. set (m := memory s). set (x := Op_val m c i). cbn zeta. cbn [weak_again]. fold m.
  assert (New : forall v s1, Op_val (memory (set_field c i v s1)) c i = v) by (intros v s1; apply upd_same).
  destruct (negb (x =? caml_weak_none) && Is_block x && Is_in_heap x); [|intros E; injection E as <-; reflexivity].
  assert (Cl : forall b s1, Op_val (memory (if (b : bool) then set_field c i caml_weak_none s1 else s1)) c i = if b then caml_weak_none else Op_val (memory s1) c i)
    by (intros [] s1; [apply New | reflexivity]).
  rewrite <- (Is_white_color m x). fold (tag m x). destruct (tag m x =? Forward_tag); [|intros E; injection E as <-; apply Cl].
  set (f := Forward_value m x). destruct (Is_block f && negb (keep_forward m f)).
  2:{ intros E. injection E as <-. rewrite Cl. destruct (Is_white_hd _); [now left | right; left; reflexivity]. }
  destruct (negb (f =? caml_weak_none) && Is_block f && Is_in_heap f); [|intros E; injection E as <-; rewrite New; auto].
  destruct (_ =? Forward_tag); [destruct (_ && _); [discriminate|]|]; intros E; injection E as <-; rewrite Cl, New; destruct (Is_white_hd _); [now left | right; right; reflexivity | now left | right; right; reflexivity].
Qed.

Lemma weak_field_slot s c i s' : inv s -> seen s -> no_gray B (memory s) -> caml_gc_subphase s <> Subphase_final -> In c l0 -> 1 <= i < wosize m0 c ->
  Op_val (memory s) c i = Op_val m0 c i -> weak_field c i s = Ok s' -> weak_slot m0 R0 (Op_val m0 c i) (Op_val (memory s') c i).
Proof.
  intros I Sn N Nf Hc Hi Eb E. apply weak_field_value in E. rewrite Eb in E. unfold weak_slot. set (x := Op_val m0 c i) in *. set (y := Op_val _ c i) in *.
  destruct (negb (x =? caml_weak_none) && Is_block x && Is_in_heap x) eqn:Px; [|exact E]. apply andb_prop in Px as [Px P2]. apply andb_prop in Px as [Pn P1].
  destruct (array0 s c Sn Hc) as (_ & _ & _ & _ & Ac). destruct Ac as (_ & _ & _ & G). specialize (G i Hi ltac:(intros K; change x with (Op_val m0 c i) in Pn; rewrite K, Z.eqb_refl in Pn; discriminate Pn) (conj P1 P2)). fold x in G.
  pose proof (sn_shape s Sn) as Sh. pose proof (good_same B L m0 (memory s) x Sh V0 G) as [Ex G']. destruct (Z.eqb_spec (tag m0 x) Infix_tag) as [Ti|Ti].
  - rewrite Ti. cbn [Z.eqb Infix_tag Forward_tag Pos.eqb]. destruct G as [Lb Gi]. destruct (Gi Ti) as (Tc & F & Cx). pose proof (ss_infix B m0 _ Sh _ _ (live_in B L m0 V0 _ Lb) Tc F Ti) as Eh.
    change (Hd_op (memory s) x = Hd_op m0 x) in Eh. change (Color_hd (Hd_op m0 x) = Caml_white) in Cx. change (Tag_hd (Hd_op m0 x) = Infix_tag) in Ti.
    unfold tag, color in E. rewrite Eh, Ti, Cx in E. exact E.
  - assert (Bx : base m0 x = x) by (unfold base; apply Z.eqb_neq in Ti; now rewrite Ti). destruct G as [Lx _]. change (L (base m0 x)) in Lx. rewrite Bx in Lx. pose proof (live_in B L m0 V0 x Lx) as Ix.
    destruct (ss_header B _ _ Sh x Ix) as (_ & Et & _). rewrite Et in E. destruct (Z.eqb_spec (tag m0 x) Forward_tag) as [Tf|Tf].
    + destruct E as [->|[->| ->]]; [now left | right; constructor | right]. apply shortcut_step; [now split | exact Tf|].
      apply (sn_fields s Sn x 0 Lx); [rewrite Tf; reflexivity | split; [lia | now apply (live_forward B L m0 V0)]].
    + pose proof (seen_color s x I Sn N Nf Lx) as Rc. destruct (Z.eqb_spec (color (memory s) x) Caml_white) as [W|W]; split; intros H; auto; exfalso; apply Rc in H || apply H, Rc; auto.
Qed.

Lemma weak_field_seen s c i s' : inv s -> seen s -> weak_array (memory s) c -> In c l0 -> 1 <= i < wosize (memory s) c -> weak_field c i s = Ok s' ->
  weak_step B L s s' -> seen s'.
Proof.
  intros I Sn Hc Ic Hi E S1. destruct (weak_field_marked s c i I Hc Hi s' E) as [_ O]. apply (seen_step s); auto; [apply S1 | |].
  - apply (frame_array _ _ c); auto; [apply I | apply I | apply (array0 s c Sn Ic)|]. intros a Ha. apply O. apply Ha. lia.
  - rewrite (sc_subphase _ _ (ws_control _ _ _ _ S1)). intros Nf. split; [exact Nf|]. intros Mi _. exact (marked_same B R0 (memory s) _ (ws_color _ _ _ _ S1) Mi).
Qed.

Lemma weak_fields_slots n : forall s c i, inv s -> seen s -> no_gray B (memory s) -> caml_gc_subphase s <> Subphase_final -> weak_array (memory s) c -> In c l0 -> 1 <= i ->
  i + Z.of_nat n <= wosize m0 c -> (forall j, i <= j < wosize m0 c -> Op_val (memory s) c j = Op_val m0 c j) -> forall s', weak_fields n c i s = Ok s' ->
  forall j, i <= j < i + Z.of_nat n -> weak_slot m0 R0 (Op_val m0 c j) (Op_val (memory s') c j).
Proof.
  induction n as [|n IH]; intros s c i I Sn N Nf Hc Ic Hi Hn Eb s' E j Hj; [lia|]. cbn [weak_fields] in E.
  destruct (array0 s c Sn Ic) as (_ & _ & _ & Ew & _). assert (Hi' : 1 <= i < wosize (memory s) c) by lia.
  destruct (weak_field_spec B L s c i I Hc Hi') as (s1 & E1 & S1). rewrite E1 in E. destruct (weak_field_marked s c i I Hc Hi' s1 E1) as [_ O1].
  pose proof (mk_inv _ _ _ _ (ws_marks _ _ _ _ S1)) as I1. pose proof (ws_array _ _ _ _ S1 c Hc) as Hc1. pose proof (weak_field_seen s c i s1 I Sn Hc Ic Hi' E1 S1) as Sn1.
  assert (Ew1 : wosize (memory s1) c = wosize m0 c) by apply (array0 s1 c Sn1 Ic). assert (Hn1 : i + 1 + Z.of_nat n <= wosize (memory s1) c) by lia.
  destruct (weak_fields_marked n s1 c (i + 1) I1 Hc1 ltac:(lia) Hn1 s' E) as [_ O2]. destruct (Z.eq_dec j i) as [->|Nj].
  - replace (Op_val (memory s') c i) with (Op_val (memory s1) c i) by (symmetry; apply O2; intros k Hk; unfold Bsize_wsize; pose proof sizeof_value_pos; nia).
    apply (weak_field_slot s); auto; [lia | apply Eb; lia].
  - apply (IH s1 c (i + 1)); auto; try lia.
    + intros b Hb. rewrite (ws_color _ _ _ _ S1) by auto. now apply N.
    + rewrite (sc_subphase _ _ (ws_control _ _ _ _ S1)). exact Nf.
    + intros k Hk. rewrite <- Eb by lia. apply O1. unfold Bsize_wsize. pose proof sizeof_value_pos. nia.
Qed.

Lemma Forall_arrays m l : weak_chain m caml_weak_list_head l -> Forall (weak_array m) l.
Proof. intros H. apply weak_chain_links in H as (_ & _ & F). eapply Forall_impl; [|exact F]. cbn. tauto. Qed.
Lemma arrays_nonwhite m m' l : Forall (fun a => In a B) l -> darker B m m' -> Forall (nonwhite m) l -> Forall (nonwhite m') l.
Proof.
  intros I K F. apply Forall_forall. intros a Ha. pose proof (proj1 (Forall_forall _ _) F a Ha) as N. unfold nonwhite in *.
  destruct (K a (proj1 (Forall_forall _ _) I a Ha)) as [->|[[W _]|[_ ->]]]; [exact N | contradiction | discriminate].
Qed.
Lemma arrays_in m l : Forall (weak_array m) l -> Forall (fun a => In a B) l.
Proof. intros F. eapply Forall_impl; [|exact F]. cbn. intros a H. apply H. Qed.

(** A step that keeps the words of the arrays. *)
Lemma arrays_mutates s s' l1 l2 : inv s -> seen s -> mutates (memory s) (memory s') -> darker B (memory s) (memory s') ->
  weak_prev s' = weak_prev s -> caml_gc_subphase s' = caml_gc_subphase s -> finalisable s' = finalisable s ->
  weak_chain (memory s) caml_weak_list_head (l1 ++ l2) -> Forall L (l1 ++ l2) -> stage s l1 l2 ->
  weak_chain (memory s') caml_weak_list_head (l1 ++ l2) /\ Forall L (l1 ++ l2) /\ stage s' l1 l2.
Proof.
  intros I Sn M K E1 E2 E3 H Fl St. pose proof (inv_live B L s I) as V. pose proof (Forall_arrays _ _ H) as Fa. pose proof (mu_keeps _ _ _ _ M) as Kp.
  assert (Dk : forall c i, In c l0 -> 0 <= i < wosize m0 c -> Op_val (memory s') c i = Op_val (memory s) c i) by (intros c i Hc Hi; apply (kp_data _ _ _ _ Kp); now apply array0_cell).
  assert (Dt : forall l, incl l l0 -> treated (memory s) l -> treated (memory s') l) by (intros l Il; apply treated_ext; auto; intros c i Hc Hi; apply Dk; [auto | lia]).
  assert (Db : forall l, incl l l0 -> as_before (memory s) l -> as_before (memory s') l) by (intros l Il Eb c i Hc Hi; rewrite Dk by auto; now apply Eb).
  split; [now apply (weak_chain_same B L (memory s))|]. split; auto.
  assert (Fm : forall l, incl l (l1 ++ l2) -> Forall (fields_marked (memory s)) l -> Forall (fields_marked (memory s')) l).
  { intros l Il F. apply Forall_forall. intros a Ha. pose proof (proj1 (Forall_forall _ _) Fa a (Il a Ha)) as Wa. apply (fields_kept (memory s)); auto; [apply Kp | | exact (proj1 (Forall_forall _ _) F a Ha)].
    intros i Hi. apply (kp_data _ _ _ _ Kp). apply (weak_array_cell B L); auto. lia. }
  assert (Fn : forall l, incl l (l1 ++ l2) -> Forall (nonwhite (memory s)) l -> Forall (nonwhite (memory s')) l).
  { intros l Il. apply arrays_nonwhite; auto. apply arrays_in in Fa. apply Forall_forall. intros a Ha. exact (proj1 (Forall_forall _ _) Fa a (Il a Ha)). }
  assert (I1 : incl l1 (l1 ++ l2)) by apply incl_appl, incl_refl.
  destruct St as [l Es El Eb|l1 l2 Es Ep F El T Eb|l1 l2 Es Ep F N T Kl|l Es F N Ff T Kl].
  { apply stage_main; [congruence | exact El | apply Db; auto using incl_refl]. }
  { apply stage_weak1; auto; [congruence | congruence | apply Dt | apply Db]; auto; rewrite <- El; [apply incl_appl | apply incl_appr]; apply incl_refl. }
  { apply stage_weak2; auto; [congruence | congruence | apply Fm; auto; apply incl_refl | apply Dt; auto using incl_refl]. }
  apply stage_final; auto; [congruence | | apply Dt; auto using incl_refl]. rewrite E3. apply Forall_forall. intros f Hf. pose proof (proj1 (Forall_forall _ _) (inv_final B L s I) f Hf) as [_ Gf].
  apply (nonwhite_kept (memory s)); auto; [apply Kp | exact (proj1 (Forall_forall _ _) Ff f Hf)].
Qed.

Lemma late_pop s v l : inv s -> seen s -> gray_vals s = v :: l -> late s -> late (scanned v l s).
Proof.
  intros I Sn Eg [C (l1 & l2 & H & Fl & St)]. destruct (pop_turn B L s 0 v l I Eg) as (_ & M & Co & _). split; [now apply pop_closed|]. exists l1, l2.
  apply (arrays_mutates s); auto; [now apply pop_mutates | apply M | apply Co | apply Co | apply Co].
Qed.

Lemma late_same s s' : memory s' = memory s -> weak_prev s' = weak_prev s -> caml_gc_subphase s' = caml_gc_subphase s -> finalisable s' = finalisable s -> late s -> late s'.
Proof.
  intros Em E1 E2 E3 [C (l1 & l2 & H & Fl & St)]. split; [now rewrite Em|]. exists l1, l2. rewrite Em. split; auto. split; auto.
  destruct St as [l Es El Eb|l1 l2 Es Ep F El T Eb|l1 l2 Es Ep F N T Kl|l Es F N Ff T Kl];
    [apply stage_main | apply stage_weak1 | apply stage_weak2 | apply stage_final]; rewrite ?Em, ?E3; auto; congruence.
Qed.

(** ** The steps on weak arrays *)

Lemma weak_step_closed s s' : inv s -> marks s s' -> (forall b, In b B -> color (memory s') b = color (memory s) b) -> closedp (memory s) none -> closedp (memory s') none.
Proof.
  intros I M Col. apply closedp_step; [apply I | | exact (mk_safe _ _ _ _ M) | intros x Hx; now rewrite Col].
  intros b c Lb E. apply (mk_reach _ _ _ _ M); auto. econstructor; [constructor | exact E].
Qed.

Lemma current_array m l1 l2 p : weak_chain m caml_weak_list_head (l1 ++ l2) -> p = last l1 caml_weak_list_head -> m p = match l2 with [] => 0 | c :: _ => c end.
Proof. intros H ->. apply weak_chain_links in H as (H & _). now apply links_mid in H. Qed.

Lemma array_cells m l x y i j : heap_wf B m -> Forall (weak_array m) l -> In x l -> In y l -> x <> y -> 0 <= i < wosize m x -> 0 <= j < wosize m y -> x + Bsize_wsize i <> y + Bsize_wsize j.
Proof.
  intros W F Hx Hy N Hi Hj E. pose proof (arrays_in _ _ F) as I. destruct (field_not_field B m x y i j W (proj1 (Forall_forall _ _) I x Hx) (proj1 (Forall_forall _ _) I y Hy) Hi Hj E). contradiction.
Qed.

Lemma late_weak1 s s' l1 cur l2 : inv s -> seen s -> no_gray B (memory s) -> l1 ++ cur :: l2 = l0 -> treated (memory s) l1 -> as_before (memory s) (cur :: l2) -> closedp (memory s) none -> weak_chain (memory s) caml_weak_list_head (l1 ++ cur :: l2) -> Forall L (l1 ++ cur :: l2) ->
  caml_gc_subphase s = Subphase_weak1 -> Forall (fields_marked (memory s)) l1 -> weak_fields (Z.to_nat (wosize (memory s) cur - 1)) cur 1 s = Ok s' ->
  late (set_weak_prev cur s') /\ frame (memory s) (memory s').
Proof.
  intros I Sn Ng El T Eb C H Fl Es F E. pose proof (inv_live B L s I) as V. pose proof (Forall_arrays _ _ H) as Fa. assert (Hin : In cur (l1 ++ cur :: l2)) by (apply in_or_app; right; now left).
  assert (Hin0 : In cur l0) by (rewrite <- El; exact Hin). assert (Nf : caml_gc_subphase s <> Subphase_final) by (rewrite Es; discriminate). destruct (array0 s cur Sn Hin0) as (_ & Lc & _ & Ew0 & _).
  pose proof (proj1 (Forall_forall _ _) Fa cur Hin) as Hc. pose proof Hc as (Ic & _ & Wc & _). assert (Hn : 1 + Z.of_nat (Z.to_nat (wosize (memory s) cur - 1)) <= wosize (memory s) cur) by lia.
  destruct (weak_fields_spec B L _ s cur 1 I Hc ltac:(lia) Hn) as (s1 & E1 & S1). rewrite E1 in E. injection E as <-.
  assert (Hn0 : 1 + Z.of_nat (Z.to_nat (wosize (memory s) cur - 1)) <= wosize m0 cur) by lia.
  assert (Sl : forall j, 1 <= j < 1 + Z.of_nat (Z.to_nat (wosize (memory s) cur - 1)) -> weak_slot m0 R0 (Op_val m0 cur j) (Op_val (memory s1) cur j)).
  { apply (weak_fields_slots _ s cur 1 I Sn Ng Nf Hc Hin0 ltac:(lia) Hn0); [|exact E1]. intros j Hj. apply Eb; [now left | lia]. }
  destruct (weak_fields_marked _ s cur 1 I Hc ltac:(lia) Hn s1 E1) as [Fm O].
  pose proof (weak_chain_nodup _ _ _ H) as D0. apply NoDup_remove in D0 as [_ D0].
  assert (Oth : forall c i, In c (l1 ++ l2) -> 0 <= i < wosize m0 c -> Op_val (memory s1) c i = Op_val (memory s) c i).
  { intros c i Hx Hi. apply O. intros j Hj. apply (array0_other s); auto; [rewrite <- El; rewrite in_app_iff in *; cbn; tauto | intros ->; contradiction | lia]. }
 pose proof (ws_marks _ _ _ _ S1) as M. pose proof (ws_shape _ _ _ _ S1) as Sh. pose proof (mk_darker _ _ _ _ M) as K. split.
  - split; [now apply (weak_step_closed s s1 I M (ws_color _ _ _ _ S1))|]. exists (l1 ++ [cur]), l2. rewrite <- app_assoc. cbn [app]. cbn [memory set_weak_prev].
    split; [now apply (ws_chain _ _ _ _ S1)|]. split; [exact Fl|]. apply stage_weak1; cbn [caml_gc_subphase weak_prev memory set_weak_prev].
    + rewrite (sc_subphase _ _ (ws_control _ _ _ _ S1)). exact Es.
    + symmetry. apply last_last.
    + apply Forall_app. split.
      * apply Forall_forall. intros a Ha. assert (Ia : In a (l1 ++ cur :: l2)) by (apply in_or_app; auto). pose proof (weak_chain_nodup _ _ _ H) as D. apply NoDup_remove in D as [_ D].
        assert (Na : a <> cur) by (intros ->; apply D, in_or_app; auto). apply (fields_kept (memory s)); auto; [exact (proj1 (Forall_forall _ _) Fa a Ia) | | exact (proj1 (Forall_forall _ _) F a Ha)].
        intros i Hi. apply O. intros j Hj. apply (array_cells (memory s) (l1 ++ cur :: l2)); auto; [apply I | lia | lia].
      * constructor; [|constructor]. intros i Hi. destruct (ss_header B _ _ Sh cur Ic) as (_ & _ & Ew). apply Fm. rewrite Ew in Hi. lia.
    + now rewrite <- app_assoc.
    + intros c i Hx Hi. apply in_app_or in Hx as [Hx|[<-|[]]]; [|apply Sl; lia]. rewrite Oth by (try (apply in_or_app; auto); lia). now apply T.
    + intros c i Hx Hi. rewrite Oth by (try (apply in_or_app; auto); lia). apply Eb; auto. now right.
  - apply (frame_array (memory s) _ cur (inv_heap B L s I) V Hc Lc Hin0). intros a Ha. apply O. intros j Hj. apply Ha. lia.
Qed.

Lemma late_unlink s l1 cur l2 : inv s -> seen s -> no_gray B (memory s) -> treated (memory s) l0 -> (exists k, l0 = k ++ cur :: l2 /\ forall c, In c l1 <-> In c k /\ R0 c) ->
  color (memory s) cur = Caml_white -> closedp (memory s) none -> weak_chain (memory s) caml_weak_list_head (l1 ++ cur :: l2) -> Forall L (l1 ++ cur :: l2) ->
  caml_gc_subphase s = Subphase_weak2 -> weak_prev s = last l1 caml_weak_list_head -> Forall (fields_marked (memory s)) (l1 ++ cur :: l2) -> Forall (nonwhite (memory s)) l1 ->
  let s' := set_memory ((memory s).[weak_prev s <- Op_val (memory s) cur 0]) s in late s' /\ frame (memory s) (memory s').
Proof.
  intros I Sn Ng T (k & El & Kl) Wc C H Fl Es Ep F N s'. assert (Nf : caml_gc_subphase s <> Subphase_final) by (rewrite Es; discriminate). pose proof (inv_live B L s I) as V. pose proof (inv_heap B L s I) as W. pose proof (Forall_arrays _ _ H) as Fa. assert (Hin : In cur (l1 ++ cur :: l2)) by (apply in_or_app; right; now left).
  pose proof (proj1 (Forall_forall _ _) Fa cur Hin) as Hc. assert (Ecur : memory s (weak_prev s) = cur) by now rewrite (current_array _ _ _ _ H Ep).
  pose proof (proj1 (weak_chain_links _ _ _) H) as (Ln & _ & Fz). assert (Nc : cur <> 0) by (apply (proj1 (Forall_forall _ _) Fz cur Hin)).
  assert (Lk : weak_link B L (memory s) (weak_prev s)) by (rewrite Ep; destruct (last_in l1 caml_weak_list_head) as [E|Hl]; [left; now symmetry | right; apply (proj1 (Forall_forall _ _) Fa); apply in_or_app; auto]).
  destruct (unlink_step B L s cur I Lk Hc Ecur Nc) as (M & Col & _). fold s' in M, Col. pose proof (mk_shape _ _ _ _ M) as Sh. pose proof (mk_darker _ _ _ _ M) as K.
  assert (D : NoDup (caml_weak_list_head :: l1 ++ cur :: l2)).
  { constructor; [|exact (weak_chain_nodup _ _ _ H)]. intros Hh. pose proof (proj1 (Forall_forall _ _) Fa _ Hh) as (Ih & _ & Wh & _). apply (proj2 (inv_static B L s I _ Ih)). exists 0. split; [lia | unfold Bsize_wsize; lia]. }
  pose proof (links_skip (memory s) l1 cur l2 0 caml_weak_list_head D Ln) as Ln'. rewrite <- Ep in Ln'.
  replace (Next (memory s) cur) with (Op_val (memory s) cur 0) in Ln' by (unfold Op_val, Next; f_equal; unfold Bsize_wsize; lia). change ((memory s).[weak_prev s <- Op_val (memory s) cur 0]) with (memory s') in Ln'.
  assert (Sub : incl (l1 ++ l2) (l1 ++ cur :: l2)) by (intros x; rewrite !in_app_iff; cbn; tauto).
  assert (Oth : forall a i, In a B -> 1 <= i < wosize (memory s) a -> Op_val (memory s') a i = Op_val (memory s) a i).
  { intros a i Ha Hi. unfold s'. cbn [memory set_memory]. unfold Op_val. apply upd_other. rewrite Ep. destruct (last_in l1 caml_weak_list_head) as [E|Hl].
    - rewrite <- E. intros K'. apply (proj2 (inv_static B L s I a Ha)). exists i. split; [lia | now symmetry].
    - set (q := last l1 caml_weak_list_head) in *. assert (Hq : In q (l1 ++ cur :: l2)) by (apply in_or_app; auto).
      pose proof (proj1 (Forall_forall _ _) Fa q Hq) as (Iq & _ & Wq & _). destruct (Z.eq_dec a q) as [->|Na]; [unfold Bsize_wsize; pose proof sizeof_value_pos; nia|].
      intros K'. assert (Hi' : 0 <= i < wosize (memory s) a) by lia. assert (Hj : 0 <= 0 < wosize (memory s) q) by lia.
      destruct (field_not_field B (memory s) a q i 0 W Ha Iq Hi' Hj) as [K2 _]; [unfold Bsize_wsize in *; lia | contradiction]. }
  assert (In_arr : forall a, In a (l1 ++ cur :: l2) -> In a B) by (intros a Ha; apply (proj1 (Forall_forall _ _) Fa a Ha)).
  assert (Fa' : Forall (weak_array (memory s')) (l1 ++ l2)).
  { apply Forall_forall. intros a Ha. pose proof (proj1 (Forall_forall _ _) Fa a (Sub a Ha)) as (Ia & Ta & Wa & Ga). destruct (ss_header B _ _ Sh a Ia) as (_ & Et & Ew).
    unfold GcInv.weak_array. rewrite Et, Ew. split; auto. split; auto. split; auto. intros i Hi. rewrite (Oth a i Ia Hi). intros Nn P. apply (good_same B L _ _ _ Sh V). now apply Ga. }
  split; [split|].
  - exact (weak_step_closed s s' I M Col C).
  - exists l1, l2. split; [|split; [rewrite Forall_forall in *; auto|]].
    + apply weak_chain_links. split; [exact Ln'|]. split; [now left|]. apply Forall_forall. intros a Ha. split; [apply (proj1 (Forall_forall _ _) Fz a (Sub a Ha)) | exact (proj1 (Forall_forall _ _) Fa' a Ha)].
    + apply stage_weak2; auto.
      * apply Forall_forall. intros a Ha. apply (fields_kept (memory s)); auto; [exact (proj1 (Forall_forall _ _) Fa a (Sub a Ha)) | exact (proj1 (Forall_forall _ _) F a (Sub a Ha))].
      * apply (arrays_nonwhite (memory s)); auto. apply arrays_in in Fa. now apply Forall_app in Fa as [Fa _].
      * apply (treated_ext s); auto using incl_refl. intros c i Hx Hi. destruct (array0 s c Sn Hx) as (Ix & _ & _ & Ew & _). apply Oth; [exact Ix | lia].
      * exists (k ++ [cur]). rewrite <- app_assoc. split; [exact El|]. intros c. rewrite Kl, in_app_iff. cbn [In]. split; [tauto|]. intros [[?|[<-|[]]] Rc]; [auto|].
        apply (seen_color s cur I Sn Ng Nf) in Rc; [contradiction | exact (proj1 (Forall_forall _ _) Fl cur Hin)].
  - unfold s'. cbn [memory set_memory]. rewrite Ep. destruct (last_in l1 caml_weak_list_head) as [E|Hl].
    + rewrite <- E. assert (Oth' : forall b i, In b B -> 0 <= i < wosize (memory s) b -> Op_val ((memory s).[caml_weak_list_head <- Op_val (memory s) cur 0]) b i = Op_val (memory s) b i).
      { intros b i Hb Hi. unfold Op_val. apply upd_other. intros E'. apply (proj2 (inv_static B L s I b Hb)). exists i. auto. }
      split; [intros a _ Na; now apply upd_other | intros; now apply Oth' | apply fields_unchanged; intros b i Lb _ Hi; apply Oth'; auto; now apply (live_in B L _ V)].
    + assert (Hl0 : In (last l1 caml_weak_list_head) l0) by (rewrite El; apply in_or_app; left; now apply Kl).
      assert (Hl1 : In (last l1 caml_weak_list_head) (l1 ++ cur :: l2)) by (apply in_or_app; auto).
      apply (frame_array (memory s) _ (last l1 caml_weak_list_head) W V (proj1 (Forall_forall _ _) Fa _ Hl1) (proj1 (Forall_forall _ _) F0 _ Hl0) Hl0). intros a Ha. apply upd_other. intros ->.
      assert (Hq : In (last l1 caml_weak_list_head) (l1 ++ cur :: l2)) by (apply in_or_app; auto). pose proof (proj1 (Forall_forall _ _) Fa _ Hq) as (_ & _ & Wq & _).
      apply (Ha 0); [lia | unfold Bsize_wsize; lia].
Qed.

(** ** Finalised values *)

Lemma final_again_kept n m : forall f f', final_again n m f = Ok (false, f') -> nonwhite m (val f').
Proof.
  induction n as [|n IH]; intros f f'; cbn [final_again]; [discriminate|]. unfold Is_white_val. rewrite Is_white_color.
  destruct (Z.eqb_spec (color m (val f)) Caml_white) as [W|W]; [|intros E; injection E as <-; exact W].
  destruct (_ =? Forward_tag); [destruct (_ && _); [discriminate|]; destruct (_ && _); [apply IH | discriminate] | discriminate].
Qed.
Lemma final_split_kept m l : forall todo kept, final_split m l = Ok (todo, kept) -> Forall (fun f => nonwhite m (val f)) kept.
Proof.
  induction l as [|f l IH]; intros todo kept; cbn [final_split]; [intros E; injection E as <- <-; constructor|].
  destruct (final_again 2 m f) as [[w f']| |] eqn:E; try discriminate. destruct (final_split m l) as [[t k]| |]; try discriminate.
  destruct w; intros E'; injection E' as <- <-; [apply (IH t k eq_refl) | constructor; [exact (final_again_kept 2 m f f' E) | apply (IH t k eq_refl)]].
Qed.

Lemma final_update_late s s1 l : inv s -> seen s -> treated (memory s) l0 -> (forall c, In c l <-> In c l0 /\ R0 c) -> closedp (memory s) none -> weak_chain (memory s) caml_weak_list_head l -> Forall L l ->
  Forall (fields_marked (memory s)) l -> Forall (nonwhite (memory s)) l -> caml_final_update s = Ok s1 ->
  late (set_subphase Subphase_final s1) /\ frame (memory s) (memory s1).
Proof.
  intros I Sn T Kl C H Fl F N E. pose proof (inv_live B L s I) as V. pose proof (Forall_arrays _ _ H) as Fa.
  assert (K : inv s1 /\ (mutates (memory s) (memory s1) /\ fields L (memory s) (memory s1)) /\ darker B (memory s) (memory s1) /\ closedp (memory s1) none /\ Forall (fun f => nonwhite (memory s1) (val f)) (finalisable s1)).
  { unfold caml_final_update in E. destruct (existsb _ _) eqn:Ex.
    - destruct (final_split (memory s) (finalisable s)) as [[todo kept]| |] eqn:Es; try discriminate E. injection E as <-. rewrite fold_darken_vals.
      destruct (final_split_spec B L (memory s) (finalisable s) (inv_heap B L s I) V (inv_final B L s I)) as (t & k & Es' & Ft & Fk). rewrite Es in Es'. injection Es' as <- <-.
      pose proof (set_final_marks B L s kept (to_do s ++ [todo]) I Fk) as M1. set (s2 := set_final _ _ s) in *.
      assert (Fd : Forall (fun v => pointer v -> good L (memory s2) v) (map val todo)) by (apply Forall_map; exact Ft).
      destruct (darken_all_spec B L (map val todo) s2 (mk_inv _ _ _ _ M1) Fd) as (M2 & Mu2 & C2 & _). split; [apply M2|]. split; [split; [exact Mu2 | exact (darken_all_fields B L _ s2 (mk_inv _ _ _ _ M1) Fd)]|]. split; [apply M2|].
      split; [apply darken_all_closed; auto; apply M1|]. rewrite (sc_final _ _ C2). cbn [finalisable s2 set_final].
      pose proof (final_split_kept _ _ _ _ Es) as Nk. apply Forall_forall. intros f Hf. pose proof (proj1 (Forall_forall _ _) Fk f Hf) as [_ Gf].
      apply (nonwhite_kept (memory s)); auto; [apply M2 | apply M2 | exact (proj1 (Forall_forall _ _) Nk f Hf)].
    - injection E as <-. split; [auto|]. split; [split; [apply mutates_refl; auto; apply I | apply fields_refl]|]. split; [apply darker_refl|]. split; [auto|]. apply Forall_forall. intros f Hf Wf.
      assert (Ex' : existsb (fun f => Is_white_val (memory s) (val f)) (finalisable s) = true) by (apply existsb_exists; exists f; split; auto; unfold Is_white_val; rewrite Is_white_color, Wf; reflexivity).
      congruence. }
  destruct K as (I1 & [M Fd] & K & C1 & Ff). split; [|now apply frame_mutates]. pose proof (mu_keeps _ _ _ _ M) as Kp. split; [exact C1|]. exists l, []. rewrite app_nil_r. cbn [memory set_subphase].
  split; [now apply (weak_chain_same B L (memory s))|]. split; [exact Fl|]. apply stage_final; cbn [caml_gc_subphase memory finalisable set_subphase]; auto.
  - apply Forall_forall. intros a Ha. pose proof (proj1 (Forall_forall _ _) Fa a Ha) as Wa. apply (fields_kept (memory s)); auto; [apply Kp | | exact (proj1 (Forall_forall _ _) F a Ha)].
    intros i Hi. apply (kp_data _ _ _ _ Kp). apply (weak_array_cell B L); auto. lia.
  - apply (arrays_nonwhite (memory s)); auto. now apply (arrays_in (memory s)).
  - apply (treated_ext s); auto using incl_refl. intros c i Hc Hi. apply (kp_data _ _ _ _ Kp), array0_cell; auto. lia.
Qed.

(** ** Turns *)

Lemma settled s : inv s -> gray_vals s = [] -> markhp s = 0 -> heap_is_pure s = true -> no_gray B (memory s).
Proof.
  intros I Eg Em Ep b Hb Gb. destruct (inv_scan B L s I) as (rem & [[_ ->]|(H & _)] & Fd); [|lia]. destruct (Fd Ep b Hb Gb) as [H|[]]. rewrite Eg in H. destruct H.
Qed.

Lemma late_turn s work s' w : inv s -> subphase_ok s -> seen s -> late s -> mark_turn s work = Ok (s', w) -> late s' /\ frame (memory s) (memory s').
Proof.
  intros I Sp Sn Lt E. destruct (gray_vals s) as [|v l] eqn:Eg.
  2:{ destruct (pop_turn B L s work v l I Eg) as (E1 & _). rewrite E1 in E. injection E as <- _. split; [now apply late_pop | apply frame_mutates; [now apply pop_mutates | now apply (pop_fields B)]]. }
  unfold mark_turn in E. rewrite Eg in E.
  assert (Same : memory s' = memory s -> weak_prev s' = weak_prev s -> caml_gc_subphase s' = caml_gc_subphase s -> finalisable s' = finalisable s -> late s' /\ frame (memory s) (memory s')).
  { intros Em E1 E2 E3. split; [now apply (late_same s)|]. rewrite Em. apply frame_refl. }
  destruct (Z.eqb_spec (markhp s) 0) as [Em|]; cbn [negb] in E;
    [|destruct (markhp s =? limit s); [destruct (Chunk_next (chunk s) =? 0) | destruct (Is_gray_hd _)]; injection E as <- _; now apply Same].
  destruct (heap_is_pure s) eqn:Ep0; cbn [negb] in E; [|injection E as <- _; now apply Same]. pose proof (settled s I Eg Em Ep0) as Ng. destruct Lt as [C (l1 & l2 & H & Fl & St)].
  destruct St as [l Es El Eb|l1 l2 Es Ep F El T Eb|l1 l2 Es Ep F N T Kl|l Es F N Ff T Kl]; rewrite Es in E; cbn [Z.eqb Pos.eqb Subphase_main Subphase_weak1 Subphase_weak2 Subphase_final] in E.
  - injection E as <- _. split; [|apply frame_refl]. split; [exact C|]. exists [], l. split; [exact H|]. split; [exact Fl|]. apply stage_weak1; [reflexivity | reflexivity | constructor | exact El | intros c i [] | rewrite El; exact Eb].
  - rewrite (current_array _ _ _ _ H Ep) in E. destruct l2 as [|cur l2].
    + injection E as <- _. split; [|apply frame_refl]. rewrite app_nil_r in *. split; [exact C|]. exists [], l1. split; [exact H|]. split; [exact Fl|]. apply stage_weak2; [reflexivity | reflexivity | exact F | constructor | rewrite <- El; exact T|].
      exists []. split; [now symmetry | intros c; cbn; tauto].
    + pose proof (proj1 (weak_chain_links _ _ _) H) as (_ & _ & Fz). assert (Nc : cur <> 0) by (apply (proj1 (Forall_forall _ _) Fz cur); apply in_or_app; right; now left).
      apply Z.eqb_neq in Nc. rewrite Nc in E. cbn [negb] in E. destruct (weak_fields _ cur 1 s) as [s1| |] eqn:Ew; try discriminate E. injection E as <- _.
      now apply (late_weak1 s s1 l1 cur l2).
  - rewrite (current_array _ _ _ _ H Ep) in E. destruct l2 as [|cur l2].
    + rewrite app_nil_r in *. cbn [Z.eqb negb] in E. destruct (caml_final_update s) as [s1| |] eqn:Eu; try discriminate E. injection E as <- _. apply (final_update_late s s1 l1); auto.
      destruct Kl as (k & El & Kl). rewrite app_nil_r in El. now subst k.
    + pose proof (proj1 (weak_chain_links _ _ _) H) as (_ & _ & Fz). assert (Nc : cur <> 0) by (apply (proj1 (Forall_forall _ _) Fz cur); apply in_or_app; right; now left).
      assert (Lc : L cur) by (apply (proj1 (Forall_forall _ _) Fl cur); apply in_or_app; right; now left).
      apply Z.eqb_neq in Nc. rewrite Nc in E. cbn [negb] in E. injection E as <- _. destruct (Z.eqb_spec (Color_hd (Hd_op (memory s) cur)) Caml_white) as [W|W].
      * now apply (late_unlink s l1 cur l2).
      * split; [|apply frame_refl]. split; [exact C|]. exists (l1 ++ [cur]), l2. rewrite <- app_assoc. split; [exact H|]. split; [exact Fl|].
        apply stage_weak2; [exact Es | symmetry; apply last_last | rewrite <- app_assoc; exact F | apply Forall_app; split; [exact N | constructor; [exact W | constructor]] | exact T|].
        destruct Kl as (k & El & Kl). exists (k ++ [cur]). rewrite <- app_assoc. split; [exact El|]. assert (Rc : R0 cur) by (apply (seen_color s cur I Sn Ng); auto; rewrite Es; discriminate).
        intros c. rewrite !in_app_iff, Kl. cbn [In]. intuition congruence.
  - injection E as <- _. now apply Same.
Qed.

Lemma seen_turn s work s' w : inv s -> subphase_ok s -> seen s -> mark_turn s work = Ok (s', w) -> frame (memory s) (memory s') -> seen s'.
Proof.
  intros I Sp Sn E F. destruct (mark_turn_spec B L s work I Sp) as (s1 & w1 & E1 & M & _). rewrite E in E1. injection E1 as <- _.
  apply (seen_step s); auto. intros Nf. exact (turn_marked B L R0 s work s' w I Sp E Nf).
Qed.

Lemma late_slice fuel : forall work s s', inv s -> subphase_ok s -> seen s -> late s -> mark_slice fuel work s = Ok s' -> seen s' /\ late s' /\ frame (memory s) (memory s').
Proof.
  induction fuel as [|fuel IH]; intros work s s' I Sp Sn Lt H; cbn [mark_slice] in H; (destruct (0 <? work); [|injection H as <-; split; [exact Sn | split; [exact Lt | apply frame_refl]]]); [discriminate H|].
  destruct (mark_turn_spec B L s work I Sp) as (s1 & w & E & M1 & Sp1 & _). rewrite E in H. destruct (late_turn s work s1 w I Sp Sn Lt E) as [Lt1 F1].
  pose proof (seen_turn s work s1 w I Sp Sn E F1) as Sn1. destruct (IH w s1 s' (mk_inv _ _ _ _ M1) Sp1 Sn1 Lt1 H) as (Sn2 & Lt2 & F2). split; [exact Sn2|]. split; [exact Lt2|].
  apply (frame_trans _ (memory s1)); auto; [apply I | apply (mk_inv _ _ _ _ M1) | apply M1].
Qed.

Lemma late_finish slices : forall fuel s s', inv s -> subphase_ok s -> seen s -> late s -> finish_mark slices fuel s = Ok s' -> late s' /\ frame (memory s) (memory s').
Proof.
  induction slices as [|n IH]; intros fuel s s' I Sp Sn Lt H; cbn [finish_mark] in H; (destruct (Z.eqb_spec (caml_gc_phase s) Phase_mark) as [Ph|]; [|injection H as <-; split; [exact Lt | apply frame_refl]]); [discriminate H|].
  destruct (mark_slice fuel LONG_MAX s) as [s1| |] eqn:E; try discriminate H. destruct (slice_spec B L fuel LONG_MAX s s1 I Sp Ph E) as (M1 & Sp1 & _).
  destruct (late_slice fuel LONG_MAX s s1 I Sp Sn Lt E) as (Sn1 & Lt1 & F1). destruct (IH fuel s1 s' (mk_inv _ _ _ _ M1) Sp1 Sn1 Lt1 H) as [Lt2 F2]. split; [exact Lt2|].
  apply (frame_trans _ (memory s1)); auto; [apply I | apply (mk_inv _ _ _ _ M1) | apply M1].
Qed.
End End.

Section Handover.
Context {A : Arch} {Env : Heap_env}.
Variable B : list Z.
Variable L : Z -> Prop.
Notation inv := (inv B L).
Notation marks := (marks B L).

(** ** The variables *)

Record ready (s : gc) : Prop := {
  rd_gray : gray_vals s = [];
  rd_pure : heap_is_pure s = true;
  rd_markhp : markhp s = 0;
  rd_phase : caml_gc_phase s = Phase_sweep;
  rd_subphase : caml_gc_subphase s = Subphase_final;
  rd_sweep_hp : caml_gc_sweep_hp s = caml_heap_start;
  rd_chunk : chunk s = caml_heap_start;
  rd_limit : limit s = caml_heap_start + Chunk_size caml_heap_start }.

Definition same_finals (s s' : gc) : Prop := finalisable s' = finalisable s /\ to_do s' = to_do s.
Lemma control_finals s s' : same_control s s' -> same_finals s s'.
Proof. intros C. split; apply C. Qed.

(** A turn stays in the marking phase or is the last one, and only the turn that
    ends with [Subphase_final] changes the sets of finalised values. *)
Lemma turn_cases s work s' w : inv s -> subphase_ok s -> caml_gc_phase s = Phase_mark -> mark_turn s work = Ok (s', w) ->
  (caml_gc_phase s' = Phase_mark \/ ready s' /\ w = 0) /\
  (same_finals s s' \/ exists s1, caml_final_update s = Ok s1 /\ s' = set_subphase Subphase_final s1).
Proof.
  intros I Sp Ph E. destruct (gray_vals s) as [|v l] eqn:Eg.
  { unfold mark_turn in E. rewrite Eg in E. destruct (Z.eqb_spec (markhp s) 0) as [Em|]; cbn [negb] in E.
    2:{ destruct (markhp s =? limit s); [destruct (Chunk_next (chunk s) =? 0) | destruct (Is_gray_hd _)]; injection E as <- _; (split; [now left | now left]). }
    destruct (heap_is_pure s) eqn:Ep; cbn [negb] in E; [|injection E as <- _; split; now left].
    destruct Sp as [Es|[Es|[Es|Es]]]; rewrite Es in E; cbn [Z.eqb Pos.eqb Subphase_main Subphase_weak1 Subphase_weak2 Subphase_final] in E.
    - injection E as <- _. split; now left.
    - destruct (inv_weak B L s I (or_introl Es)) as (l & H). destruct (Z.eqb_spec (memory s (weak_prev s)) 0) as [|Nc]; cbn [negb] in E; [injection E as <- _; split; now left|].
      destruct l as [|c l]; [destruct H as [_ H]; contradiction|]. destruct H as (_ & Ec & _ & Hc & _). rewrite Ec in *. pose proof Hc as (_ & _ & Wc & _).
      destruct (weak_fields_spec B L (Z.to_nat (wosize (memory s) c - 1)) s c 1 I Hc) as (s1 & E1 & S1); [lia | lia|]. unfold wosize in E1. rewrite E1 in E. injection E as <- _.
      pose proof (ws_control _ _ _ _ S1) as C. split; left; [cbn [caml_gc_phase set_weak_prev]; rewrite (sc_phase _ _ C); exact Ph | exact (control_finals _ _ C)].
    - destruct (Z.eqb_spec (memory s (weak_prev s)) 0) as [|Nc]; cbn [negb] in E.
      + destruct (final_update_spec B L s I) as (s1 & E1 & _ & _ & P1 & _). rewrite E1 in E. injection E as <- _. split; [left; cbn; congruence | right; eauto].
      + injection E as <- _. destruct (_ =? Caml_white); split; now left.
    - injection E as <- <-. split; [right | now left]. split; [split | reflexivity]; cbn; auto. }
  destruct (pop_turn B L s work v l I Eg) as (E1 & M & C & _). rewrite E1 in E. injection E as <- _. split; left; [rewrite (sc_phase _ _ C); exact Ph | exact (control_finals _ _ C)].
Qed.

Lemma slice_ready fuel : forall work s s', inv s -> subphase_ok s -> caml_gc_phase s = Phase_mark -> mark_slice fuel work s = Ok s' ->
  caml_gc_phase s' = Phase_mark \/ ready s'.
Proof.
  induction fuel as [|fuel IH]; intros work s s' I Sp Ph H; cbn [mark_slice] in H; (destruct (0 <? work); [|injection H as <-; now left]); [discriminate H|].
  destruct (mark_turn_spec B L s work I Sp) as (s1 & w & E & M1 & Sp1 & _). rewrite E in H.
  destruct (turn_cases s work s1 w I Sp Ph E) as [[P|[R ->]] _]; [exact (IH w s1 s' (mk_inv _ _ _ _ M1) Sp1 P H)|].
  destruct fuel; cbn [mark_slice] in H; injection H as <-; now right.
Qed.
Lemma finish_ready slices : forall fuel s s', inv s -> subphase_ok s -> caml_gc_phase s = Phase_mark -> finish_mark slices fuel s = Ok s' -> ready s'.
Proof.
  induction slices as [|n IH]; intros fuel s s' I Sp Ph H; cbn [finish_mark] in H; rewrite Ph in H; cbn [Z.eqb Phase_mark] in H; [discriminate H|].
  destruct (mark_slice fuel LONG_MAX s) as [s1| |] eqn:E; try discriminate H. destruct (slice_spec B L fuel LONG_MAX s s1 I Sp Ph E) as (M1 & Sp1 & _).
  destruct (slice_ready fuel LONG_MAX s s1 I Sp Ph E) as [P|R]; [exact (IH fuel s1 s' (mk_inv _ _ _ _ M1) Sp1 P H)|].
  destruct n; cbn [finish_mark] in H; rewrite (rd_phase _ R) in H; injection H as <-; exact R.
Qed.

(** ** Finalised values *)

(** The functions of the two sets, and the values of the finalising set. *)
Definition funs (s : gc) : list Z := map fun_ (finalisable s) ++ map fun_ (concat (to_do s)).
Definition kept_value (m : mem) (v : Z) : Prop := pointer v -> good L m v /\ safe B m none (base m v).
Definition todo_kept (s : gc) : Prop := forall f, In f (concat (to_do s)) -> kept_value (memory s) (val f).

Lemma kept_value_marks s s' v : inv s -> marks s s' -> kept_value (memory s) v -> kept_value (memory s') v.
Proof.
  intros I M K P. destruct (K P) as [G N]. pose proof (inv_live B L s I) as V. destruct (good_same B L _ _ v (mk_shape _ _ _ _ M) V G) as [Eb G']. split; auto. rewrite Eb.
  apply (mk_safe _ _ _ _ M); [apply G | exact N].
Qed.

Lemma final_again_fun n m : forall f w f', final_again n m f = Ok (w, f') -> fun_ f' = fun_ f.
Proof.
  induction n as [|n IH]; intros f w f'; cbn [final_again]; [discriminate|]. destruct (Is_white_val m (val f)); [|intros E; now injection E as _ <-].
  destruct (_ =? Forward_tag); [|intros E; now injection E as _ <-]. destruct (_ && _); [intros E; now injection E as _ <-|].
  destruct (_ && _); [intros E; exact (IH _ _ _ E) | intros E; now injection E as _ <-].
Qed.
Lemma final_split_funs m l : forall todo kept, final_split m l = Ok (todo, kept) -> incl (map fun_ kept ++ map fun_ todo) (map fun_ l).
Proof.
  induction l as [|f l IH]; intros todo kept; cbn [final_split]; [intros E; injection E as <- <-; apply incl_refl|].
  destruct (final_again 2 m f) as [[w f']| |] eqn:E; try discriminate. destruct (final_split m l) as [[t k]| |]; try discriminate.
  pose proof (IH t k eq_refl) as J. apply final_again_fun in E. destruct w; intros E'; injection E' as <- <-; cbn [map app]; rewrite E;
    [intros x Hx; apply in_app_or in Hx as [Hx|[<-|Hx]] | intros x [<-|Hx]]; try (now left); right; apply J; auto; apply in_or_app; auto.
Qed.

Lemma final_update_todo s s1 : inv s -> todo_kept s -> caml_final_update s = Ok s1 -> todo_kept s1 /\ incl (funs s1) (funs s).
Proof.
  intros I T E. unfold caml_final_update in E. destruct (existsb _ _); [|injection E as <-; split; [exact T | apply incl_refl]].
  destruct (final_split (memory s) (finalisable s)) as [[todo kept]| |] eqn:Es; try discriminate E. injection E as <-. rewrite fold_darken_vals.
  destruct (final_split_spec B L (memory s) (finalisable s) (inv_heap B L s I) (inv_live B L s I) (inv_final B L s I)) as (t & k & Es' & Ft & Fk). rewrite Es in Es'. injection Es' as <- <-.
  pose proof (set_final_marks B L s kept (to_do s ++ [todo]) I Fk) as M1. set (s2 := set_final _ _ s) in *.
  assert (Fd : Forall (fun v => pointer v -> good L (memory s2) v) (map val todo)) by (apply Forall_map; exact Ft).
  destruct (darken_all_spec B L (map val todo) s2 (mk_inv _ _ _ _ M1) Fd) as (M2 & _ & C2 & Sv). pose proof (control_finals _ _ C2) as [E1 E2]. split.
  - intros f Hf. rewrite E2 in Hf. cbn [to_do s2 set_final] in Hf. rewrite concat_app in Hf. apply in_app_or in Hf as [Hf|Hf].
    + apply (kept_value_marks s2); [apply M1 | exact M2 | now apply T].
    + cbn [concat] in Hf. rewrite app_nil_r in Hf. intros P. pose proof (proj1 (Forall_forall _ _) Ft f Hf P) as G.
      destruct (good_same B L _ _ (val f) (mk_shape _ _ _ _ M2) (inv_live B L s I) G) as [Eb G']. split; [exact G'|]. rewrite Eb.
      exact (Sv (val f) (in_map val _ _ Hf) P).
  - unfold funs. rewrite E1, E2. cbn [finalisable to_do s2 set_final]. rewrite concat_app. cbn [concat]. rewrite app_nil_r, map_app. pose proof (final_split_funs _ _ _ _ Es) as J.
    intros x Hx. rewrite !in_app_iff in *. destruct Hx as [Hx|[Hx|Hx]]; auto; left; apply J, in_or_app; auto.
Qed.

Definition finals_kept (s s' : gc) : Prop := todo_kept s' /\ incl (funs s') (funs s).
Lemma finals_kept_trans s1 s2 s3 : finals_kept s1 s2 -> finals_kept s2 s3 -> finals_kept s1 s3.
Proof. intros [_ H1] [T H2]. split; auto. eapply incl_tran; eauto. Qed.
Lemma same_finals_kept s s' : inv s -> marks s s' -> same_finals s s' -> todo_kept s -> finals_kept s s'.
Proof.
  intros I M [E1 E2] T. split; [intros f Hf; rewrite E2 in Hf; apply (kept_value_marks s); auto | unfold funs; rewrite E1, E2; apply incl_refl].
Qed.

Lemma slice_finals fuel : forall work s s', inv s -> subphase_ok s -> caml_gc_phase s = Phase_mark -> todo_kept s -> mark_slice fuel work s = Ok s' -> finals_kept s s'.
Proof.
  induction fuel as [|fuel IH]; intros work s s' I Sp Ph T H; cbn [mark_slice] in H; (destruct (0 <? work); [|injection H as <-; split; [exact T | apply incl_refl]]); [discriminate H|].
  destruct (mark_turn_spec B L s work I Sp) as (s1 & w & E & M1 & Sp1 & _). rewrite E in H. destruct (turn_cases s work s1 w I Sp Ph E) as [P F].
  assert (K : finals_kept s s1).
  { destruct F as [F|(s2 & E2 & ->)]; [now apply same_finals_kept|]. destruct (final_update_todo s s2 I T E2) as [T2 F2]. split; [exact T2 | exact F2]. }
  apply (finals_kept_trans s s1); auto. destruct P as [P|[R ->]]; [exact (IH w s1 s' (mk_inv _ _ _ _ M1) Sp1 P (proj1 K) H)|].
  destruct fuel; cbn [mark_slice] in H; injection H as <-; (split; [apply K | apply incl_refl]).
Qed.
Lemma finish_finals slices : forall fuel s s', inv s -> subphase_ok s -> todo_kept s -> finish_mark slices fuel s = Ok s' -> finals_kept s s'.
Proof.
  induction slices as [|n IH]; intros fuel s s' I Sp T H; cbn [finish_mark] in H; (destruct (Z.eqb_spec (caml_gc_phase s) Phase_mark) as [Ph|]; [|injection H as <-; split; [exact T | apply incl_refl]]); [discriminate H|].
  destruct (mark_slice fuel LONG_MAX s) as [s1| |] eqn:E; try discriminate H. destruct (slice_spec B L fuel LONG_MAX s s1 I Sp Ph E) as (M1 & Sp1 & _).
  pose proof (slice_finals fuel LONG_MAX s s1 I Sp Ph T E) as K. exact (finals_kept_trans s s1 s' K (IH fuel s1 s' (mk_inv _ _ _ _ M1) Sp1 (proj1 K) H)).
Qed.

(** ** The start of a cycle *)

Lemma roots_todo r s f : In f (concat (to_do s)) -> In (val f) (caml_do_roots r s).
Proof.
  intros H. unfold caml_do_roots, caml_final_do_strong_roots. rewrite !in_app_iff. right. right. right. left. right. apply in_concat in H as (t & Ht & H).
  apply in_flat_map. exists t. split; auto. apply in_flat_map. exists f. split; auto. right. now left.
Qed.
Lemma roots_funs r s v : In v (funs s) -> In v (caml_do_roots r s).
Proof.
  unfold funs. intros H. unfold caml_do_roots, caml_final_do_strong_roots. rewrite !in_app_iff. right. right. right. left. apply in_app_or in H as [H|H]; [now left | right].
  apply in_map_iff in H as (f & <- & H). apply in_concat in H as (t & Ht & H). apply in_flat_map. exists t. split; auto. apply in_flat_map. exists f. split; auto. now left.
Qed.

Lemma start_control r s : idle B L s -> roots_good L (memory s) (caml_do_roots r s) -> same_finals s (start_cycle r s).
Proof.
  intros [I _ _ _] G. destruct (darken_all_spec B L (caml_do_roots r s) s I) as (_ & _ & C & _); [apply Forall_forall; intros v Hv P; now apply G | exact (control_finals _ _ C)].
Qed.
Lemma start_todo r s : idle B L s -> roots_good L (memory s) (caml_do_roots r s) -> finals_kept s (start_cycle r s).
Proof.
  intros Id G. destruct (start_control r s Id G) as [E1 E2]. split; [|unfold funs; rewrite E1, E2; apply incl_refl]. pose proof (ci_start B L r s Id G) as C.
  intros f Hf P. rewrite E2 in Hf. pose proof (roots_todo r s f Hf) as Hr. split; [exact (ci_roots B L _ _ C _ Hr P)|]. apply (ci_safe B L _ _ C). exists (val f). split; auto. split; auto. constructor.
Qed.
Lemma start_late r s l : idle B L s -> roots_good L (memory s) (caml_do_roots r s) -> weak_chain B L (memory s) caml_weak_list_head l -> Forall L l ->
  let R := heap_reach (memory s) (caml_do_roots r s) in
  late B L (memory s) l R (start_cycle r s) /\ seen B L (memory s) R (start_cycle r s) /\ frame B L l (memory s) (memory (start_cycle r s)).
Proof.
  intros Id G H Fl R. destruct (start_darken B L r s Id G) as [M Mu]. pose proof (ci_start B L r s Id G) as Ci. pose proof Id as [I _ _ Wh]. pose proof (inv_live B L s I) as V.
  assert (Fr : Forall (fun v => pointer v -> good L (memory s) v) (caml_do_roots r s)) by (apply Forall_forall; intros v Hv P; now apply G).
  assert (F : frame B L l (memory s) (memory (start_cycle r s))) by (apply frame_mutates; [exact Mu | now apply (darken_all_fields B L)]).
  assert (Fa : Forall (weak_array B L (memory s)) l) by (apply weak_chain_links in H as (_ & _ & Fa); eapply Forall_impl; [|exact Fa]; cbn; tauto).
  split; [split|split; [split|exact F]].
  - intros b c Lb Bb [Ht _]. assert (Bl : black_leaves L (memory s)) by (intros x Hx E; destruct (Wh x (live_in B L _ V x Hx)) as [W|W]; rewrite W in E; discriminate E).
    pose proof (darken_leaves B L (caml_do_roots r s) s I Fr Bl b Lb Bb) as D. change (memory (fold_left _ _ _)) with (memory (start_cycle r s)) in D. lia.
  - exists [], l. split; [apply (weak_chain_same B L (memory s)); auto; apply Mu|]. split; [exact Fl|]. apply stage_main; [reflexivity | reflexivity|].
    intros c i Hc Hi. apply (kp_data _ _ _ _ (mu_keeps _ _ _ _ Mu)), (weak_array_cell B L); auto. exact (proj1 (Forall_forall _ _) Fa c Hc).
  - apply M.
  - apply F.
  - intros x _ Rx. apply (ci_safe B L _ _ Ci). now apply (start_reached B L).
  - intros _. assert (Cl : closed L R (memory s)) by (intros y x _ (v & Hv & P & Ry) E; exists v; split; auto; split; auto; econstructor; eauto). split.
    + apply (darken_all_in B L R (caml_do_roots r s) s I).
      * apply Forall_forall. intros v Hv P. split; [now apply G|]. exists v. split; auto. split; auto. constructor.
      * intros b Hb [K|K]; destruct (Wh b Hb) as [W|W]; rewrite W in K; discriminate K.
    + exact (closed_marks B L R s _ I M Cl).
Qed.
End Handover.
