(* ===== verification/GcCollect.v ===== *)
(** GcCollect: a whole cycle of the major collector.  The state of the heap between
    two cycles is an invariant: marking hands over to sweeping, and after sweeping
    the heap is ready for another cycle. *)
From Stdlib Require Import ZArith Lia List Bool.
From S2P Require Import Prelude Mlvalues InterpState ExternOutput MarshalBytes MarshalTrail MarshalDecode Gc GcGraph GcInv GcMark GcWeak GcTurn GcCycle GcLive.
From S2P Require Import Freelist FlTile FlFree FlBlock FlSweep GcEnd.
Import ListNotations.
Local Open Scope Z_scope.

Section Collect.
Context {A : Arch} {Env : Heap_env} {Sn : Sentinel}.
Variable has_finalize : Z -> bool.

(** ** The heap as chunks *)

Lemma tile_walk m bs : forall hp l, tile m hp l bs -> walk m hp l bs.
Proof.
  pose proof sizeof_value_pos as Sp. induction bs as [|b bs IH]; intros hp l; cbn [tile]; [intros ->; constructor|]. intros (E & Ho & T).
  assert (Eb : b = Val_hp hp) by exact E. destruct (tile_range m bs _ _ T) as [Le _]. pose proof (bsize_nonneg m b Ho).
  rewrite Eb. constructor; [lia|]. rewrite <- (Val_hp_hd m hp), <- Eb, Bhsize_block. replace (hp + (bsize m b + sizeof_value)) with (b + bsize m b) by lia. now apply IH.
Qed.
Lemma tiled_chunks m S : forall c, tiled m S -> chunk_list c (map fst S) -> chunks m c (blocks S).
Proof.
  induction S as [|[[c' l'] bs] S IH]; intros c T H; cbn [map fst] in H; inversion H as [|? ? Nc Hc]; subst; [constructor|].
  destruct T as [[La Lo] O]. inversion_clear La. inversion_clear Lo as [|? ? Oc Lo']. inversion_clear O as [|? ? Ob O']. cbn [map fst snd] in *.
  change (blocks ((c', c' + Chunk_size c', bs) :: S)) with (bs ++ blocks S). constructor; [apply Oc | now apply tile_walk | apply IH; auto; now repeat split].
Qed.
Lemma tiled_heap m S : tiled m S -> heap_wf (blocks S) m.
Proof.
  intros T. pose proof sizeof_value_pos. split; [intros b Hb; now apply (tiled_header m S)|]. intros b b' Hb Hb' N.
  pose proof (bsize_nonneg m b' (tiled_header m S b' T Hb')). destruct (tiled_apart m S T b b' Hb Hb' N) as [H'|H']; unfold bsize in *; [right | left]; lia.
Qed.
Lemma tile_shape m m' bs : (forall b, In b bs -> header_ok (Hd_op m' b) /\ wosize m' b = wosize m b) -> forall a l, tile m a l bs -> tile m' a l bs.
Proof.
  induction bs as [|x bs IH]; intros E a l; cbn [tile]; auto. intros (H1 & H2 & H3). destruct (E x (or_introl eq_refl)) as [Ho Ew]. split; auto. split; auto.
  unfold bsize in *. rewrite Ew. apply IH; auto. intros b Hb. apply E. now right.
Qed.
Lemma tiled_shape m m' S : same_shape (blocks S) m m' -> tiled m S -> tiled m' S.
Proof.
  intros Sh [La O]. split; auto. apply Forall_forall. intros s Hs. apply (tile_shape m); [|exact (proj1 (Forall_forall _ _) O s Hs)].
  intros b Hb. destruct (ss_header _ _ _ Sh b) as (Ho & _ & Ew); [apply in_flat_map; eauto | auto].
Qed.

Lemma inside_block m S b a : tiled m S -> In b (blocks S) -> (a = b - sizeof_value \/ field_of m b a) -> inside (map fst S) a.
Proof.
  intros T Hb Ha. destruct (tiled_block m S b T Hb) as (s & Hs & _ & Ho & R1 & R2). exists (fst s). split; [now apply in_map|].
  pose proof (cell_range m b a Ho Ha). lia.
Qed.
Lemma outside_static m S a : tiled m S -> ~ inside (map fst S) a -> static (blocks S) m a.
Proof.
  intros T N b Hb. split; [intros -> | intros F]; apply N.
  - apply (inside_block m S b _ T Hb). now left.
  - apply (inside_block m S b _ T Hb). now right.
Qed.
Lemma sentinel_outside m S : tiled m S -> ~ inside (map fst S) Fl_head /\ ~ inside (map fst S) (Fl_head - sizeof_value).
Proof. intros [[_ Lo] _]. split; intros (s & Hs & R); destruct (proj1 (Forall_forall _ _) Lo s Hs) as (_ & O1 & O2); auto. Qed.

(** ** The invariant between two cycles *)

Record collectable (L : Z -> Prop) (s : sweeper) (S : list seg) : Prop := {
  co_idle : idle (blocks S) L (collector s);
  co_phase : caml_gc_phase (collector s) = Phase_idle;
  co_chunks : chunk_list caml_heap_start (map fst S);
  co_tiled : tiled (memory (collector s)) S;
  co_pages : forall a, inside (map fst S) a -> Is_in_heap a = true;
  co_head : ~ writable (map fst S) caml_weak_list_head;
  co_free : free_list_ok (memory (collector s)) (fl s) (blocks S);
  co_weak : exists l, weak_chain (blocks S) L (memory (collector s)) caml_weak_list_head l /\ Forall L l;
  co_custom : forall b, In b (blocks S) -> color (memory (collector s)) b <> Caml_blue -> tag (memory (collector s)) b = Custom_tag -> 0 < wosize (memory (collector s)) b }.

(** ** The start of sweeping *)

Lemma three_colors m b : color m b <> Caml_gray -> color m b = Caml_white \/ color m b = Caml_blue \/ color m b = Caml_black.
Proof.
  intros N. pose proof (Color_hd_eq (Hd_op m b)) as E. fold (color m b) in E. pose proof (Z.mod_pos_bound (Hd_op m b / 256) 4 eq_refl) as Bd.
  change Caml_gray with 256 in N. change Caml_white with 0. change Caml_blue with 512. change Caml_black with 768. lia.
Qed.
Lemma sweeping_starts g f calls S : ready g -> chunk_list caml_heap_start (map fst S) -> caml_heap_start <> 0 -> tiled (memory g) S -> free_list_ok (memory g) f (blocks S) ->
  (forall b, In b (blocks S) -> color (memory g) b = Caml_white \/ color (memory g) b = Caml_blue \/ color (memory g) b = Caml_black) ->
  exists k, sweeping has_finalize (memory g) (blocks S) calls (map fst S) (marker_vars g) (Sweeper g (caml_fl_init_merge f) calls) k.
Proof.
  intros Rd Hc Nz T1 F1 Col. destruct S as [|[[c l] bs] Rs]; [inversion Hc; congruence|]. cbn [map fst] in Hc. inversion Hc as [|c0 r0 Nc Hn]; subst c0 r0. subst.
  exists (left bs Rs). exists [], caml_heap_start, [], bs, Rs. split; [|split; [apply merge_start | reflexivity]].
  apply (sweep_start has_finalize g f calls caml_heap_start (caml_heap_start + Chunk_size caml_heap_start) bs Rs); auto; apply Rd.
Qed.

(** ** From marking to sweeping *)

Section Mark.
Variables (L : Z -> Prop) (S : list seg) (m m1 : mem) (l0 : list Z).
Hypothesis (V : live_wf (blocks S) L m) (T : tiled m S) (Sh : same_shape (blocks S) m m1) (D : darker (blocks S) m m1) (Fr : frame (blocks S) L l0 m m1).
Hypothesis (Hd : ~ writable (map fst S) caml_weak_list_head) (Wh : forall b, In b (blocks S) -> color m b = Caml_white \/ color m b = Caml_blue).

Lemma darker_blue b : In b (blocks S) -> free m1 b = free m b.
Proof.
  intros Hb. unfold free, Is_blue_hd. fold (color m b) (color m1 b). destruct (D b Hb) as [->|[[-> [-> | ->]]|[-> ->]]]; reflexivity.
Qed.
Lemma frees_mark : frees m1 (blocks S) = frees m (blocks S).
Proof. apply filter_ext_in. exact darker_blue. Qed.

Lemma outside_kept a : ~ inside (map fst S) a -> a <> caml_weak_list_head -> m1 a = m a.
Proof.
  intros Na Nh. apply (fr_foreign _ _ _ _ _ Fr); auto. intros b Lb. exact (outside_static m S a T Na b (live_in _ _ _ V b Lb)).
Qed.
Lemma free_kept b : In b (blocks S) -> free m b = true -> 0 < wosize m b -> m1 b = m b.
Proof.
  intros Hb Fb Wb. apply (fr_foreign _ _ _ _ _ Fr).
  - intros x Lx. pose proof (live_in _ _ _ V x Lx) as Ix. assert (N : b <> x) by (intros ->; apply (live_color _ _ _ V x Lx); now apply color_blue).
    pose proof (cell_first m b Wb) as Cb. split; [intros E | intros F]; apply (tiled_cell m S b x b T Hb Ix N Cb); [left; exact E | right; exact F].
  - intros E. apply Hd. left. rewrite <- E. apply (inside_block m S b b T Hb). apply cell_first in Wb. exact Wb.
Qed.

Lemma free_list_mark f : free_list_ok m f (blocks S) -> free_list_ok m1 f (blocks S).
Proof.
  intros [F1 F2 F3 F4 F5]. destruct (sentinel_outside m S T) as [O1 O2]. assert (Nh : forall a, writable (map fst S) a -> a <> caml_weak_list_head) by (intros a Ha ->; contradiction).
  assert (E0 : m1 Fl_head = m Fl_head) by (apply outside_kept; auto; apply Nh; right; now left).
  assert (Fm : forall b, In b (frees m (blocks S)) -> In b (blocks S) /\ free m b = true) by (intros b; apply frees_in).
  split; rewrite ?frees_mark.
  - eapply links_ext; [|exact F1]. intros b [<-|Hb]; [exact E0|]. destruct (Fm b Hb). apply free_kept; auto.
  - exact F2.
  - rewrite F3. f_equal. unfold total. clear F1 F2 F3. induction (frees m (blocks S)) as [|b l IH]; cbn [fold_right]; auto.
    rewrite IH; [|intros x Hx; apply F4; now right | intros x Hx; apply Fm; now right]. destruct (Fm b (or_introl eq_refl)) as [Hb _]. destruct (ss_header _ _ _ Sh b Hb) as (_ & _ & Ew).
    unfold Whsize_bp, Whsize_hd. fold (wosize m b) (wosize m1 b). now rewrite Ew.
  - intros b Hb. destruct (Fm b Hb) as [Ib _]. destruct (ss_header _ _ _ Sh b Ib) as (_ & _ & ->). now apply F4.
  - unfold wosize, Hd_op. rewrite outside_kept; auto. apply Nh. right. now right.
Qed.
End Mark.

(** ** After sweeping *)

Section Sweep.
Variables (L : Z -> Prop) (S : list seg) (g : gc) (calls : list Z) (s : sweeper) (S' : list seg).
Variables (m0 : mem) (l0 : list Z) (R0 : Z -> Prop).
Notation m := (memory g).
Notation m' := (memory (collector s)).
Definition black_live (L : Z -> Prop) (m : mem) (b : Z) : Prop := L b /\ color m b = Caml_black.
Notation L' := (black_live L m).
Hypothesis (I : inv (blocks S) L g) (Rd : ready g) (Ng : no_gray (blocks S) m) (Lt : late (blocks S) L m0 l0 R0 g) (T : tiled m S).
Hypothesis (Sw : swept has_finalize m (blocks S) calls (map fst S) (marker_vars g) s S').
Hypothesis (Pg : forall a, inside (map fst S) a -> Is_in_heap a = true) (Hd : ~ writable (map fst S) caml_weak_list_head) (Ch : chunk_list caml_heap_start (map fst S)).
Hypothesis (Cu : forall b, In b (blocks S) -> color m b <> Caml_blue -> tag m b = Custom_tag -> 0 < wosize m b).

Lemma live_survives b : L' b -> In b (blocks S') /\ Hd_op m' b = Whitehd_hd (Hd_op m b) /\ same_fields m m' b.
Proof.
  intros [Lb Bb]. pose proof (live_in _ _ _ (inv_live _ _ _ I) b Lb) as Ib. assert (Sb : survives m (blocks S) b) by (split; auto).
  pose proof (fs_kept _ _ _ _ _ _ _ _ Sw b Sb) as Hb. split; auto. destruct (fs_blocks _ _ _ _ _ _ _ _ Sw b Hb) as [(_ & H)|[[H _]|(H & _)]]; [exact H | contradiction | contradiction].
Qed.
Lemma live_header b : L' b -> header_ok (Hd_op m' b) /\ tag m' b = tag m b /\ wosize m' b = wosize m b /\ color m' b = Caml_white.
Proof.
  intros Lb. destruct (live_survives b Lb) as (_ & Eh & _). unfold tag, wosize, color. rewrite Eh. apply Whitehd_recolor. apply (wf_header _ _ (inv_heap _ _ _ I)).
  apply (live_in _ _ _ (inv_live _ _ _ I)), Lb.
Qed.
Lemma nonwhite_black b : L b -> color m b <> Caml_white -> L' b.
Proof.
  intros Lb Nw. split; auto. pose proof (inv_live _ _ _ I) as V. destruct (color_nonwhite _ _ m b V Lb Nw) as [G|Bb]; [destruct (Ng b (live_in _ _ _ V b Lb) G) | exact Bb].
Qed.
Lemma safe_black b : L b -> safe (blocks S) m none b -> L' b.
Proof. intros Lb [Bb|G]; [now split | destruct (no_gray_no_guard _ m b Ng G)]. Qed.
Lemma black_edge b c : L' b -> edge m b c -> L' c.
Proof. intros [Lb Bb] E. apply safe_black; [exact (edge_live _ _ m b c (inv_live _ _ _ I) Lb E) | exact (lt_closed _ _ _ _ _ _ Lt b c Lb Bb E)]. Qed.

Lemma live_good x : good L m x -> L' (base m x) -> base m' x = base m x /\ good L' m' x.
Proof.
  intros [Lb G] Hb. destruct (live_header _ Hb) as (_ & Et & Ew & _). destruct (live_survives _ Hb) as (_ & _ & F). destruct (Z.eq_dec (tag m x) Infix_tag) as [Ti|Ti].
  - destruct (G Ti) as (Tc & (i & Hi & Ex) & Cx). assert (Eh : Hd_op m' x = Hd_op m x) by (unfold Hd_op; rewrite Ex; exact (F i Hi)).
    assert (Eb : base m' x = base m x) by (unfold base, tag; now rewrite Eh). split; [exact Eb|]. split; [now rewrite Eb|]. intros _. rewrite Eb, Et. split; auto.
    split; [exists i; rewrite Ew; auto | unfold color; now rewrite Eh].
  - assert (Eb : base m x = x) by (unfold base; apply Z.eqb_neq in Ti; now rewrite Ti). rewrite Eb in Et, Hb |- *. assert (Ti' : tag m' x <> Infix_tag) by now rewrite Et.
    assert (Eb' : base m' x = x) by (unfold base; apply Z.eqb_neq in Ti'; now rewrite Ti'). split; [exact Eb'|]. split; [now rewrite Eb' | contradiction].
Qed.
(** A pointer whose header is not white points to a block that is kept. *)
Lemma nonwhite_good x : good L m x -> color m x <> Caml_white -> good L' m' x.
Proof.
  intros G Nw. assert (Ti : tag m x <> Infix_tag) by (intros Ti; apply Nw; now apply G). assert (Eb : base m x = x) by (unfold base; apply Z.eqb_neq in Ti; now rewrite Ti).
  apply live_good; auto. rewrite Eb in *. apply nonwhite_black; auto. rewrite <- Eb. apply G.
Qed.

Lemma sweep_live : live_wf (blocks S') L' m'.
Proof.
  pose proof (inv_live _ _ _ I) as V. split.
  - intros b Lb. now apply live_survives.
  - intros b Lb. destruct (live_header b Lb) as (_ & _ & _ & ->). discriminate.
  - intros b Lb Tf. destruct (live_header b Lb) as (_ & Et & Ew & _). rewrite Ew. apply (live_forward _ _ _ V); [apply Lb | rewrite Et in Tf; exact Tf].
  - intros b i Lb Ht Hi P. destruct (live_header b Lb) as (_ & Et & Ew & _). destruct (live_survives b Lb) as (_ & _ & F). rewrite Et in Ht. rewrite Ew in Hi.
    rewrite (F i Hi) in *. apply live_good; [apply (live_field _ _ _ V); auto; apply Lb|]. apply (black_edge b); auto. split; auto. exists i. auto.
Qed.

Lemma fixed_head a : ~ writable (map fst S) a -> m' a = m a.
Proof. exact (fs_fixed _ _ _ _ _ _ _ _ Sw a). Qed.

Lemma live_array c : weak_array (blocks S) L m c -> fields_marked m c -> L' c -> weak_array (blocks S') L' m' c.
Proof.
  intros (_ & Tc & Wc & G) Fm Lc. destruct (live_header c Lc) as (_ & Et & Ew & _). destruct (live_survives c Lc) as (Ic & _ & F). split; auto. rewrite Et, Ew.
  split; auto. split; auto. intros i Hi Nn P. rewrite (F i ltac:(lia)) in *. apply nonwhite_good; [now apply G | now apply Fm].
Qed.
Lemma sweep_weak : exists l, weak_chain (blocks S') L' m' caml_weak_list_head l /\ Forall L' l /\ (forall c, In c l <-> In c l0 /\ R0 c) /\ treated m0 R0 m l0.
Proof.
  destruct (lt_arrays _ _ _ _ _ _ Lt) as (l1 & l2 & H & Fl & St). inversion St as [l Es|? ? Es|? ? Es|l Es Fm Nw _ Tr Kl]; subst; try (rewrite (rd_subphase _ Rd) in Es; discriminate Es).
  rewrite app_nil_r in *. apply weak_chain_links in H as (Ln & _ & Fa). exists l1.
  assert (Fb : Forall L' l1) by (apply Forall_forall; intros c Hc; apply nonwhite_black; [exact (proj1 (Forall_forall _ _) Fl c Hc) | exact (proj1 (Forall_forall _ _) Nw c Hc)]).
  split; [|auto]. apply weak_chain_links. split; [|split; [now left|]].
  - apply (links_ext m m'); [|exact Ln]. intros c [<-|Hc]; [now apply fixed_head|]. destruct (live_survives c (proj1 (Forall_forall _ _) Fb c Hc)) as (_ & _ & F).
    destruct (proj1 (Forall_forall _ _) Fa c Hc) as (_ & _ & _ & Wc & _). specialize (F 0 ltac:(lia)). unfold Op_val, Bsize_wsize in F. now rewrite Z.add_0_r in F.
  - apply Forall_forall. intros c Hc. destruct (proj1 (Forall_forall _ _) Fa c Hc) as [Nc Wc]. split; auto.
    apply live_array; auto; [exact (proj1 (Forall_forall _ _) Fm c Hc) | exact (proj1 (Forall_forall _ _) Fb c Hc)].
Qed.
Lemma sweep_final : Forall (fun f => pointer (val f) /\ good L' m' (val f)) (finalisable (collector s)).
Proof.
  destruct (lt_arrays _ _ _ _ _ _ Lt) as (l1 & l2 & H & Fl & St). inversion St as [l Es|? ? Es|? ? Es|l Es Fm Nw Ff]; subst; try (rewrite (rd_subphase _ Rd) in Es; discriminate Es).
  pose proof (fs_vars _ _ _ _ _ _ _ _ Sw) as Ev. injection Ev as _ _ _ _ Ef _. rewrite Ef. apply Forall_forall. intros f Hf.
  destruct (proj1 (Forall_forall _ _) (inv_final _ _ _ I) f Hf) as [P G]. split; auto. apply nonwhite_good; auto. exact (proj1 (Forall_forall _ _) Ff f Hf).
Qed.

Lemma swept_color b : In b (blocks S') -> color m' b = Caml_white \/ color m' b = Caml_blue.
Proof.
  intros Hb. destruct (fs_blocks _ _ _ _ _ _ _ _ Sw b Hb) as [(Sb & Eh & _)|[[_ F]|(_ & C & _)]]; [left | right | now left].
  - unfold color. fold m' in Eh. rewrite Eh. apply (Whitehd_recolor _ (wf_header _ _ (inv_heap _ _ _ I) b (proj1 Sb))).
  - now apply color_blue.
Qed.

Lemma sweep_collectable : collectable L' s S'.
Proof.
  pose proof (fs_bounds _ _ _ _ _ _ _ _ Sw) as Eb. pose proof (fs_tiled _ _ _ _ _ _ _ _ Sw) as T'. fold m' in T'. pose proof (fs_vars _ _ _ _ _ _ _ _ Sw) as Ev.
  injection Ev as Eg Ep Em Es _ _. assert (Out : ~ inside (map fst S') caml_weak_list_head) by (rewrite Eb; intros H; apply Hd; now left).
  split; rewrite ?Eb; auto; [| exact (fs_phase _ _ _ _ _ _ _ _ Sw) | | destruct sweep_weak as (l & H1 & H2 & _); eauto |].
  - split; [split|..]; fold m'.
    + now apply tiled_heap.
    + exact sweep_live.
    + apply tiled_chunks; auto. now rewrite Eb.
    + apply (inv_start _ _ _ I).
    + now apply (outside_static m' S').
    + destruct sweep_weak as (l & H & _). eauto.
    + intros b Hb C. destruct (swept_color b Hb) as [E|E]; rewrite E in C; discriminate C.
    + rewrite Eg, (rd_gray _ Rd). constructor.
    + rewrite Eg, (rd_gray _ Rd). constructor.
    + exists []. split; [left; rewrite Em; split; [apply Rd | reflexivity]|]. intros _ b Hb C. destruct (swept_color b Hb) as [E|E]; rewrite E in C; discriminate C.
    + exact sweep_final.
    + unfold weak_phase. rewrite Es, (rd_subphase _ Rd). intros [E|E]; discriminate E.
    + intros b i Hb Hi. apply Pg. rewrite <- Eb. apply (inside_block m' S' b); auto. right. exists i. auto.
    + rewrite Em. apply Rd.
    + exact swept_color.
  - split; [exact (fs_links _ _ _ _ _ _ _ _ Sw) | exact (fs_prev _ _ _ _ _ _ _ _ Sw) | exact (fs_size _ _ _ _ _ _ _ _ Sw) | exact (fs_pos _ _ _ _ _ _ _ _ Sw) | exact (fs_head _ _ _ _ _ _ _ _ Sw)].
  - intros b Hb C Tc. fold m' in *. destruct (fs_blocks _ _ _ _ _ _ _ _ Sw b Hb) as [(Sb & Eh & _)|[[_ F]|(_ & _ & _ & Ib & Eh)]]; fold m' in *.
    + assert (Ib : In b (blocks S)) by apply Sb. pose proof (Whitehd_recolor _ (wf_header _ _ (inv_heap _ _ _ I) b Ib)) as (_ & Et & Ew & _). fold m in Et, Ew, Eh.
      unfold tag, wosize in *. rewrite Eh, Et in Tc. rewrite Eh, Ew. apply Cu; auto. rewrite (proj2 Sb). discriminate.
    + apply color_blue in F. contradiction.
    + unfold tag, wosize, color in *. rewrite Eh in *. now apply Cu.
Qed.
End Sweep.

(** ** A whole cycle *)

(** What a cycle does: [L'] are the blocks that it keeps. *)
Record collected (L L' : Z -> Prop) (r : roots) (s s' : sweeper) (S S' : list seg) : Prop := {
  cr_again : collectable L' s' S';
  cr_roots : roots_good L' (memory (collector s')) (caml_do_roots r (collector s'));
  cr_bounds : map fst S' = map fst S;
  cr_reached : forall b, heap_reach (memory (collector s)) (caml_do_roots r (collector s)) b -> L' b;
  cr_only : forall b, L' b -> L b /\ heap_reach (memory (collector s)) (caml_do_roots r (collector s) ++ map val (finalisable (collector s))) b;
  cr_shape : forall b, L' b -> tag (memory (collector s')) b = tag (memory (collector s)) b /\ wosize (memory (collector s')) b = wosize (memory (collector s)) b;
  cr_fields : forall b i, L' b -> tag (memory (collector s)) b < No_scan_tag -> 0 <= i < wosize (memory (collector s)) b ->
    shortcut (memory (collector s)) (Op_val (memory (collector s)) b i) (Op_val (memory (collector s')) b i);
  cr_weak : exists l l', weak_chain (blocks S) L (memory (collector s)) caml_weak_list_head l /\ weak_chain (blocks S') L' (memory (collector s')) caml_weak_list_head l' /\
    (forall c, In c l' <-> In c l /\ heap_reach (memory (collector s)) (caml_do_roots r (collector s)) c) /\
    (forall c i, In c l -> L' c -> 1 <= i < wosize (memory (collector s)) c ->
       weak_slot (memory (collector s)) (heap_reach (memory (collector s)) (caml_do_roots r (collector s))) (Op_val (memory (collector s)) c i) (Op_val (memory (collector s')) c i)) /\
    (forall b i, L' b -> No_scan_tag <= tag (memory (collector s)) b -> ~ In b l -> 0 <= i < wosize (memory (collector s)) b ->
       Op_val (memory (collector s')) b i = Op_val (memory (collector s)) b i);
  cr_rest : forall b, In b (blocks S') -> L' b \/ free (memory (collector s')) b = true \/ wosize (memory (collector s')) b = 0;
  cr_calls : exists calls, finalized s' = calls ++ finalized s /\ NoDup calls /\ forall b, In b calls <->
    (In b (blocks S) /\ color (memory (collector s)) b = Caml_white /\ ~ L' b /\ tag (memory (collector s)) b = Custom_tag /\
     has_finalize (Op_val (memory (collector s)) b 0) = true) }.

Section Cycle.
Variables (L : Z -> Prop) (s : sweeper) (S : list seg) (r : roots).
Hypothesis (C : collectable L s S) (G : roots_good L (memory (collector s)) (caml_do_roots r (collector s))).
Notation m := (memory (collector s)).
Notation rs := (caml_do_roots r (collector s)).

Section Arrays.
Variable l : list Z.
Hypothesis (Hw : weak_chain (blocks S) L m caml_weak_list_head l) (Fl : Forall L l).

(** The end of marking. *)
Record handed_over (g : gc) : Prop := {
  ho_inv : inv (blocks S) L g;
  ho_ready : ready g;
  ho_gray : no_gray (blocks S) (memory g);
  ho_late : late (blocks S) L m l (heap_reach m rs) g;
  ho_shape : same_shape (blocks S) m (memory g);
  ho_darker : darker (blocks S) m (memory g);
  ho_frame : frame (blocks S) L l m (memory g);
  ho_todo : todo_kept (blocks S) L g;
  ho_funs : incl (funs g) (funs (collector s));
  ho_exact : forall x, In x (blocks S) -> (heap_reach m rs x -> color (memory g) x = Caml_black) /\
    (color (memory g) x = Caml_black -> heap_reach m (rs ++ map val (finalisable (collector s))) x) }.

Lemma marking_hands_over : exists n g, (forall fuel, (n <= fuel)%nat -> finish_mark fuel fuel (start_cycle r (collector s)) = Ok g) /\ handed_over g.
Proof.
  pose proof (co_idle _ _ _ C) as Id. pose proof (id_inv _ _ _ Id) as I0. pose proof (ci_start _ L r _ Id G) as Ci. pose proof (ci_inv _ _ _ _ Ci) as I1. pose proof (ci_subphase _ _ _ _ Ci) as Sp. cbn [snd] in I1, Sp.
  destruct (rank_exists _ L _ I1) as [t R]. destruct (finish_ends _ L t _ R I1 Sp eq_refl) as (n & g & E & M & Ps & N). exists n, g. split; [intros fuel Hf; now apply E|].
  specialize (E n n (le_n _) (le_n _)). destruct (start_late _ L r _ l Id G Hw Fl) as (Lt0 & Sn0 & F0).
  assert (A0 : Forall (weak_array (blocks S) L m) l) by (apply weak_chain_links in Hw as (_ & _ & Fa); eapply Forall_impl; [|exact Fa]; cbn; tauto).
  destruct (late_finish _ L m l _ (inv_live _ _ _ I0) A0 Fl n n _ g I1 Sp Sn0 Lt0 E) as [Lt F1]. destruct (start_todo _ L r _ Id G) as [T0 J0]. destruct (finish_finals _ L n n _ g I1 Sp T0 E) as [T1 J1].
  pose proof (start_shape _ L r _ Id G) as Sh. destruct (start_darken _ L r _ Id G) as [M0 _]. split; auto.
  - apply M.
  - now apply (finish_ready _ L n n _ g I1 Sp).
  - eapply same_shape_trans; [exact Sh | apply M].
  - exact (darker_trans (blocks S) L m (memory (start_cycle r (collector s))) (memory g) (mk_darker _ _ _ _ M0) (mk_darker _ _ _ _ M)).
  - apply (frame_trans _ _ _ _ (memory (start_cycle r (collector s)))); auto; [apply I0 | apply I1].
  - eapply incl_tran; eauto.
  - exact (finish_exact _ L r _ n g Id G E M N).
Qed.

Section Handed.
Variable (g : gc).
Hypothesis H : handed_over g.

Lemma not_array b : tag m b <> Abstract_tag -> ~ In b l.
Proof. intros N Hb. apply weak_chain_links in Hw as (_ & _ & Fa). destruct (proj1 (Forall_forall _ _) Fa b Hb) as (_ & _ & T & _). contradiction. Qed.
Lemma handed_color b : In b (blocks S) -> color (memory g) b <> Caml_blue -> color m b = Caml_white.
Proof.
  intros Hb N. destruct (id_white _ _ _ (co_idle _ _ _ C) b Hb) as [W|W]; auto. exfalso. apply N.
  destruct (ho_darker _ H b Hb) as [E|[[E _]|[E _]]]; rewrite W in E; [exact E | discriminate E ..].
Qed.
Lemma handed_custom b : In b (blocks S) -> color (memory g) b <> Caml_blue -> tag (memory g) b = Custom_tag -> 0 < wosize (memory g) b.
Proof.
  intros Hb N Tc. destruct (ss_header _ _ _ (ho_shape _ H) b Hb) as (_ & Et & Ew). rewrite Ew. apply (co_custom _ _ _ C); auto; [|congruence].
  rewrite (handed_color b Hb N). discriminate.
Qed.
Lemma handed_roots v : In v (rs ++ map val (finalisable (collector s))) -> pointer v -> good L m v.
Proof.
  intros Hv P. apply in_app_or in Hv as [Hv|Hv]; [now apply G|]. apply in_map_iff in Hv as (f & <- & Hf).
  apply (proj1 (Forall_forall _ _) (inv_final _ _ _ (id_inv _ _ _ (co_idle _ _ _ C))) f Hf).
Qed.
Lemma handed_black b : In b (blocks S) -> color (memory g) b = Caml_black -> black_live L (memory g) b.
Proof.
  intros Hb Bb. split; auto. apply (heap_reach_live (blocks S) L m _ b (inv_live _ _ _ (id_inv _ _ _ (co_idle _ _ _ C)))) with (2 := proj2 (ho_exact _ H b Hb) Bb).
  intros v Hv P. now apply handed_roots.
Qed.

Lemma handed_sweeping : exists k, sweeping has_finalize (memory g) (blocks S) (finalized s) (map fst S) (marker_vars g) (Sweeper g (caml_fl_init_merge (fl s)) (finalized s)) k.
Proof.
  pose proof (co_tiled _ _ _ C) as T. apply sweeping_starts; try apply C; [apply H | pose proof (inv_start _ _ _ (ho_inv _ H)); lia | exact (tiled_shape m (memory g) S (ho_shape _ H) T) | |].
  - exact (free_list_mark L S m (memory g) l (inv_live _ _ _ (id_inv _ _ _ (co_idle _ _ _ C))) T (ho_shape _ H) (ho_darker _ H) (ho_frame _ H) (co_head _ _ _ C) (fl s) (co_free _ _ _ C)).
  - intros b Hb. apply three_colors. exact (ho_gray _ H b Hb).
Qed.

Section Done.
Variables (s' : sweeper) (S' : list seg).
Hypothesis Sw : swept has_finalize (memory g) (blocks S) (finalized s) (map fst S) (marker_vars g) s' S'.
Notation m' := (memory (collector s')).
Notation L' := (black_live L (memory g)).

Lemma handed_survives b : L' b -> In b (blocks S') /\ Hd_op m' b = Whitehd_hd (Hd_op (memory g) b) /\ same_fields (memory g) m' b.
Proof. exact (live_survives L S g (finalized s) s' S' (ho_inv _ H) Sw b). Qed.
Lemma handed_header b : L' b -> tag m' b = tag m b /\ wosize m' b = wosize m b.
Proof.
  intros Lb. destruct (live_header L S g (finalized s) s' S' (ho_inv _ H) Sw b Lb) as (_ & -> & -> & _).
  apply (ss_header _ _ _ (ho_shape _ H)). exact (live_in _ _ _ (inv_live _ _ _ (ho_inv _ H)) b (proj1 Lb)).
Qed.
Lemma handed_reached b : heap_reach m rs b -> L' b.
Proof.
  intros R. apply handed_black; [|apply (ho_exact _ H); auto]; pose proof (inv_live _ _ _ (id_inv _ _ _ (co_idle _ _ _ C))) as V;
    apply (live_in _ _ _ V), (heap_reach_live _ _ _ _ b V G R).
Qed.
Lemma handed_field b i : L' b -> 0 <= i < wosize m b -> Op_val m' b i = Op_val (memory g) b i.
Proof.
  intros Lb Hi. apply (handed_survives b Lb). destruct (ss_header _ _ _ (ho_shape _ H) b (live_in _ _ _ (inv_live _ _ _ (ho_inv _ H)) b (proj1 Lb))) as (_ & _ & ->). exact Hi.
Qed.

Lemma root_kept v : In v rs -> pointer v -> good L' m' v.
Proof.
  intros Hv P. destruct (good_same _ L m (memory g) v (ho_shape _ H) (inv_live _ _ _ (id_inv _ _ _ (co_idle _ _ _ C))) (G v Hv P)) as [Eb Gg].
  apply (live_good L S g (finalized s) s' S' (ho_inv _ H) Sw v Gg). rewrite Eb. apply handed_reached. exists v. split; auto. split; auto. constructor.
Qed.
Lemma handed_finals : finalisable (collector s') = finalisable g /\ to_do (collector s') = to_do g.
Proof. pose proof (fs_vars _ _ _ _ _ _ _ _ Sw) as E. now injection E. Qed.

Lemma roots_kept : roots_good L' m' (caml_do_roots r (collector s')).
Proof.
  destruct handed_finals as [Ef Et]. intros v Hv P. assert (K : In v rs \/ In v (map val (concat (to_do g)))).
  { assert (Fu : forall x, In x (funs g) -> In x rs) by (intros x Hx; apply roots_funs, (ho_funs _ H), Hx).
    unfold caml_do_roots in Hv |- *. rewrite !in_app_iff in Hv |- *. destruct Hv as [Hv|[Hv|[Hv|[Hv|Hv]]]]; auto 8. unfold caml_final_do_strong_roots in Hv. rewrite Ef, Et in Hv.
    assert (K : In v (funs g) \/ In v (map val (concat (to_do g)))).
    { unfold funs. rewrite in_app_iff. apply in_app_or in Hv as [Hv|Hv]; [auto|]. apply in_flat_map in Hv as (t & Ht & Hv). apply in_flat_map in Hv as (f & Hf & Hv).
      assert (Hc : In f (concat (to_do g))) by (apply in_concat; eauto). destruct Hv as [<-|[<-|[]]]; [left; right | right]; now apply in_map. }
    destruct K as [K|K]; [|auto]. apply Fu in K. unfold caml_do_roots in K. rewrite !in_app_iff in K. auto 8. }
  destruct K as [K|K]; [now apply root_kept|]. apply in_map_iff in K as (f & <- & Hf). destruct (ho_todo _ H f Hf P) as [Gf Sf].
  apply (live_good L S g (finalized s) s' S' (ho_inv _ H) Sw _ Gf). apply (safe_black L S g (ho_gray _ H)); [apply Gf | exact Sf].
Qed.

Lemma handed_calls b : dead_custom has_finalize (memory g) b = true -> In b (blocks S) ->
  color m b = Caml_white /\ ~ L' b /\ tag m b = Custom_tag /\ has_finalize (Op_val m b 0) = true.
Proof.
  unfold dead_custom. intros E Hb. apply andb_prop in E as [E E3]. apply andb_prop in E as [E1 E2]. fold (tag (memory g) b) in E2. apply Z.eqb_eq in E2.
  rewrite Is_white_color in E1. apply Z.eqb_eq in E1. assert (Nb : color (memory g) b <> Caml_blue) by (rewrite E1; discriminate). pose proof (handed_custom b Hb Nb E2) as W.
  destruct (ss_header _ _ _ (ho_shape _ H) b Hb) as (_ & Et & Ew). rewrite Et in E2. rewrite Ew in W. split; [exact (handed_color b Hb Nb)|]. split; [intros [_ K]; rewrite E1 in K; discriminate K|]. split; auto.
  rewrite <- (fr_data _ _ _ _ _ (ho_frame _ H) b 0 Hb); auto; [rewrite E2; discriminate | apply not_array; rewrite E2; discriminate | lia].
Qed.
Lemma calls_handed b : In b (blocks S) -> color m b = Caml_white -> ~ L' b -> tag m b = Custom_tag -> has_finalize (Op_val m b 0) = true -> dead_custom has_finalize (memory g) b = true.
Proof.
  intros Hb Wb Nl Tc Hf. destruct (ss_header _ _ _ (ho_shape _ H) b Hb) as (_ & Et & Ew).
  assert (W : color (memory g) b = Caml_white).
  { destruct (ho_darker _ H b Hb) as [->|[[_ [E|E]]|[E _]]]; [exact Wb | destruct (ho_gray _ H b Hb E) | destruct (Nl (handed_black b Hb E)) | rewrite Wb in E; discriminate E]. }
  unfold dead_custom. rewrite Is_white_color, W, Z.eqb_refl. fold (tag (memory g) b). rewrite Et, Tc, Z.eqb_refl. cbn [andb].
  rewrite (fr_data _ _ _ _ _ (ho_frame _ H) b 0 Hb); auto; [rewrite Tc; discriminate | apply not_array; rewrite Tc; discriminate|]. split; [lia|]. apply (co_custom _ _ _ C); auto. rewrite Wb. discriminate.
Qed.

Lemma handed_collected : collected L L' r s s' S S'.
Proof.
  pose proof (tiled_shape m (memory g) S (ho_shape _ H) (co_tiled _ _ _ C)) as T1. split.
  - apply (sweep_collectable L S g (finalized s) s' S' m l (heap_reach m rs)); auto; try apply H; try apply C. exact handed_custom.
  - exact roots_kept.
  - exact (fs_bounds _ _ _ _ _ _ _ _ Sw).
  - exact handed_reached.
  - intros b Lb. split; [apply Lb|]. apply (ho_exact _ H); [exact (live_in _ _ _ (inv_live _ _ _ (ho_inv _ H)) b (proj1 Lb)) | apply Lb].
  - exact handed_header.
  - intros b i Lb Ht Hi. rewrite handed_field by auto. apply (fr_fields _ _ _ _ _ (ho_frame _ H)); auto. apply Lb.
  - destruct (sweep_weak L S g (finalized s) s' S' m l (heap_reach m rs)) as (l' & Hw' & _ & Kl & Tr); auto; try apply H; try apply C.
    exists l, l'. split; [exact Hw|]. split; [exact Hw'|]. split; [exact Kl|]. split.
    + intros c i Hc Lc Hi. rewrite handed_field by (auto; lia). now apply Tr.
    + intros b i Lb Ht Na Hi. rewrite handed_field by auto. apply (fr_data _ _ _ _ _ (ho_frame _ H)); auto. exact (live_in _ _ _ (inv_live _ _ _ (ho_inv _ H)) b (proj1 Lb)).
  - intros b Hb. destruct (fs_blocks _ _ _ _ _ _ _ _ Sw b Hb) as [(Sb & _)|[[_ F]|(_ & _ & W & _)]]; auto. left. apply handed_black; apply Sb.
  - exists (rev (filter (dead_custom has_finalize (memory g)) (blocks S))). split; [exact (fs_calls _ _ _ _ _ _ _ _ Sw)|]. split.
    + apply NoDup_rev, NoDup_filter, (tiled_nodup m), C.
    + intros b. rewrite <- in_rev, filter_In. split; [intros [Hb E]; split; auto; now apply handed_calls | intros (Hb & Wb & Nl & Tc & Hf); split; auto; now apply calls_handed].
Qed.
End Done.
End Handed.

End Arrays.

Lemma cycle_collects : exists n s' S' L', (forall fuel, (n <= fuel)%nat -> caml_finish_major_cycle has_finalize fuel r s = Ok s') /\ collected L L' r s s' S S'.
Proof.
  destruct (co_weak _ _ _ C) as (l & Hw & Fl). destruct (marking_hands_over l Hw Fl) as (n1 & g & E1 & H). destruct (handed_sweeping l g H) as (k & Sg).
  assert (Ok0 : forall b, In b (blocks S) -> header_ok (Hd_op (memory g) b)) by (intros b Hb; now apply (wf_header _ _ (inv_heap _ _ _ (ho_inv _ _ H)))).
  assert (Ok1 : forall b, In b (blocks S) -> color (memory g) b = Caml_white -> tag (memory g) b = Custom_tag -> 0 < wosize (memory g) b).
  { intros b Hb W. apply (handed_custom l g H b Hb). rewrite W. discriminate. }
  destruct (finish_sweep_spec has_finalize (memory g) (blocks S) (finalized s) (map fst S) (marker_vars g) Ok0 Ok1 k _ Sg) as (n2 & s' & E2 & S' & Sw).
  exists (Nat.max n1 n2), s', S', (black_live L (memory g)). split; [|now apply (handed_collected l Hw g H)]. intros fuel Hf. unfold caml_finish_major_cycle.
  rewrite (co_phase _ _ _ C). cbn [Z.eqb Pos.eqb Phase_idle]. rewrite E1 by lia. cbn [caml_gc_phase start_cycle set_scan set_subphase set_phase]. apply E2; lia.
Qed.
End Cycle.
End Collect.
