(* ===== verification/FlTheorems.v ===== *)
(** FlTheorems: what sweeping, allocation and a whole cycle of the collector do, and
    the theorems on the example. *)
From Stdlib Require Import ZArith Lia List Bool FinFun.
From S2P Require Import Prelude Mlvalues InterpState ExternOutput MarshalBytes MarshalTrail MarshalDecode Gc GcGraph GcInv GcMark GcWeak GcTurn GcCycle GcLive.
From S2P Require Import Freelist FlTile FlFree FlBlock FlSweep FlAlloc GcEnd GcCollect GcTheorems.
Import ListNotations.
Local Open Scope Z_scope.

Section Theorems.
Context {A : Arch} {Env : Heap_env} {Sn : Sentinel}.
Variable has_finalize : Z -> bool.

(** C3. A whole major cycle.  Between two cycles the heap satisfies the invariant
    [collectable]: the chunks are filled with adjacent blocks, allocated blocks are
    white and point to allocated blocks, and the free list goes through all the blue
    blocks with its exact size.  Then [caml_finish_major_cycle] ends ([collected]).
    Every block reachable from the roots is kept with its tag, its size and its
    contents, abstract data included, but for pointers to forwarding blocks, that may
    be replaced by the values they forward to, and for weak arrays.  The other blocks
    that are kept are reachable from finalised values; all the rest of the heap is
    free or fragments.  A weak pointer is kept when the program reaches its target and
    erased when it does not; one to a closure inside a block is always erased, and
    one to a forwarding block is erased or replaced by what it forwards to.  The weak
    arrays that stay in the list are those that the program reaches, in particular
    not those that only finalised values keep.  Each dead custom block is finalised
    once, and the invariant holds again: no field, weak pointer of the list or
    finalised value dangles and the free list is exact. *)
Theorem major_cycle_collects L s S r : collectable L s S -> roots_good L (memory (collector s)) (caml_do_roots r (collector s)) ->
  exists n s' S' L', (forall fuel, (n <= fuel)%nat -> caml_finish_major_cycle has_finalize fuel r s = Ok s') /\ collected has_finalize L L' r s s' S S'.
Proof. apply cycle_collects. Qed.

(** C35. Sweeping, from the state that marking leaves, ends whatever the number of
    chunks and fragments: black blocks become white with the same fields, all others
    become free blocks or fragments of one word, the free list goes through the
    free blocks in the order of the chunks and its size is exact, and the finalisation
    functions of the dead custom blocks are called in the order of the heap.  Blocks
    are merged: in each chunk, of two blocks that follow each other and are not
    survivors, either the merged block would exceed the largest size, or the second
    one was already free when sweeping started, and so was the block before it. *)
Theorem sweeping_frees g f calls S : ready g -> chunk_list caml_heap_start (map fst S) -> caml_heap_start <> 0 -> tiled (memory g) S ->
  free_list_ok (memory g) f (blocks S) -> no_gray (blocks S) (memory g) ->
  (forall b, In b (blocks S) -> color (memory g) b = Caml_white -> tag (memory g) b = Custom_tag -> 0 < wosize (memory g) b) ->
  exists n s' S', (forall slices fuel, (n <= slices)%nat -> (n <= fuel)%nat ->
    finish_sweep has_finalize slices fuel (Sweeper g (caml_fl_init_merge f) calls) = Ok s') /\
  swept has_finalize (memory g) (blocks S) calls (map fst S) (marker_vars g) s' S'.
Proof.
  intros Rd Hc Nz T F Ng Cu.
  assert (Col : forall b, In b (blocks S) -> color (memory g) b = Caml_white \/ color (memory g) b = Caml_blue \/ color (memory g) b = Caml_black) by (intros b Hb; apply three_colors, Ng, Hb).
  assert (Sg : exists k, sweeping has_finalize (memory g) (blocks S) calls (map fst S) (marker_vars g) (Sweeper g (caml_fl_init_merge f) calls) k).
  { apply sweeping_starts; auto. }
  destruct Sg as [k Sg]. destruct (finish_sweep_spec has_finalize _ _ _ _ _ (fun b Hb => tiled_header (memory g) S b T Hb) Cu k _ Sg) as (n & s' & E & S' & Sw). exists n, s', S'. auto.
Qed.

(** C36. Allocation with the next-fit policy: when some free block is large enough,
    wherever the search starts, [caml_fl_allocate] returns the last words of one,
    and as soon as the header of the new block is written the heap is again made of
    adjacent blocks, the free list is well formed and its size is exact, and no
    allocated block has changed; otherwise it returns NULL and changes nothing. *)
Theorem next_fit_allocates m f S wo fuel : tiled m S -> free_list_ok m f (blocks S) -> policy f = Policy_next_fit -> 0 < wo -> (length (blocks S) < fuel)%nat ->
  exists hp m' f', caml_fl_allocate fuel wo m f = Ok (hp, m', f') /\
  (allocated m S wo hp m' f' \/
   hp = 0 /\ m' = m /\ free_list_ok m f' (blocks S) /\ forall b, In b (blocks S) -> free m b = true -> wosize m b < wo).
Proof. apply caml_fl_allocate_next_fit. Qed.
End Theorems.

(** ** On the example *)

#[export] Instance example_sentinel : Sentinel := 128.
Definition example_free : free_list := Free_list 128 0 0 2 [] 0 0 Policy_next_fit.
Definition example_sweeper : sweeper := Sweeper example_gc example_free [].
Definition example_segs : list seg := [(4096, 4264, example_blocks)].
Definition example_finalize (ops : Z) : bool := ops =? 48.

Lemma example_header b : In b example_blocks -> header_ok (Hd_op example_memory b).
Proof. apply (wf_header _ _ example_heap). Qed.
Ltac tile_one := match goal with |- tile ?m ?a ?l (?b :: ?bs) => split; [reflexivity | split; [apply example_header; vm_compute; tauto|]];
  let x := eval vm_compute in (b + bsize m b) in change (tile m x l bs) end.
Lemma example_tile : tile example_memory 4096 4264 example_blocks.
Proof. unfold example_blocks. repeat tile_one. reflexivity. Qed.
Lemma example_tiled : tiled example_memory example_segs.
Proof.
  split; [split|]; cbn [map fst example_segs].
  - repeat constructor.
  - constructor; [|constructor]. unfold outside. change Fl_head with 128. change sizeof_value with 8. cbn [fst snd]. lia.
  - constructor; [exact example_tile | constructor].
Qed.
Lemma example_free_ok : free_list_ok example_memory example_free (blocks example_segs).
Proof.
  assert (E : frees example_memory (blocks example_segs) = [4240]) by by_vm. split; rewrite ?E.
  - split; by_vm.
  - intros _. left. reflexivity.
  - by_vm.
  - intros b [<-|[]]. reflexivity.
  - reflexivity.
Qed.
Lemma example_inside a : inside (map fst example_segs) a <-> 4096 <= a < 4264.
Proof. unfold inside. cbn [map fst example_segs In snd]. split; [intros (s & [<-|[]] & H); exact H | intros H; exists (4096, 4264); auto]. Qed.
Lemma example_collectable : collectable example_live example_sweeper example_segs.
Proof.
  split; cbn [collector fl example_sweeper memory example_gc].
  - exact example_idle.
  - reflexivity.
  - change (chunk_list 4096 [(4096, 4096 + Chunk_size 4096)]). apply chunk_cons; [discriminate | constructor].
  - exact example_tiled.
  - intros a Ha. apply example_inside in Ha. unfold Is_in_heap, Classify_addr, example_env. destruct (Z.leb_spec 4096 a), (Z.ltb_spec a 4264); try lia. reflexivity.
  - unfold writable. rewrite example_inside. change caml_weak_list_head with 64. change Fl_head with 128. change sizeof_value with 8. lia.
  - exact example_free_ok.
  - exists [4200]. split; [exact example_weak|]. constructor; [vm_compute; tauto | constructor].
  - intros b Hb N Tc. each Hb; vm_compute in Tc; try discriminate Tc. reflexivity.
Qed.

(** The finalisation function is called and the custom block joins the free block. *)
Example example_cycle_run : match caml_finish_major_cycle example_finalize 100 example_roots example_sweeper with
  | Ok s => finalized s = [4256] /\ caml_fl_cur_size (fl s) = 4 /\ frees (memory (collector s)) [4104; 4128; 4144; 4184; 4200; 4224; 4240] = [4240]
  | _ => False end.
Proof. vm_compute. auto. Qed.

Lemma major_cycle_collects_witness : exists n s' S' L', caml_finish_major_cycle example_finalize n example_roots example_sweeper = Ok s' /\
  collected example_finalize example_live L' example_roots example_sweeper s' example_segs S'.
Proof.
  destruct (major_cycle_collects example_finalize example_live example_sweeper example_segs example_roots example_collectable example_roots_good) as (n & s' & S' & L' & E & H).
  exists n, s', S', L'. split; [apply E; apply le_n | exact H].
Defined.

(** One black block, and the rest of the example white. *)
Definition example_black : mem := example_memory.[4096 <- 2816].
Definition example_ready : gc := GC example_black [] 1 true 0 4096 4264 0 Phase_sweep Subphase_final 4096 [] [] [].
Lemma black_tiled : tiled example_black example_segs.
Proof.
  destruct example_tiled as [La _]. split; [exact La|]. constructor; [|constructor]. apply (tile_shape example_memory); [|exact example_tile].
  intros b Hb. each Hb; (split; [split; [vm_compute; discriminate | by_vm] | by_vm]).
Qed.
Lemma black_free_ok : free_list_ok example_black example_free (blocks example_segs).
Proof.
  assert (E : frees example_black (blocks example_segs) = [4240]) by by_vm. split; rewrite ?E; [split; by_vm | intros _; left; reflexivity | by_vm | intros b [<-|[]]; by_vm | by_vm].
Qed.
Lemma sweeping_frees_witness : exists n s' S', finish_sweep example_finalize n n (Sweeper example_ready (caml_fl_init_merge example_free) []) = Ok s' /\
  swept example_finalize example_black (blocks example_segs) [] (map fst example_segs) (marker_vars example_ready) s' S'.
Proof.
  destruct (sweeping_frees example_finalize example_ready example_free [] example_segs) as (n & s' & S' & E & Sw).
  - split; reflexivity.
  - apply example_collectable.
  - discriminate.
  - exact black_tiled.
  - exact black_free_ok.
  - intros b Hb C. each Hb; vm_compute in C; discriminate C.
  - intros b Hb W T. each Hb; vm_compute in T; try discriminate T; by_vm.
  - exists n, s', S'. split; [apply E; apply le_n | exact Sw].
Defined.

Lemma next_fit_allocates_witness : exists hp m' f', caml_fl_allocate 9 1 example_memory example_free = Ok (hp, m', f') /\
  (allocated example_memory example_segs 1 hp m' f' \/
   hp = 0 /\ m' = example_memory /\ free_list_ok example_memory f' (blocks example_segs) /\
   forall b, In b (blocks example_segs) -> free example_memory b = true -> wosize example_memory b < 1).
Proof.
  apply (next_fit_allocates example_memory example_free example_segs 1 9); [exact example_tiled | exact example_free_ok | reflexivity | reflexivity | apply le_n].
Defined.

(** ** First fit *)

Section First_fit.
Context {A : Arch} {Sn : Sentinel}.

(** After the blocks [l0], the block [c] is larger than all those before it, and none
    of those was as large as the block that was there before. *)
Definition record_at (m : mem) (prevsz oldsz : Z) (l0 : list Z) (c : Z) : bool :=
  (prevsz <? wosize m c) && forallb (fun x => (wosize m x <? wosize m c) && ((wosize m x <=? prevsz) || (wosize m x <? oldsz))) l0.
Fixpoint records_after (m : mem) (prevsz oldsz entry : Z) (l0 l : list Z) : list Z :=
  match l with
  | [] => []
  | c :: l => (if record_at m prevsz oldsz l0 c then [last l0 entry] else []) ++ records_after m prevsz oldsz entry (l0 ++ [c]) l
  end.
(** The blocks before these ones, [l] being the blocks after [entry]. *)
Definition records m prevsz oldsz entry l := records_after m prevsz oldsz entry [] l.

Lemma records_stop m prevsz oldsz entry x l : prevsz < wosize m x -> oldsz <= wosize m x ->
  forall l0, In x l0 -> records_after m prevsz oldsz entry l0 l = [].
Proof.
  intros H1 H2. induction l as [|c l IH]; intros l0 Hx; [reflexivity|]. cbn [records_after]. rewrite IH by (apply in_or_app; auto).
  destruct (record_at m prevsz oldsz l0 c) eqn:E; [|reflexivity]. apply andb_prop in E as [_ E]. apply forallb_forall with (x := x) in E; auto. lia.
Qed.
(** Blocks that increase are all collected. *)
Fixpoint rising (m : mem) (sz oldsz : Z) (l : list Z) : bool :=
  match l with [] => true | c :: l => (sz <? wosize m c) && (wosize m c <? oldsz) && rising m (wosize m c) oldsz l end.
Lemma records_rising m prevsz oldsz entry l : forall l0 sz, prevsz <= sz -> (forall x, In x l0 -> wosize m x <= sz /\ wosize m x < oldsz) ->
  rising m sz oldsz l = true -> length (records_after m prevsz oldsz entry l0 l) = length l.
Proof.
  induction l as [|c l IH]; intros l0 sz Hp H0 Hr; [reflexivity|]. cbn [rising] in Hr. rewrite !andb_true_iff, !Z.ltb_lt in Hr. destruct Hr as [[H1 H2] Hr].
  assert (R : record_at m prevsz oldsz l0 c = true).
  { unfold record_at. rewrite andb_true_iff, forallb_forall. split; [lia|]. intros x Hx. specialize (H0 x Hx). lia. }
  cbn [records_after]. rewrite R, length_app, (IH (l0 ++ [c]) (wosize m c)); auto; [lia|].
  intros x Hx. apply in_app_or in Hx as [Hx|[<-|[]]]; [specialize (H0 x Hx)|]; lia.
Qed.
Lemma collect_records m prevsz oldsz entry stop q l : forall l0 cur buf fuel, links m (last l0 entry) l q -> NoDup (last l0 entry :: l) ->
  Forall (fun b => b <> 0) l -> last l (last l0 entry) = stop -> (length l <= fuel)%nat ->
  (forall s, cur < s <-> prevsz < s /\ forall x, In x l0 -> wosize m x < s) -> (forall x, In x l0 -> wosize m x <= prevsz \/ wosize m x < oldsz) ->
  Z.of_nat (length buf) <= FLP_MAX -> let all := buf ++ records_after m prevsz oldsz entry l0 l in
  collect_flp fuel m (last l0 entry) stop cur oldsz buf = if Z.of_nat (length all) <=? FLP_MAX then Ok all else Stuck.
Proof.
  induction l as [|c l IH]; intros l0 cur buf fuel Ln Nd Nz Ls Hf Hc Ho Hb all; unfold all.
  - cbn [records_after last] in *. rewrite app_nil_r, (proj2 (Z.leb_le _ _) Hb). destruct fuel; cbn [collect_flp]; now rewrite Ls, Z.eqb_refl.
  - destruct Ln as [En Ln]. inversion_clear Nd as [|? ? Ni Nd']. inversion_clear Nz as [|? ? Nc Nl]. destruct fuel as [|fuel]; cbn [length] in Hf; [lia|].
    assert (Ec : last (l0 ++ [c]) entry = c) by apply last_last. rewrite last_cons in Ls. cbn [collect_flp records_after].
    destruct (Z.eqb_spec (last l0 entry) stop) as [Es|_]; [exfalso; apply Ni; rewrite Es, <- Ls; apply last_in|]. rewrite En. destruct (Z.eqb_spec c 0); [contradiction|].
    change (Wosize_bp m c) with (wosize m c). assert (Er : record_at m prevsz oldsz l0 c = (cur <? wosize m c)).
    { apply eq_true_iff_eq. unfold record_at. rewrite andb_true_iff, forallb_forall, !Z.ltb_lt, Hc. split; (intros [K1 K2]; split; auto; intros x Hx; specialize (K2 x Hx)); [lia|]. specialize (Ho x Hx). lia. }
    rewrite Er. assert (Hc' : forall s, Z.max cur (wosize m c) < s <-> prevsz < s /\ forall x, In x (l0 ++ [c]) -> wosize m x < s).
    { intros s. rewrite Z.max_lub_lt_iff, Hc. split; [intros [[K1 K2] K3]; split; auto; intros x Hx; apply in_app_or in Hx as [Hx|[<-|[]]]; auto |].
      intros [K1 K2]. conj; auto; [intros x Hx|]; apply K2, in_or_app; cbn; auto. }
    assert (Go : forall buf', Z.of_nat (length buf') <= FLP_MAX -> wosize m c <= cur \/ wosize m c < oldsz ->
      collect_flp fuel m c stop (Z.max cur (wosize m c)) oldsz buf' = let all := buf' ++ records_after m prevsz oldsz entry (l0 ++ [c]) l in
      if Z.of_nat (length all) <=? FLP_MAX then Ok all else Stuck).
    { intros buf' Hb' Hs. rewrite <- Ec at 1. apply IH; rewrite ?Ec; auto; [lia|]. intros x Hx. apply in_app_or in Hx as [Hx|[<-|[]]]; auto. 
      destruct Hs as [Hs|Hs]; auto. destruct (Z_lt_ge_dec prevsz (wosize m c)) as [P|]; [|lia]. right.
      destruct (Z_lt_ge_dec (wosize m c) oldsz); auto. exfalso. assert (N : ~ cur < wosize m c) by lia. rewrite Hc in N. apply N. split; auto. intros x Hx. specialize (Ho x Hx). lia. }
    destruct (Z.ltb_spec cur (wosize m c)) as [L|L].
    + cbn [app]. rewrite (Z.max_r cur) in Go by lia. destruct (Z.ltb_spec (Z.of_nat (length buf)) FLP_MAX) as [Lb|Lb].
      * destruct (Z.leb_spec oldsz (wosize m c)) as [Lo|Lo].
        -- rewrite (records_stop m prevsz oldsz entry c l) by (apply Hc in L; tauto || lia || (apply in_or_app; right; now left)).
           rewrite length_app. cbn [length]. destruct (Z.leb_spec (Z.of_nat (length buf + 1)) FLP_MAX); [reflexivity | lia].
        -- rewrite Go by (rewrite ?length_app; cbn [length]; auto; lia). now rewrite <- app_assoc.
      * rewrite length_app. cbn [length]. match goal with |- context [?x <=? FLP_MAX] => destruct (Z.leb_spec x FLP_MAX) end; [lia | reflexivity].
    + cbn [app]. rewrite (Z.max_l cur) in Go by lia. apply Go; auto.
Qed.

Lemma cut_table n (t : list Z) : (n < length t)%nat -> removelast (firstn (S n) t) = firstn n t /\ last (firstn (S n) t) 0 = nth n t 0.
Proof.
  intros H. split; [now apply removelast_firstn|]. revert t H. induction n as [|n IH]; intros [|x t] H; cbn [length] in H; try lia; [reflexivity|].
  change (firstn (S (S n)) (x :: t)) with (x :: firstn (S n) t). destruct t as [|y t]; cbn [length] in H; [lia|]. change (nth (S n) (x :: y :: t) 0) with (nth n (y :: t) 0). rewrite <- (IH (y :: t)) by (cbn [length]; lia). reflexivity.
Qed.

(** C37. How [caml_fl_allocate] updates its table, with the first-fit policy, when it
    takes a block from an entry [i] that is not the last one. [l] are the free blocks
    from this entry to the next one. Entry [i] is replaced by those before the blocks of
    [l] that are larger than all the blocks before them, up to the first that is as
    large as the block taken was; a table that becomes too long is cut, and [beyond] is
    set. They are first stored in [buf], an array on the stack that has room for
    FLP_MAX entries: the function writes past its end (a defect) exactly when they
    are more than FLP_MAX, which nothing prevents. *)
Theorem first_fit_update m f wo i fuel hp m1 f1 l q : policy f = Policy_first_fit -> search_flp m wo 0 (flp f) = Some i ->
  let p := nth (Z.to_nat i) (flp f) 0 in allocate_block (Whsize_wosize wo) i p (Next m p) m f = (hp, m1, f1) ->
  let entry k := nth (Z.to_nat k) (flp f1) 0 in 0 <= i < flp_size f1 - 1 ->
  links m1 (entry i) l q -> last l (entry i) = entry (i + 1) -> NoDup (entry i :: l) -> Forall (fun b => b <> 0) l -> (length l <= fuel)%nat ->
  let prevsz := if 0 <? i then wosize m1 (Next m1 (entry (i - 1))) else 0 in
  let buf := records m1 prevsz (wosize m (Next m p)) (entry i) l in
  let table := firstn (Z.to_nat i) (flp f1) ++ buf ++ skipn (Z.to_nat (i + 1)) (flp f1) in
  caml_fl_allocate fuel wo m f =
    if FLP_MAX <? Z.of_nat (length buf) then Stuck
    else if Z.of_nat (length table) <=? FLP_MAX then Ok (hp, m1, set_flp table (beyond f1) f1)
    else Ok (hp, m1, set_flp (firstn (Z.to_nat (FLP_MAX - 1)) table) (Next m1 (nth (Z.to_nat (FLP_MAX - 1)) table 0)) f1).
Proof.
  intros Pf Se p Ea entry Hi Ln Ls Nd Nz Hf prevsz buf table. unfold caml_fl_allocate. rewrite Pf. cbn [Z.eqb Policy_first_fit Policy_next_fit].
  unfold allocate_first_fit. rewrite Se. fold p. rewrite Ea. unfold update_flp. destruct (Z.ltb_spec i (flp_size f1)); [|lia]. destruct (Z.eqb_spec i (flp_size f1 - 1)); [lia|].
  fold (entry i) (entry (i + 1)) (entry (i - 1)). change (Wosize_bp m1 (Next m1 (entry (i - 1)))) with (wosize m1 (Next m1 (entry (i - 1)))). fold prevsz.
  change (Wosize_bp m (Next m p)) with (wosize m (Next m p)).
  rewrite (collect_records m1 prevsz (wosize m (Next m p)) (entry i) (entry (i + 1)) q l [] prevsz [] fuel); auto; [|intros s; cbn [In]; intuition | intros x [] | easy].
  cbn [app]. fold (records m1 prevsz (wosize m (Next m p)) (entry i) l). fold buf. rewrite Z.leb_antisym. destruct (FLP_MAX <? Z.of_nat (length buf)); [reflexivity|]. cbn [negb]. fold table.
  destruct (Z.leb_spec (Z.of_nat (length table)) FLP_MAX) as [|Lt]; [reflexivity|]. do 2 f_equal.
  change (Z.to_nat FLP_MAX) with (S (Z.to_nat (FLP_MAX - 1))). destruct (cut_table (Z.to_nat (FLP_MAX - 1)) table) as [-> ->]; [change FLP_MAX with 1000 in *; lia | reflexivity].
Qed.
End First_fit.

(** Free blocks, one every 4096 words: one of 1500 words, 1001 whose sizes are 2, 3,
    ..., 1002, and one of 4000 words. *)
Definition fit_size (k : Z) : Z := if k =? 1 then 1500 else if k =? 1003 then 4000 else k.
Definition fit_memory : mem := fun a =>
  let k := (a + 8) / 32768 in
  if a =? 128 then 32768 else if (1 <=? k) && (k <=? 1003) then
    if a =? 32768 * k then (if k =? 1003 then 0 else 32768 * (k + 1))
    else if a =? 32768 * k - 8 then fit_size k * 1024 + 512 else 0
  else 0.
Definition fit_list : free_list := Free_list 0 0 0 509005 [] 0 0 Policy_first_fit.
Definition fit_first : res (Z * mem * free_list) := caml_fl_allocate 1100 2000 fit_memory fit_list.
Definition fit_state : Z * mem * free_list := match fit_first with Ok x => x | _ => (0, fit_memory, fit_list) end.
Notation fit_mem := (snd (fst fit_state)).
Notation fit_fl := (snd fit_state).
(** The blocks between the two entries of the table, and the state after the second
    request takes the first one. *)
Definition fit_between : list Z := map (fun k => 32768 * Z.of_nat k) (seq 1 1002).
Definition fit_second : Z * mem * free_list := allocate_block 1499 0 128 32768 fit_mem fit_fl.

Lemma fit_first_ok : fit_first = Ok fit_state.
Proof. assert (E : match fit_first with Ok _ => true | _ => false end = true) by by_vm. unfold fit_state. destruct fit_first; [reflexivity | discriminate E ..]. Qed.
Fixpoint linked (m : mem) (p : Z) (l : list Z) : bool := match l with [] => true | b :: l => (Next m p =? b) && linked m b l end.
Lemma linked_links m l : forall p, linked m p l = true -> links m p l (Next m (last l p)).
Proof. induction l as [|b l IH]; intros p; cbn [linked links]; [reflexivity|]. rewrite last_cons, andb_true_iff, Z.eqb_eq. intros [E H]. auto. Qed.
Lemma fit_nodup : NoDup (128 :: fit_between) /\ Forall (fun b => b <> 0) fit_between.
Proof.
  assert (K : forall b, In b fit_between -> exists k, b = 32768 * Z.of_nat k /\ (1 <= k)%nat) by (intros b Hb; apply in_map_iff in Hb as (k & <- & Hk); apply in_seq in Hk; exists k; split; [reflexivity | lia]).
  split; [|apply Forall_forall; intros b Hb; destruct (K b Hb) as (k & -> & Hk); lia]. constructor; [intros H; destruct (K _ H) as (k & E & _); lia|].
  apply Injective_map_NoDup; [intros x y E; lia | apply seq_NoDup].
Qed.
Lemma fit_overflow : FLP_MAX <? Z.of_nat (length (records (snd (fst fit_second)) (if 0 <? 0 then wosize (snd (fst fit_second)) (Next (snd (fst fit_second)) (nth (Z.to_nat (0 - 1)) (flp (snd fit_second)) 0)) else 0)
  (wosize fit_mem (Next fit_mem (nth (Z.to_nat 0) (flp fit_fl) 0))) (nth (Z.to_nat 0) (flp (snd fit_second)) 0) fit_between)) = true.
Proof.
  assert (Ew : wosize fit_mem (Next fit_mem (nth (Z.to_nat 0) (flp fit_fl) 0)) = 1500) by by_vm.
  assert (Er : rising (snd (fst fit_second)) 0 1500 fit_between = true) by by_vm.
  rewrite Ew. revert Er. generalize (snd (fst fit_second)) as m, (nth (Z.to_nat 0) (flp (snd fit_second)) 0) as e. clear Ew. intros m e Er.
  change (0 <? 0) with false. cbv iota. unfold records. rewrite (records_rising m 0 1500 e fit_between [] 0 (Z.le_refl 0)); [by_vm | intros x [] | exact Er].
Qed.
(** Two requests are enough: the first takes the last block, the second the first one, and
    1002 blocks of sizes 1 to 1002 are between the two entries of the table. *)
Lemma first_fit_update_witness : caml_fl_allocate 1100 2000 fit_memory fit_list = Ok fit_state /\ caml_fl_allocate 1100 1498 fit_mem fit_fl = Stuck.
Proof.
  split; [exact fit_first_ok|].
  assert (E : fit_second = (fst (fst fit_second), snd (fst fit_second), snd fit_second)) by now destruct fit_second as [[? ?] ?].
  eapply eq_trans; [apply (first_fit_update fit_mem fit_fl 1498 0 1100 _ _ _ fit_between (Next (snd (fst fit_second)) (last fit_between 128)) ltac:(by_vm) ltac:(by_vm) E)|].
  - assert (Ez : flp_size (snd fit_second) = 2) by by_vm. lia.
  - assert (Ef : flp (snd fit_second) = [128; 32768 * 1002]) by by_vm. rewrite Ef. apply linked_links. by_vm.
  - by_vm.
  - assert (Ef : flp (snd fit_second) = [128; 32768 * 1002]) by by_vm. rewrite Ef. apply fit_nodup.
  - apply fit_nodup.
  - apply Nat.leb_le. by_vm.
  - cbv beta zeta. now rewrite fit_overflow.
Defined.
