(* ===== verification/PageTable.v ===== *)
(** PageTable: the page table, src/inline-more/byterun/memory.c and memory.h: on 64-bit
    machines a hash table with linear probing, on 32-bit machines an array of arrays.
    Both satisfy the interface [Pages]. *)
From Stdlib Require Import ZArith Lia List Bool.
From S2P Require Import Prelude Mlvalues Gc.
Import ListNotations.
Local Open Scope Z_scope.

(** On addresses of [w] bits. *)
Definition Page_mask (w : Z) : Z := wrap w (Z.shiftl (-1) Page_log).

(** The C library: whether [calloc] finds room for that many entries. *)
Class Calloc := calloc_ok : Z -> bool.

(** ** 64 bits *)

Module Hashed.
Section Hashed.
Context {Ca : Calloc}.

Definition Page (p : Z) : Z := Z.shiftr p Page_log.

Record page_table := Page_table { size : Z; shift : Z; mask : Z; occupancy : Z; entries : mem }.
Definition set_entry (h e occ : Z) (t : page_table) : page_table := Page_table (size t) (shift t) (mask t) occ ((entries t).[h <- e]).

Definition Page_entry_matches (entry addr : Z) : bool := Z.land (Z.lxor entry addr) (Page_mask 64) =? 0.
Definition HASH_FACTOR : Z := 11400714819323198486.
Definition Hash (t : page_table) (v : Z) : Z := Z.shiftr (wrap 64 (v * HASH_FACTOR)) (shift t).
Definition next (t : page_table) (h : Z) : Z := Z.land (h + 1) (mask t).

(** [while(1)], from an entry [e] that does not match. *)
Fixpoint lookup_loop (fuel : nat) (t : page_table) (addr h e : Z) : res Z :=
  if e =? 0 then Ok 0
  else match fuel with
    | O => Stuck
    | S fuel =>
        let h := next t h in
        let e := entries t h in
        if Page_entry_matches e addr then Ok (Z.land e 255) else lookup_loop fuel t addr h e
    end.
Definition caml_page_table_lookup (t : page_table) (addr : Z) : res Z :=
  let h := Hash t (Page addr) in
  let e := entries t h in
  if Page_entry_matches e addr then Ok (Z.land e 255) else lookup_loop (Z.to_nat (size t)) t addr h e.

Fixpoint grow_size (fuel : nat) (pagesize size shift : Z) : res (Z * Z) :=
  if size <? 2 * pagesize then
    match fuel with O => Stuck | S fuel => grow_size fuel pagesize (Z.shiftl size 1) (shift - 1) end
  else Ok (size, shift).
(** [None] when the C function returns -1. *)
Definition caml_page_table_initialize (bytesize : Z) : res (option page_table) :=
  let! (size, shift) := grow_size 64 (Page bytesize) 1 64 in
  Ok (if calloc_ok size then Some (Page_table size shift (size - 1) 0 (fun _ => 0)) else None).

(** The first empty entry from [h]. *)
Fixpoint free_slot (fuel : nat) (t : page_table) (h : Z) : res Z :=
  if entries t h =? 0 then Ok h
  else match fuel with O => Stuck | S fuel => free_slot fuel t (next t h) end.
(** [n] entries of the old table, from [i]. *)
Fixpoint rehash (n : nat) (old : mem) (i : Z) (t : page_table) : res page_table :=
  match n with
  | O => Ok t
  | S n =>
      let e := old i in
      if e =? 0 then rehash n old (i + 1) t
      else
        let! h := free_slot (Z.to_nat (size t)) t (Hash t (Page e)) in
        rehash n old (i + 1) (set_entry h e (occupancy t) t)
  end.
Definition caml_page_table_resize (t : page_table) : res (option page_table) :=
  if calloc_ok (2 * size t) then
    let! t' := rehash (Z.to_nat (size t)) (entries t) 0 (Page_table (2 * size t) (shift t - 1) (2 * size t - 1) (occupancy t) (fun _ => 0)) in
    Ok (Some t')
  else Ok None.

Fixpoint modify_loop (fuel : nat) (page toclear toset h : Z) (t : page_table) : res page_table :=
  if entries t h =? 0 then Ok (set_entry h (Z.lor page toset) (occupancy t + 1) t)
  else if Page_entry_matches (entries t h) page then Ok (set_entry h (Z.lor (Z.ldiff (entries t h) toclear) toset) (occupancy t) t)
  else match fuel with O => Stuck | S fuel => modify_loop fuel page toclear toset (next t h) t end.
Definition caml_page_table_modify (page toclear toset : Z) (t : page_table) : res (option page_table) :=
  let! t := (if size t <=? occupancy t * 2 then caml_page_table_resize t else Ok (Some t)) in
  match t with
  | None => Ok None
  | Some t => let! t' := modify_loop (Z.to_nat (size t)) page toclear toset (Hash t (Page page)) t in Ok (Some t')
  end.
End Hashed.
End Hashed.

(** ** 32 bits *)

Module Paged.
Section Paged.
Context {Ca : Calloc}.

Definition Pagetable2_log : Z := 11.
Definition Pagetable2_size : Z := 2 ^ Pagetable2_log.
Definition Pagetable1_log : Z := Page_log + Pagetable2_log.
Definition Pagetable1_size : Z := 2 ^ (32 - Pagetable1_log).
Definition Pagetable_index1 (a : Z) : Z := Z.shiftr a Pagetable1_log.
Definition Pagetable_index2 (a : Z) : Z := Z.land (Z.shiftr a Page_log) (Pagetable2_size - 1).

(** [None] stands for [caml_page_table_empty], which is shared and only has zeros. *)
Definition page_table_32 : Type := Z -> option mem.
Definition Classify_addr (t : page_table_32) (a : Z) : Z :=
  match t (Pagetable_index1 a) with None => 0 | Some u => u (Pagetable_index2 a) end.
Definition caml_page_table_initialize_32 : page_table_32 := fun _ => None.
Definition caml_page_table_modify_32 (page toclear toset : Z) (t : page_table_32) : option page_table_32 :=
  let i := Pagetable_index1 page in
  let j := Pagetable_index2 page in
  let store u := Some (fun x => if x =? i then Some (u.[j <- wrap 8 (Z.lor (Z.ldiff (u j) toclear) toset)]) else t x) in
  match t i with
  | None => if calloc_ok Pagetable2_size then store (fun _ => 0) else None
  | Some u => store u
  end.
End Paged.
End Paged.

(** ** What both promise *)

(** [classify] is the kind of the page of an address, [modify] is [None] when there
    is no memory left; [bits] is the width of an address. *)
Class Pages (T : Type) := {
  bits : Z;
  valid : T -> Prop;
  classify : T -> Z -> res Z;
  modify : Z -> Z -> Z -> T -> res (option T) }.
Definition kind_ok (k : Z) : Prop := 0 <= k < 256.
(** Not the page of NULL, and not after the end of memory. *)
Definition page_ok (bits a : Z) : Prop := Page_size <= a < 2 ^ bits.
Class Pages_ok (T : Type) {P : Pages T} := {
  bits_ok : Page_log < bits;
  classify_ok : forall t a, valid t -> page_ok bits a -> exists k, classify t a = Ok k /\ kind_ok k;
  modify_ok : forall t page c s, valid t -> page_ok bits page -> page mod Page_size = 0 -> kind_ok c -> kind_ok s ->
    exists r, modify page c s t = Ok r /\ match r with
      | None => True
      | Some t' => valid t' /\ forall a, page_ok bits a ->
          classify t' a = if a / Page_size =? page / Page_size then (let! k := classify t a in Ok (Z.lor (Z.ldiff k c) s)) else classify t a
      end }.

(** ** Ranges of addresses *)

Section Ranges.
Context {T : Type} {P : Pages T}.

(** [for (p = pstart; p <= pend; p += Page_size)]: [false] when the C function returns
    -1, some pages being already changed. *)
Fixpoint modify_pages (fuel : nat) (p pend c s : Z) (t : T) : res (bool * T) :=
  if p <=? pend then
    match fuel with
    | O => Stuck
    | S fuel =>
        let! r := modify p c s t in
        match r with None => Ok (false, t) | Some t => modify_pages fuel (wrap bits (p + Page_size)) pend c s t end
    end
  else Ok (true, t).
Definition page_start (a : Z) : Z := Z.land a (Page_mask bits).
Definition caml_page_table_add (fuel : nat) (kind start end_ : Z) (t : T) : res (bool * T) :=
  modify_pages fuel (page_start start) (page_start (wrap bits (end_ - 1))) 0 kind t.
Definition caml_page_table_remove (fuel : nat) (kind start end_ : Z) (t : T) : res (bool * T) :=
  modify_pages fuel (page_start start) (page_start (wrap bits (end_ - 1))) kind 0 t.
End Ranges.
