(* ===== verification/PageTableProof.v ===== *)
(** PageTableProof: linear probing keeps its promise: the 64-bit page table and the
    32-bit one are instances of the interface [Pages_ok], and adding or removing
    a range of addresses changes the kind of its pages and of no other. *)
From Stdlib Require Import ZArith Lia List Bool.
From S2P Require Import Prelude Mlvalues Gc PageTable.
Import ListNotations.
Local Open Scope Z_scope.

(** ** Counting *)

Fixpoint used (n : nat) (m : mem) : Z :=
  match n with O => 0 | S n => used n m + (if m (Z.of_nat n) =? 0 then 0 else 1) end.

Lemma used_bounds n m : 0 <= used n m <= Z.of_nat n.
Proof. induction n; cbn [used]; zbool; lia. Qed.
Lemma used_ext n m m' : (forall s, 0 <= s < Z.of_nat n -> (m s = 0 <-> m' s = 0)) -> used n m = used n m'.
Proof.
  induction n; cbn [used]; intros H; auto. rewrite IHn by (intros; apply H; lia).
  specialize (H (Z.of_nat n) ltac:(lia)). zbool; tauto || lia.
Qed.
Lemma used_zero n : used n (fun _ => 0) = 0.
Proof. induction n as [|n IH]; cbn [used]; [auto | now rewrite IH]. Qed.
Lemma used_empty n m : used n m < Z.of_nat n -> exists s, 0 <= s < Z.of_nat n /\ m s = 0.
Proof.
  induction n; cbn [used]; [lia|]. destruct (Z.eqb_spec (m (Z.of_nat n)) 0) as [E|E].
  - exists (Z.of_nat n). split; auto; lia.
  - intros H. destruct IHn as (s & H1 & H2); [lia|]. exists s. split; auto; lia.
Qed.
Lemma used_add n m s e : 0 <= s < Z.of_nat n -> m s = 0 -> e <> 0 -> used n m.[s <- e] = used n m + 1.
Proof.
  induction n; [lia|]. intros Hs E He. cbn [used].
  destruct (Z.eq_dec s (Z.of_nat n)) as [->|N].
  - rewrite upd_same, E, (used_ext n m.[Z.of_nat n <- e] m) by (intros; rewrite upd_other by lia; tauto). zbool; lia.
  - rewrite upd_other, IHn by (auto; lia). lia.
Qed.
Lemma used_change n m s e : m s <> 0 -> e <> 0 -> used n m.[s <- e] = used n m.
Proof.
  intros H He. apply used_ext. intros x _. destruct (Z.eq_dec x s) as [->|N];
    [rewrite upd_same | rewrite upd_other by auto]; tauto.
Qed.

Module HashedProof.
Import Hashed.

(** ** The layout of an entry *)

Definition entry_ok (e : Z) : Prop := 1 <= Page e /\ 0 <= e < 2 ^ 64.

Lemma Page_div e : Page e = e / Page_size.
Proof. apply Z.shiftr_div_pow2. easy. Qed.
Lemma entry_nonzero e : entry_ok e -> e <> 0.
Proof. intros [H _] ->. cbn in H. lia. Qed.
Lemma Page_match e a : 0 <= e < 2 ^ 64 -> 0 <= a < 2 ^ 64 -> Page_entry_matches e a = (Page e =? Page a).
Proof.
  intros He Ha. unfold Page_entry_matches, Page.
  assert (M : Page_mask 64 = Z.shiftl (Z.ones 52) Page_log) by reflexivity.
  assert (E : Z.land (Z.lxor e a) (Page_mask 64) = Z.shiftl (Z.lxor (Z.shiftr e Page_log) (Z.shiftr a Page_log)) Page_log).
  { rewrite M, <- Z.shiftr_lxor. apply Z.bits_inj'. intros i Hi. rewrite Z.land_spec.
    destruct (Z_lt_ge_dec i Page_log).
    - rewrite !Z.shiftl_spec_low, andb_false_r by lia. reflexivity.
    - rewrite !Z.shiftl_spec, Z.shiftr_spec by lia. replace (i - Page_log + Page_log) with i by lia.
      destruct (Z_lt_ge_dec i 64) as [L|L].
      + rewrite Z.ones_spec_low by (unfold Page_log in *; lia). apply andb_true_r.
      + rewrite Z.lxor_spec, <- (Z.mod_small e (2 ^ 64)), <- (Z.mod_small a (2 ^ 64)), !Z.mod_pow2_bits_high by lia.
        reflexivity. }
  rewrite E. apply eq_true_iff_eq. rewrite !Z.eqb_eq. unfold Page_log. rewrite Z.shiftl_eq_0_iff by lia. apply Z.lxor_eq_0_iff.
Qed.
(** Changing the kind keeps the page. *)
Lemma small_shift k n : 8 <= n -> kind_ok k -> Z.shiftr k n = 0.
Proof.
  intros Hn Hk. rewrite Z.shiftr_div_pow2 by lia. apply Z.div_small.
  pose proof (Z.pow_le_mono_r 2 8 n). unfold kind_ok in *. lia.
Qed.
Lemma kind_bits k i : kind_ok k -> 8 <= i -> Z.testbit k i = false.
Proof. intros Hk Hi. rewrite <- (Z.mod_small k (2 ^ 8)) by apply Hk. apply Z.mod_pow2_bits_high. lia. Qed.
Lemma mark_entry e c s : entry_ok e -> kind_ok c -> kind_ok s ->
  let e' := Z.lor (Z.ldiff e c) s in
  entry_ok e' /\ Page e' = Page e /\ Z.land e' 255 = Z.lor (Z.ldiff (Z.land e 255) c) s.
Proof.
  intros He Hc Hs e'.
  assert (S : forall n, 8 <= n -> Z.shiftr e' n = Z.shiftr e n)
    by (intros n Hn; unfold e'; rewrite Z.shiftr_lor, Z.shiftr_ldiff, (small_shift c), (small_shift s), Z.ldiff_0_r, Z.lor_0_r; auto).
  assert (P : Page e' = Page e) by now apply S.
  assert (R : 0 <= e' < 2 ^ 64).
  { destruct He as [_ He]. pose proof (S 64 ltac:(lia)) as S64. rewrite !Z.shiftr_div_pow2, (Z.div_small e) in S64 by lia.
    assert (0 <= e') by (apply Z.lor_nonneg; split; [apply Z.ldiff_nonneg; lia | apply Hs]).
    split; auto. apply Z.div_small_iff in S64; lia. }
  unfold entry_ok in *. rewrite P. conj; try tauto.
  apply Z.bits_inj'. intros i Hi. unfold e'. rewrite Z.land_spec, !Z.lor_spec, !Z.ldiff_spec, Z.land_spec.
  change 255 with (Z.ones 8). destruct (Z_lt_ge_dec i 8).
  - rewrite Z.ones_spec_low by lia. now rewrite !andb_true_r.
  - rewrite Z.ones_spec_high, (kind_bits s) by (auto; lia). now rewrite !andb_false_r.
Qed.
Lemma page_kind page s : page mod Page_size = 0 -> kind_ok s -> Z.land (Z.lor page s) 255 = s.
Proof.
  intros Hp Hs. rewrite Z.land_lor_distr_l. change 255 with (Z.ones 8). rewrite !Z.land_ones, (Z.mod_small s) by (apply Hs || lia).
  replace (page mod 2 ^ 8) with 0; auto. pose proof (Z_div_mod_eq_full page Page_size) as D. rewrite Hp, Z.add_0_r in D.
  rewrite D. generalize (page / Page_size). intros q. replace (Page_size * q) with (q * 2 ^ 4 * 2 ^ 8) by (change Page_size with 4096; lia).
  symmetry. apply Z_mod_mult.
Qed.

(** ** Probing *)

Section Probing.
(** A table of [2 ^ n] entries. *)
Context (n : Z) (n_ok : 1 <= n <= 64).
Notation N := (2 ^ n).
Definition home (k : Z) : Z := Z.shiftr (wrap 64 (k * HASH_FACTOR)) (64 - n).
Definition pos (k i : Z) : Z := (home k + i) mod N.

Lemma home_range k : 0 <= home k < N.
Proof.
  unfold home. rewrite Z.shiftr_div_pow2 by lia. pose proof (wrap_range 64 (k * HASH_FACTOR) ltac:(lia)).
  split; [apply Z.div_pos; pose proof (pow2_pos (64 - n)); lia|].
  apply Z.div_lt_upper_bound; [pose proof (pow2_pos (64 - n)); lia|]. rewrite <- Z.pow_add_r by lia. now replace (64 - n + n) with 64 by lia.
Qed.
Lemma pos_range k i : 0 <= pos k i < N.
Proof. apply Z.mod_pos_bound, pow2_pos. lia. Qed.
Lemma pos_0 k : pos k 0 = home k.
Proof. unfold pos. rewrite Z.add_0_r. apply Z.mod_small, home_range. Qed.
Lemma pos_next k i : Z.land (pos k i + 1) (N - 1) = pos k (i + 1).
Proof.
  replace (N - 1) with (Z.ones n) by (rewrite Z.ones_equiv; lia). rewrite Z.land_ones by lia.
  unfold pos. rewrite Zplus_mod_idemp_l. f_equal. lia.
Qed.
(** The probes from any home reach every entry. *)
Lemma pos_onto k s : 0 <= s < N -> exists i, 0 <= i < N /\ pos k i = s.
Proof.
  intros Hs. exists ((s - home k) mod N). split; [apply Z.mod_pos_bound, pow2_pos; lia|].
  unfold pos. rewrite Zplus_mod_idemp_r. replace (home k + (s - home k)) with s by lia. apply Z.mod_small; auto.
Qed.

(** The first [i] probes for [k] find other pages. *)
Definition full (m : mem) (k i : Z) : Prop := forall j, 0 <= j < i -> m (pos k j) <> 0 /\ Page (m (pos k j)) <> k.
(** Where a search stops. *)
Definition stop (m : mem) (k i : Z) : Prop := 0 <= i < N /\ full m k i /\ (m (pos k i) = 0 \/ Page (m (pos k i)) = k).
(** Every entry is where a search for its page stops. *)
Definition placed (m : mem) : Prop := forall s, 0 <= s < N -> m s <> 0 ->
  entry_ok (m s) /\ exists i, 0 <= i < N /\ pos (Page (m s)) i = s /\ full m (Page (m s)) i.

Lemma full_S m k i : 0 <= i -> full m k i -> m (pos k i) <> 0 -> Page (m (pos k i)) <> k -> full m k (i + 1).
Proof. clear n_ok. intros Hi F E P j Hj. destruct (Z.eq_dec j i) as [->|]; auto. apply F. lia. Qed.
Lemma full_upd m k i s e : full m k i -> e <> 0 -> Page e <> k -> full m.[s <- e] k i.
Proof. clear n_ok. intros F He P j Hj. unfold upd. destruct (Z.eqb_spec (pos k j) s); auto. Qed.

(** From [i] on, towards an empty entry. *)
Lemma stop_from m k e d : forall i, 0 <= i -> i + Z.of_nat d = e -> e < N -> m (pos k e) = 0 -> full m k i ->
  exists j, i <= j <= e /\ stop m k j.
Proof. clear n_ok.
  induction d as [|d IH]; intros i Hi He Hn E F.
  - replace i with e in * by lia. exists e. unfold stop. split; [lia|]. conj; auto; lia.
  - destruct (Z.eq_dec (m (pos k i)) 0) as [E0|E0]; [exists i; unfold stop; split; [lia|]; conj; auto; lia|].
    destruct (Z.eq_dec (Page (m (pos k i))) k) as [P|P]; [exists i; unfold stop; split; [lia|]; conj; auto; lia|].
    destruct (IH (i + 1)) as (j & H1 & H2); auto using full_S; try lia. exists j. split; auto. lia.
Qed.
Lemma stop_exists m k : (exists s, 0 <= s < N /\ m s = 0) -> exists i, stop m k i.
Proof.
  intros (s & Hs & E). destruct (pos_onto k s Hs) as (e & He & <-).
  destruct (stop_from m k e (Z.to_nat e) 0) as (j & _ & H); eauto; try lia. intros j Hj. lia.
Qed.
(** A stored entry of the page is the one the search finds. *)
Lemma stop_unique m k i s : placed m -> stop m k i -> 0 <= s < N -> m s <> 0 -> Page (m s) = k -> s = pos k i.
Proof. clear n_ok.
  intros Pl (Hi & F & E) Hs Hm <-. destruct (Pl s Hs Hm) as (_ & j & Hj & Ej & Fj).
  destruct (Z.lt_trichotomy i j) as [L|[->|L]]; auto.
  - destruct (Fj i ltac:(lia)) as [? ?]. tauto.
  - destruct (F j ltac:(lia)) as [_ P]. now rewrite Ej in P.
Qed.

Lemma stop_same m k i j : stop m k i -> stop m k j -> i = j.
Proof. clear n_ok.
  intros (Hi & Fi & Ei) (Hj & Fj & Ej). destruct (Z.lt_trichotomy i j) as [L|[->|L]]; auto.
  - destruct (Fj i ltac:(lia)). tauto.
  - destruct (Fi j ltac:(lia)). tauto.
Qed.
(** A search that has not stopped before [i] stops at [e], not before [i]. *)
Lemma full_before m k i e : 0 <= i -> full m k i -> stop m k e -> i <= e.
Proof. clear n_ok. intros Hi F (He & _ & E). destruct (Z_lt_ge_dec e i); [|lia]. destruct (F e ltac:(lia)). tauto. Qed.

(** *** What a table says of a page *)

Definition stored (m : mem) (e : Z) : Prop := e <> 0 /\ exists s, 0 <= s < N /\ m s = e.
Definition kind_of (m : mem) (k v : Z) : Prop :=
  (exists e, stored m e /\ Page e = k /\ v = Z.land e 255) \/ (v = 0 /\ forall e, stored m e -> Page e <> k).

Lemma stored_at m s : 0 <= s < N -> m s <> 0 -> stored m (m s).
Proof. intros. split; eauto. Qed.
Lemma kind_of_stop m k i : placed m -> stop m k i ->
  kind_of m k (if m (pos k i) =? 0 then 0 else Z.land (m (pos k i)) 255).
Proof.
  intros Pl St. destruct (Z.eqb_spec (m (pos k i)) 0) as [E|E].
  - right. split; auto. intros e (He & s & Hs & <-) P. apply He. rewrite (stop_unique m k i s); auto.
  - left. exists (m (pos k i)). destruct St as (_ & _ & [?|P]); [tauto|]. repeat split; eauto using pos_range.
Qed.
Lemma kind_of_unique m k v w : placed m -> (exists i, stop m k i) -> kind_of m k v -> kind_of m k w -> v = w.
Proof. clear n_ok.
  intros Pl [i St] [(e & He & Pe & ->)|(-> & He)] [(f & Hf & Pf & ->)|(-> & Hf)];
    [| exfalso; eapply Hf; eauto | exfalso; eapply He; eauto | auto].
  destruct He as (He & s & Hs & <-), Hf as (Hf & s' & Hs' & <-).
  now rewrite (stop_unique m k i s), (stop_unique m k i s') by auto.
Qed.

(** *** Storing where the search stops *)

Lemma placed_store m k i e : placed m -> stop m k i -> entry_ok e -> Page e = k -> placed m.[pos k i <- e].
Proof. clear n_ok.
  intros Pl St He P s Hs Hm. pose proof (entry_nonzero e He) as N0. destruct St as (Hi & F & E).
  destruct (Z.eq_dec s (pos k i)) as [->|D].
  - rewrite upd_same in *. split; auto. exists i. rewrite P. repeat split; auto; try lia; intros.
    all: destruct (F j H) as [F1 F2]; rewrite upd_other; auto.
    all: intros X; rewrite X in *; tauto.
  - rewrite upd_other in * by auto. destruct (Pl s Hs Hm) as (H1 & j & Hj & Ej & Fj). split; auto. exists j. conj; auto; try lia.
    destruct (Z.eq_dec (Page (m s)) k) as [Q|Q]; [|apply full_upd; auto; congruence].
    exfalso. apply D. rewrite <- Q. apply (stop_unique m (Page (m s)) i s); auto. rewrite Q. unfold stop. tauto.
Qed.
Lemma stored_store m k i e x : placed m -> stop m k i -> e <> 0 -> Page e = k ->
  stored m.[pos k i <- e] x <-> x = e \/ (stored m x /\ Page x <> k).
Proof.
  intros Pl St He P. split.
  - intros (Hx & s & Hs & <-). destruct (Z.eq_dec s (pos k i)) as [->|D]; [left; apply upd_same|].
    rewrite upd_other in * by auto. right. split; [apply stored_at; auto|]. intros Q. apply D. now apply (stop_unique m k i s).
  - intros [->|((Hx & s & Hs & <-) & Q)]; (split; [auto|]).
    + exists (pos k i). split; [apply pos_range | apply upd_same].
    + exists s. split; auto. apply upd_other. intros ->. destruct St as (_ & _ & [?|?]); tauto.
Qed.
End Probing.

(** ** The table *)

Section Table.
Context {Ca : Calloc}.
(** The entries fit in the memory. *)
Class Calloc_ok := calloc_fits : forall n, calloc_ok n = true -> n * 8 < 2 ^ 64.

(** A table whose entries are at their places, at most half full. *)
Record shaped (n : Z) (t : page_table) : Prop := {
  sh_n : 1 <= n <= 60;
  sh_size : size t = 2 ^ n;
  sh_shift : shift t = 64 - n;
  sh_mask : mask t = 2 ^ n - 1;
  sh_placed : placed n (entries t) }.
Record inv (n : Z) (t : page_table) : Prop := {
  inv_shaped : shaped n t;
  inv_used : occupancy t = used (Z.to_nat (2 ^ n)) (entries t);
  inv_half : occupancy t * 2 <= 2 ^ n }.

Lemma pow_even n : 1 <= n -> 2 ^ n = 2 * 2 ^ (n - 1) /\ 1 <= 2 ^ (n - 1).
Proof. intros H. pose proof (pow2_pos (n - 1) ltac:(lia)). rewrite <- Z.pow_succ_r by lia. split; [f_equal|]; lia. Qed.

Section Search.
Context (n : Z) (t : page_table) (S : shaped n t).
Notation m := (entries t).

Lemma pos_in k i : 0 <= pos n k i < 2 ^ n.
Proof. apply pos_range. destruct S; lia. Qed.
Lemma Hash_home k : Hash t k = pos n k 0.
Proof. destruct S as [H1 _ H2 _ _]. rewrite pos_0 by lia. unfold Hash, home. now rewrite H2. Qed.
Lemma next_pos k i : next t (pos n k i) = pos n k (i + 1).
Proof. destruct S as [H1 _ _ H2 _]. unfold next. rewrite H2. apply pos_next. lia. Qed.
Lemma entry_match s a : 0 <= s < 2 ^ n -> page_ok 64 a -> Page_entry_matches (m s) a = negb (m s =? 0) && (Page (m s) =? Page a).
Proof.
  intros Hs Ha. assert (P : 1 <= Page a).
  { rewrite Page_div. apply Z.div_le_lower_bound; unfold page_ok in *; try lia. easy. }
  destruct (Z.eqb_spec (m s) 0) as [E|E]; cbn [negb andb].
  - rewrite E, Page_match by (unfold page_ok in *; change Page_size with 4096 in *; lia). apply Z.eqb_neq. change (Page 0) with 0. lia.
  - destruct (sh_placed n t S s Hs E) as [[_ He] _]. apply Page_match; auto. unfold page_ok in *; change Page_size with 4096 in *. lia.
Qed.

Lemma lookup_loop_stop a e : page_ok 64 a -> stop n m (Page a) e ->
  forall fuel i, 0 <= i -> e - i <= Z.of_nat fuel -> full n m (Page a) i -> Page_entry_matches (m (pos n (Page a) i)) a = false ->
  lookup_loop fuel t a (pos n (Page a) i) (m (pos n (Page a) i)) = Ok (if m (pos n (Page a) e) =? 0 then 0 else Z.land (m (pos n (Page a) e)) 255).
Proof.
  intros Ha St. pose proof pos_in as R.
  assert (Stop : forall i, 0 <= i <= e -> full n m (Page a) i -> m (pos n (Page a) i) = 0 \/ Page (m (pos n (Page a) i)) = Page a -> i = e).
  { intros i Hi F E. apply (stop_same n m (Page a)); auto. destruct St as (He & _). unfold stop. split; [lia | tauto]. }
  induction fuel as [|fuel IH]; intros i Hi Hf F M; cbn [lookup_loop]; rewrite entry_match in M by auto;
    pose proof (full_before n m (Page a) i e Hi F St) as Le.
  - assert (e = i) by lia. subst e. destruct (Z.eqb_spec (m (pos n (Page a) i)) 0) as [E|E]; auto.
    destruct St as (_ & _ & [?|P]); [tauto|]. rewrite P, Z.eqb_refl in M. discriminate.
  - destruct (Z.eqb_spec (m (pos n (Page a) i)) 0) as [E|E]; [rewrite <- (Stop i), E; auto; lia|].
    cbn [negb andb] in M. apply Z.eqb_neq in M. pose proof (full_S n m (Page a) i Hi F E M) as F1.
    pose proof (full_before n m (Page a) (i + 1) e ltac:(lia) F1 St) as Le1.
    rewrite next_pos. destruct (Page_entry_matches _ a) eqn:M1; [|apply IH; auto; lia].
    rewrite entry_match in M1 by auto. apply andb_true_iff in M1 as [M1 M2]. apply Z.eqb_eq in M2.
    assert (X : i + 1 = e) by (apply Stop; auto; lia). subst e. now destruct (m (pos n (Page a) (i + 1)) =? 0).
Qed.
Lemma lookup_stop a e : page_ok 64 a -> stop n m (Page a) e ->
  caml_page_table_lookup t a = Ok (if m (pos n (Page a) e) =? 0 then 0 else Z.land (m (pos n (Page a) e)) 255).
Proof.
  intros Ha St. unfold caml_page_table_lookup. rewrite Hash_home. pose proof (sh_n n t S).
  assert (F : full n m (Page a) 0) by (intros j Hj; lia).
  destruct (Page_entry_matches _ a) eqn:M.
  - rewrite entry_match in M by auto using pos_in. apply andb_true_iff in M as [M1 M2]. apply Z.eqb_eq in M2.
    replace e with 0; [now destruct (m (pos n (Page a) 0) =? 0)|]. apply (stop_same n m (Page a)); auto. unfold stop. split; [|tauto].
    pose proof (pow2_pos n). lia.
  - apply lookup_loop_stop; auto; try lia. rewrite (sh_size n t S). destruct St as (He & _). lia.
Qed.

(** The entry a modification writes. *)
Definition modified (page c s h : Z) : page_table :=
  if m h =? 0 then set_entry h (Z.lor page s) (occupancy t + 1) t else set_entry h (Z.lor (Z.ldiff (m h) c) s) (occupancy t) t.
Lemma modify_loop_stop page c s e : page_ok 64 page -> stop n m (Page page) e ->
  forall fuel i, 0 <= i -> e - i <= Z.of_nat fuel -> full n m (Page page) i ->
  modify_loop fuel page c s (pos n (Page page) i) t = Ok (modified page c s (pos n (Page page) e)).
Proof.
  intros Ha St. pose proof pos_in as R.
  assert (Stop : forall i, 0 <= i <= e -> full n m (Page page) i -> m (pos n (Page page) i) = 0 \/ Page (m (pos n (Page page) i)) = Page page -> i = e).
  { intros i Hi F E. apply (stop_same n m (Page page)); auto. destruct St as (He & _). unfold stop. split; [lia | tauto]. }
  unfold modified. induction fuel as [|fuel IH]; intros i Hi Hf F; cbn [modify_loop]; rewrite entry_match by auto;
    pose proof (full_before n m (Page page) i e Hi F St) as Le;
    (destruct (Z.eqb_spec (m (pos n (Page page) i)) 0) as [E|E]; [rewrite <- (Stop i), E by (auto; lia); auto|]; cbn [negb andb]);
    (destruct (Z.eqb_spec (Page (m (pos n (Page page) i))) (Page page)) as [P|P];
      [rewrite <- (Stop i) by (auto; lia); apply Z.eqb_neq in E; now rewrite E|]);
    pose proof (full_S n m (Page page) i Hi F E P) as F1; pose proof (full_before n m (Page page) (i + 1) e ltac:(lia) F1 St) as Le1.
  - lia.
  - rewrite next_pos. apply IH; auto; lia.
Qed.
Lemma free_slot_stop k e : stop n m k e -> m (pos n k e) = 0 -> (forall x, stored n m x -> Page x <> k) ->
  forall fuel i, 0 <= i <= e -> e - i <= Z.of_nat fuel -> full n m k i -> free_slot fuel t (pos n k i) = Ok (pos n k e).
Proof.
  intros St E0 No. pose proof pos_in as R.
  induction fuel as [|fuel IH]; intros i Hi Hf F; cbn [free_slot];
    (destruct (Z.eqb_spec (m (pos n k i)) 0) as [E|E];
      [do 2 f_equal; apply (stop_same n m k); auto; destruct St; unfold stop; split; [lia | tauto]|]).
  - replace i with e in E by lia. tauto.
  - assert (i <> e) by congruence. rewrite next_pos. apply IH; try lia. apply full_S; auto; try lia. apply No, stored_at; auto.
Qed.
End Search.

(** Storing an entry where its search stops. *)
Lemma shaped_store n t k i e occ : shaped n t -> stop n (entries t) k i -> entry_ok e -> Page e = k ->
  shaped n (set_entry (pos n k i) e occ t).
Proof. intros S St He P. destruct S. split; auto. apply placed_store; auto. Qed.

Lemma used_Zsucc i m : 0 <= i -> used (Z.to_nat (i + 1)) m = used (Z.to_nat i) m + (if m i =? 0 then 0 else 1).
Proof. intros Hi. rewrite Z2Nat.inj_add, Nat.add_1_r by lia. cbn [used]. now rewrite Z2Nat.id by lia. Qed.
Lemma room n t : shaped n t -> used (Z.to_nat (2 ^ n)) (entries t) < 2 ^ n -> exists s, 0 <= s < 2 ^ n /\ entries t s = 0.
Proof.
  intros S H. pose proof (pow2_pos n ltac:(destruct S; lia)).
  destruct (used_empty (Z.to_nat (2 ^ n)) (entries t)) as (s & Hs & E); [lia|]. exists s. split; auto. lia.
Qed.

(** *** Growing *)

Section Rehash.
Context (n : Z) (old : mem) (P : placed n old) (n_ok : 1 <= n <= 59).
Definition moved (i : Z) (t : page_table) : Prop :=
  shaped (n + 1) t /\ used (Z.to_nat (2 ^ (n + 1))) (entries t) = used (Z.to_nat i) old /\
  (forall e, stored (n + 1) (entries t) e <-> e <> 0 /\ exists s, 0 <= s < i /\ old s = e).

Lemma moved_step i t h : 0 <= i < 2 ^ n -> moved i t -> old i <> 0 ->
  (forall x, stored (n + 1) (entries t) x -> Page x <> Page (old i)) ->
  stop (n + 1) (entries t) (Page (old i)) h -> entries t (pos (n + 1) (Page (old i)) h) = 0 ->
  moved (i + 1) (set_entry (pos (n + 1) (Page (old i)) h) (old i) (occupancy t) t).
Proof.
  intros Hi (S & U & M) E No St E0. destruct (P i Hi E) as [He _]. split; [|split].
  - apply shaped_store; auto.
  - pose proof (pos_range (n + 1) ltac:(lia) (Page (old i)) h) as R. rewrite used_Zsucc by lia. apply Z.eqb_neq in E as E'. rewrite E', <- U.
    apply used_add; auto. lia.
  - intros e. cbn [entries set_entry]. rewrite stored_store by first [lia | apply S | auto]. rewrite M. split.
    + intros [->|((H1 & s & H2 & H3) & _)]; (split; [auto|]); [exists i | exists s]; split; auto; lia.
    + intros (H1 & s & H2 & H3). destruct (Z.eq_dec s i) as [->|D]; auto. right.
      assert (X : e <> 0 /\ exists s, 0 <= s < i /\ old s = e) by (split; auto; exists s; split; auto; lia).
      split; auto. apply No, M, X.
Qed.
Lemma rehash_moved : forall c i t, 0 <= i -> i + Z.of_nat c = 2 ^ n -> moved i t ->
  exists t', rehash c old i t = Ok t' /\ moved (2 ^ n) t' /\ occupancy t' = occupancy t.
Proof.
  induction c as [|c IH]; intros i t Hi Hc M; cbn [rehash].
  - exists t. replace (2 ^ n) with i by lia. auto.
  - destruct (Z.eqb_spec (old i) 0) as [E|E].
    { apply IH; try lia. destruct M as (S & U & Mem). split; [auto|]. split.
      - rewrite used_Zsucc, E by lia. cbn. lia.
      - intros e. rewrite Mem. split; intros (H1 & s & H2 & H3); (split; [auto|]); exists s; split; auto; try lia.
        assert (s <> i) by congruence. lia. }
    pose proof M as (S & U & Mem). set (k := Page (old i)).
    assert (No : forall x, stored (n + 1) (entries t) x -> Page x <> k).
    { intros x Hx Px. apply Mem in Hx as (Hx & s & Hs & <-). destruct (P i ltac:(lia) E) as (_ & j & Hj & Ej & Fj).
      assert (s = pos n k j); [|fold k in Ej; lia]. apply (stop_unique n old k j s); auto; try lia. unfold stop.
      fold k in Ej, Fj. rewrite Ej. auto. }
    destruct (stop_exists (n + 1) ltac:(lia) (entries t) k) as [h St].
    { apply room; auto. rewrite U. pose proof (used_bounds (Z.to_nat i) old). pose proof (pow_even (n + 1) ltac:(lia)) as [Q _].
      replace (n + 1 - 1) with n in Q by lia. lia. }
    assert (E0 : entries t (pos (n + 1) k h) = 0).
    { destruct (Z.eq_dec (entries t (pos (n + 1) k h)) 0) as [|Z]; auto. destruct St as (_ & _ & [?|Pk]); auto. exfalso.
      eapply No; [|exact Pk]. apply stored_at; auto. apply pos_range. lia. }
    rewrite (Hash_home (n + 1)) by auto. rewrite (free_slot_stop (n + 1) t S k h) by (auto; try (intros j Hj); destruct St as (? & _); rewrite ?(sh_size _ _ S); lia).
    destruct (IH (i + 1) (set_entry (pos (n + 1) k h) (old i) (occupancy t) t)) as (t' & R & M' & O); try lia.
    { apply moved_step; auto; lia. }
    exists t'. auto.
Qed.
End Rehash.

Lemma pow_S n : 1 <= n -> 2 ^ (n + 1) = 2 * 2 ^ n.
Proof. intros H. rewrite Z.pow_add_r by lia. lia. Qed.
Lemma resize_spec {CO : Calloc_ok} n t : inv n t -> calloc_ok (2 * size t) = true ->
  exists t', caml_page_table_resize t = Ok (Some t') /\ inv (n + 1) t' /\ occupancy t' = occupancy t /\
    (forall e, stored (n + 1) (entries t') e <-> stored n (entries t) e).
Proof.
  intros [S U H] C. pose proof S as [Hn Hs Hh Hm Pl]. pose proof (pow_S n ltac:(lia)) as Q. pose proof (pow2_pos n ltac:(lia)).
  pose proof (calloc_fits _ C) as F. rewrite Hs in F. assert (n <= 59).
  { destruct (Z_le_gt_dec n 59) as [|L]; auto. pose proof (Z.pow_le_mono_r 2 60 n ltac:(lia) ltac:(lia)). lia. }
  unfold caml_page_table_resize. rewrite C. set (t0 := Page_table _ _ _ _ _).
  destruct (rehash_moved n (entries t) Pl ltac:(lia) (Z.to_nat (size t)) 0 t0) as (t' & R & (S' & U' & M) & O); try lia.
  - unfold moved. conj.
    + split; cbn [size shift mask entries t0]; try lia. intros s _ E. easy.
    + apply used_zero.
    + intros e. split; [intros (E & s & _ & <-); easy | intros (_ & s & E & _); lia].
  - rewrite R. exists t'. conj; auto. split; auto; [rewrite U', O; auto | rewrite O; cbn [occupancy t0]; lia].
Qed.

(** ** The interface *)

Lemma Page_pos a : page_ok 64 a -> 1 <= Page a.
Proof. intros [H _]. rewrite Page_div. apply Z.div_le_lower_bound; [easy | lia]. Qed.
Lemma search n t k : inv n t -> exists i, stop n (entries t) k i.
Proof.
  intros [S U H]. apply stop_exists; [destruct S; lia|]. apply room; auto. pose proof (pow2_pos n ltac:(destruct S; lia)). lia.
Qed.
Lemma kind_of_ok n m k v : kind_of n m k v -> kind_ok v.
Proof.
  unfold kind_ok. intros [(e & _ & _ & ->)|[-> _]]; [|lia]. change 255 with (Z.ones 8). rewrite Z.land_ones by lia.
  apply Z.mod_pos_bound. lia.
Qed.
Lemma lookup_kind n t a v : inv n t -> page_ok 64 a -> (caml_page_table_lookup t a = Ok v <-> kind_of n (entries t) (Page a) v).
Proof.
  intros I Ha. pose proof I as [S _ _]. destruct (search n t (Page a) I) as [i St]. rewrite (lookup_stop n t S a i) by auto.
  pose proof (kind_of_stop n ltac:(destruct S; lia) (entries t) (Page a) i (sh_placed n t S) St) as K. split.
  - intros [= <-]. exact K.
  - intros V. f_equal. eapply kind_of_unique; eauto. apply S.
Qed.
Lemma lookup_total n t a : inv n t -> page_ok 64 a -> exists v, caml_page_table_lookup t a = Ok v /\ kind_ok v.
Proof.
  intros I Ha. pose proof I as [S _ _]. destruct (search n t (Page a) I) as [i St]. rewrite (lookup_stop n t S a i) by auto.
  eexists. split; [reflexivity|]. eapply kind_of_ok, (kind_of_stop n ltac:(destruct S; lia)); eauto. apply S.
Qed.
Lemma kind_of_ext n n' m m' k v : (forall e, Page e = k -> stored n m e <-> stored n' m' e) -> kind_of n m k v -> kind_of n' m' k v.
Proof.
  intros H [(e & He & Pe & ->)|(-> & He)]; [left; exists e; split; [apply H; auto | auto] | right; split; auto].
  intros e Se Pe. apply H in Se; auto. eapply He; eauto.
Qed.
Lemma lookup_ext n n' t t' a : inv n t -> inv n' t' -> page_ok 64 a ->
  (forall e, Page e = Page a -> stored n (entries t) e <-> stored n' (entries t') e) -> caml_page_table_lookup t' a = caml_page_table_lookup t a.
Proof.
  intros I I' Ha H. destruct (lookup_total n t a I Ha) as (v & L & _). rewrite L. apply (lookup_kind n'); auto.
  apply (kind_of_ext n n' (entries t)); auto. now apply lookup_kind.
Qed.

Lemma modified_spec n t page c s i : inv n t -> occupancy t * 2 < size t -> page_ok 64 page -> page mod Page_size = 0 -> kind_ok c -> kind_ok s ->
  stop n (entries t) (Page page) i ->
  let t' := modified t page c s (pos n (Page page) i) in
  inv n t' /\ forall a, page_ok 64 a -> caml_page_table_lookup t' a =
    if Page a =? Page page then (let! k := caml_page_table_lookup t a in Ok (Z.lor (Z.ldiff k c) s)) else caml_page_table_lookup t a.
Proof.
  intros I Occ Hp Ha Hc Hs St. pose proof I as [S U H]. pose proof S as [Hn Hsz _ _ Pl]. set (h := pos n (Page page) i).
  assert (R : 0 <= h < 2 ^ n) by (apply pos_range; lia). pose proof (Page_pos page Hp). pose proof (pow_even n ltac:(lia)).
  assert (X : exists e occ, modified t page c s h = set_entry h e occ t /\ entry_ok e /\ Page e = Page page /\
    Z.land e 255 = Z.lor (Z.ldiff (if entries t h =? 0 then 0 else Z.land (entries t h) 255) c) s /\
    occ = used (Z.to_nat (2 ^ n)) (entries t).[h <- e] /\ occ * 2 <= 2 ^ n).
  { unfold modified. destruct (Z.eqb_spec (entries t h) 0) as [E|E].
    - destruct (mark_entry page 0 s) as (M1 & M2 & M3); auto; [unfold entry_ok, page_ok in *; change Page_size with 4096 in *; lia | easy |].
      rewrite Z.ldiff_0_r in *. exists (Z.lor page s), (occupancy t + 1). conj; auto; [now apply page_kind | | lia].
      rewrite used_add by (auto using entry_nonzero; lia). lia.
    - assert (Pk : Page (entries t h) = Page page) by (destruct St as (_ & _ & [?|?]); tauto). destruct (Pl h R E) as [He _].
      destruct (mark_entry (entries t h) c s) as (M1 & M2 & M3); auto.
      exists (Z.lor (Z.ldiff (entries t h) c) s), (occupancy t). conj; auto; [congruence|]. rewrite used_change; auto using entry_nonzero. }
  destruct X as (e & occ & -> & He & Pe & De & Oe & Ho).
  assert (I' : inv n (set_entry h e occ t)) by (split; auto; apply shaped_store; auto).
  pose proof (fun x => stored_store n ltac:(lia) (entries t) (Page page) i e x Pl St (entry_nonzero e He) Pe) as SS.
  split; auto. intros a Oa. destruct (Z.eqb_spec (Page a) (Page page)) as [Q|Q].
  - rewrite (lookup_stop n t S a i) by (auto; now rewrite Q). rewrite Q. fold h. rewrite <- De. apply (lookup_kind n); auto. left. exists e.
    rewrite Q. conj; auto. apply SS. auto.
  - apply (lookup_ext n n); auto. intros x Px. cbn [entries set_entry]. unfold h. rewrite SS. split; [intros; right; split; congruence|].
    intros [->|[? _]]; auto. congruence.
Qed.

Lemma hashed_modify_spec {CO : Calloc_ok} n t page c s : inv n t -> page_ok 64 page -> page mod Page_size = 0 -> kind_ok c -> kind_ok s ->
  exists r, caml_page_table_modify page c s t = Ok r /\ match r with
  | None => size t <= occupancy t * 2 /\ calloc_ok (2 * size t) = false
  | Some t' => (exists n', inv n' t') /\ forall a, page_ok 64 a -> caml_page_table_lookup t' a =
      if Page a =? Page page then (let! k := caml_page_table_lookup t a in Ok (Z.lor (Z.ldiff k c) s)) else caml_page_table_lookup t a
  end.
Proof.
  intros I Hp Ha Hc Hs. unfold caml_page_table_modify.
  assert (G : forall n1 t1, inv n1 t1 -> occupancy t1 * 2 < size t1 -> (forall e, stored n1 (entries t1) e <-> stored n (entries t) e) ->
    exists t', modify_loop (Z.to_nat (size t1)) page c s (Hash t1 (Page page)) t1 = Ok t' /\ (exists n', inv n' t') /\
      forall a, page_ok 64 a -> caml_page_table_lookup t' a =
      if Page a =? Page page then (let! k := caml_page_table_lookup t a in Ok (Z.lor (Z.ldiff k c) s)) else caml_page_table_lookup t a).
  { intros n1 t1 I1 O1 E. pose proof I1 as [S1 _ _]. destruct (search n1 t1 (Page page) I1) as [i St].
    destruct (modified_spec n1 t1 page c s i) as [I' L]; auto. eexists. conj.
    - rewrite (Hash_home n1 t1 S1). apply (modify_loop_stop n1 t1 S1 page c s i); auto; try (intros j Hj; lia); rewrite ?(sh_size n1 t1 S1); destruct St; lia.
    - eauto.
    - intros a Oa. rewrite L by auto. now rewrite (lookup_ext n n1 t t1 a) by (auto; intros; symmetry; auto). }
  pose proof I as [S U H]. pose proof S as [Hn Hsz _ _ _]. pose proof (pow2_pos n ltac:(lia)).
  destruct (Z.leb_spec (size t) (occupancy t * 2)) as [L|L].
  - destruct (calloc_ok (2 * size t)) eqn:C.
    + destruct (resize_spec n t I C) as (t1 & -> & I1 & O1 & E1). destruct (G (n + 1) t1) as (t' & R & V); auto.
      { rewrite O1, (sh_size _ _ (inv_shaped _ _ I1)), pow_S by lia. lia. }
      rewrite R. exists (Some t'). auto.
    + unfold caml_page_table_resize. rewrite C. exists None. auto.
  - destruct (G n t) as (t' & R & V); auto; [reflexivity|]. rewrite R. exists (Some t'). auto.
Qed.

(** ** The first table *)

Lemma grow_size_spec pagesize : 1 <= pagesize -> forall d n, 0 <= n -> 2 * pagesize <= 2 ^ (n + Z.of_nat d) ->
  (2 ^ n < 4 * pagesize) ->
  exists n', grow_size d pagesize (2 ^ n) (64 - n) = Ok (2 ^ n', 64 - n') /\ n <= n' /\ 2 * pagesize <= 2 ^ n' < 4 * pagesize.
Proof.
  intros Hp. induction d as [|d IH]; intros n Hn Hd H; cbn [grow_size]; destruct (Z.ltb_spec (2 ^ n) (2 * pagesize)) as [L|L].
  - rewrite Z.add_0_r in Hd. lia.
  - exists n. split; auto; lia.
  - destruct (IH (n + 1)) as (n' & R & B); [lia | | rewrite Z.pow_add_r by lia; lia |].
    + now replace (n + 1 + Z.of_nat d) with (n + Z.of_nat (Datatypes.S d)) by lia.
    + exists n'. split; [|lia]. rewrite <- R, Z.shiftl_mul_pow2 by lia. f_equal; [rewrite Z.pow_add_r by lia |]; lia.
  - exists n. split; auto; lia.
Qed.
Lemma initialize_spec {CO : Calloc_ok} b : page_ok 64 b ->
  exists r, caml_page_table_initialize b = Ok r /\ match r with
  | None => True
  | Some t => (exists n, inv n t) /\ 2 * Page b <= size t < 4 * Page b /\ forall a, page_ok 64 a -> caml_page_table_lookup t a = Ok 0
  end.
Proof.
  intros Hb. pose proof (Page_pos b Hb). assert (Page b < 2 ^ 52).
  { rewrite Page_div. apply Z.div_lt_upper_bound; [easy|]. apply Hb. }
  unfold caml_page_table_initialize. destruct (grow_size_spec (Page b) ltac:(lia) 64 0) as (n & R & Hn & B); [lia | | lia |].
  { apply Z.le_trans with (2 ^ 53); [lia|]. apply Z.pow_le_mono_r; lia. }
  change (2 ^ 0) with 1 in R. change (64 - 0) with 64 in R. rewrite R. eexists. split; [reflexivity|].
  destruct (calloc_ok (2 ^ n)) eqn:C; auto. apply calloc_fits in C.
  assert (n <= 60) by (destruct (Z_le_gt_dec n 60) as [|L]; auto; pose proof (Z.pow_le_mono_r 2 61 n ltac:(lia) ltac:(lia)); lia).
  assert (n <> 0) by (intros ->; rewrite Z.pow_0_r in B; lia).
  assert (I : inv n (Page_table (2 ^ n) (64 - n) (2 ^ n - 1) 0 (fun _ => 0))).
  { split; [split; cbn; auto; try lia; intros s _ E; easy | symmetry; apply used_zero | cbn; lia]. }
  conj; eauto; try apply B. intros a Ha. apply (lookup_kind n); auto. right. split; auto. intros e (He & s & _ & Es). now destruct He.
Qed.
End Table.
End HashedProof.

#[export] Instance hashed_table {Ca : Calloc} : Pages Hashed.page_table := {
  bits := 64;
  valid t := exists n, HashedProof.inv n t;
  classify := Hashed.caml_page_table_lookup;
  modify := Hashed.caml_page_table_modify }.
#[export] Instance hashed_table_ok {Ca : Calloc} {CO : HashedProof.Calloc_ok} : Pages_ok Hashed.page_table.
Proof.
  split; [easy | |].
  - intros t a [n I]. apply (HashedProof.lookup_total n); auto.
  - intros t page c s [n I] Hp Ha Hc Hs. destruct (HashedProof.hashed_modify_spec n t page c s) as (r & R & H); auto.
    exists r. split; auto. destruct r; auto. destruct H as [V L]. split; auto. intros a Oa. rewrite <- !HashedProof.Page_div. auto.
Qed.

(** ** 32 bits *)

Module PagedProof.
Import Paged.
Section PagedProof.
Context {Ca : Calloc}.

Definition bytes (t : page_table_32) : Prop := forall i u, t i = Some u -> forall j, kind_ok (u j).
Lemma Classify_ok t a : bytes t -> kind_ok (Classify_addr t a).
Proof. intros B. unfold Classify_addr. destruct (t _) eqn:E; [eauto | easy]. Qed.
Lemma index_page a b : Pagetable_index1 a = Pagetable_index1 b /\ Pagetable_index2 a = Pagetable_index2 b <-> a / Page_size = b / Page_size.
Proof.
  unfold Pagetable_index1, Pagetable_index2. change (Pagetable2_size - 1) with (Z.ones 11). rewrite !Z.land_ones by lia.
  rewrite !Z.shiftr_div_pow2 by easy. change (2 ^ Pagetable1_log) with (Page_size * 2 ^ 11). change (2 ^ Page_log) with Page_size.
  rewrite <- !Z.div_div by easy. generalize (a / Page_size), (b / Page_size). intros x y. split; [|intros ->; auto].
  intros [H1 H2]. rewrite (Z_div_mod_eq_full x (2 ^ 11)), (Z_div_mod_eq_full y (2 ^ 11)). now rewrite H1, H2.
Qed.
Lemma mark_kind k c s : kind_ok k -> kind_ok c -> kind_ok s -> wrap 8 (Z.lor (Z.ldiff k c) s) = Z.lor (Z.ldiff k c) s /\ kind_ok (Z.lor (Z.ldiff k c) s).
Proof.
  intros Hk Hc Hs. assert (E : wrap 8 (Z.lor (Z.ldiff k c) s) = Z.lor (Z.ldiff k c) s).
  { apply Z.bits_inj'. intros i Hi. unfold wrap. destruct (Z_lt_ge_dec i 8).
    - now rewrite Z.mod_pow2_bits_low by lia.
    - rewrite Z.mod_pow2_bits_high, Z.lor_spec, Z.ldiff_spec, !HashedProof.kind_bits by (auto; lia). reflexivity. }
  split; auto. rewrite <- E. apply (wrap_range 8). lia.
Qed.
Lemma paged_modify_spec t page c s : bytes t -> kind_ok c -> kind_ok s ->
  match caml_page_table_modify_32 page c s t with
  | None => True
  | Some t' => bytes t' /\ forall a, Classify_addr t' a =
      if a / Page_size =? page / Page_size then Z.lor (Z.ldiff (Classify_addr t a) c) s else Classify_addr t a
  end.
Proof.
  intros B Hc Hs. unfold caml_page_table_modify_32. set (i := Pagetable_index1 page). set (j := Pagetable_index2 page).
  assert (G : forall u, (forall x, kind_ok (u x)) -> (forall a, Pagetable_index1 a = i -> Classify_addr t a = u (Pagetable_index2 a)) ->
    let t' := fun x => if x =? i then Some (u.[j <- wrap 8 (Z.lor (Z.ldiff (u j) c) s)]) else t x in
    bytes t' /\ forall a, Classify_addr t' a =
      if a / Page_size =? page / Page_size then Z.lor (Z.ldiff (Classify_addr t a) c) s else Classify_addr t a).
  { intros u Hu E t'. destruct (mark_kind (u j) c s) as [W K]; auto. split.
    - intros x v. unfold t'. destruct (x =? i); [intros [= <-] y | apply B]. unfold upd. destruct (y =? j); [rewrite W|]; auto.
    - intros a. pose proof (index_page a page) as X. unfold Classify_addr at 1. unfold t'.
      destruct (Z.eqb_spec (Pagetable_index1 a) i) as [E1|E1].
      + unfold upd. destruct (Z.eqb_spec (Pagetable_index2 a) j) as [E2|E2]; destruct (Z.eqb_spec (a / Page_size) (page / Page_size)) as [Q|Q];
          rewrite E by auto; try tauto. now rewrite W, E2.
      + destruct (Z.eqb_spec (a / Page_size) (page / Page_size)); [tauto | reflexivity]. }
  assert (C : forall a, Pagetable_index1 a = i -> Classify_addr t a = match t i with None => 0 | Some u => u (Pagetable_index2 a) end)
    by (intros a <-; reflexivity).
  destruct (t i) eqn:E; [|destruct (calloc_ok _); auto]; apply G; eauto. easy.
Qed.
End PagedProof.
End PagedProof.

#[export] Instance paged_table {Ca : Calloc} : Pages Paged.page_table_32 := {
  bits := 32;
  valid := PagedProof.bytes;
  classify t a := Ok (Paged.Classify_addr t a);
  modify page c s t := Ok (Paged.caml_page_table_modify_32 page c s t) }.
#[export] Instance paged_table_ok {Ca : Calloc} : Pages_ok Paged.page_table_32.
Proof.
  split; [easy | |].
  - intros t a B _. eexists. split; [reflexivity|]. now apply PagedProof.Classify_ok.
  - intros t page c s B _ _ Hc Hs. eexists. split; [reflexivity|]. pose proof (PagedProof.paged_modify_spec t page c s B Hc Hs) as H.
    destruct (Paged.caml_page_table_modify_32 page c s t); auto. destruct H as [V L]. split; auto. intros a _. cbn. rewrite L.
    now destruct (_ =? _).
Qed.

(** ** Ranges *)

Section Ranges.
Context {T : Type} {P : Pages T} {O : Pages_ok T}.

(** Whether the page of [a] is one of those from [lo] to [hi]. *)
Definition between (lo hi a : Z) : bool := (lo <=? a / Page_size) && (a / Page_size <=? hi).
(** [t'] is [t] with the bits [c] cleared and [s] set in the kinds of some pages. *)
Definition marked (sel : Z -> bool) (c s : Z) (t t' : T) : Prop := forall a, page_ok bits a ->
  classify t' a = if sel a then (let! k := classify t a in Ok (Z.lor (Z.ldiff k c) s)) else classify t a.

Lemma modify_pages_spec c s e : kind_ok c -> kind_ok s -> (e + 1) * Page_size < 2 ^ bits ->
  forall fuel q t, valid t -> 1 <= q <= e + 1 -> e + 1 <= q + Z.of_nat fuel ->
  exists ok t', modify_pages fuel (q * Page_size) (e * Page_size) c s t = Ok (ok, t') /\ valid t' /\ (ok = true -> marked (between q e) c s t t').
Proof.
  intros Hc Hs He. assert (PS : 0 < Page_size) by easy.
  assert (End : forall t : T, valid t -> marked (between (e + 1) e) c s t t).
  { intros t V a Oa. unfold between. destruct (Z.leb_spec (e + 1) (a / Page_size)), (Z.leb_spec (a / Page_size) e); try reflexivity; lia. }
  induction fuel as [|fuel IH]; intros q t V Hq Hf; cbn [modify_pages]; destruct (Z.leb_spec (q * Page_size) (e * Page_size)) as [L|L].
  - nia.
  - replace q with (e + 1) by nia. exists true, t. auto.
  - assert (q <= e) by nia.
    destruct (modify_ok t (q * Page_size) c s) as (r & -> & K); auto; [unfold page_ok; nia | apply Z_mod_mult |].
    destruct r as [t1|]; [|exists false, t; conj; auto; discriminate]. destruct K as [V1 M1]. rewrite wrap_small by (split; [|apply Z.le_lt_trans with ((e + 1) * Page_size)]; nia).
    replace (q * Page_size + Page_size) with ((q + 1) * Page_size) by ring. destruct (IH (q + 1) t1) as (ok & t' & -> & V' & M'); auto; try lia.
    exists ok, t'. conj; auto. intros Eok a Oa. rewrite (M' Eok), M1, Z.div_mul by (auto; lia). unfold between.
    destruct (Z.leb_spec (q + 1) (a / Page_size)), (Z.leb_spec q (a / Page_size)), (Z.leb_spec (a / Page_size) e), (Z.eqb_spec (a / Page_size) q);
      try lia; reflexivity.
  - replace q with (e + 1) by nia. exists true, t. auto.
Qed.

Lemma page_start_div a : 0 <= a < 2 ^ bits -> page_start a = a / Page_size * Page_size.
Proof.
  intros Ha. unfold page_start, Page_mask, wrap. pose proof bits_ok. assert (L : 0 <= Page_log) by easy.
  change Page_size with (2 ^ Page_log). rewrite <- Z.shiftr_div_pow2, <- Z.shiftl_mul_pow2 by lia.
  apply Z.bits_inj'. intros i Hi. rewrite Z.land_spec. destruct (Z_lt_ge_dec i bits) as [B|B].
  - rewrite Z.mod_pow2_bits_low by lia. destruct (Z_lt_ge_dec i Page_log).
    + now rewrite !Z.shiftl_spec_low, andb_false_r by lia.
    + rewrite !Z.shiftl_spec, Z.bits_m1, Z.shiftr_spec, andb_true_r by lia. f_equal. lia.
  - rewrite <- (Z.mod_small a (2 ^ bits)) at 1 by lia. rewrite !Z.mod_pow2_bits_high by lia.
    rewrite Z.shiftl_spec, Z.shiftr_spec by lia. rewrite <- (Z.mod_small a (2 ^ bits)), Z.mod_pow2_bits_high; auto; lia.
Qed.

(** A range of addresses that leaves out the first page and the last one. *)
Definition range_ok (start end_ : Z) : Prop := Page_size <= start < end_ /\ end_ + Page_size <= 2 ^ bits.
Lemma pages_spec c s start end_ fuel t : valid t -> kind_ok c -> kind_ok s -> range_ok start end_ -> end_ - start <= Z.of_nat fuel ->
  exists ok t', modify_pages fuel (page_start start) (page_start (wrap bits (end_ - 1))) c s t = Ok (ok, t') /\ valid t' /\
    (ok = true -> marked (between (start / Page_size) ((end_ - 1) / Page_size)) c s t t').
Proof.
  intros V Hc Hs [R1 R2] F. assert (PS : 0 < Page_size) by easy. assert (P2 : 1 < Page_size) by easy. rewrite !page_start_div, wrap_small by (rewrite ?wrap_small; lia).
  pose proof (Z_div_mod_eq_full (end_ - 1) Page_size). pose proof (Z.mod_pos_bound (end_ - 1) Page_size PS).
  pose proof (Z_div_mod_eq_full start Page_size). pose proof (Z.mod_pos_bound start Page_size PS).
  assert (start / Page_size <= (end_ - 1) / Page_size) by (apply Z.div_le_mono; lia).
  assert (1 <= start / Page_size) by (apply Z.div_le_lower_bound; lia).
  apply modify_pages_spec; auto; [|lia|nia].
  assert (D : 2 ^ bits = 2 ^ (bits - Page_log) * Page_size) by (pose proof bits_ok; change Page_size with (2 ^ Page_log); rewrite <- Z.pow_add_r by (unfold Page_log in *; lia); f_equal; lia).
  nia.
Qed.
End Ranges.

(** ** What the page table promises *)

(** A list of modifications: pages, bits to clear and bits to set. *)
Fixpoint modify_all {T} {P : Pages T} (l : list (Z * Z * Z)) (t : T) : res (option T) :=
  match l with
  | [] => Ok (Some t)
  | (page, c, s) :: l => let! r := modify page c s t in match r with None => Ok None | Some t => modify_all l t end
  end.
(** The reference: the kind of a page is what the modifications of this page leave. *)
Fixpoint kind_after (l : list (Z * Z * Z)) (a k : Z) : Z :=
  match l with
  | [] => k
  | (page, c, s) :: l => kind_after l a (if a / Page_size =? page / Page_size then Z.lor (Z.ldiff k c) s else k)
  end.
Definition modification_ok (w : Z) (x : Z * Z * Z) : Prop :=
  let '(page, c, s) := x in page_ok w page /\ page mod Page_size = 0 /\ kind_ok c /\ kind_ok s.
Lemma modify_all_spec {T} {P : Pages T} {O : Pages_ok T} l : Forall (modification_ok bits) l -> forall t (k : Z -> Z),
  valid t -> (forall a, page_ok bits a -> classify t a = Ok (k a)) ->
  exists r, modify_all l t = Ok r /\ match r with
  | None => True
  | Some t' => valid t' /\ forall a, page_ok bits a -> classify t' a = Ok (kind_after l a (k a))
  end.
Proof.
  induction 1 as [|x l Hx F IH]; intros t k V K; [exists (Some t); auto|]. destruct x as [[page c] s], Hx as (Hp & Ha & Hc & Hs). cbn [modify_all kind_after].
  destruct (modify_ok t page c s V Hp Ha Hc Hs) as (r & -> & H). destruct r as [t1|]; [|exists None; auto]. destruct H as [V1 M1].
  apply (IH t1 (fun a => if a / Page_size =? page / Page_size then Z.lor (Z.ldiff (k a) c) s else k a)); auto.
  intros a Oa. rewrite M1, K by auto. now destruct (_ =? _).
Qed.

(** [malloc] refuses tables that do not fit in the memory. *)
#[local] Instance calloc_example : Calloc := fun n => n <? 1000.
#[local] Instance calloc_example_ok : HashedProof.Calloc_ok.
Proof. intros n H. apply Z.ltb_lt in H. lia. Qed.
(** The table created for two pages, after modifications. *)
Definition table_after (l : list (Z * Z * Z)) : res (option Hashed.page_table) :=
  let! r := Hashed.caml_page_table_initialize (2 * Page_size) in match r with None => Ok None | Some t => modify_all l t end.

(** C38. The page table of the 64-bit machines is a map from pages to kinds: whatever the
    modifications done since it was created, in any order and through any number of
    collisions and growths, a lookup stops and finds the kind that the modifications
    of this page leave, and 0 for a page never added. The hash table can only fail
    when calloc does. *)
Theorem hashed_page_table_refines {Ca : Calloc} {CO : HashedProof.Calloc_ok} b l :
  page_ok 64 b -> Forall (modification_ok 64) l ->
  exists r, Hashed.caml_page_table_initialize b = Ok r /\ match r with
  | None => True
  | Some t => exists r', modify_all l t = Ok r' /\ match r' with
    | None => True
    | Some t' => forall a, page_ok 64 a -> Hashed.caml_page_table_lookup t' a = Ok (kind_after l a 0)
    end
  end.
Proof.
  intros Hb Hl. destruct (HashedProof.initialize_spec b Hb) as (r & -> & H). exists r. split; auto. destruct r as [t|]; auto.
  destruct H as (V & _ & L). destruct (modify_all_spec (P := hashed_table) l Hl t (fun _ => 0) V L) as (r' & R & H'). exists r'. split; auto.
  destruct r'; tauto.
Qed.
Definition example_modifications : list (Z * Z * Z) :=
  [(0x1000, 0, 1); (0x7000, 0, 4); (0x5000, 0, 2); (0x1000, 0, 4); (0x9000, 0, 1); (0x7000, 4, 0)].
Lemma hashed_page_table_refines_witness :
  (exists r, Hashed.caml_page_table_initialize 0x2000 = Ok r /\ match r with
  | None => True
  | Some t => exists r', modify_all example_modifications t = Ok r' /\ match r' with
    | None => True
    | Some t' => forall a, page_ok 64 a -> Hashed.caml_page_table_lookup t' a = Ok (kind_after example_modifications a 0)
    end
  end) /\
  match table_after example_modifications with
  | Ok (Some t) => Hashed.size t = 16 /\ map (Hashed.caml_page_table_lookup t) [0x1ff8; 0x2000; 0x5000; 0x7010; 0x9000] = [Ok 5; Ok 0; Ok 2; Ok 0; Ok 1]
  | _ => False
  end.
Proof.
  split; [|vm_compute; repeat split]. apply hashed_page_table_refines; [easy|]. unfold example_modifications.
  repeat (constructor; [repeat split; easy|]). constructor.
Defined.

(** C39. Adding a range of addresses sets the bits of the kind on every page the range
    touches and on no other page, and removing it clears them, on 32-bit and
    on 64-bit machines: the proof is against the interface of the page table. Both loops
    end as long as the range leaves out the last page of the memory; they stop early
    only when there is no memory left. *)
Theorem page_table_ranges {T : Type} {P : Pages T} {O : Pages_ok T} kind start end_ fuel (t : T) :
  valid t -> kind_ok kind -> range_ok start end_ -> end_ - start <= Z.of_nat fuel ->
  (exists ok t', caml_page_table_add fuel kind start end_ t = Ok (ok, t') /\ valid t' /\
     (ok = true -> forall a, page_ok bits a -> exists k, classify t a = Ok k /\
       classify t' a = Ok (if between (start / Page_size) ((end_ - 1) / Page_size) a then Z.lor k kind else k))) /\
  (exists ok t', caml_page_table_remove fuel kind start end_ t = Ok (ok, t') /\ valid t' /\
     (ok = true -> forall a, page_ok bits a -> exists k, classify t a = Ok k /\
       classify t' a = Ok (if between (start / Page_size) ((end_ - 1) / Page_size) a then Z.ldiff k kind else k))).
Proof.
  intros V Hk R F.
  assert (G : forall c s (f : Z -> Z), kind_ok c -> kind_ok s -> (forall k, Z.lor (Z.ldiff k c) s = f k) ->
    exists ok t', modify_pages fuel (page_start start) (page_start (wrap bits (end_ - 1))) c s t = Ok (ok, t') /\ valid t' /\
      (ok = true -> forall a, page_ok bits a -> exists k, classify t a = Ok k /\
        classify t' a = Ok (if between (start / Page_size) ((end_ - 1) / Page_size) a then f k else k))).
  { intros c s f Hc Hs E. destruct (pages_spec c s start end_ fuel t) as (ok & t' & -> & V' & M); auto. exists ok, t'. conj; auto. intros Eok a Oa. destruct (classify_ok t a V Oa) as (k & K & _).
    exists k. split; auto. rewrite (M Eok), K by auto. rewrite E. now destruct (between _ _ a). }
  split; apply G; auto; try easy; intros k; [now rewrite Z.ldiff_0_r | now rewrite Z.lor_0_r].
Qed.
Lemma page_table_ranges_witness :
  let t : Paged.page_table_32 := Paged.caml_page_table_initialize_32 in
  exists ok t', caml_page_table_add 20000 In_heap 0x12345678 0x12348001 t = Ok (ok, t') /\ valid t' /\
   (ok = true -> forall a, page_ok bits a -> exists k, classify t a = Ok k /\
       classify t' a = Ok (if between (0x12345678 / Page_size) ((0x12348001 - 1) / Page_size) a then Z.lor k In_heap else k)).
Proof.
  apply (page_table_ranges In_heap 0x12345678 0x12348001 20000 Paged.caml_page_table_initialize_32); try easy.
Defined.
