(* ===== verification/AllocShr.v ===== *)
(** AllocShr: allocation in the major heap and its growth, src/inline-more/byterun/
    memory.c ([caml_alloc_shr], [expand_heap], [caml_add_to_heap], [caml_shrink_heap])
    with the sizes of chunks of major_gc.c and the aligned allocation of misc.c, over
    the free list of Freelist and a page table. *)
From Stdlib Require Import ZArith Lia List Bool.
From S2P Require Import Prelude Mlvalues Gc Freelist PageTable.
Import ListNotations.
Local Open Scope Z_scope.

(** The C library: where [malloc] puts that many bytes, if it finds room; it can look at
    all of the memory, where it keeps its own state. *)
Class Malloc := malloc : mem -> Z -> option Z.
(** Parameters of the collector: words, and a percentage. *)
Class Gc_params := { caml_major_heap_increment : Z; caml_percent_free : Z; caml_minor_heap_size : Z }.

Section AllocShr.
Context {A : Arch} {Sn : Sentinel} {Ma : Malloc} {Gp : Gc_params} {T : Type} {P : Pages T}.

(** ** Chunks *)

(** A [heap_chunk_head] is before each chunk: [block], [alloc], [size] and [next]. *)
Definition sizeof_heap_chunk_head : Z := Bsize_wsize 4.
Definition Chunk_block (c : Z) : Z := c - Bsize_wsize 4.
Definition Chunk_size (c : Z) : Z := c - Bsize_wsize 2.
Definition Chunk_next (c : Z) : Z := c - Bsize_wsize 1.

Definition Heap_chunk_min : Z := 2 * Page_size / sizeof_value.
Definition clip_heap_chunk_size (request : Z) : Z :=
  let request := if request <? Bsize_wsize Heap_chunk_min then Bsize_wsize Heap_chunk_min else request in
  Z.shiftl (Z.shiftr (wrap WORD (request + Page_size - 1)) Page_log) Page_log.
Definition caml_round_heap_chunk_size (request : Z) : res Z :=
  let result := if request <? caml_major_heap_increment then caml_major_heap_increment else request in
  let result := clip_heap_chunk_size result in
  if result <? request then Raise Out_of_memory else Ok result.

(** The aligned address and the block to free. *)
Definition caml_aligned_malloc (size modulo : Z) (m : mem) : option (Z * Z) :=
  match malloc m (wrap WORD (size + Page_size)) with
  | None => None
  | Some block => Some ((wrap WORD (block + modulo) / Page_size + 1) * Page_size - modulo, block)
  end.
Definition caml_alloc_for_heap (request : Z) (m : mem) : option (Z * mem) :=
  match caml_aligned_malloc (request + sizeof_heap_chunk_head) sizeof_heap_chunk_head m with
  | None => None
  | Some (c, block) =>
      let c := c + sizeof_heap_chunk_head in Some (c, m.[Chunk_size c <- request].[Chunk_block c <- block])
  end.

(** ** The heap *)

Record major_heap := Major_heap {
  free_blocks : free_list; heap_start : Z; page_kinds : T; caml_stat_heap_size : Z; caml_stat_top_heap_size : Z; caml_stat_heap_chunks : Z;
  caml_allocated_words : Z; phase : Z; sweep_hp : Z; caml_force_major_slice : bool }.
Definition set_free f (h : major_heap) := Major_heap f (heap_start h) (page_kinds h) (caml_stat_heap_size h) (caml_stat_top_heap_size h)
  (caml_stat_heap_chunks h) (caml_allocated_words h) (phase h) (sweep_hp h) (caml_force_major_slice h).
Definition set_chunks start pages size top n (h : major_heap) := Major_heap (free_blocks h) start pages size top
  n (caml_allocated_words h) (phase h) (sweep_hp h) (caml_force_major_slice h).
Definition set_pages t (h : major_heap) := set_chunks (heap_start h) t (caml_stat_heap_size h) (caml_stat_top_heap_size h) (caml_stat_heap_chunks h) h.
Definition set_allocated n force (h : major_heap) := Major_heap (free_blocks h) (heap_start h) (page_kinds h) (caml_stat_heap_size h) (caml_stat_top_heap_size h)
  (caml_stat_heap_chunks h) n (phase h) (sweep_hp h) force.

(** The first chunk that is not before [c], and the chunk before it, 0 at the start. *)
Fixpoint chunk_place (fuel : nat) (m : mem) (c last cur : Z) : res (Z * Z) :=
  if negb (cur =? 0) && (cur <? c) then
    match fuel with O => Stuck | S fuel => chunk_place fuel m c cur (m (Chunk_next cur)) end
  else Ok (last, cur).
(** [false] when the C function returns -1. *)
Definition caml_add_to_heap (fuel : nat) (c : Z) (m : mem) (h : major_heap) : res (bool * mem * major_heap) :=
  let size := m (Chunk_size c) in
  let! (ok, t) := caml_page_table_add fuel In_heap c (c + size) (page_kinds h) in
  if negb ok then Ok (false, m, set_pages t h)
  else
      let! (last, cur) := chunk_place fuel m c 0 (heap_start h) in
      let m := m.[Chunk_next c <- cur] in
      let '(start, m) := if last =? 0 then (c, m) else (heap_start h, m.[Chunk_next last <- c]) in
      let total := caml_stat_heap_size h + size in
      Ok (true, m, set_chunks start t total (if caml_stat_top_heap_size h <? total then total else caml_stat_top_heap_size h) (caml_stat_heap_chunks h + 1) h).

(** The blocks of the largest size at the start of a new chunk [c]: the rest of it and
    its size, and the last block. *)
Fixpoint large_blocks (fuel : nat) (c prev hp remain : Z) (m : mem) : res (Z * Z * Z * mem) :=
  if Max_wosize <? Wosize_bhsize remain then
    match fuel with
    | O => Stuck
    | S fuel =>
        let m := m.[hp <- Make_header Max_wosize 0 Caml_blue] in
        let hp := hp + Bhsize_wosize Max_wosize in
        let remain := remain - Bhsize_wosize Max_wosize in
        let m := m.[Val_hp prev <- Val_hp hp].[Val_hp c + Bsize_wsize 1 <- Val_hp hp] in
        large_blocks fuel c hp hp remain m
    end
  else Ok (prev, hp, remain, m).
(** 0 stands for NULL. *)
Definition expand_heap (fuel : nat) (request : Z) (m : mem) (h : major_heap) : res (Z * mem * major_heap) :=
  let over_request := wrap WORD (request + request / 100 * caml_percent_free) in
  let! malloc_request := caml_round_heap_chunk_size (wrap WORD (Bhsize_wosize over_request)) in
  match caml_alloc_for_heap malloc_request m with
  | None => Ok (0, m, h)
  | Some (c, m) =>
      let! (prev, hp, remain, m) := large_blocks fuel c c c malloc_request m in
      let m :=
        if 1 <? remain then
          let m := m.[hp <- Make_header (Wosize_bhsize remain) 0 Caml_blue] in
          m.[Val_hp prev <- Val_hp hp].[Val_hp c + Bsize_wsize 1 <- Val_hp hp].[Val_hp hp <- 0]
        else
          let m := m.[Val_hp prev <- 0] in
          if remain =? 1 then m.[hp <- Make_header 0 0 Caml_white] else m in
      let! (ok, m, h) := caml_add_to_heap fuel c m h in
      Ok (if (ok : bool) then Val_hp c else 0, m, h)
  end.

(** The chunk before [c]. *)
Fixpoint chunk_before (fuel : nat) (m : mem) (c last cur : Z) : res Z :=
  if cur =? c then Ok last
  else match fuel with O => Stuck | S fuel => chunk_before fuel m c cur (m (Chunk_next cur)) end.
Definition caml_shrink_heap (fuel : nat) (c : Z) (m : mem) (h : major_heap) : res (mem * major_heap) :=
  if c =? heap_start h then Ok (m, h)
  else
    let size := m (Chunk_size c) in
    let! last := chunk_before fuel m c 0 (heap_start h) in
    let m := m.[Chunk_next last <- m (Chunk_next c)] in
    let! (_, t) := caml_page_table_remove fuel In_heap c (c + size) (page_kinds h) in
    Ok (m, set_chunks (heap_start h) t (caml_stat_heap_size h - size) (caml_stat_top_heap_size h)
      (caml_stat_heap_chunks h - 1) h).

(** ** Allocation *)

Definition caml_allocation_color (hp : Z) (h : major_heap) : Z :=
  if (phase h =? Phase_mark) || ((phase h =? Phase_sweep) && (sweep_hp h <=? hp)) then Caml_black else Caml_white.
Definition finish_alloc (wosize tag hp : Z) (m : mem) (h : major_heap) : Z * mem * major_heap :=
  let m := m.[hp <- Make_header wosize tag (caml_allocation_color hp h)] in
  let words := caml_allocated_words h + Whsize_wosize wosize in
  (Val_hp hp, m, set_allocated words (caml_force_major_slice h || (Wsize_bsize caml_minor_heap_size <? words)) h).
Definition caml_alloc_shr (fuel : nat) (wosize tag : Z) (m : mem) (h : major_heap) : res (Z * mem * major_heap) :=
  if Max_wosize <? wosize then Raise Out_of_memory
  else
    let! (hp, m, f) := caml_fl_allocate fuel wosize m (free_blocks h) in
    let h := set_free f h in
    if hp =? 0 then
      let! (new_block, m, h) := expand_heap fuel wosize m h in
      if new_block =? 0 then Raise Out_of_memory
      else
        let! (m, f) := caml_fl_add_blocks fuel (sweep_hp h) new_block m (free_blocks h) in
        let! (hp, m, f) := caml_fl_allocate fuel wosize m f in
        Ok (finish_alloc wosize tag hp m (set_free f h))
    else Ok (finish_alloc wosize tag hp m h).
End AllocShr.
