(* ===== verification/Minor.v ===== *)
(** Minor: the minor collector, src/inline-more/byterun/minor_gc.c, with the roots it
    scans (roots.c, finalise.c).

    As in Gc, memory is a map from the byte addresses of words to words. A root is a
    location, the address of the word that holds the value. The allocation of the
    copies is an interface, [Shared_heap]. *)
From Stdlib Require Import ZArith Lia List Bool.
From S2P Require Import Prelude Mlvalues Gc.
Import ListNotations.
Local Open Scope Z_scope.

(** [caml_alloc_shr (wosize, tag)]: the block, the memory and the state of the heap; it
    raises [Out_of_memory] where [caml_fatal_error] ends the program. *)
Class Shared_heap (H : Type) := caml_alloc_shr : Z -> Z -> mem -> H -> res (Z * mem * H).

(** The minor heap. *)
Class Young_heap := { caml_young_start : Z; caml_young_end : Z }.

(** The variables of minor_gc.c; the tables are the parts from [base] to [ptr]. *)
Record minor (H : Type) := Minor {
  words : mem; shared : H; oldify_todo_list : Z; caml_young_ptr : Z; caml_young_limit : Z;
  caml_ref_table : list Z; caml_weak_ref_table : list Z; caml_stat_minor_words : Z; final_old : Z }.
Arguments Minor {H}.
Arguments words {H}.
Arguments shared {H}.
Arguments oldify_todo_list {H}.
Arguments caml_young_ptr {H}.
Arguments caml_young_limit {H}.
Arguments caml_ref_table {H}.
Arguments caml_weak_ref_table {H}.
Arguments caml_stat_minor_words {H}.
Arguments final_old {H}.

(** The locations that hold roots: the stack, the tables of local roots with their
    common number of items, the global roots that may be young, the finalisation table,
    and those of the hook. *)
Record minor_roots := Minor_roots {
  caml_extern_sp : Z; caml_stack_high : Z; local_roots : list (Z * list Z); caml_global_roots_young : list Z;
  final_table : Z; final_young : Z; scan_roots_hook : list Z }.

Section Minor.
Context {A : Arch} {Env : Heap_env} {Young : Young_heap} {H : Type} {SH : Shared_heap H}.

Definition Is_young (v : Z) : bool := (v <? caml_young_end) && (caml_young_start <? v).

Definition set_words m (s : minor H) : minor H :=
  Minor m (shared s) (oldify_todo_list s) (caml_young_ptr s) (caml_young_limit s) (caml_ref_table s) (caml_weak_ref_table s) (caml_stat_minor_words s) (final_old s).
Definition set_heap m h (s : minor H) : minor H :=
  Minor m h (oldify_todo_list s) (caml_young_ptr s) (caml_young_limit s) (caml_ref_table s) (caml_weak_ref_table s) (caml_stat_minor_words s) (final_old s).
Definition set_todo v (s : minor H) : minor H :=
  Minor (words s) (shared s) v (caml_young_ptr s) (caml_young_limit s) (caml_ref_table s) (caml_weak_ref_table s) (caml_stat_minor_words s) (final_old s).
Definition store (a v : Z) (s : minor H) : minor H := set_words ((words s).[a <- v]) s.

Definition alloc_shr (wosize tag : Z) (s : minor H) : res (Z * minor H) :=
  let! (v, m, h) := caml_alloc_shr wosize tag (words s) (shared s) in Ok (v, set_heap m h s).

(** ** Copying a block *)

(** Sets the forward flag and the forward pointer. *)
Definition forward (v result : Z) (s : minor H) : minor H := store v result (store (v - sizeof_value) 0 s).

Fixpoint copy_fields (n : nat) (v result i : Z) (s : minor H) : minor H :=
  match n with
  | O => s
  | S n => copy_fields n v result (i + 1) (store (result + Bsize_wsize i) (Op_val (words s) v i) s)
  end.

(** Whether a forwarding block is copied as a normal block. *)
Definition keep_forward_young (m : mem) (f : Z) : bool :=
  Is_block f &&
  (negb (Is_in_value_area f) ||
   let ft := Tag_hd (Hd_op m (if Hd_op m f =? 0 then Op_val m f 0 else f)) in
   (ft =? Forward_tag) || (ft =? Lazy_tag) || (ft =? Double_tag)).

(** [fuel] bounds the jumps to [tail_call]. *)
Fixpoint caml_oldify_one (fuel : nat) (v p : Z) (s : minor H) : res (minor H) :=
  match fuel with
  | O => Stuck
  | S fuel =>
      if Is_block v && Is_young v then
        let hd := Hd_op (words s) v in
        if hd =? 0 then Ok (store p (Op_val (words s) v 0) s)
        else
          let tag := Tag_hd hd in
          if tag <? Infix_tag then
            let sz := Wosize_hd hd in
            let! (result, s) := alloc_shr sz tag s in
            let s := store p result s in
            let field0 := Op_val (words s) v 0 in
            let s := forward v result s in
            if 1 <? sz then
              let s := store (result + Bsize_wsize 0) field0 s in
              let s := store (result + Bsize_wsize 1) (oldify_todo_list s) s in
              Ok (set_todo v s)
            else caml_oldify_one fuel field0 (result + Bsize_wsize 0) s
          else if No_scan_tag <=? tag then
            let sz := Wosize_hd hd in
            let! (result, s) := alloc_shr sz tag s in
            let s := copy_fields (Z.to_nat sz) v result 0 s in
            Ok (store p result (forward v result s))
          else if tag =? Infix_tag then
            let offset := Infix_offset_hd hd in
            let! s := caml_oldify_one fuel (v - offset) p s in
            Ok (store p (words s p + offset) s)
          else
            let f := Forward_value (words s) v in
            if keep_forward_young (words s) f then
              let! (result, s) := alloc_shr 1 Forward_tag s in
              let s := store p result s in
              let s := forward v result s in
              caml_oldify_one fuel f (result + Bsize_wsize 0) s
            else caml_oldify_one fuel f p s
      else Ok (store p v s)
  end.

(** ** The to-do list *)

(** [for (i = 1; ...)], for the [n] last fields. *)
Fixpoint mopup_fields (n fuel : nat) (v new_v i : Z) (s : minor H) : res (minor H) :=
  match n with
  | O => Ok s
  | S n =>
      let f := Op_val (words s) v i in
      let! s := (if Is_block f && Is_young f then caml_oldify_one fuel f (new_v + Bsize_wsize i) s
                 else Ok (store (new_v + Bsize_wsize i) f s)) in
      mopup_fields n fuel v new_v (i + 1) s
  end.
(** [turns] bounds the number of blocks put in the list. *)
Fixpoint caml_oldify_mopup (turns fuel : nat) (s : minor H) : res (minor H) :=
  if negb (oldify_todo_list s =? 0) then
    match turns with
    | O => Stuck
    | S turns =>
        let v := oldify_todo_list s in
        let new_v := Op_val (words s) v 0 in
        let s := set_todo (Op_val (words s) new_v 1) s in
        let f := Op_val (words s) new_v 0 in
        let! s := (if Is_block f && Is_young f then caml_oldify_one fuel f (new_v + Bsize_wsize 0) s else Ok s) in
        let! s := mopup_fields (Z.to_nat (Wosize_hd (Hd_op (words s) new_v) - 1)) fuel v new_v 1 s in
        caml_oldify_mopup turns fuel s
    end
  else Ok s.

(** ** Roots *)

(** [n] consecutive words. *)
Definition locations (n base : Z) : list Z := map (fun i => base + Bsize_wsize (Z.of_nat i)) (seq 0 (Z.to_nat n)).
(** The fields [fun] and [val] of the entries from [old] to [young]; a [struct final]
    takes three words. *)
Definition caml_final_do_young_roots (r : minor_roots) (s : minor H) : list Z :=
  flat_map (fun e => [e; e + Bsize_wsize 1])
    (map (fun i => final_table r + Bsize_wsize (3 * Z.of_nat i)) (seq (Z.to_nat (final_old s)) (Z.to_nat (final_young r - final_old s)))).
Definition young_roots (r : minor_roots) (s : minor H) : list Z :=
  locations ((caml_stack_high r - caml_extern_sp r) / sizeof_value) (caml_extern_sp r) ++
  flat_map (fun '(nitems, tables) => flat_map (locations nitems) tables) (local_roots r) ++
  caml_global_roots_young r ++ caml_final_do_young_roots r s ++ scan_roots_hook r.

Fixpoint oldify_locations (fuel : nat) (l : list Z) (s : minor H) : res (minor H) :=
  match l with
  | [] => Ok s
  | p :: l => let! s := caml_oldify_one fuel (words s p) p s in oldify_locations fuel l s
  end.
Definition caml_oldify_local_roots (fuel : nat) (r : minor_roots) (s : minor H) : res (minor H) :=
  oldify_locations fuel (young_roots r s) s.

(** ** The minor collection *)

Definition weak_ref (s : minor H) (r : Z) : minor H :=
  let v := words s r in
  if Is_block v && Is_young v then
    if Hd_op (words s) v =? 0 then store r (Op_val (words s) v 0) s else store r caml_weak_none s
  else s.

(** The minor heap and the tables are emptied. *)
Definition reset_young (s : minor H) : minor H :=
  let ptr := if caml_young_ptr s <? caml_young_start then caml_young_start else caml_young_ptr s in
  Minor (words s) (shared s) (oldify_todo_list s) caml_young_end caml_young_start [] []
    (caml_stat_minor_words s + Wsize_bsize (caml_young_end - ptr)) (final_old s).
Definition caml_final_empty_young (r : minor_roots) (s : minor H) : minor H :=
  Minor (words s) (shared s) (oldify_todo_list s) (caml_young_ptr s) (caml_young_limit s) (caml_ref_table s) (caml_weak_ref_table s)
    (caml_stat_minor_words s) (final_young r).

Definition caml_empty_minor_heap (turns fuel : nat) (r : minor_roots) (s : minor H) : res (minor H) :=
  let! s := (if negb (caml_young_ptr s =? caml_young_end) then
      let! s := caml_oldify_local_roots fuel r s in
      let! s := oldify_locations fuel (caml_ref_table s) s in
      let! s := caml_oldify_mopup turns fuel s in
      let s := fold_left weak_ref (caml_weak_ref_table s) s in
      Ok (reset_young s)
    else Ok s) in
  Ok (caml_final_empty_young r s).
End Minor.
