(* ===== verification/MinorInv.v ===== *)
(** MinorInv: the invariant of the minor collector: which blocks have been copied
    where, what remains of their originals, which copies are finished. *)
From Stdlib Require Import ZArith Lia List Bool.
From S2P Require Import Prelude Mlvalues ExternOutput InterpState MarshalBytes MarshalTrail MarshalDecode Gc GcGraph Minor.
Import ListNotations.
Local Open Scope Z_scope.

(** ** What the allocator promises *)

(** The bytes of a block of [n] words at [r], header included. *)
Definition range {A : Arch} (r n a : Z) : Prop := r - sizeof_value <= a < r + Bsize_wsize n.

(** [alloc_inv m h av kept]: the heap is well formed; [av] are the addresses that the
    allocator may write and hand out, [kept] those it only reads. *)
Class Shared_heap_ok {A : Arch} (H : Type) {SH : Shared_heap H} := {
  alloc_inv : mem -> H -> (Z -> Prop) -> (Z -> Prop) -> Prop;
  alloc_frame : forall m m' h av kept, alloc_inv m h av kept -> (forall a, av a \/ kept a -> m' a = m a) -> alloc_inv m' h av kept;
  alloc_ok : forall m h av kept sz tg, alloc_inv m h av kept -> 1 <= sz <= Max_wosize -> 0 <= tg < 256 ->
    match caml_alloc_shr sz tg m h with
    | Ok (r, m', h') => exists av' kept', alloc_inv m' h' av' kept' /\
        (forall a, range r sz a -> av a /\ ~ av' a) /\ (forall a, r <= a < r + Bsize_wsize sz -> ~ kept' a) /\
        (forall a, av' a -> av a) /\ (forall a, kept' a -> kept a \/ av a) /\ (forall a, ~ av a -> m' a = m a) /\
        Is_block r = true /\ header_ok (Hd_op m' r) /\ tag m' r = tg /\ wosize m' r = sz
    | Raise e => e = Out_of_memory
    | Stuck => False
    end }.

(** Ghost state: the copies made, and the addresses of the allocator. *)
Record ghost := Ghost { phi : list (Z * Z); av : Z -> Prop; kept : Z -> Prop }.

Section Inv.
Context {A : Arch} {Env : Heap_env} {Young : Young_heap} {H : Type} {SH : Shared_heap H} {SO : Shared_heap_ok H}.
(** The blocks of the minor heap, the memory before the collection, and the addresses
    of the headers of the older blocks that forwarding blocks point to. *)
Variables (Y : list Z) (m0 : mem) (fixed : Z -> Prop).

Definition young_cell (a : Z) : Prop := caml_young_start <= a < caml_young_end.
Definition size (b : Z) : Z := wosize m0 b.
(** Not in one of these blocks. *)
Definition clear (a : Z) : Prop := forall b, In b Y -> ~ range b (wosize m0 b) a.
Definition young_pointer (x : Z) : Prop := Is_block x = true /\ Is_young x = true.
Definition infix_in (x : Z) : Prop :=
  tag m0 x = Infix_tag /\ let b := x - Infix_offset_hd (Hd_op m0 x) in
  In b Y /\ tag m0 b = Closure_tag /\ exists i, 1 <= i /\ i + 1 < size b /\ x - sizeof_value = b + Bsize_wsize i.
Definition value_ok (x : Z) : Prop := young_pointer x -> In x Y \/ infix_in x.

Record young_wf : Prop := {
  yw_start : 0 <= caml_young_start;
  yw_nodup : NoDup Y;
  yw_block : forall b, In b Y -> Is_block b = true /\ caml_young_start <= b - sizeof_value /\ b + Bsize_wsize (size b) <= caml_young_end;
  yw_header : forall b, In b Y -> header_ok (Hd_op m0 b) /\ 1 <= size b /\ tag m0 b <> Infix_tag;
  yw_apart : forall b b', In b Y -> In b' Y -> b <> b' -> b + Bsize_wsize (size b) <= b' - sizeof_value \/ b' + Bsize_wsize (size b') <= b - sizeof_value;
  yw_field : forall b i, In b Y -> tag m0 b < No_scan_tag -> 0 <= i < size b -> value_ok (Op_val m0 b i);
  yw_forward : forall b, In b Y -> tag m0 b = Forward_tag -> size b = 1;
  yw_forwarded : forall b, In b Y -> tag m0 b = Forward_tag ->
    let f := Op_val m0 b 0 in Is_block f = true -> Is_in_value_area f = true -> Is_young f = false -> Hd_op m0 f <> 0 /\ fixed (f - sizeof_value) }.

(** *** Images *)

Definition keeps (b : Z) : bool := keep_forward_young m0 (Op_val m0 b 0).
(** [y] is what a field or a root that holds [x] becomes: pointers into the minor heap
    point to the copies, forwarding blocks are skipped. *)
Inductive image (ph : list (Z * Z)) : Z -> Z -> Prop :=
  | image_other x : ~ young_pointer x -> image ph x x
  | image_block x r : In x Y -> In (x, r) ph -> image ph x r
  | image_infix x r : young_pointer x -> infix_in x -> In (x - Infix_offset_hd (Hd_op m0 x), r) ph -> image ph x (r + Infix_offset_hd (Hd_op m0 x))
  | image_forward x y : In x Y -> tag m0 x = Forward_tag -> keeps x = false -> image ph (Op_val m0 x 0) y -> image ph x y.

Lemma image_mono ph ph' x y : incl ph ph' -> image ph x y -> image ph' x y.
Proof. intros I. induction 1; eauto using image. Qed.

(** *** The invariant *)

Fixpoint chain (m : mem) (ph : list (Z * Z)) (v : Z) (T : list Z) : Prop :=
  match T with [] => v = 0 | b :: T => v = b /\ exists r, In (b, r) ph /\ chain m ph (Op_val m r 1) T end.
(** The copy [r] of [b] is finished. *)
Definition finished (m : mem) (ph : list (Z * Z)) (b r : Z) : Prop := forall i, 0 <= i < size b ->
  if tag m0 b <? No_scan_tag then image ph (Op_val m0 b i) (Op_val m r i) else Op_val m r i = Op_val m0 b i.

Record inv (holes T : list Z) (g : ghost) (s : minor H) : Prop := {
  i_alloc : alloc_inv (words s) (shared s) (av g) (kept g);
  i_young : forall a, young_cell a -> ~ av g a /\ ~ kept g a /\ ~ fixed a;
  i_fixed : forall a, fixed a -> ~ av g a /\ words s a = m0 a;
  i_dom : forall b r, In (b, r) (phi g) -> In b Y;
  i_fun : NoDup (map fst (phi g));
  i_copy : forall b r, In (b, r) (phi g) -> Is_block r = true /\ header_ok (Hd_op (words s) r) /\ tag (words s) r = tag m0 b /\ wosize (words s) r = size b /\
    (forall a, range r (size b) a -> ~ young_cell a /\ ~ av g a /\ ~ fixed a) /\ (forall a, r <= a < r + Bsize_wsize (size b) -> ~ kept g a);
  i_apart : forall b r b' r' a, In (b, r) (phi g) -> In (b', r') (phi g) -> range r (size b) a -> range r' (size b') a -> b = b';
  i_fresh : forall b a, In b Y -> ~ In b (map fst (phi g)) -> range b (size b) a -> words s a = m0 a;
  i_forwarded : forall b r, In (b, r) (phi g) -> Hd_op (words s) b = 0 /\ words s b = r /\
    (forall a, b + sizeof_value <= a < b + Bsize_wsize (size b) -> words s a = m0 a);
  i_keeps : forall b r, In (b, r) (phi g) -> tag m0 b = Forward_tag -> keeps b = true;
  i_holes : forall b, In b holes -> In b (map fst (phi g)) /\ ~ In b T;
  i_todo : NoDup T /\ forall b, In b T -> exists r, In (b, r) (phi g) /\ 1 < size b /\ tag m0 b < No_scan_tag /\ words s r = m0 b;
  i_chain : chain (words s) (phi g) (oldify_todo_list s) T;
  i_done : forall b r, In (b, r) (phi g) -> ~ In b holes -> ~ In b T -> finished (words s) (phi g) b r }.

(** An address that may be written: outside, or a field of a copy that is being made. *)
Definition target (holes : list Z) (g : ghost) (p : Z) : Prop :=
  ~ young_cell p /\ ~ av g p /\ ~ kept g p /\ ~ fixed p /\ forall b r, In (b, r) (phi g) -> range r (size b) p -> In b holes /\ r <= p.

(** The variables that copying does not change. *)
Definition vars (s : minor H) := (caml_young_ptr s, caml_young_limit s, caml_ref_table s, caml_weak_ref_table s, caml_stat_minor_words s, final_old s).

Lemma Op_val_0 m v : Op_val m v 0 = m v.
Proof. unfold Op_val, Bsize_wsize. f_equal. lia. Qed.
Lemma phi_fun g holes T s b r r' : inv holes T g s -> In (b, r) (phi g) -> In (b, r') (phi g) -> r = r'.
Proof.
  intros I H1 H2. pose proof (i_fun _ _ _ _ I) as D. clear I. induction (phi g) as [|[x y] l IH]; [destruct H1|]. cbn in *. inversion_clear D as [|? ? Nx Dl].
  destruct H1 as [E1|H1], H2 as [E2|H2]; [congruence| | |now apply IH]; exfalso; apply Nx.
  - injection E1 as -> ->. now apply (in_map fst) in H2.
  - injection E2 as -> ->. now apply (in_map fst) in H1.
Qed.
Lemma in_dom (ph : list (Z * Z)) (b : Z) : In b (map fst ph) <-> exists r, In (b, r) ph.
Proof.
  rewrite in_map_iff. split; [intros ([x y] & <- & Hx); eauto | intros [r Hr]; exists (b, r); auto].
Qed.

(** ** Writing in a target *)

Section Wf.
Hypothesis (YW : young_wf).

Lemma size_pos b : In b Y -> 1 <= size b.
Proof. intros Hb. now apply (yw_header YW). Qed.
Lemma header_range b n : 0 <= n -> range b n (b - sizeof_value).
Proof. intros Hn. unfold range, Bsize_wsize. pose proof sizeof_value_pos. nia. Qed.
Lemma field_range b n i : 0 <= i < n -> range b n (b + Bsize_wsize i) /\ b <= b + Bsize_wsize i.
Proof. intros Hn. unfold range, Bsize_wsize. pose proof sizeof_value_pos. nia. Qed.
Lemma young_range b a : In b Y -> range b (size b) a -> young_cell a.
Proof. intros Hb [H1 H2]. destruct (yw_block YW b Hb) as (_ & H3 & H4). unfold young_cell. lia. Qed.
Lemma clear_young a : ~ young_cell a -> clear a.
Proof. intros Ny b Hb R. apply Ny. eapply young_range; eauto. Qed.
Lemma young_is_young b : In b Y -> Is_block b = true /\ Is_young b = true.
Proof.
  intros Hb. destruct (yw_block YW b Hb) as (E & H3 & H4). split; auto. pose proof (size_pos b Hb). pose proof sizeof_value_pos.
  unfold Is_young, Bsize_wsize in *. apply andb_true_iff. split; apply Z.ltb_lt; nia.
Qed.

Lemma chain_ext m m' ph T : (forall b r, In b T -> In (b, r) ph -> Op_val m' r 1 = Op_val m r 1) -> forall v, chain m ph v T -> chain m' ph v T.
Proof.
  induction T as [|b T IH]; intros E v; cbn [chain]; auto. intros (-> & r & Hr & C). split; auto. exists r. split; auto.
  rewrite (E b r) by (auto; now left). apply IH; auto. intros; eapply E; eauto. now right.
Qed.
Lemma finished_ext m m' ph b r : (forall i, 0 <= i < size b -> Op_val m' r i = Op_val m r i) -> finished m ph b r -> finished m' ph b r.
Proof. intros E F i Hi. rewrite (E i Hi). exact (F i Hi). Qed.

Lemma inv_store holes T g s p x : inv holes T g s -> target holes g p -> inv holes T g (store p x s).
Proof.
  intros I (P1 & P2 & P3 & P4 & P5). pose proof sizeof_value_pos as Sp.
  assert (O : forall a, a <> p -> words (store p x s) a = words s a) by (intros; now apply upd_other).
  assert (Oy : forall b a, In b Y -> range b (size b) a -> words (store p x s) a = words s a)
    by (intros b a Hb Ha; apply O; intros ->; apply P1; eapply young_range; eauto).
  assert (Oh : forall b r, In (b, r) (phi g) -> Hd_op (words (store p x s)) r = Hd_op (words s) r).
  { intros b r Hr. apply O. intros E. destruct (P5 b r Hr) as [_ L]; [rewrite <- E; apply header_range; pose proof (size_pos b (i_dom _ _ _ _ I _ _ Hr)); lia | lia]. }
  assert (Of : forall b r i, In (b, r) (phi g) -> ~ In b holes -> 0 <= i < size b -> Op_val (words (store p x s)) r i = Op_val (words s) r i).
  { intros b r i Hr Hb Hi. apply O. intros E. destruct (P5 b r Hr) as [L _]; auto. rewrite <- E. now apply field_range. }
  assert (Th : forall b, In b T -> ~ In b holes) by (intros b Hb Hh; now destruct (i_holes _ _ _ _ I b Hh)).
  destruct I as [I1 I2 I3 I4 I5 I6 I7 I8 I9 I10 I11 I12 I13 I14]. split; auto.
  - apply (alloc_frame (words s)); auto. intros a Ha. apply O. intros ->. tauto.
  - intros a Ha. destruct (I3 a Ha). split; auto. rewrite O; auto. congruence.
  - intros b r Hr. destruct (I6 b r Hr) as (C1 & C2 & C3 & C4 & C5). unfold tag, wosize. rewrite (Oh b r Hr). auto.
  - intros b a Hb Nb Ha. rewrite (Oy b a) by auto. eauto.
  - intros b r Hr. pose proof (I4 b r Hr) as Hb. pose proof (size_pos b Hb). destruct (I9 b r Hr) as (F1 & F2 & F3). unfold Hd_op. conj.
    + rewrite (Oy b); auto. apply header_range. lia.
    + rewrite (Oy b); auto. pose proof (field_range b (size b) 0). unfold Bsize_wsize in *. rewrite Z.mul_0_l, Z.add_0_r in *. apply H1. lia.
    + intros a Ha. rewrite (Oy b a); auto. unfold range. lia.
  - destruct I12 as [D F]. split; auto. intros b Hb. destruct (F b Hb) as (r & F1 & F2 & F3 & F4). exists r. conj; auto.
    rewrite <- F4, <- (Op_val_0 _ r), <- (Op_val_0 (words s) r). apply (Of b); auto. lia.
  - eapply chain_ext; [|exact I13]. intros b r Hb Hr. apply (Of b); auto. destruct I12 as [_ F]. destruct (F b Hb) as (_ & _ & ? & _). lia.
  - intros b r Hr Hh Ht. eapply finished_ext; [|apply I14; eauto]. intros i Hi. now apply (Of b).
Qed.

(** ** Allocating and forwarding *)

(** A block that has just been allocated. *)
Record new_block (g : ghost) (s : minor H) (r n tg : Z) : Prop := {
  nb_block : Is_block r = true;
  nb_header : header_ok (Hd_op (words s) r) /\ tag (words s) r = tg /\ wosize (words s) r = n;
  nb_out : forall a, range r n a -> ~ young_cell a /\ ~ av g a /\ ~ fixed a /\ forall b' r', In (b', r') (phi g) -> ~ range r' (size b') a;
  nb_field : forall a, r <= a < r + Bsize_wsize n -> ~ kept g a }.
(** [g'] is after [g]. *)
Record grows (g g' : ghost) : Prop := {
  gr_phi : incl (phi g) (phi g');
  gr_av : forall a, av g' a -> av g a;
  gr_kept : forall a, kept g' a -> kept g a \/ av g a;
  gr_new : forall b r, In (b, r) (phi g') -> In (b, r) (phi g) \/ forall a, range r (size b) a -> av g a }.

Lemma grows_refl g : grows g g.
Proof. split; auto. apply incl_refl. Qed.
Lemma grows_trans g1 g2 g3 : grows g1 g2 -> grows g2 g3 -> grows g1 g3.
Proof.
  intros [P1 A1 K1 N1] [P2 A2 K2 N2]. split; auto; [eapply incl_tran; eauto| |].
  - intros a Ha. destruct (K2 a Ha); auto.
  - intros b r Hr. destruct (N2 b r Hr) as [Hr'|Hr']; auto.
Qed.

Lemma finished_mono m ph ph' b r : incl ph ph' -> finished m ph b r -> finished m ph' b r.
Proof. intros I F i Hi. specialize (F i Hi). destruct (_ <? _); auto. eapply image_mono; eauto. Qed.
Lemma chain_mono m ph ph' T : incl ph ph' -> forall v, chain m ph v T -> chain m ph' v T.
Proof. intros I. induction T as [|b T IH]; intros v; cbn [chain]; auto. intros (-> & r & Hr & C). split; auto. exists r. auto. Qed.

(** Cells that the allocator does not own keep what the invariant says of them. *)
Lemma inv_change holes T g g' s s' : inv holes T g s -> phi g' = phi g -> grows g g' -> alloc_inv (words s') (shared s') (av g') (kept g') ->
  (forall a, ~ av g a -> words s' a = words s a) -> oldify_todo_list s' = oldify_todo_list s -> inv holes T g' s'.
Proof.
  intros [I1 I2 I3 I4 I5 I6 I7 I8 I9 I10 I11 I12 I13 I14] Ep [_ Ga Gk _] Al O Et. rewrite <- Ep in *.
  assert (Oc : forall b r a, In (b, r) (phi g') -> range r (size b) a -> words s' a = words s a)
    by (intros b r a Hr Ha; apply O; destruct (I6 b r Hr) as (_ & _ & _ & _ & C & _); now apply (C a)).
  assert (Oy : forall a, young_cell a -> words s' a = words s a) by (intros a Ha; apply O; now apply (I2 a)).
  assert (Of : forall b r i, In (b, r) (phi g') -> 0 <= i < size b -> Op_val (words s') r i = Op_val (words s) r i)
    by (intros b r i Hr Hi; apply (Oc b r); auto; now apply field_range).
  split; auto.
  - intros a Ha. destruct (I2 a Ha) as (Na & Nk & Nf). conj; auto. intros K. destruct (Gk a K); auto.
  - intros a Ha. destruct (I3 a Ha). rewrite O; auto.
  - intros b r Hr. destruct (I6 b r Hr) as (C1 & C2 & C3 & C4 & C5 & C6). pose proof (size_pos b (I4 b r Hr)). unfold tag, wosize.
    assert (E : Hd_op (words s') r = Hd_op (words s) r) by (apply (Oc b r); auto; apply header_range; lia). rewrite E. conj; auto.
    + intros a Ha. destruct (C5 a Ha) as (X1 & X2 & X3). conj; auto.
    + intros a Ha K. destruct (Gk a K); [eapply C6; eauto|]. destruct (C5 a) as (_ & X & _); auto. unfold range. pose proof sizeof_value_pos. lia.
  - intros b a Hb Nb Ha. rewrite Oy by (eapply young_range; eauto). eauto.
  - intros b r Hr. destruct (I9 b r Hr) as (F1 & F2 & F3). pose proof (I4 b r Hr) as Hb. pose proof (size_pos b Hb). unfold Hd_op. conj.
    + rewrite Oy; auto. apply (young_range b); auto. apply header_range. lia.
    + rewrite Oy; auto. apply (young_range b); auto. unfold range, Bsize_wsize. pose proof sizeof_value_pos. nia.
    + intros a Ha. rewrite Oy; auto. apply (young_range b); auto. unfold range. pose proof sizeof_value_pos. lia.
  - destruct I12 as [D F]. split; auto. intros b Hb. destruct (F b Hb) as (r & F1 & F2 & F3 & F4). exists r. conj; auto.
    rewrite <- F4, <- (Op_val_0 _ r), <- (Op_val_0 (words s) r). apply (Of b); auto. lia.
  - rewrite Et. eapply chain_ext; [|exact I13]. intros b r Hb Hr. apply (Of b); auto. destruct I12 as [_ F]. destruct (F b Hb) as (_ & _ & ? & _). lia.
  - intros b r Hr Hh Ht. eapply finished_ext; [|apply I14; eauto]. intros i Hi. now apply (Of b).
Qed.

Lemma inv_alloc holes T g s sz tg : inv holes T g s -> 1 <= sz <= Max_wosize -> 0 <= tg < 256 ->
  match alloc_shr sz tg s with
  | Ok (r, s') => exists g', phi g' = phi g /\ inv holes T g' s' /\ new_block g' s' r sz tg /\ grows g g' /\
      (forall a, range r sz a -> av g a) /\ (forall a, ~ av g a -> words s' a = words s a) /\ vars s' = vars s /\ oldify_todo_list s' = oldify_todo_list s
  | Raise e => e = Out_of_memory
  | Stuck => False
  end.
Proof.
  intros I Hs Ht. pose proof (alloc_ok _ _ _ _ sz tg (i_alloc _ _ _ _ I) Hs Ht) as K. unfold alloc_shr.
  destruct (caml_alloc_shr sz tg (words s) (shared s)) as [[[r m'] h']|e|]; auto.
  destruct K as (av' & kept' & Al & Fr & Nk & Sa & Sk & O & Bl & Ho & Et & Ew). set (g' := Ghost (phi g) av' kept'). exists g'.
  assert (G : grows g g') by (split; auto; apply incl_refl). conj; auto.
  - eapply inv_change; eauto.
  - split; auto. intros a Ha. destruct (Fr a Ha) as [Aa Na]. conj; auto.
    + intros Y'. destruct (i_young _ _ _ _ I a Y') as [X _]. auto.
    + intros F. destruct (i_fixed _ _ _ _ I a F). auto.
    + intros b' r' Hr Ha'. destruct (i_copy _ _ _ _ I b' r' Hr) as (_ & _ & _ & _ & C & _). destruct (C a Ha') as (_ & X & _). auto.
  - intros a Ha. now apply Fr.
Qed.

Lemma inv_forward holes T g s b r : inv holes T g s -> In b Y -> ~ In b (map fst (phi g)) -> new_block g s r (size b) (tag m0 b) ->
  (tag m0 b = Forward_tag -> keeps b = true) -> inv (b :: holes) T (Ghost ((b, r) :: phi g) (av g) (kept g)) (forward b r s).
Proof.
  intros I Hb Nb N Kp. pose proof sizeof_value_pos as Sp. pose proof (size_pos b Hb) as Sb.
  destruct (yw_block YW b Hb) as (_ & Yl & Yh). set (m' := words (forward b r s)).
  assert (O : forall a, a <> b -> a <> b - sizeof_value -> m' a = words s a)
    by (intros a H1 H2; unfold m', forward, store; cbn [words set_words]; now rewrite !upd_other by auto).
  assert (Yb : young_cell b /\ young_cell (b - sizeof_value)) by (unfold young_cell, Bsize_wsize in *; nia).
  assert (On : forall a, ~ young_cell a -> m' a = words s a) by (intros a Ha; apply O; intros ->; tauto).
  assert (Oo : forall b' a, In b' Y -> b' <> b -> range b' (size b') a -> m' a = words s a).
  { intros b' a Hb' Nb' Ha. apply O; intros ->; destruct (yw_apart YW b b' Hb Hb' ltac:(congruence)); unfold range, Bsize_wsize in *; nia. }
  destruct I as [I1 I2 I3 I4 I5 I6 I7 I8 I9 I10 I11 I12 I13 I14]. destruct N as [N1 N2 N3 N4].
  assert (Or : forall b' r' a, In (b', r') (phi g) -> range r' (size b') a -> m' a = words s a)
    by (intros b' r' a Hr Ha; apply On; destruct (I6 b' r' Hr) as (_ & _ & _ & _ & C & _); now apply (C a)).
  assert (Of : forall b' r' i, In (b', r') (phi g) -> 0 <= i < size b' -> Op_val m' r' i = Op_val (words s) r' i)
    by (intros b' r' i Hr Hi; apply (Or b' r'); auto; now apply field_range).
  assert (Nin : forall b' r', In (b', r') (phi g) -> b' <> b) by (intros b' r' Hr ->; apply Nb; rewrite in_dom; eauto).
  split; cbn [phi av kept]; fold m'.
  - apply (alloc_frame (words s)); auto. intros a Ha. apply On. intros Ya. destruct (I2 a Ya) as (? & ? & _). tauto.
  - exact I2.
  - intros a Ha. destruct (I3 a Ha) as [? E]. split; auto. rewrite On, E; auto. intros Ya. now apply (I2 a).
  - intros b' r' [[= <- <-]|Hr]; eauto.
  - cbn. constructor; auto.
  - intros b' r' [[= <- <-]|Hr].
    + assert (E : Hd_op m' r = Hd_op (words s) r) by (apply On; now apply (N3 (r - sizeof_value)), header_range; lia).
      unfold tag, wosize. rewrite E. destruct N2 as (X1 & X2 & X3). conj; auto. intros a Ha. destruct (N3 a Ha) as (? & ? & ? & _). auto.
    + destruct (I6 b' r' Hr) as (C1 & C2 & C3 & C4 & C5). pose proof (size_pos b' (I4 b' r' Hr)).
      assert (E : Hd_op m' r' = Hd_op (words s) r') by (apply (Or b' r'); auto; apply header_range; lia). unfold tag, wosize. rewrite E. auto.
  - intros b1 r1 b2 r2 a [[= <- <-]|H1] [[= <- <-]|H2] A1 A2; eauto; exfalso.
    + destruct (N3 a A1) as (_ & _ & _ & X). now apply (X b2 r2).
    + destruct (N3 a A2) as (_ & _ & _ & X). now apply (X b1 r1).
  - intros b' a Hb' Nb' Ha. cbn in Nb'. rewrite (Oo b') by (auto; tauto). apply I8 with b'; tauto.
  - intros b' r' [[= <- <-]|Hr].
    + conj.
      * unfold Hd_op, m', forward, store. cbn [words set_words]. rewrite upd_other by lia. apply upd_same.
      * unfold m', forward, store. cbn [words set_words]. apply upd_same.
      * intros a Ha. rewrite O by lia. apply (I8 b); auto. unfold range. lia.
    + destruct (I9 b' r' Hr) as (F1 & F2 & F3). pose proof (I4 b' r' Hr) as Hb'. pose proof (size_pos b' Hb'). pose proof (Nin b' r' Hr). unfold Hd_op. conj.
      * rewrite (Oo b'); auto. apply header_range. lia.
      * rewrite (Oo b'); auto. unfold range, Bsize_wsize. nia.
      * intros a Ha. rewrite (Oo b'); auto. unfold range. lia.
  - intros b' r' [[= <- <-]|Hr]; eauto.
  - intros b' [<-|Hh]; [|destruct (I11 b' Hh); cbn; auto]. split; [now left|]. intros Ht. destruct I12 as [_ F]. destruct (F b Ht) as (r' & Hr & _). now apply (Nin b r').
  - destruct I12 as [D F]. split; auto. intros b' Ht. destruct (F b' Ht) as (r' & F1 & F2 & F3 & F4). exists r'. conj; auto; [now right|].
    rewrite <- F4, <- (Op_val_0 m' r'), <- (Op_val_0 (words s) r'). apply (Of b'); auto. lia.
  - apply (chain_mono _ (phi g)); [now right|]. eapply chain_ext; [|exact I13]. intros b' r' Ht Hr. apply (Of b'); auto.
    destruct I12 as [_ F]. destruct (F b' Ht) as (_ & _ & ? & _). lia.
  - intros b' r' [[= <- <-]|Hr] Hh Ht; [destruct Hh; now left|]. apply (finished_mono _ (phi g)); [now right|].
    eapply finished_ext; [|apply I14; eauto; intros K; apply Hh; now right]. intros i Hi. now apply (Of b').
Qed.
End Wf.
End Inv.
