(* ===== verification/MinorCopy.v ===== *)
(** MinorCopy: [caml_oldify_one], [caml_oldify_mopup] and the scans of the roots and of
    the weak references keep the invariant of MinorInv and end. *)
From Stdlib Require Import ZArith Lia List Bool.
From S2P Require Import Prelude Mlvalues ExternOutput InterpState MarshalBytes MarshalTrail MarshalDecode Gc GcGraph Minor MinorInv.
Import ListNotations.
Local Open Scope Z_scope.

Section Copy.
Context {A : Arch} {Env : Heap_env} {Young : Young_heap} {H : Type} {SH : Shared_heap H} {SO : Shared_heap_ok H}.
Variables (Y : list Z) (m0 : mem) (fixed : Z -> Prop).
Notation inv := (inv Y m0 fixed).
Notation target := (target m0 fixed).
Notation new_block := (new_block (H := H) m0 fixed).
Notation size := (size m0).
Notation clear := (clear Y m0).
Notation image := (image Y m0).
Notation finished := (finished Y m0).
Notation infix_in := (infix_in Y m0).
Notation keeps := (keeps m0).
Hypothesis (YW : young_wf Y m0 fixed).

(** ** Moving a copy between the states *)

Lemma inv_push holes T g s b r : inv (b :: holes) T g s -> ~ In b holes -> In (b, r) (phi g) -> 1 < size b -> tag m0 b < No_scan_tag ->
  words s r = m0 b -> Op_val (words s) r 1 = oldify_todo_list s -> inv holes (b :: T) g (set_todo b s).
Proof.
  intros I Nh Hr Hs Ht Er El. destruct I as [I1 I2 I3 I4 I5 I6 I7 I8 I9 I10 I11 I12 I13 I14]. split; auto.
  - intros b' Hb'. destruct (I11 b') as [D N]; [now right|]. split; auto. intros [<-|K]; auto.
  - destruct I12 as [D F]. split; [constructor; auto; apply I11; now left|]. intros b' [<-|Hb']; eauto.
  - cbn [chain oldify_todo_list set_todo]. split; auto. exists r. split; auto. cbn [words set_todo]. now rewrite El.
  - intros b' r' Hr' N1 N2. apply I14; auto; [|intros K; apply N2; now right]. intros [<-|K]; auto. apply N2. now left.
Qed.
Lemma inv_done holes T g s b r : inv (b :: holes) T g s -> ~ In b holes -> In (b, r) (phi g) -> finished (words s) (phi g) b r -> inv holes T g s.
Proof.
  intros I Nh Hr F. pose proof (fun r' => phi_fun Y m0 fixed g _ _ s b r r' I Hr) as U. destruct I as [I1 I2 I3 I4 I5 I6 I7 I8 I9 I10 I11 I12 I13 I14]. split; auto.
  - intros b' Hb'. apply I11. now right.
  - intros b' r' Hr' N1 N2. destruct (Z.eq_dec b' b) as [->|N]; [now rewrite <- (U r' Hr')|]. apply I14; auto. intros [K|K]; auto.
Qed.
Lemma inv_pop holes T g s b : inv holes (b :: T) g s -> exists r, In (b, r) (phi g) /\ oldify_todo_list s = b /\ words s b = r /\ words s r = m0 b /\
  ~ In b holes /\ 1 < size b /\ tag m0 b < No_scan_tag /\ inv (b :: holes) T g (set_todo (Op_val (words s) r 1) s).
Proof.
  intros I. pose proof (fun r r' => phi_fun Y m0 fixed g _ _ s b r r' I) as U. destruct I as [I1 I2 I3 I4 I5 I6 I7 I8 I9 I10 I11 [D F] I13 I14].
  destruct (F b) as (r & F1 & F2 & F3 & F4); [now left|]. destruct I13 as (Et & r' & Hr' & C). rewrite (U r' r Hr' F1) in *. destruct (I9 b r F1) as (_ & Ew & _).
  inversion_clear D as [|? ? Nb Dt]. exists r. conj; auto.
  - intros K. destruct (I11 b K) as [_ N]. apply N. now left.
  - split; auto.
    + intros b' [<-|Hb']; [split; auto; apply in_dom; eauto|]. destruct (I11 b' Hb') as [X N]. split; auto. intros K. apply N. now right.
    + split; auto. intros b' Hb'. apply F. now right.
    + intros b' q Hq N1 N2. apply I14; auto; [intros K; apply N1; now right|]. intros [<-|K]; auto. apply N1. now left.
Qed.

(** ** Targets *)

Lemma target_field holes T g s b r i : inv holes T g s -> In b holes -> In (b, r) (phi g) -> 0 <= i < size b -> target holes g (r + Bsize_wsize i).
Proof.
  intros I Hh Hr Hi. destruct (i_copy _ _ _ _ _ _ _ I b r Hr) as (_ & _ & _ & _ & C & K). destruct (field_range r (size b) i Hi) as [R L].
  destruct (C _ R) as (C1 & C2 & C3). unfold MinorInv.target. conj; auto.
  - apply K. unfold range in R. lia.
  - intros b' r' Hr' R'. assert (b' = b) by exact (i_apart _ _ _ _ _ _ _ I b' r' b r _ Hr' Hr R' R). subst b'. split; auto.
    now rewrite (phi_fun Y m0 fixed g _ _ s b r' r I Hr' Hr).
Qed.
Lemma target_new holes g (s : minor H) r n tg i : new_block g s r n tg -> 0 <= i < n -> target holes g (r + Bsize_wsize i).
Proof.
  intros [_ _ N K] Hi. destruct (field_range r n i Hi) as [R L]. destruct (N _ R) as (C1 & C2 & C3 & C4). unfold MinorInv.target. conj; auto.
  - apply K. unfold range in R. lia.
  - intros b' r' Hr' R'. destruct (C4 b' r' Hr' R').
Qed.
Lemma new_block_store g (s : minor H) r n tg p x : new_block g s r n tg -> p <> r - sizeof_value -> new_block g (store p x s) r n tg.
Proof.
  intros [N1 N2 N3 N4] Hp. split; auto. unfold tag, wosize in *. replace (Hd_op (words (store p x s)) r) with (Hd_op (words s) r); auto.
  symmetry. unfold Hd_op, store. cbn [words set_words]. apply upd_other. auto.
Qed.
Lemma target_grows holes g g' p : target holes g p -> grows m0 g g' -> target holes g' p.
Proof.
  intros (P1 & P2 & P3 & P4 & P5) [_ Ga Gk Gn]. unfold MinorInv.target. conj; auto.
  - intros K. destruct (Gk p K); auto.
  - intros b r Hr R. destruct (Gn b r Hr) as [Hr'|N]; [auto | destruct (P2 (N p R))].
Qed.
Lemma target_more holes holes' g p : incl holes holes' -> target holes g p -> target holes' g p.
Proof. intros I (P1 & P2 & P3 & P4 & P5). unfold MinorInv.target. conj; auto. intros b r Hr R. destruct (P5 b r Hr R). auto. Qed.

(** ** What [caml_oldify_one] finds *)

Lemma header_nonzero v : In v Y -> Hd_op m0 v <> 0.
Proof.
  intros Hv E. destruct (yw_header _ _ _ YW v Hv) as (_ & Hs & _). unfold MinorInv.size, wosize in Hs. rewrite E in Hs.
  change (Wosize_hd 0) with 0 in Hs. lia.
Qed.

Lemma young_block_cases holes T g s v : inv holes T g s -> In v Y ->
  (exists r, In (v, r) (phi g) /\ Hd_op (words s) v = 0 /\ words s v = r) \/
  (~ In v (map fst (phi g)) /\ Hd_op (words s) v = Hd_op m0 v /\ Hd_op m0 v <> 0 /\ forall i, 0 <= i < size v -> Op_val (words s) v i = Op_val m0 v i).
Proof.
  intros I Hv. destruct (in_dec Z.eq_dec v (map fst (phi g))) as [D|D].
  - left. apply in_dom in D as [r Hr]. destruct (i_forwarded _ _ _ _ _ _ _ I v r Hr) as (E1 & E2 & _). eauto.
  - right. destruct (yw_header _ _ _ YW v Hv) as (Ho & Hs & _). conj; auto.
    + apply (i_fresh _ _ _ _ _ _ _ I v); auto. apply header_range. lia.
    + now apply header_nonzero.
    + intros i Hi. apply (i_fresh _ _ _ _ _ _ _ I v); auto. now apply field_range.
Qed.
Lemma young_infix_hd holes T g s v : inv holes T g s -> infix_in v -> Hd_op (words s) v = Hd_op m0 v /\ Hd_op m0 v <> 0.
Proof.
  intros I (Ht & Hb & _ & i & Hi & Hj & E). set (b := v - _) in *. split.
  - unfold Hd_op. rewrite E. destruct (in_dec Z.eq_dec b (map fst (phi g))) as [D|D].
    + apply in_dom in D as [r Hr]. apply (i_forwarded _ _ _ _ _ _ _ I b r Hr). pose proof sizeof_value_pos. unfold Bsize_wsize. nia.
    + apply (i_fresh _ _ _ _ _ _ _ I b); auto. apply field_range. lia.
  - unfold tag in Ht. intros E0. rewrite E0 in Ht. easy.
Qed.

(** The test of forwarding blocks reads headers as they were before the collection. *)
Lemma header_then holes T g s f : inv holes T g s -> In f Y \/ infix_in f ->
  Tag_hd (Hd_op (words s) (if Hd_op (words s) f =? 0 then Op_val (words s) f 0 else f)) = tag m0 f /\ Hd_op m0 f <> 0.
Proof.
  intros I [Hf|Hf].
  - destruct (yw_header _ _ _ YW f Hf) as (_ & Hs & _). destruct (young_block_cases _ _ _ _ f I Hf) as [(r & Hr & E1 & E2)|(_ & E1 & E2 & _)].
    + rewrite E1, Op_val_0, E2. destruct (i_copy _ _ _ _ _ _ _ I f r Hr) as (_ & _ & E & _). split; auto. now apply header_nonzero.
    + rewrite E1. apply Z.eqb_neq in E2 as E3. rewrite E3. split; auto. now rewrite E1.
  - destruct (young_infix_hd _ _ _ _ f I Hf) as (E1 & E2). rewrite E1. apply Z.eqb_neq in E2 as E3. rewrite E3. split; auto. now rewrite E1.
Qed.
Lemma keep_then holes T g s v : inv holes T g s -> In v Y -> tag m0 v = Forward_tag -> keep_forward_young (words s) (Op_val m0 v 0) = keeps v.
Proof.
  intros I Hv Ht. unfold MinorInv.keeps, keep_forward_young. set (f := Op_val m0 v 0). destruct (Is_block f) eqn:Eb; auto. cbn [andb].
  destruct (Is_in_value_area f) eqn:Ea; auto. cbn [negb orb].
  assert (E : Tag_hd (Hd_op (words s) (if Hd_op (words s) f =? 0 then Op_val (words s) f 0 else f)) = tag m0 f /\ Hd_op m0 f <> 0).
  { destruct (Is_young f) eqn:Ey.
    - apply (header_then holes T g); auto. assert (Hs : size v = 1) by (now apply (yw_forward _ _ _ YW)).
      apply (yw_field _ _ _ YW v 0 Hv); [now rewrite Ht | lia | now split].
    - destruct (yw_forwarded _ _ _ YW v Hv Ht Eb Ea Ey) as [N F]. fold f in N, F. destruct (i_fixed _ _ _ _ _ _ _ I _ F) as [_ E].
      unfold tag, Hd_op in *. rewrite E. apply Z.eqb_neq in N as N'. rewrite N'. split; auto. now rewrite E. }
  destruct E as [-> E]. apply Z.eqb_neq in E. now rewrite E.
Qed.
Lemma short_not_forward v : In v Y -> tag m0 v = Forward_tag -> keeps v = false -> let f := Op_val m0 v 0 in
  young_pointer f -> tag m0 f <> Forward_tag.
Proof.
  intros Hv Ht K f [Hb Hy] E. unfold MinorInv.keeps, keep_forward_young in K. fold f in K. rewrite Hb in K.
  destruct (Is_in_value_area f) eqn:Ha; [cbn [andb negb orb] in K | discriminate].
  assert (Ok : In f Y \/ infix_in f).
  { assert (Hs : size v = 1) by (now apply (yw_forward _ _ _ YW)). apply (yw_field _ _ _ YW v 0 Hv); [now rewrite Ht | lia | now split]. }
  assert (N : Hd_op m0 f <> 0).
  { destruct Ok as [Hf|[Hf _]]; [now apply header_nonzero | unfold tag in Hf; intros E0; now rewrite E0 in Hf]. }
  apply Z.eqb_neq in N. rewrite N in K. unfold tag in E. now rewrite E in K.
Qed.

(** ** One value *)

(** [s'] is [s] after [v] has been copied for the location [p]. *)
Definition moved (holes T : list Z) (g : ghost) (p v : Z) (s s' : minor H) : Prop := exists g' T',
  inv holes (T' ++ T) g' s' /\ grows m0 g g' /\ image (phi g') v (words s' p) /\
  (forall a, a <> p -> clear a -> ~ av g a -> words s' a = words s a) /\ vars s' = vars s /\
  (length T' + length (phi g) <= length (phi g'))%nat.

(** The copy of a block that has fields to scan, before its fields are dealt with. *)
Lemma copy_start holes T g s v p : inv holes T g s -> In v Y -> ~ In v (map fst (phi g)) -> (tag m0 v = Forward_tag -> keeps v = true) -> target holes g p ->
  match alloc_shr (size v) (tag m0 v) s with
  | Ok (r, s1) => Op_val (words (store p r s1)) v 0 = Op_val m0 v 0 /\ exists g1,
      let s2 := forward v r (store p r s1) in
      inv (v :: holes) T g1 s2 /\ In (v, r) (phi g1) /\ grows m0 g g1 /\ length (phi g1) = S (length (phi g)) /\
      (forall a, range r (size v) a -> av g a) /\ words s2 p = r /\
      (forall a, a <> p -> clear a -> ~ av g a -> words s2 a = words s a) /\ vars s2 = vars s /\ oldify_todo_list s2 = oldify_todo_list s
  | Raise e => e = Out_of_memory
  | Stuck => False
  end.
Proof.
  intros I Hv Nd Kp Tp. destruct (yw_header _ _ _ YW v Hv) as (Ho & Hs & Hi). pose proof (size_pos _ _ _ YW v Hv).
  assert (Hm : size v <= Max_wosize) by now apply Max_wosize_hd.
  assert (Ht : 0 <= tag m0 v < 256) by (unfold tag; rewrite Tag_hd_mod; apply Z.mod_pos_bound; lia).
  pose proof (inv_alloc Y m0 fixed YW holes T g s (size v) (tag m0 v) I (conj Hs Hm) Ht) as K.
  destruct (alloc_shr (size v) (tag m0 v) s) as [[r s1]|e|]; auto. destruct K as (g0 & Ep & I0 & N0 & G0 & Av & O0 & V0 & T0).
  pose proof sizeof_value_pos as Sp. pose proof Tp as (P1 & P2 & _). pose proof (clear_young _ _ _ YW p P1) as Cp. assert (Pr : ~ range r (size v) p) by (intros R; now apply P2, Av).
  pose proof (target_grows _ _ _ _ Tp G0) as Tp0. pose proof (inv_store Y m0 fixed YW _ _ _ _ p r I0 Tp0) as I1.
  assert (N1 : new_block g0 (store p r s1) r (size v) (tag m0 v)) by (apply new_block_store; auto; intros ->; apply Pr, header_range; lia).
  rewrite <- Ep in Nd. assert (F0 : Op_val (words (store p r s1)) v 0 = Op_val m0 v 0).
  { destruct (young_block_cases _ _ _ _ v I1 Hv) as [(q & Hq & _)|(_ & _ & _ & F)]; [destruct Nd; apply in_dom; eauto | apply F; lia]. }
  split; auto. exists (Ghost ((v, r) :: phi g0) (av g0) (kept g0)).
  pose proof (inv_forward Y m0 fixed YW _ _ _ _ v r I1 Hv Nd N1 Kp) as I2.
  assert (O2 : forall a, clear a -> words (forward v r (store p r s1)) a = words (store p r s1) a).
  { intros a Ha. set (s0 := store p r s1). unfold forward, store. cbn [words set_words].
    rewrite !upd_other; auto; intros ->; apply (Ha v Hv); fold (size v); unfold range, Bsize_wsize; nia. }
  cbn [phi av kept length]. conj; auto.
  - now left.
  - destruct G0 as [X1 X2 X3 X4]. split; cbn [phi av kept]; auto.
    + intros x Hx. right. auto.
    + intros b' r' [[= <- <-]|Hr']; auto.
  - now rewrite Ep.
  - rewrite O2 by auto. apply upd_same.
  - intros a Ha Ny Na. rewrite O2 by auto. unfold store. cbn [words set_words]. rewrite upd_other by auto. auto.
Qed.

(** The copy of a block of one word ends with its field. *)
Lemma finish_one holes T g0 g s0 s s' v r p : inv (v :: holes) T g s -> ~ In v holes -> In (v, r) (phi g) -> In v Y -> size v = 1 -> tag m0 v < No_scan_tag ->
  grows m0 g0 g -> length (phi g) = S (length (phi g0)) -> target holes g0 p -> (forall a, range r (size v) a -> av g0 a) -> words s p = r ->
  (forall a, a <> p -> clear a -> ~ av g0 a -> words s a = words s0 a) -> vars s = vars s0 ->
  moved (v :: holes) T g (r + Bsize_wsize 0) (Op_val m0 v 0) s s' -> moved holes T g0 p v s0 s'.
Proof.
  intros I Nh Hr Hv Hs Ht G L Tp Av Ep O V (g' & T' & I' & G' & Im & O' & V' & L'). exists g', T'. pose proof Tp as (P1 & P2 & _). pose proof (clear_young _ _ _ YW p P1) as Cp.
  assert (Hr' : In (v, r) (phi g')) by now apply (gr_phi _ _ _ G').
  assert (R : range r (size v) (r + Bsize_wsize 0)) by (apply field_range; lia).
  assert (Np : p <> r + Bsize_wsize 0) by (intros E; apply P2, Av; rewrite E; exact R).
  conj.
  - apply (inv_done _ _ _ _ v r); auto. intros i Hi. apply Z.ltb_lt in Ht. rewrite Ht. replace i with 0 by lia. exact Im.
  - eapply grows_trans; eauto.
  - rewrite O'; auto; [rewrite Ep; now apply image_block|]. intros K. apply P2. now apply (gr_av _ _ _ G).
  - intros a Ha Ny Na. rewrite O'; auto.
    + intros ->. now apply Na, Av.
    + intros K. apply Na. now apply (gr_av _ _ _ G).
  - congruence.
  - lia.
Qed.

(** A block whose fields are not scanned. *)
Lemma copy_fields_spec holes T g v r n tg : In v Y -> ~ In v (map fst (phi g)) -> size v = n ->
  forall k i s, inv holes T g s -> new_block g s r n tg -> 0 <= i -> i + Z.of_nat k = n ->
  let s' := copy_fields k v r i s in
  inv holes T g s' /\ new_block g s' r n tg /\ (forall j, i <= j < n -> Op_val (words s') r j = Op_val m0 v j) /\
  (forall a, (forall j, i <= j < n -> a <> r + Bsize_wsize j) -> words s' a = words s a) /\ vars s' = vars s /\ oldify_todo_list s' = oldify_todo_list s.
Proof.
  intros Hv Nd En. pose proof sizeof_value_pos as Sp. induction k as [|k IH]; intros i s I N Hi Hk; cbn [copy_fields].
  - conj; auto. intros; lia.
  - assert (F : Op_val (words s) v i = Op_val m0 v i).
    { destruct (young_block_cases _ _ _ _ v I Hv) as [(q & Hq & _)|(_ & _ & _ & F)]; [destruct Nd; apply in_dom; eauto | apply F; lia]. }
    set (s1 := store (r + Bsize_wsize i) (Op_val (words s) v i) s).
    assert (I1 : inv holes T g s1) by (apply inv_store; auto; eapply target_new; eauto; lia).
    assert (N1 : new_block g s1 r n tg) by (apply new_block_store; auto; unfold Bsize_wsize; nia).
    destruct (IH (i + 1) s1 I1 N1 ltac:(lia) ltac:(lia)) as (I2 & N2 & F2 & O2 & V2 & T2). conj; auto.
    + intros j Hj. destruct (Z.eq_dec j i) as [->|]; [|apply F2; lia]. unfold Op_val at 1. rewrite O2 by (intros; unfold Bsize_wsize; nia).
      unfold s1, store. cbn [words set_words]. now rewrite upd_same.
    + intros a Ha. rewrite O2 by (intros; apply Ha; lia). unfold s1, store. cbn [words set_words]. apply upd_other. apply Ha. lia.
Qed.
Lemma copy_no_scan holes T g s v p : inv holes T g s -> In v Y -> ~ In v (map fst (phi g)) -> No_scan_tag <= tag m0 v -> ~ In v holes -> target holes g p ->
  match alloc_shr (size v) (tag m0 v) s with
  | Ok (r, s1) => moved holes T g p v s (store p r (forward v r (copy_fields (Z.to_nat (size v)) v r 0 s1)))
  | Raise e => e = Out_of_memory
  | Stuck => False
  end.
Proof.
  intros I Hv Nd Hn Nh Tp. destruct (yw_header _ _ _ YW v Hv) as (Ho & Hs & Hi).
  assert (Hm : size v <= Max_wosize) by now apply Max_wosize_hd.
  assert (Ht : 0 <= tag m0 v < 256) by (unfold tag; rewrite Tag_hd_mod; apply Z.mod_pos_bound; lia).
  assert (Kp : tag m0 v = Forward_tag -> keeps v = true) by (intros E; rewrite E in Hn; easy).
  pose proof (inv_alloc Y m0 fixed YW holes T g s (size v) (tag m0 v) I (conj Hs Hm) Ht) as K.
  destruct (alloc_shr (size v) (tag m0 v) s) as [[r s1]|e|]; auto. destruct K as (g0 & Ep & I0 & N0 & G0 & Av & O0 & V0 & T0). rewrite <- Ep in Nd.
  destruct (copy_fields_spec holes T g0 v r (size v) (tag m0 v) Hv Nd eq_refl (Z.to_nat (size v)) 0 s1 I0 N0 ltac:(lia) ltac:(lia)) as (I1 & N1 & F1 & O1 & V1 & T1).
  set (s2 := copy_fields _ v r 0 s1) in *. pose proof (inv_forward Y m0 fixed YW _ _ _ _ v r I1 Hv Nd N1 Kp) as I2.
  set (g2 := Ghost ((v, r) :: phi g0) (av g0) (kept g0)) in *. pose proof sizeof_value_pos as Sp. pose proof Tp as (P1 & P2 & _). pose proof (clear_young _ _ _ YW p P1) as Cp.
  assert (G2 : grows m0 g g2).
  { destruct G0 as [X1 X2 X3 X4]. split; cbn [g2 phi av kept]; auto; [intros x Hx; right; auto|]. intros b' r' [[= <- <-]|Hr']; auto. }
  assert (O2 : forall a, clear a -> words (forward v r s2) a = words s2 a).
  { intros a Ha. unfold forward, store. cbn [words set_words].
    rewrite !upd_other; auto; intros ->; apply (Ha v Hv); fold (size v); unfold range, Bsize_wsize; nia. }
  assert (Ny : forall a, range r (size v) a -> ~ young_cell a) by (intros a Ha; now apply (nb_out _ _ _ _ _ _ _ N1)).
  assert (I3 : inv holes T g2 (forward v r s2)).
  { apply (inv_done _ _ _ _ v r); auto; [now left|]. intros i Hr. apply Z.ltb_ge in Hn. rewrite Hn. rewrite <- (F1 i Hr). unfold Op_val.
    apply O2, (clear_young _ _ _ YW), Ny. now apply field_range. }
  exists g2, []. conj; auto.
  - apply inv_store; auto. eapply target_grows; eauto.
  - unfold store at 1. cbn [words set_words]. rewrite upd_same. apply image_block; auto. now left.
  - intros a Ha Na Nv. unfold store at 1. cbn [words set_words]. rewrite upd_other, O2, O1; auto.
    intros j Hj ->. apply Nv, Av. now apply field_range.
  - change (vars (store p r (forward v r s2))) with (vars s2). congruence.
  - cbn [length g2 phi]. rewrite Ep. lia.
Qed.

(** The number of calls before a block is copied. *)
Definition cost (v : Z) : nat :=
  if Is_block v && Is_young v then if tag m0 v =? Forward_tag then 3 else if tag m0 v =? Infix_tag then 2 else 1 else 1.
Lemma cost_bounds v : (1 <= cost v <= 3)%nat.
Proof. unfold cost. destruct (_ && _); [|lia]. destruct (_ =? _); [lia|]. destruct (_ =? _); lia. Qed.
Lemma phi_length holes T g s : inv holes T g s -> (length (phi g) <= length Y)%nat.
Proof.
  intros I. rewrite <- (length_map fst). apply NoDup_incl_length; [apply (i_fun _ _ _ _ _ _ _ I)|]. intros b Hb. apply in_dom in Hb as [r Hr].
  now apply (i_dom _ _ _ _ _ _ _ I b r).
Qed.
Lemma phi_room holes T g s v : inv holes T g s -> In v Y -> ~ In v (map fst (phi g)) -> (length (phi g) < length Y)%nat.
Proof.
  intros I Hv Nd. rewrite <- (length_map fst (phi g)). apply (NoDup_incl_length (l := v :: map fst (phi g))).
  - constructor; auto. apply (i_fun _ _ _ _ _ _ _ I).
  - intros b [<-|Hb]; auto. apply in_dom in Hb as [r Hr]. now apply (i_dom _ _ _ _ _ _ _ I b r).
Qed.

Lemma image_stable ph x y : ~ young_pointer x -> image ph x y -> y = x.
Proof.
  intros N Im. inversion Im as [? ?|? ? Hx ?|? ? Yx ? ?|? ? Hx ? ? ?]; subst; auto; destruct N; auto; now apply (young_is_young _ _ _ YW).
Qed.
Lemma image_base ph x y : In x Y -> tag m0 x <> Forward_tag -> image ph x y -> In (x, y) ph.
Proof.
  intros Hx Nf Im. pose proof (young_is_young _ _ _ YW x Hx) as Yx. inversion Im as [? N|? ? _ Hr|? ? _ (Hi & _) _|? ? _ Hf]; subst; auto; [destruct N; exact Yx| |tauto].
  now apply (yw_header _ _ _ YW) in Hx.
Qed.
Lemma moved_store holes T g s p v y : inv holes T g s -> target holes g p -> image (phi g) v y -> moved holes T g p v s (store p y s).
Proof.
  intros I Tp Im. exists g, []. unfold store at 2 3. cbn [words set_words]. conj; auto.
  - now apply inv_store.
  - apply grows_refl.
  - now rewrite upd_same.
  - intros a Ha _ _. now apply upd_other.
Qed.
(** After the copy of a block of several words, which goes to the to-do list. *)
Lemma push_copy holes T g0 g s0 s v r p : inv (v :: holes) T g s -> ~ In v holes -> In (v, r) (phi g) -> In v Y -> 1 < size v -> tag m0 v < No_scan_tag ->
  grows m0 g0 g -> length (phi g) = S (length (phi g0)) -> target holes g0 p -> (forall a, range r (size v) a -> av g0 a) -> words s p = r ->
  (forall a, a <> p -> clear a -> ~ av g0 a -> words s a = words s0 a) -> vars s = vars s0 ->
  moved holes T g0 p v s0 (set_todo v (store (r + Bsize_wsize 1) (oldify_todo_list s) (store (r + Bsize_wsize 0) (Op_val m0 v 0) s))).
Proof.
  intros I Nh Hr Hv Hs Ht G L Tp Av Ep O V. pose proof sizeof_value_pos as Sp. pose proof Tp as (P1 & P2 & _). pose proof (clear_young _ _ _ YW p P1) as Cp.
  set (s1 := store (r + Bsize_wsize 0) (Op_val m0 v 0) s). set (s2 := store (r + Bsize_wsize 1) (oldify_todo_list s) s1).
  assert (T0 : target (v :: holes) g (r + Bsize_wsize 0)) by (eapply target_field; eauto; [now left | lia]).
  assert (T1 : target (v :: holes) g (r + Bsize_wsize 1)) by (eapply target_field; eauto; [now left | lia]).
  assert (I2 : inv (v :: holes) T g s2) by (apply inv_store; auto; now apply inv_store).
  assert (R : forall i, 0 <= i < size v -> av g0 (r + Bsize_wsize i)) by (intros i Hi; apply Av; now apply field_range).
  assert (O2 : forall a, ~ av g0 a -> words s2 a = words s a).
  { intros a Na. unfold s2, s1, store. cbn [words set_words]. rewrite !upd_other; auto; intros ->; apply Na, R; lia. }
  exists g, [v]. conj; auto.
  - apply (inv_push _ _ _ _ v r); auto.
    + rewrite <- (Op_val_0 (words s2) r), <- (Op_val_0 m0 v). unfold Op_val at 1, s2, s1, store. cbn [words set_words].
      rewrite upd_other by (unfold Bsize_wsize; lia). apply upd_same.
    + unfold Op_val, s2 at 1, store at 1. cbn [words set_words]. apply upd_same.
  - change (words (set_todo v s2)) with (words s2). rewrite O2, Ep by auto. now apply image_block.
  - intros a Ha Ny Na. change (words (set_todo v s2)) with (words s2). rewrite O2 by auto. auto.
  - cbn [length]. lia.
Qed.

Lemma oldify_one_ok : forall fuel holes T g s v p, inv holes T g s -> value_ok Y m0 v -> target holes g p ->
  (3 * (length Y - length (phi g)) + cost v <= fuel)%nat ->
  match caml_oldify_one fuel v p s with
  | Ok s' => moved holes T g p v s s'
  | Raise e => e = Out_of_memory
  | Stuck => False
  end.
Proof.
  induction fuel as [|fuel IH]; intros holes T g s v p I Vok Tp Hf; [pose proof (cost_bounds v); lia|]. cbn [caml_oldify_one].
  pose proof (cost_bounds v) as Cb. destruct (Is_block v && Is_young v) eqn:E0.
  2: { apply moved_store; auto. apply image_other. intros [X1 X2]. now rewrite X1, X2 in E0. }
  pose proof (proj1 (andb_true_iff _ _) E0) as E. destruct (Vok E) as [Hv|Hv].
  2: { destruct (young_infix_hd _ _ _ _ v I Hv) as [-> N]. apply Z.eqb_neq in N. rewrite N. pose proof Hv as (Ht & Hb & Hc & _).
       assert (Cv : cost v = 2%nat) by (unfold cost; now rewrite E0, Ht). unfold tag in Ht. rewrite Ht in *.
       cbn [Z.ltb Z.leb Z.eqb Infix_tag No_scan_tag Z.compare Pos.compare Pos.compare_cont Pos.eqb]. set (b := v - _) in *.
       assert (Hb1 : cost b = 1%nat) by (unfold cost; rewrite Hc; now destruct (Is_block b && Is_young b)).
       assert (K := IH holes T g s b p I ltac:(intros _; auto) Tp). rewrite Hb1 in K. rewrite Cv in Hf. specialize (K ltac:(lia)).
       destruct (caml_oldify_one fuel b p s) as [s'|e|]; auto. destruct K as (g' & T' & I' & G' & Im & O' & V' & L'). exists g', T'.
       assert (Hr : In (b, words s' p) (phi g')) by (apply image_base; auto; now rewrite Hc).
       conj; auto.
       - apply inv_store; auto. eapply target_grows; eauto.
       - unfold store at 1. cbn [words set_words]. rewrite upd_same. now apply image_infix.
       - intros a Ha Ny Na. unfold store at 1. cbn [words set_words]. rewrite upd_other by auto. auto. }
  destruct (young_block_cases _ _ _ _ v I Hv) as [(r & Hr & -> & Er)|(Nd & Eh & Nh & Fs)].
  { cbn [Z.eqb]. rewrite Op_val_0, Er. apply moved_store; auto. now apply image_block. }
  rewrite Eh. apply Z.eqb_neq in Nh. rewrite Nh. clear Nh. fold (tag m0 v) (wosize m0 v). fold (size v).
  assert (Nv : ~ In v holes) by (intros K; now destruct (i_holes _ _ _ _ _ _ _ I v K)).
  pose proof (phi_room _ _ _ _ v I Hv Nd) as Rm. destruct (yw_header _ _ _ YW v Hv) as (_ & Hs & Hi).
  destruct (Z.ltb_spec (tag m0 v) Infix_tag) as [Lt|Ge].
  - assert (Nf : tag m0 v <> Forward_tag) by (intros K; rewrite K in Lt; easy). pose proof (copy_start holes T g s v p I Hv Nd ltac:(tauto) Tp) as K.
    destruct (alloc_shr (size v) (tag m0 v) s) as [[r s1]|e|]; auto. destruct K as (-> & g1 & I2 & Hr & G & L & Av & Ep & O & V & Et).
    assert (Ns : tag m0 v < No_scan_tag) by (unfold Infix_tag, No_scan_tag in *; lia). destruct (Z.ltb_spec 1 (size v)) as [Gt|Le].
    + exact (push_copy holes T g g1 s _ v r p I2 Nv Hr Hv Gt Ns G L Tp Av Ep O V).
    + assert (Es : size v = 1) by lia. assert (K := IH (v :: holes) T g1 _ (Op_val m0 v 0) (r + Bsize_wsize 0) I2).
      pose proof (cost_bounds (Op_val m0 v 0)). pose proof (phi_length _ _ _ _ I2).
      assert (Vf : value_ok Y m0 (Op_val m0 v 0)) by (apply (yw_field _ _ _ YW v); auto; lia).
      specialize (K Vf ltac:(eapply target_field; eauto; [now left | lia]) ltac:(lia)).
      destruct (caml_oldify_one fuel _ _ _) as [s'|e|]; auto. eapply finish_one; eauto.
  - destruct (Z.leb_spec No_scan_tag (tag m0 v)) as [Ns|Ns].
    + pose proof (copy_no_scan holes T g s v p I Hv Nd Ns Nv Tp) as K. destruct (alloc_shr (size v) (tag m0 v) s) as [[r s1]|e|]; auto.
    + apply Z.eqb_neq in Hi as Hi'. rewrite Hi'. assert (Ef : tag m0 v = Forward_tag) by (unfold Infix_tag, No_scan_tag, Forward_tag in *; lia).
      assert (Es : size v = 1) by now apply (yw_forward _ _ _ YW). unfold Forward_value. rewrite (Fs 0) by lia. rewrite (keep_then _ _ _ _ v I Hv Ef).
      assert (Vf : value_ok Y m0 (Op_val m0 v 0)) by (apply (yw_field _ _ _ YW v); auto; lia). assert (Cv : cost v = 3%nat) by (unfold cost; now rewrite E0, Ef).
      destruct (keeps v) eqn:Ek.
      * pose proof (copy_start holes T g s v p I Hv Nd ltac:(auto) Tp) as K. rewrite Es, Ef in K.
        destruct (alloc_shr 1 Forward_tag s) as [[r s1]|e|]; auto. destruct K as (_ & g1 & I2 & Hr & G & L & Av & Ep & O & V & Et).
        assert (K := IH (v :: holes) T g1 _ (Op_val m0 v 0) (r + Bsize_wsize 0) I2 Vf ltac:(eapply target_field; eauto; [now left | lia])).
        pose proof (cost_bounds (Op_val m0 v 0)). pose proof (phi_length _ _ _ _ I2). specialize (K ltac:(lia)).
        destruct (caml_oldify_one fuel _ _ _) as [s'|e|]; auto. eapply finish_one; eauto. now rewrite Es.
      * assert (C : (cost (Op_val m0 v 0) <= 2)%nat).
        { unfold cost. destruct (Is_block (Op_val m0 v 0) && Is_young (Op_val m0 v 0)) eqn:Y0; [|lia]. apply andb_true_iff in Y0.
          pose proof (short_not_forward v Hv Ef Ek Y0) as Nf. apply Z.eqb_neq in Nf. rewrite Nf. destruct (tag m0 (Op_val m0 v 0) =? Infix_tag); lia. }
        assert (K := IH holes T g s (Op_val m0 v 0) p I Vf Tp ltac:(lia)). destruct (caml_oldify_one fuel _ _ _) as [s'|e|]; auto.
        destruct K as (g' & T' & I' & G' & Im & K). exists g', T'. conj; try tauto. now apply image_forward.
Qed.
End Copy.

Section Collect.
Context {A : Arch} {Env : Heap_env} {Young : Young_heap} {H : Type} {SH : Shared_heap H} {SO : Shared_heap_ok H}.
Variables (Y : list Z) (m0 : mem) (fixed : Z -> Prop).
Notation inv := (inv Y m0 fixed).
Notation target := (target m0 fixed).
Notation size := (size m0).
Notation clear := (clear Y m0).
Notation image := (image Y m0).
Notation finished := (finished Y m0).
Notation moved := (moved Y m0 fixed).
Notation value_ok := (value_ok Y m0).
Hypothesis (YW : young_wf Y m0 fixed).

(** What is left to copy. *)
Definition left_ (g : ghost) : nat := length Y - length (phi g).

Lemma grows_left g g' holes T s : inv holes T g' s -> grows m0 g g' -> (length (phi g) <= length (phi g'))%nat -> (left_ g' <= left_ g)%nat.
Proof. intros _ _ L. unfold left_. lia. Qed.

(** ** The to-do list *)

(** One field of a copy. *)
Definition field_step (fuel : nat) (f a : Z) (s : minor H) : res (minor H) :=
  if Is_block f && Is_young f then caml_oldify_one fuel f a s else Ok (store a f s).
Lemma field_step_ok fuel holes T g s f p : inv holes T g s -> value_ok f -> target holes g p -> (3 * left_ g + 3 <= fuel)%nat ->
  match field_step fuel f p s with Ok s' => moved holes T g p f s s' | Raise e => e = Out_of_memory | Stuck => False end.
Proof.
  intros I Vf Tp Hf. unfold field_step. destruct (Is_block f && Is_young f) eqn:E.
  - apply oldify_one_ok; auto. pose proof (cost_bounds m0 f). unfold left_ in Hf. lia.
  - apply moved_store; auto. apply image_other. intros [X1 X2]. now rewrite X1, X2 in E.
Qed.

Lemma old_field holes T g s b r i : inv holes T g s -> In (b, r) (phi g) -> 1 <= i < size b -> Op_val (words s) b i = Op_val m0 b i.
Proof.
  intros I Hr Hi. destruct (i_forwarded _ _ _ _ _ _ _ I b r Hr) as (_ & _ & F). apply F. pose proof sizeof_value_pos. unfold Bsize_wsize. nia.
Qed.
(** The fields of the copy [r] of [v] before [i] are finished. *)
Definition fields_done (g : ghost) (s : minor H) (v r i : Z) : Prop := forall j, 0 <= j < i -> image (phi g) (Op_val m0 v j) (Op_val (words s) r j).
Lemma field_moved holes T g s s' v r i : inv holes T g s -> In v holes -> In (v, r) (phi g) -> 0 <= i < size v -> fields_done g s v r i ->
  moved holes T g (r + Bsize_wsize i) (Op_val m0 v i) s s' ->
  exists g' T', inv holes (T' ++ T) g' s' /\ grows m0 g g' /\ fields_done g' s' v r (i + 1) /\ In (v, r) (phi g') /\
    (forall a, a <> r + Bsize_wsize i -> clear a -> ~ av g a -> words s' a = words s a) /\ vars s' = vars s /\ (length T' + length (phi g) <= length (phi g'))%nat.
Proof.
  intros I Hh Hr Hi F (g' & T' & I' & G' & Im & O & V & L). exists g', T'. conj; auto.
  - intros j Hj. destruct (Z.eq_dec j i) as [->|Nj]; [exact Im|]. destruct (i_copy _ _ _ _ _ _ _ I v r Hr) as (_ & _ & _ & _ & C & _).
    assert (Hj' : 0 <= j < size v) by lia. destruct (field_range r (size v) j Hj') as [R _]. destruct (C _ R) as (C1 & C2 & _).
    unfold Op_val at 2. rewrite O; auto.
    + apply (image_mono _ _ (phi g)); [apply G' | apply F; lia].
    + unfold Bsize_wsize. pose proof sizeof_value_pos. nia.
    + apply (clear_young _ _ _ YW); auto.
  - now apply (gr_phi _ _ _ G').
Qed.

Lemma mopup_fields_ok fuel v r : forall n i holes T g s, inv holes T g s -> In v holes -> In (v, r) (phi g) -> tag m0 v < No_scan_tag ->
  1 <= i -> i + Z.of_nat n = size v -> fields_done g s v r i -> (3 * left_ g + 3 <= fuel)%nat ->
  match mopup_fields n fuel v r i s with
  | Ok s' => exists g' T', inv holes (T' ++ T) g' s' /\ grows m0 g g' /\ fields_done g' s' v r (size v) /\ In (v, r) (phi g') /\
      (forall a, ~ range r (size v) a -> clear a -> ~ av g a -> words s' a = words s a) /\ vars s' = vars s /\ (length T' + length (phi g) <= length (phi g'))%nat
  | Raise e => e = Out_of_memory
  | Stuck => False
  end.
Proof.
  induction n as [|n IH]; intros i holes T g s I Hh Hr Ht Hi Hn F Hf; cbn [mopup_fields].
  - exists g, []. replace (size v) with i by lia. conj; auto using grows_refl.
  - rewrite (old_field _ _ _ _ v r i I Hr) by lia. fold (field_step fuel (Op_val m0 v i) (r + Bsize_wsize i) s).
    assert (Hv : In v Y) by now apply (i_dom _ _ _ _ _ _ _ I v r).
    assert (Vf : value_ok (Op_val m0 v i)) by (apply (yw_field _ _ _ YW v); auto; lia).
    assert (Tp : target holes g (r + Bsize_wsize i)) by (eapply target_field; eauto; lia).
    pose proof (field_step_ok fuel holes T g s _ _ I Vf Tp Hf) as K. destruct (field_step _ _ _ _) as [s1|e|]; auto.
    destruct (field_moved _ _ _ _ _ v r i I Hh Hr ltac:(lia) F K) as (g1 & T1 & I1 & G1 & F1 & Hr1 & O1 & V1 & L1).
    pose proof (grows_left _ _ _ _ _ I1 G1 ltac:(lia)) as Lf.
    specialize (IH (i + 1) holes (T1 ++ T) g1 s1 I1 Hh Hr1 Ht ltac:(lia) ltac:(lia) F1 ltac:(lia)).
    destruct (mopup_fields _ _ _ _ _ _) as [s2|e|]; auto. destruct IH as (g2 & T2 & I2 & G2 & F2 & Hr2 & O2 & V2 & L2).
    exists g2, (T2 ++ T1). rewrite <- app_assoc. conj; auto.
    + eapply grows_trans; eauto.
    + intros a Nr Ca Na. rewrite O2, O1; auto; [intros ->; apply Nr, field_range; lia|]. intros K'. apply Na. now apply (gr_av _ _ _ G1).
    + congruence.
    + rewrite length_app. lia.
Qed.

(** One turn. *)
Definition outside (g0 : ghost) (a : Z) : Prop := clear a /\ ~ av g0 a.
Lemma copy_not_outside g0 holes T g s b r a : phi g0 = [] -> inv holes T g s -> grows m0 g0 g -> In (b, r) (phi g) -> outside g0 a -> ~ range r (size b) a.
Proof. intros E0 I G Hr [_ Na] R. destruct (gr_new _ _ _ G b r Hr) as [K|K]; [now rewrite E0 in K | now apply Na, K]. Qed.

Lemma mopup_ok fuel g0 : phi g0 = [] -> forall turns T g s, inv [] T g s -> grows m0 g0 g -> (3 * left_ g + 3 <= fuel)%nat -> (left_ g + length T <= turns)%nat ->
  match caml_oldify_mopup turns fuel s with
  | Ok s' => exists g', inv [] [] g' s' /\ grows m0 g0 g' /\ grows m0 g g' /\ (forall a, outside g0 a -> words s' a = words s a) /\ vars s' = vars s
  | Raise e => e = Out_of_memory
  | Stuck => False
  end.
Proof.
  intros E0. induction turns as [|turns IH]; intros T g s I G0 Hf Ht.
  - destruct T as [|b T]; [|cbn in Ht; lia]. cbn [caml_oldify_mopup]. rewrite (i_chain _ _ _ _ _ _ _ I). cbn [Z.eqb negb].
    exists g. conj; auto using grows_refl.
  - destruct T as [|b T]; cbn [caml_oldify_mopup].
    { rewrite (i_chain _ _ _ _ _ _ _ I). cbn [Z.eqb negb]. exists g. conj; auto using grows_refl. }
    destruct (inv_pop Y m0 fixed _ _ _ _ _ I) as (r & Hr & Et & Eb & Er & Nh & Hs & Hn & I1). rewrite Et.
    assert (Hb : In b Y) by now apply (i_dom _ _ _ _ _ _ _ I b r).
    assert (Nz : b <> 0) by (destruct (yw_block _ _ _ YW b Hb) as (_ & X & _); pose proof (yw_start _ _ _ YW); pose proof sizeof_value_pos; lia).
    apply Z.eqb_neq in Nz. rewrite Nz. cbn [negb]. rewrite !Op_val_0, Eb. set (s1 := set_todo _ s) in *.
    change (words s1 r) with (words s r). rewrite Er.
    assert (Vf : value_ok (m0 b)) by (rewrite <- (Op_val_0 m0 b); apply (yw_field _ _ _ YW b); auto; lia).
    assert (Tp : target [b] g (r + Bsize_wsize 0)) by (eapply target_field; eauto; [now left | lia]).
    assert (F0 : fields_done g s1 b r 0) by (intros j Hj; lia).
    assert (K : match (if Is_block (m0 b) && Is_young (m0 b) then caml_oldify_one fuel (m0 b) (r + Bsize_wsize 0) s1 else Ok s1) with
                | Ok s' => moved [b] T g (r + Bsize_wsize 0) (Op_val m0 b 0) s1 s' | Raise e => e = Out_of_memory | Stuck => False end).
    { rewrite Op_val_0. pose proof (field_step_ok fuel [b] T g s1 _ _ I1 Vf Tp Hf) as K. unfold field_step in K. destruct (Is_block _ && _) eqn:E; auto.
      exists g, []. conj; auto using grows_refl. change (words s1) with (words s). replace (r + Bsize_wsize 0) with r by (unfold Bsize_wsize; lia). rewrite Er.
      apply image_other. intros [X1 X2]. now rewrite X1, X2 in E. }
    destruct (if Is_block (m0 b) && Is_young (m0 b) then _ else _) as [s2|e|]; auto.
    destruct (field_moved _ _ _ _ _ b r 0 I1 ltac:(now left) Hr ltac:(lia) F0 K) as (g2 & T2 & I2 & G2 & F2 & Hr2 & O2 & V2 & L2).
    pose proof (grows_left _ _ _ _ _ I2 G2 ltac:(lia)) as Lf2. destruct (i_copy _ _ _ _ _ _ _ I2 b r Hr2) as (_ & _ & _ & Ew & _).
    fold (wosize (words s2) r). rewrite Ew.
    pose proof (mopup_fields_ok fuel b r (Z.to_nat (size b - 1)) 1 [b] (T2 ++ T) g2 s2 I2 ltac:(now left) Hr2 Hn ltac:(lia) ltac:(lia) F2 ltac:(lia)) as K3.
    destruct (mopup_fields _ _ _ _ _ _) as [s3|e|]; auto. destruct K3 as (g3 & T3 & I3 & G3 & F3 & Hr3 & O3 & V3 & L3).
    pose proof (grows_left _ _ _ _ _ I3 G3 ltac:(lia)) as Lf3.
    assert (I4 : inv [] (T3 ++ T2 ++ T) g3 s3).
    { apply (inv_done _ _ _ _ _ _ _ b r); auto. intros i Hi. apply Z.ltb_lt in Hn. rewrite Hn. now apply F3. }
    assert (G3' : grows m0 g g3) by (eapply grows_trans; eauto). assert (G03 : grows m0 g0 g3) by (eapply grows_trans; eauto).
    pose proof (phi_length _ _ _ _ _ _ _ I4) as Lp.
    assert (Hl : (left_ g3 + length (T3 ++ T2 ++ T) <= turns)%nat) by (rewrite !length_app; cbn [length] in Ht; unfold left_ in *; lia).
    specialize (IH _ g3 s3 I4 G03 ltac:(lia) Hl). destruct (caml_oldify_mopup turns fuel s3) as [s4|e|]; auto.
    destruct IH as (g4 & I5 & G4 & G4' & O4 & V4). exists g4. conj; auto.
    + eapply grows_trans; eauto.
    + intros a Oa. pose proof Oa as [Ca Na]. pose proof (copy_not_outside g0 _ _ _ _ b r a E0 I4 G03 Hr3 Oa) as Nr.
      rewrite O4, O3, O2; auto.
      * intros ->. apply Nr, field_range. lia.
      * intros X. apply Na. now apply (gr_av _ _ _ G0).
      * intros X. apply Na, (gr_av _ _ _ G0), (gr_av _ _ _ G2), X.
    + rewrite V4, V3, V2. reflexivity.
Qed.

(** ** Roots *)

Lemma image_not_young holes T g s x y : inv holes T g s -> image (phi g) x y -> ~ young_pointer y.
Proof.
  intros I. pose proof sizeof_value_pos as Sp.
  assert (K : forall b r a, In (b, r) (phi g) -> r <= a < r + Bsize_wsize (size b) -> ~ young_pointer a).
  { intros b r a Hr Ha [_ Hy]. destruct (i_copy _ _ _ _ _ _ _ I b r Hr) as (_ & _ & _ & _ & C & _). destruct (C a) as (Ny & _); [unfold range; lia|].
    apply Ny. unfold Is_young in Hy. apply andb_true_iff in Hy as [H1 H2]. apply Z.ltb_lt in H1, H2. unfold young_cell. lia. }
  induction 1 as [x N|x r Hx Hr|x r _ (_ & Hb & _ & i & Hi & Hj & E) Hr|x y Hx Ht Hk Im IH]; auto.
  - apply (K x r); auto. pose proof (size_pos _ _ _ YW x Hx). unfold Bsize_wsize. nia.
  - eapply K; eauto. set (o := Infix_offset_hd (Hd_op m0 x)) in *. unfold Bsize_wsize in *. nia.
Qed.

Section Roots.
Variable (g0 : ghost).
Hypothesis (E0 : phi g0 = []).

(** A location outside of the heap's free memory that may be written. *)
Definition location_ok (p : Z) : Prop := ~ young_cell p /\ ~ av g0 p /\ ~ kept g0 p /\ ~ fixed p.
Lemma location_outside p : location_ok p -> outside g0 p.
Proof. intros (P1 & P2 & _). split; auto. now apply (clear_young _ _ _ YW). Qed.
Lemma location_target holes T g s p : inv holes T g s -> grows m0 g0 g -> location_ok p -> target holes g p.
Proof.
  intros I G L. pose proof (location_outside p L) as O. destruct L as (P1 & P2 & P3 & P4). unfold MinorInv.target. conj; auto.
  - intros K. apply P2. now apply (gr_av _ _ _ G).
  - intros K. destruct (gr_kept _ _ _ G p K); auto.
  - intros b r Hr R. destruct (copy_not_outside _ _ _ _ _ b r p E0 I G Hr O R).
Qed.

(** The locations of [l] hold images, the others are as before. *)
Definition updated (l : list Z) (g : ghost) (s : minor H) : Prop := forall a, outside g0 a ->
  (In a l -> image (phi g) (m0 a) (words s a)) /\ (~ In a l -> words s a = m0 a).
Definition root_ok (p : Z) : Prop := location_ok p /\ value_ok (m0 p).

Lemma updated_value l g s holes T p : inv holes T g s -> updated l g s -> root_ok p -> value_ok (words s p).
Proof.
  intros I U [L V]. destruct (U p (location_outside p L)) as [U1 U2]. destruct (in_dec Z.eq_dec p l) as [D|D].
  - intros Yp. destruct (image_not_young _ _ _ _ _ _ I (U1 D) Yp).
  - now rewrite (U2 D).
Qed.
Lemma updated_step l g s holes T p s' : inv holes T g s -> grows m0 g0 g -> updated l g s -> root_ok p -> moved holes T g p (words s p) s s' ->
  exists g' T', inv holes (T' ++ T) g' s' /\ grows m0 g g' /\ updated (p :: l) g' s' /\ vars s' = vars s /\ (length T' + length (phi g) <= length (phi g'))%nat.
Proof.
  intros I G U [L V] (g' & T' & I' & G' & Im & O & V' & Ln). exists g', T'. conj; auto. intros a Oa. pose proof Oa as [Ca Na].
  assert (Na' : ~ av g a) by (intros X; apply Na; now apply (gr_av _ _ _ G)). destruct (U a Oa) as [U1 U2].
  destruct (Z.eq_dec a p) as [->|N].
  - split; [intros _|intros X; destruct X; now left]. destruct (in_dec Z.eq_dec p l) as [D|D].
    + pose proof (image_not_young _ _ _ _ _ _ I (U1 D)) as Ny. apply (image_mono _ _ (phi g)); [apply G'|].
      rewrite (image_stable _ _ _ YW _ _ _ Ny Im). auto.
    + rewrite <- (U2 D). exact Im.
  - rewrite O by auto. split; [intros [X|X]; [congruence|] | intros X; apply U2; intros K; apply X; now right].
    apply (image_mono _ _ (phi g)); [apply G' | auto].
Qed.

Lemma oldify_locations_ok fuel : forall l done T g s, inv [] T g s -> grows m0 g0 g -> updated done g s -> Forall root_ok l -> (3 * left_ g + 3 <= fuel)%nat ->
  match oldify_locations fuel l s with
  | Ok s' => exists g' T', inv [] (T' ++ T) g' s' /\ grows m0 g0 g' /\ grows m0 g g' /\ updated (rev l ++ done) g' s' /\ vars s' = vars s /\
      (length T' + length (phi g) <= length (phi g'))%nat
  | Raise e => e = Out_of_memory
  | Stuck => False
  end.
Proof.
  induction l as [|p l IH]; intros done T g s I G U F Hf; cbn [oldify_locations].
  - exists g, []. conj; auto using grows_refl.
  - inversion_clear F as [|? ? Fp Fl]. pose proof (location_target _ _ _ _ p I G (proj1 Fp)) as Tp.
    pose proof (updated_value _ _ _ _ _ p I U Fp) as Vp. pose proof (cost_bounds m0 (words s p)) as Cb.
    pose proof (oldify_one_ok _ _ _ YW fuel [] T g s _ p I Vp Tp ltac:(unfold left_ in Hf; lia)) as K.
    destruct (caml_oldify_one fuel _ p s) as [s1|e|]; auto.
    destruct (updated_step _ _ _ _ _ p s1 I G U Fp K) as (g1 & T1 & I1 & G1 & U1 & V1 & L1).
    pose proof (grows_left _ _ _ _ _ I1 G1 ltac:(lia)) as Lf. assert (G01 : grows m0 g0 g1) by (eapply grows_trans; eauto).
    specialize (IH (p :: done) (T1 ++ T) g1 s1 I1 G01 U1 Fl ltac:(lia)). destruct (oldify_locations fuel l s1) as [s2|e|]; auto.
    destruct IH as (g2 & T2 & I2 & G02 & G2 & U2 & V2 & L2). exists g2, (T2 ++ T1). rewrite <- app_assoc. conj; auto.
    + eapply grows_trans; eauto.
    + cbn [rev]. now rewrite <- app_assoc.
    + congruence.
    + rewrite length_app. lia.
Qed.

(** ** Weak references *)

(** A weak reference to a block that has been copied points to the copy, the others
    are erased. *)
Definition weak_image (ph : list (Z * Z)) (x y : Z) : Prop :=
  (~ young_pointer x /\ y = x) \/ (young_pointer x /\ In (x, y) ph) \/ (young_pointer x /\ ~ In x (map fst ph) /\ y = caml_weak_none).
(** A weak reference may be to a block that is not in [Y]. *)
Definition weak_ok (x : Z) : Prop := young_pointer x -> In x Y \/ (~ In x Y /\ Hd_op m0 x <> 0 /\ (infix_in Y m0 x \/ (clear (x - sizeof_value) /\ young_cell (x - sizeof_value)))).

(** [weak]: the references dealt with. *)
Definition weak_updated (l weak : list Z) (g : ghost) (s : minor H) : Prop := forall a, outside g0 a ->
  (In a weak -> ~ In a l -> weak_image (phi g) (m0 a) (words s a)) /\ (In a l -> image (phi g) (m0 a) (words s a)) /\ (~ In a l -> ~ In a weak -> words s a = m0 a).

(** The words of the minor heap that are in no block of [Y] do not change. *)
Definition dead_kept (s : minor H) : Prop := forall a, young_cell a -> clear a -> words s a = m0 a.

Hypothesis (None_old : ~ young_pointer caml_weak_none).
Lemma weak_ref_ok l weak g s p : inv [] [] g s -> grows m0 g0 g -> weak_updated l weak g s -> location_ok p -> ~ In p l -> weak_ok (m0 p) -> dead_kept s ->
  inv [] [] g (weak_ref s p) /\ weak_updated l (p :: weak) g (weak_ref s p) /\ vars (weak_ref s p) = vars s /\
  (forall a, a <> p -> words (weak_ref s p) a = words s a).
Proof.
  intros I G U L Nl W D. pose proof (location_outside p L) as Op. pose proof (location_target _ _ _ _ p I G L) as Tp.
  assert (St : forall y, weak_image (phi g) (m0 p) y -> inv [] [] g (store p y s) /\ weak_updated l (p :: weak) g (store p y s) /\
    vars (store p y s) = vars s /\ (forall a, a <> p -> words (store p y s) a = words s a)).
  { intros y Wy. assert (O : forall a, a <> p -> words (store p y s) a = words s a) by (intros; now apply upd_other). conj; auto.
    - now apply inv_store.
    - intros a Oa. destruct (U a Oa) as (U1 & U2 & U3). destruct (Z.eq_dec a p) as [->|N].
      + assert (E : words (store p y s) p = y) by apply upd_same. rewrite E. split; [auto|]. split; [tauto|]. intros _ X. destruct X. now left.
      + rewrite O by auto. split; [intros [X|X]; [congruence | auto]|]. split; auto. intros X1 X2. apply U3; auto. intros K. apply X2. now right. }
  assert (Keep : weak_image (phi g) (m0 p) (words s p) -> inv [] [] g s /\ weak_updated l (p :: weak) g s /\ vars s = vars s /\ (forall a, a <> p -> words s a = words s a)).
  { intros Wy. conj; auto. intros a Oa. destruct (U a Oa) as (U1 & U2 & U3). split; [intros [<-|X]; auto|]. split; auto. intros X1 X2. apply U3; auto. intros K. apply X2. now right. }
  unfold weak_ref. destruct (U p Op) as (U1 & _ & U3). destruct (in_dec Z.eq_dec p weak) as [Dw|Dw].
  - specialize (U1 Dw Nl). assert (Ny : ~ young_pointer (words s p)).
    { destruct U1 as [[N ->]|[[_ Hr]|[_ [_ ->]]]]; auto. eapply (image_not_young _ _ _ _ (m0 p)); [exact I|]. apply image_block; auto.
      now apply (i_dom _ _ _ _ _ _ _ I (m0 p) (words s p)). }
    destruct (Is_block (words s p) && Is_young (words s p)) eqn:E; [|auto]. apply andb_true_iff in E. now destruct Ny.
  - specialize (U3 Nl Dw). destruct (Is_block (words s p) && Is_young (words s p)) eqn:E.
    2: { apply Keep. left. rewrite U3 in *. split; auto. intros [X1 X2]. now rewrite X1, X2 in E. }
    apply andb_true_iff in E. rewrite U3 in *. set (x := m0 p) in *. destruct (W E) as [Hx|(Hx & Hn & Hd)].
    + destruct (young_block_cases _ _ _ YW _ _ _ _ x I Hx) as [(r & Hr & -> & Er)|(Nd & Eh & Nh & _)].
      * cbn [Z.eqb]. rewrite Op_val_0, Er. apply St. right. left. auto.
      * rewrite Eh. apply Z.eqb_neq in Nh. rewrite Nh. apply St. right. right. auto.
    + assert (Eh : Hd_op (words s) x = Hd_op m0 x) by (destruct Hd as [Hd|Hd]; [now apply (young_infix_hd Y m0 fixed [] [] g s x) | now apply D]).
      rewrite Eh. apply Z.eqb_neq in Hn. rewrite Hn. apply St. right. right. split; auto. split; auto. intros K. apply in_dom in K as [r Hr].
      now apply Hx, (i_dom _ _ _ _ _ _ _ I x r).
Qed.
Lemma weak_refs_ok l g : forall ws weak s, inv [] [] g s -> grows m0 g0 g -> weak_updated l weak g s ->
  Forall (fun w => location_ok w /\ weak_ok (m0 w) /\ ~ In w l) ws -> dead_kept s ->
  let s' := fold_left weak_ref ws s in inv [] [] g s' /\ weak_updated l (rev ws ++ weak) g s' /\ vars s' = vars s.
Proof.
  induction ws as [|w ws IH]; intros weak s I G U F D; cbn [fold_left]; [auto|].
  inversion_clear F as [|? ? (Lw & Ww & Nw) Fw]. destruct (weak_ref_ok l weak g s w I G U Lw Nw Ww D) as (I1 & U1 & V1 & O1).
  destruct (IH (w :: weak) (weak_ref s w) I1 G U1 Fw) as (I2 & U2 & V2).
  { intros a Ya Ca. rewrite O1; [auto|]. intros ->. now apply (proj1 Lw). }
  cbn [rev]. rewrite <- app_assoc. conj; auto. congruence.
Qed.
End Roots.
End Collect.
