(* ===== verification/MinorAlloc.v ===== *)
(** MinorAlloc: [caml_alloc_shr] with the next-fit policy keeps the promise that the
    minor collector relies on, as long as the heap does not grow. *)
From Stdlib Require Import ZArith Lia List Bool.
From S2P Require Import Prelude Mlvalues InterpState ExternOutput MarshalBytes MarshalTrail MarshalDecode Gc GcGraph GcInv.
From S2P Require Import Freelist FlTile FlFree FlBlock FlSweep FlAlloc PageTable AllocShr Minor MinorInv.
Import ListNotations.
Local Open Scope Z_scope.

Section Cover.
Context {A : Arch} {Sn : Sentinel}.

(** The blocks cover the parts of the heap. *)
Lemma tile_cover m a bs : forall c l, tile m c l bs -> c <= a < l -> exists b, In b bs /\ range b (wosize m b) a.
Proof.
  induction bs as [|x bs IH]; intros c l; cbn [tile]; [lia|]. intros (E & Ho & T) Ha. destruct (Z_lt_ge_dec a (x + bsize m x)) as [L|L].
  - exists x. split; [now left|]. unfold range, bsize in *. lia.
  - destruct (IH _ _ T ltac:(lia)) as (b & Hb & R). exists b. split; [now right | auto].
Qed.
Lemma tiled_cover m S a : tiled m S -> inside (map fst S) a -> exists b, In b (blocks S) /\ range b (wosize m b) a.
Proof.
  intros T (p & Hp & Ha). apply in_map_iff in Hp as (s & <- & Hs). pose proof (proj1 (Forall_forall _ _) (ti_segs m S T) s Hs) as O.
  destruct (tile_cover m a _ _ _ O Ha) as (b & Hb & R). exists b. split; auto. apply in_flat_map. eauto.
Qed.
Lemma tiled_inside m S b a : tiled m S -> In b (blocks S) -> range b (wosize m b) a -> inside (map fst S) a.
Proof.
  intros T Hb R. destruct (tiled_block m S b T Hb) as (s & Hs & _ & _ & L1 & L2). exists (fst s). split; [now apply in_map|].
  unfold range, bsize in *. lia.
Qed.
Lemma tiled_disjoint m S x y a : tiled m S -> In x (blocks S) -> In y (blocks S) -> range x (wosize m x) a -> range y (wosize m y) a -> x = y.
Proof.
  intros T Hx Hy Rx Ry. destruct (Z.eq_dec x y) as [|N]; auto. destruct (tiled_apart m S T x y Hx Hy N) as [K|K]; unfold range, bsize in *; lia.
Qed.
Lemma tile_length m bs : forall c l, tile m c l bs -> Z.of_nat (length bs) * sizeof_value <= l - c.
Proof.
  pose proof sizeof_value_pos as Sp. induction bs as [|x bs IH]; intros c l; cbn [tile length]; [lia|]. intros (E & Ho & T).
  specialize (IH _ _ T). pose proof (bsize_nonneg m x Ho). nia.
Qed.
Definition total_bytes (S : list (Z * Z)) : Z := fold_right (fun s n => snd s - fst s + n) 0 S.
Lemma blocks_length m S : tiled m S -> Z.of_nat (length (blocks S)) * sizeof_value <= total_bytes (map fst S).
Proof.
  intros [_ O]. induction O as [|s S Os O IH]; cbn [blocks flat_map map total_bytes fold_right]; [cbn; lia|]. fold (blocks S) (total_bytes (map fst S)).
  rewrite length_app. pose proof (tile_length m _ _ _ Os). lia.
Qed.
Lemma sizeof_even : exists k, sizeof_value = 2 * k.
Proof. unfold sizeof_value, WORD. destruct ARCH_SIXTYFOUR; [exists 4 | exists 2]; reflexivity. Qed.
Lemma tile_even m bs : forall c l, Z.even c = true -> tile m c l bs -> forall b, In b bs -> Z.even b = true.
Proof.
  destruct sizeof_even as [k Ek]. induction bs as [|x bs IH]; intros c l Ec; cbn [tile]; [easy|]. intros (E & Ho & T).
  assert (Ex : Z.even x = true) by (rewrite E, Ek, Z.even_add, Ec, Z.even_mul; reflexivity).
  intros b [<-|Hb]; auto. apply (IH (x + bsize m x) l); auto. unfold bsize, Bsize_wsize. rewrite Ek, Z.even_add, Ex, Z.even_mul, Z.even_mul. cbn [Z.even orb]. now rewrite orb_true_r.
Qed.
Lemma even_block b : Z.even b = true -> Is_block b = true.
Proof. intros E. unfold Is_block. change 1 with (Z.ones 1). rewrite Z.land_ones by lia. apply Z.eqb_eq. change (2 ^ 1) with 2. rewrite Zmod_even, E. reflexivity. Qed.
Lemma tiled_even m S b : tiled m S -> Forall (fun s => Z.even (fst s) = true) (map fst S) -> In b (blocks S) -> Is_block b = true.
Proof.
  intros [_ O] E Hb. apply even_block. apply in_flat_map in Hb as (s & Hs & Hb). pose proof (proj1 (Forall_forall _ _) O s Hs) as Os.
  eapply tile_even; [|exact Os|exact Hb]. apply (proj1 (Forall_forall _ _) E (fst s)). now apply in_map.
Qed.

(** What an allocation writes. *)
Lemma allocate_block_writes wh prev cur m f : let '(_, m', f') := allocate_block wh 0 prev cur m f in
  (forall a, a <> prev -> a <> cur - sizeof_value -> m' a = m a) /\ policy f' = policy f.
Proof.
  unfold allocate_block. destruct (Wosize_hd (Hd_op m cur) <? wh + 1); cbn zeta; (split; [intros a H1 H2; rewrite ?upd_other by auto; auto|]).
  - unfold remove_flp. repeat match goal with |- context [if ?c then _ else _] => destruct c end; reflexivity.
  - destruct (policy _ =? _); reflexivity.
Qed.
End Cover.

Section Header.
Context {A : Arch}.
Lemma Make_header_tag w t c : 0 <= w <= Max_wosize -> 0 <= t < 256 -> 0 <= c < 4 ->
  let h := Make_header w t (c * 256) in header_ok h /\ Wosize_hd h = w /\ Tag_hd h = t /\ Color_hd h = c * 256.
Proof.
  intros Hw Ht Hc h. unfold h. rewrite Make_header_eq by auto.
  assert (Hb : 2 ^ WORD = (Max_wosize + 1) * 1024) by (unfold WORD, Max_wosize; destruct ARCH_SIXTYFOUR; reflexivity).
  conj.
  - unfold header_ok. nia.
  - rewrite Wosize_hd_div. symmetry. apply Z.div_unique with (c * 256 + t); lia.
  - rewrite Tag_hd_mod. symmetry. apply Z.mod_unique with (w * 4 + c); lia.
  - rewrite Color_hd_eq. f_equal. replace ((w * 1024 + c * 256 + t) / 256) with (w * 4 + c) by (apply Z.div_unique with t; lia).
    symmetry. apply Z.mod_unique with w; lia.
Qed.
End Header.

Section Instance_.
Context {A : Arch} {Sn : Sentinel} {Ma : Malloc} {Gp : Gc_params} {T : Type} {P : Pages T}.
Variable fuel : nat.
#[local] Instance shared_heap : Shared_heap (major_heap (T := T)) := AllocShr.caml_alloc_shr fuel.

Record heap_ok (m : mem) (h : major_heap (T := T)) (av kept : Z -> Prop) (S : list seg) : Prop := {
  ho_tiled : tiled m S;
  ho_free : free_list_ok m (free_blocks h) (blocks S);
  ho_policy : policy (free_blocks h) = Policy_next_fit;
  ho_even : Forall (fun s => Z.even (fst s) = true) (map fst S);
  ho_fuel : total_bytes (map fst S) < Z.of_nat fuel;
  ho_av : forall a, av a <-> a = Fl_head \/ exists b, In b (frees m (blocks S)) /\ range b (wosize m b) a;
  ho_kept : forall a, kept a <-> a = Fl_head - sizeof_value \/ exists b, In b (blocks S) /\ free m b = false /\ a = b - sizeof_value }.

Lemma heap_ok_frame m m' h av kept S : heap_ok m h av kept S -> (forall a, av a \/ kept a -> m' a = m a) -> heap_ok m' h av kept S.
Proof.
  intros [H1 H2 H3 H4 H5 H6 H7] E. pose proof sizeof_value_pos as Sp.
  assert (Eh : forall b, In b (blocks S) -> Hd_op m' b = Hd_op m b).
  { intros b Hb. apply E. destruct (free m b) eqn:Fb; [left; apply H6; right | right; apply H7; right; eauto].
    exists b. split; [now apply frees_in|]. apply header_range. apply Wosize_hd_pos. now apply (tiled_header m S b H1). }
  assert (Ef : frees m' (blocks S) = frees m (blocks S)) by now apply frees_ext.
  assert (Ew : forall b, In b (blocks S) -> wosize m' b = wosize m b) by (intros b Hb; unfold wosize; now rewrite Eh).
  split; auto.
  - now apply (tiled_ext m).
  - destruct H2 as [F1 F2 F3 F4 F5]. split; rewrite ?Ef; auto.
    + eapply links_ext; [|exact F1]. intros x [<-|Hx]; apply E; left; apply H6; [now left|]. right. exists x. split; auto.
      specialize (F4 x Hx). unfold range, Bsize_wsize. nia.
    + rewrite (total_ext m m'); auto. intros b Hb. apply frees_in in Hb as [Hb _]. auto.
    + intros b Hb. rewrite Ew by (now apply frees_in in Hb). auto.
    + unfold wosize, Hd_op. rewrite E; auto. right. apply H7. now left.
  - intros a. rewrite H6, Ef. split; (intros [K|(b & Hb & R)]; [now left|]; right; exists b; split; auto); apply frees_in in Hb as Hb'; rewrite ?Ew in *; tauto.
  - intros a. rewrite H7. split; (intros [K|(b & Hb & Fb & Ea)]; [now left|]; right; exists b; conj; auto); unfold free in *; rewrite Eh in *; auto.
Qed.

(** The addresses that the allocator owns, from the blocks. *)
Definition avail (m : mem) (S : list seg) (a : Z) : Prop := a = Fl_head \/ exists b, In b (frees m (blocks S)) /\ range b (wosize m b) a.
Definition read (m : mem) (S : list seg) (a : Z) : Prop := a = Fl_head - sizeof_value \/ exists b, In b (blocks S) /\ free m b = false /\ a = b - sizeof_value.

(** The blocks before and after an allocation: the part of a free block that is handed
    out is the new block. *)
Section Step.
Variables (m m' : mem) (S S' : list seg) (b r sz : Z).
Hypothesis (Ti : tiled m S) (Ti' : tiled m' S') (Es : map fst S' = map fst S) (Ib : In b (blocks S)) (Fb : free m b = true).
Hypothesis (Ir : In r (blocks S')) (Fr : free m' r = false) (Wr : wosize m' r = sz) (Inr : forall a, range r sz a -> range b (wosize m b) a).
Hypothesis (Old : forall x, In x (blocks S) -> free m x = false -> In x (blocks S') /\ Hd_op m' x = Hd_op m x).

Lemma step_old x : In x (blocks S) -> free m x = false -> In x (blocks S') /\ free m' x = false /\ wosize m' x = wosize m x.
Proof. intros Hx Fx. destruct (Old x Hx Fx) as [Ix Eh]. unfold free, wosize in *. rewrite Eh. auto. Qed.
(** What is owned after was owned before. *)
Lemma step_in_free x a : In x (blocks S') -> range x (wosize m' x) a -> (free m' x = true \/ ~ In x (blocks S) \/ free m x = true) ->
  exists b', In b' (frees m (blocks S)) /\ range b' (wosize m b') a.
Proof.
  intros Hx Rx C. pose proof (tiled_inside m' S' x a Ti' Hx Rx) as In_. rewrite Es in In_. destruct (tiled_cover m S a Ti In_) as (y & Hy & Ry).
  exists y. split; auto. apply frees_in. split; auto. destruct (free m y) eqn:Fy; auto. exfalso. destruct (step_old y Hy Fy) as (Iy & Fy' & Wy).
  assert (x = y) by (apply (tiled_disjoint m' S' x y a); auto; now rewrite Wy). subst y. destruct C as [C|[C|C]]; [congruence | auto | congruence].
Qed.
Lemma step_avail a : avail m' S' a -> avail m S a.
Proof.
  intros [E|(x & Hx & Rx)]; [now left|]. right. apply frees_in in Hx as [Hx Fx]. apply (step_in_free x a); auto.
Qed.
Lemma step_read a : read m' S' a -> read m S a \/ avail m S a.
Proof.
  pose proof sizeof_value_pos as Sp. intros [E|(x & Hx & Fx & ->)]; [left; now left|].
  assert (Rx : range x (wosize m' x) (x - sizeof_value)) by (apply header_range, Wosize_hd_pos; now apply (tiled_header m' S' x Ti')).
  destruct (in_dec Z.eq_dec x (blocks S)) as [Ix|Ix].
  - destruct (free m x) eqn:Fx0; [|left; right; eauto]. right. right. apply (step_in_free x); auto.
  - right. right. apply (step_in_free x); auto.
Qed.
Lemma step_new a : range r sz a -> avail m S a /\ ~ avail m' S' a.
Proof.
  intros R. split; [right; exists b; split; [now apply frees_in | auto]|]. intros [E|(x & Hx & Rx)].
  - rewrite <- Wr in R. pose proof (tiled_inside m' S' r a Ti' Ir R) as (p & Hp & Ha). pose proof (lay_out _ (ti_layout _ _ Ti')) as Lo.
    destruct (proj1 (Forall_forall _ _) Lo p Hp) as (_ & X & _). rewrite E in Ha. tauto.
  - apply frees_in in Hx as [Hx Fx]. assert (x = r) by (apply (tiled_disjoint m' S' x r a); auto; now rewrite Wr). congruence.
Qed.
Lemma step_fields a : r <= a < r + Bsize_wsize sz -> ~ read m' S' a.
Proof.
  pose proof sizeof_value_pos as Sp. intros Ha. assert (R : range r (wosize m' r) a) by (rewrite Wr; unfold range; lia). intros [E|(x & Hx & Fx & E)].
  - pose proof (tiled_inside m' S' r a Ti' Ir R) as (p & Hp & Hb). pose proof (lay_out _ (ti_layout _ _ Ti')) as Lo.
    destruct (proj1 (Forall_forall _ _) Lo p Hp) as (_ & _ & X). rewrite E in Hb. tauto.
  - assert (Rx : range x (wosize m' x) a) by (rewrite E; apply header_range, Wosize_hd_pos; now apply (tiled_header m' S' x Ti')).
    assert (x = r) by now apply (tiled_disjoint m' S' x r a). lia.
Qed.
End Step.

(** Taking a block in a free block that is large enough. *)
Definition fitted (m : mem) (S : list seg) (av kept : Z -> Prop) (sz tg : Z) (r : Z) (m' : mem) (h' : major_heap) (S' : list seg) : Prop :=
  heap_ok m' h' (avail m' S') (read m' S') S' /\ map fst S' = map fst S /\
  (forall x, In x (blocks S) -> free m x = false -> In x (blocks S') /\ untouched m m' x) /\
  (forall a, range r sz a -> av a /\ ~ avail m' S' a) /\ (forall a, r <= a < r + Bsize_wsize sz -> ~ read m' S' a) /\
  (forall a, avail m' S' a -> av a) /\ (forall a, read m' S' a -> kept a \/ av a) /\ (forall a, ~ av a -> m' a = m a) /\
  In r (blocks S') /\ Is_block r = true /\ header_ok (Hd_op m' r) /\ tag m' r = tg /\ wosize m' r = sz.
Lemma fit_ok m h av kept S sz tg Pr b Nx z : heap_ok m h av kept S -> 1 <= sz <= Max_wosize -> 0 <= tg < 256 ->
  frees m (blocks S) = Pr ++ b :: Nx -> sz <= wosize m b ->
  exists hp m1 f1, allocate_block (Whsize_wosize sz) 0 (last Pr Fl_head) b m (set_last z (free_blocks h)) = (hp, m1, f1) /\ hp <> 0 /\
    let '(r, m', h') := finish_alloc sz tg hp m1 (set_free f1 h) in exists S', fitted m S av kept sz tg r m' h' S'.
Proof.
  intros [Ti Fo Pn Ev Fu Ha Hk] Hs Ht EF Le. pose proof sizeof_value_pos as Sp.
  set (f := set_last z (free_blocks h)). assert (Ff : free_list_ok m f (blocks S)) by (destruct Fo; now split).
  pose proof (allocate_block_allocated m f S sz Pr b Nx Ti Ff Pn (conj (proj1 (Z.le_succ_l 0 sz) (proj1 Hs)) Le) EF) as Al.
  pose proof (allocate_block_writes (Whsize_wosize sz) (last Pr Fl_head) b m f) as Wr.
  destruct (allocate_block (Whsize_wosize sz) 0 (last Pr Fl_head) b m f) as [[hp m1] f1].
  destruct Wr as [Wr Pf]. destruct Al as (b0 & Ib & Fb & Lb & L1 & L2 & Al). pose proof (tiled_pos m _ b0 Ti Ib) as Pb. exists hp, m1, f1. split; [reflexivity|]. split; [lia|].
  unfold finish_alloc. set (c := caml_allocation_color hp (set_free f1 h)).
  assert (Ec : exists k, c = k * 256 /\ 0 <= k < 4 /\ c <> Caml_blue) by (unfold c, caml_allocation_color; destruct (_ || _); [exists 3 | exists 0]; repeat split; easy).
  destruct Ec as (k & Ek & Rk & Nb). rewrite Ek in *.
  assert (Hs' : 0 <= sz <= Max_wosize) by lia. destruct (Make_header_tag sz tg k Hs' Ht Rk) as (M1 & M2 & M3 & M4).
  set (hd := Make_header sz tg (k * 256)) in *. destruct (Al hd M1 M2 ltac:(now rewrite M4)) as (S' & ES & Ti' & F' & Ir & Old).
  set (m' := m1.[hp <- hd]) in *. assert (Eh : Hd_op m' (Val_hp hp) = hd) by (unfold Hd_op, Val_hp, m'; rewrite Z.add_simpl_r; apply upd_same).
  assert (Fr : free m' (Val_hp hp) = false) by (unfold free, Is_blue_hd; rewrite Eh, M4; now apply Z.eqb_neq).
  assert (Ww : wosize m' (Val_hp hp) = sz) by (unfold wosize; now rewrite Eh).
  assert (Inr : forall a, range (Val_hp hp) sz a -> range b0 (wosize m b0) a).
  { intros a R. unfold range, Val_hp, bsize in *. lia. }
  assert (Old' : forall x, In x (blocks S) -> free m x = false -> In x (blocks S') /\ Hd_op m' x = Hd_op m x)
    by (intros x Hx Fx; destruct (Old x Hx Fx) as [Ix U]; split; auto; now apply untouched_hd).
  assert (Bb : In b (blocks S) /\ free m b = true) by (apply frees_in; rewrite EF; apply in_or_app; right; now left).
  exists S'. unfold fitted. conj; auto.
  - split; cbn [free_blocks set_allocated set_free]; try rewrite ES; auto; try easy.
    now rewrite Pf.
  - intros a R. rewrite Ha. now apply (step_new m m' S S' b0 (Val_hp hp) sz).
  - now apply (step_fields m' S' (Val_hp hp) sz).
  - intros a. rewrite Ha. now apply (step_avail m m' S S').
  - intros a. rewrite Ha, Hk. now apply (step_read m m' S S').
  - intros a Na. rewrite Ha in Na. unfold m'. rewrite upd_other, Wr; auto.
    + intros ->. apply Na. destruct (last_in Pr Fl_head) as [E|E]; [left; auto|]. right. exists (last Pr Fl_head). split; [rewrite EF; apply in_or_app; auto|].
      pose proof (fl_pos _ _ _ Fo (last Pr Fl_head) ltac:(rewrite EF; apply in_or_app; auto)). unfold range, Bsize_wsize. nia.
    + intros ->. apply Na. right. exists b. split; [now apply frees_in|]. apply header_range. pose proof (Z.le_trans 0 sz _ ltac:(lia) Le). auto.
    + intros ->. apply Na. right. exists b0. split; [now apply frees_in|]. apply Inr. unfold range, Val_hp, Bsize_wsize. nia.
  - apply (tiled_even m' S'); auto. now rewrite ES.
  - now rewrite Eh.
  - unfold tag. now rewrite Eh.
Qed.

Lemma nodup_frees m S : tiled m S -> NoDup (Fl_head :: frees m (blocks S)) /\ Forall (fun b => b <> 0) (frees m (blocks S)).
Proof.
  intros Ti. pose proof sizeof_value_pos as Sp. split.
  - constructor; [|apply NoDup_filter, (tiled_nodup m _ Ti)]. intros K. apply frees_in in K as [K _]. now apply (tiled_not_head m _ Fl_head Ti).
  - apply Forall_forall. intros b Hb. apply frees_in in Hb as [Hb _]. pose proof (tiled_pos m _ b Ti Hb). lia.
Qed.
Lemma frees_fuel m h av kept S : heap_ok m h av kept S -> (length (frees m (blocks S)) < fuel)%nat.
Proof.
  intros [Ti _ _ _ Fu _ _]. pose proof (filter_length_le (free m) (blocks S)). pose proof (blocks_length m S Ti). pose proof sizeof_value_pos. unfold frees. nia.
Qed.

Hypothesis (No_room : forall m n, malloc m n = None).

Lemma expand_fails request m h : match expand_heap fuel request m h with Ok (b, _, _) => b = 0 | Raise e => e = Out_of_memory | Stuck => False end.
Proof.
  unfold expand_heap, caml_round_heap_chunk_size. destruct (_ <? _); auto.
  unfold caml_alloc_for_heap, caml_aligned_malloc. now rewrite No_room.
Qed.
Lemma alloc_heap_ok m h av kept S sz tg : heap_ok m h av kept S -> 1 <= sz <= Max_wosize -> 0 <= tg < 256 ->
  match AllocShr.caml_alloc_shr fuel sz tg m h with
  | Ok (r, m', h') => exists av' kept', (exists S', heap_ok m' h' av' kept' S') /\
      (forall a, range r sz a -> av a /\ ~ av' a) /\ (forall a, r <= a < r + Bsize_wsize sz -> ~ kept' a) /\
      (forall a, av' a -> av a) /\ (forall a, kept' a -> kept a \/ av a) /\ (forall a, ~ av a -> m' a = m a) /\
      Is_block r = true /\ header_ok (Hd_op m' r) /\ tag m' r = tg /\ wosize m' r = sz
  | Raise e => e = Out_of_memory
  | Stuck => False
  end.
Proof.
  intros Ho Hs Ht. pose proof Ho as [Ti Fo Pn _ _ _ _]. unfold AllocShr.caml_alloc_shr. destruct (Z.ltb_spec Max_wosize sz); [lia|].
  destruct (nodup_frees m S Ti) as [D Nz]. pose proof (frees_fuel _ _ _ _ _ Ho) as Lf. unfold caml_fl_allocate. rewrite Pn. cbn [Z.eqb Policy_next_fit].
  destruct (next_fit_choice m (free_blocks h) (blocks S) sz fuel Fo Pn D Nz Lf) as [(Pr & b & Nx & z & EF & Le & ->)|(Sm & ->)].
  - destruct (fit_ok m h av kept S sz tg Pr b Nx z Ho Hs Ht EF Le) as (hp & m1 & f1 & -> & Nh & K). apply Z.eqb_neq in Nh. rewrite Nh.
    destruct (finish_alloc _ _ _ _ _) as [[r m'] h']. destruct K as (S' & K1 & _ & _ & K). exists (avail m' S'), (read m' S'). split; [eauto | tauto].
  - cbn [Z.eqb]. pose proof (expand_fails sz m (set_free (set_last (last (frees m (blocks S)) Fl_head) (free_blocks h)) h)) as K.
    destruct (expand_heap _ _ _ _) as [[[nb m1] h1]|e|]; auto. now rewrite K.
Qed.
Lemma shared_frame m m' h av kept : (exists S, heap_ok m h av kept S) -> (forall a, av a \/ kept a -> m' a = m a) -> exists S, heap_ok m' h av kept S.
Proof. intros [S H] E. exists S. now apply (heap_ok_frame m). Qed.
Lemma shared_alloc m h av kept sz tg : (exists S, heap_ok m h av kept S) -> 1 <= sz <= Max_wosize -> 0 <= tg < 256 ->
  match caml_alloc_shr sz tg m h with
  | Ok (r, m', h') => exists av' kept', (exists S', heap_ok m' h' av' kept' S') /\
      (forall a, range r sz a -> av a /\ ~ av' a) /\ (forall a, r <= a < r + Bsize_wsize sz -> ~ kept' a) /\
      (forall a, av' a -> av a) /\ (forall a, kept' a -> kept a \/ av a) /\ (forall a, ~ av a -> m' a = m a) /\
      Is_block r = true /\ header_ok (Hd_op m' r) /\ tag m' r = tg /\ wosize m' r = sz
  | Raise e => e = Out_of_memory
  | Stuck => False
  end.
Proof. intros [S H]. now apply (alloc_heap_ok m h av kept S). Qed.
Definition shared_heap_ok : Shared_heap_ok (major_heap (T := T)) := {|
  alloc_inv m h av kept := exists S, heap_ok m h av kept S;
  alloc_frame := shared_frame;
  alloc_ok := shared_alloc |}.
End Instance_.
