(* ===== verification/AllocGrow.v ===== *)
(** AllocGrow: the growth of the heap in [caml_alloc_shr]: a chunk from [malloc] is
    inserted in the list of chunks, in the page table and in the free list. *)
From Stdlib Require Import ZArith Lia List Bool.
From S2P Require Import Prelude Mlvalues InterpState ExternOutput MarshalBytes MarshalTrail MarshalDecode Gc GcGraph GcInv.
From S2P Require Import Freelist FlTile FlFree FlBlock FlSweep FlAlloc PageTable PageTableProof AllocShr Minor MinorInv MinorAlloc.
Import ListNotations.
Local Open Scope Z_scope.

(** ** Sizes *)

Section Sizes.
Context {A : Arch} {Ma : Malloc} {Gp : Gc_params}.

Lemma Page_size_eq : Page_size = 4096.
Proof. reflexivity. Qed.
Lemma round_ok request R : caml_round_heap_chunk_size request = Ok R -> request <= R /\ R mod Page_size = 0 /\ 0 <= R.
Proof.
  unfold caml_round_heap_chunk_size, clip_heap_chunk_size. set (r := if request <? caml_major_heap_increment then _ else _).
  set (q := if r <? _ then _ else r). set (w := wrap WORD (q + Page_size - 1)). assert (W : 0 <= w) by (apply wrap_range; pose proof WORD_pos; lia).
  rewrite Z.shiftl_mul_pow2, Z.shiftr_div_pow2 by (unfold Page_log; lia). change (2 ^ Page_log) with Page_size.
  destruct (Z.ltb_spec (w / Page_size * Page_size) request); [discriminate|]. intros [= <-]. conj; auto.
  - apply Z.mod_mul. discriminate.
  - rewrite Page_size_eq in *. Z.div_mod_to_equations; lia.
Qed.
(** Rounding only fails when the sum wraps around. *)
Lemma round_raise request e : request < 2 ^ WORD -> caml_round_heap_chunk_size request = Raise e ->
  e = Out_of_memory /\ 2 ^ WORD < Z.max request (Z.max caml_major_heap_increment (Bsize_wsize Heap_chunk_min)) + Page_size.
Proof.
  intros Hr. unfold caml_round_heap_chunk_size, clip_heap_chunk_size. set (r := if request <? caml_major_heap_increment then _ else _).
  set (q := if r <? _ then _ else r). assert (Q : request <= q <= Z.max request (Z.max caml_major_heap_increment (Bsize_wsize Heap_chunk_min))).
  { assert (request <= r <= Z.max request caml_major_heap_increment) by (unfold r; destruct (Z.ltb_spec request caml_major_heap_increment); lia).
    unfold q. destruct (Z.ltb_spec r (Bsize_wsize Heap_chunk_min)); lia. }
  assert (B : 0 < Bsize_wsize Heap_chunk_min <= q).
  { split; [unfold Bsize_wsize, Heap_chunk_min, sizeof_value, WORD; destruct ARCH_SIXTYFOUR; reflexivity|]. unfold q. destruct (Z.ltb_spec r (Bsize_wsize Heap_chunk_min)); lia. }
  rewrite Z.shiftl_mul_pow2, Z.shiftr_div_pow2 by (unfold Page_log; lia). change (2 ^ Page_log) with Page_size. rewrite Page_size_eq in *.
  destruct (Z.ltb_spec (wrap WORD (q + 4096 - 1) / 4096 * 4096) request) as [L|L]; [|discriminate]. intros [= <-]. split; auto.
  destruct (Z_lt_ge_dec (q + 4096 - 1) (2 ^ WORD)) as [W|W]; [|lia]. rewrite wrap_small in L by lia. Z.div_mod_to_equations. lia.
Qed.
Lemma head_size : 0 < sizeof_heap_chunk_head < Page_size /\ exists k, sizeof_heap_chunk_head = 4 * sizeof_value /\ sizeof_value = 2 * k /\ 0 < k.
Proof.
  unfold sizeof_heap_chunk_head, Bsize_wsize, sizeof_value, WORD. destruct ARCH_SIXTYFOUR; (split; [split; reflexivity|]); [exists 4 | exists 2]; repeat split.
Qed.

(** Where a chunk of [R] bytes can be placed in what [malloc] returned. *)
Lemma alloc_for_heap_ok R m blk : 0 <= R -> R mod Page_size = 0 -> malloc m (wrap WORD (R + sizeof_heap_chunk_head + Page_size)) = Some blk ->
  0 < blk -> blk + (R + sizeof_heap_chunk_head + Page_size) <= 2 ^ WORD ->
  exists c, caml_alloc_for_heap R m = Some (c, m.[Chunk_size c <- R].[Chunk_block c <- blk]) /\ c mod Page_size = 0 /\
    blk <= c - sizeof_heap_chunk_head /\ c + R <= blk + (R + sizeof_heap_chunk_head + Page_size) /\ Page_size <= c.
Proof.
  intros Hr Hm E Hb Hw. destruct head_size as [Hh _]. pose proof Page_size_eq as Pe. set (hs := sizeof_heap_chunk_head) in *. unfold caml_alloc_for_heap, caml_aligned_malloc. fold hs. rewrite E.
  rewrite (wrap_small WORD (blk + hs)) by (split; lia). set (q := (blk + hs) / Page_size). exists ((q + 1) * Page_size - hs + hs). split; [reflexivity|].
  rewrite Z.sub_add. rewrite Pe in *. assert (0 <= q) by (apply Z.div_pos; [lia | reflexivity]). pose proof (Z_div_mod_eq_full (blk + hs) 4096) as Dm. change ((blk + hs) / 4096) with q in Dm.
  pose proof (Z.mod_pos_bound (blk + hs) 4096 eq_refl). conj; [now apply Z.mod_mul | lia..].
Qed.
End Sizes.

(** ** The list of chunks *)

Section Chunks.
Context {A : Arch} {Sn : Sentinel}.

(** The chunks from [c] to [q], with their sizes. *)
Fixpoint chain (m : mem) (c : Z) (S : list (Z * Z)) (q : Z) : Prop :=
  match S with [] => c = q | s :: l => c = fst s /\ m (Chunk_size c) = snd s - fst s /\ chain m (m (Chunk_next c)) l q end.
Definition before (s t : Z * Z) : Prop := snd s + sizeof_heap_chunk_head <= fst t.
Definition placed (s : Z * Z) : Prop := sizeof_heap_chunk_head < fst s < snd s /\
  (Fl_head + sizeof_value <= fst s - sizeof_heap_chunk_head \/ snd s <= Fl_head - sizeof_value).
(** The chunks are ordered, and apart from the sentinel. *)
Record chunks_ok (m : mem) (start : Z) (S : list (Z * Z)) : Prop := {
  ck_chain : chain m start S 0;
  ck_order : ForallOrdPairs before S;
  ck_placed : Forall placed S }.

Lemma chain_app m S1 S2 q : forall c, chain m c (S1 ++ S2) q <-> exists p, chain m c S1 p /\ chain m p S2 q.
Proof.
  induction S1 as [|s S1 IH]; intros c; cbn [chain app].
  - split; [eauto | intros (p & -> & H); exact H].
  - rewrite IH. split; [intros (E & Es & p & H1 & H2); eauto 6 | intros (p & (E & Es & H1) & H2); eauto 6].
Qed.
Lemma chunk_chain_ext m m' S q : (forall s, In s S -> m' (Chunk_size (fst s)) = m (Chunk_size (fst s)) /\ m' (Chunk_next (fst s)) = m (Chunk_next (fst s))) ->
  forall c, chain m c S q -> chain m' c S q.
Proof.
  induction S as [|s S IH]; intros E c; cbn [chain]; auto. intros (-> & Es & H). destruct (E s (or_introl eq_refl)) as [-> ->]. conj; auto.
  apply IH; auto. intros t Ht. apply E. now right.
Qed.
Lemma size_next a b : Chunk_size a <> Chunk_next a /\ (Chunk_next a = Chunk_next b -> a = b).
Proof. unfold Chunk_size, Chunk_next, Bsize_wsize. pose proof sizeof_value_pos. lia. Qed.
(** Two chunks in order. *)
Lemma before_apart s t : placed s -> placed t -> before s t \/ before t s -> Chunk_next (fst s) <> Chunk_next (fst t) /\ Chunk_next (fst s) <> Chunk_size (fst t).
Proof.
  intros [P1 _] [P2 _] B. destruct head_size as (_ & k & E & _). unfold before, Chunk_size, Chunk_next, Bsize_wsize in *. pose proof sizeof_value_pos. lia.
Qed.

(** Changing the last link. *)
Lemma chain_set m S s q q' c : ForallOrdPairs before (S ++ [s]) -> Forall placed (S ++ [s]) -> chain m c (S ++ [s]) q ->
  chain (m.[Chunk_next (fst s) <- q']) c (S ++ [s]) q'.
Proof.
  intros O P H. apply chain_app in H as (p & H1 & E & Es & H2). apply chain_app. exists p. split.
  - eapply chunk_chain_ext; [|exact H1]. intros t Ht. assert (B : before t s).
    { clear -O Ht. induction S as [|x S IH]; [destruct Ht|]. cbn [app] in O. inversion_clear O as [|? ? Ox O']. destruct Ht as [->|Ht]; auto.
      apply (proj1 (Forall_forall _ _) Ox). apply in_or_app. right. now left. }
    apply Forall_app in P as [Pt Ps]. apply (proj1 (Forall_forall _ _) Pt) in Ht. inversion_clear Ps as [|? ? Ps' _].
    destruct (before_apart s t Ps' Ht (or_intror B)). split; apply upd_other; congruence.
  - cbn [chain]. rewrite E in *. conj; auto; [|apply upd_same]. rewrite upd_other; auto. apply size_next. exact 0.
Qed.

Lemma exists_last_or {X} (l : list X) : l = [] \/ exists l' x, l = l' ++ [x].
Proof. destruct l as [|x l]; [now left|]. right. destruct (exists_last (l := x :: l)) as (l' & y & ->); [discriminate | eauto]. Qed.
Lemma pairs_app {X} (R : X -> X -> Prop) l1 l2 x y : ForallOrdPairs R (l1 ++ l2) -> In x l1 -> In y l2 -> R x y.
Proof.
  induction l1 as [|z l1 IH]; [intros _ []|]. cbn [app]. intros O Hx Hy. inversion_clear O as [|? ? Oz O']. destruct Hx as [->|Hx]; [|now apply IH].
  apply (proj1 (Forall_forall _ _) Oz). apply in_or_app. auto.
Qed.

Lemma pairs_prefix {X} (R : X -> X -> Prop) l1 l2 : ForallOrdPairs R (l1 ++ l2) -> ForallOrdPairs R l1.
Proof.
  induction l1 as [|z l1 IH]; [constructor|]. cbn [app]. intros O. inversion_clear O as [|? ? Oz O']. constructor; [now apply Forall_app in Oz | now apply IH].
Qed.

(** ** Inserting a chunk *)

Section Insert.
Variables (m : mem) (start c R : Z) (S : list (Z * Z)).
Hypothesis (Ck : chunks_ok m start S) (Nw : placed (c, c + R)) (Ap : Forall (fun s => before s (c, c + R) \/ before (c, c + R) s) S).

Lemma insert_split : exists S1 S2, S = S1 ++ S2 /\ Forall (fun s => before s (c, c + R)) S1 /\ Forall (before (c, c + R)) S2.
Proof.
  destruct Ck as [_ O P]. clear Ck. induction S as [|s l IH]; [exists [], []; auto|]. inversion_clear O as [|? ? Os Ol]. inversion_clear P as [|? ? Ps Pl]. inversion_clear Ap as [|? ? As Al].
  destruct As as [B|B].
  - destruct (IH Al Ol Pl) as (S1 & S2 & -> & F1 & F2). exists (s :: S1), S2. split; [reflexivity | auto].
  - exists [], (s :: l). split; [reflexivity|]. split; [constructor|]. constructor; auto. eapply Forall_impl; [|exact Os]. intros x Hx.
    destruct head_size as [Hh _]. unfold before, placed in *. cbn [fst snd] in *. lia.
Qed.

Variables (S1 S2 : list (Z * Z)).
Hypothesis (E : S = S1 ++ S2) (F1 : Forall (fun s => before s (c, c + R)) S1) (F2 : Forall (before (c, c + R)) S2).

(** The place of the new chunk. *)
Definition next_chunk : Z := match S2 with [] => 0 | s :: _ => fst s end.
Lemma place_rest fuel last cur : chain m cur S2 0 -> chunk_place (Datatypes.S fuel) m c last cur = Ok (last, cur) /\ cur = next_chunk.
Proof.
  intros H. unfold next_chunk. cbn [chunk_place]. destruct S2 as [|s l]; cbn [chain] in H.
  - subst cur. auto.
  - destruct H as [-> _]. inversion_clear F2 as [|? ? B _]. unfold before, placed in *. cbn [fst snd] in *. destruct head_size as [Hh _].
    destruct (Z.ltb_spec (fst s) c); [lia|]. now rewrite andb_false_r.
Qed.
Lemma place_ok l : forall fuel last cur, Forall placed l -> Forall (fun s => before s (c, c + R)) l -> chain m cur (l ++ S2) 0 -> (length l < fuel)%nat ->
  chunk_place fuel m c last cur = Ok (List.last (map fst l) last, next_chunk).
Proof.
  induction l as [|s l IH]; intros [|fuel] last cur P F H Hf; cbn [length] in Hf; try lia.
  - destruct (place_rest fuel last cur H) as [-> ->]. reflexivity.
  - destruct H as (-> & _ & H). inversion_clear P as [|? ? Ps Pl]. inversion_clear F as [|? ? Fs Fl]. cbn [chunk_place map].
    unfold before, placed in Ps, Fs, Nw. cbn [fst snd] in *. destruct head_size as [Hh _]. destruct (Z.eqb_spec (fst s) 0); [lia|]. destruct (Z.ltb_spec (fst s) c); [|lia]. cbn [negb andb].
    rewrite (IH fuel (fst s) _ Pl Fl H ltac:(lia)). now rewrite last_cons.
Qed.

Lemma insert_order : ForallOrdPairs before (S1 ++ (c, c + R) :: S2) /\ Forall placed (S1 ++ (c, c + R) :: S2).
Proof.
  destruct Ck as [_ O P]. rewrite E in O, P. clear -O P F1 F2 Nw. apply Forall_app in P as [P1 P2]. split; [|apply Forall_app; auto].
  induction S1 as [|s l IH]; cbn [app] in *; [constructor; auto|]. inversion_clear O as [|? ? Os Ol]. inversion_clear F1 as [|? ? Fs Fl]. inversion_clear P1 as [|? ? Ps Pl].
  constructor; auto. apply Forall_app in Os as [O1 O2]. apply Forall_app. auto.
Qed.

(** The links after the insertion. *)
Definition linked (m : mem) : mem * Z :=
  let m := m.[Chunk_next c <- next_chunk] in
  if List.last (map fst S1) 0 =? 0 then (m, c) else (m.[Chunk_next (List.last (map fst S1) 0) <- c], start).
Lemma insert_chain : m (Chunk_size c) = R -> let '(m', start') := linked m in
  chunks_ok m' start' (S1 ++ (c, c + R) :: S2) /\
  forall a, a <> Chunk_next c -> (forall s, In s S1 -> a <> Chunk_next (fst s)) -> m' a = m a.
Proof.
  intros Sz. destruct insert_order as [O P]. destruct Ck as [H _ Pl]. rewrite E in H. apply chain_app in H as (p & H1 & H2).
  assert (Ep : p = next_chunk) by (unfold next_chunk; destruct S2; cbn [chain] in H2; tauto). subst p. set (m1 := m.[Chunk_next c <- next_chunk]).
  assert (Out : forall s, In s S -> m1 (Chunk_size (fst s)) = m (Chunk_size (fst s)) /\ m1 (Chunk_next (fst s)) = m (Chunk_next (fst s))).
  { intros s Hs. destruct (before_apart (c, c + R) s Nw (proj1 (Forall_forall _ _) Pl s Hs)) as [N1 N2];
      [destruct (proj1 (Forall_forall _ _) Ap s Hs); auto|]. cbn [fst] in *. split; apply upd_other; congruence. }
  assert (C2 : chain m1 c ((c, c + R) :: S2) 0).
  { cbn [chain fst snd]. assert (U1 : m1 (Chunk_next c) = next_chunk) by apply upd_same.
    assert (U2 : m1 (Chunk_size c) = R) by (unfold m1; rewrite upd_other by apply (size_next c 0); exact Sz). rewrite U1, U2. conj; auto; [lia|].
    eapply chunk_chain_ext; [|exact H2]. intros s Hs. apply Out. rewrite E. apply in_or_app. auto. }
  assert (C1 : chain m1 start S1 next_chunk) by (eapply chunk_chain_ext; [|exact H1]; intros s Hs; apply Out; rewrite E; apply in_or_app; auto).
  unfold linked. fold m1. destruct (Z.eqb_spec (List.last (map fst S1) 0) 0) as [El|El].
  - assert (S1 = []) as EN.
    { destruct (exists_last_or S1) as [|(l & s & Es)]; auto. exfalso. rewrite Es, map_app in El. cbn [map] in El. rewrite last_last in El. apply Forall_app in P as [P _]. rewrite Es in P.
      apply Forall_app in P as [_ P]. inversion_clear P as [|? ? [Ps _] _]. destruct head_size as [Hh _]. lia. }
    rewrite EN in *. cbn [chain app] in *. split; [split; auto|]. intros a Na _. now apply upd_other.
  - destruct (exists_last_or S1) as [EN|(l & s & Es)]; [rewrite EN in El; now destruct El|]. assert (L : List.last (map fst S1) 0 = fst s) by (rewrite Es, map_app; cbn [map]; apply last_last). rewrite L in *.
    split; [|intros a Na Ns; rewrite upd_other by (apply Ns; rewrite Es; apply in_or_app; right; now left); now apply upd_other].
    split; auto. apply chain_app. exists c. split.
    + rewrite Es in O, C1, E |- *. apply (chain_set m1 l s next_chunk c start); auto; [|rewrite E in Pl; now apply Forall_app in Pl].
      now apply pairs_prefix in O.
    + eapply chunk_chain_ext; [|exact C2]. intros t Ht. assert (Is : In s S1) by (rewrite Es; apply in_or_app; right; now left).
      assert (B : before s t) by (apply (pairs_app before S1 ((c, c + R) :: S2) s t O Is Ht)).
      assert (Ps : placed s) by (apply (proj1 (Forall_forall _ _) P); apply in_or_app; auto).
      assert (Pt : placed t) by (apply (proj1 (Forall_forall _ _) P); apply in_or_app; auto).
      destruct (before_apart s t Ps Pt (or_introl B)). split; apply upd_other; congruence.
Qed.
End Insert.
End Chunks.

(** ** The free list *)

Section Add.
Context {A : Arch} {Sn : Sentinel}.
Variables (m : mem) (f : free_list) (P N : list Z) (bp sweep_hp : Z).
Hypothesis (Ln : links m Fl_head (P ++ N) 0) (D : NoDup (Fl_head :: P ++ N)) (Pos : 0 < bp) (Np : bp <> Fl_head).
Hypothesis (Lo : Forall (fun x => 0 < x < bp) P) (Hi : Forall (fun x => bp < x) N).
Hypothesis (Last : fl_last f = last (P ++ N) Fl_head) (Pn : policy f = Policy_next_fit) (F0 : m bp = 0) (F1 : Op_val m bp 1 = bp).

Lemma find_place_spec fuel : forall l p, links m p (l ++ N) 0 -> Forall (fun x => 0 < x < bp) l -> (length l < fuel)%nat -> find_place fuel m bp p = Ok (last l p).
Proof.
  induction fuel as [|fuel IH]; intros l p H F Hf; [lia|]. cbn [find_place]. destruct l as [|x l].
  - destruct N as [|y N']; cbn [links app] in H.
    + now rewrite H.
    + destruct H as [-> _]. inversion_clear Hi as [|? ? Hy _]. destruct (Z.ltb_spec y bp); [lia|]. now rewrite andb_false_r.
  - destruct H as [-> H]. inversion_clear F as [|? ? Fx Fl]. cbn [length] in Hf. destruct (Z.eqb_spec x 0); [lia|]. destruct (Z.ltb_spec x bp); [|lia].
    cbn [negb andb]. rewrite last_cons. apply IH; auto. lia.
Qed.

Lemma not_in_list : ~ In bp (Fl_head :: P ++ N).
Proof.
  intros [E|H]; [congruence|]. apply in_app_or in H as [H|H]; [apply (proj1 (Forall_forall _ _) Lo) in H | apply (proj1 (Forall_forall _ _) Hi) in H]; lia.
Qed.

Lemma add_blocks_spec fuel : (length P < fuel)%nat -> exists m' f', caml_fl_add_blocks fuel sweep_hp bp m f = Ok (m', f') /\
  links m' Fl_head (P ++ bp :: N) 0 /\ (forall a, a <> bp -> a <> last P Fl_head -> m' a = m a) /\
  policy f' = policy f /\ fl_prev f' = fl_prev f /\ caml_fl_cur_size f' = wrap WORD (caml_fl_cur_size f + Whsize_bp m bp).
Proof.
  intros Hf. pose proof (links_insert m P bp N Fl_head D not_in_list Ln) as Li. pose proof (links_mid m P N Fl_head Ln) as Lm.
  assert (Nl : bp <> last P Fl_head) by (intros E; apply not_in_list; rewrite E, app_comm_cons; apply in_or_app; left; apply last_in).
  assert (K : forall (b : bool) v (g : free_list), exists g', (if b then set_merge v g else g) = g' /\
    policy g' = policy g /\ fl_prev g' = fl_prev g /\ caml_fl_cur_size g' = caml_fl_cur_size g) by (intros [] v g; eauto).
  unfold caml_fl_add_blocks. set (f0 := add_size (Whsize_bp m bp) f). change (fl_last f0) with (fl_last f). destruct (Z.ltb_spec (fl_last f) bp) as [L|L].
  - assert (EN : fl_last f = last P Fl_head /\ Next m (last P Fl_head) = 0).
    { destruct (exists_last_or N) as [EN|(l & x & EN)]; [rewrite EN in Lm; rewrite Last, EN, app_nil_r; auto|]. exfalso.
      rewrite Last, EN, app_assoc, last_last in L. assert (bp < x) by (apply (proj1 (Forall_forall _ _) Hi); rewrite EN; apply in_or_app; right; now left). lia. }
    destruct EN as [-> En]. cbn zeta. match goal with |- context [if ?b then set_merge ?v f0 else f0] => destruct (K b v f0) as (g & -> & G1 & G2 & G3) end.
    rewrite G1. change (policy f0) with (policy f). rewrite Pn. cbn [Z.eqb Policy_next_fit Policy_first_fit andb]. exists (m.[last P Fl_head <- bp]), g.
    conj; [reflexivity | | intros a _ Ha; now apply upd_other | now rewrite G1 | exact G2 | exact G3]. eapply links_ext; [|exact Li]. intros x Hx. unfold upd. destruct (x =? last P Fl_head); auto.
    destruct (Z.eqb_spec x bp) as [->|]; auto. now rewrite En, F0.
  - rewrite (find_place_spec fuel P Fl_head Ln Lo Hf). cbn beta iota zeta. rewrite F1.
    match goal with |- context [if ?b then set_merge ?v f0 else f0] => destruct (K b v f0) as (g & -> & G1 & G2 & G3) end.
    rewrite G1. change (policy f0) with (policy f). rewrite Pn. cbn [Z.eqb Policy_next_fit Policy_first_fit andb].
    exists (m.[bp <- Next m (last P Fl_head)].[last P Fl_head <- bp]), g. conj; [reflexivity | exact Li | intros a Na Nb; now rewrite !upd_other | now rewrite G1 | exact G2 | exact G3].
Qed.
End Add.

(** ** A new chunk *)

Section Grow.
Context {A : Arch} {Sn : Sentinel} {Ma : Malloc} {Gp : Gc_params} {T : Type} {Pg : Pages T} {O : Pages_ok T}.
Variable fuel : nat.
Notation hs := sizeof_heap_chunk_head.

(** The page of [a] is in the heap. *)
Definition in_heap (t : T) (a : Z) : Prop := page_ok bits a /\ exists k, classify t a = Ok k /\ Z.land k In_heap = In_heap.
(** The page table knows the chunks, and the statistics count them. *)
Record registered (h : major_heap (T := T)) (L : list (Z * Z)) : Prop := {
  rg_valid : valid (page_kinds h);
  rg_in_heap : forall a, inside L a -> in_heap (page_kinds h) a;
  rg_size : caml_stat_heap_size h = total_bytes L;
  rg_chunks : caml_stat_heap_chunks h = Z.of_nat (length L) }.
(** A heap that can grow. *)
Record grow_ok (m : mem) (h : major_heap (T := T)) (Sg : list seg) : Prop := {
  go_heap : heap_ok fuel m h (avail m Sg) (read m Sg) Sg;
  go_chunks : chunks_ok m (heap_start h) (map fst Sg);
  go_registered : registered h (map fst Sg) }.
Lemma registered_same h h' L : registered h L -> page_kinds h' = page_kinds h -> caml_stat_heap_size h' = caml_stat_heap_size h ->
  caml_stat_heap_chunks h' = caml_stat_heap_chunks h -> registered h' L.
Proof. intros [R1 R2 R3 R4] E1 E2 E3. split; rewrite ?E1, ?E2, ?E3; auto. Qed.
(** The addresses from [lo] to [hi] are not in use, and are not the last page. *)
Definition fresh (L : list (Z * Z)) (lo hi : Z) : Prop :=
  0 < lo /\ hi + Page_size <= 2 ^ bits /\ hi <= 2 ^ WORD /\ (Fl_head + sizeof_value <= lo \/ hi <= Fl_head - sizeof_value) /\
  Forall (fun s => snd s <= lo \/ hi <= fst s - hs) L.

Lemma head_apart m start L s t a : chunks_ok m start L -> In s L -> In t L -> fst s - hs <= a < fst s -> ~ (fst t <= a < snd t).
Proof.
  intros [_ Od P] Hs Ht Ha Hb. destruct head_size as [Hh _].
  assert (K : s = t \/ before s t \/ before t s).
  { clear -Od Hs Ht. induction L as [|x L IH]; [destruct Hs|]. inversion_clear Od as [|? ? Ox O']. destruct Hs as [->|Hs], Ht as [->|Ht]; auto.
    - right. left. now apply (proj1 (Forall_forall _ _) Ox).
    - right. right. now apply (proj1 (Forall_forall _ _) Ox). }
  destruct (proj1 (Forall_forall _ _) P s Hs) as [Ps _]. destruct (proj1 (Forall_forall _ _) P t Ht) as [Pt _]. unfold before in K. destruct K as [->|K]; lia.
Qed.
Lemma chunk_cells c : c - hs <= Chunk_next c < c /\ c - hs <= Chunk_size c < c /\ c - hs <= Chunk_block c < c.
Proof. destruct head_size as (_ & k & E & E2 & Hk). unfold Chunk_next, Chunk_size, Chunk_block, Bsize_wsize. lia. Qed.

Lemma total_bytes_app l1 l2 : total_bytes (l1 ++ l2) = total_bytes l1 + total_bytes l2.
Proof. unfold total_bytes. induction l1 as [|s l IH]; cbn [fold_right app]; [reflexivity | rewrite IH; lia]. Qed.

Variables (m : mem) (h : major_heap (T := T)) (Sg : list seg) (c R : Z).
Hypothesis (G : grow_ok m h Sg) (Last : fl_last (free_blocks h) = last (frees m (blocks Sg)) Fl_head).
Hypothesis (Cp : c mod Page_size = 0) (Rp : R mod Page_size = 0) (Rpos : 0 < R) (One : Wosize_bhsize R <= Max_wosize).
Hypothesis (Fr : fresh (map fst Sg) (c - hs) (c + R)).
Let bp := Val_hp c.
Let Ti := ho_tiled fuel m h _ _ Sg (go_heap m h Sg G).

(** The words that growing writes, apart from the list of free blocks. *)
Definition touched (a : Z) : Prop := c - hs <= a < c + R \/ exists s, In s (map fst Sg) /\ a = Chunk_next (fst s).

Lemma new_placed : placed (c, c + R) /\ Forall (fun s => before s (c, c + R) \/ before (c, c + R) s) (map fst Sg).
Proof.
  destruct Fr as (F1 & _ & _ & F4 & F5). destruct head_size as [Hh _]. unfold placed, before. cbn [fst snd]. split; [lia|].
  eapply Forall_impl; [|exact F5]. cbn beta. intros s. lia.
Qed.
Lemma inside_untouched a : inside (map fst Sg) a -> ~ touched a.
Proof.
  intros (t & Ht & Ha) [K|(s & Hs & ->)].
  - destruct Fr as (_ & _ & _ & _ & F5). pose proof (proj1 (Forall_forall _ _) F5 t Ht) as X. cbn beta in X. destruct (proj1 (Forall_forall _ _) (ck_placed _ _ _ (go_chunks m h Sg G)) t Ht) as [Pt _]. destruct head_size as [Hh _]. lia.
  - apply (head_apart m (heap_start h) (map fst Sg) s t (Chunk_next (fst s))); auto; [apply (go_chunks m h Sg G) | pose proof (chunk_cells (fst s)); lia].
Qed.
Lemma sentinel_untouched : ~ touched Fl_head /\ ~ touched (Fl_head - sizeof_value).
Proof.
  destruct Fr as (_ & _ & _ & F4 & _). pose proof sizeof_value_pos as Sp.
  assert (K : forall s, In s (map fst Sg) -> Fl_head <> Chunk_next (fst s) /\ Fl_head - sizeof_value <> Chunk_next (fst s)).
  { intros s Hs. destruct (proj1 (Forall_forall _ _) (ck_placed _ _ _ (go_chunks m h Sg G)) s Hs) as [_ X]. pose proof (chunk_cells (fst s)). 
    destruct (proj1 (Forall_forall _ _) (ck_placed _ _ _ (go_chunks m h Sg G)) s Hs) as [Y _]. lia. }
  split; (intros [X|(s & Hs & X)]; [lia | destruct (K s Hs); auto]).
Qed.
Lemma block_inside x a : In x (blocks Sg) -> cell m x a -> inside (map fst Sg) a.
Proof.
  intros Hx Ca. apply (tiled_inside m Sg x a Ti Hx). pose proof (cell_range m x a (tiled_header m Sg x Ti Hx) Ca). exact H.
Qed.

(** Memory when the chunk is in the list of chunks. *)
Variables (m1 : mem) (h1 : major_heap (T := T)) (Sa Sb : list seg).
Hypothesis (Es : Sg = Sa ++ Sb) (Fa : Forall (fun s => before s (c, c + R)) (map fst Sa)) (Fb : Forall (before (c, c + R)) (map fst Sb)).
Hypothesis (Ck1 : chunks_ok m1 (heap_start h1) (map fst Sa ++ (c, c + R) :: map fst Sb)) (V1 : registered h1 (map fst Sa ++ (c, c + R) :: map fst Sb)) (Eh1 : free_blocks h1 = free_blocks h).
Hypothesis (Un : forall a, ~ touched a -> m1 a = m a).
Hypothesis (Hb1 : Hd_op m1 bp = Make_header (Wosize_bhsize R) 0 Caml_blue) (Hb2 : m1 bp = 0) (Hb3 : Op_val m1 bp 1 = bp).
Let Sg' := Sa ++ (c, c + R, [bp]) :: Sb.
Let P := frees m (blocks Sa).
Let N := frees m (blocks Sb).

Lemma grown_split : frees m (blocks Sg) = P ++ N.
Proof. rewrite Es, blocks_app, frees_app. reflexivity. Qed.
Lemma grown_order : Forall (fun x => 0 < x < bp) P /\ Forall (fun x => bp < x) N.
Proof.
  pose proof sizeof_value_pos as Sp. destruct head_size as [Hh _]. assert (K : forall x, In x (blocks Sg) -> 0 < x - sizeof_value) by (intros x; now apply (tiled_pos m Sg)).
  split; apply Forall_forall; intros x Hx; apply frees_in in Hx as [Hx _]; unfold bp, Val_hp.
  - assert (Ix : In x (blocks Sg)) by (rewrite Es, blocks_app; apply in_or_app; auto). pose proof (K x Ix). apply in_flat_map in Hx as (s & Hs & Hx).
    pose proof (proj1 (Forall_forall _ _) (ti_segs m Sg Ti) s ltac:(rewrite Es; apply in_or_app; auto)) as Ts. destruct (tile_range m _ _ _ Ts) as [_ Rs]. destruct (Rs x Hx) as (_ & L2 & Ho).
    pose proof (bsize_nonneg m x Ho). pose proof (proj1 (Forall_forall _ _) Fa (fst s) (in_map fst _ _ Hs)) as B1. unfold before in B1. cbn [fst] in B1. lia.
  - apply in_flat_map in Hx as (s & Hs & Hx).
    pose proof (proj1 (Forall_forall _ _) (ti_segs m Sg Ti) s ltac:(rewrite Es; apply in_or_app; auto)) as Ts. destruct (tile_range m _ _ _ Ts) as [_ Rs]. destruct (Rs x Hx) as (L1 & _ & _).
    pose proof (proj1 (Forall_forall _ _) Fb (fst s) (in_map fst _ _ Hs)) as B1. unfold before in B1. cbn [snd] in B1. lia.
Qed.

Lemma new_block_header : header_ok (Hd_op m1 bp) /\ wosize m1 bp = Wosize_bhsize R /\ free m1 bp = true /\ bp + bsize m1 bp = c + R.
Proof.
  assert (Rm : exists q, R = q * sizeof_value /\ 2 <= q).
  { apply Z.mod_divide in Rp as [q E]; [|discriminate]. rewrite Page_size_eq in E. unfold sizeof_value, WORD in *.
    destruct ARCH_SIXTYFOUR; [exists (q * 512) | exists (q * 1024)]; change (64 / 8) with 8; change (32 / 8) with 4; lia. }
  destruct Rm as (q & Eq & Hq). pose proof sizeof_value_pos as Sp. assert (Ew : Wosize_bhsize R = q - 1) by (unfold Wosize_bhsize; rewrite Eq, Z.div_mul by lia; reflexivity).
  assert (Hw : 0 <= q - 1 <= Max_wosize) by lia. destruct (Make_header_parts (q - 1) 2 Hw ltac:(lia)) as (H1 & H2 & H3). rewrite Ew in Hb1. change (2 * 256) with Caml_blue in *.
  unfold free, Is_blue_hd, bsize, wosize. rewrite Hb1, H2, H3, Ew. conj; auto. unfold bp, Val_hp, Bsize_wsize. lia.
Qed.
Lemma old_header x : In x (blocks Sg) -> Hd_op m1 x = Hd_op m x.
Proof. intros Hx. apply Un, inside_untouched, (block_inside x); [exact Hx | apply cell_hd]. Qed.
Lemma free_first x : In x (P ++ N) -> In x (blocks Sg) /\ cell m x x.
Proof.
  intros Hx. rewrite <- grown_split in Hx. assert (Ix := Hx). apply frees_in in Ix as [Ix _]. split; auto. apply cell_first.
  apply (fl_pos _ _ _ (ho_free fuel m h _ _ Sg (go_heap m h Sg G))), Hx.
Qed.
Lemma new_inside a : bp - sizeof_value <= a < c + R -> ~ inside (map fst Sg) a /\ a <> Fl_head /\ a <> Fl_head - sizeof_value.
Proof.
  intros Ha. destruct head_size as [Hh _]. assert (Tc : touched a) by (left; unfold bp, Val_hp in Ha; lia). destruct sentinel_untouched as [S1 S2].
  conj; [intros K; now apply (inside_untouched a K) | intros ->; auto | intros ->; auto].
Qed.

(** Memory when the block is in the list of free blocks. *)
Variables (m2 : mem) (f2 : free_list).
Hypothesis (L2 : links m2 Fl_head (P ++ bp :: N) 0) (U2 : forall a, a <> bp -> a <> last P Fl_head -> m2 a = m1 a).
Hypothesis (Pf2 : policy f2 = Policy_next_fit) (Pv2 : fl_prev f2 = fl_prev (free_blocks h)).
Hypothesis (Sz2 : caml_fl_cur_size f2 = wrap WORD (caml_fl_cur_size (free_blocks h) + Whsize_bp m1 bp)).
Hypothesis (Fu : total_bytes (map fst Sg) + R < Z.of_nat fuel).

Lemma last_cell : last P Fl_head = Fl_head \/ In (last P Fl_head) (blocks Sg) /\ cell m (last P Fl_head) (last P Fl_head).
Proof.
  destruct (last_in P Fl_head) as [E|H]; [now left|]. right. apply free_first. apply in_or_app. auto.
Qed.
Lemma bp_new : bp - sizeof_value <= bp < c + R.
Proof. destruct new_block_header as (Ho & _ & _ & E). pose proof (bsize_nonneg m1 bp Ho). pose proof sizeof_value_pos. destruct (Z.eq_dec (bsize m1 bp) 0); [|lia].
  unfold bp, Val_hp in *. assert (R = sizeof_value) by lia. apply Z.mod_divide in Rp as [q Eq]; [|discriminate]. rewrite Page_size_eq in Eq. unfold sizeof_value, WORD in *. destruct ARCH_SIXTYFOUR; [change (64 / 8) with 8 in * | change (32 / 8) with 4 in *]; lia.
Qed.
(** What the list writes is not a header. *)
Lemma header2 x : In x (blocks Sg) -> Hd_op m2 x = Hd_op m x.
Proof.
  intros Hx. rewrite <- (old_header x Hx). pose proof (block_inside x _ Hx (cell_hd m x)) as I. apply U2.
  - intros E. rewrite E in I. destruct (new_inside bp bp_new) as [K _]. auto.
  - destruct last_cell as [->|[Iy Cy]].
    + intros E. destruct (tiled_head m Sg x Ti Hx) as [K _]. apply K. rewrite <- E. apply cell_hd.
    + intros E. destruct (Z.eq_dec x (last P Fl_head)) as [Ex|Nx]; [pose proof sizeof_value_pos; lia|].
      apply (tiled_cell m Sg x _ (last P Fl_head) Ti Hx Iy Nx); [rewrite <- E; apply cell_hd | exact Cy].
Qed.
Lemma header2_new : Hd_op m2 bp = Hd_op m1 bp.
Proof.
  pose proof sizeof_value_pos. pose proof bp_new. assert (Hn : bp - sizeof_value <= bp - sizeof_value < c + R) by lia. destruct (new_inside (bp - sizeof_value) Hn) as (K1 & K2 & _). apply U2; [lia|]. intros E. destruct last_cell as [El|[Iy Cy]]; [congruence|].
  apply K1. rewrite E. now apply (block_inside (last P Fl_head)).
Qed.
Lemma blocks2 : blocks Sg' = blocks Sa ++ bp :: blocks Sb.
Proof. unfold Sg'. now rewrite blocks_app. Qed.
Lemma map2 : map fst Sg' = map fst Sa ++ (c, c + R) :: map fst Sb.
Proof. unfold Sg'. now rewrite map_app. Qed.
Lemma in_blocks2 x : In x (blocks Sg') <-> x = bp \/ In x (blocks Sg).
Proof. rewrite blocks2, Es, blocks_app, !in_app_iff. cbn. intuition. Qed.

Lemma grown_tiled : tiled m2 Sg'.
Proof.
  destruct head_size as [Hh _]. pose proof sizeof_value_pos as Sp. split.
  - rewrite map2. split.
    + generalize (ck_order _ _ _ Ck1). generalize (map fst Sa ++ (c, c + R) :: map fst Sb). clear -Hh. intros l. induction 1 as [|s l' Fs Ol IH]; constructor; auto.
      eapply Forall_impl; [|exact Fs]. unfold before, separate2. lia.
    + eapply Forall_impl; [|exact (ck_placed _ _ _ Ck1)]. unfold placed, FlTile.outside. lia.
  - apply Forall_forall. intros s Hs. destruct new_block_header as (Ho & _ & _ & Eb).
    assert (K : s = (c, c + R, [bp]) \/ In s Sg) by (unfold Sg' in Hs; rewrite Es; apply in_app_or in Hs as [Hs|[Hs|Hs]]; rewrite in_app_iff; auto).
    destruct K as [->|Hs']; unfold seg_ok.
    + cbn [fst snd tile]. unfold bsize, wosize in *. rewrite header2_new. auto.
    + pose proof (proj1 (Forall_forall _ _) (ti_segs m Sg Ti) s Hs') as Ts. eapply tile_ext; [|exact Ts]. intros x Hx. apply header2. apply in_flat_map. eauto.
Qed.
Lemma frees2 : frees m2 (blocks Sg') = P ++ bp :: N.
Proof.
  rewrite blocks2, frees_app. cbn [frees filter]. fold (frees m2 (blocks Sb)). unfold free at 1. rewrite header2_new. fold (free m1 bp). destruct new_block_header as (_ & _ & -> & _).
  f_equal; [|f_equal]; apply frees_ext; intros x Hx; apply header2; rewrite Es, blocks_app; apply in_or_app; auto.
Qed.
Lemma grown_free_list : free_list_ok m2 f2 (blocks Sg').
Proof.
  pose proof (ho_policy _ _ _ _ _ _ (go_heap m h Sg G)) as Pn. pose proof (ho_free _ _ _ _ _ _ (go_heap m h Sg G)) as Fo. destruct Fo as [F1 F2 F3 F4 F5]. rewrite grown_split in F1, F2, F3, F4. split; rewrite ?frees2.
  - exact L2.
  - intros _. rewrite Pv2. destruct (F2 Pn) as [E|H]; [now left | right]. apply in_app_or in H. apply in_or_app. cbn. tauto.
  - rewrite Sz2, F3, wrap_wrap_add_l, !total_app. cbn [total fold_right]. fold (total m2 N). unfold Whsize_bp at 2. rewrite header2_new.
    rewrite (total_ext m m2 P), (total_ext m m2 N); [fold (Whsize_bp m1 bp); f_equal; lia | |]; intros x Hx; apply header2; destruct (free_first x) as [Ix _]; auto; apply in_or_app; auto.
  - intros x Hx. apply in_app_or in Hx. assert (K : x = bp \/ In x (P ++ N)) by (rewrite in_app_iff; cbn in Hx; intuition). destruct K as [->|K].
    + unfold wosize. rewrite header2_new. destruct new_block_header as (_ & Ew & _). fold (wosize m1 bp). pose proof bp_new. destruct new_block_header as (Ho & _ & _ & E).
      unfold bsize, Bsize_wsize in E. pose proof sizeof_value_pos. nia.
    + unfold wosize. rewrite header2 by (now apply free_first). now apply F4.
  - unfold wosize. replace (Hd_op m2 Fl_head) with (Hd_op m Fl_head); [exact F5|]. symmetry. unfold Hd_op. pose proof sizeof_value_pos. pose proof bp_new. destruct (new_inside bp bp_new) as (_ & _ & K). rewrite U2.
    + apply Un. now destruct sentinel_untouched.
    + auto.
    + destruct last_cell as [->|[Iy Cy]]; [lia|]. intros E. apply (proj2 (tiled_head m Sg _ Ti Iy)). rewrite E. exact Cy.
Qed.
Lemma grown : grow_ok m2 (set_free f2 h1) Sg'.
Proof.
  split; cbn [heap_start set_free]; [| |rewrite map2; now apply (registered_same h1)].
  - split; cbn [free_blocks set_free]; auto; try reflexivity.
    + exact grown_tiled.
    + exact grown_free_list.
    + rewrite map2. pose proof (ho_even _ _ _ _ _ _ (go_heap m h Sg G)) as Ev. rewrite Es, map_app in Ev. apply Forall_app in Ev as [E1 E2]. apply Forall_app. split; auto. constructor; auto. cbn [fst].
      apply Z.mod_divide in Cp as [q ->]; [|discriminate]. now rewrite Z.even_mul, orb_true_r.
    + rewrite map2. rewrite Es, map_app in Fu. rewrite total_bytes_app in Fu. rewrite total_bytes_app. change (total_bytes ((c, c + R) :: map fst Sb)) with (c + R - c + total_bytes (map fst Sb)). rewrite Z.add_simpl_l, (Z.add_comm R), Z.add_assoc. exact Fu.
  - rewrite map2. destruct Ck1 as [C1 C2 C3]. split; auto. eapply chunk_chain_ext; [|exact C1]. intros s Hs. pose proof (chunk_cells (fst s)) as Cc.
    assert (K : forall a, fst s - hs <= a < fst s -> m2 a = m1 a).
    { intros a Ha. assert (N0 : forall t, In t (map fst Sa ++ (c, c + R) :: map fst Sb) -> ~ (fst t <= a < snd t)) by (intros t Ht; now apply (head_apart m1 (heap_start h1) _ s t a Ck1)).
      assert (N1 : ~ inside (map fst Sg) a) by (intros (t & Ht & It); apply (N0 t); [rewrite Es, map_app in Ht; apply in_app_or in Ht; apply in_or_app; cbn; tauto | exact It]).
      apply U2.
      - intros ->. apply (N0 (c, c + R)); [apply in_or_app; right; now left|]. cbn [fst snd]. pose proof bp_new. unfold bp, Val_hp in *. pose proof sizeof_value_pos. lia.
      - intros ->. destruct last_cell as [El|[Iy Cy]].
        + rewrite El in Ha. destruct (proj1 (Forall_forall _ _) C3 s Hs) as [X Y]. pose proof sizeof_value_pos. destruct head_size. lia.
        + apply N1. now apply (block_inside (last P Fl_head)). }
    split; apply K; lia.
Qed.
(** What the program sees is unchanged. *)
Lemma grown_others x a : In x (blocks Sg) -> free m x = false -> cell m x a -> m2 a = m a.
Proof.
  intros Hx Fx Ca. pose proof (block_inside x a Hx Ca) as I. rewrite U2.
  - apply Un, (inside_untouched a I).
  - intros ->. destruct (new_inside bp bp_new). auto.
  - intros ->. destruct last_cell as [El|[Iy Cy]].
    + rewrite El in Ca. now apply (proj1 (tiled_head m Sg x Ti Hx)).
    + destruct (Z.eq_dec x (last P Fl_head)) as [E|Nx].
      * rewrite <- E in *. destruct (last_in P Fl_head) as [H|H]; [rewrite <- E in H; now apply (tiled_not_head m Sg x Ti Hx)|]. rewrite <- E in H. apply frees_in in H as [_ H]. congruence.
      * exact (tiled_cell m Sg x _ (last P Fl_head) Ti Hx Iy Nx Ca Cy).
Qed.
Lemma grown_avail a : avail m2 Sg' a -> avail m Sg a \/ c <= a < c + R.
Proof.
  intros [E|(x & Hx & Ra)]; [left; now left|]. apply frees_in in Hx as [Hx Fx]. apply in_blocks2 in Hx as [->|Hx].
  - right. unfold wosize in Ra. rewrite header2_new in Ra. destruct new_block_header as (_ & _ & _ & E). unfold range, bsize, wosize, bp, Val_hp in *. lia.
  - left. right. exists x. unfold free, wosize in *. rewrite (header2 x Hx) in *. split; auto. apply frees_in. auto.
Qed.
End Grow.
(** ** Growing *)

Section Expand.
Context {A : Arch} {Sn : Sentinel} {Ma : Malloc} {Gp : Gc_params} {T : Type} {Pg : Pages T} {O : Pages_ok T}.
Variable fuel : nat.
Notation hs := sizeof_heap_chunk_head.
Variables (m : mem) (h : major_heap (T := T)) (Sg : list seg).
Hypothesis (G : grow_ok fuel m h Sg).

(** What growing leaves. *)
Definition same_cycle (h0 h' : major_heap (T := T)) : Prop := free_blocks h' = free_blocks h0 /\ phase h' = phase h0 /\ sweep_hp h' = sweep_hp h0 /\
  caml_allocated_words h' = caml_allocated_words h0 /\ caml_force_major_slice h' = caml_force_major_slice h0.
(** The pages of a new chunk are added to those of the heap. *)
Lemma register_chunk c R t' (L1 L2 : list (Z * Z)) h1 : map fst Sg = L1 ++ L2 -> range_ok c (c + R) -> valid t' ->
  marked (between (c / Page_size) ((c + R - 1) / Page_size)) 0 In_heap (page_kinds h) t' ->
  page_kinds h1 = t' -> caml_stat_heap_size h1 = caml_stat_heap_size h + R -> caml_stat_heap_chunks h1 = caml_stat_heap_chunks h + 1 ->
  registered h1 (L1 ++ (c, c + R) :: L2).
Proof.
  intros E [R1 R2] V M E1 E2 E3. destruct (go_registered _ _ _ _ G) as [V0 H0 S0 C0]. rewrite E in *. split; rewrite ?E1, ?E2, ?E3; auto.
  - intros a (s & Hs & Ha). assert (K : inside (L1 ++ L2) a \/ c <= a < c + R).
    { apply in_app_or in Hs as [Hs|[<-|Hs]]; [left; exists s; rewrite in_app_iff; auto | right; exact Ha | left; exists s; rewrite in_app_iff; auto]. }
    assert (Pa : page_ok bits a) by (destruct K as [K|K]; [now apply H0 | rewrite Page_size_eq in *; unfold page_ok; rewrite Page_size_eq; lia]).
    split; auto. rewrite (M a Pa). destruct (classify_ok (page_kinds h) a V0 Pa) as (k & Ek & _). rewrite Ek. destruct (between _ _ a) eqn:B.
    + exists (Z.lor (Z.ldiff k 0) In_heap). split; [reflexivity|]. rewrite Z.land_comm. apply Z.bits_inj'. intros i Hi. rewrite Z.land_spec, Z.lor_spec. now destruct (Z.testbit In_heap i), (Z.testbit (Z.ldiff k 0) i).
    + destruct K as [K|K]; [destruct (H0 a K) as (_ & k' & Ek' & Hk); rewrite Ek in Ek'; injection Ek' as ->; eauto|]. exfalso. unfold between in B.
      assert (P0 : 0 < Page_size) by easy. assert (c / Page_size <= a / Page_size) by (apply Z.div_le_mono; lia). assert (a / Page_size <= (c + R - 1) / Page_size) by (apply Z.div_le_mono; lia). apply andb_false_iff in B as [B|B]; lia.
  - rewrite S0, !total_bytes_app. change (total_bytes ((c, c + R) :: L2)) with (c + R - c + total_bytes L2). lia.
  - rewrite C0, !length_app. cbn [length]. lia.
Qed.

(** The chunk [c] with one block. *)
Definition filled (c R : Z) (m0 : mem) : mem :=
  let m0 := m0.[c <- Make_header (Wosize_bhsize R) 0 Caml_blue] in
  m0.[Val_hp c <- Val_hp c].[Val_hp c + Bsize_wsize 1 <- Val_hp c].[Val_hp c <- 0].

Lemma filled_spec c R blk : 0 < R -> R mod Page_size = 0 -> let m0 := filled c R (m.[Chunk_size c <- R].[Chunk_block c <- blk]) in
  Hd_op m0 (Val_hp c) = Make_header (Wosize_bhsize R) 0 Caml_blue /\ m0 (Val_hp c) = 0 /\ Op_val m0 (Val_hp c) 1 = Val_hp c /\ m0 (Chunk_size c) = R /\
  forall a, ~ (c - hs <= a < c + R) -> m0 a = m a.
Proof.
  intros Rp Rm m0. pose proof (chunk_cells c) as Cc. destruct head_size as (_ & k & E1 & E2 & Hk). pose proof sizeof_value_pos as Sp.
  assert (Rb : 4096 <= R) by (apply Z.mod_divide in Rm as [q ->]; [rewrite Page_size_eq in *; lia | discriminate]).
  assert (Sb : sizeof_value <= 8) by (unfold sizeof_value, WORD; destruct ARCH_SIXTYFOUR; discriminate).
  unfold m0, filled, Hd_op, Op_val, Chunk_size, Chunk_block, Val_hp, Bsize_wsize in *. conj.
  - rewrite !upd_other by lia. rewrite Z.add_simpl_r. apply upd_same.
  - apply upd_same.
  - rewrite upd_other by lia. apply upd_same.
  - rewrite !upd_other by lia. apply upd_same.
  - intros a Ha. rewrite !upd_other by lia. reflexivity.
Qed.

Lemma one_block c R m0 : Wosize_bhsize R <= Max_wosize -> large_blocks fuel c c c R m0 = Ok (c, c, R, m0).
Proof. clear G. intros H. destruct fuel; cbn [large_blocks]; (destruct (Z.ltb_spec Max_wosize (Wosize_bhsize R)); [lia | reflexivity]). Qed.

Lemma split_map (l1 l2 : list (Z * Z)) : map fst Sg = l1 ++ l2 -> exists Sa Sb, Sg = Sa ++ Sb /\ map fst Sa = l1 /\ map fst Sb = l2.
Proof. intros E. apply map_eq_app in E as (Sa & Sb & -> & E1 & E2). eauto. Qed.

(** What [caml_add_to_heap] does to the chunk. *)
Lemma add_to_heap_spec c R blk : c mod Page_size = 0 -> 0 < R -> R mod Page_size = 0 -> Page_size <= c -> fresh (map fst Sg) (c - hs) (c + R) ->
  total_bytes (map fst Sg) + R < Z.of_nat fuel ->
  let m0 := filled c R (m.[Chunk_size c <- R].[Chunk_block c <- blk]) in
  exists ok m1 h1, caml_add_to_heap fuel c m0 h = Ok (ok, m1, h1) /\
    (ok = false -> exists t', caml_page_table_add fuel In_heap c (c + R) (page_kinds h) = Ok (false, t')) /\ (ok = true -> exists Sa Sb, Sg = Sa ++ Sb /\
    Forall (fun s => before s (c, c + R)) (map fst Sa) /\ Forall (before (c, c + R)) (map fst Sb) /\
    chunks_ok m1 (heap_start h1) (map fst Sa ++ (c, c + R) :: map fst Sb) /\ registered h1 (map fst Sa ++ (c, c + R) :: map fst Sb) /\ same_cycle h h1 /\
    (forall a, ~ touched Sg c R a -> m1 a = m a) /\
    Hd_op m1 (Val_hp c) = Make_header (Wosize_bhsize R) 0 Caml_blue /\ m1 (Val_hp c) = 0 /\ Op_val m1 (Val_hp c) 1 = Val_hp c).
Proof.
  intros Cp Rp Rm Pc Fr Fu m0. destruct (filled_spec c R blk Rp Rm) as (B1 & B2 & B3 & B4 & B5). fold m0 in B1, B2, B3, B4, B5.
  pose proof (blocks_length m Sg (ho_tiled _ _ _ _ _ _ (go_heap _ _ _ _ G))) as Tp. pose proof sizeof_value_pos as Sp. destruct head_size as [Hh _].
  unfold caml_add_to_heap. rewrite B4. destruct Fr as (Fr1 & Fr2 & Fr3). assert (Rg : range_ok c (c + R)) by (unfold range_ok; lia).
  destruct (pages_spec 0 In_heap c (c + R) fuel (page_kinds h) (rg_valid _ _ (go_registered _ _ _ _ G)) ltac:(easy) ltac:(easy) Rg ltac:(nia)) as (ok & t' & Ea & V' & Mk).
  fold (caml_page_table_add fuel In_heap c (c + R) (page_kinds h)) in Ea. rewrite Ea. destruct ok; cbn [negb]; [|exists false, m0, (set_pages t' h); conj; [reflexivity | eauto | discriminate]].
  assert (Fr : fresh (map fst Sg) (c - hs) (c + R)) by (split; auto). destruct (new_placed Sg c R Rp Fr) as [Pn Ap].
  pose proof (go_chunks _ _ _ _ G) as Ck. assert (Out : forall s a, In s (map fst Sg) -> fst s - hs <= a < fst s -> ~ (c - hs <= a < c + R)).
  { intros s a Hs Ha. destruct (proj1 (Forall_forall _ _) (ck_placed _ _ _ Ck) s Hs) as [Ps _]. pose proof (proj1 (Forall_forall _ _) Ap s Hs) as X. unfold before in X. cbn [fst snd] in X. lia. }
  assert (Ck0 : chunks_ok m0 (heap_start h) (map fst Sg)).
  { destruct Ck as [C1 C2 C3]. split; auto. eapply chunk_chain_ext; [|exact C1]. intros s Hs. pose proof (chunk_cells (fst s)). split; apply B5, (Out s); auto; lia. }
  destruct (insert_split m0 (heap_start h) c R (map fst Sg) Ck0 Ap) as (L1 & L2 & E & F1 & F2). pose proof (split_map L1 L2 E) as (Sa & Sb & Es & <- & <-).
  pose proof (ck_chain _ _ _ Ck0) as Ch. rewrite E in Ch. pose proof (ck_placed _ _ _ Ck) as Pl. rewrite E in Pl. apply Forall_app in Pl as [P1 _].
  assert (Lf : (length (map fst Sa) < fuel)%nat).
  { rewrite E, total_bytes_app in Fu. assert (Z.of_nat (length (map fst Sa)) <= total_bytes (map fst Sa)).
    { clear -P1 Hh. induction P1 as [|s l [Ps _] Pl IH]; [reflexivity|]. change (total_bytes (s :: l)) with (snd s - fst s + total_bytes l). cbn [length]. lia. }
    pose proof (ck_placed _ _ _ Ck) as Pl. rewrite E in Pl. apply Forall_app in Pl as [_ P2].
    assert (0 <= total_bytes (map fst Sb)).
    { clear -P2 Hh. induction P2 as [|s l [Ps _] Pl IH]; [reflexivity|]. change (total_bytes (s :: l)) with (snd s - fst s + total_bytes l). lia. }
    lia. }
  rewrite (place_ok m0 c R (map fst Sg) Pn (map fst Sa) (map fst Sb) E F2 (map fst Sa) fuel 0 (heap_start h) P1 F1 Ch Lf).
  pose proof (insert_chain m0 (heap_start h) c R (map fst Sg) Ck0 Pn Ap (map fst Sa) (map fst Sb) E F1 F2 B4) as K. unfold linked in K.
  assert (Fin : forall m1 start, chunks_ok m1 start (map fst Sa ++ (c, c + R) :: map fst Sb) /\
    (forall a, a <> Chunk_next c -> (forall s, In s (map fst Sa) -> a <> Chunk_next (fst s)) -> m1 a = m0 a) -> forall h1, heap_start h1 = start -> page_kinds h1 = t' -> same_cycle h h1 ->
    caml_stat_heap_size h1 = caml_stat_heap_size h + R -> caml_stat_heap_chunks h1 = caml_stat_heap_chunks h + 1 ->
    exists Sa Sb, Sg = Sa ++ Sb /\
    Forall (fun s => before s (c, c + R)) (map fst Sa) /\ Forall (before (c, c + R)) (map fst Sb) /\
    chunks_ok m1 (heap_start h1) (map fst Sa ++ (c, c + R) :: map fst Sb) /\ registered h1 (map fst Sa ++ (c, c + R) :: map fst Sb) /\ same_cycle h h1 /\
    (forall a, ~ touched Sg c R a -> m1 a = m a) /\
    Hd_op m1 (Val_hp c) = Make_header (Wosize_bhsize R) 0 Caml_blue /\ m1 (Val_hp c) = 0 /\ Op_val m1 (Val_hp c) 1 = Val_hp c).
  { intros m1 start [C1 C2] h1 E1 E2 E3 E4 E5. exists Sa, Sb. pose proof (chunk_cells c) as Cc. assert (Rb : Page_size <= R) by (apply Z.mod_divide in Rm as [q ->]; [rewrite Page_size_eq in *; lia | discriminate]).
    assert (In_new : forall a, c <= a < c + R -> m1 a = m0 a).
    { intros a Ha. apply C2; [lia|]. intros s Hs Ea'. pose proof (chunk_cells (fst s)). apply (Out s a); [rewrite E; apply in_or_app; auto | lia | lia]. }
    assert (S8 : sizeof_value <= 8) by (unfold sizeof_value, WORD; destruct ARCH_SIXTYFOUR; discriminate). rewrite Page_size_eq in Rb.
    rewrite E1. conj; auto.
    - exact (register_chunk c R t' _ _ h1 E Rg V' (Mk eq_refl) E2 E4 E5).
    - intros a Na. rewrite C2; [apply B5; intros X; apply Na; now left | intros ->; apply Na; left; lia | intros s Hs ->; apply Na; right; exists s; split; auto; rewrite E; apply in_or_app; auto].
    - unfold Hd_op in *. rewrite In_new; auto. unfold Val_hp. lia.
    - rewrite In_new; auto. unfold Val_hp. lia.
    - unfold Op_val in *. rewrite In_new; auto. unfold Val_hp, Bsize_wsize. lia. }
  destruct (last (map fst (map fst Sa)) 0 =? 0); eexists true, _, _; (split; [reflexivity|]); (split; [discriminate|]); intros _; eapply Fin; try exact K; try reflexivity; repeat split.
Qed.
End Expand.

(** ** Allocation *)

Section Alloc.
Context {A : Arch} {Sn : Sentinel} {Ma : Malloc} {Gp : Gc_params} {T : Type} {Pg : Pages T} {O : Pages_ok T}.
Variable fuel : nat.
Notation hs := sizeof_heap_chunk_head.

(** The size that [expand_heap] asks for. *)
Definition over_request (request : Z) : Z := request + request / 100 * caml_percent_free.
(** The request does not overflow; a chunk is one block, the fuel is enough for it, and
    what [malloc] returns is not in use. *)
Definition can_grow (m : mem) (Sg : list seg) (request : Z) : Prop :=
  0 <= caml_percent_free /\ Bhsize_wosize (over_request request) < 2 ^ WORD /\
  forall R, caml_round_heap_chunk_size (Bhsize_wosize (over_request request)) = Ok R ->
    Wosize_bhsize R <= Max_wosize /\ total_bytes (map fst Sg) + R < Z.of_nat fuel /\
    forall blk, malloc m (wrap WORD (R + hs + Page_size)) = Some blk -> fresh (map fst Sg) blk (blk + (R + hs + Page_size)).

(** Why the heap does not grow: a size wraps around, [malloc] finds no room, or the page
    table cannot be extended. *)
Definition no_room (m : mem) (h : major_heap (T := T)) (request : Z) : Prop := let bytes := Bhsize_wosize (over_request request) in
  match caml_round_heap_chunk_size bytes with
  | Ok R => malloc m (wrap WORD (R + hs + Page_size)) = None \/
      exists c t', caml_page_table_add fuel In_heap c (c + R) (page_kinds h) = Ok (false, t')
  | _ => 2 ^ WORD < Z.max bytes (Z.max caml_major_heap_increment (Bsize_wsize Heap_chunk_min)) + Page_size
  end.
(** Allocated blocks keep their headers and fields. *)
Definition kept_blocks (m m' : mem) (Sg Sg' : list seg) : Prop :=
  forall x, In x (blocks Sg) -> free m x = false -> In x (blocks Sg') /\ untouched m m' x.

Lemma expand_grows m h Sg request : grow_ok fuel m h Sg -> fl_last (free_blocks h) = last (frees m (blocks Sg)) Fl_head ->
  1 <= request <= Max_wosize -> can_grow m Sg request ->
  match expand_heap fuel request m h with
  | Ok (bp, m1, h1) => bp = 0 /\ no_room m h request \/ bp <> 0 /\ same_cycle h h1 /\ forall z, exists m2 f2 Sg', caml_fl_add_blocks fuel z bp m1 (free_blocks h1) = Ok (m2, f2) /\
      grow_ok fuel m2 (set_free f2 h1) Sg' /\ kept_blocks m m2 Sg Sg' /\ In bp (frees m2 (blocks Sg')) /\ request <= wosize m2 bp /\
      (forall s, In s (map fst Sg) -> In s (map fst Sg'))
  | Raise e => e = Out_of_memory /\ no_room m h request
  | Stuck => False
  end.
Proof.
  intros G Last Hr (Hp & Ho & C). pose proof sizeof_value_pos as Sp. unfold expand_heap. fold (over_request request).
  assert (Pq : 0 <= request / 100) by (apply Z.div_pos; lia). assert (Po : request <= over_request request) by (unfold over_request; nia).
  assert (Hb : Bhsize_wosize (over_request request) = (over_request request + 1) * sizeof_value) by (unfold Bhsize_wosize, Bsize_wsize, Whsize_wosize; reflexivity).
  rewrite (wrap_small WORD (over_request request)) by nia. rewrite wrap_small by nia.
  unfold no_room. cbn zeta. destruct (caml_round_heap_chunk_size _) as [R|e|] eqn:Er; [|now apply round_raise in Er|unfold caml_round_heap_chunk_size in Er; destruct (_ <? _) in Er; congruence].
  destruct (C R eq_refl) as (One & Fu & Cm). destruct (round_ok _ _ Er) as (Rr & Rm & R0). assert (Rp : 0 < R) by nia. destruct (head_size) as [Hh _].
  destruct (malloc m (wrap WORD (R + hs + Page_size))) as [blk|] eqn:Em.
  2: { unfold caml_alloc_for_heap, caml_aligned_malloc. rewrite Em. left. auto. }
  specialize (Cm blk eq_refl). pose proof Cm as (Fb & Fh & Fw & _).
  destruct (alloc_for_heap_ok R m blk R0 Rm Em Fb Fw) as (c & -> & Cp & C1 & C2 & C3). rewrite one_block by exact One.
  assert (Fr : fresh (map fst Sg) (c - hs) (c + R)).
  { destruct Cm as (_ & _ & _ & F4 & F5). unfold fresh. conj; try lia. eapply Forall_impl; [|exact F5]. cbn beta. intros s. lia. }
  assert (R1 : 1 < R) by (apply Z.mod_divide in Rm as [q ->]; [rewrite Page_size_eq in *; lia | discriminate]). apply Z.ltb_lt in R1 as R1b. rewrite R1b.
  destruct (add_to_heap_spec fuel m h Sg G c R blk Cp Rp Rm C3 Fr Fu) as (ok & m1 & h1 & Ea & Enok & Eok). unfold filled in Ea. cbn zeta in Ea. cbn zeta. rewrite Ea.
  destruct ok; [|left; split; auto; right; exists c; now apply Enok]. destruct (Eok eq_refl) as (Sa & Sb & Es & Fa & Fbb & Ck1 & V1 & Sc & Un & H1 & H2 & H3). pose proof (proj1 Sc) as Eh1.
  right. assert (Cpos : 0 < c) by lia. assert (Bp : Val_hp c <> 0) by (unfold Val_hp; lia). split; [exact Bp|]. split; [exact Sc|]. intros z.
  pose proof (ho_tiled _ _ _ _ _ _ (go_heap _ _ _ _ G)) as Ti. pose proof (ho_free _ _ _ _ _ _ (go_heap _ _ _ _ G)) as Fo. pose proof (grown_split m Sg Sa Sb Es) as Ef.
  destruct (nodup_frees m Sg Ti) as [D _]. rewrite Ef in D. destruct (grown_order fuel m h Sg c R G Rp Sa Sb Es Fa Fbb) as [Lo Hi].
  pose proof (frees_fuel fuel m h _ _ Sg (go_heap _ _ _ _ G)) as Lf. rewrite Ef, length_app in Lf.
  assert (Ln : links m1 Fl_head (frees m (blocks Sa) ++ frees m (blocks Sb)) 0).
  { pose proof (fl_links _ _ _ Fo) as L. rewrite Ef in L. eapply links_ext; [|exact L]. intros x [<-|Hx]; apply Un.
    - now apply (sentinel_untouched fuel m h Sg c R G Fr).
    - destruct (free_first fuel m h Sg G Sa Sb Es x Hx) as [Ix Cx]. apply (inside_untouched fuel m h Sg c R G Fr). now apply (block_inside fuel m h Sg G x x). }
  assert (Np : Val_hp c <> Fl_head).
  { destruct (sentinel_untouched fuel m h Sg c R G Fr) as [K _]. intros E. apply K. left. rewrite <- E. unfold Val_hp in *. apply Z.mod_divide in Rm as [q Eq]; [|discriminate].
    rewrite Page_size_eq in *. assert (sizeof_value <= 8) by (unfold sizeof_value, WORD; destruct ARCH_SIXTYFOUR; discriminate). lia. }
  assert (Last1 : fl_last (free_blocks h1) = last (frees m (blocks Sa) ++ frees m (blocks Sb)) Fl_head) by (now rewrite Eh1, Last, Ef).
  assert (Pn : policy (free_blocks h1) = Policy_next_fit) by (rewrite Eh1; apply (ho_policy _ _ _ _ _ _ (go_heap _ _ _ _ G))).
  destruct (add_blocks_spec m1 (free_blocks h1) _ _ (Val_hp c) z Ln D Np Lo Hi Last1 Pn H2 H3 fuel ltac:(lia)) as (m2 & f2 & E2 & L2 & U2 & P2 & V2 & S2).
  rewrite Eh1 in P2, V2, S2. assert (Pf2 : policy f2 = Policy_next_fit) by (rewrite P2, <- Eh1; exact Pn).
  exists m2, f2, (Sa ++ (c, c + R, [Val_hp c]) :: Sb). split; [exact E2|].
  split; [exact (grown fuel m h Sg c R G Cp Rm Rp One Fr m1 h1 Sa Sb Es Fa Fbb Ck1 V1 Un H1 H2 H3 m2 f2 L2 U2 Pf2 V2 S2 Fu)|]. split; [|split; [|split]].
  - intros x Hx Fx. split; [apply (in_blocks2 Sg c R Sa Sb Es); auto|]. intros a Ca. exact (grown_others fuel m h Sg c R G Rm Rp One Fr m1 Sa Sb Es Un H1 H2 H3 m2 f2 L2 U2 S2 x a Hx Fx Ca).
  - rewrite (frees2 fuel m h Sg c R G Rm Rp One Fr m1 Sa Sb Es Un H1 H2 H3 m2 f2 L2 U2 S2). apply in_or_app. right. now left.
  - unfold wosize. rewrite (header2_new fuel m h Sg c R G Rm Rp One Fr m1 Sa Sb Es H1 H2 H3 m2 f2 L2 U2 S2).
    destruct (new_block_header c R Rm Rp One m1 H1) as (_ & Ew & _). fold (wosize m1 (Val_hp c)). rewrite Ew. unfold Wosize_bhsize.
    assert (over_request request + 1 <= R / sizeof_value) by (apply Z.div_le_lower_bound; lia). lia.
  - intros s. rewrite Es, !map_app, !in_app_iff. cbn [map In]. tauto.
Qed.

(** Only the free list counts, and the addresses owned follow from the blocks. *)
Lemma heap_ok_same {T1 T2} fuel1 fuel2 m (h1 : major_heap (T := T1)) (h2 : major_heap (T := T2)) av kept Sg : heap_ok fuel1 m h1 av kept Sg ->
  free_blocks h2 = free_blocks h1 -> (fuel1 <= fuel2)%nat -> heap_ok fuel2 m h2 (avail m Sg) (read m Sg) Sg.
Proof. intros [H1 H2 H3 H4 H5 _ _] E Le. split; rewrite ?E; auto; try easy. lia. Qed.
Lemma not_avail m Sg x a : tiled m Sg -> In x (blocks Sg) -> free m x = false -> cell m x a -> ~ avail m Sg a.
Proof.
  intros Ti Hx Fx Ca [->|(y & Hy & Ry)]; [now apply (proj1 (tiled_head m Sg x Ti Hx))|]. apply frees_in in Hy as [Hy Fy].
  assert (Rx : range x (wosize m x) a) by (exact (cell_range m x a (tiled_header m Sg x Ti Hx) Ca)).
  pose proof (tiled_disjoint m Sg x y a Ti Hx Hy Rx Ry). congruence.
Qed.
Lemma chunks_kept m m' h Sg : grow_ok fuel m h Sg -> (forall a, ~ avail m Sg a -> m' a = m a) -> chunks_ok m' (heap_start h) (map fst Sg).
Proof.
  intros G E. pose proof (go_chunks _ _ _ _ G) as Ck. pose proof (ho_tiled _ _ _ _ _ _ (go_heap _ _ _ _ G)) as Ti. destruct Ck as [C1 C2 C3] eqn:Ec. split; auto. eapply chunk_chain_ext; [|exact C1]. intros s Hs.
  assert (K : forall a, fst s - hs <= a < fst s -> m' a = m a).
  { intros a Ha. apply E. intros [->|(x & Hx & Rx)].
    - destruct (proj1 (Forall_forall _ _) C3 s Hs) as [X Y]. pose proof sizeof_value_pos. destruct head_size. lia.
    - apply frees_in in Hx as [Hx _]. destruct (tiled_inside m Sg x a Ti Hx Rx) as (t & Ht & It). exact (head_apart m (heap_start h) _ s t a (go_chunks _ _ _ _ G) Hs Ht Ha It). }
  pose proof (chunk_cells (fst s)). split; apply K; lia.
Qed.

(** The collector is marking, or has still to sweep the block. *)
Definition kept_this_cycle (h : major_heap (T := T)) (r : Z) : Prop := phase h = Phase_mark \/ phase h = Phase_sweep /\ sweep_hp h <= r - sizeof_value.
Lemma kept_same h h' r : phase h' = phase h -> sweep_hp h' = sweep_hp h -> kept_this_cycle h' r <-> kept_this_cycle h r.
Proof. unfold kept_this_cycle. now intros -> ->. Qed.
Lemma allocation_color h hp : (kept_this_cycle h (Val_hp hp) -> caml_allocation_color hp h = Caml_black) /\
  (~ kept_this_cycle h (Val_hp hp) -> caml_allocation_color hp h = Caml_white).
Proof.
  unfold kept_this_cycle, caml_allocation_color. replace (Val_hp hp - sizeof_value) with hp by (unfold Val_hp; lia).
  destruct (Z.eqb_spec (phase h) Phase_mark), (Z.eqb_spec (phase h) Phase_sweep), (Z.leb_spec (sweep_hp h) hp); cbn [orb andb]; (split; [|tauto || intros N; destruct N; auto]); auto.
  all: intros [K|[K K']]; tauto || lia.
Qed.
Lemma finish_color sz tg hp m h : 0 <= sz <= Max_wosize -> 0 <= tg < 256 ->
  let '(r, m', _) := finish_alloc sz tg hp m h in
  (kept_this_cycle h r -> color m' r = Caml_black) /\ (~ kept_this_cycle h r -> color m' r = Caml_white).
Proof.
  intros Hs Ht. unfold finish_alloc. destruct (allocation_color h hp) as [C1 C2].
  assert (E : color (m.[hp <- Make_header sz tg (caml_allocation_color hp h)]) (Val_hp hp) = caml_allocation_color hp h).
  { assert (Ec : exists k, caml_allocation_color hp h = k * 256 /\ 0 <= k < 4) by (unfold caml_allocation_color; destruct (_ || _); [exists 3 | exists 0]; easy).
    destruct Ec as (k & Ek & Rk). unfold color, Hd_op, Val_hp. rewrite Z.add_simpl_r, upd_same, Ek. now apply Make_header_tag. }
  rewrite E. auto.
Qed.
(** The result of an allocation. *)
Record allocated (m : mem) (h : major_heap (T := T)) (Sg : list seg) (sz tg r : Z) (m' : mem) (h' : major_heap (T := T)) (Sg' : list seg) : Prop := {
  al_heap : grow_ok fuel m' h' Sg';
  al_kept : kept_blocks m m' Sg Sg';
  al_block : In r (blocks Sg') /\ Is_block r = true;
  al_header : header_ok (Hd_op m' r) /\ tag m' r = tg /\ wosize m' r = sz;
  al_color : (kept_this_cycle h r -> color m' r = Caml_black) /\ (~ kept_this_cycle h r -> color m' r = Caml_white);
  al_new : forall x a, In x (blocks Sg) -> free m x = false -> cell m x a -> ~ range r sz a;
  al_chunks : forall s, In s (map fst Sg) -> In s (map fst Sg');
  al_cycle : phase h' = phase h /\ sweep_hp h' = sweep_hp h;
  al_count : caml_allocated_words h' = caml_allocated_words h + Whsize_wosize sz;
  al_slice : caml_force_major_slice h' = caml_force_major_slice h || (Wsize_bsize caml_minor_heap_size <? caml_allocated_words h') }.
Definition allocated_in (m : mem) (h : major_heap (T := T)) (Sg : list seg) (sz tg r : Z) (m' : mem) (h' : major_heap (T := T)) : Prop :=
  exists Sg', allocated m h Sg sz tg r m' h' Sg'.

Lemma fit_grow m h Sg sz tg Pr b Nx z : grow_ok fuel m h Sg -> 1 <= sz <= Max_wosize -> 0 <= tg < 256 -> frees m (blocks Sg) = Pr ++ b :: Nx -> sz <= wosize m b ->
  exists hp m1 f1, allocate_block (Whsize_wosize sz) 0 (last Pr Fl_head) b m (set_last z (free_blocks h)) = (hp, m1, f1) /\ hp <> 0 /\
    let '(r, m', h') := finish_alloc sz tg hp m1 (set_free f1 h) in allocated_in m h Sg sz tg r m' h'.
Proof.
  intros G Hs Ht Ef Le. destruct (fit_ok fuel m h _ _ Sg sz tg Pr b Nx z (go_heap _ _ _ _ G) Hs Ht Ef Le) as (hp & m1 & f1 & Ea & Nh & K). exists hp, m1, f1. conj; auto.
  pose proof (finish_color sz tg hp m1 (set_free f1 h) ltac:(lia) Ht) as Cl.
  unfold finish_alloc in *. destruct K as (Sg' & K1 & K2 & K3 & K4 & K5 & K6 & K7 & K8 & K9 & K10). exists Sg'. split; auto; try tauto.
  - split; [exact K1 | | rewrite K2; apply (registered_same h); auto; exact (go_registered _ _ _ _ G)]. rewrite K2. now apply (chunks_kept m _ h Sg).
  - intros x a Hx Fx Ca Ra. destruct (K4 a Ra) as [Av _]. exact (not_avail m Sg x a (ho_tiled _ _ _ _ _ _ (go_heap _ _ _ _ G)) Hx Fx Ca Av).
  - rewrite K2. auto.
Qed.

Lemma alloc_grow_ok m h Sg sz tg : grow_ok fuel m h Sg -> 1 <= sz <= Max_wosize -> 0 <= tg < 256 -> can_grow m Sg sz ->
  match AllocShr.caml_alloc_shr fuel sz tg m h with
  | Ok (r, m', h') => allocated_in m h Sg sz tg r m' h'
  | Raise e => e = Out_of_memory /\ (forall b, In b (frees m (blocks Sg)) -> wosize m b < sz) /\ no_room m h sz
  | Stuck => False
  end.
Proof.
  intros G Hs Ht Cg. pose proof (go_heap _ _ _ _ G) as Ho. pose proof Ho as [Ti Fo Pn _ _ _ _]. unfold AllocShr.caml_alloc_shr. destruct (Z.ltb_spec Max_wosize sz); [lia|].
  destruct (nodup_frees m Sg Ti) as [D Nz]. pose proof (frees_fuel _ _ _ _ _ _ Ho) as Lf. unfold caml_fl_allocate at 1. rewrite Pn. cbn [Z.eqb Policy_next_fit].
  destruct (next_fit_choice m (free_blocks h) (blocks Sg) sz fuel Fo Pn D Nz Lf) as [(Pr & b & Nx & z & EF & Le & ->)|(Sm & ->)].
  - destruct (fit_grow m h Sg sz tg Pr b Nx z G Hs Ht EF Le) as (hp & m1 & f1 & -> & Nh & K). apply Z.eqb_neq in Nh. rewrite Nh.
    destruct (finish_alloc _ _ _ _ _) as [[r m'] h']. exact K.
  - cbn [Z.eqb]. set (h0 := set_free _ h). assert (G0 : grow_ok fuel m h0 Sg).
    { destruct G as [Gh Gc Gp']. split; auto; [|now apply (registered_same h)]. destruct Gh as [A1 A2 A3 A4 A5 A6 A7]. split; auto. destruct A2. now split. }
    assert (Small : forall b, In b (frees m (blocks Sg)) -> wosize m b < sz) by (intros b Hb; exact (proj1 (Forall_forall _ _) Sm b Hb)).
    pose proof (expand_grows m h0 Sg sz G0 eq_refl Hs Cg) as K. destruct (expand_heap fuel sz m h0) as [[[bp m1] h1]|e|]; auto.
    2: { destruct K as [-> K]. conj; auto. }
    destruct K as [[-> K]|(Nb & Sc & K)]; [cbn [Z.eqb]; conj; auto|]. apply Z.eqb_neq in Nb. rewrite Nb. destruct (K (sweep_hp h1)) as (m2 & f2 & Sg' & -> & G2 & K2 & Ib & Le & Ch).
    pose proof (go_heap _ _ _ _ G2) as Ho2. pose proof (ho_tiled _ _ _ _ _ _ Ho2) as Ti2. pose proof (ho_free _ _ _ _ _ _ Ho2) as Fo2. pose proof (ho_policy _ _ _ _ _ _ Ho2) as Pn2. cbn [free_blocks set_free] in Fo2, Pn2.
    destruct (nodup_frees m2 Sg' Ti2) as [D2 Nz2]. pose proof (frees_fuel _ _ _ _ _ _ Ho2) as Lf2. unfold caml_fl_allocate. rewrite Pn2. cbn [Z.eqb Policy_next_fit].
    destruct (next_fit_choice m2 f2 (blocks Sg') sz fuel Fo2 Pn2 D2 Nz2 Lf2) as [(Pr & b & Nx & z & EF & Lb & ->)|(Sm2 & _)].
    2: { pose proof (proj1 (Forall_forall _ _) Sm2 bp Ib) as X. unfold too_small in X. lia. }
    destruct (fit_grow m2 (set_free f2 h1) Sg' sz tg Pr b Nx z G2 Hs Ht EF Lb) as (hp & m3 & f3 & Ea & _ & Kf). cbn [free_blocks set_free] in Ea. rewrite Ea.
    change (set_free f3 (set_free f2 h1)) with (set_free f3 h1) in Kf. destruct (finish_alloc _ _ _ _ _) as [[r m'] h']. destruct Kf as (Sg2 & [X1 X2 X3 X4 X5 X6 X7 X8 X9 X10]).
    assert (Fr2 : forall x, In x (blocks Sg) -> free m x = false -> In x (blocks Sg') /\ free m2 x = false).
    { intros x Hx Fx. destruct (K2 x Hx Fx) as [Ix Ux]. split; auto. unfold free in *. now rewrite (untouched_hd m m2 x Ux). }
    destruct Sc as (_ & S1 & S2 & S3 & S4). cbn [phase sweep_hp caml_allocated_words caml_force_major_slice set_free h0] in S1, S2, S3, S4, X8, X9, X10. rewrite S1, S2 in X8. rewrite S3 in X9. rewrite S4 in X10. rewrite (kept_same h (set_free f2 h1) r S1 S2) in X5.
    exists Sg2. split; auto.
    + intros x Hx Fx. destruct (Fr2 x Hx Fx) as [Ix Fx2]. destruct (X2 x Ix Fx2) as [Ix2 Ux2]. split; auto. eapply untouched_trans; [apply (K2 x Hx Fx) | exact Ux2].
    + intros x a Hx Fx Ca. destruct (Fr2 x Hx Fx) as [Ix Fx2]. apply (X6 x a Ix Fx2). destruct (K2 x Hx Fx) as [_ Ux]. unfold cell, field_of, wosize in *. now rewrite (untouched_hd m m2 x Ux).
Qed.
End Alloc.
