(* ===== verification/MinorTheorems.v ===== *)
(** MinorTheorems: what a minor collection does, with an example that uses the free list
    of the major heap; the write barrier; forwarding blocks that point to an atom. *)
From Stdlib Require Import ZArith Lia List Bool.
From S2P Require Import Prelude Mlvalues ExternOutput InterpState MarshalBytes MarshalTrail MarshalDecode Gc GcGraph GcInv GcMark GcCycle GcTheorems.
From S2P Require Import Freelist FlTile FlSweep PageTable PageTableProof AllocShr Minor MinorInv MinorCopy MinorAlloc AllocGrow.
Import ListNotations.
Local Open Scope Z_scope.

Section Collection.
Context {A : Arch} {Env : Heap_env} {Young : Young_heap} {H : Type} {SH : Shared_heap H} {SO : Shared_heap_ok H}.

(** A state in which a minor collection can start. [Y] is any set of blocks of the minor
    heap that contains those the roots point to and is closed under their fields;
    [fixed] are the headers of the older blocks that forwarding blocks of [Y] point
    to; [av] and [kept] belong to the allocator. *)
Record minor_ok (Y : list Z) (fixed av kept : Z -> Prop) (r : minor_roots) (s : minor H) : Prop := {
  mo_young : young_wf Y (words s) fixed;
  mo_heap : alloc_inv (words s) (shared s) av kept;
  mo_apart : forall a, young_cell a -> ~ av a /\ ~ kept a /\ ~ fixed a;
  mo_fixed : forall a, fixed a -> ~ av a;
  mo_todo : oldify_todo_list s = 0;
  mo_none : ~ young_pointer caml_weak_none;
  mo_roots : Forall (root_ok Y (words s) fixed (Ghost [] av kept)) (young_roots r s ++ caml_ref_table s);
  mo_weak : Forall (fun w => location_ok fixed (Ghost [] av kept) w /\ weak_ok Y (words s) (words s w) /\ ~ In w (young_roots r s ++ caml_ref_table s)) (caml_weak_ref_table s) }.

(** The state after the collection: [copies] are the blocks copied, with their copies. *)
Record collected (Y : list Z) (copies : list (Z * Z)) (av : Z -> Prop) (r : minor_roots) (s s' : minor H) : Prop := {
  co_young : forall b c, In (b, c) copies -> In b Y;
  co_once : NoDup (map fst copies);
  co_header : forall b c, In (b, c) copies -> Is_block c = true /\ tag (words s') c = tag (words s) b /\ wosize (words s') c = wosize (words s) b;
  co_fields : forall b c, In (b, c) copies -> finished Y (words s) (words s') copies b c;
  co_fresh : forall b c a, In (b, c) copies -> range c (wosize (words s) b) a -> av a /\ ~ young_cell a;
  co_distinct : forall b c b' c' a, In (b, c) copies -> In (b', c') copies -> range c (wosize (words s) b) a -> range c' (wosize (words s) b') a -> b = b';
  co_roots : forall p, In p (young_roots r s ++ caml_ref_table s) -> image Y (words s) copies (words s p) (words s' p);
  co_weak : forall w, In w (caml_weak_ref_table s) -> weak_image copies (words s w) (words s' w);
  co_images : forall x y, image Y (words s) copies x y -> ~ young_pointer y;
  co_others : forall a, ~ young_cell a -> ~ av a -> ~ In a (young_roots r s ++ caml_ref_table s) -> ~ In a (caml_weak_ref_table s) -> words s' a = words s a;
  co_heap : exists av' kept', alloc_inv (words s') (shared s') av' kept' /\ (forall a, av' a -> av a) /\
    (forall b c a, In (b, c) copies -> range c (wosize (words s) b) a -> ~ av' a) /\
    (forall b c a, In (b, c) copies -> c <= a < c + Bsize_wsize (wosize (words s) b) -> ~ kept' a);
  co_empty : caml_young_ptr s' = caml_young_end /\ caml_young_limit s' = caml_young_start /\ caml_ref_table s' = [] /\ caml_weak_ref_table s' = [] /\
    oldify_todo_list s' = 0 /\ final_old s' = final_young r }.

Lemma start_inv Y fixed av kept r s : minor_ok Y fixed av kept r s -> inv Y (words s) fixed [] [] (Ghost [] av kept) s.
Proof.
  intros M. destruct M as [M1 M2 M3 M4 M5 M6 M7 M8]. split; cbn [phi MinorInv.av MinorInv.kept]; auto; try easy.
  - constructor.
  - split; [constructor | easy].
Qed.

Lemma collect_ok Y fixed av kept r s turns fuel : minor_ok Y fixed av kept r s -> caml_young_ptr s <> caml_young_end ->
  (3 * length Y + 3 <= fuel)%nat -> (length Y <= turns)%nat ->
  match caml_empty_minor_heap turns fuel r s with
  | Ok s' => exists copies, collected Y copies av r s s'
  | Raise e => e = Out_of_memory
  | Stuck => False
  end.
Proof.
  intros M Np Hf Ht. pose proof (start_inv _ _ _ _ _ _ M) as I0. destruct M as [M1 M2 M3 M4 M5 M6 M7 M8]. set (g0 := Ghost [] av kept) in *.
  apply Forall_app in M7 as [R1 R2]. assert (E0 : phi g0 = []) by reflexivity. pose proof (grows_refl (words s) g0) as G0.
  assert (L0 : left_ Y g0 = length Y) by (unfold left_; cbn; lia).
  assert (U0 : updated Y (words s) g0 [] g0 s) by (intros a _; split; [easy | auto]).
  unfold caml_empty_minor_heap. apply Z.eqb_neq in Np. rewrite Np. cbn [negb]. unfold caml_oldify_local_roots.
  pose proof (oldify_locations_ok Y (words s) fixed M1 g0 E0 fuel _ [] [] g0 s I0 G0 U0 R1 ltac:(lia)) as K1.
  destruct (oldify_locations fuel (young_roots r s) s) as [s1|e|]; auto. destruct K1 as (g1 & T1 & I1 & G1 & _ & U1 & V1 & L1).
  assert (Er : caml_ref_table s1 = caml_ref_table s) by (unfold vars in V1; congruence). rewrite Er.
  pose proof (phi_length _ _ _ _ _ _ _ I1) as P1.
  pose proof (oldify_locations_ok Y (words s) fixed M1 g0 E0 fuel _ _ _ g1 s1 I1 G1 U1 R2 ltac:(unfold left_ in *; cbn [phi g0] in *; lia)) as K2.
  destruct (oldify_locations fuel (caml_ref_table s) s1) as [s2|e|]; auto. destruct K2 as (g2 & T2 & I2 & G2 & _ & U2 & V2 & L2).
  pose proof (phi_length _ _ _ _ _ _ _ I2) as P2.
  pose proof (mopup_ok Y (words s) fixed M1 fuel g0 E0 turns _ g2 s2 I2 G2 ltac:(unfold left_ in *; lia)
    ltac:(unfold left_ in *; rewrite !length_app; cbn [phi g0 length] in *; lia)) as K3.
  destruct (caml_oldify_mopup turns fuel s2) as [s3|e|]; auto. destruct K3 as (g3 & I3 & G3 & G23 & O3 & V3).
  set (l := rev (caml_ref_table s) ++ rev (young_roots r s) ++ []) in *.
  assert (Il : forall p, In p l <-> In p (young_roots r s ++ caml_ref_table s)) by (intros p; unfold l; rewrite app_nil_r, !in_app_iff, <- !in_rev; tauto).
  assert (U3 : weak_updated Y (words s) g0 l [] g3 s3).
  { intros a Oa. destruct (U2 a Oa) as [X1 X2]. rewrite (O3 a Oa). split; [easy|]. split; [|auto]. intros Ha. apply (image_mono _ _ (phi g2)); auto. apply G23. }
  assert (Ew : caml_weak_ref_table s3 = caml_weak_ref_table s) by (unfold vars in *; congruence). rewrite Ew.
  assert (Dk : dead_kept Y (words s) s3).
  { intros a Ya Ca. assert (Oa : outside Y (words s) g0 a) by (split; auto; now apply (M3 a)). destruct (U3 a Oa) as (_ & _ & X). apply X; [|easy].
    rewrite Il. intros K. pose proof (proj1 (Forall_forall _ _) (proj2 (Forall_app _ _ _) (conj R1 R2)) a K) as [[Na _] _]. now apply Na. }
  assert (Fw : Forall (fun w => location_ok fixed g0 w /\ weak_ok Y (words s) (words s w) /\ ~ In w l) (caml_weak_ref_table s)).
  { eapply Forall_impl; [|exact M8]. intros w (X1 & X2 & X3). conj; auto. now rewrite Il. }
  destruct (weak_refs_ok Y (words s) fixed M1 g0 E0 M6 l g3 _ [] s3 I3 G3 U3 Fw Dk) as (I4 & U4 & V4).
  set (s4 := fold_left weak_ref _ s3) in *. rewrite app_nil_r in U4.
  exists (phi g3).
  assert (Lo : forall p, In p (young_roots r s ++ caml_ref_table s) -> outside Y (words s) g0 p).
  { intros p Hp. pose proof (proj1 (Forall_forall _ _) (proj2 (Forall_app _ _ _) (conj R1 R2)) p Hp) as [X _]. now apply (location_outside Y (words s) fixed M1 g0 p X). }
  split; cbn [words shared caml_final_empty_young reset_young caml_young_ptr caml_young_limit caml_ref_table caml_weak_ref_table oldify_todo_list final_old].
  - apply (i_dom _ _ _ _ _ _ _ I4).
  - apply (i_fun _ _ _ _ _ _ _ I4).
  - intros b c Hc. destruct (i_copy _ _ _ _ _ _ _ I4 b c Hc) as (C1 & _ & C3 & C4 & _). auto.
  - intros b c Hc. apply (i_done _ _ _ _ _ _ _ I4); auto.
  - intros b c a Hc Ha. destruct (i_copy _ _ _ _ _ _ _ I4 b c Hc) as (_ & _ & _ & _ & C & _). destruct (C a Ha) as (Ny & _). split; auto.
    destruct (gr_new _ _ _ G3 b c Hc) as [[]|K]. now apply K.
  - apply (i_apart _ _ _ _ _ _ _ I4).
  - intros p Hp. apply (U4 p (Lo p Hp)). now apply Il.
  - intros w Hw. destruct (proj1 (Forall_forall _ _) M8 w Hw) as (X1 & _ & X3). apply (U4 w (location_outside Y (words s) fixed M1 g0 w X1)).
    + now rewrite <- in_rev.
    + now rewrite Il.
  - intros x y. apply (image_not_young Y (words s) fixed M1 _ _ _ _ x y I4).
  - intros a Ny Na Nr Nw. apply U4; [split; auto; now apply (clear_young _ _ _ M1) | now rewrite Il | now rewrite <- in_rev].
  - exists (MinorInv.av g3), (MinorInv.kept g3). conj; [apply (i_alloc _ _ _ _ _ _ _ I4) | apply (gr_av _ _ _ G3) | |].
    + intros b c a Hc Ha. destruct (i_copy _ _ _ _ _ _ _ I4 b c Hc) as (_ & _ & _ & _ & C & _). now apply (C a).
    + intros b c a Hc Ha. destruct (i_copy _ _ _ _ _ _ _ I4 b c Hc) as (_ & _ & _ & _ & _ & C). now apply (C a).
  - conj; auto. exact (i_chain _ _ _ _ _ _ _ I4).
Qed.

(** C8. A minor collection of a minor heap made of separate blocks ([young_wf]), whose
    forwarding blocks do not point to [Atom(0)]: when one does, the collector reads
    outside of every block (see [forward_to_atom_reads_outside]). It then ends, or raises
    [Out_of_memory] when the allocator of the major heap does. The blocks copied are blocks of [Y], each once, in separate fresh parts of the major heap that
    the allocator does not own any more, with their tags and sizes. The fields of the
    copies, the roots and the remembered locations hold the images of what they held:
    a pointer to a block becomes a pointer to its copy at the same offset (closures
    with several entry points included), a chain of forwarding blocks is skipped as far
    as the major collector may skip it, everything else is unchanged, so that sharing
    and cycles are kept. A weak reference follows a block that has been copied, and is
    erased otherwise. Nothing else outside of the minor heap changes, and the minor
    heap and the tables are empty. The result holds for any allocator with the
    interface [Shared_heap_ok], and for any closed set [Y]: with the blocks reachable
    from the roots, it says that nothing else is copied. *)
Theorem minor_collection_copies Y fixed av kept r s turns fuel : minor_ok Y fixed av kept r s -> caml_young_ptr s <> caml_young_end ->
  (3 * length Y + 3 <= fuel)%nat -> (length Y <= turns)%nat ->
  match caml_empty_minor_heap turns fuel r s with
  | Ok s' => exists copies, collected Y copies av r s s'
  | Raise e => e = Out_of_memory
  | Stuck => False
  end.
Proof. apply collect_ok. Qed.

(** C9. Nothing points to the minor heap after a collection: if every location of [old]
    that points to the minor heap is a root, a remembered location or a weak reference
    (which [caml_modify] guarantees for the fields of the major heap), then no location of
    [old], no root, and no scanned field of a copy points to the minor heap afterwards. *)
Theorem no_young_pointer_left Y fixed av kept r s turns fuel (old : Z -> Prop) : minor_ok Y fixed av kept r s -> caml_young_ptr s <> caml_young_end ->
  (3 * length Y + 3 <= fuel)%nat -> (length Y <= turns)%nat ->
  (forall a, old a -> ~ young_cell a /\ ~ av a) ->
  (forall a, old a -> young_pointer (words s a) -> In a (young_roots r s ++ caml_ref_table s) \/ In a (caml_weak_ref_table s)) ->
  match caml_empty_minor_heap turns fuel r s with
  | Ok s' => (forall a, old a \/ In a (young_roots r s) -> ~ young_pointer (words s' a)) /\
      exists copies, collected Y copies av r s s' /\
        forall b c i, In (b, c) copies -> tag (words s) b < No_scan_tag -> 0 <= i < wosize (words s) b -> ~ young_pointer (Op_val (words s') c i)
  | Raise e => e = Out_of_memory
  | Stuck => False
  end.
Proof.
  intros M Np Hf Ht Ho Hr. pose proof (collect_ok Y fixed av kept r s turns fuel M Np Hf Ht) as K.
  destruct (caml_empty_minor_heap turns fuel r s) as [s'|e|]; auto. destruct K as (copies & C). pose proof (mo_young _ _ _ _ _ _ M) as Yw.
  assert (Rt : forall a, In a (young_roots r s ++ caml_ref_table s) -> ~ young_pointer (words s' a)).
  { intros a Ha. eapply (co_images _ _ _ _ _ _ C). now apply (co_roots _ _ _ _ _ _ C). }
  split.
  - intros a [Oa|Ra]; [|apply Rt, in_or_app; auto]. destruct (Ho a Oa) as [Ny Na].
    destruct (in_dec Z.eq_dec a (young_roots r s ++ caml_ref_table s)) as [D|D]; [now apply Rt|].
    destruct (in_dec Z.eq_dec a (caml_weak_ref_table s)) as [W|W].
    + destruct (co_weak _ _ _ _ _ _ C a W) as [[N ->]|[[_ Hc]|[_ [_ ->]]]]; [auto | | apply (mo_none _ _ _ _ _ _ M)].
      apply (co_images _ _ _ _ _ _ C (words s a)). apply image_block; auto. now apply (co_young _ _ _ _ _ _ C (words s a) (words s' a)).
    + rewrite (co_others _ _ _ _ _ _ C a Ny Na D W). intros Yp. destruct (Hr a Oa Yp); auto.
  - exists copies. split; auto. intros b c i Hc Hn Hi. pose proof (co_fields _ _ _ _ _ _ C b c Hc i Hi) as F.
    apply Z.ltb_lt in Hn. rewrite Hn in F. eapply (co_images _ _ _ _ _ _ C), F.
Qed.
End Collection.

(** ** An example *)

(** Two small blocks that point to each other, one of them through a forwarding block,
    a string, a closure with two entry points and a dead block; a major heap of one
    chunk with a tuple, an array of three weak references and a free block. *)
Module Example_minor.
#[local] Existing Instance arch64.
#[local] Instance env : Heap_env := {
  caml_heap_start := 4096; Gc.Chunk_next _ := 0; Gc.Chunk_size _ := 256;
  Classify_addr a := if (4096 <=? a) && (a <? 4352) then In_heap else if (8192 <=? a) && (a <? 8320) then In_young else Not_in_heap;
  Gc.Is_young a := (8192 <? a) && (a <? 8320); Gc.caml_stat_heap_size := 256; caml_weak_list_head := 64; caml_weak_none := 32; realloc_ok _ := true }.
#[local] Instance young : Young_heap := {| caml_young_start := 8192; caml_young_end := 8320 |}.
#[local] Instance sentinel : Sentinel := 128.
#[local] Instance no_malloc : Malloc := fun _ _ => None.
#[local] Instance params : Gc_params := {| caml_major_heap_increment := 4096; caml_percent_free := 80; caml_minor_heap_size := 128 |}.
#[local] Instance no_pages : Pages unit := {| bits := 64; valid _ := True; classify _ _ := Ok 0; modify _ _ _ t := Ok (Some t) |}.
#[local] Instance heap : Shared_heap major_heap := shared_heap 300.
#[local] Instance heap_ok' : Shared_heap_ok major_heap := shared_heap_ok 300 (fun _ _ => eq_refl).

Definition words_of (base : Z) (l : list Z) (a : Z) : Z := nth (Z.to_nat ((a - base) / 8)) l 0.
Definition old_words : list Z := [1024; 8256; 3323; 1; 8240; 8312; 26112; 0].
Definition young_words : list Z := [2816; 8224; 3; 2042; 8240; 1792; 8200; 2044; 7; 5111; 60000; 3; 3321; 60008; 1792; 1].
Definition memory0 : mem := fun a =>
  if a =? 128 then 4152 else if a =? 512 then 8200 else if a =? 520 then 8296
  else if (4096 <=? a) && (a <? 4160) && (a mod 8 =? 0) then words_of 4096 old_words a
  else if (8192 <=? a) && (a <? 8320) && (a mod 8 =? 0) then words_of 8192 young_words a else 0.
Definition free0 : free_list := Free_list 128 0 0 26 [] 0 0 Policy_next_fit.
Definition heap0 : major_heap := Major_heap free0 4096 tt 256 256 1 0 Phase_idle 0 false.
Definition state0 : minor major_heap := Minor memory0 heap0 0 8192 8192 [4104] [4128; 4136] 0 0.
Definition roots0 : minor_roots := Minor_roots 512 528 [] [] 1024 0 [].
Definition blocks0 : list Z := [8200; 8224; 8240; 8256; 8272].
Definition segs0 : list seg := [(4096, 4352, [4104; 4120; 4152])].
Definition result : minor major_heap := match caml_empty_minor_heap 100 100 roots0 state0 with Ok s => s | _ => state0 end.

Example collection_run : map (words result) [512; 520; 4104; 4128; 4136] = [4336; 4320; 4280; 4264; 32] /\
  map (words result) [4264; 4336; 4344; 4280; 4296; 4304; 4312; 4320] = [4336; 4264; 3; 7; 60000; 3; 3321; 60008] /\
  caml_ref_table result = [] /\ caml_young_ptr result = 8320 /\ caml_fl_cur_size (free_blocks (shared result)) = 14.
Proof. vm_compute. auto. Qed.

Lemma in_frees b : In b (frees memory0 (FlTile.blocks segs0)) <-> b = 4152.
Proof. change (frees memory0 (FlTile.blocks segs0)) with [4152]. cbn. intuition. Qed.
Lemma avail0 a : avail memory0 segs0 a <-> a = 128 \/ 4144 <= a < 4352.
Proof.
  unfold avail. change Fl_head with 128. split.
  - intros [E|(b & Hb & R)]; auto. apply in_frees in Hb as ->. right. exact R.
  - intros [E|R]; auto. right. exists 4152. split; [now apply in_frees | exact R].
Qed.
Lemma read0 a : read memory0 segs0 a <-> a = 120 \/ a = 4096 \/ a = 4112.
Proof.
  unfold read. change (Fl_head - sizeof_value) with 120. split.
  - intros [E|(b & Hb & F & ->)]; auto. each Hb; vm_compute in F; try discriminate F; vm_compute; auto.
  - intros [E|[E|E]]; auto; right; [exists 4104 | exists 4120]; subst; (split; [vm_compute; auto | split; reflexivity]).
Qed.
Lemma heap0_ok : heap_ok 300 memory0 heap0 (avail memory0 segs0) (read memory0 segs0) segs0.
Proof.
  assert (F : frees memory0 (FlTile.blocks segs0) = [4152]) by reflexivity. split; cbn [free_blocks heap0].
  - split; [split|]; cbn [map fst segs0].
    + repeat constructor.
    + constructor; [|constructor]. unfold FlTile.outside. change Fl_head with 128. change sizeof_value with 8. cbn [fst snd]. lia.
    + constructor; [|constructor]. repeat split; vm_compute; congruence.
  - split; rewrite ?F; [split; by_vm | intros _; left; reflexivity | by_vm | intros b [<-|[]]; by_vm | by_vm].
  - reflexivity.
  - repeat constructor.
  - by_vm.
  - reflexivity.
  - reflexivity.
Qed.
Lemma young0 : young_wf blocks0 memory0 (fun _ => False).
Proof.
  split.
  - discriminate.
  - repeat constructor; cbn; intuition discriminate.
  - intros b Hb. each Hb; vm_compute; intuition congruence.
  - intros b Hb. each Hb; vm_compute; intuition congruence.
  - intros b b' Hb Hb' N. each Hb; each Hb'; vm_compute; intuition congruence.
  - intros b i Hb Tb Hi. each Hb; vm_compute in Tb; try discriminate Tb;
      match type of Hi with _ <= _ < ?n => let k := eval vm_compute in n in change n with k in Hi end;
      each_index Hi; first [intros _; left; vm_compute; tauto | intros [P1 P2]; vm_compute in P1, P2; congruence].
  - intros b Hb Tb. each Hb; vm_compute in Tb; try discriminate Tb; reflexivity.
  - intros b Hb Tb. each Hb; vm_compute in Tb; try discriminate Tb. vm_compute. discriminate.
Qed.
Lemma location0 p : (p =? 512) || (p =? 520) || (p =? 4104) || (p =? 4128) || (p =? 4136) || (p =? 1024) = true ->
  location_ok (fun _ => False) (Ghost [] (avail memory0 segs0) (read memory0 segs0)) p.
Proof. intros E. unfold location_ok, young_cell. cbn [av kept]. rewrite avail0, read0. cbn [caml_young_start caml_young_end young]. lia. Qed.
Lemma minor0 : minor_ok blocks0 (fun _ => False) (avail memory0 segs0) (read memory0 segs0) roots0 state0.
Proof.
  split; cbn [words shared state0 oldify_todo_list caml_ref_table caml_weak_ref_table].
  - exact young0.
  - exists segs0. exact heap0_ok.
  - intros a. unfold young_cell. rewrite avail0, read0. cbn [caml_young_start caml_young_end young]. lia.
  - auto.
  - reflexivity.
  - intros [_ E]. vm_compute in E. discriminate E.
  - change (young_roots roots0 state0 ++ [4104]) with [512; 520; 4104]. apply Forall_forall. intros p Hp.
    each Hp; (split; [apply location0; reflexivity | intros _]); [left; vm_compute; tauto | right | left; vm_compute; tauto].
    split; [reflexivity|]. split; [vm_compute; tauto|]. split; [reflexivity|]. exists 2. vm_compute. intuition congruence.
  - change (young_roots roots0 state0 ++ [4104]) with [512; 520; 4104]. constructor; [|constructor; [|constructor]].
    + split; [apply location0; reflexivity|]. split; [|cbn; intuition discriminate]. intros _. left. vm_compute. tauto.
    + split; [apply location0; reflexivity|]. split; [|cbn; intuition discriminate]. intros _. right. split; [vm_compute; intuition discriminate|].
      split; [discriminate|]. right. split; [|vm_compute; intuition congruence]. intros b Hb R. each Hb; vm_compute in R; intuition congruence.
Qed.

Lemma minor_collection_copies_witness : match caml_empty_minor_heap 5 18 roots0 state0 with
  | Ok s' => exists copies, collected blocks0 copies (avail memory0 segs0) roots0 state0 s'
  | Raise e => e = Out_of_memory
  | Stuck => False
  end.
Proof. apply (minor_collection_copies blocks0 (fun _ => False) (avail memory0 segs0) (read memory0 segs0)); [exact minor0 | discriminate | vm_compute; lia | vm_compute; lia]. Defined.

(** The locations of the major heap, and the stack. *)
Definition old0 (a : Z) : Prop := In a [4104; 4120; 4128; 4136; 512; 520].
Lemma no_young_pointer_left_witness : match caml_empty_minor_heap 5 18 roots0 state0 with
  | Ok s' => (forall a, old0 a \/ In a (young_roots roots0 state0) -> ~ young_pointer (words s' a)) /\
      exists copies, collected blocks0 copies (avail memory0 segs0) roots0 state0 s' /\
        forall b c i, In (b, c) copies -> tag (words state0) b < No_scan_tag -> 0 <= i < wosize (words state0) b -> ~ young_pointer (Op_val (words s') c i)
  | Raise e => e = Out_of_memory
  | Stuck => False
  end.
Proof.
  apply (no_young_pointer_left blocks0 (fun _ => False) (avail memory0 segs0) (read memory0 segs0) roots0 state0 5 18 old0);
    [exact minor0 | discriminate | vm_compute; lia | vm_compute; lia | |].
  - intros a Ha. unfold young_cell. rewrite avail0. cbn [caml_young_start caml_young_end young]. cbn in Ha. lia.
  - intros a Ha Yp. change (young_roots roots0 state0 ++ caml_ref_table state0) with [512; 520; 4104]. change (caml_weak_ref_table state0) with [4128; 4136].
    each Ha; cbn [In]; try tauto. destruct Yp as [_ Y2]. vm_compute in Y2. discriminate Y2.
Defined.
End Example_minor.

(** ** The allocator *)

Section Allocation.
Context {A : Arch} {Sn : Sentinel} {Ma : Malloc} {Gp : Gc_params} {T : Type} {P : Pages T} {O : Pages_ok T}.

(** C11. Allocation in the major heap, with the next-fit policy, when the request does not
    overflow and the chunk that it may ask for is one block ([can_grow]; of a chunk of
    several blocks [caml_fl_add_blocks] only counts the first). [caml_alloc_shr] ends. It
    raises [Out_of_memory] only when no free block is large enough and the heap cannot grow:
    a size wraps around, [malloc] finds no room or the page table cannot be extended.
    Otherwise the result is a block of the tag and size asked for, black if the collector
    is marking or has not swept its place yet, and white if not; it overlaps no allocated
    block, and allocated blocks keep their headers and fields. The words allocated are
    counted, and a slice of the major collection is requested when they exceed the size
    of the minor heap. The heap is again made of adjacent blocks, the free list
    goes through all the free blocks in order and its size is exact, the chunks are linked
    in the order of their addresses, all their pages are In_heap in the page table and
    the statistics count them. That holds when the heap grows: the chunk that [malloc]
    gives, aligned to a page, is inserted in the list of chunks and in the free list,
    and the second search succeeds. *)
Theorem alloc_shr_grows fuel m (h : major_heap (T := T)) Sg sz tg : grow_ok fuel m h Sg -> 1 <= sz <= Max_wosize -> 0 <= tg < 256 -> can_grow fuel m Sg sz ->
  match AllocShr.caml_alloc_shr fuel sz tg m h with
  | Ok (r, m', h') => allocated_in fuel m h Sg sz tg r m' h'
  | Raise e => e = Out_of_memory /\ (forall b, In b (frees m (blocks Sg)) -> wosize m b < sz) /\ no_room fuel m h sz
  | Stuck => False
  end.
Proof. apply alloc_grow_ok. Qed.
End Allocation.

(** The heap of the example, whose free block is too small. *)
Section Growth_example.
Import Example_minor.
#[local] Existing Instances arch64 sentinel params.
#[local] Instance some_malloc : Malloc := fun _ _ => Some 65544.
#[local] Instance some_calloc : Calloc := fun _ => true.
Definition memory1 : mem := memory0.[4080 <- 256].
(** The page table knows the chunk. *)
Definition pages1 : Paged.page_table_32 :=
  match caml_page_table_add 300 In_heap 4096 4352 Paged.caml_page_table_initialize_32 with Ok (true, t) => t | _ => Paged.caml_page_table_initialize_32 end.
Definition heap1 : major_heap := Major_heap free0 4096 pages1 256 256 1 0 Phase_idle 0 false.
Definition grown1 := AllocShr.caml_alloc_shr (Z.to_nat 9000) 30 0 memory1 heap1.
Example growth_run : match grown1 with
  | Ok (r, m', h') => r = 77584 /\ m' (AllocShr.Chunk_next 4096) = 69632 /\ m' (AllocShr.Chunk_size 69632) = 8192 /\ Wosize_hd (Hd_op m' 69640) = 992 /\ Next m' 4152 = 69640 /\
      caml_fl_cur_size (free_blocks h') = 1019 /\ classify (page_kinds h') 70000 = Ok In_heap
  | _ => False
  end.
Proof. vm_compute. auto 10. Qed.

Lemma registered1 : registered heap1 (map fst segs0).
Proof.
  destruct (pages_spec 0 In_heap 4096 4352 300 Paged.caml_page_table_initialize_32) as (ok & t & E & V & M); [intros i u Hu; discriminate Hu | easy | easy | easy | easy |].
  assert (Ep : pages1 = if ok then t else Paged.caml_page_table_initialize_32) by (unfold pages1, caml_page_table_add; rewrite E; now destruct ok).
  assert (Ok1 : ok = true).
  { destruct ok; auto. exfalso. assert (K : match caml_page_table_add 300 In_heap 4096 4352 Paged.caml_page_table_initialize_32 with Ok (true, _) => true | _ => false end = true) by by_vm.
    unfold caml_page_table_add in K. rewrite E in K. discriminate K. }
  subst ok. split; [cbn [page_kinds heap1]; now rewrite Ep | | reflexivity | reflexivity].
  intros a (s & [<-|[]] & Ha). cbn [fst snd] in Ha. assert (Pa : page_ok bits a) by (split; [exact (proj1 Ha) | apply Z.lt_trans with 4352; [exact (proj2 Ha) | reflexivity]]). split; auto.
  cbn [page_kinds heap1]. rewrite Ep. exists 1. split; [|reflexivity]. rewrite (M eq_refl a Pa). unfold between.
  change (4096 / Page_size) with 1. change ((4352 - 1) / Page_size) with 1. replace (a / Page_size) with 1 by (rewrite Page_size_eq; Z.div_mod_to_equations; lia). reflexivity.
Qed.
Lemma grow1 : grow_ok (Z.to_nat 9000) memory1 heap1 segs0.
Proof.
  assert (E : forall a, avail memory0 segs0 a \/ read memory0 segs0 a -> memory1 a = memory0 a)
    by (intros a Ha; apply upd_other; rewrite avail0, read0 in Ha; lia).
  split.
  - apply (heap_ok_same 300 _ memory1 heap0 heap1 (avail memory0 segs0) (read memory0 segs0)); [exact (heap_ok_frame 300 memory0 memory1 heap0 _ _ segs0 heap0_ok E) | reflexivity | lia].
  - split; [repeat split; by_vm | repeat constructor | constructor; [|constructor]]. unfold placed. change Fl_head with 128. change sizeof_heap_chunk_head with 32. change sizeof_value with 8. cbn [fst snd]. lia.
  - exact registered1.
Qed.
Lemma can_grow1 : can_grow (Z.to_nat 9000) memory1 segs0 30.
Proof.
  split; [discriminate|]. split; [reflexivity|]. intros R HR. vm_compute in HR. injection HR as <-. split; [discriminate|]. split; [rewrite Z2Nat.id by discriminate; reflexivity|].
  intros blk Hm. injection Hm as <-. unfold fresh. change Fl_head with 128. change sizeof_heap_chunk_head with 32. change sizeof_value with 8. rewrite Page_size_eq. change (2 ^ bits) with 4294967296. change (2 ^ WORD) with 18446744073709551616.
  conj; try lia. constructor; [left; cbn [fst snd segs0 map]; lia | constructor].
Qed.
Lemma alloc_shr_grows_witness : match AllocShr.caml_alloc_shr (Z.to_nat 9000) 30 0 memory1 heap1 with
  | Ok (r, m', h') => allocated_in (Z.to_nat 9000) memory1 heap1 segs0 30 0 r m' h'
  | Raise e => e = Out_of_memory /\ (forall b, In b (frees memory1 (blocks segs0)) -> wosize memory1 b < 30) /\ no_room (Z.to_nat 9000) memory1 heap1 30
  | Stuck => False
  end.
Proof. apply alloc_shr_grows; [exact grow1 | split; discriminate | split; [discriminate | reflexivity] | exact can_grow1]. Defined.
End Growth_example.

(** ** Forwarding to an atom *)

Section Atom.
Context {A : Arch} {Env : Heap_env}.

(** C12. To know whether a forwarding block may be skipped, the collector tests whether
    the block it points to has been forwarded (header 0) also when that is not a block of
    the minor heap. [Atom(0)] has header 0, and the word after it is the header of
    [Atom(1)], so the collector takes 1 for an address and reads the header at
    [1 - sizeof_value], which is no address: what is there decides. *)
Theorem forward_to_atom_reads_outside m f h : Is_block f = true -> Is_in_value_area f = true ->
  Hd_op m f = Make_header 0 0 Caml_white -> Op_val m f 0 = Make_header 0 1 Caml_white ->
  1 - sizeof_value < 0 /\
  keep_forward_young (m.[1 - sizeof_value <- h]) f = ((Tag_hd h =? Forward_tag) || (Tag_hd h =? Lazy_tag) || (Tag_hd h =? Double_tag)).
Proof.
  intros Bf Vf Hf Ff. destruct sizeof_even as [k Ek]. pose proof sizeof_value_pos as Sp.
  assert (E1 : Make_header 0 0 Caml_white = 0 /\ Make_header 0 1 Caml_white = 1) by (unfold Make_header, WORD; destruct ARCH_SIXTYFOUR; split; reflexivity).
  destruct E1 as [E0 E1]. rewrite E0 in Hf. rewrite E1 in Ff.
  assert (Ef : f mod 2 = 0) by (unfold Is_block in Bf; change 1 with (Z.ones 1) in Bf; rewrite Z.land_ones in Bf by lia; now apply Z.eqb_eq).
  split; [lia|]. unfold keep_forward_young. rewrite Bf, Vf. cbn [andb negb orb].
  assert (N1 : f - sizeof_value <> 1 - sizeof_value) by (intros E; assert (f = 1) by lia; subst f; discriminate Ef).
  assert (N2 : f <> 1 - sizeof_value) by (intros E; rewrite E, Ek in Ef; Z.div_mod_to_equations; lia).
  unfold Hd_op. rewrite (upd_other _ _ _ (f - sizeof_value)) by auto. unfold Hd_op in Hf. rewrite Hf. cbn [Z.eqb].
  rewrite Op_val_0 in *. rewrite (upd_other _ _ _ f) by auto. rewrite Ff, upd_same. reflexivity.
Qed.
End Atom.

(** The atom table at 1024. *)
Section Atom_example.
#[local] Existing Instance arch64.
#[local] Instance atom_env : Heap_env := {
  caml_heap_start := 4096; Gc.Chunk_next _ := 0; Gc.Chunk_size _ := 256; Classify_addr a := if (1024 <=? a) && (a <? 3072) then In_static_data else Not_in_heap;
  Gc.Is_young _ := false; Gc.caml_stat_heap_size := 256; caml_weak_list_head := 64; caml_weak_none := 32; realloc_ok _ := true }.
Definition atom_table : mem := fun a => if (1024 <=? a) && (a <? 3072) && (a mod 8 =? 0) then Make_header 0 ((a - 1024) / 8) Caml_white else 0.
Lemma forward_to_atom_reads_outside_witness : 1 - sizeof_value < 0 /\
  keep_forward_young (atom_table.[1 - sizeof_value <- Make_header 1 Lazy_tag Caml_white]) 1032 =
    ((Tag_hd (Make_header 1 Lazy_tag Caml_white) =? Forward_tag) || (Tag_hd (Make_header 1 Lazy_tag Caml_white) =? Lazy_tag) || (Tag_hd (Make_header 1 Lazy_tag Caml_white) =? Double_tag)).
Proof. apply (forward_to_atom_reads_outside atom_table 1032); reflexivity. Defined.
End Atom_example.

(** ** The write barrier *)

Section Barrier.
Context {A : Arch} {Env : Heap_env}.
Variables (B : list Z) (L : Z -> Prop).

(** Every field of the major heap that points to the minor heap is in the table. *)
Definition remembered (s : gc) : Prop := forall b i, L b -> tag (memory s) b < No_scan_tag -> 0 <= i < wosize (memory s) b ->
  Is_block (Op_val (memory s) b i) = true -> Gc.Is_young (Op_val (memory s) b i) = true -> In (b + Bsize_wsize i) (ref_table s).

Lemma darken_table v s : ref_table (caml_darken v s) = ref_table s.
Proof.
  assert (P : forall v s, ref_table (push_gray v s) = ref_table s).
  { intros v' s'. unfold push_gray, realloc_gray_vals. repeat match goal with |- context [if ?c then _ else _] => destruct c end; reflexivity. }
  unfold caml_darken. repeat match goal with |- context [if ?c then _ else _] => destruct c end; rewrite ?P; reflexivity.
Qed.

(** Darkening changes no field, tag or size. *)
Lemma darken_fields v s : GcMark.inv B L s -> (pointer v -> good L (memory s) v) -> forall c, In c B ->
  tag (memory (caml_darken v s)) c = tag (memory s) c /\ wosize (memory (caml_darken v s)) c = wosize (memory s) c /\ forall j, 0 <= j < wosize (memory s) c -> Op_val (memory (caml_darken v s)) c j = Op_val (memory s) c j.
Proof.
  intros I G c Ic. pose proof (inv_heap B L _ I) as W. destruct (darken_spec B L v s I G) as (_ & Mu & _).
  destruct (ss_header B _ _ (mu_shape B L _ _ Mu) c Ic) as (_ & Et & Ew). conj; auto. intros j Hj.
  destruct (darken_change B L v s I G) as [->|(Po & h & col & Rc & -> & _)]; [auto|].
  apply recolor_field with (B := B); auto. eapply live_in; [apply (inv_live B L s I) | apply (G Po)].
Qed.

(** The store in [caml_modify], and the darkening of the old value. *)
Definition stored (b i v : Z) (s : gc) : gc :=
  let s1 := set_memory ((memory s).[b + Bsize_wsize i <- v]) s in
  if caml_gc_phase s1 =? Phase_mark then caml_darken (Op_val (memory s) b i) s1 else s1.

Lemma stored_fields s b i v : GcMark.inv B L s -> L b -> tag (memory s) b < No_scan_tag ->
  0 <= i < wosize (memory s) b -> tag (memory s) b <> Closure_tag -> (pointer v -> good L (memory s) v) ->
  let s' := stored b i v s in
  ref_table s' = ref_table s /\ Op_val (memory s') b i = v /\ forall c j, L c -> tag (memory s') c = tag (memory s) c /\ wosize (memory s') c = wosize (memory s) c /\ (0 <= j < wosize (memory s) c -> (c, j) <> (b, i) -> Op_val (memory s') c j = Op_val (memory s) c j).
Proof.
  intros I Lb Tb Hi Nc Gv. pose proof (inv_live B L s I) as V. pose proof (inv_heap B L s I) as W.
  set (s1 := set_memory ((memory s).[b + Bsize_wsize i <- v]) s). assert (I1 : GcMark.inv B L s1) by now apply modify_store_inv.
  pose proof (modify_keeps B L s b i v I Lb Tb Nc Hi Gv) as K. fold s1 in K. set (old := Op_val (memory s) b i).
  assert (Go : pointer old -> good L (memory s1) old).
  { intros Po. apply (good_same B L _ _ old (kp_shape _ _ _ _ K) V). now apply (live_field B L _ V). }
  assert (E1 : forall c j, L c -> tag (memory s1) c = tag (memory s) c /\ wosize (memory s1) c = wosize (memory s) c /\ (0 <= j < wosize (memory s) c -> (c, j) <> (b, i) -> Op_val (memory s1) c j = Op_val (memory s) c j)).
  { intros c j Lc. pose proof (live_in B L _ V c Lc) as Ic. destruct (ss_header B _ _ (kp_shape _ _ _ _ K) c Ic) as (_ & Et & Ew). conj; auto.
    intros Hj N. unfold s1, Op_val; cbn [memory set_memory]; apply upd_other. intros E. destruct (field_not_field B _ c b j i W Ic (live_in B L _ V b Lb) Hj Hi E) as [-> ->]. now apply N. }
  assert (Ev : Op_val (memory s1) b i = v) by apply upd_same. cbn zeta. unfold stored. fold s1 old.
  destruct (caml_gc_phase s1 =? Phase_mark); [|auto].
  pose proof (fun c (Lc : L c) => darken_fields old s1 I1 Go c (live_in B L _ V c Lc)) as D.
  conj; [rewrite darken_table; reflexivity | |].
  - destruct (E1 b i Lb) as (_ & Ew & _). destruct (D b Lb) as (_ & _ & Ef). now rewrite Ef by (rewrite Ew; auto).
  - intros c j Lc. destruct (E1 c j Lc) as (Et & Ew & Ef). destruct (D c Lc) as (Et' & Ew' & Ef'). conj; try congruence.
    intros Hj N. rewrite Ef' by (rewrite Ew; auto). auto.
Qed.

(** C10. The write barrier: whatever is stored in a field of the major heap, every field
    that points to the minor heap is still in the table of remembered locations, also
    when [caml_modify] darkens the value overwritten. *)
Theorem write_barrier_remembers s b i v : GcMark.inv B L s -> cells_in_heap B (memory s) -> remembered s -> L b -> tag (memory s) b < No_scan_tag ->
  0 <= i < wosize (memory s) b -> tag (memory s) b <> Closure_tag -> (pointer v -> good L (memory s) v) ->
  remembered (Gc.caml_modify (b + Bsize_wsize i) v s).
Proof.
  intros I Ci R Lb Tb Hi Nc Gv. destruct (stored_fields s b i v I Lb Tb Hi Nc Gv) as (T2 & Ev & F). cbn zeta in *.
  pose proof (live_in B L _ (inv_live B L s I) b Lb) as Ib. unfold Gc.caml_modify. rewrite (Ci b i Ib Hi).
  change (memory s (b + Bsize_wsize i)) with (Op_val (memory s) b i). fold (stored b i v s). set (old := Op_val (memory s) b i). set (s2 := stored b i v s) in *.
  assert (G : forall tbl, incl (ref_table s) tbl -> (Is_block v = true -> Gc.Is_young v = true -> In (b + Bsize_wsize i) tbl) ->
    forall c j, L c -> tag (memory s2) c < No_scan_tag -> 0 <= j < wosize (memory s2) c ->
    Is_block (Op_val (memory s2) c j) = true -> Gc.Is_young (Op_val (memory s2) c j) = true -> In (c + Bsize_wsize j) tbl).
  { intros tbl It Iv c j Lc. destruct (F c j Lc) as (-> & -> & Ef). intros Tc Hj.
    destruct (Z.eq_dec c b) as [->|Nb]; [destruct (Z.eq_dec j i) as [->|Nj]; [rewrite Ev; auto|]|];
      rewrite Ef by (auto; congruence); intros B1 Y1; apply It; auto. }
  destruct (Is_block v && Gc.Is_young v && negb (Is_block old && Gc.Is_young old)) eqn:Eb.
  - unfold remembered. cbn [memory set_ref_table ref_table]. rewrite T2. apply G; [intros x Hx; now right | intros _ _; now left].
  - unfold remembered. rewrite T2. apply G; [apply incl_refl|]. intros Bv Yv. rewrite Bv, Yv in Eb. cbn [andb] in Eb. apply negb_false_iff in Eb.
    apply andb_true_iff in Eb as [Bo Yo]. now apply R.
Qed.
End Barrier.

(** A pointer to the minor heap is stored while the collector is marking. *)
Lemma write_barrier_remembers_witness : remembered example_live (Gc.caml_modify (4104 + Bsize_wsize 0) 8208 example_start).
Proof.
  assert (C : cycle_inv example_blocks example_live (caml_do_roots example_roots example_gc) example_start) by exact (ci_start _ _ _ _ example_idle example_roots_good).
  apply (write_barrier_remembers example_blocks example_live example_start 4104 0 8208); [exact (ci_inv _ _ _ _ C) | exact (ci_cells _ _ _ _ C) | | vm_compute; tauto | by_vm | split; [discriminate | by_vm] | vm_compute; discriminate |].
  - intros b i Lb Tb Hi _ Y2. unfold example_live in Lb. each Lb; vm_compute in Tb; try discriminate Tb;
      match type of Hi with _ <= _ < ?n => let k := eval vm_compute in n in change n with k in Hi end; each_index Hi; vm_compute in Y2; discriminate Y2.
  - intros [_ P]. vm_compute in P. discriminate P.
Defined.
