(* ===== verification/Lexing.v ===== *)
(** Lexing: the automata of lexers, src/inline-more/byterun/lexing.c: the two engines,
    that they find the longest match, that refilling the buffer changes nothing, and
    that the engine with memory cells finds the same matches. *)
From Stdlib Require Import ZArith Lia String List Bool.
From S2P Require Import Prelude Mlvalues.
Import ListNotations.
Local Open Scope Z_scope.

(** The tables are strings, as lists of bytes. *)
Record lexing_table := Lexing_table {
  lex_base : list Z; lex_backtrk : list Z; lex_default : list Z; lex_trans : list Z; lex_check : list Z;
  lex_base_code : list Z; lex_backtrk_code : list Z; lex_default_code : list Z; lex_trans_code : list Z; lex_check_code : list Z; lex_code : list Z }.
(** The fields that the engines use; integers are tagged. *)
Record lexer_buffer := Lexer_buffer {
  lex_buffer : list Z; lex_buffer_len : Z; lex_start_pos : Z; lex_curr_pos : Z; lex_last_pos : Z; lex_last_action : Z; lex_eof_reached : Z; lex_mem : list Z }.

(** [a.(i)], [Stuck] outside. *)
Definition at_ (l : list Z) (i : Z) : res Z := if i <? 0 then Stuck else of_option (nth_error l (Z.to_nat i)).
Definition put (l : list Z) (i x : Z) : res (list Z) :=
  if (0 <=? i) && (i <? Z.of_nat (length l)) then Ok (firstn (Z.to_nat i) l ++ x :: skipn (S (Z.to_nat i)) l) else Stuck.

Section Engines.
Context {A : Arch}.

(** The [short] at index [n] of a table; the second byte is a [schar]. *)
Definition Short_bytes (tbl : list Z) (n : Z) : res Z :=
  let! lo := at_ tbl (n * 2) in let! hi := at_ tbl (n * 2 + 1) in Ok (lo + Z.shiftl (swrap 8 hi) 8).
Definition Short_native (tbl : list Z) (n : Z) : res Z :=
  let! lo := at_ tbl (n * 2) in let! hi := at_ tbl (n * 2 + 1) in Ok (swrap 16 (lo + Z.shiftl hi 8)).
Definition Short (tbl : list Z) (n : Z) : res Z := if ARCH_BIG_ENDIAN then Short_bytes tbl n else Short_native tbl n.

Definition set_pos (curr last action : Z) (b : lexer_buffer) : lexer_buffer :=
  Lexer_buffer (lex_buffer b) (lex_buffer_len b) (lex_start_pos b) curr last action (lex_eof_reached b) (lex_mem b).
Definition set_start (p : Z) (b : lexer_buffer) : lexer_buffer :=
  Lexer_buffer (lex_buffer b) (lex_buffer_len b) p (lex_curr_pos b) (lex_last_pos b) (lex_last_action b) (lex_eof_reached b) (lex_mem b).
Definition set_eof (v : Z) (b : lexer_buffer) : lexer_buffer :=
  Lexer_buffer (lex_buffer b) (lex_buffer_len b) (lex_start_pos b) (lex_curr_pos b) (lex_last_pos b) (lex_last_action b) v (lex_mem b).
Definition set_mem (m : list Z) (b : lexer_buffer) : lexer_buffer :=
  Lexer_buffer (lex_buffer b) (lex_buffer_len b) (lex_start_pos b) (lex_curr_pos b) (lex_last_pos b) (lex_last_action b) (lex_eof_reached b) m.

(** ** What the engines share *)

(** The state to start from: first entry, or reentry after a refill. *)
Definition start_from (start_state : Z) (b : lexer_buffer) : Z * lexer_buffer :=
  let state := Int_val start_state in
  if 0 <=? state then (state, set_start (lex_curr_pos b) (set_pos (lex_curr_pos b) (lex_curr_pos b) (Val_int (-1)) b))
  else (swrap 32 (- state - 1), b).
(** The next character, 256 at the end of the input; [None] when the buffer has to be
    refilled. *)
Definition read_char (b : lexer_buffer) : res (option (Z * lexer_buffer)) :=
  if lex_buffer_len b <=? lex_curr_pos b then
    Ok (if lex_eof_reached b =? Val_false then None else Some (256, b))
  else
    let! c := at_ (lex_buffer b) (Long_val (lex_curr_pos b)) in
    Ok (Some (c, set_pos (lex_curr_pos b + 2) (lex_last_pos b) (lex_last_action b) b)).
Definition next_state (tbl : lexing_table) (state base c : Z) : res Z :=
  let! k := Short (lex_check tbl) (base + c) in
  if k =? state then Short (lex_trans tbl) (base + c) else Short (lex_default tbl) state.
(** Back to the last match: the result, with the buffer as it is then. *)
Definition last_match (b : lexer_buffer) : res Z * lexer_buffer :=
  (if lex_last_action b =? Val_int (-1) then Raise (Failure "lexing: empty token") else Ok (lex_last_action b),
   set_pos (lex_last_pos b) (lex_last_pos b) (lex_last_action b) b).

(** ** The engine *)

Fixpoint lex_loop (fuel : nat) (tbl : lexing_table) (state : Z) (b : lexer_buffer) : res Z * lexer_buffer :=
  match fuel with
  | O => (Stuck, b)
  | S fuel =>
      match Short (lex_base tbl) state with
      | Ok base =>
          if base <? 0 then (Ok (Val_int (- base - 1)), b)
          else
            match Short (lex_backtrk tbl) state with
            | Ok backtrk =>
                let b := if 0 <=? backtrk then set_pos (lex_curr_pos b) (lex_curr_pos b) (Val_int backtrk) b else b in
                match read_char b with
                | Ok None => (Ok (Val_int (- state - 1)), b)
                | Ok (Some (c, b)) =>
                    match next_state tbl state base c with
                    | Ok state =>
                        if state <? 0 then last_match b
                        else lex_loop fuel tbl state (if c =? 256 then set_eof Val_false b else b)
                    | _ => (Stuck, b)
                    end
                | _ => (Stuck, b)
                end
            | _ => (Stuck, b)
            end
      | _ => (Stuck, b)
      end
  end.
Definition caml_lex_engine (fuel : nat) (tbl : lexing_table) (start_state : Z) (b : lexer_buffer) : res Z * lexer_buffer :=
  let '(state, b) := start_from start_state b in lex_loop fuel tbl state b.

(** ** The engine with memory *)

(** Both code interpreters: [init] is what is stored for a source of 255. *)
Fixpoint run_code (fuel : nat) (code : list Z) (pc init : Z) (mem : list Z) : res (list Z) :=
  match fuel with
  | O => Stuck
  | S fuel =>
      let! dst := at_ code pc in
      if dst =? 255 then Ok mem
      else
        let! src := at_ code (pc + 1) in
        let! v := (if src =? 255 then Ok init else at_ mem src) in
        let! mem := put mem dst v in
        run_code fuel code (pc + 2) init mem
  end.
Definition run_mem (code : list Z) (pc : Z) (mem : list Z) (curr_pos : Z) : res (list Z) := run_code (S (length code)) code pc curr_pos mem.
Definition run_tag (code : list Z) (pc : Z) (mem : list Z) : res (list Z) := run_code (S (length code)) code pc (Val_int (-1)) mem.

(** [Bp_val (tbl->lex_code) + pc_off] *)
Definition perform_tags (tbl : lexing_table) (codes : list Z) (state : Z) (b : lexer_buffer) : res lexer_buffer :=
  let! pc_off := Short codes state in
  let! mem := run_tag (lex_code tbl) pc_off (lex_mem b) in Ok (set_mem mem b).
Definition perform_moves (tbl : lexing_table) (pstate c : Z) (b : lexer_buffer) : res lexer_buffer :=
  let! base_code := Short (lex_base_code tbl) pstate in
  let! k := Short (lex_check_code tbl) (base_code + c) in
  let! pc_off := (if k =? pstate then Short (lex_trans_code tbl) (base_code + c) else Short (lex_default_code tbl) pstate) in
  if 0 <? pc_off then let! mem := run_mem (lex_code tbl) pc_off (lex_mem b) (lex_curr_pos b) in Ok (set_mem mem b) else Ok b.

Fixpoint new_lex_loop (fuel : nat) (tbl : lexing_table) (state : Z) (b : lexer_buffer) : res Z * lexer_buffer :=
  match fuel with
  | O => (Stuck, b)
  | S fuel =>
      match Short (lex_base tbl) state with
      | Ok base =>
          if base <? 0 then
            match perform_tags tbl (lex_base_code tbl) state b with Ok b => (Ok (Val_int (- base - 1)), b) | _ => (Stuck, b) end
          else
            match Short (lex_backtrk tbl) state with
            | Ok backtrk =>
                match (if 0 <=? backtrk then
                         let! b := perform_tags tbl (lex_backtrk_code tbl) state b in Ok (set_pos (lex_curr_pos b) (lex_curr_pos b) (Val_int backtrk) b)
                       else Ok b) with
                | Ok b =>
                    match read_char b with
                    | Ok None => (Ok (Val_int (- state - 1)), b)
                    | Ok (Some (c, b)) =>
                        match next_state tbl state base c with
                        | Ok state' =>
                            if state' <? 0 then last_match b
                            else match perform_moves tbl state c b with
                                 | Ok b => new_lex_loop fuel tbl state' (if c =? 256 then set_eof Val_false b else b)
                                 | _ => (Stuck, b)
                                 end
                        | _ => (Stuck, b)
                        end
                    | _ => (Stuck, b)
                    end
                | _ => (Stuck, b)
                end
            | _ => (Stuck, b)
            end
      | _ => (Stuck, b)
      end
  end.
Definition caml_new_lex_engine (fuel : nat) (tbl : lexing_table) (start_state : Z) (b : lexer_buffer) : res Z * lexer_buffer :=
  let '(state, b) := start_from start_state b in new_lex_loop fuel tbl state b.
End Engines.

(** ** Tables *)

Definition bytes (l : list Z) : Prop := Forall (fun b => 0 <= b < 256) l.

Section Short.
Context {A : Arch}.

Lemma Ok_inj {T} (x y : T) : Ok x = Ok y -> x = y.
Proof. congruence. Qed.
Lemma at_in l i x : at_ l i = Ok x -> In x l.
Proof.
  unfold at_. destruct (i <? 0); [discriminate|]. destruct (nth_error l _) eqn:E; [|discriminate]. intros [= <-]. eapply nth_error_In, E.
Qed.
(** The two readings of a [short] agree, whatever the byte order of the machine. *)
Lemma Short_eq tbl n : bytes tbl -> Short tbl n = Short_bytes tbl n.
Proof.
  intros B. unfold Short. destruct ARCH_BIG_ENDIAN; [reflexivity|]. unfold Short_native, Short_bytes. destruct (at_ tbl (n * 2)) as [lo| |] eqn:E1; auto.
  destruct (at_ tbl (n * 2 + 1)) as [hi| |] eqn:E2; auto. f_equal. apply at_in in E1, E2. apply (proj1 (Forall_forall _ _) B) in E1, E2. cbn beta in *.
  rewrite !Z.shiftl_mul_pow2 by lia. change (2 ^ 8) with 256. unfold swrap. change (2 ^ (16 - 1)) with 32768. change (2 ^ (8 - 1)) with 128. change (2 ^ 16) with 65536. change (2 ^ 8) with 256.
  unfold wrap. change (2 ^ 16) with 65536. change (2 ^ 8) with 256. rewrite !Z.mod_small by lia. zbool; lia.
Qed.
Lemma Short_range tbl n x : bytes tbl -> Short tbl n = Ok x -> -32768 <= x < 32768.
Proof.
  intros B. rewrite Short_eq by auto. unfold Short_bytes. destruct (at_ tbl (n * 2)) as [lo| |] eqn:E1; try discriminate. destruct (at_ tbl (n * 2 + 1)) as [hi| |] eqn:E2; try discriminate.
  intros E. apply Ok_inj in E. subst x. apply at_in in E1, E2. apply (proj1 (Forall_forall _ _) B) in E1, E2. cbn beta in *. rewrite Z.shiftl_mul_pow2 by lia. change (2 ^ 8) with 256.
  unfold swrap, wrap. change (2 ^ (8 - 1)) with 128. change (2 ^ 8) with 256. rewrite !Z.mod_small by lia. zbool; lia.
Qed.

(** Tagged integers. *)
Lemma Val_int_small x : -65536 <= x < 65536 -> Val_int x = 2 * x + 1.
Proof.
  intros H. apply Val_long_small. rewrite Min_long_eq, Max_long_eq. assert (2 ^ 30 <= 2 ^ (WORD - 2)) by (apply Z.pow_le_mono_r; pose proof WORD_pos; lia).
  change (2 ^ 30) with 1073741824 in *. lia.
Qed.
Lemma Int_val_small x : -65536 <= x < 65536 -> Int_val (2 * x + 1) = x.
Proof.
  intros H. unfold Int_val, Long_val. rewrite Z.shiftr_div_pow2 by lia. change (2 ^ 1) with 2. replace ((2 * x + 1) / 2) with x by (apply Z.div_unique with 1; lia).
  apply swrap_small; [lia|]. change (2 ^ (32 - 1)) with 2147483648. lia.
Qed.
Lemma Long_val_tagged x : Long_val (2 * x + 1) = x.
Proof. unfold Long_val. rewrite Z.shiftr_div_pow2 by lia. change (2 ^ 1) with 2. symmetry. apply Z.div_unique with 1; lia. Qed.
End Short.

(** ** The automaton of a table *)

Section Automaton.
Context {A : Arch}.
Variable tbl : lexing_table.

Definition value_or (d : Z) (r : res Z) : Z := match r with Ok x => x | _ => d end.
Definition base_of (s : Z) : Z := value_or 0 (Short (lex_base tbl) s).
(** A final state has an action and no transition; others may have an action. *)
Definition final (s : Z) : bool := base_of s <? 0.
Definition action (s : Z) : option Z :=
  if final s then Some (- base_of s - 1)
  else let k := value_or (-1) (Short (lex_backtrk tbl) s) in if 0 <=? k then Some k else None.
Definition delta (s c : Z) : option Z :=
  if final s then None else let t := value_or (-1) (next_state tbl s (base_of s) c) in if t <? 0 then None else Some t.
Fixpoint run (s : Z) (w : list Z) : option Z :=
  match w with [] => Some s | c :: w => match delta s c with Some t => run t w | None => None end end.
Definition accepts (s : Z) (w : list Z) (a : Z) : Prop := exists t, run s w = Some t /\ action t = Some a.
(** The longest prefix of [w] that is accepted has [k] characters, and action [a]. *)
Definition longest (s : Z) (w : list Z) (k : nat) (a : Z) : Prop :=
  (k <= length w)%nat /\ accepts s (firstn k w) a /\ forall k' a', (k < k' <= length w)%nat -> ~ accepts s (firstn k' w) a'.
Definition no_match (s : Z) (w : list Z) : Prop := forall k a, (k <= length w)%nat -> ~ accepts s (firstn k w) a.
(** The state that waits for more characters. *)
Definition pending (s : Z) (w : list Z) : option Z :=
  match run s w with Some t => if final t then None else Some t | None => None end.

Lemma accepts_nil s a : accepts s [] a <-> action s = Some a.
Proof. unfold accepts. cbn. split; [intros (t & [= <-] & H); exact H | eauto]. Qed.
Lemma accepts_cons s c w a : accepts s (c :: w) a <-> exists t, delta s c = Some t /\ accepts t w a.
Proof.
  unfold accepts. cbn [run]. destruct (delta s c) as [t|]; [|split; [intros (t & H & _); discriminate | intros (t & H & _); discriminate]].
  split; [eauto | intros (t' & [= <-] & H); exact H].
Qed.
Lemma longest_step s c w t k a : delta s c = Some t -> longest t w k a -> longest s (c :: w) (S k) a.
Proof.
  intros D (H1 & H2 & H3). split; [cbn; lia|]. split; [apply accepts_cons; eauto|]. intros [|k'] a' Hk; [lia|]. cbn [firstn length] in *. rewrite accepts_cons.
  intros (t' & D' & Ac). rewrite D in D'. injection D' as <-. exact (H3 k' a' ltac:(lia) Ac).
Qed.
Lemma longest_here s w a : action s = Some a -> (forall c w' t, w = c :: w' -> delta s c = Some t -> no_match t w') -> longest s w 0 a.
Proof.
  intros Ha N. split; [lia|]. split; [now apply accepts_nil|]. intros [|k'] a' Hk; [lia|]. destruct w as [|c w]; cbn [firstn length] in *; [lia|]. rewrite accepts_cons.
  intros (t & D & Ac). exact (N c w t eq_refl D k' a' ltac:(lia) Ac).
Qed.
Lemma no_match_here s w : action s = None -> (forall c w' t, w = c :: w' -> delta s c = Some t -> no_match t w') -> no_match s w.
Proof.
  intros Ha N [|k] a Hk; [cbn [firstn]; rewrite accepts_nil; congruence|]. destruct w as [|c w]; cbn [firstn length] in *; [lia|]. rewrite accepts_cons.
  intros (t & D & Ac). exact (N c w t eq_refl D k a ltac:(lia) Ac).
Qed.
Lemma longest_unique s w k a k' a' : longest s w k a -> longest s w k' a' -> k = k' /\ a = a'.
Proof.
  intros (H1 & H2 & H3) (H1' & H2' & H3'). assert (k = k') as <-.
  { destruct (Nat.lt_trichotomy k k') as [L|[E|L]]; auto; [destruct (H3 k' a'); auto | destruct (H3' k a); auto]. }
  split; auto. destruct H2 as (t & R & Ac), H2' as (t' & R' & Ac'). congruence.
Qed.

(** *** Well-formed tables *)

Record tables_ok (n : Z) : Prop := {
  tk_states : 0 <= n <= 32768;
  tk_bytes : bytes (lex_base tbl) /\ bytes (lex_backtrk tbl);
  tk_base : forall s, 0 <= s < n -> exists b, Short (lex_base tbl) s = Ok b;
  tk_backtrk : forall s, 0 <= s < n -> final s = false -> exists k, Short (lex_backtrk tbl) s = Ok k;
  tk_next : forall s c, 0 <= s < n -> final s = false -> 0 <= c <= 256 -> exists t, next_state tbl s (base_of s) c = Ok t /\ t < n }.

Lemma delta_ok n s c t : tables_ok n -> 0 <= s < n -> 0 <= c <= 256 -> delta s c = Some t -> 0 <= t < n.
Proof.
  intros K Hs Hc. unfold delta. destruct (final s) eqn:F; [discriminate|]. destruct (tk_next n K s c Hs F Hc) as (t' & -> & L). cbn [value_or].
  destruct (Z.ltb_spec t' 0); [discriminate|]. intros [= <-]. lia.
Qed.
Lemma action_range n s a : tables_ok n -> 0 <= s < n -> action s = Some a -> 0 <= a < 32768.
Proof.
  intros K Hs. unfold action. destruct (final s) eqn:F.
  - unfold final, base_of in *. destruct (tk_base n K s Hs) as (b & E). rewrite E in *. cbn [value_or] in *. pose proof (Short_range _ _ _ (proj1 (tk_bytes n K)) E). apply Z.ltb_lt in F. intros [= <-]. lia.
  - destruct (tk_backtrk n K s Hs F) as (k & E). rewrite E. cbn [value_or]. pose proof (Short_range _ _ _ (proj2 (tk_bytes n K)) E). destruct (Z.leb_spec 0 k); [intros [= <-]; lia | discriminate].
Qed.
End Automaton.

(** ** The longest match *)

Section Longest.
Context {A : Arch}.
Variables (tbl : lexing_table) (n : Z).
Hypothesis (K : tables_ok tbl n).
Notation run := (run tbl). Notation final := (final tbl). Notation action := (action tbl). Notation delta := (delta tbl).
Notation longest := (longest tbl). Notation no_match := (no_match tbl). Notation pending := (pending tbl). Notation base_of := (base_of tbl).

(** A buffer with [p] characters read out of [len]. *)
Record buffer_ok (b : lexer_buffer) (p len : Z) : Prop := {
  bo_curr : lex_curr_pos b = 2 * p + 1;
  bo_len : lex_buffer_len b = 2 * len + 1;
  bo_range : 0 <= p <= len /\ len <= Z.of_nat (length (lex_buffer b));
  bo_bytes : bytes (lex_buffer b) }.
(** What is left to read: characters, then 256 at the end of the input. *)
Definition chars (b : lexer_buffer) : list Z :=
  let p := Long_val (lex_curr_pos b) in firstn (Z.to_nat (Long_val (lex_buffer_len b) - p)) (skipn (Z.to_nat p) (lex_buffer b)).
Definition input (b : lexer_buffer) : list Z := chars b ++ if lex_eof_reached b =? Val_false then [] else [256].
(** The position after [k] of them. *)
Definition after (b : lexer_buffer) (k : nat) : Z := lex_curr_pos b + 2 * Z.of_nat (Nat.min k (length (chars b))).

Lemma chars_nil b p len : buffer_ok b p len -> lex_buffer_len b <= lex_curr_pos b -> chars b = [].
Proof. intros [H1 H2 [H3 _] _] L. unfold chars. rewrite H1, H2, !Long_val_tagged in *. replace (len - p) with 0 by lia. reflexivity. Qed.
Lemma chars_cons b p len last act : buffer_ok b p len -> lex_curr_pos b < lex_buffer_len b ->
  exists c, at_ (lex_buffer b) (Long_val (lex_curr_pos b)) = Ok c /\ 0 <= c < 256 /\
  let b' := set_pos (lex_curr_pos b + 2) last act b in chars b = c :: chars b' /\ buffer_ok b' (p + 1) len.
Proof.
  intros [H1 H2 [H3 H4] H5] L. rewrite H1, H2 in L. unfold at_. rewrite H1, Long_val_tagged. destruct (Z.ltb_spec p 0); [lia|].
  destruct (nth_error (lex_buffer b) (Z.to_nat p)) as [c|] eqn:E; [|apply nth_error_None in E; lia]. exists c. split; [reflexivity|].
  split; [now apply (proj1 (Forall_forall _ _) H5), (nth_error_In _ (Z.to_nat p))|]. cbn zeta. split.
  - unfold chars. cbn [set_pos lex_curr_pos lex_buffer_len lex_buffer]. rewrite H1, H2. replace (2 * p + 1 + 2) with (2 * (p + 1) + 1) by lia. rewrite !Long_val_tagged.
    replace (Z.to_nat (len - p)) with (S (Z.to_nat (len - (p + 1)))) by lia. replace (Z.to_nat (p + 1)) with (S (Z.to_nat p)) by lia.
    apply nth_error_split in E as (l1 & l2 & -> & <-).
    assert (S1 : skipn (length l1) (l1 ++ c :: l2) = c :: l2) by (rewrite skipn_app, skipn_all, Nat.sub_diag; reflexivity).
    assert (S2 : skipn (S (length l1)) (l1 ++ c :: l2) = l2).
    { change (c :: l2) with ([c] ++ l2). rewrite app_assoc, skipn_app. replace (S (length l1)) with (length (l1 ++ [c])) by (rewrite length_app; cbn; lia). now rewrite skipn_all, Nat.sub_diag. }
    now rewrite S1, S2.
  - split; cbn [set_pos lex_curr_pos lex_buffer_len lex_buffer]; auto; lia.
Qed.

(** The result of the loop, from the state [s]. *)
Definition lexed (s : Z) (b : lexer_buffer) (r : res Z) (b' : lexer_buffer) : Prop :=
  (lex_buffer b' = lex_buffer b /\ lex_buffer_len b' = lex_buffer_len b /\ lex_start_pos b' = lex_start_pos b /\ lex_mem b' = lex_mem b) /\
  match pending s (input b) with
  | Some t => r = Ok (Val_int (- t - 1)) /\ lex_curr_pos b' = after b (length (input b)) /\ lex_eof_reached b' = Val_false /\
      ((exists k a, longest s (input b) k a /\ lex_last_pos b' = after b k /\ lex_last_action b' = Val_int a) \/
       (no_match s (input b) /\ lex_last_pos b' = lex_last_pos b /\ lex_last_action b' = lex_last_action b))
  | None =>
      (exists k a, longest s (input b) k a /\ r = Ok (Val_int a) /\ lex_curr_pos b' = after b k) \/
      (no_match s (input b) /\ r = (if lex_last_action b =? Val_int (-1) then Raise (Failure "lexing: empty token") else Ok (lex_last_action b)) /\ lex_curr_pos b' = lex_last_pos b)
  end.

Definition others (b b' : lexer_buffer) : Prop :=
  lex_buffer b' = lex_buffer b /\ lex_buffer_len b' = lex_buffer_len b /\ lex_start_pos b' = lex_start_pos b /\ lex_mem b' = lex_mem b.
(** The last match when the state [s] has been seen. *)
Definition noted (s : Z) (b b' : lexer_buffer) : Prop :=
  match action s with
  | Some a => lex_last_pos b' = lex_curr_pos b /\ lex_last_action b' = Val_int a
  | None => lex_last_pos b' = lex_last_pos b /\ lex_last_action b' = lex_last_action b
  end.

Lemma after_0 b : after b 0 = lex_curr_pos b.
Proof. unfold after. cbn [Nat.min]. lia. Qed.

(** No transition. *)
Lemma lexed_dead s b b' c w : input b = c :: w -> delta s c = None -> 0 <= s < n -> others b b' -> noted s b b' ->
  lexed s b (fst (last_match b')) (snd (last_match b')).
Proof.
  intros E D Hs O N. split; [exact O|]. unfold Lexing.pending. rewrite E. cbn [Lexing.run]. rewrite D.
  assert (Nt : forall c' w' t, c :: w = c' :: w' -> delta s c' = Some t -> no_match t w') by (intros c' w' t [= <- <-] D'; congruence).
  unfold noted in N. destruct (action s) as [a|] eqn:Ea; destruct N as [N1 N2].
  - left. exists 0%nat, a. split; [now apply longest_here|]. rewrite after_0. unfold last_match. cbn [fst snd set_pos lex_curr_pos]. rewrite N2. split; [|exact N1].
    pose proof (action_range tbl n s a K Hs Ea). rewrite !Val_int_small by lia. destruct (Z.eqb_spec (2 * a + 1) (2 * -1 + 1)); [lia | reflexivity].
  - right. split; [now apply no_match_here|]. unfold last_match. cbn [fst snd set_pos lex_curr_pos]. now rewrite N1, N2.
Qed.
(** A transition. *)
Lemma lexed_step s t b b2 c r b' : input b = c :: input b2 -> delta s c = Some t -> 0 <= s < n -> others b b2 -> noted s b b2 ->
  (forall k, after b (S k) = after b2 k) -> lexed t b2 r b' -> lexed s b r b'.
Proof.
  intros E D Hs (O1 & O2 & O3 & O4) N Ak [(P1 & P2 & P3 & P4) L]. split; [unfold others in *; repeat split; congruence|].
  assert (Ep : pending s (input b) = pending t (input b2)) by (unfold Lexing.pending; rewrite E; cbn [Lexing.run]; now rewrite D). rewrite Ep.
  assert (Ls : forall k a, longest t (input b2) k a -> longest s (input b) (S k) a /\ after b (S k) = after b2 k) by (intros k a H; rewrite E; split; [eapply longest_step; eauto | apply Ak]).
  assert (Nm : no_match t (input b2) -> forall c' w' t', input b = c' :: w' -> delta s c' = Some t' -> no_match t' w').
  { intros H c' w' t' E' D'. rewrite E in E'. injection E' as <- <-. rewrite D in D'. injection D' as <-. exact H. }
  assert (Here : no_match t (input b2) -> (exists a, longest s (input b) 0 a /\ lex_last_pos b2 = after b 0 /\ lex_last_action b2 = Val_int a /\ 0 <= a < 32768) \/
      (no_match s (input b) /\ lex_last_pos b2 = lex_last_pos b /\ lex_last_action b2 = lex_last_action b)).
  { intros H. unfold noted in N. destruct (action s) as [a|] eqn:Ea; destruct N as [N1 N2].
    - left. exists a. rewrite after_0. pose proof (action_range tbl n s a K Hs Ea). split; [apply longest_here; [exact Ea | exact (Nm H)]|]. auto.
    - right. split; [apply no_match_here; [exact Ea | exact (Nm H)] | auto]. }
  destruct (pending t (input b2)) as [u|].
  - destruct L as (L1 & L2 & L3 & L4). split; [exact L1|]. split; [rewrite L2, E; cbn [length]; now rewrite Ak|]. split; [exact L3|].
    destruct L4 as [(k & a & H & H1 & H2)|(H & H1 & H2)].
    + left. exists (S k), a. destruct (Ls k a H) as [H3 H4]. split; [exact H3|]. split; congruence.
    + destruct (Here H) as [(a & X1 & X2 & X3 & _)|(X1 & X2 & X3)]; [left; exists 0%nat, a; split; [exact X1 | split; congruence] | right; split; [exact X1 | split; congruence]].
  - destruct L as [(k & a & H & H1 & H2)|(H & H1 & H2)].
    + left. exists (S k), a. destruct (Ls k a H) as [H3 H4]. split; [exact H3|]. split; congruence.
    + destruct (Here H) as [(a & X1 & X2 & X3 & X4)|(X1 & X2 & X3)].
      * left. exists 0%nat, a. split; [exact X1|]. split; [|congruence]. rewrite H1, X3, !Val_int_small by lia. destruct (Z.eqb_spec (2 * a + 1) (2 * -1 + 1)); [lia | reflexivity].
      * right. split; [exact X1|]. split; [|congruence]. now rewrite H1, X3.
Qed.
(** A final state. *)
Lemma lexed_final s b : final s = true -> lexed s b (Ok (Val_int (- base_of s - 1))) b.
Proof.
  intros F. split; [repeat split|]. assert (Dn : forall c, delta s c = None) by (intros c; unfold Lexing.delta; now rewrite F).
  assert (Ep : pending s (input b) = None) by (unfold Lexing.pending; destruct (input b) as [|c w]; cbn [Lexing.run]; [now rewrite F | now rewrite Dn]). rewrite Ep.
  left. exists 0%nat, (- base_of s - 1). rewrite after_0. split; [|auto]. apply longest_here; [unfold Lexing.action; now rewrite F | intros c w t _ D; now rewrite Dn in D].
Qed.
(** The end of the buffer. *)
Lemma lexed_refill s b b' : final s = false -> input b = [] -> others b b' -> noted s b b' -> lex_curr_pos b' = lex_curr_pos b -> lex_eof_reached b' = Val_false ->
  lexed s b (Ok (Val_int (- s - 1))) b'.
Proof.
  intros F E O N Ec Ee. split; [exact O|]. unfold Lexing.pending. rewrite E. cbn [Lexing.run length]. rewrite F, after_0. repeat (split; [auto|]). unfold noted in N.
  destruct (action s) as [a|] eqn:Ea; destruct N as [N1 N2].
  - left. exists 0%nat, a. rewrite after_0. split; [apply longest_here; [exact Ea | discriminate] | auto].
  - right. split; [apply no_match_here; [exact Ea | discriminate] | auto].
Qed.

Lemma input_eof b p len : buffer_ok b p len -> lex_buffer_len b <= lex_curr_pos b -> input b = if lex_eof_reached b =? Val_false then [] else [256].
Proof. intros B L. unfold input. now rewrite (chars_nil b p len B L). Qed.
(** [b] after the note of the last match. *)
Definition note (s : Z) (b : lexer_buffer) : lexer_buffer :=
  match action s with Some a => set_pos (lex_curr_pos b) (lex_curr_pos b) (Val_int a) b | None => b end.
Lemma note_ok s b : others b (note s b) /\ noted s b (note s b) /\ lex_curr_pos (note s b) = lex_curr_pos b /\ lex_eof_reached (note s b) = lex_eof_reached b.
Proof. unfold note, noted. destruct (action s); repeat split. Qed.
Lemma note_eq s b k : final s = false -> Short (lex_backtrk tbl) s = Ok k -> (if 0 <=? k then set_pos (lex_curr_pos b) (lex_curr_pos b) (Val_int k) b else b) = note s b.
Proof. intros F E. unfold note, Lexing.action. rewrite F, E. cbn [value_or]. now destruct (0 <=? k). Qed.
Lemma note_buffer s b p len : buffer_ok b p len -> buffer_ok (note s b) p len.
Proof. intros [H1 H2 H3 H4]. unfold note. destruct (action s); split; auto. Qed.

(** Reading a character from a buffer where the last match was noted. *)
Definition got (b : lexer_buffer) (c : Z) (b1 : lexer_buffer) : Prop :=
  0 <= c <= 256 /\ input b = c :: input (if c =? 256 then set_eof Val_false b1 else b1) /\ others b b1 /\
  lex_last_pos b1 = lex_last_pos b /\ lex_last_action b1 = lex_last_action b /\
  (exists p len, buffer_ok (if c =? 256 then set_eof Val_false b1 else b1) p len) /\
  forall k, after b (S k) = after (if c =? 256 then set_eof Val_false b1 else b1) k.
Lemma read_char_spec b p len : buffer_ok b p len ->
  (read_char b = Ok None /\ input b = [] /\ lex_eof_reached b = Val_false) \/ (exists c b1, read_char b = Ok (Some (c, b1)) /\ got b c b1).
Proof.
  intros B. unfold read_char. destruct (Z.leb_spec (lex_buffer_len b) (lex_curr_pos b)) as [L|L].
  - pose proof (input_eof b p len B L) as I. pose proof (chars_nil b p len B L) as Cn. destruct (Z.eqb_spec (lex_eof_reached b) Val_false) as [E|E]; [left; auto|]. right. exists 256, b. split; [reflexivity|].
    assert (Ce : chars (set_eof Val_false b) = chars b) by reflexivity. unfold got. cbn [Z.eqb Pos.eqb]. repeat (split; [try lia; try reflexivity; auto|]).
    + rewrite I. f_equal. unfold input. rewrite Ce, Cn. cbn [set_eof lex_eof_reached app]. now rewrite Z.eqb_refl.
    + repeat split.
    + exists p, len. destruct B. now split.
    + intros k. unfold after. rewrite Ce, Cn. cbn [length]. now rewrite !Nat.min_0_r.
  - right. destruct (chars_cons b p len (lex_last_pos b) (lex_last_action b) B L) as (c & -> & Hc & E & B').
    set (b1 := set_pos (lex_curr_pos b + 2) (lex_last_pos b) (lex_last_action b) b) in *. exists c, b1. split; [reflexivity|]. unfold got. destruct (Z.eqb_spec c 256); [lia|].
    split; [lia|]. split; [unfold input; rewrite E; reflexivity|]. split; [repeat split|]. split; [reflexivity|]. split; [reflexivity|]. split; [eauto|].
    intros k. unfold after. rewrite E. cbn [length]. change (lex_curr_pos b1) with (lex_curr_pos b + 2). rewrite <- Nat.succ_min_distr. lia.
Qed.

Lemma loop_lexed fuel : forall s b p len, buffer_ok b p len -> 0 <= s < n -> (length (input b) < fuel)%nat ->
  lexed s b (fst (lex_loop fuel tbl s b)) (snd (lex_loop fuel tbl s b)).
Proof.
  induction fuel as [|fuel IH]; intros s b p len B Hs Hf; [lia|]. cbn [lex_loop]. destruct (tk_base tbl n K s Hs) as (base & Eb). rewrite Eb.
  assert (Es : base = base_of s) by (unfold Lexing.base_of; now rewrite Eb). rewrite Es. fold (final s). destruct (final s) eqn:F; [now apply lexed_final|].
  destruct (tk_backtrk tbl n K s Hs F) as (k & Ek). rewrite Ek. cbn zeta. rewrite (note_eq s b k F Ek). destruct (note_ok s b) as (No & Nn & Nc & Ne).
  assert (Ni : input (note s b) = input b /\ forall k, after (note s b) k = after b k) by (unfold note; destruct (action s); split; reflexivity). destruct Ni as [Ni Na].
  destruct (read_char_spec (note s b) p len (note_buffer s b p len B)) as [(-> & I & E)|(c & b1 & -> & G)].
  - cbn [fst snd]. apply lexed_refill; auto; congruence.
  - destruct G as (Hc & I & O & L1 & L2 & (p' & len' & B') & Ak). rewrite Ni in I. destruct (tk_next tbl n K s c Hs F Hc) as (t & Et & Ht). rewrite Et.
    assert (D : delta s c = if t <? 0 then None else Some t) by (unfold Lexing.delta; now rewrite F, Et).
    assert (O' : others b b1) by (unfold others in *; intuition congruence).
    assert (N' : noted s b b1) by (unfold noted in *; destruct (action s); rewrite L1, L2; exact Nn). destruct (Z.ltb_spec t 0).
    + eapply lexed_dead; eauto.
    + set (b2 := if c =? 256 then set_eof Val_false b1 else b1) in *. eapply (lexed_step s t b b2 c); eauto.
      * unfold b2. destruct (c =? 256); exact O'.
      * unfold b2. destruct (c =? 256); exact N'.
      * intros j. now rewrite <- Na.
      * apply (IH t b2 p' len' B'); [lia|]. rewrite I in Hf. cbn [length] in Hf. lia.
Qed.
End Longest.

(** ** Refilling the buffer *)

Section Refill.
Context {A : Arch}.
Variables (tbl : lexing_table) (n : Z).
Hypothesis (K : tables_ok tbl n).

(** More fuel changes nothing. *)
Lemma loop_mono f k : forall s b, fst (lex_loop f tbl s b) <> Stuck -> lex_loop (f + k) tbl s b = lex_loop f tbl s b.
Proof.
  induction f as [|f IH]; intros s b H; [now destruct H|]. cbn [lex_loop Nat.add] in *. destruct (Short (lex_base tbl) s) as [base| |]; auto. destruct (base <? 0); auto.
  destruct (Short (lex_backtrk tbl) s) as [k'| |]; auto. cbn zeta in *. destruct (read_char _) as [[[c b1]|]| |]; auto. destruct (next_state tbl s base c) as [t| |]; auto.
  destruct (t <? 0); auto.
Qed.

(** [w] is put after the characters of the buffer. *)
Definition extend (w : list Z) (eof : Z) (b : lexer_buffer) : lexer_buffer :=
  let len := Z.to_nat (Long_val (lex_buffer_len b)) in
  Lexer_buffer (firstn len (lex_buffer b) ++ w) (lex_buffer_len b + 2 * Z.of_nat (length w)) (lex_start_pos b) (lex_curr_pos b) (lex_last_pos b) (lex_last_action b) eof (lex_mem b).

Lemma extend_ok w eof b p len : bytes w -> buffer_ok b p len -> buffer_ok (extend w eof b) p (len + Z.of_nat (length w)).
Proof.
  intros W [H1 H2 [H3 H4] H5]. unfold extend. rewrite H2, Long_val_tagged. split; cbn [lex_curr_pos lex_buffer_len lex_buffer]; auto; [lia | |].
  - rewrite length_app, length_firstn. lia.
  - apply Forall_app. split; [|exact W]. unfold bytes in H5. rewrite <- (firstn_skipn (Z.to_nat len) (lex_buffer b)) in H5. now apply Forall_app in H5.
Qed.
Lemma extend_at w eof b p len : buffer_ok b p len -> p < len -> at_ (lex_buffer (extend w eof b)) p = at_ (lex_buffer b) p.
Proof.
  intros [H1 H2 [H3 H4] _] L. unfold extend, at_. rewrite H2, Long_val_tagged. cbn [lex_buffer]. destruct (Z.ltb_spec p 0); [lia|]. f_equal.
  rewrite nth_error_app1 by (rewrite length_firstn; lia). rewrite nth_error_firstn. destruct (Nat.ltb_spec (Z.to_nat p) (Z.to_nat len)); [reflexivity | lia].
Qed.

(** The loop on the extended buffer joins the one that starts where it stopped. *)
Lemma loop_resume w eof fuel : forall s b p len t b1, buffer_ok b p len -> lex_eof_reached b = Val_false -> 0 <= s < n -> 0 <= t < n ->
  (exists a, lex_last_action b = Val_int a /\ -1 <= a < 32768) -> lex_loop fuel tbl s b = (Ok (Val_int (- t - 1)), b1) ->
  exists j, forall f, lex_loop (j + S f) tbl s (extend w eof b) = lex_loop (S f) tbl t (extend w eof b1).
Proof.
  induction fuel as [|fuel IH]; intros s b p len t b1 B E Hs Ht La H; [discriminate|]. cbn [lex_loop] in H. destruct (tk_base tbl n K s Hs) as (base & Eb). rewrite Eb in H.
  assert (Tr : 2 * (- t - 1) + 1 < 0) by lia. pose proof (tk_states tbl n K) as Nn.
  destruct (Z.ltb_spec base 0) as [L|L].
  { injection H as H _. pose proof (Short_range _ _ _ (proj1 (tk_bytes tbl n K)) Eb). rewrite !Val_int_small in H by lia. lia. }
  assert (F : final tbl s = false) by (unfold final, base_of; rewrite Eb; now apply Z.ltb_ge).
  destruct (tk_backtrk tbl n K s Hs F) as (k & Ek). rewrite Ek in H. cbn zeta in H. rewrite (note_eq tbl s b k F Ek) in H.
  destruct (note_ok tbl s b) as (_ & _ & Nc & Ne). pose proof (note_buffer tbl s b p len B) as Bn. set (bn := note tbl s b) in *.
  assert (Lan : exists a, lex_last_action bn = Val_int a /\ -1 <= a < 32768).
  { unfold bn, note. destruct (action tbl s) as [a|] eqn:Ea; [|exact La]. pose proof (action_range tbl n s a K Hs Ea). exists a. split; [reflexivity | lia]. }
  assert (Ex : note tbl s (extend w eof b) = extend w eof bn) by (unfold bn, note; destruct (action tbl s); reflexivity).
  assert (En : lex_eof_reached bn = Val_false) by congruence. assert (Lb : (base <? 0) = false) by now apply Z.ltb_ge.
  unfold read_char in H. destruct (Z.leb_spec (lex_buffer_len bn) (lex_curr_pos bn)) as [Le|Lt].
  - rewrite En, Z.eqb_refl in H. injection H as Ht' <-. rewrite !Val_int_small in Ht' by lia. assert (s = t) by lia. subst t. exists 0%nat. intros f. cbn [Nat.add lex_loop]. rewrite Eb, Lb, Ek. cbn zeta.
    rewrite !(note_eq tbl s _ k F Ek), Ex. replace (note tbl s (extend w eof bn)) with (extend w eof bn); [reflexivity|]. unfold bn, note. destruct (action tbl s); reflexivity.
  - destruct (chars_cons bn p len (lex_last_pos bn) (lex_last_action bn) Bn Lt) as (c & Ec & Hc & _ & B2). rewrite Ec in H. cbn zeta in B2. set (b2 := set_pos _ _ _ bn) in *.
    destruct (tk_next tbl n K s c Hs F ltac:(lia)) as (u & Eu & Hu). assert (Es : base = base_of tbl s) by (unfold base_of; now rewrite Eb). rewrite <- Es in Eu. rewrite Eu in H.
    destruct (Z.ltb_spec u 0) as [Lu|Lu].
    { exfalso. unfold last_match in H. change (lex_last_action b2) with (lex_last_action bn) in H. destruct Lan as (a & Ea & Ra). rewrite Ea in H.
      destruct (Val_int a =? Val_int (-1)) eqn:Eq; [discriminate|]. injection H as H _. apply Z.eqb_neq in Eq. rewrite !Val_int_small in * by lia. lia. }
    assert (N256 : (c =? 256) = false) by (apply Z.eqb_neq; lia). rewrite N256 in H.
    destruct (IH u b2 (p + 1) len t b1 B2 En ltac:(lia) Ht Lan H) as (j & J). exists (S j). intros f. cbn [Nat.add lex_loop]. rewrite Eb, Lb, Ek. cbn zeta. rewrite (note_eq tbl s _ k F Ek), Ex.
    pose proof Bn as [C1 C2 [C3 C4] _]. unfold read_char. destruct (Z.leb_spec (lex_buffer_len (extend w eof bn)) (lex_curr_pos (extend w eof bn))) as [X|_].
    { unfold extend in X. cbn [lex_buffer_len lex_curr_pos] in X. lia. }
    change (lex_curr_pos (extend w eof bn)) with (lex_curr_pos bn). rewrite C1, Long_val_tagged, (extend_at w eof bn p len Bn) by lia. rewrite C1, Long_val_tagged in Ec. rewrite Ec, Eu, N256.
    destruct (Z.ltb_spec u 0); [lia|]. rewrite <- C1. exact (J f).
Qed.

(** *** The engines from their entry *)

Lemma enter_first s b : 0 <= s < 65536 -> start_from (Val_int s) b = (s, set_start (lex_curr_pos b) (set_pos (lex_curr_pos b) (lex_curr_pos b) (Val_int (-1)) b)).
Proof.
  clear K. intros H. unfold start_from. rewrite (Val_int_small s), Int_val_small by lia. cbn zeta. destruct (Z.leb_spec 0 s); [reflexivity | lia].
Qed.
Lemma enter_again t b : 0 <= t < 65536 -> start_from (Val_int (- t - 1)) b = (t, b).
Proof.
  clear K. intros H. unfold start_from. rewrite (Val_int_small (- t - 1)), Int_val_small by lia. cbn zeta. destruct (Z.leb_spec 0 (- t - 1)); [lia|]. f_equal.
  replace (- (- t - 1) - 1) with t by lia. apply swrap_small; [lia|]. change (2 ^ (32 - 1)) with 2147483648. lia.
Qed.

Lemma engine_longest b p len s fuel : buffer_ok b p len -> 0 <= s < n -> (length (input b) < fuel)%nat ->
  let '(r, b') := caml_lex_engine fuel tbl (Val_int s) b in
  lex_start_pos b' = lex_curr_pos b /\
  match pending tbl s (input b) with
  | Some t => r = Ok (Val_int (- t - 1)) /\ lex_curr_pos b' = after b (length (input b)) /\ lex_eof_reached b' = Val_false
  | None =>
      (exists k a, longest tbl s (input b) k a /\ r = Ok (Val_int a) /\ lex_curr_pos b' = after b k) \/
      (no_match tbl s (input b) /\ r = Raise (Failure "lexing: empty token") /\ lex_curr_pos b' = lex_curr_pos b)
  end.
Proof.
  intros B Hs Hf. unfold caml_lex_engine. pose proof (tk_states tbl n K). rewrite enter_first by lia. set (b0 := set_start _ _).
  assert (B0 : buffer_ok b0 p len) by (destruct B; now split). pose proof (loop_lexed tbl n K fuel s b0 p len B0 Hs Hf) as L.
  destruct (lex_loop fuel tbl s b0) as [r b']. cbn [fst snd] in L. destruct L as [(_ & _ & L & _) M]. split; [exact L|]. change (input b0) with (input b) in M. destruct (pending tbl s (input b)) as [t|].
  - destruct M as (M1 & M2 & M3 & _). auto.
  - destruct M as [M|(M1 & M2 & M3)]; [now left|]. right. change (lex_last_action b0) with (Val_int (-1)) in M2. rewrite Z.eqb_refl in M2. auto.
Qed.

Lemma lexed_not_stuck s b r b' : lexed tbl s b r b' -> r <> Stuck.
Proof.
  clear K. intros [_ L]. destruct (pending tbl s (input b)).
  - destruct L as (-> & _). discriminate.
  - destruct L as [(k & a & _ & -> & _)|(_ & -> & _)]; [discriminate|]. now destruct (_ =? _).
Qed.
Lemma engine_refill w eof b p len s fuel fuel' t b1 : bytes w -> eof = Val_false \/ eof = Val_true -> buffer_ok b p len -> lex_eof_reached b = Val_false -> 0 <= s < n -> 0 <= t < n ->
  caml_lex_engine fuel tbl (Val_int s) b = (Ok (Val_int (- t - 1)), b1) -> (length (input b) + length w + 1 < fuel')%nat ->
  caml_lex_engine fuel' tbl (Val_int (- t - 1)) (extend w eof b1) = caml_lex_engine fuel' tbl (Val_int s) (extend w eof b).
Proof.
  intros W He B E Hs Ht H Hf. unfold caml_lex_engine in *. pose proof (tk_states tbl n K). rewrite (enter_first s b) in H by lia. rewrite enter_again, (enter_first s (extend w eof b)) by lia.
  set (b0 := set_start (lex_curr_pos b) _) in H. assert (B0 : buffer_ok b0 p len) by (destruct B; now split).
  change (set_start _ (set_pos _ _ _ (extend w eof b))) with (extend w eof b0).
  destruct (loop_resume w eof fuel s b0 p len t b1 B0 E Hs Ht ltac:(exists (-1); split; [reflexivity | lia]) H) as (j & J).
  assert (Bx : buffer_ok (extend w eof b0) p (len + Z.of_nat (length w))) by now apply extend_ok.
  assert (Lx : (length (input (extend w eof b0)) < fuel')%nat).
  { pose proof B as [C1 C2 [C3 C4] _]. assert (E' : input b = chars b) by (unfold input; rewrite E, Z.eqb_refl; apply app_nil_r). rewrite E' in Hf.
    unfold input, chars, extend in *. cbn [lex_curr_pos lex_buffer_len lex_buffer lex_eof_reached] in *. change (lex_curr_pos b0) with (lex_curr_pos b). change (lex_buffer b0) with (lex_buffer b). change (lex_buffer_len b0) with (lex_buffer_len b).
    rewrite C1, C2 in *. replace (2 * len + 1 + 2 * Z.of_nat (length w)) with (2 * (len + Z.of_nat (length w)) + 1) by lia. rewrite !Long_val_tagged in *.
    rewrite !length_app, !length_firstn, !length_skipn, !length_app, !length_firstn in *. destruct (eof =? Val_false); cbn [length]; lia. }
  pose proof (loop_lexed tbl n K fuel' s (extend w eof b0) p _ Bx Hs Lx) as Ls. apply lexed_not_stuck in Ls.
  specialize (J (pred fuel')). replace (S (pred fuel')) with fuel' in J by lia. rewrite <- J, Nat.add_comm. now apply loop_mono.
Qed.
End Refill.

(** ** The engine with memory *)

Section Memory.
Context {A : Arch}.
Variables (tbl : lexing_table) (n : Z) (M : nat).
Hypothesis (K : tables_ok tbl n).

(** The moves that the code at [pc] stands for. *)
Inductive program : Z -> list (Z * Z) -> Prop :=
  | program_end pc : at_ (lex_code tbl) pc = Ok 255 -> program pc []
  | program_move pc dst src ms : at_ (lex_code tbl) pc = Ok dst -> dst <> 255 -> at_ (lex_code tbl) (pc + 1) = Ok src -> program (pc + 2) ms -> program pc ((dst, src) :: ms).
Definition in_memory (m : Z * Z) : Prop := 0 <= fst m < Z.of_nat M /\ (snd m = 255 \/ 0 <= snd m < Z.of_nat M).
Definition code_ok (pc : Z) : Prop := exists ms, program pc ms /\ Forall in_memory ms.
(** One move: [dst] gets the content of [src], or [init]. *)
Definition move (init : Z) (mem : list Z) (m : Z * Z) : list Z :=
  let v := if snd m =? 255 then init else nth (Z.to_nat (snd m)) mem 0 in
  firstn (Z.to_nat (fst m)) mem ++ v :: skipn (S (Z.to_nat (fst m))) mem.

Lemma move_length init mem m : in_memory m -> length mem = M -> length (move init mem m) = M.
Proof. intros [H _] E. unfold move. rewrite length_app, length_firstn. cbn [length]. rewrite length_skipn. lia. Qed.
Lemma run_code_moves init pc ms : program pc ms -> Forall in_memory ms -> forall fuel mem, length mem = M -> (length ms < fuel)%nat ->
  run_code fuel (lex_code tbl) pc init mem = Ok (fold_left (move init) ms mem).
Proof.
  clear K. induction 1 as [pc E|pc dst src ms E1 N E2 P IH]; intros F [|fuel] mem Lm Lf; cbn [length] in Lf; try lia; cbn [run_code].
  - now rewrite E.
  - rewrite E1. apply Z.eqb_neq in N. rewrite N, E2. inversion_clear F as [|? ? [H1 H2] Fs]. cbn [fst snd] in *.
    assert (Ev : (if src =? 255 then Ok init else at_ mem src) = Ok (if src =? 255 then init else nth (Z.to_nat src) mem 0)).
    { destruct (Z.eqb_spec src 255); auto. destruct H2 as [|H2]; [lia|]. unfold at_. destruct (Z.ltb_spec src 0); [lia|]. rewrite (nth_error_nth' mem 0) by lia. reflexivity. }
    rewrite Ev. unfold put. destruct (Z.leb_spec 0 dst); [|lia]. destruct (Z.ltb_spec dst (Z.of_nat (length mem))); [|lia]. cbn [andb fold_left].
    rewrite <- (IH Fs fuel (move init mem (dst, src))); [reflexivity | | lia]. now apply move_length.
Qed.
Lemma program_length pc ms : program pc ms -> 0 <= pc -> pc + 2 * Z.of_nat (length ms) < Z.of_nat (length (lex_code tbl)).
Proof.
  clear K. induction 1 as [pc E|pc dst src ms E1 N E2 P IH]; intros Hp.
  - unfold at_ in E. destruct (pc <? 0); [discriminate|]. destruct (nth_error _ _) eqn:En; [|discriminate]. assert (Z.to_nat pc < length (lex_code tbl))%nat by (apply nth_error_Some; congruence). cbn [length]. lia.
  - specialize (IH ltac:(lia)). cbn [length]. lia.
Qed.

(** The code tables lead to such programs. *)
Record codes_ok : Prop := {
  ck_final : forall s, 0 <= s < n -> final tbl s = true -> exists pc, Short (lex_base_code tbl) s = Ok pc /\ 0 <= pc /\ code_ok pc;
  ck_backtrk : forall s k, 0 <= s < n -> final tbl s = false -> Short (lex_backtrk tbl) s = Ok k -> 0 <= k ->
    exists pc, Short (lex_backtrk_code tbl) s = Ok pc /\ 0 <= pc /\ code_ok pc;
  ck_trans : forall s c, 0 <= s < n -> 0 <= c <= 256 -> delta tbl s c <> None -> exists base k pc, Short (lex_base_code tbl) s = Ok base /\
    Short (lex_check_code tbl) (base + c) = Ok k /\ (if k =? s then Short (lex_trans_code tbl) (base + c) else Short (lex_default_code tbl) s) = Ok pc /\ (0 < pc -> code_ok pc) }.
Hypothesis (C : codes_ok).

Lemma run_ok init pc mem : 0 <= pc -> code_ok pc -> length mem = M -> exists mem', run_code (S (length (lex_code tbl))) (lex_code tbl) pc init mem = Ok mem' /\ length mem' = M.
Proof.
  clear K C. intros Hp (ms & P & F) Lm. rewrite (run_code_moves init pc ms P F); [|exact Lm | pose proof (program_length pc ms P Hp); lia]. eexists. split; [reflexivity|].
  clear P Hp. revert mem Lm. induction F as [|m ms Hm F IH]; intros mem Lm; cbn [fold_left]; auto. apply IH. now apply move_length.
Qed.
Lemma tags_ok codes s b : (exists pc, Short codes s = Ok pc /\ 0 <= pc /\ code_ok pc) -> length (lex_mem b) = M ->
  exists mem', perform_tags tbl codes s b = Ok (set_mem mem' b) /\ length mem' = M.
Proof.
  intros (pc & E & Hp & Co) Lm. unfold perform_tags, run_tag. rewrite E. destruct (run_ok (Val_int (-1)) pc (lex_mem b) Hp Co Lm) as (mem' & -> & L'). eauto.
Qed.
Lemma moves_ok s c b : 0 <= s < n -> 0 <= c <= 256 -> delta tbl s c <> None -> length (lex_mem b) = M ->
  exists mem', perform_moves tbl s c b = Ok (set_mem mem' b) /\ length mem' = M.
Proof.
  intros Hs Hc D Lm. destruct (ck_trans C s c Hs Hc D) as (base & k & pc & E1 & E2 & E3 & Co). unfold perform_moves, run_mem. rewrite E1, E2, E3.
  destruct (Z.ltb_spec 0 pc) as [L|L]; [|exists (lex_mem b); split; [now destruct b | exact Lm]].
  destruct (run_ok (lex_curr_pos b) pc (lex_mem b) ltac:(lia) (Co L) Lm) as (mem' & -> & L'). eauto.
Qed.
Lemma read_char_mem m b : read_char (set_mem m b) = match read_char b with Ok (Some (c, b1)) => Ok (Some (c, set_mem m b1)) | r => r end.
Proof.
  unfold read_char. cbn [set_mem lex_buffer_len lex_curr_pos lex_eof_reached lex_buffer lex_last_pos lex_last_action]. destruct (_ <=? _); [destruct (_ =? _); reflexivity|].
  destruct (at_ (lex_buffer b) _); reflexivity.
Qed.
Lemma read_char_keeps b c b1 : read_char b = Ok (Some (c, b1)) -> lex_mem b1 = lex_mem b.
Proof.
  unfold read_char. destruct (_ <=? _); [destruct (_ =? _); [discriminate | now intros [= _ <-]]|]. destruct (at_ _ _); [|discriminate..]. now intros [= _ <-].
Qed.

(** Both loops go through the same states. *)
Lemma new_loop_same m fuel : forall s b p len, buffer_ok b p len -> 0 <= s < n -> length (lex_mem b) = M -> (length (input b) < fuel)%nat ->
  fst (new_lex_loop fuel tbl s b) = fst (lex_loop fuel tbl s (set_mem m b)) /\ set_mem m (snd (new_lex_loop fuel tbl s b)) = snd (lex_loop fuel tbl s (set_mem m b)) /\
  length (lex_mem (snd (new_lex_loop fuel tbl s b))) = M.
Proof.
  induction fuel as [|fuel IH]; intros s b p len B Hs Lm Hf; [lia|]. cbn [new_lex_loop lex_loop]. destruct (tk_base tbl n K s Hs) as (base & Eb). rewrite Eb.
  assert (Es : base = base_of tbl s) by (unfold base_of; now rewrite Eb). destruct (base <? 0) eqn:L.
  { assert (F : final tbl s = true) by (unfold final; now rewrite <- Es). destruct (tags_ok _ s b (ck_final C s Hs F) Lm) as (mem' & -> & L'). cbn [fst snd]. repeat split. exact L'. }
  assert (F : final tbl s = false) by (unfold final; now rewrite <- Es). destruct (tk_backtrk tbl n K s Hs F) as (k & Ek). rewrite Ek. cbn zeta.
  assert (X : exists mem', (if 0 <=? k then let! b := perform_tags tbl (lex_backtrk_code tbl) s b in Ok (set_pos (lex_curr_pos b) (lex_curr_pos b) (Val_int k) b) else Ok b) =
    Ok (set_mem mem' (note tbl s b)) /\ length mem' = M).
  { rewrite <- (note_eq tbl s b k F Ek). destruct (Z.leb_spec 0 k) as [Lk|Lk]; [|exists (lex_mem b); split; [now destruct b | exact Lm]].
    destruct (tags_ok _ s b (ck_backtrk C s k Hs F Ek Lk) Lm) as (mem' & -> & L'). exists mem'. split; [reflexivity | exact L']. }
  destruct X as (mem' & -> & L'). rewrite (note_eq tbl s (set_mem m b) k F Ek). replace (note tbl s (set_mem m b)) with (set_mem m (note tbl s b)) by (unfold note; destruct (action tbl s); reflexivity).
  pose proof (note_buffer tbl s b p len B) as Bn. assert (Ni : input (note tbl s b) = input b) by (unfold note; destruct (action tbl s); reflexivity). set (bn := note tbl s b) in *.
  rewrite !read_char_mem. destruct (read_char_spec bn p len Bn) as [(-> & _)|(c & b1 & -> & G)]; [cbn [fst snd]; repeat split; exact L'|].
  destruct G as (Hc & I & _ & _ & _ & (p' & len' & B') & _). destruct (tk_next tbl n K s c Hs F Hc) as (t & Et & Ht). rewrite Es, Et. destruct (t <? 0) eqn:Lt; [cbn [fst snd]; repeat split; exact L'|].
  assert (D : delta tbl s c <> None) by (unfold delta; rewrite F, Et; cbn [value_or]; rewrite Lt; discriminate).
  destruct (moves_ok s c (set_mem mem' b1) Hs Hc D L') as (mem2 & -> & L2). apply Z.ltb_ge in Lt.
  set (b2 := if c =? 256 then set_eof Val_false b1 else b1) in *.
  replace (if c =? 256 then set_eof Val_false (set_mem mem2 (set_mem mem' b1)) else set_mem mem2 (set_mem mem' b1)) with (set_mem mem2 b2) by (unfold b2; destruct (c =? 256); reflexivity).
  replace (if c =? 256 then set_eof Val_false (set_mem m b1) else set_mem m b1) with (set_mem m (set_mem mem2 b2)) by (unfold b2; destruct (c =? 256); reflexivity).
  apply (IH t (set_mem mem2 b2) p' len'); [destruct B'; now split | lia | exact L2|]. change (input (set_mem mem2 b2)) with (input b2). rewrite Ni in I. rewrite I in Hf. cbn [length] in Hf. lia.
Qed.
End Memory.


(** ** A checker of tables *)

Section Checker.
Context {A : Arch}.
Variables (tbl : lexing_table) (n : Z) (M : nat).
Definition upto (n : Z) : list Z := map Z.of_nat (seq 0 (Z.to_nat n)).
Definition is_ok {T} (r : res T) : bool := match r with Ok _ => true | _ => false end.
Definition state_okb (s : Z) : bool :=
  is_ok (Short (lex_base tbl) s) &&
  (final tbl s || is_ok (Short (lex_backtrk tbl) s) &&
   forallb (fun c => match next_state tbl s (base_of tbl s) c with Ok t => t <? n | _ => false end) (upto 257)).
Definition bytesb : list Z -> bool := forallb (fun b => (0 <=? b) && (b <? 256)).
Definition tables_okb : bool :=
  (0 <=? n) && (n <=? 32768) && bytesb (lex_base tbl) && bytesb (lex_backtrk tbl) && forallb state_okb (upto n).

Fixpoint decode (fuel : nat) (pc : Z) : option (list (Z * Z)) :=
  match fuel with
  | O => None
  | S fuel =>
      match at_ (lex_code tbl) pc with
      | Ok dst =>
          if dst =? 255 then Some []
          else match at_ (lex_code tbl) (pc + 1), decode fuel (pc + 2) with Ok src, Some ms => Some ((dst, src) :: ms) | _, _ => None end
      | _ => None
      end
  end.
Definition in_memoryb (m : Z * Z) : bool := (0 <=? fst m) && (fst m <? Z.of_nat M) && ((snd m =? 255) || (0 <=? snd m) && (snd m <? Z.of_nat M)).
Definition code_okb (pc : Z) : bool := match decode (S (length (lex_code tbl))) pc with Some ms => forallb in_memoryb ms | None => false end.
Definition pc_okb (r : res Z) : bool := match r with Ok pc => (0 <=? pc) && code_okb pc | _ => false end.
Definition codes_okb : bool := forallb (fun s =>
  (negb (final tbl s) || pc_okb (Short (lex_base_code tbl) s)) &&
  (final tbl s || (value_or (-1) (Short (lex_backtrk tbl) s) <? 0) || pc_okb (Short (lex_backtrk_code tbl) s)) &&
  forallb (fun c => match delta tbl s c with
    | None => true
    | Some _ =>
        match Short (lex_base_code tbl) s with
        | Ok base => match Short (lex_check_code tbl) (base + c) with
            | Ok k => match (if k =? s then Short (lex_trans_code tbl) (base + c) else Short (lex_default_code tbl) s) with Ok pc => (pc <=? 0) || code_okb pc | _ => false end
            | _ => false
            end
        | _ => false
        end
    end) (upto 257)) (upto n).

Lemma in_upto m i : 0 <= i < m -> In i (upto m).
Proof. exact (small_index i m). Qed.
Lemma is_ok_ex {T} (r : res T) : is_ok r = true -> exists x, r = Ok x.
Proof. destruct r; [eauto | discriminate..]. Qed.
Lemma bytesb_ok l : bytesb l = true -> bytes l.
Proof. intros H. apply Forall_forall. intros x Hx. apply (proj1 (forallb_forall _ _) H) in Hx. lia. Qed.
Lemma tables_okb_ok : tables_okb = true -> tables_ok tbl n.
Proof.
  unfold tables_okb. rewrite !andb_true_iff. intros ((((H1 & H2) & H3) & H4) & H5).
  assert (St : forall s, 0 <= s < n -> state_okb s = true) by (intros s Hs; apply (proj1 (forallb_forall _ _) H5), in_upto, Hs).
  split; [lia | split; now apply bytesb_ok | | |]; unfold state_okb in St.
  - intros s Hs. specialize (St s Hs). apply andb_true_iff in St as [St _]. now apply is_ok_ex.
  - intros s Hs F. specialize (St s Hs). rewrite F in St. cbn [orb] in St. rewrite !andb_true_iff in St. now apply is_ok_ex.
  - intros s c Hs F Hc. specialize (St s Hs). rewrite F in St. cbn [orb] in St. rewrite !andb_true_iff in St. destruct St as (_ & _ & St).
    apply (proj1 (forallb_forall _ _)) with (x := c) in St; [|apply in_upto; lia]. destruct (next_state _ _ _ _) as [t| |]; try discriminate. exists t. split; [reflexivity | lia].
Qed.
Lemma decode_program fuel : forall pc ms, decode fuel pc = Some ms -> program tbl pc ms.
Proof.
  induction fuel as [|fuel IH]; intros pc ms; [discriminate|]. cbn [decode]. destruct (at_ (lex_code tbl) pc) as [dst| |] eqn:E; try discriminate.
  destruct (Z.eqb_spec dst 255) as [->|N]; [intros [= <-]; now constructor|]. destruct (at_ (lex_code tbl) (pc + 1)) as [src| |] eqn:E2; try discriminate.
  destruct (decode fuel (pc + 2)) as [l|] eqn:Ed; [|discriminate]. intros [= <-]. econstructor; eauto.
Qed.
Lemma code_okb_ok pc : code_okb pc = true -> code_ok tbl M pc.
Proof.
  unfold code_okb. destruct (decode _ pc) as [ms|] eqn:E; [|discriminate]. intros H. exists ms. split; [eapply decode_program, E|]. apply Forall_forall. intros m Hm.
  apply (proj1 (forallb_forall _ _) H) in Hm. unfold in_memoryb, in_memory in *. lia.
Qed.
Lemma pc_okb_ok r : pc_okb r = true -> exists pc, r = Ok pc /\ 0 <= pc /\ code_ok tbl M pc.
Proof. destruct r as [pc| |]; try discriminate. cbn [pc_okb]. rewrite andb_true_iff. intros [H1 H2]. exists pc. split; [reflexivity|]. split; [lia | now apply code_okb_ok]. Qed.
Lemma codes_okb_ok : codes_okb = true -> codes_ok tbl n M.
Proof.
  intros H. assert (St := fun s (Hs : 0 <= s < n) => proj1 (forallb_forall _ _) H s (in_upto n s Hs)). cbn beta in St. split.
  - intros s Hs F. specialize (St s Hs). rewrite F, !andb_true_iff in St. cbn [negb orb] in St. now apply pc_okb_ok.
  - intros s k Hs F E Hk. specialize (St s Hs). rewrite F, E, !andb_true_iff in St. cbn [negb orb value_or] in St. destruct (Z.ltb_spec k 0); [lia|]. cbn [orb] in St. now apply pc_okb_ok.
  - intros s c Hs Hc D. specialize (St s Hs). rewrite !andb_true_iff in St. destruct St as (_ & St). apply (proj1 (forallb_forall _ _)) with (x := c) in St; [|apply in_upto; lia].
    cbn beta in St. destruct (delta tbl s c); [|contradiction]. destruct (Short (lex_base_code tbl) s) as [base| |]; try discriminate.
    destruct (Short (lex_check_code tbl) (base + c)) as [k| |] eqn:Ek; try discriminate. destruct (if k =? s then _ else _) as [pc| |] eqn:Ep; try discriminate.
    exists base, k, pc. repeat (split; [auto|]). intros Hp. apply code_okb_ok. destruct (Z.leb_spec pc 0); [lia | exact St].
Qed.
End Checker.

(** ** The theorems *)

Section Theorems.
Context {A : Arch}.
Variables (tbl : lexing_table) (n : Z).

(** C24. The longest match. From a state of well-formed tables, [caml_lex_engine] accesses
    nothing out of bounds and ends. If some prefix of what the buffer holds (followed by
    256 at the end of the input) is accepted by the automaton, and the whole of it
    does not lead to a state that waits for more, the result is the action of the
    longest one and the position is after it; if none is, [Failure] is raised at the
    start; otherwise the result is the code of the state that waits. *)
Theorem lex_engine_longest b p len s fuel : tables_ok tbl n -> buffer_ok b p len -> 0 <= s < n -> (length (input b) < fuel)%nat ->
  let '(r, b') := caml_lex_engine fuel tbl (Val_int s) b in
  lex_start_pos b' = lex_curr_pos b /\
  match pending tbl s (input b) with
  | Some t => r = Ok (Val_int (- t - 1)) /\ lex_curr_pos b' = after b (length (input b)) /\ lex_eof_reached b' = Val_false
  | None =>
      (exists k a, longest tbl s (input b) k a /\ r = Ok (Val_int a) /\ lex_curr_pos b' = after b k) \/
      (no_match tbl s (input b) /\ r = Raise (Failure "lexing: empty token") /\ lex_curr_pos b' = lex_curr_pos b)
  end.
Proof. intros K. now apply (engine_longest tbl n K). Qed.

(** C25. Refilling the buffer changes nothing: when the engine has stopped at the end of
    the buffer with the code of a state, and characters [w] are added to the buffer,
    or the end of the input is met, going on from that state gives the same result and
    the same buffer as the engine started again on the whole text. *)
Theorem lex_refill_transparent w eof b p len s fuel fuel' t b1 : tables_ok tbl n -> bytes w -> eof = Val_false \/ eof = Val_true ->
  buffer_ok b p len -> lex_eof_reached b = Val_false -> 0 <= s < n -> 0 <= t < n ->
  caml_lex_engine fuel tbl (Val_int s) b = (Ok (Val_int (- t - 1)), b1) -> (length (input b) + length w + 1 < fuel')%nat ->
  caml_lex_engine fuel' tbl (Val_int (- t - 1)) (extend w eof b1) = caml_lex_engine fuel' tbl (Val_int s) (extend w eof b).
Proof. intros K W He B E Hs Ht H Hf. eapply (engine_refill tbl n K); eauto. Qed.

(** C26. The engine with memory cells, on well-formed tables and code, accesses nothing
    out of bounds, the cells included, ends, and finds the same matches: its result is
    that of [caml_lex_engine], and the buffers differ in the memory cells only. *)
Theorem new_lex_engine_same b p len s M fuel : tables_ok tbl n -> codes_ok tbl n M -> buffer_ok b p len -> 0 <= s < n -> length (lex_mem b) = M -> (length (input b) < fuel)%nat ->
  let '(r, b') := caml_new_lex_engine fuel tbl (Val_int s) b in
  r <> Stuck /\ length (lex_mem b') = M /\ caml_lex_engine fuel tbl (Val_int s) b = (r, set_mem (lex_mem b) b').
Proof.
  intros K C B Hs Lm Hf. unfold caml_new_lex_engine, caml_lex_engine. pose proof (tk_states tbl n K). rewrite enter_first by lia. set (b0 := set_start _ _).
  assert (B0 : buffer_ok b0 p len) by (destruct B; now split). destruct (new_loop_same tbl n M K C (lex_mem b) fuel s b0 p len B0 Hs Lm Hf) as (E1 & E2 & E3).
  pose proof (loop_lexed tbl n K fuel s b0 p len B0 Hs Hf) as L. apply lexed_not_stuck in L. change (set_mem (lex_mem b) b0) with b0 in E1, E2.
  destruct (new_lex_loop fuel tbl s b0) as [r b']. cbn [fst snd] in *. destruct (lex_loop fuel tbl s b0) as [r0 b0']. cbn [fst snd] in *. subst r0 b0'. auto.
Qed.
End Theorems.

(** ** An example: the tokens a (action 0) and abc (action 1) *)

Module Example_lexer.
#[local] Existing Instance arch64.
Definition shorts (l : list Z) : list Z := flat_map (fun x => [x mod 256; x / 256 mod 256]) l.
Definition table (size : Z) (l : list (Z * Z)) : list Z :=
  shorts (map (fun i => match find (fun p => fst p =? i) l with Some (_, x) => x | None => -1 end) (upto size)).
Definition tbl : lexing_table := {|
  lex_base := shorts [0; 1; 2; -2]; lex_backtrk := shorts [-1; 0; -1; -1]; lex_default := shorts [-1; -1; -1; -1];
  lex_trans := table 259 [(97, 1); (99, 2); (101, 3)]; lex_check := table 259 [(97, 0); (99, 1); (101, 2)];
  lex_base_code := shorts [0; 0; 0; 0]; lex_backtrk_code := shorts [0; 0; 0; 0]; lex_default_code := shorts [0; 0; 0; 0];
  lex_trans_code := table 257 [(98, 1)]; lex_check_code := table 257 [(98, 1)]; lex_code := [255; 0; 255; 255] |}.
Definition buffer (text : string) (eof : Z) : lexer_buffer :=
  Lexer_buffer (bytes_of text) (Val_int (Z.of_nat (length (bytes_of text)))) 1 1 1 (Val_int (-1)) eof [Val_int 7].

(** After "abd" the engine goes back to the end of "a"; after "ab" it waits in state 2. *)
Example lexer_runs :
  (let '(r, b) := caml_lex_engine 10 tbl (Val_int 0) (buffer "abd" Val_false) in (r, lex_curr_pos b) = (Ok (Val_int 0), Val_int 1)) /\
  (let '(r, b) := caml_lex_engine 10 tbl (Val_int 0) (buffer "abc" Val_false) in (r, lex_curr_pos b) = (Ok (Val_int 1), Val_int 3)) /\
  (let '(r, b) := caml_lex_engine 10 tbl (Val_int 0) (buffer "ab" Val_false) in (r, lex_curr_pos b) = (Ok (Val_int (-3)), Val_int 2)) /\
  (let '(r, b) := caml_lex_engine 10 tbl (Val_int 0) (buffer "ab" Val_true) in (r, lex_curr_pos b) = (Ok (Val_int 0), Val_int 1)) /\
  (let '(r, b) := caml_lex_engine 10 tbl (Val_int 0) (buffer "b" Val_false) in r = Raise (Failure "lexing: empty token")) /\
  (let '(r, b) := caml_new_lex_engine 10 tbl (Val_int 0) (buffer "abc" Val_false) in (r, lex_mem b) = (Ok (Val_int 1), [Val_int 2])).
Proof. vm_compute. auto 10. Qed.

Lemma tbl_ok : tables_ok tbl 4.
Proof. apply tables_okb_ok. by_vm. Qed.
Lemma codes : codes_ok tbl 4 1.
Proof. apply codes_okb_ok. by_vm. Qed.
Lemma buffer_abd eof : buffer_ok (buffer "abd" eof) 0 3.
Proof. split; [reflexivity | reflexivity | cbn; lia | repeat constructor; discriminate]. Qed.

Lemma lex_engine_longest_witness : let '(r, b') := caml_lex_engine 4 tbl (Val_int 0) (buffer "abd" Val_false) in
  lex_start_pos b' = lex_curr_pos (buffer "abd" Val_false) /\
  match pending tbl 0 (input (buffer "abd" Val_false)) with
  | Some t => r = Ok (Val_int (- t - 1)) /\ lex_curr_pos b' = after (buffer "abd" Val_false) (length (input (buffer "abd" Val_false))) /\ lex_eof_reached b' = Val_false
  | None =>
      (exists k a, longest tbl 0 (input (buffer "abd" Val_false)) k a /\ r = Ok (Val_int a) /\ lex_curr_pos b' = after (buffer "abd" Val_false) k) \/
      (no_match tbl 0 (input (buffer "abd" Val_false)) /\ r = Raise (Failure "lexing: empty token") /\ lex_curr_pos b' = lex_curr_pos (buffer "abd" Val_false))
  end.
Proof.
  assert (H0 : 0 <= 0 < 4) by lia. assert (Hf : (length (input (buffer "abd" Val_false)) < 4)%nat) by (apply Nat.ltb_lt; by_vm).
  exact (lex_engine_longest tbl 4 (buffer "abd" Val_false) 0 3 0 4 tbl_ok (buffer_abd _) H0 Hf).
Defined.

Definition waiting : lexer_buffer := snd (caml_lex_engine 9 tbl (Val_int 0) (buffer "ab" Val_false)).
Lemma stopped : caml_lex_engine 9 tbl (Val_int 0) (buffer "ab" Val_false) = (Ok (Val_int (- (2) - 1)), waiting).
Proof. by_vm. Qed.
Lemma buffer_ab eof : buffer_ok (buffer "ab" eof) 0 2.
Proof. split; [reflexivity | reflexivity | cbn; lia | repeat constructor; discriminate]. Qed.
Lemma lex_refill_transparent_witness :
  caml_lex_engine 9 tbl (Val_int (- (2) - 1)) (extend (bytes_of "ca") Val_false waiting) =
  caml_lex_engine 9 tbl (Val_int 0) (extend (bytes_of "ca") Val_false (buffer "ab" Val_false)).
Proof.
  assert (W : bytes (bytes_of "ca")) by (repeat constructor; discriminate). assert (H0 : 0 <= 0 < 4) by lia. assert (H2 : 0 <= 2 < 4) by lia.
  assert (Hf : (length (input (buffer "ab" Val_false)) + length (bytes_of "ca") + 1 < 9)%nat) by (apply Nat.ltb_lt; by_vm).
  exact (lex_refill_transparent tbl 4 (bytes_of "ca") Val_false (buffer "ab" Val_false) 0 2 0 9 9 2 waiting tbl_ok W (or_introl eq_refl) (buffer_ab _) eq_refl H0 H2 stopped Hf).
Defined.

Lemma new_lex_engine_same_witness : let '(r, b') := caml_new_lex_engine 4 tbl (Val_int 0) (buffer "abd" Val_false) in
  r <> Stuck /\ length (lex_mem b') = 1%nat /\ caml_lex_engine 4 tbl (Val_int 0) (buffer "abd" Val_false) = (r, set_mem (lex_mem (buffer "abd" Val_false)) b').
Proof.
  assert (H0 : 0 <= 0 < 4) by lia. assert (Hf : (length (input (buffer "abd" Val_false)) < 4)%nat) by (apply Nat.ltb_lt; by_vm).
  exact (new_lex_engine_same tbl 4 (buffer "abd" Val_false) 0 3 0 1 4 tbl_ok codes (buffer_abd _) H0 eq_refl Hf).
Defined.
End Example_lexer.
